(* ===== verification/_CoqProject ===== *)
-Q . S2P
Prelude.v
Primitives.v
NodePath.v
Node.v
Codec.v
NodeCodec.v
Trie.v
NodeStore.v
Linear.v
Header.v
Alloc.v
AllocCorrect.v
Cells.v
PersistIter.v
Reap.v
RangeSet.v
ChildMask.v
Rlp.v
RlpSplice.v
PersistWorker.v
Merkle.v
MerkleSpec.v
MerkleInsert.v
MerkleRemove.v
TrieCanonical.v
MerkleCorrect.v
Hashing.v
HashSpec.v
HashHelper.v
EthHash.v
HashBinding.v
Placed.v
Iter.v
IterSpec.v
ProofTypes.v
KeyProof.v
KeyProofSound.v
KeyProofComplete.v
ProofWire.v
ProofWireSpec.v
ProofWireCorrect.v
RangeProof.v
RangeMarks.v
RangeAccept.v
RangeGaps.v
RangeHash.v
RangeTrie.v
RangeRebuild.v
RangeSound.v
RevManager.v
RevManagerCorrect.v
RevManagerRun.v
RevManagerProps.v
Batch.v
Diff.v
DiffRef.v
DiffSpec.v
DiffCorrect.v
Merge.v
ChangeProof.v
ChangeStructure.v
ChangeCollapse.v
ChangeSound.v
ProofGen.v
ProofGenSpec.v
RangeComplete.v
Parallel.v
ParallelSpec.v
ParallelCorrect.v
ParallelRun.v
Persist.v
PersistCorrect.v
PersistLoop.v
PersistDurable.v
Checker.v
CheckerRead.v
CheckerTrie.v
CheckerFree.v
CheckerSound.v
CheckerSplit.v
