(* ===== verification/Prelude.v ===== *)
(** * Firewood: a verified model of the trie store

    Firewood keeps a Merkle trie of key-value pairs in one file.  A proposal
    edits the trie in memory, copying the nodes on the changed paths; a commit
    queues the new revision; a background thread writes the new nodes into areas
    of the file and, when an old revision expires, returns the areas of the nodes
    it deleted to free lists.  Each revision has a root hash, in
    the style of MerkleDB or of Ethereum; proofs let a client that knows only the
    root hash check one key or a range of keys.  This library models the store from
    the bytes of a node up to the operations on the trie, its hashing, iteration,
    differences and proofs, the manager that keeps the revisions and serialises the
    commits, the parallel application of batches, and the hand-over between the commit
    path and the background thread.
    All paths below are under [src/].

    ** The parts and their files

    - [Prelude]: results, machine integers with their width, readers over byte
      sources, the development's tactics.
    - [Primitives] ([storage/src/nodestore/primitives.rs], the table of
      [storage/build.rs]): the 23 area sizes, [AreaIndex], [LinearAddress].
    - [NodePath] ([storage/src/node/path.rs]): nibble paths, the double-ended
      [NibblesIterator], the flagged encoding.
    - [Node] ([storage/src/path/component.rs], [node/children.rs],
      [node/mod.rs], [node/branch.rs], [node/leaf.rs], [node/persist.rs]): nodes,
      children arrays, children in memory, allocated or on disk.
    - [Codec] and [NodeCodec]: integers and nodes as bytes ([Node::as_bytes],
      [Node::from_reader], the child hashes of [hashtype.rs] and
      [hashers/merkledb.rs]).  The varints of the [integer_encoding] crate are the
      class [VarInt] with the laws [VarIntLaws]; [Codec.Leb128] is an instance.
    - [Trie]: the abstract trie of a store, its contents and its canonical form.
    - [NodeStore] ([storage/src/nodestore/mod.rs]): the mutable store, reads
      through the node cache, the delete list; the class [ReadableStorage] with
      its laws, and the relation [rnode] between a node with its stored parts and
      an abstract trie.
    - [Linear] ([storage/src/linear/]): [MemStore], the caching file store
      [FileBacked] and its [PredictiveReader]; the class [WritableStorage] with
      its laws.  The LRU caches, [write_all_at] and [read_at] are classes.
    - [Header] ([storage/src/nodestore/header.rs], [hash_algo.rs], [flush_to] of
      [persist.rs]): the 2048-byte header, its validation and versions.
    - [Alloc], [AllocCorrect] ([storage/src/nodestore/alloc.rs]): free areas,
      the allocator, the free-list iterators, and their invariant.
    - [Cells], [PersistIter], [Persist] ([storage/src/node/persist.rs],
      [storage/src/nodestore/persist.rs]): the shared cells of the nodes in memory, the
      order in which the nodes of a revision are written, the batches of writes, and the
      header at the end; [PersistCorrect], [PersistLoop] and [PersistDurable] show what
      is on the disk after each write.
    - [Reap] ([NodeStore::reap_deleted]): freeing what a revision deleted.
    - [RangeSet] ([storage/src/checker/range_set.rs]): the coalescing ranges with
      which the checker finds leaked and overlapping areas.
    - [Checker] ([storage/src/checker/mod.rs]): the traversal of the trie and of the free
      lists, the report with its statistics, the repair of free lists, the splitting of
      leaked ranges; [CheckerRead] (reading arbitrary bytes), [CheckerTrie],
      [CheckerFree], [CheckerSound] and [CheckerSplit] have what they establish.
    - [ChildMask] ([firewood/src/merkle/childmask.rs]): child bitmaps of proofs.
    - [Rlp], [RlpSplice] ([storage/src/rlp.rs]): the Ethereum list encoding, and
      the replacement of one field of an encoded list.
    - [PersistWorker] ([firewood/src/persist_worker.rs]): the permit channel as
      functions, and the committing and the background thread as a step relation.
    - [Merkle] ([firewood/src/merkle/mod.rs]): lookup, [insert_helper],
      [remove_helper], [remove_prefix_helper], [flatten_branch],
      [insert_branch_helper] as operations of a state and error monad on the
      store; [MerkleSpec], [MerkleInsert], [MerkleRemove], [TrieCanonical] and
      [MerkleCorrect] relate them to finite maps.
    - [Hashing] ([storage/src/hashednode.rs], [hashedshunt.rs], [eth_encoding.rs],
      [hashers/], [nodestore/hash.rs]): the two preimages of a node and
      [hash_helper], which hashes a proposal.  SHA-256 and Keccak-256 are the class
      [Digests].  [HashSpec] gives the hash of an abstract trie, [HashHelper] shows
      that [hash_helper] computes it, [EthHash] and [HashBinding] are about the two
      preimages, and [Placed] shows that the operations of [Merkle] keep the stored
      hashes of a trie right.
    - [Iter], [IterSpec] ([firewood/src/iter.rs]): the node, pair, range and path
      iterators.
    - [ProofTypes], [KeyProof] ([firewood/src/proofs/types.rs], [Merkle::prove]):
      proofs of one key; [KeyProofSound] and [KeyProofComplete].
    - [ProofWire], [ProofWireSpec], [ProofWireCorrect] ([firewood/src/proofs/ser.rs],
      [de.rs], [frame.rs], [header.rs], [reader.rs]): proofs as messages.  The slice
      decoder of varints and zstd are the classes [DecodeVar] and [Zstd].
    - [RangeProof] ([verify_range_proof] and what it calls in
      [firewood/src/merkle/mod.rs], [merkle/reconcile.rs] and [proofs/range.rs]):
      the verification of range proofs; [RangeMarks] (which children a verifier
      takes from the proof), [RangeAccept] (the conditions of acceptance),
      [RangeHash] (the hash of the rebuilt trie), [RangeTrie] (its contents),
      [RangeRebuild] (the rebuilding of a trie from a true proof),
      [RangeSound] and [RangeGaps] (two proofs that are accepted and should not be).
    - [ChangeProof] ([firewood/src/proofs/change.rs], [firewood/src/merkle/collapse.rs],
      [verify_change_proof_root_hash] of [firewood/src/merkle/mod.rs]): the two steps in
      which change proofs are verified; [ChangeStructure] (the first step),
      [ChangeCollapse] (the collapse of the proving trie) and [ChangeSound].
    - [ProofGen] ([Merkle::range_proof] and [Merkle::change_proof]): making range and
      change proofs; [ProofGenSpec] says what they hold, [RangeComplete] that the range
      proofs are accepted.
    - [RevManager] ([firewood/src/manager.rs], [root_store.rs], the parents of
      [storage/src/nodestore/mod.rs]): the queue of revisions with its index by hash,
      the live proposals in an arena with their parent links, the critical section of
      a commit, rebasing, opening and views.  What is outside (the background worker,
      the file of the root store, handles that clients hold, the rebase of a
      proposal) is the record [surroundings], one per call.  [RevManagerCorrect] has
      the invariant and the outcome of each operation, [RevManagerRun] operations in
      any order, [RevManagerProps] the theorems.
    - [Batch] ([apply_batch_serial] of [firewood/src/manager.rs], [firewood/src/api.rs]): a batch of
      operations with its key limit.
    - [Diff] ([firewood/src/merkle/changes.rs]): the traversal of two tries in step
      over the class [HashedNodeReader]; [DiffRef] is a difference of sorted lists,
      [DiffSpec] relates the two, [DiffCorrect] has the theorems.
    - [Merge] ([firewood/src/merkle/merge.rs]): a sorted range of pairs as a batch.
    - [Parallel] ([firewood/src/merkle/parallel.rs], [UseParallel] and [apply_batch] of
      [firewood/src/manager.rs]): a batch split over one worker per first nibble; the
      coordinator, the workers, the pool and the channels are one state, and an action
      of one thread is a step of it, so that a schedule is a list of threads.
      [ParallelSpec] (the slots of the root), [ParallelCorrect] (each step) and
      [ParallelRun] (whole runs) have what a batch does.

    ** What the theorems show

    - The trie: any sequence of operations, on a trie that is partly in memory and
      partly on disk, behaves as on a finite map and keeps the trie canonical
      ([merkle_refines_map]); the delete list accounts for every stored node
      ([delete_list_exact]); equal contents give equal tries
      ([history_independence]).
    - Bytes: nodes, headers, free areas, paths, keys, child hashes and RLP lists
      read back as they were written; RLP has one encoding per list; a stored node
      is never taken for a free area; encoding fails only for lack of space.
    - Hashes: [hash_helper] gives the hash that the contents determine, with the
      storage roots of accounts spliced into their values and nothing else changed
      ([hash_helper_correct]); it does not
      depend on what was in memory ([root_hash_deterministic]), so that after any sequence
      of operations the root hash is that of the map ([proposal_root_hash]); under
      MerkleDB equal
      root hashes mean equal contents or an exhibited SHA-256 collision
      ([root_hash_binding]).
    - Iteration: a range iterator yields exactly the pairs of the range, in order
      ([range_iteration_exact]).
    - Proofs: the proof that [prove] makes verifies, in both modes
      ([prove_complete]); whatever verifies is true of the trie, or a collision is
      exhibited ([verify_sound]); proofs survive the wire and what is read is within
      the limits of the format ([proof_wire_roundtrip], [accepted_proofs_wf]).
      A range proof that is accepted lists exactly the pairs of the proven range, or
      a collision is exhibited ([range_proof_sound]), but for two gaps
      ([range_proof_hides_long_value], [range_proof_unverified_end]); and every range
      proof that a store makes lists the pairs that were asked for and is accepted
      ([range_proof_complete]).  A change proof is accepted by the first step exactly if
      its structure is in order ([change_structure_exact]); if the second step accepts
      it, the proposal agrees with the end revision on the whole range, or a collision
      is exhibited ([change_proof_sound]); and the change proofs that a store makes hold
      exactly the differences in the range and pass the first step
      ([change_proof_exact]).
    - Parallel batches: however the threads are scheduled, a batch ends, without a
      deadlock, with the trie that the serial application makes, with right hashes and
      an exact delete list ([parallel_batch_correct]).
    - Revisions: on every sequence of operations the queue, its index and the
      proposals stay consistent ([manager_invariant]); a proposal is committed only
      on top of the latest revision ([commit_serializable]) or after its batch was
      replayed there ([commit_with_rebase_correct]); the queue keeps to its bound
      ([queue_bounded]); a view by hash has that hash ([view_sound]).  Two
      behaviours of the manager are shown to lose something
      ([index_forgets_live_revision], [trivial_commit_loses_deletions]).
    - Differences: the traversal ends and yields exactly the keys that differ
      ([diff_exact]), and applying it to one trie gives the other
      ([diff_transforms]); merging a range replaces exactly that range
      ([merge_replaces_range]).
    - Space: live and free areas never overlap; allocation takes the best-fitting
      class and reuses freed areas first; freeing and reaping keep the invariant
      even when the disk fails half way; the free-list iterator meets every free
      area once; the range sets compute unions, overlaps and complements exactly.
    - The checker: on a file with any bytes it ends, and a report without errors means
      that the trie can be read with the right root hash and that nodes and free areas
      are a partition of the file ([check_sound]), but a path byte that is not a nibble
      makes it panic ([corrupt_path_panics]); a leaked range is split into areas
      that fill it ([split_range_exact]).
    - Persistence: after [persist] the disk alone holds the new revision, or, whichever
      write failed, still the old one, and the allocator and the disk agree
      ([persist_durable]); accepted commits
      outrun the disk by at most the configured gap; no wakeup is lost, so every
      commit and every close returns on every schedule; a close that reports no
      error has persisted the last commit; a refused commit reports an error.

    ** Conventions

    A [u8], [u64] or [usize] (64 bits) is a [Z] with its range; wrapping, checked
    and saturating operations are written out.  A byte string is a [list Z].  A
    panic (a failed [expect], an impossible allocation) is the failure [Panic]; an
    [io::Error] is an [IoFailure].  Memory does not run out: a vector
    with a capacity of at most [isize::MAX] bytes can be allocated.  Interior-mutable storage is passed explicitly.
    Recursion that is not structural takes fuel and fails with [Diverges] without
    it: the trie operations need more fuel than the length of the key in nibbles
    (prefix removal: than the height of the trie), which [op_ok] and [contents]
    bound; [persist] needs more than the number of unpersisted nodes and its iterator
    twice that and one; the checker needs the size of the file in areas of 16 bytes and
    the number of lists; a
    [read_exact] of [n] bytes needs [n + 1] reads; the loops of [Rlp] run at most
    once per byte; hashing and the verifier of range proofs need the height of the
    trie, collecting a path twice the length of the key and two; a difference takes
    at most as many rounds as twice the nodes of the two tries and two; a merge at
    most the pairs of both sides and one; making a range proof needs more than twice
    the pairs of the map, making a change proof what the difference needs and more than
    the number of differences; a run of a parallel batch has at most 120 steps for each
    operation and two.  The theorems state the success of the
    operation with that much fuel.

    ** What is not modelled

    Metrics, logging and tracing leave no trace in the state.  The FFI, the tools and the
    dumps of tries as graphs call what is modelled and add marshalling and text.  Opening and
    locking files and io_uring are the operating system's: the storage is a class with
    laws, and a single write to the file happens as a whole or not at all.  The
    generic path types ([storage/src/path/]) and the in-memory tries
    ([storage/src/tries/]) are other representations of what is here a list of nibbles
    and a finite map, and the conversion of proofs to the format of Ethereum clients is left out.  A request
    of a parallel worker is one step: the workers share only the storage, which they
    read, and the channels. *)

From stdpp Require Export base tactics numbers list list_numbers gmap sets.
From Stdlib Require Export ZArith Lia.

Open Scope Z_scope.

(** ** Fallible computations

    [Result<A, E>] of the source. *)
Inductive result (E A : Type) : Type :=
| Ok (a : A)
| Err (e : E).
Arguments Ok {E A} a.
Arguments Err {E A} e.

#[export] Instance result_ret {E} : MRet (result E) := fun _ a => Ok a.
#[export] Instance result_bind {E} : MBind (result E) :=
  fun _ _ f m => match m with Ok a => f a | Err e => Err e end.
#[export] Instance result_fmap {E} : FMap (result E) :=
  fun _ _ f m => match m with Ok a => Ok (f a) | Err e => Err e end.

(** [Option::ok_or]. *)
Definition ok_or {E A} (o : option A) (e : E) : result E A :=
  match o with Some a => Ok a | None => Err e end.

(** The kinds of [std::io::Error] the storage crate raises. *)
Inductive io_error : Type :=
| UnexpectedEof
| InvalidData
| OutOfMemory
| Unsupported
| OtherError.

(** What ends an operation early: an I/O error, a panic (a failed [expect]), or
    a recursion that did not end within the bound a definition is given. *)
Inductive failure : Type :=
| IoFailure (e : io_error)
| Panic
| Diverges.

(** [Option::expect]. *)
Definition expect {A} (o : option A) : result failure A := ok_or o Panic.

#[export] Instance io_error_eq_dec : EqDecision io_error.
Proof. solve_decision. Defined.

#[export] Instance failure_eq_dec : EqDecision failure.
Proof. solve_decision. Defined.

#[export] Instance result_eq_dec {E A} `{EqDecision E, EqDecision A} : EqDecision (result E A).
Proof. solve_decision. Defined.

(** ** Machine integers

    A [u8], [u16] or [u64] (and [usize], on the 64-bit targets the program
    supports) is a [Z] in range; the operations below are the checked,
    saturating and wrapping ones of [core::num]. *)
Definition U8_MAX : Z := 255.
Definition U16_MAX : Z := 65535.
Definition U64_MAX : Z := 18446744073709551615.
Definition ISIZE_MAX : Z := 9223372036854775807.

Definition u8 (x : Z) : Prop := 0 <= x <= U8_MAX.
Definition u64 (x : Z) : Prop := 0 <= x <= U64_MAX.

Definition checked_add_u64 (a b : Z) : option Z :=
  if a + b <=? U64_MAX then Some (a + b) else None.
Definition checked_sub_u64 (a b : Z) : option Z :=
  if b <=? a then Some (a - b) else None.
Definition saturating_sub_u64 (a b : Z) : Z := Z.max 0 (a - b).
Definition saturating_add_u64 (a b : Z) : Z := Z.min (a + b) U64_MAX.
Definition wrapping_add_u64 (a b : Z) : Z := (a + b) mod (U64_MAX + 1).
Definition wrapping_sub_u64 (a b : Z) : Z := (a - b) mod (U64_MAX + 1).
Definition wrapping_sub_u8 (a b : Z) : Z := (a - b) mod (U8_MAX + 1).

(** A byte string: the elements are [u8]. *)
Abbreviation bytes := (list Z).
Definition is_bytes (bs : bytes) : Prop := Forall u8 bs.

(** ** Tactics and hint databases *)

Create HintDb merkle.


(** Destruct the existentials and conjunctions of the context. *)
Ltac deex :=
  repeat match goal with
  | H : ex _ |- _ => let x := fresh "x" in destruct H as [x H]
  | H : _ /\ _ |- _ => destruct H
  end.

(** Case analysis on the boolean integer comparisons of the goal or context. *)
Ltac zcase :=
  repeat match goal with
  | |- context [?a <=? ?b] => destruct (Z.leb_spec a b)
  | |- context [?a <? ?b] => destruct (Z.ltb_spec a b)
  | |- context [?a =? ?b] => destruct (Z.eqb_spec a b)
  | H : context [?a <=? ?b] |- _ => destruct (Z.leb_spec a b)
  | H : context [?a <? ?b] |- _ => destruct (Z.ltb_spec a b)
  | H : context [?a =? ?b] |- _ => destruct (Z.eqb_spec a b)
  end.

Ltac unfold_ranges := unfold u8, u64, U8_MAX, U16_MAX, U64_MAX, ISIZE_MAX in *.

(** Arithmetic on machine integers. *)
Ltac ulia := unfold_ranges; lia.

(** Arithmetic with division and modulo by constants. *)
Ltac dlia := unfold_ranges; Z.to_euclidean_division_equations; lia.

Lemma Ok_inj {E A} (a b : A) : @Ok E A a = Ok b -> a = b.
Proof. congruence. Qed.

(** Split a successful sequence of fallible steps into its steps. *)
Ltac bind_inv H :=
  unfold mbind, result_bind in H;
  repeat (match type of H with
          | match ?m with Ok _ => _ | Err _ => _ end = Ok _ =>
              let E := fresh "E" in destruct m as [|] eqn:E; [|discriminate H]
          | (let '(_, _) := ?p in _) = Ok _ => destruct p
          end);
  unfold mret, result_ret in H; apply Ok_inj in H; try subst.

(** ** Readers

    [std::io::Read] over a byte source: a reader consumes a prefix of the
    remaining bytes or fails.  The program never resumes reading from a source
    after an error, so the position after an error is not modelled. *)
Definition reader (A : Type) : Type := bytes -> result failure (A * bytes).

#[export] Instance reader_ret : MRet reader := fun _ a bs => Ok (a, bs).
#[export] Instance reader_bind : MBind reader :=
  fun _ _ f m bs => match m bs with Ok (a, bs') => f a bs' | Err e => Err e end.

Definition reader_fail {A} (e : io_error) : reader A := fun _ => Err (IoFailure e).
Definition reader_lift {A} (r : result io_error A) : reader A :=
  fun bs => match r with Ok a => Ok (a, bs) | Err e => Err (IoFailure e) end.

(** An [io::Error] propagated by [?]. *)
Definition io {A} (r : result io_error A) : result failure A :=
  match r with Ok a => Ok a | Err e => Err (IoFailure e) end.

Lemma reader_bind_Ok {A B} (m : reader A) (f : A -> reader B) bs a bs' :
  m bs = Ok (a, bs') -> (m ≫= f) bs = f a bs'.
Proof. intros H. unfold mbind, reader_bind. by rewrite H. Qed.

Lemma reader_bind_Err {A B} (m : reader A) (f : A -> reader B) bs e :
  m bs = Err e -> (m ≫= f) bs = Err e.
Proof. intros H. unfold mbind, reader_bind. by rewrite H. Qed.

(** Run the first reader of a sequence with a lemma about its result. *)
Tactic Notation "rstep" uconstr(lem) :=
  erewrite reader_bind_Ok by (apply lem; done || lia || auto); cbv beta.
Tactic Notation "rstep" uconstr(lem) "by" tactic3(tac) :=
  erewrite reader_bind_Ok by (apply lem; done || lia || tac); cbv beta.

(** ** Integers *)

Lemma checked_add_u64_Some a b c :
  checked_add_u64 a b = Some c <-> a + b <= U64_MAX /\ c = a + b.
Proof. unfold checked_add_u64. zcase; split; [intros [=]; lia | intros [? ->] | done | lia]; done || lia. Qed.

Lemma checked_sub_u64_Some a b c :
  checked_sub_u64 a b = Some c <-> b <= a /\ c = a - b.
Proof. unfold checked_sub_u64. zcase; split; [intros [=]; lia | intros [? ->] | done | lia]; done || lia. Qed.

Lemma wrapping_sub_small a b : 0 <= b <= a -> a <= U64_MAX -> wrapping_sub_u64 a b = a - b.
Proof. intros Hb Ha. unfold wrapping_sub_u64. rewrite Z.mod_small; lia. Qed.

Lemma wrapping_add_small a b : 0 <= a -> 0 <= b -> a + b <= U64_MAX -> wrapping_add_u64 a b = a + b.
Proof. intros Ha Hb Hs. unfold wrapping_add_u64. rewrite Z.mod_small; lia. Qed.

(** A boolean fact about a finite range, checked by computation. *)
Lemma forallb_range (P : Z -> bool) n :
  forallb P (seqZ 0 n) = true -> forall i, 0 <= i < n -> P i = true.
Proof.
  intros H i Hi. rewrite forallb_forall in H. apply H.
  apply list_elem_of_In, elem_of_seqZ. lia.
Qed.

(** ** Lists *)

Lemma head_drop {A} (l : list A) n : head (drop n l) = l !! n.
Proof. revert n. induction l as [|x l IH]; intros [|n]; simpl; done. Qed.

Lemma tail_drop {A} (l : list A) n : tail (drop n l) = drop (S n) l.
Proof. revert n. induction l as [|x l IH]; intros [|n]; try done. simpl in *. apply IH. Qed.

Lemma omap_length_le {A B} (f : A -> option B) (l : list A) : (length (omap f l) <= length l)%nat.
Proof. induction l as [|x l IH]; csimpl; [done|]. destruct (f x); csimpl; lia. Qed.

Lemma take_plus {A} (l : list A) a b : take (a + b) l = take a l ++ take b (drop a l).
Proof. revert l. induction a as [|a IH]; intros [|x l]; simpl; [done.. | by rewrite take_nil | by rewrite IH]. Qed.

Lemma filter_keep {A} (P : A -> Prop) `{!forall x, Decision (P x)} (l : list A) :
  (forall x, x ∈ l -> P x) -> filter P l = l.
Proof.
  induction l as [|x l IH]; intros Hl; [done|].
  rewrite filter_cons_True by (apply Hl; constructor). f_equal. apply IH. intros y Hy. apply Hl. by constructor.
Qed.

Lemma filter_discard {A} (P : A -> Prop) `{!forall x, Decision (P x)} (l : list A) :
  (forall x, x ∈ l -> ~ P x) -> filter P l = [].
Proof.
  induction l as [|x l IH]; intros Hl; [done|].
  rewrite filter_cons_False by (apply Hl; constructor). apply IH. intros y Hy. apply Hl. by constructor.
Qed.

Lemma Forall2_impl_elem {A B} (P Q : A -> B -> Prop) l k :
  Forall2 P l k -> (forall x y, x ∈ l -> P x y -> Q x y) -> Forall2 Q l k.
Proof. induction 1 as [|x y l k Hxy _ IH]; intros Himp; constructor; [apply Himp; [left | done]|]. apply IH. intros a b Ha. apply Himp. by right. Qed.

Lemma filter_ext_elem {A} (P Q : A -> Prop) `{!forall x, Decision (P x)} `{!forall x, Decision (Q x)} (l : list A) :
  (forall x, x ∈ l -> P x <-> Q x) -> filter P l = filter Q l.
Proof.
  induction l as [|x l IH]; intros Hl; [done|].
  rewrite !filter_cons, IH by (intros y Hy; apply Hl; by constructor).
  pose proof (Hl x ltac:(constructor)). destruct (decide (P x)), (decide (Q x)); tauto.
Qed.
