(* ===== verification/Primitives.v ===== *)
(** * Primitives of the node store

    [storage/build.rs] and [storage/src/nodestore/primitives.rs]: the valid
    area sizes, the area index of a size and linear addresses. *)

From S2P Require Import Prelude.

(** ** Area sizes ([build.rs], the [area_sizes!] invocation) *)
Definition AREA_SIZES : list Z :=
  [ 16; 32; 64; 96; 128; 256; 512; 768; 1024;
    Z.shiftl 1024 1; Z.shiftl 1024 2; Z.shiftl 1024 3; Z.shiftl 1024 4;
    Z.shiftl 1024 5; Z.shiftl 1024 6; Z.shiftl 1024 7; Z.shiftl 1024 8;
    Z.shiftl 1024 9; Z.shiftl 1024 10; Z.shiftl 1024 11; Z.shiftl 1024 12;
    Z.shiftl 1024 13; Z.shiftl 1024 14 ].

Definition NUM_AREA_SIZES : Z := Z.of_nat (length AREA_SIZES).

(** ** [AreaIndex]

    A [u8] below [NUM_AREA_SIZES]. *)
Abbreviation AreaIndex := Z.
Definition AreaIndex_wf (i : AreaIndex) : Prop := 0 <= i < NUM_AREA_SIZES.

Definition AreaIndex_MIN : AreaIndex := 0.
Definition AreaIndex_MAX : AreaIndex := NUM_AREA_SIZES - 1.

(** Indexing [AREA_SIZES]; the index is in bounds for a well-formed
    [AreaIndex] (out of bounds the source panics). *)
Definition AreaIndex_size (i : AreaIndex) : Z := nth (Z.to_nat i) AREA_SIZES 0.

Definition MIN_AREA_SIZE : Z := AreaIndex_size AreaIndex_MIN.
Definition MAX_AREA_SIZE : Z := AreaIndex_size AreaIndex_MAX.

Definition AreaIndex_new (index : Z) : option AreaIndex :=
  if index <? NUM_AREA_SIZES then Some index else None.

(** [slice::partition_point]: the length of the prefix that satisfies the
    predicate, on a slice partitioned by it ([AREA_SIZES] is ascending). *)
Fixpoint partition_point {A} (p : A -> bool) (l : list A) : nat :=
  match l with
  | [] => 0%nat
  | x :: l => if p x then S (partition_point p l) else 0%nat
  end.

(** [AreaIndex::from_size]. *)
Definition from_size (n : Z) : result io_error AreaIndex :=
  if MAX_AREA_SIZE <? n then Err OutOfMemory
  else Ok (Z.of_nat (partition_point (fun size => size <? n) AREA_SIZES)).

(** [TryFrom<u8> for AreaIndex]. *)
Definition AreaIndex_try_from (index : Z) : result io_error AreaIndex :=
  ok_or (AreaIndex_new index) InvalidData.

Definition area_size_iter : list (AreaIndex * Z) :=
  imap (fun i size => (Z.of_nat i, size)) AREA_SIZES.

(** ** [LinearAddress]

    A [NonZeroU64]. *)
Abbreviation LinearAddress := Z.
Definition LinearAddress_wf (a : LinearAddress) : Prop := 0 < a <= U64_MAX.

Definition LinearAddress_new (addr : Z) : option LinearAddress :=
  if addr =? 0 then None else Some addr.

Definition is_aligned (a : LinearAddress) : bool := a mod MIN_AREA_SIZE =? 0.

Definition advance (a : LinearAddress) (n : Z) : option LinearAddress :=
  checked_add_u64 a n.

Definition distance_from (self other : LinearAddress) : option Z :=
  checked_sub_u64 self other.

(** ** Facts *)

Lemma partition_point_spec {A} (p : A -> bool) l j x :
  l !! j = Some x ->
  ((j < partition_point p l)%nat -> p x = true) /\
  (j = partition_point p l -> p x = false).
Proof.
  revert j. induction l as [|y l IH]; intros j Hj; [done|]. simpl.
  destruct (p y) eqn:Hp.
  - destruct j as [|j]; simpl in Hj; [by simplify_eq|].
    destruct (IH j Hj) as [H1 H2]. split; intros; [apply H1 | apply H2]; lia.
  - split; [lia|]. intros ->. simpl in Hj. by simplify_eq.
Qed.

Lemma partition_point_le {A} (p : A -> bool) l : (partition_point p l <= length l)%nat.
Proof. induction l as [|x l IH]; simpl; [done|]. destruct (p x); lia. Qed.

Lemma AreaIndex_lookup i :
  AreaIndex_wf i <-> 0 <= i /\ AREA_SIZES !! Z.to_nat i = Some (AreaIndex_size i).
Proof.
  unfold AreaIndex_wf, NUM_AREA_SIZES, AreaIndex_size. split.
  - intros [H0 H]. split; [done|]. rewrite nth_lookup.
    destruct (lookup_lt_is_Some_2 AREA_SIZES (Z.to_nat i)) as [x Hx]; [lia|].
    by rewrite Hx.
  - intros [H0 H]. apply lookup_lt_Some in H. lia.
Qed.

(** Every size is a multiple of the smallest one, and lies in range. *)
Lemma AreaIndex_size_mult i : AreaIndex_wf i -> AreaIndex_size i mod MIN_AREA_SIZE = 0.
Proof.
  intros Hi. apply Z.eqb_eq. revert i Hi.
  apply (forallb_range (fun i => AreaIndex_size i mod MIN_AREA_SIZE =? 0)). vm_compute. reflexivity.
Qed.

Lemma AreaIndex_size_range i :
  AreaIndex_wf i -> MIN_AREA_SIZE <= AreaIndex_size i <= MAX_AREA_SIZE.
Proof.
  intros Hi.
  assert (H : (MIN_AREA_SIZE <=? AreaIndex_size i) && (AreaIndex_size i <=? MAX_AREA_SIZE) = true).
  { revert i Hi. apply (forallb_range (fun i => (MIN_AREA_SIZE <=? AreaIndex_size i)
      && (AreaIndex_size i <=? MAX_AREA_SIZE))). vm_compute. reflexivity. }
  apply andb_true_iff in H as [?%Z.leb_le ?%Z.leb_le]. lia.
Qed.

Lemma AreaIndex_size_mono i j :
  AreaIndex_wf i -> AreaIndex_wf j -> i < j -> AreaIndex_size i < AreaIndex_size j.
Proof.
  intros Hi Hj Hij.
  assert (H : forallb (fun j => implb (i <? j) (AreaIndex_size i <? AreaIndex_size j))
                (seqZ 0 NUM_AREA_SIZES) = true).
  { clear Hj Hij. revert i Hi. apply (forallb_range (fun i => forallb (fun j => implb (i <? j)
      (AreaIndex_size i <? AreaIndex_size j)) (seqZ 0 NUM_AREA_SIZES))). vm_compute. reflexivity. }
  pose proof (forallb_range _ _ H j Hj) as Hb. cbv beta in Hb.
  rewrite (proj2 (Z.ltb_lt i j) Hij) in Hb. by apply Z.ltb_lt in Hb.
Qed.

Lemma from_size_Ok n i :
  from_size n = Ok i ->
  AreaIndex_wf i /\ n <= AreaIndex_size i /\
  (forall j, AreaIndex_wf j -> n <= AreaIndex_size j -> i <= j).
Proof.
  unfold from_size. destruct (Z.ltb_spec MAX_AREA_SIZE n) as [|Hn]; [done|].
  intros [= <-]. set (p := fun size => size <? n). set (k := partition_point p AREA_SIZES).
  assert (Hlast : AREA_SIZES !! 22%nat = Some MAX_AREA_SIZE) by reflexivity.
  assert (Hk : (k < 23)%nat).
  { destruct (decide (k < 23)%nat); [done|].
    destruct (partition_point_spec p _ _ _ Hlast) as [H _]. fold k in H.
    assert (p MAX_AREA_SIZE = true) as Hp by (apply H; lia). apply Z.ltb_lt in Hp. lia. }
  assert (Hwf : AreaIndex_wf (Z.of_nat k)) by (unfold AreaIndex_wf; change NUM_AREA_SIZES with 23; lia).
  split; [done|]. split.
  - apply AreaIndex_lookup in Hwf as [_ Hl].
    destruct (partition_point_spec p _ _ _ Hl) as [_ H]. fold k in H.
    apply Z.ltb_ge, H. lia.
  - intros j Hj Hnj. destruct (Z.le_gt_cases (Z.of_nat k) j); [done|].
    apply AreaIndex_lookup in Hj as [? Hl].
    destruct (partition_point_spec p _ _ _ Hl) as [H' _]. fold k in H'.
    assert (p (AreaIndex_size j) = true) as Hp by (apply H'; lia). apply Z.ltb_lt in Hp. lia.
Qed.

(** ** Properties *)

(** [AreaIndex::from_size] returns the index of the smallest area size that
    holds [n] bytes, and fails exactly when [n] exceeds the largest area. *)
Theorem from_size_best_fit n :
  (MAX_AREA_SIZE < n /\ from_size n = Err OutOfMemory) \/
  (exists i, from_size n = Ok i /\ AreaIndex_wf i /\ n <= AreaIndex_size i /\
     forall j, AreaIndex_wf j -> j < i -> AreaIndex_size j < n).
Proof.
  destruct (from_size n) as [i|e] eqn:H.
  - right. exists i. destruct (from_size_Ok _ _ H) as (Hi & Hn & Hmin).
    repeat split; try apply Hi; [done|]. intros j Hj Hji.
    destruct (Z.lt_ge_cases (AreaIndex_size j) n); [done|]. specialize (Hmin j Hj). lia.
  - left. unfold from_size in H. destruct (Z.ltb_spec MAX_AREA_SIZE n); by simplify_eq.
Qed.
