(* ===== verification/NodePath.v ===== *)
(** * Paths and nibbles

    [storage/src/node/path.rs]: the [Path] of a node, the double-ended
    [NibblesIterator] that splits bytes into nibbles, and the [BytesIterator]
    that packs nibbles into bytes. *)

From S2P Require Import Prelude.

(** ** Data *)

(** [Path]: the nibbles of part of a key ([SmallVec<[u8; 64]>]). *)
Abbreviation Path := (list Z).

Definition is_nibble (x : Z) : Prop := 0 <= x < 16.
Definition is_path (p : Path) : Prop := Forall is_nibble p.

(** The static [NIBBLES] table. *)
Definition NIBBLES : list Z := [0; 1; 2; 3; 4; 5; 6; 7; 8; 9; 10; 11; 12; 13; 14; 15].

Record NibblesIterator : Type := mkNibblesIterator {
  ni_data : bytes;
  ni_head : nat;
  ni_tail : nat;
}.

(** ** Operations *)

Definition BYTES_PER_NIBBLE : nat := 2.

Definition NibblesIterator_new (data : bytes) : NibblesIterator :=
  mkNibblesIterator data 0 (BYTES_PER_NIBBLE * length data).

Definition NibblesIterator_is_empty (it : NibblesIterator) : bool :=
  Nat.eqb (ni_head it) (ni_tail it).

(** [NIBBLES[x as usize]]; the index is in bounds for the arguments below. *)
Definition nibble_at (x : Z) : Z := nth (Z.to_nat x) NIBBLES 0.

(** [Iterator::next]. *)
Definition NibblesIterator_next (it : NibblesIterator) : option Z * NibblesIterator :=
  if NibblesIterator_is_empty it then (None, it)
  else
    let byte := nth (ni_head it / 2)%nat (ni_data it) 0 in
    let result := if Nat.even (ni_head it) then nibble_at (Z.shiftr byte 4)
                  else nibble_at (Z.land byte 15) in
    (Some result, mkNibblesIterator (ni_data it) (S (ni_head it)) (ni_tail it)).

(** [Iterator::nth]. *)
Definition NibblesIterator_nth (it : NibblesIterator) (n : nat) : option Z * NibblesIterator :=
  NibblesIterator_next
    (mkNibblesIterator (ni_data it)
       (ni_head it + Nat.min n (ni_tail it - ni_head it)) (ni_tail it)).

(** [DoubleEndedIterator::next_back]. *)
Definition NibblesIterator_next_back (it : NibblesIterator) : option Z * NibblesIterator :=
  if NibblesIterator_is_empty it then (None, it)
  else
    let result :=
      if Nat.even (ni_tail it)
      then nibble_at (Z.land (nth (ni_tail it / 2 - 1)%nat (ni_data it) 0) 15)
      else nibble_at (Z.shiftr (nth (ni_tail it / 2)%nat (ni_data it) 0) 4) in
    (Some result, mkNibblesIterator (ni_data it) (ni_head it) (ni_tail it - 1)).

(** [DoubleEndedIterator::nth_back]. *)
Definition NibblesIterator_nth_back (it : NibblesIterator) (n : nat) : option Z * NibblesIterator :=
  NibblesIterator_next_back
    (mkNibblesIterator (ni_data it) (ni_head it)
       (ni_tail it - Nat.min n (ni_tail it - ni_head it))).

(** [Iterator::size_hint]. *)
Definition NibblesIterator_size_hint (it : NibblesIterator) : nat * option nat :=
  let remaining := (ni_tail it - ni_head it)%nat in (remaining, Some remaining).

(** [Path::from_nibbles_iterator]: collects the iterator.  [fuel] bounds the
    number of calls of [next]; [ni_tail] is always enough. *)
Fixpoint NibblesIterator_collect (fuel : nat) (it : NibblesIterator) : Path :=
  match fuel with
  | O => []
  | S fuel =>
      match NibblesIterator_next it with
      | (Some x, it) => x :: NibblesIterator_collect fuel it
      | (None, _) => []
      end
  end.

Definition from_nibbles_iterator (it : NibblesIterator) : Path :=
  NibblesIterator_collect (S (ni_tail it)) it.

(** [BytesIterator::next] iterated: consecutive pairs of nibbles as bytes; a
    trailing odd nibble is dropped. *)
Fixpoint bytes_iter (p : Path) : bytes :=
  match p with
  | hi :: lo :: p => (hi * 16 + lo) :: bytes_iter p
  | _ => []
  end.

Definition FLAG_ODD_LEN : Z := 1.

(** [Path::iter_encoded]. *)
Definition iter_encoded (p : Path) : bytes :=
  let has_odd_len := Z.land (Z.of_nat (length p)) 1 =? 1 in
  let flags := if has_odd_len then Z.lor 0 FLAG_ODD_LEN else 0 in
  let extra_byte := if has_odd_len then None else Some 0 in
  [flags] ++ from_option (fun b => [b]) [] extra_byte ++ p.

(** [Path::from_encoded_iter]. *)
Definition from_encoded_iter (bs : bytes) : Path :=
  let (flags, rest) := match bs with [] => (0, []) | b :: r => (b, r) end in
  if Z.land flags FLAG_ODD_LEN =? 0 then tail rest else rest.

(** ** Specification of the iterator

    The nibbles of a byte string, and the part of them an iterator has still to
    yield. *)
Fixpoint nibbles_of (data : bytes) : Path :=
  match data with
  | [] => []
  | b :: data => b / 16 :: b mod 16 :: nibbles_of data
  end.

Definition remaining (it : NibblesIterator) : Path :=
  drop (ni_head it) (take (ni_tail it) (nibbles_of (ni_data it))).

Definition NibblesIterator_wf (it : NibblesIterator) : Prop :=
  is_bytes (ni_data it) /\ (ni_head it <= ni_tail it <= 2 * length (ni_data it))%nat.

(** ** Facts *)

Lemma length_nibbles_of data : length (nibbles_of data) = (2 * length data)%nat.
Proof. induction data as [|b data IH]; simpl; lia. Qed.

Lemma nibble_at_id x : is_nibble x -> nibble_at x = x.
Proof.
  unfold is_nibble, nibble_at. intros Hx.
  assert (x = 0 \/ x = 1 \/ x = 2 \/ x = 3 \/ x = 4 \/ x = 5 \/ x = 6 \/ x = 7 \/ x = 8 \/
    x = 9 \/ x = 10 \/ x = 11 \/ x = 12 \/ x = 13 \/ x = 14 \/ x = 15) as H by lia.
  by repeat destruct H as [->|H]; try subst x.
Qed.

Lemma nibble_hi b : u8 b -> nibble_at (Z.shiftr b 4) = b / 16 /\ is_nibble (b / 16).
Proof.
  intros Hb. rewrite Z.shiftr_div_pow2 by lia. change (2 ^ 4) with 16.
  assert (is_nibble (b / 16)) by (unfold is_nibble; dlia).
  by rewrite nibble_at_id.
Qed.

Lemma nibble_lo b : nibble_at (Z.land b 15) = b mod 16 /\ is_nibble (b mod 16).
Proof.
  change 15 with (Z.ones 4). rewrite Z.land_ones by lia. change (2 ^ 4) with 16.
  assert (is_nibble (b mod 16)) by (unfold is_nibble; dlia).
  by rewrite nibble_at_id.
Qed.

Lemma nibbles_of_lookup data i b :
  data !! i = Some b ->
  nibbles_of data !! (2 * i)%nat = Some (b / 16) /\
  nibbles_of data !! (2 * i + 1)%nat = Some (b mod 16).
Proof.
  revert i. induction data as [|c data IH]; intros [|i] H; try done; simpl in H.
  - by simplify_eq.
  - replace (2 * S i)%nat with (S (S (2 * i))) by lia.
    replace (2 * i + 1)%nat with (S (2 * i)) by lia. simpl in *. by apply IH.
Qed.

Lemma is_path_nibbles_of data : is_bytes data -> is_path (nibbles_of data).
Proof.
  induction 1 as [|b data Hb _ IH]; simpl; [constructor|].
  constructor; [by apply nibble_hi|]. constructor; [by apply nibble_lo | done].
Qed.

(** The nibble the iterator reads at position [k]. *)
Lemma nibbles_of_get data k :
  is_bytes data -> (k < 2 * length data)%nat ->
  nibbles_of data !! k =
    Some (if Nat.even k then nibble_at (Z.shiftr (nth (k / 2) data 0) 4)
          else nibble_at (Z.land (nth (k / 2) data 0) 15)).
Proof.
  intros Hd Hk. pose proof (Nat.div_mod_eq k 2) as Hdm.
  pose proof (Nat.mod_upper_bound k 2 ltac:(done)).
  destruct (lookup_lt_is_Some_2 data (k / 2)%nat) as [b Hb]; [lia|].
  rewrite nth_lookup, Hb. simpl.
  assert (Hu : u8 b) by (by eapply Forall_lookup_1).
  destruct (nibbles_of_lookup _ _ _ Hb) as [He Ho].
  destruct (nibble_hi b Hu) as [-> _]. destruct (nibble_lo b) as [-> _].
  destruct (Nat.even k) eqn:Hev.
  - apply Nat.even_spec in Hev as [m Hm]. by replace k with (2 * (k / 2))%nat at 1 by lia.
  - assert (Nat.odd k = true) as [m Hm]%Nat.odd_spec by (by rewrite <- Nat.negb_even, Hev).
    by replace k with (2 * (k / 2) + 1)%nat at 1 by lia.
Qed.

Lemma remaining_nil it :
  NibblesIterator_wf it -> NibblesIterator_is_empty it = true -> remaining it = [].
Proof.
  intros [_ H] He. apply Nat.eqb_eq in He. unfold remaining. rewrite He.
  apply drop_ge. rewrite length_take. lia.
Qed.

Lemma length_remaining it :
  NibblesIterator_wf it -> length (remaining it) = (ni_tail it - ni_head it)%nat.
Proof. intros [_ H]. unfold remaining. rewrite length_drop, length_take, length_nibbles_of. lia. Qed.

(** [next] pops the first remaining nibble. *)
Lemma next_remaining it :
  NibblesIterator_wf it ->
  let '(o, it') := NibblesIterator_next it in
  NibblesIterator_wf it' /\ o = head (remaining it) /\ remaining it' = tail (remaining it).
Proof.
  intros Hwf. unfold NibblesIterator_next.
  destruct (NibblesIterator_is_empty it) eqn:He.
  - by rewrite remaining_nil.
  - pose proof Hwf as [Hd Hr]. apply Nat.eqb_neq in He.
    assert (Hh : nibbles_of (ni_data it) !! ni_head it = Some (
      if Nat.even (ni_head it) then nibble_at (Z.shiftr (nth (ni_head it / 2) (ni_data it) 0) 4)
      else nibble_at (Z.land (nth (ni_head it / 2) (ni_data it) 0) 15))).
    { apply nibbles_of_get; [done | lia]. }
    unfold remaining at 1 2 3. simpl.
    erewrite (drop_S (take (ni_tail it) _) _ (ni_head it)).
    2: { rewrite lookup_take_lt; [exact Hh | lia]. }
    split; [split; simpl; [done | lia] | done].
Qed.

(** [next_back] pops the last remaining nibble. *)
Lemma next_back_remaining it :
  NibblesIterator_wf it ->
  match NibblesIterator_next_back it with
  | (None, it') => it' = it /\ remaining it = []
  | (Some x, it') => NibblesIterator_wf it' /\ remaining it = remaining it' ++ [x]
  end.
Proof.
  intros Hwf. unfold NibblesIterator_next_back.
  destruct (NibblesIterator_is_empty it) eqn:He.
  - split; [done|]. by apply remaining_nil.
  - pose proof Hwf as [Hd Hr]. apply Nat.eqb_neq in He.
    destruct (ni_tail it) as [|t] eqn:Ht; [lia|].
    assert (Hh := nibbles_of_get (ni_data it) t Hd ltac:(lia)).
    split; [split; cbn [ni_data ni_head ni_tail]; [done | lia]|].
    unfold remaining. cbn [ni_data ni_head ni_tail]. rewrite Ht.
    replace (S t - 1)%nat with t by lia.
    assert (Hx : (if Nat.even t then nibble_at (Z.shiftr (nth (t / 2) (ni_data it) 0) 4)
       else nibble_at (Z.land (nth (t / 2) (ni_data it) 0) 15)) =
      (if Nat.even (S t) then nibble_at (Z.land (nth (S t / 2 - 1) (ni_data it) 0) 15)
       else nibble_at (Z.shiftr (nth (S t / 2) (ni_data it) 0) 4))).
    { rewrite Nat.even_succ, <- Nat.negb_even. destruct (Nat.even t) eqn:Hev; cbn [negb].
      - apply Nat.even_spec in Hev as [m ->].
        replace (S (2 * m) / 2)%nat with m by (apply (Nat.div_unique _ _ _ 1); lia).
        by replace (2 * m / 2)%nat with m by (apply (Nat.div_unique _ _ _ 0); lia).
      - assert (Nat.odd t = true) as [m ->]%Nat.odd_spec by (by rewrite <- Nat.negb_even, Hev).
        replace (S (2 * m + 1) / 2)%nat with (S m) by (apply (Nat.div_unique _ _ _ 0); lia).
        replace ((2 * m + 1) / 2)%nat with m by (apply (Nat.div_unique _ _ _ 1); lia).
        by replace (S m - 1)%nat with m by lia. }
    rewrite <- Hx. rewrite (take_S_r _ _ _ Hh).
    apply drop_app_le. rewrite length_take, length_nibbles_of. lia.
Qed.

Lemma collect_remaining fuel it :
  NibblesIterator_wf it -> (length (remaining it) < fuel)%nat ->
  NibblesIterator_collect fuel it = remaining it.
Proof.
  revert it. induction fuel as [|fuel IH]; intros it Hwf Hf; [lia|]. simpl.
  pose proof (next_remaining it Hwf) as H.
  destruct (NibblesIterator_next it) as [[x|] it']; destruct H as (Hwf' & Ho & Hr).
  - destruct (remaining it) as [|y l] eqn:Hl; [done|]. simpl in *. simplify_eq.
    rewrite IH; [done..|]. lia.
  - by destruct (remaining it).
Qed.

Lemma NibblesIterator_new_wf data : is_bytes data -> NibblesIterator_wf (NibblesIterator_new data).
Proof. intros H. split; simpl; [done | lia]. Qed.

Lemma remaining_new data : remaining (NibblesIterator_new data) = nibbles_of data.
Proof.
  unfold remaining. simpl. rewrite drop_0. apply take_ge. rewrite length_nibbles_of.
  unfold BYTES_PER_NIBBLE. lia.
Qed.

(** Collecting a fresh iterator gives the nibbles of the key. *)
Lemma from_nibbles_iterator_new data :
  is_bytes data -> from_nibbles_iterator (NibblesIterator_new data) = nibbles_of data.
Proof.
  intros Hd. unfold from_nibbles_iterator.
  rewrite collect_remaining, remaining_new; [done | by apply NibblesIterator_new_wf |].
  rewrite remaining_new, length_nibbles_of. simpl. unfold BYTES_PER_NIBBLE. lia.
Qed.

Lemma bytes_iter_nibbles_of data : bytes_iter (nibbles_of data) = data.
Proof. induction data as [|b data IH]; simpl; [done|]. rewrite IH. f_equal. dlia. Qed.

Lemma nibbles_of_inj a b : nibbles_of a = nibbles_of b -> a = b.
Proof. intros H. by rewrite <- (bytes_iter_nibbles_of a), H, bytes_iter_nibbles_of. Qed.

(** Moving the head forward or the tail back by [Nat.min n len] drops [n]
    nibbles. *)
Lemma skip_front_remaining it n :
  NibblesIterator_wf it ->
  let it' := mkNibblesIterator (ni_data it)
               (ni_head it + Nat.min n (ni_tail it - ni_head it)) (ni_tail it) in
  NibblesIterator_wf it' /\ remaining it' = drop n (remaining it).
Proof.
  intros Hwf it'. pose proof Hwf as [Hd Hr]. split; [split; simpl; [done | lia]|].
  unfold remaining at 1. simpl. rewrite <- drop_drop. fold (remaining it).
  destruct (decide (n <= ni_tail it - ni_head it)%nat); [by rewrite Nat.min_l|].
  rewrite !drop_ge; [done | rewrite length_remaining by done; lia..].
Qed.

Lemma skip_back_remaining it n :
  NibblesIterator_wf it ->
  let it' := mkNibblesIterator (ni_data it) (ni_head it)
               (ni_tail it - Nat.min n (ni_tail it - ni_head it)) in
  NibblesIterator_wf it' /\ reverse (remaining it') = drop n (reverse (remaining it)).
Proof.
  intros Hwf it'. pose proof Hwf as [Hd Hr].
  assert (Hwf' : NibblesIterator_wf it') by (split; simpl; [done | lia]). split; [done|].
  assert (Ht : remaining it' = take (length (remaining it) - n) (remaining it)).
  { rewrite length_remaining by done. unfold remaining, it'. simpl.
    set (l := nibbles_of (ni_data it)).
    rewrite !skipn_firstn_comm, take_take. f_equal. lia. }
  by rewrite Ht, drop_reverse.
Qed.

(** ** Properties *)

(** The nibble iterator is a double-ended queue over the nibbles of its
    bytes: [nth n] drops [n] nibbles from the front and pops the next one, and
    [nth_back n] does so from the back, however calls of the two are mixed. *)
Theorem nibbles_iterator_deque it n :
  NibblesIterator_wf it ->
  (let '(o, it') := NibblesIterator_nth it n in
   NibblesIterator_wf it' /\ o = remaining it !! n /\ remaining it' = drop (S n) (remaining it)) /\
  (let '(o, it') := NibblesIterator_nth_back it n in
   NibblesIterator_wf it' /\ o = reverse (remaining it) !! n /\
   reverse (remaining it') = drop (S n) (reverse (remaining it))).
Proof.
  intros Hwf. split.
  - destruct (skip_front_remaining it n Hwf) as [Hwf1 Hr1].
    pose proof (next_remaining _ Hwf1) as H. unfold NibblesIterator_nth.
    destruct (NibblesIterator_next _) as [o it']. destruct H as (? & -> & ->).
    by rewrite Hr1, head_drop, tail_drop.
  - destruct (skip_back_remaining it n Hwf) as [Hwf1 Hr1].
    pose proof (next_back_remaining _ Hwf1) as H. unfold NibblesIterator_nth_back.
    destruct (NibblesIterator_next_back _) as [[x|] it'].
    + destruct H as [? H]. rewrite H, reverse_app in Hr1. simpl in Hr1.
      by rewrite <- head_drop, <- tail_drop, <- Hr1.
    + destruct H as [-> H]. rewrite H in Hr1. simpl in Hr1.
      by rewrite <- head_drop, <- tail_drop, <- Hr1, H.
Qed.

(** The iterator of the key [\xde\xad] after one nibble was taken at each end. *)
Lemma nibbles_iterator_deque_witness :
  NibblesIterator_wf (mkNibblesIterator [222; 173] 1 3) /\
  fst (NibblesIterator_nth (mkNibblesIterator [222; 173] 1 3) 0) = Some 14 /\
  fst (NibblesIterator_nth_back (mkNibblesIterator [222; 173] 1 3) 0) = Some 10.
Proof.
  assert (Hwf : NibblesIterator_wf (mkNibblesIterator [222; 173] 1 3)).
  { split; [by repeat constructor | simpl; lia]. }
  destruct (nibbles_iterator_deque _ 0 Hwf) as [H1 H2]. split; [done|].
  split; [destruct (NibblesIterator_nth _ 0) | destruct (NibblesIterator_nth_back _ 0)];
    [by destruct H1 as (_ & -> & _) | by destruct H2 as (_ & -> & _)].
Defined.

(** Splitting a key into nibbles and packing the nibbles gives the key
    back, and the split of a key is a path of nibbles, two per byte. *)
Theorem key_nibbles_roundtrip key :
  is_bytes key ->
  bytes_iter (from_nibbles_iterator (NibblesIterator_new key)) = key /\
  is_path (from_nibbles_iterator (NibblesIterator_new key)) /\
  length (from_nibbles_iterator (NibblesIterator_new key)) = (2 * length key)%nat.
Proof.
  intros Hk. rewrite from_nibbles_iterator_new by done.
  auto using bytes_iter_nibbles_of, is_path_nibbles_of, length_nibbles_of.
Qed.

Lemma key_nibbles_roundtrip_witness :
  is_bytes [222; 173; 0] /\
  bytes_iter (from_nibbles_iterator (NibblesIterator_new [222; 173; 0])) = [222; 173; 0].
Proof.
  assert (H : is_bytes [222; 173; 0]) by (by repeat constructor).
  split; [exact H | apply (key_nibbles_roundtrip _ H)].
Defined.

(** The flagged encoding of a path decodes to the path, for even and odd
    lengths and for paths that begin with any nibble. *)
Theorem path_encoding_roundtrip p : from_encoded_iter (iter_encoded p) = p.
Proof.
  unfold iter_encoded. change 1 with (Z.ones 1). rewrite Z.land_ones by lia.
  destruct (Z.eqb_spec (Z.of_nat (length p) mod 2 ^ 1) (Z.ones 1)) as [|]; done.
Qed.
