(* ===== verification/Node.v ===== *)
(** * Nodes

    [storage/src/node/{mod,branch,leaf,children,persist}.rs],
    [storage/src/hashtype.rs] and [storage/src/path/component.rs]: the nodes of
    the trie, the sixteen child slots of a branch, and the three ways a branch
    refers to a child. *)

From S2P Require Import Prelude Primitives NodePath.

(** ** Path components *)

(** [PathComponent]: a nibble. *)
Abbreviation PathComponent := Z.

Definition PathComponent_LEN : nat := 16.
Definition PathComponent_ALL : list PathComponent :=
  [0; 1; 2; 3; 4; 5; 6; 7; 8; 9; 10; 11; 12; 13; 14; 15].

Definition PathComponent_try_new (value : Z) : option PathComponent :=
  if value <? 16 then Some value else None.

(** [Path::as_components]: the bytes of a path as components, a panic if one of them is not a nibble. *)
Definition as_components (self : Path) : result failure (list PathComponent) :=
  expect (mapM PathComponent_try_new self).

Definition new_pair (v : Z) : PathComponent * PathComponent :=
  (Z.land (Z.shiftr v 4) 15, Z.land v 15).

Definition PathComponent_join (self other : PathComponent) : Z :=
  Z.lor (Z.shiftl self 4 mod 256) other.

Definition checked_next (self : PathComponent) : option PathComponent :=
  PathComponent_try_new ((self + 1) mod 256).

(** ** Hashes *)

(** [TrieHash]: 32 bytes. *)
Abbreviation TrieHash := bytes.
Definition TrieHash_wf (h : TrieHash) : Prop := length h = 32%nat /\ is_bytes h.

(** [HashType]. *)
Inductive HashType : Type :=
| Hash (h : TrieHash)
| Rlp (r : bytes).

#[export] Instance HashType_eq_dec : EqDecision HashType.
Proof. solve_decision. Defined.

(** ** Children

    [Children<T>] has one slot per path component.  The backing fixed array of
    sixteen slots is a list of length sixteen. *)
Definition MAX_CHILDREN : nat := PathComponent_LEN.
Abbreviation Children := list.
Definition Children_wf {T} (c : Children T) : Prop := length c = MAX_CHILDREN.

Definition Children_new {T} : Children (option T) := replicate MAX_CHILDREN None.

(** [Index<PathComponent>] on [Children<Option<T>>]. *)
Definition Children_get {T} (c : Children (option T)) (i : PathComponent) : option T :=
  mjoin (c !! Z.to_nat i).

(** [IndexMut<PathComponent>], assigning. *)
Definition Children_set {T} (c : Children T) (i : PathComponent) (v : T) : Children T :=
  <[Z.to_nat i := v]> c.

Definition Children_replace {T} (c : Children (option T)) (i : PathComponent) (v : option T)
  : option T * Children (option T) :=
  (Children_get c i, Children_set c i v).

Definition Children_take {T} (c : Children (option T)) (i : PathComponent)
  : option T * Children (option T) :=
  (Children_get c i, Children_set c i None).

(** [Children::map]. *)
Definition Children_map {T O} (f : PathComponent -> T -> O) (c : Children T) : Children O :=
  imap (fun i x => f (Z.of_nat i) x) c.

(** The slots with their components, in ascending order ([IntoIterator]). *)
Definition Children_iter {T} (c : Children T) : list (PathComponent * T) :=
  zip PathComponent_ALL c.

Definition Children_iter_present {T} (c : Children (option T)) : list (PathComponent * T) :=
  omap (fun p => match p with (i, Some x) => Some (i, x) | _ => None end) (Children_iter c).

Definition Children_count {T} (c : Children (option T)) : nat :=
  length (Children_iter_present c).

Definition take_only_child {T} (c : Children (option T))
  : option (PathComponent * T) * Children (option T) :=
  match Children_iter_present c with
  | [(idx, _)] =>
      let (child, c') := Children_take c idx in (pair idx <$> child, c')
  | _ => (None, c)
  end.

(** [Children::merge]: slot by slot, stopping at the first error. *)
Definition Children_merge {T U V E} (merge : PathComponent -> T -> U -> result E (option V))
  (a : Children T) (b : Children U) : result E (Children (option V)) :=
  foldl (fun output p => output ← output; v ← merge p.1.1 p.1.2 p.2.2;
                         mret (Children_set output p.1.1 v))
        (Ok Children_new) (zip (Children_iter a) (Children_iter b)).

(** ** Nodes *)

(** [Value] is [Box<[u8]>]. *)
Abbreviation Value := bytes.

Record LeafNode : Type := mkLeaf {
  leaf_partial_path : Path;
  leaf_value : Value;
}.

(** [Node], [BranchNode], [Child] and the contents of a [MaybePersistedNode].
    The [Arc<Mutex<MaybePersisted>>] of the source is read here as its current
    contents. *)
Inductive Node : Type :=
| Branch (b : BranchNode)
| Leaf (l : LeafNode)
with BranchNode : Type :=
| mkBranch (partial_path : Path) (value : option Value) (children : list (option Child))
with Child : Type :=
| ChildNode (n : Node)
| AddressWithHash (addr : LinearAddress) (hash : HashType)
| ChildMaybePersisted (m : MaybePersisted) (hash : HashType)
with MaybePersisted : Type :=
| Unpersisted (n : Node)
| Allocated (addr : LinearAddress) (n : Node)
| Persisted (addr : LinearAddress).

Definition branch_partial_path (b : BranchNode) : Path := let '(mkBranch p _ _) := b in p.
Definition branch_value (b : BranchNode) : option Value := let '(mkBranch _ v _) := b in v.
Definition branch_children (b : BranchNode) : Children (option Child) :=
  let '(mkBranch _ _ c) := b in c.

(** *** [Node] *)

Definition partial_path (n : Node) : Path :=
  match n with
  | Branch b => branch_partial_path b
  | Leaf l => leaf_partial_path l
  end.

Definition update_partial_path (n : Node) (p : Path) : Node :=
  match n with
  | Branch (mkBranch _ v c) => Branch (mkBranch p v c)
  | Leaf l => Leaf (mkLeaf p (leaf_value l))
  end.

Definition update_value (n : Node) (value : Value) : Node :=
  match n with
  | Branch (mkBranch p _ c) => Branch (mkBranch p (Some value) c)
  | Leaf l => Leaf (mkLeaf (leaf_partial_path l) value)
  end.

Definition node_value (n : Node) : option Value :=
  match n with
  | Branch b => branch_value b
  | Leaf l => Some (leaf_value l)
  end.

Definition is_leaf (n : Node) : bool := match n with Leaf _ => true | Branch _ => false end.

(** [From<&LeafNode> for BranchNode]. *)
Definition BranchNode_from_leaf (l : LeafNode) : BranchNode :=
  mkBranch (leaf_partial_path l) (Some (leaf_value l)) Children_new.

(** [Node::force_branch_for_insert]. *)
Definition force_branch_for_insert (self : Node) : result io_error BranchNode :=
  match partial_path self with
  | child_index :: child_path =>
      let self := update_partial_path self child_path in
      child_path_component ← ok_or (PathComponent_try_new child_index) OtherError;
      mret (mkBranch [] None
              (Children_set Children_new child_path_component (Some (ChildNode self))))
  | [] =>
      match self with
      | Leaf leaf => mret (mkBranch [] (Some (leaf_value leaf)) Children_new)
      | Branch branch => mret branch
      end
  end.

(** *** [MaybePersistedNode] *)

Definition as_linear_address (m : MaybePersisted) : option LinearAddress :=
  match m with
  | Unpersisted _ => None
  | Allocated address _ | Persisted address => Some address
  end.

Definition persisted_address (m : MaybePersisted) : option LinearAddress :=
  match m with
  | Persisted address => Some address
  | Unpersisted _ | Allocated _ _ => None
  end.

Definition unpersisted (m : MaybePersisted) : option MaybePersisted :=
  match m with
  | Allocated _ _ | Unpersisted _ => Some m
  | Persisted _ => None
  end.

Definition persist_at (m : MaybePersisted) (addr : LinearAddress) : MaybePersisted :=
  Persisted addr.

(** [None]: the [unreachable!] of the source. *)
Definition allocate_at (m : MaybePersisted) (addr : LinearAddress) : option MaybePersisted :=
  match m with
  | Unpersisted node | Allocated _ node => Some (Allocated addr node)
  | Persisted _ => None
  end.

Definition allocated_info (m : MaybePersisted) : option (LinearAddress * Node) :=
  match m with
  | Allocated addr node => Some (addr, node)
  | _ => None
  end.

(** *** [Child] *)

Definition Child_persisted_address (c : Child) : option LinearAddress :=
  match c with
  | AddressWithHash addr _ => Some addr
  | ChildMaybePersisted m _ => as_linear_address m
  | ChildNode _ => None
  end.

Definition Child_unpersisted (c : Child) : option MaybePersisted :=
  match c with
  | ChildMaybePersisted m _ => unpersisted m
  | _ => None
  end.

Definition Child_hash (c : Child) : option HashType :=
  match c with
  | AddressWithHash _ hash => Some hash
  | ChildMaybePersisted _ hash => Some hash
  | ChildNode _ => None
  end.

Definition Child_persist_info (c : Child) : option (LinearAddress * HashType) :=
  match c with
  | AddressWithHash addr hash => Some (addr, hash)
  | ChildMaybePersisted m hash => (fun addr => (addr, hash)) <$> as_linear_address m
  | ChildNode _ => None
  end.

Definition as_maybe_persisted_node (c : Child) : MaybePersisted :=
  match c with
  | ChildNode node => Unpersisted node
  | AddressWithHash addr _ => Persisted addr
  | ChildMaybePersisted m _ => m
  end.

(** *** [BranchNode] *)

Definition BranchNode_persist_info (b : BranchNode) : Children (option (LinearAddress * HashType)) :=
  Children_map (fun _ c => c ≫= Child_persist_info) (branch_children b).

Definition children_hashes (b : BranchNode) : Children (option HashType) :=
  Children_map (fun _ c => c ≫= Child_hash) (branch_children b).

Definition children_addresses (b : BranchNode) : Children (option LinearAddress) :=
  Children_map (fun _ c => c ≫= Child_persisted_address) (branch_children b).

(** ** Facts *)

Lemma PathComponent_try_new_nibble x : is_nibble x -> PathComponent_try_new x = Some x.
Proof. intros H. unfold PathComponent_try_new, is_nibble in *. zcase; [done | lia]. Qed.

Lemma PathComponent_try_new_Some x y : PathComponent_try_new x = Some y -> y = x /\ x < 16.
Proof. unfold PathComponent_try_new. zcase; [by intros [= <-] | done]. Qed.

Lemma as_components_path p : is_path p -> as_components p = Ok p.
Proof.
  intros Hp. unfold as_components. enough (Hm : mapM PathComponent_try_new p = Some p) by (by rewrite Hm).
  apply mapM_Some. induction Hp; constructor; [by apply PathComponent_try_new_nibble | done].
Qed.

(** It succeeds only on nibbles, and otherwise it is a panic. *)
Lemma as_components_Ok p q : as_components p = Ok q -> q = p /\ Forall (fun x => x < 16) p.
Proof.
  unfold as_components, expect. destruct (mapM PathComponent_try_new p) as [r|] eqn:Hm; [|done]. intros [= <-]. apply mapM_Some in Hm.
  induction Hm as [|x y p r Hx%PathComponent_try_new_Some _ IH]; [done|]. destruct Hx as [-> Hx], IH as [-> IH]. by split; [|constructor].
Qed.

Lemma as_components_Err p e : as_components p = Err e -> e = Panic /\ ~ is_path p.
Proof.
  intros He. split; [|intros Hp; by rewrite (as_components_path p Hp) in He].
  unfold as_components, expect in He. destruct (mapM _ p); [done|]. by injection He as <-.
Qed.

Lemma nibble_lt x : is_nibble x -> (Z.to_nat x < MAX_CHILDREN)%nat.
Proof. unfold is_nibble, MAX_CHILDREN, PathComponent_LEN. lia. Qed.

Lemma Children_new_wf {T} : Children_wf (@Children_new T).
Proof. reflexivity. Qed.

Lemma Children_set_wf {T} (c : Children T) i v : Children_wf c -> Children_wf (Children_set c i v).
Proof. unfold Children_wf, Children_set. by rewrite length_insert. Qed.

Lemma Children_get_new {T} i : @Children_get T Children_new i = None.
Proof.
  unfold Children_get, Children_new.
  destruct (replicate MAX_CHILDREN (@None T) !! Z.to_nat i) as [o|] eqn:E; [|done].
  by apply lookup_replicate in E as [-> _].
Qed.

Lemma Children_get_set {T} (c : Children (option T)) i v :
  Children_wf c -> is_nibble i -> Children_get (Children_set c i v) i = v.
Proof.
  intros Hc Hi%nibble_lt. unfold Children_get, Children_set.
  rewrite list_lookup_insert_eq; [done | unfold Children_wf in Hc; lia].
Qed.

Lemma Children_get_set_ne {T} (c : Children (option T)) i j v :
  is_nibble i -> is_nibble j -> i <> j -> Children_get (Children_set c i v) j = Children_get c j.
Proof.
  intros Hi Hj Hij. unfold Children_get, Children_set, is_nibble in *.
  rewrite list_lookup_insert_ne; [done | lia].
Qed.

Lemma Children_set_set {T} (c : Children T) i v w :
  Children_set (Children_set c i v) i w = Children_set c i w.
Proof. apply list_insert_insert_eq. Qed.

Lemma Children_set_get {T} (c : Children (option T)) i :
  Children_set c i (Children_get c i) = c.
Proof.
  unfold Children_set, Children_get. destruct (c !! Z.to_nat i) as [x|] eqn:E; simpl.
  - by apply list_insert_id.
  - apply list_insert_ge. by apply lookup_ge_None.
Qed.

(** A slot array is determined by its slots. *)
Lemma Children_ext {T} (c d : Children (option T)) :
  Children_wf c -> Children_wf d ->
  (forall i, is_nibble i -> Children_get c i = Children_get d i) -> c = d.
Proof.
  intros Hc Hd H. unfold Children_wf in *. apply list_eq. intros i.
  destruct (decide (i < MAX_CHILDREN)%nat) as [Hi|Hi].
  - specialize (H (Z.of_nat i)). unfold Children_get in H. rewrite Nat2Z.id in H.
    destruct (lookup_lt_is_Some_2 c i) as [x Hx]; [lia|].
    destruct (lookup_lt_is_Some_2 d i) as [y Hy]; [lia|].
    rewrite Hx, Hy in *. simpl in H. f_equal. apply H.
    unfold is_nibble, MAX_CHILDREN, PathComponent_LEN in *. lia.
  - rewrite !lookup_ge_None_2 by lia. done.
Qed.

(** Finite choice over the slots. *)
Lemma slots_choice {A} (P : PathComponent -> option A -> Prop) :
  (forall i, is_nibble i -> exists x, P i x) ->
  exists us : Children (option A), Children_wf us /\ forall i, is_nibble i -> P i (Children_get us i).
Proof.
  intros HP.
  assert (Hn : forall n, (n <= 16)%nat -> exists us : list (option A), length us = n /\
    forall i, (i < n)%nat -> P (Z.of_nat i) (mjoin (us !! i))).
  { intros n. induction n as [|n IH]; intros Hle; [by exists []; split; [|lia]|].
    destruct IH as (us & Hl & Hus); [lia|]. destruct (HP (Z.of_nat n)) as [x Hx]; [unfold is_nibble; lia|].
    exists (us ++ [x]). rewrite length_app, Hl. split; [simpl; lia|]. intros i Hi.
    destruct (decide (i = n)) as [->|]; [|rewrite lookup_app_l by lia; apply Hus; lia].
    by rewrite lookup_app_r, Hl, Nat.sub_diag by lia. }
  destruct (Hn 16%nat) as (us & Hl & Hus); [lia|]. exists us. split; [done|]. intros i Hi.
  unfold is_nibble in Hi. specialize (Hus (Z.to_nat i) ltac:(lia)). rewrite Z2Nat.id in Hus by lia. exact Hus.
Qed.

Lemma Children_iter_present_elem {T} (c : Children (option T)) i x :
  Children_wf c ->
  (i, x) ∈ Children_iter_present c <-> is_nibble i /\ Children_get c i = Some x.
Proof.
  intros Hc. unfold Children_iter_present, Children_iter. rewrite list_elem_of_omap. split.
  - intros ([j [y|]] & Hin & [= -> ->]).
    apply list_elem_of_lookup in Hin as [k Hk].
    apply lookup_zip_with_Some in Hk as (a & b & [= -> ->] & Ha & Hb).
    assert (Hlt : (k < 16)%nat) by (by apply lookup_lt_Some in Ha).
    assert (a = Z.of_nat k) as ->.
    { clear -Ha Hlt. do 16 (destruct k as [|k]; [by injection Ha as <-|]). lia. }
    split; [unfold is_nibble; lia|]. unfold Children_get. by rewrite Nat2Z.id, Hb.
  - intros [Hi Hg]. exists (i, Some x). split; [|done].
    unfold Children_get in Hg. destruct (c !! Z.to_nat i) as [y|] eqn:E; simpl in Hg; [|done].
    subst y. apply list_elem_of_lookup. exists (Z.to_nat i).
    apply lookup_zip_with_Some. exists i, (Some x). split_and!; [done | | done].
    unfold is_nibble in Hi.
    assert (i = 0 \/ i = 1 \/ i = 2 \/ i = 3 \/ i = 4 \/ i = 5 \/ i = 6 \/ i = 7 \/ i = 8 \/
      i = 9 \/ i = 10 \/ i = 11 \/ i = 12 \/ i = 13 \/ i = 14 \/ i = 15) as H by lia.
    by repeat destruct H as [->|H]; try subst i.
Qed.

(** The present components ascend, so none occurs twice. *)
Lemma Children_iter_present_sublist {T} (c : Children (option T)) :
  sublist (Children_iter_present c).*1 PathComponent_ALL.
Proof.
  unfold Children_iter_present, Children_iter. generalize PathComponent_ALL. intros l.
  revert c. induction l as [|i l IH]; intros [|[x|] c]; simpl; try constructor; auto.
  apply sublist_nil_l.
Qed.

Lemma Children_iter_present_NoDup {T} (c : Children (option T)) :
  NoDup (Children_iter_present c).*1.
Proof.
  eapply sublist_NoDup; [|apply Children_iter_present_sublist].
  apply (bool_decide_unpack _). vm_compute. exact I.
Qed.

Lemma Children_count_le {T} (c : Children (option T)) :
  (length (Children_iter_present c) <= MAX_CHILDREN)%nat.
Proof.
  pose proof (sublist_length _ _ (Children_iter_present_sublist c)) as H.
  rewrite length_fmap in H. exact H.
Qed.

(** A branch with sixteen present children has no empty slot. *)
Lemma Children_full {T} (c : Children (option T)) :
  Children_wf c -> length (Children_iter_present c) = MAX_CHILDREN ->
  (fun p => Some p.2) <$> Children_iter_present c = c.
Proof.
  unfold Children_wf, Children_iter_present, Children_iter. intros Hc Hl.
  assert (Hz : length PathComponent_ALL = length c) by (by rewrite Hc).
  rewrite <- Hc in Hl. clear Hc. revert c Hz Hl.
  generalize PathComponent_ALL. intros l. induction l as [|i l IH]; intros [|[x|] c] Hz Hl; try done.
  - csimpl in *. f_equal. apply IH; lia.
  - exfalso. csimpl in *.
    pose proof (omap_length_le (fun p : Z * option T => match p with (i, Some x) => Some (i, x)
      | _ => None end) (zip l c)) as Hle.
    rewrite length_zip_with in Hle. lia.
Qed.

(** Filling the slots listed in [l] one after the other. *)
Definition Children_fill {T U} (f : T -> U) (acc : Children (option U))
  (l : list (PathComponent * T)) : Children (option U) :=
  foldl (fun acc p => Children_set acc p.1 (Some (f p.2))) acc l.

Lemma Children_fill_wf {T U} (f : T -> U) acc l :
  Children_wf acc -> Children_wf (Children_fill f acc l).
Proof.
  revert acc. induction l as [|p l IH]; intros acc H; simpl; [done|]. by apply IH, Children_set_wf.
Qed.

Lemma Children_fill_get {T U} (f : T -> U) acc l i :
  Children_wf acc -> is_nibble i -> Forall (fun p => is_nibble p.1) l -> NoDup l.*1 ->
  (forall x, (i, x) ∈ l -> Children_get (Children_fill f acc l) i = Some (f x)) /\
  (i ∉ l.*1 -> Children_get (Children_fill f acc l) i = Children_get acc i).
Proof.
  intros Hwf Hi. revert acc Hwf.
  induction l as [|[j y] l IH]; intros acc Hwf Hl Hnd; simpl in *; [set_solver|].
  apply Forall_cons in Hl as [Hj Hl]. apply NoDup_cons in Hnd as [Hnj Hnd]. simpl in Hj.
  destruct (IH (Children_set acc j (Some (f y))) (Children_set_wf _ _ _ Hwf) Hl Hnd) as [H1 H2].
  split.
  - intros x Hx. apply elem_of_cons in Hx as [[= <- <-]|Hx]; [|by apply H1].
    rewrite H2 by done. by apply Children_get_set.
  - intros Hni. apply not_elem_of_cons in Hni as [Hne Hni].
    rewrite H2 by done. by apply Children_get_set_ne.
Qed.

(** Filling an empty array with the present children rebuilds the array. *)
Lemma Children_fill_present {T U} (f : T -> U) (c : Children (option T)) :
  Children_wf c ->
  Children_fill f Children_new (Children_iter_present c) = (fun o : option T => f <$> o) <$> c.
Proof.
  intros Hc. apply Children_ext.
  - apply Children_fill_wf, Children_new_wf.
  - unfold Children_wf in *. by rewrite length_fmap.
  - intros i Hi.
    assert (Hnib : Forall (fun p => is_nibble p.1) (Children_iter_present c)).
    { apply Forall_forall. intros [j x] Hj. by apply Children_iter_present_elem in Hj as [? _]. }
    destruct (Children_fill_get f Children_new _ i Children_new_wf Hi Hnib
      (Children_iter_present_NoDup c)) as [H1 H2].
    assert (Hr : Children_get ((fun o : option T => f <$> o) <$> c) i = f <$> Children_get c i).
    { unfold Children_get. rewrite list_lookup_fmap. by destruct (c !! Z.to_nat i). }
    rewrite Hr. destruct (Children_get c i) as [x|] eqn:E; simpl.
    + apply H1. by apply Children_iter_present_elem.
    + rewrite H2; [apply Children_get_new|].
      intros [[j x] [-> Hin]]%list_elem_of_fmap.
      apply Children_iter_present_elem in Hin as [_ Hin]; [|done]. simpl in *. congruence.
Qed.

Lemma update_partial_path_path n p : partial_path (update_partial_path n p) = p.
Proof. by destruct n as [[]|]. Qed.

Lemma update_partial_path_id n : update_partial_path n (partial_path n) = n.
Proof. by destruct n as [[]|[]]. Qed.

(** The two path components of a byte join back to the byte, and joining two
    components and splitting the byte gives the components back. *)
Lemma path_component_pair_roundtrip a b :
  is_nibble a -> is_nibble b ->
  u8 (PathComponent_join a b) /\ new_pair (PathComponent_join a b) = (a, b).
Proof.
  unfold is_nibble. intros Ha Hb.
  assert (H : forallb (fun b => (0 <=? PathComponent_join a b) && (PathComponent_join a b <=? 255) &&
    bool_decide (new_pair (PathComponent_join a b) = (a, b))) (seqZ 0 16) = true).
  { revert a Ha. apply (forallb_range (fun a => forallb (fun b =>
      (0 <=? PathComponent_join a b) && (PathComponent_join a b <=? 255) &&
      bool_decide (new_pair (PathComponent_join a b) = (a, b))) (seqZ 0 16))).
    vm_compute. reflexivity. }
  pose proof (forallb_range _ _ H b Hb) as Hp.
  cbv beta in Hp. rewrite !andb_true_iff, !Z.leb_le, bool_decide_eq_true in Hp.
  split; [ulia | tauto].
Qed.
