(* ===== verification/Codec.v ===== *)
(** * Byte-level codecs

    [ReadSerializable] of [storage/src/node/branch.rs], little-endian integers,
    the variable-length integers of the [integer_encoding] crate (a parameter:
    the class [VarInt] and its laws), and the legacy bincode integers of
    [storage/src/nodestore/alloc.rs]. *)

From S2P Require Import Prelude.

(** ** [Read] helpers *)

(** [Read::read_exact] into a buffer of [n] bytes. *)
Definition read_exact (n : nat) : reader bytes := fun bs =>
  if decide (length bs < n)%nat then Err (IoFailure UnexpectedEof)
  else Ok (take n bs, drop n bs).

Definition read_byte : reader Z := fun bs =>
  match bs with
  | [] => Err (IoFailure UnexpectedEof)
  | b :: bs => Ok (b, bs)
  end.

(** [read_fixed_len]: [Vec::with_capacity] panics on a capacity above
    [isize::MAX] bytes, before anything is read; memory for a smaller capacity
    is assumed to be there. *)
Definition read_fixed_len (len : Z) : reader bytes := fun bs =>
  if ISIZE_MAX <? len then Err Panic
  else
    let buf := take (Z.to_nat len) bs in
    if negb (Z.of_nat (length buf) =? len) then Err (IoFailure UnexpectedEof)
    else Ok (buf, drop (Z.to_nat len) bs).

(** ** Fixed-width little-endian integers ([to_ne_bytes] on the little-endian
    targets the program runs on, [to_le_bytes], [from_le_bytes]) *)
Fixpoint to_le_bytes (n : nat) (x : Z) : bytes :=
  match n with
  | O => []
  | S n => x mod 256 :: to_le_bytes n (x / 256)
  end.

Fixpoint from_le_bytes (bs : bytes) : Z :=
  match bs with
  | [] => 0
  | b :: bs => b + 256 * from_le_bytes bs
  end.

(** ** Variable-length integers

    [encode_var] and [read_varint] of the [integer_encoding] crate. *)
Class VarInt : Type := {
  encode_var : Z -> bytes;
  read_varint : reader Z;
}.

(** What the program relies on: an encoded integer reads back and leaves what
    follows it, takes one to ten bytes, and is a single byte below 128; whatever is
    read is a [u64] taken from the front of the bytes. *)
Class VarIntLaws `{VarInt} : Prop := {
  encode_var_bytes n : u64 n -> is_bytes (encode_var n);
  encode_var_small n : 0 <= n < 128 -> encode_var n = [n];
  encode_var_len n : u64 n -> (1 <= length (encode_var n) <= 10)%nat;
  read_varint_encode n rest : u64 n -> read_varint (encode_var n ++ rest) = Ok (n, rest);
  read_varint_front bs n rest : is_bytes bs -> read_varint bs = Ok (n, rest) -> u64 n /\ exists pre, bs = pre ++ rest;
  read_varint_err bs e : read_varint bs = Err e -> exists x, e = IoFailure x;
}.

(** The protobuf base-128 encoding satisfies the laws. *)
Fixpoint leb_encode (fuel : nat) (n : Z) : bytes :=
  match fuel with
  | O => [n]
  | S fuel => if n <? 128 then [n] else (n mod 128 + 128) :: leb_encode fuel (n / 128)
  end.

Fixpoint leb_decode (fuel : nat) : reader Z :=
  b ← read_byte;
  if b <? 128 then mret b
  else match fuel with
       | O => reader_fail InvalidData
       | S fuel => m ← leb_decode fuel; mret (b - 128 + 128 * m)
       end.

(** ** Legacy integers *)

Definition SINGLE_BYTE_MAX : Z := 250.
Definition U16_BYTE : Z := 251.
Definition U32_BYTE : Z := 252.
Definition U64_BYTE : Z := 253.

(** [read_bincode_varint_u64_le]. *)
Definition read_bincode_varint_u64_le : reader Z :=
  byte ← read_byte;
  if byte <=? SINGLE_BYTE_MAX then mret byte
  else if byte =? U16_BYTE then buf ← read_exact 2; mret (from_le_bytes buf)
  else if byte =? U32_BYTE then buf ← read_exact 4; mret (from_le_bytes buf)
  else if byte =? U64_BYTE then buf ← read_exact 8; mret (from_le_bytes buf)
  else reader_fail InvalidData.

(** ** Facts *)

Lemma read_byte_cons b rest : read_byte (b :: rest) = Ok (b, rest).
Proof. reflexivity. Qed.

Lemma read_exact_app n bs rest : length bs = n -> read_exact n (bs ++ rest) = Ok (bs, rest).
Proof.
  intros <-. unfold read_exact. rewrite length_app. case_decide; [lia|].
  by rewrite take_app_length, drop_app_length.
Qed.

Lemma read_fixed_len_app len bs rest :
  Z.of_nat (length bs) = len -> len <= ISIZE_MAX -> read_fixed_len len (bs ++ rest) = Ok (bs, rest).
Proof.
  intros <- Hlen. unfold read_fixed_len. rewrite Nat2Z.id, take_app_length, drop_app_length.
  rewrite Z.eqb_refl. zcase; [lia | done].
Qed.

Lemma length_to_le_bytes n x : length (to_le_bytes n x) = n.
Proof. revert x. induction n as [|n IH]; intros x; simpl; [done|]. by rewrite IH. Qed.

Lemma is_bytes_to_le_bytes n x : is_bytes (to_le_bytes n x).
Proof.
  revert x. induction n as [|n IH]; intros x; simpl; constructor; [|apply IH]. dlia.
Qed.

Lemma from_to_le_bytes n x : 0 <= x < 256 ^ Z.of_nat n -> from_le_bytes (to_le_bytes n x) = x.
Proof.
  revert x. induction n as [|n IH]; intros x Hx; cbn [to_le_bytes from_le_bytes].
  - simpl in Hx. lia.
  - rewrite Nat2Z.inj_succ, Z.pow_succ_r in Hx by lia. rewrite IH; [dlia|].
    split; [dlia | apply Z.div_lt_upper_bound; lia].
Qed.

Lemma from_to_le_u64 x : u64 x -> from_le_bytes (to_le_bytes 8 x) = x.
Proof. intros Hx. apply from_to_le_bytes. change (256 ^ Z.of_nat 8) with 18446744073709551616. ulia. Qed.

Lemma from_le_bytes_bound bs : is_bytes bs -> 0 <= from_le_bytes bs < 256 ^ Z.of_nat (length bs).
Proof.
  induction 1 as [|b bs Hb _ IH]; cbn [from_le_bytes length]; [done|].
  rewrite Nat2Z.inj_succ, Z.pow_succ_r by lia. ulia.
Qed.

Lemma leb_encode_facts fuel n :
  0 <= n < 128 ^ (Z.of_nat fuel + 1) ->
  is_bytes (leb_encode fuel n) /\ (1 <= length (leb_encode fuel n) <= S fuel)%nat /\
  forall rest, leb_decode fuel (leb_encode fuel n ++ rest) = Ok (n, rest).
Proof.
  revert n. induction fuel as [|fuel IH]; intros n Hn.
  - assert (0 <= n < 128) by (simpl in Hn; lia). simpl. split_and!; try lia.
    + constructor; [ulia | constructor].
    + intros rest. rewrite (reader_bind_Ok _ _ _ _ _ (read_byte_cons _ _)).
      destruct (Z.ltb_spec n 128); [done | lia].
  - cbn [leb_encode leb_decode]. destruct (Z.ltb_spec n 128) as [Hlt|Hge].
    + split_and!; [constructor; [ulia | constructor] | simpl; lia.. |].
      intros rest. simpl. rewrite (reader_bind_Ok _ _ _ _ _ (read_byte_cons _ _)).
      destruct (Z.ltb_spec n 128); [done | lia].
    + destruct (IH (n / 128)) as (Hb & Hl & Hd).
      { rewrite Nat2Z.inj_succ, Z.add_succ_l, Z.pow_succ_r in Hn by lia.
        split; [dlia | apply Z.div_lt_upper_bound; lia]. }
      split_and!; [constructor; [dlia | done] | simpl; lia.. |].
      intros rest. simpl. rewrite (reader_bind_Ok _ _ _ _ _ (read_byte_cons _ _)).
      destruct (Z.ltb_spec (n mod 128 + 128) 128); [dlia|].
      rewrite (reader_bind_Ok _ _ _ _ _ (Hd rest)). unfold mret, reader_ret. do 2 f_equal. dlia.
Qed.

Lemma leb_decode_encode n rest : u64 n -> leb_decode 9 (leb_encode 9 n ++ rest) = Ok (n, rest).
Proof. intros Hn. apply leb_encode_facts. change (128 ^ (Z.of_nat 9 + 1)) with 1180591620717411303424. ulia. Qed.

Lemma leb_decode_front fuel bs n rest : leb_decode fuel bs = Ok (n, rest) -> exists pre, bs = pre ++ rest.
Proof.
  revert bs n rest. induction fuel as [|fuel IH]; intros [|b bs] n rest Hd; cbn in Hd; try done;
    unfold mbind, reader_bind, read_byte in Hd; destruct (b <? 128); try (injection Hd as <- <-; by exists [b]); try done.
  destruct (leb_decode fuel bs) as [[m r]|] eqn:E; [|done]. injection Hd as _ <-. destruct (IH _ _ _ E) as [pre ->]. by exists (b :: pre).
Qed.

Lemma leb_decode_err fuel bs e : leb_decode fuel bs = Err e -> exists x, e = IoFailure x.
Proof.
  revert bs. induction fuel as [|fuel IH]; intros [|b bs] Hd; cbn in Hd; try (injection Hd as <-; by eexists);
    unfold mbind, reader_bind, read_byte in Hd; destruct (b <? 128); try done; try (injection Hd as <-; by eexists).
  destruct (leb_decode fuel bs) as [[m r]|] eqn:E; [done|]. injection Hd as <-. by eapply IH.
Qed.

Module Leb128.

(** The bits above the sixty-fourth are dropped. *)
#[export] Instance leb_varint : VarInt :=
  {| encode_var := leb_encode 9; read_varint := n ← leb_decode 9; mret (n mod 18446744073709551616) |}.

#[export] Instance leb_varint_laws : VarIntLaws.
Proof.
  assert (H : forall n, u64 n -> 0 <= n < 128 ^ (Z.of_nat 9 + 1)).
  { intros n Hn. change (128 ^ (Z.of_nat 9 + 1)) with 1180591620717411303424. ulia. }
  split.
  - intros n Hn. by apply leb_encode_facts, H.
  - intros n Hn. simpl. destruct (Z.ltb_spec n 128); [done | lia].
  - intros n Hn. apply (leb_encode_facts 9), H, Hn.
  - intros n rest Hn. cbn [read_varint encode_var leb_varint]. erewrite reader_bind_Ok by (by apply leb_decode_encode).
    unfold mret, reader_ret. rewrite Z.mod_small; [done | ulia].
  - intros bs n rest _ Hr. cbn [read_varint leb_varint] in Hr. unfold mbind, reader_bind in Hr.
    destruct (leb_decode 9 bs) as [[m r]|] eqn:E; [|done]. injection Hr as <- <-. split; [|by eapply leb_decode_front].
    pose proof (Z.mod_pos_bound m 18446744073709551616). ulia.
  - intros bs e Hr. cbn [read_varint leb_varint] in Hr. unfold mbind, reader_bind in Hr.
    destruct (leb_decode 9 bs) as [[m r]|] eqn:E; [done|]. injection Hr as <-. by eapply leb_decode_err.
Qed.

End Leb128.
