(* ===== verification/NodeCodec.v ===== *)
(** * The on-disk encoding of nodes

    [Node::as_bytes] and [Node::from_reader] of [storage/src/node/mod.rs], and
    the child-hash codecs of the two hashing schemes
    ([storage/src/hashtype.rs], [storage/src/hashers/{merkledb,ethhash}.rs],
    [storage/src/trie_hash.rs]). *)

From S2P Require Import Prelude Primitives NodePath Node Codec.

(** ** Child hashes *)

(** [NodeHashAlgorithm], the identity of a [HashMode]. *)
Inductive NodeHashAlgorithm : Type :=
| MerkleDB
| Ethereum.

(** [Serializable for TrieHash]. *)
Definition TrieHash_write_to (h : TrieHash) : bytes := h.
Definition TrieHash_from_reader : reader TrieHash := read_exact 32.

(** [Serializable for HashType]. *)
Definition HashType_write_to (h : HashType) : bytes :=
  match h with
  | Hash h => 0 :: h
  | Rlp r => (Z.of_nat (length r) mod 256) :: r
  end.

Definition HashType_from_reader : reader HashType :=
  first ← read_exact 1;
  let len := nth 0 first 0 in
  if len =? 0 then h ← read_exact 32; mret (Hash h)
  else if 32 <? len then reader_fail InvalidData
  else r ← read_exact (Z.to_nat len); mret (Rlp r).

(** [HashMode::write_child_hash]. *)
Definition write_child_hash (alg : NodeHashAlgorithm) (h : HashType) : result io_error bytes :=
  match alg with
  | MerkleDB => match h with
                | Hash h => Ok (TrieHash_write_to h)
                | Rlp _ => Err InvalidData
                end
  | Ethereum => Ok (HashType_write_to h)
  end.

(** [HashMode::read_child_hash]. *)
Definition read_child_hash (alg : NodeHashAlgorithm) : reader HashType :=
  match alg with
  | MerkleDB => h ← TrieHash_from_reader; mret (Hash h)
  | Ethereum => HashType_from_reader
  end.

(** ** First bytes *)

(** The [bitfield!] layouts: [has_value] is bit 1, [number_children] bits 2-5
    and [partial_path_length] bits 6-7 of a branch; bit 0 and bits 1-7 of a
    leaf. *)
Definition BranchFirstByte_new (has_value number_children pp_len : Z) : Z :=
  Z.lor (Z.shiftl has_value 1) (Z.lor (Z.shiftl number_children 2) (Z.shiftl pp_len 6)).
Definition has_value (b : Z) : Z := Z.land (Z.shiftr b 1) 1.
Definition number_children (b : Z) : Z := Z.land (Z.shiftr b 2) 15.
Definition branch_partial_path_length (b : Z) : Z := Z.land (Z.shiftr b 6) 3.

Definition LeafFirstByte_new (leaf pp_len : Z) : Z := Z.lor leaf (Z.shiftl pp_len 1).

Definition BRANCH_PARTIAL_PATH_LEN_OVERFLOW : Z := Z.shiftl 1 2 - 1.
Definition LEAF_PARTIAL_PATH_LEN_OVERFLOW : Z := Z.shiftl 1 7 - 2.

Section Codec.
Context `{VarInt}.
Variable alg : NodeHashAlgorithm.

(** ** [as_bytes] *)

(** A child's address and hash; an unhashed child is the failed [expect]. *)
Definition encode_child (c : Child) : result failure bytes :=
  '(address, hash) ← expect (Child_persist_info c);
  h ← io (write_child_hash alg hash);
  mret (to_le_bytes 8 address ++ h).

Fixpoint encode_children_full (l : list (PathComponent * Child)) : result failure bytes :=
  match l with
  | [] => mret []
  | (_, c) :: l => b ← encode_child c; rest ← encode_children_full l; mret (b ++ rest)
  end.

Fixpoint encode_children_sparse (l : list (PathComponent * Child)) : result failure bytes :=
  match l with
  | [] => mret []
  | (position, c) :: l =>
      b ← encode_child c; rest ← encode_children_sparse l;
      mret (encode_var position ++ b ++ rest)
  end.

(** The first byte holds the length of the partial path when it is short, and
    the overflow value when the length follows as a varint. *)
Definition pp_len_field (overflow : Z) (p : Path) : Z :=
  if Z.of_nat (length p) <? overflow then Z.of_nat (length p) else overflow.

Definition encode_path (overflow : Z) (p : Path) : bytes :=
  (if pp_len_field overflow p =? overflow then encode_var (Z.of_nat (length p)) else []) ++ p.

(** What [as_bytes] appends after the area-index byte. *)
Definition encode_body (n : Node) : result failure bytes :=
  match n with
  | Branch b =>
      let child_iter := Children_iter_present (branch_children b) in
      let childcount := length child_iter in
      let pp_len := pp_len_field BRANCH_PARTIAL_PATH_LEN_OVERFLOW (branch_partial_path b) in
      let first_byte := BranchFirstByte_new
        (match branch_value b with Some _ => 1 | None => 0 end) (Z.of_nat (childcount mod MAX_CHILDREN)) pp_len in
      let value := match branch_value b with
                   | Some v => encode_var (Z.of_nat (length v)) ++ v
                   | None => []
                   end in
      children ← (if Nat.eqb childcount MAX_CHILDREN then encode_children_full child_iter
                  else encode_children_sparse child_iter);
      mret (first_byte :: encode_path BRANCH_PARTIAL_PATH_LEN_OVERFLOW (branch_partial_path b)
              ++ value ++ children)
  | Leaf l =>
      let pp_len := pp_len_field LEAF_PARTIAL_PATH_LEN_OVERFLOW (leaf_partial_path l) in
      let first_byte := LeafFirstByte_new 1 pp_len in
      mret (first_byte :: encode_path LEAF_PARTIAL_PATH_LEN_OVERFLOW (leaf_partial_path l)
              ++ encode_var (Z.of_nat (length (leaf_value l))) ++ leaf_value l)
  end.

(** [Node::as_bytes]: appends the node to [encoded] and returns its area index,
    which is also patched into the placeholder byte. *)
Definition as_bytes (self : Node) (encoded : bytes) : result failure (AreaIndex * bytes) :=
  let area_size_index_position := length encoded in
  let encoded := encoded ++ [0] in
  body ← encode_body self;
  let encoded := encoded ++ body in
  let node_size := Z.of_nat (length encoded - area_size_index_position) in
  area_index ← io (from_size node_size);
  mret (area_index, <[area_size_index_position := area_index]> encoded).

(** ** [from_reader] *)

Definition read_path_with_provided_length (len : Z) : reader Path := read_fixed_len len.

Definition read_path_with_prefix_length : reader Path :=
  len ← read_varint; read_path_with_provided_length len.

Definition read_path_with_overflow_length (value overflow : Z) : reader Path :=
  if value <? overflow then read_path_with_provided_length value
  else read_path_with_prefix_length.

Definition read_value : reader Value := value_len ← read_varint; read_fixed_len value_len.

Definition read_child : reader Child :=
  address_buf ← read_exact 8;
  hash ← read_child_hash alg;
  match LinearAddress_new (from_le_bytes address_buf) with
  | Some address => mret (AddressWithHash address hash)
  | None => reader_fail OtherError
  end.

(** The loop over all slots of a full branch. *)
Fixpoint read_children_full (n : nat) : reader (Children (option Child)) :=
  match n with
  | O => mret []
  | S n => c ← read_child; rest ← read_children_full n; mret (Some c :: rest)
  end.

(** [for _ in 0..childcount]. *)
Fixpoint read_children_sparse (n : nat) (children : Children (option Child))
  : reader (Children (option Child)) :=
  match n with
  | O => mret children
  | S n =>
      position_buf ← read_exact 1;
      match PathComponent_try_new (nth 0 position_buf 0) with
      | None => reader_fail OtherError
      | Some position =>
          c ← read_child;
          read_children_sparse n (Children_set children position (Some c))
      end
  end.

Definition from_reader : reader Node :=
  first_byte ← read_byte;
  if first_byte =? 255 then reader_fail OtherError
  else if Z.land first_byte 1 =? 1 then
    p ← read_path_with_overflow_length (Z.shiftr first_byte 1) LEAF_PARTIAL_PATH_LEN_OVERFLOW;
    value ← read_value;
    mret (Leaf (mkLeaf p value))
  else
    let has_value := has_value first_byte =? 1 in
    let childcount := Z.to_nat (number_children first_byte) in
    p ← read_path_with_overflow_length (branch_partial_path_length first_byte)
          BRANCH_PARTIAL_PATH_LEN_OVERFLOW;
    value ← (if has_value then v ← read_value; mret (Some v) else mret None);
    children ← (if Nat.eqb childcount 0 then read_children_full MAX_CHILDREN
                else read_children_sparse childcount Children_new);
    mret (Branch (mkBranch p value children)).

End Codec.

(** ** Storable nodes

    A child can be stored once it has an address and a hash; reading gives it
    back as [AddressWithHash]. *)
Definition hash_wf (alg : NodeHashAlgorithm) (h : HashType) : Prop :=
  match alg, h with
  | _, Hash h => length h = 32%nat
  | MerkleDB, Rlp _ => False
  | Ethereum, Rlp r => (0 < length r < 32)%nat
  end.

Definition child_storable (alg : NodeHashAlgorithm) (c : Child) : Prop :=
  exists a h, Child_persist_info c = Some (a, h) /\ LinearAddress_wf a /\ hash_wf alg h.

(** A branch is storable when it has a child: the count of a childless branch
    is the one that marks a full branch. *)
Definition storable (alg : NodeHashAlgorithm) (n : Node) : Prop :=
  match n with
  | Leaf _ => True
  | Branch b =>
      Children_wf (branch_children b) /\
      (0 < length (Children_iter_present (branch_children b)))%nat /\
      forall p, p ∈ Children_iter_present (branch_children b) -> child_storable alg p.2
  end.

Definition stored_child (c : Child) : Child :=
  match Child_persist_info c with
  | Some (a, h) => AddressWithHash a h
  | None => c
  end.

(** The node that reading back yields. *)
Definition stored_form (n : Node) : Node :=
  match n with
  | Leaf l => Leaf l
  | Branch (mkBranch p v c) =>
      Branch (mkBranch p v ((fun o : option Child => stored_child <$> o) <$> c))
  end.

(** ** Facts *)

Lemma BranchFirstByte_fields hv nc pp :
  0 <= hv < 2 -> 0 <= nc < 16 -> 0 <= pp < 4 ->
  let b := BranchFirstByte_new hv nc pp in
  0 <= b < 255 /\ Z.land b 1 = 0 /\ has_value b = hv /\ number_children b = nc /\
  branch_partial_path_length b = pp.
Proof.
  intros Hhv Hnc Hpp.
  set (ok hv nc pp := let b := BranchFirstByte_new hv nc pp in
    (0 <=? b) && (b <? 255) && (Z.land b 1 =? 0) && (has_value b =? hv) &&
    (number_children b =? nc) && (branch_partial_path_length b =? pp)).
  assert (H : ok hv nc pp = true).
  { revert hv Hhv. apply (forallb_range (fun hv => ok hv nc pp)).
    revert nc Hnc. apply (forallb_range (fun nc => forallb (fun hv => ok hv nc pp) (seqZ 0 2))).
    revert pp Hpp. apply (forallb_range (fun pp => forallb (fun nc => forallb (fun hv =>
      ok hv nc pp) (seqZ 0 2)) (seqZ 0 16))). vm_compute. reflexivity. }
  unfold ok in H. cbv zeta in H |- *.
  rewrite !andb_true_iff, !Z.leb_le, !Z.ltb_lt, !Z.eqb_eq in H. tauto.
Qed.

Lemma LeafFirstByte_fields pp :
  0 <= pp < 127 ->
  let b := LeafFirstByte_new 1 pp in 0 <= b < 255 /\ Z.land b 1 = 1 /\ Z.shiftr b 1 = pp.
Proof.
  intros Hpp.
  set (ok pp := let b := LeafFirstByte_new 1 pp in
    (0 <=? b) && (b <? 255) && (Z.land b 1 =? 1) && (Z.shiftr b 1 =? pp)).
  assert (H : ok pp = true).
  { revert pp Hpp. apply (forallb_range ok). vm_compute. reflexivity. }
  unfold ok in H. cbv zeta in H |- *.
  rewrite !andb_true_iff, !Z.leb_le, !Z.ltb_lt, !Z.eqb_eq in H. tauto.
Qed.

Section Facts.
Context `{VarIntLaws}.
Variable alg : NodeHashAlgorithm.

Lemma read_child_hash_write h b rest :
  hash_wf alg h -> write_child_hash alg h = Ok b ->
  read_child_hash alg (b ++ rest) = Ok (h, rest).
Proof.
  intros Hwf Hw. destruct alg, h as [h|r]; simpl in Hwf, Hw; try done; injection Hw as <-; simpl.
  - unfold TrieHash_write_to. rstep (read_exact_app 32). done.
  - unfold HashType_from_reader. rstep (read_exact_app 1 [0]). simpl. rstep (read_exact_app 32). done.
  - unfold HashType_from_reader.
    rstep (read_exact_app 1 [Z.of_nat (length r) mod 256]). cbn [nth].
    rewrite Z.mod_small by lia.
    destruct (Z.eqb_spec (Z.of_nat (length r)) 0); [lia|].
    destruct (Z.ltb_spec 32 (Z.of_nat (length r))); [lia|].
    rstep (read_exact_app (Z.to_nat (Z.of_nat (length r)))) by lia. done.
Qed.

Lemma read_encode_child c b rest :
  child_storable alg c -> encode_child alg c = Ok b ->
  read_child alg (b ++ rest) = Ok (stored_child c, rest).
Proof.
  intros (a & h & Hi & Ha & Hh) He. unfold encode_child in He. rewrite Hi in He.
  cbn [expect ok_or] in He. unfold mbind, result_bind in He.
  destruct (write_child_hash alg h) as [hb|] eqn:Hw; [|done]. apply Ok_inj in He as <-.
  unfold read_child. rewrite <- app_assoc.
  rstep (read_exact_app 8) by apply length_to_le_bytes.
  erewrite reader_bind_Ok by (by apply read_child_hash_write).
  unfold LinearAddress_wf in Ha. rewrite from_to_le_u64 by ulia.
  unfold LinearAddress_new, stored_child. rewrite Hi. destruct (Z.eqb_spec a 0); [lia | done].
Qed.

Lemma read_encode_children_full l b rest :
  (forall p, p ∈ l -> child_storable alg p.2) -> encode_children_full alg l = Ok b ->
  read_children_full alg (length l) (b ++ rest) = Ok ((fun p => Some (stored_child p.2)) <$> l, rest).
Proof.
  revert b. induction l as [|[i c] l IH]; intros b Hs He; cbn in He.
  - by apply Ok_inj in He as <-.
  - bind_inv He. cbn [length read_children_full]. rewrite <- app_assoc.
    rstep read_encode_child by (apply (Hs (i, c)); left).
    erewrite reader_bind_Ok; [done|]. apply IH; [|done]. intros p Hp. apply Hs. by right.
Qed.

Lemma read_encode_children_sparse l acc b rest :
  (forall p, p ∈ l -> is_nibble p.1 /\ child_storable alg p.2) ->
  encode_children_sparse alg l = Ok b ->
  read_children_sparse alg (length l) acc (b ++ rest) = Ok (Children_fill stored_child acc l, rest).
Proof.
  revert acc b. induction l as [|[i c] l IH]; intros acc b Hs He; cbn in He.
  - by apply Ok_inj in He as <-.
  - bind_inv He. destruct (Hs (i, c) ltac:(left)) as [Hi Hc]. simpl in Hi, Hc.
    cbn [length read_children_sparse]. rewrite encode_var_small by (unfold is_nibble in Hi; lia).
    rewrite <- !app_assoc. rstep (read_exact_app 1 [i]). cbn [nth].
    rewrite PathComponent_try_new_nibble by done.
    rstep read_encode_child. apply IH; [|done]. intros p Hp. apply Hs. by right.
Qed.

Lemma read_encode_path overflow p rest :
  0 <= overflow -> Z.of_nat (length p) <= ISIZE_MAX ->
  read_path_with_overflow_length (pp_len_field overflow p) overflow
    (encode_path overflow p ++ rest) = Ok (p, rest).
Proof.
  intros Ho Hp. unfold read_path_with_overflow_length, encode_path, pp_len_field.
  destruct (Z.ltb_spec (Z.of_nat (length p)) overflow) as [Hlt|Hge].
  - rewrite (proj2 (Z.eqb_neq _ _)) by lia. rewrite (proj2 (Z.ltb_lt _ _)) by lia.
    by apply read_fixed_len_app.
  - rewrite Z.eqb_refl, Z.ltb_irrefl, <- app_assoc. unfold read_path_with_prefix_length.
    rstep read_varint_encode by ulia. by apply read_fixed_len_app.
Qed.

Lemma read_encode_value v rest :
  Z.of_nat (length v) <= ISIZE_MAX ->
  read_value ((encode_var (Z.of_nat (length v)) ++ v) ++ rest) = Ok (v, rest).
Proof.
  intros Hv. unfold read_value. rewrite <- app_assoc.
  rstep read_varint_encode by ulia. by apply read_fixed_len_app.
Qed.

Lemma pp_len_field_range overflow p : 0 <= overflow -> 0 <= pp_len_field overflow p <= overflow.
Proof. unfold pp_len_field. intros. zcase; lia. Qed.

Lemma length_encode_path overflow p : (length p <= length (encode_path overflow p))%nat.
Proof. unfold encode_path. rewrite length_app. lia. Qed.

Lemma read_encode_leaf l body rest :
  encode_body alg (Leaf l) = Ok body -> Z.of_nat (length body) <= ISIZE_MAX ->
  from_reader alg (body ++ rest) = Ok (Leaf l, rest).
Proof.
  intros He Hlen. cbn [encode_body] in He. apply Ok_inj in He as <-.
  set (p := leaf_partial_path l) in *. set (v := leaf_value l) in *.
  pose proof (length_encode_path LEAF_PARTIAL_PATH_LEN_OVERFLOW p).
  cbn [length] in Hlen. rewrite !length_app in Hlen.
  unfold from_reader. rewrite <- app_comm_cons. rstep read_byte_cons.
  destruct (LeafFirstByte_fields (pp_len_field LEAF_PARTIAL_PATH_LEN_OVERFLOW p)) as (Hr & Hl & Hs).
  { pose proof (pp_len_field_range LEAF_PARTIAL_PATH_LEN_OVERFLOW p ltac:(done)).
    change LEAF_PARTIAL_PATH_LEN_OVERFLOW with 126 in *. lia. }
  rewrite (proj2 (Z.eqb_neq _ 255)) by lia. rewrite Hl, Hs. cbn [Z.eqb Pos.eqb].
  rewrite <- app_assoc. rstep read_encode_path. rstep read_encode_value. by destruct l.
Qed.

(** The children of a branch, in either layout. *)
Lemma read_encode_children c b rest :
  Children_wf c -> (0 < length (Children_iter_present c))%nat ->
  (forall p, p ∈ Children_iter_present c -> child_storable alg p.2) ->
  let l := Children_iter_present c in
  (if Nat.eqb (length l) MAX_CHILDREN then encode_children_full alg l
   else encode_children_sparse alg l) = Ok b ->
  let childcount := Z.to_nat (Z.of_nat (length l mod MAX_CHILDREN)) in
  (if Nat.eqb childcount 0 then read_children_full alg MAX_CHILDREN
   else read_children_sparse alg childcount Children_new) (b ++ rest) =
  Ok ((fun o : option Child => stored_child <$> o) <$> c, rest).
Proof.
  intros Hc Hpos Hs l He. cbv zeta. rewrite Nat2Z.id.
  pose proof (Children_count_le c) as Hle. fold l in Hle, Hpos.
  destruct (Nat.eqb_spec (length l) MAX_CHILDREN) as [Hfull|Hne].
  - rewrite Hfull, Nat.Div0.mod_same. cbn [Nat.eqb]. rewrite <- Hfull at 1.
    rewrite (read_encode_children_full l b rest Hs He). do 2 f_equal.
    rewrite <- (Children_full c Hc Hfull) at 1. fold l. by rewrite <- list_fmap_compose.
  - rewrite Nat.mod_small by lia. destruct (Nat.eqb_spec (length l) 0); [lia|].
    rewrite (read_encode_children_sparse l Children_new b rest); [|intros p Hp; split|done].
    + by rewrite <- Children_fill_present.
    + destruct p as [i x]. by apply Children_iter_present_elem in Hp as [? _].
    + by apply Hs.
Qed.

Lemma read_encode_branch br body rest :
  storable alg (Branch br) -> encode_body alg (Branch br) = Ok body ->
  Z.of_nat (length body) <= ISIZE_MAX ->
  from_reader alg (body ++ rest) = Ok (stored_form (Branch br), rest).
Proof.
  destruct br as [p v c]. intros (Hc & Hpos & Hs) He Hlen. cbn [encode_body] in He.
  cbn [branch_partial_path branch_value branch_children] in *.
  bind_inv He. rename E into He. rename a into cb.
  pose proof (length_encode_path BRANCH_PARTIAL_PATH_LEN_OVERFLOW p).
  cbn [length] in Hlen. rewrite !length_app in Hlen.
  set (l := Children_iter_present c) in *.
  set (hv := match v with Some _ => 1 | None => 0 end) in *.
  set (pl := pp_len_field BRANCH_PARTIAL_PATH_LEN_OVERFLOW p).
  destruct (BranchFirstByte_fields hv (Z.of_nat (length l mod MAX_CHILDREN)) pl)
    as (Hr & Hl & Hhv & Hnc & Hpl).
  { unfold hv. destruct v; lia. }
  { pose proof (Nat.mod_upper_bound (length l) MAX_CHILDREN ltac:(done)).
    unfold MAX_CHILDREN, PathComponent_LEN in *. lia. }
  { pose proof (pp_len_field_range BRANCH_PARTIAL_PATH_LEN_OVERFLOW p ltac:(done)).
    change BRANCH_PARTIAL_PATH_LEN_OVERFLOW with 3 in *. unfold pl. lia. }
  unfold from_reader. rewrite <- app_comm_cons. rstep read_byte_cons.
  rewrite (proj2 (Z.eqb_neq _ 255)) by lia. rewrite Hl, Hhv, Hnc, Hpl. cbn [Z.eqb].
  rewrite <- !app_assoc. unfold pl. rstep read_encode_path.
  erewrite reader_bind_Ok.
  2: { instantiate (1 := cb ++ rest). instantiate (1 := v). unfold hv. destruct v as [v|].
       - cbn [Z.eqb Pos.eqb]. rewrite length_app in Hlen. rstep read_encode_value. done.
       - done. }
  erewrite reader_bind_Ok by (by apply read_encode_children). done.
Qed.

Lemma from_reader_encode_body n body rest :
  storable alg n -> encode_body alg n = Ok body -> Z.of_nat (length body) <= ISIZE_MAX ->
  from_reader alg (body ++ rest) = Ok (stored_form n, rest).
Proof.
  intros Hs He Hl. destruct n as [br|l]; [by apply read_encode_branch | by apply read_encode_leaf].
Qed.

(** The first byte of an encoded node is never the free-area marker. *)
Lemma encode_body_first n body :
  encode_body alg n = Ok body -> exists b rest, body = b :: rest /\ b <> 255.
Proof.
  destruct n as [br|l]; cbn [encode_body]; intros He; bind_inv He; eexists _, _; (split; [reflexivity|]).
  - set (c := Z.of_nat _). assert (0 <= c < 16).
    { subst c. pose proof (Nat.mod_upper_bound (length (Children_iter_present (branch_children br))) MAX_CHILDREN).
      unfold MAX_CHILDREN, PathComponent_LEN in *. lia. }
    pose proof (pp_len_field_range BRANCH_PARTIAL_PATH_LEN_OVERFLOW (branch_partial_path br) ltac:(done)) as Hp.
    change BRANCH_PARTIAL_PATH_LEN_OVERFLOW with 3 in *.
    destruct (BranchFirstByte_fields (match branch_value br with Some _ => 1 | None => 0 end) c
      (pp_len_field 3 (branch_partial_path br))) as [? _]; [destruct (branch_value br); lia | lia | lia |]. lia.
  - pose proof (pp_len_field_range LEAF_PARTIAL_PATH_LEN_OVERFLOW (leaf_partial_path l) ltac:(done)) as Hp.
    change LEAF_PARTIAL_PATH_LEN_OVERFLOW with 126 in *.
    destruct (LeafFirstByte_fields (pp_len_field 126 (leaf_partial_path l))) as [? _]; lia.
Qed.

(** What a successful [as_bytes] appended. *)
Lemma as_bytes_Ok n pre i out :
  as_bytes alg n pre = Ok (i, out) ->
  exists body, encode_body alg n = Ok body /\ out = pre ++ i :: body /\
    from_size (Z.of_nat (S (length body))) = Ok i.
Proof.
  unfold as_bytes. intros Ha. unfold mbind, result_bind in Ha.
  destruct (encode_body alg n) as [body|] eqn:Hb; [|done]. exists body. split; [done|].
  rewrite <- app_assoc in Ha. rewrite length_app in Ha.
  replace (length pre + length ([0%Z] ++ body) - length pre)%nat with (S (length body)) in Ha
    by (simpl; lia).
  destruct (from_size _) as [j|] eqn:Hf; [|done]. simpl in Ha. injection Ha as <- <-.
  split; [|done]. rewrite insert_app_r_alt by lia. by rewrite Nat.sub_diag.
Qed.

End Facts.

(** ** Properties *)

Section Properties.
Context `{VarIntLaws}.
Variable alg : NodeHashAlgorithm.

Lemma encode_children_total l :
  (forall p, p ∈ l -> child_storable alg p.2) ->
  (exists b, encode_children_full alg l = Ok b) /\ (exists b, encode_children_sparse alg l = Ok b).
Proof.
  induction l as [|[i c] l IH]; intros Hs; [eauto|].
  destruct IH as [[b1 H1] [b2 H2]]; [intros p Hp; apply Hs; by right|].
  destruct (Hs (i, c) ltac:(left)) as (a & h & Hi & _ & Hh). simpl in Hi.
  assert (exists b, encode_child alg c = Ok b) as [b Hb].
  { unfold encode_child. rewrite Hi. cbn [expect ok_or mbind result_bind].
    unfold hash_wf in Hh. destruct alg, h; cbn; eauto. done. }
  cbn [encode_children_full encode_children_sparse]. rewrite Hb. cbn [mbind result_bind].
  rewrite H1, H2. cbn. eauto.
Qed.

Lemma encode_body_total n : storable alg n -> exists body, encode_body alg n = Ok body.
Proof.
  destruct n as [br|l]; intros Hs; [|cbn; eauto]. destruct Hs as (Hc & _ & Hs).
  destruct (encode_children_total _ Hs) as [[b1 H1] [b2 H2]]. cbn [encode_body].
  destruct (Nat.eqb _ _); [rewrite H1 | rewrite H2]; cbn; eauto.
Qed.

(** C24: reading back a stored node gives the node, with its children as
    address-and-hash references, and consumes exactly the encoded bytes; the
    encoding fits in the area whose index it carries. *)
Theorem node_encoding_roundtrip n i out rest :
  storable alg n -> as_bytes alg n [] = Ok (i, out) ->
  exists body, out = i :: body /\ from_reader alg (body ++ rest) = Ok (stored_form n, rest) /\
    AreaIndex_wf i /\ Z.of_nat (length out) <= AreaIndex_size i.
Proof.
  intros Hs (body & Hb & -> & Hi)%as_bytes_Ok. exists body.
  destruct (from_size_Ok _ _ Hi) as (Hwf & Hle & _).
  pose proof (AreaIndex_size_range _ Hwf) as Hr.
  split; [done|]. split; [|done].
  apply from_reader_encode_body; [done..|].
  change MAX_AREA_SIZE with 16777216 in Hr. ulia.
Qed.

(** Serialising a storable node never panics: it succeeds exactly when the
    encoding fits in the largest area and otherwise fails with [OutOfMemory]. *)
Theorem node_encoding_total n pre :
  storable alg n ->
  exists body, encode_body alg n = Ok body /\
    ((Z.of_nat (S (length body)) <= MAX_AREA_SIZE /\
      exists i, as_bytes alg n pre = Ok (i, pre ++ i :: body)) \/
     (MAX_AREA_SIZE < Z.of_nat (S (length body)) /\
      as_bytes alg n pre = Err (IoFailure OutOfMemory))).
Proof.
  intros Hs. destruct (encode_body_total n Hs) as [body Hb]. exists body. split; [done|].
  assert (Hf : as_bytes alg n pre = (i ← io (from_size (Z.of_nat (S (length body))));
    mret (i, pre ++ i :: body))).
  { unfold as_bytes. rewrite Hb. unfold mbind, result_bind.
    rewrite <- app_assoc, length_app.
    replace (length pre + length ([0%Z] ++ body) - length pre)%nat with (S (length body))
      by (simpl; lia).
    destruct (io _); [|done]. rewrite insert_app_r_alt by lia. by rewrite Nat.sub_diag. }
  rewrite Hf. unfold from_size.
  destruct (Z.ltb_spec MAX_AREA_SIZE (Z.of_nat (S (length body)))) as [Hlt|Hge]; [by right|].
  left. split; [done|]. eexists. reflexivity.
Qed.

(** A stored leaf, or a stored branch with a value, starts with the byte [b] and its path; the length of the
    value is read next, from [rest]. *)
Definition value_follows (b : Z) (bs rest : bytes) : Prop :=
  b <> 255 /\ exists p,
    if Z.land b 1 =? 1
    then read_path_with_overflow_length (Z.shiftr b 1) LEAF_PARTIAL_PATH_LEN_OVERFLOW bs = Ok (p, rest)
    else has_value b = 1 /\ read_path_with_overflow_length (branch_partial_path_length b) BRANCH_PARTIAL_PATH_LEN_OVERFLOW bs = Ok (p, rest).

(** C40: a corrupt length makes the decoder panic.  Whatever the path, and for leaves and branches alike, if the
    length that is read for the value of a node exceeds [isize::MAX], the decoder panics in
    [Vec::with_capacity], before the missing bytes are noticed; nothing is assumed of what follows. *)
Theorem corrupt_value_length_panics b bs rest n rest' :
  value_follows b bs rest -> read_varint rest = Ok (n, rest') -> ISIZE_MAX < n -> from_reader alg (b :: bs) = Err Panic.
Proof.
  intros (Hb & p & Hp) Hn Hlen. unfold from_reader. rstep read_byte_cons.
  destruct (Z.eqb_spec b 255) as [|_]; [done|].
  assert (Hv : read_value rest = Err Panic).
  { unfold read_value. erewrite reader_bind_Ok by exact Hn. unfold read_fixed_len. by rewrite (proj2 (Z.ltb_lt _ _)). }
  destruct (Z.land b 1 =? 1).
  - erewrite reader_bind_Ok by exact Hp. by erewrite reader_bind_Err.
  - destruct Hp as [Hh Hp]. erewrite reader_bind_Ok by exact Hp. erewrite reader_bind_Err; [done|].
    rewrite Hh. cbn [Z.eqb Pos.eqb]. by erewrite reader_bind_Err.
Qed.

End Properties.

Section Witnesses.
Import Leb128.

(** A branch with a value and two children, encoded under both schemes. *)
Definition sample_branch (alg : NodeHashAlgorithm) : Node :=
  Branch (mkBranch [1; 2; 3; 4] (Some [7; 7])
    (Children_set (Children_set Children_new 3 (Some (AddressWithHash 2048 (Hash (replicate 32 9)))))
       12 (Some (ChildMaybePersisted (Allocated 4096 (Leaf (mkLeaf [5] [6])))
                   (match alg with MerkleDB => Hash (replicate 32 1) | Ethereum => Rlp [193; 128] end))))).

Lemma sample_branch_storable alg : storable alg (sample_branch alg).
Proof.
  split; [reflexivity|]. split; [vm_compute; lia|]. intros p Hp.
  assert (Hin : p = (3, AddressWithHash 2048 (Hash (replicate 32 9))) \/
    p = (12, ChildMaybePersisted (Allocated 4096 (Leaf (mkLeaf [5] [6])))
      (match alg with MerkleDB => Hash (replicate 32 1) | Ethereum => Rlp [193; 128] end))).
  { vm_compute in Hp. apply elem_of_cons in Hp as [->|Hp]; [by left|].
    apply elem_of_cons in Hp as [->|Hp]; [by right | by apply elem_of_nil in Hp]. }
  destruct Hin as [-> | ->]; eexists _, _; (split; [reflexivity|]; split; [done|]);
    destruct alg; simpl; lia || reflexivity.
Qed.

Lemma node_encoding_roundtrip_witness :
  storable Ethereum (sample_branch Ethereum) /\
  exists i out, as_bytes Ethereum (sample_branch Ethereum) [] = Ok (i, out) /\
    exists body, out = i :: body /\
      from_reader Ethereum (body ++ [255; 0]) =
        Ok (stored_form (sample_branch Ethereum), [255; 0]).
Proof.
  split; [apply sample_branch_storable|]. eexists _, _. split; [vm_compute; reflexivity|].
  edestruct (node_encoding_roundtrip Ethereum (sample_branch Ethereum))
    as (body & Hb & Hr & _).
  - apply sample_branch_storable.
  - vm_compute. reflexivity.
  - exists body. split; [exact Hb | exact Hr].
Defined.

Lemma node_encoding_total_witness :
  exists body, encode_body MerkleDB (sample_branch MerkleDB) = Ok body /\
    exists i, as_bytes MerkleDB (sample_branch MerkleDB) [1] = Ok (i, [1] ++ i :: body).
Proof.
  destruct (node_encoding_total MerkleDB (sample_branch MerkleDB) [1])
    as (body & Hb & [[_ Hi]|[Hlt _]]); [apply sample_branch_storable | by exists body |].
  exfalso. vm_compute in Hb. injection Hb as <-. vm_compute in Hlt. discriminate.
Defined.

Lemma corrupt_value_length_panics_witness :
  from_reader MerkleDB (5 :: [3; 7] ++ encode_var U64_MAX ++ [0]) = Err Panic.
Proof.
  apply (corrupt_value_length_panics MerkleDB 5 _ (encode_var U64_MAX ++ [0]) U64_MAX [0]); [|vm_compute; reflexivity | reflexivity].
  split; [done|]. exists [3; 7]. vm_compute. reflexivity.
Defined.

End Witnesses.
