(* ===== verification/Trie.v ===== *)
(** * The logical trie

    The abstract view of a stored trie: the tree of nodes with every reference
    followed.  A node of the program denotes such a tree relative to what the
    storage holds ([NodeStore]); the operations of [Merkle] are specified by
    their effect on it.  Each child carries the handle (if any) through which
    its parent refers to it, so that the space accounting of the delete list
    can be stated. *)

From S2P Require Import Prelude Primitives NodePath Node.

(** ** The tree *)
#[warnings="-register-all"]
Inductive trie : Type :=
| T (pp : Path) (val : option Value) (kids : list (option (option MaybePersisted * trie))).

Abbreviation kid := (option MaybePersisted * trie)%type.

Definition tpath (t : trie) : Path := let '(T pp _ _) := t in pp.
Definition tval (t : trie) : option Value := let '(T _ v _) := t in v.
Definition tkids (t : trie) : Children (option kid) := let '(T _ _ ks) := t in ks.

(** Induction with a hypothesis for every child. *)
Lemma trie_ind' (P : trie -> Prop) :
  (forall pp v ks, (forall i o t, ks !! i = Some (Some (o, t)) -> P t) -> P (T pp v ks)) ->
  forall t, P t.
Proof.
  intros H. fix IH 1. intros [pp v ks]. apply H.
  induction ks as [|[[o t]|] ks IHks]; intros i o' t' Hi.
  - discriminate Hi.
  - destruct i as [|i]; [|exact (IHks i o' t' Hi)].
    simpl in Hi. injection Hi as <- <-. exact (IH t).
  - destruct i as [|i]; [discriminate Hi | exact (IHks i o' t' Hi)].
Qed.

(** ** Contents *)

Fixpoint strip_prefix (p k : Path) : option Path :=
  match p, k with
  | [], k => Some k
  | x :: p, y :: k => if x =? y then strip_prefix p k else None
  | _ :: _, [] => None
  end.

(** The value stored under [k]. *)
Fixpoint tget (t : trie) (k : Path) : option Value :=
  let '(T pp v ks) := t in
  match strip_prefix pp k with
  | None => None
  | Some [] => v
  | Some (i :: k) =>
      (fix slot (ks : list (option kid)) (n : nat) : option Value :=
         match ks, n with
         | Some (_, t) :: _, O => tget t k
         | _ :: ks, S n => slot ks n
         | _, _ => None
         end) ks (Z.to_nat i)
  end.

Definition kid_get (o : option kid) (k : Path) : option Value := o ≫= fun p => tget p.2 k.

Definition otget (t : option trie) (k : Path) : option Value := t ≫= fun t => tget t k.

(** ** Well-formed and canonical tries *)

(** Paths are nibbles and every node has sixteen slots. *)
Inductive trie_wf : trie -> Prop :=
| trie_wf_T pp v ks :
    is_path pp -> Children_wf ks ->
    (forall i o t, ks !! i = Some (Some (o, t)) -> trie_wf t) ->
    trie_wf (T pp v ks).

(** Path compression is maximal: a node without a value has two children. *)
Inductive canonical : trie -> Prop :=
| canonical_T pp v ks :
    (v = None -> exists i j ki kj, i <> j /\ ks !! i = Some (Some ki) /\ ks !! j = Some (Some kj)) ->
    (forall i o t, ks !! i = Some (Some (o, t)) -> canonical t) ->
    canonical (T pp v ks).

(** ** Measures *)

(** The handles of the proper descendants, in order. *)
Fixpoint handles (t : trie) : list MaybePersisted :=
  let '(T _ _ ks) := t in
  (fix go (ks : list (option kid)) : list MaybePersisted :=
     match ks with
     | [] => []
     | None :: ks => go ks
     | Some (o, t) :: ks => option_list o ++ handles t ++ go ks
     end) ks.

Definition kid_handles (o : option kid) : list MaybePersisted :=
  match o with None => [] | Some (o, t) => option_list o ++ handles t end.

Definition kids_handles (ks : list (option kid)) : list MaybePersisted := flat_map kid_handles ks.

(** The number of values. *)
Fixpoint tsize (t : trie) : nat :=
  let '(T _ v ks) := t in
  (match v with Some _ => 1 | None => 0 end +
   (fix go (ks : list (option kid)) : nat :=
      match ks with
      | [] => 0
      | None :: ks => go ks
      | Some (_, t) :: ks => tsize t + go ks
      end) ks)%nat.

Definition kid_size (o : option kid) : nat := match o with None => 0%nat | Some (_, t) => tsize t end.

Definition kids_size (ks : list (option kid)) : nat := sum_list (kid_size <$> ks).

Fixpoint theight (t : trie) : nat :=
  let '(T _ _ ks) := t in
  S ((fix go (ks : list (option kid)) : nat :=
        match ks with
        | [] => 0
        | None :: ks => go ks
        | Some (_, t) :: ks => Nat.max (theight t) (go ks)
        end) ks)%nat.

(** ** Facts: contents *)

Lemma strip_prefix_Some p k r : strip_prefix p k = Some r <-> k = p ++ r.
Proof.
  revert k. induction p as [|x p IH]; intros k; simpl; [split; congruence|].
  destruct k as [|y k]; [split; discriminate|].
  destruct (Z.eqb_spec x y) as [->|Hne]; [rewrite IH; split; congruence | split; congruence].
Qed.

Lemma strip_prefix_app_self p r : strip_prefix p (p ++ r) = Some r.
Proof. by apply strip_prefix_Some. Qed.

Lemma strip_prefix_app p q k : strip_prefix (p ++ q) k = strip_prefix p k ≫= strip_prefix q.
Proof.
  revert k. induction p as [|x p IH]; intros k; simpl; [done|].
  destruct k as [|y k]; [done|]. destruct (x =? y); [apply IH | done].
Qed.

Lemma tget_T pp v ks k :
  tget (T pp v ks) k =
  match strip_prefix pp k with
  | None => None
  | Some [] => v
  | Some (i :: k) => kid_get (Children_get ks i) k
  end.
Proof.
  simpl. destruct (strip_prefix pp k) as [[|i r]|]; [done| |done].
  unfold Children_get. generalize (Z.to_nat i). clear.
  induction ks as [|[[o t]|] ks IH]; intros [|n]; simpl; try done; apply IH.
Qed.

Lemma tget_app pp v ks r :
  tget (T pp v ks) (pp ++ r) =
  match r with [] => v | i :: k => kid_get (Children_get ks i) k end.
Proof. by rewrite tget_T, strip_prefix_app_self. Qed.

Lemma tget_prefix t k x : tget t k = Some x -> exists r, k = tpath t ++ r.
Proof.
  destruct t as [pp v ks]. rewrite tget_T.
  destruct (strip_prefix pp k) as [r|] eqn:E; [|done]. apply strip_prefix_Some in E. eauto.
Qed.

(** Extending the path of a node prefixes its keys. *)
Lemma tget_extend p pp v ks k :
  tget (T (p ++ pp) v ks) k = strip_prefix p k ≫= tget (T pp v ks).
Proof.
  rewrite tget_T, strip_prefix_app.
  destruct (strip_prefix p k) as [r|]; cbn [mbind option_bind]; [by rewrite tget_T | done].
Qed.

Lemma is_path_app p q : is_path (p ++ q) <-> is_path p /\ is_path q.
Proof. apply Forall_app. Qed.

Lemma is_path_cons x p : is_path (x :: p) <-> is_nibble x /\ is_path p.
Proof. apply Forall_cons. Qed.

Lemma is_path_snoc p x : is_path p -> is_nibble x -> is_path (p ++ [x]).
Proof. intros Hp Hx. apply is_path_app. split; [done | by apply is_path_cons; split; [|constructor]]. Qed.

(** ** Facts: children *)

Lemma Children_get_Some {A} (c : Children (option A)) i x :
  Children_get c i = Some x <-> c !! Z.to_nat i = Some (Some x).
Proof. unfold Children_get. destruct (c !! Z.to_nat i) as [[y|]|]; naive_solver. Qed.

Lemma trie_wf_inv pp v ks :
  trie_wf (T pp v ks) ->
  is_path pp /\ Children_wf ks /\
  forall i o t, Children_get ks i = Some (o, t) -> trie_wf t.
Proof.
  inversion 1 as [? ? ? Hp Hk Hs]; subst. split_and!; [done..|].
  intros i o t Hi%Children_get_Some. eauto.
Qed.

Lemma trie_wf_intro pp v (ks : Children (option kid)) :
  is_path pp -> Children_wf ks ->
  (forall i o t, is_nibble i -> Children_get ks i = Some (o, t) -> trie_wf t) ->
  trie_wf (T pp v ks).
Proof.
  intros Hp Hk H. constructor; [done..|]. intros i o t Hi.
  apply (H (Z.of_nat i) o).
  - apply lookup_lt_Some in Hi. unfold Children_wf, MAX_CHILDREN, PathComponent_LEN in Hk.
    unfold is_nibble. lia.
  - apply Children_get_Some. by rewrite Nat2Z.id.
Qed.

Lemma canonical_inv pp v ks i o t :
  canonical (T pp v ks) -> Children_get ks i = Some (o, t) -> canonical t.
Proof. inversion 1; subst. rewrite Children_get_Some. eauto. Qed.

Lemma kids_handles_set (ks : list (option kid)) i x y :
  ks !! i = Some x -> kid_handles x ++ kids_handles (<[i := y]> ks) ≡ₚ kid_handles y ++ kids_handles ks.
Proof.
  revert i. induction ks as [|z ks IH]; intros [|i] Hi; try done; simpl in *.
  - injection Hi as ->. by rewrite !(assoc_L (++)), (Permutation_app_comm (kid_handles x)).
  - rewrite !(assoc_L (++)), (Permutation_app_comm _ (kid_handles z)).
    rewrite <- (assoc_L (++)), (IH i Hi).
    by rewrite !(assoc_L (++)), (Permutation_app_comm (kid_handles z)).
Qed.

Lemma kids_size_set (ks : list (option kid)) i x y :
  ks !! i = Some x -> (kid_size x + kids_size (<[i := y]> ks) = kid_size y + kids_size ks)%nat.
Proof.
  unfold kids_size. revert i. induction ks as [|z ks IH]; intros [|i] Hi; try done; csimpl in *.
  - injection Hi as ->. simpl. lia.
  - specialize (IH i Hi). simpl in *. lia.
Qed.

Lemma handles_T pp v ks : handles (T pp v ks) = kids_handles ks.
Proof.
  simpl. induction ks as [|[[o t]|] ks IH]; simpl; [done | | done].
  by rewrite IH, (assoc_L (++)).
Qed.

Lemma tsize_T pp v ks :
  tsize (T pp v ks) = (match v with Some _ => 1 | None => 0 end + kids_size ks)%nat.
Proof.
  simpl. f_equal. unfold kids_size. induction ks as [|[[o t]|] ks IH]; simpl; [done | by rewrite IH | done].
Qed.

Lemma theight_kid pp v ks i o t : ks !! i = Some (Some (o, t)) -> (theight t < theight (T pp v ks))%nat.
Proof.
  simpl. intros Hi. apply le_n_S. revert i Hi.
  induction ks as [|z ks IH]; intros [|i] Hi; try done; simpl in Hi.
  - injection Hi as ->. lia.
  - specialize (IH i Hi). destruct z as [[]|]; simpl; lia.
Qed.

Lemma kids_handles_new : kids_handles Children_new = [].
Proof. reflexivity. Qed.

Lemma kids_size_new : kids_size Children_new = 0%nat.
Proof. reflexivity. Qed.

(** The slot of a component of a well-formed array. *)
Lemma Children_slot {A} (c : Children (option A)) i :
  Children_wf c -> is_nibble i -> c !! Z.to_nat i = Some (Children_get c i).
Proof.
  intros Hc Hi%nibble_lt. unfold Children_get.
  destruct (lookup_lt_is_Some_2 c (Z.to_nat i)) as [x ->]; [unfold Children_wf in Hc; lia | done].
Qed.

#[global] Arguments tget : simpl never.
#[global] Arguments handles : simpl never.
#[global] Arguments tsize : simpl never.
