(* ===== verification/NodeStore.v ===== *)
(** * The mutable node store

    [storage/src/nodestore/mod.rs] (reading nodes, [read_for_update] and the
    delete list), the [ReadableStorage] trait of [storage/src/linear/mod.rs],
    and its two implementations: [storage/src/linear/memory.rs] and the node
    cache of [storage/src/linear/filebacked.rs]. *)

From S2P Require Import Prelude Primitives NodePath Node Codec NodeCodec Trie.

(** ** [ReadableStorage] *)

Inductive CacheReadStrategy : Type :=
| WritesOnly
| BranchReads
| AllReads.

(** The node-reading half of the trait; the caches are interior-mutable, so
    each call returns the storage after it. *)
Class ReadableStorage (St : Type) : Type := {
  stream_from : St -> Z -> result failure bytes;
  read_cached_node : St -> LinearAddress -> option Node * St;
  take_cached_node : St -> LinearAddress -> option Node * St;
  cache_read_strategy : St -> CacheReadStrategy;
  cache_node : St -> LinearAddress -> Node -> St;
}.

(** What an implementation promises: a cache of nodes that may forget entries
    at any time, returns only what was put in, and never changes the bytes. *)
Class ReadableStorageLaws (St : Type) `{ReadableStorage St} : Type := {
  cached : St -> LinearAddress -> option Node;
  read_cached_node_law s a o s' :
    read_cached_node s a = (o, s') ->
    (forall n, o = Some n -> cached s a = Some n) /\
    (forall b n, cached s' b = Some n -> cached s b = Some n) /\
    stream_from s' = stream_from s;
  take_cached_node_law s a o s' :
    take_cached_node s a = (o, s') ->
    (forall n, o = Some n -> cached s a = Some n) /\
    (forall b n, cached s' b = Some n -> cached s b = Some n) /\
    stream_from s' = stream_from s;
  cache_node_law s a n :
    (forall b m, cached (cache_node s a n) b = Some m -> cached s b = Some m \/ (b = a /\ m = n)) /\
    stream_from (cache_node s a n) = stream_from s;
}.

(** ** The store *)

(** [MutableKind]: a proposal records deleted nodes, a reconstruction does not. *)
Inductive MutableKind : Type :=
| Propose (deleted : list MaybePersisted)
| Recon.

(** [MutableKind::track_deleted]. *)
Definition track_deleted (k : MutableKind) (node : MaybePersisted) : MutableKind :=
  match k with
  | Propose deleted => Propose (deleted ++ [node])
  | Recon => Recon
  end.

(** [NodeStore<Mutable<K>, S, H>]. *)
Record NodeStore (St : Type) : Type := mkNodeStore {
  ns_root : option Node;
  ns_kind : MutableKind;
  ns_storage : St;
  ns_deleted_node_tracking : bool;
}.
Arguments mkNodeStore {St}.
Arguments ns_root {St}.
Arguments ns_kind {St}.
Arguments ns_storage {St}.
Arguments ns_deleted_node_tracking {St}.

Definition set_root {St} (r : option Node) (ns : NodeStore St) : NodeStore St :=
  mkNodeStore r (ns_kind ns) (ns_storage ns) (ns_deleted_node_tracking ns).
Definition set_kind {St} (k : MutableKind) (ns : NodeStore St) : NodeStore St :=
  mkNodeStore (ns_root ns) k (ns_storage ns) (ns_deleted_node_tracking ns).
Definition set_storage {St} (s : St) (ns : NodeStore St) : NodeStore St :=
  mkNodeStore (ns_root ns) (ns_kind ns) s (ns_deleted_node_tracking ns).

(** Operations on a mutable store: [&mut self] with a [Result].  The state after
    an error is kept, since the program keeps the store. *)
Definition store_op (St A : Type) : Type := NodeStore St -> result failure A * NodeStore St.

#[export] Instance store_ret {St} : MRet (store_op St) := fun _ a ns => (Ok a, ns).
#[export] Instance store_bind {St} : MBind (store_op St) :=
  fun _ _ f m ns => match m ns with
                    | (Ok a, ns') => f a ns'
                    | (Err e, ns') => (Err e, ns')
                    end.

Definition lift {St A} (r : result failure A) : store_op St A := fun ns => (r, ns).

Section NodeStore.
Context {St : Type} `{ReadableStorage St} `{VarInt}.
Variable alg : NodeHashAlgorithm.

(** [read_node_with_num_bytes_from_disk]. *)
Definition read_node_with_num_bytes_from_disk (s : St) (addr : LinearAddress)
  : result failure (Node * Z) :=
  let actual_addr := saturating_add_u64 addr 1 in
  stream ← stream_from s actual_addr;
  '(node, rest) ← from_reader alg stream;
  let length := Z.of_nat (length stream - length rest) in
  mret (node, saturating_add_u64 length 1).

(** [read_node_from_disk]: the cache, then the disk, then the cache policy. *)
Definition read_node_from_disk (s : St) (addr : LinearAddress) : result failure Node * St :=
  match read_cached_node s addr with
  | (Some node, s) => (Ok node, s)
  | (None, s) =>
      match read_node_with_num_bytes_from_disk s addr with
      | Err e => (Err e, s)
      | Ok (node, _) =>
          let s := match cache_read_strategy s with
                   | AllReads => cache_node s addr node
                   | BranchReads => if is_leaf node then s else cache_node s addr node
                   | WritesOnly => s
                   end in
          (Ok node, s)
      end
  end.

(** [NodeReader::read_node] of a mutable store. *)
Definition read_node (addr : LinearAddress) : store_op St Node := fun ns =>
  let (r, s) := read_node_from_disk (ns_storage ns) addr in (r, set_storage s ns).

(** [MaybePersistedNode::as_shared_node]. *)
Definition as_shared_node (m : MaybePersisted) : store_op St Node :=
  match m with
  | Allocated _ node | Unpersisted node => mret node
  | Persisted address => read_node address
  end.

(** [NodeStore::read_for_update]. *)
Definition read_for_update (node : MaybePersisted) : store_op St Node := fun ns =>
  let '(r, ns) :=
    match persisted_address node with
    | Some addr =>
        let (cached, s) := take_cached_node (ns_storage ns) addr in
        match cached with
        | Some cached => (Ok cached, set_storage s ns)
        | None => (fst <$> read_node_with_num_bytes_from_disk s addr, set_storage s ns)
        end
    | None => as_shared_node node ns
    end in
  match r with
  | Err e => (Err e, ns)
  | Ok n =>
      (Ok n, if ns_deleted_node_tracking ns then set_kind (track_deleted (ns_kind ns) node) ns else ns)
  end.

End NodeStore.

(** ** What a node denotes *)

(** The handle through which a child is stored or shared, if any. *)
Definition child_handle (c : Child) : option MaybePersisted :=
  match c with
  | ChildNode _ => None
  | AddressWithHash addr _ => Some (Persisted addr)
  | ChildMaybePersisted m _ => Some m
  end.

Section Denotation.
(** What the storage holds at each address. *)
Variable rd : LinearAddress -> option Node.

Definition handle_node (m : MaybePersisted) : option Node :=
  match m with
  | Unpersisted n | Allocated _ n => Some n
  | Persisted addr => rd addr
  end.

Definition child_node (c : Child) : option Node :=
  match c with
  | ChildNode n => Some n
  | AddressWithHash addr _ => rd addr
  | ChildMaybePersisted m _ => handle_node m
  end.

(** [rnode n t]: following every reference of [n] in the storage gives [t]. *)
Inductive rnode : Node -> trie -> Prop :=
| rnode_leaf l : rnode (Leaf l) (T (leaf_partial_path l) (Some (leaf_value l)) Children_new)
| rnode_branch pp v c ks :
    Children_wf c -> Children_wf ks ->
    (forall i, is_nibble i -> rslot (Children_get c i) (Children_get ks i)) ->
    rnode (Branch (mkBranch pp v c)) (T pp v ks)
with rslot : option Child -> option kid -> Prop :=
| rslot_none : rslot None None
| rslot_some c n t :
    child_node c = Some n -> rnode n t -> rslot (Some c) (Some (child_handle c, t)).

Definition rroot (r : option Node) (t : option trie) : Prop :=
  match r, t with
  | None, None => True
  | Some n, Some t => rnode n t
  | _, _ => False
  end.

Lemma rnode_path n t : rnode n t -> partial_path n = tpath t.
Proof. by destruct 1. Qed.

Lemma rnode_update_path n t p :
  rnode n t -> rnode (update_partial_path n p) (T p (tval t) (tkids t)).
Proof. destruct 1 as [l|pp v c ks]; [apply (rnode_leaf (mkLeaf p (leaf_value l))) | by constructor]. Qed.

Lemma rnode_update_value n t v :
  rnode n t -> rnode (update_value n v) (T (tpath t) (Some v) (tkids t)).
Proof. destruct 1 as [l|pp w c ks]; [apply (rnode_leaf (mkLeaf _ v)) | by constructor]. Qed.

(** A leaf is a branch without children, as far as the trie is concerned. *)
Lemma rnode_childless pp v : rnode (Branch (mkBranch pp v Children_new)) (T pp v Children_new).
Proof.
  constructor; [apply Children_new_wf.. |].
  intros i Hi. rewrite !Children_get_new. constructor.
Qed.

(** Replacing one slot of a branch. *)
Lemma rnode_set pp v c ks i oc ok :
  is_nibble i -> rnode (Branch (mkBranch pp v c)) (T pp v ks) -> rslot oc ok ->
  rnode (Branch (mkBranch pp v (Children_set c i oc))) (T pp v (Children_set ks i ok)).
Proof.
  intros Hi Hr Hs. inversion Hr as [|? ? ? ? Hc Hk Hslots]; subst.
  constructor; [by apply Children_set_wf..|]. intros j Hj.
  destruct (decide (i = j)) as [<-|Hne].
  - by rewrite !Children_get_set.
  - rewrite !Children_get_set_ne by done. by apply Hslots.
Qed.

Lemma rslot_node n t : rnode n t -> rslot (Some (ChildNode n)) (Some (None, t)).
Proof. intros Hn. by apply (rslot_some (ChildNode n) n t). Qed.

Lemma rslot_Some_inv c o :
  rslot (Some c) o ->
  exists n t, o = Some (child_handle c, t) /\ child_node c = Some n /\ rnode n t.
Proof. inversion 1; subst. eauto 10. Qed.

End Denotation.

#[export] Hint Resolve rnode_leaf rnode_childless rslot_none rslot_node : merkle.

(** ** Reading preserves the store *)

Section Reading.
Context {St : Type} `{ReadableStorageLaws St} `{VarInt}.
Variable alg : NodeHashAlgorithm.

(** The node stored at an address. *)
Definition disk (s : St) (a : LinearAddress) : option Node :=
  match read_node_with_num_bytes_from_disk alg s a with Ok (n, _) => Some n | Err _ => None end.

(** Cached nodes are the stored ones. *)
Definition coherent (s : St) : Prop := forall a n, cached s a = Some n -> disk s a = Some n.

Definition holds (rd : LinearAddress -> option Node) (ns : NodeStore St) : Prop :=
  coherent (ns_storage ns) /\ forall a, disk (ns_storage ns) a = rd a.

(** The effect of reads for update: only the caches change, and [hs] is appended
    to the delete list. *)
Definition recorded (rd : LinearAddress -> option Node) (ns : NodeStore St)
  (hs : list MaybePersisted) (ns' : NodeStore St) : Prop :=
  holds rd ns' /\ ns_root ns' = ns_root ns /\
  ns_deleted_node_tracking ns' = ns_deleted_node_tracking ns /\
  ns_kind ns' = (if ns_deleted_node_tracking ns then foldl track_deleted (ns_kind ns) hs
                 else ns_kind ns).

Lemma recorded_refl rd ns : holds rd ns -> recorded rd ns [] ns.
Proof. intros Hh. split_and!; try done. by destruct (ns_deleted_node_tracking ns). Qed.

Lemma recorded_trans rd ns1 ns2 ns3 hs1 hs2 :
  recorded rd ns1 hs1 ns2 -> recorded rd ns2 hs2 ns3 -> recorded rd ns1 (hs1 ++ hs2) ns3.
Proof.
  intros (_ & Hr1 & Ht1 & Hk1) (Hh & Hr2 & Ht2 & Hk2). split_and!; [done | congruence.. |].
  rewrite Hk2, Ht1, Hk1, foldl_app. by destruct (ns_deleted_node_tracking ns1).
Qed.

Lemma recorded_holds rd ns hs ns' : recorded rd ns hs ns' -> holds rd ns'.
Proof. by intros [? _]. Qed.

(** The stored node depends on the bytes only. *)
Lemma disk_stream s s' : stream_from s' = stream_from s -> forall a, disk s' a = disk s a.
Proof. intros Hs a. unfold disk, read_node_with_num_bytes_from_disk. by rewrite Hs. Qed.

Lemma coherent_sub s s' :
  stream_from s' = stream_from s ->
  (forall b n, cached s' b = Some n -> cached s b = Some n) -> coherent s -> coherent s'.
Proof. intros Hs Hc Hco a n Ha. rewrite (disk_stream _ _ Hs). auto. Qed.

Lemma holds_storage rd ns s' :
  stream_from s' = stream_from (ns_storage ns) ->
  (forall b n, cached s' b = Some n -> cached (ns_storage ns) b = Some n) ->
  holds rd ns -> holds rd (set_storage s' ns).
Proof.
  intros Hs Hc [Hco Hd]. split; simpl; [by eapply coherent_sub|].
  intros a. by rewrite (disk_stream _ _ Hs).
Qed.

(** Inserting the stored node of an address into the cache keeps coherence. *)
Lemma coherent_cache s a n : coherent s -> disk s a = Some n -> coherent (cache_node s a n).
Proof.
  intros Hco Hd. destruct (cache_node_law s a n) as [Hc Hs].
  intros b m Hb. rewrite (disk_stream _ _ Hs).
  destruct (Hc b m Hb) as [?|[-> ->]]; auto.
Qed.

(** [read_node] returns what the storage holds, whatever the caches do. *)
Lemma read_node_ok rd ns a n :
  holds rd ns -> rd a = Some n ->
  exists ns', read_node alg a ns = (Ok n, ns') /\ recorded rd ns [] ns'.
Proof.
  intros Hh Ha. pose proof Hh as [Hco Hd].
  unfold read_node, read_node_from_disk.
  destruct (read_cached_node (ns_storage ns) a) as [o s1] eqn:Hrc.
  destruct (read_cached_node_law _ _ _ _ Hrc) as (Ho & Hsub & Hst).
  assert (Hh1 : holds rd (set_storage s1 ns)) by (by apply holds_storage).
  destruct o as [n'|].
  - assert (n' = n) as ->.
    { specialize (Ho n' eq_refl). apply Hco in Ho. rewrite Hd in Ho. congruence. }
    exists (set_storage s1 ns). split; [done|]. by apply (recorded_refl rd (set_storage s1 ns)).
  - assert (Hd1 : disk s1 a = Some n) by (rewrite (disk_stream _ _ Hst), Hd; done).
    pose proof Hd1 as Hr. unfold disk in Hr.
    destruct (read_node_with_num_bytes_from_disk alg s1 a) as [[n' z]|]; [|done].
    injection Hr as ->. eexists. split; [done|].
    assert (Hc2 : holds rd (set_storage (cache_node s1 a n) ns)).
    { destruct Hh1 as [Hco1 Hd1']. simpl in *. split; simpl; [by apply coherent_cache|].
      intros b. rewrite (disk_stream _ _ (proj2 (cache_node_law s1 a n))). apply Hd1'. }
    destruct (cache_read_strategy s1); [| destruct (is_leaf n) |];
      first [by apply (recorded_refl rd (set_storage s1 ns))
            | by apply (recorded_refl rd (set_storage (cache_node s1 a n) ns))].
Qed.

(** [read_for_update] returns the node of a handle and records the handle. *)
Lemma read_for_update_ok rd ns m n :
  holds rd ns -> handle_node rd m = Some n ->
  exists ns', read_for_update alg m ns = (Ok n, ns') /\ recorded rd ns [m] ns'.
Proof.
  intros Hh Hm. pose proof Hh as [Hco Hd]. unfold read_for_update.
  assert (Hrec : forall ns1, holds rd ns1 -> ns_root ns1 = ns_root ns -> ns_kind ns1 = ns_kind ns ->
    ns_deleted_node_tracking ns1 = ns_deleted_node_tracking ns ->
    recorded rd ns [m] (if ns_deleted_node_tracking ns1
                        then set_kind (track_deleted (ns_kind ns1) m) ns1 else ns1)).
  { intros ns1 Hh1 Hr Hk Ht. unfold recorded. rewrite <- Ht, <- Hk, <- Hr.
    by destruct (ns_deleted_node_tracking ns1) eqn:E; simpl; rewrite ?E. }
  destruct m as [n'|a n'|a]; simpl in *.
  - injection Hm as ->. eauto.
  - injection Hm as ->. eauto.
  - destruct (take_cached_node (ns_storage ns) a) as [o s1] eqn:Htc.
    destruct (take_cached_node_law _ _ _ _ Htc) as (Ho & Hsub & Hst).
    assert (Hh1 : holds rd (set_storage s1 ns)) by (by apply holds_storage).
    destruct o as [n'|].
    + assert (n' = n) as ->.
      { specialize (Ho n' eq_refl). apply Hco in Ho. rewrite Hd in Ho. congruence. }
      eexists. split; [done|]. by apply (Hrec (set_storage s1 ns)).
    + assert (Hd1 : disk s1 a = Some n) by (rewrite (disk_stream _ _ Hst), Hd; done).
      unfold disk in Hd1.
      destruct (read_node_with_num_bytes_from_disk alg s1 a) as [[n' z]|]; [|done].
      injection Hd1 as ->. eexists. split; [done|]. by apply (Hrec (set_storage s1 ns)).
Qed.

End Reading.
