(* ===== verification/Linear.v ===== *)
(** * Linear storage

    The two implementations of the storage traits: [MemStore]
    ([storage/src/linear/memory.rs]) and [FileBacked] with its node and
    free-list caches and its [PredictiveReader]
    ([storage/src/linear/filebacked.rs]). *)

From S2P Require Import Prelude Primitives NodePath Node Codec NodeCodec Trie NodeStore.

(** ** Byte arrays *)

(** [Vec::resize(n, 0)] to at least [n]. *)
Definition grow (data : bytes) (n : nat) : bytes := data ++ replicate (n - length data) 0.

(** Overwriting a range, growing the array as needed. *)
Definition overwrite (data : bytes) (offset : nat) (object : bytes) : bytes :=
  let data := grow data (offset + length object) in
  take offset data ++ object ++ drop (offset + length object) data.

Lemma length_grow data n : length (grow data n) = Nat.max (length data) n.
Proof. unfold grow. rewrite length_app, length_replicate. lia. Qed.

Lemma length_overwrite data o obj :
  length (overwrite data o obj) = Nat.max (length data) (o + length obj).
Proof. unfold overwrite. rewrite !length_app, length_take, length_drop, length_grow. lia. Qed.

(** A stream from the written range starts with the object. *)
Lemma drop_overwrite data o obj :
  drop o (overwrite data o obj) = obj ++ drop (o + length obj) (grow data (o + length obj)).
Proof.
  unfold overwrite. rewrite drop_app_ge; rewrite length_take, length_grow; [|lia].
  replace (o - o `min` (length data `max` (o + length obj)))%nat with 0%nat by lia.
  by rewrite drop_0.
Qed.

(** Every other byte that was there before is unchanged. *)
Lemma overwrite_other data o obj i :
  (i < length data)%nat -> (i < o \/ o + length obj <= i)%nat -> overwrite data o obj !! i = data !! i.
Proof.
  intros Hi Hd. unfold overwrite.
  assert (Hg : grow data (o + length obj) !! i = data !! i) by (by apply lookup_app_l).
  pose proof (length_grow data (o + length obj)) as Hl. destruct Hd as [Hd|Hd].
  - rewrite lookup_app_l, lookup_take_lt by (rewrite ?length_take; lia). done.
  - rewrite lookup_app_r, lookup_app_r, lookup_drop by (rewrite ?length_take; lia).
    rewrite length_take. rewrite <- Hg. f_equal. lia.
Qed.

(** ** [MemStore] *)

Record MemStore : Type := mkMemStore { mem_bytes : bytes }.

(** [WritableStorage::write].  A range past the address space or the capacity
    of a [Vec] panics. *)
Definition MemStore_write (s : MemStore) (offset : Z) (object : bytes) : result failure (Z * MemStore) :=
  if offset + Z.of_nat (length object) <=? ISIZE_MAX
  then Ok (Z.of_nat (length object), mkMemStore (overwrite (mem_bytes s) (Z.to_nat offset) object))
  else Err Panic.

Definition MemStore_stream_from (s : MemStore) (addr : Z) : result failure bytes :=
  Ok (drop (Z.to_nat addr) (mem_bytes s)).

Definition MemStore_size (s : MemStore) : Z := Z.of_nat (length (mem_bytes s)).

(** The cache methods are the defaults of the trait: there is no cache. *)
#[export] Instance MemStore_readable : ReadableStorage MemStore := {
  stream_from := MemStore_stream_from;
  read_cached_node s _ := (None, s);
  take_cached_node s _ := (None, s);
  cache_read_strategy _ := WritesOnly;
  cache_node s _ _ := s;
}.

#[export] Instance MemStore_laws : ReadableStorageLaws MemStore.
Proof.
  refine {| cached _ _ := None |}; simpl.
  - by intros s a o s' [= <- <-].
  - by intros s a o s' [= <- <-].
  - intros s a n. split; [by left | done].
Defined.

(** [WritableStorage::write_batch], the default: one write after the other.  What was written before an
    error stays written. *)
Fixpoint write_batch {St} (write : St -> Z -> bytes -> result failure (Z * St)) (s : St)
  (writes : list (Z * bytes)) (acc : Z) : result failure Z * St :=
  match writes with
  | [] => (Ok acc, s)
  | (offset, object) :: writes =>
      match write s offset object with
      | Err e => (Err e, s)
      | Ok (bytes_written, s) =>
          match checked_add_u64 acc bytes_written with
          | None => (Err (IoFailure OtherError), s)
          | Some acc => write_batch write s writes acc
          end
      end
  end.

(** ** [WritableStorage] *)

(** The writing half of the traits, with the free-list cache of
    [ReadableStorage]. *)
Class WritableStorage (St : Type) : Type := {
  storage_size : St -> Z;
  write : St -> Z -> bytes -> result failure (Z * St);
  write_cached_nodes : St -> list MaybePersisted -> result failure (list MaybePersisted * St);
  invalidate_cached_nodes : St -> list MaybePersisted -> St;
  free_list_cache : St -> LinearAddress -> option (option LinearAddress) * St;
  add_to_free_list_cache : St -> LinearAddress -> option LinearAddress -> St;
}.

(** What an implementation promises: a write replaces a range of the bytes and
    nothing else; the free-list cache gives back only what was put in, and a
    lookup consumes the entry; caching allocated nodes succeeds and at most marks them as persisted. *)
Class WritableStorageLaws (St : Type) `{ReadableStorage St} `{WritableStorage St} : Type := {
  store_bytes : St -> bytes;
  free_next : St -> LinearAddress -> option (option LinearAddress);
  stream_from_law s a : stream_from s a = Ok (drop (Z.to_nat a) (store_bytes s));
  write_law s offset object n s' :
    write s offset object = Ok (n, s') ->
    n = Z.of_nat (length object) /\
    store_bytes s' = overwrite (store_bytes s) (Z.to_nat offset) object /\
    forall a, free_next s' a = free_next s a;
  free_list_cache_law s a o s' :
    free_list_cache s a = (o, s') ->
    o = free_next s a /\ store_bytes s' = store_bytes s /\
    forall b, free_next s' b = if decide (b = a) then None else free_next s b;
  add_to_free_list_cache_law s a next :
    store_bytes (add_to_free_list_cache s a next) = store_bytes s /\
    forall b w, free_next (add_to_free_list_cache s a next) b = Some w ->
      free_next s b = Some w \/ (b = a /\ w = next);
  invalidate_cached_nodes_law s nodes :
    store_bytes (invalidate_cached_nodes s nodes) = store_bytes s /\
    forall a, free_next (invalidate_cached_nodes s nodes) a = free_next s a;
  write_cached_nodes_law s nodes :
    Forall (fun m => is_Some (allocated_info m)) nodes ->
    exists nodes' s', write_cached_nodes s nodes = Ok (nodes', s') /\
      store_bytes s' = store_bytes s /\ (forall a, free_next s' a = free_next s a) /\
      Forall2 (fun m m' => m' = m \/ exists a, as_linear_address m = Some a /\ m' = persist_at m a) nodes nodes';
}.

#[export] Instance MemStore_writable : WritableStorage MemStore := {
  storage_size := MemStore_size;
  write := MemStore_write;
  write_cached_nodes s nodes := Ok (nodes, s);
  invalidate_cached_nodes s _ := s;
  free_list_cache s _ := (None, s);
  add_to_free_list_cache s _ _ := s;
}.

#[export] Instance MemStore_writable_laws : WritableStorageLaws MemStore.
Proof.
  refine {| store_bytes := mem_bytes; free_next _ _ := None |}; simpl.
  - done.
  - intros s o obj n s'. unfold MemStore_write. zcase; [|done]. by intros [= <- <-].
  - intros s a o s' [= <- <-]. split_and!; [done..|]. intros b. by case_decide.
  - done.
  - done.
  - intros s nodes _. exists nodes, s. split_and!; [done..|]. apply Forall2_same_length_lookup_2; [done|]. naive_solver.
Defined.

(** ** [FileBacked]: the caches *)

(** A bounded least-recently-used cache ([lru_mem::LruCache], [lru::LruCache]):
    it may drop entries at any time, and an insertion may be refused. *)
Class LruCache (C V : Type) : Type := {
  lru_get : C -> LinearAddress -> option V * C;
  lru_pop : C -> LinearAddress -> option V * C;
  lru_put : C -> LinearAddress -> V -> C;
}.

Class LruCacheLaws (C V : Type) `{LruCache C V} : Type := {
  lru_peek : C -> LinearAddress -> option V;
  lru_get_law c a : lru_get c a = (lru_peek c a, (lru_get c a).2) /\
    forall b, lru_peek (lru_get c a).2 b = lru_peek c b;
  lru_pop_law c a : lru_pop c a = (lru_peek c a, (lru_pop c a).2) /\
    forall b, lru_peek (lru_pop c a).2 b = if decide (b = a) then None else lru_peek c b;
  lru_put_law c a v b w :
    lru_peek (lru_put c a v) b = Some w -> lru_peek c b = Some w \/ (b = a /\ w = v);
}.

(** [File::write_all_at]: either the whole range is written or an error is
    returned. *)
Class FileWriteAt : Type := {
  write_all_at : bytes -> Z -> bytes -> result io_error bytes;
  write_all_at_law file offset object file' :
    write_all_at file offset object = Ok file' -> file' = overwrite file (Z.to_nat offset) object;
}.

Section FileBacked.
Context {NC FC : Type} `{LruCache NC Node} `{LruCache FC (option LinearAddress)} `{FileWriteAt}.

(** The file is its contents; the descriptor and the lock are not modelled. *)
Record FileBacked : Type := mkFileBacked {
  fb_file : bytes;
  fb_cache : NC;
  fb_free_list_cache : FC;
  fb_cache_read_strategy : CacheReadStrategy;
}.

Definition set_cache (c : NC) (s : FileBacked) : FileBacked :=
  mkFileBacked (fb_file s) c (fb_free_list_cache s) (fb_cache_read_strategy s).

Definition set_free_list_cache (c : FC) (s : FileBacked) : FileBacked :=
  mkFileBacked (fb_file s) (fb_cache s) c (fb_cache_read_strategy s).

Definition FileBacked_read_cached_node (s : FileBacked) (addr : LinearAddress)
  : option Node * FileBacked :=
  let (cached, c) := lru_get (fb_cache s) addr in (cached, set_cache c s).

Definition FileBacked_take_cached_node (s : FileBacked) (addr : LinearAddress)
  : option Node * FileBacked :=
  let (cached, c) := lru_pop (fb_cache s) addr in (cached, set_cache c s).

Definition FileBacked_free_list_cache (s : FileBacked) (addr : LinearAddress)
  : option (option LinearAddress) * FileBacked :=
  let (cached, c) := lru_pop (fb_free_list_cache s) addr in (cached, set_free_list_cache c s).

Definition FileBacked_cache_node (s : FileBacked) (addr : LinearAddress) (node : Node) : FileBacked :=
  match fb_cache_read_strategy s with
  | WritesOnly => s
  | AllReads => set_cache (lru_put (fb_cache s) addr node) s
  | BranchReads => if negb (is_leaf node) then set_cache (lru_put (fb_cache s) addr node) s else s
  end.

Definition FileBacked_write (s : FileBacked) (offset : Z) (object : bytes)
  : result failure (Z * FileBacked) :=
  file ← io (write_all_at (fb_file s) offset object);
  mret (Z.of_nat (length object),
        mkFileBacked file (fb_cache s) (fb_free_list_cache s) (fb_cache_read_strategy s)).

(** [write_cached_nodes]: each node must be allocated; it enters the cache and
    its handle becomes persisted.  The handles after the call are returned. *)
Fixpoint FileBacked_write_cached_nodes (s : FileBacked) (nodes : list MaybePersisted)
  : result failure (list MaybePersisted * FileBacked) :=
  match nodes with
  | [] => Ok ([], s)
  | m :: nodes =>
      '(addr, shared_node) ← expect (allocated_info m);
      let s := set_cache (lru_put (fb_cache s) addr shared_node) s in
      '(ms, s) ← FileBacked_write_cached_nodes s nodes;
      Ok (persist_at m addr :: ms, s)
  end.

(** [invalidate_cached_nodes]. *)
Definition FileBacked_invalidate_cached_nodes (s : FileBacked) (nodes : list MaybePersisted)
  : FileBacked :=
  foldl (fun s addr => set_cache (lru_pop (fb_cache s) addr).2 s) s (omap as_linear_address nodes).

Definition FileBacked_add_to_free_list_cache (s : FileBacked) (addr : LinearAddress)
  (next : option LinearAddress) : FileBacked :=
  set_free_list_cache (lru_put (fb_free_list_cache s) addr next) s.

#[export] Instance FileBacked_readable : ReadableStorage FileBacked := {
  stream_from s addr := Ok (drop (Z.to_nat addr) (fb_file s));
  read_cached_node := FileBacked_read_cached_node;
  take_cached_node := FileBacked_take_cached_node;
  cache_read_strategy := fb_cache_read_strategy;
  cache_node := FileBacked_cache_node;
}.

(** The caching file store keeps the promise of the trait. *)
#[export] Instance FileBacked_laws `{!LruCacheLaws NC Node} : ReadableStorageLaws FileBacked.
Proof.
  refine {| cached s := lru_peek (fb_cache s) |}; simpl.
  - intros s a o s'. unfold FileBacked_read_cached_node.
    destruct (lru_get_law (fb_cache s) a) as [-> Hp]. intros [= <- <-].
    split_and!; [done | | done]. intros b n. simpl. by rewrite Hp.
  - intros s a o s'. unfold FileBacked_take_cached_node.
    destruct (lru_pop_law (fb_cache s) a) as [-> Hp]. intros [= <- <-].
    split_and!; [done | | done]. intros b n. simpl. rewrite Hp. by case_decide.
  - intros s a n. unfold FileBacked_cache_node.
    assert (Hput : forall b m, lru_peek (lru_put (fb_cache s) a n) b = Some m ->
      lru_peek (fb_cache s) b = Some m \/ (b = a /\ m = n)) by (intros b m; apply lru_put_law).
    destruct (fb_cache_read_strategy s); [| destruct (negb (is_leaf n)) |]; split; simpl; auto.
Defined.

#[export] Instance FileBacked_writable : WritableStorage FileBacked := {
  storage_size s := Z.of_nat (length (fb_file s));
  write := FileBacked_write;
  write_cached_nodes := FileBacked_write_cached_nodes;
  invalidate_cached_nodes := FileBacked_invalidate_cached_nodes;
  free_list_cache := FileBacked_free_list_cache;
  add_to_free_list_cache := FileBacked_add_to_free_list_cache;
}.

#[export] Instance FileBacked_writable_laws `{!LruCacheLaws FC (option LinearAddress)}
  : WritableStorageLaws FileBacked.
Proof.
  refine {| store_bytes := fb_file; free_next s := lru_peek (fb_free_list_cache s) |}; simpl.
  - done.
  - intros s o obj n s'. unfold FileBacked_write.
    destruct (write_all_at (fb_file s) o obj) as [file|] eqn:E; [|done].
    intros [= <- <-]. apply write_all_at_law in E as ->. done.
  - intros s a o s'. unfold FileBacked_free_list_cache.
    destruct (lru_pop_law (fb_free_list_cache s) a) as [-> Hp]. intros [= <- <-]. done.
  - intros s a next. split; [done|]. intros b w. apply lru_put_law.
  - intros s nodes. unfold FileBacked_invalidate_cached_nodes. revert s.
    induction (omap as_linear_address nodes) as [|a l IH]; intros s; [done|]. cbn [foldl].
    destruct (IH (set_cache (lru_pop (fb_cache s) a).2 s)) as [-> Hf]. split; [done|]. intros b. by rewrite Hf.
  - intros s nodes Hall. revert s. induction Hall as [|m nodes [[addr n] Hm] Hall IH]; intros s; [by exists [], s|]. cbn.
    rewrite Hm. cbn. destruct (IH (set_cache (lru_put (fb_cache s) addr n) s)) as (ms & s' & -> & Hb & Hf & Hr).
    exists (persist_at m addr :: ms), s'. split_and!; [done..|]. constructor; [|done]. right. exists addr.
    by destruct m; simplify_eq/=.
Defined.

End FileBacked.
Arguments FileBacked : clear implicits.
Arguments mkFileBacked {NC FC}.
Arguments fb_file {NC FC}.
Arguments fb_cache {NC FC}.
Arguments fb_free_list_cache {NC FC}.
Arguments fb_cache_read_strategy {NC FC}.

(** ** [PredictiveReader] *)

Definition PREDICTIVE_READ_BUFFER_SIZE : nat := 1024.

(** [File::read_at]: up to [n] bytes from an offset.  It may return fewer than
    asked for, but nothing only at the end of the file. *)
Class FileReadAt : Type := {
  read_at : bytes -> nat -> nat -> bytes;
  read_at_law file offset n :
    exists k, read_at file offset n = take k (drop offset file) /\ (k <= n)%nat /\
      (k = 0%nat -> n = 0%nat \/ (length file <= offset)%nat);
}.

Section PredictiveReader.
Context `{FileReadAt}.

(** [buffer[..len]] is kept as the list of the bytes read last. *)
Record PredictiveReader : Type := mkReader {
  pr_buffer : bytes;
  pr_offset : nat;
  pr_pos : nat;
  pr_bytes_read : nat;
}.

Definition PredictiveReader_new (start : nat) : PredictiveReader := mkReader [] start 0 0.

(** [Read::read] into a buffer of [buf_len] bytes. *)
Definition PredictiveReader_read (file : bytes) (r : PredictiveReader) (buf_len : nat)
  : bytes * PredictiveReader :=
  let r := if Nat.eqb (length (pr_buffer r)) (pr_pos r)
           then let read := read_at file (pr_offset r) PREDICTIVE_READ_BUFFER_SIZE in
                mkReader read (pr_offset r + length read) 0 (pr_bytes_read r)
           else r in
  let max_to_return := Nat.min buf_len (length (pr_buffer r) - pr_pos r) in
  (take max_to_return (drop (pr_pos r) (pr_buffer r)),
   mkReader (pr_buffer r) (pr_offset r) (pr_pos r + max_to_return) (pr_bytes_read r + max_to_return)).

(** [OffsetReader::offset]. *)
Definition PredictiveReader_offset (r : PredictiveReader) : nat :=
  (pr_offset r - length (pr_buffer r) + pr_pos r)%nat.

(** [Read::read_exact] of the standard library over this reader: read until the
    buffer is full or a read returns nothing. *)
Fixpoint PredictiveReader_read_exact (fuel : nat) (file : bytes) (r : PredictiveReader) (n : nat)
  : result failure bytes * PredictiveReader :=
  match fuel with
  | O => (Err Diverges, r)
  | S fuel =>
      match n with
      | O => (Ok [], r)
      | S _ =>
          let (got, r) := PredictiveReader_read file r n in
          match got with
          | [] => (Err (IoFailure UnexpectedEof), r)
          | _ :: _ =>
              let (rest, r) := PredictiveReader_read_exact fuel file r (n - length got) in
              (app got <$> rest, r)
          end
      end
  end.

(** The unread part of the buffer is the file at the current offset. *)
Definition reader_wf (file : bytes) (r : PredictiveReader) : Prop :=
  (pr_pos r <= length (pr_buffer r))%nat /\ (length (pr_buffer r) <= pr_offset r)%nat /\
  pr_buffer r = take (length (pr_buffer r)) (drop (pr_offset r - length (pr_buffer r)) file).

Lemma reader_new_wf file start : reader_wf file (PredictiveReader_new start).
Proof. unfold reader_wf. simpl. split_and!; [lia.. | done]. Qed.

(** One read returns the next bytes of the file and advances by their number. *)
Lemma PredictiveReader_read_ok file r n got r' :
  reader_wf file r -> PredictiveReader_read file r n = (got, r') ->
  reader_wf file r' /\
  got = take (length got) (drop (PredictiveReader_offset r) file) /\ (length got <= n)%nat /\
  PredictiveReader_offset r' = (PredictiveReader_offset r + length got)%nat /\
  (got = [] -> n = 0%nat \/ (length file <= PredictiveReader_offset r)%nat).
Proof.
  intros Hwf. unfold PredictiveReader_read.
  set (r1 := if Nat.eqb _ _ then _ else r).
  assert (Hr1 : reader_wf file r1 /\ PredictiveReader_offset r1 = PredictiveReader_offset r /\
    (length (pr_buffer r1) = pr_pos r1 -> (length file <= PredictiveReader_offset r)%nat)).
  { subst r1. destruct (Nat.eqb_spec (length (pr_buffer r)) (pr_pos r)) as [He|Hne]; [|by split_and!].
    destruct Hwf as (Hp & Ho & _). unfold reader_wf, PredictiveReader_offset. simpl.
    destruct (read_at_law file (pr_offset r) PREDICTIVE_READ_BUFFER_SIZE) as (k & -> & Hk & Hz).
    rewrite length_take, length_drop. split_and!; [lia | lia | | lia |].
    - replace (pr_offset r + k `min` (length file - pr_offset r) - k `min` (length file - pr_offset r))%nat
        with (pr_offset r) by lia.
      destruct (le_lt_dec k (length file - pr_offset r)) as [Hle|Hlt]; [by rewrite Nat.min_l|].
      rewrite Nat.min_r by lia. rewrite !take_ge by (rewrite length_drop; lia). done.
    - intros Hmin. destruct k; [|lia]. destruct Hz as [Hn|Hn]; [done | done | lia]. }
  clearbody r1. destruct Hr1 as ((Hp & Ho & Hb) & Hoff & Hend). intros [= <- <-].
  rewrite length_take, length_drop.
  rewrite (Nat.min_l (n `min` _)) by lia.
  unfold reader_wf. unfold PredictiveReader_offset in *. simpl.
  split_and!; [lia | lia | done | | lia | lia |].
  - rewrite <- Hoff, <- drop_drop. set (L := length (pr_buffer r1)) in *.
    set (X := drop (pr_offset r1 - L) file) in *. rewrite Hb at 1.
    replace L with (pr_pos r1 + (L - pr_pos r1))%nat at 2 by lia.
    rewrite <- take_drop_commute, take_take. f_equal. lia.
  - intros Hnil%(f_equal length). rewrite length_take, length_drop in Hnil. simpl in Hnil.
    destruct n; [by left | right; apply Hend; lia].
Qed.

(** Reading [n] bytes through the 1 KiB predictive buffer, with whatever
    short reads the file system makes, gives exactly the next [n] bytes of the
    file and moves the reported offset by [n]; if fewer remain, the result is
    [UnexpectedEof].  The loop ends within [n] reads. *)
Theorem predictive_reader_exact fuel file r n :
  reader_wf file r -> (n < fuel)%nat ->
  let o := PredictiveReader_offset r in
  let (res, r') := PredictiveReader_read_exact fuel file r n in
  reader_wf file r' /\
  if decide (n = 0 \/ o + n <= length file)%nat
  then res = Ok (take n (drop o file)) /\ PredictiveReader_offset r' = (o + n)%nat
  else res = Err (IoFailure UnexpectedEof).
Proof.
  revert r n. induction fuel as [|fuel IH]; intros r n Hwf Hn; [lia|].
  cbn [PredictiveReader_read_exact]. cbv zeta.
  destruct n as [|m]; [rewrite decide_True by lia; split_and!; [done.. | lia]|].
  remember (S m) as n eqn:Hm.
  destruct (PredictiveReader_read file r n) as [got r1] eqn:Hrd.
  destruct (PredictiveReader_read_ok _ _ _ _ _ Hwf Hrd) as (Hwf1 & Hgot & Hle & Hoff & Hnil).
  destruct got as [|b got]; [rewrite decide_False by (destruct (Hnil eq_refl); lia); done|].
  set (g := b :: got) in *. assert (Hg : (0 < length g)%nat) by (simpl; lia).
  specialize (IH r1 (n - length g)%nat Hwf1 ltac:(lia)). cbv zeta in IH.
  assert (Hlen : (PredictiveReader_offset r + length g <= length file)%nat).
  { apply (f_equal length) in Hgot. rewrite length_take, length_drop in Hgot. lia. }
  destruct (PredictiveReader_read_exact fuel file r1 (n - length g)) as [rest r2].
  rewrite Hoff in IH. destruct IH as [Hwf2 IH]. split; [done|].
  case_decide as Hd; [rewrite decide_True by lia | rewrite decide_False by lia; by rewrite IH].
  destruct IH as [-> ->]. split; [|lia]. simpl. f_equal. fold g.
  replace n with (length g + (n - length g))%nat at 2 by lia.
  rewrite take_plus, <- Hgot, drop_drop. done.
Qed.

End PredictiveReader.

(** A file system that returns at most three bytes per call. *)
Program Definition short_reads : FileReadAt := {|
  read_at file offset n := take (Nat.min 3 n) (drop offset file)
|}.
Next Obligation.
  intros file offset n. exists (Nat.min 3 n). split_and!; [done | lia | lia].
Qed.

Lemma predictive_reader_exact_witness :
  let file := [1; 2; 3; 4; 5; 6; 7; 8; 9; 10] in
  @PredictiveReader_read_exact short_reads 9 file (PredictiveReader_new 1) 8 =
  (Ok [2; 3; 4; 5; 6; 7; 8; 9], mkReader [8; 9; 10] 10 2 8) /\
  reader_wf file (mkReader [8; 9; 10] 10 2 8).
Proof.
  intros file. split; [reflexivity|].
  exact (proj1 (@predictive_reader_exact short_reads 9 file (PredictiveReader_new 1) 8
    (reader_new_wf file 1) ltac:(lia))).
Defined.
