(* ===== verification/Header.v ===== *)
(** * The file header

    [storage/src/nodestore/header.rs]: the [NodeStoreHeader], its C layout, its
    validation at open time, and [flush_to] of [storage/src/nodestore/persist.rs]. *)

From Stdlib Require Import String Ascii.
From S2P Require Import Prelude Primitives NodePath Node Codec NodeCodec Trie NodeStore Linear.

Open Scope Z_scope.

(** ** Strings *)

Definition ascii_bytes (s : string) : bytes := (fun c => Z.of_N (N_of_ascii c)) <$> list_ascii_of_string s.

(** A string padded with NUL bytes, or cut, to [n] bytes ([const_copy] into a
    zeroed array). *)
Definition padded (n : nat) (bs : bytes) : bytes := take n (bs ++ replicate n 0).

(** ** [Version] *)

Definition VALID_V1_VERSIONS : list bytes :=
  (fun s => padded 16 (ascii_bytes s)) <$>
  ["firewood-v1-hfix"; "firewood-v1"; "firewood 0.0.18"; "firewood 0.0.17"; "firewood 0.0.16";
   "firewood 0.0.15"; "firewood 0.0.14"; "firewood 0.0.13"; "firewood 0.0.12"; "firewood 0.0.11";
   "firewood 0.0.10"; "firewood 0.0.9"; "firewood 0.0.8"; "firewood 0.0.7"; "firewood 0.0.6";
   "firewood 0.0.5"; "firewood 0.0.4"]%string.

Definition Version_new : bytes := nth 0 VALID_V1_VERSIONS [].

Definition Version_validate (version : bytes) : result io_error unit :=
  if decide (version ∈ VALID_V1_VERSIONS) then Ok tt else Err InvalidData.

(** [as_u128] is injective on 16 bytes, so the comparisons are on the bytes. *)
Definition has_extended_header_fields (version : bytes) : bool :=
  bool_decide (version = nth 0 VALID_V1_VERSIONS []) || bool_decide (version = nth 1 VALID_V1_VERSIONS []).

Definition must_recompute_storage_hash (version : bytes) : bool :=
  negb (bool_decide (version = nth 0 VALID_V1_VERSIONS [])).

(** [CargoVersion::len] and [GitDescribe::len]: the text without its padding. *)
Fixpoint text_len (bs : bytes) : nat :=
  match bs with
  | [] => 0%nat
  | b :: bs => if b =? 0 then 0%nat else S (text_len bs)
  end.

Definition text_is_empty (bs : bytes) : bool := nth 0 bs 0 =? 0.

(** ** [FreeLists] *)

Abbreviation FreeLists := (list (option LinearAddress)).

Definition FreeLists_new : FreeLists := replicate (Z.to_nat NUM_AREA_SIZES) None.
Definition FreeLists_get (f : FreeLists) (i : AreaIndex) : option LinearAddress :=
  default None (f !! Z.to_nat i).
Definition FreeLists_set (f : FreeLists) (i : AreaIndex) (a : option LinearAddress) : FreeLists :=
  <[Z.to_nat i := a]> f.

(** ** [NodeStoreHeader] *)

Definition HEADER_SIZE : Z := 2048.

Record NodeStoreHeader : Type := mkHeader {
  h_version : bytes;
  h_endian_test : Z;
  h_size : Z;
  h_free_lists : FreeLists;
  h_root_address : option LinearAddress;
  h_area_size_hash : bytes;
  h_node_hash_algorithm : Z;
  h_root_hash : bytes;
  h_cargo_version : bytes;
  h_git_describe : bytes;
}.

Definition set_size (size : Z) (h : NodeStoreHeader) : NodeStoreHeader :=
  mkHeader (h_version h) (h_endian_test h) size (h_free_lists h) (h_root_address h) (h_area_size_hash h)
    (h_node_hash_algorithm h) (h_root_hash h) (h_cargo_version h) (h_git_describe h).

Definition set_free_lists (f : FreeLists) (h : NodeStoreHeader) : NodeStoreHeader :=
  mkHeader (h_version h) (h_endian_test h) (h_size h) f (h_root_address h) (h_area_size_hash h)
    (h_node_hash_algorithm h) (h_root_hash h) (h_cargo_version h) (h_git_describe h).

(** [set_root_location]: no root is an absent address and a zero hash. *)
Definition set_root_location (r : option (LinearAddress * TrieHash)) (h : NodeStoreHeader) : NodeStoreHeader :=
  mkHeader (h_version h) (h_endian_test h) (h_size h) (h_free_lists h) (fst <$> r) (h_area_size_hash h)
    (h_node_hash_algorithm h) (default (replicate 32 0) (snd <$> r)) (h_cargo_version h) (h_git_describe h).

(** [NodeHashAlgorithm as u64] and its inverse. *)
Definition algorithm_to_u64 (alg : NodeHashAlgorithm) : Z :=
  match alg with MerkleDB => 0 | Ethereum => 1 end.

Definition algorithm_try_from (value : Z) : option NodeHashAlgorithm :=
  if value =? 0 then Some MerkleDB else if value =? 1 then Some Ethereum else None.

#[export] Instance NodeHashAlgorithm_eq_dec : EqDecision NodeHashAlgorithm.
Proof. solve_decision. Defined.

Definition validate_open (self expected : NodeHashAlgorithm) : result io_error unit :=
  if decide (self = expected) then Ok tt else Err Unsupported.

(** [root_hash]: recorded only by versions that have the field. *)
Definition header_root_hash (h : NodeStoreHeader) : option TrieHash :=
  if has_extended_header_fields (h_version h) && bool_decide (is_Some (h_root_address h))
  then Some (h_root_hash h) else None.

Definition cargo_version (h : NodeStoreHeader) : option bytes :=
  if has_extended_header_fields (h_version h) then Some (h_cargo_version h) else None.

Definition git_describe (h : NodeStoreHeader) : option bytes :=
  if has_extended_header_fields (h_version h) then Some (h_git_describe h) else None.

(** ** The bytes of the header ([bytemuck::bytes_of] of a [repr(C)] struct) *)

(** [Option<NonZeroU64>] takes eight bytes, with zero for [None]. *)
Definition address_bytes (a : option LinearAddress) : bytes := to_le_bytes 8 (default 0 a).
Definition address_of_bytes (bs : bytes) : option LinearAddress := LinearAddress_new (from_le_bytes bs).

Definition free_lists_bytes (f : FreeLists) : bytes := f ≫= address_bytes.

Definition header_bytes (h : NodeStoreHeader) : bytes :=
  h_version h ++ to_le_bytes 8 (h_endian_test h) ++ to_le_bytes 8 (h_size h) ++
  free_lists_bytes (h_free_lists h) ++ address_bytes (h_root_address h) ++ h_area_size_hash h ++
  to_le_bytes 8 (h_node_hash_algorithm h) ++ h_root_hash h ++ h_cargo_version h ++ h_git_describe h.

(** [offset_of!(NodeStoreHeader, free_lists)]. *)
Definition free_lists_offset : Z := 16 + 8 + 8.

(** Reading the fields back out of the bytes. *)
Fixpoint read_addresses (n : nat) : reader FreeLists :=
  match n with
  | O => mret []
  | S n => bs ← read_exact 8; rest ← read_addresses n; mret (address_of_bytes bs :: rest)
  end.

Definition read_u64 : reader Z := bs ← read_exact 8; mret (from_le_bytes bs).

Definition read_header : reader NodeStoreHeader :=
  version ← read_exact 16;
  endian_test ← read_u64;
  size ← read_u64;
  free_lists ← read_addresses (Z.to_nat NUM_AREA_SIZES);
  root_address ← read_exact 8;
  area_size_hash ← read_exact 32;
  node_hash_algorithm ← read_u64;
  root_hash ← read_exact 32;
  cargo_version ← read_exact 32;
  git_describe ← read_exact 64;
  mret (mkHeader version endian_test size free_lists (address_of_bytes root_address) area_size_hash
          node_hash_algorithm root_hash cargo_version git_describe).

Section Header.
(** [AREA_SIZES_HASH] and the version texts are fixed when the crate is built. *)
Variables (AREA_SIZES_HASH CARGO_PKG_VERSION GIT_DESCRIBE : bytes).

(** [NodeStoreHeader::new]. *)
Definition NodeStoreHeader_new (alg : NodeHashAlgorithm) : NodeStoreHeader :=
  mkHeader Version_new 1 HEADER_SIZE FreeLists_new None AREA_SIZES_HASH (algorithm_to_u64 alg)
    (replicate 32 0) (padded 32 CARGO_PKG_VERSION) (padded 64 GIT_DESCRIBE).

Definition validate_endian_test (h : NodeStoreHeader) : result io_error unit :=
  if h_endian_test h =? 1 then Ok tt else Err InvalidData.

Definition validate_area_size_hash (h : NodeStoreHeader) : result io_error unit :=
  if decide (h_area_size_hash h = AREA_SIZES_HASH) then Ok tt else Err InvalidData.

Definition validate_node_hash_algorithm (h : NodeStoreHeader) (expected : NodeHashAlgorithm)
  : result io_error unit :=
  match algorithm_try_from (h_node_hash_algorithm h) with
  | None => Err InvalidData
  | Some alg => validate_open alg expected
  end.

Definition validate_size (h : NodeStoreHeader) (storage_size : Z) : result io_error unit :=
  if negb (h_size h mod MIN_AREA_SIZE =? 0) then Err InvalidData
  else if h_size h <? HEADER_SIZE then Err InvalidData
  else if MAX_AREA_SIZE <=? Z.max 0 (h_size h - storage_size) then Err InvalidData
  else Ok tt.

Definition validate (h : NodeStoreHeader) (expected : NodeHashAlgorithm) (storage_size : Z)
  : result io_error unit :=
  _ ← Version_validate (h_version h);
  _ ← validate_endian_test h;
  _ ← validate_area_size_hash h;
  _ ← validate_node_hash_algorithm h expected;
  validate_size h storage_size.

(** ** Storage *)

Context {St : Type} `{ReadableStorage St} `{WritableStorage St}.

Definition read_from_storage (s : St) (expected : NodeHashAlgorithm) : result failure NodeStoreHeader :=
  stream ← stream_from s 0;
  '(this, _) ← read_header stream;
  _ ← io (validate this expected (storage_size s));
  mret this.

(** [read_node_hash_algorithm_from_file]: no validation. *)
Definition read_node_hash_algorithm (s : St) : result failure NodeHashAlgorithm :=
  stream ← stream_from s 0;
  '(header, _) ← read_header stream;
  io (ok_or (algorithm_try_from (h_node_hash_algorithm header)) InvalidData).

(** [NodeStoreHeader::flush_to]. *)
Definition flush_to (h : NodeStoreHeader) (s : St) : result failure St :=
  '(_, s) ← write s 0 (header_bytes h);
  mret s.

End Header.

(** ** Well-formed headers *)

Definition address_wf (a : option LinearAddress) : Prop := from_option LinearAddress_wf True a.

Record header_wf (h : NodeStoreHeader) : Prop := mkHeaderWf {
  hw_version : length (h_version h) = 16%nat;
  hw_endian : u64 (h_endian_test h);
  hw_size : u64 (h_size h);
  hw_free_lists : length (h_free_lists h) = Z.to_nat NUM_AREA_SIZES;
  hw_heads : Forall address_wf (h_free_lists h);
  hw_root : address_wf (h_root_address h);
  hw_hash : length (h_area_size_hash h) = 32%nat;
  hw_alg : u64 (h_node_hash_algorithm h);
  hw_root_hash : length (h_root_hash h) = 32%nat;
  hw_cargo : length (h_cargo_version h) = 32%nat;
  hw_git : length (h_git_describe h) = 64%nat;
}.

(** ** Facts *)

Lemma length_address_bytes a : length (address_bytes a) = 8%nat.
Proof. apply length_to_le_bytes. Qed.

Lemma address_roundtrip a : address_wf a -> address_of_bytes (address_bytes a) = a.
Proof.
  unfold address_of_bytes, address_bytes, LinearAddress_new. destruct a as [a|]; intros Ha.
  - change (default 0 (Some a)) with a. unfold address_wf, from_option, LinearAddress_wf in Ha. rewrite from_to_le_u64 by ulia. by zcase; [lia|].
  - reflexivity.
Qed.

Lemma read_u64_app x rest : u64 x -> read_u64 (to_le_bytes 8 x ++ rest) = Ok (x, rest).
Proof.
  intros Hx. unfold read_u64. rstep read_exact_app by apply length_to_le_bytes.
  by rewrite from_to_le_u64.
Qed.

Lemma read_addresses_app f rest :
  Forall address_wf f -> read_addresses (length f) (free_lists_bytes f ++ rest) = Ok (f, rest).
Proof.
  induction 1 as [|a f Ha _ IH]; [done|]. cbn [length read_addresses].
  change (free_lists_bytes (a :: f)) with (address_bytes a ++ free_lists_bytes f). rewrite <- app_assoc.
  rstep read_exact_app by apply length_address_bytes. rstep IH. by rewrite address_roundtrip.
Qed.

Lemma length_free_lists_bytes f : length (free_lists_bytes f) = (8 * length f)%nat.
Proof.
  induction f as [|a f IH]; [done|].
  change (free_lists_bytes (a :: f)) with (address_bytes a ++ free_lists_bytes f).
  cbn [length]. rewrite length_app, IH, length_address_bytes. lia.
Qed.

(** The layout fits in the reserved space and the free lists are where
    [flush_freelist] writes them. *)
Lemma length_header_bytes h : header_wf h -> length (header_bytes h) = 392%nat.
Proof.
  intros []. unfold header_bytes. rewrite !length_app, !length_to_le_bytes, length_free_lists_bytes, length_address_bytes.
  rewrite hw_version0, hw_hash0, hw_root_hash0, hw_cargo0, hw_git0, hw_free_lists0. reflexivity.
Qed.

Lemma read_header_app h rest : header_wf h -> read_header (header_bytes h ++ rest) = Ok (h, rest).
Proof.
  intros []. unfold read_header, header_bytes. rewrite <- !app_assoc.
  rstep read_exact_app. rstep read_u64_app. rstep read_u64_app.
  rewrite <- hw_free_lists0. rstep read_addresses_app.
  rstep read_exact_app by apply length_address_bytes.
  rstep read_exact_app. rstep read_u64_app. rstep read_exact_app. rstep read_exact_app. rstep read_exact_app.
  rewrite address_roundtrip by done. by destruct h.
Qed.

Lemma padded_length n bs : length (padded n bs) = n.
Proof. unfold padded. rewrite length_take, length_app, length_replicate. lia. Qed.

Section HeaderProperties.
Variables (AREA_SIZES_HASH CARGO_PKG_VERSION GIT_DESCRIBE : bytes).

Lemma NodeStoreHeader_new_wf alg :
  length AREA_SIZES_HASH = 32%nat ->
  header_wf (NodeStoreHeader_new AREA_SIZES_HASH CARGO_PKG_VERSION GIT_DESCRIBE alg).
Proof.
  intros Hlen. constructor.
  - vm_compute. reflexivity.
  - cbn. ulia.
  - unfold NodeStoreHeader_new, h_size, HEADER_SIZE. ulia.
  - apply length_replicate.
  - apply Forall_replicate. exact I.
  - exact I.
  - exact Hlen.
  - unfold NodeStoreHeader_new, h_node_hash_algorithm. destruct alg; unfold algorithm_to_u64; ulia.
  - apply length_replicate.
  - apply padded_length.
  - apply padded_length.
Qed.

Lemma result_seq_Ok {E} (m n : result E unit) : (_ ← m; n) = Ok tt <-> m = Ok tt /\ n = Ok tt.
Proof. destruct m as [[]|e]; split; [by intros H | by intros [_ H] | done | by intros [H _]]. Qed.

Lemma validate_node_hash_algorithm_spec h expected :
  validate_node_hash_algorithm h expected = Ok tt <-> h_node_hash_algorithm h = algorithm_to_u64 expected.
Proof.
  unfold validate_node_hash_algorithm, algorithm_try_from, validate_open, algorithm_to_u64.
  destruct (Z.eqb_spec (h_node_hash_algorithm h) 0) as [->|]; [by destruct expected|].
  destruct (Z.eqb_spec (h_node_hash_algorithm h) 1) as [->|]; [by destruct expected|].
  by destruct expected.
Qed.

Lemma validate_size_spec h storage_size :
  validate_size h storage_size = Ok tt <->
  h_size h mod MIN_AREA_SIZE = 0 /\ HEADER_SIZE <= h_size h /\ h_size h < storage_size + MAX_AREA_SIZE.
Proof.
  assert (0 < MAX_AREA_SIZE) as Hmax by (vm_compute; reflexivity). unfold validate_size.
  destruct (Z.eqb_spec (h_size h mod MIN_AREA_SIZE) 0) as [H0|H0]; [|split; [done | intros [? _]; done]].
  cbn [negb]. destruct (Z.ltb_spec (h_size h) HEADER_SIZE) as [H1|H1]; [split; [done | lia]|].
  destruct (Z.leb_spec MAX_AREA_SIZE (Z.max 0 (h_size h - storage_size))) as [H2|H2]; split; try done; lia.
Qed.

(** A database is opened exactly when its version is known, it was written
    with the same byte order, area sizes and hash algorithm, and the recorded
    size is aligned, covers the header and exceeds the storage by less than one
    maximal area. *)
Theorem header_validate_iff h expected storage_size :
  validate AREA_SIZES_HASH h expected storage_size = Ok tt <->
  h_version h ∈ VALID_V1_VERSIONS /\ h_endian_test h = 1 /\ h_area_size_hash h = AREA_SIZES_HASH /\
  h_node_hash_algorithm h = algorithm_to_u64 expected /\ h_size h mod MIN_AREA_SIZE = 0 /\
  HEADER_SIZE <= h_size h /\ h_size h < storage_size + MAX_AREA_SIZE.
Proof.
  unfold validate. rewrite !result_seq_Ok, validate_size_spec, validate_node_hash_algorithm_spec.
  unfold Version_validate, validate_endian_test, validate_area_size_hash.
  destruct (decide (h_version h ∈ VALID_V1_VERSIONS)), (Z.eqb_spec (h_endian_test h) 1),
    (decide (h_area_size_hash h = AREA_SIZES_HASH)); intuition congruence.
Qed.

(** A header that was flushed is read back unchanged, and opening succeeds
    exactly when validation of that header does, with its error otherwise. *)
Theorem header_flush_read_roundtrip {St : Type} `{WritableStorageLaws St} h (s s' : St) expected :
  header_wf h -> flush_to h s = Ok s' ->
  read_from_storage AREA_SIZES_HASH s' expected =
  match validate AREA_SIZES_HASH h expected (storage_size s') with
  | Ok _ => Ok h
  | Err e => Err (IoFailure e)
  end.
Proof.
  intros Hwf Hfl. unfold flush_to in Hfl. bind_inv Hfl.
  destruct (write_law _ _ _ _ _ E) as (_ & Hb & _).
  unfold read_from_storage. rewrite stream_from_law, Hb, drop_overwrite.
  cbn [mbind result_bind]. rewrite read_header_app by done. cbn [mbind result_bind].
  by destruct (validate AREA_SIZES_HASH h expected (storage_size s')) as [[]|].
Qed.

End HeaderProperties.

Lemma header_flush_read_roundtrip_witness :
  let H := NodeStoreHeader_new (replicate 32 7) (ascii_bytes "0.7.0") [] Ethereum in
  exists s', flush_to H (mkMemStore []) = Ok s' /\ read_from_storage (replicate 32 7) s' Ethereum = Ok H.
Proof.
  intros H. eexists. split; [vm_compute; reflexivity|].
  erewrite (header_flush_read_roundtrip (replicate 32 7) H (mkMemStore [])).
  - vm_compute. reflexivity.
  - by apply NodeStoreHeader_new_wf.
  - vm_compute. reflexivity.
Defined.
