(* ===== verification/Alloc.v ===== *)
(** * Space management

    [storage/src/nodestore/alloc.rs]: free areas and their encoding, the free
    lists, allocation and deletion of nodes, and iteration over the free lists;
    [area_index_and_size] of [storage/src/nodestore/mod.rs]. *)

From S2P Require Import Prelude Primitives NodePath Node Codec NodeCodec Trie NodeStore Linear Header.

(** ** [FreeArea] *)

Record FreeArea : Type := mkFreeArea { next_free_block : option LinearAddress }.

Inductive AreaKind : Type := AreaFree | AreaNode.

Record StoredAreaInfo : Type := mkStoredAreaInfo {
  sai_kind : AreaKind;
  sai_index : AreaIndex;
  sai_size : Z;
}.

(** [FreeListParent] of the checker: what points to a free area. *)
Inductive FreeListParent : Type :=
| FreeListHead (area_size_idx : AreaIndex)
| PrevFreeArea (area_size_idx : AreaIndex) (parent_addr : LinearAddress).

Section Alloc.
Context `{VarInt} {St : Type} `{ReadableStorage St} `{WritableStorage St}.

Definition FreeArea_write_to (self : FreeArea) : bytes :=
  255 :: encode_var (default 0 (next_free_block self)).

(** [from_reader]: the current format, or the one an earlier version wrote. *)
Definition FreeArea_from_reader : reader FreeArea :=
  first_byte ← read_byte;
  if first_byte =? 1 then
    option_discriminant ← read_byte;
    if option_discriminant =? 0 then mret (mkFreeArea None)
    else if option_discriminant =? 1 then
      value ← read_bincode_varint_u64_le;
      addr ← reader_lift (ok_or (LinearAddress_new value) InvalidData);
      mret (mkFreeArea (Some addr))
    else reader_fail InvalidData
  else if first_byte =? 255 then
    value ← read_varint;
    mret (mkFreeArea (LinearAddress_new value))
  else reader_fail InvalidData.

Definition FreeArea_as_bytes (self : FreeArea) (area_index : AreaIndex) : bytes :=
  area_index :: FreeArea_write_to self.

Definition from_storage_reader : reader (FreeArea * AreaIndex) :=
  byte ← read_byte;
  area_index ← reader_lift (AreaIndex_try_from byte);
  free_area ← FreeArea_from_reader;
  mret (free_area, area_index).

Definition FreeArea_from_storage (s : St) (address : LinearAddress) : result failure (FreeArea * AreaIndex) :=
  stored_area_stream ← stream_from s address;
  fst <$> from_storage_reader stored_area_stream.

(** ** Inspecting a stored area *)

Definition read_stored_area_info_from_reader : reader StoredAreaInfo :=
  byte ← read_byte;
  index ← reader_lift (AreaIndex_try_from byte);
  marker ← read_byte;
  kind ← (if marker =? 255 then _ ← read_varint; mret AreaFree else mret AreaNode);
  mret (mkStoredAreaInfo kind index (AreaIndex_size index)).

Definition read_stored_area_info (s : St) (address : LinearAddress) : result failure StoredAreaInfo :=
  stream ← stream_from s address;
  fst <$> read_stored_area_info_from_reader stream.

(** [area_index_and_size]: any failure to read the byte is invalid data. *)
Definition area_index_and_size (s : St) (addr : LinearAddress) : result failure (AreaIndex * Z) :=
  area_stream ← stream_from s addr;
  match read_byte area_stream with
  | Err _ => Err (IoFailure InvalidData)
  | Ok (byte, _) =>
      match AreaIndex_new byte with
      | None => Err (IoFailure InvalidData)
      | Some index => Ok (index, AreaIndex_size index)
      end
  end.

(** ** [NodeAllocator] *)

(** The borrowed storage and header; the state after an error is kept. *)
Record NodeAllocator : Type := mkAllocator {
  al_storage : St;
  al_header : NodeStoreHeader;
}.

Definition with_free_list (index : AreaIndex) (a : option LinearAddress) (h : NodeStoreHeader)
  : NodeStoreHeader :=
  set_free_lists (FreeLists_set (h_free_lists h) index a) h.

(** [allocate_from_freed]: the head of the list for [index], whose successor
    comes from the cache or from the storage. *)
Definition allocate_from_freed (al : NodeAllocator) (index : AreaIndex)
  : result failure (option LinearAddress) * NodeAllocator :=
  match FreeLists_get (h_free_lists (al_header al)) index with
  | None => (Ok None, al)
  | Some address =>
      let (cached, s) := free_list_cache (al_storage al) address in
      match cached with
      | Some free_head => (Ok (Some address), mkAllocator s (with_free_list index free_head (al_header al)))
      | None =>
          match FreeArea_from_storage s address with
          | Err e => (Err e, mkAllocator s (al_header al))
          | Ok (free_head, _) =>
              (Ok (Some address),
               mkAllocator s (with_free_list index (next_free_block free_head) (al_header al)))
          end
      end
  end.

(** [allocate_from_end]. *)
Definition allocate_from_end (al : NodeAllocator) (index : AreaIndex)
  : result failure LinearAddress * NodeAllocator :=
  let area_size := AreaIndex_size index in
  match LinearAddress_new (h_size (al_header al)) with
  | None => (Err Panic, al)
  | Some addr =>
      (Ok addr, mkAllocator (al_storage al)
                  (set_size (saturating_add_u64 (h_size (al_header al)) area_size) (al_header al)))
  end.

(** [allocate_node]. *)
Definition allocate_node (al : NodeAllocator) (node : bytes)
  : result failure (LinearAddress * AreaIndex) * NodeAllocator :=
  let stored_area_size := Z.of_nat (length node) in
  match from_size stored_area_size with
  | Err e => (Err (IoFailure e), al)
  | Ok area_index =>
      match allocate_from_freed al area_index with
      | (Err e, al) => (Err e, al)
      | (Ok (Some addr), al) => (Ok (addr, area_index), al)
      | (Ok None, al) =>
          match allocate_from_end al area_index with
          | (Err e, al) => (Err e, al)
          | (Ok addr, al) => (Ok (addr, area_index), al)
          end
      end
  end.

(** [delete_node]: the area becomes the head of its free list. *)
Definition delete_node (al : NodeAllocator) (node : MaybePersisted) : result failure unit * NodeAllocator :=
  match as_linear_address node with
  | None => (Ok tt, al)
  | Some addr =>
      match area_index_and_size (al_storage al) addr with
      | Err e => (Err e, al)
      | Ok (area_size_index, _) =>
          let head := FreeLists_get (h_free_lists (al_header al)) area_size_index in
          let stored_area_bytes := FreeArea_as_bytes (mkFreeArea head) area_size_index in
          match write (al_storage al) addr stored_area_bytes with
          | Err e => (Err e, al)
          | Ok (_, s) =>
              (Ok tt, mkAllocator (add_to_free_list_cache s addr head)
                        (with_free_list area_size_index (Some addr) (al_header al)))
          end
      end
  end.

(** [flush_freelist]. *)
Definition flush_freelist (al : NodeAllocator) : result failure unit * NodeAllocator :=
  match write (al_storage al) free_lists_offset (free_lists_bytes (h_free_lists (al_header al))) with
  | Err e => (Err e, al)
  | Ok (_, s) => (Ok tt, mkAllocator s (al_header al))
  end.

(** ** Iterating over the free lists *)

Record FreeListIterator : Type := mkFreeListIterator {
  fi_id : AreaIndex;
  fi_next_addr : option LinearAddress;
  fi_parent : FreeListParent;
}.

(** [FreeListIterator::next]: after a failed read the list is abandoned. *)
Definition FreeListIterator_next (s : St) (it : FreeListIterator)
  : option (result failure (LinearAddress * AreaIndex)) * FreeListIterator :=
  match fi_next_addr it with
  | None => (None, it)
  | Some next_addr =>
      match FreeArea_from_storage s next_addr with
      | Err e => (Some (Err e), mkFreeListIterator (fi_id it) None (fi_parent it))
      | Ok (free_area, stored_area_index) =>
          (Some (Ok (next_addr, stored_area_index)),
           mkFreeListIterator (fi_id it) (next_free_block free_area) (PrevFreeArea stored_area_index next_addr))
      end
  end.

Record FreeAreaWithMetadata : Type := mkFreeAreaWithMetadata {
  fm_addr : LinearAddress;
  fm_area_index : AreaIndex;
  fm_free_list_id : AreaIndex;
}.

(** [FreeListIterator::next_with_metadata]. *)
Definition FreeListIterator_next_with_metadata (s : St) (it : FreeListIterator)
  : option (result failure FreeAreaWithMetadata * FreeListParent) * FreeListIterator :=
  let parent := fi_parent it in
  match FreeListIterator_next s it with
  | (None, it) => (None, it)
  | (Some next_addr, it) =>
      (Some ((fun '(addr, area_index) => mkFreeAreaWithMetadata addr area_index (fi_id it)) <$> next_addr, parent), it)
  end.

Record FreeListsIterator : Type := mkFreeListsIterator {
  fl_next_free_list_id : option AreaIndex;
  fl_current_free_list : option FreeListIterator;
}.

Definition free_list_iterator (free_lists : FreeLists) (free_list_id : AreaIndex) : FreeListIterator :=
  mkFreeListIterator free_list_id (FreeLists_get free_lists free_list_id) (FreeListHead free_list_id).

(** [next_area_index]: [checked_add] on [u8], then the range check. *)
Definition next_area_index (index : AreaIndex) : option AreaIndex :=
  if index + 1 <=? U8_MAX then AreaIndex_new (index + 1) else None.

Definition FreeListsIterator_new (free_lists : FreeLists) (start_area_index : AreaIndex) : FreeListsIterator :=
  mkFreeListsIterator (next_area_index start_area_index) (Some (free_list_iterator free_lists start_area_index)).

Definition move_to_next_free_list (free_lists : FreeLists) (it : FreeListsIterator) : FreeListsIterator :=
  match fl_next_free_list_id it with
  | None => mkFreeListsIterator None None
  | Some next_free_list_id =>
      mkFreeListsIterator (next_area_index next_free_list_id)
        (Some (free_list_iterator free_lists next_free_list_id))
  end.

(** [next_inner]: the loop moves to a later list each time around, so a bound of
    one more than the number of lists is enough. *)
Fixpoint next_inner (fuel : nat) (free_lists : FreeLists) (s : St) (it : FreeListsIterator)
  : option (result failure (LinearAddress * AreaIndex)) * FreeListsIterator :=
  match fuel with
  | O => (Some (Err Diverges), it)
  | S fuel =>
      match fl_current_free_list it with
      | None => (None, it)
      | Some free_list_iter =>
          match FreeListIterator_next s free_list_iter with
          | (Some next, free_list_iter) =>
              (Some next, mkFreeListsIterator (fl_next_free_list_id it) (Some free_list_iter))
          | (None, free_list_iter) =>
              next_inner fuel free_lists s
                (move_to_next_free_list free_lists
                   (mkFreeListsIterator (fl_next_free_list_id it) (Some free_list_iter)))
          end
      end
  end.

(** [truncate_free_list]. *)
Definition truncate_free_list (s : St) (free_lists : FreeLists) (free_list_parent : FreeListParent)
  : result failure (St * FreeLists) :=
  match free_list_parent with
  | FreeListHead area_size_index => Ok (s, FreeLists_set free_lists area_size_index None)
  | PrevFreeArea area_size_idx parent_addr =>
      '(_, s) ← write s parent_addr (FreeArea_as_bytes (mkFreeArea None) area_size_idx);
      Ok (s, free_lists)
  end.

End Alloc.
Arguments NodeAllocator : clear implicits.
Arguments mkAllocator {St}.
Arguments al_storage {St}.
Arguments al_header {St}.
