(* ===== verification/AllocCorrect.v ===== *)
(** * The allocator is sound

    The invariant of the space manager ([storage/src/nodestore/alloc.rs]): the
    live and the free areas tile a part of the file without overlap, the free
    lists chain exactly the free areas, and the free-list cache agrees with the
    file.  Allocation and deletion preserve it. *)

From S2P Require Import Prelude Primitives NodePath Node Codec NodeCodec Trie NodeStore Linear Header Alloc.

(** ** Areas *)

Abbreviation area := (LinearAddress * AreaIndex)%type.

Definition area_end (x : area) : Z := x.1 + AreaIndex_size x.2.

Definition area_ok (size : Z) (x : area) : Prop :=
  AreaIndex_wf x.2 /\ x.1 mod MIN_AREA_SIZE = 0 /\ HEADER_SIZE <= x.1 /\ area_end x <= size.

Definition apart (x y : area) : Prop := area_end x <= y.1 \/ area_end y <= x.1.

Record tiling (size : Z) (l : list area) : Prop := mkTiling {
  tiling_ok : Forall (area_ok size) l;
  tiling_nodup : NoDup l;
  tiling_apart x y : x ∈ l -> y ∈ l -> x <> y -> apart x y;
}.

#[export] Instance tiling_proper size : Proper ((≡ₚ) ==> iff) (tiling size).
Proof.
  assert (Hone : forall l l', l ≡ₚ l' -> tiling size l -> tiling size l').
  { intros l l' Hp [Hok Hnd Hap]. split; [by rewrite <- Hp | by rewrite <- Hp |].
    intros x y. rewrite <- !Hp. apply Hap. }
  intros l l' Hp. split; by apply Hone.
Qed.

Lemma area_nonempty x : AreaIndex_wf x.2 -> x.1 + 16 <= area_end x.
Proof.
  intros Hx%AreaIndex_size_range. unfold area_end. change MIN_AREA_SIZE with 16 in Hx. lia.
Qed.

(** Two areas of a tiling with the same address are the same. *)
Lemma tiling_same size l x y : tiling size l -> x ∈ l -> y ∈ l -> x.1 = y.1 -> x = y.
Proof.
  intros [Hok _ Hap] Hx Hy He. destruct (decide (x = y)) as [|Hne]; [done|].
  rewrite Forall_forall in Hok. destruct (Hok _ Hx) as [Hwx _], (Hok _ Hy) as [Hwy _].
  pose proof (area_nonempty _ Hwx). pose proof (area_nonempty _ Hwy).
  destruct (Hap x y Hx Hy Hne); lia.
Qed.

(** An area past the end. *)
Lemma tiling_extend size l i :
  tiling size l -> AreaIndex_wf i -> size mod MIN_AREA_SIZE = 0 -> HEADER_SIZE <= size ->
  tiling (size + AreaIndex_size i) ((size, i) :: l).
Proof.
  intros [Hok Hnd Hap] Hi Hm Hs. rewrite Forall_forall in Hok.
  pose proof (AreaIndex_size_range i Hi) as Hr. change MIN_AREA_SIZE with 16 in Hr.
  assert (Hout : forall x, x ∈ l -> area_end x <= size).
  { intros x Hx. by destruct (Hok x Hx) as (_ & _ & _ & ?). }
  assert (Hlt : forall x, x ∈ l -> x.1 < size).
  { intros x Hx. destruct (Hok x Hx) as (Hw & _ & _ & ?). pose proof (area_nonempty x Hw). lia. }
  split.
  - apply Forall_cons. split; [unfold area_ok, area_end; simpl; split_and!; done || lia|].
    apply Forall_forall. intros x Hx. destruct (Hok x Hx) as (? & ? & ? & ?). unfold area_ok. split_and!; try done. lia.
  - apply NoDup_cons. split; [|done]. intros Hx%Hlt. simpl in Hx. lia.
  - intros x y [->|Hx]%elem_of_cons [->|Hy]%elem_of_cons Hne; [done | | | by apply Hap].
    + right. simpl. by apply Hout.
    + left. simpl. by apply Hout.
Qed.

(** ** Free lists *)

(** [data] holds at [a] a free area of class [i] that points to [next].  The area
    is recognised whatever follows its own bytes. *)
Definition is_free_area `{VarInt} (data : bytes) (a : LinearAddress) (i : AreaIndex)
  (next : option LinearAddress) : Prop :=
  exists bs rest, drop (Z.to_nat a) data = bs ++ rest /\ Z.of_nat (length bs) <= AreaIndex_size i /\
    (0 < length bs)%nat /\
    forall rest', from_storage_reader (bs ++ rest') = Ok ((mkFreeArea next, i), rest').

Fixpoint chain `{VarInt} (data : bytes) (i : AreaIndex) (head : option LinearAddress)
  (l : list LinearAddress) : Prop :=
  match l with
  | [] => head = None
  | a :: l => head = Some a /\ exists next, is_free_area data a i next /\ chain data i next l
  end.

Abbreviation free_map := (AreaIndex -> list LinearAddress).

Definition upd (f : free_map) (i : AreaIndex) (l : list LinearAddress) : free_map :=
  fun j => if decide (j = i) then l else f j.

Definition class_areas (f : free_map) (i : AreaIndex) : list area := (fun a => (a, i)) <$> f i.

Definition free_areas (f : free_map) : list area := seqZ 0 NUM_AREA_SIZES ≫= class_areas f.

Lemma elem_of_free_areas f a i : (a, i) ∈ free_areas f <-> AreaIndex_wf i /\ a ∈ f i.
Proof.
  unfold free_areas, class_areas, AreaIndex_wf. rewrite list_elem_of_bind. split.
  - intros (j & Hin & Hj). apply list_elem_of_fmap in Hin as (b & [= -> ->] & Hb).
    apply elem_of_seqZ in Hj. done.
  - intros [Hi Ha]. exists i. split; [apply list_elem_of_fmap; by exists a|]. apply elem_of_seqZ. lia.
Qed.

Lemma class_areas_other f i l j : j <> i -> class_areas (upd f i l) j = class_areas f j.
Proof. intros Hj. unfold class_areas, upd. by rewrite decide_False. Qed.

(** Adding an area to a list. *)
Lemma free_areas_push f i a l :
  AreaIndex_wf i -> free_areas (upd f i (a :: l)) ≡ₚ (a, i) :: free_areas (upd f i l).
Proof.
  intros Hi. unfold free_areas. assert (Hin : i ∈ seqZ 0 NUM_AREA_SIZES) by (apply elem_of_seqZ; unfold AreaIndex_wf in Hi; lia).
  pose proof (NoDup_seqZ 0 NUM_AREA_SIZES) as Hnd. revert Hin Hnd. generalize (seqZ 0 NUM_AREA_SIZES).
  induction l0 as [|j js IH]; intros Hin Hnd; [by apply elem_of_nil in Hin|].
  apply NoDup_cons in Hnd as [Hj Hnd]. rewrite !bind_cons.
  destruct (decide (j = i)) as [->|Hne].
  - assert (Hrest : js ≫= class_areas (upd f i (a :: l)) = js ≫= class_areas (upd f i l)).
    { clear -Hj. induction js as [|k js IH]; [done|]. rewrite !bind_cons.
      rewrite !(class_areas_other f i _ k) by set_solver. rewrite IH by set_solver. done. }
    rewrite Hrest. unfold class_areas at 1 3, upd at 1 3. rewrite !decide_True by done. done.
  - rewrite !class_areas_other by done.
    rewrite IH; [|by apply elem_of_cons in Hin as [?|?]|done]. by rewrite Permutation_middle.
Qed.

Lemma upd_same f i j : upd f i (f i) j = f j.
Proof. unfold upd. case_decide; congruence. Qed.

Lemma free_areas_same f i : free_areas (upd f i (f i)) = free_areas f.
Proof.
  unfold free_areas. apply list_bind_ext; [|done]. intros j. unfold class_areas. by rewrite upd_same.
Qed.

(** ** Encoded free areas *)

Section FreeAreas.
Context `{VarIntLaws}.

Lemma AreaIndex_try_from_wf i : AreaIndex_wf i -> AreaIndex_try_from i = Ok i.
Proof.
  unfold AreaIndex_wf, AreaIndex_try_from, AreaIndex_new. intros Hi.
  by rewrite (proj2 (Z.ltb_lt _ _)) by lia.
Qed.

Lemma reader_lift_Ok {A B} (a : A) (f : A -> reader B) bs : (reader_lift (Ok a) ≫= f) bs = f a bs.
Proof. done. Qed.

Lemma address_u64 a : address_wf a -> u64 (default 0 a).
Proof. destruct a; unfold address_wf, from_option, LinearAddress_wf, default; simpl; ulia. Qed.

Lemma LinearAddress_new_default a : address_wf a -> LinearAddress_new (default 0 a) = a.
Proof.
  destruct a as [a|]; [|done]. unfold address_wf, from_option, LinearAddress_wf, LinearAddress_new, default.
  simpl. intros Ha. by destruct (Z.eqb_spec a 0); [lia|].
Qed.

Lemma read_free_area next i rest :
  AreaIndex_wf i -> address_wf next ->
  from_storage_reader (FreeArea_as_bytes (mkFreeArea next) i ++ rest) = Ok ((mkFreeArea next, i), rest).
Proof.
  intros Hi Hn. unfold from_storage_reader, FreeArea_as_bytes. cbn [app]. rstep read_byte_cons.
  rewrite AreaIndex_try_from_wf, reader_lift_Ok by done. unfold FreeArea_from_reader, FreeArea_write_to.
  cbn [app next_free_block].
  erewrite reader_bind_Ok; [|rstep read_byte_cons; cbn [Z.eqb Pos.eqb]; rstep read_varint_encode by (by apply address_u64); reflexivity].
  by rewrite LinearAddress_new_default.
Qed.

Lemma length_free_area_bytes next i :
  address_wf next -> (0 < length (FreeArea_as_bytes (mkFreeArea next) i) <= 12)%nat.
Proof.
  intros Hn. unfold FreeArea_as_bytes, FreeArea_write_to. cbn [length next_free_block].
  pose proof (encode_var_len _ (address_u64 _ Hn)). lia.
Qed.

(** The bytes of a freed area form a free area, and overwriting one area leaves
    the others alone. *)
Lemma is_free_area_written data a i next :
  AreaIndex_wf i -> address_wf next ->
  is_free_area (overwrite data (Z.to_nat a) (FreeArea_as_bytes (mkFreeArea next) i)) a i next.
Proof.
  intros Hi Hn. pose proof (length_free_area_bytes next i Hn). pose proof (AreaIndex_size_range i Hi) as Hr.
  change MIN_AREA_SIZE with 16 in Hr.
  eexists _, _. split; [apply drop_overwrite|]. split; [lia|]. split; [lia|].
  intros rest'. by apply read_free_area.
Qed.

(** What starts at [b] is not touched by a write elsewhere. *)
Lemma prefix_overwrite data o obj b bs rest :
  drop b data = bs ++ rest -> (b + length bs <= o \/ o + length obj <= b)%nat ->
  exists rest', drop b (overwrite data o obj) = bs ++ rest'.
Proof.
  intros Hd Hap. exists (drop (b + length bs) (overwrite data o obj)).
  rewrite <- (take_drop (length bs) (drop b (overwrite _ _ _))).
  rewrite drop_drop. f_equal. apply list_eq. intros k.
  destruct (decide (k < length bs)%nat) as [Hk|Hk].
  - rewrite lookup_take_lt, lookup_drop by done.
    assert (Hdk : data !! (b + k)%nat = bs !! k).
    { rewrite <- lookup_drop, Hd. by apply lookup_app_l. }
    assert (b + k < length data)%nat.
    { apply lookup_lt_is_Some. rewrite Hdk. by apply lookup_lt_is_Some. }
    rewrite overwrite_other; [done | lia | lia].
  - rewrite lookup_take_ge by lia. symmetry. apply lookup_ge_None. lia.
Qed.

(** A write that stays out of an area. *)
Definition outside (offset : Z) (object : bytes) (x : area) : Prop :=
  area_end x <= offset \/ offset + Z.of_nat (length object) <= x.1.

Lemma is_free_area_outside data o obj b j next :
  0 <= o -> 0 <= b -> outside o obj (b, j) ->
  is_free_area data b j next -> is_free_area (overwrite data (Z.to_nat o) obj) b j next.
Proof.
  intros Ho Hb Hap (bs & rest & Hd & Hlen & Hpos & Hdec). unfold outside, area_end in Hap. cbn [fst snd] in Hap.
  destruct (prefix_overwrite data (Z.to_nat o) obj (Z.to_nat b) bs rest Hd) as [rest' Hd']; [lia|].
  exists bs, rest'. done.
Qed.

Lemma is_free_area_overwrite data a i obj b j next :
  0 <= a -> 0 <= b -> Z.of_nat (length obj) <= AreaIndex_size i -> apart (b, j) (a, i) ->
  is_free_area data b j next -> is_free_area (overwrite data (Z.to_nat a) obj) b j next.
Proof.
  intros Ha Hb Hobj Hap. apply is_free_area_outside; [done..|]. unfold apart, outside, area_end in *. cbn [fst snd] in *. lia.
Qed.

Lemma is_free_area_det data a i next j next' :
  is_free_area data a i next -> is_free_area data a j next' -> i = j /\ next = next'.
Proof.
  intros (bs & rest & Hd & _ & _ & Hdec) (bs' & rest' & Hd' & _ & _ & Hdec').
  specialize (Hdec rest). specialize (Hdec' rest'). rewrite <- Hd in Hdec. rewrite <- Hd' in Hdec'.
  rewrite Hdec in Hdec'. by simplify_eq.
Qed.

Lemma chain_overwrite data a i obj j head l :
  0 <= a -> Z.of_nat (length obj) <= AreaIndex_size i ->
  (forall b, b ∈ l -> 0 <= b /\ apart (b, j) (a, i)) ->
  chain data j head l -> chain (overwrite data (Z.to_nat a) obj) j head l.
Proof.
  intros Ha Hobj. revert head. induction l as [|b l IH]; intros head Hap Hc; [done|].
  destruct Hc as (-> & next & Hf & Hc). split; [done|]. exists next.
  destruct (Hap b) as [Hb Hab]; [by constructor|].
  split; [by eapply is_free_area_overwrite|]. apply IH; [|done]. intros c Hcl. apply Hap. by constructor.
Qed.

Lemma chain_outside data o obj j head l :
  0 <= o -> (forall b, b ∈ l -> 0 <= b /\ outside o obj (b, j)) ->
  chain data j head l -> chain (overwrite data (Z.to_nat o) obj) j head l.
Proof.
  intros Ho. revert head. induction l as [|b l IH]; intros head Hap Hc; [done|].
  destruct Hc as (-> & next & Hf & Hc). split; [done|]. exists next.
  destruct (Hap b) as [Hb Hab]; [by constructor|].
  split; [by apply is_free_area_outside|]. apply IH; [|done]. intros c Hcl. apply Hap. by constructor.
Qed.

(** A free area is recognised as such, and gives back its successor and its
    size class, whatever bytes follow it. *)
Theorem free_area_roundtrip next i rest :
  AreaIndex_wf i -> address_wf next ->
  let stored := FreeArea_as_bytes (mkFreeArea next) i ++ rest in
  from_storage_reader stored = Ok ((mkFreeArea next, i), rest) /\
  read_stored_area_info_from_reader stored = Ok (mkStoredAreaInfo AreaFree i (AreaIndex_size i), rest) /\
  (length (FreeArea_as_bytes (mkFreeArea next) i) <= Z.to_nat MIN_AREA_SIZE)%nat.
Proof.
  intros Hi Hn. cbv zeta. split_and!.
  - by apply read_free_area.
  - unfold read_stored_area_info_from_reader, FreeArea_as_bytes, FreeArea_write_to. cbn [app next_free_block].
    rstep read_byte_cons. rewrite AreaIndex_try_from_wf, reader_lift_Ok by done. rstep read_byte_cons.
    cbn [Z.eqb Pos.eqb].
    erewrite reader_bind_Ok; [|rstep read_varint_encode by (by apply address_u64); reflexivity]. done.
  - pose proof (length_free_area_bytes next i Hn). change (Z.to_nat MIN_AREA_SIZE) with 16%nat. lia.
Qed.

(** A stored node is never mistaken for a free area: the byte after the size
    class of an encoded node is not the free-area marker. *)
Theorem stored_node_not_free alg n i out rest :
  as_bytes alg n [] = Ok (i, out) ->
  exists rest', read_stored_area_info_from_reader (out ++ rest) =
    Ok (mkStoredAreaInfo AreaNode i (AreaIndex_size i), rest').
Proof.
  intros (body & Hb & -> & Hi)%as_bytes_Ok. destruct (from_size_Ok _ _ Hi) as (Hwf & _).
  destruct (encode_body_first alg n body Hb) as (b & body' & -> & Hb255).
  exists (body' ++ rest). unfold read_stored_area_info_from_reader. cbn [app]. rstep read_byte_cons.
  rewrite AreaIndex_try_from_wf, reader_lift_Ok by done. rstep read_byte_cons.
  by destruct (Z.eqb_spec b 255).
Qed.

End FreeAreas.

(** ** The invariant *)

Section Invariant.
Context `{VarIntLaws} {St : Type} `{WritableStorageLaws St}.

Record alloc_inv (al : NodeAllocator St) (free : free_map) (live : list area) : Prop := mkAllocInv {
  inv_lists : length (h_free_lists (al_header al)) = Z.to_nat NUM_AREA_SIZES;
  inv_size : h_size (al_header al) mod MIN_AREA_SIZE = 0 /\ HEADER_SIZE <= h_size (al_header al) <= U64_MAX;
  inv_tiling : tiling (h_size (al_header al)) (free_areas free ++ live);
  inv_chain i : AreaIndex_wf i ->
    chain (store_bytes (al_storage al)) i (FreeLists_get (h_free_lists (al_header al)) i) (free i);
  inv_cache a next : free_next (al_storage al) a = Some next ->
    exists i, AreaIndex_wf i /\ a ∈ free i /\ is_free_area (store_bytes (al_storage al)) a i next;
}.

Lemma FreeLists_get_set (f : FreeLists) i a j :
  length f = Z.to_nat NUM_AREA_SIZES -> AreaIndex_wf i -> AreaIndex_wf j ->
  FreeLists_get (FreeLists_set f i a) j = if decide (j = i) then a else FreeLists_get f j.
Proof.
  unfold FreeLists_get, FreeLists_set, AreaIndex_wf. intros Hl Hi Hj. case_decide as Hd.
  - subst j. by rewrite list_lookup_insert_eq by lia.
  - by rewrite list_lookup_insert_ne by lia.
Qed.

Lemma inv_area al free live a i :
  alloc_inv al free live -> AreaIndex_wf i -> a ∈ free i -> area_ok (h_size (al_header al)) (a, i).
Proof.
  intros [_ _ [Hok _ _] _ _] Hi Ha. rewrite Forall_forall in Hok. apply Hok, elem_of_app. left.
  by apply elem_of_free_areas.
Qed.

Lemma inv_head_wf al free live i :
  alloc_inv al free live -> AreaIndex_wf i -> address_wf (FreeLists_get (h_free_lists (al_header al)) i).
Proof.
  intros Hinv Hi. pose proof (inv_chain _ _ _ Hinv i Hi) as Hc. destruct (free i) as [|a l] eqn:Hf.
  - simpl in Hc. by rewrite Hc.
  - destruct Hc as [-> _]. destruct (inv_area al free live a i Hinv Hi) as (_ & _ & Hlo & Hhi);
      [rewrite Hf; by constructor|].
    pose proof (AreaIndex_size_range i Hi) as Hr. change MIN_AREA_SIZE with 16 in Hr. destruct (inv_size _ _ _ Hinv) as [_ Hs].
    unfold address_wf, from_option, LinearAddress_wf, area_end, HEADER_SIZE in *. simpl in *. ulia.
Qed.

(** The head of a free list becomes live.  [s'] is the storage after the entry
    of the head left the cache. *)
Lemma inv_pop s h free live i a l next s' :
  alloc_inv (mkAllocator s h) free live -> AreaIndex_wf i -> free i = a :: l ->
  is_free_area (store_bytes s) a i next -> chain (store_bytes s) i next l ->
  store_bytes s' = store_bytes s ->
  (forall b, free_next s' b = if decide (b = a) then None else free_next s b) ->
  alloc_inv (mkAllocator s' (with_free_list i next h)) (upd free i l) ((a, i) :: live).
Proof.
  intros [Hlen Hsz Ht Hch Hca] Hi Hf Hfa Hc Hb Hn. simpl in *. split; simpl.
  - unfold with_free_list, FreeLists_set. simpl. by rewrite length_insert.
  - done.
  - rewrite <- (free_areas_same free i), Hf, (free_areas_push free i a l Hi) in Ht.
    simpl in Ht. by rewrite <- Permutation_middle.
  - intros j Hj. rewrite FreeLists_get_set, Hb by done. unfold upd. case_decide; [by subst | auto].
  - intros b w. rewrite Hn. case_decide as Hba; [done|]. intros (j & Hj & Hbj & Hw)%Hca.
    exists j. rewrite Hb. split_and!; [done | | done]. unfold upd. case_decide; [|done]. subst j.
    rewrite Hf in Hbj. by apply elem_of_cons in Hbj as [?|?].
Qed.

Lemma allocate_from_freed_ok al free live i :
  alloc_inv al free live -> AreaIndex_wf i ->
  match free i with
  | [] => allocate_from_freed al i = (Ok None, al)
  | a :: l => exists al', allocate_from_freed al i = (Ok (Some a), al') /\
      alloc_inv al' (upd free i l) ((a, i) :: live) /\
      store_bytes (al_storage al') = store_bytes (al_storage al) /\
      exists next, is_free_area (store_bytes (al_storage al)) a i next /\
        al_header al' = with_free_list i next (al_header al)
  end.
Proof.
  intros Hinv Hi. pose proof (inv_chain _ _ _ Hinv i Hi) as Hc. unfold allocate_from_freed.
  destruct (free i) as [|a l] eqn:Hf; [by rewrite Hc|].
  destruct Hc as (-> & next & Hfa & Hc). destruct al as [s h]. simpl in *.
  destruct (free_list_cache s a) as [o s'] eqn:Hfc.
  destruct (free_list_cache_law _ _ _ _ Hfc) as (Ho & Hb & Hn).
  destruct o as [w|].
  - assert (w = next) as ->.
    { destruct (inv_cache _ _ _ Hinv a w) as (j & Hj & _ & Hw); [done|]. simpl in Hw.
      by destruct (is_free_area_det _ _ _ _ _ _ Hw Hfa). }
    eexists. split; [done|]. split; [by eapply inv_pop | eauto].
  - assert (HF : FreeArea_from_storage s' a = Ok (mkFreeArea next, i)).
    { unfold FreeArea_from_storage. rewrite stream_from_law, Hb. cbn [mbind result_bind].
      destruct Hfa as (bs & rest & Hd & _ & _ & Hdec). by rewrite Hd, Hdec. }
    rewrite HF. eexists. split; [done|]. split; [by eapply inv_pop | eauto].
Qed.

(** ** Allocation *)

Lemma allocate_from_end_ok al free live i :
  alloc_inv al free live -> AreaIndex_wf i -> h_size (al_header al) + AreaIndex_size i <= U64_MAX ->
  exists al', allocate_from_end al i = (Ok (h_size (al_header al)), al') /\
    alloc_inv al' free ((h_size (al_header al), i) :: live) /\
    store_bytes (al_storage al') = store_bytes (al_storage al).
Proof.
  intros [Hlen [Hm Hs] Ht Hch Hca] Hi Hroom. destruct al as [s h]. simpl in *.
  pose proof (AreaIndex_size_range i Hi) as Hr. change MIN_AREA_SIZE with 16 in Hr.
  unfold allocate_from_end, LinearAddress_new. simpl.
  destruct (Z.eqb_spec (h_size h) 0); [unfold HEADER_SIZE in Hs; lia|].
  eexists. split; [done|]. split; [|done].
  unfold saturating_add_u64. rewrite Z.min_l by lia. split; simpl; try done.
  - split; [|unfold HEADER_SIZE in *; lia].
    pose proof (AreaIndex_size_mult i Hi). change MIN_AREA_SIZE with 16 in *. dlia.
  - rewrite <- Permutation_middle. apply tiling_extend; [done..|lia].
Qed.

Lemma allocate_node_ok al free live node :
  alloc_inv al free live -> h_size (al_header al) + MAX_AREA_SIZE <= U64_MAX ->
  match from_size (Z.of_nat (length node)) with
  | Err e => e = OutOfMemory /\ allocate_node al node = (Err (IoFailure OutOfMemory), al)
  | Ok i =>
      exists a al' free', allocate_node al node = (Ok (a, i), al') /\
        alloc_inv al' free' ((a, i) :: live) /\
        Z.of_nat (length node) <= AreaIndex_size i /\
        Forall (apart (a, i)) live /\
        store_bytes (al_storage al') = store_bytes (al_storage al) /\
        match free i with
        | [] => a = h_size (al_header al) /\ free' = free
        | b :: l => a = b /\ free' = upd free i l
        end
  end.
Proof.
  intros Hinv Hroom. unfold allocate_node.
  destruct (from_size (Z.of_nat (length node))) as [i|e] eqn:Hsz.
  2: { unfold from_size in Hsz. destruct (_ <? _); by simplify_eq. }
  destruct (from_size_Ok _ _ Hsz) as (Hi & Hfit & _). pose proof (AreaIndex_size_range i Hi) as Hr.
  assert (Hap : forall al' a free', alloc_inv al' free' ((a, i) :: live) -> Forall (apart (a, i)) live).
  { intros al' a free' [_ _ [_ Hnd Hap] _ _]. apply Forall_forall. intros x Hx.
    apply Hap; [apply elem_of_app; right; by constructor | apply elem_of_app; right; by constructor |].
    intros <-. apply NoDup_app in Hnd as (_ & _ & Hnd). by apply NoDup_cons in Hnd as [? _]. }
  pose proof (allocate_from_freed_ok al free live i Hinv Hi) as Hfr.
  destruct (free i) as [|b l] eqn:Hf.
  - rewrite Hfr. destruct (allocate_from_end_ok al free live i Hinv Hi) as (al' & -> & Hinv' & Hb); [lia|].
    eexists _, al', free. split_and!; eauto.
  - destruct Hfr as (al' & -> & Hinv' & Hb & _). eexists _, al', _. split_and!; eauto.
Qed.

(** C25: allocating a node gives an aligned area that overlaps no live and no other free area, of the
    best-fitting class: the node fits, and it fits no smaller class.  It is the first freed area of
    that class when there is one, and otherwise the file grows; the invariant of the allocator is
    kept and no stored byte changes.  A node larger than the largest class is refused, and nothing
    changes.  The file must leave room for one more area below 2^64 bytes. *)
Theorem allocate_node_sound al free live node :
  alloc_inv al free live -> h_size (al_header al) + MAX_AREA_SIZE <= U64_MAX ->
  if Z.of_nat (length node) <=? MAX_AREA_SIZE then
    exists i a al' free', allocate_node al node = (Ok (a, i), al') /\
      alloc_inv al' free' ((a, i) :: live) /\
      AreaIndex_wf i /\ Z.of_nat (length node) <= AreaIndex_size i /\
      (forall j, AreaIndex_wf j -> j < i -> AreaIndex_size j < Z.of_nat (length node)) /\
      Forall (apart (a, i)) live /\
      store_bytes (al_storage al') = store_bytes (al_storage al) /\
      match free i with
      | [] => a = h_size (al_header al) /\ free' = free
      | b :: l => a = b /\ free' = upd free i l
      end
  else allocate_node al node = (Err (IoFailure OutOfMemory), al).
Proof.
  intros Hinv Hroom. pose proof (allocate_node_ok al free live node Hinv Hroom) as Ha.
  destruct (Z.leb_spec (Z.of_nat (length node)) MAX_AREA_SIZE) as [Hl|Hl].
  - destruct (from_size (Z.of_nat (length node))) as [i|e] eqn:Hs.
    + destruct (from_size_Ok _ _ Hs) as (Hi & Hfit & Hmin). destruct Ha as (a & al' & free' & Hrun & Hinv' & _ & Hap & Hb & Hf).
      exists i, a, al', free'. split_and!; try done; [apply Hi..|]. intros j Hj Hji.
      destruct (Z.lt_ge_cases (AreaIndex_size j) (Z.of_nat (length node))) as [|Hge]; [done|]. specialize (Hmin j Hj Hge). lia.
    + unfold from_size in Hs. destruct (Z.ltb_spec MAX_AREA_SIZE (Z.of_nat (length node))); [lia | done].
  - unfold from_size in Ha. destruct (Z.ltb_spec MAX_AREA_SIZE (Z.of_nat (length node))); [apply Ha | lia].
Qed.

(** ** Deletion *)

(** The head of the list becomes the freed area. *)
Lemma inv_push s h free live live' a i n s1 :
  alloc_inv (mkAllocator s h) free live -> AreaIndex_wf i -> live ≡ₚ (a, i) :: live' ->
  write s a (FreeArea_as_bytes (mkFreeArea (FreeLists_get (h_free_lists h) i)) i) = Ok (n, s1) ->
  alloc_inv (mkAllocator (add_to_free_list_cache s1 a (FreeLists_get (h_free_lists h) i))
               (with_free_list i (Some a) h)) (upd free i (a :: free i)) live'.
Proof.
  intros Hinv Hi Hlive Hw. pose proof (inv_head_wf _ _ _ i Hinv Hi) as Hhd. simpl in Hhd.
  pose proof Hinv as [Hlen Hsz Ht Hch Hca]. simpl in *.
  set (head := FreeLists_get (h_free_lists h) i) in *.
  destruct (write_law _ _ _ _ _ Hw) as (_ & Hb & Hn).
  destruct (add_to_free_list_cache_law s1 a head) as [Hb2 Hadd].
  pose proof (length_free_area_bytes head i Hhd) as Hbl. pose proof (AreaIndex_size_range i Hi) as Hr.
  change MIN_AREA_SIZE with 16 in Hr.
  rewrite Hlive in Ht. pose proof Ht as [Hok Hnd Hap]. rewrite Forall_forall in Hok.
  assert (Hain : (a, i) ∈ free_areas free ++ (a, i) :: live') by (apply elem_of_app; right; by constructor).
  assert (Ha : 0 <= a) by (destruct (Hok _ Hain) as (_ & _ & Hlo & _); unfold HEADER_SIZE in Hlo; simpl in Hlo; lia).
  assert (Hother : forall b j, AreaIndex_wf j -> b ∈ free j -> 0 <= b /\ apart (b, j) (a, i)).
  { intros b j Hj Hbj. assert (Hbin : (b, j) ∈ free_areas free) by (by apply elem_of_free_areas).
    assert (Hbin' : (b, j) ∈ free_areas free ++ (a, i) :: live') by (apply elem_of_app; by left).
    split; [destruct (Hok _ Hbin') as (_ & _ & Hlo & _); unfold HEADER_SIZE in Hlo; simpl in Hlo; lia|].
    apply Hap; [done..|]. intros He. apply NoDup_app in Hnd as (_ & Hnd & _).
    apply (Hnd _ Hbin). rewrite He. by constructor. }
  assert (Hchain : forall j, AreaIndex_wf j ->
    chain (store_bytes (add_to_free_list_cache s1 a head)) j (FreeLists_get (h_free_lists h) j) (free j)).
  { intros j Hj. rewrite Hb2, Hb. apply (chain_overwrite _ a i); [done | lia | | by apply Hch].
    intros b Hbj. by apply Hother. }
  split; simpl.
  - unfold with_free_list, FreeLists_set. simpl. by rewrite length_insert.
  - done.
  - rewrite free_areas_push, free_areas_same by done. simpl. by rewrite Permutation_middle.
  - intros j Hj. rewrite FreeLists_get_set by done. unfold upd. case_decide; [subst j | by apply Hchain].
    split; [done|]. exists head. split; [|by apply Hchain]. rewrite Hb2, Hb. by apply is_free_area_written.
  - intros b w [Hbw|[-> ->]]%Hadd.
    + rewrite Hn in Hbw. destruct (Hca b w Hbw) as (j & Hj & Hbj & Hf). exists j. split_and!; [done | |].
      * unfold upd. case_decide; [|done]. subst j. by constructor.
      * rewrite Hb2, Hb. destruct (Hother b j Hj Hbj). apply (is_free_area_overwrite _ a i); done || lia.
    + exists i. split_and!; [done | unfold upd; rewrite decide_True by done; constructor |].
      rewrite Hb2, Hb. by apply is_free_area_written.
Qed.

(** What [delete_node] does when the area has a valid size class. *)
Lemma delete_node_run (al : NodeAllocator St) a i :
  AreaIndex_wf i -> store_bytes (al_storage al) !! Z.to_nat a = Some i ->
  delete_node al (Persisted a) =
  let head := FreeLists_get (h_free_lists (al_header al)) i in
  match write (al_storage al) a (FreeArea_as_bytes (mkFreeArea head) i) with
  | Err e => (Err e, al)
  | Ok (_, s) => (Ok tt, mkAllocator (add_to_free_list_cache s a head) (with_free_list i (Some a) (al_header al)))
  end.
Proof.
  intros Hi Hbyte. unfold delete_node. cbn [as_linear_address].
  assert (Harea : area_index_and_size (al_storage al) a = Ok (i, AreaIndex_size i)).
  { unfold area_index_and_size. rewrite stream_from_law. cbn [mbind result_bind].
    rewrite (drop_S _ _ _ Hbyte). cbn [read_byte]. unfold AreaIndex_new, AreaIndex_wf in *.
    by rewrite (proj2 (Z.ltb_lt _ _)) by lia. }
  by rewrite Harea.
Qed.

Lemma delete_node_ok al free live live' a i :
  alloc_inv al free live -> live ≡ₚ (a, i) :: live' -> AreaIndex_wf i ->
  store_bytes (al_storage al) !! Z.to_nat a = Some i ->
  match delete_node al (Persisted a) with
  | (Ok _, al') => alloc_inv al' (upd free i (a :: free i)) live' /\
      forall x, x ∈ live' -> forall k, (Z.to_nat x.1 <= k < Z.to_nat (area_end x))%nat ->
        (k < length (store_bytes (al_storage al)))%nat ->
        store_bytes (al_storage al') !! k = store_bytes (al_storage al) !! k
  | (Err _, al') => al' = al
  end.
Proof.
  intros Hinv Hlive Hi Hbyte. rewrite (delete_node_run al a i Hi Hbyte). destruct al as [s h]. simpl in *. destruct (write s a _) as [[n s1]|e] eqn:Hw; [|done].
  split; [by eapply inv_push|]. intros x Hx k Hk Hkl. simpl.
  pose proof (inv_head_wf _ _ _ i Hinv Hi) as Hhd. simpl in Hhd.
  pose proof (length_free_area_bytes _ i Hhd) as Hbl. pose proof (AreaIndex_size_range i Hi) as Hr.
  change MIN_AREA_SIZE with 16 in Hr.
  destruct (write_law _ _ _ _ _ Hw) as (_ & Hb & _).
  rewrite (proj1 (add_to_free_list_cache_law _ _ _)), Hb. apply overwrite_other; [done|].
  pose proof (inv_tiling _ _ _ Hinv) as Ht. simpl in Ht. rewrite Hlive in Ht. destruct Ht as [Hok Hnd Hap].
  assert (Hax : apart (a, i) x).
  { apply Hap; [apply elem_of_app; right; by constructor | apply elem_of_app; right; by constructor |].
    intros <-. apply NoDup_app in Hnd as (_ & _ & Hnd). by apply NoDup_cons in Hnd as [? _]. }
  rewrite Forall_forall in Hok.
  destruct (Hok (a, i)) as (_ & _ & Hlo & _); [apply elem_of_app; right; by constructor|].
  destruct (Hok x) as (_ & _ & Hlo' & _); [apply elem_of_app; right; by constructor|].
  unfold apart, area_end, HEADER_SIZE in *. simpl in *. lia.
Qed.

(** C34: deleting a stored node turns its area into the head of the free list of
    its class: the invariant is kept, so the area is reused by a later
    allocation and no other area is touched.  If the write fails the allocator
    is unchanged. *)
Theorem delete_node_sound al free live live' a i :
  alloc_inv al free live -> live ≡ₚ (a, i) :: live' -> AreaIndex_wf i ->
  store_bytes (al_storage al) !! Z.to_nat a = Some i ->
  match delete_node al (Persisted a) with
  | (Ok _, al') => alloc_inv al' (upd free i (a :: free i)) live' /\
      forall x, x ∈ live' -> forall k, (Z.to_nat x.1 <= k < Z.to_nat (area_end x))%nat ->
        (k < length (store_bytes (al_storage al)))%nat ->
        store_bytes (al_storage al') !! k = store_bytes (al_storage al) !! k
  | (Err _, al') => al' = al
  end.
Proof. apply delete_node_ok. Qed.

(** The free lists are stacks: after a node is deleted, the next allocation
    of the same size class gets its area. *)
Theorem delete_allocate_lifo al free live live' a i al1 node :
  alloc_inv al free live -> live ≡ₚ (a, i) :: live' -> AreaIndex_wf i ->
  store_bytes (al_storage al) !! Z.to_nat a = Some i ->
  delete_node al (Persisted a) = (Ok tt, al1) -> from_size (Z.of_nat (length node)) = Ok i ->
  exists al2, allocate_node al1 node = (Ok (a, i), al2) /\
    h_free_lists (al_header al2) = h_free_lists (al_header al) /\
    h_size (al_header al2) = h_size (al_header al).
Proof.
  intros Hinv Hlive Hi Hbyte Hdel Hsz. rewrite (delete_node_run al a i Hi Hbyte) in Hdel. cbv zeta in Hdel.
  destruct al as [s h]. simpl in *. set (head := FreeLists_get (h_free_lists h) i) in *.
  destruct (write s a _) as [[n s1]|e] eqn:Hw; [|done]. injection Hdel as <-.
  pose proof (inv_push _ _ _ _ _ _ _ _ _ Hinv Hi Hlive Hw) as Hinv1. fold head in Hinv1.
  unfold allocate_node. rewrite Hsz.
  pose proof (allocate_from_freed_ok _ _ _ i Hinv1 Hi) as Hfr. unfold upd in Hfr. rewrite decide_True in Hfr by done.
  destruct Hfr as (al2 & -> & _ & _ & next & Hfa & Hhdr). exists al2. split; [done|]. simpl in Hfa, Hhdr.
  destruct (write_law _ _ _ _ _ Hw) as (_ & Hb & _).
  rewrite (proj1 (add_to_free_list_cache_law _ _ _)), Hb in Hfa.
  destruct (is_free_area_det _ _ _ _ _ _ Hfa
    (is_free_area_written (store_bytes s) a i head Hi (inv_head_wf _ _ _ i Hinv Hi))) as [_ ->].
  rewrite Hhdr. split; [|done]. unfold with_free_list, FreeLists_set. simpl.
  rewrite list_insert_insert_eq. apply list_insert_id. subst head. unfold FreeLists_get.
  destruct (lookup_lt_is_Some_2 (h_free_lists h) (Z.to_nat i)) as [x Hx]; [|by rewrite Hx].
  pose proof (inv_lists _ _ _ Hinv) as Hl. simpl in Hl. unfold AreaIndex_wf in Hi. lia.
Qed.

(** ** Iteration *)

(** The bound on the moves of one step: one more than the number of lists. *)
Definition lists_fuel : nat := S (Z.to_nat NUM_AREA_SIZES).

(** All items of the iterator over the free lists. *)
Fixpoint drain (fuel : nat) (lists : FreeLists) (s : St) (it : FreeListsIterator)
  : option (list (result failure (LinearAddress * AreaIndex))) :=
  match fuel with
  | O => None
  | S fuel =>
      match next_inner lists_fuel lists s it with
      | (None, _) => Some []
      | (Some r, it) => cons r <$> drain fuel lists s it
      end
  end.

(** The areas of the classes from [i] on. *)
Definition areas_from (free : free_map) (i : AreaIndex) : list area :=
  seqZ i (NUM_AREA_SIZES - i) ≫= class_areas free.

Lemma areas_from_next free i :
  AreaIndex_wf i ->
  areas_from free i = class_areas free i ++ from_option (areas_from free) [] (next_area_index i).
Proof.
  intros Hi. unfold areas_from, next_area_index, AreaIndex_new, AreaIndex_wf in *.
  change NUM_AREA_SIZES with 23 in *. rewrite seqZ_cons, bind_cons by lia. f_equal.
  destruct (Z.leb_spec (i + 1) U8_MAX) as [Hle|Hgt]; [|unfold U8_MAX in Hgt; lia].
  destruct (Z.ltb_spec (i + 1) 23) as [Hlt|Hge]; simpl.
  - unfold areas_from. f_equal. f_equal; lia.
  - rewrite seqZ_nil by lia. done.
Qed.

(** The iterator stands before [l] in class [i]. *)
Lemma next_inner_ok free lists s i it l fuel :
  (forall j, AreaIndex_wf j -> chain (store_bytes s) j (FreeLists_get lists j) (free j)) ->
  AreaIndex_wf i -> chain (store_bytes s) i (fi_next_addr it) l ->
  (Z.to_nat (NUM_AREA_SIZES - i) < fuel)%nat ->
  match ((fun a => (a, i)) <$> l) ++ from_option (areas_from free) [] (next_area_index i) with
  | [] => (next_inner fuel lists s (mkFreeListsIterator (next_area_index i) (Some it))).1 = None
  | x :: rest => exists j it' l', AreaIndex_wf j /\
      next_inner fuel lists s (mkFreeListsIterator (next_area_index i) (Some it)) =
        (Some (Ok x), mkFreeListsIterator (next_area_index j) (Some it')) /\
      chain (store_bytes s) j (fi_next_addr it') l' /\
      rest = ((fun a => (a, j)) <$> l') ++ from_option (areas_from free) [] (next_area_index j)
  end.
Proof.
  intros Hch. revert i it l. induction fuel as [|fuel IH]; intros i it l Hi Hc Hf; [lia|].
  cbn [next_inner fl_current_free_list]. unfold FreeListIterator_next. destruct l as [|a l].
  - simpl in Hc. rewrite Hc. cbn [fmap list_fmap app move_to_next_free_list fl_next_free_list_id].
    unfold move_to_next_free_list. cbn [fl_next_free_list_id].
    destruct (next_area_index i) as [j|] eqn:Hj.
    + assert (Hj' : AreaIndex_wf j /\ j = i + 1).
      { unfold next_area_index, AreaIndex_new, AreaIndex_wf in *. destruct (_ <=? _); [|done].
        destruct (Z.ltb_spec (i + 1) NUM_AREA_SIZES); [|done]. injection Hj as <-. lia. }
      destruct Hj' as [Hjw Hji]. cbn [from_option]. rewrite (areas_from_next free j Hjw).
      apply (IH j (free_list_iterator lists j) (free j)); [done | by apply Hch |].
      unfold AreaIndex_wf in *. lia.
    + cbn [from_option]. destruct fuel; [unfold AreaIndex_wf in *; lia | done].
  - destruct Hc as (Ha & next & Hfa & Hc). rewrite Ha. cbn [fmap list_fmap app].
    assert (HF : FreeArea_from_storage s a = Ok (mkFreeArea next, i)).
    { unfold FreeArea_from_storage. rewrite stream_from_law. cbn [mbind result_bind].
      destruct Hfa as (bs & rest & Hd & _ & _ & Hdec). by rewrite Hd, Hdec. }
    rewrite HF. eexists i, _, l. split_and!; [done | done | exact Hc | done].
Qed.

Lemma drain_ok free lists s i it l fuel rest :
  (forall j, AreaIndex_wf j -> chain (store_bytes s) j (FreeLists_get lists j) (free j)) ->
  AreaIndex_wf i -> chain (store_bytes s) i (fi_next_addr it) l ->
  rest = ((fun a => (a, i)) <$> l) ++ from_option (areas_from free) [] (next_area_index i) ->
  (length rest < fuel)%nat ->
  drain fuel lists s (mkFreeListsIterator (next_area_index i) (Some it)) = Some (Ok <$> rest).
Proof.
  intros Hch. revert i it l fuel. induction rest as [|x rest IH]; intros i it l fuel Hi Hc Hr Hf;
    (destruct fuel as [|fuel]; [simpl in Hf; lia|]); cbn [drain];
    pose proof (next_inner_ok free lists s i it l lists_fuel Hch Hi Hc) as Hn;
    rewrite <- Hr in Hn.
  - destruct (next_inner _ _ _ _) as [o it']. simpl in Hn. rewrite Hn; [done|].
    unfold lists_fuel, AreaIndex_wf in *. lia.
  - destruct Hn as (j & it' & l' & Hj & -> & Hc' & Hr'); [unfold lists_fuel, AreaIndex_wf in *; lia|].
    rewrite (IH j it' l' fuel); [done | done | done | done | simpl in Hf; lia].
Qed.

(** Iterating over the free lists from a size class visits every free area of
    that class and the larger ones exactly once, in list order, each with the
    class it is filed under, and then stops. *)
Theorem free_list_iter_complete al free live i :
  alloc_inv al free live -> AreaIndex_wf i ->
  let lists := h_free_lists (al_header al) in
  drain (S (length (areas_from free i))) lists (al_storage al) (FreeListsIterator_new lists i) =
    Some (Ok <$> areas_from free i).
Proof.
  intros Hinv Hi. cbv zeta. unfold FreeListsIterator_new.
  apply drain_ok with (free := free) (l := free i); [apply (inv_chain _ _ _ Hinv) | done |
    by apply (inv_chain _ _ _ Hinv) | by apply areas_from_next | lia].
Qed.

End Invariant.

(** ** Witnesses

    A store with one live leaf area at the first address past the header. *)
Section Witnesses.
Import Leb128.

Definition w_header : NodeStoreHeader :=
  set_size 2064 (NodeStoreHeader_new (replicate 32 7) [] [] MerkleDB).

Definition w_alloc : NodeAllocator MemStore :=
  mkAllocator (mkMemStore (replicate 2048 0 ++ [0; 3; 9; 1; 7])) w_header.

Lemma w_alloc_inv : alloc_inv w_alloc (fun _ => []) [(2048, 0)].
Proof.
  split.
  - vm_compute. reflexivity.
  - vm_compute. done.
  - change (free_areas (fun _ => [])) with (@nil area). simpl. split.
    + repeat constructor; vm_compute; done.
    + apply NoDup_singleton.
    + intros x y ->%list_elem_of_singleton ->%list_elem_of_singleton. done.
  - intros i Hi. simpl. unfold FreeLists_get, w_header. cbn [h_free_lists set_size NodeStoreHeader_new].
    unfold FreeLists_new. destruct (replicate _ _ !! _) as [o|] eqn:E; [|done].
    by apply lookup_replicate in E as [-> _].
  - done.
Qed.

Lemma w_deleted :
  exists al', delete_node w_alloc (Persisted 2048) = (Ok tt, al') /\
    alloc_inv al' (upd (fun _ => []) 0 [2048]) [].
Proof.
  rewrite (delete_node_run w_alloc 2048 0) by (try split; vm_compute; done). cbv zeta.
  destruct (write (al_storage w_alloc) 2048 _) as [[n s]|e] eqn:Hw; [|by vm_compute in Hw].
  eexists. split; [done|].
  apply (inv_push _ _ _ _ [] 2048 0 n s w_alloc_inv); [split; vm_compute; done | done | exact Hw].
Qed.

Lemma free_area_roundtrip_witness :
  from_storage_reader (FreeArea_as_bytes (mkFreeArea (Some 2048)) 3 ++ [9]) = Ok ((mkFreeArea (Some 2048), 3), [9]).
Proof.
  exact (proj1 (free_area_roundtrip (Some 2048) 3 [9]
    ltac:(split; [lia | vm_compute; reflexivity]) ltac:(hnf; split; [lia | vm_compute; discriminate]))).
Defined.

Lemma stored_node_not_free_witness :
  exists rest', read_stored_area_info_from_reader ([0; 3; 9; 1; 7] ++ [255]) =
    Ok (mkStoredAreaInfo AreaNode 0 16, rest').
Proof. apply (stored_node_not_free MerkleDB (Leaf (mkLeaf [9] [7])) 0 _ [255]). vm_compute. reflexivity. Defined.

Lemma allocate_node_sound_witness :
  exists a al' free', allocate_node w_alloc (replicate 20 1) = (Ok (a, 1), al') /\
    alloc_inv al' free' [(a, 1); (2048, 0)] /\ a = 2064.
Proof.
  pose proof (allocate_node_sound w_alloc (fun _ => []) [(2048, 0)] (replicate 20 1) w_alloc_inv) as Hs.
  change (Z.of_nat (length (replicate 20 1)) <=? MAX_AREA_SIZE) with true in Hs. cbv iota in Hs.
  destruct Hs as (i & a & al' & free' & Hrun & Hinv & _ & _ & _ & _ & _ & Ha & _); [vm_compute; discriminate|].
  assert (Hi : i = 1) by (apply (f_equal fst) in Hrun; vm_compute in Hrun; by injection Hrun).
  subst i. exists a, al', free'. split_and!; [exact Hrun | exact Hinv | exact Ha].
Defined.

Lemma delete_node_sound_witness :
  exists al', delete_node w_alloc (Persisted 2048) = (Ok tt, al') /\
    alloc_inv al' (upd (fun _ => []) 0 [2048]) [].
Proof.
  pose proof (delete_node_sound w_alloc (fun _ => []) [(2048, 0)] [] 2048 0 w_alloc_inv (Permutation_refl _)
    ltac:(split; [lia | vm_compute; reflexivity]) ltac:(vm_compute; reflexivity)) as Hs.
  destruct (delete_node w_alloc (Persisted 2048)) as [r al'] eqn:E.
  assert (Hr : r = Ok tt) by (apply (f_equal fst) in E; vm_compute in E; by symmetry).
  rewrite Hr in Hs. exists al'. split; [by rewrite <- Hr | exact (proj1 Hs)].
Defined.

Lemma delete_allocate_lifo_witness :
  exists al1 al2, delete_node w_alloc (Persisted 2048) = (Ok tt, al1) /\
    allocate_node al1 [1; 2; 3] = (Ok (2048, 0), al2) /\
    h_free_lists (al_header al2) = h_free_lists w_header /\ h_size (al_header al2) = 2064.
Proof.
  destruct (delete_node w_alloc (Persisted 2048)) as [r al1] eqn:E.
  assert (Hr : r = Ok tt) by (apply (f_equal fst) in E; vm_compute in E; by symmetry).
  destruct (delete_allocate_lifo w_alloc (fun _ => []) [(2048, 0)] [] 2048 0 al1 [1; 2; 3]
    w_alloc_inv (Permutation_refl _) ltac:(split; [lia | vm_compute; reflexivity])
    ltac:(vm_compute; reflexivity) ltac:(by rewrite E, Hr) ltac:(vm_compute; reflexivity))
    as (al2 & Hrun & Hl & Hz).
  exists al1, al2. split_and!; [by rewrite Hr | exact Hrun | exact Hl | exact Hz].
Defined.

Lemma free_list_iter_complete_witness :
  exists al', delete_node w_alloc (Persisted 2048) = (Ok tt, al') /\
    drain 2 (h_free_lists (al_header al')) (al_storage al')
      (FreeListsIterator_new (h_free_lists (al_header al')) 0) = Some [Ok (2048, 0)].
Proof.
  destruct w_deleted as (al' & Hdel & Hinv). exists al'. split; [exact Hdel|].
  exact (free_list_iter_complete al' _ [] 0 Hinv ltac:(split; [lia | vm_compute; reflexivity])).
Defined.

End Witnesses.
