(* ===== verification/Cells.v ===== *)
(** * Shared node cells

    [storage/src/node/persist.rs] with its sharing: a [MaybePersistedNode] is a
    reference to a cell, and every clone sees the cell change when its node is given an
    address or written to disk.  The nodes of a revision that are in memory refer to
    their children through cells.  [Node] has the same types with the contents of the
    cells in place of the references. *)

From S2P Require Import Prelude Primitives NodePath Node.

(** ** Nodes with references *)

(** An [Arc<Mutex<MaybePersisted>>], up to [Arc::ptr_eq]. *)
Definition cell : Type := positive.

(** [SharedNode], with the variants of [Child]. *)
#[warnings="-register-all"]
Inductive SharedNode : Type :=
| SLeaf (l : LeafNode)
| SBranch (p : Path) (v : option Value) (children : list (option SharedChild))
with SharedChild : Type :=
| SNode (n : SharedNode)
| SAddress (addr : LinearAddress) (hash : HashType)
| SCell (c : cell) (hash : HashType).

(** The contents of a cell. *)
Inductive CellState : Type :=
| CUnpersisted (n : SharedNode)
| CAllocated (addr : LinearAddress) (n : SharedNode)
| CPersisted (addr : LinearAddress).

Abbreviation cells := (gmap cell CellState).

(** ** Operations on cells *)

(** The node of a cell that is in memory. *)
Definition cell_node (cs : cells) (c : cell) : option SharedNode :=
  match cs !! c with
  | Some (CUnpersisted n) | Some (CAllocated _ n) => Some n
  | _ => None
  end.

(** [MaybePersistedNode::as_linear_address]. *)
Definition cell_as_linear_address (cs : cells) (c : cell) : option LinearAddress :=
  match cs !! c with
  | Some (CAllocated addr _) | Some (CPersisted addr) => Some addr
  | _ => None
  end.

(** [MaybePersistedNode::unpersisted]. *)
Definition cell_unpersisted (cs : cells) (c : cell) : option cell :=
  match cs !! c with
  | Some (CAllocated _ _) | Some (CUnpersisted _) => Some c
  | _ => None
  end.

(** [MaybePersistedNode::persist_at]. *)
Definition cell_persist_at (cs : cells) (c : cell) (addr : LinearAddress) : cells := <[c := CPersisted addr]> cs.

(** [MaybePersistedNode::allocate_at]; [None] is the [unreachable!] of the source. *)
Definition cell_allocate_at (cs : cells) (c : cell) (addr : LinearAddress) : option cells :=
  match cs !! c with
  | Some (CUnpersisted n) | Some (CAllocated _ n) => Some (<[c := CAllocated addr n]> cs)
  | _ => None
  end.

(** [Child::unpersisted]. *)
Definition SharedChild_unpersisted (cs : cells) (c : SharedChild) : option cell :=
  match c with
  | SCell c _ => cell_unpersisted cs c
  | SNode _ | SAddress _ _ => None
  end.

(** [Child::persist_info]. *)
Definition SharedChild_persist_info (cs : cells) (c : SharedChild) : option (LinearAddress * HashType) :=
  match c with
  | SAddress addr hash => Some (addr, hash)
  | SCell c hash => (fun addr => (addr, hash)) <$> cell_as_linear_address cs c
  | SNode _ => None
  end.

(** [Child::as_maybe_persisted_node]: only the last variant refers to a cell that exists already. *)
Definition as_cell (cs : cells) (c : SharedChild) : cell * cells :=
  match c with
  | SNode n => let c := fresh (dom cs) in (c, <[c := CUnpersisted n]> cs)
  | SAddress addr _ => let c := fresh (dom cs) in (c, <[c := CPersisted addr]> cs)
  | SCell c _ => (c, cs)
  end.

(** ** The node as it stands

    What the serialiser and the node cache see of a node: the address of a child is what its cell says now.
    Neither looks at the node behind a child in memory, and [blank] stands for it. *)
Definition blank : Node := Leaf (mkLeaf [] []).

Definition view_cell (cs : cells) (c : cell) : MaybePersisted :=
  match cs !! c with
  | Some (CPersisted addr) => Persisted addr
  | Some (CAllocated addr _) => Allocated addr blank
  | _ => Unpersisted blank
  end.

Definition view_child (cs : cells) (c : SharedChild) : Child :=
  match c with
  | SNode _ => ChildNode blank
  | SAddress addr hash => AddressWithHash addr hash
  | SCell c hash => ChildMaybePersisted (view_cell cs c) hash
  end.

Definition view_node (cs : cells) (n : SharedNode) : Node :=
  match n with
  | SLeaf l => Leaf l
  | SBranch p v children => Branch (mkBranch p v ((fun o : option SharedChild => view_child cs <$> o) <$> children))
  end.

(** ** Facts *)

Lemma view_child_persist_info cs c : Child_persist_info (view_child cs c) = SharedChild_persist_info cs c.
Proof.
  destruct c as [n|a h|c h]; cbn; [done..|]. unfold view_cell, cell_as_linear_address.
  by destruct (cs !! c) as [[n|a n|a]|].
Qed.

Lemma cell_unpersisted_node cs c : cell_unpersisted cs c = (fun _ => c) <$> cell_node cs c.
Proof. unfold cell_unpersisted, cell_node. by destruct (cs !! c) as [[n|a n|a]|]. Qed.

Lemma cell_allocate_at_Some cs c a n :
  cell_node cs c = Some n -> cell_allocate_at cs c a = Some (<[c := CAllocated a n]> cs).
Proof. unfold cell_node, cell_allocate_at. destruct (cs !! c) as [[m|b m|b]|]; by intros [= <-]. Qed.
