(* ===== verification/PersistIter.v ===== *)
(** * The order in which nodes are persisted

    [UnPersistedNodeIterator] of [storage/src/nodestore/persist.rs]: the walk over
    the nodes of a committed revision that are not on disk yet.  A parent holds the
    addresses of its children, so the children have to come first. *)

From S2P Require Import Prelude Primitives NodePath Node Cells.

(** ** The iterator *)

(** Both stacks of the source have their last element first here. *)
Record UnPersistedNodeIterator : Type := mkUnPersisted {
  it_stack : list cell;
  it_child_iter_stack : list (list cell);
}.

(** The children of a branch that are not on disk. *)
Definition unpersisted_children (cs : cells) (n : SharedNode) : list cell :=
  match n with
  | SLeaf _ => []
  | SBranch _ _ children =>
      omap (fun p : PathComponent * SharedChild => SharedChild_unpersisted cs p.2) (Children_iter_present children)
  end.

Section Iterator.
(** [NodeReader::read_node] of the store. *)
Variable read_node : LinearAddress -> result failure SharedNode.

(** [as_shared_node(store).expect(..)]. *)
Definition shared_in_memory (cs : cells) (c : cell) : result failure SharedNode :=
  match cs !! c with
  | Some (CAllocated _ node) | Some (CUnpersisted node) => Ok node
  | Some (CPersisted address) => match read_node address with Ok node => Ok node | Err _ => Err Panic end
  | None => Err Panic
  end.

(** [UnPersistedNodeIterator::new] on the root of the store. *)
Definition UnPersistedNodeIterator_new (cs : cells) (root : option cell) : result failure UnPersistedNodeIterator :=
  match root with
  | Some root =>
      node ← shared_in_memory cs root;
      match node with
      | SBranch _ _ _ => mret (mkUnPersisted [root] [unpersisted_children cs node])
      | SLeaf _ => mret (mkUnPersisted [root] [])
      end
  | None => mret (mkUnPersisted [] [])
  end.

(** [next]: its loop runs until it finds a leaf or no child iterator is left. *)
Fixpoint UnPersistedNodeIterator_next (fuel : nat) (cs : cells) (it : UnPersistedNodeIterator)
  : result failure (option cell * UnPersistedNodeIterator) :=
  match fuel with
  | O => Err Diverges
  | S fuel =>
      match it_child_iter_stack it with
      | [] => mret (head (it_stack it), mkUnPersisted (tail (it_stack it)) [])
      | [] :: iters => UnPersistedNodeIterator_next fuel cs (mkUnPersisted (it_stack it) iters)
      | (next_child :: current_iter) :: iters =>
          node ← shared_in_memory cs next_child;
          match node with
          | SBranch _ _ _ =>
              let children := unpersisted_children cs node in
              let iters :=
                if bool_decide (children = []) then current_iter :: iters
                else children :: current_iter :: iters in
              UnPersistedNodeIterator_next fuel cs (mkUnPersisted (next_child :: it_stack it) iters)
          | SLeaf _ => mret (Some next_child, mkUnPersisted (it_stack it) (current_iter :: iters))
          end
      end
  end.

(** The [for] loop over the iterator, without its body; [fuel] bounds each call of [next]. *)
Fixpoint persist_order (n fuel : nat) (cs : cells) (it : UnPersistedNodeIterator) : result failure (list cell) :=
  match n with
  | O => Err Diverges
  | S n =>
      '(o, it) ← UnPersistedNodeIterator_next fuel cs it;
      match o with
      | None => mret []
      | Some node => rest ← persist_order n fuel cs it; mret (node :: rest)
      end
  end.

End Iterator.

(** ** What is to be persisted *)

(** The part of a revision that is in memory: a tree of cells, each with its node. *)
#[warnings="-register-all"]
Inductive ctree : Type :=
| CT (c : cell) (n : SharedNode) (kids : list ctree).

Definition ct_cell (t : ctree) : cell := let '(CT c _ _) := t in c.
Definition ct_node (t : ctree) : SharedNode := let '(CT _ n _) := t in n.
Definition ct_kids (t : ctree) : list ctree := let '(CT _ _ kids) := t in kids.

(** Its nodes in preorder. *)
Fixpoint flat (t : ctree) : list (cell * SharedNode) :=
  let '(CT c n kids) := t in (c, n) :: flat_map flat kids.

Definition forest (ts : list ctree) : list (cell * SharedNode) := flat_map flat ts.

(** [ctree_ok cs t]: the cells hold the tree, and the children of each node that are not on disk are the ones in the tree. *)
Fixpoint ctree_ok (cs : cells) (t : ctree) : Prop :=
  let '(CT c n kids) := t in
  cell_node cs c = Some n /\ unpersisted_children cs n = map ct_cell kids /\
  (fix go (ts : list ctree) : Prop := match ts with [] => True | t :: ts => ctree_ok cs t /\ go ts end) kids.

Definition is_sleaf (p : cell * SharedNode) : bool := match p.2 with SLeaf _ => true | SBranch _ _ _ => false end.

(** The leaves in preorder, then the branches in reverse preorder. *)
Definition leaves (l : list (cell * SharedNode)) : list (cell * SharedNode) := filter (fun p => is_sleaf p = true) l.
Definition branches (l : list (cell * SharedNode)) : list (cell * SharedNode) := filter (fun p => is_sleaf p = false) l.

Definition write_order (t : ctree) : list (cell * SharedNode) := leaves (flat t) ++ reverse (branches (flat t)).

(** ** Facts *)

Lemma ctree_ind' (P : ctree -> Prop) :
  (forall c n kids, Forall P kids -> P (CT c n kids)) -> forall t, P t.
Proof.
  intros H. fix IH 1. intros [c n kids]. apply H. induction kids as [|t kids IHk]; [by constructor|].
  constructor; [apply IH | exact IHk].
Qed.

Lemma ctree_ok_T cs c n kids :
  ctree_ok cs (CT c n kids) <->
  cell_node cs c = Some n /\ unpersisted_children cs n = map ct_cell kids /\ Forall (ctree_ok cs) kids.
Proof.
  cbn. enough (Hgo : (fix go ts := match ts with [] => True | t :: ts => ctree_ok cs t /\ go ts end) kids <-> Forall (ctree_ok cs) kids)
    by (by rewrite Hgo).
  induction kids as [|t kids IH]; [split; [constructor | done]|]. by rewrite IH, Forall_cons.
Qed.

(** Only the cells of a tree matter to it, as long as no other cell comes back into memory. *)
Lemma ctree_ok_change cs cs' t :
  ctree_ok cs t ->
  (forall c, c ∈ (flat t).*1 -> cs' !! c = cs !! c) -> (forall c, cell_node cs c = None -> cell_node cs' c = None) ->
  ctree_ok cs' t.
Proof.
  intros Ht Hsame Hnone. induction t as [c n kids IH] using ctree_ind'.
  apply ctree_ok_T in Ht as (Hc & Hk & Hkids). cbn in Hsame.
  assert (Hkc : forall t x, t ∈ kids -> x ∈ (flat t).*1 -> cs' !! x = cs !! x).
  { intros t x Ht Hx. apply Hsame. right. apply list_elem_of_fmap in Hx as (p & -> & Hp).
    apply list_elem_of_fmap. exists p. split; [done|]. apply list_elem_of_In, in_flat_map. exists t. by rewrite <- !list_elem_of_In. }
  apply ctree_ok_T. split_and!.
  - unfold cell_node. rewrite (Hsame c) by left. exact Hc.
  - rewrite <- Hk. destruct n as [l|p v ch]; [done|]. cbn [unpersisted_children] in Hk |- *.
    assert (Hin : forall x, x ∈ omap (fun p : PathComponent * SharedChild => SharedChild_unpersisted cs p.2) (Children_iter_present ch) ->
      cs' !! x = cs !! x).
    { intros x Hx. rewrite Hk in Hx. apply list_elem_of_In, in_map_iff in Hx as (t & <- & Ht). apply list_elem_of_In in Ht.
      apply (Hkc t); [done|]. destruct t. left. }
    revert Hin. clear Hk. induction (Children_iter_present ch) as [|[i x] l IHl]; intros Hin; [done|]. csimpl.
    assert (Hx : SharedChild_unpersisted cs' x = SharedChild_unpersisted cs x).
    { destruct x as [m|a h|x h]; [done..|]. csimpl in Hin. cbn [SharedChild_unpersisted]. unfold cell_unpersisted in Hin |- *. specialize (Hnone x).
      unfold cell_node in Hnone. revert Hin Hnone. destruct (cs !! x) as [[m|a m|a]|] eqn:E; cbn; intros Hin Hnone.
      1,2: rewrite Hin by left; by rewrite E.
      all: specialize (Hnone eq_refl); by destruct (cs' !! x) as [[?|? ?|?]|]. }
    rewrite Hx, IHl; [done|]. intros y Hy. apply Hin. csimpl. destruct (SharedChild_unpersisted cs x); [by right | done].
  - rewrite Forall_forall in IH, Hkids |- *. intros t Ht. apply IH; [done | by apply Hkids | intros x; by apply Hkc].
Qed.

Lemma shared_node_of read_node cs c n : cell_node cs c = Some n -> shared_in_memory read_node cs c = Ok n.
Proof. unfold cell_node, shared_in_memory. destruct (cs !! c) as [[m|a m|a]|]; simpl; congruence. Qed.

Lemma leaves_cons p l : leaves (p :: l) = if is_sleaf p then p :: leaves l else leaves l.
Proof. unfold leaves. rewrite filter_cons. destruct (is_sleaf p); by case_decide. Qed.

Lemma branches_cons p l : branches (p :: l) = if is_sleaf p then branches l else p :: branches l.
Proof. unfold branches. rewrite filter_cons. destruct (is_sleaf p); by case_decide. Qed.

Lemma leaves_branches_perm l : leaves l ++ reverse (branches l) ≡ₚ l.
Proof.
  rewrite reverse_Permutation. induction l as [|m l IH]; [done|]. rewrite leaves_cons, branches_cons.
  destruct (is_sleaf m); simpl; [by rewrite IH|]. by rewrite <- Permutation_middle, IH.
Qed.

Lemma forest_cons t ts : forest (t :: ts) = (ct_cell t, ct_node t) :: forest (ct_kids t ++ ts).
Proof. unfold forest. destruct t as [c n kids]. cbn. by rewrite flat_map_app. Qed.

Section IteratorCorrect.
Variable read_node : LinearAddress -> result failure SharedNode.

(** The state of the iterator in terms of trees: those it has not reached, and the branches it will give after them. *)
Record iterating (cs : cells) (it : UnPersistedNodeIterator) (iters : list (list ctree)) (stack : list (cell * SharedNode)) : Prop :=
  mkIterating {
    iterating_iters : it_child_iter_stack it = map (map ct_cell) iters;
    iterating_stack : it_stack it = stack.*1;
    iterating_ok : Forall (ctree_ok cs) (concat iters);
  }.

(** What the iterator still has to give: the leaves it has not reached, then the
    branches above them, the deepest first. *)
Definition expected (iters : list (list ctree)) (stack : list (cell * SharedNode)) : list (cell * SharedNode) :=
  leaves (forest (concat iters)) ++ reverse (branches (forest (concat iters))) ++ stack.

Definition iter_measure (iters : list (list ctree)) : nat := 2 * length (forest (concat iters)) + length iters.

Lemma next_ok fuel cs it iters stack :
  iterating cs it iters stack -> (iter_measure iters < fuel)%nat ->
  exists it' iters' stack', UnPersistedNodeIterator_next read_node fuel cs it = Ok (fst <$> head (expected iters stack), it') /\
    expected iters' stack' = tail (expected iters stack) /\ iterating cs it' iters' stack' /\
    (iter_measure iters' <= iter_measure iters)%nat.
Proof.
  revert it iters stack. induction fuel as [|fuel IH]; intros [stk its] iters stack [Hits Hstk Hok] Hf; [lia|].
  cbn in Hits, Hstk. subst its stk.
  destruct iters as [|[|t ts] iters]; cbn [UnPersistedNodeIterator_next it_child_iter_stack it_stack map].
  - exists (mkUnPersisted (tail stack).*1 []), [], (tail stack). by destruct stack.
  - destruct (IH (mkUnPersisted stack.*1 (map (map ct_cell) iters)) iters stack) as (it' & iters' & stack' & Hn & He & Hi & Hle);
      [done | unfold iter_measure in *; simpl in *; lia|].
    exists it', iters', stack'. split_and!; [exact Hn | exact He | exact Hi | unfold iter_measure in *; simpl in *; lia].
  - cbn [concat app] in Hok. apply Forall_cons in Hok as [Ht Hok]. destruct t as [c n kids].
    apply ctree_ok_T in Ht as (Hc & Hk & Hkids). cbn [map ct_cell]. rewrite (shared_node_of read_node cs c n Hc). unfold mbind, result_bind.
    assert (Hfor : forest (concat ((CT c n kids :: ts) :: iters)) = (c, n) :: forest (kids ++ concat (ts :: iters)))
      by (cbn [concat app]; by rewrite forest_cons).
    destruct n as [l|p v ch].
    + assert (kids = []) as -> by (by destruct kids).
      exists (mkUnPersisted stack.*1 (map ct_cell ts :: map (map ct_cell) iters)), (ts :: iters), stack.
      unfold expected, iter_measure. rewrite Hfor, leaves_cons, branches_cons. cbn. split_and!; [done..|lia].
    + set (iters' := if bool_decide (kids = []) then ts :: iters else kids :: ts :: iters).
      assert (Hcat : concat iters' = kids ++ concat (ts :: iters)) by (subst iters'; case_bool_decide; by subst).
      assert (Hexp : expected iters' ((c, SBranch p v ch) :: stack) = expected ((CT c (SBranch p v ch) kids :: ts) :: iters) stack).
      { unfold expected. rewrite Hfor, Hcat, leaves_cons, branches_cons. cbn [is_sleaf snd]. by rewrite reverse_cons, <- app_assoc. }
      assert (Hms : (iter_measure iters' < iter_measure ((CT c (SBranch p v ch) kids :: ts) :: iters))%nat).
      { unfold iter_measure. rewrite Hfor, Hcat. cbn [length].
        assert (length iters' <= 2 + length iters)%nat by (subst iters'; case_bool_decide; simpl; lia). lia. }
      destruct (IH (mkUnPersisted (c :: stack.*1) (map (map ct_cell) iters')) iters' ((c, SBranch p v ch) :: stack))
        as (it' & iters2 & stack2 & Hn & He & Hi & Hle).
      * constructor; [done..|]. rewrite Hcat. by apply Forall_app.
      * lia.
      * exists it', iters2, stack2. rewrite Hexp in Hn, He. split_and!; [|done|done|lia]. rewrite <- Hn. f_equal. f_equal.
        subst iters'. rewrite Hk. destruct kids; by repeat case_bool_decide.
Qed.

(** The iterator goes on when cells change that it has given already. *)
Lemma iterating_change cs cs' it iters stack :
  iterating cs it iters stack -> (forall p, p ∈ expected iters stack -> cs' !! p.1 = cs !! p.1) ->
  (forall c, cell_node cs c = None -> cell_node cs' c = None) -> iterating cs' it iters stack.
Proof.
  intros [Hits Hstk Hok] Hsame Hnone. split; [done..|]. rewrite Forall_forall in Hok |- *. intros t Ht.
  apply (ctree_ok_change cs); [by apply Hok | | done]. intros c (p & -> & Hp)%list_elem_of_fmap. apply Hsame.
  unfold expected. rewrite app_assoc. apply elem_of_app. left. rewrite leaves_branches_perm.
  apply list_elem_of_In, in_flat_map. exists t. by rewrite <- !list_elem_of_In.
Qed.

Lemma persist_order_ok n fuel cs it iters stack :
  iterating cs it iters stack -> (iter_measure iters < fuel)%nat ->
  (length (expected iters stack) < n)%nat -> persist_order read_node n fuel cs it = Ok (expected iters stack).*1.
Proof.
  revert it iters stack. induction n as [|n IH]; intros it iters stack Hi Hf Hn; [lia|]. cbn [persist_order].
  destruct (next_ok fuel cs it iters stack Hi Hf) as (it' & iters' & stack' & -> & He & Hi' & Hle). unfold mbind, result_bind.
  destruct (expected iters stack) as [|m rest]; [done|]. simpl in *.
  rewrite (IH it' iters' stack'); [by rewrite He | done | lia | rewrite He; lia].
Qed.

(** The iterator starts with the nodes in the order of writing. *)
Lemma new_ok cs t :
  ctree_ok cs t ->
  exists it iters stack, UnPersistedNodeIterator_new read_node cs (Some (ct_cell t)) = Ok it /\
    iterating cs it iters stack /\ expected iters stack = write_order t /\ (iter_measure iters <= 2 * length (flat t) + 1)%nat.
Proof.
  destruct t as [c n kids]. intros (Hc & Hk & Hkids)%ctree_ok_T. cbn [ct_cell]. unfold UnPersistedNodeIterator_new.
  rewrite (shared_node_of read_node cs c n Hc). unfold mbind, result_bind, write_order. cbn [flat]. fold (forest kids).
  destruct n as [l|p v ch].
  - assert (kids = []) as -> by (by destruct kids).
    exists (mkUnPersisted [c] []), [], [(c, SLeaf l)]. split_and!; [done | done | done | cbn; lia].
  - exists (mkUnPersisted [c] [unpersisted_children cs (SBranch p v ch)]), [kids], [(c, SBranch p v ch)].
    unfold expected, iter_measure. rewrite leaves_cons, branches_cons. cbn [is_sleaf snd concat]. rewrite reverse_cons, app_nil_r.
    split_and!; [done | | done | cbn; lia]. constructor; cbn [it_child_iter_stack it_stack concat map]; [by rewrite Hk | done | by rewrite app_nil_r].
Qed.

End IteratorCorrect.

(** ** Children first *)

(** In preorder a node is followed by what lies below it. *)
Lemma preorder_split cs ts p c n q :
  Forall (ctree_ok cs) ts -> forest ts = p ++ (c, n) :: q ->
  cell_node cs c = Some n /\ exists kids q', unpersisted_children cs n = map ct_cell kids /\ q = forest kids ++ q'.
Proof.
  remember (length (forest ts)) as k eqn:Hk. revert ts p Hk.
  induction (lt_wf k) as [k _ IH]. intros ts p -> Hok Hs. destruct ts as [|t ts].
  { by destruct p. }
  apply Forall_cons in Hok as [Ht Hok]. rewrite forest_cons in Hs. destruct t as [c' n' kids].
  apply ctree_ok_T in Ht as (Hc & Hkids & Hfk). cbn [ct_cell ct_node ct_kids] in Hs.
  destruct p as [|y p]; cbn [app] in Hs; simplify_eq.
  - split; [done|]. exists kids, (forest ts). split; [done|]. unfold forest. by rewrite flat_map_app.
  - eapply (IH (length (forest (kids ++ ts)))); [|reflexivity | by apply Forall_app | done].
    rewrite forest_cons. cbn [ct_kids length]. lia.
Qed.

Lemma filter_split {A} (P : A -> Prop) `{!forall x, Decision (P x)} (l a c : list A) m :
  filter P l = a ++ m :: c -> exists p q, l = p ++ m :: q /\ filter P q = c.
Proof.
  revert a. induction l as [|x l IH]; intros a Hs; [by destruct a|]. rewrite filter_cons in Hs.
  case_decide as Hx; [destruct a as [|y a]; simplify_eq/=|].
  - by exists [], l.
  - destruct (IH a) as (p & q & -> & Hq); [done|]. by exists (y :: p), q.
  - destruct (IH a) as (p & q & -> & Hq); [done|]. by exists (x :: p), q.
Qed.

Lemma app_split_right {A} (l r pre post : list A) m :
  l ++ r = pre ++ m :: post -> m ∉ l -> exists pre', pre = l ++ pre' /\ r = pre' ++ m :: post.
Proof.
  intros Hs Hm. apply app_eq_inv in Hs as [(k & -> & Hk)|(k & -> & Hk)]; [|by exists k].
  destruct k as [|y k]; simplify_eq/=; [exists []; by rewrite !app_nil_r|]. set_solver.
Qed.

Lemma children_first cs t pre c n post :
  ctree_ok cs t -> write_order t = pre ++ (c, n) :: post ->
  cell_node cs c = Some n /\ unpersisted_children cs n ⊆ pre.*1.
Proof.
  intros Ht Hs.
  assert (Hforest : flat t = forest [t]) by (unfold forest; cbn; by rewrite app_nil_r).
  assert (Hcn : (c, n) ∈ flat t).
  { rewrite <- (leaves_branches_perm (flat t)). unfold write_order in Hs. rewrite Hs. set_solver. }
  destruct (is_sleaf (c, n)) eqn:Hlh.
  { apply list_elem_of_split in Hcn as (p & q & Hpq). rewrite Hforest in Hpq.
    destruct (preorder_split cs [t] p c n q) as (Hc & _); [by repeat constructor | done|]. split; [done|].
    destruct n; [cbn; set_solver | done]. }
  unfold write_order in Hs. apply app_split_right in Hs as (pre' & -> & HB).
  2: { unfold leaves. rewrite list_elem_of_filter. intros [? _]. congruence. }
  apply (f_equal reverse) in HB. rewrite reverse_involutive, reverse_app, reverse_cons, <- app_assoc in HB. simpl in HB.
  destruct (filter_split _ _ _ _ _ HB) as (p & q & Hpq & Hq). rewrite Hforest in Hpq.
  destruct (preorder_split cs [t] p c n q) as (Hc & kids & q' & Hk & Hq'); [by repeat constructor | done|].
  split; [done|]. rewrite Hk. intros x Hx. apply list_elem_of_In, in_map_iff in Hx as (k & <- & Hin). apply list_elem_of_In in Hin.
  assert (Hkq : (ct_cell k, ct_node k) ∈ q).
  { rewrite Hq'. apply elem_of_app. left. apply list_elem_of_In, in_flat_map. exists k. rewrite <- !list_elem_of_In. split; [done|].
    destruct k. left. }
  apply list_elem_of_fmap. exists (ct_cell k, ct_node k). split; [done|]. apply elem_of_app.
  destruct (is_sleaf (ct_cell k, ct_node k)) eqn:Hcl.
  - left. unfold leaves. apply list_elem_of_filter. split; [done|]. rewrite Hforest, Hpq. set_solver.
  - right. apply elem_of_reverse. rewrite <- Hq. by apply list_elem_of_filter.
Qed.

(** The root is written last. *)
Lemma write_order_last cs t : ctree_ok cs t -> last (write_order t) = Some (ct_cell t, ct_node t).
Proof.
  destruct t as [c n kids]. intros (_ & Hk & _)%ctree_ok_T. unfold write_order. cbn [flat ct_cell ct_node]. rewrite leaves_cons, branches_cons.
  destruct n as [l|p v ch]; cbn [is_sleaf snd]; [|by rewrite reverse_cons, app_assoc, last_snoc].
  by assert (kids = []) as -> by (by destruct kids).
Qed.

(** ** Properties *)

(** The iterator visits every node that is not on disk exactly once, each
    after all of its children, and the root last; it never reads the disk.  The
    order is: the leaves from left to right, then the branches in reverse
    preorder. *)
Theorem persist_order_children_first read_node cs t n fuel :
  ctree_ok cs t ->
  (length (flat t) < n)%nat -> (2 * length (flat t) + 1 < fuel)%nat ->
  exists it, UnPersistedNodeIterator_new read_node cs (Some (ct_cell t)) = Ok it /\
    persist_order read_node n fuel cs it = Ok (write_order t).*1 /\
    write_order t ≡ₚ flat t /\ last (write_order t).*1 = Some (ct_cell t) /\
    forall pre c m post, write_order t = pre ++ (c, m) :: post -> unpersisted_children cs m ⊆ pre.*1.
Proof.
  intros Ht Hn Hf. pose proof (leaves_branches_perm (flat t)) as Hperm. pose proof (Permutation_length Hperm) as Hlen.
  destruct (new_ok read_node cs t Ht) as (it & iters & stack & Hnew & Hi & Hexp & Hms).
  exists it. split_and!; [done | | done | |].
  - rewrite <- Hexp. apply (persist_order_ok read_node n fuel cs it iters stack Hi); [lia | rewrite Hexp; unfold write_order; lia].
  - by rewrite fmap_last, (write_order_last cs t Ht).
  - intros pre c m post Hs. by destruct (children_first cs t pre c m post Ht Hs).
Qed.

(** *** Witness: a root with a leaf and a branch with a leaf below it *)

Definition w_hash : HashType := Hash (replicate 32 0).
Definition w_sleaf : SharedNode := SLeaf (mkLeaf [1] [7]).
Definition w_inner : SharedNode := SBranch [2] None (Children_set Children_new 4 (Some (SCell 3%positive w_hash))).
Definition w_sroot : SharedNode :=
  SBranch [] None (Children_set (Children_set Children_new 3 (Some (SCell 2%positive w_hash))) 9 (Some (SCell 4%positive w_hash))).
Definition w_cells : cells :=
  <[1%positive := CUnpersisted w_sroot]> (<[2%positive := CUnpersisted w_inner]>
    (<[3%positive := CUnpersisted w_sleaf]> (<[4%positive := CUnpersisted w_sleaf]> ∅))).
Definition w_ctree : ctree := CT 1%positive w_sroot [CT 2%positive w_inner [CT 3%positive w_sleaf []]; CT 4%positive w_sleaf []].

Lemma w_ctree_ok : ctree_ok w_cells w_ctree.
Proof. vm_compute. tauto. Qed.

Lemma persist_order_children_first_witness :
  exists it, UnPersistedNodeIterator_new (fun _ => Err Panic) w_cells (Some 1%positive) = Ok it /\
    persist_order (fun _ => Err Panic) 5 10 w_cells it = Ok [3%positive; 4%positive; 2%positive; 1%positive].
Proof.
  destruct (persist_order_children_first (fun _ => Err Panic) w_cells w_ctree 5 10) as (it & Hnew & Hout & _).
  - exact w_ctree_ok.
  - vm_compute. lia.
  - vm_compute. lia.
  - exists it. split; [exact Hnew|]. rewrite Hout. vm_compute. reflexivity.
Defined.
