(* ===== verification/Reap.v ===== *)
(** * Reaping

    [NodeStore::reap_deleted] of [storage/src/nodestore/mod.rs]: the nodes that a
    revision deleted are returned to the free lists once no reader can reach them
    any more. *)

From S2P Require Import Prelude Primitives NodePath Node Codec NodeCodec Trie NodeStore Linear Header Alloc AllocCorrect.

Section Reap.
Context {St : Type} `{VarInt} `{ReadableStorage St} `{WritableStorage St}.

(** The loop over the deleted nodes; the first error ends it. *)
Fixpoint reap_loop (al : NodeAllocator St) (deleted : list MaybePersisted) : result failure unit * NodeAllocator St :=
  match deleted with
  | [] => (Ok tt, al)
  | node :: deleted =>
      match delete_node al node with
      | (Err e, al) => (Err e, al)
      | (Ok _, al) => reap_loop al deleted
      end
  end.

Definition reap_deleted (s : St) (h : NodeStoreHeader) (deleted : list MaybePersisted)
  : result failure unit * NodeAllocator St :=
  let s := invalidate_cached_nodes s deleted in
  reap_loop (mkAllocator s h) deleted.

End Reap.

Section ReapCorrect.
Context `{VarIntLaws} {St : Type} `{WritableStorageLaws St}.

(** The areas as the deleted nodes name them. *)
Definition area_nodes (areas : list area) : list MaybePersisted := map (fun x : area => Persisted x.1) areas.

(** Each area starts with the index of its class. *)
Definition area_headers (data : bytes) (areas : list area) : Prop :=
  Forall (fun x : area => AreaIndex_wf x.2 /\ data !! Z.to_nat x.1 = Some x.2) areas.

(** What reaping gives: the first [done] areas are on the free lists. *)
Definition reaped (al : NodeAllocator St) (free : free_map) (live done : list area) (data : bytes) : Prop :=
  exists free', alloc_inv al free' live /\ free_areas free' ≡ₚ done ++ free_areas free /\
    forall x, x ∈ live -> forall k, (Z.to_nat x.1 <= k < Z.to_nat (area_end x))%nat ->
      (k < length data)%nat -> store_bytes (al_storage al) !! k = data !! k.

Lemma inv_area_live al free live x : alloc_inv al free live -> x ∈ live -> AreaIndex_wf x.2 /\ 0 <= x.1.
Proof.
  intros [_ _ [Hok _ _] _ _] Hx. rewrite Forall_forall in Hok.
  destruct (Hok x) as (Hi & _ & Hlo & _); [apply elem_of_app; by right|]. unfold HEADER_SIZE in Hlo. split; [done | lia].
Qed.

Lemma alloc_inv_perm al free live live' : live ≡ₚ live' -> alloc_inv al free live -> alloc_inv al free live'.
Proof. intros Hp [Hl Hs Ht Hc Hk]. split; try done. by rewrite <- Hp. Qed.

Lemma reaped_nil al free live live' : alloc_inv al free live -> live ≡ₚ live' -> reaped al free live' [] (store_bytes (al_storage al)).
Proof. intros Hinv Hp. exists free. split_and!; [by eapply alloc_inv_perm | done | done]. Qed.

(** The bytes that belong to the areas of [live] are the same. *)
Definition same_on (live : list area) (data data' : bytes) : Prop :=
  forall x, x ∈ live -> forall k, (Z.to_nat x.1 <= k < Z.to_nat (area_end x))%nat ->
    (k < length data)%nat -> data' !! k = data !! k.

(** One more area at the front. *)
Lemma reaped_cons al' free live all done a i data data1 :
  AreaIndex_wf i -> same_on all data data1 -> live ⊆ all ->
  reaped al' (upd free i (a :: free i)) live done data1 -> reaped al' free live ((a, i) :: done) data.
Proof.
  intros Hi Hsame Hsub (free' & Hinv & Hp & Hk). exists free'. split_and!; [done | |].
  - rewrite Hp, free_areas_push, free_areas_same by done. simpl. by rewrite Permutation_middle.
  - intros x Hx k Hr Hl. pose proof (Hsame x (Hsub _ Hx) k Hr Hl) as Hs. rewrite <- Hs. apply (Hk x Hx k Hr).
    destruct (lookup_lt_is_Some_2 data k Hl) as [v Hv]. rewrite Hv in Hs. by eapply lookup_lt_Some.
Qed.

Lemma reap_loop_ok areas al free live live' :
  alloc_inv al free live -> live ≡ₚ areas ++ live' -> area_headers (store_bytes (al_storage al)) areas ->
  match reap_loop al (area_nodes areas) with
  | (Ok _, al') => reaped al' free live' areas (store_bytes (al_storage al))
  | (Err _, al') => exists done rest, areas = done ++ rest /\ rest <> [] /\
      reaped al' free (rest ++ live') done (store_bytes (al_storage al))
  end.
Proof.
  revert al free live. induction areas as [|[a i] areas IH]; intros al free live Hinv Hp Hh.
  { simpl. by eapply reaped_nil. }
  apply Forall_cons in Hh as [[Hi Hb] Hh]. simpl in Hi, Hb.
  pose proof (delete_node_ok al free live (areas ++ live') a i Hinv Hp Hi Hb) as Hd.
  cbn [area_nodes map reap_loop fst]. destruct (delete_node al (Persisted a)) as [[u|e] al1].
  2: { subst al1. exists [], ((a, i) :: areas). split_and!; [done | done | by eapply reaped_nil]. }
  destruct Hd as [Hinv1 Hkeep].
  assert (Hh1 : area_headers (store_bytes (al_storage al1)) areas).
  { apply Forall_forall. intros x Hx. pose proof (proj1 (Forall_forall _ _) Hh x Hx) as [Hxi Hxb]. split; [done|].
    pose proof (area_nonempty x Hxi). rewrite (Hkeep x); [done | apply elem_of_app; by left | |].
    - pose proof (inv_area_live al1 _ _ x Hinv1 ltac:(apply elem_of_app; by left)) as [_ Hlo]. lia.
    - by eapply lookup_lt_Some. }
  pose proof (IH al1 _ _ Hinv1 ltac:(done) Hh1) as Hrest.
  fold (area_nodes areas). destruct (reap_loop al1 (area_nodes areas)) as [[u'|e] al'].
  - eapply reaped_cons; [done | exact Hkeep | | exact Hrest]. set_solver.
  - destruct Hrest as (done & rest & -> & Hne & Hr). exists ((a, i) :: done), rest. split_and!; [done | done |].
    eapply reaped_cons; [done | exact Hkeep | | exact Hr]. set_solver.
Qed.

(** ** Properties *)

(** C36: reaping returns the areas of the deleted nodes to the free lists, each
    exactly once, and leaves the bytes of every live area as they were.  If the
    disk fails on the way the allocator is still consistent: a first part of the
    areas is free and the others stay allocated. *)
Theorem reap_deleted_sound s h free live live' areas :
  alloc_inv (mkAllocator s h) free live -> live ≡ₚ areas ++ live' -> area_headers (store_bytes s) areas ->
  match reap_deleted s h (area_nodes areas) with
  | (Ok _, al') => reaped al' free live' areas (store_bytes s)
  | (Err _, al') => exists done rest, areas = done ++ rest /\ rest <> [] /\
      reaped al' free (rest ++ live') done (store_bytes s)
  end.
Proof.
  intros Hinv Hp Hh. unfold reap_deleted. destruct (invalidate_cached_nodes_law s (area_nodes areas)) as [Hb Hf].
  rewrite <- Hb in Hh |- *. apply (reap_loop_ok areas (mkAllocator _ h) free live live'); [|done|done].
  destruct Hinv as [Hl Hs Ht Hc Hk]. simpl in *. split; simpl; try done.
  - intros i Hi. rewrite Hb. by apply Hc.
  - intros a next. rewrite Hf, Hb. apply Hk.
Qed.

End ReapCorrect.

(** ** Witness: the one live leaf of a store is reaped *)
Section Witness.
Import Leb128.

Lemma reap_deleted_sound_witness :
  exists al', reap_deleted (al_storage w_alloc) (al_header w_alloc) [Persisted 2048] = (Ok tt, al') /\
    reaped al' (fun _ => []) [] [(2048, 0)] (store_bytes (al_storage w_alloc)).
Proof.
  assert (Hh : area_headers (store_bytes (al_storage w_alloc)) [(2048, 0)]).
  { repeat constructor; vm_compute; done. }
  pose proof (reap_deleted_sound (al_storage w_alloc) (al_header w_alloc) (fun _ => []) [(2048, 0)] []
    [(2048, 0)] w_alloc_inv (Permutation_refl _) Hh) as Hs. cbn [area_nodes map fst] in Hs.
  destruct (reap_deleted _ _ _) as [r al'] eqn:E.
  assert (Hr : r = Ok tt) by (apply (f_equal fst) in E; vm_compute in E; by symmetry).
  rewrite Hr in Hs. exists al'. split; [by rewrite <- Hr | exact Hs].
Defined.

End Witness.
