(* ===== verification/RangeSet.v ===== *)
(** * Range sets

    [storage/src/checker/range_set.rs]: a set of disjoint ranges kept in a
    [BTreeMap] from the end of each range to its start, insertion with and
    without overlap, complement, and the set of stored areas of the checker. *)

From stdpp Require Import sorting.
From S2P Require Import Prelude Primitives NodePath Node Header Alloc.

(** ** [BTreeMap]

    The entries in ascending order of their keys. *)
Abbreviation btree := (list (Z * Z)).

Fixpoint bt_insert (k v : Z) (m : btree) : btree :=
  match m with
  | [] => [(k, v)]
  | (k', v') :: m' =>
      if k <? k' then (k, v) :: m
      else if k =? k' then (k, v) :: m'
      else (k', v') :: bt_insert k v m'
  end.

Definition bt_remove (k : Z) (m : btree) : btree := filter (fun x => x.1 <> k) m.

(** [BTreeMap::range(k..)]. *)
Definition bt_range_from (k : Z) (m : btree) : btree := filter (fun x => k <= x.1) m.

(** ** [RangeSet] *)

(** A half-open range [start..end]; an entry of the tree is its end and start. *)
Abbreviation range := (Z * Z)%type.

Definition entry_range (x : Z * Z) : range := (x.2, x.1).

Record CoalescingRanges : Type := mkCoalescing {
  prev_adjacent_range : option range;
  intersecting_ranges : list range;
  next_adjacent_range : option range;
}.

(** The loop of [get_coalescing_ranges], over the entries not before the range. *)
Fixpoint coalescing_loop (start_ end_ : Z) (items : btree) (c : CoalescingRanges) : CoalescingRanges :=
  match items with
  | [] => c
  | (next_range_end, next_range_start) :: items =>
      let x := (next_range_start, next_range_end) in
      if next_range_end =? start_ then
        coalescing_loop start_ end_ items (mkCoalescing (Some x) (intersecting_ranges c) (next_adjacent_range c))
      else if next_range_start <? end_ then
        coalescing_loop start_ end_ items
          (mkCoalescing (prev_adjacent_range c) (intersecting_ranges c ++ [x]) (next_adjacent_range c))
      else if next_range_start =? end_ then
        mkCoalescing (prev_adjacent_range c) (intersecting_ranges c) (Some x)
      else c
  end.

Definition get_coalescing_ranges (self : btree) (r : range) : CoalescingRanges :=
  coalescing_loop r.1 r.2 (bt_range_from r.1 self) (mkCoalescing None [] None).

(** [insert_range_helper]; on an error the set is unchanged. *)
Definition insert_range_helper (self : btree) (r : range) (allow_intersecting : bool)
  : result (list range) btree :=
  if r.2 <=? r.1 then Ok self
  else
    let '(mkCoalescing prev inter next) := get_coalescing_ranges self r in
    if negb allow_intersecting && negb (bool_decide (inter = [])) then
      Err ((fun x => (Z.max r.1 x.1, Z.min r.2 x.2)) <$> inter)
    else
      let coalesced_start := match prev, head inter with
                             | Some prev_range, _ => prev_range.1
                             | None, Some first => Z.min r.1 first.1
                             | None, None => r.1
                             end in
      let coalesced_end := match next, last inter with
                           | Some next_range, _ => next_range.2
                           | None, Some last_ => Z.max r.2 last_.2
                           | None, None => r.2
                           end in
      let remove_keys := snd <$> (option_list prev ++ inter ++ option_list next) in
      let self := foldl (fun m k => bt_remove k m) self remove_keys in
      Ok (bt_insert coalesced_end coalesced_start self).

(** [insert_range], used by the tests. *)
Definition insert_range (self : btree) (r : range) : result (list range) btree :=
  insert_range_helper self r true.

Definition insert_disjoint_range (self : btree) (r : range) : result (list range) btree :=
  insert_range_helper self r false.

(** The loop of [complement]: the ranges found so far and the current start. *)
Fixpoint complement_loop (max : Z) (items : btree) (start : Z) (acc : btree) : Z * btree :=
  match items with
  | [] => (start, acc)
  | (next_range_end, next_range_start) :: items =>
      if start <? next_range_start then
        if max <=? next_range_start then (start, acc)
        else complement_loop max items (Z.max start next_range_end) (bt_insert next_range_start start acc)
      else complement_loop max items (Z.max start next_range_end) acc
  end.

Definition complement (self : btree) (min max : Z) : btree :=
  let (start, acc) := complement_loop max self min [] in
  if start <? max then bt_insert max start acc else acc.

Definition RangeSet_iter (self : btree) : list range := entry_range <$> self.

(** ** [LinearAddressRangeSet] *)

Inductive TrieNodeParent : Type :=
| Root
| Parent (addr : LinearAddress) (index : PathComponent).

Inductive StoredAreaParent : Type :=
| TrieNode (p : TrieNodeParent)
| FreeList (p : FreeListParent).

Record LinearAddressRangeSet : Type := mkRangeSet {
  range_set : btree;
  max_addr : LinearAddress;
  bytes_in_set : Z;
}.

(** [CheckerError]; [CheckerPanic] is a failed [expect] of the range sets. *)
Inductive CheckerError : Type :=
| InvalidDBSize (db_size : Z)
| HashMismatch (path : Path) (address : LinearAddress) (parent : TrieNodeParent) (parent_stored_hash computed_hash : HashType)
| AreaOutOfBounds (start size : Z) (bounds : range) (parent : StoredAreaParent)
| AreaIntersects (start size : Z) (intersection : list range) (parent : StoredAreaParent)
| NodeLargerThanArea (area_start : LinearAddress) (area_size node_bytes : Z) (parent : TrieNodeParent)
| FreelistAreaSizeMismatch (address : LinearAddress) (size : Z) (actual_free_list expected_free_list : AreaIndex) (parent : FreeListParent)
| AreaMisaligned (address : LinearAddress) (parent : StoredAreaParent)
| AreaLeaks (ranges : LinearAddressRangeSet)
| UnpersistedRoot
| InvalidKey (key : Path) (address : LinearAddress) (parent : TrieNodeParent)
| CheckerIO (error : io_error) (parent : StoredAreaParent)
| CheckerPanic.

Definition NODE_STORE_START_ADDR : LinearAddress := HEADER_SIZE.

Definition LinearAddressRangeSet_new (db_size : Z) : result CheckerError LinearAddressRangeSet :=
  if db_size <? HEADER_SIZE then Err (InvalidDBSize db_size)
  else max_addr ← ok_or (LinearAddress_new db_size) CheckerPanic; Ok (mkRangeSet [] max_addr 0).

(** [insert_area]: [CheckerPanic] is the failed [expect]. *)
Definition insert_area (self : LinearAddressRangeSet) (addr : LinearAddress) (size : Z)
  (parent : StoredAreaParent) : result CheckerError LinearAddressRangeSet :=
  let out_of_bounds := AreaOutOfBounds addr size (NODE_STORE_START_ADDR, max_addr self) parent in
  end_ ← ok_or (advance addr size) out_of_bounds;
  if (addr <? NODE_STORE_START_ADDR) || (max_addr self <? end_) then Err out_of_bounds
  else match insert_disjoint_range (range_set self) (addr, end_) with
       | Err intersection => Err (AreaIntersects addr size intersection parent)
       | Ok set =>
           bytes ← ok_or (checked_add_u64 (bytes_in_set self) size) CheckerPanic;
           Ok (mkRangeSet set (max_addr self) bytes)
       end.

(** [LinearAddressRangeSet::complement]. *)
Definition area_complement (self : LinearAddressRangeSet) : result CheckerError LinearAddressRangeSet :=
  let complement_set := complement (range_set self) NODE_STORE_START_ADDR (max_addr self) in
  distance ← ok_or (distance_from (max_addr self) NODE_STORE_START_ADDR) CheckerPanic;
  bytes_in_complement ← ok_or (checked_sub_u64 distance (bytes_in_set self)) CheckerPanic;
  Ok (mkRangeSet complement_set (max_addr self) bytes_in_complement).

(** ** Meaning and invariant *)

Definition mem (x : Z) (m : btree) : Prop := exists e s, (e, s) ∈ m /\ s <= x < e.

(** Ranges are non-empty, ascending, and neither overlap nor touch. *)
Definition gap (x y : Z * Z) : Prop := x.1 < y.2.

Record rs_wf (m : btree) : Prop := mkRsWf {
  rs_sorted : StronglySorted gap m;
  rs_nonempty : Forall (fun x => x.2 < x.1) m;
}.

Definition total (m : btree) : Z := foldr (fun x acc => x.1 - x.2 + acc) 0 m.

Lemma mem_app x m n : mem x (m ++ n) <-> mem x m \/ mem x n.
Proof.
  unfold mem. split.
  - intros (e & s & [Hin|Hin]%elem_of_app & Hx); eauto 10.
  - intros [(e & s & Hin & Hx)|(e & s & Hin & Hx)]; exists e, s; (split; [apply elem_of_app|]); auto.
Qed.

Lemma mem_nil x : mem x [] <-> False.
Proof. split; [|done]. by intros (e & s & Hin%elem_of_nil & _). Qed.

Lemma mem_cons x e s m : mem x ((e, s) :: m) <-> s <= x < e \/ mem x m.
Proof.
  unfold mem. split.
  - intros (e' & s' & [[= -> ->]|Hin]%elem_of_cons & Hx); eauto 10.
  - intros [Hx|(e' & s' & Hin & Hx)].
    + exists e, s. split; [constructor | done].
    + exists e', s'. split; [by constructor | done].
Qed.

Lemma rs_wf_app m n :
  rs_wf (m ++ n) <-> rs_wf m /\ rs_wf n /\ forall x y, x ∈ m -> y ∈ n -> gap x y.
Proof.
  split.
  - intros [Hs Hn]. apply StronglySorted_app in Hs as (Hg & Hm & Hs). apply Forall_app in Hn as [Hn1 Hn2].
    split_and!; [done..|]. intros x y Hx Hy. by apply Hg.
  - intros ([Hs1 Hn1] & [Hs2 Hn2] & Hg). split; [|by apply Forall_app].
    apply StronglySorted_app. split_and!; [|done..]. intros x y Hx Hy. by apply Hg.
Qed.

Lemma rs_wf_cons e s m : rs_wf ((e, s) :: m) <-> s < e /\ rs_wf m /\ forall y, y ∈ m -> e < y.2.
Proof.
  split.
  - intros [Hs Hn]. apply StronglySorted_cons in Hs as [Hg Hs]. apply Forall_cons in Hn as [Hn1 Hn2].
    rewrite Forall_forall in Hg. split_and!; [done..|]. intros y Hy. by apply (Hg y).
  - intros (He & [Hs Hn] & Hg). split; [|by constructor].
    apply StronglySorted_cons. split; [|done]. apply Forall_forall. intros y Hy. by apply Hg.
Qed.

Lemma rs_wf_elem m x : rs_wf m -> x ∈ m -> x.2 < x.1.
Proof. intros [_ Hn] Hx. rewrite Forall_forall in Hn. by apply Hn. Qed.

Lemma rs_wf_nil : rs_wf [].
Proof. split; constructor. Qed.

(** ** Tree operations on sorted entries *)

Lemma bt_insert_middle k v m n :
  (forall x, x ∈ m -> x.1 < k) -> (forall x, x ∈ n -> k < x.1) -> bt_insert k v (m ++ n) = m ++ (k, v) :: n.
Proof.
  intros Hm Hn. induction m as [|[k' v'] m IH]; simpl.
  - destruct n as [|[k' v'] n]; [done|]. simpl. specialize (Hn (k', v') ltac:(constructor)). simpl in Hn.
    by destruct (Z.ltb_spec k k'); [|lia].
  - specialize (Hm (k', v') ltac:(constructor)) as Hk. simpl in Hk.
    destruct (Z.ltb_spec k k'), (Z.eqb_spec k k'); try lia. rewrite IH; [done|].
    intros x Hx. apply Hm. by constructor.
Qed.

Lemma bt_remove_all ks m : foldl (fun m k => bt_remove k m) m ks = filter (fun x => x.1 ∉ ks) m.
Proof.
  revert m. induction ks as [|k ks IH]; intros m; simpl.
  - symmetry. apply filter_keep. intros x _. apply not_elem_of_nil.
  - rewrite IH. unfold bt_remove. rewrite list_filter_filter. apply list_filter_iff. intros x.
    rewrite not_elem_of_cons. tauto.
Qed.

(** The entries before [k], and the rest. *)
Lemma bt_range_from_split k m :
  rs_wf m -> exists before, m = before ++ bt_range_from k m /\ (forall x, x ∈ before -> x.1 < k) /\
    (forall x, x ∈ bt_range_from k m -> k <= x.1).
Proof.
  intros Hwf. induction m as [|[e s] m IH]; [exists []; split_and!; [done | by intros x ?%elem_of_nil..]|].
  apply rs_wf_cons in Hwf as (Hse & Hwf & Hg). unfold bt_range_from. destruct (decide (k <= e)) as [Hk|Hk].
  - exists []. rewrite filter_keep; [split_and!; [done | by intros x ?%elem_of_nil |]|];
      intros x [->|Hx]%elem_of_cons; simpl; try done;
      specialize (Hg x Hx); pose proof (rs_wf_elem m x Hwf Hx); lia.
  - destruct (IH Hwf) as (before & Hm & Hlt & Hge). exists ((e, s) :: before).
    rewrite filter_cons_False by (simpl; lia). fold (bt_range_from k m). split_and!.
    + simpl. by rewrite <- Hm.
    + intros x [->|Hx]%elem_of_cons; simpl; [lia | by apply Hlt].
    + done.
Qed.

(** ** [get_coalescing_ranges] *)

(** Past the adjacent range before it, the loop collects the ranges that meet
    [a..b] and the one that starts at [b]. *)
Lemma coalescing_loop_tail a b items prev acc :
  rs_wf items -> (forall x, x ∈ items -> a < x.1) ->
  exists inter next after,
    coalescing_loop a b items (mkCoalescing prev acc None) = mkCoalescing prev (acc ++ (entry_range <$> inter)) (entry_range <$> next) /\
    items = inter ++ option_list next ++ after /\
    (forall x, x ∈ inter -> x.2 < b) /\ (forall x, next = Some x -> x.2 = b) /\
    (forall x, x ∈ after -> b < x.2).
Proof.
  revert acc. induction items as [|[e s] items IH]; intros acc Hwf Ha.
  { exists [], None, []. simpl. rewrite app_nil_r. split_and!; try done; by intros x ?%elem_of_nil. }
  apply rs_wf_cons in Hwf as (Hse & Hwf & Hg). simpl.
  pose proof (Ha (e, s) ltac:(constructor)) as Hae. simpl in Hae.
  destruct (Z.eqb_spec e a); [lia|]. destruct (Z.ltb_spec s b).
  - destruct (IH (acc ++ [(s, e)]) Hwf) as (inter & next & after & -> & -> & Hi & Hn & Haft);
      [intros x Hx; apply Ha; by constructor|].
    exists ((e, s) :: inter), next, after. csimpl. rewrite <- app_assoc. split_and!; [done | done | | done | done].
    intros x [->|Hx]%elem_of_cons; [done | by apply Hi].
  - assert (Hafter : forall x, x ∈ items -> b < x.2) by (intros x Hx; specialize (Hg x Hx); lia).
    destruct (Z.eqb_spec s b).
    + exists [], (Some (e, s)), items. csimpl. rewrite app_nil_r. split_and!; try done; [by intros x ?%elem_of_nil|].
      by intros x [= <-].
    + exists [], None, ((e, s) :: items). csimpl. rewrite app_nil_r. split_and!; try done; [by intros x ?%elem_of_nil|].
      intros x [->|Hx]%elem_of_cons; simpl; [lia | by apply Hafter].
Qed.

(** The five parts of the set with respect to a range. *)
Lemma get_coalescing_ranges_ok m a b :
  rs_wf m -> a < b ->
  exists before prev inter next after,
    get_coalescing_ranges m (a, b) = mkCoalescing (entry_range <$> prev) (entry_range <$> inter) (entry_range <$> next) /\
    m = before ++ option_list prev ++ inter ++ option_list next ++ after /\
    (forall x, x ∈ before -> x.1 < a) /\ (forall x, prev = Some x -> x.1 = a) /\
    (forall x, x ∈ inter -> a < x.1 /\ x.2 < b) /\ (forall x, next = Some x -> x.2 = b) /\
    (forall x, x ∈ after -> b < x.2).
Proof.
  intros Hwf Hab. destruct (bt_range_from_split a m Hwf) as (before & Hm & Hbefore & Hge).
  unfold get_coalescing_ranges. cbn [fst snd]. rewrite Hm in Hwf. apply rs_wf_app in Hwf as (_ & Hwf & _).
  exists before. remember (bt_range_from a m) as items eqn:Hitems. clear Hitems.
  destruct items as [|[e s] items].
  { exists None, [], None, []. split_and!; try done; by intros x ?%elem_of_nil. }
  pose proof (Hge (e, s) ltac:(constructor)) as He. simpl in He.
  destruct (Z.eqb_spec e a) as [->|Hne].
  - apply rs_wf_cons in Hwf as (Hse & Hwf & Hg).
    destruct (coalescing_loop_tail a b items (Some (s, a)) [] Hwf) as (inter & next & after & Hl & -> & Hi & Hn & Haft).
    { intros x Hx. specialize (Hg x Hx). pose proof (rs_wf_elem _ x Hwf Hx). lia. }
    exists (Some (a, s)), inter, next, after. simpl. rewrite Z.eqb_refl, Hl. split_and!; try done.
    + by intros x [= <-].
    + intros x Hx. split; [|by apply Hi].
      assert (Hin : x ∈ inter ++ option_list next ++ after) by (apply elem_of_app; by left).
      specialize (Hg x Hin). pose proof (rs_wf_elem _ x Hwf Hin). lia.
  - assert (Hgt : forall x, x ∈ (e, s) :: items -> a < x.1).
    { intros x [->|Hx]%elem_of_cons; [simpl; lia|]. apply rs_wf_cons in Hwf as (Hse & Hwf & Hg).
      specialize (Hg x Hx). pose proof (rs_wf_elem _ x Hwf Hx). lia. }
    destruct (coalescing_loop_tail a b ((e, s) :: items) None [] Hwf Hgt) as (inter & next & after & Hl & Hit & Hi & Hn & Haft).
    exists None, inter, next, after. rewrite Hl, Hm, Hit. split_and!; try done.
    intros x Hx. split; [|by apply Hi]. apply Hgt. rewrite Hit. apply elem_of_app. by left.
Qed.

(** ** Insertion *)

Definition coalesced_start (a : Z) (prev : option range) (inter : list range) : Z :=
  match prev, head inter with
  | Some prev_range, _ => prev_range.1
  | None, Some first => Z.min a first.1
  | None, None => a
  end.

Definition coalesced_end (b : Z) (next : option range) (inter : list range) : Z :=
  match next, last inter with
  | Some next_range, _ => next_range.2
  | None, Some last_ => Z.max b last_.2
  | None, None => b
  end.

(** The coalesced range starts at the range or at a part it absorbs, not after
    either. *)
Lemma coalesced_start_ok a prev inter :
  rs_wf (option_list prev ++ inter) -> (forall x, prev = Some x -> x.1 = a) ->
  (forall x, x ∈ inter -> a < x.1) ->
  let cs := coalesced_start a (entry_range <$> prev) (entry_range <$> inter) in
  cs <= a /\ (forall x, x ∈ option_list prev ++ inter -> cs <= x.2) /\
  (cs < a -> exists x, x ∈ option_list prev ++ inter /\ x.2 = cs /\ a <= x.1) /\
  (cs = a \/ exists x, x ∈ option_list prev ++ inter /\ x.2 = cs).
Proof.
  intros Hwf Hp Hi. cbv zeta. unfold coalesced_start. destruct prev as [[e s]|]; simpl in *.
  - apply rs_wf_cons in Hwf as (Hse & Hwf & Hg). specialize (Hp _ eq_refl). simpl in Hp. subst e. split_and!.
    + lia.
    + intros x [->|Hx]%elem_of_cons; [simpl; lia|]. specialize (Hg x Hx). lia.
    + intros _. exists (a, s). split_and!; [constructor | done | simpl; lia].
    + right. exists (a, s). split; [constructor | done].
  - destruct inter as [|[e s] inter]; simpl.
    + split_and!; [lia | by intros x ?%elem_of_nil | lia | by left].
    + apply rs_wf_cons in Hwf as (Hse & Hwf & Hg). pose proof (Hi (e, s) ltac:(constructor)) as He. simpl in He.
      split_and!.
      * lia.
      * intros x [->|Hx]%elem_of_cons; [simpl; lia|]. specialize (Hg x Hx). lia.
      * intros Hlt. exists (e, s). split_and!; [constructor | simpl; lia | simpl; lia].
      * destruct (Z.le_gt_cases a s); [left; lia|]. right. exists (e, s). split; [constructor | simpl; lia].
Qed.

Lemma coalesced_end_ok b next inter :
  rs_wf (inter ++ option_list next) -> (forall x, next = Some x -> x.2 = b) ->
  (forall x, x ∈ inter -> x.2 < b) ->
  let ce := coalesced_end b (entry_range <$> next) (entry_range <$> inter) in
  b <= ce /\ (forall x, x ∈ inter ++ option_list next -> x.1 <= ce) /\
  (b < ce -> exists x, x ∈ inter ++ option_list next /\ x.1 = ce /\ x.2 <= b) /\
  (ce = b \/ exists x, x ∈ inter ++ option_list next /\ x.1 = ce).
Proof.
  intros Hwf Hn Hi. cbv zeta. unfold coalesced_end. apply rs_wf_app in Hwf as (Hwf & Hwfn & Hg).
  destruct next as [[e s]|]; simpl in *.
  - apply rs_wf_cons in Hwfn as (Hse & _ & _). specialize (Hn _ eq_refl). simpl in Hn. subst s.
    assert (Hin : forall x, x ∈ inter ++ [(e, b)] <-> x ∈ inter \/ x = (e, b)).
    { intros x. by rewrite elem_of_app, list_elem_of_singleton. }
    split_and!.
    + lia.
    + intros x [Hx| ->]%Hin; [|simpl; lia]. specialize (Hg x (e, b) Hx ltac:(constructor)). unfold gap in Hg. simpl in Hg. lia.
    + intros _. exists (e, b). rewrite Hin. split_and!; [by right | done | simpl; lia].
    + right. exists (e, b). rewrite Hin. split; [by right | done].
  - rewrite app_nil_r in *. rewrite fmap_last. destruct (last inter) as [[e s]|] eqn:Hl; simpl.
    + apply last_Some in Hl as [l' ->]. apply rs_wf_app in Hwf as (Hwf & Hwl & Hgl).
      apply rs_wf_cons in Hwl as (Hse & _ & _).
      pose proof (Hi (e, s) ltac:(apply elem_of_app; right; constructor)) as Hs. simpl in Hs.
      assert (Hin : (e, s) ∈ l' ++ [(e, s)]) by (apply elem_of_app; right; constructor). split_and!.
      * lia.
      * intros x [Hx|Hx%list_elem_of_singleton]%elem_of_app; [|subst x; simpl; lia].
        specialize (Hgl x (e, s) Hx ltac:(constructor)). unfold gap in Hgl. simpl in Hgl. lia.
      * intros Hlt. exists (e, s). split_and!; [done | simpl; lia | simpl; lia].
      * destruct (Z.le_gt_cases e b); [left; lia|]. right. exists (e, s). split; [done | simpl; lia].
    + apply last_None in Hl as ->. split_and!; [lia | by intros x ?%elem_of_nil | lia | by left].
Qed.

Lemma elem_of_olist {A} (o : option A) x : x ∈ option_list o <-> o = Some x.
Proof.
  destruct o as [y|]; simpl; [rewrite list_elem_of_singleton | rewrite elem_of_nil]; split; congruence || done.
Qed.

(** The coalesced range covers the range and the absorbed parts, and no more. *)
Lemma coalesced_mid a b prev inter next :
  a < b -> let mid := option_list prev ++ inter ++ option_list next in rs_wf mid ->
  (forall x, prev = Some x -> x.1 = a) -> (forall x, x ∈ inter -> a < x.1 /\ x.2 < b) ->
  (forall x, next = Some x -> x.2 = b) ->
  let cs := coalesced_start a (entry_range <$> prev) (entry_range <$> inter) in
  let ce := coalesced_end b (entry_range <$> next) (entry_range <$> inter) in
  cs <= a /\ b <= ce /\ (forall x, cs <= x < ce <-> mem x mid \/ a <= x < b) /\
  (cs = a \/ exists x, x ∈ mid /\ x.2 = cs) /\ (ce = b \/ exists x, x ∈ mid /\ x.1 = ce).
Proof.
  intros Hab mid Hwm Hp Hi Hn cs ce. pose proof (rs_wf_app (option_list prev) (inter ++ option_list next)) as Hw1.
  destruct (coalesced_start_ok a prev inter) as (Hcs1 & Hcs2 & Hcs3 & Hcs4);
    [subst mid; rewrite (assoc_L (++)) in Hwm; by apply rs_wf_app in Hwm as [? _] | done |
     intros x Hx; by apply Hi |].
  destruct (coalesced_end_ok b next inter) as (Hce1 & Hce2 & Hce3 & Hce4);
    [by apply Hw1 in Hwm as (_ & ? & _) | done | intros x Hx; by apply Hi |].
  fold cs in Hcs1, Hcs2, Hcs3, Hcs4. fold ce in Hce1, Hce2, Hce3, Hce4.
  assert (Hpi : forall x, x ∈ option_list prev ++ inter -> x ∈ mid) by (intros x; subst mid; rewrite !elem_of_app; tauto).
  assert (Hin : forall x, x ∈ inter ++ option_list next -> x ∈ mid) by (intros x; subst mid; rewrite !elem_of_app; tauto).
  split_and!; [done | done | | destruct Hcs4 as [?|(x & ? & ?)]; eauto | destruct Hce4 as [?|(x & ? & ?)]; eauto].
  intros x. split.
  - intros Hx. destruct (Z.lt_ge_cases x a) as [Hxa|Hxa].
    + left. destruct (Hcs3 ltac:(lia)) as ([e s] & Hy & Hs & He). exists e, s. split; [by apply Hpi | simpl in *; lia].
    + destruct (Z.lt_ge_cases x b) as [Hxb|Hxb]; [by right|].
      left. destruct (Hce3 ltac:(lia)) as ([e s] & Hy & Hs & He). exists e, s. split; [by apply Hin | simpl in *; lia].
  - intros [(e & s & Hy & Hx)|Hx]; [|lia]. subst mid. pose proof (rs_wf_elem _ _ Hwm Hy) as Hse. simpl in Hse.
    rewrite !elem_of_app, !elem_of_olist in Hy. destruct Hy as [Hy|[Hy|Hy]].
    + specialize (Hp _ Hy) as Hpa. simpl in Hpa. specialize (Hcs2 (e, s)). rewrite elem_of_app, elem_of_olist in Hcs2.
      specialize (Hcs2 (or_introl Hy)). simpl in Hcs2. lia.
    + specialize (Hcs2 (e, s)). specialize (Hce2 (e, s)). rewrite elem_of_app in Hcs2, Hce2.
      specialize (Hcs2 (or_intror Hy)). specialize (Hce2 (or_introl Hy)). simpl in *. lia.
    + specialize (Hn _ Hy) as Hnb. simpl in Hnb. specialize (Hce2 (e, s)). rewrite elem_of_app, elem_of_olist in Hce2.
      specialize (Hce2 (or_intror Hy)). simpl in Hce2. lia.
Qed.

(** Removing the keys of the middle part of a set and inserting one entry. *)
Lemma bt_replace_middle before mid after ce cs :
  rs_wf (before ++ mid ++ after) -> (forall x, x ∈ before -> x.1 < ce) -> (forall x, x ∈ after -> ce < x.1) ->
  bt_insert ce cs (foldl (fun m k => bt_remove k m) (before ++ mid ++ after) mid.*1) = before ++ (ce, cs) :: after.
Proof.
  intros Hwf Hb Ha. apply rs_wf_app in Hwf as (Hwb & Hwf & Hgb). apply rs_wf_app in Hwf as (Hwm & Hwa & Hga).
  rewrite bt_remove_all, !filter_app.
  rewrite (filter_keep _ before), (filter_discard _ mid), (filter_keep _ after).
  - by apply bt_insert_middle.
  - intros x Hx (y & Hxy & Hy)%list_elem_of_fmap. specialize (Hga y x Hy Hx). unfold gap in Hga.
    pose proof (rs_wf_elem _ _ Hwa Hx). lia.
  - intros x Hx Hnx. apply Hnx. apply list_elem_of_fmap. eauto.
  - intros x Hx (y & Hxy & Hy)%list_elem_of_fmap.
    assert (Hg : gap x y) by (apply Hgb; [done | apply elem_of_app; by left]). unfold gap in Hg.
    pose proof (rs_wf_elem _ _ Hwm Hy). lia.
Qed.

(** The coalescing step on the five parts. *)
Lemma coalesce_ok a b before prev inter next after :
  a < b -> rs_wf (before ++ option_list prev ++ inter ++ option_list next ++ after) ->
  (forall x, x ∈ before -> x.1 < a) -> (forall x, prev = Some x -> x.1 = a) ->
  (forall x, x ∈ inter -> a < x.1 /\ x.2 < b) -> (forall x, next = Some x -> x.2 = b) ->
  (forall x, x ∈ after -> b < x.2) ->
  let m := before ++ option_list prev ++ inter ++ option_list next ++ after in
  let cs := coalesced_start a (entry_range <$> prev) (entry_range <$> inter) in
  let ce := coalesced_end b (entry_range <$> next) (entry_range <$> inter) in
  let keys := snd <$> (option_list (entry_range <$> prev) ++ (entry_range <$> inter)
                         ++ option_list (entry_range <$> next)) in
  let m' := bt_insert ce cs (foldl (fun m k => bt_remove k m) m keys) in
  m' = before ++ (ce, cs) :: after /\ rs_wf m' /\ (forall x, mem x m' <-> mem x m \/ a <= x < b).
Proof.
  intros Hab Hwf Hbef Hp Hi Hn Haft. cbv zeta.
  set (mid := option_list prev ++ inter ++ option_list next).
  assert (Hm : before ++ option_list prev ++ inter ++ option_list next ++ after = before ++ mid ++ after)
    by (subst mid; by rewrite <- !app_assoc).
  rewrite Hm in *. clear Hm.
  assert (Hkeys : snd <$> (option_list (entry_range <$> prev) ++ (entry_range <$> inter)
    ++ option_list (entry_range <$> next)) = mid.*1).
  { subst mid. rewrite !fmap_app, <- list_fmap_compose. by destruct prev, next. }
  rewrite Hkeys. clear Hkeys.
  pose proof Hwf as (Hwb & (Hwm & Hwa & Hga)%rs_wf_app & Hgb)%rs_wf_app.
  destruct (coalesced_mid a b prev inter next Hab Hwm Hp Hi Hn) as (Hcs & Hce & Hmem & Hcs' & Hce').
  fold mid in Hmem, Hcs', Hce'. set (cs := coalesced_start _ _ _) in *. set (ce := coalesced_end _ _ _) in *.
  assert (Hbcs : forall x, x ∈ before -> x.1 < cs).
  { intros x Hx. destruct Hcs' as [->|(y & Hy & <-)]; [by apply Hbef|].
    apply (Hgb x y); [done|]. apply elem_of_app. by left. }
  assert (Hace : forall x, x ∈ after -> ce < x.2).
  { intros x Hx. destruct Hce' as [->|(y & Hy & <-)]; [by apply Haft | by apply (Hga y x)]. }
  rewrite bt_replace_middle; [|done | intros x Hx; specialize (Hbcs x Hx); lia |
    intros x Hx; specialize (Hace x Hx); pose proof (rs_wf_elem _ _ Hwa Hx); lia].
  split; [done|]. split.
  - apply rs_wf_app. split_and!; [done | |].
    + apply rs_wf_cons. split_and!; [lia | done | done].
    + intros x y Hx [->|Hy]%elem_of_cons; unfold gap; [by apply Hbcs|].
      specialize (Hace y Hy). specialize (Hbcs x Hx). lia.
  - intros x. rewrite !mem_app, mem_cons. specialize (Hmem x). tauto.
Qed.

(** The intersections a refused insertion reports. *)
Lemma intersections_ok a b before prev inter next after x :
  rs_wf (before ++ option_list prev ++ inter ++ option_list next ++ after) ->
  (forall y, y ∈ before -> y.1 < a) -> (forall y, prev = Some y -> y.1 = a) ->
  (forall y, y ∈ inter -> a < y.1 /\ y.2 < b) -> (forall y, next = Some y -> y.2 = b) ->
  (forall y, y ∈ after -> b < y.2) ->
  (exists s e, (s, e) ∈ (fun y => (Z.max a y.1, Z.min b y.2)) <$> (entry_range <$> inter) /\ s <= x < e) <->
  mem x (before ++ option_list prev ++ inter ++ option_list next ++ after) /\ a <= x < b.
Proof.
  intros Hwf Hb Hp Hi Hn Ha. rewrite <- list_fmap_compose, !mem_app. split.
  - intros (s & e & ([e' s'] & [= -> ->] & Hin)%list_elem_of_fmap & Hx). simpl in Hx.
    split; [|lia]. right. right. left. exists e', s'. split; [done | lia].
  - intros [Hm Hx]. assert (Hmi : mem x inter).
    { destruct Hm as [(e & s & Hin & Hy)|[(e & s & Hin & Hy)|[Hm|[(e & s & Hin & Hy)|(e & s & Hin & Hy)]]]].
      - specialize (Hb _ Hin). simpl in Hb. lia.
      - destruct prev as [y|]; [|by apply elem_of_nil in Hin]. apply list_elem_of_singleton in Hin as <-.
        specialize (Hp _ eq_refl). simpl in Hp. lia.
      - done.
      - destruct next as [y|]; [|by apply elem_of_nil in Hin]. apply list_elem_of_singleton in Hin as <-.
        specialize (Hn _ eq_refl). simpl in Hn. lia.
      - specialize (Ha _ Hin). simpl in Ha. lia. }
    destruct Hmi as (e & s & Hin & Hy). exists (Z.max a s), (Z.min b e). split; [|lia].
    apply list_elem_of_fmap. by exists (e, s).
Qed.

(** Inserting a range that may overlap gives the union, coalesced into
    non-empty, ascending ranges that neither overlap nor touch. *)
Theorem insert_range_union m r :
  rs_wf m ->
  exists m', insert_range m r = Ok m' /\ rs_wf m' /\ forall x, mem x m' <-> mem x m \/ r.1 <= x < r.2.
Proof.
  intros Hwf. destruct r as [a b]. unfold insert_range, insert_range_helper. cbn [fst snd].
  destruct (Z.leb_spec b a) as [Hba|Hab]; [exists m; split_and!; [done | done | intros x; split; [by left | intros [?|?]; [done | lia]]]|].
  destruct (get_coalescing_ranges_ok m a b Hwf Hab) as (before & prev & inter & next & after & -> & -> & H1 & H2 & H3 & H4 & H5).
  destruct (coalesce_ok a b before prev inter next after Hab Hwf H1 H2 H3 H4 H5) as (_ & Hw & Hm).
  eexists. split; [reflexivity|]. by split.
Qed.

Lemma total_app m n : total (m ++ n) = total m + total n.
Proof. unfold total. induction m as [|x m IH]; simpl; [done|]. rewrite IH. lia. Qed.

Lemma insert_disjoint_range_helper m r :
  rs_wf m ->
  match insert_disjoint_range m r with
  | Ok m' => rs_wf m' /\ (forall x, mem x m' <-> mem x m \/ r.1 <= x < r.2) /\
             (forall x, mem x m -> ~ (r.1 <= x < r.2)) /\ total m' = total m + Z.max 0 (r.2 - r.1)
  | Err l => l <> [] /\ forall x, (exists s e, (s, e) ∈ l /\ s <= x < e) <-> mem x m /\ r.1 <= x < r.2
  end.
Proof.
  intros Hwf. destruct r as [a b]. unfold insert_disjoint_range, insert_range_helper. cbn [fst snd].
  destruct (Z.leb_spec b a) as [Hba|Hab].
  { split_and!; [done | intros x; split; [by left | intros [?|?]; [done | lia]] | lia | lia]. }
  destruct (get_coalescing_ranges_ok m a b Hwf Hab) as (before & prev & inter & next & after & -> & -> & H1 & H2 & H3 & H4 & H5).
  destruct inter as [|y inter]; cbn [fmap list_fmap].
  - destruct (coalesce_ok a b before prev [] next after Hab Hwf H1 H2 H3 H4 H5) as (Heq & Hw & Hm).
    cbn [fmap list_fmap] in *. cbn [negb andb bool_decide]. rewrite bool_decide_true by done. cbn [negb andb].
    split_and!; [exact Hw | exact Hm | |].
    + intros x Hmx Hx.
      pose proof (proj2 (intersections_ok a b before prev [] next after x Hwf H1 H2 H3 H4 H5) (conj Hmx Hx)) as Hno.
      destruct Hno as (s & e & Hin & _). by apply elem_of_nil in Hin.
    + etransitivity; [exact (f_equal total Heq)|]. unfold coalesced_start, coalesced_end. cbn [head last].
      rewrite !total_app. destruct prev as [[pe ps]|], next as [[ne nsx]|]; simpl;
        try specialize (H2 _ eq_refl); try specialize (H4 _ eq_refl); simpl in *; lia.
  - rewrite bool_decide_false by done. cbn [negb andb]. split; [done|]. intros x.
    apply (intersections_ok a b before prev (y :: inter) next after x Hwf H1 H2 H3 H4 H5).
Qed.

(** Inserting a range that must not overlap either succeeds, gives the union
    and adds the length of the range to the size of the set, or fails with
    exactly the addresses the range shares with the set. *)
Theorem insert_disjoint_range_spec m r :
  rs_wf m ->
  match insert_disjoint_range m r with
  | Ok m' => rs_wf m' /\ (forall x, mem x m' <-> mem x m \/ r.1 <= x < r.2) /\
             (forall x, mem x m -> ~ (r.1 <= x < r.2)) /\ total m' = total m + Z.max 0 (r.2 - r.1)
  | Err l => l <> [] /\ forall x, (exists s e, (s, e) ∈ l /\ s <= x < e) <-> mem x m /\ r.1 <= x < r.2
  end.
Proof. apply insert_disjoint_range_helper. Qed.


(** ** Complement *)

(** The list [complement] builds from a position on. *)
Definition complement_from (max : Z) (items : btree) (start : Z) : btree :=
  let (st, found) := complement_loop max items start [] in
  found ++ (if st <? max then [(max, st)] else []).

(** New ranges are appended. *)
Lemma complement_loop_acc max items start acc :
  rs_wf items -> (forall x, x ∈ acc -> x.1 <= start) ->
  let (st, found) := complement_loop max items start [] in
  complement_loop max items start acc = (st, acc ++ found) /\ start <= st /\ (forall x, x ∈ found -> x.1 <= st).
Proof.
  revert start acc. induction items as [|[e s] items IH]; intros start acc Hwf Hacc; simpl.
  { rewrite app_nil_r. split_and!; [done | lia | by intros x ?%elem_of_nil]. }
  apply rs_wf_cons in Hwf as (Hse & Hwf & Hg). destruct (Z.ltb_spec start s) as [Hss|Hss].
  - destruct (Z.leb_spec max s); [rewrite app_nil_r; split_and!; [done | lia | by intros x ?%elem_of_nil]|].
    assert (Hi : bt_insert s start acc = acc ++ [(s, start)]).
    { rewrite <- (app_nil_r acc) at 1. apply bt_insert_middle; [intros x Hx; specialize (Hacc x Hx); lia |
        by intros x ?%elem_of_nil]. }
    rewrite Hi.
    pose proof (IH (Z.max start e) (acc ++ [(s, start)]) Hwf) as IH1.
    pose proof (IH (Z.max start e) [(s, start)] Hwf) as IH2.
    destruct (complement_loop max items (Z.max start e) []) as [st found].
    destruct IH1 as (-> & Hst & Hf).
    { intros x [Hx|Hx%list_elem_of_singleton]%elem_of_app; [specialize (Hacc x Hx); lia | subst x; simpl; lia]. }
    destruct IH2 as (-> & _); [intros x Hx%list_elem_of_singleton; subst x; simpl; lia|].
    split_and!; [by rewrite <- app_assoc | lia |].
    intros x [Hx|Hx]%elem_of_app; [apply list_elem_of_singleton in Hx; subst x; simpl; lia | by apply Hf].
  - pose proof (IH (Z.max start e) acc Hwf) as IH1.
    destruct (complement_loop max items (Z.max start e) []) as [st found].
    destruct IH1 as (-> & Hst & Hf); [intros x Hx; specialize (Hacc x Hx); lia|].
    split_and!; [done | lia | done].
Qed.

Lemma complement_from_cons max e s items start :
  rs_wf ((e, s) :: items) ->
  complement_from max ((e, s) :: items) start =
  if start <? s
  then if max <=? s then (if start <? max then [(max, start)] else [])
       else (s, start) :: complement_from max items (Z.max start e)
  else complement_from max items (Z.max start e).
Proof.
  intros (Hse & Hwf & Hg)%rs_wf_cons. unfold complement_from. simpl.
  destruct (Z.ltb_spec start s); [|done]. destruct (Z.leb_spec max s); [done|].
  pose proof (complement_loop_acc max items (Z.max start e) [(s, start)] Hwf) as Ha.
  destruct (complement_loop max items (Z.max start e) []) as [st found].
  destruct Ha as (-> & _); [intros x Hx%list_elem_of_singleton; subst x; simpl; lia | done].
Qed.

Lemma complement_is_from m min max : rs_wf m -> complement m min max = complement_from max m min.
Proof.
  intros Hwf. unfold complement, complement_from.
  pose proof (complement_loop_acc max m min [] Hwf) as Ha.
  destruct (complement_loop max m min []) as [st found]. destruct Ha as (_ & _ & Hf); [by intros x ?%elem_of_nil|].
  destruct (Z.ltb_spec st max); [|by rewrite app_nil_r]. rewrite <- (app_nil_r found) at 1.
  apply bt_insert_middle; [intros x Hx; specialize (Hf x Hx); lia | by intros x ?%elem_of_nil].
Qed.

(** The last range, from [start] to [max], if it is not empty. *)
Lemma complement_last_ok max start :
  let l := if start <? max then [(max, start)] else [] in
  rs_wf l /\ (forall y, y ∈ l -> start <= y.2) /\ (forall x, mem x l <-> start <= x < max) /\
  (start <= max -> total l = max - start).
Proof.
  cbv zeta. destruct (Z.ltb_spec start max).
  - split_and!.
    + apply rs_wf_cons. split_and!; [done | apply rs_wf_nil | by intros x ?%elem_of_nil].
    + intros y Hy%list_elem_of_singleton. subst y. simpl. lia.
    + intros x. rewrite mem_cons, mem_nil. lia.
    + simpl. lia.
  - split_and!; [apply rs_wf_nil | by intros x ?%elem_of_nil | intros x; rewrite mem_nil; lia | simpl; lia].
Qed.

Lemma mem_after m x : (forall y, y ∈ m -> x < y.2) -> ~ mem x m.
Proof. intros Hlt (e & s & Hin & Hx). specialize (Hlt _ Hin). simpl in Hlt. lia. Qed.

Lemma complement_from_ok max items start :
  rs_wf items ->
  let l := complement_from max items start in
  rs_wf l /\ (forall y, y ∈ l -> start <= y.2) /\
  (forall x, mem x l <-> start <= x < max /\ ~ mem x items) /\
  (start <= max -> (forall y, y ∈ items -> start <= y.2 /\ y.1 <= max) -> total l = max - start - total items).
Proof.
  cbv zeta. revert start. induction items as [|[e s] items IH]; intros start Hwf.
  { destruct (complement_last_ok max start) as (H1 & H2 & H3 & H4).
    unfold complement_from. simpl. split_and!; [done | done | |].
    - intros x. rewrite H3, mem_nil. tauto.
    - intros Hle _. rewrite (H4 Hle). lia. }
  rewrite complement_from_cons by done. pose proof Hwf as (Hse & Hwf' & Hg)%rs_wf_cons.
  destruct (IH (Z.max start e) Hwf') as (I1 & I2 & I3 & I4).
  destruct (Z.ltb_spec start s) as [Hss|Hss]; [destruct (Z.leb_spec max s) as [Hms|Hms]|].
  - destruct (complement_last_ok max start) as (H1 & H2 & H3 & H4). split_and!; [done | done | |].
    + intros x. rewrite H3, mem_cons. split; [|tauto]. intros Hx. split; [done|].
      intros [Hy|Hy]; [lia|]. revert Hy. apply mem_after. intros y Hy. specialize (Hg y Hy). lia.
    + intros Hle Hin. destruct (Hin (e, s)); [constructor|]. simpl in *. lia.
  - split_and!.
    + apply rs_wf_cons. split_and!; [done | done |]. intros y Hy. specialize (I2 y Hy). lia.
    + intros y [->|Hy]%elem_of_cons; [simpl; lia|]. specialize (I2 y Hy). lia.
    + intros x. rewrite !mem_cons, I3.
      assert (Hlow : x < s -> ~ mem x items).
      { intros Hxs. apply mem_after. intros y Hy. specialize (Hg y Hy). lia. }
      destruct (Z.lt_ge_cases x s), (Z.lt_ge_cases x e); intuition lia.
    + intros Hle Hin. destruct (Hin (e, s)) as [_ Hem]; [constructor|]. simpl in Hem. simpl.
      rewrite I4; [lia | lia |]. intros y Hy. split; [specialize (Hg y Hy); lia|]. apply Hin. by constructor.
  - split_and!; [done | intros y Hy; specialize (I2 y Hy); lia | |].
    + intros x. rewrite mem_cons, I3. destruct (Z.lt_ge_cases x e); intuition lia.
    + intros Hle Hin. destruct (Hin (e, s)) as [Hs Hem]; [constructor|]. simpl in Hs, Hem. simpl.
      rewrite I4; [lia | lia |]. intros y Hy. split; [specialize (Hg y Hy); lia|]. apply Hin. by constructor.
Qed.

(** The complement within bounds is again a set of separate ascending ranges,
    and holds exactly the points between the bounds that are not in the set. *)
Theorem complement_spec m min max :
  rs_wf m ->
  rs_wf (complement m min max) /\
  forall x, mem x (complement m min max) <-> min <= x < max /\ ~ mem x m.
Proof.
  intros Hwf. rewrite complement_is_from by done.
  destruct (complement_from_ok max m min Hwf) as (H1 & _ & H3 & _). done.
Qed.

(** ** The areas of the checker *)

Record areas_wf (a : LinearAddressRangeSet) : Prop := mkAreasWf {
  areas_ranges : rs_wf (range_set a);
  areas_bounds y : y ∈ range_set a -> NODE_STORE_START_ADDR <= y.2 /\ y.1 <= max_addr a;
  areas_max : NODE_STORE_START_ADDR <= max_addr a <= U64_MAX;
  areas_bytes : bytes_in_set a = total (range_set a);
}.

Lemma total_nonneg m : rs_wf m -> 0 <= total m.
Proof.
  intros [_ Hn]. induction Hn as [|[e s] m Hx _ IH]; simpl in *; lia.
Qed.

(** The areas fit between the header and the end of the store. *)
Lemma areas_total a : areas_wf a -> total (range_set a) <= max_addr a - NODE_STORE_START_ADDR.
Proof.
  intros [Hwf Hb [Hm _] _].
  destruct (complement_from_ok (max_addr a) (range_set a) NODE_STORE_START_ADDR Hwf) as (Hw & _ & _ & Ht).
  specialize (Ht Hm Hb). apply total_nonneg in Hw. lia.
Qed.

(** A point of a range set lies in one of its ranges, so bounds on points and on
    ranges agree. *)
Lemma mem_bounds m lo hi :
  rs_wf m -> (forall x, mem x m -> lo <= x < hi) -> forall y, y ∈ m -> lo <= y.2 /\ y.1 <= hi.
Proof.
  intros Hwf Hm [e s] Hy. pose proof (rs_wf_elem _ _ Hwf Hy) as Hse. simpl in *.
  assert (Hin : forall x, s <= x < e -> mem x m) by (intros x Hx; by exists e, s).
  pose proof (Hm s (Hin s ltac:(lia))). pose proof (Hm (e - 1) (Hin (e - 1) ltac:(lia))). lia.
Qed.

Lemma bounds_mem m lo hi x : (forall y, y ∈ m -> lo <= y.2 /\ y.1 <= hi) -> mem x m -> lo <= x < hi.
Proof. intros Hb (e & s & Hin & Hx). destruct (Hb _ Hin). simpl in *. lia. Qed.

(** Recording an area succeeds exactly when it lies between the header and
    the end of the store and meets no recorded area; then its bytes are added
    and counted.  Otherwise the error says which, with exactly the shared
    addresses, and the byte counter never overflows. *)
Theorem insert_area_spec a addr size parent :
  areas_wf a -> LinearAddress_wf addr -> u64 size ->
  match insert_area a addr size parent with
  | Ok a' => areas_wf a' /\ NODE_STORE_START_ADDR <= addr /\ addr + size <= max_addr a /\
      (forall x, mem x (range_set a') <-> mem x (range_set a) \/ addr <= x < addr + size) /\
      (forall x, mem x (range_set a) -> ~ addr <= x < addr + size) /\
      bytes_in_set a' = bytes_in_set a + size
  | Err (AreaOutOfBounds _ _ _ _) => addr < NODE_STORE_START_ADDR \/ max_addr a < addr + size
  | Err (AreaIntersects _ _ l _) => l <> [] /\ forall x,
      (exists s e, (s, e) ∈ l /\ s <= x < e) <-> mem x (range_set a) /\ addr <= x < addr + size
  | Err _ => False
  end.
Proof.
  intros Ha Haddr Hsize. pose proof Ha as [Hwf Hb Hmax Hbytes].
  unfold LinearAddress_wf in Haddr. unfold insert_area, advance.
  destruct (checked_add_u64 addr size) as [end_|] eqn:Hadv; cbn [ok_or mbind result_bind].
  2: { unfold checked_add_u64 in Hadv. destruct (Z.leb_spec (addr + size) U64_MAX); [done|]. right. ulia. }
  apply checked_add_u64_Some in Hadv as [Hover ->].
  destruct (Z.ltb_spec addr NODE_STORE_START_ADDR); [by left|].
  destruct (Z.ltb_spec (max_addr a) (addr + size)); [by right|]. cbn [orb].
  pose proof (insert_disjoint_range_helper (range_set a) (addr, addr + size) Hwf) as Hins.
  destruct (insert_disjoint_range (range_set a) (addr, addr + size)) as [m'|l]; cbn [fst snd] in Hins; [|done].
  destruct Hins as (Hwf' & Hmem & Hdis & Htot).
  assert (Ha' : areas_wf (mkRangeSet m' (max_addr a) (bytes_in_set a + size))).
  { split; simpl; [done | | done | rewrite Htot; ulia]. apply mem_bounds; [done|]. intros x [Hx|Hx]%Hmem; [|lia].
    by apply (bounds_mem (range_set a)). }
  pose proof (areas_total _ Ha') as Ht. simpl in Ht. rewrite Htot in Ht.
  assert (Hno : bytes_in_set a + size <= U64_MAX) by (unfold NODE_STORE_START_ADDR, HEADER_SIZE in *; ulia).
  rewrite (proj2 (checked_add_u64_Some (bytes_in_set a) size _) (conj Hno eq_refl)).
  cbn [ok_or mbind result_bind]. split_and!; done.
Qed.

(** The complement of the recorded areas is the set of leaked addresses:
    computing it never panics, it holds exactly the addresses of the store that
    belong to no area, and the two byte counts add up to the size of the store. *)
Theorem area_complement_spec a :
  areas_wf a ->
  exists c, area_complement a = Ok c /\ areas_wf c /\
    (forall x, mem x (range_set c) <-> NODE_STORE_START_ADDR <= x < max_addr a /\ ~ mem x (range_set a)) /\
    bytes_in_set a + bytes_in_set c = max_addr a - NODE_STORE_START_ADDR.
Proof.
  intros Ha. pose proof (areas_total a Ha) as Ht. pose proof Ha as [Hwf Hb Hmax Hbytes].
  unfold area_complement, distance_from.
  rewrite (proj2 (checked_sub_u64_Some (max_addr a) NODE_STORE_START_ADDR _) (conj (proj1 Hmax) eq_refl)).
  cbn [ok_or mbind result_bind].
  assert (Hle : bytes_in_set a <= max_addr a - NODE_STORE_START_ADDR) by lia.
  rewrite (proj2 (checked_sub_u64_Some (max_addr a - NODE_STORE_START_ADDR) (bytes_in_set a) _) (conj Hle eq_refl)).
  cbn [ok_or mbind result_bind]. rewrite complement_is_from by done.
  destruct (complement_from_ok (max_addr a) (range_set a) NODE_STORE_START_ADDR Hwf) as (H1 & _ & H3 & H4).
  eexists. split; [done|]. split; [|split; [exact H3 | simpl; lia]].
  split; simpl; [done | | done |].
  - apply mem_bounds; [done|]. intros x [Hx _]%H3. done.
  - rewrite H4 by (done || lia). lia.
Qed.

Lemma insert_range_union_witness :
  exists m', insert_range [(10, 0); (30, 20)] (5, 25) = Ok m' /\ rs_wf m' /\
    forall x, mem x m' <-> mem x [(10, 0); (30, 20)] \/ 5 <= x < 25.
Proof.
  apply (insert_range_union [(10, 0); (30, 20)] (5, 25)).
  repeat (constructor; simpl; try (unfold gap; simpl; lia)).
Defined.

Lemma insert_disjoint_range_spec_witness :
  insert_disjoint_range [(10, 0); (30, 20)] (5, 25) = Err [(5, 10); (20, 25)] /\
  forall x, (exists s e, (s, e) ∈ [(5, 10); (20, 25)] /\ s <= x < e) <->
    mem x [(10, 0); (30, 20)] /\ 5 <= x < 25.
Proof.
  split; [reflexivity|].
  refine (proj2 (insert_disjoint_range_spec [(10, 0); (30, 20)] (5, 25) _)).
  repeat (constructor; simpl; try (unfold gap; simpl; lia)).
Defined.

Lemma complement_spec_witness :
  complement [(10, 0); (30, 20)] 5 25 = [(20, 10)] /\
  forall x, mem x (complement [(10, 0); (30, 20)] 5 25) <-> 5 <= x < 25 /\ ~ mem x [(10, 0); (30, 20)].
Proof.
  split; [reflexivity|].
  refine (proj2 (complement_spec [(10, 0); (30, 20)] 5 25 _)).
  repeat (constructor; simpl; try (unfold gap; simpl; lia)).
Defined.

Definition w_areas : LinearAddressRangeSet := mkRangeSet [(2064, 2048)] 4096 16.

Lemma w_areas_wf : areas_wf w_areas.
Proof.
  split; simpl.
  - repeat (constructor; simpl; try lia).
  - intros y Hy%list_elem_of_singleton. subst y. unfold NODE_STORE_START_ADDR, HEADER_SIZE. simpl. lia.
  - unfold NODE_STORE_START_ADDR, HEADER_SIZE. ulia.
  - reflexivity.
Qed.

Lemma insert_area_spec_witness :
  insert_area w_areas 2064 32 (TrieNode Root) = Ok (mkRangeSet [(2096, 2048)] 4096 48) /\
  areas_wf (mkRangeSet [(2096, 2048)] 4096 48).
Proof.
  split; [vm_compute; reflexivity|].
  exact (proj1 (insert_area_spec w_areas 2064 32 (TrieNode Root) w_areas_wf
    ltac:(unfold LinearAddress_wf; ulia) ltac:(ulia))).
Defined.

Lemma area_complement_spec_witness :
  exists c, area_complement w_areas = Ok c /\ areas_wf c /\
    (forall x, mem x (range_set c) <-> NODE_STORE_START_ADDR <= x < 4096 /\ ~ mem x (range_set w_areas)) /\
    16 + bytes_in_set c = 2048.
Proof. exact (area_complement_spec w_areas w_areas_wf). Defined.
