(* ===== verification/ChildMask.v ===== *)
(** * The child bitmap of proofs

    [firewood/src/merkle/childmask.rs]: a 16-bit mask of the children of a branch,
    used on the wire and to tell which children lie outside a proven range. *)

From S2P Require Import Prelude Codec NodePath Node.

(** ** Operations *)

Abbreviation ChildMask := Z.
Definition ChildMask_wf (m : ChildMask) : Prop := 0 <= m <= U16_MAX.

(** [u16::wrapping_shl] and [u16::wrapping_sub]. *)
Definition wrapping_shl_u16 (x n : Z) : Z := Z.land (Z.shiftl x (n mod 16)) U16_MAX.
Definition wrapping_sub_u16 (a b : Z) : Z := (a - b) mod (U16_MAX + 1).

Definition ChildMask_ALL : ChildMask := U16_MAX.

Definition set_below (m : ChildMask) (nibble : PathComponent) : ChildMask :=
  Z.lor m (wrapping_sub_u16 (wrapping_shl_u16 1 nibble) 1).

Definition set_above (m : ChildMask) (nibble : PathComponent) : ChildMask :=
  Z.lor m (wrapping_shl_u16 (wrapping_shl_u16 U16_MAX nibble) 1).

Definition is_set (m : ChildMask) (nibble : PathComponent) : bool :=
  negb (Z.land m (wrapping_shl_u16 1 nibble) =? 0).

Definition mask_set (m : ChildMask) (nibble : PathComponent) : ChildMask :=
  Z.lor m (wrapping_shl_u16 1 nibble).

Definition iter_indices (m : ChildMask) : list PathComponent :=
  filter (fun i => is_set m i = true) PathComponent_ALL.

Definition mask_to_le_bytes (m : ChildMask) : bytes := to_le_bytes 2 m.
Definition mask_from_le_bytes (bs : bytes) : ChildMask := from_le_bytes bs.

Definition mask_bitor (a b : ChildMask) : ChildMask := Z.lor a b.

(** ** Facts *)

Lemma all_pairs (P : Z -> Z -> bool) :
  forallb (fun n => forallb (P n) (seqZ 0 16)) (seqZ 0 16) = true ->
  forall n i, 0 <= n < 16 -> 0 <= i < 16 -> P n i = true.
Proof. intros H n i Hn Hi. apply (forallb_range (P n) 16); [|done]. by apply (forallb_range _ 16 H). Qed.

Lemma shl_one_bits n i : 0 <= n < 16 -> 0 <= i -> Z.testbit (wrapping_shl_u16 1 n) i = (i =? n).
Proof.
  intros Hn Hi. unfold wrapping_shl_u16, U16_MAX. rewrite Z.mod_small by lia.
  change 65535 with (Z.ones 16). rewrite Z.land_spec, Z.shiftl_spec, Z.testbit_ones_nonneg by lia.
  destruct (Z.eqb_spec i n) as [->|Hne].
  - rewrite Z.sub_diag. destruct (Z.ltb_spec n 16); [done | lia].
  - destruct (Z.ltb_spec i n); [by rewrite Z.testbit_neg_r by lia|].
    replace 1 with (2 ^ 0) by done. by rewrite Z.pow2_bits_false by lia.
Qed.

Lemma is_set_testbit m n : 0 <= n < 16 -> is_set m n = Z.testbit m n.
Proof.
  intros Hn. unfold is_set. destruct (Z.testbit m n) eqn:Hb.
  - apply negb_true_iff, Z.eqb_neq. intros H0.
    assert (Hz : Z.testbit (Z.land m (wrapping_shl_u16 1 n)) n = false) by (by rewrite H0, Z.testbit_0_l).
    rewrite Z.land_spec, Hb, shl_one_bits, Z.eqb_refl in Hz by lia. done.
  - apply negb_false_iff, Z.eqb_eq, Z.bits_inj'. intros i Hi.
    rewrite Z.land_spec, shl_one_bits, Z.testbit_0_l by lia.
    destruct (Z.eqb_spec i n) as [->|]; [by rewrite Hb | by rewrite andb_false_r].
Qed.

Lemma below_bits n i :
  0 <= n < 16 -> 0 <= i < 16 -> Z.testbit (wrapping_sub_u16 (wrapping_shl_u16 1 n) 1) i = (i <? n).
Proof.
  intros Hn Hi. apply eqb_prop. revert n i Hn Hi.
  apply (all_pairs (fun n i => Bool.eqb (Z.testbit (wrapping_sub_u16 (wrapping_shl_u16 1 n) 1) i) (i <? n))).
  vm_compute. reflexivity.
Qed.

Lemma above_bits n i :
  0 <= n < 16 -> 0 <= i < 16 ->
  Z.testbit (wrapping_shl_u16 (wrapping_shl_u16 U16_MAX n) 1) i = (n <? i).
Proof.
  intros Hn Hi. apply eqb_prop. revert n i Hn Hi.
  apply (all_pairs (fun n i => Bool.eqb (Z.testbit (wrapping_shl_u16 (wrapping_shl_u16 U16_MAX n) 1) i) (n <? i))).
  vm_compute. reflexivity.
Qed.

(** The wire form of a mask reads back. *)
Lemma child_mask_wire_roundtrip (m : ChildMask) :
  ChildMask_wf m ->
  length (mask_to_le_bytes m) = 2%nat /\ is_bytes (mask_to_le_bytes m) /\
  mask_from_le_bytes (mask_to_le_bytes m) = m.
Proof.
  unfold ChildMask_wf, U16_MAX. intros Hm. split_and!; [apply length_to_le_bytes | apply is_bytes_to_le_bytes|].
  apply from_to_le_bytes. change (256 ^ Z.of_nat 2) with 65536. lia.
Qed.

(** ** Properties *)

(** The mask is a set of child indices.  Each operation adds exactly the
    indices it names: those strictly below, strictly above, or equal to its
    nibble, or those of the other mask; and the iteration gives its members. *)
Theorem child_mask_is_a_set (m m' : ChildMask) (n i : PathComponent) :
  is_nibble n -> is_nibble i ->
  is_set (set_below m n) i = is_set m i || (i <? n) /\
  is_set (set_above m n) i = is_set m i || (n <? i) /\
  is_set (mask_set m n) i = is_set m i || (i =? n) /\
  is_set (mask_bitor m m') i = is_set m i || is_set m' i /\
  is_set ChildMask_ALL i = true /\
  (i ∈ iter_indices m <-> is_set m i = true).
Proof.
  unfold is_nibble. intros Hn Hi. rewrite !is_set_testbit by lia.
  unfold set_below, set_above, mask_set, mask_bitor. rewrite !Z.lor_spec.
  rewrite below_bits, above_bits, shl_one_bits by lia. split_and!; try done.
  - unfold ChildMask_ALL, U16_MAX. change 65535 with (Z.ones 16). rewrite Z.testbit_ones_nonneg by lia.
    apply Z.ltb_lt. lia.
  - unfold iter_indices. rewrite list_elem_of_filter, is_set_testbit by lia.
    split; [by intros [? _]|]. intros Hb. split; [done|].
    unfold PathComponent_ALL. apply list_elem_of_In. simpl. lia.
Qed.

(** Witness: the nibble 5 in a mask that has child 2. *)
Lemma child_mask_is_a_set_witness :
  is_set (set_below 4 5) 3 = true /\ is_set (set_above 4 5) 3 = false /\ iter_indices (set_above 4 5) = [2; 6; 7; 8; 9; 10; 11; 12; 13; 14; 15].
Proof.
  destruct (child_mask_is_a_set 4 0 5 3) as (Hb & Ha & _); [split; reflexivity || lia | split; reflexivity || lia |].
  rewrite Hb, Ha. split_and!; vm_compute; reflexivity.
Defined.
