(* ===== verification/Rlp.v ===== *)
(** * Recursive length prefix

    [storage/src/rlp.rs]: the encoder of flat lists, the decoder of lists of byte
    strings, and the replacement of one field of an encoded list. *)

From S2P Require Import Prelude Codec.

(** ** Data *)

Inductive RlpError : Type :=
| Truncated
| Overflow
| ExpectedBytes
| ExpectedList
| IndexOutOfRange (i : Z)
| TrailingBytes
| NonMinimalLength
| TooLong (actual max : Z)
| WrongLength (actual expected : Z).

Inductive RlpItem : Type :=
| RlpBytes (b : bytes)
| RlpRaw (r : bytes)
| RlpEmpty.

Inductive ItemKind : Type := KindBytes | KindList.

#[export] Instance ItemKind_eq_dec : EqDecision ItemKind.
Proof. solve_decision. Defined.

Record ItemHeader : Type := mkItemHeader {
  kind : ItemKind;
  h_header_len : Z;
  h_payload_len : Z;
}.

(** The length of a slice, a [usize]. *)
Abbreviation len bs := (Z.of_nat (length bs)).

(** [slice.get(a..b)]. *)
Definition slice_get (bs : bytes) (a b : Z) : option bytes :=
  if (a <=? b) && (b <=? len bs) then Some (take (Z.to_nat (b - a)) (drop (Z.to_nat a) bs)) else None.

(** [usize::to_be_bytes]. *)
Definition to_be_bytes (n : nat) (x : Z) : bytes := rev (to_le_bytes n x).

(** ** Encoding *)

(** [usize::leading_zeros] of a non-zero number. *)
Definition leading_zeros (n : Z) : Z := 63 - Z.log2 n.

Definition minimal_be_len (n : Z) : Z :=
  if n =? 0 then 0
  else let nonzero_bits := 64 - leading_zeros n in (nonzero_bits + 7) / 8.

Definition header_len (payload_len : Z) : Z :=
  if payload_len <? 56 then 1 else wrapping_add_u64 1 (minimal_be_len payload_len).

(** [write_header]: the bytes it appends. *)
Definition write_header (payload_len short_base : Z) : bytes :=
  if payload_len <? 56 then [(short_base + payload_len mod 256) mod 256]
  else
    let bs := to_be_bytes 8 payload_len in
    let start := wrapping_sub_u64 8 (minimal_be_len payload_len) in
    let len_bytes := default [] (slice_get bs start (len bs)) in
    ((short_base + 55) mod 256 + len len_bytes mod 256) mod 256 :: len_bytes.

Definition is_single_byte (b : bytes) : bool :=
  match b with [v] => v <? 0x80 | _ => false end.

Definition bytes_encoded_len (b : bytes) : Z :=
  if is_single_byte b then 1 else wrapping_add_u64 (header_len (len b)) (len b).

Definition write_bytes (b : bytes) : bytes :=
  if is_single_byte b then b else write_header (len b) 0x80 ++ b.

Definition encoded_len (it : RlpItem) : Z :=
  match it with
  | RlpBytes b => bytes_encoded_len b
  | RlpRaw r => len r
  | RlpEmpty => 1
  end.

Definition write_into (it : RlpItem) : bytes :=
  match it with
  | RlpBytes b => write_bytes b
  | RlpRaw r => r
  | RlpEmpty => [0x80]
  end.

(** [encode_list]; the sum of the lengths is a [usize]. *)
Definition encode_list (items : list RlpItem) : bytes :=
  let payload_len := foldl (fun acc it => wrapping_add_u64 acc (encoded_len it)) 0 items in
  write_header payload_len 0xc0 ++ concat (map write_into items).

(** ** Decoding *)

Definition total_len (h : ItemHeader) : result RlpError Z :=
  ok_or (checked_add_u64 (h_header_len h) (h_payload_len h)) Overflow.

(** [read_be_usize]: [acc << 8] drops the bits above the 64th. *)
Definition read_be_usize (bs : bytes) : Z :=
  foldl (fun acc b => Z.lor (Z.shiftl acc 8 mod (U64_MAX + 1)) b) 0 bs.

Definition parse_long_header (input : bytes) (len_of_len : Z) (k : ItemKind) : result RlpError ItemHeader :=
  if 8 <? len_of_len then Err Overflow
  else
    let hl := wrapping_add_u64 1 len_of_len in
    len_bytes ← ok_or (slice_get input 1 hl) Truncated;
    if bool_decide (head len_bytes = Some 0) then Err NonMinimalLength
    else
      let payload_len := read_be_usize len_bytes in
      if payload_len <? 56 then Err NonMinimalLength else mret (mkItemHeader k hl payload_len).

Definition parse_header (input : bytes) : result RlpError ItemHeader :=
  first ← ok_or (head input) Truncated;
  if first <=? 0x7f then mret (mkItemHeader KindBytes 0 1)
  else if first <=? 0xb7 then
    let payload_len := wrapping_sub_u8 first 0x80 in
    if (payload_len =? 1) && match input !! 1%nat with Some b => b <? 0x80 | None => false end
    then Err NonMinimalLength
    else mret (mkItemHeader KindBytes 1 payload_len)
  else if first <=? 0xbf then parse_long_header input (wrapping_sub_u8 first 0xb7) KindBytes
  else if first <=? 0xf7 then mret (mkItemHeader KindList 1 (wrapping_sub_u8 first 0xc0))
  else parse_long_header input (wrapping_sub_u8 first 0xf7) KindList.

(** The payload of the single list item that makes up the input. *)
Definition RlpList_parse (input : bytes) : result RlpError bytes :=
  header ← parse_header input;
  if bool_decide (kind header <> KindList) then Err ExpectedList
  else
    total ← total_len header;
    if len input <? total then Err Truncated
    else if total <? len input then Err TrailingBytes
    else ok_or (slice_get input (h_header_len header) total) Truncated.

Definition next_field (payload : bytes) : result RlpError (bytes * bytes) :=
  header ← parse_header payload;
  total ← total_len header;
  item ← ok_or (slice_get payload 0 total) Truncated;
  let after := default [] (slice_get payload total (len payload)) in
  if bool_decide (kind header <> KindBytes) then Err ExpectedBytes
  else
    field ← ok_or (slice_get item (h_header_len header) (len item)) Truncated;
    mret (field, after).

(** The loop of [fields]; every field takes at least one byte of the payload, so
    the payload's length bounds it. *)
Fixpoint fields_loop (fuel : nat) (rest : bytes) : result RlpError (list bytes) :=
  match rest with
  | [] => mret []
  | _ =>
      match fuel with
      | O => Err Truncated
      | S fuel =>
          '(field, after) ← next_field rest;
          out ← fields_loop fuel after;
          mret (field :: out)
      end
  end.

Definition fields (payload : bytes) : result RlpError (list bytes) := fields_loop (length payload) payload.

Fixpoint nth_loop (n : nat) (i : Z) (rest : bytes) : result RlpError bytes :=
  match rest with
  | [] => Err (IndexOutOfRange i)
  | _ =>
      '(field, after) ← next_field rest;
      match n with
      | O => mret field
      | S n => nth_loop n i after
      end
  end.

Definition nth_bytes (payload : bytes) (i : nat) : result RlpError bytes := nth_loop i (Z.of_nat i) payload.

(** The loop of [replace_list_field]: the bounds of the item to replace. *)
Fixpoint find_item (fuel : nat) (payload : bytes) (field_index offset idx : Z) : result RlpError (Z * Z) :=
  match fuel with
  | O => Err Truncated
  | S fuel =>
      rest ← ok_or (slice_get payload offset (len payload)) Truncated;
      if bool_decide (rest = []) then Err (IndexOutOfRange field_index)
      else
        item ← parse_header rest;
        item_total ← total_len item;
        if len rest <? item_total then Err Truncated
        else
          let next := wrapping_add_u64 offset item_total in
          if idx =? field_index then
            if bool_decide (kind item <> KindBytes) then Err ExpectedBytes else mret (offset, next)
          else
            idx ← ok_or (checked_add_u64 idx 1) Overflow;
            find_item fuel payload field_index next idx
  end.

Definition replace_list_field (input : bytes) (field_index : Z) (replacement : bytes)
  : result RlpError bytes :=
  outer ← parse_header input;
  if bool_decide (kind outer <> KindList) then Err ExpectedList
  else
    total ← total_len outer;
    if len input <? total then Err Truncated
    else if total <? len input then Err TrailingBytes
    else
      payload ← ok_or (slice_get input (h_header_len outer) total) Truncated;
      '(item_start, item_end) ← find_item (S (length payload)) payload field_index 0 0;
      let old_field_encoded_len := wrapping_sub_u64 item_end item_start in
      let new_field_encoded_len := bytes_encoded_len replacement in
      let new_payload_len :=
        wrapping_add_u64 (wrapping_sub_u64 (len payload) old_field_encoded_len) new_field_encoded_len in
      prefix ← ok_or (slice_get payload 0 item_start) Truncated;
      suffix ← ok_or (slice_get payload item_end (len payload)) Truncated;
      mret (write_header new_payload_len 0xc0 ++ prefix ++ write_bytes replacement ++ suffix).

(** [parse_be_uint]: right-aligned, padded with zeros. *)
Definition parse_be_uint (n : nat) (bs : bytes) : result RlpError bytes :=
  if Z.of_nat n <? len bs then Err (TooLong (len bs) (Z.of_nat n))
  else Ok (replicate (n - length bs) 0 ++ bs).

Definition parse_fixed (n : nat) (bs : bytes) : result RlpError bytes :=
  if decide (length bs = n) then Ok bs else Err (WrongLength (len bs) (Z.of_nat n)).

(** ** Lengths in bytes *)

Lemma minimal_be_len_spec n :
  0 < n <= U64_MAX ->
  1 <= minimal_be_len n <= 8 /\ 256 ^ (minimal_be_len n - 1) <= n < 256 ^ minimal_be_len n.
Proof.
  intros Hn. unfold minimal_be_len, leading_zeros. destruct (Z.eqb_spec n 0); [lia|].
  pose proof (Z.log2_spec n ltac:(lia)) as [Hlo Hhi]. pose proof (Z.log2_nonneg n).
  assert (Z.log2 n <= 63).
  { assert (Z.log2 n < 64); [|lia]. apply Z.log2_lt_pow2; [lia|]. change (2 ^ 64) with 18446744073709551616. ulia. }
  set (l := Z.log2 n) in *. change 256 with (2 ^ 8). rewrite <- !Z.pow_mul_r by dlia.
  assert (8 * ((64 - (63 - l) + 7) / 8 - 1) <= l < 8 * ((64 - (63 - l) + 7) / 8)) by dlia.
  split; [dlia|]. split.
  - etransitivity; [|exact Hlo]. apply Z.pow_le_mono_r; lia.
  - eapply Z.lt_le_trans; [exact Hhi|]. apply Z.pow_le_mono_r; lia.
Qed.

(** The number of bytes is determined by the range. *)
Lemma pow256_unique a b n :
  0 <= a -> 0 <= b -> 256 ^ (a - 1) <= n < 256 ^ a -> 256 ^ (b - 1) <= n < 256 ^ b -> 1 <= a -> 1 <= b -> a = b.
Proof.
  intros Ha Hb [H1 H2] [H3 H4] Ha1 Hb1. destruct (Z.lt_trichotomy a b) as [Hlt|[->|Hlt]]; [|done|].
  - assert (256 ^ a <= 256 ^ (b - 1)) by (apply Z.pow_le_mono_r; lia). lia.
  - assert (256 ^ b <= 256 ^ (a - 1)) by (apply Z.pow_le_mono_r; lia). lia.
Qed.

Lemma take_to_le_bytes k m x : (k <= m)%nat -> take k (to_le_bytes m x) = to_le_bytes k x.
Proof.
  revert m x. induction k as [|k IH]; intros [|m] x Hk; simpl; [done.. | lia |]. by rewrite IH by lia.
Qed.

Lemma slice_get_all bs : slice_get bs 0 (len bs) = Some bs.
Proof.
  unfold slice_get. destruct (Z.leb_spec 0 (len bs)), (Z.leb_spec (len bs) (len bs)); try lia. simpl.
  rewrite Z.sub_0_r, Nat2Z.id. by rewrite firstn_all.
Qed.

(** A slice of a concatenation. *)
Lemma slice_get_app (p m s : bytes) a b :
  a = len p -> b = len p + len m -> slice_get (p ++ m ++ s) a b = Some m.
Proof.
  intros -> ->. unfold slice_get. rewrite !length_app, !Nat2Z.inj_add.
  destruct (Z.leb_spec (len p) (len p + len m)), (Z.leb_spec (len p + len m) (len p + (len m + len s))); try lia.
  simpl. rewrite Nat2Z.id, drop_app_length. replace (Z.to_nat _) with (length m) by lia.
  by rewrite take_app_length.
Qed.

Lemma slice_get_Some bs a b s :
  0 <= a -> slice_get bs a b = Some s ->
  a <= b <= len bs /\ len s = b - a /\ bs = take (Z.to_nat a) bs ++ s ++ drop (Z.to_nat b) bs.
Proof.
  unfold slice_get. intros Ha. destruct (Z.leb_spec a b); [|done]. destruct (Z.leb_spec b (len bs)); [|done].
  simpl. intros [= <-]. split; [lia|]. rewrite length_take, length_drop. split; [lia|].
  rewrite <- (take_drop (Z.to_nat a) bs) at 1. f_equal.
  rewrite <- (take_drop (Z.to_nat (b - a)) (drop (Z.to_nat a) bs)) at 1. f_equal.
  rewrite drop_drop. f_equal. lia.
Qed.

(** The length bytes of a long header. *)
Lemma length_bytes n :
  0 < n <= U64_MAX ->
  slice_get (to_be_bytes 8 n) (wrapping_sub_u64 8 (minimal_be_len n)) 8 =
    Some (rev (to_le_bytes (Z.to_nat (minimal_be_len n)) n)).
Proof.
  intros Hn. destruct (minimal_be_len_spec n Hn) as [Hk _]. set (k := minimal_be_len n) in *.
  unfold wrapping_sub_u64. rewrite Z.mod_small by ulia. unfold slice_get, to_be_bytes.
  rewrite length_rev, length_to_le_bytes. destruct (Z.leb_spec (8 - k) 8); [|lia]. cbn [andb].
  change (8 <=? Z.of_nat 8) with true. cbn iota. f_equal. rewrite skipn_rev, length_to_le_bytes. rewrite firstn_all2 by (rewrite length_rev, length_take, length_to_le_bytes; lia).
  rewrite take_to_le_bytes by lia. do 2 f_equal. lia.
Qed.

Lemma write_header_short n base : 0 <= n < 56 -> 0 <= base < 200 -> write_header n base = [base + n].
Proof.
  intros Hn Hb. unfold write_header. destruct (Z.ltb_spec n 56); [|lia].
  by rewrite (Z.mod_small n), Z.mod_small by lia.
Qed.

Lemma write_header_long n base :
  56 <= n <= U64_MAX -> 0 <= base < 193 ->
  write_header n base =
    base + 55 + minimal_be_len n :: rev (to_le_bytes (Z.to_nat (minimal_be_len n)) n).
Proof.
  intros Hn Hb. destruct (minimal_be_len_spec n ltac:(lia)) as [Hk _]. unfold write_header.
  destruct (Z.ltb_spec n 56); [lia|].
  assert (Hl : len (to_be_bytes 8 n) = 8) by (unfold to_be_bytes; rewrite length_rev, length_to_le_bytes; done).
  rewrite Hl, length_bytes by lia. simpl default. rewrite length_rev, length_to_le_bytes.
  f_equal. rewrite Z2Nat.id by lia. rewrite (Z.mod_small (base + 55)), (Z.mod_small (minimal_be_len n)), Z.mod_small by lia. lia.
Qed.

Lemma length_write_header n base : 0 <= n <= U64_MAX -> 0 <= base < 193 -> len (write_header n base) = header_len n.
Proof.
  intros Hn Hb. unfold header_len. destruct (Z.ltb_spec n 56).
  - by rewrite write_header_short by lia.
  - destruct (minimal_be_len_spec n ltac:(lia)) as [Hk _].
    rewrite write_header_long by lia. simpl length. rewrite length_rev, length_to_le_bytes.
    unfold wrapping_add_u64. rewrite Z.mod_small by ulia. lia.
Qed.

Lemma header_len_range n : 0 <= n <= U64_MAX -> 1 <= header_len n <= 9.
Proof.
  intros Hn. unfold header_len. destruct (Z.ltb_spec n 56); [lia|].
  destruct (minimal_be_len_spec n ltac:(lia)) as [Hk _]. unfold wrapping_add_u64. rewrite Z.mod_small by ulia. lia.
Qed.

(** ** Big-endian numbers *)

Lemma lor_byte x b : 0 <= x < 2 ^ 56 -> u8 b -> Z.lor (Z.shiftl x 8 mod (U64_MAX + 1)) b = b + 256 * x.
Proof.
  intros Hx Hb. rewrite Z.shiftl_mul_pow2 by lia. change (2 ^ 8) with 256. change (2 ^ 56) with 72057594037927936 in Hx.
  rewrite Z.mod_small by ulia.
  assert (Hd : Z.land (x * 256) b = 0).
  { apply Z.bits_inj'. intros i Hi. rewrite Z.land_spec, Z.testbit_0_l. change 256 with (2 ^ 8).
    rewrite Z.mul_pow2_bits by lia. destruct (Z.ltb_spec i 8); [by rewrite Z.testbit_neg_r by lia|].
    assert (Hb8 : b mod 2 ^ 8 = b) by (apply Z.mod_small; change (2 ^ 8) with 256; ulia).
    rewrite <- Hb8, Z.mod_pow2_bits_high by lia. by rewrite andb_false_r. }
  pose proof (Z.add_lor_land (x * 256) b) as Ha. lia.
Qed.

Lemma read_be_usize_spec bs : is_bytes bs -> (length bs <= 8)%nat -> read_be_usize bs = from_le_bytes (rev bs).
Proof.
  intros Hb. induction bs as [|b bs IH] using rev_ind; intros Hl; [done|].
  apply Forall_app in Hb as [Hbs Hb]. apply Forall_inv in Hb. rewrite length_app in Hl. simpl in Hl.
  unfold read_be_usize. rewrite foldl_app. simpl foldl. fold (read_be_usize bs). rewrite IH by (done || lia).
  rewrite rev_app_distr. simpl. apply lor_byte; [|done].
  pose proof (from_le_bytes_bound (rev bs)) as Hf.
  rewrite length_rev in Hf. destruct Hf as [H0 H1]; [by apply Forall_rev|]. split; [done|].
  eapply Z.lt_le_trans; [exact H1|]. change (2 ^ 56) with (256 ^ 7). apply Z.pow_le_mono_r; lia.
Qed.

(** The bytes of a number, with no leading zero. *)
Lemma be_bytes_head k n :
  (1 <= k)%nat -> 256 ^ (Z.of_nat k - 1) <= n < 256 ^ Z.of_nat k ->
  exists b, head (rev (to_le_bytes k n)) = Some b /\ b <> 0.
Proof.
  revert n. induction k as [|k IH]; intros n Hk Hn; [lia|].
  cbn [to_le_bytes]. simpl rev. destruct k as [|k].
  - exists (n mod 256). split; [done|]. simpl in Hn. rewrite Z.mod_small; lia.
  - destruct (IH (n / 256)) as (b & Hb & Hne); [lia| |].
    + replace (Z.of_nat (S (S k)) - 1) with (Z.succ (Z.of_nat (S k) - 1)) in Hn by lia.
      replace (Z.of_nat (S (S k))) with (Z.succ (Z.of_nat (S k))) in Hn by lia.
      rewrite !Z.pow_succ_r in Hn by lia. split; [apply Z.div_le_lower_bound; lia | apply Z.div_lt_upper_bound; lia].
    + exists b. split; [|done]. by destruct (rev (to_le_bytes (S k) (n / 256))).
Qed.

Lemma from_le_bytes_inj bs bs' :
  is_bytes bs -> is_bytes bs' -> length bs = length bs' -> from_le_bytes bs = from_le_bytes bs' -> bs = bs'.
Proof.
  intros Hb. revert bs'. induction Hb as [|b bs Hb _ IH]; intros [|b' bs'] Hb' Hl He; try done.
  apply Forall_cons in Hb' as [Hb' Hbs']. cbn [from_le_bytes] in He. simpl in Hl.
  assert (b = b' /\ from_le_bytes bs = from_le_bytes bs') as [-> He'] by ulia. f_equal. apply IH; [done | lia | done].
Qed.

Lemma to_from_le_bytes bs : is_bytes bs -> to_le_bytes (length bs) (from_le_bytes bs) = bs.
Proof.
  intros Hb. apply from_le_bytes_inj; [apply is_bytes_to_le_bytes | done | apply length_to_le_bytes|].
  by apply from_to_le_bytes, from_le_bytes_bound.
Qed.

(** A number with a non-zero leading byte has no shorter form. *)
Lemma be_bytes_minimal bs :
  is_bytes bs -> (1 <= length bs <= 8)%nat -> head bs <> Some 0 ->
  minimal_be_len (from_le_bytes (rev bs)) = len bs /\ 0 < from_le_bytes (rev bs) <= U64_MAX.
Proof.
  intros Hb Hl Hh. destruct bs as [|b bs]; [simpl in Hl; lia|]. simpl in Hh.
  pose proof (from_le_bytes_bound (rev (b :: bs))) as Hub.
  rewrite length_rev in Hub. specialize (Hub ltac:(by apply Forall_rev)).
  apply Forall_cons in Hb as [Hb Hbs].
  assert (Happ : forall l x, from_le_bytes (l ++ [x]) = from_le_bytes l + 256 ^ len l * x).
  { intros l x. induction l as [|y l IH]; [simpl app; cbn [from_le_bytes length]; change (256 ^ Z.of_nat 0) with 1; lia|].
    simpl app. cbn [from_le_bytes length]. rewrite IH, Nat2Z.inj_succ, Z.pow_succ_r by lia. ring. }
  assert (Hlo : 256 ^ (len (b :: bs) - 1) <= from_le_bytes (rev (b :: bs))).
  { simpl rev. rewrite Happ, length_rev. simpl length. replace (Z.of_nat (S (length bs)) - 1) with (len bs) by lia.
    pose proof (from_le_bytes_bound (rev bs) ltac:(by apply Forall_rev)) as [H0 _].
    assert (1 <= b) by (unfold u8 in Hb; assert (b <> 0) by congruence; lia).
    assert (0 < 256 ^ len bs) by (apply Z.pow_pos_nonneg; lia). nia. }
  assert (H8 : 256 ^ len (b :: bs) <= 256 ^ 8) by (apply Z.pow_le_mono_r; lia).
  change (256 ^ 8) with 18446744073709551616 in H8.
  assert (0 < 256 ^ (len (b :: bs) - 1)) by (apply Z.pow_pos_nonneg; simpl length; lia).
  assert (Hpos : 0 < from_le_bytes (rev (b :: bs)) <= U64_MAX) by (unfold U64_MAX; lia).
  split; [|done]. destruct (minimal_be_len_spec _ Hpos) as [Hk Hr].
  apply (pow256_unique _ _ (from_le_bytes (rev (b :: bs)))); simpl length in *; lia || done.
Qed.

(** ** Headers *)

Definition base_of (k : ItemKind) : Z := match k with KindBytes => 0x80 | KindList => 0xc0 end.

Lemma parse_long_header_app k l x rest :
  is_bytes l -> (1 <= length l <= 8)%nat -> head l <> Some 0 -> 56 <= from_le_bytes (rev l) ->
  parse_long_header (x :: l ++ rest) (len l) k =
    Ok (mkItemHeader k (1 + len l) (from_le_bytes (rev l))).
Proof.
  intros Hb Hl Hh Hn. unfold parse_long_header. destruct (Z.ltb_spec 8 (len l)); [lia|].
  unfold wrapping_add_u64. rewrite Z.mod_small by ulia.
  pose proof (slice_get_app [x] l rest 1 (1 + len l) eq_refl eq_refl) as Hs. simpl app in Hs. rewrite Hs.
  unfold mbind, result_bind, ok_or, mret, result_ret. rewrite bool_decide_false by done.
  rewrite read_be_usize_spec by (done || lia). by destruct (Z.ltb_spec (from_le_bytes (rev l)) 56); [lia|].
Qed.

(** A written header parses back; the one-byte string below 0x80 has none. *)
Lemma parse_write_header k n rest :
  0 <= n <= U64_MAX -> (k = KindBytes -> n = 1 -> forall b, head rest = Some b -> 0x80 <= b) ->
  parse_header (write_header n (base_of k) ++ rest) = Ok (mkItemHeader k (header_len n) n).
Proof.
  intros Hn Hone. unfold header_len. destruct (Z.ltb_spec n 56) as [Hs|Hl].
  - rewrite write_header_short by (destruct k; simpl; lia). unfold parse_header, wrapping_sub_u8, U8_MAX.
    destruct k; simpl app; cbn [head ok_or base_of]; unfold mbind, result_bind; cbn [ok_or].
    + destruct (Z.leb_spec (0x80 + n) 0x7f); [lia|]. destruct (Z.leb_spec (0x80 + n) 0xb7); [|lia].
      rewrite Z.mod_small by lia. replace (0x80 + n - 0x80) with n by lia.
      destruct (Z.eqb_spec n 1) as [->|]; [|done]. simpl lookup. destruct rest as [|b rest]; [done|].
      simpl. specialize (Hone eq_refl eq_refl b eq_refl). destruct (Z.ltb_spec b 0x80); [lia | done].
    + destruct (Z.leb_spec (0xc0 + n) 0x7f); [lia|]. destruct (Z.leb_spec (0xc0 + n) 0xb7); [lia|].
      destruct (Z.leb_spec (0xc0 + n) 0xbf); [lia|]. destruct (Z.leb_spec (0xc0 + n) 0xf7); [|lia].
      rewrite Z.mod_small by lia. unfold mret, result_ret. do 2 f_equal. lia.
  - destruct (minimal_be_len_spec n ltac:(lia)) as [Hk Hr]. rewrite write_header_long by (destruct k; simpl; lia).
    set (m := minimal_be_len n) in *. set (l := rev (to_le_bytes (Z.to_nat m) n)).
    assert (Hll : len l = m) by (subst l; rewrite length_rev, length_to_le_bytes; lia).
    assert (Hlb : is_bytes l) by (apply Forall_rev, is_bytes_to_le_bytes).
    assert (Hln : from_le_bytes (rev l) = n)
      by (subst l; rewrite rev_involutive, from_to_le_bytes; [done|]; rewrite Z2Nat.id by lia;
          split; [lia | by destruct Hr]).
    assert (Hlh : head l <> Some 0).
    { destruct (be_bytes_head (Z.to_nat m) n) as (b & Hb & Hne); [lia | by rewrite Z2Nat.id by lia|].
      subst l. rewrite Hb. congruence. }
    pose proof (parse_long_header_app k l (base_of k + 55 + m) rest Hlb ltac:(lia) Hlh ltac:(lia)) as Hp.
    rewrite Hll, Hln in Hp. unfold wrapping_add_u64. rewrite Z.mod_small by ulia. rewrite <- Hp.
    unfold parse_header, wrapping_sub_u8, U8_MAX. simpl app. cbn [head ok_or]. unfold mbind, result_bind. cbn [ok_or].
    destruct k; cbn [base_of].
    + destruct (Z.leb_spec (0x80 + 55 + m) 0x7f); [lia|]. destruct (Z.leb_spec (0x80 + 55 + m) 0xb7); [lia|].
      destruct (Z.leb_spec (0x80 + 55 + m) 0xbf); [|lia]. rewrite Z.mod_small by lia. f_equal. lia.
    + destruct (Z.leb_spec (0xc0 + 55 + m) 0x7f); [lia|]. destruct (Z.leb_spec (0xc0 + 55 + m) 0xb7); [lia|].
      destruct (Z.leb_spec (0xc0 + 55 + m) 0xbf); [lia|]. destruct (Z.leb_spec (0xc0 + 55 + m) 0xf7); [lia|].
      rewrite Z.mod_small by lia. f_equal. lia.
Qed.

Lemma parse_long_header_inv input llen k h :
  is_bytes input -> 1 <= llen -> parse_long_header input llen k = Ok h ->
  exists x l rest, input = x :: l ++ rest /\ len l = llen /\ llen <= 8 /\
    kind h = k /\ 56 <= h_payload_len h <= U64_MAX /\ h_header_len h = header_len (h_payload_len h) /\
    minimal_be_len (h_payload_len h) = llen /\
    l = rev (to_le_bytes (Z.to_nat llen) (h_payload_len h)).
Proof.
  intros Hb Hl1 Hp. unfold parse_long_header in Hp. destruct (Z.ltb_spec 8 llen); [done|].
  unfold wrapping_add_u64 in Hp. rewrite Z.mod_small in Hp by ulia.
  destruct (slice_get input 1 (1 + llen)) as [l|] eqn:Hs; [|done].
  unfold mbind, result_bind, ok_or, mret, result_ret in Hp. case_bool_decide as Hh; [done|].
  apply slice_get_Some in Hs as (Hr & Hlen & Hin); [|lia].
  destruct input as [|x input]; [simpl in Hr; lia|]. change (Z.to_nat 1) with 1%nat in Hin. simpl in Hin.
  injection Hin as Hin. apply Forall_cons in Hb as [Hx Hb]. rewrite Hin in Hb. apply Forall_app in Hb as [Hb _].
  rewrite read_be_usize_spec in Hp by (done || lia).
  destruct (be_bytes_minimal l Hb ltac:(lia) Hh) as [Hmin Hrange].
  destruct (Z.ltb_spec (from_le_bytes (rev l)) 56); [done|]. injection Hp as <-. simpl.
  exists x, l, (drop (Z.to_nat (1 + llen)) (x :: input)). rewrite <- Hin.
  assert (Hll : len l = llen) by lia. rewrite Hll in Hmin. split_and!; auto; try lia.
  - unfold header_len. destruct (Z.ltb_spec (from_le_bytes (rev l)) 56); [lia|].
    rewrite Hmin. unfold wrapping_add_u64. by rewrite Z.mod_small by ulia.
  - replace (Z.to_nat llen) with (length (rev l)) by (rewrite length_rev; lia).
    rewrite to_from_le_bytes by (by apply Forall_rev). by rewrite rev_involutive.
Qed.

(** A header that parses is the one byte itself, or what the encoder writes. *)
Lemma parse_header_inv input h :
  is_bytes input -> parse_header input = Ok h ->
  (exists b rest, input = b :: rest /\ b < 0x80 /\ h = mkItemHeader KindBytes 0 1) \/
  (exists rest, 0 <= h_payload_len h <= U64_MAX /\ h_header_len h = header_len (h_payload_len h) /\
     input = write_header (h_payload_len h) (base_of (kind h)) ++ rest /\
     (kind h = KindBytes -> h_payload_len h = 1 -> forall b, head rest = Some b -> 0x80 <= b)).
Proof.
  intros Hb Hp. destruct input as [|first rest]; [done|]. pose proof Hb as [Hf Hrest]%Forall_cons.
  unfold parse_header in Hp. cbn [head ok_or] in Hp. unfold mbind, result_bind, mret, result_ret in Hp. cbn [ok_or] in Hp.
  unfold wrapping_sub_u8, U8_MAX in Hp. unfold u8, U8_MAX in Hf.
  destruct (Z.leb_spec first 0x7f) as [Hc|Hc].
  { injection Hp as <-. left. exists first, rest. split_and!; done || lia. }
  right. destruct (Z.leb_spec first 0xb7) as [Hc1|Hc1].
  { rewrite Z.mod_small in Hp by lia. destruct (_ && _) eqn:Hm; [done|]. injection Hp as <-. simpl.
    exists rest. unfold header_len. destruct (Z.ltb_spec (first - 128) 56); [|lia].
    rewrite write_header_short by lia. simpl. split_and!; [ulia | ulia | done | f_equal; lia |].
    intros _ H1 b Hh. destruct rest as [|b' rest]; [done|]. injection Hh as ->.
    rewrite H1 in Hm. simpl in Hm. by apply Z.ltb_ge in Hm. }
  destruct (Z.leb_spec first 0xbf) as [Hc2|Hc2].
  { rewrite Z.mod_small in Hp by lia.
    apply parse_long_header_inv in Hp as (x & l & rest' & Heq & Hl & H8 & Hk & Hn & Hh & Hm & ->); [|done|lia].
    exists rest'. rewrite Hk. injection Heq as <- ->. split_and!; [lia | lia | done | | lia].
    rewrite write_header_long by (simpl; lia). rewrite Hm. simpl. f_equal. lia. }
  destruct (Z.leb_spec first 0xf7) as [Hc3|Hc3].
  { rewrite Z.mod_small in Hp by lia. injection Hp as <-. simpl. exists rest.
    unfold header_len. destruct (Z.ltb_spec (first - 192) 56); [|lia].
    rewrite write_header_short by lia. simpl. split_and!; [ulia | ulia | done | f_equal; lia | done]. }
  rewrite Z.mod_small in Hp by lia.
  apply parse_long_header_inv in Hp as (x & l & rest' & Heq & Hl & H8 & Hk & Hn & Hh & Hm & ->); [|done|lia].
  exists rest'. rewrite Hk. injection Heq as <- ->. split_and!; [lia | lia | done | | done].
  rewrite write_header_long by (simpl; lia). rewrite Hm. simpl. f_equal. lia.
Qed.

(** ** Items *)

(** The byte string an item stands for. *)
Definition item_field (it : RlpItem) : option bytes :=
  match it with
  | RlpBytes b => Some b
  | RlpRaw _ => None
  | RlpEmpty => Some []
  end.

(** A raw item is one encoded item. *)
Definition item_wf (it : RlpItem) : Prop :=
  match it with
  | RlpBytes b => is_bytes b
  | RlpRaw r => is_bytes r /\ exists h, parse_header r = Ok h /\ h_header_len h + h_payload_len h = len r
  | RlpEmpty => True
  end.

Lemma write_into_field it b : item_field it = Some b -> write_into it = write_bytes b.
Proof. destruct it; intros [= <-]; [done | by vm_compute]. Qed.

Lemma write_bytes_cases b :
  is_bytes b ->
  (exists v, b = [v] /\ v < 0x80 /\ write_bytes b = b) \/
  (write_bytes b = write_header (len b) 0x80 ++ b /\ is_single_byte b = false /\
   (len b = 1 -> forall v, head b = Some v -> 0x80 <= v)).
Proof.
  intros Hb. unfold write_bytes. destruct (is_single_byte b) eqn:Hs.
  - left. destruct b as [|v [|]]; try done. exists v. apply Z.ltb_lt in Hs. done.
  - right. split_and!; [done | done |]. intros Hl v Hv. destruct b as [|v' [|]]; simpl in *; try done; try lia.
    injection Hv as ->. by apply Z.ltb_ge in Hs.
Qed.

Lemma length_write_bytes b :
  is_bytes b -> len b <= ISIZE_MAX -> len (write_bytes b) = bytes_encoded_len b /\ len b <= len (write_bytes b).
Proof.
  intros Hb Hl. destruct (write_bytes_cases b Hb) as [(v & -> & Hv & ->)|(-> & Hs & _)]; unfold bytes_encoded_len.
  - simpl. destruct (Z.ltb_spec v 0x80); [done | lia].
  - rewrite Hs, length_app, Nat2Z.inj_add, length_write_header by ulia.
    pose proof (header_len_range (len b) ltac:(ulia)). unfold wrapping_add_u64. rewrite Z.mod_small by ulia. lia.
Qed.

(** The header of an item, whatever follows. *)
Lemma parse_bytes_app b rest :
  is_bytes b -> len b <= ISIZE_MAX ->
  exists hl, parse_header (write_bytes b ++ rest) = Ok (mkItemHeader KindBytes hl (len b)) /\
    0 <= hl /\ hl + len b = len (write_bytes b) /\ drop (Z.to_nat hl) (write_bytes b) = b.
Proof.
  intros Hb Hl. destruct (write_bytes_cases b Hb) as [(v & -> & Hv & ->)|(-> & _ & Hone)].
  - exists 0. split_and!; try done. unfold parse_header. simpl app. cbn [head ok_or]. unfold mbind, result_bind.
    destruct (Z.leb_spec v 0x7f); [done | lia].
  - exists (header_len (len b)). pose proof (header_len_range (len b) ltac:(ulia)).
    pose proof (length_write_header (len b) 0x80 ltac:(ulia) ltac:(lia)) as Hwl.
    rewrite length_app, Nat2Z.inj_add, Hwl. split_and!; [|lia | lia |].
    + rewrite <- app_assoc. apply (parse_write_header KindBytes); [ulia|]. intros _ H1 v Hv.
      apply (Hone H1). destruct b; [simpl in H1; lia | done].
    + rewrite <- Hwl, Nat2Z.id. apply drop_app_length.
Qed.

Lemma parse_item_app it rest :
  item_wf it -> len (write_into it) <= ISIZE_MAX ->
  exists h, parse_header (write_into it ++ rest) = Ok h /\
    h_header_len h + h_payload_len h = len (write_into it) /\ 1 <= len (write_into it) /\
    (item_field it <> None -> kind h = KindBytes).
Proof.
  intros Hwf Hl. destruct (item_field it) as [b|] eqn:Hf.
  - rewrite (write_into_field it b Hf) in *.
    assert (Hb : is_bytes b) by (destruct it; simpl in Hf; simplify_eq; [done | constructor]).
    assert (Hlb : len b <= ISIZE_MAX).
    { destruct (write_bytes_cases b Hb) as [(v & -> & _)|(Hw & _)]; [simpl; ulia|].
      rewrite Hw, length_app in Hl. lia. }
    destruct (parse_bytes_app b rest Hb Hlb) as (hl & Hp & H0 & Hs & _). eexists.
    split_and!; [exact Hp | done | | done].
    destruct (write_bytes_cases b Hb) as [(v & -> & _ & ->)|(Hw & _)]; [simpl; lia|].
    rewrite Hw, length_app. pose proof (length_write_header (len b) 0x80 ltac:(ulia) ltac:(lia)).
    pose proof (header_len_range (len b) ltac:(ulia)). lia.
  - destruct it as [|r|]; try done. destruct Hwf as [Hr (h & Hp & Ht)]. simpl write_into in *. exists h.
    apply parse_header_inv in Hp as [(b & rest' & -> & Hb & ->)|(rest' & Hn & Hh & -> & Hone)]; [| |done].
    + simpl in Ht. simpl app. split_and!; [|done | simpl; lia | done].
      unfold parse_header. cbn [head ok_or]. unfold mbind, result_bind. destruct (Z.leb_spec b 0x7f); [done | lia].
    + assert (Hbase : 0 <= base_of (kind h) < 193) by (destruct (kind h); simpl; lia).
      rewrite length_app, Nat2Z.inj_add, (length_write_header _ _ Hn Hbase) in Ht.
      pose proof (header_len_range _ Hn). split_and!; [|rewrite length_app, Nat2Z.inj_add, length_write_header by done; lia
        |rewrite length_app, Nat2Z.inj_add, length_write_header by done; lia | done].
      rewrite <- app_assoc, parse_write_header; [|done|].
      * destruct h as [k hl n]. simpl in *. by rewrite Hh.
      * intros Hk H1 b Hb. apply (Hone Hk H1). destruct rest'; [simpl in *; lia | done].
Qed.

Lemma total_len_ok h n : h_header_len h + h_payload_len h = n -> n <= U64_MAX -> total_len h = Ok n.
Proof. intros <- Hn. unfold total_len, checked_add_u64. by destruct (Z.leb_spec (h_header_len h + h_payload_len h) U64_MAX); [|lia]. Qed.

(** An encoded byte string is read as the next field. *)
Lemma next_field_app b rest :
  is_bytes b -> len (write_bytes b ++ rest) <= ISIZE_MAX -> next_field (write_bytes b ++ rest) = Ok (b, rest).
Proof.
  intros Hb Hl. rewrite length_app, Nat2Z.inj_add in Hl.
  assert (Hlb : len b <= ISIZE_MAX).
  { destruct (write_bytes_cases b Hb) as [(v & -> & _)|(Hw & _)]; [simpl; ulia|]. rewrite Hw, length_app in Hl. lia. }
  destruct (parse_bytes_app b rest Hb Hlb) as (hl & Hp & H0 & Hs & Hd). unfold next_field.
  rewrite Hp. unfold mbind, result_bind. rewrite (total_len_ok _ (len (write_bytes b))) by (simpl; ulia).
  pose proof (slice_get_app [] (write_bytes b) rest 0 (len (write_bytes b)) eq_refl eq_refl) as Hg1. simpl app in Hg1.
  rewrite Hg1. cbn [ok_or].
  pose proof (slice_get_app (write_bytes b) rest [] (len (write_bytes b)) (len (write_bytes b ++ rest)) eq_refl) as Hg2.
  rewrite app_nil_r in Hg2. rewrite Hg2 by (rewrite length_app; lia). cbn [default kind h_header_len].
  rewrite bool_decide_false by (intros H; by apply H).
  pose proof (slice_get_app (take (Z.to_nat hl) (write_bytes b)) b [] hl (len (write_bytes b))) as Hg3.
  assert (Htd : take (Z.to_nat hl) (write_bytes b) ++ b = write_bytes b)
    by (rewrite <- (take_drop (Z.to_nat hl) (write_bytes b)) at 2; by rewrite Hd).
  rewrite app_nil_r, Htd in Hg3. rewrite Hg3 by (rewrite length_take; lia). done.
Qed.

(** ... and only an encoded byte string is. *)
Lemma next_field_inv p f after :
  is_bytes p -> next_field p = Ok (f, after) -> p = write_bytes f ++ after /\ is_bytes f /\ is_bytes after.
Proof.
  intros Hb Hn. unfold next_field in Hn. unfold mbind, result_bind in Hn.
  destruct (parse_header p) as [h|] eqn:Hp; [|done].
  destruct (total_len h) as [t|] eqn:Ht; [|done].
  unfold total_len, ok_or in Ht. destruct (checked_add_u64 _ _) eqn:Hc; [|done]. injection Ht as ->.
  apply checked_add_u64_Some in Hc as [Hmax ->].
  destruct (slice_get p 0 _) as [item|] eqn:Hs1; [|done]. cbn [ok_or] in Hn.
  case_bool_decide as Hk; [done|].
  destruct (slice_get item _ _) as [fld|] eqn:Hs2; [|done]. cbn [ok_or] in Hn. injection Hn as -> Ha.
  apply slice_get_Some in Hs1 as (Hr1 & Hl1 & Hin1); [|lia]. rewrite Z.sub_0_r in Hl1. simpl in Hin1.
  assert (Hpos : 0 <= h_header_len h).
  { apply parse_header_inv in Hp as [(b & rest & -> & _ & ->)|(rest & Hn' & -> & _)]; [done| |done].
    pose proof (header_len_range _ Hn'). lia. }
  apply slice_get_Some in Hs2 as (Hr2 & Hl2 & Hin2); [|done].
  rewrite Nat2Z.id in Hin2. rewrite drop_all, app_nil_r in Hin2.
  assert (Hafter : after = drop (length item) p).
  { rewrite <- Ha. unfold slice_get. destruct (Z.leb_spec (h_header_len h + h_payload_len h) (len p)); [|lia].
    destruct (Z.leb_spec (len p) (len p)); [|lia]. simpl. rewrite firstn_all2 by (rewrite length_drop; lia). f_equal. lia. }
  replace (Z.to_nat (h_header_len h + h_payload_len h)) with (length item) in Hin1 by lia.
  rewrite <- Hafter in Hin1. rewrite Hin1 in Hb. pose proof Hb as [Hbi Hba]%Forall_app.
  rewrite Hin2 in Hbi. apply Forall_app in Hbi as [_ Hbf]. split_and!; [|done|done]. rewrite Hin1 at 1. f_equal.
  rewrite Hin1 in Hp.
  apply parse_header_inv in Hp as [(b & rest & Heq & Hb0 & ->)|(rest & Hn' & Hhl & Heq & Hone)]; [| |done].
  - simpl in *. destruct item as [|b' [|]]; simpl in *; try lia. injection Heq as -> _.
    rewrite <- Hin2. unfold write_bytes. simpl. destruct (Z.ltb_spec b 0x80); [done | lia].
  - rewrite Hk in Heq. cbn [base_of] in Heq.
    pose proof (length_write_header (h_payload_len h) 0x80 Hn' ltac:(lia)) as Hwl.
    assert (Hitem : item = write_header (h_payload_len h) 0x80 ++ f).
    { rewrite Hin2. f_equal. rewrite Hin2 in Heq. rewrite <- app_assoc in Heq.
      apply app_inj_1 in Heq as [Heq _]; [done|]. rewrite length_take. lia. }
    rewrite Hitem. assert (Hlf : h_payload_len h = len f) by lia. rewrite Hlf in *.
    unfold write_bytes. destruct (is_single_byte f) eqn:Hsb; [|done].
    destruct f as [|v [|]]; try done. simpl in Hsb. apply Z.ltb_lt in Hsb.
    rewrite Hitem in Heq. rewrite <- app_assoc in Heq. apply app_inv_head in Heq.
    specialize (Hone Hk eq_refl v). rewrite <- Heq in Hone. specialize (Hone eq_refl). lia.
Qed.

(** ** Lists *)

Definition payload (items : list RlpItem) : bytes := concat (map write_into items).

(** The length of the payload, and of the whole list, fits a slice. *)
Definition fits (items : list RlpItem) : Prop := len (payload items) <= ISIZE_MAX - 9.

Lemma payload_app a b : payload (a ++ b) = payload a ++ payload b.
Proof. unfold payload. by rewrite map_app, concat_app. Qed.

Lemma payload_cons it items : payload (it :: items) = write_into it ++ payload items.
Proof. done. Qed.

Lemma item_encoded_len it : item_wf it -> len (write_into it) <= ISIZE_MAX -> encoded_len it = len (write_into it).
Proof.
  destruct it as [b|r|]; simpl; intros Hwf Hl; try done.
  destruct (write_bytes_cases b Hwf) as [(v & -> & Hv & Hw)|(Hw & Hs & _)].
  - rewrite Hw. unfold bytes_encoded_len. simpl. destruct (Z.ltb_spec v 0x80); [done | lia].
  - symmetry. apply length_write_bytes; [done|]. rewrite Hw, length_app in Hl. lia.
Qed.

Lemma sum_encoded_len items acc :
  Forall item_wf items -> 0 <= acc -> acc + len (payload items) <= ISIZE_MAX ->
  foldl (fun acc it => wrapping_add_u64 acc (encoded_len it)) acc items = acc + len (payload items).
Proof.
  intros Hwf. revert acc. induction Hwf as [|it items Hit _ IH]; intros acc H0 Hl; [simpl; lia|].
  rewrite payload_cons, length_app, Nat2Z.inj_add in *. simpl foldl. rewrite item_encoded_len by (done || lia).
  unfold wrapping_add_u64. rewrite Z.mod_small by ulia. rewrite IH by lia. lia.
Qed.

Lemma encode_list_payload items :
  Forall item_wf items -> fits items -> encode_list items = write_header (len (payload items)) 0xc0 ++ payload items.
Proof.
  unfold fits. intros Hwf Hf. unfold encode_list. rewrite sum_encoded_len; [reflexivity | exact Hwf | lia | lia].
Qed.

(** The outer header of an encoded list. *)
Lemma parse_list_app p :
  len p <= ISIZE_MAX - 9 ->
  parse_header (write_header (len p) 0xc0 ++ p) = Ok (mkItemHeader KindList (header_len (len p)) (len p)) /\
  total_len (mkItemHeader KindList (header_len (len p)) (len p)) = Ok (len (write_header (len p) 0xc0 ++ p)) /\
  slice_get (write_header (len p) 0xc0 ++ p) (header_len (len p)) (len (write_header (len p) 0xc0 ++ p)) = Some p.
Proof.
  intros Hl. pose proof (length_write_header (len p) 0xc0 ltac:(ulia) ltac:(lia)) as Hwl.
  pose proof (header_len_range (len p) ltac:(ulia)). split_and!.
  - apply (parse_write_header KindList); [ulia | done].
  - apply total_len_ok; simpl; rewrite length_app; [lia | ulia].
  - pose proof (slice_get_app (write_header (len p) 0xc0) p [] (header_len (len p))
      (len (write_header (len p) 0xc0 ++ p)) ltac:(lia)) as Hs.
    rewrite app_nil_r in Hs. apply Hs. rewrite length_app. lia.
Qed.

Lemma RlpList_parse_encode items :
  Forall item_wf items -> fits items -> RlpList_parse (encode_list items) = Ok (payload items).
Proof.
  intros Hwf Hf. rewrite encode_list_payload by done. destruct (parse_list_app (payload items) Hf) as (Hp & Ht & Hs).
  unfold RlpList_parse. rewrite Hp. unfold mbind, result_bind. cbn [kind]. rewrite bool_decide_false by (intros H; by apply H).
  rewrite Ht, Z.ltb_irrefl. cbn [h_header_len]. by rewrite Hs.
Qed.

(** Lists of byte strings. *)
Definition byte_items (fs : list bytes) (items : list RlpItem) : Prop :=
  Forall2 (fun b it => item_field it = Some b /\ is_bytes b) fs items.

Lemma byte_items_wf fs items : byte_items fs items -> Forall item_wf items.
Proof.
  induction 1 as [|b it fs items [Hf Hb] _ IH]; constructor; [|done].
  destruct it; simpl in *; simplify_eq; done.
Qed.

Lemma fields_loop_payload fuel fs items :
  byte_items fs items -> len (payload items) <= ISIZE_MAX -> (length items <= fuel)%nat ->
  fields_loop fuel (payload items) = Ok fs.
Proof.
  intros H. revert fuel. induction H as [|b it fs items [Hf Hb] Hrest IH]; intros fuel Hl Hn; [by destruct fuel|].
  simpl in Hn. destruct fuel as [|fuel]; [lia|].
  assert (Hne : payload (it :: items) <> []).
  { rewrite payload_cons, (write_into_field it b Hf). intros [Hw _]%app_nil.
    destruct (write_bytes_cases b Hb) as [(v & -> & _ & Hw')|(Hw' & _)]; rewrite Hw' in Hw; [done|].
    apply app_nil in Hw as [Hw _]. pose proof (length_write_header (len b) 0x80) as Hwl. rewrite Hw in Hwl.
    rewrite payload_cons, (write_into_field it b Hf), Hw', !length_app in Hl.
    pose proof (header_len_range (len b) ltac:(ulia)). specialize (Hwl ltac:(ulia) ltac:(lia)). simpl in Hwl. lia. }
  cbn [fields_loop]. destruct (payload (it :: items)) as [|x p] eqn:Hp; [done|]. rewrite <- Hp in *.
  rewrite payload_cons, (write_into_field it b Hf) in *. rewrite next_field_app by done.
  unfold mbind, result_bind. rewrite IH; [done | rewrite length_app in Hl; lia | lia].
Qed.

Lemma payload_length fs items : byte_items fs items -> len (payload items) <= ISIZE_MAX -> (length items <= length (payload items))%nat.
Proof.
  induction 1 as [|b it fs items [Hf Hb] Hrest IH]; intros Hl; [done|].
  assert (Hwf : item_wf it) by (destruct it; simpl in *; simplify_eq; done).
  rewrite payload_cons, length_app in *. destruct (parse_item_app it [] Hwf ltac:(lia)) as (h & _ & _ & H1 & _).
  specialize (IH ltac:(lia)). simpl. lia.
Qed.

Lemma nth_loop_payload n i fs items :
  byte_items fs items -> len (payload items) <= ISIZE_MAX ->
  nth_loop n i (payload items) = match fs !! n with Some f => Ok f | None => Err (IndexOutOfRange i) end.
Proof.
  intros H. revert n. induction H as [|b it fs items [Hf Hb] Hrest IH]; intros n Hl; [by destruct n|].
  assert (Hne : payload (it :: items) <> []).
  { intros Hp. pose proof (payload_length (b :: fs) (it :: items) ltac:(by constructor) Hl) as Hc.
    rewrite Hp in Hc. simpl in Hc. lia. }
  rewrite payload_cons, (write_into_field it b Hf) in *.
  assert (Hstep : nth_loop n i (write_bytes b ++ payload items) =
    ('(field, after) ← next_field (write_bytes b ++ payload items);
     match n with O => mret field | S n => nth_loop n i after end)).
  { destruct (write_bytes b ++ payload items); [done|]. by destruct n. }
  rewrite Hstep, next_field_app by done. unfold mbind, result_bind.
  destruct n as [|n]; [done|]. rewrite IH; [done|]. rewrite length_app in Hl. lia.
Qed.

Lemma fields_loop_inv fuel p fs :
  is_bytes p -> fields_loop fuel p = Ok fs -> p = concat (map write_bytes fs) /\ Forall is_bytes fs.
Proof.
  revert p fs. induction fuel as [|fuel IH]; intros p fs Hb Hl.
  - destruct p; [|done]. by injection Hl as <-.
  - cbn [fields_loop] in Hl. destruct p as [|x p]; [by injection Hl as <-|].
    unfold mbind, result_bind in Hl. destruct (next_field (x :: p)) as [[f after]|] eqn:Hn; [|done].
    apply next_field_inv in Hn as (-> & Hf & Ha); [|done].
    destruct (fields_loop fuel after) as [out|] eqn:Ho; [|done]. injection Hl as <-.
    apply IH in Ho as [-> Hout]; [|done]. split; [done | by constructor].
Qed.

Lemma parse_item_header it rest :
  item_wf it -> len (write_into it) <= ISIZE_MAX ->
  exists h, parse_header (write_into it ++ rest) = Ok h /\ total_len h = Ok (len (write_into it)) /\
    1 <= len (write_into it) /\ (item_field it <> None -> kind h = KindBytes).
Proof.
  intros Hwf Hl. destruct (parse_item_app it rest Hwf Hl) as (h & Hp & Ht & H1 & Hk). exists h.
  split_and!; [done | apply total_len_ok; [done | ulia] | done | done].
Qed.

(** The search of [replace_list_field] walks over the items before the index. *)
Lemma find_item_step fuel p it rest i idx :
  item_wf it -> len (p ++ write_into it ++ rest) <= ISIZE_MAX -> 0 <= idx < U64_MAX ->
  find_item (S fuel) (p ++ write_into it ++ rest) i (len p) idx =
    if idx =? i then
      match item_field it with
      | Some _ => Ok (len p, len p + len (write_into it))
      | None => find_item (S fuel) (p ++ write_into it ++ rest) i (len p) idx
      end
    else find_item fuel ((p ++ write_into it) ++ rest) i (len (p ++ write_into it)) (idx + 1).
Proof.
  intros Hwf Hl Hidx. rewrite !length_app, !Nat2Z.inj_add in Hl.
  destruct (parse_item_header it rest Hwf ltac:(lia)) as (h & Hp & Ht & H1 & Hk).
  destruct (Z.eqb_spec idx i) as [<-|Hne].
  1: destruct (item_field it) as [b|] eqn:Hf; [|reflexivity].
  all: cbn [find_item].
  all: pose proof (slice_get_app p (write_into it ++ rest) [] (len p) (len (p ++ write_into it ++ rest)) eq_refl) as Hs.
  all: rewrite app_nil_r in Hs; rewrite Hs by (rewrite length_app; lia); unfold mbind, result_bind; cbn [ok_or].
  all: rewrite bool_decide_false by (intros [Hw _]%app_nil; rewrite Hw in H1; simpl in H1; lia).
  all: rewrite Hp, Ht; rewrite length_app, Nat2Z.inj_add.
  all: destruct (Z.ltb_spec (len (write_into it) + len rest) (len (write_into it))); [lia|].
  all: unfold wrapping_add_u64; rewrite Z.mod_small by ulia.
  - rewrite Z.eqb_refl, bool_decide_false by (intros H'; by apply H', Hk). reflexivity.
  - destruct (Z.eqb_spec idx i); [done|].
    assert (Hc : checked_add_u64 idx 1 = Some (idx + 1)) by (apply checked_add_u64_Some; lia).
    rewrite Hc. cbn [ok_or]. by rewrite length_app, Nat2Z.inj_add, app_assoc.
Qed.

Lemma find_item_at fuel items1 it items2 p idx b :
  Forall item_wf items1 -> item_wf it -> item_field it = Some b ->
  len (p ++ payload (items1 ++ it :: items2)) <= ISIZE_MAX -> 0 <= idx -> idx + len items1 < U64_MAX ->
  (length items1 < fuel)%nat ->
  find_item fuel (p ++ payload (items1 ++ it :: items2)) (idx + len items1) (len p) idx =
    Ok (len (p ++ payload items1), len (p ++ payload items1 ++ write_into it)).
Proof.
  intros Hwf1. revert fuel p idx. induction Hwf1 as [|it1 items1 Hit1 _ IH]; intros fuel p idx Hwf Hf Hl H0 Hi Hfu.
  - destruct fuel as [|fuel]; [simpl in Hfu; lia|]. simpl app in *. rewrite payload_cons in *.
    rewrite find_item_step by (done || lia). simpl length. rewrite Z.add_0_r, Z.eqb_refl, Hf.
    simpl payload. simpl app. rewrite app_nil_r. by rewrite length_app, Nat2Z.inj_add.
  - destruct fuel as [|fuel]; [simpl in Hfu; lia|]. simpl length in *. rewrite Nat2Z.inj_succ in *.
    simpl app in *. rewrite (payload_cons it1 (items1 ++ it :: items2)) in *.
    rewrite find_item_step by (done || lia). destruct (Z.eqb_spec idx (idx + Z.succ (len items1))); [lia|].
    rewrite app_assoc in Hl. replace (idx + Z.succ (len items1)) with ((idx + 1) + len items1) by lia.
    rewrite IH by (done || lia). rewrite payload_cons, <- !app_assoc. done.
Qed.

Lemma find_item_beyond fuel items p idx i :
  Forall item_wf items -> len (p ++ payload items) <= ISIZE_MAX -> 0 <= idx -> idx + len items <= i <= U64_MAX ->
  (length items < fuel)%nat ->
  find_item fuel (p ++ payload items) i (len p) idx = Err (IndexOutOfRange i).
Proof.
  intros Hwf. revert fuel p idx. induction Hwf as [|it items Hit _ IH]; intros fuel p idx Hl H0 Hi Hfu.
  - destruct fuel as [|fuel]; [simpl in Hfu; lia|]. cbn [find_item].
    change (payload []) with (@nil Z). rewrite app_nil_r.
    pose proof (slice_get_app p [] [] (len p) (len p) eq_refl ltac:(simpl; lia)) as Hs.
    simpl app in Hs. rewrite app_nil_r in Hs. rewrite Hs. reflexivity.
  - destruct fuel as [|fuel]; [simpl in Hfu; lia|]. simpl length in *. rewrite Nat2Z.inj_succ in *.
    rewrite payload_cons in *. rewrite find_item_step by (done || lia).
    destruct (Z.eqb_spec idx i); [lia|]. rewrite app_assoc in Hl. apply IH; [done | lia | lia | lia].
Qed.

Lemma items_length items : Forall item_wf items -> len (payload items) <= ISIZE_MAX -> (length items <= length (payload items))%nat.
Proof.
  induction 1 as [|it items Hit _ IH]; intros Hl; [done|]. rewrite payload_cons, length_app in *.
  destruct (parse_item_app it [] Hit ltac:(lia)) as (h & _ & _ & H1 & _). specialize (IH ltac:(lia)). simpl. lia.
Qed.

Lemma replace_outer items i r :
  Forall item_wf items -> fits items ->
  replace_list_field (encode_list items) i r =
    ('(item_start, item_end) ← find_item (S (length (payload items))) (payload items) i 0 0;
     let old := wrapping_sub_u64 item_end item_start in
     let n := wrapping_add_u64 (wrapping_sub_u64 (len (payload items)) old) (bytes_encoded_len r) in
     prefix ← ok_or (slice_get (payload items) 0 item_start) Truncated;
     suffix ← ok_or (slice_get (payload items) item_end (len (payload items))) Truncated;
     mret (write_header n 0xc0 ++ prefix ++ write_bytes r ++ suffix)).
Proof.
  intros Hwf Hf. rewrite encode_list_payload by done. destruct (parse_list_app (payload items) Hf) as (Hp & Ht & Hs).
  unfold replace_list_field. rewrite Hp. unfold mbind, result_bind. cbn [kind h_header_len].
  rewrite bool_decide_false by (intros H; by apply H). rewrite Ht, Z.ltb_irrefl, Hs. reflexivity.
Qed.

(** ** Properties *)

(** An encoded list of byte strings decodes to exactly these strings, by
    [fields] and by [nth_bytes], which reports an index past the end. *)
Theorem rlp_list_roundtrip (items : list RlpItem) (fs : list bytes) :
  byte_items fs items -> fits items ->
  RlpList_parse (encode_list items) = Ok (payload items) /\
  fields (payload items) = Ok fs /\
  forall i, nth_bytes (payload items) i =
    match fs !! i with Some f => Ok f | None => Err (IndexOutOfRange (Z.of_nat i)) end.
Proof.
  intros Hb Hf. pose proof (byte_items_wf fs items Hb) as Hwf. unfold fits in Hf. split_and!.
  - by apply RlpList_parse_encode.
  - apply fields_loop_payload; [done | lia |]. eapply payload_length; [done | lia].
  - intros i. apply nth_loop_payload; [done | lia].
Qed.

(** The decoder accepts one encoding per list.  Whatever input parses as a
    list of byte strings is, byte for byte, what the encoder writes for these
    strings. *)
Theorem rlp_encoding_canonical (input p : bytes) (fs : list bytes) :
  is_bytes input -> len input <= ISIZE_MAX -> RlpList_parse input = Ok p -> fields p = Ok fs ->
  input = encode_list (map RlpBytes fs).
Proof.
  intros Hb Hlen Hp Hfs. unfold RlpList_parse in Hp. unfold mbind, result_bind in Hp.
  destruct (parse_header input) as [h|] eqn:Hh; [|done]. case_bool_decide as Hk; [done|].
  assert (Hkl : kind h = KindList) by (by destruct (kind h); [destruct Hk|]). clear Hk.
  destruct (total_len h) as [t|] eqn:Ht; [|done].
  unfold total_len in Ht. destruct (checked_add_u64 _ _) eqn:Hc; [|done]. injection Ht as ->.
  apply checked_add_u64_Some in Hc as [Hmax ->].
  destruct (Z.ltb_spec (len input) (h_header_len h + h_payload_len h)); [done|].
  destruct (Z.ltb_spec (h_header_len h + h_payload_len h) (len input)); [done|].
  destruct (slice_get _ _ _) as [p'|] eqn:Hs; [|done]. injection Hp as ->.
  apply parse_header_inv in Hh as [(b & rest & _ & _ & ->)|(rest & Hn & Hhl & Hin & _)]; [done| |done].
  rewrite Hkl in Hin. cbn [base_of] in Hin. pose proof (header_len_range _ Hn).
  pose proof (length_write_header (h_payload_len h) 0xc0 Hn ltac:(lia)) as Hwl.
  apply slice_get_Some in Hs as (_ & Hlp & Hin'); [|lia].
  replace (Z.to_nat (h_header_len h + h_payload_len h)) with (length input) in Hin' by lia.
  rewrite drop_all, app_nil_r in Hin'.
  assert (rest = p /\ input = write_header (len p) 0xc0 ++ p) as [-> Hinput].
  { pose proof Hin as Heq. rewrite Hin' in Heq at 1.
    apply app_inj_1 in Heq as [_ Hr]; [|rewrite length_take; lia]. symmetry in Hr.
    split; [done|]. rewrite Hin, Hr. do 2 f_equal. lia. }
  rewrite Hinput in Hb. apply Forall_app in Hb as [_ Hbp].
  apply fields_loop_inv in Hfs as [Hpay Hfb]; [|done].
  assert (Hpp : p = payload (map RlpBytes fs)) by (unfold payload; by rewrite map_map).
  rewrite Hinput. rewrite Hpp. symmetry. unfold encode_list. rewrite sum_encoded_len; [reflexivity | | lia |].
  - apply Forall_map. by eapply Forall_impl.
  - rewrite <- Hpp. lia.
Qed.

(** [replace_list_field] replaces one byte string of an encoded list and
    keeps the other items, nested ones included, as they are; an index past the
    end is reported. *)
Theorem replace_list_field_spec (before after : list RlpItem) (it : RlpItem) (old replacement : bytes) :
  Forall item_wf (before ++ it :: after) -> item_field it = Some old -> is_bytes replacement ->
  fits (before ++ it :: after) -> fits (before ++ RlpBytes replacement :: after) ->
  replace_list_field (encode_list (before ++ it :: after)) (len before) replacement =
    Ok (encode_list (before ++ RlpBytes replacement :: after)) /\
  forall i, len (before ++ it :: after) <= i <= U64_MAX ->
    replace_list_field (encode_list (before ++ it :: after)) i replacement = Err (IndexOutOfRange i).
Proof.
  intros Hwf Hf Hr Hfits Hfits'. pose proof Hwf as [Hwf1 [Hit Hwf2]%Forall_cons]%Forall_app.
  pose proof (items_length _ Hwf ltac:(unfold fits in Hfits; lia)) as Hlen.
  assert (Hwf' : Forall item_wf (before ++ RlpBytes replacement :: after)).
  { apply Forall_app. split; [done|]. by constructor. }
  pose proof Hfits as Hl. pose proof Hfits' as Hl'. unfold fits in Hl, Hl'. split.
  - rewrite replace_outer by done. rewrite length_app in Hlen. simpl in Hlen.
    rewrite (find_item_at _ before it after [] 0 old Hwf1 Hit Hf) by (simpl; ulia).
    unfold mbind, result_bind. simpl app.
    rewrite payload_app, payload_cons in *.
    pose proof (slice_get_app [] (payload before) (write_into it ++ payload after) 0 (len (payload before)) eq_refl eq_refl) as Hs1.
    pose proof (slice_get_app (payload before ++ write_into it) (payload after) [] (len (payload before ++ write_into it))
      (len (payload before ++ write_into it ++ payload after)) eq_refl) as Hs2.
    rewrite app_nil_r, <- app_assoc in Hs2. simpl app in Hs1.
    rewrite Hs1, Hs2 by (rewrite !length_app; lia). cbn [ok_or]. unfold mret, result_ret. f_equal.
    rewrite encode_list_payload, payload_app, payload_cons by done. simpl write_into. f_equal. f_equal.
    rewrite !length_app, !Nat2Z.inj_add in *. simpl write_into in Hl'.
    pose proof (length_write_bytes replacement Hr) as Hwb.
    assert (Hrl : len replacement <= ISIZE_MAX).
    { destruct (write_bytes_cases replacement Hr) as [(v & -> & _)|(Hw & _)]; [simpl; ulia|]. rewrite Hw, length_app in Hl'. lia. }
    destruct (Hwb Hrl) as [Hwe _]. rewrite <- Hwe.
    rewrite (wrapping_sub_small (len (payload before) + len (write_into it))) by ulia.
    rewrite wrapping_sub_small by ulia. rewrite wrapping_add_small by ulia. lia.
  - intros i Hi. rewrite replace_outer by done.
    rewrite (find_item_beyond _ (before ++ it :: after) [] 0 i Hwf) by (simpl; lia). reflexivity.
Qed.

(** [parse_be_uint] widens a big-endian number: the result has the wanted
    width and the value of the input; a longer input is refused. *)
Theorem parse_be_uint_value (n : nat) (bs : bytes) :
  match parse_be_uint n bs with
  | Ok out => length out = n /\ from_le_bytes (rev out) = from_le_bytes (rev bs)
  | Err e => (n < length bs)%nat /\ e = TooLong (len bs) (Z.of_nat n)
  end.
Proof.
  unfold parse_be_uint. destruct (Z.ltb_spec (Z.of_nat n) (len bs)); [split; [lia | done]|].
  split; [rewrite length_app, length_replicate; lia|]. rewrite rev_app_distr.
  assert (Hz : forall k, from_le_bytes (rev (replicate k 0)) = 0).
  { intros k. replace (rev (replicate k 0)) with (replicate k 0).
    - induction k as [|k IH]; [done|]. cbn [replicate from_le_bytes]. by rewrite IH.
    - apply replicate_as_elem_of. split; [by rewrite length_rev, length_replicate|].
      intros x Hx%list_elem_of_In%in_rev%list_elem_of_In. by apply elem_of_replicate_inv in Hx. }
  generalize (rev bs). intros l. induction l as [|x l IH]; [apply Hz|]. cbn [app from_le_bytes]. by rewrite IH.
Qed.

(** *** Witnesses: an account with an empty field and a two-byte field *)

Definition w_items : list RlpItem := [RlpBytes [1]; RlpEmpty; RlpBytes [200; 3]].
Definition w_fields : list bytes := [[1]; []; [200; 3]].

Lemma w_byte_items : byte_items w_fields w_items.
Proof. repeat (constructor; [split; [reflexivity | repeat (constructor; [unfold u8, U8_MAX; lia|]); constructor]|]). constructor. Qed.

Lemma w_fits : fits w_items.
Proof. vm_compute. discriminate. Qed.

Lemma rlp_list_roundtrip_witness :
  RlpList_parse (encode_list w_items) = Ok (payload w_items) /\ fields (payload w_items) = Ok w_fields.
Proof. destruct (rlp_list_roundtrip w_items w_fields w_byte_items w_fits) as (Hp & Hf & _). exact (conj Hp Hf). Defined.

Lemma rlp_encoding_canonical_witness : [197; 1; 128; 130; 200; 3] = encode_list (map RlpBytes w_fields).
Proof.
  apply (rlp_encoding_canonical [197; 1; 128; 130; 200; 3] [1; 128; 130; 200; 3] w_fields).
  - repeat (constructor; [unfold u8, U8_MAX; lia|]). constructor.
  - vm_compute. discriminate.
  - vm_compute. reflexivity.
  - vm_compute. reflexivity.
Defined.

Lemma replace_list_field_spec_witness :
  replace_list_field (encode_list w_items) 1 [7; 8] = Ok (encode_list [RlpBytes [1]; RlpBytes [7; 8]; RlpBytes [200; 3]]).
Proof.
  apply (replace_list_field_spec [RlpBytes [1]] [RlpBytes [200; 3]] RlpEmpty [] [7; 8]).
  - exact (byte_items_wf w_fields w_items w_byte_items).
  - reflexivity.
  - repeat (constructor; [unfold u8, U8_MAX; lia|]). constructor.
  - exact w_fits.
  - vm_compute. discriminate.
Defined.
