(* ===== verification/RlpSplice.v ===== *)
(** * Repeated splices

    [replace_list_field] of [storage/src/rlp.rs] on an arbitrary byte string: what
    a successful replacement says about its input, and that replacing the same
    field by the same bytes a second time changes nothing.  The hashing of account
    nodes relies on it, since the storage root is spliced when the account is
    stored and again when it is hashed. *)

From S2P Require Import Prelude Codec Rlp.

Lemma is_bytes_write_header n base : 0 <= n <= U64_MAX -> 0 <= base < 193 -> is_bytes (write_header n base).
Proof.
  intros Hn Hb. destruct (Z.lt_ge_cases n 56).
  - rewrite write_header_short by lia. constructor; [ulia | constructor].
  - destruct (minimal_be_len_spec n ltac:(lia)) as [Hk _]. rewrite write_header_long by lia.
    constructor; [ulia|]. apply Forall_rev, is_bytes_to_le_bytes.
Qed.

(** The bytes an accepted header spans are one item. *)
Lemma header_item rest h n :
  is_bytes rest -> parse_header rest = Ok h -> total_len h = Ok n -> n <= len rest ->
  1 <= n /\ item_wf (RlpRaw (take (Z.to_nat n) rest)).
Proof.
  intros Hb Hp Ht Hn. unfold total_len, ok_or in Ht. destruct (checked_add_u64 _ _) eqn:Hc; [|done].
  injection Ht as ->. apply checked_add_u64_Some in Hc as [Hmax ->].
  apply parse_header_inv in Hp as [(b & r & -> & Hb0 & ->)|(r & Hpl & Hhl & -> & Hone)]; [| |done].
  - simpl in *. split; [lia|]. apply Forall_cons in Hb as [Hb _]. split; [by constructor|].
    exists (mkItemHeader KindBytes 0 1). split; [|done]. unfold parse_header. cbn [head ok_or].
    unfold mbind, result_bind. destruct (Z.leb_spec b 0x7f); [done | lia].
  - pose proof (header_len_range _ Hpl). split; [lia|].
    assert (Hbase : 0 <= base_of (kind h) < 193) by (destruct (kind h); simpl; lia).
    pose proof (length_write_header _ _ Hpl Hbase) as Hwl.
    split; [by apply Forall_take|]. exists h. rewrite Hhl.
    rewrite take_app_ge by lia. split.
    + rewrite parse_write_header; [destruct h; simpl in *; congruence | done |].
      intros Hk H1 b Hh. apply (Hone Hk H1). destruct r as [|x r]; [by rewrite take_nil in Hh|].
      destruct (Z.to_nat _ - _)%nat; [done | exact Hh].
    + rewrite length_app in Hn |- *. rewrite length_take. lia.
Qed.

(** If the item is a byte string, they are the encoding of that string. *)
Lemma header_bytes_item rest h n :
  is_bytes rest -> parse_header rest = Ok h -> total_len h = Ok n -> n <= len rest -> kind h = KindBytes ->
  exists b, is_bytes b /\ take (Z.to_nat n) rest = write_bytes b.
Proof.
  intros Hb Hp Ht Hn Hk. pose proof (header_item rest h n Hb Hp Ht Hn) as [Hpos _].
  assert (Hh : 0 <= h_header_len h <= n).
  { unfold total_len, ok_or in Ht. destruct (checked_add_u64 _ _) eqn:Hc; [|done]. injection Ht as ->. apply checked_add_u64_Some in Hc as [_ ->].
    apply parse_header_inv in Hp as [(b & r & _ & _ & ->)|(r & Hpl & -> & _)]; [simpl; lia | | done]. pose proof (header_len_range _ Hpl). lia. }
  assert (Hl : len (take (Z.to_nat n) rest) = n) by (rewrite length_take; lia).
  assert (Hnf : exists f, next_field rest = Ok (f, drop (Z.to_nat n) rest)).
  { unfold next_field. rewrite Hp. unfold mbind, result_bind. rewrite Ht.
    pose proof (slice_get_app [] (take (Z.to_nat n) rest) (drop (Z.to_nat n) rest) 0 n eq_refl ltac:(simpl; lia)) as Hs1.
    simpl app in Hs1. rewrite take_drop in Hs1. rewrite Hs1. cbn [ok_or]. rewrite bool_decide_false by (intros Hne; by apply Hne).
    unfold slice_get at 1. rewrite Hl. destruct (Z.leb_spec (h_header_len h) n); [|lia]. rewrite Z.leb_refl. cbn [andb ok_or].
    pose proof (slice_get_app (take (Z.to_nat n) rest) (drop (Z.to_nat n) rest) [] n (len rest) ltac:(lia)) as Hs2.
    rewrite app_nil_r, take_drop in Hs2. rewrite Hs2 by (rewrite length_drop; lia). eexists. reflexivity. }
  destruct Hnf as [f Hf]. apply next_field_inv in Hf as (Heq & Hbf & _); [|done]. exists f. split; [done|].
  rewrite <- (take_drop (Z.to_nat n) rest) in Heq at 1. by apply app_inv_tail in Heq.
Qed.

(** A successful search: the items before the index, and the bounds found. *)
Lemma find_item_inv fuel p q i idx s e :
  is_bytes q -> len (p ++ q) <= ISIZE_MAX -> find_item fuel (p ++ q) i (len p) idx = Ok (s, e) ->
  exists items item rest,
    q = payload items ++ item ++ rest /\ Forall item_wf items /\ idx + len items = i /\
    s = len (p ++ payload items) /\ e = s + len item /\ (length items < fuel)%nat /\ exists b, is_bytes b /\ item = write_bytes b.
Proof.
  revert p q idx. induction fuel as [|fuel IH]; intros p q idx Hq Hl Hf; [done|].
  cbn [find_item] in Hf. unfold mbind, result_bind in Hf.
  pose proof (slice_get_app p q [] (len p) (len (p ++ q)) eq_refl) as Hs. rewrite app_nil_r in Hs.
  rewrite Hs in Hf by (rewrite length_app; lia). cbn [ok_or] in Hf.
  rewrite length_app, Nat2Z.inj_add in Hl.
  case_bool_decide as Hne; [done|]. destruct (parse_header q) as [h|] eqn:Hp; [|done].
  destruct (total_len h) as [n|] eqn:Ht; [|done]. destruct (Z.ltb_spec (len q) n); [done|].
  destruct (header_item q h n Hq Hp Ht ltac:(lia)) as [H1 Hwf].
  assert (Hw : wrapping_add_u64 (len p) n = len p + n) by (apply wrapping_add_small; ulia).
  rewrite Hw in Hf. set (item := take (Z.to_nat n) q) in *.
  assert (Hli : len item = n) by (unfold item; rewrite length_take; lia).
  destruct (Z.eqb_spec idx i) as [<-|Hni].
  - case_bool_decide as Hk; [done|]. injection Hf as <- <-. exists [], item, (drop (Z.to_nat n) q).
    assert (Hkb : kind h = KindBytes) by (destruct (kind h); [done | by destruct Hk]).
    pose proof (header_bytes_item q h n Hq Hp Ht ltac:(lia) Hkb) as Hit.
    simpl. rewrite app_nil_r. unfold item. rewrite take_drop. fold item. split_and!; done || lia.
  - destruct (checked_add_u64 idx 1) as [idx'|] eqn:Hc; [|done]. cbn [ok_or] in Hf.
    apply checked_add_u64_Some in Hc as [_ ->].
    replace (p ++ q) with ((p ++ item) ++ drop (Z.to_nat n) q) in Hf
      by (unfold item; by rewrite <- app_assoc, take_drop).
    replace (len p + n) with (len (p ++ item)) in Hf by (rewrite length_app; lia).
    apply IH in Hf as (items & it & rest & Hq' & Hwfs & Hi & -> & -> & Hfu & Hit).
    + exists (RlpRaw item :: items), it, rest. rewrite payload_cons. cbn [write_into]. split_and!.
      * rewrite <- app_assoc, <- Hq'. unfold item. by rewrite take_drop.
      * by constructor.
      * simpl length. lia.
      * by rewrite app_assoc.
      * done.
      * simpl. lia.
      * done.
    + by apply Forall_drop.
    + rewrite !length_app, length_drop. lia.
Qed.

(** The outer header of any accepted list. *)
Lemma replace_header p i r :
  len p <= ISIZE_MAX - 9 ->
  replace_list_field (write_header (len p) 0xc0 ++ p) i r =
    ('(item_start, item_end) ← find_item (S (length p)) p i 0 0;
     let old := wrapping_sub_u64 item_end item_start in
     let n := wrapping_add_u64 (wrapping_sub_u64 (len p) old) (bytes_encoded_len r) in
     prefix ← ok_or (slice_get p 0 item_start) Truncated;
     suffix ← ok_or (slice_get p item_end (len p)) Truncated;
     mret (write_header n 0xc0 ++ prefix ++ write_bytes r ++ suffix)).
Proof.
  intros Hf. destruct (parse_list_app p Hf) as (Hp & Ht & Hs).
  unfold replace_list_field. rewrite Hp. unfold mbind, result_bind. cbn [kind h_header_len].
  rewrite bool_decide_false by (intros H; by apply H). rewrite Ht, Z.ltb_irrefl, Hs. reflexivity.
Qed.

(** Only a list is accepted. *)
Lemma replace_list_header input i r out :
  is_bytes input -> replace_list_field input i r = Ok out -> exists p, input = write_header (len p) 0xc0 ++ p.
Proof.
  intros Hb Hrep. unfold replace_list_field, mbind, result_bind in Hrep. destruct (parse_header input) as [h|] eqn:Hp; [|done].
  case_bool_decide as Hk; [done|]. assert (Hkl : kind h = KindList) by (by destruct (kind h); [destruct Hk|]). clear Hk.
  destruct (total_len h) as [t|] eqn:Ht; [|done]. destruct (Z.ltb_spec (len input) t); [done|]. destruct (Z.ltb_spec t (len input)); [done|].
  unfold total_len, ok_or in Ht. destruct (checked_add_u64 _ _) eqn:Hc; [|done]. injection Ht as ->. apply checked_add_u64_Some in Hc as [_ ->].
  apply parse_header_inv in Hp as [(b & rest & _ & _ & ->)|(p & Hn & Hhl & Hin & _)]; [done| |done].
  rewrite Hkl in Hin. cbn [base_of] in Hin. pose proof (header_len_range _ Hn). pose proof (length_write_header (h_payload_len h) 0xc0 Hn ltac:(lia)) as Hwl.
  assert (Hlp : h_payload_len h = len p) by (rewrite Hin, length_app in *; lia). exists p. by rewrite <- Hlp.
Qed.

(** The middle of the payload is replaced. *)
Lemma replace_middle items item rest i r :
  is_bytes r -> len r <= ISIZE_MAX -> 0 <= i ->
  len (payload items ++ item ++ rest) <= ISIZE_MAX - 9 ->
  len (payload items ++ write_bytes r ++ rest) <= ISIZE_MAX - 9 ->
  find_item (S (length (payload items ++ item ++ rest))) (payload items ++ item ++ rest) i 0 0 =
    Ok (len (payload items), len (payload items) + len item) ->
  replace_list_field (write_header (len (payload items ++ item ++ rest)) 0xc0
                      ++ payload items ++ item ++ rest) i r =
    Ok (write_header (len (payload items ++ write_bytes r ++ rest)) 0xc0
        ++ payload items ++ write_bytes r ++ rest).
Proof.
  intros Hr Hrl Hi Hl Hl' Hf. rewrite replace_header by done. rewrite Hf. unfold mbind, result_bind.
  pose proof (slice_get_app [] (payload items) (item ++ rest) 0 (len (payload items)) eq_refl eq_refl) as Hs1.
  pose proof (slice_get_app (payload items ++ item) rest [] (len (payload items ++ item))
    (len (payload items ++ item ++ rest)) eq_refl) as Hs2.
  rewrite app_nil_r, <- app_assoc in Hs2. simpl app in Hs1.
  rewrite Hs1. replace (len (payload items) + len item) with (len (payload items ++ item))
    by (rewrite length_app; lia).
  rewrite Hs2 by (rewrite !length_app; lia). cbn [ok_or]. unfold mret, result_ret. f_equal. f_equal. f_equal.
  destruct (length_write_bytes r Hr Hrl) as [Hwb _]. rewrite !length_app, !Nat2Z.inj_add in *. rewrite <- Hwb.
  rewrite (wrapping_sub_small (len (payload items) + len item)) by ulia.
  rewrite wrapping_sub_small by ulia. rewrite wrapping_add_small by ulia. lia.
Qed.

Lemma find_item_items items w rest i b fuel :
  Forall item_wf items -> is_bytes b -> w = write_bytes b -> len items = i -> i < U64_MAX ->
  len (payload items ++ w ++ rest) <= ISIZE_MAX -> (length items < fuel)%nat ->
  find_item fuel (payload items ++ w ++ rest) i 0 0 = Ok (len (payload items), len (payload items) + len w).
Proof.
  intros Hwf Hb -> <- Hi Hl Hfu.
  assert (Hp : payload items ++ write_bytes b ++ rest = payload (items ++ RlpBytes b :: [RlpRaw rest])).
  { rewrite payload_app, payload_cons. unfold payload at 3. simpl. by rewrite app_nil_r. }
  rewrite Hp in *.
  pose proof (find_item_at fuel items (RlpBytes b) [RlpRaw rest] [] 0 b Hwf Hb eq_refl Hl) as H.
  simpl app in H. change (len (@nil Z)) with 0 in H. rewrite Z.add_0_l in H. rewrite H by lia. simpl write_into. by rewrite length_app, Nat2Z.inj_add.
Qed.

(** A successful replacement, and the same replacement of its result. *)
Lemma replace_list_field_again input i r out :
  is_bytes input -> len input <= ISIZE_MAX - 64 -> is_bytes r -> len r <= 32 -> 0 <= i < U64_MAX ->
  replace_list_field input i r = Ok out ->
  replace_list_field out i r = Ok out /\ is_bytes out /\ len out <= len input + 64.
Proof.
  intros Hb Hl Hr Hrl Hi Hrep0. destruct (replace_list_header _ _ _ _ Hb Hrep0) as (p & ->).
  rewrite length_app in Hl. apply Forall_app in Hb as [Hbh Hbp].
  assert (Hf : exists s e, find_item (S (length p)) p i 0 0 = Ok (s, e)).
  { pose proof Hrep0 as Hrep. rewrite replace_header in Hrep by ulia. unfold mbind at 1, result_bind at 1 in Hrep.
    destruct (find_item (S (length p)) p i 0 0) as [[s e]|]; [by eauto | done]. }
  destruct Hf as (s & e & Hf). pose proof Hf as Hinv.
  apply (find_item_inv _ [] p) in Hinv as (items & item & rest & -> & Hwf & Hi' & Hs & He & Hfu & _); [|done | simpl; lia].
  simpl app in Hs. subst s e. apply Forall_app in Hbp as [Hbi [_ Hbr]%Forall_app].
  destruct (length_write_bytes r Hr ltac:(ulia)) as [Hwb Hwb'].
  assert (Hwr : len (write_bytes r) <= 33 /\ is_bytes (write_bytes r)).
  { destruct (write_bytes_cases r Hr) as [(v & -> & _ & ->)|(-> & _)]; [simpl; split; [lia | done]|].
    rewrite write_header_short by lia. rewrite length_app. simpl length. split; [lia|].
    apply Forall_app. split; [|done]. constructor; [ulia | constructor]. }
  destruct Hwr as [Hwr Hbw].
  assert (Hl' : len (payload items ++ write_bytes r ++ rest) <= ISIZE_MAX - 9)
    by (rewrite !length_app in *; lia).
  rewrite replace_middle in Hrep0 by (done || (rewrite !length_app in *; lia)).
  injection Hrep0 as <-. split_and!.
  - apply replace_middle; [done | ulia | lia | exact Hl' | exact Hl' |].
    apply (find_item_items items _ rest i r); [done | done | done | lia | lia | lia |].
    rewrite length_app. apply Nat.lt_succ_r. etransitivity; [apply items_length; [done|]|]; [|lia].
    rewrite !length_app in *. lia.
  - apply Forall_app. split; [|by repeat (apply Forall_app; split)].
    apply is_bytes_write_header; [ulia | lia].
  - rewrite !length_app, !Nat2Z.inj_add in *. rewrite length_write_header by ulia. 
    pose proof (header_len_range (len (payload items) + (len (write_bytes r) + len rest)) ltac:(ulia)). lia.
Qed.

(** ** What is replaced *)

(** The encoding of a list with the given payload. *)
Definition rlp_list (p : bytes) : bytes := write_header (len p) 0xc0 ++ p.

(** [field_replaced i r x y]: [x] is a list whose item at index [i] is a byte string, and [y] is the list with [r]
    as that item; the items before it and all bytes after it are the same. *)
Inductive field_replaced (i : Z) (r : bytes) : bytes -> bytes -> Prop :=
| field_found items old rest :
    Forall item_wf items -> len items = i -> is_bytes old ->
    field_replaced i r (rlp_list (payload items ++ write_bytes old ++ rest)) (rlp_list (payload items ++ write_bytes r ++ rest)).

Lemma replace_list_field_Ok input i r out :
  is_bytes input -> len input <= ISIZE_MAX - 64 -> is_bytes r -> len r <= 32 -> 0 <= i < U64_MAX ->
  replace_list_field input i r = Ok out -> field_replaced i r input out.
Proof.
  intros Hb Hl Hr Hrl Hi Hrep. destruct (replace_list_header _ _ _ _ Hb Hrep) as (p & ->). rewrite length_app in Hl. apply Forall_app in Hb as [_ Hbp].
  pose proof Hrep as Hf. rewrite replace_header in Hf by ulia. unfold mbind at 1, result_bind at 1 in Hf.
  destruct (find_item (S (length p)) p i 0 0) as [[s e]|] eqn:Hfi; [|done]. clear Hf. pose proof Hfi as Hinv.
  apply (find_item_inv _ [] p) in Hinv as (items & item & rest & -> & Hwf & Hi' & Hs & He & _ & old & Hold & ->); [|done | simpl; lia].
  simpl app in Hs. subst s e.
  assert (Hwr : len (write_bytes r) <= 33).
  { destruct (write_bytes_cases r Hr) as [(v & -> & _ & ->)|(-> & _)]; [simpl; lia|]. rewrite write_header_short by lia. rewrite length_app. simpl length. lia. }
  rewrite replace_middle in Hrep by (done || (rewrite !length_app in *; ulia)).
  injection Hrep as <-. by apply field_found.
Qed.

Lemma replace_list_field_found input i r out :
  len input <= ISIZE_MAX - 64 -> is_bytes r -> len r <= 32 -> 0 <= i < U64_MAX ->
  field_replaced i r input out -> replace_list_field input i r = Ok out.
Proof.
  intros Hl Hr Hrl Hi. destruct 1 as [items old rest Hwf Hlen Hold]. unfold rlp_list in *. rewrite length_app in Hl.
  assert (Hwr : len (write_bytes r) <= 33).
  { destruct (write_bytes_cases r Hr) as [(v & -> & _ & ->)|(-> & _)]; [simpl; lia|]. rewrite write_header_short by lia. rewrite length_app. simpl length. lia. }
  apply replace_middle; [done | ulia | lia | rewrite !length_app in *; lia | rewrite !length_app in *; lia |].
  apply (find_item_items items _ rest i old); [done | done | done | lia | lia | rewrite !length_app in *; lia |].
  pose proof (items_length items Hwf ltac:(rewrite !length_app in *; lia)). rewrite length_app. lia.
Qed.
