(* ===== verification/PersistWorker.v ===== *)
(** * Deferred persistence

    [firewood/src/persist_worker.rs]: the channel between the commit path and
    the background thread that writes revisions to disk, with its permits, and
    the two threads as a transition system. *)

From S2P Require Import Prelude.

(** ** [PersistChannel] *)

Inductive PersistError : Type :=
| FileIo
| RootStoreError
| Shutdown.

Section Channel.
(** Committed revisions, and revisions whose deleted nodes are to be reclaimed. *)
Context {Rev Store : Type}.

Record PersistChannelState : Type := mkChannel {
  permits_available : Z;
  max_permits : Z;
  persist_permits_threshold : Z;
  shutdown : bool;
  pending_reaps : list Store;
  latest_committed : option Rev;
}.

(** The guard that carries the work of one cycle. *)
Record PersistDataGuard : Type := mkGuard {
  permits_to_release : Z;
  guard_reaps : list Store;
  guard_latest : option Rev;
}.

(** [PersistWorker::new]: the threshold is what remains of the gap after half of
    it, rounded up. *)
Definition persist_interval (max_persistence_gap : Z) : Z := (max_persistence_gap + 1) / 2.

Definition threshold_of (max_persistence_gap : Z) : Z :=
  wrapping_sub_u64 max_persistence_gap (persist_interval max_persistence_gap).

(** [PersistChannel::new], as [PersistWorker::new] calls it. *)
Definition PersistChannel_new (max_persistence_gap : Z) : PersistChannelState :=
  mkChannel max_persistence_gap max_persistence_gap (threshold_of max_persistence_gap) false [] None.

Definition channel_empty (st : PersistChannelState) : bool := permits_available st =? max_permits st.

(** [PersistChannel::reap]; a success notifies the background thread. *)
Definition channel_reap (st : PersistChannelState) (nodestore : Store) : result PersistError PersistChannelState :=
  if shutdown st then Err Shutdown
  else Ok (mkChannel (permits_available st) (max_permits st) (persist_permits_threshold st) (shutdown st)
             (pending_reaps st ++ [nodestore]) (latest_committed st)).

(** One pass of [push] under the lock: wait on [commit_not_full], fail, or store
    the revision; the flag says whether [persist_ready] is notified. *)
Inductive push_outcome : Type :=
| PushWait
| PushErr (e : PersistError)
| PushOk (st : PersistChannelState) (notify : bool).

Definition push (st : PersistChannelState) (revision : Rev) : push_outcome :=
  if (permits_available st =? 0) && negb (shutdown st) then PushWait
  else if shutdown st then PushErr Shutdown
  else
    let permits := wrapping_sub_u64 (permits_available st) 1 in
    PushOk (mkChannel permits (max_permits st) (persist_permits_threshold st) (shutdown st)
              (pending_reaps st) (Some revision))
      (permits <=? persist_permits_threshold st).

(** One pass of the loop of [pop] under the lock: wait on [persist_ready], fail,
    or hand out work. *)
Inductive pop_outcome : Type :=
| PopWait
| PopErr (e : PersistError)
| PopOk (g : PersistDataGuard) (st : PersistChannelState).

Definition pop (st : PersistChannelState) : pop_outcome :=
  if shutdown st then PopErr Shutdown
  else if (permits_available st <=? persist_permits_threshold st)
          && match latest_committed st with Some _ => true | None => false end then
    PopOk (mkGuard (wrapping_sub_u64 (max_permits st) (permits_available st)) (pending_reaps st)
             (latest_committed st))
      (mkChannel (permits_available st) (max_permits st) (persist_permits_threshold st) (shutdown st) [] None)
  else if negb (match pending_reaps st with [] => true | _ => false end) then
    PopOk (mkGuard 0 (pending_reaps st) None)
      (mkChannel (permits_available st) (max_permits st) (persist_permits_threshold st) (shutdown st) []
         (latest_committed st))
  else PopWait.

(** [Drop] of the guard: the flag says whether [commit_not_full] is notified. *)
Definition guard_drop (g : PersistDataGuard) (st : PersistChannelState) : PersistChannelState * bool :=
  if permits_to_release g =? 0 then (st, false)
  else (mkChannel (Z.min (saturating_add_u64 (permits_available st) (permits_to_release g)) (max_permits st))
          (max_permits st) (persist_permits_threshold st) (shutdown st) (pending_reaps st) (latest_committed st),
        true).

(** [PersistChannel::close]; both condition variables are notified. *)
Definition channel_close (st : PersistChannelState) : PersistChannelState :=
  mkChannel (permits_available st) (max_permits st) (persist_permits_threshold st) true (pending_reaps st)
    (latest_committed st).

End Channel.
Arguments PersistChannelState : clear implicits.
Arguments PersistDataGuard : clear implicits.
Arguments push_outcome : clear implicits.
Arguments pop_outcome : clear implicits.

(** ** The two threads

    Revisions are numbered in the order they are committed; number 0 is on disk
    when the worker starts.  Commits hold the write lock of the revision queue,
    so at most one of them is in the channel at a time.  A step is one critical
    section under the channel's lock, or one disk operation. *)

Abbreviation channel := (PersistChannelState nat nat).
Abbreviation guard := (PersistDataGuard nat nat).

(** The background thread: at the loop condition of [pop], parked on
    [persist_ready], in the body of [event_loop], after its loop, back in [run]
    with an error that is not stored yet, dropping the [PersistLoop], or gone. *)
Inductive background : Type :=
| BgPop
| BgParked
| BgWork (g : guard)
| BgExit
| BgFailed (e : PersistError)
| BgClosing
| BgDone.

(** The committing thread: outside, at the loop condition of [push], parked on
    [commit_not_full], or in [join_handle]. *)
Inductive committer : Type :=
| CIdle
| CPush
| CParked
| CJoin.

#[global] Instance committer_eq_dec : EqDecision committer.
Proof. solve_decision. Defined.

Record system : Type := mkSystem {
  s_channel : channel;
  s_error : option PersistError;
  s_persist_on_shutdown : option nat;
  s_background : background;
  s_committer : committer;
  s_submitted : nat;
  s_persisted : nat;
}.

Definition system_new (max_persistence_gap : Z) : system :=
  mkSystem (PersistChannel_new max_persistence_gap) None None BgPop CIdle 0 0.

(** [notify_one] on [persist_ready]. *)
Definition notify_background (notify : bool) (b : background) : background :=
  match b with BgParked => if notify then BgPop else BgParked | _ => b end.

(** A notification on [commit_not_full]. *)
Definition notify_committer (notify : bool) (c : committer) : committer :=
  match c with CParked => if notify then CPush else CParked | _ => c end.

(** An error leaves [event_loop]: the guard is dropped on the way out. *)
Definition work_fails (s : system) (g : guard) (e : PersistError) (persisted : nat) : system :=
  let (ch, notify) := guard_drop g (s_channel s) in
  mkSystem ch (s_error s) (s_persist_on_shutdown s) (BgFailed e) (notify_committer notify (s_committer s))
    (s_submitted s) persisted.

(** [Drop] of [PersistLoop] when the thread ends: the channel is closed and the
    committer notified. *)
Definition thread_ends (s : system) : system :=
  mkSystem (channel_close (s_channel s)) (s_error s) (s_persist_on_shutdown s) BgDone
    (notify_committer true (s_committer s)) (s_submitted s) (s_persisted s).

(** The root store is written after the revision itself. *)
Definition persisted_at_failure (e : PersistError) (revision old : nat) : nat :=
  match e with RootStoreError => revision | _ => old end.

(** [submit_revision] after a failed [push]: the result of [check_error]. *)
Definition check_error (s : system) : result PersistError unit :=
  match s_error s with Some e => Err e | None => Ok tt end.

Inductive step : system -> system -> Prop :=
(* The committing thread. *)
| step_submit s :
    s_committer s = CIdle -> s_persist_on_shutdown s = None ->
    step s (mkSystem (s_channel s) (s_error s) None (s_background s) CPush (s_submitted s) (s_persisted s))
| step_push_wait s :
    s_committer s = CPush -> push (s_channel s) (S (s_submitted s)) = PushWait ->
    step s (mkSystem (s_channel s) (s_error s) (s_persist_on_shutdown s) (s_background s) CParked
              (s_submitted s) (s_persisted s))
| step_push_err s e :
    s_committer s = CPush -> push (s_channel s) (S (s_submitted s)) = PushErr e ->
    step s (mkSystem (s_channel s) (s_error s) (s_persist_on_shutdown s) (s_background s) CJoin
              (s_submitted s) (s_persisted s))
| step_push_ok s ch notify :
    s_committer s = CPush -> push (s_channel s) (S (s_submitted s)) = PushOk ch notify ->
    step s (mkSystem ch (s_error s) (s_persist_on_shutdown s) (notify_background notify (s_background s)) CIdle
              (S (s_submitted s)) (s_persisted s))
| step_reap s n ch :
    s_committer s = CIdle -> s_persist_on_shutdown s = None -> channel_reap (s_channel s) n = Ok ch ->
    step s (mkSystem ch (s_error s) None (notify_background true (s_background s)) CIdle
              (s_submitted s) (s_persisted s))
| step_reap_err s n e :
    s_committer s = CIdle -> s_persist_on_shutdown s = None -> channel_reap (s_channel s) n = Err e ->
    step s (mkSystem (s_channel s) (s_error s) None (s_background s) CJoin (s_submitted s) (s_persisted s))
| step_close s :
    s_committer s = CIdle -> s_persist_on_shutdown s = None ->
    step s (mkSystem (channel_close (s_channel s)) (s_error s) (Some (s_submitted s))
              (notify_background true (s_background s)) CJoin (s_submitted s) (s_persisted s))
| step_join s :
    s_committer s = CJoin -> s_background s = BgDone ->
    step s (mkSystem (s_channel s) (s_error s) (s_persist_on_shutdown s) BgDone CIdle
              (s_submitted s) (s_persisted s))
(* The background thread. *)
| step_pop_wait s :
    s_background s = BgPop -> pop (s_channel s) = PopWait ->
    step s (mkSystem (s_channel s) (s_error s) (s_persist_on_shutdown s) BgParked (s_committer s)
              (s_submitted s) (s_persisted s))
| step_pop_err s e :
    s_background s = BgPop -> pop (s_channel s) = PopErr e ->
    step s (mkSystem (s_channel s) (s_error s) (s_persist_on_shutdown s) BgExit (s_committer s)
              (s_submitted s) (s_persisted s))
| step_pop_ok s g ch :
    s_background s = BgPop -> pop (s_channel s) = PopOk g ch ->
    step s (mkSystem ch (s_error s) (s_persist_on_shutdown s) (BgWork g) (s_committer s)
              (s_submitted s) (s_persisted s))
| step_reap_done s p r rs l :
    s_background s = BgWork (mkGuard p (r :: rs) l) ->
    step s (mkSystem (s_channel s) (s_error s) (s_persist_on_shutdown s) (BgWork (mkGuard p rs l)) (s_committer s)
              (s_submitted s) (s_persisted s))
| step_reap_fails s p r rs l :
    s_background s = BgWork (mkGuard p (r :: rs) l) ->
    step s (work_fails s (mkGuard p rs l) FileIo (s_persisted s))
| step_persist_done s p revision :
    s_background s = BgWork (mkGuard p [] (Some revision)) ->
    step s (mkSystem (s_channel s) (s_error s) (s_persist_on_shutdown s) (BgWork (mkGuard p [] None)) (s_committer s)
              (s_submitted s) revision)
| step_persist_fails s p revision e :
    s_background s = BgWork (mkGuard p [] (Some revision)) -> e <> Shutdown ->
    step s (work_fails s (mkGuard p [] None) e (persisted_at_failure e revision (s_persisted s)))
| step_cycle_ends s p :
    s_background s = BgWork (mkGuard p [] None) ->
    step s (let (ch, notify) := guard_drop (mkGuard p [] None) (s_channel s) in
            mkSystem ch (s_error s) (s_persist_on_shutdown s) BgPop (notify_committer notify (s_committer s))
              (s_submitted s) (s_persisted s))
| step_exit_persist s revision :
    s_background s = BgExit -> s_persist_on_shutdown s = Some revision -> channel_empty (s_channel s) = false ->
    step s (mkSystem (s_channel s) (s_error s) (s_persist_on_shutdown s) BgClosing (s_committer s)
              (s_submitted s) revision)
| step_exit_fails s revision e :
    s_background s = BgExit -> s_persist_on_shutdown s = Some revision -> channel_empty (s_channel s) = false ->
    e <> Shutdown ->
    step s (mkSystem (s_channel s) (s_error s) (s_persist_on_shutdown s) (BgFailed e) (s_committer s)
              (s_submitted s) (persisted_at_failure e revision (s_persisted s)))
| step_exit_nothing s :
    s_background s = BgExit ->
    (s_persist_on_shutdown s = None \/ channel_empty (s_channel s) = true) ->
    step s (mkSystem (s_channel s) (s_error s) (s_persist_on_shutdown s) BgClosing (s_committer s)
              (s_submitted s) (s_persisted s))
| step_store_error s e :
    s_background s = BgFailed e ->
    step s (mkSystem (s_channel s) (Some e) (s_persist_on_shutdown s) BgClosing (s_committer s)
              (s_submitted s) (s_persisted s))
| step_thread_ends s :
    s_background s = BgClosing ->
    step s (thread_ends s).

Inductive reachable (gap : Z) : system -> Prop :=
| reachable_new : reachable gap (system_new gap)
| reachable_step s s' : reachable gap s -> step s s' -> reachable gap s'.

(** ** The invariant *)

(** The permits the current cycle will return. *)
Definition held (b : background) : Z :=
  match b with BgWork g => permits_to_release g | _ => 0 end.

(** [rel]: how many commits have had their permits returned. *)
Record inv (gap : Z) (s : system) (rel : Z) : Prop := mkInv {
  i_max : max_permits (s_channel s) = gap;
  i_threshold : persist_permits_threshold (s_channel s) = gap / 2;
  i_rel : 0 <= rel <= Z.of_nat (s_submitted s);
  i_permits : permits_available (s_channel s) = gap - (Z.of_nat (s_submitted s) - rel);
  i_permits_pos : 0 <= permits_available (s_channel s);
  i_held : 0 <= held (s_background s) /\ rel + held (s_background s) <= Z.of_nat (s_submitted s);
  i_guard g : s_background s = BgWork g ->
    match guard_latest g with
    | Some r => Z.of_nat r = rel + permits_to_release g /\ Z.of_nat (s_persisted s) = rel
    | None => Z.of_nat (s_persisted s) = rel + permits_to_release g
    end;
  i_persisted : s_background s = BgPop \/ s_background s = BgParked \/ s_background s = BgExit ->
    Z.of_nat (s_persisted s) = rel;
  i_latest : s_background s <> BgDone ->
    latest_committed (s_channel s) =
      if rel + held (s_background s) <? Z.of_nat (s_submitted s) then Some (s_submitted s) else None;
  i_parked : s_background s = BgParked ->
    shutdown (s_channel s) = false /\ pending_reaps (s_channel s) = [] /\
    (permits_available (s_channel s) <= gap / 2 -> latest_committed (s_channel s) = None);
  i_blocked : s_committer s = CParked ->
    shutdown (s_channel s) = false /\ permits_available (s_channel s) = 0;
  i_shutdown : shutdown (s_channel s) = true <->
    s_persist_on_shutdown s <> None \/ s_background s = BgDone;
  i_closed r : s_persist_on_shutdown s = Some r -> r = s_submitted s /\ s_committer s <> CPush;
  i_error : s_error s <> None -> s_background s = BgClosing \/ s_background s = BgDone;
  i_exit : s_background s = BgExit \/ (s_background s = BgClosing \/ s_background s = BgDone) /\ s_error s = None ->
    s_persist_on_shutdown s <> None;
  i_done : s_background s = BgClosing \/ s_background s = BgDone -> s_error s = None ->
    s_persisted s = s_submitted s;
  i_join : s_committer s = CJoin -> shutdown (s_channel s) = true;
}.

Lemma threshold_value gap : 1 <= gap <= U64_MAX -> threshold_of gap = gap / 2.
Proof.
  intros Hg. unfold threshold_of, persist_interval, wrapping_sub_u64.
  rewrite Z.mod_small; dlia.
Qed.

(** Discharge the fields of the invariant of a concrete next state. *)
Ltac inv_fields :=
  split; simpl in *; try done; try lia; try (intros; simplify_eq; intuition (congruence || lia)).

(** The invariant of the state before a step, field by field. *)
Ltac inv_open H :=
  destruct H as [Hmax Hthr Hrel Hperm Hpos Hheld Hguard Hper Hlat Hpark Hblk Hsd Hclosed Herr Hexit Hdone Hjoin];
  simpl in *.

Lemma inv_new gap : 1 <= gap <= U64_MAX -> inv gap (system_new gap) 0.
Proof. intros Hg. pose proof (threshold_value gap Hg). inv_fields. Qed.

(** What each outcome of [push] says. *)
Lemma push_wait_inv {Rev Store} (st : PersistChannelState Rev Store) r :
  push st r = PushWait -> permits_available st = 0 /\ shutdown st = false.
Proof.
  unfold push. destruct (Z.eqb_spec (permits_available st) 0), (shutdown st); simpl; done.
Qed.

Lemma push_err_inv {Rev Store} (st : PersistChannelState Rev Store) r e :
  push st r = PushErr e -> shutdown st = true.
Proof. unfold push. destruct (permits_available st =? 0), (shutdown st); simpl; done. Qed.

Lemma push_ok_inv {Rev Store} (st : PersistChannelState Rev Store) r ch notify :
  push st r = PushOk ch notify -> 0 <= permits_available st <= U64_MAX ->
  permits_available st <> 0 /\ shutdown st = false /\
  ch = mkChannel (permits_available st - 1) (max_permits st) (persist_permits_threshold st) false
         (pending_reaps st) (Some r) /\
  notify = (permits_available st - 1 <=? persist_permits_threshold st).
Proof.
  unfold push. intros Hp Hb. destruct (Z.eqb_spec (permits_available st) 0), (shutdown st); simpl in Hp; try done.
  injection Hp as <- <-. by rewrite wrapping_sub_small by lia.
Qed.

(** A notification leaves the background thread where it was, unless parked. *)
Lemma notify_background_cases notify bg :
  notify_background notify bg = bg /\ (bg = BgParked -> notify = false) \/
  bg = BgParked /\ notify = true /\ notify_background notify bg = BgPop.
Proof. destruct bg, notify; simpl; auto; left; done. Qed.

Lemma notify_committer_cases notify c :
  notify_committer notify c = c /\ (c = CParked -> notify = false) \/
  c = CParked /\ notify = true /\ notify_committer notify c = CPush.
Proof. destruct c, notify; simpl; auto; left; done. Qed.

(** A stored revision takes a permit; the parked thread is woken when there is
    work for it. *)
Lemma inv_push_ok gap ch err pos bg sub per rel ch' notify :
  1 <= gap <= U64_MAX ->
  inv gap (mkSystem ch err pos bg CPush sub per) rel -> push ch (S sub) = PushOk ch' notify ->
  inv gap (mkSystem ch' err pos (notify_background notify bg) CIdle (S sub) per) rel.
Proof.
  intros Hg Hinv Hp. inv_open Hinv. apply push_ok_inv in Hp as (Hne & Hs & -> & Hn); [|lia].
  rewrite Hmax, Hthr in *.
  assert (Hpos' : pos = None) by (destruct pos as [r|]; [destruct (Hclosed r eq_refl); congruence | done]).
  assert (Hbg : bg <> BgDone /\ ~ (bg = BgClosing /\ err = None) /\ bg <> BgExit)
    by (rewrite Hs in Hsd; intuition congruence).
  destruct (notify_background_cases notify bg) as [[-> Hnp]|(-> & -> & ->)]; inv_fields.
  - intros Hb. by destruct (Z.ltb_spec (rel + held bg) (Z.of_nat (S sub))); [|lia].
  - intros _. by destruct (Z.ltb_spec (rel + 0) (Z.of_nat (S sub))); [|lia].
Qed.

(** Handing out work: the cycle covers every commit so far, or only reaps. *)
Lemma pop_ok_inv {Rev Store} (st : PersistChannelState Rev Store) g st' :
  pop st = PopOk g st' ->
  shutdown st = false /\
  st' = mkChannel (permits_available st) (max_permits st) (persist_permits_threshold st) false []
          (latest_committed st') /\
  (permits_to_release g = wrapping_sub_u64 (max_permits st) (permits_available st) /\
   guard_latest g = latest_committed st /\ latest_committed st <> None /\ latest_committed st' = None \/
   permits_to_release g = 0 /\ guard_latest g = None /\ latest_committed st' = latest_committed st).
Proof.
  unfold pop. intros Hp. destruct (shutdown st); [done|].
  destruct (_ <=? _), (latest_committed st) eqn:Hl, (pending_reaps st); simpl in Hp; try done;
    injection Hp as <- <-; simpl; split_and!; auto.
  all: left; done.
Qed.

Lemma inv_pop_ok gap ch err pos com sub per rel g ch' :
  1 <= gap <= U64_MAX ->
  inv gap (mkSystem ch err pos BgPop com sub per) rel -> pop ch = PopOk g ch' ->
  inv gap (mkSystem ch' err pos (BgWork g) com sub per) rel.
Proof.
  intros Hg Hinv Hp. inv_open Hinv. specialize (Hlat ltac:(done)). specialize (Hper ltac:(auto)).
  rewrite Z.add_0_r in Hlat. apply pop_ok_inv in Hp as (Hs & -> & Hcase). rewrite Hs, Hmax, Hthr in *.
  destruct Hcase as [(Hrel' & Hgl & Hne & Hl')|(Hrel' & Hgl & Hl')]; simpl in Hl'; rewrite ?Hl' in *.
  - rewrite wrapping_sub_small in Hrel' by lia. rewrite Hlat in Hgl, Hne.
    destruct (Z.ltb_spec rel (Z.of_nat sub)) as [Hlt|]; [|done].
    inv_fields; rewrite ?Hrel'; try lia.
    + intros g' [= <-]. rewrite Hgl. lia.
    + intros _. by destruct (Z.ltb_spec (rel + (gap - permits_available ch)) (Z.of_nat sub)); [lia|].
  - inv_fields; rewrite ?Hrel', ?Z.add_0_r; try done; try lia.
    intros g' [= <-]. rewrite Hgl. lia.
Qed.

Lemma guard_drop_spec {Rev Store} (g : PersistDataGuard Rev Store) ch :
  0 <= permits_available ch -> 0 <= permits_to_release g ->
  permits_available ch + permits_to_release g <= max_permits ch <= U64_MAX ->
  guard_drop g ch =
    (mkChannel (permits_available ch + permits_to_release g) (max_permits ch) (persist_permits_threshold ch)
       (shutdown ch) (pending_reaps ch) (latest_committed ch), negb (permits_to_release g =? 0)).
Proof.
  intros Hp Hr Hm. unfold guard_drop. destruct (Z.eqb_spec (permits_to_release g) 0) as [->|]; simpl.
  - rewrite Z.add_0_r. by destruct ch.
  - unfold saturating_add_u64. by rewrite !Z.min_l by lia.
Qed.

(** The guard is dropped: the permits of the cycle are returned, and a parked
    committer is woken if there were any. *)
Lemma inv_guard_drop gap ch err pos g com sub per rel bg' per' :
  1 <= gap <= U64_MAX ->
  inv gap (mkSystem ch err pos (BgWork g) com sub per) rel ->
  (bg' = BgPop /\ guard_latest g = None /\ per' = per) \/ (exists e, bg' = BgFailed e) ->
  inv gap (mkSystem (fst (guard_drop g ch)) err pos bg' (notify_committer (snd (guard_drop g ch)) com) sub per')
    (rel + permits_to_release g).
Proof.
  intros Hg Hinv Hbg. inv_open Hinv. specialize (Hguard _ eq_refl). specialize (Hlat ltac:(done)).
  rewrite guard_drop_spec by lia. simpl.
  assert (Hh : held bg' = 0) by (by destruct Hbg as [(-> & _)|[e ->]]).
  destruct (notify_committer_cases (negb (permits_to_release g =? 0)) com) as [[-> Hnp]|(-> & Hn & ->)].
  all: destruct Hbg as [(-> & Hl & ->)|[e ->]]; try rewrite Hl in Hguard; inv_fields; rewrite ?Z.add_0_r; auto; try lia.
Qed.

Lemma inv_work_fails gap s g e per' rel :
  1 <= gap <= U64_MAX -> inv gap s rel -> s_background s = BgWork g ->
  forall rs l, inv gap (work_fails s (mkGuard (permits_to_release g) rs l) e per') (rel + permits_to_release g).
Proof.
  intros Hg Hinv Hb rs l. destruct s as [ch err pos bg com sub per]. simpl in *. subst bg.
  pose proof (inv_guard_drop gap ch err pos g com sub per rel (BgFailed e) per' Hg Hinv ltac:(eauto)) as H.
  unfold work_fails. simpl. by destruct (guard_drop g ch) eqn:E; unfold guard_drop in *; simpl in *;
    destruct (_ =? _); simplify_eq.
Qed.

(** The thread leaves the loop after shutdown, with everything on disk or with an
    error. *)
Lemma inv_exit gap ch err pos com sub per rel bg' per' :
  inv gap (mkSystem ch err pos BgExit com sub per) rel ->
  (bg' = BgClosing /\ per' = sub) \/ (exists e, bg' = BgFailed e) ->
  inv gap (mkSystem ch err pos bg' com sub per') rel.
Proof.
  intros Hinv Hbg. inv_open Hinv. destruct Hbg as [[-> ->]|[e ->]]; inv_fields.
Qed.

Lemma inv_store_error gap ch err pos e com sub per rel :
  inv gap (mkSystem ch err pos (BgFailed e) com sub per) rel ->
  inv gap (mkSystem ch (Some e) pos BgClosing com sub per) rel.
Proof. intros Hinv. inv_open Hinv. inv_fields. Qed.

Lemma inv_thread_ends gap s rel :
  inv gap s rel -> s_background s = BgClosing -> inv gap (thread_ends s) rel.
Proof.
  intros Hinv Hb. destruct s as [ch err pos bg com sub per]. simpl in Hb. subst bg. inv_open Hinv.
  unfold thread_ends. simpl. destruct (notify_committer_cases true com) as [[-> Hnp]|(-> & Hn & ->)]; inv_fields.
Qed.

(** Steps that move the control of one thread and leave the channel alone. *)
Lemma inv_committer gap ch err pos bg com com' sub per rel :
  inv gap (mkSystem ch err pos bg com sub per) rel ->
  (com = CIdle /\ com' = CPush /\ pos = None) \/
  (com = CPush /\ com' = CParked /\ push ch (S sub) = PushWait) \/
  (com' = CJoin /\ shutdown ch = true) \/ (com = CJoin /\ com' = CIdle) ->
  inv gap (mkSystem ch err pos bg com' sub per) rel.
Proof.
  intros Hinv Hcom. inv_open Hinv.
  destruct Hcom as [(-> & -> & Hn)|[(-> & -> & Hw)|[(-> & Hs)|(-> & ->)]]].
  2: apply push_wait_inv in Hw.
  all: split; simpl in *; auto; try done; try tauto.
  all: intros r Hr; destruct (Hclosed r Hr); split; congruence.
Qed.

Lemma inv_pop_wait gap ch err pos com sub per rel :
  inv gap (mkSystem ch err pos BgPop com sub per) rel -> pop ch = PopWait ->
  inv gap (mkSystem ch err pos BgParked com sub per) rel.
Proof.
  intros Hinv Hw. inv_open Hinv. unfold pop in Hw. inv_fields.
  intros _. destruct (shutdown ch); [done|]. rewrite Hthr in Hw.
  destruct (Z.leb_spec (permits_available ch) (gap / 2)), (latest_committed ch), (pending_reaps ch); simpl in Hw;
    try done; split_and!; done || lia.
Qed.

Lemma inv_pop_err gap ch err pos com sub per rel :
  inv gap (mkSystem ch err pos BgPop com sub per) rel -> shutdown ch = true ->
  inv gap (mkSystem ch err pos BgExit com sub per) rel.
Proof. intros Hinv Hw. inv_open Hinv. inv_fields. Qed.

Lemma inv_close gap ch err bg sub per rel :
  inv gap (mkSystem ch err None bg CIdle sub per) rel ->
  inv gap (mkSystem (channel_close ch) err (Some sub) (notify_background true bg) CJoin sub per) rel.
Proof.
  intros Hinv. inv_open Hinv. destruct (notify_background_cases true bg) as [[-> Hnp]|(-> & _ & ->)]; inv_fields.
Qed.

Lemma inv_reap gap ch err bg sub per rel n ch' :
  inv gap (mkSystem ch err None bg CIdle sub per) rel -> channel_reap ch n = Ok ch' ->
  inv gap (mkSystem ch' err None (notify_background true bg) CIdle sub per) rel.
Proof.
  intros Hinv Hr. inv_open Hinv. unfold channel_reap in Hr. destruct (shutdown ch) eqn:Hs; [done|].
  injection Hr as <-. destruct (notify_background_cases true bg) as [[-> Hnp]|(-> & _ & ->)]; inv_fields.
Qed.

(** Progress inside a cycle. *)
Lemma inv_work gap ch err pos com sub per per' rel p rs rs' l l' :
  inv gap (mkSystem ch err pos (BgWork (mkGuard p rs l)) com sub per) rel ->
  (l' = l /\ per' = per) \/ (exists r, l = Some r /\ l' = None /\ per' = r) ->
  inv gap (mkSystem ch err pos (BgWork (mkGuard p rs' l')) com sub per') rel.
Proof.
  intros Hinv Hl. inv_open Hinv. specialize (Hguard _ eq_refl). simpl in Hguard. inv_fields.
  intros g [= <-]. simpl. destruct Hl as [[-> ->]|(r & -> & -> & ->)]; [done | tauto].
Qed.

Lemma inv_cycle_ends gap ch err pos com sub per rel p :
  1 <= gap <= U64_MAX ->
  inv gap (mkSystem ch err pos (BgWork (mkGuard p [] None)) com sub per) rel ->
  let (ch', notify) := guard_drop (mkGuard p [] None) ch in
  inv gap (mkSystem ch' err pos BgPop (notify_committer notify com) sub per) (rel + p).
Proof.
  intros Hg Hinv.
  pose proof (inv_guard_drop gap ch err pos _ com sub per rel BgPop per Hg Hinv ltac:(left; done)) as H.
  by destruct (guard_drop _ ch).
Qed.

Lemma inv_step gap s s' rel :
  1 <= gap <= U64_MAX -> inv gap s rel -> step s s' -> exists rel', inv gap s' rel'.
Proof.
  intros Hg Hinv Hst. destruct Hst as
    [s Hc Hp|s Hc Hp|s e Hc Hp|s ch n Hc Hp|s n ch Hc Hp Hr|s n e Hc Hp Hr|s Hc Hp|s Hc Hb
    |s Hb Hp|s e Hb Hp|s g ch Hb Hp|s p r rs l Hb|s p r rs l Hb|s p r Hb|s p r e Hb He|s p Hb
    |s r Hb Hp He|s r e Hb Hp He Hne|s Hb Hp|s e Hb|s Hb].
  all: destruct s as [ch0 err pos bg com sub per]; simpl in *; subst.
  - exists rel. eapply inv_committer; [exact Hinv | auto].
  - exists rel. eapply inv_committer; [exact Hinv | auto].
  - exists rel. apply push_err_inv in Hp. eapply inv_committer; [exact Hinv | tauto].
  - exists rel. by eapply inv_push_ok.
  - exists rel. by eapply inv_reap.
  - exists rel. eapply inv_committer; [exact Hinv|]. unfold channel_reap in Hr. destruct (shutdown ch0); [auto | done].
  - exists rel. by apply inv_close.
  - exists rel. eapply inv_committer; [exact Hinv | auto].
  - exists rel. by apply inv_pop_wait.
  - exists rel. apply inv_pop_err; [done|]. unfold pop in Hp. destruct (shutdown ch0); [done|].
    destruct (_ && _); [done|]. by destruct (negb _).
  - exists rel. by eapply inv_pop_ok.
  - exists rel. eapply inv_work; [exact Hinv | by left].
  - eexists. by eapply (inv_work_fails gap _ (mkGuard p (r :: rs) l)).
  - exists rel. eapply inv_work; [exact Hinv | right; eauto].
  - eexists. by eapply (inv_work_fails gap _ (mkGuard p [] (Some r))).
  - exists (rel + p). pose proof (inv_cycle_ends gap ch0 err pos com sub per rel p Hg Hinv) as Hc.
    by destruct (guard_drop (mkGuard p [] None) ch0).
  - exists rel. eapply inv_exit; [exact Hinv|]. left. by destruct (i_closed _ _ _ Hinv r eq_refl).
  - exists rel. eapply inv_exit; [exact Hinv | eauto].
  - exists rel. eapply inv_exit; [exact Hinv|]. left. split; [done|].
    pose proof (i_exit _ _ _ Hinv ltac:(auto)) as Hpos. simpl in Hpos. destruct Hp as [?|Hp]; [done|].
    unfold channel_empty in Hp. apply Z.eqb_eq in Hp.
    pose proof (i_permits _ _ _ Hinv). pose proof (i_max _ _ _ Hinv).
    pose proof (i_persisted _ _ _ Hinv ltac:(auto)). simpl in *. lia.
  - exists rel. by eapply inv_store_error.
  - exists rel. by apply inv_thread_ends.
Qed.

Lemma reachable_inv gap s : 1 <= gap <= U64_MAX -> reachable gap s -> exists rel, inv gap s rel.
Proof.
  intros Hg. induction 1 as [|s s' _ [rel IH] Hst]; [exists 0; by apply inv_new|]. by eapply inv_step.
Qed.

(** ** Every call returns *)

(** On every schedule, [P] holds after finitely many steps, and no schedule stops
    before. *)
Inductive eventually (P : system -> Prop) (s : system) : Prop :=
| eventually_now : P s -> eventually P s
| eventually_step : (exists s', step s s') -> (forall s', step s s' -> eventually P s') -> eventually P s.

(** An upper bound on the steps the background thread can take by itself. *)
Definition background_work (s : system) : nat :=
  match s_background s with
  | BgPop => 5
  | BgWork g => 6 + length (guard_reaps g) + match guard_latest g with Some _ => 1 | None => 0 end
  | BgExit => 3
  | BgFailed _ => 2
  | BgClosing => 1
  | BgParked | BgDone => 0
  end + 10 * length (pending_reaps (s_channel s)) +
  match latest_committed (s_channel s) with Some _ => 10 | None => 0 end.

Definition committer_rank (c : committer) : nat :=
  match c with CIdle => 0 | CJoin => 1 | CParked => 1 | CPush => 2 end.

Definition wait_measure (s : system) : nat := 3 * background_work s + committer_rank (s_committer s).

Lemma committer_rank_bound c : (committer_rank c <= 2)%nat.
Proof. destruct c; simpl; lia. Qed.

Lemma guard_drop_queues {Rev Store} (g : PersistDataGuard Rev Store) ch :
  pending_reaps (fst (guard_drop g ch)) = pending_reaps ch /\
  latest_committed (fst (guard_drop g ch)) = latest_committed ch.
Proof. unfold guard_drop. by destruct (_ =? 0). Qed.

Lemma pop_ok_work {Rev Store} (st : PersistChannelState Rev Store) g st' :
  pop st = PopOk g st' ->
  guard_reaps g = pending_reaps st /\ pending_reaps st' = [] /\
  (guard_latest g = latest_committed st /\ latest_committed st <> None /\ latest_committed st' = None \/
   guard_latest g = None /\ latest_committed st' = latest_committed st /\ pending_reaps st <> []).
Proof.
  unfold pop. intros Hp. destruct (shutdown st); [done|].
  destruct (_ <=? _), (latest_committed st) eqn:Hl, (pending_reaps st); simpl in Hp; try done;
    injection Hp as <- <-; simpl; split_and!; auto; (by left) || by right.
Qed.

(** Until the call of the committing thread returns, each step is work done. *)
Lemma wait_measure_step s s' :
  step s s' -> s_committer s <> CIdle -> s_committer s' = CIdle \/ (wait_measure s' < wait_measure s)%nat.
Proof.
  intros Hst. destruct Hst as
    [s Hc Hp|s Hc Hp|s e Hc Hp|s ch n Hc Hp|s n ch Hc Hp Hr|s n e Hc Hp Hr|s Hc Hp|s Hc Hb
    |s Hb Hp|s e Hb Hp|s g ch Hb Hp|s p r rs l Hb|s p r rs l Hb|s p r Hb|s p r e Hb He|s p Hb
    |s r Hb Hp He|s r e Hb Hp He Hne|s Hb Hp|s e Hb|s Hb].
  all: destruct s as [ch0 err pos bg com sub per]; simpl in *; subst; intros Hcom; try done; auto; right;
    unfold work_fails, thread_ends, wait_measure, background_work; simpl; try lia.
  - apply pop_ok_work in Hp as (-> & -> & [(-> & Hne & ->)|(-> & -> & Hne)]); simpl.
    + destruct (latest_committed ch0); [lia | done].
    + destruct (pending_reaps ch0); [done | simpl; lia].
  - pose proof (guard_drop_queues (mkGuard p rs l) ch0) as [Hq1 Hq2]. destruct (guard_drop _ ch0) as [ch' n].
    simpl in *. rewrite Hq1, Hq2. pose proof (committer_rank_bound (notify_committer n com)). lia.
  - pose proof (guard_drop_queues (mkGuard p [] None) ch0) as [Hq1 Hq2]. destruct (guard_drop _ ch0) as [ch' n].
    simpl in *. rewrite Hq1, Hq2. pose proof (committer_rank_bound (notify_committer n com)). lia.
  - pose proof (guard_drop_queues (mkGuard p [] None) ch0) as [Hq1 Hq2]. destruct (guard_drop _ ch0) as [ch' n].
    simpl in *. rewrite Hq1, Hq2. pose proof (committer_rank_bound (notify_committer n com)). lia.
  - pose proof (committer_rank_bound (notify_committer true com)). lia.
Qed.

(** The background thread can move unless it is parked or gone. *)
Lemma background_enabled s :
  s_background s <> BgParked -> s_background s <> BgDone -> exists s', step s s'.
Proof.
  intros Hnp Hnd. destruct (s_background s) as [| |[p [|r rs] [l|]]| | | |] eqn:Hb; try done.
  - destruct (pop (s_channel s)) eqn:Hp; eexists;
      [by apply step_pop_wait | by eapply step_pop_err | by eapply step_pop_ok].
  - eexists. by eapply step_persist_done.
  - eexists. by eapply step_cycle_ends.
  - eexists. by eapply step_reap_done.
  - eexists. by eapply step_reap_done.
  - destruct (s_persist_on_shutdown s) as [r|] eqn:Hp; [|eexists; apply step_exit_nothing; auto].
    destruct (channel_empty (s_channel s)) eqn:He; eexists;
      [apply step_exit_nothing; auto | by eapply step_exit_persist].
  - eexists. by apply step_store_error.
  - eexists. by apply step_thread_ends.
Qed.

(** No lost wakeup: while the committing thread waits, the background thread is
    neither parked nor gone. *)
Lemma no_deadlock gap s :
  1 <= gap <= U64_MAX -> reachable gap s -> s_committer s <> CIdle -> exists s', step s s'.
Proof.
  intros Hg Hr Hc. destruct (reachable_inv gap s Hg Hr) as [rel Hinv]. inv_open Hinv.
  destruct (s_committer s) eqn:Hcs; [done | | |].
  - destruct (push (s_channel s) (S (s_submitted s))) eqn:Hp; eexists;
      [by apply step_push_wait | by eapply step_push_err | by eapply step_push_ok].
  - destruct (Hblk eq_refl) as [Hs Hp0]. apply background_enabled; intros Hb.
    + destruct (Hpark Hb) as (_ & _ & Hl). rewrite Hb in Hlat. simpl in Hlat. specialize (Hlat ltac:(done)).
      rewrite Hl in Hlat by dlia. destruct (Z.ltb_spec (rel + 0) (Z.of_nat (s_submitted s))); [done | lia].
    + rewrite Hs in Hsd. intuition congruence.
  - specialize (Hjoin eq_refl). destruct (s_background s) eqn:Hb; try (apply background_enabled; congruence).
    + destruct (Hpark eq_refl). congruence.
    + eexists. by apply step_join.
Qed.

Lemma eventually_idle gap s :
  1 <= gap <= U64_MAX -> reachable gap s -> eventually (fun s' => s_committer s' = CIdle) s.
Proof.
  intros Hg. remember (wait_measure s) as n eqn:Hn. revert s Hn.
  induction (lt_wf n) as [n _ IH]. intros s -> Hr.
  destruct (decide (s_committer s = CIdle)) as [Hc|Hc]; [by left|].
  right; [by eapply no_deadlock|]. intros s' Hst.
  destruct (wait_measure_step s s' Hst Hc) as [Hi|Hlt]; [by left|].
  by eapply IH; [exact Hlt | | eapply reachable_step].
Qed.

(** A closed worker waits for its thread, or the thread is gone. *)
Lemma closed_joins gap s :
  1 <= gap <= U64_MAX -> reachable gap s -> s_persist_on_shutdown s <> None ->
  s_committer s = CJoin \/ s_background s = BgDone.
Proof.
  intros Hg. induction 1 as [|s s' Hr IH Hst]; [done|].
  destruct (reachable_inv gap s Hg Hr) as [rel Hinv]. inv_open Hinv. intros Hpos'.
  destruct Hst as
    [s Hc Hp|s Hc Hp|s e Hc Hp|s ch n Hc Hp|s n ch Hc Hp Hr'|s n e Hc Hp Hr'|s Hc Hp|s Hc Hb
    |s Hb Hp|s e Hb Hp|s g ch Hb Hp|s p r rs l Hb|s p r rs l Hb|s p r Hb|s p r e Hb He|s p Hb
    |s r Hb Hp He|s r e Hb Hp He Hne|s Hb Hp|s e Hb|s Hb].
  all: unfold work_fails, thread_ends in *; try destruct (guard_drop _ _); simpl in *; auto; try done.
  all: destruct (IH Hpos') as [Hj|Hj]; try congruence; auto.
  all: rewrite Hj; auto.
Qed.

(** ** Properties *)

(** C39: backpressure.  As long as the background thread has not failed, the
    commits that are accepted and not on disk are at most the configured gap;
    the permits are always between 0 and the gap. *)
Theorem persistence_gap_bounded (gap : Z) (s : system) :
  1 <= gap <= U64_MAX -> reachable gap s ->
  0 <= permits_available (s_channel s) <= gap /\
  (s_error s = None -> (forall e, s_background s <> BgFailed e) ->
   (s_persisted s <= s_submitted s)%nat /\ Z.of_nat (s_submitted s) - Z.of_nat (s_persisted s) <= gap).
Proof.
  intros Hg Hr. destruct (reachable_inv gap s Hg Hr) as [rel Hinv]. inv_open Hinv.
  split; [lia|]. intros He Hf. destruct (s_background s) as [| |g| |e| |] eqn:Hb; simpl in *.
  - specialize (Hper ltac:(auto)). lia.
  - specialize (Hper ltac:(auto)). lia.
  - specialize (Hguard g eq_refl). destruct (guard_latest g); lia.
  - specialize (Hper ltac:(auto)). lia.
  - by destruct (Hf e).
  - specialize (Hdone ltac:(auto) He). lia.
  - specialize (Hdone ltac:(auto) He). lia.
Qed.

(** C26: every commit and every close returns.  From every reachable state, on
    every schedule, the committing thread gets out of [push] or [join_handle]
    after finitely many steps, and the system never stops before that: no wakeup
    is lost. *)
Theorem commit_always_returns (gap : Z) (s : system) :
  1 <= gap <= U64_MAX -> reachable gap s ->
  (s_committer s <> CIdle -> exists s', step s s') /\
  eventually (fun s' => s_committer s' = CIdle) s.
Proof. intros Hg Hr. split; [by eapply no_deadlock | by eapply eventually_idle]. Qed.

(** C35: [close] is durable.  When [close] has returned and reports no error, the
    revision it was given is the last one committed and it is on disk. *)
Theorem close_is_durable (gap : Z) (s : system) (revision : nat) :
  1 <= gap <= U64_MAX -> reachable gap s ->
  s_persist_on_shutdown s = Some revision -> s_committer s = CIdle -> check_error s = Ok tt ->
  s_persisted s = revision /\ revision = s_submitted s.
Proof.
  intros Hg Hr Hp Hc He. destruct (closed_joins gap s Hg Hr) as [?|Hb]; [by rewrite Hp | congruence |].
  destruct (reachable_inv gap s Hg Hr) as [rel Hinv]. inv_open Hinv.
  destruct (Hclosed _ Hp) as [-> _]. unfold check_error in He. destruct (s_error s); [done|].
  split; [apply Hdone; auto | done].
Qed.

(** A commit that [push] refuses is reported.  A worker that was not closed
    refuses a revision only after its thread failed, and once the thread is
    joined [submit_revision] returns that error. *)
Theorem refused_commit_reports_error (gap : Z) (s : system) :
  1 <= gap <= U64_MAX -> reachable gap s ->
  s_persist_on_shutdown s = None -> s_committer s = CJoin -> s_background s = BgDone ->
  exists e, check_error s = Err e.
Proof.
  intros Hg Hr Hp Hc Hb. destruct (reachable_inv gap s Hg Hr) as [rel Hinv]. inv_open Hinv.
  unfold check_error. destruct (s_error s) as [e|]; [by exists e|]. exfalso. apply Hexit; auto.
Qed.

(** *** A run with a gap of one *)

Definition st_full : system :=
  mkSystem (mkChannel 0 1 0 false [] (Some 1%nat)) None None BgPop CParked 1 0.
Definition st_failed : system :=
  mkSystem (mkChannel 1 1 0 true [] None) (Some FileIo) None BgDone CJoin 1 0.
Definition st_closed : system :=
  mkSystem (mkChannel 1 1 0 true [] None) None (Some 1%nat) BgDone CIdle 1 1.

(** Extend the run [H] by the step [c]. *)
Tactic Notation "run_step" hyp(H) uconstr(c) :=
  match type of H with
  | reachable ?g ?s =>
      let Hs := fresh in
      eassert (Hs : step s _) by (eapply c; first [reflexivity | discriminate | right; reflexivity]);
      apply (reachable_step g s _ H) in Hs; vm_compute in Hs; clear H; rename Hs into H
  end.

Lemma reachable_one :
  reachable 1 (mkSystem (mkChannel 0 1 0 false [] (Some 1%nat)) None None BgPop CIdle 1 0).
Proof.
  pose proof (reachable_new 1) as H.
  run_step H step_submit. run_step H step_push_ok. exact H.
Qed.

Lemma reachable_full : reachable 1 st_full.
Proof.
  pose proof reachable_one as H.
  run_step H step_submit. run_step H step_push_wait. exact H.
Qed.

Lemma reachable_failed : reachable 1 st_failed.
Proof.
  pose proof reachable_full as H. unfold st_full in H.
  run_step H step_pop_ok.
  run_step H (step_persist_fails _ _ _ FileIo).
  run_step H step_store_error. run_step H step_thread_ends.
  run_step H step_push_err. exact H.
Qed.

Lemma reachable_closed : reachable 1 st_closed.
Proof.
  pose proof reachable_one as H.
  run_step H step_pop_ok. run_step H step_persist_done.
  run_step H step_cycle_ends. run_step H step_close.
  run_step H step_pop_err. run_step H step_exit_nothing.
  run_step H step_thread_ends. run_step H step_join. exact H.
Qed.

(** Witness: a full channel with a parked committer. *)
Lemma persistence_gap_bounded_witness :
  reachable 1 st_full /\ Z.of_nat (s_submitted st_full) - Z.of_nat (s_persisted st_full) <= 1.
Proof.
  split; [exact reachable_full|].
  destruct (persistence_gap_bounded 1 st_full ltac:(unfold U64_MAX; lia) reachable_full) as [_ H].
  by apply H.
Defined.

(** Witness: the parked committer of the full channel gets through. *)
Lemma commit_always_returns_witness :
  s_committer st_full = CParked /\ eventually (fun s' => s_committer s' = CIdle) st_full.
Proof.
  split; [reflexivity|].
  exact (proj2 (commit_always_returns 1 st_full ltac:(unfold U64_MAX; lia) reachable_full)).
Defined.

(** Witness: one commit, then close. *)
Lemma close_is_durable_witness :
  reachable 1 st_closed /\ s_persisted st_closed = 1%nat /\ 1%nat = s_submitted st_closed.
Proof.
  split; [exact reachable_closed|].
  apply (close_is_durable 1 st_closed 1 ltac:(unfold U64_MAX; lia) reachable_closed); reflexivity.
Defined.

(** Witness: the disk fails while a commit is parked. *)
Lemma refused_commit_reports_error_witness :
  reachable 1 st_failed /\ exists e, check_error st_failed = Err e.
Proof.
  split; [exact reachable_failed|].
  apply (refused_commit_reports_error 1 st_failed ltac:(unfold U64_MAX; lia) reachable_failed); reflexivity.
Defined.
