(* ===== verification/Merkle.v ===== *)
(** * Trie operations

    [firewood/src/merkle/mod.rs]: lookup, insertion, removal and prefix removal
    on the trie of a mutable node store. *)

From S2P Require Import Prelude Primitives NodePath Node Codec NodeCodec Trie NodeStore.

(** ** [PrefixOverlap] *)

Record PrefixOverlap : Type := mkPrefixOverlap {
  po_shared : Path;
  po_unique_a : Path;
  po_unique_b : Path;
}.

(** The position of the first mismatch, or the length of the shorter slice. *)
Fixpoint split_index (a b : Path) : nat :=
  match a, b with
  | x :: a, y :: b => if x =? y then S (split_index a b) else 0%nat
  | _, _ => 0%nat
  end.

Definition PrefixOverlap_from (a b : Path) : PrefixOverlap :=
  let i := split_index a b in mkPrefixOverlap (take i a) (drop i a) (drop i b).

Section Merkle.
Context {St : Type} `{ReadableStorage St} `{VarInt}.
Variable alg : NodeHashAlgorithm.

(** ** Lookup *)

(** [get_helper].  [fuel] bounds the depth; each level consumes a nibble, so one
    more than the length of the key is enough. *)
Fixpoint get_helper (fuel : nat) (node : Node) (key : Path) : store_op St (option Node) :=
  match fuel with
  | O => lift (Err Diverges)
  | S fuel =>
      let path_overlap := PrefixOverlap_from key (partial_path node) in
      match po_unique_a path_overlap, po_unique_b path_overlap with
      | _, _ :: _ => mret None
      | [], [] => mret (Some node)
      | child_index :: remaining_key, [] =>
          child_index ← lift (expect (PathComponent_try_new child_index));
          match node with
          | Leaf _ => mret None
          | Branch node =>
              match Children_get (branch_children node) child_index with
              | None => mret None
              | Some (ChildNode child) => get_helper fuel child remaining_key
              | Some (AddressWithHash addr _) =>
                  child ← read_node alg addr; get_helper fuel child remaining_key
              | Some (ChildMaybePersisted m _) =>
                  child ← as_shared_node alg m; get_helper fuel child remaining_key
              end
          end
      end
  end.

(** [Merkle::get_node]. *)
Definition get_node (key : bytes) : store_op St (option Node) := fun ns =>
  match ns_root ns with
  | None => (Ok None, ns)
  | Some root =>
      let key := from_nibbles_iterator (NibblesIterator_new key) in
      get_helper (S (length key)) root key ns
  end.

(** [Merkle::get_value]. *)
Definition get_value (key : bytes) : store_op St (option Value) :=
  node ← get_node key;
  match node with
  | None => mret None
  | Some node => mret (node_value node)
  end.

(** ** Reading a child for update *)

(** [Merkle::read_for_update]. *)
Definition merkle_read_for_update (child : Child) : store_op St Node :=
  match child with
  | ChildNode node => mret node
  | AddressWithHash addr _ => read_for_update alg (Persisted addr)
  | ChildMaybePersisted node _ => read_for_update alg node
  end.

(** ** Insertion *)

(** [insert_helper]. *)
Fixpoint insert_helper (fuel : nat) (node : Node) (key : Path) (value : Value) : store_op St Node :=
  match fuel with
  | O => lift (Err Diverges)
  | S fuel =>
      let path_overlap := PrefixOverlap_from key (partial_path node) in
      match po_unique_a path_overlap, po_unique_b path_overlap with
      | [], [] => mret (update_value node value)
      | [], child_index :: partial_path =>
          child_index ← lift (expect (PathComponent_try_new child_index));
          let node := update_partial_path node partial_path in
          mret (Branch (mkBranch (po_shared path_overlap) (Some value)
                  (Children_set Children_new child_index (Some (ChildNode node)))))
      | child_index :: partial_path, [] =>
          child_index ← lift (expect (PathComponent_try_new child_index));
          match node with
          | Branch (mkBranch bp bv bc) =>
              let (child, bc) := Children_take bc child_index in
              match child with
              | None =>
                  let new_leaf := Leaf (mkLeaf partial_path value) in
                  mret (Branch (mkBranch bp bv (Children_set bc child_index (Some (ChildNode new_leaf)))))
              | Some child =>
                  child ← merkle_read_for_update child;
                  child ← insert_helper fuel child partial_path value;
                  mret (Branch (mkBranch bp bv (Children_set bc child_index (Some (ChildNode child)))))
              end
          | Leaf leaf =>
              let new_leaf := Leaf (mkLeaf partial_path value) in
              mret (Branch (mkBranch (leaf_partial_path leaf) (Some (leaf_value leaf))
                      (Children_set Children_new child_index (Some (ChildNode new_leaf)))))
          end
      | key_index :: key_partial_path, node_index :: node_partial_path =>
          key_index ← lift (expect (PathComponent_try_new key_index));
          node_index ← lift (expect (PathComponent_try_new node_index));
          let node := update_partial_path node node_partial_path in
          let children := Children_set Children_new node_index (Some (ChildNode node)) in
          let new_leaf := Leaf (mkLeaf key_partial_path value) in
          mret (Branch (mkBranch (po_shared path_overlap) None
                  (Children_set children key_index (Some (ChildNode new_leaf)))))
      end
  end.

(** [insert_from_iter]: the root is taken out of the store first and put back
    only on success. *)
Definition insert_from_iter (key : NibblesIterator) (value : Value) : store_op St unit := fun ns =>
  let key := from_nibbles_iterator key in
  match ns_root ns with
  | None => (Ok tt, set_root (Some (Leaf (mkLeaf key value))) ns)
  | Some root_node =>
      match insert_helper (S (length key)) root_node key value (set_root None ns) with
      | (Ok root_node, ns) => (Ok tt, set_root (Some root_node) ns)
      | (Err e, ns) => (Err e, ns)
      end
  end.

(** [Merkle::insert]. *)
Definition insert (key : bytes) (value : Value) : store_op St unit :=
  insert_from_iter (NibblesIterator_new key) value.

(** [insert_branch_helper]: makes a branch exist at [key], with no new value. *)
Fixpoint insert_branch_helper (fuel : nat) (node : Node) (key : Path) : store_op St Node :=
  match fuel with
  | O => lift (Err Diverges)
  | S fuel =>
      let path_overlap := PrefixOverlap_from key (partial_path node) in
      match po_unique_a path_overlap, po_unique_b path_overlap with
      | [], [] =>
          match node with
          | Branch _ => mret node
          | Leaf leaf =>
              mret (Branch (mkBranch (leaf_partial_path leaf) (Some (leaf_value leaf)) Children_new))
          end
      | [], child_index :: partial_path =>
          child_index ← lift (expect (PathComponent_try_new child_index));
          let node := update_partial_path node partial_path in
          mret (Branch (mkBranch (po_shared path_overlap) None
                  (Children_set Children_new child_index (Some (ChildNode node)))))
      | child_index :: partial_path, [] =>
          child_index ← lift (expect (PathComponent_try_new child_index));
          match node with
          | Branch (mkBranch bp bv bc) =>
              let (child, bc) := Children_take bc child_index in
              match child with
              | None =>
                  let new_branch := Branch (mkBranch partial_path None Children_new) in
                  mret (Branch (mkBranch bp bv (Children_set bc child_index (Some (ChildNode new_branch)))))
              | Some child =>
                  child ← merkle_read_for_update child;
                  child ← insert_branch_helper fuel child partial_path;
                  mret (Branch (mkBranch bp bv (Children_set bc child_index (Some (ChildNode child)))))
              end
          | Leaf leaf =>
              let new_branch := Branch (mkBranch partial_path None Children_new) in
              mret (Branch (mkBranch (leaf_partial_path leaf) (Some (leaf_value leaf))
                      (Children_set Children_new child_index (Some (ChildNode new_branch)))))
          end
      | key_index :: key_partial_path, node_index :: node_partial_path =>
          key_index ← lift (expect (PathComponent_try_new key_index));
          node_index ← lift (expect (PathComponent_try_new node_index));
          let node := update_partial_path node node_partial_path in
          let children := Children_set Children_new node_index (Some (ChildNode node)) in
          let new_branch := Branch (mkBranch key_partial_path None Children_new) in
          mret (Branch (mkBranch (po_shared path_overlap) None
                  (Children_set children key_index (Some (ChildNode new_branch)))))
      end
  end.

(** [insert_branch_from_nibbles]. *)
Definition insert_branch_from_nibbles (key_nibbles : Path) : store_op St unit := fun ns =>
  match ns_root ns with
  | None => (Ok tt, set_root (Some (Branch (mkBranch key_nibbles None Children_new))) ns)
  | Some root_node =>
      match insert_branch_helper (S (length key_nibbles)) root_node key_nibbles (set_root None ns) with
      | (Ok root_node, ns) => (Ok tt, set_root (Some root_node) ns)
      | (Err e, ns) => (Err e, ns)
      end
  end.

(** ** Removal *)

(** [flatten_branch]. *)
Definition flatten_branch (branch_node : BranchNode) : store_op St (option Node) :=
  let '(mkBranch bp bv bc) := branch_node in
  match Children_iter_present bc with
  | [] =>
      match bv with
      | Some value => mret (Some (Leaf (mkLeaf bp value)))
      | None => mret None
      end
  | (child_index, child) :: others =>
      match bv, others with
      | None, [] =>
          child ← merkle_read_for_update child;
          mret (Some (update_partial_path child (bp ++ child_index :: partial_path child)))
      | _, _ => mret (Some (Branch branch_node))
      end
  end.

(** [remove_helper]. *)
Fixpoint remove_helper (fuel : nat) (node : Node) (key : Path)
  : store_op St (option Node * option Value) :=
  match fuel with
  | O => lift (Err Diverges)
  | S fuel =>
      let path_overlap := PrefixOverlap_from key (partial_path node) in
      match po_unique_a path_overlap, po_unique_b path_overlap with
      | _, _ :: _ => mret (Some node, None)
      | [], [] =>
          match node with
          | Branch (mkBranch bp bv bc) =>
              match bv with
              | None => mret (Some node, None)
              | Some removed_value =>
                  n ← flatten_branch (mkBranch bp None bc);
                  mret (n, Some removed_value)
              end
          | Leaf leaf => mret (None, Some (leaf_value leaf))
          end
      | child_index :: child_partial_path, [] =>
          child_index ← lift (expect (PathComponent_try_new child_index));
          match node with
          | Leaf _ => mret (Some node, None)
          | Branch (mkBranch bp bv bc) =>
              let (child, bc) := Children_take bc child_index in
              match child with
              | None => mret (Some (Branch (mkBranch bp bv bc)), None)
              | Some child =>
                  child ← merkle_read_for_update child;
                  '(child, removed_value) ← remove_helper fuel child child_partial_path;
                  n ← flatten_branch (mkBranch bp bv (Children_set bc child_index (ChildNode <$> child)));
                  mret (n, removed_value)
              end
          end
      end
  end.

(** [remove_from_iter]. *)
Definition remove_from_iter (key : NibblesIterator) : store_op St (option Value) := fun ns =>
  let key := from_nibbles_iterator key in
  match ns_root ns with
  | None => (Ok None, ns)
  | Some root_node =>
      match remove_helper (S (length key)) root_node key (set_root None ns) with
      | (Ok (root_node, removed_value), ns) => (Ok removed_value, set_root root_node ns)
      | (Err e, ns) => (Err e, ns)
      end
  end.

(** [Merkle::remove]. *)
Definition remove (key : bytes) : store_op St (option Value) :=
  remove_from_iter (NibblesIterator_new key).

(** ** Prefix removal *)

(** The child loop of [delete_children], over the present children. *)
Definition delete_loop (delete_children : BranchNode -> Z -> store_op St Z) :=
  fix loop (cs : list (PathComponent * Child)) (deleted : Z) : store_op St Z :=
    match cs with
    | [] => mret deleted
    | (_, child) :: cs =>
        child ← merkle_read_for_update child;
        deleted ← match child with
                  | Branch child_branch => delete_children child_branch deleted
                  | Leaf _ => mret (saturating_add_u64 deleted 1)
                  end;
        loop cs deleted
    end.

(** [delete_children].  The recursion follows the stored trie, so [fuel] bounds
    its height. *)
Fixpoint delete_children (fuel : nat) (branch : BranchNode) (deleted : Z) : store_op St Z :=
  match fuel with
  | O => lift (Err Diverges)
  | S fuel =>
      let deleted := match branch_value branch with
                     | Some _ => saturating_add_u64 deleted 1
                     | None => deleted
                     end in
      delete_loop (delete_children fuel) (Children_iter_present (branch_children branch)) deleted
  end.

(** [remove_prefix_helper]. *)
Fixpoint remove_prefix_helper (fuel : nat) (node : Node) (key : Path) (deleted : Z)
  : store_op St (option Node * Z) :=
  match fuel with
  | O => lift (Err Diverges)
  | S fuel =>
      let path_overlap := PrefixOverlap_from key (partial_path node) in
      match po_unique_a path_overlap, po_unique_b path_overlap with
      | [], _ =>
          match node with
          | Branch branch => deleted ← delete_children (S fuel) branch deleted; mret (None, deleted)
          | Leaf _ => mret (None, saturating_add_u64 deleted 1)
          end
      | _, _ :: _ => mret (Some node, deleted)
      | child_index :: child_partial_path, [] =>
          child_index ← lift (expect (PathComponent_try_new child_index));
          match node with
          | Leaf _ => mret (Some node, deleted)
          | Branch (mkBranch bp bv bc) =>
              let (child, bc) := Children_take bc child_index in
              match child with
              | None => mret (Some (Branch (mkBranch bp bv bc)), deleted)
              | Some child =>
                  child ← merkle_read_for_update child;
                  '(child, deleted) ← remove_prefix_helper fuel child child_partial_path deleted;
                  n ← flatten_branch (mkBranch bp bv (Children_set bc child_index (ChildNode <$> child)));
                  mret (n, deleted)
              end
          end
      end
  end.

(** [remove_prefix_from_iter]. *)
Definition remove_prefix_from_iter (fuel : nat) (prefix : NibblesIterator) : store_op St Z := fun ns =>
  let prefix := from_nibbles_iterator prefix in
  match ns_root ns with
  | None => (Ok 0, ns)
  | Some root_node =>
      match remove_prefix_helper fuel root_node prefix 0 (set_root None ns) with
      | (Ok (root_node, deleted), ns) => (Ok deleted, set_root root_node ns)
      | (Err e, ns) => (Err e, ns)
      end
  end.

(** [Merkle::remove_prefix]. *)
Definition remove_prefix (fuel : nat) (prefix : bytes) : store_op St Z :=
  remove_prefix_from_iter fuel (NibblesIterator_new prefix).

(** ** Finding a branch *)

(** [get_branch_from_nibbles_mut_helper]: follows in-memory children only. *)
Fixpoint get_branch_from_nibbles_mut_helper (fuel : nat) (node : Node) (key : Path)
  : option BranchNode :=
  match fuel with
  | O => None
  | S fuel =>
      match node with
      | Leaf _ => None
      | Branch branch =>
          let pp := branch_partial_path branch in
          let shared_len := split_index key pp in
          if negb (Nat.eqb shared_len (length pp)) then None
          else match drop shared_len key with
               | [] => Some branch
               | child_nibble :: deeper =>
                   match Children_get (branch_children branch) child_nibble with
                   | Some (ChildNode child_node) =>
                       get_branch_from_nibbles_mut_helper fuel child_node deeper
                   | _ => None
                   end
               end
      end
  end.

Definition get_branch_from_nibbles_mut (root : option Node) (key : Path) : option BranchNode :=
  root ≫= fun node => get_branch_from_nibbles_mut_helper (S (length key)) node key.

End Merkle.
