(* ===== verification/MerkleSpec.v ===== *)
(** * What the trie operations mean

    The lemmas shared by the proofs about [Merkle]: how a key meets the path of
    a node, how the contents, handles and shape of a trie change when one node
    is rebuilt, and lookup. *)

From S2P Require Import Prelude Primitives NodePath Node Codec NodeCodec Trie NodeStore Merkle.

(** ** Overlap of a key and a path *)

(** The two slices share a prefix and then differ, or one of them ends. *)
Lemma PrefixOverlap_spec a b :
  let po := PrefixOverlap_from a b in
  a = po_shared po ++ po_unique_a po /\ b = po_shared po ++ po_unique_b po /\
  match po_unique_a po, po_unique_b po with
  | x :: _, y :: _ => x <> y
  | _, _ => True
  end.
Proof.
  simpl. revert b. induction a as [|x a IH]; intros b; simpl; [by rewrite drop_0|].
  destruct b as [|y b]; [done|]. destruct (Z.eqb_spec x y) as [->|Hne]; simpl; [|done].
  destruct (IH b) as (Ha & Hb & Hd). split_and!; [by f_equal.. | done].
Qed.

(** Case analysis on the overlap of a key and a path, in the four shapes the
    operations distinguish. *)
Ltac overlap_cases key pp :=
  let Hk := fresh "Hk" in let Hp := fresh "Hp" in let Hne := fresh "Hne" in
  destruct (PrefixOverlap_spec key pp) as (Hk & Hp & Hne);
  generalize dependent (PrefixOverlap_from key pp);
  let sh := fresh "sh" in
  intros [sh [|?ki ?kr] [|?ni ?nr]] Hk Hp Hne; simpl in Hk, Hp, Hne |- *;
  try rewrite app_nil_r in Hk; try rewrite app_nil_r in Hp.

(** ** Contents of a rebuilt node *)

Lemma strip_prefix_refl p : strip_prefix p p = Some [].
Proof. apply strip_prefix_Some. by rewrite app_nil_r. Qed.

Lemma strip_prefix_snoc p i k :
  strip_prefix (p ++ [i]) k =
  match strip_prefix p k with
  | Some (j :: r) => if i =? j then Some r else None
  | _ => None
  end.
Proof. rewrite strip_prefix_app. by destruct (strip_prefix p k) as [[|j r]|]. Qed.

(** The value of the node itself. *)
Lemma tget_value pp v ks k :
  tget (T pp v ks) k = if decide (k = pp) then v else tget (T pp None ks) k.
Proof.
  rewrite !tget_T. case_decide as Hk; [by rewrite Hk, strip_prefix_refl|].
  destruct (strip_prefix pp k) as [[|i r]|] eqn:E; [|done..].
  apply strip_prefix_Some in E. by rewrite app_nil_r in E.
Qed.

Lemma tget_empty pp k : tget (T pp None Children_new) k = None.
Proof. rewrite tget_T. destruct (strip_prefix pp k) as [[|i r]|]; [done| |done]. by rewrite Children_get_new. Qed.

Lemma tget_leaf pp v k : tget (T pp (Some v) Children_new) k = if decide (k = pp) then Some v else None.
Proof. by rewrite tget_value, tget_empty. Qed.

(** One slot of the node. *)
Lemma tget_set pp v ks i o k :
  Children_wf ks -> is_nibble i -> is_path k ->
  tget (T pp v (Children_set ks i o)) k =
  match strip_prefix (pp ++ [i]) k with
  | Some r => kid_get o r
  | None => tget (T pp v ks) k
  end.
Proof.
  intros Hks Hi Hk. rewrite !tget_T, strip_prefix_snoc.
  destruct (strip_prefix pp k) as [[|j r]|] eqn:E; [done| |done].
  apply strip_prefix_Some in E. subst k. apply is_path_app in Hk as [_ Hk].
  apply is_path_cons in Hk as [Hj _].
  destruct (Z.eqb_spec i j) as [->|Hne]; [by rewrite Children_get_set | by rewrite Children_get_set_ne].
Qed.

(** The keys below one slot of the node. *)
Lemma tget_slot pp v ks i k r :
  strip_prefix (pp ++ [i]) k = Some r -> tget (T pp v ks) k = kid_get (Children_get ks i) r.
Proof.
  rewrite strip_prefix_snoc, tget_T.
  destruct (strip_prefix pp k) as [[|j r']|]; try done.
  destruct (Z.eqb_spec i j) as [->|]; [|done]. by intros [= ->].
Qed.

(** Cutting the path of a node in two. *)
Lemma tget_cut p i q v ks k :
  tget (T (p ++ i :: q) v ks) k = strip_prefix (p ++ [i]) k ≫= tget (T q v ks).
Proof.
  replace (p ++ i :: q) with ((p ++ [i]) ++ q) by (by rewrite <- app_assoc). apply tget_extend.
Qed.

Lemma is_path_strip p k r : strip_prefix p k = Some r -> is_path k -> is_path r.
Proof. intros ->%strip_prefix_Some. by intros [_ ?]%is_path_app. Qed.

Lemma strip_prefix_neq p i k r s : strip_prefix (p ++ [i]) k = Some r -> k = p ++ i :: s <-> r = s.
Proof.
  intros ->%strip_prefix_Some. rewrite <- app_assoc. simpl. split; [|by intros ->].
  intros H%app_inv_head. congruence.
Qed.

Lemma strip_prefix_None p i k s : strip_prefix (p ++ [i]) k = None -> k <> p ++ i :: s.
Proof.
  intros H ->. assert (strip_prefix (p ++ [i]) (p ++ i :: s) = Some s) by
    (apply strip_prefix_Some; by rewrite <- app_assoc). congruence.
Qed.

Lemma strip_prefix_self_None p i : strip_prefix (p ++ [i]) p = None.
Proof. rewrite strip_prefix_snoc. by rewrite strip_prefix_refl. Qed.

Lemma strip_prefix_diff p i j k r :
  i <> j -> strip_prefix (p ++ [i]) k = Some r -> strip_prefix (p ++ [j]) k = None.
Proof.
  intros Hij. rewrite !strip_prefix_snoc.
  destruct (strip_prefix p k) as [[|x s]|]; try done.
  destruct (Z.eqb_spec i x), (Z.eqb_spec j x); congruence.
Qed.

(** ** Shape of a rebuilt node *)

Lemma tpath_path t : trie_wf t -> is_path (tpath t).
Proof. by inversion 1. Qed.

Lemma trie_wf_path p t : is_path p -> trie_wf t -> trie_wf (T p (tval t) (tkids t)).
Proof. intros Hp. inversion 1; subst. by constructor. Qed.

Lemma trie_wf_leaf p v : is_path p -> trie_wf (T p v Children_new).
Proof.
  intros Hp. apply trie_wf_intro; [done | apply Children_new_wf|].
  intros i o t _. by rewrite Children_get_new.
Qed.

Lemma trie_wf_value pp v w ks : trie_wf (T pp v ks) -> trie_wf (T pp w ks).
Proof. inversion 1; subst. by constructor. Qed.

Lemma trie_wf_set pp v ks i o :
  is_nibble i -> trie_wf (T pp v ks) -> (forall h t, o = Some (h, t) -> trie_wf t) ->
  trie_wf (T pp v (Children_set ks i o)).
Proof.
  intros Hi (Hp & Hk & Hs)%trie_wf_inv Ho. apply trie_wf_intro; [done | by apply Children_set_wf|].
  intros j h t Hj. destruct (decide (i = j)) as [<-|Hne].
  - rewrite Children_get_set by done. eauto.
  - rewrite Children_get_set_ne by done. eauto.
Qed.

(** Two present children. *)
Definition two_kids (ks : Children (option kid)) : Prop :=
  exists i j, is_nibble i /\ is_nibble j /\ i <> j /\
    is_Some (Children_get ks i) /\ is_Some (Children_get ks j).

Lemma canonical_iff pp v ks :
  Children_wf ks ->
  canonical (T pp v ks) <->
  (v = None -> two_kids ks) /\
  (forall i h t, is_nibble i -> Children_get ks i = Some (h, t) -> canonical t).
Proof.
  intros Hk. split.
  - intros Hc. inversion Hc as [? ? ? Htwo Hkids]; subst. split; [|intros i h t _ Hg; by eapply canonical_inv].
    intros Hv. destruct (Htwo Hv) as (i & j & ki & kj & Hij & Hi & Hj).
    assert (forall n k, ks !! n = Some (Some k) -> is_nibble (Z.of_nat n) /\ is_Some (Children_get ks (Z.of_nat n))) as Hn.
    { intros n k Hn. split.
      - apply lookup_lt_Some in Hn. unfold Children_wf, MAX_CHILDREN, PathComponent_LEN in Hk.
        unfold is_nibble. lia.
      - exists k. apply Children_get_Some. by rewrite Nat2Z.id. }
    exists (Z.of_nat i), (Z.of_nat j).
    destruct (Hn _ _ Hi), (Hn _ _ Hj). split_and!; try done. lia.
  - intros [Htwo Hkids]. constructor.
    + intros Hv. destruct (Htwo Hv) as (i & j & Hi & Hj & Hij & [ki Hki] & [kj Hkj]).
      exists (Z.to_nat i), (Z.to_nat j), ki, kj. rewrite <- !Children_get_Some.
      unfold is_nibble in *. split_and!; try done. lia.
    + intros i h t Hi. apply (Hkids (Z.of_nat i) h).
      * apply lookup_lt_Some in Hi. unfold Children_wf, MAX_CHILDREN, PathComponent_LEN in Hk.
        unfold is_nibble. lia.
      * apply Children_get_Some. by rewrite Nat2Z.id.
Qed.

Lemma canonical_path p t : canonical t -> canonical (T p (tval t) (tkids t)).
Proof. inversion 1; subst. by constructor. Qed.

Lemma canonical_value pp v w ks : canonical (T pp v ks) -> canonical (T pp (Some w) ks).
Proof. inversion 1; subst. by constructor. Qed.

Lemma canonical_leaf p v : canonical (T p (Some v) Children_new).
Proof.
  apply canonical_iff; [apply Children_new_wf|]. split; [done|].
  intros i h t _. by rewrite Children_get_new.
Qed.

(** Filling a slot keeps the shape. *)
Lemma canonical_set pp v ks i h t :
  is_nibble i -> Children_wf ks -> canonical (T pp v ks) -> canonical t ->
  canonical (T pp v (Children_set ks i (Some (h, t)))).
Proof.
  intros Hi Hk Hc Ht. pose proof (proj1 (canonical_iff _ _ _ Hk) Hc) as [Htwo Hkids].
  assert (forall j, is_nibble j -> is_Some (Children_get ks j) ->
    is_Some (Children_get (Children_set ks i (Some (h, t))) j)) as Hkeep.
  { intros j Hj Hs. destruct (decide (i = j)) as [<-|]; [by rewrite Children_get_set |
      by rewrite Children_get_set_ne]. }
  apply canonical_iff; [by apply Children_set_wf|]. split.
  - intros Hv. destruct (Htwo Hv) as (a & b & Ha & Hb & Hab & Hsa & Hsb).
    exists a, b. split_and!; auto.
  - intros j h' t' Hj. destruct (decide (i = j)) as [<-|].
    + rewrite Children_get_set by done. by intros [= <- <-].
    + rewrite Children_get_set_ne by done. eauto.
Qed.

(** ** Handles of a rebuilt node *)

(** Replacing a child that was read through its handle. *)
Lemma kids_handles_replace (ks : Children (option kid)) i h t o hs :
  Children_wf ks -> is_nibble i -> Children_get ks i = Some (h, t) ->
  handles t ≡ₚ kid_handles o ++ hs ->
  kids_handles ks ≡ₚ kids_handles (Children_set ks i o) ++ option_list h ++ hs.
Proof.
  intros Hk Hi Hg Hh. pose proof (Children_slot ks i Hk Hi) as Hs. rewrite Hg in Hs.
  pose proof (kids_handles_set ks (Z.to_nat i) _ o Hs) as Hp. simpl in Hp.
  rewrite Hh in Hp. apply (Permutation_app_inv_l (kid_handles o)). rewrite <- Hp.
  fold (Children_set ks i o). generalize (kids_handles (Children_set ks i o)) as x.
  generalize (kid_handles o) as y. intros y x.
  rewrite <- !(assoc_L (++)), (Permutation_app_swap_app (option_list h)). f_equiv.
  by rewrite (assoc_L (++)), Permutation_app_comm.
Qed.

Lemma kids_handles_fill (ks : Children (option kid)) i t :
  Children_wf ks -> is_nibble i -> Children_get ks i = None ->
  kids_handles (Children_set ks i (Some (None, t))) ≡ₚ handles t ++ kids_handles ks.
Proof.
  intros Hk Hi Hg. pose proof (Children_slot ks i Hk Hi) as Hs. rewrite Hg in Hs.
  exact (kids_handles_set ks (Z.to_nat i) _ (Some (None, t)) Hs).
Qed.

(** ** Reading a child *)

Section Reading.
Context {St : Type} `{ReadableStorageLaws St} `{VarInt}.
Variable alg : NodeHashAlgorithm.
Variable rd : LinearAddress -> option Node.

(** The child is the one the slot denotes, and its handle is recorded. *)
Lemma merkle_read_for_update_ok ns c n :
  holds alg rd ns -> child_node rd c = Some n ->
  exists ns', merkle_read_for_update alg c ns = (Ok n, ns') /\
    recorded alg rd ns (option_list (child_handle c)) ns'.
Proof.
  intros Hh Hc. destruct c as [n'|a h|m h]; simpl in *.
  - injection Hc as ->. eexists. split; [done|]. by apply recorded_refl.
  - by apply read_for_update_ok.
  - by apply read_for_update_ok.
Qed.

End Reading.

(** Running the steps of a store operation. *)
Lemma store_bind_Ok {St A B} (m : store_op St A) (f : A -> store_op St B) ns a ns' :
  m ns = (Ok a, ns') -> (m ≫= f) ns = f a ns'.
Proof. intros H. unfold mbind, store_bind. by rewrite H. Qed.

Lemma store_expect_nibble {St B} i (f : PathComponent -> store_op St B) ns :
  is_nibble i -> (lift (expect (PathComponent_try_new i)) ≫= f) ns = f i ns.
Proof. intros Hi. apply store_bind_Ok. unfold lift. by rewrite PathComponent_try_new_nibble. Qed.
