(* ===== verification/MerkleInsert.v ===== *)
(** * Insertion

    Correctness of [insert_helper] and [insert_branch_helper]
    ([firewood/src/merkle/mod.rs]): the map of the trie changes at the key only,
    the trie stays well formed and canonical, and the nodes that were read out
    of the store are exactly the ones recorded for deletion. *)

From S2P Require Import Prelude Primitives NodePath Node Codec NodeCodec Trie NodeStore Merkle MerkleSpec.

(** ** Edits of a trie at one key *)

Definition owf (t : option trie) : Prop := forall u, t = Some u -> trie_wf u.
Definition ocanonical (t : option trie) : Prop := forall u, t = Some u -> canonical u.
Definition ohandles (t : option trie) : list MaybePersisted := from_option handles [] t.

(** The path of every node below [pfx] has at most [L] nibbles. *)
Inductive paths_le (L : nat) : Path -> trie -> Prop :=
| paths_le_T pfx pp v ks :
    (length (pfx ++ pp) <= L)%nat ->
    (forall i o t, is_nibble i -> Children_get ks i = Some (o, t) -> paths_le L ((pfx ++ pp) ++ [i]) t) ->
    paths_le L pfx (T pp v ks).

Lemma paths_le_leaf L pfx pp v : (length (pfx ++ pp) <= L)%nat -> paths_le L pfx (T pp v Children_new).
Proof. intros Hl. constructor; [done|]. intros i o t _. by rewrite Children_get_new. Qed.

Lemma paths_le_set L pfx pp v ks i o :
  is_nibble i -> Children_wf ks -> paths_le L pfx (T pp v ks) ->
  (forall h t, o = Some (h, t) -> paths_le L ((pfx ++ pp) ++ [i]) t) ->
  paths_le L pfx (T pp v (Children_set ks i o)).
Proof.
  intros Hi Hk Hp Ho. inversion Hp as [? ? ? ? Hl Hs]; subst. constructor; [done|]. intros j h t Hj.
  destruct (decide (i = j)) as [<-|Hne].
  - rewrite Children_get_set by done. apply Ho.
  - rewrite Children_get_set_ne by done. by apply Hs.
Qed.

(** Moving part of the path of a node to its prefix. *)
Lemma paths_le_cut L pfx p q v ks : paths_le L pfx (T (p ++ q) v ks) -> paths_le L (pfx ++ p) (T q v ks).
Proof.
  inversion 1 as [? ? ? ? Hl Hs]; subst. rewrite app_assoc in *. by constructor.
Qed.

(** [t'] is [t] with the value under [key] changed by [f]; [hs] are the handles
    that [t] had and [t'] has no more. *)
Record edited (f : option Value -> option Value) (key : Path) (t : trie) (t' : option trie)
  (hs : list MaybePersisted) : Prop := mkEdited {
  edited_wf : owf t';
  edited_get k : is_path k -> otget t' k = if decide (k = key) then f (tget t k) else tget t k;
  edited_handles : handles t ≡ₚ ohandles t' ++ hs;
  edited_paths L pfx :
    paths_le L pfx t -> (length (pfx ++ key) <= L)%nat -> forall u, t' = Some u -> paths_le L pfx u;
}.

Lemma owf_Some t : trie_wf t -> owf (Some t).
Proof. by intros ? ? [= <-]. Qed.

Lemma owf_None : owf None.
Proof. by intros ? ?. Qed.

Lemma ocanonical_Some t : canonical t -> ocanonical (Some t).
Proof. by intros ? ? [= <-]. Qed.

Lemma ocanonical_None : ocanonical None.
Proof. by intros ? ?. Qed.

#[export] Hint Resolve owf_Some owf_None ocanonical_Some ocanonical_None : merkle.

Section Edits.
Variable f : option Value -> option Value.

(** The key is the path of the node. *)
Lemma edited_here pp v ks :
  trie_wf (T pp v ks) -> edited f pp (T pp v ks) (Some (T pp (f v) ks)) [].
Proof.
  intros Hwf. split; [apply owf_Some; by eapply trie_wf_value | | |].
  - intros k Hk. cbn [otget mbind option_bind]. rewrite tget_value, (tget_value pp v).
    by case_decide.
  - simpl. by rewrite app_nil_r.
  - intros L pfx Hp _ u [= <-]. inversion Hp; subst. by constructor.
Qed.

(** The key ends inside the path of the node: the node moves below a new one. *)
Lemma edited_above sh i q v ks :
  is_path sh -> is_nibble i -> is_path q -> trie_wf (T (sh ++ i :: q) v ks) ->
  edited f sh (T (sh ++ i :: q) v ks)
    (Some (T sh (f None) (Children_set Children_new i (Some (None, T q v ks))))) [].
Proof.
  intros Hsh Hi Hq Hwf. split.
  - apply owf_Some, trie_wf_set; [done | by apply trie_wf_leaf|].
    intros h t [= _ <-]. by apply (trie_wf_path q) in Hwf.
  - intros k Hk. cbn [otget mbind option_bind].
    rewrite tget_set, tget_cut, tget_value by (done || apply Children_new_wf).
    case_decide as Hd.
    + subst k. by rewrite strip_prefix_self_None.
    + destruct (strip_prefix (sh ++ [i]) k) as [r|]; [done | apply tget_empty].
  - cbn [ohandles from_option]. rewrite app_nil_r, !handles_T.
    rewrite kids_handles_fill by (done || apply Children_new_wf || apply Children_get_new).
    by rewrite handles_T, kids_handles_new, app_nil_r.
  - intros L pfx Hp Hl u [= <-]. apply paths_le_set; [done | apply Children_new_wf | by apply paths_le_leaf |].
    intros h t [= _ <-]. rewrite <- app_assoc. apply paths_le_cut. by rewrite <- app_assoc.
Qed.

(** The key and the path part: both go below a new node. *)
Lemma edited_fork sh i q j r v ks :
  is_path sh -> is_nibble i -> is_path q -> is_nibble j -> is_path r -> i <> j ->
  trie_wf (T (sh ++ i :: q) v ks) ->
  edited f (sh ++ j :: r) (T (sh ++ i :: q) v ks)
    (Some (T sh None (Children_set (Children_set Children_new i (Some (None, T q v ks)))
                        j (Some (None, T r (f None) Children_new))))) [].
Proof.
  intros Hsh Hi Hq Hj Hr Hij Hwf. split.
  - apply owf_Some, trie_wf_set; [done | |].
    + apply trie_wf_set; [done | by apply trie_wf_leaf|].
      intros h t [= _ <-]. by apply (trie_wf_path q) in Hwf.
    + intros h t [= _ <-]. by apply trie_wf_leaf.
  - intros k Hk. cbn [otget mbind option_bind].
    rewrite !tget_set, tget_cut, tget_empty by (done || apply Children_set_wf, Children_new_wf || apply Children_new_wf).
    destruct (strip_prefix (sh ++ [j]) k) as [s|] eqn:Ej.
    + pose proof (strip_prefix_neq sh j k s r Ej) as Hs.
      rewrite (strip_prefix_diff sh j i k s) by done. simpl.
      rewrite tget_value, tget_empty. repeat case_decide; done || tauto.
    + rewrite decide_False by (by apply strip_prefix_None).
      by destruct (strip_prefix (sh ++ [i]) k).
  - cbn [ohandles from_option]. rewrite app_nil_r, !handles_T.
    rewrite kids_handles_fill; [|apply Children_set_wf, Children_new_wf | done |
      by rewrite Children_get_set_ne, Children_get_new].
    rewrite kids_handles_fill by (done || apply Children_new_wf || apply Children_get_new).
    by rewrite !handles_T, kids_handles_new, app_nil_r.
  - intros L pfx Hp Hl u [= <-].
    assert (Hsl : (length (pfx ++ sh) <= L)%nat) by (rewrite !length_app in *; simpl in *; lia).
    apply paths_le_set; [done | apply Children_set_wf, Children_new_wf | |].
    + apply paths_le_set; [done | apply Children_new_wf | by apply paths_le_leaf |].
      intros h t [= _ <-]. rewrite <- app_assoc. apply paths_le_cut. by rewrite <- app_assoc.
    + intros h t [= _ <-]. apply paths_le_leaf. by rewrite <- !app_assoc.
Qed.

(** The key goes through an empty slot. *)
Lemma edited_slot_new pp v ks i r :
  is_nibble i -> is_path r -> trie_wf (T pp v ks) -> Children_get ks i = None ->
  edited f (pp ++ i :: r) (T pp v ks)
    (Some (T pp v (Children_set ks i (Some (None, T r (f None) Children_new))))) [].
Proof.
  intros Hi Hr Hwf Hg. pose proof (trie_wf_inv _ _ _ Hwf) as (Hp & Hk & _). split.
  - apply owf_Some, trie_wf_set; [done..|]. intros h t [= _ <-]. by apply trie_wf_leaf.
  - intros k Hkp. cbn [otget mbind option_bind]. rewrite tget_set by done.
    destruct (strip_prefix (pp ++ [i]) k) as [s|] eqn:Ei.
    + pose proof (strip_prefix_neq pp i k s r Ei) as Hs.
      rewrite (tget_slot _ _ _ _ _ _ Ei), Hg. simpl.
      rewrite tget_value, tget_empty. repeat case_decide; done || tauto.
    + by rewrite decide_False by (by apply strip_prefix_None).
  - cbn [ohandles from_option]. rewrite app_nil_r, !handles_T, kids_handles_fill by done.
    by rewrite !handles_T, kids_handles_new.
  - intros L pfx Hpl Hl u [= <-]. apply paths_le_set; [done.. |]. intros h t [= _ <-].
    apply paths_le_leaf. by rewrite <- !app_assoc.
Qed.

(** The key goes through a child. *)
Lemma edited_slot pp v ks i r h t t' hs :
  is_nibble i -> trie_wf (T pp v ks) -> Children_get ks i = Some (h, t) ->
  edited f r t t' hs ->
  edited f (pp ++ i :: r) (T pp v ks)
    (Some (T pp v (Children_set ks i (pair None <$> t')))) (option_list h ++ hs).
Proof.
  intros Hi Hwf Hg [Hw He Hh Hb]. pose proof (trie_wf_inv _ _ _ Hwf) as (Hp & Hk & _). split.
  - apply owf_Some, trie_wf_set; [done..|]. intros h' u Hu.
    destruct t' as [t'|]; [|done]. injection Hu as _ <-. by apply Hw.
  - intros k Hkp. cbn [otget mbind option_bind]. rewrite tget_set by done.
    destruct (strip_prefix (pp ++ [i]) k) as [s|] eqn:Ei.
    + pose proof (strip_prefix_neq pp i k s r Ei) as Hs.
      rewrite (tget_slot _ _ _ _ _ _ Ei), Hg.
      assert (Hsp : is_path s) by (by eapply is_path_strip).
      specialize (He s Hsp). simpl.
      transitivity (otget t' s); [by destruct t'|]. rewrite He. repeat case_decide; done || tauto.
    + by rewrite decide_False by (by apply strip_prefix_None).
  - cbn [ohandles from_option]. rewrite !handles_T. eapply kids_handles_replace; [done..|].
    destruct t'; exact Hh.
  - intros L pfx Hpl Hl u [= <-]. apply paths_le_set; [done.. |]. intros h' w Hw'.
    destruct t' as [t'|]; [|done]. injection Hw' as _ <-. inversion Hpl as [? ? ? ? _ Hs]; subst.
    eapply Hb; [by eapply Hs | by rewrite <- !app_assoc | done].
Qed.

End Edits.

(** ** Canonical shape *)

Lemma canonical_above sh i q v ks w :
  is_nibble i -> canonical (T (sh ++ i :: q) v ks) ->
  canonical (T sh (Some w) (Children_set Children_new i (Some (None, T q v ks)))).
Proof.
  intros Hi Hc. apply canonical_set; [done | apply Children_new_wf | apply canonical_leaf|].
  exact (canonical_path q _ Hc).
Qed.

Lemma canonical_fork sh i q j r v ks w :
  is_nibble i -> is_nibble j -> i <> j -> canonical (T (sh ++ i :: q) v ks) ->
  canonical (T sh None (Children_set (Children_set Children_new i (Some (None, T q v ks)))
                          j (Some (None, T r (Some w) Children_new)))).
Proof.
  intros Hi Hj Hij Hc. pose proof (@Children_new_wf kid) as Hn.
  apply canonical_iff; [by repeat apply Children_set_wf|]. split.
  - intros _. exists i, j. split_and!; try done.
    + rewrite Children_get_set_ne, Children_get_set by done. done.
    + rewrite Children_get_set by (done || by apply Children_set_wf). done.
  - intros k h t Hk. destruct (decide (j = k)) as [<-|].
    + rewrite Children_get_set by (done || by apply Children_set_wf).
      intros [= <- <-]. apply canonical_leaf.
    + rewrite Children_get_set_ne by done. destruct (decide (i = k)) as [<-|].
      * rewrite Children_get_set by done. intros [= <- <-]. exact (canonical_path q _ Hc).
      * by rewrite Children_get_set_ne, Children_get_new.
Qed.

(** ** Where the nodes are *)

(** [node_at t q u]: the node of [t] whose path ends at [q] is [u]. *)
Inductive node_at : trie -> Path -> trie -> Prop :=
| at_here t : node_at t (tpath t) t
| at_below pp v ks i o t q u : is_nibble i -> Children_get ks i = Some (o, t) -> node_at t q u -> node_at (T pp v ks) (pp ++ i :: q) u.

Lemma node_at_inv pp v ks q u :
  node_at (T pp v ks) q u -> (q = pp /\ u = T pp v ks) \/ exists i o t r, is_nibble i /\ Children_get ks i = Some (o, t) /\ q = pp ++ i :: r /\ node_at t r u.
Proof. inversion 1; subst; [by left | right; eauto 10]. Qed.

Lemma node_at_unique t q u w : node_at t q u -> node_at t q w -> u = w.
Proof.
  intros Hu. revert w. induction Hu as [[pp v ks]|pp v ks i o t q u Hi Hg Hu IH]; intros w [[Hq ->]|(j & o' & t' & r & Hj & Hg' & Hq & Hn)]%node_at_inv; cbn [tpath] in *.
  - done.
  - rewrite <- (app_nil_r pp) in Hq at 1. by apply app_inv_head in Hq.
  - symmetry in Hq. rewrite <- (app_nil_r pp) in Hq at 1. by apply app_inv_head in Hq.
  - apply app_inv_head in Hq. injection Hq as <- <-. rewrite Hg in Hg'. injection Hg' as <- <-. by apply IH.
Qed.

Lemma node_at_get t q u : trie_wf t -> node_at t q u -> is_path q /\ tget t q = tval u /\ trie_wf u /\ exists r, q = r ++ tpath u.
Proof.
  intros Hwf Hn. revert Hwf. induction Hn as [[pp v ks]|pp v ks i o t q u Hi Hg Hu IH]; intros Hwf; pose proof (trie_wf_inv _ _ _ Hwf) as (Hpp & _ & Hkids).
  - cbn [tpath tval]. split_and!; [done | by rewrite tget_value, decide_True | done | by exists []].
  - destruct (IH ltac:(by eapply Hkids)) as (Hq & Hget & Hwu & r & Hr).
    split_and!; [apply is_path_app; split; [done | by apply is_path_cons] | by rewrite tget_app, Hg | done | exists (pp ++ i :: r); by rewrite Hr, <- app_assoc].
Qed.

Lemma node_at_prefix t q u : node_at t q u -> exists r, q = tpath t ++ r.
Proof. destruct 1; [exists []; by rewrite app_nil_r | by eexists]. Qed.

(** Below [pfx], a node without a value has two children or is one of [F]. *)
Inductive shaped (F : Path -> Prop) : Path -> trie -> Prop :=
| shaped_T pfx pp v ks :
    (v = None -> F (pfx ++ pp) \/ two_kids ks) ->
    (forall i o t, is_nibble i -> Children_get ks i = Some (o, t) -> shaped F ((pfx ++ pp) ++ [i]) t) ->
    shaped F pfx (T pp v ks).

(** An edit at [key] adds nodes that have a value or two children, or the node at the key. *)
Definition grown (f : option Value -> option Value) (key : Path) (t t' : trie) : Prop :=
  forall F pfx, shaped F pfx t -> (forall v, f v <> None) \/ F (pfx ++ key) -> shaped F pfx t'.

Lemma shaped_leaf F pfx pp v : v <> None \/ F (pfx ++ pp) -> shaped F pfx (T pp v Children_new).
Proof. intros Hv. constructor; [intros ->; left; by destruct Hv|]. intros i o t _. by rewrite Children_get_new. Qed.

Lemma shaped_cut F pfx p q v ks : shaped F pfx (T (p ++ q) v ks) -> shaped F (pfx ++ p) (T q v ks).
Proof. inversion 1 as [? ? ? ? Hv Hs]; subst. rewrite app_assoc in *. by constructor. Qed.

Lemma two_kids_set (ks : Children (option kid)) i x : is_nibble i -> Children_wf ks -> two_kids ks -> two_kids (Children_set ks i (Some x)).
Proof.
  intros Hi Hk (a & b & Ha & Hb & Hab & Hka & Hkb).
  assert (Hkeep : forall j, is_nibble j -> is_Some (Children_get ks j) -> is_Some (Children_get (Children_set ks i (Some x)) j)).
  { intros j Hn Hj. destruct (decide (i = j)) as [<-|Hne]; [by rewrite Children_get_set | by rewrite Children_get_set_ne]. }
  exists a, b. split_and!; auto.
Qed.

Lemma shaped_set F pfx pp v ks i h t :
  is_nibble i -> Children_wf ks -> shaped F pfx (T pp v ks) -> shaped F ((pfx ++ pp) ++ [i]) t ->
  shaped F pfx (T pp v (Children_set ks i (Some (h, t)))).
Proof.
  intros Hi Hk Hs Ht. inversion Hs as [? ? ? ? Hv Hkids]; subst. constructor.
  - intros Hn. destruct (Hv Hn) as [?|?]; [by left | right; by apply two_kids_set].
  - intros j o u Hj. destruct (decide (i = j)) as [<-|Hne]; [rewrite Children_get_set by done; intros [= <- <-]; done|].
    rewrite Children_get_set_ne by done. by apply Hkids.
Qed.

Section Grown.
Variable f : option Value -> option Value.

Lemma grown_here pp v ks : grown f pp (T pp v ks) (T pp (f v) ks).
Proof.
  intros F pfx Hs Hor. inversion Hs as [? ? ? ? Hv Hkids]; subst. constructor; [|done]. intros Hn.
  destruct Hor as [Hno|?]; [by destruct (Hno v) | by left].
Qed.

Lemma grown_above sh i q v ks :
  is_nibble i -> grown f sh (T (sh ++ i :: q) v ks) (T sh (f None) (Children_set Children_new i (Some (None, T q v ks)))).
Proof.
  intros Hi F pfx Hs Hor. apply shaped_set; [done | apply Children_new_wf | apply shaped_leaf; destruct Hor; auto |].
  rewrite <- app_assoc. apply shaped_cut. by rewrite <- app_assoc.
Qed.

Lemma grown_fork sh i q j r v ks :
  is_nibble i -> is_nibble j -> i <> j ->
  grown f (sh ++ j :: r) (T (sh ++ i :: q) v ks)
    (T sh None (Children_set (Children_set Children_new i (Some (None, T q v ks))) j (Some (None, T r (f None) Children_new)))).
Proof.
  intros Hi Hj Hij F pfx Hs Hor. pose proof (Children_set_wf _ i (Some (None, T q v ks)) (@Children_new_wf kid)) as Hw. constructor.
  - intros _. right. exists i, j. split_and!; try done; [rewrite Children_get_set_ne, Children_get_set by (done || apply Children_new_wf) | rewrite Children_get_set by done]; by eexists.
  - intros k o t Hk. destruct (decide (j = k)) as [<-|Hne]; [rewrite Children_get_set by done; intros [= <- <-]|].
    { apply shaped_leaf. rewrite <- !app_assoc. destruct Hor; auto. }
    rewrite Children_get_set_ne by done. destruct (decide (i = k)) as [<-|Hne2]; [rewrite Children_get_set by (done || apply Children_new_wf); intros [= <- <-]|].
    { rewrite <- app_assoc. apply shaped_cut. by rewrite <- app_assoc. }
    by rewrite Children_get_set_ne, Children_get_new.
Qed.

Lemma grown_slot_new pp v ks i r :
  is_nibble i -> Children_wf ks -> Children_get ks i = None ->
  grown f (pp ++ i :: r) (T pp v ks) (T pp v (Children_set ks i (Some (None, T r (f None) Children_new)))).
Proof.
  intros Hi Hk Hg F pfx Hs Hor. apply shaped_set; [done | done | done |]. apply shaped_leaf. rewrite <- !app_assoc. destruct Hor; auto.
Qed.

Lemma grown_slot pp v ks i r h t t' :
  is_nibble i -> Children_wf ks -> Children_get ks i = Some (h, t) -> grown f r t t' ->
  grown f (pp ++ i :: r) (T pp v ks) (T pp v (Children_set ks i (Some (None, t')))).
Proof.
  intros Hi Hk Hg Hsh F pfx Hs Hor. apply shaped_set; [done | done | done |]. inversion Hs as [? ? ? ? _ Hkids]; subst.
  apply Hsh; [by eapply Hkids|]. by rewrite <- !app_assoc.
Qed.

End Grown.

(** The same for a trie that may be empty. *)
Definition oshaped (F : Path -> Prop) (u : option trie) : Prop := forall t, u = Some t -> shaped F [] t.

Definition ogrown (f : option Value -> option Value) (key : Path) (u : option trie) (u' : trie) : Prop :=
  forall F, oshaped F u -> (forall v, f v <> None) \/ F key -> oshaped F (Some u').

Lemma ogrown_Some f key t t' : grown f key t t' -> ogrown f key (Some t) t'.
Proof. intros Hs F Ht Hor w [= <-]. apply Hs; [by apply Ht | done]. Qed.

Lemma ogrown_None f key : ogrown f key None (T key (f None) Children_new).
Proof. intros F _ Hor w [= <-]. apply shaped_leaf. destruct Hor; auto. Qed.

(** ** [insert_helper] *)

Section Insert.
Context {St : Type} `{ReadableStorageLaws St} `{VarInt}.
Variable alg : NodeHashAlgorithm.
Variable rd : LinearAddress -> option Node.

(** A leaf seen as a branch without children. *)
Lemma rnode_split n t :
  rnode rd n t ->
  (exists l, n = Leaf l /\ t = T (leaf_partial_path l) (Some (leaf_value l)) Children_new) \/
  (exists pp v c ks, n = Branch (mkBranch pp v c) /\ t = T pp v ks /\
     forall i, is_nibble i -> rslot rd (Children_get c i) (Children_get ks i)).
Proof. destruct 1; [left | right]; eauto 10. Qed.

Lemma rnode_kids_wf pp v c ks :
  rnode rd (Branch (mkBranch pp v c)) (T pp v ks) -> Children_wf c /\ Children_wf ks.
Proof. inversion 1; subst. done. Qed.

(** One new child below a childless node. *)
Lemma rnode_one sh v i n t :
  is_nibble i -> rnode rd n t ->
  rnode rd (Branch (mkBranch sh v (Children_set Children_new i (Some (ChildNode n)))))
    (T sh v (Children_set Children_new i (Some (None, t)))).
Proof. intros Hi Hn. apply rnode_set; [done | apply rnode_childless | by apply rslot_node]. Qed.

Lemma rnode_two sh v i n t j m u :
  is_nibble i -> is_nibble j -> rnode rd n t -> rnode rd m u ->
  rnode rd (Branch (mkBranch sh v (Children_set (Children_set Children_new i (Some (ChildNode n)))
                                     j (Some (ChildNode m)))))
    (T sh v (Children_set (Children_set Children_new i (Some (None, t))) j (Some (None, u)))).
Proof. intros Hi Hj Hn Hm. apply rnode_set; [done | by apply rnode_one | by apply rslot_node]. Qed.

(** What a successful edit returns. *)
Definition inserts (f : option Value -> option Value) (key : Path) (t : trie) (ns : NodeStore St)
  (r : result failure Node * NodeStore St) : Prop :=
  exists n' ns' t' hs, r = (Ok n', ns') /\ recorded alg rd ns hs ns' /\ rnode rd n' t' /\
    edited f key t (Some t') hs /\ (canonical t -> f None <> None -> canonical t') /\ grown f key t t'.

(** A step that only rebuilds the node. *)
Lemma inserts_done f key t ns n' t' :
  holds alg rd ns -> rnode rd n' t' -> edited f key t (Some t') [] ->
  grown f key t t' -> (canonical t -> f None <> None -> canonical t') -> inserts f key t ns ((mret n' : store_op St Node) ns).
Proof. intros Hh Hr He Hg Hc. exists n', ns, t', []. split_and!; auto. by apply recorded_refl. Qed.

(** A step that descends into a child, however the child is stored. *)
Lemma inserts_descend f pp v c ks i r child (rec : Node -> store_op St Node) ns :
  is_nibble i -> trie_wf (T pp v ks) -> holds alg rd ns ->
  rnode rd (Branch (mkBranch pp v c)) (T pp v ks) -> Children_get c i = Some child ->
  (forall n t ns, holds alg rd ns -> rnode rd n t -> trie_wf t -> inserts f r t ns (rec n ns)) ->
  inserts f (pp ++ i :: r) (T pp v ks) ns
    ((child ← merkle_read_for_update alg child;
      child ← rec child;
      mret (Branch (mkBranch pp v (Children_set (Children_set c i None) i (Some (ChildNode child)))))) ns).
Proof.
  intros Hi Hwf Hh Hr Hc Hrec. pose proof (trie_wf_inv _ _ _ Hwf) as (_ & Hkwf & Hkids).
  inversion Hr as [|? ? ? ? Hcw _ Hs]; subst. specialize (Hs i Hi). rewrite Hc in Hs.
  apply rslot_Some_inv in Hs as (n & t & Hg & Hcn & Hn).
  destruct (merkle_read_for_update_ok alg rd ns child n Hh Hcn) as (ns1 & Hrd & Hrec1).
  erewrite store_bind_Ok by exact Hrd.
  destruct (Hrec n t ns1) as (n' & ns2 & t' & hs & Hrun & Hrec2 & Hn' & He & Hcan & Hgr);
    [by eapply recorded_holds | done | by eapply Hkids |].
  erewrite store_bind_Ok by exact Hrun.
  eexists _, _, _, _. split_and!; [done | by eapply recorded_trans | | by eapply edited_slot | | by eapply grown_slot].
  - rewrite Children_set_set. apply rnode_set; [done..|]. by apply rslot_node.
  - intros Hct Hf. apply canonical_set; [done..|]. apply Hcan; [|done]. by eapply canonical_inv.
Qed.

Lemma insert_helper_ok value fuel node t key ns :
  (length key < fuel)%nat -> is_path key -> holds alg rd ns -> rnode rd node t -> trie_wf t ->
  inserts (const (Some value)) key t ns (insert_helper alg fuel node key value ns).
Proof.
  revert node t key ns. induction fuel as [|fuel IH]; intros node t key ns Hf Hkey Hh Hr Hwf; [lia|].
  cbn [insert_helper]. rewrite (rnode_path _ _ _ Hr). destruct t as [pp v ks].
  pose proof (trie_wf_inv _ _ _ Hwf) as (Hpp & Hkwf & Hkids).
  cbn [tpath]. overlap_cases key pp; subst key pp.
  - eapply inserts_done; [done | by apply rnode_update_value | by apply edited_here | apply (grown_here (const (Some value))) |].
    intros Hc _. by eapply canonical_value.
  - apply is_path_app in Hpp as [Hsh [Hi Hq]%is_path_cons]. rewrite store_expect_nibble by done.
    eapply inserts_done; [done | | by apply edited_above | by apply grown_above |].
    + apply rnode_one; [done|]. by apply (rnode_update_path _ _ _ _ Hr).
    + intros Hc _. by apply canonical_above.
  - apply is_path_app in Hkey as [Hsh [Hi Hq]%is_path_cons]. rewrite store_expect_nibble by done.
    destruct (rnode_split _ _ Hr) as [(l & -> & [= -> -> ->])|(? & ? & c & ? & -> & [= <- <- <-] & Hs)].
    + eapply inserts_done; [done | apply rnode_one; [done | apply rnode_leaf] | | by apply (grown_slot_new (const (Some value))); [| |apply Children_get_new] |].
      * apply (edited_slot_new (const (Some value))); [done..|]. apply Children_get_new.
      * intros Hc _. apply canonical_set; [done.. | apply canonical_leaf].
    + cbn [Children_take Children_replace]. specialize (Hs ki Hi).
      destruct (Children_get c ki) as [child|] eqn:Hc.
      * apply inserts_descend; [done..|]. intros n t ns1 Hh1 Hn Ht. apply IH; try done.
        rewrite length_app in Hf. simpl in Hf. lia.
      * inversion Hs as [Hg|]. eapply inserts_done; [done | | by apply (edited_slot_new (const (Some value))) | by apply (grown_slot_new (const (Some value))) |].
        -- rewrite Children_set_set. apply rnode_set; [done..|]. apply rslot_node, rnode_leaf.
        -- intros Hct _. apply canonical_set; [done.. | apply canonical_leaf].
  - apply is_path_app in Hpp as [Hsh [Hi Hq]%is_path_cons].
    apply is_path_app in Hkey as [_ [Hj Hs]%is_path_cons]. rewrite !store_expect_nibble by done.
    eapply inserts_done; [done | | by apply (edited_fork (const (Some value))) | by apply (grown_fork (const (Some value))) |].
    + apply rnode_two; [done.. | by apply (rnode_update_path _ _ _ _ Hr) | apply rnode_leaf].
    + intros Hc _. by apply canonical_fork.
Qed.

(** [insert_branch_helper] adds a node and changes no value. *)
Lemma insert_branch_helper_ok fuel node t key ns :
  (length key < fuel)%nat -> is_path key -> holds alg rd ns -> rnode rd node t -> trie_wf t ->
  inserts id key t ns (insert_branch_helper alg fuel node key ns).
Proof.
  revert node t key ns. induction fuel as [|fuel IH]; intros node t key ns Hf Hkey Hh Hr Hwf; [lia|].
  cbn [insert_branch_helper]. rewrite (rnode_path _ _ _ Hr). destruct t as [pp v ks].
  pose proof (trie_wf_inv _ _ _ Hwf) as (Hpp & Hkwf & Hkids).
  cbn [tpath]. overlap_cases key pp; subst key pp.
  - destruct (rnode_split _ _ Hr) as [(l & -> & [= -> -> ->])|(? & ? & c & ? & -> & [= <- <- <-] & Hs)];
      (eapply inserts_done; [done | | by apply (edited_here id) | apply (grown_here id) | done]); [apply rnode_childless | done].
  - apply is_path_app in Hpp as [Hsh [Hi Hq]%is_path_cons]. rewrite store_expect_nibble by done.
    eapply inserts_done; [done | | by apply (edited_above id) | by apply (grown_above id) | done].
    apply rnode_one; [done|]. by apply (rnode_update_path _ _ _ _ Hr).
  - apply is_path_app in Hkey as [Hsh [Hi Hq]%is_path_cons]. rewrite store_expect_nibble by done.
    destruct (rnode_split _ _ Hr) as [(l & -> & [= -> -> ->])|(? & ? & c & ? & -> & [= <- <- <-] & Hs)].
    + eapply inserts_done; [done | apply rnode_one; [done | apply rnode_childless] | | by apply (grown_slot_new id); [| |apply Children_get_new] | done].
      apply (edited_slot_new id); [done..|]. apply Children_get_new.
    + cbn [Children_take Children_replace]. specialize (Hs ki Hi).
      destruct (Children_get c ki) as [child|] eqn:Hc.
      * apply inserts_descend; [done..|]. intros n t ns1 Hh1 Hn Ht. apply IH; try done.
        rewrite length_app in Hf. simpl in Hf. lia.
      * inversion Hs as [Hg|]. eapply inserts_done; [done | | by apply (edited_slot_new id) | by apply (grown_slot_new id) | done].
        rewrite Children_set_set. apply rnode_set; [done..|]. apply rslot_node, rnode_childless.
  - apply is_path_app in Hpp as [Hsh [Hi Hq]%is_path_cons].
    apply is_path_app in Hkey as [_ [Hj Hs]%is_path_cons]. rewrite !store_expect_nibble by done.
    eapply inserts_done; [done | | by apply (edited_fork id) | by apply (grown_fork id) | done].
    apply rnode_two; [done.. | by apply (rnode_update_path _ _ _ _ Hr) | apply rnode_childless].
Qed.

End Insert.
