(* ===== verification/MerkleRemove.v ===== *)
(** * Removal

    Correctness of [flatten_branch], [remove_helper], [delete_children] and
    [remove_prefix_helper] ([firewood/src/merkle/mod.rs]): exactly the values
    under the removed keys disappear, the trie stays well formed and canonical,
    the count of removed values is exact, and every node that left the trie is
    recorded for deletion. *)

From S2P Require Import Prelude Primitives NodePath Node Codec NodeCodec Trie NodeStore Merkle MerkleSpec MerkleInsert.

(** ** Pruning a trie *)

Definition otsize (t : option trie) : nat := from_option tsize 0%nat t.

(** [t'] is [t] without the keys of [D]; [n] values and the handles [hs] left
    the trie. *)
Record pruned (D : Path -> bool) (t : trie) (t' : option trie) (hs : list MaybePersisted) (n : nat)
  : Prop := mkPruned {
  pruned_wf : owf t';
  pruned_get k : is_path k -> otget t' k = if D k then None else tget t k;
  pruned_handles : handles t ≡ₚ ohandles t' ++ hs;
  pruned_size : tsize t = (otsize t' + n)%nat;
}.

(** Nothing to remove. *)
Lemma pruned_same D t :
  trie_wf t -> (forall k, is_path k -> D k = true -> tget t k = None) -> pruned D t (Some t) [] 0.
Proof.
  intros Hwf Hd. split; [by apply owf_Some | | by rewrite app_nil_r | simpl; lia].
  intros k Hk. simpl. specialize (Hd k Hk). destruct (D k); auto.
Qed.

(** Pruning a child, then possibly reshaping the node. *)
Lemma pruned_slot D D' pp v ks i h t t' hs n :
  is_nibble i -> trie_wf (T pp v ks) -> Children_get ks i = Some (h, t) ->
  (forall k, D k = from_option D' false (strip_prefix (pp ++ [i]) k)) ->
  pruned D' t t' hs n ->
  pruned D (T pp v ks) (Some (T pp v (Children_set ks i (pair None <$> t')))) (option_list h ++ hs) n.
Proof.
  intros Hi Hwf Hg HD [Hw He Hh Hn]. pose proof (trie_wf_inv _ _ _ Hwf) as (Hp & Hk & _). split.
  - apply owf_Some, trie_wf_set; [done..|]. intros h' u Hu.
    destruct t' as [t'|]; [|done]. injection Hu as _ <-. by apply Hw.
  - intros k Hkp. cbn [otget mbind option_bind]. rewrite tget_set, HD by done.
    destruct (strip_prefix (pp ++ [i]) k) as [s|] eqn:Ei; [|done]. simpl.
    rewrite (tget_slot _ _ _ _ _ _ Ei), Hg. transitivity (otget t' s); [by destruct t'|].
    apply He. by eapply is_path_strip.
  - cbn [ohandles from_option]. rewrite !handles_T. eapply kids_handles_replace; [done..|].
    destruct t'; exact Hh.
  - cbn [otsize from_option]. rewrite !tsize_T.
    pose proof (Children_slot ks i Hk Hi) as Hs. rewrite Hg in Hs.
    pose proof (kids_size_set ks (Z.to_nat i) _ (pair None <$> t') Hs) as Hz. simpl in Hz.
    fold (Children_set ks i (pair None <$> t')) in Hz.
    assert (kid_size (pair None <$> t') = otsize t') as Hk' by (by destruct t'). lia.
Qed.

(** [t'] is another shape of [t]. *)
Record reshaped (t : trie) (t' : option trie) (hs : list MaybePersisted) : Prop := mkReshaped {
  reshaped_wf : owf t';
  reshaped_get k : is_path k -> otget t' k = tget t k;
  reshaped_handles : handles t ≡ₚ ohandles t' ++ hs;
  reshaped_size : tsize t = otsize t';
}.

Lemma pruned_reshaped D t t1 t2 hs1 hs2 n :
  pruned D t (Some t1) hs1 n -> reshaped t1 t2 hs2 -> pruned D t t2 (hs1 ++ hs2) n.
Proof.
  intros [Hw1 He1 Hh1 Hn1] [Hw2 He2 Hh2 Hn2]. split; [done | | | simpl in *; lia].
  - intros k Hk. rewrite He2 by done. by apply He1.
  - rewrite Hh1. simpl. rewrite Hh2, <- (assoc_L (++)). f_equiv. apply Permutation_app_comm.
Qed.

(** ** Shapes of slot arrays *)

Lemma Children_iter_present_nil {A} (c : Children (option A)) :
  Children_wf c -> Children_iter_present c = [] -> c = Children_new.
Proof.
  intros Hc Hn. apply Children_ext; [done | apply Children_new_wf|].
  intros i Hi. rewrite Children_get_new. destruct (Children_get c i) as [x|] eqn:E; [|done].
  assert ((i, x) ∈ Children_iter_present c) as Hin by (by apply Children_iter_present_elem).
  rewrite Hn in Hin. by apply elem_of_nil in Hin.
Qed.

Lemma Children_iter_present_one {A} (c : Children (option A)) i x :
  Children_wf c -> Children_iter_present c = [(i, x)] ->
  is_nibble i /\ Children_get c i = Some x /\
  forall j, is_nibble j -> j <> i -> Children_get c j = None.
Proof.
  intros Hc Hn.
  assert (forall j y, is_nibble j /\ Children_get c j = Some y <-> (j, y) = (i, x)) as He.
  { intros j y. rewrite <- Children_iter_present_elem by done. by rewrite Hn, list_elem_of_singleton. }
  destruct (proj2 (He i x) eq_refl). split_and!; [done..|]. intros j Hj Hji.
  destruct (Children_get c j) as [y|] eqn:E; [|done].
  assert ((j, y) = (i, x)) by (by apply He). congruence.
Qed.

Lemma Children_iter_present_two {A} (c : Children (option A)) i x j y l :
  Children_wf c -> Children_iter_present c = (i, x) :: (j, y) :: l ->
  is_nibble i /\ is_nibble j /\ i <> j /\ Children_get c i = Some x /\ Children_get c j = Some y.
Proof.
  intros Hc Hn. pose proof (Children_iter_present_NoDup c) as Hd. rewrite Hn in Hd. csimpl in Hd.
  apply NoDup_cons in Hd as [Hd _].
  assert (forall k z, (k, z) ∈ Children_iter_present c -> is_nibble k /\ Children_get c k = Some z) as He.
  { intros k z. by apply Children_iter_present_elem. }
  rewrite Hn in He. destruct (He i x) as [? ?]; [by constructor|].
  destruct (He j y) as [? ?]; [by do 2 constructor|].
  split_and!; try done. intros ->. apply Hd. constructor.
Qed.

(** Folding an only child into its parent. *)
Lemma reshaped_only_child pp ks i h t :
  trie_wf (T pp None ks) -> is_nibble i -> Children_get ks i = Some (h, t) ->
  (forall j, is_nibble j -> j <> i -> Children_get ks j = None) ->
  reshaped (T pp None ks) (Some (T (pp ++ i :: tpath t) (tval t) (tkids t))) (option_list h).
Proof.
  intros Hwf Hi Hg Hothers. pose proof (trie_wf_inv _ _ _ Hwf) as (Hpp & Hk & Hkids).
  assert (ks = Children_set Children_new i (Some (h, t))) as ->.
  { apply Children_ext; [done | apply Children_set_wf, Children_new_wf|]. intros j Hj.
    destruct (decide (j = i)) as [->|]; [by rewrite Children_get_set|].
    rewrite Children_get_set_ne, Children_get_new by done. auto. }
  specialize (Hkids i h t Hg). destruct t as [q w us]. simpl.
  pose proof (trie_wf_inv _ _ _ Hkids) as (Hq & _).
  pose proof (Children_slot (@Children_new kid) i Children_new_wf Hi) as Hs. rewrite Children_get_new in Hs.
  split.
  - apply owf_Some, (trie_wf_path _ (T q w us)); [|done]. apply is_path_app. split; [done|].
    by apply is_path_cons.
  - intros k Hkp. simpl. rewrite tget_cut, tget_set by (done || apply Children_new_wf).
    destruct (strip_prefix (pp ++ [i]) k); simpl; [done | by rewrite tget_empty].
  - simpl. rewrite !handles_T.
    etransitivity; [exact (kids_handles_set _ _ _ (Some (h, T q w us)) Hs)|].
    cbn [kid_handles]. rewrite kids_handles_new, app_nil_r, handles_T. apply Permutation_app_comm.
  - simpl. rewrite !tsize_T.
    pose proof (kids_size_set _ _ _ (Some (h, T q w us)) Hs) as Hz.
    fold (Children_set (@Children_new kid) i (Some (h, T q w us))) in Hz. cbn [kid_size] in Hz.
    rewrite kids_size_new, tsize_T in Hz. lia.
Qed.

Lemma reshaped_refl t : trie_wf t -> reshaped t (Some t) [].
Proof. intros Hwf. split; [by apply owf_Some | done | by rewrite app_nil_r | done]. Qed.

Lemma reshaped_empty pp : reshaped (T pp None Children_new) None [].
Proof. split; [apply owf_None | intros k _; by rewrite tget_empty | done | done]. Qed.

(** ** [flatten_branch] *)

Section Remove.
Context {St : Type} `{ReadableStorageLaws St} `{VarInt}.
Variable alg : NodeHashAlgorithm.
Variable rd : LinearAddress -> option Node.

Lemma rslot_present_iff c ks i :
  is_nibble i -> rslot rd (Children_get c i) (Children_get ks i) ->
  is_Some (Children_get c i) <-> is_Some (Children_get ks i).
Proof. intros Hi Hs. inversion Hs; split; done. Qed.

(** What [flatten_branch] returns: the same contents in canonical shape. *)
Definition flattens (t : trie) (ns : NodeStore St) (r : result failure (option Node) * NodeStore St)
  : Prop :=
  exists n' ns' t' hs, r = (Ok n', ns') /\ recorded alg rd ns hs ns' /\ rroot rd n' t' /\
    reshaped t t' hs /\
    ((forall i h u, is_nibble i -> Children_get (tkids t) i = Some (h, u) -> canonical u) -> ocanonical t').

Lemma flattens_stay bp bv bc ks ns :
  holds alg rd ns -> rnode rd (Branch (mkBranch bp bv bc)) (T bp bv ks) -> trie_wf (T bp bv ks) ->
  bv <> None \/ two_kids ks ->
  flattens (T bp bv ks) ns (Ok (Some (Branch (mkBranch bp bv bc))), ns).
Proof.
  intros Hh Hr Hwf Hd. pose proof (trie_wf_inv _ _ _ Hwf) as (_ & Hkw & _).
  eexists _, _, (Some (T bp bv ks)), []. split_and!; [done | by apply recorded_refl | done |
    by apply reshaped_refl |].
  intros Hc. apply ocanonical_Some, canonical_iff; [done|]. split; [tauto | done].
Qed.

Lemma flatten_branch_ok bp bv bc ks ns :
  holds alg rd ns -> rnode rd (Branch (mkBranch bp bv bc)) (T bp bv ks) -> trie_wf (T bp bv ks) ->
  flattens (T bp bv ks) ns (flatten_branch alg (mkBranch bp bv bc) ns).
Proof.
  intros Hh Hr Hwf. inversion Hr as [|? ? ? ? Hcw Hkw Hs]; subst. cbn [flatten_branch].
  destruct (Children_iter_present bc) as [|[i child] [|[j child'] l]] eqn:Hp.
  - apply Children_iter_present_nil in Hp; [|done].
    assert (ks = Children_new) as ->.
    { apply Children_ext; [done | apply Children_new_wf|]. intros j Hj. specialize (Hs j Hj).
      rewrite Hp, Children_get_new in Hs. rewrite Children_get_new. by inversion Hs. }
    destruct bv as [value|]; [eexists _, ns, (Some _), [] | eexists _, ns, None, []].
    + split_and!; [done | by apply recorded_refl | exact (rnode_leaf rd (mkLeaf bp value)) |
        by apply reshaped_refl | intros _; apply ocanonical_Some, canonical_leaf].
    + split_and!; [done | by apply recorded_refl | done | apply reshaped_empty | intros _; apply ocanonical_None].
  - destruct bv as [value|]; [by apply flattens_stay; auto|].
    apply Children_iter_present_one in Hp as (Hi & Hg & Hothers); [|done].
    pose proof (Hs i Hi) as Hsi. rewrite Hg in Hsi.
    apply rslot_Some_inv in Hsi as (n & t & Hgk & Hcn & Hn).
    destruct (merkle_read_for_update_ok alg rd ns child n Hh Hcn) as (ns1 & Hrd & Hrec).
    erewrite store_bind_Ok by exact Hrd. rewrite (rnode_path _ _ _ Hn).
    eexists _, ns1, (Some _), _. split_and!; [done | done | by apply rnode_update_path | |].
    + eapply reshaped_only_child; [done..|]. intros j Hj Hji. specialize (Hs j Hj).
      rewrite (Hothers j Hj Hji) in Hs. by inversion Hs.
    + intros Hc. apply ocanonical_Some, canonical_path. by eapply Hc.
  - apply Children_iter_present_two in Hp as (Hi & Hj & Hij & Hgi & Hgj); [|done].
    assert (Hstay2 : two_kids ks).
    { exists i, j. pose proof (Hs i Hi). pose proof (Hs j Hj).
      split_and!; [done..| |]; eapply rslot_present_iff; eauto. }
    destruct bv; apply flattens_stay; auto.
Qed.

(** ** Descending *)

(** What a successful removal returns: the pruned node and a result. *)
Definition prunes {X} (D : Path -> bool) (t : trie) (ns : NodeStore St) (post : X -> nat -> Prop)
  (r : result failure (option Node * X) * NodeStore St) : Prop :=
  exists n' x ns' t' hs cnt, r = (Ok (n', x), ns') /\ recorded alg rd ns hs ns' /\ rroot rd n' t' /\
    pruned D t t' hs cnt /\ (canonical t -> ocanonical t') /\ post x cnt.

Lemma prunes_same {X} D t ns (post : X -> nat -> Prop) n x :
  holds alg rd ns -> rnode rd n t -> trie_wf t ->
  (forall k, is_path k -> D k = true -> tget t k = None) -> post x 0%nat ->
  prunes D t ns post ((mret (Some n, x) : store_op St _) ns).
Proof.
  intros Hh Hr Hwf HD Hp. exists (Some n), x, ns, (Some t), [], 0%nat.
  split_and!; [done | by apply recorded_refl | done | by apply pruned_same | by intros ? ? [= <-] | done].
Qed.

Lemma prunes_descend {X} D D' (post : X -> nat -> Prop) pp v c ks i child
  (rec : Node -> store_op St (option Node * X)) ns :
  is_nibble i -> trie_wf (T pp v ks) -> holds alg rd ns ->
  rnode rd (Branch (mkBranch pp v c)) (T pp v ks) -> Children_get c i = Some child ->
  (forall k, D k = from_option D' false (strip_prefix (pp ++ [i]) k)) ->
  (forall n h t ns, Children_get ks i = Some (h, t) -> holds alg rd ns -> rnode rd n t -> trie_wf t ->
     prunes D' t ns post (rec n ns)) ->
  prunes D (T pp v ks) ns post
    ((child ← merkle_read_for_update alg child;
      '(child, x) ← rec child;
      n ← flatten_branch alg (mkBranch pp v (Children_set (Children_set c i None) i (ChildNode <$> child)));
      mret (n, x)) ns).
Proof.
  intros Hi Hwf Hh Hr Hc HD Hrec. pose proof (trie_wf_inv _ _ _ Hwf) as (_ & Hkwf & Hkids).
  inversion Hr as [|? ? ? ? Hcw _ Hs]; subst. specialize (Hs i Hi). rewrite Hc in Hs.
  apply rslot_Some_inv in Hs as (n & t & Hg & Hcn & Hn).
  destruct (merkle_read_for_update_ok alg rd ns child n Hh Hcn) as (ns1 & Hrd & Hrec1).
  erewrite store_bind_Ok by exact Hrd.
  destruct (Hrec n _ t ns1 Hg) as (n' & x & ns2 & t' & hs & cnt & Hrun & Hrec2 & Hn' & Hpr & Hcan & Hpost);
    [by eapply recorded_holds | done | by eapply Hkids |].
  erewrite store_bind_Ok by exact Hrun. cbv beta iota. rewrite Children_set_set.
  pose proof (pruned_slot D D' pp v ks i _ t t' hs cnt Hi Hwf Hg HD Hpr) as Hpr2.
  destruct (flatten_branch_ok pp v (Children_set c i (ChildNode <$> n')) (Children_set ks i (pair None <$> t')) ns2)
    as (n2 & ns3 & t2 & hs2 & Hrun3 & Hrec3 & Hn2 & Hre & Hcan3).
  - by eapply recorded_holds.
  - apply rnode_set; [done..|]. destruct n', t'; simpl in *; try done; [by apply rslot_node | constructor].
  - by apply (pruned_wf _ _ _ _ _ Hpr2).
  - erewrite store_bind_Ok by exact Hrun3.
    eexists n2, x, ns3, t2, _, cnt. split_and!; [done | | done | by eapply pruned_reshaped | | done].
    + eapply recorded_trans; [|done]. by eapply recorded_trans.
    + intros Hct. apply Hcan3. intros j h u Hj. cbn [tkids]. destruct (decide (i = j)) as [<-|].
      * rewrite Children_get_set by done. destruct t' as [t'|]; [|done]. intros [= <- <-].
        apply Hcan; [|done]. by eapply canonical_inv.
      * rewrite Children_get_set_ne by done. by apply canonical_inv with (1 := Hct).
Qed.

(** ** [remove_helper] *)

Definition at_key (key : Path) (k : Path) : bool := bool_decide (k = key).

Lemma at_key_slot pp i r k : at_key (pp ++ i :: r) k = from_option (at_key r) false (strip_prefix (pp ++ [i]) k).
Proof.
  unfold at_key. destruct (strip_prefix (pp ++ [i]) k) as [s|] eqn:E; simpl.
  - apply bool_decide_ext. by apply strip_prefix_neq.
  - apply bool_decide_eq_false. by apply strip_prefix_None.
Qed.

(** Dropping the value of a node. *)
Lemma pruned_value pp v ks :
  trie_wf (T pp (Some v) ks) -> pruned (at_key pp) (T pp (Some v) ks) (Some (T pp None ks)) [] 1.
Proof.
  intros Hwf. split.
  - apply owf_Some. by eapply trie_wf_value.
  - intros k Hk. unfold at_key. simpl. rewrite (tget_value pp (Some v)).
    case_bool_decide as Hd; [|by rewrite decide_False].
    rewrite tget_value. by rewrite decide_True.
  - simpl. by rewrite !handles_T, app_nil_r.
  - simpl. rewrite !tsize_T. lia.
Qed.

Lemma pruned_all D pp ks v hs n :
  (forall k, is_path k -> D k = false -> tget (T pp v ks) k = None) ->
  kids_handles ks ≡ₚ hs -> tsize (T pp v ks) = n -> pruned D (T pp v ks) None hs n.
Proof.
  intros HD Hh Hn. split; [apply owf_None | | by rewrite handles_T | done].
  intros k Hk. specialize (HD k Hk). simpl. by destruct (D k); [|rewrite HD].
Qed.

(** The result of a removal at one key: the value that was there. *)
Definition removed_at (t : trie) (key : Path) (x : option Value) (n : nat) : Prop :=
  x = tget t key /\ n = match x with Some _ => 1%nat | None => 0%nat end.

(** Nothing is stored under the key. *)
Lemma prunes_absent t key ns n :
  holds alg rd ns -> rnode rd n t -> trie_wf t -> tget t key = None ->
  prunes (at_key key) t ns (removed_at t key) ((mret (Some n, None) : store_op St _) ns).
Proof.
  intros Hh Hr Hwf Hnone. apply prunes_same; [done..| |by split].
  intros k Hk ->%bool_decide_eq_true. done.
Qed.

(** The value is on the node the key leads to. *)
Lemma prunes_value pp v c ks ns :
  holds alg rd ns -> rnode rd (Branch (mkBranch pp (Some v) c)) (T pp (Some v) ks) ->
  trie_wf (T pp (Some v) ks) ->
  prunes (at_key pp) (T pp (Some v) ks) ns (removed_at (T pp (Some v) ks) pp)
    ((n ← flatten_branch alg (mkBranch pp None c); mret (n, Some v)) ns).
Proof.
  intros Hh Hr Hwf. inversion Hr as [|? ? ? ? Hcw Hkw Hs]; subst.
  destruct (flatten_branch_ok pp None c ks ns) as (n' & ns' & t' & hs & Hrun & Hrec & Hn & Hre & Hcan);
    [done | by constructor | by eapply trie_wf_value |].
  erewrite store_bind_Ok by exact Hrun. eexists n', _, ns', t', _, 1%nat.
  split_and!; [done | done | done | eapply (pruned_reshaped _ _ _ _ [] hs); [by apply pruned_value | done] | |].
  - intros Hc. apply Hcan. intros i h u _. by apply canonical_inv with (1 := Hc).
  - split; [|done]. rewrite tget_value. by rewrite decide_True.
Qed.

Lemma tget_path_longer sh i q v ks : tget (T (sh ++ i :: q) v ks) sh = None.
Proof. by rewrite tget_cut, strip_prefix_self_None. Qed.

Lemma tget_path_diverges sh i q j r v ks : i <> j -> tget (T (sh ++ i :: q) v ks) (sh ++ j :: r) = None.
Proof.
  intros Hij. rewrite tget_cut. rewrite (strip_prefix_diff sh j i _ r); [done | congruence |].
  apply strip_prefix_Some. by rewrite <- app_assoc.
Qed.

Lemma remove_helper_ok fuel node t key ns :
  (length key < fuel)%nat -> is_path key -> holds alg rd ns -> rnode rd node t -> trie_wf t ->
  prunes (at_key key) t ns (removed_at t key) (remove_helper alg fuel node key ns).
Proof.
  revert node t key ns. induction fuel as [|fuel IH]; intros node t key ns Hf Hkey Hh Hr Hwf; [lia|].
  cbn [remove_helper]. rewrite (rnode_path _ _ _ Hr). destruct t as [pp v ks]. cbn [tpath].
  overlap_cases key pp; subst key pp.
  - destruct (rnode_split _ _ _ Hr) as [(l & -> & [= -> -> ->])|(? & ? & c & ? & -> & [= <- <- <-] & Hs)].
    + exists None, (Some (leaf_value l)), ns, None, [], 1%nat.
      split_and!; [done | by apply recorded_refl | done | | intros _; apply ocanonical_None |].
      * apply pruned_all; [|done..]. unfold at_key. intros k _ Hk%bool_decide_eq_false.
        by rewrite tget_leaf, decide_False.
      * split; [|done]. by rewrite tget_leaf, decide_True.
    + destruct v as [v|]; [by apply prunes_value|]. apply prunes_absent; [done..|].
      rewrite tget_value. by rewrite decide_True.
  - apply prunes_absent; [done..|]. apply tget_path_longer.
  - apply is_path_app in Hkey as [Hsh [Hi Hq]%is_path_cons]. rewrite store_expect_nibble by done.
    destruct (rnode_split _ _ _ Hr) as [(l & -> & [= -> -> ->])|(? & ? & c & ? & -> & [= <- <- <-] & Hs)].
    + apply prunes_absent; [done..|]. by rewrite tget_app, Children_get_new.
    + cbn [Children_take Children_replace]. specialize (Hs ki Hi).
      destruct (Children_get c ki) as [child|] eqn:Hc.
      * apply prunes_descend with (D' := at_key kr); [done.. | apply at_key_slot |].
        intros n h t ns1 Hg Hh1 Hn Ht. unfold removed_at. rewrite tget_app, Hg.
        apply IH; try done. rewrite length_app in Hf. simpl in Hf. lia.
      * assert (Hg : Children_get ks ki = None) by (by inversion Hs). rewrite <- Hc, Children_set_get.
        apply prunes_absent; [done..|]. by rewrite tget_app, Hg.
  - apply prunes_absent; [done..|]. apply tget_path_diverges. congruence.
Qed.

(** ** [delete_children] *)

(** The counter after [n] more saturating increments. *)
Definition count (deleted : Z) (n : nat) : Z := Z.min (deleted + Z.of_nat n) U64_MAX.

Lemma count_0 d : u64 d -> count d 0 = d.
Proof. unfold count. ulia. Qed.

Lemma count_add d a b : u64 d -> count (count d a) b = count d (a + b).
Proof. unfold count. ulia. Qed.

Lemma count_u64 d n : u64 d -> u64 (count d n).
Proof. unfold count. ulia. Qed.

Lemma count_1 d : saturating_add_u64 d 1 = count d 1.
Proof. reflexivity. Qed.

(** What deleting a subtree returns: all of its values are counted and all of
    its handles are recorded. *)
Definition deletes (values : nat) (all : list MaybePersisted) (deleted : Z) (ns : NodeStore St)
  (r : result failure Z * NodeStore St) : Prop :=
  exists ns' hs, r = (Ok (count deleted values), ns') /\ recorded alg rd ns hs ns' /\ hs ≡ₚ all.

Lemma deletes_trans values1 values2 all1 all2 deleted ns r1 (f : Z -> store_op St Z) :
  u64 deleted -> deletes values1 all1 deleted ns (r1 ns) ->
  (forall ns', holds alg rd ns' ->
    deletes values2 all2 (count deleted values1) ns' (f (count deleted values1) ns')) ->
  deletes (values1 + values2) (all1 ++ all2) deleted ns ((r1 ≫= f) ns).
Proof.
  intros Hd (ns1 & hs1 & Hrun1 & Hrec1 & Hp1) H2.
  destruct (H2 ns1) as (ns2 & hs2 & Hrun2 & Hrec2 & Hp2); [by eapply recorded_holds|].
  exists ns2, (hs1 ++ hs2). rewrite <- count_add by done. split_and!.
  - by erewrite store_bind_Ok.
  - by eapply recorded_trans.
  - by f_equiv.
Qed.

Lemma deletes_after values all deleted ns hs ns' r :
  recorded alg rd ns hs ns' -> deletes values all deleted ns' r -> deletes values (hs ++ all) deleted ns r.
Proof.
  intros Hrec (ns2 & hs2 & -> & Hrec2 & Hp). exists ns2, (hs ++ hs2).
  split_and!; [done | by eapply recorded_trans | by f_equiv].
Qed.

(** The present children of a branch, with what they denote. *)
Lemma present_kids c ks :
  Children_wf c -> Children_wf ks ->
  (forall i, is_nibble i -> rslot rd (Children_get c i) (Children_get ks i)) ->
  exists us, Forall2 (fun p k => rslot rd (Some p.2) (Some k)) (Children_iter_present c) us /\
    kids_handles ks = flat_map (fun k => kid_handles (Some k)) us /\
    kids_size ks = sum_list ((fun k => kid_size (Some k)) <$> us) /\
    Forall (fun k => exists i, ks !! i = Some (Some k)) us.
Proof.
  intros Hc Hk Hs.
  assert (Hall : Forall2 (rslot rd) c ks).
  { apply Forall2_same_length_lookup. unfold Children_wf in *. split; [congruence|].
    intros i x y Hx Hy. specialize (Hs (Z.of_nat i)). unfold Children_get in Hs.
    rewrite Nat2Z.id, Hx, Hy in Hs. apply Hs. apply lookup_lt_Some in Hx.
    unfold is_nibble, MAX_CHILDREN, PathComponent_LEN in *. lia. }
  assert (Hlen : length PathComponent_ALL = length c) by (by rewrite Hc).
  clear Hs Hk Hc. unfold Children_iter_present, Children_iter. revert Hlen. generalize PathComponent_ALL.
  induction Hall as [|oc ok c ks Hoc _ IH]; intros [|i l] Hlen; try done.
  - exists []. split_and!; constructor.
  - injection Hlen as Hlen. destruct (IH l Hlen) as (us & Hus & Hh & Hz & Hin).
    assert (Hin' : Forall (fun k => exists i, (ok :: ks) !! i = Some (Some k)) us).
    { eapply Forall_impl; [exact Hin|]. intros k [j Hj]. by exists (S j). }
    destruct oc as [child|].
    + apply rslot_Some_inv in Hoc as Hoc'. destruct Hoc' as (n & t & -> & _).
      exists ((child_handle child, t) :: us). csimpl. split_and!.
      * by constructor.
      * unfold kids_handles in *. cbn [flat_map]. by rewrite Hh.
      * unfold kids_size in *. csimpl. by rewrite Hz.
      * constructor; [by exists 0%nat | done].
    + inversion Hoc; subst. by exists us.
Qed.

(** A leaf counts one value and has no handles. *)
Lemma rnode_leaf_measures l t : rnode rd (Leaf l) t -> tsize t = 1%nat /\ handles t = [].
Proof. inversion 1; subst. by rewrite tsize_T, handles_T. Qed.

Lemma delete_loop_ok (dc : BranchNode -> Z -> store_op St Z) cs us :
  Forall2 (fun p k => rslot rd (Some p.2) (Some k)) cs us ->
  (forall b h t deleted ns, (h, t) ∈ us -> rnode rd (Branch b) t -> u64 deleted -> holds alg rd ns ->
     deletes (tsize t) (handles t) deleted ns (dc b deleted ns)) ->
  forall deleted ns, u64 deleted -> holds alg rd ns ->
  deletes (sum_list ((fun k => kid_size (Some k)) <$> us)) (flat_map (fun k => kid_handles (Some k)) us)
    deleted ns (delete_loop alg dc cs deleted ns).
Proof.
  induction 1 as [|[i child] k cs us Hs _ IH]; intros Hdc deleted ns Hd Hh; cbn [delete_loop].
  - exists ns, []. csimpl. rewrite count_0 by done. split_and!; [done | by apply recorded_refl | done].
  - apply rslot_Some_inv in Hs as (n & t & [= ->] & Hcn & Hn). csimpl in *.
    destruct (merkle_read_for_update_ok alg rd ns child n Hh Hcn) as (ns1 & Hrd & Hrec).
    erewrite store_bind_Ok by exact Hrd.
    assert (Hh1 : holds alg rd ns1) by (by eapply recorded_holds).
    rewrite <- (assoc_L (++)). eapply deletes_after; [exact Hrec|].
    eapply deletes_trans; [done | |].
    + destruct n as [b|l].
      * eapply Hdc; [by constructor | done..].
      * destruct (rnode_leaf_measures _ _ Hn) as [-> ->]. exists ns1, [].
        split_and!; [done | by apply recorded_refl | done].
    + intros ns' Hh'. apply IH; [|by apply count_u64|done].
      intros b h u d nsx Hin. eapply Hdc. by constructor.
Qed.

Lemma delete_children_ok fuel b t deleted ns :
  (theight t <= fuel)%nat -> rnode rd (Branch b) t -> u64 deleted -> holds alg rd ns ->
  deletes (tsize t) (handles t) deleted ns (delete_children alg fuel b deleted ns).
Proof.
  revert b t deleted ns. induction fuel as [|fuel IH]; intros b t deleted ns Hf Hr Hd Hh.
  { destruct t. simpl in Hf. lia. }
  inversion Hr as [|pp v c ks Hcw Hkw Hs]; subst. cbn [delete_children branch_value branch_children].
  destruct (present_kids c ks Hcw Hkw Hs) as (us & Hus & Hhs & Hz & Hin).
  rewrite handles_T, tsize_T, Hhs, Hz, count_1.
  assert (Hloop : forall d, u64 d -> deletes (sum_list ((fun k => kid_size (Some k)) <$> us))
    (flat_map (fun k => kid_handles (Some k)) us) d ns
    (delete_loop alg (delete_children alg fuel) (Children_iter_present c) d ns)).
  { intros d Hd'. apply delete_loop_ok; [done | | done | done].
    intros b h t d' ns' Hu Hb Hd'' Hh'. apply IH; [|done..].
    rewrite Forall_forall in Hin. destruct (Hin _ Hu) as [i Hi].
    pose proof (theight_kid pp v ks i h t Hi). lia. }
  destruct v as [v|]; [|by apply Hloop].
  destruct (Hloop (count deleted 1)) as (ns' & hs & Hrun & Hrec & Hp); [by apply count_u64|].
  exists ns', hs. by rewrite <- count_add.
Qed.

(** ** [remove_prefix_helper] *)

Definition below (key : Path) (k : Path) : bool := bool_decide (is_Some (strip_prefix key k)).

Lemma below_slot pp i r k : below (pp ++ i :: r) k = from_option (below r) false (strip_prefix (pp ++ [i]) k).
Proof.
  unfold below. replace (pp ++ i :: r) with ((pp ++ [i]) ++ r) by (by rewrite <- app_assoc).
  rewrite strip_prefix_app. by destruct (strip_prefix (pp ++ [i]) k).
Qed.

Lemma below_extend key r k : is_Some (strip_prefix (key ++ r) k) -> below key k = true.
Proof.
  unfold below. rewrite strip_prefix_app. intros [s Hs]. apply bool_decide_eq_true.
  by destruct (strip_prefix key k).
Qed.

Lemma tget_outside t k : strip_prefix (tpath t) k = None -> tget t k = None.
Proof. destruct t as [pp v ks]. cbn [tpath]. intros Hs. by rewrite tget_T, Hs. Qed.

(** The result of a prefix removal: the counter. *)
Definition counted (deleted : Z) (x : Z) (n : nat) : Prop := x = count deleted n.

(** Nothing is stored below the prefix. *)
Lemma prunes_none_below t key deleted ns n :
  holds alg rd ns -> rnode rd n t -> trie_wf t -> u64 deleted ->
  (forall k, is_path k -> below key k = true -> tget t k = None) ->
  prunes (below key) t ns (counted deleted) ((mret (Some n, deleted) : store_op St _) ns).
Proof. intros. apply prunes_same; try done. unfold counted. by rewrite count_0. Qed.

(** Everything is stored below the prefix. *)
Lemma prunes_all_below fuel node pp v ks key r deleted ns :
  holds alg rd ns -> rnode rd node (T pp v ks) -> u64 deleted -> pp = key ++ r ->
  (theight (T pp v ks) <= fuel)%nat ->
  prunes (below key) (T pp v ks) ns (counted deleted)
    (match node with
     | Branch branch => deleted ← delete_children alg fuel branch deleted; mret (None, deleted)
     | Leaf _ => mret (None, saturating_add_u64 deleted 1)
     end ns).
Proof.
  intros Hh Hr Hd Hpp Hf.
  assert (Hout : forall k, is_path k -> below key k = false -> tget (T pp v ks) k = None).
  { intros k _ Hb. apply tget_outside. cbn [tpath]. destruct (strip_prefix pp k) as [s|] eqn:E; [|done].
    exfalso. rewrite (below_extend key r k) in Hb; [done|]. by rewrite <- Hpp, E. }
  destruct node as [b|l].
  - destruct (delete_children_ok fuel b _ deleted ns Hf Hr Hd Hh) as (ns' & hs & Hrun & Hrec & Hp).
    erewrite store_bind_Ok by exact Hrun.
    exists None, (count deleted (tsize (T pp v ks))), ns', None, hs, (tsize (T pp v ks)).
    split_and!; [done | done | done | | intros _; apply ocanonical_None | done].
    apply pruned_all; [done | by rewrite Hp, handles_T | done].
  - destruct (rnode_leaf_measures _ _ Hr) as [Hz Hhs]. rewrite handles_T in Hhs.
    exists None, (count deleted 1), ns, None, [], 1%nat.
    split_and!; [done | by apply recorded_refl | done | | intros _; apply ocanonical_None | done].
    apply pruned_all; [done | by rewrite Hhs | done].
Qed.

Lemma below_app_None sh i q k : strip_prefix (sh ++ [i]) k = None -> below (sh ++ i :: q) k = false.
Proof. intros H3. by rewrite below_slot, H3. Qed.

Lemma remove_prefix_helper_ok fuel node t key deleted ns :
  (theight t <= fuel)%nat -> is_path key -> holds alg rd ns -> rnode rd node t -> trie_wf t ->
  u64 deleted ->
  prunes (below key) t ns (counted deleted) (remove_prefix_helper alg fuel node key deleted ns).
Proof.
  revert node t key ns. induction fuel as [|fuel IH]; intros node t key ns Hf Hkey Hh Hr Hwf Hd.
  { destruct t. simpl in Hf. lia. }
  cbn [remove_prefix_helper]. rewrite (rnode_path _ _ _ Hr). destruct t as [pp v ks]. cbn [tpath].
  overlap_cases key pp; subst key pp.
  - apply (prunes_all_below (S fuel) node sh v ks sh []); try done. by rewrite app_nil_r.
  - by apply (prunes_all_below (S fuel) node _ v ks sh (ni :: nr)).
  - apply is_path_app in Hkey as [Hsh [Hi Hq]%is_path_cons]. rewrite store_expect_nibble by done.
    assert (Habsent : Children_get ks ki = None ->
      forall k, is_path k -> below (sh ++ ki :: kr) k = true -> tget (T sh v ks) k = None).
    { intros Hg k _ Hb. destruct (strip_prefix (sh ++ [ki]) k) as [s|] eqn:E;
        [by rewrite (tget_slot _ _ _ _ _ _ E), Hg | by rewrite below_app_None in Hb]. }
    destruct (rnode_split _ _ _ Hr) as [(l & -> & [= -> -> ->])|(? & ? & c & ? & -> & [= <- <- <-] & Hs)].
    + apply prunes_none_below; [done..|]. apply Habsent, Children_get_new.
    + cbn [Children_take Children_replace]. specialize (Hs ki Hi).
      destruct (Children_get c ki) as [child|] eqn:Hc.
      * apply prunes_descend with (D' := below kr)
          (rec := fun n => remove_prefix_helper alg fuel n kr deleted); [done.. | apply below_slot |].
        intros n h t ns1 Hg Hh1 Hn Ht. apply IH; try done.
        apply Children_get_Some in Hg. pose proof (theight_kid sh v ks _ h t Hg). lia.
      * assert (Hg : Children_get ks ki = None) by (by inversion Hs).
        rewrite <- Hc, Children_set_get. apply prunes_none_below; auto.
  - apply prunes_none_below; [done..|]. intros k _ Hb.
    destruct (strip_prefix (sh ++ [ki]) k) as [s|] eqn:E; [|by rewrite below_app_None in Hb].
    rewrite tget_cut. by rewrite (strip_prefix_diff sh ki ni k s).
Qed.

End Remove.
