(* ===== verification/TrieCanonical.v ===== *)
(** * Canonical tries

    A well-formed canonical trie is determined by its contents, its values can
    be enumerated, and its height is bounded by the length of its keys. *)

From S2P Require Import Prelude Primitives NodePath Node Trie MerkleSpec.
From S2P Require Import Codec NodeCodec NodeStore Merkle MerkleInsert.

(** ** Keys *)

(** A canonical trie stores something. *)
Lemma canonical_nonempty t :
  trie_wf t -> canonical t -> exists k x, is_path k /\ tget t (tpath t ++ k) = Some x.
Proof.
  induction t as [pp v ks IH] using trie_ind'. intros Hwf Hc.
  pose proof (trie_wf_inv _ _ _ Hwf) as (Hp & Hk & Hkids). cbn [tpath].
  destruct v as [x|]; [exists [], x; split; [constructor | by rewrite tget_app]|].
  apply canonical_iff in Hc as [Htwo Hcan]; [|done].
  destruct (Htwo eq_refl) as (i & _ & Hi & _ & _ & [[h u] Hu] & _).
  destruct (IH (Z.to_nat i) h u) as (k & x & Hkp & Hx);
    [by apply Children_get_Some | by eapply Hkids | by eapply Hcan |].
  exists (i :: tpath u ++ k), x. split.
  - apply is_path_cons. split; [done|]. apply is_path_app. split; [|done].
    destruct u as [q w us]. by apply Hkids, trie_wf_inv in Hu as [? _].
  - by rewrite tget_app, Hu.
Qed.

(** The keys below a present slot. *)
Lemma canonical_slot_nonempty pp v ks i :
  trie_wf (T pp v ks) -> canonical (T pp v ks) -> is_nibble i -> is_Some (Children_get ks i) ->
  exists k x, is_path k /\ tget (T pp v ks) (pp ++ i :: k) = Some x.
Proof.
  intros Hwf Hc Hi [[h u] Hu]. pose proof (trie_wf_inv _ _ _ Hwf) as (_ & _ & Hkids).
  destruct (canonical_nonempty u) as (k & x & Hkp & Hx); [by eapply Hkids | by eapply canonical_inv |].
  exists (tpath u ++ k), x. split; [|by rewrite tget_app, Hu].
  apply is_path_app. split; [|done]. destruct u as [q w us]. by apply Hkids, trie_wf_inv in Hu as [? _].
Qed.

(** The path of a canonical trie is the longest prefix its keys share. *)
Lemma canonical_longest_prefix t p :
  trie_wf t -> canonical t ->
  (forall k x, is_path k -> tget t k = Some x -> exists r, k = p ++ r) -> exists r, tpath t = p ++ r.
Proof.
  destruct t as [pp v ks]. intros Hwf Hc Hall. cbn [tpath].
  pose proof (trie_wf_inv _ _ _ Hwf) as (Hpp & Hk & _).
  destruct v as [x|].
  { apply (Hall pp x); [done|]. by rewrite tget_value, decide_True. }
  pose proof (proj1 (canonical_iff _ _ _ Hk) Hc) as [Htwo _].
  destruct (Htwo eq_refl) as (i & j & Hi & Hj & Hij & Hsi & Hsj).
  destruct (canonical_slot_nonempty pp None ks i) as (ki & xi & Hki & Hxi); [done..|].
  destruct (canonical_slot_nonempty pp None ks j) as (kj & xj & Hkj & Hxj); [done..|].
  assert (forall a k, is_nibble a -> is_path k -> is_path (pp ++ a :: k)) as Hpath.
  { intros a k Ha Hkp. apply is_path_app. split; [done|]. by apply is_path_cons. }
  destruct (Hall _ _ (Hpath _ _ Hi Hki) Hxi) as [ri Hri].
  destruct (Hall _ _ (Hpath _ _ Hj Hkj) Hxj) as [rj Hrj]. clear -Hri Hrj Hij.
  revert p Hri Hrj. induction pp as [|a pp IH]; intros [|b p] Hri Hrj; simpl in *; [by exists []| |by eexists|].
  - congruence.
  - injection Hri as -> Hri. injection Hrj as Hrj. destruct (IH p Hri Hrj) as [r ->]. by exists r.
Qed.

(** ** Contents determine the trie *)

(** Equality up to the handles through which children are referred to. *)
Inductive tsim : trie -> trie -> Prop :=
| tsim_T pp v ks us :
    Children_wf ks -> Children_wf us ->
    (forall i, is_nibble i -> ksim (Children_get ks i) (Children_get us i)) ->
    tsim (T pp v ks) (T pp v us)
with ksim : option kid -> option kid -> Prop :=
| ksim_None : ksim None None
| ksim_Some g h t u : tsim t u -> ksim (Some (g, t)) (Some (h, u)).

Definition otsim (t u : option trie) : Prop :=
  match t, u with None, None => True | Some t, Some u => tsim t u | _, _ => False end.

Lemma canonical_same_path t u :
  trie_wf t -> trie_wf u -> canonical t -> canonical u ->
  (forall k, is_path k -> tget t k = tget u k) -> tpath t = tpath u.
Proof.
  intros Hwt Hwu Hct Hcu He.
  destruct (canonical_longest_prefix t (tpath u)) as [r Hr]; [done..| |].
  { intros k x Hk Hx. rewrite He in Hx by done. by eapply tget_prefix. }
  destruct (canonical_longest_prefix u (tpath t)) as [s Hs]; [done..| |].
  { intros k x Hk Hx. rewrite <- He in Hx by done. by eapply tget_prefix. }
  rewrite Hs in Hr. rewrite <- app_assoc in Hr.
  assert (s ++ r = []) as Hn.
  { apply (app_inv_head (tpath t)). by rewrite app_nil_r. }
  apply app_nil in Hn as [-> _]. by rewrite app_nil_r in Hs.
Qed.

Lemma canonical_unique t u :
  trie_wf t -> trie_wf u -> canonical t -> canonical u ->
  (forall k, is_path k -> tget t k = tget u k) -> tsim t u.
Proof.
  revert u. induction t as [pp v ks IH] using trie_ind'. intros [qq w us] Hwt Hwu Hct Hcu He.
  pose proof (canonical_same_path _ _ Hwt Hwu Hct Hcu He) as Hp. simpl in Hp. subst qq.
  pose proof (trie_wf_inv _ _ _ Hwt) as (Hpp & Hk & Hkids).
  pose proof (trie_wf_inv _ _ _ Hwu) as (_ & Hu & Huids).
  assert (v = w) as <-.
  { specialize (He pp Hpp). rewrite (tget_value pp v), (tget_value pp w), !decide_True in He by done. done. }
  constructor; [done..|]. intros i Hi.
  assert (Hslot : forall k, is_path k -> tget (T pp v ks) (pp ++ i :: k) = tget (T pp v us) (pp ++ i :: k)).
  { intros k Hkp. apply He. apply is_path_app. split; [done|]. by apply is_path_cons. }
  destruct (Children_get ks i) as [[h t]|] eqn:Hti, (Children_get us i) as [[h' u]|] eqn:Hui; [| | |constructor].
  - constructor. apply (IH (Z.to_nat i) h t); [by apply Children_get_Some | by eapply Hkids | by eapply Huids |
      by eapply canonical_inv with (1 := Hct) | by eapply canonical_inv with (1 := Hcu) |].
    intros k Hkp. specialize (Hslot k Hkp). by rewrite !tget_app, Hti, Hui in Hslot.
  - destruct (canonical_slot_nonempty pp v ks i) as (k & x & Hkp & Hx); [done..|by rewrite Hti|].
    rewrite Hslot, tget_app, Hui in Hx; done.
  - destruct (canonical_slot_nonempty pp v us i) as (k & x & Hkp & Hx); [done..|by rewrite Hui|].
    rewrite <- Hslot, tget_app, Hti in Hx; done.
Qed.

(** The empty trie has its own shape. *)
Lemma ocanonical_unique t u :
  owf t -> owf u -> ocanonical t -> ocanonical u ->
  (forall k, is_path k -> otget t k = otget u k) -> otsim t u.
Proof.
  intros Hwt Hwu Hct Hcu He.
  assert (Hne : forall a, trie_wf a -> canonical a -> exists k x, is_path k /\ tget a k = Some x).
  { intros a Ha Hca. destruct (canonical_nonempty a Ha Hca) as (k & x & Hk & Hx).
    exists (tpath a ++ k), x. split; [|done]. apply is_path_app. split; [|done].
    destruct a. by apply trie_wf_inv in Ha as [? _]. }
  destruct t as [t|], u as [u|]; simpl; try done.
  - apply canonical_unique; auto.
  - destruct (Hne t) as (k & x & Hk & Hx); auto. specialize (He k Hk). simpl in He. congruence.
  - destruct (Hne u) as (k & x & Hk & Hx); auto. specialize (He k Hk). simpl in He. congruence.
Qed.

(** ** Height *)

(** Every level of a canonical trie consumes a nibble of some key. *)
Lemma canonical_height t L :
  trie_wf t -> canonical t ->
  (forall k x, is_path k -> tget t k = Some x -> (length k <= L)%nat) -> (theight t <= S L)%nat.
Proof.
  revert L. induction t as [pp v ks IH] using trie_ind'. intros L Hwf Hc HL.
  pose proof (trie_wf_inv _ _ _ Hwf) as (Hpp & Hk & Hkids).
  assert (Hkid : forall i h t, ks !! i = Some (Some (h, t)) -> (theight t <= L)%nat).
  { intros i h t Hi. assert (Hni : is_nibble (Z.of_nat i)).
    { apply lookup_lt_Some in Hi. unfold Children_wf, MAX_CHILDREN, PathComponent_LEN in Hk.
      unfold is_nibble. lia. }
    assert (Hg : Children_get ks (Z.of_nat i) = Some (h, t)) by (apply Children_get_Some; by rewrite Nat2Z.id).
    assert (Hkey : forall k x, is_path k -> tget t k = Some x -> (S (length k) <= L)%nat).
    { intros k x Hkp Hx. specialize (HL (pp ++ Z.of_nat i :: k) x). rewrite length_app in HL. simpl in HL.
      etransitivity; [|apply HL]; [lia | | by rewrite tget_app, Hg].
      apply is_path_app. split; [done|]. by apply is_path_cons. }
    destruct (canonical_slot_nonempty pp v ks (Z.of_nat i)) as (k & x & Hkp & Hx); [done..|by rewrite Hg|].
    rewrite tget_app, Hg in Hx. simpl in Hx. pose proof (Hkey k x Hkp Hx).
    destruct L as [|L]; [lia|]. apply (IH i h t Hi); [by eapply Hkids | by eapply canonical_inv |].
    intros k' x' Hk' Hx'. specialize (Hkey k' x' Hk' Hx'). lia. }
  simpl. apply le_n_S. clear -Hkid. induction ks as [|[[h t]|] ks IH]; [lia | |].
  - apply Nat.max_lub; [by apply (Hkid 0%nat h)|]. apply IH. intros i h' t' Hi. by apply (Hkid (S i) h').
  - apply IH. intros i h' t' Hi. by apply (Hkid (S i) h').
Qed.

(** ** Enumeration *)

(** The keys of a trie, in order. *)
Fixpoint tkeys (t : trie) : list Path :=
  let '(T pp v ks) := t in
  (match v with Some _ => [pp] | None => [] end) ++
  (fix go (ks : list (option kid)) (i : Z) : list Path :=
     match ks with
     | [] => []
     | None :: ks => go ks (i + 1)
     | Some (_, t) :: ks => ((fun k => pp ++ i :: k) <$> tkeys t) ++ go ks (i + 1)
     end) ks 0.

Definition slot_keys (pp : Path) (i : Z) (o : option kid) : list Path :=
  match o with None => [] | Some (_, t) => (fun k => pp ++ i :: k) <$> tkeys t end.

Fixpoint kids_keys (pp : Path) (ks : list (option kid)) (i : Z) : list Path :=
  match ks with
  | [] => []
  | o :: ks => slot_keys pp i o ++ kids_keys pp ks (i + 1)
  end.

Lemma tkeys_T pp v ks :
  tkeys (T pp v ks) = (match v with Some _ => [pp] | None => [] end) ++ kids_keys pp ks 0.
Proof.
  simpl. f_equal. generalize 0. induction ks as [|[[h t]|] ks IH]; intros i; simpl; [done | by rewrite IH | done].
Qed.

Lemma elem_of_kids_keys pp ks b k :
  0 <= b ->
  k ∈ kids_keys pp ks b <-> exists i h t r, ks !! i = Some (Some (h, t)) /\ r ∈ tkeys t /\
    k = pp ++ (b + Z.of_nat i) :: r.
Proof.
  revert b. induction ks as [|o ks IH]; intros b Hb; simpl.
  - rewrite elem_of_nil. split; [done|]. by intros (i & h & t & r & Hi & _).
  - rewrite elem_of_app, IH by lia. split.
    + intros [Hk|(i & h & t & r & Hi & Hr & ->)].
      * destruct o as [[h t]|]; simpl in Hk; [|by apply elem_of_nil in Hk].
        apply list_elem_of_fmap in Hk as (r & -> & Hr). exists 0%nat, h, t, r. by rewrite Z.add_0_r.
      * exists (S i), h, t, r. split_and!; [done..|]. do 2 f_equal. lia.
    + intros ([|i] & h & t & r & Hi & Hr & ->).
      * left. simpl in Hi. injection Hi as ->. simpl. apply list_elem_of_fmap. exists r.
        by rewrite Z.add_0_r.
      * right. exists i, h, t, r. split_and!; [done..|]. do 2 f_equal. lia.
Qed.

(** A key is listed iff it has a value. *)
Lemma elem_of_tkeys t k : trie_wf t -> k ∈ tkeys t <-> is_path k /\ is_Some (tget t k).
Proof.
  revert k. induction t as [pp v ks IH] using trie_ind'. intros k Hwf.
  pose proof (trie_wf_inv _ _ _ Hwf) as (Hpp & Hk & Hkids). inversion Hwf as [? ? ? _ _ Hkids']; subst.
  rewrite tkeys_T, elem_of_app, elem_of_kids_keys by lia. split.
  - intros [Hv|(i & h & t & r & Hi & Hr & ->)].
    + destruct v; [|by apply elem_of_nil in Hv]. apply list_elem_of_singleton in Hv as ->.
      split; [done|]. by rewrite tget_value, decide_True.
    + apply (IH i h t Hi) in Hr as [Hrp Hr]; [|by eapply Hkids'].
      assert (is_nibble (0 + Z.of_nat i)).
      { apply lookup_lt_Some in Hi. unfold Children_wf, MAX_CHILDREN, PathComponent_LEN in Hk.
        unfold is_nibble. lia. }
      split; [apply is_path_app; split; [done|]; by apply is_path_cons|].
      rewrite tget_app. unfold Children_get. replace (Z.to_nat (0 + Z.of_nat i)) with i by lia. by rewrite Hi.
  - intros [Hkp [x Hx]]. destruct (tget_prefix _ _ _ Hx) as [r ->]. simpl in *. rewrite tget_app in Hx.
    destruct r as [|i r]; [left; subst v; rewrite app_nil_r; by apply list_elem_of_singleton|right].
    apply is_path_app in Hkp as [_ [Hi Hr]%is_path_cons].
    destruct (Children_get ks i) as [[h t]|] eqn:Hg; [|done]. simpl in Hx.
    pose proof Hg as Hg'. apply Children_get_Some in Hg'.
    exists (Z.to_nat i), h, t, r. split_and!; [done | by apply (IH _ _ _ Hg'); eauto |].
    unfold is_nibble in Hi. do 2 f_equal. lia.
Qed.

Lemma NoDup_kids_keys pp ks b :
  0 <= b -> (forall i h t, ks !! i = Some (Some (h, t)) -> NoDup (tkeys t)) -> NoDup (kids_keys pp ks b).
Proof.
  revert b. induction ks as [|o ks IH]; intros b Hb Hnd; simpl; [constructor|].
  apply NoDup_app. split_and!.
  - destruct o as [[h t]|]; simpl; [|constructor]. apply NoDup_fmap_2; [|by apply (Hnd 0%nat h)].
    intros x y Hxy%app_inv_head. congruence.
  - intros k Hk (i & h & t & r & Hi & Hr & ->)%elem_of_kids_keys; [|lia].
    destruct o as [[h' t']|]; simpl in Hk; [|by apply elem_of_nil in Hk].
    apply list_elem_of_fmap in Hk as (s & Hs%app_inv_head & _). injection Hs. lia.
  - apply IH; [lia|]. intros i h t Hi. by apply (Hnd (S i) h).
Qed.

Lemma NoDup_tkeys t : trie_wf t -> NoDup (tkeys t).
Proof.
  induction t as [pp v ks IH] using trie_ind'. intros Hwf. inversion Hwf as [? ? ? _ _ Hkids]; subst.
  rewrite tkeys_T. apply NoDup_app. split_and!.
  - destruct v; [apply NoDup_singleton | constructor].
  - intros k Hk (i & h & t & r & Hi & Hr & ->)%elem_of_kids_keys; [|lia].
    destruct v; [|by apply elem_of_nil in Hk]. apply list_elem_of_singleton in Hk.
    apply (f_equal length) in Hk. rewrite length_app in Hk. simpl in Hk. lia.
  - apply NoDup_kids_keys; [lia|]. eauto.
Qed.

Lemma length_tkeys t : length (tkeys t) = tsize t.
Proof.
  induction t as [pp v ks IH] using trie_ind'. rewrite tkeys_T, tsize_T, length_app.
  f_equal; [by destruct v|]. unfold kids_size. generalize 0.
  induction ks as [|o ks IHks]; intros b; [done|]. cbn [kids_keys]. rewrite length_app. csimpl.
  f_equal; [|apply IHks; intros i; apply (IH (S i))].
  destruct o as [[h t]|]; simpl; [|done]. rewrite length_fmap. by apply (IH 0%nat h).
Qed.
