(* ===== verification/MerkleCorrect.v ===== *)
(** * The trie as a map

    The refinement of [firewood/src/merkle/mod.rs]: the operations of [Merkle]
    on byte keys implement a finite map, the shape of the trie depends on the
    map only, and the delete list accounts for every node that left the trie. *)

From S2P Require Import Prelude Primitives NodePath Node Codec NodeCodec Trie NodeStore Linear Merkle MerkleSpec MerkleInsert MerkleRemove TrieCanonical.

(** ** Byte keys and nibble paths *)

Lemma nibbles_of_app a b : nibbles_of (a ++ b) = nibbles_of a ++ nibbles_of b.
Proof. induction a as [|x a IH]; simpl; [done | by rewrite IH]. Qed.

Lemma nibbles_of_prefix p b r : nibbles_of b = nibbles_of p ++ r -> exists s, b = p ++ s.
Proof.
  revert b. induction p as [|x p IH]; intros b Hb; [by exists b|].
  destruct b as [|y b]; [done|]. simpl in Hb. injection Hb as Hh Hl Hb.
  destruct (IH b Hb) as [s ->]. exists s. simpl. f_equal.
  assert (nibbles_of [y] = nibbles_of [x]) as Hxy by (simpl; congruence).
  apply nibbles_of_inj in Hxy. congruence.
Qed.

Lemma below_nibbles p b : below (nibbles_of p) (nibbles_of b) = bool_decide (p `prefix_of` b).
Proof.
  unfold below. apply bool_decide_ext. split.
  - intros [r Hr%strip_prefix_Some]. destruct (nibbles_of_prefix _ _ _ Hr) as [s ->]. by apply prefix_app_r.
  - intros [s ->]. exists (nibbles_of s). apply strip_prefix_Some. apply nibbles_of_app.
Qed.

Section MerkleCorrect.
Context {St : Type} `{ReadableStorageLaws St} `{VarInt}.
Variable alg : NodeHashAlgorithm.
Variable rd : LinearAddress -> option Node.

(** ** Lookup *)

Lemma rnode_value n t : rnode rd n t -> node_value n = tval t.
Proof. by destruct 1. Qed.

(** The node a child slot refers to, read without recording it. *)
Lemma read_child_ok ns c n :
  holds alg rd ns -> child_node rd c = Some n ->
  exists ns', (match c with
               | ChildNode child => mret child
               | AddressWithHash addr _ => read_node alg addr
               | ChildMaybePersisted m _ => as_shared_node alg m
               end : store_op St Node) ns = (Ok n, ns') /\ recorded alg rd ns [] ns'.
Proof.
  intros Hh Hc. destruct c as [n'|a h|[n'|a n'|a] h]; simpl in *;
    try (injection Hc as ->; eexists; split; [done | by apply recorded_refl]);
    by apply read_node_ok.
Qed.

(** [w] is the subtrie of the node at [key]. *)
Definition reaches (t : trie) (key : Path) (w : trie) : Prop :=
  trie_wf w /\ (theight w <= theight t)%nat /\ forall i s, tget t (key ++ i :: s) = kid_get (Children_get (tkids w) i) s.

Lemma reaches_here pp v ks : trie_wf (T pp v ks) -> reaches (T pp v ks) pp (T pp v ks).
Proof. intros Hw. split_and!; [done | done|]. intros i s. by rewrite tget_app. Qed.

Lemma reaches_kid pp v ks i h t key w :
  Children_get ks i = Some (h, t) -> reaches t key w -> reaches (T pp v ks) (pp ++ i :: key) w.
Proof.
  intros Hk (Hw & Hh & Hg). pose proof Hk as Hk'%Children_get_Some. pose proof (theight_kid pp v ks _ _ _ Hk').
  split_and!; [done | lia|]. intros j s. rewrite <- app_assoc, tget_app. cbn. rewrite Hk. cbn. by rewrite <- Hg.
Qed.

Lemma get_helper_reads fuel node t key ns :
  (length key < fuel)%nat -> is_path key -> holds alg rd ns -> rnode rd node t -> trie_wf t ->
  exists o ns', get_helper alg fuel node key ns = (Ok o, ns') /\ recorded alg rd ns [] ns' /\
    o ≫= node_value = tget t key /\ forall n, o = Some n -> exists w, rnode rd n w /\ reaches t key w.
Proof.
  revert node t key ns. induction fuel as [|fuel IH]; intros node t key ns Hf Hkey Hh Hr Hwf; [lia|].
  cbn [get_helper]. rewrite (rnode_path _ _ _ Hr). destruct t as [pp v ks]. cbn [tpath].
  overlap_cases key pp; subst key pp.
  - eexists _, _. split_and!; [done | by apply recorded_refl | |].
    + simpl. rewrite (rnode_value _ _ Hr). simpl. by rewrite tget_value, decide_True.
    + intros n [= <-]. eexists. split; [done | by apply reaches_here].
  - eexists _, _. split_and!; [done | by apply recorded_refl | by rewrite tget_path_longer | done].
  - apply is_path_app in Hkey as [Hsh [Hi Hq]%is_path_cons]. rewrite store_expect_nibble by done.
    rewrite tget_app.
    destruct (rnode_split _ _ _ Hr) as [(l & -> & [= -> -> ->])|(? & ? & c & ? & -> & [= <- <- <-] & Hs)].
    { eexists _, _. split_and!; [done | by apply recorded_refl | by rewrite Children_get_new | done]. }
    specialize (Hs ki Hi). cbn [branch_children].
    destruct (Children_get c ki) as [child|] eqn:Hc.
    + apply rslot_Some_inv in Hs as (n & t & Hg & Hcn & Hn). rewrite Hg. simpl.
      pose proof (trie_wf_inv _ _ _ Hwf) as (_ & _ & Hkids).
      destruct (read_child_ok ns child n Hh Hcn) as (ns1 & Hrd & Hrec1).
      destruct (IH n t kr ns1) as (o & ns2 & Hrun & Hrec2 & Ho & Hat); [|done|by eapply recorded_holds|done|by eapply Hkids|].
      { rewrite length_app in Hf. simpl in Hf. lia. }
      exists o, ns2. split_and!; [|by apply (recorded_trans alg rd ns ns1 ns2 [] [])|done|].
      * destruct child as [n'|a h|m h].
        -- injection Hrd as -> ->. done.
        -- erewrite store_bind_Ok by exact Hrd. done.
        -- erewrite store_bind_Ok by exact Hrd. done.
      * intros m Hm. destruct (Hat m Hm) as (w & Hw & Hreach). exists w. split; [done | by eapply reaches_kid].
    + assert (Hg : Children_get ks ki = None) by (by inversion Hs). rewrite Hg.
      eexists _, _. split_and!; [done | by apply recorded_refl | done | done].
  - eexists _, _. split_and!; [done | by apply recorded_refl | | done].
    rewrite tget_path_diverges by congruence. done.
Qed.

Lemma get_helper_ok fuel node t key ns :
  (length key < fuel)%nat -> is_path key -> holds alg rd ns -> rnode rd node t -> trie_wf t ->
  exists o ns', get_helper alg fuel node key ns = (Ok o, ns') /\ recorded alg rd ns [] ns' /\
    o ≫= node_value = tget t key.
Proof.
  intros Hf Hkey Hh Hr Hwf. destruct (get_helper_reads fuel node t key ns Hf Hkey Hh Hr Hwf) as (o & ns' & Hrun & Hrec & Ho & _). by exists o, ns'.
Qed.

(** ** One operation *)

(** The store holds the trie [t]. *)
Definition represents (ns : NodeStore St) (t : option trie) : Prop :=
  holds alg rd ns /\ rroot rd (ns_root ns) t /\ owf t.

(** One operation takes [t] to [t'], recording the handles that left. *)
Definition transition (ns : NodeStore St) (t : option trie) (ns' : NodeStore St) (t' : option trie)
  (hs : list MaybePersisted) : Prop :=
  represents ns' t' /\
  ns_deleted_node_tracking ns' = ns_deleted_node_tracking ns /\
  ns_kind ns' = (if ns_deleted_node_tracking ns then foldl track_deleted (ns_kind ns) hs else ns_kind ns) /\
  ohandles t ≡ₚ ohandles t' ++ hs /\ (ocanonical t -> ocanonical t').

Lemma transition_recorded ns t hs n' t' ns' :
  recorded alg rd (set_root None ns) hs ns' -> rroot rd n' t' -> owf t' ->
  ohandles t ≡ₚ ohandles t' ++ hs -> (ocanonical t -> ocanonical t') ->
  transition ns t (set_root n' ns') t' hs.
Proof. intros (Hh & _ & Ht & Hk) Hr Hwf Hhs Hc. repeat split; try done; apply Hh. Qed.

(** Taking the root out of an empty store. *)
Lemma recorded_unrooted ns :
  holds alg rd ns -> ns_root ns = None -> recorded alg rd (set_root None ns) [] ns.
Proof. intros Hh Hr. split_and!; [done..|]. simpl. by destruct (ns_deleted_node_tracking ns). Qed.

Lemma get_value_recorded key ns t :
  is_bytes key -> represents ns t ->
  exists ns', get_value alg key ns = (Ok (otget t (nibbles_of key)), ns') /\ recorded alg rd ns [] ns'.
Proof.
  intros Hkey (Hh & Hr & Hwf).
  unfold get_value, get_node. destruct (ns_root ns) as [root|] eqn:Hroot, t as [t|]; try done; simpl in Hr.
  - rewrite from_nibbles_iterator_new by done.
    destruct (get_helper_ok (S (length (nibbles_of key))) root t (nibbles_of key) ns)
      as (o & ns' & Hrun & Hrec & Ho); [lia | by apply is_path_nibbles_of | done | done | by apply Hwf |].
    exists ns'. split; [|done]. unfold mbind, store_bind. rewrite Hroot.
    rewrite Hrun. simpl. rewrite <- Ho. by destruct o.
  - exists ns. split; [|by apply recorded_refl]. unfold mbind, store_bind. by rewrite Hroot.
Qed.

Lemma get_value_ok key ns t :
  is_bytes key -> represents ns t ->
  exists ns', get_value alg key ns = (Ok (otget t (nibbles_of key)), ns') /\ transition ns t ns' t [].
Proof.
  intros Hkey Hr. destruct (get_value_recorded key ns t Hkey Hr) as (ns' & Hrun & Hh' & Hr' & Ht & Hk). exists ns'. split; [done|].
  destruct Hr as (Hh & Hr & Hwf). repeat split; try done; try apply Hh'; [by rewrite Hr' | by rewrite app_nil_r].
Qed.

Lemma insert_from_iter_ok it value ns t :
  is_path (from_nibbles_iterator it) -> represents ns t ->
  exists ns' t' hs, insert_from_iter alg it value ns = (Ok tt, ns') /\ transition ns t ns' (Some t') hs /\
    forall k, is_path k -> tget t' k = if decide (k = from_nibbles_iterator it) then Some value else otget t k.
Proof.
  intros Hp (Hh & Hr & Hwf). unfold insert_from_iter. set (key := from_nibbles_iterator it) in *.
  destruct (ns_root ns) as [root|] eqn:Hroot, t as [t|]; try done; simpl in Hr.
  - destruct (insert_helper_ok alg rd value (S (length key)) root t key (set_root None ns))
      as (n' & ns' & t' & hs & Hrun & Hrec & Hn & [Hw He Hhs _] & Hc); [lia | done | done | done | by apply Hwf |].
    rewrite Hrun. exists (set_root (Some n') ns'), t', hs. split_and!; [done | | exact He].
    apply transition_recorded; try done. intros Hct. apply ocanonical_Some, Hc; [by apply Hct | done].
  - eexists _, (T key (Some value) Children_new), []. split_and!; [done | |].
    + apply transition_recorded; [apply (recorded_unrooted ns); done | apply (rnode_leaf rd (mkLeaf _ _)) |
        by apply owf_Some, trie_wf_leaf | done | intros _; apply ocanonical_Some, canonical_leaf].
    + intros k Hk. simpl. by rewrite tget_leaf.
Qed.

Lemma insert_ok key value ns t :
  is_bytes key -> represents ns t ->
  exists ns' t' hs, insert alg key value ns = (Ok tt, ns') /\ transition ns t ns' (Some t') hs /\
    forall k, is_path k -> tget t' k = if decide (k = nibbles_of key) then Some value else otget t k.
Proof.
  intros Hkey. rewrite <- (from_nibbles_iterator_new key Hkey). apply insert_from_iter_ok.
  rewrite from_nibbles_iterator_new by done. by apply is_path_nibbles_of.
Qed.

Lemma remove_from_iter_ok it ns t :
  is_path (from_nibbles_iterator it) -> represents ns t ->
  exists ns' t' hs, remove_from_iter alg it ns = (Ok (otget t (from_nibbles_iterator it)), ns') /\ transition ns t ns' t' hs /\
    forall k, is_path k -> otget t' k = if decide (k = from_nibbles_iterator it) then None else otget t k.
Proof.
  intros Hp (Hh & Hr & Hwf). unfold remove_from_iter. set (key := from_nibbles_iterator it) in *.
  destruct (ns_root ns) as [root|] eqn:Hroot, t as [t|]; try done; simpl in Hr.
  - destruct (remove_helper_ok alg rd (S (length key)) root t key (set_root None ns))
      as (n' & x & ns' & t' & hs & cnt & Hrun & Hrec & Hn & [Hw He Hhs _] & Hc & [-> _]);
      [lia | done | done | done | by apply Hwf |].
    rewrite Hrun. exists (set_root n' ns'), t', hs. split_and!; [done | |].
    + apply transition_recorded; try done. intros Hct. by apply Hc, Hct.
    + intros k Hk. rewrite He by done. unfold at_key. by case_bool_decide; case_decide.
  - exists ns, None, []. split_and!; [done | |].
    + repeat split; try done; try apply Hh; [by rewrite Hroot | by destruct (ns_deleted_node_tracking ns)].
    + intros k Hk. by case_decide.
Qed.

Lemma remove_ok key ns t :
  is_bytes key -> represents ns t ->
  exists ns' t' hs, remove alg key ns = (Ok (otget t (nibbles_of key)), ns') /\ transition ns t ns' t' hs /\
    forall k, is_path k -> otget t' k = if decide (k = nibbles_of key) then None else otget t k.
Proof.
  intros Hkey. rewrite <- (from_nibbles_iterator_new key Hkey). apply remove_from_iter_ok.
  rewrite from_nibbles_iterator_new by done. by apply is_path_nibbles_of.
Qed.

Lemma remove_prefix_from_iter_ok fuel it ns t :
  is_path (from_nibbles_iterator it) -> represents ns t -> (from_option theight 0 t <= fuel)%nat ->
  exists ns' t' hs, remove_prefix_from_iter alg fuel it ns =
      (Ok (Z.min (Z.of_nat (otsize t - otsize t')) U64_MAX), ns') /\ transition ns t ns' t' hs /\
    forall k, is_path k -> otget t' k = if below (from_nibbles_iterator it) k then None else otget t k.
Proof.
  intros Hp (Hh & Hr & Hwf) Hf. unfold remove_prefix_from_iter. set (prefix := from_nibbles_iterator it) in *.
  destruct (ns_root ns) as [root|] eqn:Hroot, t as [t|]; try done; simpl in Hr, Hf.
  - destruct (remove_prefix_helper_ok alg rd fuel root t prefix 0 (set_root None ns))
      as (n' & x & ns' & t' & hs & cnt & Hrun & Hrec & Hn & [Hw He Hhs Hz] & Hc & ->);
      [done | done | done | done | by apply Hwf | ulia |].
    rewrite Hrun. exists (set_root n' ns'), t', hs. split_and!; [|apply transition_recorded; try done|done].
    + unfold count. simpl. rewrite Hz. do 4 f_equal. lia.
    + intros Hct. by apply Hc, Hct.
  - exists ns, None, []. split_and!; [done | |].
    + repeat split; try done; try apply Hh; [by rewrite Hroot | by destruct (ns_deleted_node_tracking ns)].
    + intros k Hk. by destruct (below _ _).
Qed.

Lemma remove_prefix_ok fuel prefix ns t :
  is_bytes prefix -> represents ns t -> (from_option theight 0 t <= fuel)%nat ->
  exists ns' t' hs, remove_prefix alg fuel prefix ns =
      (Ok (Z.min (Z.of_nat (otsize t - otsize t')) U64_MAX), ns') /\ transition ns t ns' t' hs /\
    forall k, is_path k -> otget t' k = if below (nibbles_of prefix) k then None else otget t k.
Proof.
  intros Hkey. rewrite <- (from_nibbles_iterator_new prefix Hkey). apply remove_prefix_from_iter_ok.
  rewrite from_nibbles_iterator_new by done. by apply is_path_nibbles_of.
Qed.

(** ** Sequences of operations *)

Inductive op : Type :=
| OpGet (key : bytes)
| OpInsert (key : bytes) (value : Value)
| OpRemove (key : bytes)
| OpRemovePrefix (prefix : bytes).

Inductive outcome : Type :=
| RValue (v : option Value)
| RUnit
| RCount (n : Z).

Definition run_op (fuel : nat) (o : op) : store_op St outcome :=
  match o with
  | OpGet key => v ← get_value alg key; mret (RValue v)
  | OpInsert key value => _ ← insert alg key value; mret RUnit
  | OpRemove key => v ← remove alg key; mret (RValue v)
  | OpRemovePrefix prefix => n ← remove_prefix alg fuel prefix; mret (RCount n)
  end.

Fixpoint run_ops (fuel : nat) (ops : list op) : store_op St (list outcome) :=
  match ops with
  | [] => mret []
  | o :: ops => r ← run_op fuel o; rs ← run_ops fuel ops; mret (r :: rs)
  end.

(** The same operations on a finite map. *)
Definition spec_op (o : op) (m : gmap bytes Value) : outcome * gmap bytes Value :=
  match o with
  | OpGet key => (RValue (m !! key), m)
  | OpInsert key value => (RUnit, <[key := value]> m)
  | OpRemove key => (RValue (m !! key), delete key m)
  | OpRemovePrefix prefix =>
      let m' := filter (fun kv => ~ prefix `prefix_of` kv.1) m in
      (RCount (Z.min (Z.of_nat (size m - size m')) U64_MAX), m')
  end.

Fixpoint spec_ops (ops : list op) (m : gmap bytes Value) : list outcome * gmap bytes Value :=
  match ops with
  | [] => ([], m)
  | o :: ops => let (r, m) := spec_op o m in let (rs, m) := spec_ops ops m in (r :: rs, m)
  end.

(** Keys are byte strings; stored ones are short enough for [fuel]. *)
Definition op_ok (fuel : nat) (o : op) : Prop :=
  match o with
  | OpGet key | OpRemove key | OpRemovePrefix key => is_bytes key
  | OpInsert key _ => is_bytes key /\ (2 * length key < fuel)%nat
  end.

(** ** The map of a trie *)

(** The keys of the trie are the nibbles of the keys of the map. *)
Record contents (fuel : nat) (t : option trie) (m : gmap bytes Value) : Prop := mkContents {
  contents_get b : is_bytes b -> otget t (nibbles_of b) = m !! b;
  contents_keys k x : is_path k -> otget t k = Some x -> exists b, is_bytes b /\ k = nibbles_of b;
  contents_bytes b x : m !! b = Some x -> is_bytes b /\ (2 * length b < fuel)%nat;
}.

Lemma contents_otsize fuel t m : owf t -> contents fuel t m -> otsize t = size m.
Proof.
  intros Hwf [Hget Hkeys Hb].
  assert (Hp : from_option tkeys [] t ≡ₚ nibbles_of <$> (map_to_list m).*1).
  { apply NoDup_Permutation.
    - destruct t; [by apply NoDup_tkeys, Hwf | constructor].
    - apply NoDup_fmap_2; [intros a b; apply nibbles_of_inj|]. apply NoDup_fst_map_to_list.
    - intros k. rewrite list_elem_of_fmap.
      assert (Hel : k ∈ from_option tkeys [] t <-> is_path k /\ is_Some (otget t k)).
      { destruct t as [t|]; [by apply elem_of_tkeys, Hwf|]. simpl. rewrite elem_of_nil.
        split; [done | by intros [_ [? ?]]]. }
      rewrite Hel. split.
      + intros [Hk [x Hx]]. destruct (Hkeys k x Hk Hx) as (b & Hbb & ->). exists b. split; [done|].
        apply list_elem_of_fmap. exists (b, x). split; [done|]. apply elem_of_map_to_list.
        by rewrite <- Hget.
      + intros (b & -> & Hin). apply list_elem_of_fmap in Hin as ([b' x] & -> & Hin). simpl.
        apply elem_of_map_to_list in Hin. destruct (Hb b' x Hin) as [Hbb _].
        split; [by apply is_path_nibbles_of|]. by rewrite Hget, Hin. }
  apply Permutation_length in Hp. rewrite !length_fmap, length_map_to_list in Hp.
  rewrite <- Hp. destruct t as [t|]; simpl; [by rewrite length_tkeys | done].
Qed.

(** A canonical trie is no higher than its longest key allows. *)
Lemma contents_height fuel t m :
  owf t -> ocanonical t -> contents fuel t m -> (from_option theight 0 t <= fuel)%nat.
Proof.
  intros Hwf Hc [Hget Hkeys Hb]. destruct t as [t|]; simpl; [|lia].
  assert (Hlen : forall k x, is_path k -> tget t k = Some x -> (length k < fuel)%nat).
  { intros k x Hk Hx. destruct (Hkeys k x Hk Hx) as (b & Hbb & ->).
    specialize (Hget b Hbb). simpl in Hget. rewrite Hx in Hget. symmetry in Hget.
    rewrite length_nibbles_of. by apply (Hb b x). }
  destruct fuel as [|fuel].
  - destruct (canonical_nonempty t) as (k & x & Hk & Hx); [by apply Hwf | by apply Hc |].
    assert (is_path (tpath t)) by (specialize (Hwf t eq_refl); destruct t; by apply trie_wf_inv in Hwf as [? _]).
    specialize (Hlen _ x (proj2 (is_path_app _ _) (conj H2 Hk)) Hx). lia.
  - apply canonical_height; [by apply Hwf | by apply Hc |]. intros k x Hk Hx. specialize (Hlen k x Hk Hx). lia.
Qed.

Lemma contents_insert fuel t t' m key value :
  contents fuel t m -> is_bytes key -> (2 * length key < fuel)%nat ->
  (forall k, is_path k -> otget t' k = if decide (k = nibbles_of key) then Some value else otget t k) ->
  contents fuel t' (<[key := value]> m).
Proof.
  intros [Hget Hkeys Hb] Hkey Hlen He. split.
  - intros b Hbb. rewrite He by (by apply is_path_nibbles_of).
    destruct (decide (b = key)) as [->|Hne].
    + rewrite lookup_insert_eq. by rewrite decide_True.
    + rewrite lookup_insert_ne, decide_False by (done || by intros ?%nibbles_of_inj). auto.
  - intros k x Hk. rewrite He by done. case_decide; [intros _; by exists key | by apply Hkeys].
  - intros b x. destruct (decide (b = key)) as [->|]; [done|]. rewrite lookup_insert_ne by done. apply Hb.
Qed.

(** Dropping the keys of a predicate. *)
Lemma contents_prune fuel t t' m m' (D : Path -> bool) :
  contents fuel t m ->
  (forall k, is_path k -> otget t' k = if D k then None else otget t k) ->
  (forall b, m' !! b = if D (nibbles_of b) then None else m !! b) ->
  contents fuel t' m'.
Proof.
  intros [Hget Hkeys Hb] He Hm. split.
  - intros b Hbb. rewrite He, Hm by (by apply is_path_nibbles_of). destruct (D _); [done | auto].
  - intros k x Hk. rewrite He by done. destruct (D k); [done | by apply Hkeys].
  - intros b x. rewrite Hm. destruct (D _); [done | apply Hb].
Qed.

Lemma filter_prefix_lookup (p : bytes) (m : gmap bytes Value) b :
  filter (fun kv : bytes * Value => ~ p `prefix_of` kv.1) m !! b =
  if below (nibbles_of p) (nibbles_of b) then None else m !! b.
Proof.
  rewrite below_nibbles, map_lookup_filter. destruct (m !! b) as [x|]; simpl; [|by destruct (bool_decide _)].
  case_bool_decide as Hp; case_guard; simpl; done.
Qed.

(** ** Refinement *)

Lemma run_op_refines fuel o ns t m :
  op_ok fuel o -> represents ns t -> ocanonical t -> contents fuel t m ->
  exists ns' t' hs, run_op fuel o ns = (Ok (spec_op o m).1, ns') /\ transition ns t ns' t' hs /\
    contents fuel t' (spec_op o m).2.
Proof.
  intros Ho Hr Hc Hm. pose proof Hm as [Hget _ _]. destruct o as [key|key value|key|prefix]; simpl in *.
  - destruct (get_value_ok key ns t Ho Hr) as (ns' & Hrun & Htr).
    exists ns', t, []. rewrite <- Hget by done. split_and!; [by erewrite store_bind_Ok | done..].
  - destruct Ho as [Hkey Hlen]. destruct (insert_ok key value ns t Hkey Hr) as (ns' & t' & hs & Hrun & Htr & He).
    exists ns', (Some t'), hs. split_and!; [by erewrite store_bind_Ok | done | by eapply contents_insert].
  - destruct (remove_ok key ns t Ho Hr) as (ns' & t' & hs & Hrun & Htr & He).
    exists ns', t', hs. rewrite <- Hget by done. split_and!; [by erewrite store_bind_Ok | done |].
    apply (contents_prune fuel t t' m _ (at_key (nibbles_of key)) Hm).
    + intros k Hk. rewrite He by done. unfold at_key. by case_bool_decide; case_decide.
    + intros b. unfold at_key. case_bool_decide as Hb; [apply nibbles_of_inj in Hb as ->; apply lookup_delete_eq|].
      apply lookup_delete_ne. congruence.
  - pose proof Hr as (_ & _ & Hwf).
    destruct (remove_prefix_ok fuel prefix ns t Ho Hr) as (ns' & t' & hs & Hrun & Htr & He);
      [by eapply contents_height|].
    pose proof Htr as ((_ & _ & Hwf') & _).
    assert (Hm' : contents fuel t' (filter (fun kv => ~ prefix `prefix_of` kv.1) m)).
    { apply (contents_prune fuel t t' m _ (below (nibbles_of prefix)) Hm He). apply filter_prefix_lookup. }
    exists ns', t', hs. split_and!; [|done..]. erewrite store_bind_Ok by exact Hrun.
    rewrite (contents_otsize fuel t m), (contents_otsize fuel t' _ Hwf' Hm') by done. done.
Qed.

(** Two tries with the same map have the same contents. *)
Lemma contents_unique fuel g t u m :
  contents fuel t m -> contents g u m -> forall k, is_path k -> otget t k = otget u k.
Proof.
  intros [Ht Hkt _] [Hu Hku _] k Hk.
  destruct (otget t k) as [x|] eqn:Ex.
  - destruct (Hkt k x Hk Ex) as (b & Hb & ->). by rewrite Hu, <- Ht, Ex.
  - destruct (otget u k) as [y|] eqn:Ey; [|done].
    destruct (Hku k y Hk Ey) as (b & Hb & ->). by rewrite Ht, <- Hu, Ey in Ex.
Qed.

Lemma run_ops_refines fuel ops ns t m :
  Forall (op_ok fuel) ops -> represents ns t -> ocanonical t -> contents fuel t m ->
  exists ns' t' hs, run_ops fuel ops ns = (Ok (spec_ops ops m).1, ns') /\ transition ns t ns' t' hs /\
    contents fuel t' (spec_ops ops m).2.
Proof.
  revert ns t m. induction ops as [|o ops IH]; intros ns t m Hops Hr Hc Hm.
  - exists ns, t, []. split_and!; [done | | done]. split_and!; [done..| | by rewrite app_nil_r | done].
    by destruct (ns_deleted_node_tracking ns).
  - apply Forall_cons in Hops as [Ho Hops].
    destruct (run_op_refines fuel o ns t m Ho Hr Hc Hm) as (ns1 & t1 & hs1 & Hrun1 & Htr1 & Hm1).
    pose proof Htr1 as (Hr1 & Ht1 & Hk1 & Hh1 & Hc1).
    destruct (IH ns1 t1 _ Hops Hr1 (Hc1 Hc) Hm1) as (ns2 & t2 & hs2 & Hrun2 & (Hr2 & Ht2 & Hk2 & Hh2 & Hc2) & Hm2).
    simpl. destruct (spec_op o m) as [r m1]. simpl in *. destruct (spec_ops ops m1) as [rs m2]. simpl in *.
    exists ns2, t2, (hs1 ++ hs2). split_and!; [|split_and!|done].
    + erewrite store_bind_Ok by exact Hrun1. by erewrite store_bind_Ok by exact Hrun2.
    + done.
    + congruence.
    + rewrite Hk2, Ht1, Hk1, foldl_app. by destruct (ns_deleted_node_tracking ns).
    + rewrite Hh1, Hh2, <- (assoc_L (++)). f_equiv. apply Permutation_app_comm.
    + auto.
Qed.

(** C1: the trie implements a finite map.  From a store whose trie holds the map
    [m], whatever part of the trie is in memory and whatever part on disk, any
    sequence of lookups, insertions, removals and prefix removals succeeds,
    returns what the same operations return on the map, and ends in a store
    whose trie is canonical and holds the resulting map. *)
Theorem merkle_refines_map fuel ops ns t m :
  Forall (op_ok fuel) ops -> represents ns t -> ocanonical t -> contents fuel t m ->
  exists ns' t', run_ops fuel ops ns = (Ok (spec_ops ops m).1, ns') /\
    represents ns' t' /\ ocanonical t' /\ contents fuel t' (spec_ops ops m).2.
Proof.
  intros Hops Hr Hc Hm.
  destruct (run_ops_refines fuel ops ns t m Hops Hr Hc Hm) as (ns' & t' & hs & Hrun & Htr & Hm').
  destruct Htr as (Hr' & _ & _ & _ & Hc'). exists ns', t'. auto.
Qed.

(** C23: the delete list of a proposal accounts for the space of the trie.  The
    stored nodes of the trie before a sequence of operations are, counting
    multiplicity, those still referenced after it together with those added to
    the delete list: no stored node is leaked, none is deleted while it is
    still referenced, and none is deleted twice. *)
Theorem delete_list_exact fuel ops ns t m deleted :
  Forall (op_ok fuel) ops -> represents ns t -> ocanonical t -> contents fuel t m ->
  ns_kind ns = Propose deleted -> ns_deleted_node_tracking ns = true ->
  exists ns' t' hs, (run_ops fuel ops ns).2 = ns' /\ represents ns' t' /\
    ns_kind ns' = Propose (deleted ++ hs) /\ ohandles t ≡ₚ ohandles t' ++ hs.
Proof.
  intros Hops Hr Hc Hm Hk Ht.
  destruct (run_ops_refines fuel ops ns t m Hops Hr Hc Hm) as (ns' & t' & hs & Hrun & Htr & Hm').
  destruct Htr as (Hr' & _ & Hk' & Hh & _). exists ns', t', hs. rewrite Hrun.
  split_and!; [done..| |done]. rewrite Hk', Ht, Hk. clear. revert deleted.
  induction hs as [|h hs IH]; intros deleted; simpl; [by rewrite app_nil_r|].
  by rewrite IH, <- app_assoc.
Qed.

End MerkleCorrect.

(** C37: the shape of the trie depends on the map only.
    Two sequences of operations that lead to the same map lead to tries with
    the same paths, values and children, whatever stores they start from. *)
Theorem history_independence {St : Type} `{ReadableStorageLaws St} `{VarInt} alg rd1 rd2 fuel ops1 ops2
  (ns1 ns2 : NodeStore St) t1 t2 m1 m2 :
  Forall (op_ok fuel) ops1 -> Forall (op_ok fuel) ops2 ->
  represents alg rd1 ns1 t1 -> ocanonical t1 -> contents fuel t1 m1 ->
  represents alg rd2 ns2 t2 -> ocanonical t2 -> contents fuel t2 m2 ->
  (spec_ops ops1 m1).2 = (spec_ops ops2 m2).2 ->
  exists u1 u2, represents alg rd1 (run_ops alg fuel ops1 ns1).2 u1 /\
    represents alg rd2 (run_ops alg fuel ops2 ns2).2 u2 /\ otsim u1 u2.
Proof.
  intros Ho1 Ho2 Hr1 Hc1 Hm1 Hr2 Hc2 Hm2 He.
  destruct (run_ops_refines alg rd1 fuel ops1 ns1 t1 m1 Ho1 Hr1 Hc1 Hm1) as (ns1' & u1 & hs1 & Hrun1 & Htr1 & Hm1').
  destruct (run_ops_refines alg rd2 fuel ops2 ns2 t2 m2 Ho2 Hr2 Hc2 Hm2) as (ns2' & u2 & hs2 & Hrun2 & Htr2 & Hm2').
  destruct Htr1 as (Hr1' & _ & _ & _ & Hcc1), Htr2 as (Hr2' & _ & _ & _ & Hcc2).
  exists u1, u2. rewrite Hrun1, Hrun2. split_and!; [done..|].
  pose proof Hr1' as (_ & _ & Hw1). pose proof Hr2' as (_ & _ & Hw2).
  apply ocanonical_unique; auto. rewrite He in Hm1'. by eapply contents_unique.
Qed.

(** ** Witnesses

    A store with a branch in memory whose only child is a leaf on disk. *)
Section Witnesses.
Import Leb128.

Definition w_leaf : Node := Leaf (mkLeaf [1] [7]).

Definition w_storage : MemStore :=
  mkMemStore (match as_bytes MerkleDB w_leaf [0] with Ok (_, out) => out | Err _ => [] end).

Definition w_child : Child := AddressWithHash 1 (Hash (replicate 32 0)).

Definition w_store : NodeStore MemStore :=
  mkNodeStore (Some (Branch (mkBranch [] (Some [9]) (Children_set Children_new 6 (Some w_child)))))
    (Propose []) w_storage true.

Definition w_trie : trie :=
  T [] (Some [9]) (Children_set Children_new 6 (Some (Some (Persisted 1), T [1] (Some [7]) Children_new))).

Definition w_map : gmap bytes Value := <[[97] := [7]]> (<[[] := [9]]> ∅).

Definition w_ops : list op :=
  [OpInsert [98] [8]; OpGet [97]; OpRemove [97]; OpRemovePrefix [98]; OpGet []].

Definition w_rd : LinearAddress -> option Node := disk MerkleDB w_storage.

Lemma w_represents : represents MerkleDB w_rd w_store (Some w_trie).
Proof.
  split_and!.
  - split; [by intros a n | done].
  - simpl. apply rnode_set; [split; lia | apply rnode_childless|].
    apply (rslot_some w_rd w_child w_leaf); [by vm_compute | apply rnode_leaf].
  - apply owf_Some, trie_wf_set; [split; lia | apply trie_wf_leaf; constructor |].
    intros h t [= _ <-]. apply trie_wf_leaf. repeat constructor; lia.
Qed.

Lemma w_canonical : ocanonical (Some w_trie).
Proof.
  apply ocanonical_Some, canonical_set; [split; lia | apply Children_new_wf | apply canonical_leaf..].
Qed.

Lemma w_contents : contents 9 (Some w_trie) w_map.
Proof.
  apply (contents_insert 9 (Some (T [] (Some [9]) Children_new))); [| repeat constructor; done | simpl; lia |].
  - apply (contents_insert 9 None); [split; by intros | constructor | simpl; lia |].
    intros k Hk. simpl. by rewrite tget_leaf.
  - intros k Hk. change (nibbles_of [97]) with [6; 1]. cbn [otget mbind option_bind]. unfold w_trie.
    rewrite tget_set; [|apply Children_new_wf | split; lia | done].
    destruct k as [|a k]; [done|]. cbn [strip_prefix app kid_get mbind option_bind snd]. destruct (Z.eqb_spec 6 a) as [<-|Hne].
    + simpl. rewrite tget_leaf, (tget_leaf [] [9]). repeat case_decide; congruence.
    + by rewrite decide_False by congruence.
Qed.

Lemma w_ops_ok : Forall (op_ok 9) w_ops.
Proof. repeat (constructor; simpl; try lia; try done). Qed.

Lemma merkle_refines_map_witness :
  (run_ops MerkleDB 9 w_ops w_store).1 = Ok [RUnit; RValue (Some [7]); RValue (Some [7]); RCount 1; RValue (Some [9])] /\
  exists ns' t', run_ops MerkleDB 9 w_ops w_store = (Ok (spec_ops w_ops w_map).1, ns') /\
    represents MerkleDB w_rd ns' t' /\ ocanonical t' /\ contents 9 t' (spec_ops w_ops w_map).2.
Proof.
  split; [by vm_compute|].
  exact (merkle_refines_map MerkleDB w_rd 9 w_ops w_store (Some w_trie) w_map
    w_ops_ok w_represents w_canonical w_contents).
Defined.

Lemma delete_list_exact_witness :
  ns_kind (run_ops MerkleDB 9 w_ops w_store).2 = Propose [Persisted 1] /\
  exists ns' t' hs, (run_ops MerkleDB 9 w_ops w_store).2 = ns' /\ represents MerkleDB w_rd ns' t' /\
    ns_kind ns' = Propose ([] ++ hs) /\ ohandles (Some w_trie) ≡ₚ ohandles t' ++ hs.
Proof.
  split; [by vm_compute|].
  exact (delete_list_exact MerkleDB w_rd 9 w_ops w_store (Some w_trie) w_map []
    w_ops_ok w_represents w_canonical w_contents eq_refl eq_refl).
Defined.

Lemma history_independence_witness :
  exists u1 u2, represents MerkleDB w_rd (run_ops MerkleDB 9 [OpInsert [98] [8]; OpRemove [98]] w_store).2 u1 /\
    represents MerkleDB w_rd (run_ops MerkleDB 9 [OpRemove [97]; OpInsert [97] [7]] w_store).2 u2 /\ otsim u1 u2.
Proof.
  apply (history_independence MerkleDB w_rd w_rd 9 _ _ w_store w_store (Some w_trie) (Some w_trie) w_map w_map);
    try apply w_represents; try apply w_canonical; try apply w_contents.
  - repeat (constructor; simpl; try lia; try done).
  - repeat (constructor; simpl; try lia; try done).
  - by vm_compute.
Defined.

End Witnesses.
