(* ===== verification/Hashing.v ===== *)
(** * Node hashing

    [storage/src/hashednode.rs], [hashedshunt.rs], [hashtype.rs] (equality and
    conversion), [eth_encoding.rs], [hashers/merkledb.rs], [hashers/ethhash.rs]
    and [nodestore/hash.rs]: the two hash preimages of a node, and the recursion
    that hashes the nodes of a proposal.  SHA-256 and Keccak-256 come from crates;
    they are the class [Digests]. *)

From S2P Require Import Prelude Primitives NodePath Node Codec NodeCodec Trie NodeStore Rlp.

(** ** Digests *)

Class Digests : Type := {
  sha256 : bytes -> bytes;
  keccak256 : bytes -> bytes;
}.

(** Both digests are 32 bytes long. *)
Class DigestsLaws `{Digests} : Prop := {
  sha256_wf b : TrieHash_wf (sha256 b);
  keccak256_wf b : TrieHash_wf (keccak256 b);
}.

Definition is_ethereum (alg : NodeHashAlgorithm) : bool :=
  match alg with Ethereum => true | MerkleDB => false end.

(** ** Nodes that can be hashed *)

(** [ValueDigest]: a value, or the hash of a long value. *)
Inductive ValueDigest : Type :=
| DigestValue (v : bytes)
| DigestHash (h : HashType).

(** The trait [Hashable]. *)
Class Hashable (N : Type) : Type := {
  parent_prefix_path : N -> Path;
  h_partial_path : N -> Path;
  full_path : N -> Path;
  value_digest : N -> option ValueDigest;
  h_children : N -> Children (option HashType);
}.

Record HashableShunt : Type := mkShunt {
  sh_parent_prefix : Path;
  sh_partial_path : Path;
  sh_value : option ValueDigest;
  sh_child_hashes : Children (option HashType);
}.

#[export] Instance HashableShunt_Hashable : Hashable HashableShunt := {|
  parent_prefix_path := sh_parent_prefix;
  h_partial_path := sh_partial_path;
  full_path n := sh_parent_prefix n ++ sh_partial_path n;
  value_digest := sh_value;
  h_children := sh_child_hashes;
|}.

(** [HashableShunt::from_node]. *)
Definition from_node (prefix : Path) (node : Node) : result failure HashableShunt :=
  match node with
  | Branch b =>
      partial_path ← as_components (branch_partial_path b);
      Ok (mkShunt prefix partial_path (DigestValue <$> branch_value b) (children_hashes b))
  | Leaf l =>
      partial_path ← as_components (leaf_partial_path l);
      Ok (mkShunt prefix partial_path (Some (DigestValue (leaf_value l))) Children_new)
  end.

(** [TriePathAsPackedBytes]: pairs of components, the last one padded with zero. *)
Fixpoint as_packed_bytes (p : Path) : bytes :=
  match p with
  | [] => []
  | [hi] => [PathComponent_join hi 0]
  | hi :: lo :: p => PathComponent_join hi lo :: as_packed_bytes p
  end.

(** The pairs of [as_rchunks::<2>], joined; the length is even. *)
Fixpoint join_pairs (p : Path) : bytes :=
  match p with
  | hi :: lo :: p => PathComponent_join hi lo :: join_pairs p
  | _ => []
  end.

(** [nibbles_to_eth_compact]; the bits of [CompactFirstByte] are written out. *)
Definition nibbles_to_eth_compact (nibbles : Path) (is_leaf : bool) : bytes :=
  let leaf_bit := if is_leaf then Z.shiftl 1 5 else 0 in
  match Nat.odd (length nibbles), nibbles with
  | true, low_nibble :: nibble_pairs =>
      Z.lor leaf_bit (Z.lor (Z.shiftl 1 4) (Z.land low_nibble 15)) :: join_pairs nibble_pairs
  | _, nibble_pairs => leaf_bit :: join_pairs nibble_pairs
  end.

(** [rlp::EMPTY_TRIE_ROOT]. *)
Definition EMPTY_TRIE_ROOT : TrieHash :=
  [0x56; 0xe8; 0x1f; 0x17; 0x1b; 0xcc; 0x55; 0xa6; 0xff; 0x83; 0x45; 0xe6; 0x92; 0xc0; 0xf8; 0x6e;
   0x5b; 0x48; 0xe0; 0x1b; 0x99; 0x6c; 0xad; 0xc0; 0x01; 0x62; 0x2f; 0xb5; 0xe3; 0x63; 0xb4; 0x21].

Section Hashing.
Context `{Digests} `{VarInt}.

(** ** [HashType] *)

(** [From<HashType> for TrieHash]. *)
Definition into_triehash (h : HashType) : TrieHash :=
  match h with
  | Hash h => h
  | Rlp r => keccak256 r
  end.

(** [PartialEq for HashType]. *)
Definition HashType_eq (a b : HashType) : bool :=
  match a, b with
  | Hash h1, Hash h2 => bool_decide (h1 = h2)
  | Rlp r1, Rlp r2 => bool_decide (r1 = r2)
  | Hash h, Rlp r | Rlp r, Hash h => bool_decide (keccak256 r = h)
  end.

(** [PartialEq<TrieHash> for HashType]. *)
Definition HashType_eq_TrieHash (a : HashType) (other : TrieHash) : bool :=
  match a with
  | Hash h => bool_decide (h = other)
  | Rlp r => bool_decide (keccak256 r = other)
  end.

(** [Deref] and [AsRef<[u8]>]. *)
Definition HashType_as_slice (h : HashType) : bytes :=
  match h with Hash h => h | Rlp r => r end.

(** ** [ValueDigest] *)

Definition ValueDigest_verify (self : ValueDigest) (expected : bytes) : bool :=
  match self with
  | DigestValue got_value => bool_decide (got_value = expected)
  | DigestHash got_hash => HashType_eq_TrieHash got_hash (sha256 expected)
  end.

Definition ValueDigest_value (self : ValueDigest) : option bytes :=
  match self with
  | DigestValue v => Some v
  | DigestHash _ => None
  end.

Definition make_hash (self : ValueDigest) (algorithm : NodeHashAlgorithm) : ValueDigest :=
  match self with
  | DigestValue v =>
      if (32 <=? len v) && negb (is_ethereum algorithm) then DigestHash (Hash (sha256 v))
      else DigestValue v
  | DigestHash h => DigestHash h
  end.

(** [AsRef<[u8]>]. *)
Definition ValueDigest_as_slice (self : ValueDigest) : bytes :=
  match self with
  | DigestValue v => v
  | DigestHash h => HashType_as_slice h
  end.

(** ** MerkleDB *)

Section MerkleDbHash.
Context {N : Type} `{Hashable N}.

Definition BITS_PER_NIBBLE : Z := 4.

(** [add_varint_to_buf]. *)
Definition add_varint_to_buf (value : Z) : bytes := encode_var value.

(** [add_len_and_value_to_buf]. *)
Definition add_len_and_value_to_buf (value : bytes) : bytes := (len value mod 256) :: value.

(** [add_value_digest_to_buf]. *)
Definition add_value_digest_to_buf (vd : option ValueDigest) : bytes :=
  match vd with
  | None => [0]
  | Some vd => 1 :: add_len_and_value_to_buf (ValueDigest_as_slice (make_hash vd MerkleDB))
  end.

(** [MerkleDbHash::write_preimage]. *)
Definition merkledb_write_preimage (node : N) : bytes :=
  let children := h_children node in
  let num_children := Z.of_nat (Children_count children) in
  let key := full_path node in
  let key_bit_len := BITS_PER_NIBBLE * len key mod (U64_MAX + 1) in
  add_varint_to_buf num_children
  ++ flat_map (fun p => add_varint_to_buf p.1 ++ HashType_as_slice p.2) (Children_iter_present children)
  ++ add_value_digest_to_buf (value_digest node)
  ++ add_varint_to_buf key_bit_len
  ++ as_packed_bytes key.

(** [MerkleDbHash::to_hash]. *)
Definition merkledb_to_hash (node : N) : HashType := Hash (sha256 (merkledb_write_preimage node)).

End MerkleDbHash.

(** ** Ethereum *)

(** One child slot of the seventeen-element list ([child_to_rlp_item], and the
    same match in [write_preimage]). *)
Definition child_to_rlp_item (child : option HashType) : RlpItem :=
  match child with
  | Some (Hash hash) => RlpBytes hash
  | Some (Rlp rlp_bytes) => RlpRaw rlp_bytes
  | None => RlpEmpty
  end.

Section EthHash.
Context {N : Type} `{Hashable N}.

(** [EthHash::write_preimage]. *)
Definition eth_write_preimage (node : N) : bytes :=
  let is_account := Nat.eqb (length (full_path node)) 64 in
  let child_hashes := h_children node in
  let children := Children_count child_hashes in
  let value_bytes := value_digest node ≫= ValueDigest_value in
  if Nat.eqb children 0 then
    let path := nibbles_to_eth_compact (h_partial_path node) true in
    let account_value :=
      if is_account
      then bytes ← value_bytes;
           match replace_list_field bytes 2 EMPTY_TRIE_ROOT with Ok v => Some v | Err _ => None end
      else None in
    let value_item :=
      match account_value, value_bytes with
      | Some updated, _ => RlpBytes updated
      | _, Some bytes => RlpBytes bytes
      | _, _ => RlpEmpty
      end in
    encode_list [RlpBytes path; value_item]
  else
    let value_slot :=
      match is_account, value_bytes with
      | false, Some digest => RlpBytes digest
      | _, _ => RlpEmpty
      end in
    let bs := encode_list (map child_to_rlp_item child_hashes ++ [value_slot]) in
    let updated_bytes :=
      if is_account then
        match value_bytes with
        | Some rlp_encoded_bytes =>
            let replacement_hash :=
              match children, Children_iter_present child_hashes with
              | 1%nat, (_, c) :: _ => into_triehash c
              | _, _ => keccak256 bs
              end in
            match replace_list_field rlp_encoded_bytes 2 replacement_hash with
            | Ok updated => updated
            | Err _ => rlp_encoded_bytes
            end
        | None => bs
        end
      else bs in
    let partial_path := h_partial_path node in
    if bool_decide (partial_path = []) then updated_bytes
    else
      let path := nibbles_to_eth_compact partial_path is_account in
      if (31 <? len updated_bytes) && negb is_account
      then encode_list [RlpBytes path; RlpBytes (keccak256 updated_bytes)]
      else encode_list [RlpBytes path; RlpBytes updated_bytes].

(** [EthHash::to_hash]. *)
Definition eth_to_hash (node : N) : HashType :=
  let collector := eth_write_preimage node in
  if 32 <=? len collector then Hash (keccak256 collector) else Rlp collector.

End EthHash.

(** ** [HashMode] *)

Section HashMode.
Variable alg : NodeHashAlgorithm.

Definition default_root_hash : option TrieHash :=
  match alg with MerkleDB => None | Ethereum => Some EMPTY_TRIE_ROOT end.

Definition is_valid_key (key : Path) : bool :=
  match alg with
  | MerkleDB => Nat.even (length key)
  | Ethereum => Nat.eqb (length key) 64 || Nat.eqb (length key) 128
  end.

Definition write_preimage {N} `{Hashable N} (node : N) : bytes :=
  match alg with
  | MerkleDB => merkledb_write_preimage node
  | Ethereum => eth_write_preimage node
  end.

Definition to_hash {N} `{Hashable N} (node : N) : HashType :=
  match alg with
  | MerkleDB => merkledb_to_hash node
  | Ethereum => eth_to_hash node
  end.

(** [hash_node]. *)
Definition hash_node (node : Node) (path_prefix : Path) : result failure HashType :=
  prefix ← as_components path_prefix;
  to_hash <$> from_node prefix node.

(** [hash_preimage]. *)
Definition hash_preimage (node : Node) (path_prefix : Path) : result failure bytes :=
  prefix ← as_components path_prefix;
  write_preimage <$> from_node prefix node.

(** ** [nodestore/hash.rs]: storage tries of accounts *)

(** [hash_node_as_storage_trie_root_parts]. *)
Definition hash_node_as_storage_trie_root_parts (account_full_prefix : Path) (branch_nibble : PathComponent)
  (partial_path : Path) (value_digest : option ValueDigest) (children : Children (option HashType))
  : HashType :=
  let folded := [branch_nibble] ++ partial_path in
  to_hash (mkShunt account_full_prefix folded value_digest children).

(** [hash_node_as_storage_trie_root_for_node]. *)
Definition hash_node_as_storage_trie_root_for_node (account_full_prefix : Path)
  (branch_nibble : PathComponent) (node : Node) : result failure HashType :=
  let '(value_digest, children) :=
    match node with
    | Branch b => (DigestValue <$> branch_value b, children_hashes b)
    | Leaf l => (Some (DigestValue (leaf_value l)), Children_new)
    end in
  components ← as_components (partial_path node);
  Ok (hash_node_as_storage_trie_root_parts account_full_prefix branch_nibble components value_digest children).

(** [compute_node_ethhash]. *)
Definition compute_node_ethhash (node : Node) (path_prefix : Path) (have_peers : bool) : result failure HashType :=
  components ← as_components path_prefix;
  match is_ethereum alg && Nat.eqb (length components) 65 && negb have_peers, last components with
  | true, Some branch_nibble =>
      hash_node_as_storage_trie_root_for_node (removelast components) branch_nibble node
  | _, _ => hash_node node path_prefix
  end.

(** [compute_storage_trie_root]. *)
Definition compute_storage_trie_root (child_hashes : Children (option HashType)) : TrieHash :=
  if Nat.eqb (Children_count child_hashes) 0 then EMPTY_TRIE_ROOT
  else
    match take_only_child child_hashes with
    | (Some (_, child), _) => into_triehash child
    | (None, child_hashes) =>
        keccak256 (encode_list (map child_to_rlp_item child_hashes ++ [RlpEmpty]))
    end.

(** [fix_account_storage_root_value]. *)
Definition fix_account_storage_root_value (value : bytes) (child_hashes : Children (option HashType))
  : option bytes :=
  let storage_root := compute_storage_trie_root child_hashes in
  match replace_list_field value 2 storage_root with Ok v => Some v | Err _ => None end.

(** [update_account_storage_root]. *)
Definition update_account_storage_root (node : Node) (path_prefix : Path) : Node :=
  let total_depth := wrapping_add_u64 (len path_prefix) (len (partial_path node)) in
  if negb (total_depth =? 64) then node
  else
    match node with
    | Branch (mkBranch pp v c as b) =>
        match v with
        | None => node
        | Some old_value =>
            match fix_account_storage_root_value old_value (children_hashes b) with
            | Some new_value => Branch (mkBranch pp (Some new_value) c)
            | None => node
            end
        end
    | Leaf l =>
        match fix_account_storage_root_value (leaf_value l) Children_new with
        | Some new_value => Leaf (mkLeaf (leaf_partial_path l) new_value)
        | None => node
        end
    end.

(** [ethhash_classify_children]: the unhashed slots, and the hashed ones with
    their handles. *)
Definition ethhash_classify_children (children : Children (option Child))
  : list PathComponent * list (PathComponent * MaybePersisted) :=
  foldl (fun acc p =>
    match p with
    | (_, None) => acc
    | (idx, Some (AddressWithHash a _)) => (acc.1, acc.2 ++ [(idx, Persisted a)])
    | (idx, Some (ChildNode _)) => (acc.1 ++ [idx], acc.2)
    | (idx, Some (ChildMaybePersisted m _)) => (acc.1, acc.2 ++ [(idx, m)])
    end) ([], []) (Children_iter children).

(** Assignment through the [&mut HashType] of a classified child. *)
Definition set_child_hash (c : Child) (h : HashType) : Child :=
  match c with
  | ChildNode n => ChildNode n
  | AddressWithHash a _ => AddressWithHash a h
  | ChildMaybePersisted m _ => ChildMaybePersisted m h
  end.

(** ** Hashing a proposal *)

Context {St : Type} `{ReadableStorage St}.

(** The account special case at the head of [hash_helper_inner]: the children
    with the hash of a lone hashed child recomputed, and the slot of a lone
    unhashed child ([make_fake_root]). *)
Definition account_children (path_prefix pp : Path) (children : Children (option Child))
  : store_op St (Children (option Child) * option PathComponent) :=
  if is_ethereum alg && (wrapping_add_u64 (len path_prefix) (len pp) =? 64) then
    let (unhashed, hashed) := ethhash_classify_children children in
    children ←
      match hashed with
      | [(child_idx, child_node)] =>
          shared ← as_shared_node alg child_node;
          let path_guard := path_prefix ++ pp in
          hash ←
            lift (if bool_decide (unhashed = [])
                  then components ← as_components path_guard;
                       hash_node_as_storage_trie_root_for_node components child_idx shared
                  else hash_node shared (path_guard ++ [child_idx]));
          mret (Children_set children child_idx
                  ((fun c => set_child_hash c hash) <$> Children_get children child_idx))
      | _ => mret children
      end;
    mret (children, match hashed, unhashed with [], [idx] => Some idx | _, _ => None end)
  else mret (children, None).

(** The loop of [hash_helper_inner] over the children: it visits the unhashed
    ones in the order of their slots, hashes each with [rec], and puts the hashed
    handle back into the slot. *)
Section ChildrenLoop.
Variable rec : Node -> Path -> option PathComponent -> store_op St (MaybePersisted * HashType).
Variables path_prefix pp : Path.
Variable make_fake_root : option PathComponent.

Fixpoint hash_children (slots : list (option Child)) (nibble : PathComponent)
  (acc : Children (option Child)) : store_op St (Children (option Child)) :=
  match slots with
  | [] => mret acc
  | Some (ChildNode child_node) :: slots =>
      let child_path_prefix :=
        path_prefix ++ pp
        ++ (if is_ethereum alg && bool_decide (is_Some make_fake_root) then [] else [nibble]) in
      '(child_node, child_hash) ← rec child_node child_path_prefix make_fake_root;
      hash_children slots (nibble + 1)
        (Children_set acc nibble (Some (ChildMaybePersisted child_node child_hash)))
  | _ :: slots => hash_children slots (nibble + 1) acc
  end.

End ChildrenLoop.

(** [hash_helper_inner]. *)
Fixpoint hash_helper_inner (node : Node) (path_prefix : Path)
  (fake_root_extra_nibble : option PathComponent) : store_op St (MaybePersisted * HashType) :=
  node ←
    match node with
    | Leaf _ => mret node
    | Branch (mkBranch pp v children) =>
        '(hashed_children, make_fake_root) ← account_children path_prefix pp children;
        new_children ←
          hash_children hash_helper_inner path_prefix pp make_fake_root children 0 hashed_children;
        mret (Branch (mkBranch pp v new_children))
    end;
  let node := if is_ethereum alg then update_account_storage_root node path_prefix else node in
  hash ←
    lift (match fake_root_extra_nibble, is_ethereum alg with
          | Some nibble, true =>
              components ← as_components path_prefix;
              hash_node_as_storage_trie_root_for_node components nibble node
          | _, _ => hash_node node path_prefix
          end);
  mret (Unpersisted node, hash).

(** [hash_helper]. *)
Definition hash_helper (node : Node) (root_path : Path) : store_op St (MaybePersisted * HashType) :=
  hash_helper_inner node root_path None.

End HashMode.
End Hashing.

(** A function with the shape of a digest, for the witnesses: the first 32 bytes. *)
Module FirstBytes.

Definition first_bytes (b : bytes) : bytes := map (fun x => x mod 256) (take 32 (b ++ replicate 32 0)).

#[export] Instance first_bytes_digests : Digests := {| sha256 := first_bytes; keccak256 := first_bytes |}.

Lemma first_bytes_wf b : TrieHash_wf (first_bytes b).
Proof.
  unfold first_bytes. split.
  - rewrite length_map, length_take, length_app, length_replicate. lia.
  - apply Forall_map. apply Forall_forall. intros x _. cbv beta. dlia.
Qed.

#[export] Instance first_bytes_laws : DigestsLaws.
Proof. split; apply first_bytes_wf. Qed.

End FirstBytes.
