(* ===== verification/HashSpec.v ===== *)
(** * What the hash of a trie is

    The hash of an abstract trie under either scheme, defined by recursion on the
    trie, and the facts that do not involve the node store: it is determined by the
    contents, it does not see the prefix below account depth, and it does not
    change when the storage root of an account is spliced into its value.  The
    specification of [hash_helper] ([HashHelper]) and of proofs refers to it. *)

From S2P Require Import Prelude Primitives NodePath Node Codec NodeCodec Trie NodeStore.
From S2P Require Import MerkleSpec Merkle MerkleInsert TrieCanonical Rlp RlpSplice Hashing.

(** ** Present slots *)

Lemma present_fst_gen {A} (c : list (option A)) (b : Z) :
  (omap (fun p : Z * option A => match p with (i, Some x) => Some (i, x) | _ => None end)
     (zip (seqZ b (Z.of_nat (length c))) c)).*1 =
  filter (fun i => is_Some (mjoin (c !! Z.to_nat (i - b)))) (seqZ b (Z.of_nat (length c))).
Proof.
  revert b. induction c as [|o c IH]; intros b; [done|]. cbn [length]. rewrite Nat2Z.inj_succ, seqZ_cons by lia.
  rewrite Z.pred_succ. csimpl.
  assert (Htl : filter (fun i => is_Some (mjoin ((o :: c) !! Z.to_nat (i - b)))) (seqZ (Z.succ b) (Z.of_nat (length c)))
    = filter (fun i => is_Some (mjoin (c !! Z.to_nat (i - Z.succ b)))) (seqZ (Z.succ b) (Z.of_nat (length c)))).
  { apply filter_ext_elem. intros i Hi%elem_of_seqZ.
    replace (Z.to_nat (i - b)) with (S (Z.to_nat (i - Z.succ b))) by lia. done. }
  rewrite filter_cons. rewrite Htl, <- IH, Z.sub_diag. by destruct o.
Qed.

(** The present slots, as a filter. *)
Lemma present_fst {A} (c : Children (option A)) :
  Children_wf c -> (Children_iter_present c).*1 = filter (fun i => is_Some (Children_get c i)) PathComponent_ALL.
Proof.
  intros Hc. unfold Children_wf, MAX_CHILDREN, PathComponent_LEN in Hc.
  pose proof (present_fst_gen c 0) as H. rewrite Hc in H.
  change (seqZ 0 (Z.of_nat 16)) with PathComponent_ALL in H.
  unfold Children_iter_present, Children_iter. rewrite H. apply list_filter_iff. intros i. by rewrite Z.sub_0_r.
Qed.

Lemma present_ext {A B} (c : Children (option A)) (d : Children (option B)) :
  Children_wf c -> Children_wf d ->
  (forall i, is_nibble i -> is_Some (Children_get c i) <-> is_Some (Children_get d i)) ->
  (Children_iter_present c).*1 = (Children_iter_present d).*1.
Proof.
  intros Hc Hd He. rewrite !present_fst by done. apply filter_ext_elem. intros i Hi. apply He.
  change PathComponent_ALL with (seqZ 0 16) in Hi. apply elem_of_seqZ in Hi. done.
Qed.

Lemma count_ext {A B} (c : Children (option A)) (d : Children (option B)) :
  Children_wf c -> Children_wf d ->
  (forall i, is_nibble i -> is_Some (Children_get c i) <-> is_Some (Children_get d i)) ->
  Children_count c = Children_count d.
Proof.
  intros Hc Hd He. unfold Children_count. rewrite <- (length_fmap fst (Children_iter_present c)),
    <- (length_fmap fst (Children_iter_present d)). by rewrite (present_ext c d).
Qed.

(** A map over the slots. *)
Lemma Children_map_get {A B} (f : Z -> option A -> option B) (c : Children (option A)) i :
  is_nibble i -> (forall j, f j None = None) ->
  Children_get (Children_map f c) i = f i (Children_get c i).
Proof.
  intros Hi Hn. unfold Children_get, Children_map. rewrite list_lookup_imap.
  unfold is_nibble in Hi. destruct (c !! Z.to_nat i) as [o|] eqn:E; simpl; [|by rewrite Hn].
  by rewrite Z2Nat.id by lia.
Qed.

Lemma Children_map_wf {A B} (f : Z -> A -> B) (c : Children A) : Children_wf c -> Children_wf (Children_map f c).
Proof. unfold Children_wf, Children_map. by rewrite length_imap. Qed.

Lemma Children_map_present {A B} (g : Z -> A -> B) (c : Children (option A)) :
  Children_wf c ->
  Children_iter_present (Children_map (fun i o => g i <$> o) c) = (fun p : Z * A => (p.1, g p.1 p.2)) <$> Children_iter_present c.
Proof.
  intros Hc. unfold Children_iter_present, Children_iter, Children_map.
  assert (Hgen : forall (l : list (option A)) (b : Z),
    omap (fun p : Z * option B => match p with (i, Some x) => Some (i, x) | _ => None end)
      (zip (seqZ b (Z.of_nat (length l))) (imap (fun i o => g (b + Z.of_nat i) <$> o) l)) =
    (fun p : Z * A => (p.1, g p.1 p.2)) <$> omap (fun p : Z * option A => match p with (i, Some x) => Some (i, x) | _ => None end)
      (zip (seqZ b (Z.of_nat (length l))) l)).
  { induction l as [|o l IH]; intros b; [done|]. cbn [length]. rewrite Nat2Z.inj_succ, seqZ_cons by lia. rewrite Z.pred_succ.
    cbn [imap zip]. specialize (IH (Z.succ b)). rewrite (imap_ext _ (fun i o => g (Z.succ b + Z.of_nat i) <$> o)).
    2: { intros i x _. cbn. by replace (b + Z.of_nat (S i)) with (Z.succ b + Z.of_nat i) by lia. }
    rewrite Z.add_0_r. destruct o as [x|]; csimpl; by rewrite IH. }
  specialize (Hgen c 0). unfold Children_wf, MAX_CHILDREN, PathComponent_LEN in Hc. rewrite Hc in Hgen. exact Hgen.
Qed.

Section HashSpec.
Context `{Digests} `{VarInt}.
Variable alg : NodeHashAlgorithm.

(** ** The hash of a trie *)

Lemma HashType_eq_refl h : HashType_eq h h = true.
Proof. destruct h; by apply bool_decide_eq_true_2. Qed.

(** An account has a single storage child, which is hashed as a root. *)
Definition lone {A} (full : Path) (ks : Children (option A)) : bool :=
  is_ethereum alg && Nat.eqb (length full) 64 && Nat.eqb (Children_count ks) 1.

(** [thash pfx part t]: the hash of [t] below [pfx], with [part] in the place of
    its own path.  The lone storage child of an account is hashed below the account
    with its slot at the front of its path; every other child below its slot. *)
Fixpoint thash (pfx part : Path) (t : trie) : HashType :=
  let '(T _ v ks) := t in
  let full := pfx ++ part in
  let is_lone := lone full ks in
  to_hash alg (mkShunt pfx part (DigestValue <$> v)
    ((fix go (ks : list (option kid)) (i : Z) : list (option HashType) :=
        match ks with
        | [] => []
        | None :: ks => None :: go ks (i + 1)
        | Some (_, t) :: ks =>
            Some (if is_lone then thash full (i :: tpath t) t else thash (full ++ [i]) (tpath t) t)
            :: go ks (i + 1)
        end) ks 0)).

Definition kid_hash (full : Path) (is_lone : bool) (i : PathComponent) (t : trie) : HashType :=
  if is_lone then thash full (i :: tpath t) t else thash (full ++ [i]) (tpath t) t.

Definition kid_hashes (full : Path) (ks : Children (option kid)) : Children (option HashType) :=
  Children_map (fun i o => (fun k : kid => kid_hash full (lone full ks) i k.2) <$> o) ks.

(** The root hash of a trie. *)
Definition troot_hash (t : trie) : HashType := thash [] (tpath t) t.

Lemma thash_T pfx part pp v ks :
  thash pfx part (T pp v ks) =
  to_hash alg (mkShunt pfx part (DigestValue <$> v) (kid_hashes (pfx ++ part) ks)).
Proof.
  cbn [thash]. f_equal. f_equal. unfold kid_hashes, Children_map. generalize (lone (pfx ++ part) ks). intros l.
  assert (Hgo : forall b, (fix go (ks : list (option kid)) (i : Z) : list (option HashType) :=
        match ks with
        | [] => []
        | None :: ks => None :: go ks (i + 1)
        | Some (_, t) :: ks =>
            Some (if l then thash (pfx ++ part) (i :: tpath t) t else thash ((pfx ++ part) ++ [i]) (tpath t) t)
            :: go ks (i + 1)
        end) ks (Z.of_nat b) =
      imap (fun i o => (fun k : kid => kid_hash (pfx ++ part) l (Z.of_nat (b + i)) k.2) <$> o) ks);
    [|exact (Hgo 0%nat)].
  induction ks as [|[[h t]|] ks IH]; intros b; [done| |]; cbn [imap].
  all: replace (Z.of_nat b + 1) with (Z.of_nat (S b)) by lia; rewrite IH, Nat.add_0_r.
  all: f_equal; apply imap_ext; intros i o _; by replace (S b + i)%nat with (b + S i)%nat by lia.
Qed.

Lemma kid_hashes_wf full ks : Children_wf ks -> Children_wf (kid_hashes full ks).
Proof. apply Children_map_wf. Qed.

Lemma kid_hashes_get full ks i :
  is_nibble i ->
  Children_get (kid_hashes full ks) i = (fun k : kid => kid_hash full (lone full ks) i k.2) <$> Children_get ks i.
Proof. intros Hi. unfold kid_hashes. by rewrite Children_map_get. Qed.

Lemma kid_hashes_new full : kid_hashes full Children_new = Children_new.
Proof. reflexivity. Qed.

Lemma lone_ext {A B} full (c : Children (option A)) (d : Children (option B)) :
  Children_wf c -> Children_wf d ->
  (forall i, is_nibble i -> is_Some (Children_get c i) <-> is_Some (Children_get d i)) ->
  lone full c = lone full d.
Proof. intros Hc Hd He. unfold lone. by rewrite (count_ext c d). Qed.

(** Two families of children with the same hashes. *)
Lemma kid_hashes_ext full full' ks us :
  Children_wf ks -> Children_wf us ->
  (forall i, is_nibble i -> is_Some (Children_get ks i) <-> is_Some (Children_get us i)) ->
  (forall i g h t u, is_nibble i -> Children_get ks i = Some (g, t) -> Children_get us i = Some (h, u) ->
     kid_hash full (lone full ks) i t = kid_hash full' (lone full' us) i u) ->
  kid_hashes full ks = kid_hashes full' us.
Proof.
  intros Hk Hu Hs Hh. apply Children_ext; [by apply kid_hashes_wf.. |]. intros i Hi.
  rewrite !kid_hashes_get by done. pose proof (Hs i Hi) as Hsi.
  destruct (Children_get ks i) as [[g t]|] eqn:Hki, (Children_get us i) as [[h u]|] eqn:Hui; simpl; [|naive_solver..].
  f_equal. eauto.
Qed.

(** ** Equal tries have equal hashes *)

Lemma tsim_tpath t u : tsim t u -> tpath t = tpath u.
Proof. by destruct 1. Qed.

Lemma ksim_Some_iff a b : ksim a b -> is_Some a <-> is_Some b.
Proof. destruct 1; split; done || by eauto. Qed.

Lemma tsim_thash t u pfx part : tsim t u -> thash pfx part t = thash pfx part u.
Proof.
  revert u pfx part. induction t as [pp v ks IH] using trie_ind'. intros u pfx part Hs.
  inversion Hs as [? ? ? us Hk Hu Hsim]; subst. rewrite !thash_T. do 2 f_equal.
  assert (Hiff : forall i, is_nibble i -> is_Some (Children_get ks i) <-> is_Some (Children_get us i)).
  { intros i Hi. by apply ksim_Some_iff, Hsim. }
  apply kid_hashes_ext; [done.. |]. intros i g h t u Hi Hti Hui. rewrite (lone_ext _ ks us) by done.
  specialize (Hsim i Hi). rewrite Hti, Hui in Hsim. inversion Hsim as [|? ? ? ? Htu]; subst.
  unfold kid_hash. rewrite (tsim_tpath t u Htu). apply Children_get_Some in Hti. destruct (lone _ us); eauto.
Qed.

(** ** Hashes are well-formed *)

Lemma to_hash_wf `{!DigestsLaws} {N} `{Hashable N} (n : N) h : to_hash alg n = Hash h -> TrieHash_wf h.
Proof.
  unfold to_hash, merkledb_to_hash, eth_to_hash. destruct alg; [|destruct (_ <=? _)]; intros [= <-].
  - apply sha256_wf.
  - apply keccak256_wf.
Qed.

Lemma thash_wf `{!DigestsLaws} pfx part t h : thash pfx part t = Hash h -> TrieHash_wf h.
Proof. destruct t as [pp v ks]. rewrite thash_T. apply to_hash_wf. Qed.

Definition hashes_wf (hs : Children (option HashType)) : Prop :=
  forall i h, is_nibble i -> Children_get hs i = Some (Hash h) -> TrieHash_wf h.

Lemma kid_hashes_hashes_wf `{!DigestsLaws} full ks : hashes_wf (kid_hashes full ks).
Proof.
  intros i h Hi. rewrite kid_hashes_get by done. destruct (Children_get ks i) as [[g t]|]; [|done].
  intros [= Hh]. unfold kid_hash in Hh. destruct (lone full ks); by eapply thash_wf.
Qed.

(** ** Below account depth the prefix does not matter *)

Lemma eth_to_hash_prefix p1 p2 q v hs :
  Nat.eqb (length (p1 ++ q)) 64 = Nat.eqb (length (p2 ++ q)) 64 ->
  eth_to_hash (mkShunt p1 q v hs) = eth_to_hash (mkShunt p2 q v hs).
Proof.
  intros Hl. unfold eth_to_hash, eth_write_preimage.
  cbn [full_path h_children value_digest h_partial_path HashableShunt_Hashable sh_parent_prefix
    sh_partial_path sh_value sh_child_hashes]. by rewrite Hl.
Qed.

Lemma lone_deep {A} full (ks : Children (option A)) : length full <> 64%nat -> lone full ks = false.
Proof. intros Hl. unfold lone. destruct (Nat.eqb_spec (length full) 64); [done|]. by rewrite andb_false_r. Qed.

Lemma thash_deep p1 p2 q t :
  is_ethereum alg = true -> (64 < length (p1 ++ q))%nat -> (64 < length (p2 ++ q))%nat ->
  thash p1 q t = thash p2 q t.
Proof.
  intros Heth. revert p1 p2 q. induction t as [pp v ks IH] using trie_ind'. intros p1 p2 q H1 H2.
  rewrite !thash_T. unfold to_hash. destruct alg eqn:Halg; [done|]. rewrite <- Halg in *.
  assert (Hk : kid_hashes (p1 ++ q) ks = kid_hashes (p2 ++ q) ks).
  { unfold kid_hashes, Children_map. apply imap_ext. intros i o Hi. rewrite !lone_deep by lia.
    destruct o as [[h t]|]; [|done]. cbn [fmap option_fmap option_map snd]. f_equal. unfold kid_hash.
    apply (IH i h t Hi); rewrite !length_app in *; simpl; lia. }
  rewrite Hk. apply eth_to_hash_prefix.
  destruct (Nat.eqb_spec (length (p1 ++ q)) 64), (Nat.eqb_spec (length (p2 ++ q)) 64); lia || done.
Qed.

(** ** Splicing the storage root *)

(** Values short enough to be spliced. *)
Definition value_ok (v : bytes) : Prop := is_bytes v /\ len v <= ISIZE_MAX - 64.

(** The value an account is stored with once it is hashed. *)
Definition settled_value (full : Path) (v : option Value) (hs : Children (option HashType)) : option Value :=
  if is_ethereum alg && Nat.eqb (length full) 64
  then (fun x => default x (fix_account_storage_root_value x hs)) <$> v
  else v.

(** The children of a slot array without or with one present slot. *)
Lemma present_nil {A} (c : Children (option A)) : Children_count c = 0%nat -> Children_iter_present c = [].
Proof. apply nil_length_inv. Qed.

Lemma take_only_child_spec {A} (c : Children (option A)) :
  Children_wf c ->
  match Children_iter_present c with
  | [(i, x)] => fst (take_only_child c) = Some (i, x)
  | _ => take_only_child c = (None, c)
  end.
Proof.
  intros Hc. unfold take_only_child. destruct (Children_iter_present c) as [|[i x] [|]] eqn:E; [done| |done].
  assert (Hin : (i, x) ∈ Children_iter_present c) by (rewrite E; by constructor).
  apply Children_iter_present_elem in Hin as [_ Hg]; [|done]. unfold Children_take. by rewrite Hg.
Qed.

Lemma into_triehash_wf `{!DigestsLaws} hs i h :
  hashes_wf hs -> is_nibble i -> Children_get hs i = Some h -> TrieHash_wf (into_triehash h).
Proof. intros Hhs Hi Hg. destruct h as [h|r]; simpl; [by eapply Hhs | apply keccak256_wf]. Qed.

Lemma storage_root_wf `{!DigestsLaws} hs :
  Children_wf hs -> hashes_wf hs -> TrieHash_wf (compute_storage_trie_root hs).
Proof.
  intros Hc Hhs. unfold compute_storage_trie_root. destruct (Nat.eqb_spec (Children_count hs) 0).
  { split; [done|]. apply (bool_decide_unpack (Forall (fun x => 0 <= x /\ x <= U8_MAX) EMPTY_TRIE_ROOT)). vm_compute. exact I. }
  pose proof (take_only_child_spec hs Hc) as Ht.
  destruct (Children_iter_present hs) as [|[i h] [|]] eqn:E.
  - rewrite Ht. apply keccak256_wf.
  - destruct (take_only_child hs) as [o c]. simpl in Ht. subst o.
    assert (Hin : (i, h) ∈ Children_iter_present hs) by (rewrite E; by constructor).
    apply Children_iter_present_elem in Hin as [Hi Hg]; [|done]. by eapply into_triehash_wf.
  - rewrite Ht. apply keccak256_wf.
Qed.

(** The two splice sites agree: hashing an account whose value was spliced gives
    the hash of the account as it was. *)
Lemma eth_preimage_splice `{!DigestsLaws} pfx part v hs :
  length (pfx ++ part) = 64%nat -> Children_wf hs -> hashes_wf hs -> value_ok v ->
  eth_write_preimage (mkShunt pfx part (Some (DigestValue (default v (fix_account_storage_root_value v hs)))) hs) =
  eth_write_preimage (mkShunt pfx part (Some (DigestValue v)) hs).
Proof.
  intros Hl Hc Hhs [Hvb Hvl]. destruct (fix_account_storage_root_value v hs) as [v'|] eqn:Hfix; [|done]. simpl default.
  unfold fix_account_storage_root_value in Hfix.
  destruct (replace_list_field v 2 (compute_storage_trie_root hs)) as [w|] eqn:Hrep; [|done]. injection Hfix as ->.
  destruct (storage_root_wf hs Hc Hhs) as [Hrl Hrb].
  destruct (replace_list_field_again v 2 (compute_storage_trie_root hs) v') as [Hagain _];
    [done | done | done | lia | unfold U64_MAX; lia | done |].
  unfold eth_write_preimage.
  cbn [full_path h_children value_digest h_partial_path HashableShunt_Hashable sh_parent_prefix
    sh_partial_path sh_value sh_child_hashes mbind option_bind ValueDigest_value].
  rewrite Hl, Nat.eqb_refl. revert Hrep Hagain. unfold compute_storage_trie_root.
  destruct (Nat.eqb_spec (Children_count hs) 0) as [Hz|Hz]; intros Hrep Hagain; [by rewrite Hrep, Hagain|].
  pose proof (take_only_child_spec hs Hc) as Ht. unfold Children_count in *.
  destruct (Children_iter_present hs) as [|[i h] [|]] eqn:E; [done| |].
  - destruct (take_only_child hs) as [o c]. simpl in Ht. subst o. simpl length. cbv iota. by rewrite Hrep, Hagain.
  - rewrite Ht in Hrep, Hagain. simpl length. cbv iota. by rewrite Hrep, Hagain.
Qed.

Lemma to_hash_settled `{!DigestsLaws} pfx part v hs :
  Children_wf hs -> hashes_wf hs -> (forall x, v = Some x -> value_ok x) ->
  to_hash alg (mkShunt pfx part (DigestValue <$> settled_value (pfx ++ part) v hs) hs) =
  to_hash alg (mkShunt pfx part (DigestValue <$> v) hs).
Proof.
  intros Hc Hhs Hv. unfold settled_value.
  destruct (is_ethereum alg) eqn:Heth; [|done]. destruct (Nat.eqb_spec (length (pfx ++ part)) 64) as [Hl|]; [|done].
  destruct v as [x|]; [|done]. simpl. unfold to_hash. destruct alg; [done|].
  unfold eth_to_hash. by rewrite eth_preimage_splice by auto.
Qed.

(** *** The account that hashing leaves *)

(** The root of the storage trie of an account at [full] with the subtries [ks]: that of the empty trie, of
    the lone child with its nibble in front of its path, or of a branch without a value. *)
Definition storage_root (full : Path) (ks : Children (option kid)) : TrieHash :=
  match Children_iter_present ks with
  | [] => EMPTY_TRIE_ROOT
  | [(i, (_, t))] => into_triehash (thash full (i :: tpath t) t)
  | _ => keccak256 (encode_list (map child_to_rlp_item (kid_hashes full ks) ++ [RlpEmpty]))
  end.

(** The value of a node at [full], before and after hashing: the storage root becomes the third field of an
    Ethereum account; what is not a list with a byte string there stays as it is. *)
Definition value_hashed (full : Path) (ks : Children (option kid)) (v w : option Value) : Prop :=
  if is_ethereum alg && Nat.eqb (length full) 64
  then match v with
       | Some x => exists y, w = Some y /\
           (field_replaced 2 (storage_root full ks) x y \/ (y = x /\ forall z, ~ field_replaced 2 (storage_root full ks) x z))
       | None => w = None
       end
  else w = v.

Lemma kid_hashes_present full ks :
  Children_wf ks ->
  Children_iter_present (kid_hashes full ks) = (fun p : PathComponent * kid => (p.1, kid_hash full (lone full ks) p.1 p.2.2)) <$> Children_iter_present ks.
Proof. intros Hk. unfold kid_hashes. by apply (Children_map_present (fun i (k : kid) => kid_hash full (lone full ks) i k.2)). Qed.

Lemma storage_root_ok full ks :
  is_ethereum alg = true -> length full = 64%nat -> Children_wf ks ->
  compute_storage_trie_root (kid_hashes full ks) = storage_root full ks.
Proof.
  intros Heth Hl Hk. pose proof (kid_hashes_present full ks Hk) as Hp. pose proof (take_only_child_spec _ (kid_hashes_wf full ks Hk)) as Ht.
  assert (Hone : lone full ks = Nat.eqb (length (Children_iter_present ks)) 1) by (unfold lone, Children_count; by rewrite Heth, Hl).
  unfold compute_storage_trie_root, storage_root, Children_count. rewrite Hp in Ht |- *. rewrite length_fmap.
  destruct (Children_iter_present ks) as [|[i [g t]] [|]] eqn:E; [done| |].
  - cbn in Ht. destruct (take_only_child _) as [o c]. cbn in Ht. subst o. cbn. by rewrite Hone.
  - cbn [fmap list_fmap] in Ht. cbn [length Nat.eqb]. by rewrite Ht.
Qed.

Lemma settled_value_hashed `{!DigestsLaws} full v ks :
  Children_wf ks -> (forall x, v = Some x -> value_ok x) -> value_hashed full ks v (settled_value full v (kid_hashes full ks)).
Proof.
  intros Hk Hv. unfold value_hashed, settled_value. destruct (is_ethereum alg) eqn:Heth; [|done]. destruct (Nat.eqb_spec (length full) 64) as [Hl|]; [|done].
  cbn [andb]. destruct v as [x|]; [|done]. destruct (Hv x eq_refl) as [Hb Hx]. eexists. split; [done|]. unfold fix_account_storage_root_value.
  destruct (storage_root_wf (kid_hashes full ks) (kid_hashes_wf _ _ Hk) (kid_hashes_hashes_wf full ks)) as [Hrl Hrb].
  rewrite storage_root_ok in Hrl, Hrb |- * by done.
  destruct (replace_list_field x 2 (storage_root full ks)) as [y|] eqn:Hr; cbn [default].
  - left. apply replace_list_field_Ok; [done | done | done | lia | ulia | done].
  - right. split; [done|]. intros z Hz. apply replace_list_field_found in Hz; [congruence | done | done | lia | ulia].
Qed.

End HashSpec.
