(* ===== verification/HashHelper.v ===== *)
(** * Hashing a proposal

    The recursion of [storage/src/nodestore/hash.rs] computes the hash of the trie
    the node denotes ([HashSpec]), under both schemes, and leaves a node whose
    children all carry the right hashes. *)

From S2P Require Import Prelude Primitives NodePath Node Codec NodeCodec Trie NodeStore.
From S2P Require Import Linear Merkle MerkleSpec MerkleInsert TrieCanonical Rlp RlpSplice Hashing HashSpec.

Section HashHelper.
Context {St : Type} `{ReadableStorageLaws St} `{VarInt} `{DigestsLaws}.
Variable alg : NodeHashAlgorithm.
Variable rd : LinearAddress -> option Node.

(** ** Tries of byte keys *)

(** Values sit at an even depth and are short enough to be spliced; paths fit in
    memory. *)
Inductive byte_trie : Path -> trie -> Prop :=
| byte_trie_T pfx pp v ks :
    len (pfx ++ pp) <= ISIZE_MAX ->
    (forall x, v = Some x -> value_ok x /\ Nat.even (length (pfx ++ pp)) = true) ->
    (forall i o t, is_nibble i -> Children_get ks i = Some (o, t) -> byte_trie ((pfx ++ pp) ++ [i]) t) ->
    byte_trie pfx (T pp v ks).

(** ** Hashed and unhashed nodes *)

(** Every child has its hash: a node of a hashed revision. *)
Inductive committed : Path -> Node -> trie -> Prop :=
| committed_leaf pfx l : committed pfx (Leaf l) (T (leaf_partial_path l) (Some (leaf_value l)) Children_new)
| committed_branch pfx pp v c ks :
    Children_wf c -> Children_wf ks ->
    (forall i, is_nibble i ->
       committed_slot (pfx ++ pp) (lone alg (pfx ++ pp) ks) i (Children_get c i) (Children_get ks i)) ->
    committed pfx (Branch (mkBranch pp v c)) (T pp v ks)
with committed_slot : Path -> bool -> PathComponent -> option Child -> option kid -> Prop :=
| committed_none full l i : committed_slot full l i None None
| committed_some full l i c n t :
    Child_hash c = Some (kid_hash alg full l i t) -> child_node rd c = Some n ->
    committed (full ++ [i]) n t ->
    committed_slot full l i (Some c) (Some (child_handle c, t)).

(** The slots of a branch that carry a hash. *)
Definition hashed_slots (c : Children (option Child)) : Children (option HashType) :=
  Children_map (fun _ o => o ≫= Child_hash) c.

(** The hash of a single hashed child of an account may be out of date: whether it
    was hashed as a root depends on the siblings it had. *)
Definition may_be_stale (full : Path) (c : Children (option Child)) : bool :=
  is_ethereum alg && Nat.eqb (length full) 64 && Nat.leb (Children_count (hashed_slots c)) 1.

(** A node of a proposal: some descendants are in memory and have no hash. *)
Inductive dirty : Path -> Node -> trie -> Prop :=
| dirty_leaf pfx l : dirty pfx (Leaf l) (T (leaf_partial_path l) (Some (leaf_value l)) Children_new)
| dirty_branch pfx pp v c ks :
    Children_wf c -> Children_wf ks ->
    (forall i, is_nibble i ->
       dirty_slot (pfx ++ pp) (may_be_stale (pfx ++ pp) c) i (Children_get c i) (Children_get ks i)) ->
    dirty pfx (Branch (mkBranch pp v c)) (T pp v ks)
with dirty_slot : Path -> bool -> PathComponent -> option Child -> option kid -> Prop :=
| dirty_none full s i : dirty_slot full s i None None
| dirty_unhashed full s i n t :
    dirty (full ++ [i]) n t -> dirty_slot full s i (Some (ChildNode n)) (Some (None, t))
| dirty_hashed full s i c h n t :
    Child_hash c = Some h -> child_node rd c = Some n -> committed (full ++ [i]) n t ->
    (s = false -> h = kid_hash alg full false i t) ->
    dirty_slot full s i (Some c) (Some (child_handle c, t)).

(** A handle after hashing: the old one, or the one that a node in memory is given. *)
Definition same_or_fresh (g h : option MaybePersisted) : Prop := h = g \/ g = None /\ exists n, h = Some (Unpersisted n).

(** [settles full t u]: [u] is [t], except that storage roots may have been spliced
    into accounts and that nodes in memory may have been given handles. *)
Inductive settles : Path -> trie -> trie -> Prop :=
| settles_T full pp v w ks us :
    Children_wf ks -> Children_wf us ->
    w = v \/ w = settled_value alg full v (kid_hashes alg full ks) ->
    (forall i, is_nibble i -> settles_slot full i (Children_get ks i) (Children_get us i)) ->
    settles full (T pp v ks) (T pp w us)
with settles_slot : Path -> PathComponent -> option kid -> option kid -> Prop :=
| settles_none full i : settles_slot full i None None
| settles_some full i g h t u :
    same_or_fresh g h -> settles (full ++ i :: tpath t) t u -> settles_slot full i (Some (g, t)) (Some (h, u)).

(** [hashed_as full t u]: [u] is what hashing makes of [t], whose root is in memory at [full].  Every node in
    memory gets a handle, and an Ethereum account among them the root of its storage; stored subtries are the same. *)
Inductive hashed_as : Path -> trie -> trie -> Prop :=
| hashed_as_T full pp v w ks us :
    Children_wf ks -> Children_wf us -> value_hashed alg full ks v w ->
    (forall i, is_nibble i -> hashed_slot full i (Children_get ks i) (Children_get us i)) ->
    hashed_as full (T pp v ks) (T pp w us)
with hashed_slot : Path -> PathComponent -> option kid -> option kid -> Prop :=
| hashed_none full i : hashed_slot full i None None
| hashed_stored full i h t : hashed_slot full i (Some (Some h, t)) (Some (Some h, t))
| hashed_fresh full i n t u :
    hashed_as (full ++ i :: tpath t) t u -> hashed_slot full i (Some (None, t)) (Some (Some (Unpersisted n), u)).

Lemma settles_refl full t : trie_wf t -> settles full t t.
Proof.
  revert full. induction t as [pp v ks IH] using trie_ind'. intros full Hwf.
  pose proof (trie_wf_inv _ _ _ Hwf) as (_ & Hk & Hkids). constructor; [done | done | by left |].
  intros i Hi. destruct (Children_get ks i) as [[h t]|] eqn:E; constructor; [by left|].
  apply (IH (Z.to_nat i) h t); [by apply Children_get_Some | by eapply Hkids].
Qed.

Lemma settles_tpath full t u : settles full t u -> tpath u = tpath t.
Proof. by destruct 1. Qed.

Lemma settles_slot_iff full i a b : settles_slot full i a b -> is_Some a <-> is_Some b.
Proof. destruct 1; split; done || by eauto. Qed.

(** Splicing does not change the hash. *)
Lemma settles_thash full t u :
  settles full t u -> forall pfx0, byte_trie pfx0 t -> forall pfx part, pfx ++ part = full ->
  thash alg pfx part u = thash alg pfx part t.
Proof.
  revert full u. induction t as [pp v ks IH] using trie_ind'. intros full u Hs pfx0 Hbt pfx part <-.
  inversion Hs as [? ? ? w ? us Hk Hu Hw Hslots]; subst. inversion Hbt as [? ? ? ? _ Hval Hkids]; subst.
  rewrite !thash_T.
  assert (He : kid_hashes alg (pfx ++ part) us = kid_hashes alg (pfx ++ part) ks).
  { assert (Hiff : forall i, is_nibble i -> is_Some (Children_get us i) <-> is_Some (Children_get ks i)).
    { intros i Hi. symmetry. by eapply settles_slot_iff, Hslots. }
    apply kid_hashes_ext; [done..|]. intros i g h u t Hi Hui Hti. rewrite (lone_ext alg _ us ks) by done.
    pose proof (Hslots i Hi) as Hsi. rewrite Hti, Hui in Hsi. inversion Hsi as [|? ? ? ? ? ? _ Htu]; subst.
    pose proof (IH (Z.to_nat i) h t ltac:(by apply Children_get_Some) _ _ Htu _ (Hkids _ _ _ Hi Hti)) as Heq.
    unfold kid_hash. rewrite (settles_tpath _ _ _ Htu). destruct (lone alg _ ks); apply Heq; [done|].
    by rewrite <- !app_assoc. }
  rewrite He. destruct Hw as [->| ->]; [done|].
  apply to_hash_settled; [done | by apply kid_hashes_wf | by apply kid_hashes_hashes_wf|].
  intros x Hx. by apply Hval.
Qed.

(** ** The hash of a committed node *)

Lemma committed_path pfx n t : committed pfx n t -> partial_path n = tpath t.
Proof. by destruct 1. Qed.

Lemma committed_slot_iff full l i a b : committed_slot full l i a b -> is_Some a <-> is_Some b.
Proof. destruct 1; split; done || by eauto. Qed.

(** What is hashed of a committed node, below any prefix and path. *)
Lemma committed_parts pfx n t :
  committed pfx n t ->
  DigestValue <$> node_value n = DigestValue <$> tval t /\
  match n with Branch b => children_hashes b | Leaf _ => Children_new end =
    kid_hashes alg (pfx ++ tpath t) (tkids t).
Proof.
  destruct 1 as [pfx l|pfx pp v c ks Hc Hk Hs]; [done|]. split; [done|].
  cbn [tpath tkids]. unfold children_hashes. simpl branch_children.
  apply Children_ext; [by apply Children_map_wf | by apply kid_hashes_wf |]. intros i Hi.
  rewrite Children_map_get, kid_hashes_get by done. specialize (Hs i Hi).
  destruct Hs as [|? ? ? ? ? ? Hh ? ?]; [done|]. simpl. by rewrite Hh.
Qed.

Lemma hash_node_parts n p :
  is_path p -> is_path (partial_path n) ->
  hash_node alg n p =
  Ok (to_hash alg (mkShunt p (partial_path n) (DigestValue <$> node_value n)
    (match n with Branch b => children_hashes b | Leaf _ => Children_new end))).
Proof.
  intros Hp Hn. unfold hash_node. rewrite as_components_path by done. destruct n; cbn in *; by rewrite as_components_path.
Qed.

Lemma hash_root_parts n p i :
  is_path (partial_path n) ->
  hash_node_as_storage_trie_root_for_node alg p i n =
  Ok (to_hash alg (mkShunt p (i :: partial_path n) (DigestValue <$> node_value n)
    (match n with Branch b => children_hashes b | Leaf _ => Children_new end))).
Proof. intros Hn. destruct n; cbn in *; by rewrite as_components_path. Qed.

Lemma committed_hash pfx n t :
  committed pfx n t -> is_path pfx -> is_path (tpath t) -> hash_node alg n pfx = Ok (thash alg pfx (tpath t) t).
Proof.
  intros Hc Hp Ht. rewrite hash_node_parts by (done || by rewrite (committed_path _ _ _ Hc)). destruct (committed_parts _ _ _ Hc) as [-> ->].
  rewrite (committed_path _ _ _ Hc). destruct t. by rewrite thash_T.
Qed.

(** Hashed as a storage root below [full]. *)
Lemma committed_root_hash full i n t :
  committed (full ++ [i]) n t -> is_path (tpath t) ->
  hash_node_as_storage_trie_root_for_node alg full i n = Ok (thash alg full (i :: tpath t) t).
Proof.
  intros Hc Ht. rewrite hash_root_parts by (by rewrite (committed_path _ _ _ Hc)). destruct (committed_parts _ _ _ Hc) as [-> ->].
  rewrite (committed_path _ _ _ Hc). destruct t. rewrite thash_T. by rewrite <- app_assoc.
Qed.

(** Below account depth any prefix will do. *)
Lemma committed_hash_deep pfx p n t :
  committed pfx n t -> is_ethereum alg = true -> (64 < length pfx)%nat -> (64 < length p)%nat ->
  is_path p -> is_path (tpath t) -> hash_node alg n p = Ok (thash alg pfx (tpath t) t).
Proof.
  intros Hc Heth Hl Hp Hpp Ht. rewrite hash_node_parts by (done || by rewrite (committed_path _ _ _ Hc)).
  destruct (committed_parts _ _ _ Hc) as [-> ->]. rewrite (committed_path _ _ _ Hc). destruct t as [q v ks]. rewrite thash_T.
  unfold to_hash. destruct alg; [done|]. f_equal. apply eth_to_hash_prefix. cbn [tpath]. rewrite !length_app.
  destruct (Nat.eqb_spec (length p + length q) 64), (Nat.eqb_spec (length pfx + length q) 64); lia || done.
Qed.

(** ** Classification of children *)

Definition unhashed_of (p : PathComponent * Child) : option PathComponent :=
  match p with (i, ChildNode _) => Some i | _ => None end.

Definition hashed_of (p : PathComponent * Child) : option (PathComponent * MaybePersisted) :=
  pair p.1 <$> child_handle p.2.

Lemma classify_spec c :
  ethhash_classify_children c =
    (omap unhashed_of (Children_iter_present c), omap hashed_of (Children_iter_present c)).
Proof.
  unfold ethhash_classify_children, Children_iter_present.
  generalize (Children_iter c). intros l.
  assert (Hgen : forall a b, foldl (fun acc p =>
    match p with
    | (_, None) => acc
    | (idx, Some (AddressWithHash a _)) => (acc.1, acc.2 ++ [(idx, Persisted a)])
    | (idx, Some (ChildNode _)) => (acc.1 ++ [idx], acc.2)
    | (idx, Some (ChildMaybePersisted m _)) => (acc.1, acc.2 ++ [(idx, m)])
    end) (a, b) l =
    (a ++ omap unhashed_of (omap (fun p => match p with (i, Some x) => Some (i, x) | _ => None end) l),
     b ++ omap hashed_of (omap (fun p => match p with (i, Some x) => Some (i, x) | _ => None end) l)));
    [|apply Hgen].
  induction l as [|[i [[n|a h|m h]|]] l IH]; intros a0 b0; csimpl; rewrite ?IH, ?app_nil_r; try done.
  all: f_equal; by rewrite <- app_assoc.
Qed.

Lemma unhashed_elem c i :
  Children_wf c ->
  i ∈ omap unhashed_of (Children_iter_present c) <->
  is_nibble i /\ exists n, Children_get c i = Some (ChildNode n).
Proof.
  intros Hc. rewrite list_elem_of_omap. split.
  - intros ([j x] & Hin & Hx). apply Children_iter_present_elem in Hin as [Hj Hg]; [|done].
    destruct x; simplify_eq/=. eauto.
  - intros [Hi [n Hg]]. exists (i, ChildNode n). split; [|done]. by apply Children_iter_present_elem.
Qed.

Lemma hashed_elem c i m :
  Children_wf c ->
  (i, m) ∈ omap hashed_of (Children_iter_present c) <->
  is_nibble i /\ exists x, Children_get c i = Some x /\ child_handle x = Some m.
Proof.
  intros Hc. rewrite list_elem_of_omap. split.
  - intros ([j x] & Hin & Hx). apply Children_iter_present_elem in Hin as [Hj Hg]; [|done].
    unfold hashed_of in Hx. simpl in Hx. destruct (child_handle x) eqn:E; simplify_eq/=. eauto.
  - intros (Hi & x & Hg & Hm). exists (i, x). split; [by apply Children_iter_present_elem|].
    unfold hashed_of. simpl. by rewrite Hm.
Qed.

(** Every present child is hashed or unhashed. *)
Lemma classify_count c :
  (length (omap unhashed_of (Children_iter_present c)) + length (omap hashed_of (Children_iter_present c))
   = Children_count c)%nat.
Proof.
  unfold Children_count. induction (Children_iter_present c) as [|[i [n|a h|m h]] l IH]; csimpl; lia.
Qed.

Lemma hashed_count c :
  Children_wf c -> length (omap hashed_of (Children_iter_present c)) = Children_count (hashed_slots c).
Proof.
  intros Hc. unfold Children_count, hashed_slots, Children_iter_present, Children_map, Children_iter.
  assert (Hgen : forall l : list Z, length (omap hashed_of (omap (fun p : Z * option Child =>
      match p with (i, Some x) => Some (i, x) | _ => None end) (zip l c))) =
    length (omap (fun p : Z * option HashType => match p with (i, Some x) => Some (i, x) | _ => None end)
      (zip l ((fun o => o ≫= Child_hash) <$> c)))).
  { clear Hc. induction c as [|o c IH]; intros [|i l]; csimpl; try done.
    destruct o as [[n|a h|m h]|]; csimpl; by rewrite IH. }
  rewrite Hgen. do 3 f_equal. apply list_eq. intros j. rewrite list_lookup_fmap, list_lookup_imap. done.
Qed.

(** The numbers of children of the branch and of its trie. *)
Lemma dirty_slot_iff full s i a b : dirty_slot full s i a b -> is_Some a <-> is_Some b.
Proof. destruct 1; split; done || by eauto. Qed.

Lemma two_kids_count {A} (ks : Children (option A)) i j :
  Children_wf ks -> is_nibble i -> is_nibble j -> i <> j ->
  is_Some (Children_get ks i) -> is_Some (Children_get ks j) -> (2 <= Children_count ks)%nat.
Proof.
  intros Hk Hi Hj Hij [x Hx] [y Hy]. unfold Children_count.
  assert (Hin : (i, x) ∈ Children_iter_present ks) by (by apply Children_iter_present_elem).
  assert (Hjn : (j, y) ∈ Children_iter_present ks) by (by apply Children_iter_present_elem).
  destruct (Children_iter_present ks) as [|a [|b l]]; [by apply elem_of_nil in Hin| |simpl; lia].
  apply list_elem_of_singleton in Hin, Hjn. congruence.
Qed.

Lemma as_shared_node_ok ns m n :
  holds alg rd ns -> handle_node rd m = Some n ->
  exists ns', as_shared_node alg m ns = (Ok n, ns') /\ recorded alg rd ns [] ns'.
Proof.
  intros Hh Hm. destruct m as [n'|a n'|a]; simpl in *;
    try (injection Hm as ->; eexists; split; [done | by apply recorded_refl]).
  by apply read_node_ok.
Qed.

(** ** The account special case *)

(** The prefix the code works with, against the true one: they agree, or both are
    below account depth (where a folded nibble went missing), or a lone storage
    child is being hashed below its account. *)
Inductive prefix_mode (cp tp : Path) : option PathComponent -> Prop :=
| mode_same : cp = tp -> prefix_mode cp tp None
| mode_deep :
    is_ethereum alg = true -> (64 < length cp)%nat -> (length cp <= length tp)%nat -> prefix_mode cp tp None
| mode_fold i :
    is_ethereum alg = true -> length cp = 64%nat -> tp = cp ++ [i] -> prefix_mode cp tp (Some i).

(** A slot once stale hashes are repaired: hashed rightly, or still unhashed. *)
Inductive ready_slot (full : Path) (l : bool) (i : PathComponent) : option Child -> option kid -> Prop :=
| ready_none : ready_slot full l i None None
| ready_unhashed n t :
    dirty (full ++ [i]) n t -> ready_slot full l i (Some (ChildNode n)) (Some (None, t))
| ready_hashed c n t :
    Child_hash c = Some (kid_hash alg full l i t) -> child_node rd c = Some n ->
    committed (full ++ [i]) n t ->
    ready_slot full l i (Some c) (Some (child_handle c, t)).

Section Slots.
Variables (full : Path) (c : Children (option Child)) (ks : Children (option kid)).
Hypothesis Hc : Children_wf c.
Hypothesis Hk : Children_wf ks.
Hypothesis Hslots : forall i, is_nibble i ->
  dirty_slot full (may_be_stale full c) i (Children_get c i) (Children_get ks i).

Lemma dirty_count : Children_count c = Children_count ks.
Proof using Hc Hk Hslots. apply count_ext; [done..|]. intros i Hi. by eapply dirty_slot_iff, Hslots. Qed.

Lemma ready_unchanged l :
  (l = false /\ may_be_stale full c = false) \/ omap hashed_of (Children_iter_present c) = [] ->
  forall i, is_nibble i -> ready_slot full l i (Children_get c i) (Children_get ks i).
Proof using Hc Hslots.
  intros Hcase i Hi. pose proof (Hslots i Hi) as Hs.
  destruct (Children_get c i) as [x|] eqn:Hg; inversion Hs as [|? ? ? n t Hd|? ? ? ? h n t Hh Hn Hcom Hst]; subst.
  - by constructor.
  - destruct Hcase as [[-> Hstale]|Hnil].
    + econstructor; [|done..]. rewrite Hh. f_equal. auto.
    + exfalso. assert (Hm : exists m, child_handle x = Some m) by (destruct x; [done | eauto..]).
      destruct Hm as [m Hm].
      assert ((i, m) ∈ omap hashed_of (Children_iter_present c)) as Hin by (apply hashed_elem; eauto).
      rewrite Hnil in Hin. by apply elem_of_nil in Hin.
  - constructor.
Qed.

(** Repairing the only hashed child. *)
Lemma ready_repaired l idx m h t g :
  omap hashed_of (Children_iter_present c) = [(idx, m)] ->
  Children_get ks idx = Some (g, t) -> h = kid_hash alg full l idx t ->
  let c' := Children_set c idx ((fun x => set_child_hash x h) <$> Children_get c idx) in
  Children_wf c' /\
  (forall i, is_nibble i -> ready_slot full l i (Children_get c' i) (Children_get ks i)) /\
  (forall i n, is_nibble i -> Children_get c' i = Some (ChildNode n) <-> Children_get c i = Some (ChildNode n)).
Proof using Hc Hslots.
  intros Hhs Hkt -> c'.
  assert (Hin : (idx, m) ∈ omap hashed_of (Children_iter_present c)) by (rewrite Hhs; by constructor).
  apply hashed_elem in Hin as (Hidx & x & Hx & Hm); [|done].
  assert (Hself : Children_get c' idx = Some (set_child_hash x (kid_hash alg full l idx t)))
    by (unfold c'; rewrite Children_get_set by done; by rewrite Hx).
  assert (Hother : forall i, is_nibble i -> i <> idx -> Children_get c' i = Children_get c i)
    by (intros i Hi Hne; unfold c'; by rewrite Children_get_set_ne by auto).
  split; [by apply Children_set_wf|]. split.
  - intros i Hi. destruct (decide (i = idx)) as [->|Hne].
    + rewrite Hself. pose proof (Hslots idx Hidx) as Hs. rewrite Hx, Hkt in *.
      inversion Hs as [|? ? ? ? ? ? Heq|? ? ? ? h n ? Hh Hn Hcom Hst]; subst; [done|].
      replace (child_handle x) with (child_handle (set_child_hash x (kid_hash alg full l idx t))) by (by destruct x).
      econstructor; [by destruct x | by destruct x; simpl in *; eauto | done].
    + rewrite (Hother i Hi Hne). pose proof (Hslots i Hi) as Hs.
      destruct (Children_get c i) as [y|] eqn:Hy; inversion Hs as [|? ? ? n ? Hd|? ? ? ? h n ? Hh Hn Hcom Hst]; subst;
        [by constructor | | by constructor].
      exfalso. assert (exists my, child_handle y = Some my) as [my Hmy] by (destruct y; [done | eauto..]).
      assert ((i, my) ∈ omap hashed_of (Children_iter_present c)) as Hin by (apply hashed_elem; eauto).
      rewrite Hhs in Hin. apply list_elem_of_singleton in Hin. congruence.
  - intros i n Hi. destruct (decide (i = idx)) as [->|Hne]; [|by rewrite Hother].
    rewrite Hself, Hx. by destruct x.
Qed.

End Slots.

(** The check of the code for an account. *)
Lemma account_check (cp pp : Path) :
  len (cp ++ pp) <= ISIZE_MAX ->
  (wrapping_add_u64 (len cp) (len pp) =? 64) = Nat.eqb (length (cp ++ pp)) 64.
Proof.
  intros Hl. rewrite length_app in *. rewrite wrapping_add_small by ulia.
  destruct (Z.eqb_spec (len cp + len pp) 64), (Nat.eqb_spec (length cp + length pp) 64); lia || done.
Qed.

(** What the special case hands to the loop over the children. *)
Definition prepared (full : Path) (c : Children (option Child)) (ks : Children (option kid))
  (c' : Children (option Child)) (fake : option PathComponent) : Prop :=
  Children_wf c' /\
  (forall i, is_nibble i -> ready_slot full (lone alg full ks) i (Children_get c' i) (Children_get ks i)) /\
  (forall i n, is_nibble i -> Children_get c' i = Some (ChildNode n) <-> Children_get c i = Some (ChildNode n)) /\
  (forall i n, is_nibble i -> Children_get c i = Some (ChildNode n) ->
     (fake = None /\ lone alg full ks = false) \/
     (fake = Some i /\ lone alg full ks = true /\ is_ethereum alg = true)).

Lemma prepared_id full c ks :
  Children_wf c -> Children_wf ks -> lone alg full ks = false -> may_be_stale full c = false ->
  (forall i, is_nibble i ->
     dirty_slot full (may_be_stale full c) i (Children_get c i) (Children_get ks i)) ->
  prepared full c ks c None.
Proof.
  intros Hc Hk Hlone Hst Hs. split_and!; [done | | done | auto].
  rewrite Hlone. eapply ready_unchanged; eauto.
Qed.

(** The single hashed child of a branch: its handle, its trie and its node. *)
Lemma single_hashed full c ks idx m :
  Children_wf c -> omap hashed_of (Children_iter_present c) = [(idx, m)] ->
  (forall i, is_nibble i ->
     dirty_slot full (may_be_stale full c) i (Children_get c i) (Children_get ks i)) ->
  is_nibble idx /\ exists n t g, Children_get ks idx = Some (g, t) /\ handle_node rd m = Some n /\
    committed (full ++ [idx]) n t.
Proof.
  intros Hc Hhs Hs.
  assert (Hin : (idx, m) ∈ omap hashed_of (Children_iter_present c)) by (rewrite Hhs; by constructor).
  apply hashed_elem in Hin as (Hidx & x & Hx & Hm); [|done]. split; [done|]. specialize (Hs idx Hidx).
  rewrite Hx in Hs. inversion Hs as [|? ? ? n t Hd|? ? ? ? h n t Hh Hn Hcom Hst]; subst; [done|].
  exists n, t, (child_handle x). split_and!; [done | | done].
  destruct x as [n'|a h'|m' h']; simpl in *; simplify_eq; done.
Qed.

Lemma mk_prepared full c ks l c' fake :
  lone alg full ks = l -> Children_wf c' ->
  (forall i, is_nibble i -> ready_slot full l i (Children_get c' i) (Children_get ks i)) ->
  (forall i n, is_nibble i -> Children_get c' i = Some (ChildNode n) <-> Children_get c i = Some (ChildNode n)) ->
  (forall i n, is_nibble i -> Children_get c i = Some (ChildNode n) ->
     (fake = None /\ l = false) \/ (fake = Some i /\ l = true /\ is_ethereum alg = true)) ->
  prepared full c ks c' fake.
Proof. by intros <-. Qed.

(** A real account. *)
Lemma account_children_account ns pfx pp c ks :
  is_ethereum alg = true -> length (pfx ++ pp) = 64%nat -> is_path (pfx ++ pp) ->
  Children_wf c -> Children_wf ks -> (forall i g t, is_nibble i -> Children_get ks i = Some (g, t) -> trie_wf t) -> holds alg rd ns ->
  (forall i, is_nibble i ->
     dirty_slot (pfx ++ pp) (may_be_stale (pfx ++ pp) c) i (Children_get c i) (Children_get ks i)) ->
  exists c' fake ns', account_children alg pfx pp c ns = (Ok (c', fake), ns') /\
    recorded alg rd ns [] ns' /\ prepared (pfx ++ pp) c ks c' fake.
Proof.
  intros Heth Hlen Hpath Hc Hk Hkids Hh Hs. unfold account_children.
  rewrite account_check by (rewrite Hlen; unfold ISIZE_MAX; lia). rewrite Heth, Hlen. cbn [andb Nat.eqb].
  rewrite classify_spec. pose proof (classify_count c) as Hcnt. pose proof (dirty_count _ c ks Hc Hk Hs) as Hck.
  pose proof (hashed_count c Hc) as Hhc.
  assert (Hlone : lone alg (pfx ++ pp) ks = Nat.eqb (Children_count c) 1)
    by (unfold lone; by rewrite Heth, Hlen, Hck).
  destruct (omap hashed_of (Children_iter_present c)) as [|[idx m] [|]] eqn:Hhs.
  - exists c, (match omap unhashed_of (Children_iter_present c) with [idx] => Some idx | _ => None end), ns.
    split; [by destruct (omap unhashed_of _) as [|? [|]]|]. split; [by apply recorded_refl|].
    eapply mk_prepared; [exact Hlone | done | eapply ready_unchanged; eauto | done |].
    intros i n Hi Hg.
    assert (Hin : i ∈ omap unhashed_of (Children_iter_present c)) by (apply unhashed_elem; eauto).
    destruct (omap unhashed_of (Children_iter_present c)) as [|j [|]]; simpl in Hcnt.
    + by apply elem_of_nil in Hin.
    + apply list_elem_of_singleton in Hin as ->. right. by rewrite <- Hcnt.
    + left. split; [done|]. apply Nat.eqb_neq. lia.
  - destruct (single_hashed _ c ks idx m Hc Hhs Hs) as (Hidx & n & t & g & Hkt & Hn & Hcom).
    destruct (as_shared_node_ok ns m n Hh Hn) as (ns' & Hrd & Hrec).
    set (l := bool_decide (omap unhashed_of (Children_iter_present c) = [])).
    assert (Hl : lone alg (pfx ++ pp) ks = l).
    { rewrite Hlone. unfold l. simpl in Hcnt. destruct (omap unhashed_of _) as [|]; simpl in *.
      - by rewrite <- Hcnt.
      - apply Nat.eqb_neq. lia. }
    destruct (ready_repaired (pfx ++ pp) c ks Hc Hs l idx m (kid_hash alg (pfx ++ pp) l idx t) t g Hhs Hkt eq_refl)
      as (Hwf' & Hr' & Hiff).
    assert (Htp : is_path (tpath t)) by (eapply tpath_path, Hkids; eauto).
    assert (Hhash : (if l
      then components ← as_components (pfx ++ pp); hash_node_as_storage_trie_root_for_node alg components idx n
      else hash_node alg n ((pfx ++ pp) ++ [idx])) = Ok (kid_hash alg (pfx ++ pp) l idx t)).
    { unfold kid_hash. destruct l; [rewrite as_components_path by done; by apply committed_root_hash|].
      apply committed_hash; [done | by apply is_path_snoc | done]. }
    eexists _, None, ns'. split; [|split; [done|]].
    + erewrite store_bind_Ok.
      2: { erewrite store_bind_Ok by exact Hrd. fold l. rewrite Hhash. erewrite store_bind_Ok by reflexivity. reflexivity. }
      reflexivity.
    + eapply mk_prepared; [exact Hl | done | done | done |].
      intros i n' Hi Hg. left. split; [done|]. unfold l. apply bool_decide_eq_false. intros Hnil.
      assert (Hin : i ∈ omap unhashed_of (Children_iter_present c)) by (apply unhashed_elem; eauto).
      rewrite Hnil in Hin. by apply elem_of_nil in Hin.
  - exists c, None, ns. split; [done|]. split; [by apply recorded_refl|]. apply prepared_id; try done.
    + rewrite Hlone. apply Nat.eqb_neq. simpl in Hcnt. lia.
    + unfold may_be_stale. rewrite <- Hhc. simpl. by rewrite andb_false_r.
Qed.

(** The code takes the lone storage child of an account for an account itself
    when its path is empty.  It is not, and nothing goes wrong: a node at an odd
    depth has no value and at least two children. *)
Lemma account_children_folded ns cp i0 c ks :
  is_ethereum alg = true -> length cp = 64%nat -> is_path cp -> (2 <= Children_count ks)%nat ->
  Children_wf c -> Children_wf ks -> (forall i g t, is_nibble i -> Children_get ks i = Some (g, t) -> trie_wf t) -> holds alg rd ns ->
  (forall i, is_nibble i ->
     dirty_slot (cp ++ [i0]) (may_be_stale (cp ++ [i0]) c) i (Children_get c i) (Children_get ks i)) ->
  exists c' fake ns', account_children alg cp [] c ns = (Ok (c', fake), ns') /\
    recorded alg rd ns [] ns' /\ prepared (cp ++ [i0]) c ks c' fake.
Proof.
  intros Heth Hlen Hpath Htwo Hc Hk Hkids Hh Hs. unfold account_children.
  rewrite account_check by (rewrite app_nil_r, Hlen; unfold ISIZE_MAX; lia).
  rewrite app_nil_r, Heth, Hlen. cbn [andb Nat.eqb].
  rewrite classify_spec. pose proof (classify_count c) as Hcnt. pose proof (dirty_count _ c ks Hc Hk Hs) as Hck.
  assert (Hl65 : length (cp ++ [i0]) <> 64%nat) by (rewrite length_app; simpl; lia).
  pose proof (lone_deep alg (cp ++ [i0]) ks Hl65) as Hlone.
  assert (Hst : may_be_stale (cp ++ [i0]) c = false).
  { unfold may_be_stale. destruct (Nat.eqb_spec (length (cp ++ [i0])) 64); [done|]. by rewrite andb_false_r. }
  destruct (omap hashed_of (Children_iter_present c)) as [|[idx m] [|]] eqn:Hhs.
  - exists c, None, ns. split; [|split; [by apply recorded_refl | by apply prepared_id]].
    simpl in Hcnt. destruct (omap unhashed_of _) as [|? [|]]; simpl in *; [done | lia | done].
  - destruct (single_hashed _ c ks idx m Hc Hhs Hs) as (Hidx & n & t & g & Hkt & Hn & Hcom).
    destruct (as_shared_node_ok ns m n Hh Hn) as (ns' & Hrd & Hrec).
    destruct (ready_repaired (cp ++ [i0]) c ks Hc Hs false idx m (kid_hash alg (cp ++ [i0]) false idx t) t g Hhs Hkt eq_refl)
      as (Hwf' & Hr' & Hiff).
    assert (Hhash : hash_node alg n (cp ++ [idx]) = Ok (kid_hash alg (cp ++ [i0]) false idx t)).
    { apply committed_hash_deep; [done.. | | | by apply is_path_snoc | eapply tpath_path, Hkids; eauto]; rewrite !length_app; simpl; lia. }
    eexists _, None, ns'. split; [|split; [done|]].
    + erewrite store_bind_Ok.
      2: { erewrite store_bind_Ok by exact Hrd. rewrite bool_decide_false by (intros Hnil; rewrite Hnil in Hcnt; simpl in Hcnt; lia).
           rewrite Hhash. erewrite store_bind_Ok by reflexivity. reflexivity. }
      reflexivity.
    + eapply mk_prepared; [exact Hlone | done | done | done | auto].
  - exists c, None, ns. split; [done|]. split; [by apply recorded_refl | by apply prepared_id].
Qed.

Lemma canonical_count pp ks : Children_wf ks -> canonical (T pp None ks) -> (2 <= Children_count ks)%nat.
Proof.
  intros Hk Hc. apply canonical_iff in Hc as [Htwo _]; [|done].
  destruct (Htwo eq_refl) as (i & j & Hi & Hj & Hij & Hsi & Hsj). by eapply two_kids_count with (i := i) (j := j).
Qed.

Lemma account_children_ok ns cp tp extra pp v c ks :
  prefix_mode cp tp extra -> is_path cp -> dirty tp (Branch (mkBranch pp v c)) (T pp v ks) -> trie_wf (T pp v ks) ->
  canonical (T pp v ks) -> byte_trie tp (T pp v ks) -> holds alg rd ns ->
  exists c' fake ns', account_children alg cp pp c ns = (Ok (c', fake), ns') /\
    recorded alg rd ns [] ns' /\ prepared (tp ++ pp) c ks c' fake.
Proof.
  intros Hmode Hcpp Hd Hwf Hcan Hbt Hh. inversion Hd as [|? ? ? ? ? Hc Hk Hs]; subst.
  pose proof (trie_wf_inv _ _ _ Hwf) as (Hpp & _ & Hkids).
  assert (Hkw : forall i g t, is_nibble i -> Children_get ks i = Some (g, t) -> trie_wf t) by (intros i g t _; apply Hkids).
  inversion Hbt as [? ? ? ? Hlen Hval _]; subst.
  assert (Hskip : is_ethereum alg && (wrapping_add_u64 (len cp) (len pp) =? 64) = false ->
    lone alg (tp ++ pp) ks = false -> may_be_stale (tp ++ pp) c = false ->
    exists c' fake ns', account_children alg cp pp c ns = (Ok (c', fake), ns') /\
      recorded alg rd ns [] ns' /\ prepared (tp ++ pp) c ks c' fake).
  { intros Hck Hl Hst. exists c, None, ns. unfold account_children. rewrite Hck.
    split; [done|]. split; [by apply recorded_refl | by apply prepared_id]. }
  assert (Hnot : length (tp ++ pp) <> 64%nat -> lone alg (tp ++ pp) ks = false /\ may_be_stale (tp ++ pp) c = false).
  { intros Hne. split; [by apply lone_deep|]. unfold may_be_stale.
    destruct (Nat.eqb_spec (length (tp ++ pp)) 64); [done|]. by rewrite andb_false_r. }
  destruct Hmode as [->|Heth Hcp Htp|i Heth Hcp ->].
  - destruct (is_ethereum alg) eqn:Heth.
    + destruct (decide (length (tp ++ pp) = 64%nat)) as [He|Hne]; [apply account_children_account; try done; by apply is_path_app|].
      destruct (Hnot Hne) as [Hl Hst]. apply Hskip; [|done..]. rewrite account_check by done.
      by destruct (Nat.eqb_spec (length (tp ++ pp)) 64).
    + apply Hskip; [done | unfold lone; by rewrite Heth | unfold may_be_stale; by rewrite Heth].
  - destruct Hnot as [Hl Hst]; [rewrite length_app; lia|]. apply Hskip; [|done..].
    rewrite length_app in Hlen. rewrite account_check by (rewrite length_app; lia).
    rewrite Heth. cbn [andb]. apply Nat.eqb_neq. rewrite length_app. lia.
  - destruct (decide (pp = [])) as [->|Hne].
    + rewrite app_nil_r in *. apply account_children_folded; try done.
      apply (canonical_count []); [done|]. destruct v as [x|]; [|done].
      destruct (Hval x eq_refl) as [_ Hev]. rewrite length_app, Hcp in Hev. done.
    + destruct Hnot as [Hl Hst]; [rewrite !length_app; destruct pp; simpl; done || lia|]. apply Hskip; [|done..].
      rewrite account_check by (rewrite !length_app in *; lia). rewrite Heth. cbn [andb]. apply Nat.eqb_neq.
      rewrite length_app, Hcp. destruct pp; simpl; done || lia.
Qed.

(** ** The loop over the children *)

(** A slot after the loop, with the trie it denotes. *)
Inductive final_slot (full : Path) (l : bool) (i : PathComponent) : option Child -> option kid -> option kid -> Prop :=
| final_none : final_slot full l i None None None
| final_some c n g t u :
    Child_hash c = Some (kid_hash alg full l i t) -> child_node rd c = Some n ->
    committed (full ++ [i]) n u -> same_or_fresh g (child_handle c) -> settles (full ++ i :: tpath t) t u ->
    hashed_slot full i (Some (g, t)) (Some (child_handle c, u)) ->
    final_slot full l i (Some c) (Some (g, t)) (Some (child_handle c, u)).

Section Loop.
Variables (cp pp full : Path) (l : bool) (c c' : Children (option Child)) (ks : Children (option kid)).
Variable fake : option PathComponent.
Variable rec : Node -> Path -> option PathComponent -> store_op St (MaybePersisted * HashType).
Hypothesis Hc : Children_wf c.
Hypothesis Hkids : forall i g t, is_nibble i -> Children_get ks i = Some (g, t) -> trie_wf t.
Hypothesis Hready : forall i, is_nibble i -> ready_slot full l i (Children_get c' i) (Children_get ks i).
Hypothesis Hiff : forall i n, is_nibble i ->
  Children_get c' i = Some (ChildNode n) <-> Children_get c i = Some (ChildNode n).
Hypothesis Hrec : forall i n g t ns, is_nibble i -> Children_get c i = Some (ChildNode n) ->
  Children_get ks i = Some (g, t) -> dirty (full ++ [i]) n t -> holds alg rd ns ->
  exists n' u ns',
    rec n (cp ++ pp ++ (if is_ethereum alg && bool_decide (is_Some fake) then [] else [i])) fake ns
      = (Ok (Unpersisted n', kid_hash alg full l i t), ns') /\
    recorded alg rd ns [] ns' /\ committed (full ++ [i]) n' u /\ settles (full ++ i :: tpath t) t u /\
    hashed_as (full ++ i :: tpath t) t u.

(** A slot the loop skips is final already. *)
Lemma skipped_final i :
  is_nibble i -> (forall n, Children_get c i <> Some (ChildNode n)) ->
  exists o, final_slot full l i (Children_get c' i) (Children_get ks i) o.
Proof using Hkids Hready Hiff.
  intros Hi Hno. pose proof (Hready i Hi) as Hr.
  inversion Hr as [|n t Hd Hx Hy|x n t Hh Hn Hcom Hx Hy].
  - exists None. constructor.
  - destruct (Hno n). by apply Hiff.
  - exists (Some (child_handle x, t)). econstructor; [done.. | by left | |].
    + apply settles_refl. by eapply Hkids.
    + destruct x as [m|a h|m h]; [done | constructor..].
Qed.

Lemma hash_children_ok slots b acc ns :
  drop b c = slots -> (b + length slots = MAX_CHILDREN)%nat -> Children_wf acc -> holds alg rd ns ->
  (forall i, is_nibble i -> i < Z.of_nat b -> exists o, final_slot full l i (Children_get acc i) (Children_get ks i) o) ->
  (forall i, is_nibble i -> Z.of_nat b <= i -> Children_get acc i = Children_get c' i) ->
  exists acc' ns', hash_children alg rec cp pp fake slots (Z.of_nat b) acc ns = (Ok acc', ns') /\
    recorded alg rd ns [] ns' /\ Children_wf acc' /\
    forall i, is_nibble i -> exists o, final_slot full l i (Children_get acc' i) (Children_get ks i) o.
Proof using Hc Hkids Hready Hiff Hrec.
  revert b acc ns. induction slots as [|x slots IH]; intros b acc ns Hdrop Hlen Hacc Hh Hdone Htodo.
  { exists acc, ns. split; [done|]. split; [by apply recorded_refl|]. split; [done|]. intros i Hi.
    apply Hdone; [done|]. unfold is_nibble, MAX_CHILDREN, PathComponent_LEN in *. simpl in Hlen. lia. }
  assert (Hb : is_nibble (Z.of_nat b)) by (unfold is_nibble, MAX_CHILDREN, PathComponent_LEN in *; simpl in Hlen; lia).
  assert (Hx : Children_get c (Z.of_nat b) = x).
  { unfold Children_get. rewrite Nat2Z.id, <- head_drop, Hdrop. done. }
  assert (Hdrop' : drop (S b) c = slots) by (rewrite <- tail_drop, Hdrop; done).
  simpl in Hlen.
  assert (Hskip : (forall n, x <> Some (ChildNode n)) ->
    exists acc' ns', hash_children alg rec cp pp fake slots (Z.of_nat b + 1) acc ns = (Ok acc', ns') /\
      recorded alg rd ns [] ns' /\ Children_wf acc' /\
      forall i, is_nibble i -> exists o, final_slot full l i (Children_get acc' i) (Children_get ks i) o).
  { intros Hno. replace (Z.of_nat b + 1) with (Z.of_nat (S b)) by lia.
    apply IH; [done | lia | done | done | | intros i Hi Hib; apply Htodo; [done | lia]].
    intros i Hi Hib. destruct (decide (i = Z.of_nat b)) as [->|]; [|apply Hdone; [done | lia]].
    rewrite Htodo by (done || lia). apply skipped_final; [done|]. by rewrite Hx. }
  destruct x as [[n|a h|m h]|]; cbn [hash_children]; try (by apply Hskip). clear Hskip.
  assert (Hc' : Children_get c' (Z.of_nat b) = Some (ChildNode n)) by (by apply Hiff).
  pose proof (Hready _ Hb) as Hr. rewrite Hc' in Hr.
  inversion Hr as [|? t Hd Heq Hkt|? ? ? Hbad]; [|by subst].
  destruct (Hrec _ n None t ns Hb Hx (eq_sym Hkt) Hd Hh) as (n' & u & ns1 & Hrun & Hrec1 & Hcom & Hset & Has).
  erewrite store_bind_Ok by exact Hrun. cbv beta iota.
  replace (Z.of_nat b + 1) with (Z.of_nat (S b)) by lia.
  destruct (IH (S b) (Children_set acc (Z.of_nat b) (Some (ChildMaybePersisted (Unpersisted n') (kid_hash alg full l (Z.of_nat b) t)))) ns1)
    as (acc' & ns' & Hrun' & Hrec' & Hwf' & Hfin); [done | lia | by apply Children_set_wf | by eapply recorded_holds | | |].
  - intros i Hi Hib. destruct (decide (i = Z.of_nat b)) as [->|].
    + rewrite Children_get_set by done. rewrite <- Hkt. eexists. econstructor; [done | done | done | right; by eauto | done | by constructor].
    + rewrite Children_get_set_ne by auto. apply Hdone; [done | lia].
  - intros i Hi Hib. rewrite Children_get_set_ne by (done || lia). apply Htodo; [done | lia].
  - exists acc', ns'. split; [done|]. split; [|done]. by apply (recorded_trans alg rd ns ns1 ns' [] []).
Qed.

End Loop.

(** ** The node after the loop *)

Definition with_value (n : Node) (w : option Value) : Node :=
  match n, w with
  | Branch (mkBranch p _ c), w => Branch (mkBranch p w c)
  | Leaf l, Some w => Leaf (mkLeaf (leaf_partial_path l) w)
  | Leaf l, None => Leaf l
  end.

Definition node_hashes (n : Node) : Children (option HashType) :=
  match n with Branch b => children_hashes b | Leaf _ => Children_new end.

Lemma update_account_ok cp tp extra n :
  prefix_mode cp tp extra -> len (tp ++ partial_path n) <= ISIZE_MAX ->
  (is_Some (node_value n) -> Nat.even (length (tp ++ partial_path n)) = true) ->
  (if is_ethereum alg then update_account_storage_root n cp else n) =
  with_value n (settled_value alg (tp ++ partial_path n) (node_value n) (node_hashes n)).
Proof.
  intros Hmode Hlen Hev. unfold settled_value.
  assert (Hsame : with_value n (node_value n) = n) by (by destruct n as [[]|[]]).
  destruct (is_ethereum alg) eqn:Heth; cbn [andb]; [|by rewrite Hsame].
  assert (Hlcp : len (cp ++ partial_path n) <= ISIZE_MAX).
  { rewrite length_app in *. destruct Hmode as [->| |i ? ? ->]; [done | lia |]. rewrite length_app in Hlen. lia. }
  unfold update_account_storage_root. rewrite account_check by done.
  assert (Hcase : Nat.eqb (length (cp ++ partial_path n)) 64 = Nat.eqb (length (tp ++ partial_path n)) 64 \/
    (node_value n = None /\ Nat.eqb (length (tp ++ partial_path n)) 64 = false)).
  { destruct Hmode as [->|_ Hl1 Hl2|i _ Hl1 ->]; [by left | |].
    - left. rewrite !length_app. destruct (Nat.eqb_spec (length cp + length (partial_path n)) 64),
        (Nat.eqb_spec (length tp + length (partial_path n)) 64); lia || done.
    - destruct (partial_path n) as [|x q] eqn:Hp.
      + right. rewrite app_nil_r in *. rewrite length_app, Hl1 in *. split; [|done].
        destruct (node_value n) eqn:Hv; [|done]. by specialize (Hev ltac:(eauto)).
      + left. rewrite !length_app, Hl1. simpl. destruct (Nat.eqb_spec (64 + S (length q)) 64),
          (Nat.eqb_spec (64 + 1 + S (length q)) 64); lia || done. }
  destruct Hcase as [-> |[Hv ->]].
  - destruct (Nat.eqb _ 64); cbn [negb]; [|done].
    destruct n as [[p [v|] c]|l]; simpl; [| done |].
    + by destruct (fix_account_storage_root_value v _).
    + destruct (fix_account_storage_root_value (leaf_value l) _); [done | by destruct l].
  - rewrite Hsame. destruct n as [[p v c]|l]; simpl in Hv; [|done]. subst v. by destruct (negb _).
Qed.

Lemma with_value_parts n w :
  is_Some w \/ is_leaf n = false ->
  partial_path (with_value n w) = partial_path n /\ node_value (with_value n w) = w /\
  node_hashes (with_value n w) = node_hashes n.
Proof. destruct n as [[p v c]|l], w; simpl; try done. by intros [[]|]. Qed.

(** The hash that is returned, given the right child hashes. *)
Lemma final_hash cp tp extra pp v ks w n :
  prefix_mode cp tp extra -> is_path cp -> is_path pp -> Children_wf ks -> (forall x, v = Some x -> value_ok x) ->
  w = settled_value alg (tp ++ pp) v (kid_hashes alg (tp ++ pp) ks) ->
  partial_path n = pp -> node_value n = w -> node_hashes n = kid_hashes alg (tp ++ pp) ks ->
  match extra, is_ethereum alg with
  | Some nibble, true => components ← as_components cp; hash_node_as_storage_trie_root_for_node alg components nibble n
  | _, _ => hash_node alg n cp
  end = Ok (match extra with Some i => thash alg cp (i :: pp) (T pp v ks) | None => thash alg tp pp (T pp v ks) end).
Proof.
  intros Hmode Hcp Hpp Hk Hval -> Hp Hv Hh. unfold node_hashes in Hh.
  pose proof (kid_hashes_wf alg (tp ++ pp) ks Hk) as Hkw.
  pose proof (kid_hashes_hashes_wf alg (tp ++ pp) ks) as Hhw.
  destruct Hmode as [->|Heth Hl1 Hl2|i Heth Hl1 ->].
  - rewrite hash_node_parts by (done || by rewrite Hp). rewrite Hp, Hv, Hh, thash_T. f_equal. by apply to_hash_settled.
  - rewrite hash_node_parts by (done || by rewrite Hp). rewrite Hp, Hv, Hh, thash_T. f_equal.
    etransitivity; [|apply (to_hash_settled alg tp pp v (kid_hashes alg (tp ++ pp) ks)); done].
    unfold to_hash. destruct alg; [done|]. apply eth_to_hash_prefix. rewrite !length_app.
    destruct (Nat.eqb_spec (length cp + length pp) 64), (Nat.eqb_spec (length tp + length pp) 64); lia || done.
  - rewrite Heth, as_components_path by done. cbn [mbind result_bind]. rewrite hash_root_parts by (by rewrite Hp). rewrite Hp, Hv, Hh, thash_T. f_equal.
    replace ((cp ++ [i]) ++ pp) with (cp ++ i :: pp) in * by (by rewrite <- app_assoc).
    by apply to_hash_settled.
Qed.

(** The mode of a child. *)
Lemma child_mode cp tp extra pp i fake {A} (ks : Children (option A)) :
  prefix_mode cp tp extra ->
  (fake = None /\ lone alg (tp ++ pp) ks = false) \/
    (fake = Some i /\ lone alg (tp ++ pp) ks = true /\ is_ethereum alg = true) ->
  prefix_mode (cp ++ pp ++ (if is_ethereum alg && bool_decide (is_Some fake) then [] else [i]))
    ((tp ++ pp) ++ [i]) fake /\
  (fake <> None -> cp ++ pp ++ (if is_ethereum alg && bool_decide (is_Some fake) then [] else [i]) = tp ++ pp).
Proof.
  intros Hmode [[-> _]|(-> & Hlone & Heth)].
  - rewrite bool_decide_false by (by intros []). rewrite andb_false_r. split; [|done].
    destruct Hmode as [->|Heth Hl1 Hl2|j Heth Hl1 ->].
    + apply mode_same. by rewrite app_assoc.
    + apply mode_deep; [done|..]; rewrite !length_app; lia.
    + apply mode_deep; [done|..]; rewrite !length_app; simpl; lia.
  - rewrite Heth, bool_decide_true by done. cbn [andb]. rewrite app_nil_r.
    assert (Hl : length (tp ++ pp) = 64%nat).
    { unfold lone in Hlone. rewrite !andb_true_iff, !Nat.eqb_eq in Hlone. tauto. }
    destruct Hmode as [->|_ Hl1 Hl2|j _ Hl1 ->]; [|rewrite length_app in Hl; lia | rewrite !length_app in Hl; simpl in Hl; lia].
    split; [|done]. by apply mode_fold.
Qed.

Lemma child_prefix_path cp pp (b : bool) i : is_path cp -> is_path pp -> is_nibble i -> is_path (cp ++ pp ++ (if b then [] else [i])).
Proof.
  intros Hcp Hpp Hi. apply is_path_app. split; [done|]. apply is_path_app. split; [done|]. destruct b; [constructor | by repeat constructor; apply Hi].
Qed.

(** [hash_helper_inner] computes the hash of the trie. *)
Lemma hash_helper_inner_ok t n cp tp extra ns :
  prefix_mode cp tp extra -> is_path cp -> dirty tp n t -> trie_wf t -> canonical t -> byte_trie tp t -> holds alg rd ns ->
  exists n' u ns',
    hash_helper_inner alg n cp extra ns =
      (Ok (Unpersisted n', match extra with Some i => thash alg cp (i :: tpath t) t
                                          | None => thash alg tp (tpath t) t end), ns') /\
    recorded alg rd ns [] ns' /\ committed tp n' u /\ settles (tp ++ tpath t) t u /\ hashed_as (tp ++ tpath t) t u.
Proof.
  revert n cp tp extra ns. induction t as [pp v ks IH] using trie_ind'.
  intros n cp tp extra ns Hmode Hcpp Hd Hwf Hcan Hbt Hh.
  pose proof (trie_wf_inv _ _ _ Hwf) as (Hpp & Hk & Hkids). inversion Hbt as [? ? ? ? Hlen Hval Hbk]; subst.
  set (w := settled_value alg (tp ++ pp) v (kid_hashes alg (tp ++ pp) ks)).
  inversion Hd as [? l|? ? ? c ? Hc _ Hs]; subst.
  - eexists _, (T (leaf_partial_path l) w Children_new), ns. split; [|split; [by apply recorded_refl|]].
    + cbn [hash_helper_inner]. erewrite store_bind_Ok by reflexivity.
      rewrite (update_account_ok cp tp extra (Leaf l) Hmode Hlen ltac:(intros _; by eapply Hval)).
      cbn [node_hashes partial_path node_value].
      destruct (with_value_parts (Leaf l) w) as (Hp & Hv & Hhs); [left; unfold w, settled_value; by destruct (_ && _)|].
      erewrite store_bind_Ok; [reflexivity|]. unfold lift. f_equal.
      by apply (final_hash cp tp extra (leaf_partial_path l) (Some (leaf_value l)) Children_new w);
        [| | | | intros x Hx; by apply Hval | | | |].
    + assert (Hw : exists x, w = Some x) by (unfold w, settled_value; destruct (_ && _); simpl; eauto).
      destruct Hw as [x Hx]. cbn [node_hashes partial_path node_value]. 
      change (settled_value alg (tp ++ leaf_partial_path l) (Some (leaf_value l)) Children_new) with w.
      pose proof (settled_value_hashed alg (tp ++ leaf_partial_path l) (Some (leaf_value l)) Children_new Children_new_wf
        (fun y Hy => proj1 (Hval y Hy))) as Hvh. fold w in Hvh. rewrite Hx in *.
      split; [exact (committed_leaf tp (mkLeaf (leaf_partial_path l) x))|]. split.
      * constructor; [apply Children_new_wf.. | right; by rewrite <- Hx |]. intros i Hi. rewrite Children_get_new. constructor.
      * constructor; [apply Children_new_wf.. | exact Hvh |]. intros i Hi. rewrite Children_get_new. constructor.
  - destruct (account_children_ok ns cp tp extra pp v c ks Hmode Hcpp Hd Hwf Hcan Hbt Hh)
      as (c1 & fake & ns1 & Hrun1 & Hrec1 & Hwf1 & Hready & Hiff & Hfake).
    assert (Hrec : forall i n g t ns, is_nibble i -> Children_get c i = Some (ChildNode n) ->
      Children_get ks i = Some (g, t) -> dirty ((tp ++ pp) ++ [i]) n t -> holds alg rd ns ->
      exists n' u ns',
        hash_helper_inner alg n (cp ++ pp ++ (if is_ethereum alg && bool_decide (is_Some fake) then [] else [i])) fake ns
          = (Ok (Unpersisted n', kid_hash alg (tp ++ pp) (lone alg (tp ++ pp) ks) i t), ns') /\
        recorded alg rd ns [] ns' /\ committed ((tp ++ pp) ++ [i]) n' u /\ settles ((tp ++ pp) ++ i :: tpath t) t u /\
        hashed_as ((tp ++ pp) ++ i :: tpath t) t u).
    { intros i n g t ns2 Hi Hg Hkt Hdn Hh2. pose proof (Hfake i n Hi Hg) as Hf.
      destruct (child_mode cp tp extra pp i fake ks Hmode Hf) as [Hm Hcp'].
      destruct (IH (Z.to_nat i) g t ltac:(by apply Children_get_Some) n _ _ _ ns2 Hm ltac:(by apply child_prefix_path) Hdn) as (n' & u & ns3 & Hr & Hrr & Hcc & Hss & Haa);
        [by eapply Hkids | by eapply canonical_inv | by eapply Hbk | done |].
      exists n', u, ns3. rewrite Hr. split; [|rewrite <- app_assoc in Hss, Haa; split_and!; done].
      do 3 f_equal. destruct Hf as [[-> ->]|(-> & -> & _)]; [done|]. rewrite Hcp' by done. done. }
    destruct (hash_children_ok cp pp (tp ++ pp) (lone alg (tp ++ pp) ks) c c1 ks fake (hash_helper_inner alg) Hc
      ltac:(intros i g t _; apply Hkids) Hready Hiff Hrec c 0 c1 ns1) as (c2 & ns2 & Hrun2 & Hrec2 & Hwf2 & Hfin);
      [done | by rewrite Hc | done | by eapply recorded_holds | unfold is_nibble; intros; lia | done |].
    apply slots_choice in Hfin as (us & Hus & Hfin).
    assert (Hhs : node_hashes (Branch (mkBranch pp v c2)) = kid_hashes alg (tp ++ pp) ks).
    { apply Children_ext; [by apply Children_map_wf | by apply kid_hashes_wf |]. intros i Hi. simpl.
      unfold children_hashes. simpl branch_children. rewrite Children_map_get, kid_hashes_get by done.
      destruct (Hfin i Hi) as [|? ? ? ? ? Hh' ? ? ? ? ?]; [done|]. simpl. by rewrite Hh'. }
    exists (Branch (mkBranch pp w c2)), (T pp w us), ns2. split_and!.
    + cbn [hash_helper_inner]. erewrite store_bind_Ok.
      2: { erewrite store_bind_Ok by exact Hrun1. cbv beta iota. change 0 with (Z.of_nat 0).
           erewrite store_bind_Ok by exact Hrun2. reflexivity. }
      rewrite (update_account_ok cp tp extra (Branch (mkBranch pp v c2)) Hmode Hlen)
        by (simpl; intros [x ->]; by eapply Hval).
      rewrite Hhs. cbn [partial_path branch_partial_path node_value branch_value with_value]. fold w.
      erewrite store_bind_Ok; [reflexivity|]. unfold lift. f_equal.
      by apply (final_hash cp tp extra pp v ks w); [| | | | intros x Hx; by apply Hval | | | |].
    + by apply (recorded_trans alg rd ns ns1 ns2 [] []).
    + constructor; [done | done |]. intros i Hi.
      assert (Hlone : lone alg (tp ++ pp) us = lone alg (tp ++ pp) ks).
      { apply lone_ext; [done | done |]. intros j Hj. destruct (Hfin j Hj); split; done || by eauto. }
      pose proof (Hfin i Hi) as Hf. pose proof (Hbk i) as Hbki.
      destruct Hf as [|x n g t u Hh' Hn Hcom _ Hset _]; [constructor|].
      econstructor; [|exact Hn | exact Hcom]. rewrite Hh', Hlone. f_equal. unfold kid_hash.
      rewrite (settles_tpath _ _ _ Hset). specialize (Hbki g t Hi eq_refl).
      destruct (lone alg (tp ++ pp) ks); symmetry; eapply settles_thash; [done | done | done | done | done |].
      by rewrite <- (app_assoc (tp ++ pp)).
    + constructor; [done | done | by right |]. intros i Hi.
      destruct (Hfin i Hi); [constructor | by constructor].
    + constructor; [done | done | exact (settled_value_hashed alg (tp ++ pp) v ks Hk (fun y Hy => proj1 (Hval y Hy)))|]. intros i Hi.
      by destruct (Hfin i Hi); [constructor|].
Qed.

(** ** Contents after hashing *)

(** Only values at account depth may change. *)
Lemma settles_tget t full u k d :
  settles full t u -> is_path k -> (length full = d + length (tpath t))%nat ->
  is_ethereum alg = false \/ (d + length k <> 64)%nat -> tget u k = tget t k.
Proof.
  revert full u k d. induction t as [pp v ks IH] using trie_ind'. intros full u k d Hs Hk Hd Hne.
  inversion Hs as [? ? ? w ? us Hkw Huw Hw Hslots]; subst. simpl in Hd. rewrite !tget_T.
  destruct (strip_prefix pp k) as [[|i r]|] eqn:E; [| |done].
  - apply strip_prefix_Some in E. rewrite app_nil_r in E. subst k. destruct Hw as [->| ->]; [done|].
    unfold settled_value. destruct (is_ethereum alg); [|done]. destruct Hne as [|Hne]; [done|].
    destruct (Nat.eqb_spec (length full) 64); [lia | done].
  - apply strip_prefix_Some in E. subst k. apply is_path_app in Hk as [_ [Hi Hr]%is_path_cons].
    pose proof (Hslots i Hi) as Hsi. rewrite length_app in Hne. simpl in Hne.
    destruct (Children_get ks i) as [[g t]|] eqn:Hg; inversion Hsi as [|? ? ? h ? u _ Htu]; subst; [|done]. simpl.
    eapply (IH (Z.to_nat i) g t) with (d := S (length full)); [by apply Children_get_Some | done | done | |].
    + rewrite length_app. simpl. lia.
    + destruct Hne; [by left | right; lia].
Qed.

(** A node all of whose descendants are in memory. *)
Lemma rnode_fresh_dirty n t pfx : rnode rd n t -> handles t = [] -> dirty pfx n t.
Proof.
  revert n pfx. induction t as [pp v ks IH] using trie_ind'. intros n pfx Hr Hh.
  inversion Hr as [l|? ? c ? Hc Hk Hs]; subst; constructor; [done..|]. intros i Hi. pose proof (Hs i Hi) as Hsi.
  destruct (Children_get c i) as [x|] eqn:Hx; [|inversion Hsi; subst; constructor].
  apply rslot_Some_inv in Hsi as (m & t & Ht & Hm & Hmt). rewrite Ht. apply Children_get_Some in Ht.
  assert (Hkh : child_handle x = None /\ handles t = []).
  { rewrite handles_T in Hh. clear -Hh Ht. unfold kids_handles in Hh. revert Ht. generalize (Z.to_nat i).
    induction ks as [|o ks IHks]; intros j Hj; [done|]. simpl in Hh. apply app_nil in Hh as [Ho Hh].
    destruct j as [|j]; [|by apply (IHks Hh j)]. injection Hj as ->. simpl in Ho. apply app_nil in Ho as [Ho Ht].
    by destruct (child_handle x). }
  destruct Hkh as [Hnone Hht]. rewrite Hnone. destruct x; [|done..]. constructor. simpl in Hm. simplify_eq.
  eapply IH; eauto.
Qed.

(** ** Building tries of byte keys *)

Lemma byte_trie_new pfx pp v :
  len (pfx ++ pp) <= ISIZE_MAX ->
  (forall x, v = Some x -> value_ok x /\ Nat.even (length (pfx ++ pp)) = true) ->
  byte_trie pfx (T pp v Children_new).
Proof. intros Hl Hv. constructor; [done | done |]. intros i o t _. by rewrite Children_get_new. Qed.

Lemma byte_trie_set pfx pp v ks i o t :
  is_nibble i -> Children_wf ks -> byte_trie pfx (T pp v ks) -> byte_trie ((pfx ++ pp) ++ [i]) t ->
  byte_trie pfx (T pp v (Children_set ks i (Some (o, t)))).
Proof.
  intros Hi Hk Hb Ht. inversion Hb as [? ? ? ? Hl Hv Hs]; subst. constructor; [done | done |].
  intros j o' t' Hj. destruct (decide (i = j)) as [<-|Hne].
  - rewrite Children_get_set by done. by intros [= _ <-].
  - rewrite Children_get_set_ne by done. by apply Hs.
Qed.

(** ** Properties *)

(** C2: hashing a proposal is right under both schemes.  Whatever mixture of stored,
    shared and new nodes the trie is made of, [hash_helper] succeeds and returns the
    hash of the trie ([troot_hash], defined by recursion on the abstract trie, with
    the lone storage child of an Ethereum account hashed as a root).  The node it
    leaves has the right hash in every child slot, and no stored node changes.  The
    trie is the same ([hashed_as]) but for the Ethereum accounts among the nodes that were in memory: their
    third field is replaced by the root of their storage trie and all other bytes of the account are kept;
    a value that is no list with a byte string as its third field is left alone.  In particular every value
    whose key does not have 32 bytes, and every value under MerkleDB, is the same. *)
Theorem hash_helper_correct n t ns :
  dirty [] n t -> trie_wf t -> canonical t -> byte_trie [] t -> holds alg rd ns ->
  exists n' u ns',
    hash_helper alg n [] ns = (Ok (Unpersisted n', troot_hash alg t), ns') /\
    recorded alg rd ns [] ns' /\ committed [] n' u /\ troot_hash alg u = troot_hash alg t /\
    hashed_as (tpath t) t u /\
    forall k, is_path k -> is_ethereum alg = false \/ length k <> 64%nat -> tget u k = tget t k.
Proof.
  intros Hd Hwf Hcan Hbt Hh.
  destruct (hash_helper_inner_ok t n [] [] None ns (mode_same _ _ eq_refl) ltac:(constructor) Hd Hwf Hcan Hbt Hh)
    as (n' & u & ns' & Hrun & Hrec & Hcom & Hset & Has).
  exists n', u, ns'. split_and!; [exact Hrun | done | done | | exact Has |].
  - unfold troot_hash. rewrite (settles_tpath _ _ _ Hset). by eapply settles_thash.
  - intros k Hk Hne. by apply (settles_tget t _ u k 0 Hset).
Qed.

End HashHelper.

Section RootHash.
Context {St : Type} `{ReadableStorageLaws St} `{VarInt} `{DigestsLaws}.
Variable alg : NodeHashAlgorithm.

(** the root hash depends on the contents only.  Two proposals with the same
    key-value pairs get the same root hash, however their nodes are distributed over
    memory, shared revisions and two different stores. *)
Theorem root_hash_deterministic rd1 rd2 n1 n2 t1 t2 ns1 ns2 :
  dirty alg rd1 [] n1 t1 -> dirty alg rd2 [] n2 t2 -> holds alg rd1 ns1 -> holds alg rd2 ns2 ->
  trie_wf t1 -> trie_wf t2 -> canonical t1 -> canonical t2 -> byte_trie [] t1 -> byte_trie [] t2 ->
  (forall k, is_path k -> tget t1 k = tget t2 k) ->
  exists m1 m2 h, (hash_helper alg n1 [] ns1).1 = Ok (m1, h) /\ (hash_helper alg n2 [] ns2).1 = Ok (m2, h).
Proof.
  intros Hd1 Hd2 Hh1 Hh2 Hw1 Hw2 Hc1 Hc2 Hb1 Hb2 Heq.
  destruct (hash_helper_inner_ok alg rd1 t1 n1 [] [] None ns1 (mode_same _ _ _ eq_refl) ltac:(constructor) Hd1 Hw1 Hc1 Hb1 Hh1)
    as (m1 & _ & ns1' & Hr1 & _).
  destruct (hash_helper_inner_ok alg rd2 t2 n2 [] [] None ns2 (mode_same _ _ _ eq_refl) ltac:(constructor) Hd2 Hw2 Hc2 Hb2 Hh2)
    as (m2 & _ & ns2' & Hr2 & _).
  exists (Unpersisted m1), (Unpersisted m2), (troot_hash alg t1). unfold hash_helper. rewrite Hr1, Hr2. split; [done|].
  pose proof (canonical_unique t1 t2 Hw1 Hw2 Hc1 Hc2 Heq) as Hsim. unfold troot_hash. simpl.
  rewrite (tsim_tpath t1 t2 Hsim). by rewrite (tsim_thash alg t1 t2 _ _ Hsim).
Qed.

End RootHash.

(** ** Witnesses

    An Ethereum account with two storage slots that share their first nibble, all in
    memory: the lone storage child of the account has an empty path. *)
Section HashWitnesses.
Import Leb128 FirstBytes.

Definition w_account_value : bytes := encode_list [RlpBytes [1]; RlpBytes [2]; RlpBytes [3]; RlpBytes [4]].

Definition w_slots (a b : Node) : Node :=
  Branch (mkBranch [] None (Children_set (Children_set Children_new 1 (Some (ChildNode a))) 2 (Some (ChildNode b)))).

Definition w_slot (v : Z) : Node := Leaf (mkLeaf (replicate 62 0) [v]).

Definition w_account : Node :=
  Branch (mkBranch (replicate 64 0) (Some w_account_value)
    (Children_set Children_new 3 (Some (ChildNode (w_slots (w_slot 7) (w_slot 8)))))).

Definition w_slot_trie (v : Z) : trie := T (replicate 62 0) (Some [v]) Children_new.

Definition w_slots_trie : trie :=
  T [] None (Children_set (Children_set Children_new 1 (Some (None, w_slot_trie 7))) 2 (Some (None, w_slot_trie 8))).

Definition w_account_trie : trie :=
  T (replicate 64 0) (Some w_account_value) (Children_set Children_new 3 (Some (None, w_slots_trie))).

Definition w_eth_store : NodeStore MemStore := mkNodeStore None (Propose []) (mkMemStore []) true.
Definition w_eth_rd : LinearAddress -> option Node := disk Ethereum (mkMemStore []).

Lemma w_eth_holds : holds Ethereum w_eth_rd w_eth_store.
Proof. split; [by intros a n | done]. Qed.

Lemma w_zeros n : is_path (replicate n 0).
Proof. apply Forall_replicate. split; lia. Qed.

Lemma w_account_wf : trie_wf w_account_trie.
Proof.
  unfold w_account_trie, w_slots_trie. apply trie_wf_set; [split; lia | apply trie_wf_leaf, w_zeros | intros h t [= _ <-]].
  do 2 (apply trie_wf_set; [split; lia | | intros ? ? [= _ <-]; apply trie_wf_leaf, w_zeros]).
  apply trie_wf_leaf. constructor.
Qed.

Lemma w_account_canonical : canonical w_account_trie.
Proof.
  unfold w_account_trie. apply canonical_set; [split; lia | apply Children_new_wf | apply canonical_leaf |].
  unfold w_slots_trie. apply canonical_iff; [done|]. split.
  - intros _. exists 1, 2. split_and!; [split; lia | split; lia | done | by eexists | by eexists].
  - intros i h t Hi Hg. assert (Ht : t = w_slot_trie 7 \/ t = w_slot_trie 8).
    { destruct (decide (i = 2)) as [->|Hne]; [right; by injection Hg as _ <-|left].
      rewrite Children_get_set_ne in Hg by (done || split; lia).
      destruct (decide (i = 1)) as [->|Hne']; [by injection Hg as _ <-|].
      rewrite Children_get_set_ne in Hg by (done || split; lia). by rewrite Children_get_new in Hg. }
    destruct Ht as [-> | ->]; apply canonical_leaf.
Qed.

Lemma w_account_rnode : rnode w_eth_rd w_account w_account_trie.
Proof.
  unfold w_account, w_account_trie. apply rnode_set; [split; lia | apply rnode_childless|]. apply rslot_node.
  unfold w_slots, w_slots_trie.
  do 2 (apply rnode_set; [split; lia | | apply rslot_node, (rnode_leaf w_eth_rd (mkLeaf (replicate 62 0) _))]).
  apply rnode_childless.
Qed.

Lemma w_account_bytes : byte_trie [] w_account_trie.
Proof.
  assert (Hv : forall x, value_ok [x] <-> 0 <= x <= 255).
  { intros x. unfold value_ok, is_bytes, u8, U8_MAX. rewrite Forall_singleton. unfold ISIZE_MAX. simpl. lia. }
  unfold w_account_trie, w_slots_trie.
  apply byte_trie_set; [split; lia | done | apply byte_trie_new; [done|] |].
  - intros x [= <-]. split; [|done]. split; [|done]. apply (bool_decide_unpack (Forall (fun x => 0 <= x /\ x <= U8_MAX) _)).
    vm_compute. exact I.
  - do 2 (apply byte_trie_set; [split; lia | done | |
      apply byte_trie_new; [done | intros x [= <-]; split; [apply Hv; lia | done]]]).
    apply byte_trie_new; done.
Qed.

Lemma w_account_dirty : dirty Ethereum w_eth_rd [] w_account w_account_trie.
Proof. apply rnode_fresh_dirty; [apply w_account_rnode | by vm_compute]. Qed.

Lemma hash_helper_correct_witness :
  exists n' u ns', hash_helper Ethereum w_account [] w_eth_store = (Ok (Unpersisted n', troot_hash Ethereum w_account_trie), ns') /\
    committed Ethereum w_eth_rd [] n' u /\ hashed_as Ethereum (tpath w_account_trie) w_account_trie u.
Proof.
  destruct (hash_helper_correct Ethereum w_eth_rd w_account w_account_trie w_eth_store w_account_dirty w_account_wf
    w_account_canonical w_account_bytes w_eth_holds) as (n' & u & ns' & Hrun & _ & Hcom & _ & Has & _).
  exists n', u, ns'. exact (conj Hrun (conj Hcom Has)).
Defined.

Lemma root_hash_deterministic_witness :
  exists m1 m2 h, (hash_helper Ethereum w_account [] w_eth_store).1 = Ok (m1, h) /\
    (hash_helper Ethereum w_account [] w_eth_store).1 = Ok (m2, h).
Proof.
  exact (root_hash_deterministic Ethereum w_eth_rd w_eth_rd w_account w_account w_account_trie w_account_trie
    w_eth_store w_eth_store w_account_dirty w_account_dirty w_eth_holds w_eth_holds w_account_wf w_account_wf
    w_account_canonical w_account_canonical w_account_bytes w_account_bytes (fun k _ => eq_refl)).
Defined.

End HashWitnesses.
