(* ===== verification/EthHash.v ===== *)
(** * Encodings of the Ethereum scheme

    [storage/src/eth_encoding.rs] and [storage/src/hashers/ethhash.rs]: the
    hex-prefix encoding of paths determines the path, and how a short branch below
    a path is encoded. *)

From S2P Require Import Prelude Primitives NodePath Node Codec NodeCodec Trie NodeStore.
From S2P Require Import Rlp RlpSplice Hashing.

(** ** Hex-prefix encoding *)

Lemma join_pairs_inj p q :
  is_path p -> is_path q -> Nat.even (length p) = true -> Nat.even (length q) = true ->
  join_pairs p = join_pairs q -> p = q.
Proof.
  intros Hp. revert q. remember (length p) as n eqn:Hn. revert p Hp Hn.
  induction n as [n IH] using lt_wf_ind. intros p Hp -> q Hq Hep Heq Hj.
  destruct p as [|a [|b p]], q as [|c [|d q]]; try done. simpl in Hj. injection Hj as Hab Hj.
  apply Forall_cons in Hp as [Ha [Hb Hp]%Forall_cons], Hq as [Hc [Hd Hq]%Forall_cons].
  destruct (path_component_pair_roundtrip a b Ha Hb) as [_ H1].
  destruct (path_component_pair_roundtrip c d Hc Hd) as [_ H2]. rewrite Hab, H2 in H1. injection H1 as -> ->.
  do 2 f_equal. apply (IH (length p)); [simpl; lia | done.. ].
Qed.

(** The first byte: the leaf flag, the parity and the odd nibble. *)
Lemma compact_first_byte_odd (l l' : bool) a b :
  is_nibble a -> is_nibble b ->
  Z.lor (if l then Z.shiftl 1 5 else 0) (Z.lor (Z.shiftl 1 4) (Z.land a 15)) =
  Z.lor (if l' then Z.shiftl 1 5 else 0) (Z.lor (Z.shiftl 1 4) (Z.land b 15)) -> l = l' /\ a = b.
Proof.
  intros Ha Hb He.
  assert (H : forall (f g : bool) x y, is_nibble x -> is_nibble y ->
    implb (Z.lor (if f then Z.shiftl 1 5 else 0) (Z.lor (Z.shiftl 1 4) (Z.land x 15)) =?
       Z.lor (if g then Z.shiftl 1 5 else 0) (Z.lor (Z.shiftl 1 4) (Z.land y 15))) (eqb f g && (x =? y)) = true).
  { intros f g x y Hx Hy. revert y Hy. apply (forallb_range (fun y => implb _ (eqb f g && (x =? y)))).
    revert x Hx. apply (forallb_range (fun x => forallb (fun y => implb _ (eqb f g && (x =? y))) (seqZ 0 16))).
    by destruct f, g; vm_compute. }
  specialize (H l l' a b Ha Hb). rewrite (proj2 (Z.eqb_eq _ _) He) in H. simpl in H.
  apply andb_true_iff in H as [H1%eqb_prop H2%Z.eqb_eq]. done.
Qed.

Lemma compact_first_byte_mixed (l l' : bool) a :
  is_nibble a ->
  Z.lor (if l then Z.shiftl 1 5 else 0) (Z.lor (Z.shiftl 1 4) (Z.land a 15)) <> (if l' then Z.shiftl 1 5 else 0).
Proof.
  intros Ha He.
  assert (H : forall (f g : bool) x, is_nibble x ->
    negb (Z.lor (if f then Z.shiftl 1 5 else 0) (Z.lor (Z.shiftl 1 4) (Z.land x 15)) =?
       (if g then Z.shiftl 1 5 else 0)) = true).
  { intros f g x Hx. revert x Hx. apply (forallb_range (fun x => negb _)). by destruct f, g; vm_compute. }
  specialize (H l l' a Ha). rewrite (proj2 (Z.eqb_eq _ _) He) in H. done.
Qed.

(** ** Properties *)

(** The hex-prefix encoding of the Ethereum scheme is injective: the encoded
    bytes determine the path, even and odd lengths included, and whether the node is
    a leaf. *)
Theorem eth_compact_injective p q l l' :
  is_path p -> is_path q -> nibbles_to_eth_compact p l = nibbles_to_eth_compact q l' -> p = q /\ l = l'.
Proof.
  intros Hp Hq. unfold nibbles_to_eth_compact.
  assert (Hodd : forall (x : Z) r, Nat.odd (length (x :: r)) = true -> Nat.even (length r) = true)
    by (intros x r H; cbn [length] in H; by rewrite Nat.odd_succ in H).
  assert (Heven : forall r : Path, Nat.odd (length r) = false -> Nat.even (length r) = true)
    by (intros r H; rewrite <- Nat.negb_odd, H; done).
  destruct (Nat.odd (length p)) eqn:Op, (Nat.odd (length q)) eqn:Oq.
  - destruct p as [|a p], q as [|b q]; try done.
    apply Forall_cons in Hp as [Ha Hp], Hq as [Hb Hq]. intros [= Hf Hr].
    apply compact_first_byte_odd in Hf as [-> ->]; [|done..].
    apply join_pairs_inj in Hr as ->; [done | done | done | by eapply Hodd | by eapply Hodd].
  - destruct p as [|a p]; [done|]. apply Forall_cons in Hp as [Ha Hp].
    intros [= Hf _]. by apply compact_first_byte_mixed in Hf.
  - destruct q as [|b q]; [done|]. apply Forall_cons in Hq as [Hb Hq].
    intros [= Hf _]. symmetry in Hf. by apply compact_first_byte_mixed in Hf.
  - intros [= Hf Hr]. apply join_pairs_inj in Hr as ->; [|done | done | by apply Heven | by apply Heven].
    split; [done|]. by destruct l, l'.
Qed.

Lemma eth_compact_injective_witness :
  is_path [1; 2; 3] /\ (nibbles_to_eth_compact [1; 2; 3] true = [49; 35] -> [1; 2; 3] = [1; 2; 3] /\ true = true).
Proof.
  assert (Hp : is_path [1; 2; 3]) by (repeat constructor; lia).
  split; [exact Hp|]. intros He. exact (eth_compact_injective [1; 2; 3] [1; 2; 3] true true Hp Hp eq_refl).
Defined.

(** ** Short branches below a path *)

Lemma is_bytes_write_into it : item_wf it -> len (write_into it) <= ISIZE_MAX -> is_bytes (write_into it).
Proof.
  destruct it as [b|r|]; simpl; intros Hwf Hl.
  - destruct (write_bytes_cases b Hwf) as [(v & -> & Hv & ->)|(Hw & _)]; [done|]. rewrite Hw in *.
    rewrite length_app in Hl. apply Forall_app. split; [|done]. apply is_bytes_write_header; [ulia | lia].
  - by destruct Hwf.
  - constructor; [ulia | constructor].
Qed.

Lemma is_bytes_encode_list items : Forall item_wf items -> fits items -> is_bytes (encode_list items).
Proof.
  intros Hwf Hf. rewrite encode_list_payload by done. unfold fits in Hf.
  apply Forall_app. split; [apply is_bytes_write_header; ulia|].
  induction Hwf as [|it items Hit _ IH]; [constructor|]. rewrite payload_cons, length_app in *.
  apply Forall_app. split; [apply is_bytes_write_into; [done | lia] | apply IH; lia].
Qed.

Lemma join_pairs_facts p :
  is_path p -> is_bytes (join_pairs p) /\ (length (join_pairs p) <= length p)%nat.
Proof.
  remember (length p) as n eqn:Hn. revert p Hn. induction n as [n IH] using lt_wf_ind. intros p -> Hp.
  destruct p as [|a [|b p]]; simpl; [split; [constructor | lia]..|].
  apply Forall_cons in Hp as [Ha [Hb Hp]%Forall_cons]. destruct (IH (length p) ltac:(simpl; lia) p eq_refl Hp) as [H1 H2].
  split; [|lia]. constructor; [|done]. by apply path_component_pair_roundtrip.
Qed.

Lemma is_bytes_compact p l : is_path p -> is_bytes (nibbles_to_eth_compact p l).
Proof.
  intros Hp. unfold nibbles_to_eth_compact.
  assert (Hf : forall x, is_nibble x -> u8 (Z.lor (if l then Z.shiftl 1 5 else 0) (Z.lor (Z.shiftl 1 4) (Z.land x 15)))).
  { intros x Hx. assert (H : (0 <=? Z.lor (if l then Z.shiftl 1 5 else 0) (Z.lor (Z.shiftl 1 4) (Z.land x 15))) &&
      (Z.lor (if l then Z.shiftl 1 5 else 0) (Z.lor (Z.shiftl 1 4) (Z.land x 15)) <=? 255) = true).
    { revert x Hx. apply (forallb_range (fun x => (0 <=? _) && (_ <=? 255))). by destruct l; vm_compute. }
    apply andb_true_iff in H as [?%Z.leb_le ?%Z.leb_le]. ulia. }
  assert (Hg : forall r, is_path r -> is_bytes ((if l then Z.shiftl 1 5 else 0) :: join_pairs r)).
  { intros r Hr. constructor; [destruct l; by vm_compute | by apply join_pairs_facts]. }
  destruct (Nat.odd (length p)); [|by apply Hg]. destruct p as [|x p]; [by apply Hg|].
  apply Forall_cons in Hp as [Hx Hp]. constructor; [by apply Hf | by apply join_pairs_facts].
Qed.

Lemma length_compact p l : is_path p -> (length (nibbles_to_eth_compact p l) <= S (length p))%nat.
Proof.
  intros Hp. unfold nibbles_to_eth_compact.
  destruct (Nat.odd (length p)); [destruct p as [|x p]|]; simpl; [lia| |].
  - apply Forall_cons in Hp as [_ Hp]. pose proof (proj2 (join_pairs_facts p Hp)). lia.
  - pose proof (proj2 (join_pairs_facts p Hp)). lia.
Qed.

Section ShortBranch.
Context `{Digests}.

(** The branch part of the preimage of a branch that is no account. *)
Definition branch_rlp (v : option bytes) (hs : Children (option HashType)) : bytes :=
  encode_list (map child_to_rlp_item hs ++ [match v with Some x => RlpBytes x | None => RlpEmpty end]).

(** An inline child is one encoded item. *)
Definition inline_ok (h : option HashType) : Prop :=
  match h with Some h => item_wf (child_to_rlp_item (Some h)) | None => True end.

Lemma branch_items_wf v hs :
  Forall inline_ok hs -> (forall x, v = Some x -> is_bytes x) ->
  Forall item_wf (map child_to_rlp_item hs ++ [match v with Some x => RlpBytes x | None => RlpEmpty end]).
Proof.
  intros Hh Hv. apply Forall_app. split.
  - apply Forall_map. eapply Forall_impl; [exact Hh|]. intros [h|]; done.
  - constructor; [|constructor]. destruct v; simpl; auto.
Qed.

(** A branch that sits below a non-empty path and whose encoding is shorter than
    32 bytes is put into the parent list as a byte string that contains the encoded
    branch.  The "<32 byte" rule of the Ethereum trie, which the module documentation
    states, asks for the branch itself to be embedded; the two encodings differ. *)
Theorem eth_short_branch_as_string pfx part v hs :
  part <> [] -> is_path part -> length (pfx ++ part) <> 64%nat -> (0 < Children_count hs)%nat ->
  Forall inline_ok hs -> (forall x, v = Some x -> is_bytes x) ->
  fits (map child_to_rlp_item hs ++ [match v with Some x => RlpBytes x | None => RlpEmpty end]) ->
  len part <= 1024 -> len (branch_rlp v hs) < 32 ->
  let path := nibbles_to_eth_compact part false in
  eth_write_preimage (mkShunt pfx part (DigestValue <$> v) hs) =
    encode_list [RlpBytes path; RlpBytes (branch_rlp v hs)] /\
  eth_write_preimage (mkShunt pfx part (DigestValue <$> v) hs) <>
    encode_list [RlpBytes path; RlpRaw (branch_rlp v hs)].
Proof.
  intros Hpart Hpp Hlen Hcnt Hhs Hv Hfits Hlp Hshort path.
  assert (He : eth_write_preimage (mkShunt pfx part (DigestValue <$> v) hs) =
    encode_list [RlpBytes path; RlpBytes (branch_rlp v hs)]).
  { unfold eth_write_preimage.
    cbn [full_path h_children value_digest h_partial_path HashableShunt_Hashable sh_parent_prefix
      sh_partial_path sh_value sh_child_hashes].
    destruct (Nat.eqb_spec (length (pfx ++ part)) 64); [done|].
    destruct (Nat.eqb_spec (Children_count hs) 0); [lia|]. rewrite bool_decide_false by done.
    assert (Hvb : (DigestValue <$> v) ≫= ValueDigest_value = v) by (by destruct v). rewrite Hvb.
    fold (branch_rlp v hs). destruct (Z.ltb_spec 31 (len (branch_rlp v hs))); [lia | done]. }
  split; [done|]. rewrite He. intros Heq. apply (f_equal RlpList_parse) in Heq.
  pose proof (branch_items_wf v hs Hhs Hv) as Hwf. set (items := map _ hs ++ _) in *.
  assert (Hbr : branch_rlp v hs = write_header (len (payload items)) 0xc0 ++ payload items) by (by apply encode_list_payload).
  assert (Hbb : is_bytes (branch_rlp v hs)) by (by apply is_bytes_encode_list).
  assert (Hpb : is_bytes path) by (by apply is_bytes_compact).
  pose proof (length_compact part false Hpp) as Hcl. fold path in Hcl.
  assert (Hw : len (write_bytes (branch_rlp v hs)) = 1 + len (branch_rlp v hs)).
  { rewrite Hbr in Hshort |- *. pose proof (header_len_range (len (payload items)) ltac:(unfold fits in Hfits; ulia)).
    destruct (write_bytes_cases _ Hbb) as [(x & Hx & Hx8 & _)|(Hwb & _)]; rewrite Hbr in *.
    - exfalso. destruct (parse_list_app (payload items) Hfits) as (Hp & _). rewrite Hx in Hp.
      unfold parse_header in Hp. cbn [head ok_or] in Hp. unfold mbind, result_bind in Hp.
      destruct (Z.leb_spec x 0x7f); [done | lia].
    - rewrite Hwb, write_header_short by lia. simpl. lia. }
  assert (Hwp : len (write_bytes path) <= len path + 9).
  { destruct (write_bytes_cases path Hpb) as [(x & -> & _ & ->)|(-> & _)]; [simpl; lia|].
    rewrite length_app, Nat2Z.inj_add, length_write_header by ulia.
    pose proof (header_len_range (len path) ltac:(ulia)). lia. }
  rewrite !RlpList_parse_encode in Heq.
  - apply Ok_inj, (f_equal length) in Heq. unfold payload in Heq. simpl in Heq. rewrite !length_app in Heq. simpl in Heq. lia.
  - repeat constructor; [done | done |]. rewrite Hbr.
    destruct (parse_list_app (payload items) Hfits) as (Hp & Ht & _). eexists. split; [exact Hp|].
    unfold total_len, ok_or in Ht. destruct (checked_add_u64 _ _) eqn:Hck; [|done].
    apply checked_add_u64_Some in Hck as [_ ->]. by injection Ht.
  - unfold fits, payload. simpl. rewrite !length_app. simpl. ulia.
  - repeat constructor; done.
  - unfold fits, payload. simpl. rewrite !length_app. simpl. ulia.
Qed.

End ShortBranch.

Section ShortBranchWitness.
Import FirstBytes.

Lemma eth_short_branch_as_string_witness :
  let hs := Children_set (Children_set Children_new 1 (Some (Rlp [193; 7]))) 2 (Some (Rlp [193; 8])) in
  eth_write_preimage (mkShunt [] [5] None hs) <> encode_list [RlpBytes [21]; RlpRaw (branch_rlp None hs)].
Proof.
  intros hs. apply (eth_short_branch_as_string [] [5] None hs).
  - done.
  - repeat constructor; lia.
  - done.
  - apply (bool_decide_unpack (0 < Children_count hs)%nat). vm_compute. exact I.
  - repeat constructor; try (unfold u8, U8_MAX; lia); eexists; by vm_compute.
  - done.
  - vm_compute. discriminate.
  - done.
  - by vm_compute.
Defined.

End ShortBranchWitness.
