(* ===== verification/HashBinding.v ===== *)
(** * The MerkleDB hash binds the trie

    [storage/src/hashers/merkledb.rs]: the preimage of a node determines its
    children's hashes, its value digest and its full path.  Two tries with the same
    root hash are therefore equal, or SHA-256 collides on two strings that were
    hashed on the way. *)

From S2P Require Import Prelude Primitives NodePath Node Codec NodeCodec Trie NodeStore.
From S2P Require Import Merkle MerkleSpec MerkleInsert TrieCanonical Rlp Hashing HashSpec.

(** ** Packed paths *)

Lemma as_packed_bytes_inj p q :
  is_path p -> is_path q -> length p = length q -> as_packed_bytes p = as_packed_bytes q -> p = q.
Proof.
  remember (length p) as n eqn:Hn. revert p q Hn. induction n as [n IH] using lt_wf_ind.
  intros p q -> Hp Hq Hl He.
  assert (Hj : forall a b c d, is_nibble a -> is_nibble b -> is_nibble c -> is_nibble d ->
    PathComponent_join a b = PathComponent_join c d -> a = c /\ b = d).
  { intros a b c d Ha Hb Hc Hd Hab. destruct (path_component_pair_roundtrip a b Ha Hb) as [_ H1].
    destruct (path_component_pair_roundtrip c d Hc Hd) as [_ H2]. rewrite Hab, H2 in H1. by injection H1. }
  destruct p as [|a [|b p]], q as [|c [|d q]]; try done.
  - apply Forall_cons in Hp as [Ha _], Hq as [Hc _]. injection He as He.
    apply Hj in He as [-> _]; [done | done | split; lia | done | split; lia].
  - apply Forall_cons in Hp as [Ha [Hb Hp]%Forall_cons], Hq as [Hc [Hd Hq]%Forall_cons].
    simpl in He, Hl. injection He as Hab He. apply Hj in Hab as [-> ->]; [|done..].
    do 2 f_equal. apply (IH (length p)); [simpl; lia | done | done | done | lia | done].
Qed.

(** ** The preimage *)

Section Preimage.
Context `{Digests} `{VarIntLaws}.

Lemma encode_var_app_inj a b x y :
  u64 a -> u64 b -> encode_var a ++ x = encode_var b ++ y -> a = b /\ x = y.
Proof.
  intros Ha Hb He. pose proof (read_varint_encode a x Ha) as Hr.
  rewrite He, (read_varint_encode b y Hb) in Hr. by injection Hr.
Qed.

(** What a preimage can hold: full hashes, a digest of at most 32 bytes, a path of
    nibbles. *)
Definition hash32 (h : HashType) : Prop := exists b, h = Hash b /\ length b = 32%nat.

Definition digest_wf (d : ValueDigest) : Prop :=
  match d with DigestValue _ => True | DigestHash h => hash32 h end.

Definition hashable_ok {N} `{Hashable N} (n : N) : Prop :=
  Children_wf (h_children n) /\
  (forall i h, is_nibble i -> Children_get (h_children n) i = Some h -> hash32 h) /\
  (forall d, value_digest n = Some d -> digest_wf d) /\
  is_path (full_path n) /\ BITS_PER_NIBBLE * len (full_path n) <= U64_MAX.

(** The bytes that stand for the value. *)
Definition digest_bytes (d : option ValueDigest) : option bytes :=
  (fun d => ValueDigest_as_slice (make_hash d MerkleDB)) <$> d.

Definition child_bytes (l : list (PathComponent * HashType)) : bytes :=
  flat_map (fun p => add_varint_to_buf p.1 ++ HashType_as_slice p.2) l.

Lemma child_bytes_inj l m x y :
  Forall (fun p => is_nibble p.1 /\ hash32 p.2) l -> Forall (fun p => is_nibble p.1 /\ hash32 p.2) m ->
  length l = length m -> child_bytes l ++ x = child_bytes m ++ y -> l = m /\ x = y.
Proof.
  intros Hl. revert m. induction Hl as [|[i h] l [Hi Hh] _ IH]; intros [|[j g] m] Hm Hlen He; try done.
  apply Forall_cons in Hm as [[Hj Hg] Hm]. simpl in *. unfold add_varint_to_buf in He. rewrite <- !app_assoc in He.
  destruct Hh as (bh & -> & Hlh), Hg as (bg & -> & Hlg).
  apply encode_var_app_inj in He as [-> He]; [|unfold is_nibble in *; ulia..]. simpl in He.
  apply app_inj_1 in He as [-> He]; [|congruence]. apply IH in He as [-> ->]; [done | done | lia].
Qed.

Lemma present_ok {N} `{Hashable N} (n : N) :
  hashable_ok n -> Forall (fun p => is_nibble p.1 /\ hash32 p.2) (Children_iter_present (h_children n)).
Proof.
  intros (Hc & Hh & _). apply Forall_forall. intros [i h] Hin.
  apply Children_iter_present_elem in Hin as [Hi Hg]; [|done]. split; [done|]. by eapply Hh.
Qed.

Lemma children_of_present {A} (c d : Children (option A)) :
  Children_wf c -> Children_wf d -> Children_iter_present c = Children_iter_present d -> c = d.
Proof.
  intros Hc Hd He. apply Children_ext; [done..|]. intros i Hi.
  destruct (Children_get c i) as [x|] eqn:Ex.
  - assert (Hin : (i, x) ∈ Children_iter_present d) by (rewrite <- He; by apply Children_iter_present_elem).
    by apply Children_iter_present_elem in Hin as [_ ->].
  - destruct (Children_get d i) as [y|] eqn:Ey; [|done].
    assert (Hin : (i, y) ∈ Children_iter_present c) by (rewrite He; by apply Children_iter_present_elem).
    apply Children_iter_present_elem in Hin as [_ Hg]; [|done]. congruence.
Qed.

Lemma digest_length `{!DigestsLaws} d : digest_wf d -> (length (ValueDigest_as_slice (make_hash d MerkleDB)) <= 32)%nat.
Proof.
  destruct d as [v|h]; simpl.
  - intros _. rewrite andb_true_r. destruct (Z.leb_spec 32 (len v)); simpl; [|lia]. by rewrite (proj1 (sha256_wf v)).
  - intros (b & -> & Hb). simpl. lia.
Qed.

Lemma value_bytes_inj `{!DigestsLaws} d e x y :
  (forall a, d = Some a -> digest_wf a) -> (forall a, e = Some a -> digest_wf a) ->
  add_value_digest_to_buf d ++ x = add_value_digest_to_buf e ++ y -> digest_bytes d = digest_bytes e /\ x = y.
Proof.
  intros Hd He Heq. destruct d as [a|], e as [b|]; simpl in *; try done.
  - unfold add_len_and_value_to_buf in Heq. simpl in Heq. injection Heq as Hl Heq.
    pose proof (digest_length a (Hd a eq_refl)). pose proof (digest_length b (He b eq_refl)).
    rewrite !Z.mod_small in Hl by lia. apply app_inj_1 in Heq as [-> ->]; [done | lia].
  - by injection Heq.
Qed.

Lemma preimage_inj `{!DigestsLaws} {N M} `{Hashable N} `{Hashable M} (n : N) (m : M) :
  hashable_ok n -> hashable_ok m -> merkledb_write_preimage n = merkledb_write_preimage m ->
  h_children n = h_children m /\ digest_bytes (value_digest n) = digest_bytes (value_digest m) /\
  full_path n = full_path m.
Proof.
  intros Hn Hm He. pose proof (present_ok n Hn) as Hpn. pose proof (present_ok m Hm) as Hpm.
  destruct Hn as (Hcn & _ & Hdn & Hfn & Hln), Hm as (Hcm & _ & Hdm & Hfm & Hlm).
  unfold merkledb_write_preimage in He. unfold add_varint_to_buf at 1 4 in He.
  pose proof (Children_count_le (h_children n)) as Hkn. pose proof (Children_count_le (h_children m)) as Hkm.
  fold (Children_count (h_children n)) in Hkn. fold (Children_count (h_children m)) in Hkm.
  unfold MAX_CHILDREN, PathComponent_LEN in *.
  apply encode_var_app_inj in He as [Hcount He]; [|ulia..]. apply Nat2Z.inj in Hcount.
  apply (child_bytes_inj _ _ _ _ Hpn Hpm Hcount) in He as [Hpres He].
  apply value_bytes_inj in He as [Hval He]; [|done..].
  unfold add_varint_to_buf, BITS_PER_NIBBLE in *. rewrite !Z.mod_small in He by ulia.
  apply encode_var_app_inj in He as [Hl He]; [|ulia..].
  split_and!; [by apply children_of_present | done |]. apply as_packed_bytes_inj; [done.. | lia | done].
Qed.

End Preimage.

(** ** The root hash *)

Section Binding.
Context `{DigestsLaws} `{VarIntLaws}.

(** The strings that are hashed to hash the trie: the preimage of every node and
    every long value. *)
Fixpoint preimages (full : Path) (t : trie) : list bytes :=
  let '(T _ v ks) := t in
  merkledb_write_preimage (mkShunt [] full (DigestValue <$> v) (kid_hashes MerkleDB full ks))
  :: (match v with Some x => if 32 <=? len x then [x] else [] | None => [] end)
  ++ (fix go (ks : list (option kid)) (i : Z) : list bytes :=
        match ks with
        | [] => []
        | None :: ks => go ks (i + 1)
        | Some (_, t) :: ks => preimages (full ++ i :: tpath t) t ++ go ks (i + 1)
        end) ks 0.

(** SHA-256 maps two different strings, one of each list, to the same digest. *)
Definition collision (xs ys : list bytes) : Prop :=
  exists x y, x ∈ xs /\ y ∈ ys /\ x <> y /\ sha256 x = sha256 y.

Lemma collision_mono xs ys xs' ys' : collision xs ys -> xs ⊆ xs' -> ys ⊆ ys' -> collision xs' ys'.
Proof. intros (x & y & Hx & Hy & Hne & He) Hxs Hys. exists x, y. auto. Qed.

(** Full paths whose length in bits is a [u64]. *)
Inductive paths_fit : Path -> trie -> Prop :=
| paths_fit_T full pp v ks :
    BITS_PER_NIBBLE * len full <= U64_MAX -> is_path full ->
    (forall i o t, is_nibble i -> Children_get ks i = Some (o, t) -> paths_fit (full ++ i :: tpath t) t) ->
    paths_fit full (T pp v ks).

Lemma preimages_kid full pp v ks i o t :
  is_nibble i -> Children_get ks i = Some (o, t) -> preimages (full ++ i :: tpath t) t ⊆ preimages full (T pp v ks).
Proof.
  intros Hi Hg x Hx. cbn [preimages]. apply elem_of_cons. right. apply elem_of_app. right.
  apply Children_get_Some in Hg. unfold is_nibble in Hi. replace i with (0 + Z.of_nat (Z.to_nat i)) in Hx by lia.
  revert Hg Hx. generalize (Z.to_nat i). clear Hi. generalize 0 as b. induction ks as [|k ks IH]; intros b j Hj Hx; [done|].
  destruct j as [|j].
  - injection Hj as ->. rewrite Z.add_0_r in Hx. apply elem_of_app. by left.
  - specialize (IH (b + 1) j Hj). replace (b + 1 + Z.of_nat j) with (b + Z.of_nat (S j)) in IH by lia.
    specialize (IH Hx). destruct k as [[g u]|]; [apply elem_of_app; by right | done].
Qed.

(** The hash of a child under MerkleDB depends on its full path only. *)
Lemma thash_merkledb p q t :
  thash MerkleDB p q t =
  Hash (sha256 (merkledb_write_preimage (mkShunt [] (p ++ q) (DigestValue <$> tval t) (kid_hashes MerkleDB (p ++ q) (tkids t))))).
Proof. destruct t as [pp v ks]. by rewrite thash_T. Qed.

Lemma kid_hash_merkledb full (ks : Children (option kid)) i t :
  kid_hash MerkleDB full (lone MerkleDB full ks) i t = thash MerkleDB [] (full ++ i :: tpath t) t.
Proof. unfold kid_hash, lone. simpl. rewrite !thash_merkledb. by rewrite <- app_assoc. Qed.

Lemma trie_hashable_ok full t :
  trie_wf t -> paths_fit full t ->
  hashable_ok (mkShunt [] full (DigestValue <$> tval t) (kid_hashes MerkleDB full (tkids t))).
Proof.
  destruct t as [pp v ks]. intros Hwf Hfit. pose proof (trie_wf_inv _ _ _ Hwf) as (_ & Hk & _).
  inversion Hfit as [? ? ? ? Hl Hp _]; subst. split_and!;
    cbn [h_children value_digest full_path HashableShunt_Hashable sh_child_hashes sh_value sh_parent_prefix
      sh_partial_path tkids tval app]; [by apply kid_hashes_wf | | | done | done].
  - intros i h Hi. rewrite kid_hashes_get by done. destruct (Children_get ks i) as [[g t]|]; [|done].
    cbn [fmap option_fmap option_map snd]. intros Hh. apply (inj Some) in Hh as <-.
    rewrite kid_hash_merkledb, thash_merkledb. eexists. split; [done|]. apply sha256_wf.
  - intros d Hd. destruct v; simplify_eq/=; done.
Qed.

(** Equal digests come from equal values or collide. *)
Lemma digest_bytes_inj v w :
  digest_bytes (DigestValue <$> v) = digest_bytes (DigestValue <$> w) ->
  v = w \/ exists x y, v = Some x /\ w = Some y /\ 32 <= len x /\ 32 <= len y /\ x <> y /\ sha256 x = sha256 y.
Proof.
  destruct v as [x|], w as [y|]; simpl; try done; [|by left]. rewrite !andb_true_r. intros [= He].
  destruct (decide (x = y)) as [->|Hne]; [by left | right]. exists x, y.
  pose proof (proj1 (sha256_wf x)). pose proof (proj1 (sha256_wf y)).
  destruct (Z.leb_spec 32 (len x)), (Z.leb_spec 32 (len y)); simpl in He; [done | | |done].
  - subst y. exfalso. lia.
  - subst x. exfalso. lia.
Qed.

(** A finite disjunction. *)
Lemma slots_or (P : PathComponent -> Prop) (Q : Prop) :
  (forall i, is_nibble i -> P i \/ Q) -> (forall i, is_nibble i -> P i) \/ Q.
Proof.
  intros HPQ. assert (Hn : forall n, (n <= 16)%nat -> (forall i, 0 <= i < Z.of_nat n -> P i) \/ Q).
  { intros n. induction n as [|n IH]; intros Hle; [left; lia|]. destruct IH as [HP|]; [lia| |by right].
    destruct (HPQ (Z.of_nat n)) as [Hp|]; [unfold is_nibble; lia| |by right]. left. intros i Hi.
    destruct (decide (i = Z.of_nat n)) as [->|]; [done | apply HP; lia]. }
  exact (Hn 16%nat ltac:(lia)).
Qed.

Lemma tsim_tget t u k : tsim t u -> is_path k -> tget t k = tget u k.
Proof.
  revert u k. induction t as [pp v ks IH] using trie_ind'. intros u k Hs Hk.
  inversion Hs as [? ? ? us Hkw Huw Hsim]; subst. rewrite !tget_T.
  destruct (strip_prefix pp k) as [[|i r]|] eqn:E; [done | |done].
  apply strip_prefix_Some in E. subst k. apply is_path_app in Hk as [_ [Hi Hr]%is_path_cons].
  specialize (Hsim i Hi). destruct (Children_get ks i) as [[g t]|] eqn:Hg; inversion Hsim as [|? h ? u Htu]; subst; [|done].
  simpl. apply (IH (Z.to_nat i) g t); [by apply Children_get_Some | done | done].
Qed.

Lemma thash_binding t u full full' :
  trie_wf t -> trie_wf u -> paths_fit full t -> paths_fit full' u ->
  thash MerkleDB [] full t = thash MerkleDB [] full' u ->
  (full = full' /\ (tpath t = tpath u -> tsim t u)) \/ collision (preimages full t) (preimages full' u).
Proof.
  revert u full full'. induction t as [pp v ks IH] using trie_ind'. intros [qq w us] full full' Hwt Hwu Hft Hfu He.
  rewrite !thash_merkledb in He. simpl app in He. injection He as He. cbn [tval tkids] in He.
  destruct (decide (merkledb_write_preimage (mkShunt [] full (DigestValue <$> v) (kid_hashes MerkleDB full ks)) =
    merkledb_write_preimage (mkShunt [] full' (DigestValue <$> w) (kid_hashes MerkleDB full' us)))) as [Heq|Hne].
  2: { right. eexists _, _. split_and!; [by constructor | by constructor | exact Hne | exact He]. }
  apply preimage_inj in Heq as (Hch & Hval & Hfull);
    [|by apply (trie_hashable_ok full (T pp v ks)) | by apply (trie_hashable_ok full' (T qq w us))].
  simpl in Hch, Hval, Hfull. subst full'.
  pose proof (trie_wf_inv _ _ _ Hwt) as (_ & Hk & Hkids). pose proof (trie_wf_inv _ _ _ Hwu) as (_ & Hu & Huids).
  inversion Hft as [? ? ? ? _ _ Hfk]; subst. inversion Hfu as [? ? ? ? _ _ Hfuk]; subst.
  destruct (digest_bytes_inj _ _ Hval) as [->|(x & y & -> & -> & Hx & Hy & Hne & Hc)].
  2: { right. exists x, y. split_and!; [| | done | done]; cbn [preimages]; apply elem_of_cons; right;
       apply elem_of_app; left; (destruct (Z.leb_spec 32 (len x)), (Z.leb_spec 32 (len y)); try lia); by constructor. }
  destruct (slots_or (fun i => ksim (Children_get ks i) (Children_get us i))
    (collision (preimages full (T pp w ks)) (preimages full (T qq w us)))) as [Hall|]; [| |by right].
  - intros i Hi. assert (Hs : Children_get (kid_hashes MerkleDB full ks) i = Children_get (kid_hashes MerkleDB full us) i) by (by rewrite Hch).
    rewrite !kid_hashes_get in Hs by done.
    destruct (Children_get ks i) as [[g t]|] eqn:Hti, (Children_get us i) as [[h u]|] eqn:Hui;
      cbn [fmap option_fmap option_map snd] in Hs; try done; [|left; constructor].
    apply (inj Some) in Hs. rewrite !kid_hash_merkledb in Hs.
    destruct (IH (Z.to_nat i) g t ltac:(by apply Children_get_Some) u _ _ (Hkids _ _ _ Hti) (Huids _ _ _ Hui)
      (Hfk _ _ _ Hi Hti) (Hfuk _ _ _ Hi Hui) Hs) as [[Hpath Hsim]|Hcol].
    + left. constructor. apply Hsim. apply app_inv_head in Hpath. by injection Hpath.
    + right. eapply collision_mono; [exact Hcol | by eapply preimages_kid | by eapply preimages_kid].
  - left. split; [done|]. simpl. intros ->. by constructor.
Qed.

(** C3: the MerkleDB root hash binds the contents.  If two tries have the same root
    hash, they hold the same value under every key, or the computation of the two
    hashes itself exhibits a SHA-256 collision: two different strings, each hashed
    for one of the tries, with the same digest. *)
Theorem root_hash_binding t u :
  trie_wf t -> trie_wf u -> paths_fit (tpath t) t -> paths_fit (tpath u) u ->
  troot_hash MerkleDB t = troot_hash MerkleDB u ->
  (forall k, is_path k -> tget t k = tget u k) \/ collision (preimages (tpath t) t) (preimages (tpath u) u).
Proof.
  intros Hwt Hwu Hft Hfu He. destruct (thash_binding t u _ _ Hwt Hwu Hft Hfu He) as [[Hp Hsim]|]; [left|by right].
  intros k Hk. apply tsim_tget; [by apply Hsim | done].
Qed.

End Binding.

(** ** Witness: the same trie in memory and on disk *)
Section BindingWitness.
Import Leb128 FirstBytes.

Definition w_bound (h : option MaybePersisted) : trie :=
  T [] (Some [9]) (Children_set Children_new 6 (Some (h, T [1] (Some [7]) Children_new))).

Lemma w_bound_wf h : trie_wf (w_bound h) /\ paths_fit (tpath (w_bound h)) (w_bound h).
Proof.
  assert (Hp : is_path [1]) by (repeat constructor; lia).
  split.
  - apply trie_wf_set; [split; lia | apply trie_wf_leaf; constructor |]. intros h' t [= _ <-]. by apply trie_wf_leaf.
  - constructor; [done | constructor |]. intros i o t Hi. destruct (decide (i = 6)) as [->|Hne].
    + rewrite Children_get_set by (done || split; lia). intros [= _ <-]. constructor; [done | repeat constructor; lia |].
      intros j o' t' _. by rewrite Children_get_new.
    + rewrite Children_get_set_ne by (done || split; lia). by rewrite Children_get_new.
Qed.

Lemma root_hash_binding_witness :
  (forall k, is_path k -> tget (w_bound None) k = tget (w_bound (Some (Persisted 1))) k) \/
  collision (preimages [] (w_bound None)) (preimages [] (w_bound (Some (Persisted 1)))).
Proof.
  apply (root_hash_binding (w_bound None) (w_bound (Some (Persisted 1)))
    (proj1 (w_bound_wf None)) (proj1 (w_bound_wf _)) (proj2 (w_bound_wf None)) (proj2 (w_bound_wf _))).
  vm_compute. reflexivity.
Defined.

End BindingWitness.
