(* ===== verification/Placed.v ===== *)
(** * Stored hashes stay right

    Hashing a proposal trusts the hashes that stored children carry.  This file shows that
    the operations on a trie keep them right: a child that is not read for an update keeps
    its place below the root, and with it its hash.  Together with what the operations do
    to the contents, this gives the root hash of a proposal from its contents. *)

From S2P Require Import Prelude Primitives NodePath Node Codec NodeCodec Trie NodeStore Merkle MerkleSpec MerkleInsert MerkleRemove TrieCanonical MerkleCorrect.
From S2P Require Import Rlp RlpSplice Hashing HashSpec HashHelper Linear.

(** Running an operation backwards. *)
Lemma store_bind_inv {St A B} (m : store_op St A) (f : A -> store_op St B) ns b ns' :
  (m ≫= f) ns = (Ok b, ns') -> exists a ns1, m ns = (Ok a, ns1) /\ f a ns1 = (Ok b, ns').
Proof. unfold mbind, store_bind. destruct (m ns) as [[a|e] ns1]; [|done]. intros Hf. by exists a, ns1. Qed.

Lemma Children_count_mono {A B} (c : Children (option A)) (d : Children (option B)) :
  Children_wf c -> Children_wf d -> (forall i, is_nibble i -> is_Some (Children_get c i) -> is_Some (Children_get d i)) ->
  (Children_count c <= Children_count d)%nat.
Proof.
  intros Hc Hd Hsub. unfold Children_count. rewrite <- (length_fmap fst (Children_iter_present c)), <- (length_fmap fst (Children_iter_present d)).
  apply submseteq_length, NoDup_submseteq; [by apply Children_iter_present_NoDup|]. intros i Hi.
  apply list_elem_of_fmap in Hi as ([j x] & -> & Hin). apply Children_iter_present_elem in Hin as [Hj Hx]; [|done].
  destruct (Hsub j Hj) as [y Hy]; [by eexists|]. apply list_elem_of_fmap. exists (j, y). split; [done|]. by apply Children_iter_present_elem.
Qed.

Section Placed.
Context {St : Type} `{ReadableStorage St} `{VarInt} `{Digests} `{!ReadableStorageLaws St}.
Variables (alg : NodeHashAlgorithm) (rd : LinearAddress -> option Node).

(** [placed pfx n]: at the place [pfx] every stored child of [n] carries the hash of its subtrie. *)
Inductive placed : Path -> Node -> Prop :=
| placed_leaf pfx l : is_path (leaf_partial_path l) -> placed pfx (Leaf l)
| placed_branch pfx pp v c :
    is_path pp -> Children_wf c ->
    (forall i x, is_nibble i -> Children_get c i = Some x -> placed_child (pfx ++ pp) (may_be_stale alg (pfx ++ pp) c) i x) ->
    placed pfx (Branch (mkBranch pp v c))
with placed_child : Path -> bool -> PathComponent -> Child -> Prop :=
| placed_unhashed full s i n : placed (full ++ [i]) n -> placed_child full s i (ChildNode n)
| placed_hashed full s i c h n t :
    Child_hash c = Some h -> child_node rd c = Some n -> committed alg rd (full ++ [i]) n t -> trie_wf t ->
    (s = false -> h = kid_hash alg full false i t) -> placed_child full s i c.

Lemma placed_child_mono full s s' i c : placed_child full s i c -> (s' = false -> s = false) -> placed_child full s' i c.
Proof. intros Hp Hs. inversion Hp; subst; [by constructor | econstructor; eauto]. Qed.

(** Fewer hashed children: a hash that may be out of date may still be. *)
Lemma may_be_stale_mono full c c' :
  Children_wf c -> Children_wf c' ->
  (forall i, is_nibble i -> is_Some (Children_get c' i ≫= Child_hash) -> is_Some (Children_get c i ≫= Child_hash)) ->
  may_be_stale alg full c' = false -> may_be_stale alg full c = false.
Proof.
  intros Hc Hc' Hsub. unfold may_be_stale. destruct (is_ethereum alg && _); [|done]. cbn [andb]. rewrite !Nat.leb_gt.
  assert (Children_count (hashed_slots c') <= Children_count (hashed_slots c))%nat; [|lia].
  unfold hashed_slots. apply Children_count_mono; [by apply Children_map_wf..|]. intros i Hi. rewrite !Children_map_get by done. by apply Hsub.
Qed.

(** *** Reading a child for an update *)

Lemma committed_placed pfx n t : committed alg rd pfx n t -> trie_wf t -> placed pfx n.
Proof.
  intros Hc. destruct Hc as [pfx l|pfx pp v c ks Hc Hk Hs]; intros Hwf; pose proof (trie_wf_inv _ _ _ Hwf) as (Hp & _ & Hkids); [by constructor|].
  constructor; [done | done|]. intros i x Hi Hx. pose proof (Hs i Hi) as Hsi. rewrite Hx in Hsi.
  inversion Hsi as [|? ? ? ? m t Hh Hm Hcom Heq1 Heq2 Heq3 Heq4]; subst. eapply placed_hashed; [exact Hh | exact Hm | exact Hcom | by eapply (Hkids i) |].
  intros Hst. f_equal. unfold lone. unfold may_be_stale in Hst. destruct (is_ethereum alg && _); [|done]. cbn [andb] in *.
  apply Nat.leb_gt in Hst. apply Nat.eqb_neq.
  assert (Children_count (hashed_slots c) <= Children_count ks)%nat; [|lia]. unfold hashed_slots. apply Children_count_mono; [by apply Children_map_wf | done|].
  intros j Hj. rewrite Children_map_get by done. intros [h Hjh]. eapply committed_slot_iff; [by apply Hs|].
  destruct (Children_get c j); [by eexists | done].
Qed.

Lemma read_placed full s i c ns n ns' :
  holds alg rd ns -> placed_child full s i c -> merkle_read_for_update alg c ns = (Ok n, ns') -> placed (full ++ [i]) n /\ holds alg rd ns'.
Proof.
  intros Hh Hp Hr. assert (Hc : exists m, child_node rd c = Some m /\ placed (full ++ [i]) m).
  { inversion Hp as [? ? ? m Hm|? ? ? ? h m t Hhash Hm Hcom Hwf Hst]; subst; [by exists m|]. exists m. split; [done|]. by eapply committed_placed. }
  destruct Hc as (m & Hm & Hpm). destruct (merkle_read_for_update_ok alg rd ns c m Hh Hm) as (ns1 & Hrun & Hrec).
  rewrite Hrun in Hr. injection Hr as -> ->. split; [done | by eapply recorded_holds].
Qed.

(** *** Changing a node *)

Lemma placed_path pfx n : placed pfx n -> is_path (partial_path n).
Proof. by destruct 1. Qed.

(** New children, of which those that are hashed were there before. *)
Lemma placed_children pfx pp v c v' c' :
  placed pfx (Branch (mkBranch pp v c)) -> Children_wf c' ->
  (forall i x, is_nibble i -> Children_get c' i = Some x -> Children_get c i = Some x \/ exists n, x = ChildNode n /\ placed ((pfx ++ pp) ++ [i]) n) ->
  placed pfx (Branch (mkBranch pp v' c')).
Proof.
  intros Hp Hw Hc. inversion Hp as [|? ? ? ? Hpp Hcw Hs]; subst. constructor; [done | done|]. intros i x Hi Hx.
  destruct (Hc i x Hi Hx) as [Hold|(n & -> & Hn)]; [|by constructor]. eapply placed_child_mono; [by apply Hs|].
  apply may_be_stale_mono; [done | done|]. intros j Hj [h Hh]. destruct (Children_get c' j) as [y|] eqn:Ey; [|done].
  destruct (Hc j y Hj Ey) as [Hyo|(n & -> & _)]; [rewrite Hyo; by eexists | done].
Qed.

Lemma placed_set pfx pp v v' c i o :
  placed pfx (Branch (mkBranch pp v c)) -> is_nibble i -> (forall n, o = Some n -> placed ((pfx ++ pp) ++ [i]) n) ->
  placed pfx (Branch (mkBranch pp v' (Children_set c i (ChildNode <$> o)))).
Proof.
  intros Hp Hi Ho. assert (Hw : Children_wf c) by (by inversion Hp). eapply placed_children; [exact Hp | by apply Children_set_wf|].
  intros j x Hj. destruct (decide (i = j)) as [<-|Hne]; [|rewrite Children_get_set_ne by done; by left].
  rewrite Children_get_set by done. destruct o as [n|]; [|done]. intros [= <-]. right. exists n. split; [done | by apply Ho].
Qed.

Lemma placed_new pfx pp v : is_path pp -> placed pfx (Branch (mkBranch pp v Children_new)).
Proof. intros Hp. constructor; [done | apply Children_new_wf|]. intros i x _. by rewrite Children_get_new. Qed.

(** A node that moves down keeps its place: what its parent takes of the path, its own path loses. *)
Lemma placed_move pfx n pfx' p : placed pfx n -> is_path p -> pfx' ++ p = pfx ++ partial_path n -> placed pfx' (update_partial_path n p).
Proof.
  intros Hp Hpath Heq. destruct Hp as [pfx l Hl|pfx pp v c Hpp Hw Hs]; cbn in *; [by constructor|].
  constructor; [done | done|]. rewrite Heq. exact Hs.
Qed.

Lemma placed_value pfx n v : placed pfx n -> placed pfx (update_value n v).
Proof. intros Hp. destruct Hp as [pfx l Hl|pfx pp w c Hpp Hw Hs]; cbn; by constructor. Qed.

(** *** The operations *)

Lemma overlap_paths key pp :
  is_path key -> is_path pp ->
  let po := PrefixOverlap_from key pp in
  is_path (po_shared po) /\ is_path (po_unique_a po) /\ is_path (po_unique_b po) /\ key = po_shared po ++ po_unique_a po /\ pp = po_shared po ++ po_unique_b po.
Proof.
  intros Hk Hp po. destruct (PrefixOverlap_spec key pp) as (Ha & Hb & _). fold po in Ha, Hb. unfold is_path in *.
  pose proof Hk as Hk'. pose proof Hp as Hp'. rewrite Ha in Hk'. rewrite Hb in Hp'. apply Forall_app in Hk' as [? ?], Hp' as [? ?]. done.
Qed.

Lemma expect_nibble x i (ns ns' : NodeStore St) : lift (expect (PathComponent_try_new x)) ns = (Ok i, ns') -> i = x /\ ns' = ns.
Proof. unfold lift, PathComponent_try_new. destruct (x <? 16); cbn; [by intros [= <- <-] | done]. Qed.

Ltac overlap key n Hk Hp :=
  let Hs := fresh "Hs" in let Ha := fresh "Ha" in let Hb := fresh "Hb" in let Hkey := fresh "Hkey" in let Hpp := fresh "Hpp" in
  destruct (overlap_paths key (partial_path n) Hk (placed_path _ _ Hp)) as (Hs & Ha & Hb & Hkey & Hpp);
  destruct (PrefixOverlap_from key (partial_path n)) as [sh ua ub]; cbn [po_shared po_unique_a po_unique_b] in *.

(** The node below a new branch. *)
Lemma placed_below pfx n sh i ub :
  placed pfx n -> partial_path n = sh ++ i :: ub -> is_path ub -> placed ((pfx ++ sh) ++ [i]) (update_partial_path n ub).
Proof. intros Hp Hpp Hu. apply placed_move with pfx; [done | done|]. rewrite Hpp. by rewrite <- !app_assoc. Qed.

(** What [insert_helper] and [insert_branch_helper] have in common. *)
Lemma placed_split pfx n sh i ub v :
  placed pfx n -> partial_path n = sh ++ i :: ub -> is_path sh -> is_path (i :: ub) ->
  placed pfx (Branch (mkBranch sh v (Children_set Children_new i (Some (ChildNode (update_partial_path n ub)))))).
Proof.
  intros Hp Hpp Hs [Hi Hu]%Forall_cons. apply (placed_set _ _ None _ Children_new i (Some _)); [by apply placed_new | done|]. intros m [= <-].
  by apply placed_below.
Qed.

Lemma placed_fork pfx n sh i ub j (leaf : Node) v :
  placed pfx n -> partial_path n = sh ++ i :: ub -> is_path sh -> is_path (i :: ub) -> is_nibble j -> placed ((pfx ++ sh) ++ [j]) leaf ->
  placed pfx (Branch (mkBranch sh v (Children_set (Children_set Children_new i (Some (ChildNode (update_partial_path n ub)))) j (Some (ChildNode leaf))))).
Proof.
  intros Hp Hpp Hs Hu Hj Hl. apply (placed_set _ _ v _ _ j (Some leaf)); [by apply placed_split | done|]. by intros m [= <-].
Qed.

Lemma placed_leaf_branch pfx l : placed pfx (Leaf l) -> placed pfx (Branch (mkBranch (leaf_partial_path l) (Some (leaf_value l)) Children_new)).
Proof. intros Hp. apply placed_new. by inversion Hp. Qed.

(** A step down: the child is taken out, changed, and put back. *)
Lemma placed_descend pfx bp bv bc i c ns child ns1 :
  holds alg rd ns -> placed pfx (Branch (mkBranch bp bv bc)) -> is_nibble i -> Children_get bc i = Some c -> merkle_read_for_update alg c ns = (Ok child, ns1) ->
  placed ((pfx ++ bp) ++ [i]) child /\ holds alg rd ns1.
Proof. intros Hh Hp Hi Hc Hr. inversion Hp as [|? ? ? ? _ _ Hs]; subst. by eapply read_placed; [done | by apply Hs | done]. Qed.

Lemma insert_helper_placed fuel n key value ns n' ns' pfx :
  holds alg rd ns -> placed pfx n -> is_path key -> insert_helper alg fuel n key value ns = (Ok n', ns') -> placed pfx n' /\ holds alg rd ns'.
Proof.
  revert n key ns n' ns' pfx. induction fuel as [|fuel IH]; intros n key ns n' ns' pfx Hh Hp Hk; [done|]. cbn [insert_helper]. cbv zeta.
  overlap key n Hk Hp. destruct ua as [|a ua], ub as [|b ub].
  - intros [= <- <-]. split; [by apply placed_value | done].
  - intros (i & ns1 & [-> ->]%expect_nibble & [= <- <-])%store_bind_inv. split; [by apply placed_split | done].
  - intros (i & ns1 & [-> ->]%expect_nibble & Hrun)%store_bind_inv. apply Forall_cons in Ha as [Ha Hua].
    destruct n as [[bp bv bc]|l]; cbn [partial_path branch_partial_path] in Hpp.
    + unfold Children_take in Hrun. destruct (Children_get bc a) as [c|] eqn:Ec.
      * apply store_bind_inv in Hrun as (child & ns2 & Hr & (child' & ns3 & Hi & [= <- <-])%store_bind_inv).
        destruct (placed_descend _ _ _ _ _ _ _ _ _ Hh Hp Ha Ec Hr) as [Hc Hh2]. destruct (IH _ _ _ _ _ _ Hh2 Hc Hua Hi) as [Hc' Hh3]. split; [|done].
        rewrite Children_set_set. apply (placed_set _ _ bv _ _ a (Some child')); [done | done|]. by intros m [= <-].
      * injection Hrun as <- <-. split; [|done]. rewrite Children_set_set. apply (placed_set _ _ bv _ _ a (Some _)); [done | done|]. intros m [= <-]. by constructor.
    + injection Hrun as <- <-. split; [|done]. apply (placed_set _ _ (Some (leaf_value l)) _ _ a (Some _)); [by apply placed_leaf_branch | done|]. intros m [= <-]. by constructor.
  - intros (i & ns1 & [-> ->]%expect_nibble & (j & ns2 & [-> ->]%expect_nibble & [= <- <-])%store_bind_inv)%store_bind_inv.
    apply Forall_cons in Ha as [Ha Hua]. split; [|done]. apply placed_fork; try done. by constructor.
Qed.

Lemma insert_branch_helper_placed fuel n key ns n' ns' pfx :
  holds alg rd ns -> placed pfx n -> is_path key -> insert_branch_helper alg fuel n key ns = (Ok n', ns') -> placed pfx n' /\ holds alg rd ns'.
Proof.
  revert n key ns n' ns' pfx. induction fuel as [|fuel IH]; intros n key ns n' ns' pfx Hh Hp Hk; [done|]. cbn [insert_branch_helper]. cbv zeta.
  overlap key n Hk Hp. destruct ua as [|a ua], ub as [|b ub].
  - destruct n as [b|l]; intros [= <- <-]; (split; [|done]); [done | by apply placed_leaf_branch].
  - intros (i & ns1 & [-> ->]%expect_nibble & [= <- <-])%store_bind_inv. split; [by apply placed_split | done].
  - intros (i & ns1 & [-> ->]%expect_nibble & Hrun)%store_bind_inv. apply Forall_cons in Ha as [Ha Hua].
    destruct n as [[bp bv bc]|l]; cbn [partial_path branch_partial_path] in Hpp.
    + unfold Children_take in Hrun. destruct (Children_get bc a) as [c|] eqn:Ec.
      * apply store_bind_inv in Hrun as (child & ns2 & Hr & (child' & ns3 & Hi & [= <- <-])%store_bind_inv).
        destruct (placed_descend _ _ _ _ _ _ _ _ _ Hh Hp Ha Ec Hr) as [Hc Hh2]. destruct (IH _ _ _ _ _ _ Hh2 Hc Hua Hi) as [Hc' Hh3]. split; [|done].
        rewrite Children_set_set. apply (placed_set _ _ bv _ _ a (Some child')); [done | done|]. by intros m [= <-].
      * injection Hrun as <- <-. split; [|done]. rewrite Children_set_set. apply (placed_set _ _ bv _ _ a (Some _)); [done | done|]. intros m [= <-]. by apply placed_new.
    + injection Hrun as <- <-. split; [|done]. apply (placed_set _ _ (Some (leaf_value l)) _ _ a (Some _)); [by apply placed_leaf_branch | done|].
      intros m [= <-]. by apply placed_new.
  - intros (i & ns1 & [-> ->]%expect_nibble & (j & ns2 & [-> ->]%expect_nibble & [= <- <-])%store_bind_inv)%store_bind_inv.
    apply Forall_cons in Ha as [Ha Hua]. split; [|done]. apply placed_fork; try done. by apply placed_new.
Qed.

Definition oplaced (pfx : Path) (o : option Node) : Prop := forall n, o = Some n -> placed pfx n.

Lemma flatten_branch_placed pp v c ns o ns' pfx :
  holds alg rd ns -> placed pfx (Branch (mkBranch pp v c)) -> flatten_branch alg (mkBranch pp v c) ns = (Ok o, ns') -> oplaced pfx o /\ holds alg rd ns'.
Proof.
  intros Hh Hp. assert (Hpc : is_path pp /\ Children_wf c) by (by inversion Hp). destruct Hpc as [Hpath Hw]. unfold flatten_branch, oplaced.
  destruct (Children_iter_present c) as [|[i x] others] eqn:El.
  - destruct v; intros [= <- <-]; (split; [|done]); intros n; [intros [= <-]; by constructor | done].
  - destruct v as [v|]; [intros [= <- <-]; split; [by intros n [= <-] | done]|]. destruct others; [|intros [= <- <-]; split; [by intros n [= <-] | done]].
    intros (child & ns1 & Hr & [= <- <-])%store_bind_inv.
    assert (Hx : is_nibble i /\ Children_get c i = Some x) by (apply Children_iter_present_elem; [done | rewrite El; by left]). destruct Hx as [Hi Hx].
    destruct (placed_descend _ _ _ _ _ _ _ _ _ Hh Hp Hi Hx Hr) as [Hc Hh1]. split; [|done]. intros n [= <-].
    apply placed_move with ((pfx ++ pp) ++ [i]); [done | | by rewrite <- !app_assoc].
    apply Forall_app. split; [done|]. constructor; [done | by eapply placed_path].
Qed.

Lemma remove_helper_placed fuel n key ns o w ns' pfx :
  holds alg rd ns -> placed pfx n -> is_path key -> remove_helper alg fuel n key ns = (Ok (o, w), ns') -> oplaced pfx o /\ holds alg rd ns'.
Proof.
  revert n key ns o w ns' pfx. induction fuel as [|fuel IH]; intros n key ns o w ns' pfx Hh Hp Hk; [done|]. cbn [remove_helper]. cbv zeta.
  overlap key n Hk Hp. destruct ub as [|b ub]; [|destruct ua; intros [= <- <- <-]; split; [by intros m [= <-] | done | by intros m [= <-] | done]].
  destruct ua as [|a ua].
  - destruct n as [[bp [bv|] bc]|l].
    + intros (o' & ns1 & Hf & [= <- <- <-])%store_bind_inv. eapply flatten_branch_placed; [done | | exact Hf].
      eapply placed_children; [exact Hp | by inversion Hp|]. by left.
    + intros [= <- <- <-]. split; [by intros m [= <-] | done].
    + intros [= <- <- <-]. by split.
  - intros (i & ns1 & [-> ->]%expect_nibble & Hrun)%store_bind_inv. apply Forall_cons in Ha as [Ha Hua].
    destruct n as [[bp bv bc]|l]; [|injection Hrun as <- <- <-; split; [by intros m [= <-] | done]].
    unfold Children_take in Hrun. destruct (Children_get bc a) as [c|] eqn:Ec.
    + apply store_bind_inv in Hrun as (child & ns2 & Hr & ([child' w'] & ns3 & Hi & (o' & ns4 & Hf & [= <- <- <-])%store_bind_inv)%store_bind_inv).
      destruct (placed_descend _ _ _ _ _ _ _ _ _ Hh Hp Ha Ec Hr) as [Hc Hh2]. destruct (IH _ _ _ _ _ _ _ Hh2 Hc Hua Hi) as [Hc' Hh3].
      eapply flatten_branch_placed; [done | | exact Hf]. rewrite Children_set_set. by apply (placed_set _ _ bv).
    + injection Hrun as <- <- <-. split; [|done]. intros m [= <-]. by apply (placed_set _ _ bv _ _ a None).
Qed.

(** Deleting reads the nodes and records them, and changes nothing else. *)
Lemma delete_children_holds fuel b d ns d' ns' pfx :
  holds alg rd ns -> placed pfx (Branch b) -> delete_children alg fuel b d ns = (Ok d', ns') -> holds alg rd ns'.
Proof.
  revert b d ns d' ns' pfx. induction fuel as [|fuel IH]; intros [pp v c] d ns d' ns' pfx Hh Hp; [done|]. cbn [delete_children branch_value branch_children].
  generalize (match v with Some _ => saturating_add_u64 d 1 | None => d end). clear d. intros d.
  assert (Hw : Children_wf c) by (by inversion Hp).
  assert (Hall : Forall (fun q => is_nibble q.1 /\ Children_get c q.1 = Some q.2) (Children_iter_present c)).
  { apply Forall_forall. intros [i x] Hin. by apply Children_iter_present_elem in Hin. }
  revert d ns Hh. induction Hall as [|[i x] l [Hi Hx] Hall IHl]; intros d ns Hh; cbn [delete_loop]; [by intros [= _ <-]|]. cbn [fst snd] in *.
  intros (child & ns1 & Hr & (d1 & ns2 & Hd & Hloop)%store_bind_inv)%store_bind_inv.
  destruct (placed_descend _ _ _ _ _ _ _ _ _ Hh Hp Hi Hx Hr) as [Hc Hh1]. eapply IHl; [|exact Hloop].
  destruct child as [b|l']; [by eapply IH | by injection Hd as _ <-].
Qed.

Lemma remove_prefix_helper_placed fuel n key d ns o d' ns' pfx :
  holds alg rd ns -> placed pfx n -> is_path key -> remove_prefix_helper alg fuel n key d ns = (Ok (o, d'), ns') -> oplaced pfx o /\ holds alg rd ns'.
Proof.
  revert n key d ns o d' ns' pfx. induction fuel as [|fuel IH]; intros n key d ns o d' ns' pfx Hh Hp Hk; [done|]. cbn [remove_prefix_helper]. cbv zeta.
  overlap key n Hk Hp. destruct ua as [|a ua].
  - destruct n as [b|l]; [|by intros [= <- <- <-]]. intros (d1 & ns1 & Hd & [= <- <- <-])%store_bind_inv. split; [done|]. by eapply delete_children_holds.
  - destruct ub as [|b ub]; [|intros [= <- <- <-]; split; [by intros m [= <-] | done]].
    intros (i & ns1 & [-> ->]%expect_nibble & Hrun)%store_bind_inv. apply Forall_cons in Ha as [Ha Hua].
    destruct n as [[bp bv bc]|l]; [|injection Hrun as <- <- <-; split; [by intros m [= <-] | done]].
    unfold Children_take in Hrun. destruct (Children_get bc a) as [c|] eqn:Ec.
    + apply store_bind_inv in Hrun as (child & ns2 & Hr & ([child' w'] & ns3 & Hi & (o' & ns4 & Hf & [= <- <- <-])%store_bind_inv)%store_bind_inv).
      destruct (placed_descend _ _ _ _ _ _ _ _ _ Hh Hp Ha Ec Hr) as [Hc Hh2]. destruct (IH _ _ _ _ _ _ _ _ Hh2 Hc Hua Hi) as [Hc' Hh3].
      eapply flatten_branch_placed; [done | | exact Hf]. rewrite Children_set_set. by apply (placed_set _ _ bv).
    + injection Hrun as <- <- <-. split; [|done]. intros m [= <-]. by apply (placed_set _ _ bv _ _ a None).
Qed.

(** *** From places to what hashing needs *)

Lemma committed_rnode pfx n t : committed alg rd pfx n t -> rnode rd n t.
Proof.
  revert pfx n. induction t as [pp v ks IH] using trie_ind'. intros pfx n Hc. inversion Hc as [? l|? ? ? c ? Hw Hk Hs]; subst; [constructor|].
  constructor; [done | done|]. intros i Hi. specialize (Hs i Hi). inversion Hs as [|? ? ? x m t Hh Hm Hcom Hx Hkid]; [constructor|].
  apply rslot_some with m; [done|]. eapply (IH (Z.to_nat i)); [by apply Children_get_Some; symmetry | exact Hcom].
Qed.

(** A node holds one trie. *)
Lemma rnode_unique n t u : rnode rd n t -> rnode rd n u -> t = u.
Proof.
  revert n u. induction t as [pp v ks IH] using trie_ind'. intros n u Ht Hu. destruct n as [[bp bv bc]|l].
  - inversion Ht as [|? ? ? ? Hw Hk Hs]; subst. inversion Hu as [|? ? ? us Hw' Hk' Hs']; subst. f_equal. apply Children_ext; [done | done|].
    intros i Hi. specialize (Hs i Hi). specialize (Hs' i Hi). destruct (Children_get bc i) as [x|].
    + inversion Hs as [|? m t Hm Hmt Hx Hk0]. inversion Hs' as [|? m' u Hm' Hmu Hx' Hk0']. rewrite Hm in Hm'. injection Hm' as <-.
      f_equal. f_equal. by eapply (IH (Z.to_nat i)); [apply Children_get_Some; symmetry | exact Hmt | exact Hmu].
    + inversion Hs as [Hx Hk0|]. by inversion Hs'.
  - inversion Ht; subst. by inversion Hu.
Qed.

Lemma placed_dirty pfx n t : rnode rd n t -> placed pfx n -> dirty alg rd pfx n t.
Proof.
  revert pfx n. induction t as [pp v ks IH] using trie_ind'. intros pfx n Ht Hp. destruct n as [[bp bv bc]|l]; inversion Ht as [|? ? ? ? Hw Hk Hs]; subst; [|constructor].
  inversion Hp as [|? ? ? ? Hpath _ Hc]; subst. constructor; [done | done|]. intros i Hi. specialize (Hs i Hi).
  inversion Hs as [Hn Hk0|x m t Hm Hmt Hx Hk0]; [constructor|]. pose proof (Hc i x Hi (eq_sym Hx)) as Hpc.
  inversion Hpc as [? ? ? m' Hm'|? ? ? ? h m' t' Hh Hm' Hcom Hwf Hst]; subst.
  - cbn in Hm. injection Hm as ->. apply dirty_unhashed. eapply (IH (Z.to_nat i)); [by apply Children_get_Some; symmetry | done | done].
  - rewrite Hm in Hm'. injection Hm' as <-. rewrite (rnode_unique _ _ _ Hmt (committed_rnode _ _ _ Hcom)). by eapply dirty_hashed.
Qed.

(** *** Sequences of operations *)

Lemma insert_from_iter_placed it value ns x ns' pfx :
  holds alg rd ns -> oplaced pfx (ns_root ns) -> is_path (from_nibbles_iterator it) -> insert_from_iter alg it value ns = (Ok x, ns') -> oplaced pfx (ns_root ns').
Proof.
  intros Hh Hp Hpk Hrun. unfold insert_from_iter in Hrun. destruct (ns_root ns) as [root|]; [|injection Hrun as _ <-; intros n [= <-]; by constructor].
  destruct (insert_helper _ _ _ _ _ _) as [[n'|] ns2] eqn:E; [|done]. injection Hrun as _ <-. intros n [= <-].
  by eapply insert_helper_placed; [| | |exact E]; [done | by apply Hp | done].
Qed.

Lemma remove_from_iter_placed it ns x ns' pfx :
  holds alg rd ns -> oplaced pfx (ns_root ns) -> is_path (from_nibbles_iterator it) -> remove_from_iter alg it ns = (Ok x, ns') -> oplaced pfx (ns_root ns').
Proof.
  intros Hh Hp Hpk Hrun. unfold remove_from_iter in Hrun. destruct (ns_root ns) as [root|] eqn:Hr; [|injection Hrun as _ <-; by rewrite Hr].
  destruct (remove_helper _ _ _ _ _) as [[[n' w]|] ns2] eqn:E; [|done]. injection Hrun as _ <-.
  by eapply remove_helper_placed; [| | |exact E]; [done | by apply Hp | done].
Qed.

Lemma remove_prefix_from_iter_placed fuel it ns x ns' pfx :
  holds alg rd ns -> oplaced pfx (ns_root ns) -> is_path (from_nibbles_iterator it) -> remove_prefix_from_iter alg fuel it ns = (Ok x, ns') ->
  oplaced pfx (ns_root ns').
Proof.
  intros Hh Hp Hpk Hrun. unfold remove_prefix_from_iter in Hrun. destruct (ns_root ns) as [root|] eqn:Hr; [|injection Hrun as _ <-; by rewrite Hr].
  destruct (remove_prefix_helper _ _ _ _ _ _) as [[[n' w]|] ns2] eqn:E; [|done]. injection Hrun as _ <-.
  by eapply remove_prefix_helper_placed; [| | |exact E]; [done | by apply Hp | done].
Qed.

Lemma run_op_placed fuel o ns t r ns' :
  op_ok fuel o -> represents alg rd ns t -> oplaced [] (ns_root ns) -> run_op alg fuel o ns = (Ok r, ns') -> oplaced [] (ns_root ns').
Proof.
  intros Ho Hrep Hp. pose proof Hrep as (Hh & _).
  assert (Hpath : forall key, is_bytes key -> is_path (from_nibbles_iterator (NibblesIterator_new key))).
  { intros key Hk. rewrite from_nibbles_iterator_new by done. by apply is_path_nibbles_of. }
  destruct o as [key|key value|key|prefix]; cbn [run_op op_ok] in *;
    intros (x & ns1 & Hrun & [= _ <-])%store_bind_inv.
  - destruct (get_value_recorded alg rd key ns t Ho Hrep) as (ns2 & Hg & _ & Hroot & _). rewrite Hrun in Hg. injection Hg as _ ->. by rewrite Hroot.
  - destruct Ho as [Hk _]. by eapply insert_from_iter_placed; [| | |exact Hrun]; auto.
  - by eapply remove_from_iter_placed; [| | |exact Hrun]; auto.
  - by eapply remove_prefix_from_iter_placed; [| | |exact Hrun]; auto.
Qed.

Lemma run_ops_placed fuel ops ns t m r ns' :
  Forall (op_ok fuel) ops -> represents alg rd ns t -> ocanonical t -> contents fuel t m -> oplaced [] (ns_root ns) ->
  run_ops alg fuel ops ns = (Ok r, ns') -> oplaced [] (ns_root ns').
Proof.
  intros Hops. revert ns t m r ns'. induction Hops as [|o ops Ho Hops IH]; intros ns t m r ns' Hr Hc Hm Hp; cbn [run_ops]; [by intros [= _ <-]|].
  intros (x & ns1 & Hx & (rs & ns2 & Hrs & [= _ <-])%store_bind_inv)%store_bind_inv. pose proof (run_op_placed _ _ _ _ _ _ Ho Hr Hp Hx) as Hp1.
  destruct (run_op_refines alg rd fuel o ns t m Ho Hr Hc Hm) as (ns1' & t1 & hs & Hrun & (Hr1 & _ & _ & _ & Hc1) & Hm1).
  rewrite Hx in Hrun. injection Hrun as -> <-. eapply IH; [exact Hr1 | by apply Hc1 | exact Hm1 | done | exact Hrs].
Qed.

End Placed.

(** ** The root hash of a proposal *)

(** A canonical trie of byte keys. *)
Lemma canonical_byte_trie t pfx :
  trie_wf t -> canonical t ->
  (forall k x, is_path k -> tget t k = Some x -> value_ok x /\ Nat.even (length (pfx ++ k)) = true /\ len (pfx ++ k) <= ISIZE_MAX) -> byte_trie pfx t.
Proof.
  revert pfx. induction t as [pp v ks IH] using trie_ind'. intros pfx Hwf Hc Hk. pose proof (trie_wf_inv _ _ _ Hwf) as (Hp & Hw & Hkids). constructor.
  - destruct (canonical_nonempty _ Hwf Hc) as (k & x & Hkp & Hx). cbn [tpath] in Hx. destruct (Hk (pp ++ k) x) as (_ & _ & Hl); [by apply is_path_app | done|].
    rewrite !length_app in Hl. rewrite length_app. lia.
  - intros x ->. destruct (Hk pp x) as (Hv & He & _); [done | |done]. by rewrite tget_value, decide_True.
  - intros i o t Hi Ht. apply (IH (Z.to_nat i) o t); [by apply Children_get_Some | by eapply Hkids | |].
    { apply canonical_iff in Hc as [_ Hcan]; [|done]. by eapply Hcan. }
    intros k x Hkp Hx. destruct (Hk (pp ++ i :: k) x) as (Hv & He & Hl); [apply is_path_app; split; [done | by apply is_path_cons] | by rewrite tget_app, Ht|].
    rewrite <- !app_assoc. done.
Qed.

Lemma contents_byte_trie fuel t m :
  trie_wf t -> canonical t -> contents fuel (Some t) m -> (forall k x, m !! k = Some x -> value_ok x) -> Z.of_nat fuel <= ISIZE_MAX -> byte_trie [] t.
Proof.
  intros Hwf Hc [Hget Hkeys Hb] Hv Hf. apply canonical_byte_trie; [done | done|]. intros k x Hk Hx. destruct (Hkeys k x Hk Hx) as (b & Hbb & ->).
  specialize (Hget b Hbb). cbn in Hget. rewrite Hx in Hget. symmetry in Hget. destruct (Hb b x Hget) as [_ Hl]. cbn [app]. rewrite length_nibbles_of.
  split_and!; [by eapply Hv | by rewrite Nat.even_mul | lia].
Qed.

Section RootHashOfProposal.
Context {St : Type} `{ReadableStorageLaws St} `{VarInt} `{DigestsLaws}.
Variables (alg : NodeHashAlgorithm) (rd : LinearAddress -> option Node).

(** C38: the root hash of a proposal is the hash of its map.  From a hashed revision, whatever part of it is in memory
    and whatever part on disk, after any sequence of lookups, insertions, removals and prefix removals the trie
    is either empty, and then so is the map; or hashing it succeeds, and the hash is that of every canonical trie with
    the contents of the map: the operations keep the hashes of the nodes that they do not touch right, and neither the
    history nor the distribution of the nodes over memory and disk enters the hash.  Both hashing schemes. *)
Theorem proposal_root_hash fuel ops ns t m :
  Forall (op_ok fuel) ops -> represents alg rd ns t -> ocanonical t -> contents fuel t m ->
  (forall n u, ns_root ns = Some n -> t = Some u -> committed alg rd [] n u) ->
  (forall k x, (spec_ops ops m).2 !! k = Some x -> value_ok x) -> Z.of_nat fuel <= ISIZE_MAX ->
  exists rs ns', run_ops alg fuel ops ns = (Ok rs, ns') /\
    match ns_root ns' with
    | None => (spec_ops ops m).2 = ∅
    | Some n => exists n' h ns2, hash_helper alg n [] ns' = (Ok (n', h), ns2) /\
        forall g w, trie_wf w -> canonical w -> contents g (Some w) (spec_ops ops m).2 -> h = troot_hash alg w
    end.
Proof.
  intros Hops Hr Hc Hm Hcom Hv Hf. pose proof Hr as (_ & Hroot & Hwf).
  destruct (run_ops_refines alg rd fuel ops ns t m Hops Hr Hc Hm) as (ns' & t' & hs & Hrun & ((Hh' & Hroot' & Hwf') & _ & _ & _ & Hc') & Hm').
  assert (Hp : oplaced alg rd [] (ns_root ns')).
  { eapply run_ops_placed; [exact Hops | exact Hr | exact Hc | exact Hm | | exact Hrun]. intros n Hn. rewrite Hn in Hroot. destruct t as [u|]; [|done].
    eapply committed_placed; [by apply Hcom | by apply Hwf]. }
  specialize (Hc' Hc). eexists _, ns'. split; [exact Hrun|]. destruct (ns_root ns') as [n|], t' as [u|]; try done; cbn in Hroot'.
  - specialize (Hwf' u eq_refl). specialize (Hc' u eq_refl). pose proof (contents_byte_trie fuel u _ Hwf' Hc' Hm' Hv Hf) as Hbt.
    destruct (hash_helper_inner_ok alg rd u n [] [] None ns' (mode_same _ _ _ eq_refl) ltac:(constructor) (placed_dirty _ _ _ _ _ Hroot' (Hp n eq_refl)) Hwf' Hc' Hbt Hh')
      as (n' & u' & ns2 & Hhash & _). eexists _, _, ns2. split; [exact Hhash|]. intros g w Hw Hcw Hmw.
    assert (Hsim : tsim u w).
    { apply canonical_unique; try done. intros k Hk. exact (contents_unique fuel g (Some u) (Some w) _ Hm' Hmw k Hk). }
    unfold troot_hash. rewrite (tsim_tpath _ _ Hsim). by apply tsim_thash.
  - destruct Hm' as [Hget _ Hb]. apply map_eq. intros b. rewrite lookup_empty. destruct (_ !! b) as [x|] eqn:E; [|done].
    destruct (Hb b x E) as [Hbb _]. rewrite <- Hget in E by done. done.
Qed.

End RootHashOfProposal.

(** *** Witness: a branch in memory with a leaf on disk, after an insertion *)
Section PlacedWitness.
Import Leb128 FirstBytes.

Definition w_right_child : Child := AddressWithHash 1 (thash MerkleDB [6] [1] (T [1] (Some [7]) Children_new)).

Definition w_right_root : Node := Branch (mkBranch [] (Some [9]) (Children_set Children_new 6 (Some w_right_child))).

Definition w_right_store : NodeStore MemStore := mkNodeStore (Some w_right_root) (Propose []) w_storage true.

Lemma w_right_represents : represents MerkleDB w_rd w_right_store (Some w_trie).
Proof.
  split_and!; [split; [by intros a n | done] | | by destruct w_represents as (_ & _ & Hwf)].
  simpl. apply rnode_set; [split; lia | apply rnode_childless|]. apply (rslot_some w_rd w_right_child w_leaf); [by vm_compute | apply rnode_leaf].
Qed.

Lemma w_right_committed : committed MerkleDB w_rd [] w_right_root w_trie.
Proof.
  constructor; [apply Children_set_wf, Children_new_wf.. |]. intros i Hi. destruct (decide (i = 6)) as [->|Hne].
  - rewrite !Children_get_set by (apply Children_new_wf || done). apply (committed_some _ _ _ _ _ w_right_child w_leaf); [done | by vm_compute |].
    apply (committed_leaf _ _ _ (mkLeaf [1] [7])).
  - rewrite !Children_get_set_ne, !Children_get_new by (done || split; lia). constructor.
Qed.

Lemma proposal_root_hash_witness :
  exists rs ns' n n' h ns2, run_ops MerkleDB 9 [OpInsert [98] [8]; OpRemove [98]] w_right_store = (Ok rs, ns') /\ ns_root ns' = Some n /\
    hash_helper MerkleDB n [] ns' = (Ok (n', h), ns2) /\ h = troot_hash MerkleDB w_trie.
Proof.
  assert (Hm : (spec_ops [OpInsert [98] [8]; OpRemove [98]] w_map).2 = w_map) by (apply (bool_decide_unpack _); vm_compute; exact I).
  destruct (proposal_root_hash MerkleDB w_rd 9 [OpInsert [98] [8]; OpRemove [98]] w_right_store (Some w_trie) w_map) as (rs & ns' & Hrun & Hres);
    [repeat (constructor; simpl; try lia; try done) | exact w_right_represents | exact w_canonical | exact w_contents | | | by vm_compute |].
  - intros n u [= <-] [= <-]. exact w_right_committed.
  - rewrite Hm. intros k x. unfold w_map. rewrite lookup_insert_Some, lookup_insert_Some, lookup_empty.
    intros [[_ <-]|[_ [[_ <-]|[_ [=]]]]]; (split; [repeat constructor; unfold u8, U8_MAX; lia | vm_compute; discriminate]).
  - assert (Hr : is_Some (ns_root ns')).
    { apply (f_equal (fun p => ns_root p.2)) in Hrun. cbn [snd] in Hrun. rewrite <- Hrun. vm_compute. by eexists. }
    destruct (ns_root ns') as [n|] eqn:En; [|by destruct Hr]. destruct Hres as (n' & h & ns2 & Hh & Hall).
    exists rs, ns', n, n', h, ns2. split_and!; [done | done | done|]. rewrite Hm in Hall. apply (Hall 9%nat w_trie); [| |exact w_contents].
    + by destruct w_represents as (_ & _ & Hwf); apply Hwf.
    + by apply w_canonical.
Defined.

End PlacedWitness.
