(* ===== verification/Iter.v ===== *)
(** * Trie iterators

    [firewood/src/iter.rs]: the iterator over the nodes of a trie in key order, the
    iterator over its key-value pairs and its restriction to a range, and the
    iterator over the nodes on the path to a key. *)

From S2P Require Import Prelude Primitives NodePath Node Codec NodeCodec Trie NodeStore.
From S2P Require Import Rlp Hashing.

(** ** Helpers *)

(** [compare_partial_path]. *)
Fixpoint compare_partial_path (partial_path : Path) (unmatched_key_nibbles : NibblesIterator)
  : comparison * NibblesIterator :=
  match partial_path with
  | [] => (Eq, unmatched_key_nibbles)
  | next_partial_path_nibble :: partial_path =>
      match NibblesIterator_next unmatched_key_nibbles with
      | (None, unmatched_key_nibbles) => (Gt, unmatched_key_nibbles)
      | (Some next_key_nibble, unmatched_key_nibbles) =>
          match next_partial_path_nibble ?= next_key_nibble with
          | Lt => (Lt, unmatched_key_nibbles)
          | Gt => (Gt, unmatched_key_nibbles)
          | Eq => compare_partial_path partial_path unmatched_key_nibbles
          end
      end
  end.

(** [as_enumerated_children_iter]: the iterator as the list of what it yields. *)
Definition as_enumerated_children_iter (branch : BranchNode) : list (PathComponent * Child) :=
  Children_iter_present (branch_children branch).

(** [u8::checked_add]. *)
Definition checked_add_u8 (a b : Z) : option Z := if a + b <=? U8_MAX then Some (a + b) else None.

(** [key_from_nibble_iter]: a trailing odd nibble is dropped; [checked_shl 4] drops
    the high bits of its argument. *)
Fixpoint key_from_nibble_iter (nibbles : Path) : result failure bytes :=
  match nibbles with
  | hi :: lo :: nibbles =>
      byte ← expect (checked_add_u8 (Z.shiftl hi 4 mod 256) lo);
      data ← key_from_nibble_iter nibbles;
      mret (byte :: data)
  | _ => mret []
  end.

(** ** State *)

Inductive IterationNode : Type :=
| Unvisited (key : Path) (node : Node)
| Visited (key : Path) (children_iter : list (PathComponent * Child)).

(** [NodeIterState]; the top of the stack is the head of the list. *)
Inductive NodeIterState : Type :=
| StartFromKey (key : bytes)
| Iterating (iter_stack : list IterationNode).

Section Iter.
Context {St : Type} `{ReadableStorage St} `{VarInt} `{Digests}.
Variable alg : NodeHashAlgorithm.

(** [TrieReader::must_recompute_storage_hash], a property of the database version. *)
Variable must_recompute : bool.

(** The node of a child: read, shared or cloned. *)
Definition read_child_node (child : Child) : store_op St Node :=
  match child with
  | AddressWithHash addr _ => read_node alg addr
  | ChildNode node => mret node
  | ChildMaybePersisted maybe_persisted _ => as_shared_node alg maybe_persisted
  end.

(** ** [MerkleNodeIter] *)

(** The loop of [get_iterator_intial_state].  Each round consumes a nibble of the
    key, so one more round than nibbles is enough. *)
Fixpoint initial_state_loop (fuel : nat) (node : Node) (matched_key_nibbles : Path)
  (unmatched_key_nibbles : NibblesIterator) (iter_stack : list IterationNode) : store_op St NodeIterState :=
  match fuel with
  | O => lift (Err Diverges)
  | S fuel =>
      let '(comparison, unmatched_key_nibbles) :=
        compare_partial_path (partial_path node) unmatched_key_nibbles in
      let matched_key_nibbles := matched_key_nibbles ++ partial_path node in
      match comparison with
      | Lt => mret (Iterating iter_stack)
      | Gt => mret (Iterating (Unvisited matched_key_nibbles node :: iter_stack))
      | Eq =>
          let '(next, unmatched_key_nibbles) := NibblesIterator_next unmatched_key_nibbles in
          match node with
          | Leaf _ =>
              match next with
              | None => mret (Iterating (Unvisited matched_key_nibbles node :: iter_stack))
              | Some _ => mret (Iterating iter_stack)
              end
          | Branch branch =>
              match next with
              | None => mret (Iterating (Unvisited matched_key_nibbles node :: iter_stack))
              | Some next =>
                  next_unmatched_key_nibble ← lift (expect (PathComponent_try_new next));
                  let iter_stack :=
                    Visited matched_key_nibbles
                      (filter (fun p => next_unmatched_key_nibble < p.1) (as_enumerated_children_iter branch))
                    :: iter_stack in
                  match Children_get (branch_children branch) next_unmatched_key_nibble with
                  | None => mret (Iterating iter_stack)
                  | Some child =>
                      node ← read_child_node child;
                      initial_state_loop fuel node (matched_key_nibbles ++ [next_unmatched_key_nibble])
                        unmatched_key_nibbles iter_stack
                  end
              end
          end
      end
  end.

(** [get_iterator_intial_state]. *)
Definition get_iterator_intial_state (key : bytes) : store_op St NodeIterState := fun ns =>
  match ns_root ns with
  | None => (Ok (Iterating []), ns)
  | Some root =>
      initial_state_loop (S (BYTES_PER_NIBBLE * length key)) root [] (NibblesIterator_new key) [] ns
  end.

(** What [next] returns: nothing, an item or an error, with the states after it. *)
Definition iter_result (A : Type) : Type := option (result failure A) * NodeIterState * NodeStore St.

(** Returning an unvisited node: its children are visited next. *)
Definition visit (key : Path) (node : Node) (iter_stack : list IterationNode) (ns : NodeStore St)
  : iter_result (bytes * Node) :=
  let iter_stack :=
    match node with
    | Leaf _ => iter_stack
    | Branch branch => Visited key (as_enumerated_children_iter branch) :: iter_stack
    end in
  (Some (key ← key_from_nibble_iter key; mret (key, node)), Iterating iter_stack, ns).

(** The [while let] loop over the stack.  A child that was just pushed is popped by
    the next round of the outer loop, which returns it. *)
Fixpoint stack_loop (iter_stack : list IterationNode) (ns : NodeStore St) : iter_result (bytes * Node) :=
  match iter_stack with
  | [] => (None, Iterating [], ns)
  | Unvisited key node :: iter_stack => visit key node iter_stack ns
  | Visited key [] :: iter_stack => stack_loop iter_stack ns
  | Visited key ((pos, child) :: children_iter) :: iter_stack =>
      match read_child_node child ns with
      | (Err e, ns) => (Some (Err e), Iterating iter_stack, ns)
      | (Ok child, ns) =>
          let child_key := key ++ [pos] ++ partial_path child in
          visit child_key child (Visited key children_iter :: iter_stack) ns
      end
  end.

(** [MerkleNodeIter::next]. *)
Definition MerkleNodeIter_next (state : NodeIterState) (ns : NodeStore St) : iter_result (bytes * Node) :=
  match state with
  | StartFromKey key =>
      match get_iterator_intial_state key ns with
      | (Err e, ns) => (Some (Err e), StartFromKey key, ns)
      | (Ok (Iterating iter_stack), ns) => stack_loop iter_stack ns
      | (Ok (StartFromKey key), ns) => (Some (Err Diverges), StartFromKey key, ns)
      end
  | Iterating iter_stack => stack_loop iter_stack ns
  end.

(** ** [MerkleKeyValueIter] *)

(** [fix_account_value]. *)
Definition fix_account_value (key value : bytes) (child_hashes : Children (option HashType)) : bytes * Value :=
  match is_ethereum alg && must_recompute && Nat.eqb (length key) 32,
        fix_account_storage_root_value value child_hashes with
  | true, Some fixed => (key, fixed)
  | _, _ => (key, value)
  end.

(** The closure of [MerkleKeyValueIter::next]: the pair of a node, if it has one. *)
Definition node_pair (key : bytes) (node : Node) : option (bytes * Value) :=
  match node with
  | Branch branch =>
      value ← branch_value branch;
      let child_hashes :=
        if must_recompute && Nat.eqb (length key) 32 then children_hashes branch else Children_new in
      Some (fix_account_value key value child_hashes)
  | Leaf leaf => Some (fix_account_value key (leaf_value leaf) Children_new)
  end.

(** [MerkleKeyValueIter::next]: [find_map] skips the nodes without a value.  [fuel]
    bounds the number of nodes it looks at. *)
Fixpoint MerkleKeyValueIter_next (fuel : nat) (state : NodeIterState) (ns : NodeStore St)
  : iter_result (bytes * Value) :=
  match fuel with
  | O => (Some (Err Diverges), state, ns)
  | S fuel =>
      match MerkleNodeIter_next state ns with
      | (None, state, ns) => (None, state, ns)
      | (Some (Err e), state, ns) => (Some (Err e), state, ns)
      | (Some (Ok (key, node)), state, ns) =>
          match node_pair key node with
          | Some kv => (Some (Ok kv), state, ns)
          | None => MerkleKeyValueIter_next fuel state ns
          end
      end
  end.

(** [MerkleKeyValueIter::from_key]. *)
Definition from_key (key : bytes) : NodeIterState := StartFromKey key.

(** ** [FilteredKeyRangeIter] *)

Inductive FilteredKeyRangeIter : Type :=
| Unfiltered (iter : NodeIterState)
| Filtered (iter : NodeIterState) (last_key : bytes)
| FilterExhausted.

Definition FilteredKeyRangeIter_new (iter : NodeIterState) (last_key : option bytes) : FilteredKeyRangeIter :=
  match last_key with
  | Some k => Filtered iter k
  | None => Unfiltered iter
  end.

(** [MerkleKeyValueIter::stop_after_key]. *)
Definition stop_after_key (iter : NodeIterState) (last_key : option bytes) : FilteredKeyRangeIter :=
  FilteredKeyRangeIter_new iter last_key.

(** The lexicographic order of byte slices. *)
Fixpoint slice_le (a b : list Z) : bool :=
  match a, b with
  | [], _ => true
  | _ :: _, [] => false
  | x :: a, y :: b => match x ?= y with Lt => true | Eq => slice_le a b | Gt => false end
  end.

(** [FilteredKeyRangeIter::next]. *)
Definition FilteredKeyRangeIter_next (fuel : nat) (self : FilteredKeyRangeIter) (ns : NodeStore St)
  : option (result failure (bytes * Value)) * FilteredKeyRangeIter * NodeStore St :=
  match self with
  | Unfiltered iter =>
      let '(item, iter, ns) := MerkleKeyValueIter_next fuel iter ns in (item, Unfiltered iter, ns)
  | Filtered iter last_key =>
      match MerkleKeyValueIter_next fuel iter ns with
      | (Some (Ok (key, value)), iter, ns) =>
          if slice_le key last_key then (Some (Ok (key, value)), Filtered iter last_key, ns)
          else (None, FilterExhausted, ns)
      | (Some (Err e), iter, ns) => (Some (Err e), Filtered iter last_key, ns)
      | (None, _, ns) => (None, FilterExhausted, ns)
      end
  | FilterExhausted => (None, FilterExhausted, ns)
  end.

(** [Iterator::collect] into a [Result]: the items up to the end, or the first
    error.  [n] bounds the number of items. *)
Fixpoint collect_range (n fuel : nat) (self : FilteredKeyRangeIter) (ns : NodeStore St)
  : result failure (list (bytes * Value)) * NodeStore St :=
  match n with
  | O => (Err Diverges, ns)
  | S n =>
      match FilteredKeyRangeIter_next fuel self ns with
      | (None, _, ns) => (Ok [], ns)
      | (Some (Err e), _, ns) => (Err e, ns)
      | (Some (Ok kv), self, ns) =>
          match collect_range n fuel self ns with
          | (Ok l, ns) => (Ok (kv :: l), ns)
          | (Err e, ns) => (Err e, ns)
          end
      end
  end.

(** ** [PathIterator] *)

Record PathIterItem : Type := mkPathIterItem {
  key_nibbles : Path;
  pi_node : Node;
  pi_next_nibble : option PathComponent;
  pi_must_recompute_storage_hash : bool;
}.

Inductive PathIteratorState : Type :=
| PathIterating (matched_key : Path) (unmatched_key : NibblesIterator) (node : Node)
| PathExhausted.

(** [PathIterator::new]. *)
Definition PathIterator_new (key : bytes) (ns : NodeStore St) : PathIteratorState :=
  match ns_root ns with
  | None => PathExhausted
  | Some root => PathIterating [] (NibblesIterator_new key) root
  end.

(** [PathBuf::path_from_unpacked_bytes]: every byte has to be a nibble. *)
Definition path_from_unpacked_bytes (p : Path) : option Path := mapM PathComponent_try_new p.

(** [PathIterator::next].  A panic leaves the state as it was; a read error leaves
    the matched part of the key extended, as the code does. *)
Definition PathIterator_next (state : PathIteratorState) (ns : NodeStore St)
  : option (result failure PathIterItem) * PathIteratorState * NodeStore St :=
  match state with
  | PathExhausted => (None, PathExhausted, ns)
  | PathIterating matched_key unmatched_key node =>
      let '(comparison, unmatched_key) := compare_partial_path (partial_path node) unmatched_key in
      let matched_key := matched_key ++ partial_path node in
      match path_from_unpacked_bytes matched_key with
      | None => (Some (Err Panic), state, ns)
      | Some node_key =>
          let last := (Some (Ok (mkPathIterItem node_key node None must_recompute)), PathExhausted, ns) in
          match comparison, node with
          | Eq, Branch branch =>
              let '(next, unmatched_key) := NibblesIterator_next unmatched_key in
              match next with
              | None => last
              | Some next =>
                  match PathComponent_try_new next with
                  | None => (Some (Err Panic), state, ns)
                  | Some next_unmatched_key_nibble =>
                      match Children_get (branch_children branch) next_unmatched_key_nibble with
                      | None => last
                      | Some child =>
                          match read_child_node child ns with
                          | (Err e, ns) => (Some (Err e), PathIterating matched_key unmatched_key node, ns)
                          | (Ok child, ns) =>
                              (Some (Ok (mkPathIterItem node_key node (Some next_unmatched_key_nibble) must_recompute)),
                               PathIterating (matched_key ++ [next_unmatched_key_nibble]) unmatched_key child, ns)
                          end
                      end
                  end
              end
          | _, _ => last
          end
      end
  end.

End Iter.

(** ** Paths of nibbles *)

Lemma path_from_unpacked_bytes_path p : is_path p -> path_from_unpacked_bytes p = Some p.
Proof.
  intros Hp. unfold path_from_unpacked_bytes. apply mapM_Some_2. induction Hp as [|x p Hx Hp IH]; constructor; [|done].
  by apply PathComponent_try_new_nibble.
Qed.

Lemma path_from_unpacked_bytes_Some b p : is_bytes b -> path_from_unpacked_bytes b = Some p -> p = b /\ is_path p.
Proof.
  intros Hb E%mapM_Some_1. induction E as [|x y b p Hxy E IH]; [split; [done | constructor]|].
  apply Forall_cons in Hb as [Hx Hb]. destruct (IH Hb) as [-> Hp].
  assert (y = x /\ is_nibble x) as [-> Hn].
  { unfold PathComponent_try_new in Hxy. unfold is_nibble, u8 in *. zcase; simplify_eq. split; [done | lia]. }
  split; [done | by constructor].
Qed.
