(* ===== verification/IterSpec.v ===== *)
(** * Iteration in key order

    The iterators of [Iter] against the trie: the node iterator yields the nodes of
    the trie in ascending order of their keys, starting at the first key that is not
    below the start key; the pairs in a range are those of the map. *)

From stdpp Require Import sorting.
From S2P Require Import Prelude Primitives NodePath Node Codec NodeCodec Trie NodeStore Linear.
From S2P Require Import Merkle MerkleSpec MerkleInsert MerkleRemove TrieCanonical MerkleCorrect Rlp Hashing HashSpec Iter.

(** ** The lexicographic order *)

Lemma slice_le_refl a : slice_le a a = true.
Proof. induction a as [|x a IH]; simpl; [done|]. by rewrite Z.compare_refl. Qed.

Lemma slice_le_app m a b : slice_le (m ++ a) (m ++ b) = slice_le a b.
Proof. induction m as [|x m IH]; simpl; [done|]. by rewrite Z.compare_refl. Qed.

Lemma slice_le_prefix a s : slice_le a (a ++ s) = true.
Proof. rewrite <- (app_nil_r a) at 1. by rewrite slice_le_app. Qed.

Lemma slice_le_trans a b c : slice_le a b = true -> slice_le b c = true -> slice_le a c = true.
Proof.
  revert b c. induction a as [|x a IH]; intros [|y b] [|z c]; simpl; try done.
  destruct (Z.compare_spec x y), (Z.compare_spec y z), (Z.compare_spec x z); try done; try lia; subst; eauto.
Qed.

Lemma slice_le_total a b : slice_le a b = false -> slice_le b a = true.
Proof.
  revert b. induction a as [|x a IH]; intros [|y b]; simpl; try done.
  rewrite (Z.compare_antisym x y). destruct (x ?= y); simpl; auto.
Qed.

Lemma slice_le_antisym a b : slice_le a b = true -> slice_le b a = true -> a = b.
Proof.
  revert b. induction a as [|x a IH]; intros [|y b]; simpl; try done.
  rewrite (Z.compare_antisym x y). destruct (Z.compare_spec x y); simpl; try done. subst. intros. f_equal. auto.
Qed.

(** Strictly below. *)
Definition slice_lt (a b : list Z) : Prop := slice_le b a = false.

Lemma slice_lt_irrefl a : ~ slice_lt a a.
Proof. unfold slice_lt. by rewrite slice_le_refl. Qed.

Lemma slice_lt_trans a b c : slice_lt a b -> slice_lt b c -> slice_lt a c.
Proof.
  unfold slice_lt. intros Hab Hbc. destruct (slice_le c a) eqn:Hca; [|done].
  by rewrite (slice_le_trans b c a (slice_le_total _ _ Hbc) Hca) in Hab.
Qed.

Lemma slice_lt_le_trans a b c : slice_lt a b -> slice_le b c = true -> slice_lt a c.
Proof.
  unfold slice_lt. intros Hab Hbc. destruct (slice_le c a) eqn:Hca; [|done].
  by rewrite (slice_le_trans b c a Hbc Hca) in Hab.
Qed.

(** Splitting a key into nibbles keeps the order. *)
Lemma slice_le_nibbles a b :
  is_bytes a -> is_bytes b -> slice_le (nibbles_of a) (nibbles_of b) = slice_le a b.
Proof.
  intros Ha. revert b. induction Ha as [|x a Hx _ IH]; intros b Hb; [by destruct b|].
  destruct Hb as [|y b Hy Hb]; [done|]. cbn [nibbles_of slice_le]. unfold u8, U8_MAX in Hx, Hy.
  assert (Hd : x / 16 < y / 16 \/ x / 16 = y / 16 \/ y / 16 < x / 16) by lia.
  destruct (Z.compare_spec (x / 16) (y / 16)), (Z.compare_spec (x mod 16) (y mod 16)), (Z.compare_spec x y);
    try done; try (exfalso; dlia); subst; apply IH; done.
Qed.

(** ** The nodes of a trie in order *)

Fixpoint preorder (full : Path) (t : trie) : list (Path * trie) :=
  let '(T _ _ ks) := t in
  (full, t) ::
  (fix go (ks : list (option kid)) (i : Z) : list (Path * trie) :=
     match ks with
     | [] => []
     | None :: ks => go ks (i + 1)
     | Some (_, t) :: ks => preorder (full ++ i :: tpath t) t ++ go ks (i + 1)
     end) ks 0.

Definition kids_preorder (full : Path) (l : list (PathComponent * kid)) : list (Path * trie) :=
  flat_map (fun p => preorder (full ++ p.1 :: tpath p.2.2) p.2.2) l.

Lemma preorder_T full pp v ks :
  Children_wf ks ->
  preorder full (T pp v ks) = (full, T pp v ks) :: kids_preorder full (Children_iter_present ks).
Proof.
  intros Hk. cbn [preorder]. f_equal. unfold Children_iter_present, Children_iter.
  change PathComponent_ALL with (seqZ 0 (Z.of_nat MAX_CHILDREN)). rewrite <- Hk. clear Hk. generalize 0 as b.
  induction ks as [|o ks IH]; intros b; [done|]. cbn [length]. rewrite Nat2Z.inj_succ, seqZ_cons, Z.pred_succ by lia.
  destruct o as [[h t]|]; csimpl; rewrite IH; done.
Qed.

(** The trie without its first node. *)
Lemma preorder_cons full t : exists l, preorder full t = (full, t) :: l.
Proof. destruct t. eexists. reflexivity. Qed.

Lemma elem_of_kids_preorder full l x :
  x ∈ kids_preorder full l <-> exists i h t, (i, (h, t)) ∈ l /\ x ∈ preorder (full ++ i :: tpath t) t.
Proof.
  unfold kids_preorder. rewrite list_elem_of_In, in_flat_map. split.
  - intros ([i [h t]] & Hin & Hx). exists i, h, t. by rewrite !list_elem_of_In.
  - intros (i & h & t & Hin & Hx). exists (i, (h, t)). by rewrite <- !list_elem_of_In.
Qed.

(** Paths extend the path of the root of the subtrie. *)
Lemma preorder_prefix t full q u :
  trie_wf t -> (q, u) ∈ preorder full t -> exists s, q = full ++ s /\ (s = [] -> u = t) /\ trie_wf u.
Proof.
  revert full. induction t as [pp v ks IH] using trie_ind'. intros full Hwf Hin.
  pose proof (trie_wf_inv _ _ _ Hwf) as (_ & Hk & Hkids). rewrite preorder_T in Hin by done.
  apply elem_of_cons in Hin as [[= -> ->]|Hin]; [exists []; by rewrite app_nil_r|].
  apply elem_of_kids_preorder in Hin as (i & h & t & Hin & Hx).
  apply Children_iter_present_elem in Hin as [Hi Hg]; [|done].
  destruct (IH (Z.to_nat i) h t ltac:(by apply Children_get_Some) _ (Hkids _ _ _ Hg) Hx) as (s & -> & _ & Hwu).
  exists (i :: tpath t ++ s). by rewrite <- app_assoc.
Qed.

(** The present slots ascend. *)
Lemma present_sorted {A} (c : Children (option A)) :
  StronglySorted (fun a b => a < b) (Children_iter_present c).*1.
Proof.
  pose proof (Children_iter_present_sublist c) as Hs. generalize dependent ((Children_iter_present c).*1).
  intros l Hs. assert (Hall : StronglySorted (fun a b => a < b) PathComponent_ALL) by (repeat constructor; lia).
  revert Hall. induction Hs as [|x l k Hs IH|x l k Hs IH]; intros Hall; [constructor | |]; inversion Hall as [|? ? Hk Hx]; subst.
  - constructor; [auto|]. apply Forall_forall. intros y Hy. rewrite Forall_forall in Hx. apply Hx.
    by eapply elem_of_sublist.
  - auto.
Qed.

(** ** Order of the nodes *)

Lemma kids_preorder_sorted full (l : list (PathComponent * kid)) :
  StronglySorted (fun a b => a < b) l.*1 -> (forall i h t, (i, (h, t)) ∈ l -> trie_wf t) ->
  (forall i h t, (i, (h, t)) ∈ l -> StronglySorted slice_lt (preorder (full ++ i :: tpath t) t).*1) ->
  StronglySorted slice_lt (kids_preorder full l).*1.
Proof.
  induction l as [|[i [h t]] l IH]; intros Hs Hwf Ht; [constructor|]. simpl in *. inversion Hs as [|? ? Hs' Hi]; subst.
  rewrite fmap_app. apply StronglySorted_app_2.
  - intros a b Ha Hb. apply list_elem_of_fmap in Ha as ([qa ua] & -> & Ha), Hb as ([qb ub] & -> & Hb).
    apply preorder_prefix in Ha as (s & -> & _); [|by eapply Hwf; constructor].
    apply elem_of_kids_preorder in Hb as (j & g & u & Hju & Hb).
    apply preorder_prefix in Hb as (s' & -> & _); [|by eapply Hwf; constructor].
    assert (i < j). { rewrite Forall_forall in Hi. apply Hi. apply list_elem_of_fmap. by exists (j, (g, u)). }
    unfold slice_lt. simpl. rewrite <- !app_assoc, slice_le_app. simpl. destruct (Z.compare_spec j i); lia || done.
  - apply Ht with (h := h). by constructor.
  - apply IH; [done | |]; intros; [eapply Hwf | eapply Ht]; by constructor.
Qed.

Lemma preorder_sorted t full : trie_wf t -> StronglySorted slice_lt (preorder full t).*1.
Proof.
  revert full. induction t as [pp v ks IH] using trie_ind'. intros full Hwf.
  pose proof (trie_wf_inv _ _ _ Hwf) as (_ & Hk & Hkids). rewrite preorder_T by done. simpl. constructor.
  - apply kids_preorder_sorted; [apply present_sorted | |].
    + intros i h t Hin. apply Children_iter_present_elem in Hin as [Hi Hg]; [|done]. by eapply Hkids.
    + intros i h t Hin. apply Children_iter_present_elem in Hin as [Hi Hg]; [|done].
      apply (IH (Z.to_nat i) h t); [by apply Children_get_Some | by eapply Hkids].
  - apply Forall_forall. intros q Hq. apply list_elem_of_fmap in Hq as ([q' u] & -> & Hq).
    apply elem_of_kids_preorder in Hq as (i & h & t & Hin & Hq).
    apply Children_iter_present_elem in Hin as [Hi Hg]; [|done].
    apply preorder_prefix in Hq as (s & -> & _); [|by eapply Hkids]. unfold slice_lt. simpl.
    rewrite <- (app_nil_r full) at 2. rewrite <- app_assoc, slice_le_app. done.
Qed.

(** ** Helpers *)

Lemma key_from_nibble_iter_ok p : is_path p -> key_from_nibble_iter p = Ok (bytes_iter p).
Proof.
  remember (length p) as n eqn:Hn. revert p Hn. induction n as [n IH] using lt_wf_ind. intros p -> Hp.
  destruct p as [|hi [|lo p]]; [done..|]. apply Forall_cons in Hp as [Hh [Hl Hp]%Forall_cons]. unfold is_nibble in *.
  cbn [key_from_nibble_iter bytes_iter]. rewrite Z.shiftl_mul_pow2 by lia. change (2 ^ 4) with 16.
  rewrite Z.mod_small by lia. unfold checked_add_u8, U8_MAX.
  destruct (Z.leb_spec (hi * 16 + lo) 255); [|lia]. unfold mbind, result_bind, expect, ok_or.
  by rewrite (IH (length p)) by (simpl; lia || done).
Qed.

(** Comparing the path of a node with what is left of the key. *)
Lemma compare_partial_path_spec p it :
  NibblesIterator_wf it ->
  let '(ord, it') := compare_partial_path p it in
  match ord with
  | Eq => NibblesIterator_wf it' /\ remaining it = p ++ remaining it'
  | Lt => strip_prefix p (remaining it) = None /\ forall s, slice_le (remaining it) (p ++ s) = false
  | Gt => strip_prefix p (remaining it) = None /\ forall s, slice_le (remaining it) (p ++ s) = true
  end.
Proof.
  revert it. induction p as [|x p IH]; intros it Hwf; simpl; [done|].
  pose proof (next_remaining it Hwf) as Hn. destruct (NibblesIterator_next it) as [[y|] it'].
  - destruct Hn as (Hwf' & Hh & Ht). destruct (remaining it) as [|z r]; [done|]. simpl in Hh, Ht. injection Hh as <-.
    destruct (Z.compare_spec x y) as [->|Hlt|Hgt].
    + specialize (IH it' Hwf'). rewrite <- Ht. destruct (compare_partial_path p it') as [[| |] it2]; simpl.
      * destruct IH as [Hw He]. split; [done|]. by f_equal.
      * rewrite Z.eqb_refl. destruct IH as [He Hs]. split; [done|]. intros s. by rewrite Z.compare_refl.
      * rewrite Z.eqb_refl. destruct IH as [He Hs]. split; [done|]. intros s. by rewrite Z.compare_refl.
    + destruct (Z.eqb_spec x y); [lia|]. split; [done|]. intros s. simpl. destruct (Z.compare_spec y x); lia || done.
    + destruct (Z.eqb_spec x y); [lia|]. split; [done|]. intros s. simpl. destruct (Z.compare_spec y x); lia || done.
  - destruct Hn as (_ & Hh & _). destruct (remaining it); [|done]. split; [done|]. intros s. done.
Qed.

(** Present slots of related arrays correspond. *)
Lemma present_Forall2_gen {A B} (R : option A -> option B -> Prop) (P : A -> B -> Prop) l c d :
  (forall a b, R a b -> match a, b with Some x, Some y => P x y | None, None => True | _, _ => False end) ->
  Forall2 R c d ->
  Forall2 (fun p q => p.1 = q.1 /\ P p.2 q.2)
    (omap (fun p : Z * option A => match p with (i, Some x) => Some (i, x) | _ => None end) (zip l c))
    (omap (fun p : Z * option B => match p with (i, Some x) => Some (i, x) | _ => None end) (zip l d)).
Proof.
  intros HR Hcd. revert l. induction Hcd as [|a b c d Hab _ IH]; intros [|i l]; csimpl; try constructor.
  apply HR in Hab. destruct a, b; csimpl; try done. constructor; [done | apply IH].
Qed.

Lemma slots_Forall2 {A B} (R : option A -> option B -> Prop) (c : Children (option A)) (d : Children (option B)) :
  Children_wf c -> Children_wf d -> (forall i, is_nibble i -> R (Children_get c i) (Children_get d i)) -> Forall2 R c d.
Proof.
  intros Hc Hd HR. apply Forall2_same_length_lookup_2; [by rewrite Hc, Hd|]. intros i x y Hx Hy.
  assert (Hi : is_nibble (Z.of_nat i)).
  { apply lookup_lt_Some in Hx. unfold Children_wf, MAX_CHILDREN, PathComponent_LEN in Hc. unfold is_nibble. lia. }
  specialize (HR _ Hi). unfold Children_get in HR. by rewrite Nat2Z.id, Hx, Hy in HR.
Qed.

(** ** Sorted lists *)

Lemma StronglySorted_omap {A B} (R : A -> A -> Prop) (S : B -> B -> Prop) (f : A -> option B) (l : list A) :
  StronglySorted R l -> (forall x y a b, x ∈ l -> y ∈ l -> R x y -> f x = Some a -> f y = Some b -> S a b) ->
  StronglySorted S (omap f l).
Proof.
  intros Hs. induction Hs as [|x l Hs IH Hx]; intros Hf; [constructor|]. csimpl.
  assert (IH' : StronglySorted S (omap f l)).
  { apply IH. intros y z a b Hy Hz. apply Hf; by constructor. }
  destruct (f x) as [a|] eqn:Ha; [|done]. constructor; [done|]. apply Forall_forall. intros b Hb.
  apply list_elem_of_omap in Hb as (y & Hy & Hfy). rewrite Forall_forall in Hx.
  apply (Hf x y); [constructor | by constructor | by apply Hx | done | done].
Qed.

Lemma StronglySorted_fst {A B} (R : A -> A -> Prop) (l : list (A * B)) :
  StronglySorted R l.*1 -> StronglySorted (fun p q => R p.1 q.1) l.
Proof.
  induction l as [|x l IH]; simpl; [constructor|]. inversion 1 as [|? ? Hs Hx]; subst. constructor; [auto|].
  apply Forall_forall. intros y Hy. rewrite Forall_forall in Hx. apply Hx, list_elem_of_fmap. by exists y.
Qed.

Lemma StronglySorted_filter {A} (R : A -> A -> Prop) (P : A -> Prop) `{!forall x, Decision (P x)} (l : list A) :
  StronglySorted R l -> StronglySorted R (filter P l).
Proof.
  induction 1 as [|x l Hs IH Hx]; [constructor|]. rewrite filter_cons. destruct (decide (P x)); [|done].
  constructor; [done|]. apply Forall_forall. intros y Hy. apply list_elem_of_filter in Hy as [_ Hy].
  rewrite Forall_forall in Hx. by apply Hx.
Qed.

(** The elements up to the first that fails [p]. *)
Fixpoint take_while {A} (p : A -> bool) (l : list A) : list A :=
  match l with
  | [] => []
  | x :: l => if p x then x :: take_while p l else []
  end.

(** In a sorted list, what is below a bound comes first. *)
Lemma take_while_length {A} (p : A -> bool) (l : list A) : (length (take_while p l) <= length l)%nat.
Proof. induction l as [|x l IH]; simpl; [lia|]. destruct (p x); simpl; lia. Qed.

Lemma elem_of_take_while_sorted {A} (R : A -> A -> Prop) (p : A -> bool) (l : list A) x :
  StronglySorted R l -> (forall a b, R a b -> p b = true -> p a = true) ->
  x ∈ take_while p l <-> x ∈ l /\ p x = true.
Proof.
  intros Hs Hp. induction Hs as [|y l Hs IH Hy]; simpl.
  - split; [by intros ?%elem_of_nil | by intros [?%elem_of_nil _]].
  - rewrite Forall_forall in Hy. destruct (p y) eqn:Hpy.
    + rewrite !elem_of_cons, IH. split; [intros [->|[? ?]]; auto | intros [[->|?] ?]; auto].
    + split; [by intros ?%elem_of_nil|]. intros [[->|Hin]%elem_of_cons Hx]; [congruence|].
      rewrite (Hp y x) in Hpy; [done | by apply Hy | done].
Qed.

Lemma StronglySorted_take_while {A} (R : A -> A -> Prop) (p : A -> bool) (l : list A) :
  StronglySorted R l -> StronglySorted R (take_while p l).
Proof.
  induction 1 as [|y l Hs IH Hy]; simpl; [constructor|]. destruct (p y); [|constructor]. constructor; [done|].
  clear IH. apply Forall_forall. intros x Hx. rewrite Forall_forall in Hy. apply Hy. clear -Hx.
  induction l as [|z l IHl]; [by apply elem_of_nil in Hx|]. simpl in Hx. destruct (p z); [|by apply elem_of_nil in Hx].
  apply elem_of_cons in Hx as [->|Hx]; constructor. auto.
Qed.

Section IterSpec.
Context {St : Type} `{ReadableStorageLaws St} `{VarInt} `{Digests}.
Variable alg : NodeHashAlgorithm.
Variable rd : LinearAddress -> option Node.

(** ** The stack *)

(** A child of the iterator against a child of the trie. *)
Definition rchild (p : PathComponent * Child) (q : PathComponent * kid) : Prop :=
  p.1 = q.1 /\ is_nibble p.1 /\ trie_wf q.2.2 /\ exists n, child_node rd p.2 = Some n /\ rnode rd n q.2.2.

(** What the stack will still yield. *)
Inductive rstack : list IterationNode -> list (Path * trie) -> Prop :=
| rstack_nil : rstack [] []
| rstack_unvisited key n t st l :
    rnode rd n t -> is_path key -> trie_wf t -> rstack st l -> rstack (Unvisited key n :: st) (preorder key t ++ l)
| rstack_visited key cs kids st l :
    Forall2 rchild cs kids -> is_path key -> rstack st l ->
    rstack (Visited key cs :: st) (kids_preorder key kids ++ l).

Lemma rnode_children pp v c ks :
  rnode rd (Branch (mkBranch pp v c)) (T pp v ks) -> trie_wf (T pp v ks) ->
  Forall2 rchild (Children_iter_present c) (Children_iter_present ks).
Proof.
  intros Hr Hwf. inversion Hr as [|? ? ? ? Hc Hk Hs]; subst.
  pose proof (trie_wf_inv _ _ _ Hwf) as (_ & _ & Hkids).
  assert (Hf2 : Forall2 (fun p q => p.1 = q.1 /\ exists n, child_node rd p.2 = Some n /\ rnode rd n q.2.2)
    (Children_iter_present c) (Children_iter_present ks)).
  { apply (present_Forall2_gen (rslot rd) (fun x k => exists n, child_node rd x = Some n /\ rnode rd n k.2)).
    - intros a b Hab. destruct Hab; [done|]. eauto.
    - by apply slots_Forall2. }
  apply Forall2_same_length_lookup_2; [by eapply Forall2_length|]. intros idx [i x] [j [g t]] Hp Hq.
  destruct (Forall2_lookup_lr _ _ _ _ _ _ Hf2 Hp Hq) as [Hij Hn]. simpl in *. subst j.
  apply list_elem_of_lookup_2 in Hq.
  apply Children_iter_present_elem in Hq as [Hi Hg]; [|done]. split_and!; [done | done | by eapply Hkids | done].
Qed.

(** Returning a node. *)
Lemma visit_ok key n t st l (ns : NodeStore St) :
  rnode rd n t -> is_path key -> trie_wf t -> rstack st l ->
  exists st' l', visit key n st ns = (Some (Ok (bytes_iter key, n)), Iterating st', ns) /\
    preorder key t ++ l = (key, t) :: l' /\ rstack st' l'.
Proof.
  intros Hr Hk Hwf Hst. unfold visit. rewrite key_from_nibble_iter_ok by done. unfold mbind, result_bind.
  pose proof Hwf as Hwf'. destruct t as [pp v ks]. apply trie_wf_inv in Hwf' as (_ & Hkw & _).
  rewrite preorder_T by done. simpl app. inversion Hr as [lf|? ? c ? Hc _ Hs]; subst.
  - exists st, l. done.
  - eexists _, _. split; [done|]. split; [done|]. constructor; [|done | done]. by apply (rnode_children pp v).
Qed.

Lemma read_child_node_spec ns c n :
  holds alg rd ns -> child_node rd c = Some n ->
  exists ns', read_child_node alg c ns = (Ok n, ns') /\ recorded alg rd ns [] ns'.
Proof.
  intros Hh Hc. destruct c as [n'|a h|[n'|a n'|a] h]; simpl in *;
    try (injection Hc as ->; eexists; split; [done | by apply recorded_refl]);
    by apply read_node_ok.
Qed.

(** [stack_loop] yields the first node of the rest. *)
Lemma stack_loop_ok st l ns :
  rstack st l -> holds alg rd ns ->
  match l with
  | [] => exists ns', stack_loop alg st ns = (None, Iterating [], ns') /\ recorded alg rd ns [] ns'
  | (full, t) :: l' => exists n st' ns', stack_loop alg st ns = (Some (Ok (bytes_iter full, n)), Iterating st', ns') /\
      rnode rd n t /\ rstack st' l' /\ recorded alg rd ns [] ns'
  end.
Proof.
  intros Hst Hh. induction Hst as [|key n t st l Hr Hk Hwf Hst IH|key cs kids st l Hcs Hk Hst IH].
  - exists ns. split; [done | by apply recorded_refl].
  - destruct (visit_ok key n t st l ns Hr Hk Hwf Hst) as (st' & l' & Hv & -> & Hst').
    exists n, st', ns. split_and!; [done | done | done | by apply recorded_refl].
  - destruct Hcs as [|[i c] [j [g t]] cs kids (Hij & Hi & Hwf & n & Hn & Hr) Hcs]; [exact IH|].
    simpl in Hij, Hi, Hwf, Hn, Hr. subst j. cbn [stack_loop].
    destruct (read_child_node_spec ns c n Hh Hn) as (ns' & -> & Hrec).
    rewrite (rnode_path _ _ _ Hr).
    assert (Hkp : is_path (key ++ [i] ++ tpath t)).
    { apply is_path_app. split; [done|]. apply is_path_cons. split; [done|]. destruct t. by apply trie_wf_inv in Hwf as [? _]. }
    destruct (visit_ok (key ++ [i] ++ tpath t) n t (Visited key cs :: st) (kids_preorder key kids ++ l) ns' Hr Hkp Hwf
      ltac:(by constructor)) as (st' & l' & Hv & Hl & Hst').
    cbv zeta. rewrite Hv. simpl kids_preorder. rewrite <- app_assoc. simpl app in Hl |- *. rewrite Hl.
    exists n, st', ns'. done.
Qed.

(** ** The start key *)

Definition at_or_after (key : Path) (p : Path * trie) : Prop := slice_le key p.1 = true.

#[global] Instance at_or_after_dec key p : Decision (at_or_after key p) := decide (slice_le key p.1 = true).

(** The children of a node on the path to the key: those in smaller slots are before
    it, those in greater slots after it. *)
Lemma kid_before full i x r t :
  trie_wf t -> i < x -> filter (at_or_after (full ++ x :: r)) (preorder (full ++ i :: tpath t) t) = [].
Proof.
  intros Hwf Hi. apply filter_discard. intros [q u] Hq. apply preorder_prefix in Hq as (s & -> & _); [|done].
  unfold at_or_after. simpl. rewrite <- app_assoc, slice_le_app. simpl. destruct (Z.compare_spec x i); lia || done.
Qed.

Lemma kid_after full i x r t :
  trie_wf t -> x < i ->
  filter (at_or_after (full ++ x :: r)) (preorder (full ++ i :: tpath t) t) = preorder (full ++ i :: tpath t) t.
Proof.
  intros Hwf Hi. apply filter_keep. intros [q u] Hq. apply preorder_prefix in Hq as (s & -> & _); [|done].
  unfold at_or_after. simpl. rewrite <- app_assoc, slice_le_app. simpl. destruct (Z.compare_spec x i); lia || done.
Qed.

Lemma kids_all_after full x r (l : list (PathComponent * kid)) :
  (forall p, p ∈ l -> trie_wf p.2.2 /\ x < p.1) ->
  filter (at_or_after (full ++ x :: r)) (kids_preorder full l) = kids_preorder full l /\
  filter (fun p => x < p.1) l = l.
Proof.
  intros Hl. split; [|apply filter_keep; intros p Hp; by apply Hl].
  induction l as [|[i [h t]] l IH]; [done|]. simpl. rewrite filter_app.
  destruct (Hl (i, (h, t)) ltac:(constructor)) as [Hwf Hi]. rewrite kid_after by done. f_equal.
  apply IH. intros p Hp. apply Hl. by constructor.
Qed.

Lemma filter_kids full x r (l : list (PathComponent * kid)) :
  StronglySorted (fun a b => a < b) l.*1 -> (forall p, p ∈ l -> trie_wf p.2.2) ->
  (forall h t, (x, (h, t)) ∈ l ->
     filter (at_or_after (full ++ x :: r)) (kids_preorder full l) =
     filter (at_or_after (full ++ x :: r)) (preorder (full ++ x :: tpath t) t)
     ++ kids_preorder full (filter (fun p => x < p.1) l)) /\
  (x ∉ l.*1 ->
     filter (at_or_after (full ++ x :: r)) (kids_preorder full l) =
     kids_preorder full (filter (fun p => x < p.1) l)).
Proof.
  induction l as [|[i [h t]] l IH]; intros Hs Hwf.
  { split; [by intros h t Hin%elem_of_nil | done]. }
  simpl in Hs. inversion Hs as [|? ? Hs' Hi]; subst.
  assert (Hwt : trie_wf t) by (apply (Hwf (i, (h, t))); constructor).
  assert (Hwl : forall p, p ∈ l -> trie_wf p.2.2) by (intros p Hp; apply Hwf; by constructor).
  assert (Hlt : forall p, p ∈ l -> i < p.1).
  { intros p Hp. rewrite Forall_forall in Hi. apply Hi, list_elem_of_fmap. by exists p. }
  destruct (IH Hs' Hwl) as [IH1 IH2]. simpl. rewrite filter_app.
  destruct (Z.lt_trichotomy i x) as [Hix|[->|Hix]].
  - rewrite (kid_before full i x r t) by done. rewrite filter_cons_False by (simpl; lia). split.
    + intros h' t' Hin. apply elem_of_cons in Hin as [[= ? ? ?]|Hin]; [lia|]. by apply (IH1 h').
    + intros Hni. apply not_elem_of_cons in Hni as [_ Hni]. by apply IH2.
  - destruct (kids_all_after full x r l) as [Ha Hb]; [intros p Hp; auto|].
    rewrite Ha, filter_cons_False, Hb by (simpl; lia). split.
    + intros h' t' Hin. apply elem_of_cons in Hin as [[= <- <-]|Hin]; [done|]. apply Hlt in Hin. simpl in Hin. lia.
    + intros Hni. apply not_elem_of_cons in Hni as [Hni _]. done.
  - destruct (kids_all_after full x r l) as [Ha Hb]; [intros p Hp; specialize (Hlt p Hp); split; [auto | lia]|].
    rewrite (kid_after full i x r t), Ha, filter_cons_True, Hb by (done || simpl; lia). split.
    + intros h' t' Hin. apply elem_of_cons in Hin as [[= ? ? ?]|Hin]; [lia|]. apply Hlt in Hin. simpl in Hin. lia.
    + done.
Qed.

Lemma rchild_filter x cs kids :
  Forall2 rchild cs kids ->
  Forall2 rchild (filter (fun p => x < p.1) cs) (filter (fun p => x < p.1) kids).
Proof.
  induction 1 as [|[i c] [j k] cs kids Hr _ IH]; [constructor|]. pose proof Hr as [Hij _]. simpl in Hij. subst j.
  destruct (decide (x < i)).
  - rewrite !filter_cons_True by done. by constructor.
  - by rewrite !filter_cons_False by done.
Qed.

(** The loop that finds the start. *)
Lemma initial_state_loop_ok fuel n t m it st l ns :
  (length (remaining it) < fuel)%nat -> NibblesIterator_wf it -> is_path m ->
  rnode rd n t -> trie_wf t -> rstack st l -> holds alg rd ns ->
  exists st' ns', initial_state_loop alg fuel n m it st ns = (Ok (Iterating st'), ns') /\
    recorded alg rd ns [] ns' /\
    rstack st' (filter (at_or_after (m ++ remaining it)) (preorder (m ++ tpath t) t) ++ l).
Proof.
  revert n t m it st l ns. induction fuel as [|fuel IH]; intros n t m it st l ns Hf Hit Hm Hr Hwf Hst Hh; [lia|].
  cbn [initial_state_loop]. rewrite (rnode_path _ _ _ Hr).
  pose proof Hwf as Hwf'. destruct t as [pp v ks]. cbn [tpath]. apply trie_wf_inv in Hwf' as (Hpp & Hk & Hkids).
  assert (Hfull : is_path (m ++ pp)) by (by apply is_path_app).
  pose proof (compare_partial_path_spec pp it Hit) as Hcmp.
  destruct (compare_partial_path pp it) as [ord it1].
  assert (Hall : (forall s, slice_le (remaining it) (pp ++ s) = true) ->
    filter (at_or_after (m ++ remaining it)) (preorder (m ++ pp) (T pp v ks)) = preorder (m ++ pp) (T pp v ks)).
  { intros Hs. apply filter_keep. intros [q u] Hq. apply preorder_prefix in Hq as (s & -> & _); [|done].
    unfold at_or_after. simpl. rewrite <- app_assoc, slice_le_app. apply Hs. }
  destruct ord.
  - destruct Hcmp as [Hit1 Hrem]. pose proof (next_remaining it1 Hit1) as Hn.
    destruct (NibblesIterator_next it1) as [next it2]. destruct Hn as (Hit2 & Hnext & Hrem2).
    destruct (remaining it1) as [|x r] eqn:Hr1; simpl in Hnext, Hrem2; subst next.
    + (* the key ends here: the node and everything below it *)
      assert (Hgo : exists st' ns', (mret (Iterating (Unvisited (m ++ pp) n :: st)) : store_op St NodeIterState) ns
          = (Ok (Iterating st'), ns') /\ recorded alg rd ns [] ns' /\
          rstack st' (filter (at_or_after (m ++ remaining it)) (preorder (m ++ pp) (T pp v ks)) ++ l)).
      { eexists _, ns. split; [done|]. split; [by apply recorded_refl|].
        rewrite Hall; [by constructor|]. intros s. rewrite Hrem, app_nil_r. apply slice_le_prefix. }
      destruct n as [b|lf]; exact Hgo.
    + (* the key goes on below this node *)
      subst r.
      assert (Hself : ~ at_or_after (m ++ remaining it) (m ++ pp, T pp v ks)).
      { unfold at_or_after. simpl. rewrite Hrem, app_assoc. rewrite <- (app_nil_r (m ++ pp)) at 2.
        by rewrite slice_le_app. }
      rewrite preorder_T, filter_cons_False by done.
      inversion Hr as [lf|? ? c ? Hc _ Hs]; subst.
      { exists st, ns. split; [done|]. split; [by apply recorded_refl|]. exact Hst. }
      assert (Hx : is_nibble x).
      { assert (Hrp : is_path (remaining it)).
        { destruct Hit as [Hb _]. unfold remaining. apply Forall_drop, Forall_take. by apply is_path_nibbles_of. }
        rewrite Hrem in Hrp. by apply is_path_app in Hrp as [_ [? _]%is_path_cons]. }
      rewrite PathComponent_try_new_nibble by done. unfold expect, ok_or. erewrite store_bind_Ok by reflexivity.
      assert (Hrest : rstack (Visited (m ++ pp) (filter (fun p => x < p.1) (as_enumerated_children_iter (mkBranch pp v c))) :: st)
        (kids_preorder (m ++ pp) (filter (fun p => x < p.1) (Children_iter_present ks)) ++ l)).
      { constructor; [|done | done]. apply rchild_filter. by apply (rnode_children pp v). }
      pose proof (filter_kids (m ++ pp) x (remaining it2) (Children_iter_present ks) (present_sorted ks)) as Hfk.
      assert (Hkw : forall p, p ∈ Children_iter_present ks -> trie_wf p.2.2).
      { intros [i [h t]] Hin. apply Children_iter_present_elem in Hin as [_ Hg]; [|done]. by eapply Hkids. }
      destruct (Hfk Hkw) as [Hin Hout]. clear Hfk.
      rewrite Hrem. replace (m ++ pp ++ x :: remaining it2) with ((m ++ pp) ++ x :: remaining it2) by (by rewrite <- app_assoc).
      cbn [branch_children]. specialize (Hs x Hx).
      destruct (Children_get c x) as [ch|] eqn:Hch.
      * apply rslot_Some_inv in Hs as (n' & t' & Hkt & Hcn & Hnt).
        destruct (read_child_node_spec ns ch n' Hh Hcn) as (ns1 & Hread & Hrec1).
        erewrite store_bind_Ok by exact Hread.
        assert (Hlen : (length (remaining it2) < fuel)%nat) by (rewrite Hrem, length_app in Hf; simpl in Hf; lia).
        assert (Hmx : is_path ((m ++ pp) ++ [x])) by (apply is_path_app; split; [done | by constructor]).
        destruct (IH n' t' _ it2 _ _ ns1 Hlen Hit2 Hmx Hnt (Hkids _ _ _ Hkt) Hrest (recorded_holds _ _ _ _ _ Hrec1))
          as (st' & ns' & Hrun & Hrec & Hst').
        exists st', ns'. split; [done|]. split; [by apply (recorded_trans alg rd ns ns1 ns' [] [])|].
        rewrite (Hin (child_handle ch) t') by (by apply Children_iter_present_elem).
        rewrite <- !app_assoc in Hst'. rewrite <- !app_assoc. exact Hst'.
      * inversion Hs as [Hkn|]; subst. exists (Visited (m ++ pp) (filter (fun p => x < p.1) (as_enumerated_children_iter (mkBranch pp v c))) :: st), ns.
        split; [done|]. split; [by apply recorded_refl|]. rewrite Hout; [done|].
        intros ([i [h t]] & -> & Hin')%list_elem_of_fmap. apply Children_iter_present_elem in Hin' as [_ Hg]; [|done].
        simpl in *. congruence.
  - destruct Hcmp as [_ Hs]. exists st, ns. split; [done|]. split; [by apply recorded_refl|].
    rewrite filter_discard; [done|]. intros [q u] Hq. apply preorder_prefix in Hq as (s & -> & _); [|done].
    unfold at_or_after. simpl. rewrite <- app_assoc, slice_le_app. by rewrite Hs.
  - destruct Hcmp as [_ Hs]. eexists _, ns. split; [done|]. split; [by apply recorded_refl|].
    rewrite Hall by done. by constructor.
Qed.

(** ** Key-value pairs *)

Variable must_recompute : bool.

(** The pair of a node of the trie. *)
Definition kv_pair (p : Path * trie) : option (bytes * Value) := pair (bytes_iter p.1) <$> tval p.2.

Lemma node_pair_ok key n t :
  is_ethereum alg && must_recompute = false -> rnode rd n t ->
  node_pair alg must_recompute key n = pair key <$> tval t.
Proof.
  intros Hm Hr. assert (Hfix : forall v hs, fix_account_value alg must_recompute key v hs = (key, v)).
  { intros v hs. unfold fix_account_value. by rewrite Hm. }
  destruct Hr as [l|pp v c ks]; simpl; [by rewrite Hfix|]. destruct v as [v|]; [|done]. simpl. by rewrite Hfix.
Qed.

Lemma kv_next_ok fuel st l ns :
  is_ethereum alg && must_recompute = false -> rstack st l -> holds alg rd ns -> (length l < fuel)%nat ->
  match omap kv_pair l with
  | [] => exists st' ns', MerkleKeyValueIter_next alg must_recompute fuel (Iterating st) ns = (None, st', ns') /\
            recorded alg rd ns [] ns'
  | kv :: kvs => exists st' l' ns',
      MerkleKeyValueIter_next alg must_recompute fuel (Iterating st) ns = (Some (Ok kv), Iterating st', ns') /\
      recorded alg rd ns [] ns' /\ rstack st' l' /\ omap kv_pair l' = kvs /\ (length l' <= length l)%nat
  end.
Proof.
  intros Hm. revert fuel st ns. induction l as [|[full t] l IH]; intros fuel st ns Hst Hh Hf.
  - pose proof (stack_loop_ok st [] ns Hst Hh) as (ns' & Hrun & Hrec). destruct fuel as [|fuel]; [lia|].
    simpl. rewrite Hrun. eauto.
  - pose proof (stack_loop_ok st _ ns Hst Hh) as (n & st' & ns' & Hrun & Hr & Hst' & Hrec).
    destruct fuel as [|fuel]; [simpl in Hf; lia|]. csimpl. rewrite Hrun. rewrite (node_pair_ok _ n t Hm Hr).
    unfold kv_pair at 1. csimpl. destruct (tval t) as [v|]; simpl.
    + exists st', l, ns'. split_and!; [done | done | done | done | lia].
    + specialize (IH fuel st' ns' Hst' (recorded_holds _ _ _ _ _ Hrec) ltac:(simpl in Hf; lia)).
      destruct (omap kv_pair l) as [|kv kvs].
      * destruct IH as (st2 & ns2 & Hrun2 & Hrec2). exists st2, ns2. split; [done|].
        by apply (recorded_trans alg rd ns ns' ns2 [] []).
      * destruct IH as (st2 & l2 & ns2 & Hrun2 & Hrec2 & Hst2 & Hl2 & Hlen). exists st2, l2, ns2.
        split_and!; [done | by apply (recorded_trans alg rd ns ns' ns2 [] []) | done | done | simpl; lia].
Qed.

(** The test of the range filter. *)
Definition below_last (last : option bytes) (kv : bytes * Value) : bool :=
  match last with Some e => slice_le kv.1 e | None => true end.

(** The next pair of the filtered iterator. *)
Lemma filtered_next_ok fuel st l last ns :
  is_ethereum alg && must_recompute = false -> rstack st l -> holds alg rd ns -> (length l < fuel)%nat ->
  match take_while (below_last last) (omap kv_pair l) with
  | [] => exists it' ns', FilteredKeyRangeIter_next alg must_recompute fuel (FilteredKeyRangeIter_new (Iterating st) last) ns = (None, it', ns') /\
            recorded alg rd ns [] ns'
  | kv :: kvs => exists st' l' ns',
      FilteredKeyRangeIter_next alg must_recompute fuel (FilteredKeyRangeIter_new (Iterating st) last) ns =
        (Some (Ok kv), FilteredKeyRangeIter_new (Iterating st') last, ns') /\
      recorded alg rd ns [] ns' /\ rstack st' l' /\ take_while (below_last last) (omap kv_pair l') = kvs /\ (length l' <= length l)%nat
  end.
Proof.
  intros Hm Hst Hh Hf. pose proof (kv_next_ok fuel st l ns Hm Hst Hh Hf) as Hnext.
  unfold FilteredKeyRangeIter_next, FilteredKeyRangeIter_new. destruct (omap kv_pair l) as [|[k v] kvs].
  - destruct Hnext as (st' & ns' & Hrun & Hrec). destruct last; rewrite Hrun; eexists _, ns'; done.
  - destruct Hnext as (st' & l' & ns' & Hrun & Hrec & Hst' & <- & Hlen).
    destruct last as [e|]; rewrite Hrun; cbn [take_while below_last fst]; [destruct (slice_le k e); [|by eexists _, ns']|]; by exists st', l', ns'.
Qed.

Lemma collect_range_ok n fuel st l last ns :
  is_ethereum alg && must_recompute = false -> rstack st l -> holds alg rd ns ->
  (length (take_while (below_last last) (omap kv_pair l)) < n)%nat -> (length l < fuel)%nat ->
  exists ns', collect_range alg must_recompute n fuel (FilteredKeyRangeIter_new (Iterating st) last) ns =
      (Ok (take_while (below_last last) (omap kv_pair l)), ns') /\ recorded alg rd ns [] ns'.
Proof.
  intros Hm. revert st l ns. induction n as [|n IH]; intros st l ns Hst Hh Hn Hf; [lia|].
  pose proof (filtered_next_ok fuel st l last ns Hm Hst Hh Hf) as Hnext. cbn [collect_range].
  destruct (take_while _ (omap kv_pair l)) as [|kv kvs].
  - destruct Hnext as (it' & ns' & -> & Hrec). by exists ns'.
  - destruct Hnext as (st' & l' & ns' & -> & Hrec & Hst' & <- & Hlen).
    destruct (IH st' l' ns' Hst' (recorded_holds _ _ _ _ _ Hrec)) as (ns2 & -> & Hrec2); [simpl in Hn; lia | lia |].
    exists ns2. split; [done|]. exact (recorded_trans alg rd ns ns' ns2 [] [] Hrec Hrec2).
Qed.

End IterSpec.

(** ** Nodes and values *)

Lemma preorder_tget t pfx q u :
  trie_wf t -> is_path pfx -> (q, u) ∈ preorder (pfx ++ tpath t) t -> exists r, q = pfx ++ r /\ is_path r /\ tget t r = tval u.
Proof.
  revert pfx. induction t as [pp v ks IH] using trie_ind'. intros pfx Hwf Hp Hin.
  pose proof (trie_wf_inv _ _ _ Hwf) as (Hpp & Hk & Hkids). cbn [tpath] in Hin. rewrite preorder_T in Hin by done.
  apply elem_of_cons in Hin as [[= -> ->]|Hin].
  { exists pp. split_and!; [done | done |]. rewrite <- (app_nil_r pp) at 2. by rewrite tget_app. }
  apply elem_of_kids_preorder in Hin as (i & h & t & Hin & Hx).
  apply Children_iter_present_elem in Hin as [Hi Hg]; [|done].
  replace ((pfx ++ pp) ++ i :: tpath t) with ((pfx ++ pp ++ [i]) ++ tpath t) in Hx by (by rewrite <- !app_assoc).
  destruct (IH (Z.to_nat i) h t ltac:(by apply Children_get_Some) (pfx ++ pp ++ [i])) as (r & -> & Hr & He);
    [by eapply Hkids | | done |].
  { apply is_path_app. split; [done|]. apply is_path_app. split; [done | by constructor]. }
  exists (pp ++ i :: r). rewrite <- !app_assoc. split_and!; [done | | by rewrite tget_app, Hg].
  apply is_path_app. split; [done|]. by apply is_path_cons.
Qed.

Lemma tget_preorder t pfx r x :
  trie_wf t -> is_path r -> tget t r = Some x ->
  exists u, (pfx ++ r, u) ∈ preorder (pfx ++ tpath t) t /\ tval u = Some x.
Proof.
  revert pfx r. induction t as [pp v ks IH] using trie_ind'. intros pfx r Hwf Hr Hx.
  pose proof (trie_wf_inv _ _ _ Hwf) as (Hpp & Hk & Hkids). cbn [tpath]. rewrite preorder_T by done.
  destruct (tget_prefix _ _ _ Hx) as [s ->]. simpl in *. rewrite tget_app in Hx. destruct s as [|i s].
  { exists (T pp v ks). rewrite app_nil_r. split; [by constructor | done]. }
  apply is_path_app in Hr as [_ [Hi Hs]%is_path_cons]. destruct (Children_get ks i) as [[h t]|] eqn:Hg; [|done].
  simpl in Hx. destruct (IH (Z.to_nat i) h t ltac:(by apply Children_get_Some) (pfx ++ pp ++ [i]) s) as (u & Hin & Hu);
    [by eapply Hkids | done | done |].
  exists u. split; [|done]. apply elem_of_cons. right. apply elem_of_kids_preorder. exists i, h, t.
  split; [by apply Children_iter_present_elem|]. rewrite <- !app_assoc in *. exact Hin.
Qed.

(** A canonical trie has fewer than twice as many nodes as values. *)
Lemma kids_preorder_length full (l : list (PathComponent * kid)) :
  (forall p, p ∈ l -> S (length (preorder (full ++ p.1 :: tpath p.2.2) p.2.2)) <= 2 * tsize p.2.2)%nat ->
  (length (kids_preorder full l) + length l <= 2 * sum_list ((fun p => tsize p.2.2) <$> l))%nat.
Proof.
  induction l as [|[i [h t]] l IH]; intros Hl; [done|]. csimpl. rewrite length_app.
  pose proof (Hl (i, (h, t)) ltac:(constructor)) as Hi. simpl in Hi.
  specialize (IH (fun p Hp => Hl p ltac:(by constructor))). simpl in *. lia.
Qed.

Lemma kids_size_present (ks : Children (option kid)) :
  Children_wf ks -> kids_size ks = sum_list ((fun p : PathComponent * kid => tsize p.2.2) <$> Children_iter_present ks).
Proof.
  intros Hk. unfold kids_size, Children_iter_present, Children_iter.
  assert (Hlen : length PathComponent_ALL = length ks) by (by rewrite Hk). clear Hk. revert ks Hlen.
  generalize PathComponent_ALL. intros l. induction l as [|i l IH]; intros [|[[h t]|] ks] Hlen; try done; csimpl;
    rewrite IH by (simpl in Hlen; lia); done.
Qed.

Lemma preorder_length t full :
  trie_wf t -> canonical t -> (S (length (preorder full t)) <= 2 * tsize t)%nat.
Proof.
  revert full. induction t as [pp v ks IH] using trie_ind'. intros full Hwf Hc.
  pose proof (trie_wf_inv _ _ _ Hwf) as (_ & Hk & Hkids). rewrite preorder_T, tsize_T, kids_size_present by done.
  pose proof (kids_preorder_length full (Children_iter_present ks)) as Hl. cbn [length].
  assert (Htwo : v = None -> (2 <= length (Children_iter_present ks))%nat).
  { intros ->. apply canonical_iff in Hc as [Htwo _]; [|done].
    destruct (Htwo eq_refl) as (i & j & Hi & Hj & Hij & [x Hx] & [y Hy]).
    assert (Hin : (i, x) ∈ Children_iter_present ks) by (by apply Children_iter_present_elem).
    assert (Hjn : (j, y) ∈ Children_iter_present ks) by (by apply Children_iter_present_elem).
    destruct (Children_iter_present ks) as [|a [|b l]]; [by apply elem_of_nil in Hin| |simpl; lia].
    apply list_elem_of_singleton in Hin, Hjn. congruence. }
  specialize (Hl ltac:(intros [i [h t]] Hin; apply Children_iter_present_elem in Hin as [Hi Hg]; [|done];
    apply (IH (Z.to_nat i) h t); [by apply Children_get_Some | by eapply Hkids | by eapply canonical_inv])).
  destruct v as [x|]; [lia|]. specialize (Htwo eq_refl). lia.
Qed.

(** ** Properties *)

Section Range.
Context {St : Type} `{ReadableStorageLaws St} `{VarInt} `{Digests}.
Variable alg : NodeHashAlgorithm.
Variable rd : LinearAddress -> option Node.
Variable must_recompute : bool.

(** The iterator positioned at the start key. *)
Lemma initial_state_ok (ns : NodeStore St) t first :
  represents alg rd ns t -> is_bytes first ->
  exists st ns', get_iterator_intial_state alg first ns = (Ok (Iterating st), ns') /\ recorded alg rd ns [] ns' /\
    rstack rd st (filter (at_or_after (nibbles_of first)) (from_option (fun t => preorder (tpath t) t) [] t)).
Proof.
  intros (Hh & Hroot & Hwf) Hb. unfold get_iterator_intial_state, rroot in *.
  destruct (ns_root ns) as [root|], t as [t|]; try done.
  - destruct (initial_state_loop_ok alg rd (S (BYTES_PER_NIBBLE * length first)) root t [] (NibblesIterator_new first) [] [] ns)
      as (st & ns' & Hrun & Hrec & Hst); [| | constructor | done | by apply Hwf | constructor | done |].
    + rewrite remaining_new, length_nibbles_of. unfold BYTES_PER_NIBBLE. lia.
    + by apply NibblesIterator_new_wf.
    + exists st, ns'. split_and!; [done | done |]. rewrite remaining_new, app_nil_r in Hst. exact Hst.
  - exists [], ns. split_and!; [done | by apply recorded_refl | constructor].
Qed.

Lemma kv_next_start fuel first (ns : NodeStore St) st ns' :
  get_iterator_intial_state alg first ns = (Ok (Iterating st), ns') ->
  MerkleKeyValueIter_next alg must_recompute (S fuel) (StartFromKey first) ns =
  MerkleKeyValueIter_next alg must_recompute (S fuel) (Iterating st) ns'.
Proof. intros Hi. simpl. by rewrite Hi. Qed.

Lemma filtered_next_start fuel first last (ns : NodeStore St) st ns' :
  get_iterator_intial_state alg first ns = (Ok (Iterating st), ns') ->
  FilteredKeyRangeIter_next alg must_recompute (S fuel) (stop_after_key (from_key first) last) ns =
  FilteredKeyRangeIter_next alg must_recompute (S fuel) (FilteredKeyRangeIter_new (Iterating st) last) ns'.
Proof.
  intros Hi. unfold stop_after_key, from_key, FilteredKeyRangeIter_new, FilteredKeyRangeIter_next.
  destruct last; by rewrite (kv_next_start _ _ _ _ _ Hi).
Qed.

Lemma collect_start n fuel first last (ns : NodeStore St) st ns' :
  get_iterator_intial_state alg first ns = (Ok (Iterating st), ns') ->
  collect_range alg must_recompute (S n) (S fuel) (stop_after_key (from_key first) last) ns =
  collect_range alg must_recompute (S n) (S fuel) (FilteredKeyRangeIter_new (Iterating st) last) ns'.
Proof. intros Hi. cbn [collect_range]. by rewrite (filtered_next_start _ _ _ _ _ _ Hi). Qed.

(** The nodes of a trie in preorder, and those at or after a key. *)
Definition nodes_of (t : option trie) : list (Path * trie) := from_option (fun t => preorder (tpath t) t) [] t.
Definition nodes_from (first : bytes) (t : option trie) : list (Path * trie) :=
  filter (at_or_after (nibbles_of first)) (nodes_of t).

Section Pairs.
Context (t : option trie) (m : gmap bytes Value) (L : nat).
Hypothesis Hwf : forall u, t = Some u -> trie_wf u.
Hypothesis Hm : contents L t m.

(** A node with a value is a pair of the map. *)
Lemma node_of_map q u x : (q, u) ∈ nodes_of t -> tval u = Some x -> exists b, is_bytes b /\ q = nibbles_of b /\ m !! b = Some x.
Proof.
  intros Hin Hx. unfold nodes_of in Hin. destruct t as [v|]; [|by apply elem_of_nil in Hin].
  destruct (preorder_tget v [] q u ltac:(by apply Hwf) ltac:(constructor) Hin) as (r & -> & Hr & He). simpl.
  destruct (contents_keys _ _ _ Hm r x Hr) as (b & Hbb & ->); [simpl; congruence|]. exists b. split_and!; [done | done |].
  rewrite <- (contents_get _ _ _ Hm b Hbb). simpl. congruence.
Qed.

Lemma pairs_sorted first : StronglySorted (fun a b => slice_lt a.1 b.1) (omap kv_pair (nodes_from first t)).
Proof.
  apply (StronglySorted_omap (fun p q : Path * trie => slice_lt p.1 q.1)).
  - apply StronglySorted_filter. unfold nodes_of. destruct t as [u|]; [|constructor].
    by apply StronglySorted_fst, preorder_sorted, Hwf.
  - intros [q u] [q' u'] a b Hq Hq' Hlt Ha Hb'. apply list_elem_of_filter in Hq as [_ Hq], Hq' as [_ Hq'].
    unfold kv_pair in *. simpl in *. destruct (tval u) as [x|] eqn:Hu, (tval u') as [x'|] eqn:Hu'; simplify_eq/=.
    destruct (node_of_map q u x Hq Hu) as (c & Hc & -> & _), (node_of_map q' u' x' Hq' Hu') as (c' & Hc' & -> & _).
    rewrite !bytes_iter_nibbles_of. unfold slice_lt in *. by rewrite slice_le_nibbles in Hlt.
Qed.

Lemma pairs_elem first k v :
  is_bytes first ->
  (k, v) ∈ omap kv_pair (nodes_from first t) <-> m !! k = Some v /\ slice_le first k = true.
Proof.
  intros Hb. rewrite list_elem_of_omap. split.
  - intros ([q u] & Hin & Hkv). apply list_elem_of_filter in Hin as [Haf Hin]. unfold kv_pair in Hkv. simpl in Hkv.
    destruct (tval u) as [x|] eqn:Hu; simplify_eq/=. destruct (node_of_map q u v Hin Hu) as (b & Hbb & -> & Hmb).
    rewrite bytes_iter_nibbles_of. split; [done|]. unfold at_or_after in Haf. simpl in Haf.
    by rewrite slice_le_nibbles in Haf.
  - intros [Hmk Hle]. destruct (contents_bytes _ _ _ Hm k v Hmk) as [Hkb _].
    pose proof (contents_get _ _ _ Hm k Hkb) as Hget. rewrite Hmk in Hget. destruct t as [u|]; [|done]. simpl in Hget.
    destruct (tget_preorder u [] (nibbles_of k) v ltac:(by apply Hwf) (is_path_nibbles_of k Hkb) Hget) as (w & Hin & Hu).
    exists (nibbles_of k, w). split.
    + apply list_elem_of_filter. split; [|exact Hin]. unfold at_or_after. simpl. by rewrite slice_le_nibbles.
    + unfold kv_pair. simpl. by rewrite Hu, bytes_iter_nibbles_of.
Qed.

(** The pairs of a range. *)
Lemma range_pairs_ok first last :
  is_bytes first ->
  StronglySorted (fun a b => slice_lt a.1 b.1) (take_while (below_last last) (omap kv_pair (nodes_from first t))) /\
  forall k v, (k, v) ∈ take_while (below_last last) (omap kv_pair (nodes_from first t)) <->
    m !! k = Some v /\ slice_le first k = true /\ below_last last (k, v) = true.
Proof.
  intros Hb. pose proof (pairs_sorted first) as Hsorted. split; [by apply StronglySorted_take_while|].
  intros k v. rewrite (elem_of_take_while_sorted (fun a b => slice_lt a.1 b.1)); [|done|].
  - rewrite pairs_elem by done. by rewrite (assoc and).
  - intros [a x] [b y] Hab Hlast. unfold below_last in *. destruct last as [e|]; [|done]. simpl in *.
    by eapply slice_le_trans; [apply slice_le_total | done].
Qed.

End Pairs.

(** The number of nodes is bounded by the number of pairs. *)
Lemma nodes_from_length t m L first :
  (forall u, t = Some u -> trie_wf u) -> ocanonical t -> contents L t m -> (length (nodes_from first t) <= 2 * size m)%nat.
Proof.
  intros Hwf Hcan Hm. transitivity (length (nodes_of t)); [apply length_filter|].
  pose proof (contents_otsize L t m Hwf Hm) as Hs. unfold nodes_of. destruct t as [t|]; simpl in *; [|lia].
  pose proof (preorder_length t (tpath t) ltac:(by apply Hwf) ltac:(by apply Hcan)). lia.
Qed.

(** C22: iterating over a range yields the map, in order.  From a start key, up to and
    including an optional last key, the iterator returns exactly the pairs of the map
    whose keys lie in the range, each once and in ascending order of the keys, and
    then ends; the trie may be partly in memory and partly on disk, and only the
    caches of the store change.  This is for MerkleDB and for Ethereum databases of versions that store the
    storage roots of accounts; where they are recomputed on reading ([must_recompute_storage_hash]), the
    iterator returns accounts with that root spliced in, which is not covered. *)
Theorem range_iteration_exact (ns : NodeStore St) t m L first last n fuel :
  represents alg rd ns t -> ocanonical t -> contents L t m -> is_bytes first ->
  is_ethereum alg && must_recompute = false -> (2 * size m < n)%nat -> (2 * size m < fuel)%nat ->
  exists l ns',
    collect_range alg must_recompute n fuel (stop_after_key (from_key first) last) ns = (Ok l, ns') /\
    recorded alg rd ns [] ns' /\ StronglySorted (fun a b => slice_lt a.1 b.1) l /\
    forall k v, (k, v) ∈ l <-> m !! k = Some v /\ slice_le first k = true /\ below_last last (k, v) = true.
Proof.
  intros Hrep Hcan Hm Hb Heth Hn Hf. pose proof Hrep as (_ & _ & Hwf).
  destruct (initial_state_ok ns t first Hrep Hb) as (st & ns1 & Hi & Hrec & Hst).
  fold (nodes_of t) in Hst. fold (nodes_from first t) in Hst.
  pose proof (nodes_from_length t m L first Hwf Hcan Hm) as Hlen.
  destruct n as [|n], fuel as [|fuel]; try lia. rewrite (collect_start n fuel first last ns st ns1 Hi).
  destruct (collect_range_ok alg rd must_recompute (S n) (S fuel) st _ last ns1 Heth Hst (recorded_holds _ _ _ _ _ Hrec))
    as (ns' & Hrun & Hrec'); [pose proof (omap_length_le kv_pair (nodes_from first t)); pose proof (take_while_length (below_last last) (omap kv_pair (nodes_from first t))); lia | lia |].
  destruct (range_pairs_ok t m L Hwf Hm first last Hb) as [Hsorted Helem].
  exists (take_while (below_last last) (omap kv_pair (nodes_from first t))), ns'.
  split_and!; [done | by apply (recorded_trans alg rd ns ns1 ns' [] []) | done | done].
Qed.

End Range.

(** *** Witness: a branch in memory with a leaf on disk *)
Section RangeWitness.
Import Leb128 FirstBytes.

Lemma range_iteration_exact_witness :
  (collect_range MerkleDB false 9 9 (stop_after_key (from_key [5]) (Some [98])) w_store).1 = Ok [([97], [7])] /\
  exists l ns', collect_range MerkleDB false 9 9 (stop_after_key (from_key [5]) (Some [98])) w_store = (Ok l, ns') /\
    forall k v, (k, v) ∈ l <-> w_map !! k = Some v /\ slice_le [5] k = true /\ below_last (Some [98]) (k, v) = true.
Proof.
  split; [by vm_compute|].
  destruct (range_iteration_exact MerkleDB w_rd false w_store (Some w_trie) w_map 9 [5] (Some [98]) 9 9
    w_represents w_canonical w_contents) as (l & ns' & Hrun & _ & _ & Hl).
  - repeat constructor; unfold u8, U8_MAX; lia.
  - reflexivity.
  - apply (bool_decide_unpack (2 * size w_map < 9)%nat). vm_compute. exact I.
  - apply (bool_decide_unpack (2 * size w_map < 9)%nat). vm_compute. exact I.
  - exists l, ns'. exact (conj Hrun Hl).
Defined.

End RangeWitness.
