(* ===== verification/ProofTypes.v ===== *)
(** * Kinds of proofs and their errors

    [firewood/src/proofs/types.rs], [header.rs] and [reader.rs]: the data types that
    the generation, verification and wire format of proofs share. *)

From S2P Require Import Prelude Primitives NodePath Node Codec NodeCodec Header Rlp.
From Stdlib Require String.
Import String.StringSyntax.

Abbreviation item_name := String.string.

(** [ProofType]. *)
Inductive ProofType : Type :=
| Single
| Range
| Change.

#[export] Instance ProofType_eq_dec : EqDecision ProofType.
Proof. solve_decision. Defined.

(** The discriminants of [ProofType]. *)
Definition ProofType_as_u8 (t : ProofType) : Z :=
  match t with Single => 0 | Range => 1 | Change => 2 end.

(** [ProofType::new]. *)
Definition ProofType_new (v : Z) : option ProofType :=
  if v =? 0 then Some Single else if v =? 1 then Some Range else if v =? 2 then Some Change else None.

Lemma ProofType_new_as_u8 t : ProofType_new (ProofType_as_u8 t) = Some t.
Proof. by destruct t. Qed.

(** [InvalidHeader]. *)
Inductive InvalidHeader : Type :=
| InvalidMagic (found : bytes)
| UnsupportedVersion (found : Z)
| UnsupportedHashMode (found : Z)
| UnsupportedBranchFactor (found : Z)
| InvalidProofType (found : Z) (expected : option ProofType).

(** [ReadError]; the formatted description of what was found is left out. *)
Inductive ReadError : Type :=
| IncompleteItem (item : item_name) (offset expected found : Z)
| InvalidItem (item : item_name) (offset : Z) (expected : item_name)
| ReadInvalidHeader (e : InvalidHeader).

(** [ReadError::set_item]. *)
Definition set_item (item : item_name) (e : ReadError) : ReadError :=
  match e with
  | IncompleteItem _ offset expected found => IncompleteItem item offset expected found
  | InvalidItem _ offset expected => InvalidItem item offset expected
  | ReadInvalidHeader e => ReadInvalidHeader e
  end.

(** [ProofEdge]. *)
Inductive ProofEdge : Type :=
| LeftEdge
| RightEdge.

(** [ProofError]. *)
Inductive ProofError : Type :=
| NonMonotonicIncreaseRange
| UnexpectedHash (expected actual : HashType)
| EdgeProofHashMismatch (edge : ProofEdge) (expected actual : HashType)
| UnexpectedValue
| UnexpectedValueDigest
| ValueMismatch
| ExpectedValue
| EmptyProof
| ShouldBePrefixOfProvenKey
| ShouldBePrefixOfNextKey
| ChildIndexOutOfBounds
| ValueAtOddNibbleLength
| NodeNotInTrie
| ProofIO (e : failure)
| Deserialization (e : ReadError)
| BodyTooLarge (len limit : Z)
| Compression (e : io_error)
| EmptyRange
| Unverified
| InvalidAccountValueFormat (source : RlpError)
| InvalidAccountCodeHashLength (len : Z)
| ProofIsLargerThanMaxLength
| ChangeProofKeysNotSorted
| StartKeyLargerThanFirstKey
| EndKeyLessThanLastKey
| RangeProofStartBeyondFirstKey
| RangeProofEndBeforeLastKey
| ProofIsNone
| KeyOutsideRange
| NoEndProof
| UnexpectedStartProof
| ConflictingProofNodes
| StartAfterEnd
| ProofNodeHasUnincludedValue
| ProposalIsNone
| EndRootMismatch
| EndProofOperationMismatch
| StartProofOperationMismatch
| DeleteRangeFoundInChangeProof
| MissingBoundaryProof
| ProofNodeValueMismatch
| BoundaryProofsDivergeAtRoot
| UnexpectedEndProof
| InRangeChildMismatch
| MissingEndProof
| ProofNodeUnreachable
| ExclusionProofMissingChild
| HashModeMismatch (expected found : NodeHashAlgorithm).
