(* ===== verification/KeyProof.v ===== *)
(** * Proofs of single keys

    [firewood/src/proofs/types.rs]: proof nodes, the verification of a proof of
    inclusion or exclusion against a root hash, and [Merkle::prove] of
    [firewood/src/merkle/mod.rs]. *)

From S2P Require Import Prelude Primitives NodePath Node Codec NodeCodec Trie NodeStore.
From S2P Require Import Merkle Rlp Hashing ProofTypes Iter.

(** ** Data *)

(** [ProofNode]; the packed [DenseChildren] is its expansion to sixteen slots. *)
Record ProofNode : Type := mkProofNode {
  pn_key : Path;
  pn_partial_len : nat;
  pn_value_digest : option ValueDigest;
  pn_child_hashes : Children (option HashType);
}.

#[export] Instance ProofNode_Hashable : Hashable ProofNode := {|
  parent_prefix_path n := take (pn_partial_len n) (pn_key n);
  h_partial_path n := drop (pn_partial_len n) (pn_key n);
  full_path := pn_key;
  value_digest := pn_value_digest;
  h_children := pn_child_hashes;
|}.

(** [ACCOUNT_DEPTH_NIBBLES]. *)
Definition ACCOUNT_DEPTH_NIBBLES : nat := 64.

(** [next_nibble]: the component of [c] after [b], if [b] is a strict prefix of [c]. *)
Definition next_nibble (b c : Path) : option PathComponent :=
  let lcp := PrefixOverlap_from b c in
  match po_unique_a lcp, po_unique_b lcp with
  | [], c :: _ => Some c
  | _, _ => None
  end.

Section KeyProof.
Context `{Digests} `{VarInt}.
Variable alg : NodeHashAlgorithm.

(** ** Verification *)

Section Verify.
Context {N : Type} `{Hashable N}.

(** [compute_node_hash_as_storage_trie_root]. *)
Definition compute_node_hash_as_storage_trie_root (node : N) : option HashType :=
  match last (parent_prefix_path node) with
  | None => None
  | Some branch_nibble =>
      let account_prefix := removelast (parent_prefix_path node) in
      Some (hash_node_as_storage_trie_root_parts alg account_prefix branch_nibble (h_partial_path node)
              (value_digest node) (h_children node))
  end.

(** The loop of [value_digest_in_mode] over the nodes. *)
Fixpoint verify_loop (key : Path) (nodes : list N) (expected_hash : HashType) (hash_as_storage_root : bool)
  : result ProofError unit :=
  match nodes with
  | [] => Ok tt
  | node :: rest =>
      let computed :=
        if is_ethereum alg && hash_as_storage_root then compute_node_hash_as_storage_trie_root node
        else Some (to_hash alg node) in
      match computed with
      | None => Err (UnexpectedHash expected_hash (to_hash alg node))
      | Some actual_hash =>
          if negb (HashType_eq actual_hash expected_hash) then Err (UnexpectedHash expected_hash actual_hash)
          else if negb (Nat.even (length (full_path node))) && bool_decide (is_Some (value_digest node))
          then Err ValueAtOddNibbleLength
          else if is_ethereum alg && match value_digest node with Some (DigestHash _) => true | _ => false end
          then Err UnexpectedValueDigest
          else
            match rest with
            | [] => Ok tt
            | next_node :: _ =>
                match next_nibble (full_path node) key with
                | None => Err ShouldBePrefixOfProvenKey
                | Some key_nibble =>
                    if negb (bool_decide (next_nibble (full_path node) (full_path next_node) = Some key_nibble))
                    then Err ShouldBePrefixOfNextKey
                    else
                      let children := h_children node in
                      match Children_get children key_nibble with
                      | None => Err NodeNotInTrie
                      | Some expected_hash =>
                          verify_loop key rest expected_hash
                            (Nat.eqb (length (full_path node)) ACCOUNT_DEPTH_NIBBLES
                             && Nat.eqb (Children_count children) 1)
                      end
                end
            end
      end
  end.

(** [Proof::value_digest_in_mode]. *)
Definition proof_value_digest (nodes : list N) (key : bytes) (root_hash : TrieHash)
  : result ProofError (option ValueDigest) :=
  let key := from_nibbles_iterator (NibblesIterator_new key) in
  match last nodes with
  | None => Err EmptyProof
  | Some last_node =>
      _ ← verify_loop key nodes (Hash root_hash) false;
      if bool_decide (full_path last_node = key) then mret (value_digest last_node)
      else
        match next_nibble (full_path last_node) key with
        | Some next_idx =>
            if bool_decide (is_Some (Children_get (h_children last_node) next_idx))
            then Err ExclusionProofMissingChild
            else mret None
        | None => mret None
        end
  end.

(** [verify_opt_value_digest]. *)
Definition verify_opt_value_digest (expected_value : option bytes) (found_value : option ValueDigest)
  : result ProofError unit :=
  match expected_value, found_value with
  | None, None => Ok tt
  | Some _, None => Err ExpectedValue
  | None, Some _ => Err UnexpectedValue
  | Some expected, Some found => if ValueDigest_verify found expected then Ok tt else Err ValueMismatch
  end.

(** [Proof::verify]. *)
Definition verify (nodes : list N) (key : bytes) (expected_value : option bytes) (root_hash : TrieHash)
  : result ProofError unit :=
  found ← proof_value_digest nodes key root_hash;
  verify_opt_value_digest expected_value found.

End Verify.

(** ** Generation *)

(** [fix_account_storage_root]. *)
Definition fix_account_storage_root (vd : option ValueDigest) (key_nibbles : Path)
  (child_hashes : Children (option HashType)) : option ValueDigest :=
  if negb (Nat.eqb (length key_nibbles) 64) then vd
  else
    match vd with
    | Some (DigestValue value) =>
        match fix_account_storage_root_value value child_hashes with
        | Some fixed => Some (DigestValue fixed)
        | None => Some (DigestValue value)
        end
    | _ => vd
    end.

(** [ProofNode::from_path_item]. *)
Definition from_path_item (item : PathIterItem) : ProofNode :=
  let child_hashes := match pi_node item with Branch b => children_hashes b | Leaf _ => Children_new end in
  let partial_len := (length (key_nibbles item) - length (partial_path (pi_node item)))%nat in
  let vd := DigestValue <$> node_value (pi_node item) in
  let vd := if is_ethereum alg && pi_must_recompute_storage_hash item
            then fix_account_storage_root vd (key_nibbles item) child_hashes else vd in
  mkProofNode (key_nibbles item) partial_len vd child_hashes.

Context {St : Type} `{ReadableStorage St}.
Variable must_recompute : bool.

(** Collecting the path iterator into a [Result]; [fuel] bounds the number of items:
    each but the first consumes a nibble of the key. *)
Fixpoint collect_path (fuel : nat) (state : PathIteratorState) (ns : NodeStore St)
  : result failure (list PathIterItem) * NodeStore St :=
  match fuel with
  | O => (Err Diverges, ns)
  | S fuel =>
      match PathIterator_next alg must_recompute state ns with
      | (None, _, ns) => (Ok [], ns)
      | (Some (Err e), _, ns) => (Err e, ns)
      | (Some (Ok item), state, ns) =>
          match collect_path fuel state ns with
          | (Ok items, ns) => (Ok (item :: items), ns)
          | (Err e, ns) => (Err e, ns)
          end
      end
  end.

(** [Merkle::prove]. *)
Definition prove (key : bytes) (ns : NodeStore St) : result ProofError (list ProofNode) * NodeStore St :=
  match ns_root ns with
  | None => (Err EmptyProof, ns)
  | Some _ =>
      match collect_path (S (S (BYTES_PER_NIBBLE * length key))) (PathIterator_new key ns) ns with
      | (Ok items, ns) => (Ok (from_path_item <$> items), ns)
      | (Err e, ns) => (Err (ProofIO e), ns)
      end
  end.

End KeyProof.
