(* ===== verification/KeyProofSound.v ===== *)
(** * Soundness of proofs of single keys

    Under MerkleDB a proof that verifies against the root hash of a trie shows what
    the trie holds under the key, unless SHA-256 collides. *)

From S2P Require Import Prelude Primitives NodePath Node Codec NodeCodec Trie NodeStore.
From S2P Require Import Merkle MerkleSpec MerkleInsert TrieCanonical MerkleCorrect Rlp Hashing HashSpec HashBinding.
From S2P Require Import Iter ProofTypes KeyProof.

(** ** The next nibble *)

Lemma next_nibble_Some b c i : next_nibble b c = Some i <-> exists r, c = b ++ i :: r.
Proof.
  unfold next_nibble. destruct (PrefixOverlap_spec b c) as (Hb & Hc & Hne).
  destruct (PrefixOverlap_from b c) as [sh [|x ua] [|y ub]]; simpl in *; subst;
    rewrite ?app_nil_r in *; (split; [|intros [r Hr]]); try done.
  - rewrite <- (app_nil_r sh) in Hr at 1. apply app_inv_head in Hr. done.
  - intros [= ->]. by eauto.
  - apply app_inv_head in Hr. by injection Hr as <-.
  - rewrite <- app_assoc in Hr. rewrite <- (app_nil_r sh) in Hr at 1. by apply app_inv_head in Hr.
  - rewrite <- app_assoc in Hr. apply app_inv_head in Hr. by injection Hr.
Qed.

Lemma next_nibble_None b c : next_nibble b c = None -> c <> b -> strip_prefix b c = None.
Proof.
  intros Hn Hne. destruct (strip_prefix b c) as [[|i r]|] eqn:E; [| |done]; apply strip_prefix_Some in E.
  - by rewrite app_nil_r in E.
  - assert (next_nibble b c = Some i) by (apply next_nibble_Some; eauto). congruence.
Qed.

Section Sound.
Context `{DigestsLaws} `{VarIntLaws} {N : Type} `{Hashable N}.

(** What the proof is worth once the chain of hashes has been followed. *)
Definition conclusion (last_node : N) (key : Path) : option (option ValueDigest) :=
  if bool_decide (full_path last_node = key) then Some (value_digest last_node)
  else
    match next_nibble (full_path last_node) key with
    | Some next_idx =>
        if bool_decide (is_Some (Children_get (h_children last_node) next_idx)) then None else Some None
    | None => Some None
    end.

Lemma proof_value_digest_Ok alg nodes key root d :
  is_bytes key ->
  proof_value_digest alg nodes key root = Ok d <->
  exists l, last nodes = Some l /\ verify_loop alg (nibbles_of key) nodes (Hash root) false = Ok tt /\
    conclusion l (nibbles_of key) = Some d.
Proof.
  intros Hk. unfold proof_value_digest, conclusion. rewrite from_nibbles_iterator_new by done.
  destruct (last nodes) as [l|]; [|split; [done | intros (? & ? & _); done]].
  assert (Hd : forall x y : option ValueDigest, (mret x : result ProofError _) = Ok y <-> Some x = Some y) by (split; [by intros [= ->] | by intros [= ->]]).
  transitivity (verify_loop alg (nibbles_of key) nodes (Hash root) false = Ok tt /\ conclusion l (nibbles_of key) = Some d);
    [|split; [by eauto | intros (? & [= <-] & ?); done]].
  unfold conclusion. destruct (verify_loop _ _ _ _ _) as [[]|]; simpl; [|split; [done | by intros []]].
  transitivity (conclusion l (nibbles_of key) = Some d); [|unfold conclusion; by split; [|intros []]].
  unfold conclusion. destruct (bool_decide _); [done|].
  destruct (next_nibble _ _) as [i|]; [destruct (bool_decide _); [done|]|]; apply Hd.
Qed.

(** A proof node with the hash of a node of the trie is that node. *)
Lemma node_binding (n : N) t full :
  hashable_ok n -> trie_wf t -> paths_fit full t ->
  sha256 (merkledb_write_preimage n) = into_triehash (thash MerkleDB [] full t) ->
  (h_children n = kid_hashes MerkleDB full (tkids t) /\
   digest_bytes (value_digest n) = digest_bytes (DigestValue <$> tval t) /\ full_path n = full) \/
  collision [merkledb_write_preimage n] (preimages full t).
Proof.
  intros Hn Hwf Hfit He. rewrite thash_merkledb in He. simpl in He.
  set (s := mkShunt [] full (DigestValue <$> tval t) (kid_hashes MerkleDB full (tkids t))) in *.
  destruct (decide (merkledb_write_preimage n = merkledb_write_preimage s)) as [Heq|Hne].
  - left. destruct (preimage_inj n s Hn (trie_hashable_ok full t Hwf Hfit) Heq) as (Hc & Hv & Hf). done.
  - right. exists (merkledb_write_preimage n), (merkledb_write_preimage s).
    split_and!; [by constructor | destruct t; by constructor | done | done].
Qed.

(** At the last node. *)
Lemma conclusion_ok (l : N) pre t r d :
  h_children l = kid_hashes MerkleDB (pre ++ tpath t) (tkids t) ->
  digest_bytes (value_digest l) = digest_bytes (DigestValue <$> tval t) ->
  full_path l = pre ++ tpath t -> is_path r ->
  conclusion l (pre ++ r) = Some d -> digest_bytes d = digest_bytes (DigestValue <$> tget t r).
Proof.
  destruct t as [pp v ks]. cbn [tpath tval tkids]. intros Hc Hv Hf Hr. unfold conclusion. rewrite Hf, Hc, tget_T.
  destruct (decide (pp = r)) as [->|Hne].
  { rewrite bool_decide_true by done. intros [= <-]. rewrite <- (app_nil_r r) at 2. by rewrite strip_prefix_app_self. }
  rewrite bool_decide_false; [|intros Heq; by apply app_inv_head in Heq].
  destruct (next_nibble (pre ++ pp) (pre ++ r)) as [i|] eqn:E.
  - apply next_nibble_Some in E as [s Hs]. rewrite <- app_assoc in Hs. apply app_inv_head in Hs. subst r.
    rewrite strip_prefix_app_self. apply is_path_app in Hr as [_ [Hi _]%is_path_cons].
    rewrite kid_hashes_get by done. destruct (Children_get ks i) as [[g u]|]; simpl; [done|]. by intros [= <-].
  - intros [= <-]. apply next_nibble_None in E; [|intros Heq; apply app_inv_head in Heq; congruence].
    destruct (strip_prefix pp r) as [s|] eqn:Es; [|done]. exfalso. apply strip_prefix_Some in Es. subst r.
    by rewrite app_assoc, strip_prefix_app_self in E.
Qed.

(** Following the chain of hashes down the trie. *)
Lemma verify_chain nodes t pre r e b l d :
  Forall hashable_ok nodes -> trie_wf t -> paths_fit (pre ++ tpath t) t -> is_path r ->
  e = thash MerkleDB [] (pre ++ tpath t) t ->
  verify_loop MerkleDB (pre ++ r) nodes e b = Ok tt -> last nodes = Some l -> conclusion l (pre ++ r) = Some d ->
  digest_bytes d = digest_bytes (DigestValue <$> tget t r) \/
  collision (map merkledb_write_preimage nodes) (preimages (pre ++ tpath t) t).
Proof.
  intros Hok. revert t pre r e b. induction Hok as [|n nodes Hn Hok IH]; intros t pre r e b Hwf Hfit Hr -> Hv Hl Hc; [done|].
  cbn [verify_loop is_ethereum andb] in Hv. rewrite thash_merkledb in Hv. cbn [to_hash] in Hv. unfold merkledb_to_hash in Hv.
  cbn [HashType_eq] in Hv. case_bool_decide as He; [|done]. simpl negb in Hv. cbv iota in Hv.
  destruct (node_binding n t (pre ++ tpath t) Hn Hwf Hfit) as [(Hch & Hval & Hf)|Hcol].
  { by rewrite thash_merkledb. }
  2: { right. eapply collision_mono; [exact Hcol | | done]. intros x [->|Hx]%elem_of_cons; [by constructor | by apply elem_of_nil in Hx]. }
  destruct (_ && _); [done|]. cbv iota in Hv.
  destruct nodes as [|n' nodes].
  - injection Hl as ->. left. by eapply conclusion_ok.
  - cbn [last] in Hl. rewrite Hf in Hv. destruct (next_nibble _ (pre ++ r)) as [i|] eqn:E; [|done].
    destruct (negb _); [done|]. apply next_nibble_Some in E as [s Hs]. rewrite <- app_assoc in Hs.
    apply app_inv_head in Hs. subst r. destruct t as [pp v ks]. cbn [tpath tkids] in *.
    apply is_path_app in Hr as [_ [Hi Hs]%is_path_cons]. rewrite Hch, kid_hashes_get in Hv by done.
    pose proof (trie_wf_inv _ _ _ Hwf) as (_ & _ & Hkids). inversion Hfit as [? ? ? ? _ _ Hfk]; subst.
    rewrite tget_T, strip_prefix_app_self. destruct (Children_get ks i) as [[g u]|] eqn:Hg; [|done].
    cbn [fmap option_fmap option_map snd] in Hv. rewrite kid_hash_merkledb in Hv.
    replace (pre ++ pp ++ i :: s) with (((pre ++ pp) ++ [i]) ++ s) in Hv, Hc by (by rewrite <- !app_assoc).
    destruct (IH u ((pre ++ pp) ++ [i]) s _ _ ltac:(by eapply Hkids) ltac:(rewrite <- app_assoc; by eapply Hfk)
      Hs ltac:(by rewrite <- (app_assoc (pre ++ pp) [i])) Hv Hl Hc) as [Hd|Hcol]; [by left | right].
    eapply collision_mono; [exact Hcol | intros x Hx; by constructor |].
    rewrite <- (app_assoc (pre ++ pp) [i]). by eapply preimages_kid.
Qed.

(** A value that passes the comparison is the value of the digest. *)
Lemma digest_verify d x v :
  digest_wf d -> ValueDigest_verify d x = true -> digest_bytes (Some d) = digest_bytes (DigestValue <$> v) ->
  v = Some x \/ exists y, v = Some y /\ 32 <= len y /\ x <> y /\ sha256 x = sha256 y.
Proof.
  intros Hwf Hver Hd. destruct d as [z|h]; simpl in Hver.
  - apply bool_decide_eq_true in Hver as ->. destruct (digest_bytes_inj (Some x) v Hd) as [<-|(a & y & [= <-] & -> & ?)];
      [by left | right; naive_solver].
  - destruct Hwf as (b & -> & Hb). simpl in Hver. apply bool_decide_eq_true in Hver. subst b.
    destruct v as [y|]; [|done]. simpl in Hd. rewrite andb_true_r in Hd. injection Hd as Hd.
    destruct (Z.leb_spec 32 (len y)) as [Hy|Hy]; simpl in Hd; [|subst y; lia].
    destruct (decide (x = y)) as [->|Hne]; [by left | right; eauto].
Qed.

Lemma tget_preimages t full r y : is_path r -> tget t r = Some y -> 32 <= len y -> y ∈ preimages full t.
Proof.
  revert full r. induction t as [pp v ks IH] using trie_ind'. intros full r Hr Hg Hy. rewrite tget_T in Hg.
  destruct (strip_prefix pp r) as [[|i s]|] eqn:E; [| |done].
  - subst v. cbn [preimages]. apply elem_of_cons. right. apply elem_of_app. left.
    destruct (Z.leb_spec 32 (len y)); [by constructor | lia].
  - apply strip_prefix_Some in E. subst r. apply is_path_app in Hr as [_ [Hi Hs]%is_path_cons].
    destruct (Children_get ks i) as [[g u]|] eqn:Hk; [|done]. simpl in Hg.
    eapply preimages_kid; [exact Hi | exact Hk |]. apply Children_get_Some in Hk. by eapply IH.
Qed.

(** C4: verification is sound.  If the nodes of a proof verify a value, or its absence,
    under a key against the root hash of a trie, then the trie holds exactly that
    under the key; otherwise SHA-256 collides on two different strings, one hashed by
    the verifier and one hashed for the trie.  The nodes of the proof are arbitrary:
    nothing is assumed of how they were made. *)
Theorem verify_sound t (nodes : list N) key expected :
  trie_wf t -> paths_fit (tpath t) t -> Forall hashable_ok nodes -> is_bytes key ->
  verify MerkleDB nodes key expected (into_triehash (troot_hash MerkleDB t)) = Ok tt ->
  tget t (nibbles_of key) = expected \/
  collision (map merkledb_write_preimage nodes ++ option_list expected) (preimages (tpath t) t).
Proof.
  intros Hwf Hfit Hok Hk Hver. unfold verify in Hver.
  destruct (proof_value_digest _ _ _ _) as [d|] eqn:Hp; [|done]. simpl in Hver.
  destruct (proj1 (proof_value_digest_Ok _ _ _ _ _ Hk) Hp) as (l & Hl & Hv & Hc).
  destruct (verify_chain nodes t [] (nibbles_of key) _ false l d Hok Hwf Hfit (is_path_nibbles_of key Hk) eq_refl)
    as [Hd|Hcol]; [| done | done | |].
  { unfold troot_hash in Hv. rewrite thash_merkledb in Hv |- *. done. }
  2: { right. eapply collision_mono; [exact Hcol | intros x Hx; apply elem_of_app; by left | done]. }
  destruct expected as [x|], d as [d|]; simpl in Hver; try done.
  - destruct (ValueDigest_verify d x) eqn:Hvd; [|done].
    assert (Hdw : digest_wf d).
    { rewrite last_lookup in Hl. pose proof (proj1 (Forall_lookup _ _) Hok _ _ Hl) as (_ & _ & Hdw & _).
      apply Hdw. unfold conclusion in Hc. repeat case_bool_decide; try done; [by injection Hc|].
      destruct (next_nibble _ _); [case_bool_decide|]; done. }
    destruct (digest_verify d x _ Hdw Hvd Hd) as [|(y & Hy & Hl32 & Hne & Hs)]; [by left | right].
    exists x, y. split_and!; [apply elem_of_app; right; by constructor | | done | done].
    by apply (tget_preimages t _ (nibbles_of key)); [apply is_path_nibbles_of|..].
  - left. by destruct (tget t (nibbles_of key)).
Qed.

End Sound.

(** ** Witness: a key below the root *)
Section SoundWitness.
Import Leb128 FirstBytes.

Definition w_proof : list ProofNode :=
  [mkProofNode [] 0 (Some (DigestValue [9])) (kid_hashes MerkleDB [] (tkids (w_bound None)));
   mkProofNode [6; 1] 1 (Some (DigestValue [7])) Children_new].

Lemma w_proof_ok : Forall hashable_ok w_proof.
Proof.
  constructor; [|constructor; [|constructor]]; split_and!; try done.
  - intros i h Hi. destruct (decide (i = 6)) as [->|Hne].
    + intros [= <-]. eexists. split; [done|]. by vm_compute.
    + simpl h_children. rewrite kid_hashes_get by done. cbn [w_bound tkids].
      rewrite Children_get_set_ne by (done || split; lia). by rewrite Children_get_new.
  - by intros d [= <-].
  - constructor.
  - intros i h _. cbn [h_children ProofNode_Hashable pn_child_hashes]. by rewrite Children_get_new.
  - by intros d [= <-].
  - repeat constructor; lia.
Qed.

Lemma verify_sound_witness :
  tget (w_bound None) (nibbles_of [97]) = Some [7] \/
  collision (map merkledb_write_preimage w_proof ++ option_list (Some [7])) (preimages (tpath (w_bound None)) (w_bound None)).
Proof.
  apply (verify_sound (w_bound None) w_proof [97] (Some [7]) (proj1 (w_bound_wf None)) (proj2 (w_bound_wf None)) w_proof_ok).
  - repeat constructor; ulia.
  - vm_compute. reflexivity.
Defined.

End SoundWitness.
