(* ===== verification/KeyProofComplete.v ===== *)
(** * Completeness of proofs of single keys

    The proof that [Merkle::prove] makes from a hashed trie verifies against the root
    hash, under both hashing schemes, and shows what the trie holds. *)

From S2P Require Import Prelude Primitives NodePath Node Codec NodeCodec Trie NodeStore.
From S2P Require Import Merkle MerkleSpec MerkleInsert TrieCanonical MerkleCorrect Rlp Hashing HashSpec HashHelper HashBinding.
From S2P Require Import Iter IterSpec ProofTypes KeyProof KeyProofSound.

Section Complete.
Context {St : Type} `{ReadableStorageLaws St} `{VarIntLaws} `{DigestsLaws}.
Variable alg : NodeHashAlgorithm.
Variable rd : LinearAddress -> option Node.
Variable must_recompute : bool.

Lemma HashType_eq_root h : HashType_eq h (Hash (into_triehash h)) = true.
Proof. destruct h; by apply bool_decide_eq_true. Qed.

(** ** The node of an item *)

(** The value a proof shows: the storage root is computed again if asked for. *)
Definition proof_value (full : Path) (v : option Value) (hs : Children (option HashType)) : option Value :=
  if must_recompute then settled_value alg full v hs else v.

Definition proof_node (pfx : Path) (t : trie) : ProofNode :=
  let full := pfx ++ tpath t in
  mkProofNode full (length pfx) (DigestValue <$> proof_value full (tval t) (kid_hashes alg full (tkids t)))
    (kid_hashes alg full (tkids t)).

Lemma from_path_item_ok pfx n t next :
  committed alg rd pfx n t ->
  from_path_item alg (mkPathIterItem (pfx ++ tpath t) n next must_recompute) = proof_node pfx t.
Proof.
  intros Hc. unfold from_path_item, proof_node. cbn [pi_node key_nibbles pi_must_recompute_storage_hash].
  destruct (committed_parts _ _ _ _ _ Hc) as [Hv Hh]. rewrite Hv, Hh, (committed_path _ _ _ _ _ Hc).
  f_equal; [rewrite length_app; lia|]. unfold proof_value, settled_value, fix_account_storage_root.
  destruct (is_ethereum alg), must_recompute; simpl; try done.
  destruct (Nat.eqb_spec (length (pfx ++ tpath t)) 64) as [|]; simpl; [|done].
  destruct (tval t) as [v|]; simpl; [|done]. by destruct (fix_account_storage_root_value _ _).
Qed.

Lemma to_hash_node pfx q v hs :
  to_hash alg (mkProofNode (pfx ++ q) (length pfx) v hs) = to_hash alg (mkShunt pfx q v hs).
Proof.
  unfold to_hash, merkledb_to_hash, merkledb_write_preimage, eth_to_hash, eth_write_preimage.
  cbn [full_path h_children value_digest h_partial_path HashableShunt_Hashable sh_parent_prefix
    sh_partial_path sh_value sh_child_hashes ProofNode_Hashable pn_key pn_partial_len pn_value_digest pn_child_hashes].
  by rewrite drop_app_length.
Qed.

(** Showing the settled value does not change the hash. *)
Lemma to_hash_proof_value pfx q pp v ks :
  Children_wf ks -> (forall x, v = Some x -> value_ok x) ->
  to_hash alg (mkShunt pfx q (DigestValue <$> proof_value (pfx ++ q) v (kid_hashes alg (pfx ++ q) ks)) (kid_hashes alg (pfx ++ q) ks))
  = thash alg pfx q (T pp v ks).
Proof.
  intros Hk Hv. rewrite thash_T. unfold proof_value. destruct must_recompute; [|done].
  apply to_hash_settled; [done | by apply kid_hashes_wf | by apply kid_hashes_hashes_wf | done].
Qed.

(** What the verifier computes for a node. *)
Definition computed (b : bool) (n : ProofNode) : option HashType :=
  if is_ethereum alg && b then compute_node_hash_as_storage_trie_root alg n else Some (to_hash alg n).

(** [expects b pfx t h]: below [pfx] the verifier looks for [h], which is the hash of [t]. *)
Definition expects (b : bool) (pfx : Path) (t : trie) (h : HashType) : Prop :=
  if is_ethereum alg && b
  then exists full i, pfx = full ++ [i] /\ HashType_eq (thash alg full (i :: tpath t) t) h = true
  else HashType_eq (thash alg pfx (tpath t) t) h = true.

Lemma computed_ok b pfx t h :
  trie_wf t -> byte_trie pfx t -> expects b pfx t h ->
  exists g, computed b (proof_node pfx t) = Some g /\ HashType_eq g h = true.
Proof.
  intros Hwf Hb He. destruct t as [pp v ks]. pose proof (trie_wf_inv _ _ _ Hwf) as (_ & Hk & _).
  inversion Hb as [? ? ? ? _ Hv _]; subst. assert (Hvo : forall x, v = Some x -> value_ok x) by (intros x Hx; by apply Hv).
  unfold expects in He. unfold computed, proof_node. cbn [tpath tval tkids] in *. destruct (is_ethereum alg && b).
  - destruct He as (full & i & -> & He). unfold compute_node_hash_as_storage_trie_root, hash_node_as_storage_trie_root_parts.
    cbn [parent_prefix_path h_partial_path value_digest h_children ProofNode_Hashable pn_key pn_partial_len pn_value_digest pn_child_hashes].
    rewrite take_app_length, drop_app_length, last_snoc, removelast_last. eexists. split; [done|].
    rewrite <- (app_assoc full [i] pp). cbn [app].
    by rewrite (to_hash_proof_value full (i :: pp) pp) by done.
  - eexists. split; [done|]. rewrite to_hash_node. by rewrite (to_hash_proof_value pfx pp pp) by done.
Qed.

(** The next hash is the one the next node has. *)
Lemma expects_child full ks i g t :
  Children_wf ks -> is_nibble i -> Children_get ks i = Some (g, t) ->
  expects (Nat.eqb (length full) ACCOUNT_DEPTH_NIBBLES && Nat.eqb (Children_count (kid_hashes alg full ks)) 1)
    (full ++ [i]) t (kid_hash alg full (lone alg full ks) i t).
Proof.
  intros Hk Hi Hg. unfold expects, kid_hash.
  replace (is_ethereum alg && _) with (lone alg full ks).
  - destruct (lone alg full ks); [|apply HashType_eq_refl]. exists full, i. split; [done | apply HashType_eq_refl].
  - unfold lone, ACCOUNT_DEPTH_NIBBLES. rewrite <- andb_assoc. do 3 f_equal. apply count_ext; [done | by apply kid_hashes_wf |].
    intros j Hj. rewrite kid_hashes_get by done. by rewrite fmap_is_Some.
Qed.

(** ** The chain of nodes *)

(** The nodes of a proof below [pfx], for the rest [r] of the key. *)
Inductive proof_chain : Path -> trie -> Path -> list ProofNode -> option (Path * trie) -> Prop :=
| chain_found pfx pp v ks : proof_chain pfx (T pp v ks) pp [proof_node pfx (T pp v ks)] (Some (pfx, T pp v ks))
| chain_diverges pfx t r : strip_prefix (tpath t) r = None -> proof_chain pfx t r [proof_node pfx t] None
| chain_no_child pfx pp v ks i r :
    is_nibble i -> Children_get ks i = None ->
    proof_chain pfx (T pp v ks) (pp ++ i :: r) [proof_node pfx (T pp v ks)] None
| chain_step pfx pp v ks i g t r nodes found :
    is_nibble i -> Children_get ks i = Some (g, t) -> proof_chain ((pfx ++ pp) ++ [i]) t r nodes found ->
    proof_chain pfx (T pp v ks) (pp ++ i :: r) (proof_node pfx (T pp v ks) :: nodes) found.

Lemma chain_head pfx t r nodes found : proof_chain pfx t r nodes found -> exists rest, nodes = proof_node pfx t :: rest.
Proof. destruct 1; eauto. Qed.

(** The node that was reached holds what the trie holds. *)
Lemma chain_tget pfx t r nodes found :
  proof_chain pfx t r nodes found ->
  tget t r = found ≫= (fun p => tval p.2) /\ from_option (fun p => p.1 ++ tpath p.2 = pfx ++ r) True found.
Proof.
  induction 1 as [pfx pp v ks | pfx [pp v ks] r Hs | pfx pp v ks i r Hi Hg | pfx pp v ks i g t r nodes found Hi Hg Hch [IH1 IH2]];
    rewrite tget_T.
  - rewrite <- (app_nil_r pp) at 2. by rewrite strip_prefix_app_self.
  - simpl in Hs. by rewrite Hs.
  - rewrite strip_prefix_app_self, Hg. done.
  - rewrite strip_prefix_app_self, Hg. simpl. split; [done|]. destruct found as [[]|]; simpl in *; [|done].
    rewrite IH2. by rewrite <- !app_assoc.
Qed.

Lemma chain_conclusion pfx t r nodes found :
  proof_chain pfx t r nodes found ->
  exists l, last nodes = Some l /\
    conclusion l (pfx ++ r) = Some (found ≫= fun p => pn_value_digest (proof_node p.1 p.2)).
Proof.
  induction 1 as [pfx pp v ks | pfx t r Hs | pfx pp v ks i r Hi Hg | pfx pp v ks i g t r nodes found Hi Hg Hch (l & Hl & Hc)].
  - eexists. split; [done|]. unfold conclusion. cbn [full_path ProofNode_Hashable pn_key proof_node tpath].
    by rewrite bool_decide_true.
  - eexists. split; [done|]. unfold conclusion. cbn [full_path ProofNode_Hashable pn_key proof_node h_children pn_child_hashes].
    assert (Hn : forall s, r <> tpath t ++ s) by (intros s ->; by rewrite strip_prefix_app_self in Hs).
    rewrite bool_decide_false; [|intros Heq; apply app_inv_head in Heq; apply (Hn []); by rewrite app_nil_r].
    destruct (next_nibble _ _) as [j|] eqn:E; [|done]. apply next_nibble_Some in E as [s Hj].
    rewrite <- app_assoc in Hj. apply app_inv_head in Hj. by apply Hn in Hj.
  - eexists. split; [done|]. unfold conclusion.
    cbn [full_path ProofNode_Hashable pn_key proof_node h_children pn_child_hashes tpath tkids].
    rewrite bool_decide_false.
    2: { rewrite app_assoc. intros Heq. rewrite <- (app_nil_r (pfx ++ pp)) in Heq at 1. by apply app_inv_head in Heq. }
    replace (next_nibble (pfx ++ pp) (pfx ++ pp ++ i :: r)) with (Some i).
    2: { symmetry. apply next_nibble_Some. exists r. by rewrite <- app_assoc. }
    rewrite kid_hashes_get, Hg by done. done.
  - exists l. split.
    + destruct (chain_head _ _ _ _ _ Hch) as [rest ->]. done.
    + rewrite <- Hc. by rewrite <- !app_assoc.
Qed.

(** Every node of a chain is a node of the trie. *)
Lemma chain_node pfx t r nodes found :
  proof_chain pfx t r nodes found -> forall pn, pn ∈ nodes -> exists q p u, pn = proof_node p u /\ p ++ tpath u = pfx ++ q /\ node_at t q u.
Proof.
  assert (Hhere : forall pfx t, exists q p u, proof_node pfx t = proof_node p u /\ p ++ tpath u = pfx ++ q /\ node_at t q u).
  { intros p s. exists (tpath s), p, s. split_and!; [done | done | constructor]. }
  induction 1 as [pfx pp v ks | pfx t r Hs | pfx pp v ks i r Hi Hg | pfx pp v ks i g t r nodes found Hi Hg Hch IH];
    intros pn; try (intros ->%list_elem_of_singleton; by apply Hhere).
  intros [->|Hin]%elem_of_cons; [by apply Hhere|].
  destruct (IH pn Hin) as (q & p & u & -> & Hp & Hn). exists (pp ++ i :: q), p, u.
  split_and!; [done | by rewrite Hp, <- !app_assoc | by eapply at_below].
Qed.

(** The checks on the node itself pass. *)
Lemma verify_loop_cons pfx t key nodes b h :
  trie_wf t -> byte_trie pfx t -> expects b pfx t h ->
  verify_loop alg key (proof_node pfx t :: nodes) h b =
  match nodes with
  | [] => Ok tt
  | next_node :: _ =>
      match next_nibble (pfx ++ tpath t) key with
      | None => Err ShouldBePrefixOfProvenKey
      | Some i =>
          if negb (bool_decide (next_nibble (pfx ++ tpath t) (full_path next_node) = Some i)) then Err ShouldBePrefixOfNextKey
          else
            match Children_get (kid_hashes alg (pfx ++ tpath t) (tkids t)) i with
            | None => Err NodeNotInTrie
            | Some h =>
                verify_loop alg key nodes h
                  (Nat.eqb (length (pfx ++ tpath t)) ACCOUNT_DEPTH_NIBBLES
                   && Nat.eqb (Children_count (kid_hashes alg (pfx ++ tpath t) (tkids t))) 1)
            end
      end
  end.
Proof.
  intros Hwf Hb He. destruct (computed_ok b pfx t h Hwf Hb He) as (g & Hg & Heq).
  cbn [verify_loop]. unfold computed in Hg. rewrite Hg, Heq.
  assert (Hev : negb (Nat.even (length (pfx ++ tpath t))) &&
    bool_decide (is_Some (value_digest (proof_node pfx t))) = false).
  { destruct t as [pp v ks]. inversion Hb as [? ? ? ? _ Hv _]; subst. destruct v as [x|].
    - destruct (Hv x eq_refl) as [_ Hev]. cbn [tpath]. by rewrite Hev.
    - apply andb_false_iff. right. apply bool_decide_eq_false. intros [d Hd].
      cbn [value_digest ProofNode_Hashable pn_value_digest proof_node tval] in Hd. unfold proof_value, settled_value in Hd.
      clear Hg He. by destruct must_recompute; [destruct (is_ethereum alg && _)|]. }
  cbn [negb]. change (full_path (proof_node pfx t)) with (pfx ++ tpath t). rewrite Hev.
  replace (is_ethereum alg && match value_digest (proof_node pfx t) with Some (DigestHash _) => true | _ => false end)
    with false; [done|].
  cbn [value_digest ProofNode_Hashable pn_value_digest proof_node].
  destruct (proof_value _ _ _); simpl; by rewrite andb_false_r.
Qed.

(** The verifier accepts the chain. *)
Lemma chain_verifies pfx t r nodes found b h :
  proof_chain pfx t r nodes found -> trie_wf t -> byte_trie pfx t -> expects b pfx t h ->
  verify_loop alg (pfx ++ r) nodes h b = Ok tt.
Proof.
  intros Hch. revert b h.
  induction Hch as [pfx pp v ks | pfx t r Hs | pfx pp v ks i r Hi Hg | pfx pp v ks i g t r nodes found Hi Hg Hch IH];
    intros b h Hwf Hb He; rewrite verify_loop_cons by done; try done.
  destruct (chain_head _ _ _ _ _ Hch) as [rest ->]. cbn [tpath tkids].
  replace (next_nibble (pfx ++ pp) (pfx ++ pp ++ i :: r)) with (Some i).
  2: { symmetry. apply next_nibble_Some. exists r. by rewrite <- app_assoc. }
  rewrite bool_decide_true.
  2: { apply next_nibble_Some. exists (tpath t). simpl. by rewrite <- !app_assoc. }
  simpl negb. cbv iota. rewrite kid_hashes_get, Hg by done. cbn [fmap option_fmap option_map snd].
  replace (pfx ++ pp ++ i :: r) with (((pfx ++ pp) ++ [i]) ++ r) by (by rewrite <- !app_assoc).
  pose proof (trie_wf_inv _ _ _ Hwf) as (_ & Hk & Hkids). inversion Hb as [? ? ? ? _ _ Hbk]; subst.
  apply IH; [by eapply Hkids | by eapply Hbk | by eapply expects_child].
Qed.

(** ** Walking down the trie *)

Lemma path_next_ok pfx n t it ns :
  committed alg rd pfx n t -> trie_wf t -> is_path pfx -> holds alg rd ns -> NibblesIterator_wf it ->
  is_path (remaining it) ->
  (exists found,
     PathIterator_next alg must_recompute (PathIterating pfx it n) ns =
       (Some (Ok (mkPathIterItem (pfx ++ tpath t) n None must_recompute)), PathExhausted, ns) /\
     proof_chain pfx t (remaining it) [proof_node pfx t] found) \/
  (exists pp v ks i g u n' it' ns',
     t = T pp v ks /\ is_nibble i /\ Children_get ks i = Some (g, u) /\ committed alg rd ((pfx ++ pp) ++ [i]) n' u /\
     PathIterator_next alg must_recompute (PathIterating pfx it n) ns =
       (Some (Ok (mkPathIterItem (pfx ++ tpath t) n (Some i) must_recompute)), PathIterating ((pfx ++ pp) ++ [i]) it' n', ns') /\
     recorded alg rd ns [] ns' /\ NibblesIterator_wf it' /\ remaining it = pp ++ i :: remaining it').
Proof.
  intros Hc Hwf Hpfx Hh Hit Hr. cbn [PathIterator_next].
  pose proof (compare_partial_path_spec (partial_path n) it Hit) as Hcmp.
  rewrite (committed_path _ _ _ _ _ Hc) in *. destruct (compare_partial_path (tpath t) it) as [ord it'].
  assert (Hfull : is_path (pfx ++ tpath t)).
  { apply is_path_app. split; [done|]. destruct t. by destruct (trie_wf_inv _ _ _ Hwf). }
  rewrite path_from_unpacked_bytes_path by done.
  destruct ord; [|left; exists None; split; [done | apply chain_diverges; by destruct Hcmp]..].
  destruct Hcmp as [Hit' Hrem]. pose proof (next_remaining it' Hit') as Hnext. rewrite Hrem in Hr |- *.
  apply is_path_app in Hr as [_ Hr'].
  destruct Hc as [pfx l | pfx pp v c ks Hcw Hkw Hslots]; cbn [tpath] in *.
  - left. destruct (remaining it') as [|i r].
    + eexists. split; [done|]. rewrite app_nil_r. apply chain_found.
    + apply is_path_cons in Hr' as [Hi _]. exists None. split; [done|]. apply chain_no_child; [done | by rewrite Children_get_new].
  - destruct (NibblesIterator_next it') as [o it2]. destruct Hnext as (Hit2 & -> & Hrem2).
    destruct (remaining it') as [|i r]; simpl head in *; simpl tail in *.
    { left. eexists. split; [done|]. rewrite app_nil_r. apply chain_found. }
    apply is_path_cons in Hr' as [Hi Hr']. cbn [head]. rewrite PathComponent_try_new_nibble by done. cbn [branch_children].
    specialize (Hslots i Hi). destruct (Children_get ks i) as [[g u]|] eqn:Hg; inversion Hslots as [|? ? ? c' n' u' Hch Hn' Hcom]; subst.
    + destruct (read_child_node_spec alg rd ns c' n' Hh Hn') as (ns' & Hrun & Hrec).
      right. exists pp, v, ks, i, (child_handle c'), u, n', it2, ns'. split_and!; try done. by rewrite Hrun.
    + left. exists None. split; [done|]. by apply chain_no_child.
Qed.

Lemma collect_path_ok fuel pfx n t it ns :
  committed alg rd pfx n t -> trie_wf t -> is_path pfx -> holds alg rd ns -> NibblesIterator_wf it ->
  is_path (remaining it) -> (S (length (remaining it)) < fuel)%nat ->
  exists items ns' found,
    collect_path alg must_recompute fuel (PathIterating pfx it n) ns = (Ok items, ns') /\
    recorded alg rd ns [] ns' /\ proof_chain pfx t (remaining it) (from_path_item alg <$> items) found.
Proof.
  revert pfx n t it ns. induction fuel as [|fuel IH]; intros pfx n t it ns Hc Hwf Hpfx Hh Hit Hr Hf; [lia|].
  cbn [collect_path].
  destruct (path_next_ok pfx n t it ns Hc Hwf Hpfx Hh Hit Hr)
    as [(found & -> & Hch) | (pp & v & ks & i & g & u & n' & it' & ns' & -> & Hi & Hg & Hcom & -> & Hrec & Hit' & Hrem)].
  - destruct fuel as [|fuel]; [lia|]. eexists [_], ns, found. split; [done|]. split; [by apply recorded_refl|].
    simpl. by rewrite from_path_item_ok.
  - rewrite Hrem in Hr, Hf |- *. apply is_path_app in Hr as [Hpp [_ Hr]%is_path_cons].
    rewrite length_app in Hf. simpl in Hf. destruct (trie_wf_inv _ _ _ Hwf) as (_ & _ & Hkids).
    destruct (IH ((pfx ++ pp) ++ [i]) n' u it' ns' Hcom ltac:(by eapply Hkids)) as (items & ns2 & found & Hrun & Hrec2 & Hch).
    { apply is_path_app. split; [by apply is_path_app | apply is_path_cons; split; [done | constructor]]. }
    { by eapply recorded_holds. }
    { done. }
    { done. }
    { lia. }
    rewrite Hrun. eexists (_ :: items), ns2, found. split; [done|].
    split; [by apply (recorded_trans alg rd ns ns' ns2 [] [])|].
    rewrite fmap_cons, from_path_item_ok by done. by eapply chain_step.
Qed.

(** [prove] collects the chain of a key. *)
Lemma prove_chain (ns : NodeStore St) n t key :
  ns_root ns = Some n -> committed alg rd [] n t -> trie_wf t -> holds alg rd ns -> is_bytes key ->
  exists proof ns' found,
    prove alg must_recompute key ns = (Ok proof, ns') /\ recorded alg rd ns [] ns' /\ proof_chain [] t (nibbles_of key) proof found.
Proof.
  intros Hroot Hc Hwf Hh Hk. unfold prove. rewrite Hroot. unfold PathIterator_new. rewrite Hroot.
  destruct (collect_path_ok (S (S (BYTES_PER_NIBBLE * length key))) [] n t (NibblesIterator_new key) ns Hc Hwf)
    as (items & ns' & found & -> & Hrec & Hch); [constructor | done | by apply NibblesIterator_new_wf | ..].
  { rewrite remaining_new. by apply is_path_nibbles_of. }
  { rewrite remaining_new, length_nibbles_of. unfold BYTES_PER_NIBBLE. lia. }
  rewrite remaining_new in Hch. by eexists _, ns', found.
Qed.

(** What a chain shows under the root hash. *)
Lemma chain_value_digest t key proof found :
  proof_chain [] t (nibbles_of key) proof found -> trie_wf t -> byte_trie [] t -> is_bytes key ->
  proof_value_digest alg proof key (into_triehash (troot_hash alg t)) = Ok (found ≫= fun p => pn_value_digest (proof_node p.1 p.2)).
Proof.
  intros Hch Hwf Hb Hk. destruct (chain_conclusion _ _ _ _ _ Hch) as (l & Hl & Hcon). apply proof_value_digest_Ok; [done|]. exists l.
  split; [done|]. split; [|exact Hcon]. apply (chain_verifies _ _ _ _ _ false _ Hch Hwf Hb).
  unfold expects. rewrite andb_false_r. apply HashType_eq_root.
Qed.

(** C5: proofs are complete.  For every key, present or not, [Merkle::prove] on a
    hashed trie, partly in memory and partly on disk, makes a proof, and the proof
    verifies against the root hash under both hashing schemes, the storage tries of
    Ethereum accounts included.  What it shows is what the trie holds under the key;
    only the value of an account may be shown with its storage root computed again,
    when the store asks for that. *)
Theorem prove_complete (ns : NodeStore St) n t key :
  ns_root ns = Some n -> committed alg rd [] n t -> trie_wf t -> byte_trie [] t -> holds alg rd ns -> is_bytes key ->
  exists proof ns' d,
    prove alg must_recompute key ns = (Ok proof, ns') /\ recorded alg rd ns [] ns' /\
    proof_value_digest alg proof key (into_triehash (troot_hash alg t)) = Ok d /\
    (is_Some d <-> is_Some (tget t (nibbles_of key))) /\
    (is_ethereum alg && must_recompute = false \/ length key <> 32%nat ->
     d = DigestValue <$> tget t (nibbles_of key)).
Proof.
  intros Hroot Hc Hwf Hb Hh Hk. destruct (prove_chain ns n t key Hroot Hc Hwf Hh Hk) as (proof & ns' & found & Hrun & Hrec & Hch).
  destruct (chain_tget _ _ _ _ _ Hch) as [Hget Hfull]. eexists proof, ns', _. split; [done|]. split; [done|].
  split; [by eapply chain_value_digest|].
  rewrite Hget. destruct found as [[p u]|]; simpl; [|by split; [split; intros []|]].
  unfold proof_value, settled_value. split.
  - rewrite fmap_is_Some. destruct must_recompute; [|done]. destruct (_ && _); [by rewrite fmap_is_Some | done].
  - simpl in Hfull. rewrite Hfull, length_nibbles_of. intros Hne.
    destruct must_recompute; [|done]. destruct (is_ethereum alg); [|done]. cbn [andb].
    destruct (Nat.eqb_spec (2 * length key) 64); [|done]. destruct Hne; [done | lia].
Qed.

End Complete.

(** ** Witness: a storage slot that is alone below its account *)

From S2P Require Import Linear.

Section CompleteWitness.
Import Leb128 FirstBytes.

Definition w_lone_slot : Node := Leaf (mkLeaf (replicate 63 0) [7]).
Definition w_lone_trie : trie := T (replicate 63 0) (Some [7]) Children_new.

Definition w_lone_child : Child :=
  ChildMaybePersisted (Unpersisted w_lone_slot) (thash Ethereum (replicate 64 0) (3 :: replicate 63 0) w_lone_trie).

Definition w_hashed_account : Node :=
  Branch (mkBranch (replicate 64 0) (Some w_account_value) (Children_set Children_new 3 (Some w_lone_child))).

Definition w_hashed_trie : trie :=
  T (replicate 64 0) (Some w_account_value) (Children_set Children_new 3 (Some (child_handle w_lone_child, w_lone_trie))).

Definition w_hashed_store : NodeStore MemStore := mkNodeStore (Some w_hashed_account) (Propose []) (mkMemStore []) true.

Lemma w_hashed_committed : committed Ethereum w_eth_rd [] w_hashed_account w_hashed_trie.
Proof.
  constructor; [apply Children_set_wf, Children_new_wf.. |]. intros i Hi. destruct (decide (i = 3)) as [->|Hne].
  - rewrite !Children_get_set by (apply Children_new_wf || done). apply committed_some with w_lone_slot; [done | done |].
    apply (committed_leaf _ _ _ (mkLeaf (replicate 63 0) [7])).
  - rewrite !Children_get_set_ne, !Children_get_new by (done || split; lia). constructor.
Qed.

Lemma w_hashed_wf : trie_wf w_hashed_trie.
Proof. apply trie_wf_set; [split; lia | apply trie_wf_leaf, w_zeros | intros ? ? [= _ <-]; apply trie_wf_leaf, w_zeros]. Qed.

Lemma w_hashed_bytes : byte_trie [] w_hashed_trie.
Proof.
  apply byte_trie_set; [split; lia | apply Children_new_wf | apply byte_trie_new; [done|] | apply byte_trie_new; [done|]];
    intros x [= <-]; (split; [|done]); (split; [|done]); apply (bool_decide_unpack (Forall (fun x => 0 <= x /\ x <= U8_MAX) _));
    vm_compute; exact I.
Qed.

Lemma prove_complete_witness :
  exists proof ns',
    prove Ethereum true (replicate 32 0 ++ [48] ++ replicate 31 0) w_hashed_store = (Ok proof, ns') /\
    proof_value_digest Ethereum proof (replicate 32 0 ++ [48] ++ replicate 31 0)
      (into_triehash (troot_hash Ethereum w_hashed_trie)) = Ok (Some (DigestValue [7])).
Proof.
  assert (Hk : is_bytes (replicate 32 0 ++ [48] ++ replicate 31 0)).
  { apply (bool_decide_unpack (Forall (fun x => 0 <= x /\ x <= U8_MAX) _)). vm_compute. exact I. }
  destruct (prove_complete Ethereum w_eth_rd true w_hashed_store w_hashed_account w_hashed_trie _ eq_refl
    w_hashed_committed w_hashed_wf w_hashed_bytes w_eth_holds Hk) as (proof & ns' & d & Hp & _ & Hd & _ & He).
  exists proof, ns'. split; [exact Hp|]. rewrite Hd, He; [reflexivity | right; discriminate].
Defined.

End CompleteWitness.
