(* ===== verification/ProofWire.v ===== *)
(** * The wire format of proofs

    [firewood/src/proofs/header.rs], [reader.rs], [frame.rs], [ser.rs] and [de.rs]:
    a fixed header followed by a compressed body of proof nodes and key-value pairs
    or batch operations.  The zstd library is the class [Zstd]; [u64::decode_var] of
    the [integer_encoding] crate is the class [DecodeVar]. *)

From S2P Require Import Prelude Primitives NodePath Node Codec NodeCodec Header ChildMask Rlp Hashing Iter ProofTypes KeyProof.
From Stdlib Require String.
Import String.StringSyntax.
Local Open Scope string_scope.
Local Open Scope Z_scope.

(** ** Parameters *)

Class DecodeVar : Type := { decode_var : bytes -> option (Z * nat) }.

(** An encoded integer is decoded from the front of a slice; a decoded integer is a
    [u64] and was read from the slice. *)
Class DecodeVarLaws `{VarInt} `{DecodeVar} : Prop := {
  decode_var_encode n rest : u64 n -> decode_var (encode_var n ++ rest) = Some (n, length (encode_var n));
  decode_var_bound bs n k : decode_var bs = Some (n, k) -> u64 n /\ (k <= length bs)%nat;
}.

(** The calls into zstd.  [zstd_encode pledged blocks] is the streaming encoder that
    is told the size of its input and flushed after every block: the bytes it wrote
    and the error that stopped it.  [zstd_decompress frame capacity] gives the bytes
    written to a buffer of that capacity. *)
Class Zstd : Type := {
  zstd_compress : bytes -> result io_error bytes;
  zstd_encode : Z -> list bytes -> bytes * option io_error;
  find_frame_compressed_size : bytes -> option Z;
  get_frame_content_size : bytes -> option (option Z);
  zstd_decompress : bytes -> Z -> result io_error bytes;
}.

(** [frame] is a frame of [body]: it ends where its bytes end, its header has the
    size of the body, and a buffer of that size receives the body. *)
Definition frame_of `{Zstd} (frame body : bytes) : Prop :=
  find_frame_compressed_size frame = Some (len frame) /\
  get_frame_content_size frame = Some (Some (len body)) /\
  zstd_decompress frame (len body) = Ok body.

(** Both compressors make frames; a flushed block takes at least one byte; and
    decompression stays within the buffer. *)
Class ZstdLaws `{Zstd} : Prop := {
  zstd_compress_frame body frame : is_bytes body -> zstd_compress body = Ok frame -> frame_of frame body;
  zstd_encode_frame blocks frame :
    Forall is_bytes blocks -> zstd_encode (len (concat blocks)) blocks = (frame, None) ->
    frame_of frame (concat blocks);
  zstd_encode_blocks blocks frame :
    Forall (fun b => b <> []) blocks -> zstd_encode (len (concat blocks)) blocks = (frame, None) ->
    (length blocks <= length frame)%nat;
  zstd_decompress_bytes frame cap body :
    zstd_decompress frame cap = Ok body -> is_bytes body /\ len body <= cap;
}.

(** ** [magic] *)

Definition PROOF_HEADER : bytes := [102; 119; 100; 112; 114; 111; 111; 102].
Definition PROOF_VERSION : Z := 0.
Definition MERKLEDB_HASH_MODE : Z := 0.
Definition ETHEREUM_HASH_MODE : Z := 1.
Definition BRANCH_FACTOR : Z := 16.
Definition BATCH_PUT : Z := 0.
Definition BATCH_DELETE : Z := 1.
Definition BATCH_DELETE_RANGE : Z := 2.

(** ** The header *)

Record ProofHeader : Type := mkProofHeader {
  ph_magic : bytes;
  ph_version : Z;
  ph_hash_mode : Z;
  ph_branch_factor : Z;
  ph_proof_type : Z;
  ph_reserved : bytes;
}.

Definition PROOF_HEADER_SIZE : nat := 32.

(** [bytemuck::bytes_of] and [bytemuck::cast] on the packed layout. *)
Definition ProofHeader_bytes (h : ProofHeader) : bytes :=
  ph_magic h ++ [ph_version h; ph_hash_mode h; ph_branch_factor h; ph_proof_type h] ++ ph_reserved h.

Definition ProofHeader_cast (bs : bytes) : ProofHeader :=
  mkProofHeader (take 8 bs) (nth 8 bs 0) (nth 9 bs 0) (nth 10 bs 0) (nth 11 bs 0) (drop 12 bs).

(** [From<(ProofType, NodeHashAlgorithm)> for Header]. *)
Definition ProofHeader_from (proof_type : ProofType) (hash_mode : NodeHashAlgorithm) : ProofHeader :=
  let hash_mode := match hash_mode with MerkleDB => MERKLEDB_HASH_MODE | Ethereum => ETHEREUM_HASH_MODE end in
  mkProofHeader PROOF_HEADER PROOF_VERSION hash_mode BRANCH_FACTOR (ProofType_as_u8 proof_type) (replicate 20 0).

Record ValidatedHeader : Type := mkValidatedHeader {
  vh_proof_type : ProofType;
  vh_node_hash_algorithm : NodeHashAlgorithm;
}.

(** [Header::validate]. *)
Definition ProofHeader_validate (h : ProofHeader) (expected_type : option ProofType)
  : result InvalidHeader ValidatedHeader :=
  if negb (bool_decide (ph_magic h = PROOF_HEADER)) then Err (InvalidMagic (ph_magic h))
  else if negb (ph_version h =? PROOF_VERSION) then Err (UnsupportedVersion (ph_version h))
  else
    match algorithm_try_from (ph_hash_mode h) with
    | None => Err (UnsupportedHashMode (ph_hash_mode h))
    | Some algorithm =>
        if negb (ph_branch_factor h =? BRANCH_FACTOR) then Err (UnsupportedBranchFactor (ph_branch_factor h))
        else
          match ProofType_new (ph_proof_type h), expected_type with
          | None, expected => Err (InvalidProofType (ph_proof_type h) expected)
          | Some found, Some expected =>
              if negb (bool_decide (found = expected)) then Err (InvalidProofType (ph_proof_type h) (Some expected))
              else Ok (mkValidatedHeader found algorithm)
          | Some found, None => Ok (mkValidatedHeader found algorithm)
          end
    end.

(** ** Proofs *)

(** [BatchOp<Key, Value>]. *)
Inductive BatchOp : Type :=
| Put (key : bytes) (value : Value)
| Delete (key : bytes)
| DeleteRange (prefix : bytes).

(** [FrozenRangeProof] and [FrozenChangeProof]: the two edge proofs with key-value
    pairs or batch operations. *)
Record EdgeProofs (A : Type) : Type := mkEdgeProofs {
  start_proof : list ProofNode;
  end_proof : list ProofNode;
  contents_of : list A;
  hash_mode : NodeHashAlgorithm;
}.
Arguments mkEdgeProofs {A}.
Arguments start_proof {A}.
Arguments end_proof {A}.
Arguments contents_of {A}.
Arguments hash_mode {A}.

Abbreviation FrozenRangeProof := (EdgeProofs (bytes * Value)).
Abbreviation FrozenChangeProof := (EdgeProofs BatchOp).

(** ** Reading items *)

(** [ProofReader]: a slice and an offset into it. *)
Definition proof_reader (A : Type) : Type := bytes -> nat -> result ReadError (A * nat).

#[export] Instance proof_reader_ret : MRet proof_reader := fun _ a _ offset => Ok (a, offset).
#[export] Instance proof_reader_bind : MBind proof_reader :=
  fun _ _ f m data offset =>
    match m data offset with Ok (a, offset) => f a data offset | Err e => Err e end.

Definition map_err {A} (f : ReadError -> ReadError) (m : proof_reader A) : proof_reader A :=
  fun data offset => match m data offset with Ok a => Ok a | Err e => Err (f e) end.

Definition remainder : proof_reader bytes := fun data offset => Ok (drop offset data, offset).

Definition advance_by (n : nat) : proof_reader unit := fun _ offset => Ok (tt, (offset + n)%nat).

Definition incomplete_item {A} (item : item_name) (expected : Z) : proof_reader A :=
  fun data offset => Err (IncompleteItem item (Z.of_nat offset) expected (len data - Z.of_nat offset)).

Definition invalid_item {A} (item expected : item_name) : proof_reader A :=
  fun _ offset => Err (InvalidItem item (Z.of_nat offset) expected).

(** [read_chunk::<N>]. *)
Definition read_chunk (n : nat) : proof_reader bytes :=
  rem ← remainder;
  if (n <=? length rem)%nat then _ ← advance_by n; mret (take n rem)
  else incomplete_item "chunk" (Z.of_nat n).

(** [read_slice]. *)
Definition read_slice (n : Z) : proof_reader bytes :=
  rem ← remainder;
  if n <=? len rem then _ ← advance_by (Z.to_nat n); mret (take (Z.to_nat n) rem)
  else incomplete_item "byte slice" n.

(** [ProofReader::read_header]. *)
Definition read_header : proof_reader ProofHeader :=
  bs ← map_err (set_item "header") (read_chunk PROOF_HEADER_SIZE); mret (ProofHeader_cast bs).

Section Wire.
Context `{Digests} `{VarInt} `{DecodeVar}.

(** [ReadItem for usize]. *)
Definition read_usize : proof_reader Z :=
  rem ← remainder;
  match decode_var rem with
  | Some (n, size) => _ ← advance_by size; mret n
  | None =>
      match rem with
      | [] => incomplete_item "varint" 1
      | _ => invalid_item "varint" "byte with no MSB within 9 bytes"
      end
  end.

(** [ReadItem for &[u8]] and for [Box<[u8]>]. *)
Definition read_bytes_item : proof_reader bytes := n ← read_usize; read_slice n.

(** [ReadItem for u8]. *)
Definition read_u8 : proof_reader Z :=
  bs ← map_err (set_item "u8") (read_chunk 1); mret (nth 0 bs 0).

(** [ReadItem for Option<T>]. *)
Definition read_option {A} (read_item : proof_reader A) : proof_reader (option A) :=
  b ← map_err (set_item "option discriminant") read_u8;
  if b =? 0 then mret None
  else if b =? 1 then x ← read_item; mret (Some x)
  else invalid_item "option discriminant" "0 or 1".

(** [ReadItem for TrieHash]. *)
Definition read_trie_hash : proof_reader TrieHash := map_err (set_item "trie hash") (read_chunk 32).

(** [ReadItem for ChildMask]. *)
Definition read_child_mask : proof_reader ChildMask :=
  bs ← map_err (set_item "children map") (read_chunk 2); mret (mask_from_le_bytes bs).

Section Mode.
(** [node_hash_algorithm()] of the reader and of the writer. *)
Variable alg : NodeHashAlgorithm.

(** [ReadItem for HashType]. *)
Definition read_hash_type : proof_reader HashType :=
  if is_ethereum alg then
    b ← map_err (set_item "hash type discriminant") read_u8;
    if b =? 0 then h ← read_trie_hash; mret (Hash h)
    else if b =? 1 then r ← read_bytes_item; mret (Rlp r)
    else invalid_item "hash type discriminant" "0 (hash) or 1 (rlp)"
  else h ← read_trie_hash; mret (Hash h).

(** [ReadItem for ValueDigest]. *)
Definition read_value_digest : proof_reader ValueDigest :=
  b ← map_err (set_item "value digest discriminant") read_u8;
  if b =? 0 then v ← read_bytes_item; mret (DigestValue v)
  else if b =? 1 then h ← read_hash_type; mret (DigestHash h)
  else invalid_item "value digest discriminant" "0 (value) or 1 (hash)".

(** [MAX_KEY_BYTES] and [MAX_KEY_NIBBLES]. *)
Definition MAX_KEY_BYTES : Z := 1024.
Definition MAX_KEY_NIBBLES : Z := MAX_KEY_BYTES * 2.

(** [check_key_bytes]. *)
Definition check_key_bytes (key : bytes) : proof_reader unit :=
  if MAX_KEY_BYTES <? len key then invalid_item "key length" "at most 1024 bytes" else mret tt.

(** [Version0 for PathBuf]. *)
Definition read_v0_path : proof_reader Path :=
  bs ← read_bytes_item;
  if MAX_KEY_NIBBLES <? len bs then invalid_item "path length" "at most 2048 nibbles"
  else
    match path_from_unpacked_bytes bs with
    | Some path => mret path
    | None => invalid_item "path" "valid nibbles"
    end.

(** The hashes of the children named by the bitmap, put into their slots. *)
Fixpoint read_child_hashes (indices : list PathComponent) (child_hashes : Children (option HashType))
  : proof_reader (Children (option HashType)) :=
  match indices with
  | [] => mret child_hashes
  | idx :: indices =>
      h ← read_hash_type;
      read_child_hashes indices (Children_set child_hashes idx (Some h))
  end.

(** [Version0 for ProofNode]. *)
Definition read_v0_node : proof_reader ProofNode :=
  key ← read_v0_path;
  partial_len ← read_usize;
  if len key <? partial_len
  then invalid_item "partial key length" "value less than or equal to the key length"
  else
    value_digest ← read_option read_value_digest;
    children_map ← read_child_mask;
    child_hashes ← read_child_hashes (iter_indices children_map) Children_new;
    mret (mkProofNode key (Z.to_nat partial_len) value_digest child_hashes).

(** [Version0 for (Box<[u8]>, Box<[u8]>)]. *)
Definition read_v0_pair : proof_reader (bytes * Value) :=
  key ← read_bytes_item;
  _ ← check_key_bytes key;
  value ← read_bytes_item;
  mret (key, value).

(** [Version0 for BatchOp<Key, Value>]. *)
Definition read_v0_op : proof_reader BatchOp :=
  b ← map_err (set_item "option discriminant") read_u8;
  if b =? BATCH_PUT then
    key ← read_bytes_item; _ ← check_key_bytes key; value ← read_bytes_item; mret (Put key value)
  else if b =? BATCH_DELETE then key ← read_bytes_item; _ ← check_key_bytes key; mret (Delete key)
  else if b =? BATCH_DELETE_RANGE then prefix ← read_bytes_item; _ ← check_key_bytes prefix; mret (DeleteRange prefix)
  else invalid_item "option discriminant" "0, 1, or 2".

(** [collect] on a number of reads. *)
Fixpoint read_n {A} (n : nat) (read_item : proof_reader A) : proof_reader (list A) :=
  match n with
  | O => mret []
  | S n => x ← read_item; xs ← read_n n read_item; mret (x :: xs)
  end.

(** [Version0 for Box<[T]>], with [T::MIN_BYTES_PER_ITEM]. *)
Definition read_v0_array {A} (min_bytes_per_item : Z) (read_item : proof_reader A) : proof_reader (list A) :=
  num_items ← map_err (set_item "array length") read_usize;
  rem ← remainder;
  if len rem / min_bytes_per_item <? num_items
  then invalid_item "array length" "length less than or equal to the maximum possible items in remaining bytes"
  else read_n (Z.to_nat num_items) read_item.

(** [Version0 for FrozenRangeProof] and for [FrozenChangeProof]. *)
Definition read_v0_proof {A} (read_contents : proof_reader (list A)) : proof_reader (EdgeProofs A) :=
  start_proof ← read_v0_array 5 read_v0_node;
  end_proof ← read_v0_array 5 read_v0_node;
  key_values ← read_contents;
  mret (mkEdgeProofs start_proof end_proof key_values alg).

Definition read_v0_range_proof : proof_reader FrozenRangeProof := read_v0_proof (read_v0_array 2 read_v0_pair).
Definition read_v0_change_proof : proof_reader FrozenChangeProof := read_v0_proof (read_v0_array 2 read_v0_op).

(** ** Writing items *)

(** [WriteItem for [u8]] and for [PathBuf]. *)
Definition write_bytes_item (b : bytes) : bytes := encode_var (len b) ++ b.

(** [WriteItem for HashType]. *)
Definition write_hash_type (h : HashType) : result failure bytes :=
  if is_ethereum alg then
    match h with
    | Hash h => Ok (0 :: h)
    | Rlp r => Ok (1 :: write_bytes_item r)
    end
  else
    match h with
    | Hash h => Ok h
    | Rlp _ => Err Panic
    end.

(** [WriteItem for ValueDigest]. *)
Definition write_value_digest (d : ValueDigest) : result failure bytes :=
  match make_hash d alg with
  | DigestValue v => Ok (0 :: write_bytes_item v)
  | DigestHash h => b ← write_hash_type h; mret (1 :: b)
  end.

(** [WriteItem for Option<T>]. *)
Definition write_option {A} (write_item : A -> result failure bytes) (o : option A) : result failure bytes :=
  match o with
  | Some v => b ← write_item v; mret (1 :: b)
  | None => mret [0]
  end.

(** The items one after the other. *)
Fixpoint write_items {A} (write_item : A -> result failure bytes) (l : list A) : result failure bytes :=
  match l with
  | [] => mret []
  | x :: l => a ← write_item x; b ← write_items write_item l; mret (a ++ b)
  end.

(** [WriteItem for [T]]. *)
Definition write_array {A} (write_item : A -> result failure bytes) (l : list A) : result failure bytes :=
  b ← write_items write_item l; mret (encode_var (len l) ++ b).

(** [DenseChildren::bitmap]: the present slots. *)
Definition children_bitmap {A} (c : Children (option A)) : ChildMask :=
  foldl mask_set 0 (Children_iter_present c).*1.

(** [WriteItem for ProofNode]. *)
Definition write_node (n : ProofNode) : result failure bytes :=
  vd ← write_option write_value_digest (pn_value_digest n);
  children ← write_items (fun p => write_hash_type p.2) (Children_iter_present (pn_child_hashes n));
  mret (write_bytes_item (pn_key n) ++ encode_var (Z.of_nat (pn_partial_len n)) ++ vd
        ++ mask_to_le_bytes (children_bitmap (pn_child_hashes n)) ++ children).

(** [WriteItem for (K, V)]. *)
Definition write_pair (p : bytes * Value) : result failure bytes :=
  mret (write_bytes_item p.1 ++ write_bytes_item p.2).

(** One item of [WriteItem for [BatchOp<Key, Value>]]. *)
Definition write_op (op : BatchOp) : result failure bytes :=
  mret match op with
  | Put key value => BATCH_PUT :: write_bytes_item key ++ write_bytes_item value
  | Delete key => BATCH_DELETE :: write_bytes_item key
  | DeleteRange prefix => BATCH_DELETE_RANGE :: write_bytes_item prefix
  end.

End Mode.

(** [write_body_to_vec]. *)
Definition write_body {A} (write_item : A -> result failure bytes) (p : EdgeProofs A) : result failure bytes :=
  a ← write_array (write_node (hash_mode p)) (start_proof p);
  b ← write_array (write_node (hash_mode p)) (end_proof p);
  c ← write_array write_item (contents_of p);
  mret (a ++ b ++ c).

(** ** The frame *)

Context `{Zstd}.

Definition MAX_DECOMPRESSED_LEN : Z := 6 * 1024 * 1024.
Definition MAX_COMPRESSION_RATIO : Z := 128.

Definition saturating_mul_u64 (a b : Z) : Z := Z.min (a * b) U64_MAX.

(** [validate_frame]. *)
Definition validate_frame (frame : bytes) (frame_offset : Z) : result ReadError Z :=
  match find_frame_compressed_size frame with
  | None => Err (InvalidItem "compressed body frame" frame_offset "a valid zstd frame")
  | Some frame_size =>
      if negb (frame_size =? len frame)
      then Err (InvalidItem "compressed body frame" frame_offset "a single zstd frame spanning the entire remainder")
      else
        match get_frame_content_size frame with
        | Some (Some content_size) =>
            if negb (content_size =? 0) && (content_size <=? MAX_DECOMPRESSED_LEN) then
              if saturating_mul_u64 (len frame) MAX_COMPRESSION_RATIO <? content_size
              then Err (InvalidItem "frame content size" frame_offset
                          "content size within the maximum compression ratio of the frame length")
              else Ok content_size
            else Err (InvalidItem "frame content size" frame_offset "a non-zero content size within the maximum")
        | _ => Err (InvalidItem "frame content size" frame_offset "a content size in the frame header")
        end
  end.

(** [decompress_body]: the buffer is zeroed first. *)
Definition decompress_body (frame : bytes) (frame_offset : Z) : result ReadError bytes :=
  decoded_len ← validate_frame frame frame_offset;
  match zstd_decompress frame decoded_len with
  | Ok written => Ok (written ++ replicate (Z.to_nat (decoded_len - len written)) 0)
  | Err _ => Err (InvalidItem "compressed body frame" frame_offset "a valid zstd frame")
  end.

(** [chunks]. *)
Fixpoint chunks (fuel n : nat) (bs : bytes) : list bytes :=
  match fuel, bs with
  | S fuel, _ :: _ => take n bs :: chunks fuel n (drop n bs)
  | _, _ => []
  end.

(** [write_compressed_body]: the result and the buffer. *)
Definition write_compressed_body (body out : bytes) : result ProofError unit * bytes :=
  match zstd_compress body with
  | Err e => (Err (Compression e), out)
  | Ok compressed =>
      if len body <=? saturating_mul_u64 (len compressed) MAX_COMPRESSION_RATIO then (Ok tt, out ++ compressed)
      else
        match zstd_encode (len body) (chunks (length body) (Z.to_nat MAX_COMPRESSION_RATIO) body) with
        | (written, None) => (Ok tt, out ++ written)
        | (written, Some e) => (Err (Compression e), out ++ written)
        end
  end.

(** [check_body_len]. *)
Definition check_body_len (n : Z) : result ProofError unit :=
  if MAX_DECOMPRESSED_LEN <? n then Err (BodyTooLarge n MAX_DECOMPRESSED_LEN) else Ok tt.

(** [write_framed_body]. *)
Definition write_framed_body (body : bytes) (kind : ProofType) (mode : NodeHashAlgorithm) (out : bytes)
  : result ProofError unit * bytes :=
  match check_body_len (len body) with
  | Err e => (Err e, out)
  | Ok _ =>
      let start := length out in
      let out := out ++ ProofHeader_bytes (ProofHeader_from kind mode) in
      let '(res, out) := write_compressed_body body out in
      match res with
      | Err e => (Err e, take start out)
      | Ok _ => (Ok tt, out)
      end
  end.

(** [write_to_vec] of a range proof and of a change proof; [None] is a panic. *)
Definition write_to_vec {A} (kind : ProofType) (write_item : A -> result failure bytes)
  (p : EdgeProofs A) (out : bytes) : option (result ProofError unit * bytes) :=
  match write_body write_item p with
  | Ok body => Some (write_framed_body body kind (hash_mode p) out)
  | Err _ => None
  end.

Definition range_write_to_vec : FrozenRangeProof -> bytes -> option (result ProofError unit * bytes) :=
  write_to_vec Range write_pair.
Definition change_write_to_vec : FrozenChangeProof -> bytes -> option (result ProofError unit * bytes) :=
  write_to_vec Change write_op.

(** ** Messages *)

(** The body of [from_slice], shared by the two kinds of proofs. *)
Definition from_slice {A} (kind : ProofType) (read_contents : proof_reader (list A)) (data : bytes)
  : result ReadError (EdgeProofs A) :=
  match read_header data 0%nat with
  | Err e => Err e
  | Ok (header, offset) =>
      match ProofHeader_validate header (Some kind) with
      | Err e => Err (ReadInvalidHeader e)
      | Ok validated_header =>
          if negb (ph_version header =? 0) then Err (ReadInvalidHeader (UnsupportedVersion (ph_version header)))
          else
            match decompress_body (drop offset data) (Z.of_nat PROOF_HEADER_SIZE) with
            | Err e => Err e
            | Ok body =>
                match read_v0_proof (vh_node_hash_algorithm validated_header) read_contents body 0%nat with
                | Err e => Err e
                | Ok (this, offset) =>
                    match drop offset body with
                    | [] => Ok this
                    | _ => Err (InvalidItem "trailing bytes" (Z.of_nat offset) "no data after the proof")
                    end
                end
            end
      end
  end.

Definition range_from_slice : bytes -> result ReadError FrozenRangeProof := from_slice Range (read_v0_array 2 read_v0_pair).
Definition change_from_slice : bytes -> result ReadError FrozenChangeProof := from_slice Change (read_v0_array 2 read_v0_op).

(** [check_header_hash_mode]. *)
Definition check_header_hash_mode (data : bytes) (proof_type : ProofType) (expected : NodeHashAlgorithm)
  : result ProofError unit :=
  match read_header data 0%nat with
  | Err e => Err (Deserialization e)
  | Ok (header, _) =>
      match ProofHeader_validate header (Some proof_type) with
      | Err e => Err (Deserialization (ReadInvalidHeader e))
      | Ok vh =>
          if decide (vh_node_hash_algorithm vh = expected) then Ok tt
          else Err (HashModeMismatch expected (vh_node_hash_algorithm vh))
      end
  end.

(** [from_slice_in_mode]. *)
Definition from_slice_in_mode {A} (kind : ProofType) (from_slice : bytes -> result ReadError (EdgeProofs A))
  (data : bytes) (expected : NodeHashAlgorithm) : result ProofError (EdgeProofs A) :=
  _ ← check_header_hash_mode data kind expected;
  match from_slice data with
  | Ok p => Ok p
  | Err e => Err (Deserialization e)
  end.

End Wire.
