(* ===== verification/ProofWireSpec.v ===== *)
(** * The wire format of proofs: round trips and limits

    Whatever a writer emits is read back; whatever a reader accepts is within the
    limits of the format. *)

From S2P Require Import Prelude Primitives NodePath Node Codec NodeCodec Header ChildMask Rlp Hashing HashSpec.
From S2P Require Import Iter ProofTypes KeyProof ProofWire.

(** ** Readers *)

(** [reads m x enc]: wherever [enc] is in a slice, [m] reads [x] from it and stops at
    its end. *)
Definition reads {A} (m : proof_reader A) (x : A) (enc : bytes) : Prop :=
  forall pre suf, m (pre ++ enc ++ suf) (length pre) = Ok (x, (length pre + length enc)%nat).

Lemma reads_ret {A} (x : A) : reads (mret x) x [].
Proof. intros pre suf. unfold mret, proof_reader_ret. by rewrite Nat.add_0_r. Qed.

Lemma reads_bind {A B} (m : proof_reader A) (f : A -> proof_reader B) x y enc enc' :
  reads m x enc -> reads (f x) y enc' -> reads (m ≫= f) y (enc ++ enc').
Proof.
  intros Hm Hf pre suf. unfold mbind, proof_reader_bind. rewrite <- app_assoc, (Hm pre (enc' ++ suf)).
  specialize (Hf (pre ++ enc) suf). rewrite length_app in Hf. rewrite <- app_assoc in Hf. rewrite Hf.
  by rewrite length_app, Nat.add_assoc.
Qed.

(** The last step of a sequence. *)
Lemma reads_map {A B} (m : proof_reader A) (f : A -> proof_reader B) x y enc :
  reads m x enc -> reads (f x) y [] -> reads (m ≫= f) y enc.
Proof. intros Hm Hf. rewrite <- (app_nil_r enc). by eapply reads_bind. Qed.

Lemma reads_map_err {A} f (m : proof_reader A) x enc : reads m x enc -> reads (map_err f m) x enc.
Proof. intros Hm pre suf. unfold map_err. by rewrite Hm. Qed.

Lemma reads_chunk n enc : length enc = n -> reads (read_chunk n) enc enc.
Proof.
  intros <- pre suf. unfold read_chunk, remainder, mbind, proof_reader_bind. rewrite drop_app_length, length_app.
  destruct (Nat.leb_spec (length enc) (length enc + length suf)); [|lia].
  unfold advance_by, mret, proof_reader_ret. by rewrite take_app_length.
Qed.

Lemma reads_slice enc : reads (read_slice (len enc)) enc enc.
Proof.
  intros pre suf. unfold read_slice, remainder, mbind, proof_reader_bind. rewrite drop_app_length, length_app.
  destruct (Z.leb_spec (len enc) (Z.of_nat (length enc + length suf))); [|lia].
  unfold advance_by, mret, proof_reader_ret. by rewrite Nat2Z.id, take_app_length.
Qed.

Lemma reads_u8 b : reads read_u8 b [b].
Proof. unfold read_u8. eapply reads_map; [by apply reads_map_err, reads_chunk | apply reads_ret]. Qed.

(** [ensures m P]: on a slice of bytes, [m] returns only what satisfies [P]. *)
Definition ensures {A} (m : proof_reader A) (P : A -> Prop) : Prop :=
  forall data offset x offset', is_bytes data -> len data <= U64_MAX ->
  m data offset = Ok (x, offset') -> P x.

Lemma ensures_ret {A} (x : A) (P : A -> Prop) : P x -> ensures (mret x) P.
Proof. intros Hx data offset y offset' _ _ [= <- _]. done. Qed.

Lemma ensures_bind {A B} (m : proof_reader A) (f : A -> proof_reader B) (P : A -> Prop) (Q : B -> Prop) :
  ensures m P -> (forall x, P x -> ensures (f x) Q) -> ensures (m ≫= f) Q.
Proof.
  intros Hm Hf data offset y offset' Hd Hl. unfold mbind, proof_reader_bind.
  destruct (m data offset) as [[x o]|] eqn:E; [|done]. intros Hy. eapply (Hf x); [by eapply Hm | exact Hd | exact Hl | exact Hy].
Qed.

Lemma ensures_map_err {A} f (m : proof_reader A) P : ensures m P -> ensures (map_err f m) P.
Proof.
  intros Hm data offset x offset' Hd Hl. unfold map_err. destruct (m data offset) as [[y o]|] eqn:E; [|done].
  intros [= <- <-]. by eapply Hm.
Qed.

Lemma ensures_invalid {A} item expected (P : A -> Prop) : ensures (invalid_item item expected) P.
Proof. intros data offset x offset' _ _ [=]. Qed.

Lemma ensures_incomplete {A} item expected (P : A -> Prop) : ensures (incomplete_item item expected) P.
Proof. intros data offset x offset' _ _ [=]. Qed.

Lemma ensures_weaken {A} (m : proof_reader A) (P Q : A -> Prop) :
  ensures m P -> (forall x, P x -> Q x) -> ensures m Q.
Proof. intros Hm HPQ data offset x offset' Hd Hl Hr. by eapply HPQ, Hm. Qed.

(** A slice of the data. *)
Definition small_bytes (b : bytes) : Prop := is_bytes b /\ len b <= U64_MAX.

Lemma ensures_remainder : ensures remainder small_bytes.
Proof.
  intros data offset x offset' Hd Hl [= <- _]. split; [by apply Forall_drop | rewrite length_drop; lia].
Qed.

Lemma ensures_take n rem : small_bytes rem -> small_bytes (take n rem).
Proof. intros [Hb Hl]. split; [by apply Forall_take | rewrite length_take; lia]. Qed.

Lemma ensures_chunk n : ensures (read_chunk n) (fun b => small_bytes b /\ length b = n).
Proof.
  unfold read_chunk. eapply ensures_bind; [apply ensures_remainder|]. intros rem Hrem.
  destruct (Nat.leb_spec n (length rem)); [|apply ensures_incomplete].
  eapply (ensures_bind _ _ (fun _ => True)); [done|]. intros _ _. apply ensures_ret.
  split; [by apply ensures_take | rewrite length_take; lia].
Qed.

Lemma ensures_slice n : ensures (read_slice n) small_bytes.
Proof.
  unfold read_slice. eapply ensures_bind; [apply ensures_remainder|]. intros rem Hrem.
  destruct (n <=? len rem); [|apply ensures_incomplete].
  eapply (ensures_bind _ _ (fun _ => True)); [done|]. intros _ _. by apply ensures_ret, ensures_take.
Qed.

(** One step of a proof that a sequence of reads is within its limits. *)
Ltac estep lem :=
  eapply ensures_bind; [first [apply lem | apply ensures_map_err, lem]|]; cbv beta.

Lemma ensures_u8 : ensures read_u8 (fun _ => True).
Proof. unfold read_u8. estep ensures_chunk. intros b _. by apply ensures_ret. Qed.

(** ** Bitmaps *)

Lemma foldl_mask_set_wf l m : Forall is_nibble l -> ChildMask_wf m -> ChildMask_wf (foldl mask_set m l).
Proof.
  intros Hl. revert m. induction Hl as [|n l Hn _ IH]; intros m Hm; [done|]. apply IH.
  unfold ChildMask_wf, is_nibble, U16_MAX in *. unfold mask_set.
  assert (Hs : 0 <= wrapping_shl_u16 1 n) by (apply Z.land_nonneg; by right).
  assert (Hlor : 0 <= Z.lor m (wrapping_shl_u16 1 n)) by (apply Z.lor_nonneg; lia). split; [done|].
  enough (Z.lor m (wrapping_shl_u16 1 n) < 2 ^ 16) by lia. apply Z.bounded_iff_bits_nonneg; [lia | done |].
  intros i Hi. rewrite Z.lor_spec, shl_one_bits by lia.
  rewrite (proj1 (Z.bounded_iff_bits_nonneg 16 m ltac:(lia) ltac:(lia)) ltac:(lia) i Hi). apply Z.eqb_neq. lia.
Qed.

Lemma is_set_foldl l m i :
  Forall is_nibble l -> is_nibble i -> is_set (foldl mask_set m l) i = is_set m i || bool_decide (i ∈ l).
Proof.
  intros Hl Hi. revert m. induction Hl as [|n l Hn _ IH]; intros m; simpl; [by rewrite orb_false_r|]. rewrite IH.
  assert (Hset : is_set (mask_set m n) i = is_set m i || (i =? n)).
  { unfold is_nibble in *. rewrite !is_set_testbit by lia. unfold mask_set. by rewrite Z.lor_spec, shl_one_bits by lia. }
  rewrite Hset, <- orb_assoc. f_equal. destruct (Z.eqb_spec i n) as [->|Hne]; simpl.
  - symmetry. apply bool_decide_eq_true. by constructor.
  - apply bool_decide_ext. rewrite elem_of_cons. naive_solver.
Qed.

(** The indices of the bitmap are the present slots. *)
Lemma bitmap_indices {A} (c : Children (option A)) :
  Children_wf c -> iter_indices (children_bitmap c) = (Children_iter_present c).*1.
Proof.
  intros Hc. rewrite (present_fst c Hc). unfold iter_indices. apply filter_ext_elem. intros i Hi.
  assert (Hin : is_nibble i) by (change PathComponent_ALL with (seqZ 0 16) in Hi; by apply elem_of_seqZ in Hi).
  assert (Hall : Forall is_nibble (Children_iter_present c).*1).
  { apply Forall_fmap, Forall_forall. intros [j x] Hj. by apply Children_iter_present_elem in Hj as [? _]. }
  unfold children_bitmap. rewrite is_set_foldl by done. change (is_set 0 i) with (negb (0 =? 0)). simpl.
  rewrite bool_decide_eq_true, (present_fst c Hc), list_elem_of_filter. naive_solver.
Qed.

(** ** Items *)

Section Items.
Context `{DigestsLaws} `{VarIntLaws} `{!DecodeVar} `{!DecodeVarLaws}.

Lemma reads_usize n : u64 n -> reads read_usize n (encode_var n).
Proof.
  intros Hn pre suf. unfold read_usize, remainder, mbind, proof_reader_bind.
  by rewrite drop_app_length, decode_var_encode.
Qed.

Lemma ensures_usize : ensures read_usize u64.
Proof.
  unfold read_usize. estep ensures_remainder. intros rem _. destruct (decode_var rem) as [[n k]|] eqn:E.
  - eapply (ensures_bind _ _ (fun _ => True)); [done|]. intros _ _. apply ensures_ret. by eapply decode_var_bound.
  - destruct rem; [apply ensures_incomplete | apply ensures_invalid].
Qed.

Lemma reads_bytes_item b : len b <= U64_MAX -> reads read_bytes_item b (write_bytes_item b).
Proof. intros Hb. eapply reads_bind; [apply reads_usize; split; lia | apply reads_slice]. Qed.

Lemma ensures_bytes_item : ensures read_bytes_item small_bytes.
Proof. unfold read_bytes_item. estep ensures_usize. intros n _. apply ensures_slice. Qed.

Lemma reads_option {A} (m : proof_reader A) w o b :
  (forall x bx, o = Some x -> w x = Ok bx -> reads m x bx) -> write_option w o = Ok b -> reads (read_option m) o b.
Proof.
  intros Hm Hw. unfold read_option. destruct o as [x|]; simpl in Hw.
  - destruct (w x) as [bx|] eqn:E; simpl in Hw; [|done]. injection Hw as <-.
    apply (reads_bind _ _ 1 _ [1]); [apply reads_map_err, reads_u8|]. simpl.
    eapply reads_map; [by apply Hm | apply reads_ret].
  - injection Hw as <-. apply (reads_bind _ _ 0 _ [0] []); [apply reads_map_err, reads_u8 | apply reads_ret].
Qed.

Lemma ensures_option {A} (m : proof_reader A) (P : A -> Prop) :
  ensures m P -> ensures (read_option m) (fun o => forall x, o = Some x -> P x).
Proof.
  intros Hm. unfold read_option. estep ensures_u8. intros b _. destruct (b =? 0); [by apply ensures_ret|].
  destruct (b =? 1); [|apply ensures_invalid]. eapply ensures_bind; [exact Hm|]. intros x Hx. apply ensures_ret.
  by intros y [= <-].
Qed.

Lemma reads_trie_hash h : TrieHash_wf h -> reads read_trie_hash h h.
Proof. intros [Hl _]. by apply reads_map_err, reads_chunk. Qed.

Lemma ensures_trie_hash : ensures read_trie_hash TrieHash_wf.
Proof. apply ensures_map_err. eapply ensures_weaken; [apply ensures_chunk|]. intros b [[? _] ?]. done. Qed.

Lemma reads_child_mask m : ChildMask_wf m -> reads read_child_mask m (mask_to_le_bytes m).
Proof.
  intros Hm. destruct (child_mask_wire_roundtrip m Hm) as (Hl & _ & Hr). unfold read_child_mask.
  eapply reads_map; [by apply reads_map_err, reads_chunk|]. rewrite Hr. apply reads_ret.
Qed.

Section Mode.
Variable alg : NodeHashAlgorithm.

(** ** What the format can carry *)

(** Full hashes have 32 bytes; inlined nodes exist under Ethereum only. *)
Definition hash_wf (h : HashType) : Prop :=
  match h with
  | Hash h => TrieHash_wf h
  | Rlp r => is_ethereum alg = true /\ small_bytes r
  end.

Definition wire_digest_wf (d : ValueDigest) : Prop :=
  match d with
  | DigestValue v => small_bytes v
  | DigestHash h => hash_wf h
  end.

(** The limits on a node: its key has at most 2048 nibbles, and its partial path is
    a suffix of it. *)
Definition proof_node_wf (n : ProofNode) : Prop :=
  is_path (pn_key n) /\ len (pn_key n) <= MAX_KEY_NIBBLES /\ (pn_partial_len n <= length (pn_key n))%nat /\
  (forall d, pn_value_digest n = Some d -> wire_digest_wf d) /\
  Children_wf (pn_child_hashes n) /\
  (forall i h, is_nibble i -> Children_get (pn_child_hashes n) i = Some h -> hash_wf h).

Definition key_wf (k : bytes) : Prop := is_bytes k /\ len k <= MAX_KEY_BYTES.

Definition pair_wf (p : bytes * Value) : Prop := key_wf p.1 /\ small_bytes p.2.

Definition op_wf (op : BatchOp) : Prop :=
  match op with
  | Put k v => key_wf k /\ small_bytes v
  | Delete k => key_wf k
  | DeleteRange p => key_wf p
  end.

(** What a node reads back as: long values are replaced by their hashes. *)
Definition wire_node (n : ProofNode) : ProofNode :=
  mkProofNode (pn_key n) (pn_partial_len n) ((fun d => make_hash d alg) <$> pn_value_digest n) (pn_child_hashes n).

(** ** Hashes and digests *)

Lemma reads_hash_type h b : hash_wf h -> write_hash_type alg h = Ok b -> reads (read_hash_type alg) h b.
Proof.
  unfold write_hash_type, read_hash_type. destruct (is_ethereum alg) eqn:Ha; destruct h as [h|r]; simpl; intros Hwf Hb.
  - injection Hb as <-. apply (reads_bind _ _ 0 _ [0]); [apply reads_map_err, reads_u8|]. simpl.
    eapply reads_map; [by apply reads_trie_hash | apply reads_ret].
  - injection Hb as <-. destruct Hwf as [_ [_ Hl]]. apply (reads_bind _ _ 1 _ [1]); [apply reads_map_err, reads_u8|]. simpl.
    eapply reads_map; [by apply reads_bytes_item | apply reads_ret].
  - injection Hb as <-. eapply reads_map; [by apply reads_trie_hash | apply reads_ret].
  - done.
Qed.

Lemma ensures_hash_type : ensures (read_hash_type alg) hash_wf.
Proof.
  unfold read_hash_type. destruct (is_ethereum alg) eqn:Ha.
  - estep ensures_u8. intros b _. destruct (b =? 0); [|destruct (b =? 1); [|apply ensures_invalid]].
    + estep ensures_trie_hash. intros h Hh. by apply ensures_ret.
    + estep ensures_bytes_item. intros r Hr. by apply ensures_ret.
  - estep ensures_trie_hash. intros h Hh. by apply ensures_ret.
Qed.

Lemma make_hash_wf d : wire_digest_wf d -> wire_digest_wf (make_hash d alg).
Proof. destruct d as [v|h]; simpl; [|done]. intros Hv. destruct (_ && _); [apply sha256_wf | done]. Qed.

Lemma reads_value_digest d b :
  wire_digest_wf d -> write_value_digest alg d = Ok b -> reads (read_value_digest alg) (make_hash d alg) b.
Proof.
  intros Hwf%make_hash_wf Hb. unfold write_value_digest in Hb. unfold read_value_digest.
  destruct (make_hash d alg) as [v|h]; simpl in Hwf.
  - injection Hb as <-. destruct Hwf as [_ Hl]. apply (reads_bind _ _ 0 _ [0]); [apply reads_map_err, reads_u8|]. simpl.
    eapply reads_map; [by apply reads_bytes_item | apply reads_ret].
  - destruct (write_hash_type alg h) as [bh|] eqn:E; [|done]. injection Hb as <-.
    apply (reads_bind _ _ 1 _ [1]); [apply reads_map_err, reads_u8|]. simpl.
    eapply reads_map; [by apply reads_hash_type | apply reads_ret].
Qed.

Lemma ensures_value_digest : ensures (read_value_digest alg) wire_digest_wf.
Proof.
  unfold read_value_digest. estep ensures_u8. intros b _. destruct (b =? 0); [|destruct (b =? 1); [|apply ensures_invalid]].
  - estep ensures_bytes_item. intros v Hv. by apply ensures_ret.
  - estep ensures_hash_type. intros h Hh. by apply ensures_ret.
Qed.

(** ** Nodes *)

Lemma reads_path p : is_path p -> len p <= MAX_KEY_NIBBLES -> reads read_v0_path p (write_bytes_item p).
Proof.
  intros Hp Hl. unfold read_v0_path. eapply reads_map.
  - apply reads_bytes_item. unfold MAX_KEY_NIBBLES, MAX_KEY_BYTES in Hl. ulia.
  - destruct (Z.ltb_spec MAX_KEY_NIBBLES (len p)); [lia|].
    rewrite path_from_unpacked_bytes_path by done. apply reads_ret.
Qed.

Lemma ensures_path : ensures read_v0_path (fun p => is_path p /\ len p <= MAX_KEY_NIBBLES).
Proof.
  unfold read_v0_path. estep ensures_bytes_item. intros b Hb. destruct (Z.ltb_spec MAX_KEY_NIBBLES (len b)); [apply ensures_invalid|].
  destruct (path_from_unpacked_bytes b) as [p|] eqn:E; [|apply ensures_invalid]. apply ensures_ret.
  by apply path_from_unpacked_bytes_Some in E as [-> Hp]; [|apply Hb].
Qed.

(** The hashes land in the slots they came from. *)
Lemma reads_child_hashes l c b :
  Forall (fun p => hash_wf p.2) l -> write_items (fun p => write_hash_type alg p.2) l = Ok b ->
  reads (read_child_hashes alg l.*1 c) (foldl (fun c p => Children_set c p.1 (Some p.2)) c l) b.
Proof.
  intros Hl. revert c b. induction Hl as [|[i h] l Hh _ IH]; intros c b Hb; simpl in Hb |- *.
  - injection Hb as <-. apply reads_ret.
  - destruct (write_hash_type alg h) as [bh|] eqn:E; simpl in Hb; [|done].
    destruct (write_items _ l) as [bl|] eqn:El; simpl in Hb; [|done]. injection Hb as <-.
    eapply reads_bind; [by apply reads_hash_type | by apply IH].
Qed.

Lemma foldl_set_get {A} (l : list (PathComponent * A)) c i :
  Children_wf c -> NoDup l.*1 -> Forall (fun p => is_nibble p.1) l -> is_nibble i ->
  Children_get (foldl (fun c p => Children_set c p.1 (Some p.2)) c l) i =
  match list_find (fun p => p.1 = i) l with Some (_, p) => Some p.2 | None => Children_get c i end.
Proof.
  revert c. induction l as [|[j x] l IH]; intros c Hc Hnd Hl Hi; [done|]. csimpl in Hnd.
  apply NoDup_cons in Hnd as [Hj Hnd]. apply Forall_cons in Hl as [Hn Hl]. simpl in Hn.
  cbn [foldl fst snd]. rewrite IH by (done || by apply Children_set_wf). csimpl.
  destruct (decide (j = i)) as [->|Hne].
  - destruct (list_find (fun p => p.1 = i) l) as [[k p]|] eqn:E; simpl; [|by rewrite Children_get_set].
    apply list_find_Some in E as (Hk & Hp & _). exfalso. apply Hj. apply list_elem_of_fmap. exists p. split; [done|].
    by eapply list_elem_of_lookup_2.
  - destruct (list_find (fun p => p.1 = i) l) as [[k p]|] eqn:E; simpl; [done|]. by rewrite Children_get_set_ne.
Qed.

Lemma children_rebuilt {A} (c : Children (option A)) :
  Children_wf c -> foldl (fun c p => Children_set c p.1 (Some p.2)) Children_new (Children_iter_present c) = c.
Proof.
  intros Hc. assert (Hall : Forall (fun p => is_nibble p.1) (Children_iter_present c)).
  { apply Forall_forall. intros [j x] Hj. by apply Children_iter_present_elem in Hj as [? _]. }
  apply Children_ext; [|done|].
  { generalize (Children_iter_present c). intros l. assert (Hn : Children_wf (@Children_new A)) by apply Children_new_wf.
    revert Hn. generalize (@Children_new A). induction l as [|p l IH]; intros d Hd; [done|]. by apply IH, Children_set_wf. }
  intros i Hi. rewrite foldl_set_get by (done || apply Children_new_wf || apply Children_iter_present_NoDup).
  rewrite Children_get_new. destruct (list_find _ _) as [[k [j x]]|] eqn:E.
  - apply list_find_Some in E as (Hk & Hp & _). simpl in *. subst j. apply list_elem_of_lookup_2 in Hk.
    by apply Children_iter_present_elem in Hk as [_ ->].
  - destruct (Children_get c i) as [x|] eqn:Hg; [|done]. apply list_find_None in E. rewrite Forall_forall in E.
    assert (Hin : (i, x) ∈ Children_iter_present c) by (by apply Children_iter_present_elem). by apply E in Hin.
Qed.

Lemma ensures_child_hashes l c :
  Forall is_nibble l -> Children_wf c -> (forall i h, is_nibble i -> Children_get c i = Some h -> hash_wf h) ->
  ensures (read_child_hashes alg l c)
    (fun c => Children_wf c /\ forall i h, is_nibble i -> Children_get c i = Some h -> hash_wf h).
Proof.
  intros Hl. revert c. induction Hl as [|j l Hj _ IH]; intros c Hc Hh; simpl; [by apply ensures_ret|].
  estep ensures_hash_type. intros h Hwf. apply IH; [by apply Children_set_wf|]. intros i g Hi.
  destruct (decide (j = i)) as [->|Hne]; [rewrite Children_get_set by done; by intros [= <-]|].
  rewrite Children_get_set_ne by done. by apply Hh.
Qed.

(** [codec w m min y x]: [x] is written without a panic, in at least [min] bytes,
    and read back as [y]. *)
Definition codec {A} (w : A -> result failure bytes) (m : proof_reader A) (min : Z) (y x : A) : Prop :=
  exists b, w x = Ok b /\ is_bytes b /\ min <= len b /\ reads m y b.

Lemma hash_codec h : hash_wf h -> codec (write_hash_type alg) (read_hash_type alg) 0 h h.
Proof.
  intros Hh. assert (exists b, write_hash_type alg h = Ok b /\ is_bytes b) as (b & Hb & Hbb).
  { unfold write_hash_type. destruct h as [h|r]; simpl in Hh; destruct (is_ethereum alg); try by (destruct Hh).
    - exists (0 :: h). split; [done|]. constructor; [ulia | by apply Hh].
    - exists h. split; [done | by apply Hh].
    - destruct Hh as [_ [Hr Hl]]. eexists. split; [done|]. constructor; [ulia|].
      apply Forall_app. split; [by apply encode_var_bytes; split; [lia|] | done]. }
  exists b. split_and!; [done | done | lia | by apply reads_hash_type].
Qed.

Lemma bytes_item_bytes b : small_bytes b -> is_bytes (write_bytes_item b) /\ 1 <= len (write_bytes_item b).
Proof.
  intros [Hb Hl]. assert (Hu : u64 (len b)) by (split; lia). unfold write_bytes_item. split.
  - apply Forall_app. split; [by apply encode_var_bytes | done].
  - rewrite length_app. pose proof (encode_var_len (len b) Hu). lia.
Qed.

Lemma digest_codec d :
  wire_digest_wf d -> exists b, write_value_digest alg d = Ok b /\ is_bytes b /\ reads (read_value_digest alg) (make_hash d alg) b.
Proof.
  intros Hd. assert (exists b, write_value_digest alg d = Ok b /\ is_bytes b) as (b & Hb & Hbb).
  { pose proof (make_hash_wf d Hd) as Hm. unfold write_value_digest. destruct (make_hash d alg) as [v|h]; simpl in Hm.
    - eexists. split; [done|]. constructor; [ulia|]. by apply bytes_item_bytes.
    - destruct (hash_codec h Hm) as (b & -> & Hb & _). eexists. split; [done|]. constructor; [ulia | done]. }
  exists b. split_and!; [done | done | by apply reads_value_digest].
Qed.

Lemma option_digest_codec o :
  (forall d, o = Some d -> wire_digest_wf d) ->
  exists b, write_option (write_value_digest alg) o = Ok b /\ is_bytes b /\ 1 <= len b /\
    reads (read_option (read_value_digest alg)) ((fun d => make_hash d alg) <$> o) b.
Proof.
  intros Ho. unfold read_option. destruct o as [d|].
  - destruct (digest_codec d (Ho d eq_refl)) as (b & Hb & Hbb & Hr). simpl. rewrite Hb. eexists. split; [done|].
    split; [constructor; [ulia | done]|]. split; [simpl; lia|].
    apply (reads_bind _ _ 1 _ [1]); [apply reads_map_err, reads_u8|]. simpl. eapply reads_map; [exact Hr | apply reads_ret].
  - eexists. split; [done|]. split; [repeat constructor; ulia|]. split; [done|].
    apply (reads_bind _ _ 0 _ [0] []); [apply reads_map_err, reads_u8 | apply reads_ret].
Qed.

(** A sequence of items. *)
Lemma items_codec {A} (w : A -> result failure bytes) (m : proof_reader A) min (f : A -> A) l :
  Forall (fun x => codec w m min (f x) x) l ->
  exists b, write_items w l = Ok b /\ is_bytes b /\ min * len l <= len b /\ reads (read_n (length l) m) (f <$> l) b.
Proof.
  induction 1 as [|x l (bx & Hx & Hbx & Hlx & Hrx) _ (b & Hb & Hbb & Hl & Hr)]; simpl.
  - exists []. split_and!; [done | constructor | simpl; lia | apply reads_ret].
  - rewrite Hx. simpl. rewrite Hb. simpl. eexists. split; [done|]. split; [by apply Forall_app|].
    split; [rewrite length_app; lia|]. eapply reads_bind; [exact Hrx|]. eapply reads_map; [exact Hr | apply reads_ret].
Qed.

(** An array passes its length check. *)
Lemma array_codec {A} (w : A -> result failure bytes) (m : proof_reader A) min (f : A -> A) l :
  0 < min -> len l <= U64_MAX -> Forall (fun x => codec w m min (f x) x) l ->
  exists b, write_array w l = Ok b /\ is_bytes b /\ 1 <= len b /\ reads (read_v0_array min m) (f <$> l) b.
Proof.
  intros Hmin Hl Hall. destruct (items_codec w m min f l Hall) as (b & Hb & Hbb & Hlen & Hr).
  assert (Hu : u64 (len l)) by (split; lia). unfold write_array. rewrite Hb. eexists. split; [done|].
  split; [apply Forall_app; split; [by apply encode_var_bytes | done]|].
  split; [rewrite length_app; pose proof (encode_var_len (len l) Hu); lia|].
  unfold read_v0_array. eapply reads_bind; [by apply reads_map_err, reads_usize|]. intros pre suf.
  specialize (Hr pre suf). unfold remainder, mbind, proof_reader_bind. rewrite drop_app_length, length_app.
  destruct (Z.ltb_spec (Z.of_nat (length b + length suf) / min) (len l)) as [Hlt|].
  - pose proof (Z.div_le_lower_bound (Z.of_nat (length b + length suf)) min (len l) Hmin ltac:(lia)). lia.
  - by rewrite Nat2Z.id.
Qed.

Lemma child_hashes_written (l : list (PathComponent * HashType)) :
  Forall (fun p => hash_wf p.2) l ->
  exists b, write_items (fun p => write_hash_type alg p.2) l = Ok b /\ is_bytes b.
Proof.
  induction 1 as [|[i h] l Hh _ (b & Hb & Hbb)]; simpl; [by exists []; split; [|constructor]|].
  destruct (hash_codec h Hh) as (bh & Hbh & Hbb' & _). simpl. rewrite Hbh. simpl. rewrite Hb.
  eexists. split; [done | by apply Forall_app].
Qed.

Lemma node_codec n : proof_node_wf n -> codec (write_node alg) (read_v0_node alg) 5 (wire_node n) n.
Proof.
  intros (Hp & Hpl & Hpart & Hd & Hc & Hh). destruct (option_digest_codec _ Hd) as (bd & Hbd & Hbbd & Hld & Hrd).
  assert (Hall : Forall (fun p => hash_wf p.2) (Children_iter_present (pn_child_hashes n))).
  { apply Forall_forall. intros [i h] Hin. apply Children_iter_present_elem in Hin as [Hi Hg]; [|done]. by eapply Hh. }
  destruct (child_hashes_written _ Hall) as (bc & Hbc & Hbbc).
  assert (Hm : ChildMask_wf (children_bitmap (pn_child_hashes n))).
  { apply foldl_mask_set_wf; [|by unfold ChildMask_wf, U16_MAX]. apply Forall_fmap, Forall_forall. intros [i h] Hin.
    by apply Children_iter_present_elem in Hin as [? _]. }
  destruct (child_mask_wire_roundtrip _ Hm) as (Hml & Hmb & _).
  assert (Hsp : small_bytes (pn_key n)).
  { unfold MAX_KEY_NIBBLES, MAX_KEY_BYTES in Hpl. split; [|ulia]. eapply Forall_impl; [exact Hp|]. unfold is_nibble. ulia. }
  assert (Hu : u64 (Z.of_nat (pn_partial_len n))) by (unfold MAX_KEY_NIBBLES, MAX_KEY_BYTES in Hpl; ulia).
  destruct (bytes_item_bytes _ Hsp) as [Hkb Hkl]. pose proof (encode_var_len _ Hu) as Hvl.
  unfold codec, write_node. rewrite Hbd. cbn [mbind result_bind]. rewrite Hbc. eexists. split; [done|].
  split; [repeat (apply Forall_app; split; [done || by apply encode_var_bytes|]); done|].
  split; [rewrite !length_app, Hml; lia|].
  unfold read_v0_node. eapply reads_bind; [by apply reads_path|]. eapply reads_bind; [by apply reads_usize|].
  destruct (Z.ltb_spec (len (pn_key n)) (Z.of_nat (pn_partial_len n))); [lia|].
  eapply reads_bind; [exact Hrd|]. eapply reads_bind; [by apply reads_child_mask|]. rewrite bitmap_indices by done.
  eapply reads_map; [by apply reads_child_hashes|]. rewrite children_rebuilt by done. rewrite Nat2Z.id. apply reads_ret.
Qed.

Lemma reads_checked {A} (f : proof_reader A) k x enc :
  len k <= MAX_KEY_BYTES -> reads f x enc -> reads (_ ← check_key_bytes k; f) x enc.
Proof.
  intros Hl Hf. apply (reads_bind _ _ tt _ []); [|done]. unfold check_key_bytes.
  destruct (Z.ltb_spec MAX_KEY_BYTES (len k)); [lia|]. apply reads_ret.
Qed.

Lemma pair_codec p : pair_wf p -> codec write_pair read_v0_pair 2 p p.
Proof.
  destruct p as [k v]. intros [[Hk Hkl] Hv]. simpl in *.
  assert (Hks : small_bytes k) by (split; [done | unfold MAX_KEY_BYTES in Hkl; ulia]).
  destruct (bytes_item_bytes k Hks) as [Hkb Hk1], (bytes_item_bytes v Hv) as [Hvb Hv1].
  eexists. split; [done|]. split; [by apply Forall_app|]. split; [simpl; rewrite length_app; lia|].
  unfold read_v0_pair. eapply reads_bind; [apply reads_bytes_item, Hks|]. apply reads_checked; [done|].
  eapply reads_map; [apply reads_bytes_item, Hv | apply reads_ret].
Qed.

Lemma op_codec op : op_wf op -> codec write_op read_v0_op 2 op op.
Proof.
  assert (Hs : forall k, key_wf k -> small_bytes k) by (intros k [? Hl]; split; [done | unfold MAX_KEY_BYTES in Hl; ulia]).
  intros Hop. eexists. split; [done|]. unfold read_v0_op. destruct op as [k v|k|k]; simpl in Hop.
  - destruct Hop as [Hk Hv]. destruct (bytes_item_bytes k (Hs k Hk)), (bytes_item_bytes v Hv).
    split; [constructor; [unfold BATCH_PUT; ulia | by apply Forall_app]|]. split; [simpl; rewrite length_app; lia|].
    apply (reads_bind _ _ BATCH_PUT _ [BATCH_PUT]); [apply reads_map_err, reads_u8|]. simpl.
    eapply reads_bind; [apply reads_bytes_item, Hs, Hk|]. apply reads_checked; [apply Hk|].
    eapply reads_map; [apply reads_bytes_item, Hv | apply reads_ret].
  - destruct (bytes_item_bytes k (Hs k Hop)).
    split; [constructor; [unfold BATCH_DELETE; ulia | done]|]. split; [simpl; lia|].
    apply (reads_bind _ _ BATCH_DELETE _ [BATCH_DELETE]); [apply reads_map_err, reads_u8|]. simpl.
    eapply reads_map; [apply reads_bytes_item, Hs, Hop|]. apply reads_checked; [apply Hop | apply reads_ret].
  - destruct (bytes_item_bytes k (Hs k Hop)).
    split; [constructor; [unfold BATCH_DELETE_RANGE; ulia | done]|]. split; [simpl; lia|].
    apply (reads_bind _ _ BATCH_DELETE_RANGE _ [BATCH_DELETE_RANGE]); [apply reads_map_err, reads_u8|]. simpl.
    eapply reads_map; [apply reads_bytes_item, Hs, Hop|]. apply reads_checked; [apply Hop | apply reads_ret].
Qed.

End Mode.
End Items.
