(* ===== verification/ProofWireCorrect.v ===== *)
(** * Messages that carry proofs

    The theorems on whole messages: what is written is read back, what is accepted is
    within the limits, and nothing large is allocated for a small message. *)

From S2P Require Import Prelude Primitives NodePath Node Codec NodeCodec Header ChildMask Rlp Hashing HashSpec HashBinding.
From S2P Require Import Iter ProofTypes KeyProof ProofWire ProofWireSpec.

(** What a message carries besides its edge proofs: how an item is written and read,
    and what the format can carry. *)
Class WireItem `{VarInt} `{DecodeVar} (A : Type) : Type := {
  wire_kind : ProofType;
  wire_write : A -> result failure bytes;
  wire_read : proof_reader A;
  wire_wf : A -> Prop;
}.

Class WireItemLaws `{WireItem A} : Prop := {
  wire_codec x : wire_wf x -> codec wire_write wire_read 2 x x;
  wire_ensures : ensures wire_read wire_wf;
}.

#[export] Instance pair_wire `{VarInt} `{DecodeVar} : WireItem (bytes * Value) :=
  {| wire_kind := Range; wire_write := write_pair; wire_read := read_v0_pair; wire_wf := pair_wf |}.
#[export] Instance op_wire `{VarInt} `{DecodeVar} : WireItem BatchOp :=
  {| wire_kind := Change; wire_write := write_op; wire_read := read_v0_op; wire_wf := op_wf |}.

Section Accepted.
Context `{DigestsLaws} `{VarIntLaws} `{!DecodeVar} `{!DecodeVarLaws}.

(** ** What readers accept *)

Lemma ensures_checked_key {A} (f : bytes -> proof_reader A) P :
  (forall k, key_wf k -> ensures (f k) P) -> ensures (k ← read_bytes_item; _ ← check_key_bytes k; f k) P.
Proof.
  intros Hf. estep ensures_bytes_item. intros k [Hk _]. unfold check_key_bytes.
  destruct (Z.ltb_spec MAX_KEY_BYTES (len k)).
  - eapply (ensures_bind _ _ (fun _ => False)); [apply ensures_invalid | done].
  - eapply (ensures_bind _ _ (fun _ => True)); [by apply ensures_ret|]. intros _ _. by apply Hf.
Qed.

Lemma ensures_pair : ensures read_v0_pair pair_wf.
Proof.
  apply ensures_checked_key. intros k Hk. estep ensures_bytes_item. intros v Hv. by apply ensures_ret.
Qed.

Lemma ensures_op : ensures read_v0_op op_wf.
Proof.
  unfold read_v0_op. estep ensures_u8. intros b _.
  destruct (b =? BATCH_PUT); [|destruct (b =? BATCH_DELETE); [|destruct (b =? BATCH_DELETE_RANGE); [|apply ensures_invalid]]];
    apply ensures_checked_key; intros k Hk; [|by apply ensures_ret..].
  estep ensures_bytes_item. intros v Hv. by apply ensures_ret.
Qed.

#[export] Instance pair_wire_laws : WireItemLaws (A := bytes * Value).
Proof. split; [apply pair_codec | apply ensures_pair]. Qed.

#[export] Instance op_wire_laws : WireItemLaws (A := BatchOp).
Proof. split; [apply op_codec | apply ensures_op]. Qed.

Lemma ensures_node alg : ensures (read_v0_node alg) (proof_node_wf alg).
Proof.
  unfold read_v0_node. estep ensures_path. intros key [Hkey Hlen]. estep ensures_usize. intros n Hn.
  destruct (Z.ltb_spec (len key) n); [apply ensures_invalid|].
  eapply ensures_bind; [apply ensures_option, ensures_value_digest|]. intros vd Hvd.
  eapply (ensures_bind _ _ (fun _ => True)); [done|].
  intros m _. eapply ensures_bind.
  - apply ensures_child_hashes; [|apply Children_new_wf | intros i h _; by rewrite Children_get_new].
    apply Forall_forall. intros i [_ Hi]%list_elem_of_filter. change PathComponent_ALL with (seqZ 0 16) in Hi. by apply elem_of_seqZ in Hi.
  - intros c [Hc Hh]. apply ensures_ret. split_and!; simpl; try done. unfold u64 in Hn. lia.
Qed.

Lemma ensures_n {A} n (m : proof_reader A) P : ensures m P -> ensures (read_n n m) (Forall P).
Proof.
  intros Hm. induction n as [|n IH]; simpl; [apply ensures_ret; constructor|].
  eapply ensures_bind; [exact Hm|]. intros x Hx. eapply ensures_bind; [exact IH|]. intros xs Hxs.
  apply ensures_ret. by constructor.
Qed.

Lemma read_n_length {A} n (m : proof_reader A) : ensures (read_n n m) (fun l => length l = n).
Proof.
  induction n as [|n IH]; simpl; [by apply ensures_ret|].
  eapply (ensures_bind _ _ (fun _ => True)); [done|]. intros x _. eapply ensures_bind; [exact IH|]. intros xs Hxs.
  apply ensures_ret. simpl. by f_equal.
Qed.

Lemma ensures_and {A} (m : proof_reader A) P Q : ensures m P -> ensures m Q -> ensures m (fun x => P x /\ Q x).
Proof. intros HP HQ d o x o' Hd Hl Hr. split; [by eapply HP | by eapply HQ]. Qed.

Lemma ensures_array {A} min (m : proof_reader A) P :
  ensures m P -> ensures (read_v0_array min m) (fun l => Forall P l /\ len l <= U64_MAX).
Proof.
  intros Hm. unfold read_v0_array. estep ensures_usize. intros n Hn.
  eapply ensures_bind; [apply ensures_remainder|]. intros rem Hrem. destruct (_ <? _); [apply ensures_invalid|].
  eapply ensures_weaken; [apply ensures_and; [by apply ensures_n | apply read_n_length]|].
  intros l [Hl Hlen]. split; [done|]. unfold u64 in Hn. lia.
Qed.

(** ** Proofs the format can carry *)

Definition edge_proofs_wf `{WireItem A} (p : EdgeProofs A) : Prop :=
  (Forall (proof_node_wf (hash_mode p)) (start_proof p) /\ len (start_proof p) <= U64_MAX) /\
  (Forall (proof_node_wf (hash_mode p)) (end_proof p) /\ len (end_proof p) <= U64_MAX) /\
  (Forall wire_wf (contents_of p) /\ len (contents_of p) <= U64_MAX).

(** What a proof reads back as. *)
Definition wire_proof {A} (p : EdgeProofs A) : EdgeProofs A :=
  mkEdgeProofs (wire_node (hash_mode p) <$> start_proof p) (wire_node (hash_mode p) <$> end_proof p)
    (contents_of p) (hash_mode p).

Context `{HI : !WireItem A} `{HL : !WireItemLaws}.

Lemma ensures_proof alg :
  ensures (read_v0_proof alg (read_v0_array 2 wire_read)) (fun p => hash_mode p = alg /\ edge_proofs_wf p).
Proof.
  unfold read_v0_proof. eapply ensures_bind; [apply ensures_array, ensures_node|]. intros sp Hsp.
  eapply ensures_bind; [apply ensures_array, ensures_node|]. intros ep Hep.
  eapply ensures_bind; [apply ensures_array, wire_ensures|]. intros c Hc. by apply ensures_ret.
Qed.

Lemma body_codec p :
  edge_proofs_wf p ->
  exists b, write_body wire_write p = Ok b /\ is_bytes b /\ 1 <= len b /\
    reads (read_v0_proof (hash_mode p) (read_v0_array 2 wire_read)) (wire_proof p) b.
Proof.
  intros ([Hs Hsl] & [He Hel] & [Hc Hcl]). set (alg := hash_mode p) in *.
  destruct (array_codec (write_node alg) (read_v0_node alg) 5 (wire_node alg) (start_proof p)) as (bs & Hbs & Hbbs & Hls & Hrs);
    [done | done | by eapply Forall_impl; [exact Hs | apply node_codec]|].
  destruct (array_codec (write_node alg) (read_v0_node alg) 5 (wire_node alg) (end_proof p)) as (be & Hbe & Hbbe & _ & Hre);
    [done | done | by eapply Forall_impl; [exact He | apply node_codec]|].
  destruct (array_codec wire_write wire_read 2 (fun x => x) (contents_of p)) as (bc & Hbc & Hbbc & _ & Hrc);
    [done | done | by eapply Forall_impl; [exact Hc | apply wire_codec]|].
  rewrite list_fmap_id in Hrc. unfold write_body. fold alg. rewrite Hbs. cbn [mbind result_bind]. rewrite Hbe, Hbc.
  eexists. split; [done|]. split; [by repeat (apply Forall_app; split)|]. split; [rewrite length_app; lia|].
  unfold read_v0_proof. eapply reads_bind; [exact Hrs|]. eapply reads_bind; [exact Hre|].
  eapply reads_map; [exact Hrc | apply reads_ret].
Qed.

End Accepted.

(** ** Frames *)

Section Frames.
Context `{ZstdLaws}.

Lemma concat_chunks fuel n bs : (0 < n)%nat -> (length bs <= fuel)%nat -> concat (chunks fuel n bs) = bs.
Proof.
  intros Hn. revert bs. induction fuel as [|fuel IH]; intros bs Hl; simpl; [by destruct bs; [|simpl in Hl; lia]|].
  destruct bs as [|x bs]; [done|]. cbn [concat]. rewrite IH; [by rewrite take_drop|].
  rewrite length_drop. simpl in *. lia.
Qed.

Lemma chunks_forall (P : Z -> Prop) fuel n bs : Forall P bs -> Forall (Forall P) (chunks fuel n bs).
Proof.
  revert bs. induction fuel as [|fuel IH]; intros bs Hb; simpl; [done|]. destruct bs as [|x bs]; [done|].
  constructor; [by apply Forall_take | by apply IH, Forall_drop].
Qed.

Lemma chunks_nonempty fuel n bs : (0 < n)%nat -> Forall (fun b => b <> []) (chunks fuel n bs).
Proof.
  intros Hn. revert bs. induction fuel as [|fuel IH]; intros bs; simpl; [done|]. destruct bs as [|x bs]; [done|].
  constructor; [by destruct n; [lia|] | apply IH].
Qed.

Lemma chunks_length fuel n bs :
  (length (concat (chunks fuel n bs)) <= n * length (chunks fuel n bs))%nat.
Proof.
  revert bs. induction fuel as [|fuel IH]; intros bs; simpl; [lia|]. destruct bs as [|x bs]; [simpl; lia|].
  cbn [concat length]. rewrite length_app, length_take. specialize (IH (drop n (x :: bs))). lia.
Qed.

(** A frame within the ratio is decompressed. *)
Lemma decompress_frame frame body offset :
  frame_of frame body -> 0 < len body <= MAX_DECOMPRESSED_LEN -> len body <= MAX_COMPRESSION_RATIO * len frame ->
  decompress_body frame offset = Ok body.
Proof.
  intros (Hf & Hc & Hd) Hb Hr. unfold decompress_body, validate_frame. rewrite Hf, Z.eqb_refl, Hc. simpl negb. cbv iota.
  unfold saturating_mul_u64, MAX_COMPRESSION_RATIO, MAX_DECOMPRESSED_LEN in *.
  destruct (Z.eqb_spec (len body) 0), (Z.leb_spec (len body) (6 * 1024 * 1024)); try lia. simpl negb. cbn [andb]. cbv iota.
  destruct (Z.ltb_spec (Z.min (len frame * 128) U64_MAX) (len body)); [ulia|].
  cbn [mbind result_bind]. rewrite Hd, Z.sub_diag. by rewrite app_nil_r.
Qed.

(** The writer always stays within the ratio. *)
Lemma write_compressed_body_ok body out :
  is_bytes body -> 0 < len body <= MAX_DECOMPRESSED_LEN ->
  match write_compressed_body body out with
  | (Ok _, out') => exists frame, out' = out ++ frame /\ forall offset, decompress_body frame offset = Ok body
  | (Err e, out') => (exists e', e = Compression e') /\ exists junk, out' = out ++ junk
  end.
Proof.
  intros Hb Hl. unfold write_compressed_body. destruct (zstd_compress body) as [c|e] eqn:Hc.
  2: { split; [eauto|]. exists []. by rewrite app_nil_r. }
  unfold saturating_mul_u64. destruct (Z.leb_spec (len body) (Z.min (len c * MAX_COMPRESSION_RATIO) U64_MAX)).
  - exists c. split; [done|]. intros offset. apply decompress_frame; [by apply zstd_compress_frame | done | lia].
  - set (blocks := chunks (length body) (Z.to_nat MAX_COMPRESSION_RATIO) body).
    assert (Hcat : concat blocks = body) by (apply concat_chunks; [unfold MAX_COMPRESSION_RATIO; lia | done]).
    assert (Hlen : (length body <= 128 * length blocks)%nat).
    { pose proof (chunks_length (length body) (Z.to_nat MAX_COMPRESSION_RATIO) body) as Hcl. fold blocks in Hcl.
      rewrite Hcat in Hcl. exact Hcl. }
    destruct (zstd_encode (len body) blocks) as [w [e|]] eqn:He; [split; eauto|]. exists w. split; [done|]. intros offset.
    rewrite <- Hcat in He. pose proof (zstd_encode_blocks _ _ (chunks_nonempty _ (Z.to_nat MAX_COMPRESSION_RATIO) body ltac:(unfold MAX_COMPRESSION_RATIO; lia)) He) as Hn.
    apply zstd_encode_frame in He; [|by apply chunks_forall]. rewrite Hcat in He.
    apply decompress_frame; [done | done |]. unfold MAX_COMPRESSION_RATIO. fold blocks in Hn. lia.
Qed.

End Frames.

(** ** Messages *)

Lemma header_roundtrip kind alg rest :
  read_header (ProofHeader_bytes (ProofHeader_from kind alg) ++ rest) 0%nat =
  Ok (ProofHeader_from kind alg, PROOF_HEADER_SIZE).
Proof.
  set (h := ProofHeader_bytes (ProofHeader_from kind alg)).
  assert (Hc : ProofHeader_cast h = ProofHeader_from kind alg) by (by destruct kind, alg).
  assert (Hl : length h = PROOF_HEADER_SIZE) by (by destruct kind, alg).
  assert (Hr : reads read_header (ProofHeader_from kind alg) h).
  { unfold read_header. rewrite <- Hc. eapply reads_map; [by apply reads_map_err, reads_chunk | apply reads_ret]. }
  specialize (Hr [] rest). cbn [app length] in Hr. by rewrite Hr, Hl.
Qed.

Lemma header_validates kind alg :
  ProofHeader_validate (ProofHeader_from kind alg) (Some kind) = Ok (mkValidatedHeader kind alg).
Proof. by destruct kind, alg. Qed.

Section Messages.
Context `{DigestsLaws} `{VarIntLaws} `{!DecodeVar} `{!DecodeVarLaws} `{ZstdLaws}.

(** Writing a proof after [out] succeeds and the message reads back, in the proof's
    own mode and in no other; or it fails for a reason outside of the proof's
    contents, and [out] is as it was. *)
Definition message_roundtrips {A} (kind : ProofType)
  (write : EdgeProofs A -> bytes -> option (result ProofError unit * bytes))
  (read : bytes -> result ReadError (EdgeProofs A)) (p : EdgeProofs A) (out : bytes) : Prop :=
  match write p out with
  | None => False
  | Some (Ok _, out') =>
      exists msg, out' = out ++ msg /\ read msg = Ok (wire_proof p) /\
        from_slice_in_mode kind read msg (hash_mode p) = Ok (wire_proof p) /\
        forall alg, alg <> hash_mode p -> from_slice_in_mode kind read msg alg = Err (HashModeMismatch alg (hash_mode p))
  | Some (Err e, out') =>
      out' = out /\
      ((exists n, e = BodyTooLarge n MAX_DECOMPRESSED_LEN /\ MAX_DECOMPRESSED_LEN < n) \/ exists e', e = Compression e')
  end.

Section Generic.
Context `{HI : !WireItem A} `{HL : !WireItemLaws}.

Lemma message_ok (p : EdgeProofs A) out :
  edge_proofs_wf p ->
  message_roundtrips wire_kind (write_to_vec wire_kind wire_write) (from_slice wire_kind (read_v0_array 2 wire_read)) p out.
Proof.
  intros Hp. destruct (body_codec p Hp) as (b & Hb & Hbb & Hbl & Hbr). unfold message_roundtrips, write_to_vec. rewrite Hb.
  unfold write_framed_body, check_body_len. destruct (Z.ltb_spec MAX_DECOMPRESSED_LEN (len b)); [eauto|].
  set (h := ProofHeader_bytes (ProofHeader_from wire_kind (hash_mode p))).
  pose proof (write_compressed_body_ok b (out ++ h) Hbb ltac:(lia)) as Hw.
  destruct (write_compressed_body b (out ++ h)) as [[[]|e] out'].
  - destruct Hw as (frame & -> & Hframe). exists (h ++ frame). split; [by rewrite <- app_assoc|].
    assert (Hread : from_slice wire_kind (read_v0_array 2 wire_read) (h ++ frame) = Ok (wire_proof p)).
    { unfold from_slice, h. rewrite header_roundtrip, header_validates.
      destruct (Z.eqb_spec (ph_version (ProofHeader_from wire_kind (hash_mode p))) 0); [|done]. simpl negb. cbv iota.
      replace (drop PROOF_HEADER_SIZE _) with frame
        by (symmetry; rewrite drop_app_length'; [done | by destruct wire_kind, (hash_mode p)]).
      rewrite Hframe. specialize (Hbr [] []). simpl in Hbr. rewrite app_nil_r in Hbr.
      cbn [vh_node_hash_algorithm]. rewrite Hbr. by rewrite drop_all. }
    split; [done|]. unfold from_slice_in_mode, check_header_hash_mode. rewrite Hread. unfold h.
    rewrite header_roundtrip, header_validates. cbn [vh_node_hash_algorithm]. split.
    + by rewrite decide_True.
    + intros alg Halg. by rewrite decide_False.
  - destruct Hw as [[e' ->] [junk ->]]. split; [|by eauto]. rewrite <- app_assoc. by rewrite take_app_length.
Qed.

Lemma decompress_body_ok frame offset body :
  decompress_body frame offset = Ok body ->
  is_bytes body /\ 0 < len body <= MAX_DECOMPRESSED_LEN /\ len body <= MAX_COMPRESSION_RATIO * len frame.
Proof.
  unfold decompress_body, validate_frame. destruct (find_frame_compressed_size frame) as [n|]; [|done].
  destruct (negb _); [done|]. destruct (get_frame_content_size frame) as [[c|]|]; [|done..].
  destruct (Z.eqb_spec c 0), (Z.leb_spec c MAX_DECOMPRESSED_LEN); try done. simpl negb. cbn [andb]. cbv iota.
  unfold saturating_mul_u64. destruct (Z.ltb_spec (Z.min (len frame * MAX_COMPRESSION_RATIO) U64_MAX) c); [done|].
  cbn [mbind result_bind]. destruct (zstd_decompress frame c) as [w|] eqn:E; [|done]. intros [= <-].
  apply zstd_decompress_bytes in E as [Hw Hl]. rewrite length_app, length_replicate. split_and!; try lia.
  apply Forall_app. split; [done|]. apply Forall_replicate. ulia.
Qed.

Lemma from_slice_ok data (p : EdgeProofs A) :
  from_slice wire_kind (read_v0_array 2 wire_read) data = Ok p -> edge_proofs_wf p.
Proof.
  unfold from_slice. destruct (read_header data 0%nat) as [[h o]|]; [|done].
  destruct (ProofHeader_validate h _) as [vh|]; [|done]. destruct (negb _); [done|].
  destruct (decompress_body _ _) as [body|] eqn:Hb; [|done].
  destruct (read_v0_proof _ _ body 0%nat) as [[q o']|] eqn:Hr; [|done]. destruct (drop o' body); [|done]. intros [= <-].
  apply decompress_body_ok in Hb as (Hbb & [_ Hl] & _).
  eapply (ensures_proof (vh_node_hash_algorithm vh)); [exact Hbb | | exact Hr]. unfold MAX_DECOMPRESSED_LEN in Hl. ulia.
Qed.

End Generic.

(** C16: proofs survive the wire.  A range proof or a change proof within the limits of
    the format is written after whatever the buffer holds, without a panic; the
    message is read back as the same proof, with long values replaced by their
    hashes under MerkleDB, also when it was so compressible that the streaming
    encoder had to be used; a reader of the other hash mode refuses it.  When writing
    fails, because the body exceeds 6 MiB or the compressor failed, the buffer is as
    it was. *)
Theorem proof_wire_roundtrip :
  (forall (p : FrozenRangeProof) out, edge_proofs_wf p -> message_roundtrips Range range_write_to_vec range_from_slice p out) /\
  (forall (p : FrozenChangeProof) out, edge_proofs_wf p -> message_roundtrips Change change_write_to_vec change_from_slice p out).
Proof. split; intros p out Hp; [exact (message_ok (HI := pair_wire) p out Hp) | exact (message_ok (HI := op_wire) p out Hp)]. Qed.

(** C17: what a reader accepts is within the limits.  Every proof that [from_slice]
    returns has node keys of at most 2048 nibbles, all below 16, partial paths within
    the keys, keys of at most 1024 bytes, 32-byte hashes, and inlined nodes under
    Ethereum only; its body took at most 6 MiB and at most 128 times the bytes of the
    message. *)
Theorem accepted_proofs_wf data :
  (forall p, range_from_slice data = Ok p -> edge_proofs_wf p) /\
  (forall p, change_from_slice data = Ok p -> edge_proofs_wf p) /\
  (forall frame offset body, decompress_body frame offset = Ok body ->
     len body <= MAX_DECOMPRESSED_LEN /\ len body <= MAX_COMPRESSION_RATIO * len frame).
Proof.
  split_and!; [intros p; exact (from_slice_ok (HI := pair_wire) data p) | intros p; exact (from_slice_ok (HI := op_wire) data p) |].
  intros frame offset body Hb. by apply decompress_body_ok in Hb as (_ & [_ ?] & ?).
Qed.

(** The nodes of an accepted MerkleDB proof satisfy what the soundness of key proofs
    asks of them. *)
Lemma accepted_hashable_ok n : proof_node_wf MerkleDB n -> hashable_ok n.
Proof.
  intros (Hp & Hl & _ & Hd & Hc & Hh). split_and!; simpl; try done.
  - intros i h Hi Hg. specialize (Hh i h Hi Hg). destruct h as [h|r]; [|by destruct Hh]. exists h. split; [done | apply Hh].
  - intros d Hvd. specialize (Hd d Hvd). destruct d as [v|[h|r]]; simpl in *; [done | | by destruct Hd].
    exists h. split; [done | apply Hd].
  - unfold MAX_KEY_NIBBLES, MAX_KEY_BYTES, BITS_PER_NIBBLE in *. ulia.
Qed.

End Messages.

(** ** Instances of the parameters *)

(** Frames that store their contents behind the length. *)
Module StoredFrames.

Definition all_bytes (b : bytes) : bool := forallb (fun x => (0 <=? x) && (x <=? U8_MAX)) b.

Lemma all_bytes_iff b : all_bytes b = true <-> is_bytes b.
Proof.
  unfold all_bytes, is_bytes. rewrite forallb_forall, Forall_forall. unfold u8. split; intros Hb x Hx.
  - apply list_elem_of_In, Hb in Hx. lia.
  - apply list_elem_of_In, Hb in Hx. lia.
Qed.

#[export] Instance stored_zstd : Zstd := {|
  zstd_compress body := Ok (len body :: body);
  zstd_encode pledged blocks := (pledged :: concat blocks, None);
  find_frame_compressed_size f :=
    match f with n :: b => if n =? len b then Some (len f) else None | [] => None end;
  get_frame_content_size f := match f with n :: _ => Some (Some n) | [] => None end;
  zstd_decompress f cap :=
    match f with
    | _ :: b => if all_bytes b && (len b <=? cap) then Ok b else Err InvalidData
    | [] => Err UnexpectedEof
    end;
|}.

Lemma stored_frame body : is_bytes body -> frame_of (len body :: body) body.
Proof.
  intros Hb. unfold frame_of. simpl. rewrite Z.eqb_refl, (proj2 (all_bytes_iff body) Hb), Z.leb_refl. done.
Qed.

#[export] Instance stored_zstd_laws : ZstdLaws.
Proof.
  split.
  - intros body frame Hb [= <-]. by apply stored_frame.
  - intros blocks frame Hb [= <-]. apply stored_frame. by apply Forall_concat.
  - intros blocks frame Hb [= <-]. simpl. induction Hb as [|b blocks Hb _ IH]; simpl; [lia|].
    rewrite length_app. destruct b; [done|]. simpl. lia.
  - intros [|n b] cap body; simpl; [done|]. destruct (all_bytes b) eqn:E, (Z.leb_spec (len b) cap); simpl; try done.
    intros [= <-]. split; [by apply all_bytes_iff | done].
Qed.

Import Leb128.

#[export] Instance leb_decode_var : DecodeVar := {|
  decode_var bs :=
    match leb_decode 9 bs with
    | Ok (n, rest) =>
        if (0 <=? n) && (n <=? U64_MAX) then Some (n, (length bs - length rest)%nat) else None
    | Err _ => None
    end;
|}.

#[export] Instance leb_decode_var_laws : DecodeVarLaws.
Proof.
  split.
  - intros n rest Hn. pose proof (leb_decode_encode n rest Hn) as Hr. change (leb_encode 9 n) with (encode_var n) in Hr.
    unfold decode_var, leb_decode_var. rewrite Hr. unfold u64 in Hn.
    destruct (Z.leb_spec 0 n), (Z.leb_spec n U64_MAX); try lia. simpl. rewrite length_app. do 2 f_equal. lia.
  - intros bs n k. unfold decode_var, leb_decode_var. destruct (leb_decode 9 bs) as [[m rest]|]; [|done].
    destruct (Z.leb_spec 0 m), (Z.leb_spec m U64_MAX); simpl; try done. intros [= <- <-]. split; [done | lia].
Qed.

End StoredFrames.

(** ** Witnesses: a range proof of one pair *)
Section WireWitnesses.
Import Leb128 FirstBytes StoredFrames.

Definition w_range : FrozenRangeProof :=
  mkEdgeProofs [mkProofNode [6; 1] 1 (Some (DigestValue [7])) (Children_set Children_new 3 (Some (Hash (replicate 32 5))))] []
    [([97], [7])] MerkleDB.

Lemma w_range_wf : edge_proofs_wf w_range.
Proof.
  assert (Hb : forall b, all_bytes b = true -> is_bytes b) by (intros b; apply all_bytes_iff).
  split_and!; try done; apply Forall_singleton.
  - split_and!; cbn [pn_key pn_partial_len pn_value_digest pn_child_hashes].
    + repeat (apply Forall_cons; split; [split; lia|]). constructor.
    + by unfold MAX_KEY_NIBBLES.
    + simpl. lia.
    + intros d [= <-]. split; [by apply Hb | done].
    + done.
    + intros i h Hi. destruct (decide (i = 3)) as [->|Hne].
      * intros [= <-]. split; [done | by apply Hb].
      * rewrite Children_get_set_ne by (done || split; lia). by rewrite Children_get_new.
  - split; split; by apply Hb || done.
Qed.

Definition w_message : bytes := match range_write_to_vec w_range [] with Some (_, out) => out | None => [] end.

Lemma proof_wire_roundtrip_witness : range_from_slice w_message = Ok (wire_proof w_range).
Proof.
  pose proof (proj1 proof_wire_roundtrip w_range [] w_range_wf) as Hw. unfold message_roundtrips in Hw. unfold w_message.
  destruct (range_write_to_vec w_range []) as [[[[]|e] out]|] eqn:E; [| |destruct Hw].
  - destruct Hw as (msg & -> & Hread & _). exact Hread.
  - vm_compute in E. discriminate E.
Defined.

Lemma accepted_proofs_wf_witness : range_from_slice w_message = Ok w_range /\ edge_proofs_wf w_range.
Proof.
  assert (Hr : range_from_slice w_message = Ok w_range) by (vm_compute; reflexivity).
  split; [exact Hr|]. exact (proj1 (accepted_proofs_wf w_message) w_range Hr).
Defined.

End WireWitnesses.
