(* ===== verification/RangeProof.v ===== *)
(** * Range proofs

    [firewood/src/merkle/mod.rs] (the verification of range proofs), [firewood/src/merkle/reconcile.rs] and
    [firewood/src/proofs/range.rs].  A verifier rebuilds a trie from the pairs of the
    proof and the nodes of its two edges, and hashes it with the edges' hashes in the
    place of what lies outside of the range. *)

From S2P Require Import Prelude Primitives NodePath Node Codec NodeCodec Trie NodeStore Linear Header ChildMask.
From S2P Require Import Merkle Rlp Hashing Iter ProofTypes KeyProof ProofWire.

(** [<] on byte slices. *)
Definition slice_ltb (a b : list Z) : bool := negb (slice_le b a).

(** ** Boundaries *)

(** [RightBoundary]. *)
Inductive RightBoundary : Type :=
| InRange (end_key : option bytes)
| OutOfRange (end_key : bytes).

(** [RightBoundary::boundary_key]. *)
Definition right_boundary_key (r : RightBoundary) : option bytes :=
  match r with InRange k => k | OutOfRange k => Some k end.

(** [EdgeBoundary]. *)
Inductive EdgeBoundary : Type :=
| BoundaryLeft (start_key : option bytes)
| BoundaryRight (r : RightBoundary).

(** [EdgeBoundary::boundary_key] and [is_left]. *)
Definition boundary_key (b : EdgeBoundary) : option bytes :=
  match b with BoundaryLeft k => k | BoundaryRight r => right_boundary_key r end.

Definition is_left (b : EdgeBoundary) : bool :=
  match b with BoundaryLeft _ => true | BoundaryRight _ => false end.

(** [ProvenRange]. *)
Record ProvenRange : Type := mkProvenRange {
  proven_start : option bytes;
  proven_end : option bytes;
}.

(** [proven_right_edge]. *)
Definition proven_right_edge (boundary : RightBoundary) (last_kv requested_end : option bytes) : option bytes :=
  match boundary with
  | InRange bound => bound
  | OutOfRange k =>
      match requested_end with
      | Some e => if slice_ltb e k then Some e else last_kv
      | None => last_kv
      end
  end.

(** [TerminalMarking]. *)
Inductive TerminalMarking : Type :=
| AllOutside
| OnPath (on_path : PathComponent).

(** The first position at which the two paths differ. *)
Fixpoint divergence (a b : Path) : option (PathComponent * PathComponent) :=
  match a, b with
  | x :: a, y :: b => if x =? y then divergence a b else Some (x, y)
  | _, _ => None
  end.

(** [classify_terminal]. *)
Definition classify_terminal (proof_nodes : list ProofNode) (boundary : EdgeBoundary)
  : option (ProofNode * TerminalMarking) :=
  terminal ← last proof_nodes;
  boundary_key ← boundary_key boundary;
  let boundary_nibbles := from_nibbles_iterator (NibblesIterator_new boundary_key) in
  match divergence (pn_key terminal) boundary_nibbles with
  | Some (tk, bn) =>
      if (if is_left boundary then tk <? bn else bn <? tk) then Some (terminal, AllOutside) else None
  | None =>
      match boundary_nibbles !! length (pn_key terminal) with
      | Some on_path => Some (terminal, OnPath on_path)
      | None => if is_left boundary then None else Some (terminal, AllOutside)
      end
  end.

(** Marking the far side of a nibble in the entry of a node. *)
Definition mark_far_side (boundary : EdgeBoundary) (key : Path) (nibble : PathComponent)
  (marks : gmap Path ChildMask) : gmap Path ChildMask :=
  let entry := default 0 (marks !! key) in
  <[key := if is_left boundary then set_below entry nibble else set_above entry nibble]> marks.

(** The nodes that are not the last: the nibble comes from the next node. *)
Fixpoint mark_inner (boundary : EdgeBoundary) (proof_nodes : list ProofNode) (marks : gmap Path ChildMask)
  : result ProofError (gmap Path ChildMask) :=
  match proof_nodes with
  | parent :: (child :: _) as rest =>
      on_path_nibble ← ok_or (pn_key child !! length (pn_key parent)) ShouldBePrefixOfNextKey;
      mark_inner boundary rest (mark_far_side boundary (pn_key parent) on_path_nibble marks)
  | _ => mret marks
  end.

(** [compute_outside_children]. *)
Definition compute_outside_children (proof_nodes : list ProofNode) (boundary : EdgeBoundary)
  : result ProofError (gmap Path ChildMask * option (ProofNode * TerminalMarking)) :=
  let terminal := classify_terminal proof_nodes boundary in
  marks ← mark_inner boundary proof_nodes ∅;
  let marks :=
    match terminal with
    | Some (node, AllOutside) => <[pn_key node := ChildMask_ALL]> marks
    | Some (node, OnPath on_path) => mark_far_side boundary (pn_key node) on_path marks
    | None => marks
    end in
  mret (marks, terminal).

(** [|=] of the entries of two mask tables. *)
Definition merge_marks (a b : gmap Path ChildMask) : gmap Path ChildMask :=
  union_with (fun x y => Some (mask_bitor x y)) a b.

(** [right_edge]. *)
Definition right_edge (end_proof : list ProofNode) (last_kv fallback_last : option bytes) : RightBoundary :=
  match last end_proof, last_kv with
  | Some terminal, Some last_kv_k =>
      match pn_value_digest terminal with
      | Some _ =>
          let terminal_full_key := bytes_iter (pn_key terminal) in
          if slice_ltb last_kv_k terminal_full_key then OutOfRange terminal_full_key
          else if bool_decide (terminal_full_key = last_kv_k) then InRange (Some last_kv_k)
          else InRange fallback_last
      | None => InRange fallback_last
      end
  | _, _ => InRange fallback_last
  end.

(** [reject_odd_nibble_value_digests]. *)
Definition reject_odd_nibble_value_digests (proof_nodes : list ProofNode) : result ProofError unit :=
  if existsb (fun n => negb (Nat.even (length (pn_key n))) && bool_decide (is_Some (pn_value_digest n))) proof_nodes
  then Err ValueAtOddNibbleLength else Ok tt.

(** [annotate_edge_error]. *)
Definition annotate_edge_error (edge : ProofEdge) (e : ProofError) : ProofError :=
  match e with
  | UnexpectedHash expected actual => EdgeProofHashMismatch edge expected actual
  | other => other
  end.

Definition annotate {A} (edge : ProofEdge) (r : result ProofError A) : result ProofError A :=
  match r with Ok a => Ok a | Err e => Err (annotate_edge_error edge e) end.

(** The value under a key of a sorted slice of pairs ([binary_search_by] and [get]). *)
Definition kv_find (key_values : list (bytes * Value)) (key : bytes) : option Value :=
  snd <$> List.find (fun p => bool_decide (p.1 = key)) key_values.

(** [verify_proof_node_values]. *)
Fixpoint verify_proof_node_values (proof_nodes : list ProofNode) (first_key : option bytes)
  (right_boundary : RightBoundary) (key_values : list (bytes * Value)) : result ProofError unit :=
  match proof_nodes with
  | [] => Ok tt
  | proof_node :: proof_nodes =>
      let continue := verify_proof_node_values proof_nodes first_key right_boundary key_values in
      if negb (Nat.even (length (pn_key proof_node))) then continue
      else
        match pn_value_digest proof_node with
        | Some (DigestValue proof_value) =>
            let node_key_bytes := bytes_iter (pn_key proof_node) in
            let within_right :=
              match right_boundary with
              | InRange None => true
              | InRange (Some e) => slice_le node_key_bytes e
              | OutOfRange e => slice_ltb node_key_bytes e
              end in
            let in_range :=
              within_right && match first_key with None => true | Some start => slice_le start node_key_bytes end in
            if in_range then
              match kv_find key_values node_key_bytes with
              | None => Err ProofNodeHasUnincludedValue
              | Some kv_value =>
                  if negb (bool_decide (kv_value = proof_value)) then Err ProofNodeValueMismatch else continue
              end
            else continue
        | _ => continue
        end
  end.

(** ** Reconciling a node of the proof with the trie *)

(** The branch that [get_branch_from_nibbles_mut] finds, with its value assigned. *)
Fixpoint set_branch_value_helper (fuel : nat) (node : Node) (key : Path) (value : option Value) : option Node :=
  match fuel with
  | O => None
  | S fuel =>
      match node with
      | Leaf _ => None
      | Branch (mkBranch pp bv bc) =>
          let shared_len := split_index key pp in
          if negb (Nat.eqb shared_len (length pp)) then None
          else
            match drop shared_len key with
            | [] => Some (Branch (mkBranch pp value bc))
            | child_nibble :: deeper =>
                match Children_get bc child_nibble with
                | Some (ChildNode child_node) =>
                    child_node ← set_branch_value_helper fuel child_node deeper value;
                    Some (Branch (mkBranch pp bv (Children_set bc child_nibble (Some (ChildNode child_node)))))
                | _ => None
                end
            end
      end
  end.

(** [account_values_equal_except_storage_root]. *)
Definition account_values_equal_except_storage_root (a b : bytes) : bool :=
  let zeros := replicate 32 0 in
  match replace_list_field a 2 zeros, replace_list_field b 2 zeros with
  | Ok na, Ok nb => bool_decide (na = nb)
  | _, _ => false
  end.

Section RangeProof.
Context `{Digests} `{VarInt}.
Variable alg : NodeHashAlgorithm.

(** What [reconcile_branch_proof_node] does to the value of the branch: [None] leaves
    it as it is, [Some v] assigns [v]. *)
Definition reconcile_value (proof_node : ProofNode) (branch_value : option Value)
  (on_conflict : ProofNode -> option Value -> result ProofError (option Value))
  : result ProofError (option (option Value)) :=
  let conflict := v ← on_conflict proof_node branch_value; mret (Some v) in
  match pn_value_digest proof_node with
  | Some (DigestHash _ as digest) =>
      match branch_value with
      | Some v => if ValueDigest_verify digest v then mret None else conflict
      | None => conflict
      end
  | vd =>
      let proof_value := vd ≫= ValueDigest_value in
      if bool_decide (proof_value = branch_value) then mret None
      else if is_ethereum alg && Nat.eqb (length (pn_key proof_node)) ACCOUNT_DEPTH_NIBBLES
              && match proof_value, branch_value with
                 | Some pv, Some bv => account_values_equal_except_storage_root pv bv
                 | _, _ => false
                 end
      then mret None
      else conflict
  end.

Context {St : Type} `{ReadableStorage St}.

(** [reconcile_branch_proof_node]. *)
Definition reconcile_branch_proof_node (proof_node : ProofNode)
  (on_conflict : ProofNode -> option Value -> result ProofError (option Value)) (ns : NodeStore St)
  : result ProofError unit * NodeStore St :=
  let key_nibbles := pn_key proof_node in
  if negb (Nat.even (length key_nibbles))
     && match pn_value_digest proof_node with Some (DigestValue _) => true | _ => false end
  then (Err ValueAtOddNibbleLength, ns)
  else if is_ethereum alg && match pn_value_digest proof_node with Some (DigestHash _) => true | _ => false end
  then (Err UnexpectedValueDigest, ns)
  else
    match insert_branch_from_nibbles alg key_nibbles ns with
    | (Err e, ns) => (Err (ProofIO e), ns)
    | (Ok _, ns) =>
        match get_branch_from_nibbles_mut (ns_root ns) key_nibbles with
        | None => (Err NodeNotInTrie, ns)
        | Some branch =>
            match reconcile_value proof_node (branch_value branch) on_conflict with
            | Err e => (Err e, ns)
            | Ok None => (Ok tt, ns)
            | Ok (Some v) =>
                (Ok tt, set_root (ns_root ns ≫= fun root => set_branch_value_helper (S (length key_nibbles)) root key_nibbles v) ns)
            end
        end
    end.

(** ** The hash of the rebuilt trie *)

(** [single_effective_account_child]. *)
Definition single_effective_account_child (full_key : Path) (branch : BranchNode) (proof_node : option ProofNode)
  (outside_mask : option ChildMask) : option PathComponent :=
  if negb (is_ethereum alg) || negb (Nat.eqb (length full_key) ACCOUNT_DEPTH_NIBBLES) then None
  else
    let outside i := match outside_mask with Some m => is_set m i | None => false end in
    let in_range := filter (fun i => outside i = false) (Children_iter_present (branch_children branch)).*1 in
    let out_of_range :=
      match proof_node with
      | Some pn => filter (fun i => outside i = true) (Children_iter_present (pn_child_hashes pn)).*1
      | None => []
      end in
    match in_range ++ out_of_range with
    | [only_child] => Some only_child
    | _ => None
    end.

(** [BranchParts], without the partial path. *)
Record BranchParts : Type := mkBranchParts {
  bp_partial_path : list PathComponent;
  bp_value_digest : option ValueDigest;
  bp_child_hashes : Children (option HashType);
}.

Section Compute.
Variable proof_nodes : gmap Path ProofNode.
Variable outside_children : gmap Path ChildMask.

(** The hashes of the children that are inside of the range. *)
Fixpoint hash_in_range (outside_mask : option ChildMask) (at_account_depth : bool)
  (hash_child : Node -> PathComponent -> store_op St HashType) (children : list (PathComponent * option Child))
  (child_hashes : Children (option HashType)) : store_op St (Children (option HashType)) :=
  match children with
  | [] => mret child_hashes
  | (nibble, child_opt) :: children =>
      let continue := hash_in_range outside_mask at_account_depth hash_child children in
      match child_opt with
      | None => continue child_hashes
      | Some child =>
          if match outside_mask with Some m => is_set m nibble | None => false end then continue child_hashes
          else
            match negb at_account_depth, Child_hash child with
            | true, Some hash => continue (Children_set child_hashes nibble (Some hash))
            | _, _ =>
                resolved ← read_child_node alg child;
                h ← hash_child resolved nibble;
                continue (Children_set child_hashes nibble (Some h))
            end
      end
  end.

(** The hashes of the proof node for the children outside of the range. *)
Definition overlay_outside (proof_node : option ProofNode) (outside_mask : option ChildMask)
  (child_hashes : Children (option HashType)) : Children (option HashType) :=
  match proof_node, outside_mask with
  | Some pn, Some outside =>
      foldl (fun c p => if is_set outside p.1 then Children_set c p.1 (Some p.2) else c)
        child_hashes (Children_iter_present (pn_child_hashes pn))
  | _, _ => child_hashes
  end.

(** [build_branch_parts], over the two hash functions it calls back. *)
Definition build_branch_parts (compute_root_hash_with_proofs : Node -> Path -> store_op St HashType)
  (compute_root_hash_as_storage_trie_root : Node -> Path -> PathComponent -> store_op St HashType)
  (branch : BranchNode) (path_prefix : Path) : store_op St BranchParts :=
  partial_path ← lift (as_components (branch_partial_path branch));
  let full_key := path_prefix ++ partial_path in
  let outside_mask := outside_children !! full_key in
  let proof_node := proof_nodes !! full_key in
  let single_storage_child := single_effective_account_child full_key branch proof_node outside_mask in
  let at_account_depth := is_ethereum alg && Nat.eqb (length full_key) ACCOUNT_DEPTH_NIBBLES in
  let hash_child node nibble :=
    if bool_decide (single_storage_child = Some nibble)
    then compute_root_hash_as_storage_trie_root node full_key nibble
    else compute_root_hash_with_proofs node (full_key ++ [nibble]) in
  child_hashes ← hash_in_range outside_mask at_account_depth hash_child (Children_iter (branch_children branch)) Children_new;
  let child_hashes := overlay_outside proof_node outside_mask child_hashes in
  let value_digest :=
    match branch_value branch with
    | Some v => Some (DigestValue v)
    | None => proof_node ≫= pn_value_digest
    end in
  mret (mkBranchParts partial_path value_digest child_hashes).

(** [compute_root_hash_with_proofs] and [compute_root_hash_as_storage_trie_root];
    [fuel] bounds the height of the trie. *)
Fixpoint compute_root_hash_with_proofs (fuel : nat) (node : Node) (path_prefix : Path) : store_op St HashType :=
  match fuel with
  | O => lift (Err Diverges)
  | S fuel =>
      match node with
      | Leaf _ => lift (to_hash alg <$> from_node path_prefix node)
      | Branch branch =>
          parts ← build_branch_parts (compute_root_hash_with_proofs fuel)
                    (compute_root_hash_as_storage_trie_root fuel) branch path_prefix;
          mret (to_hash alg (mkShunt path_prefix (bp_partial_path parts)
                               (bp_value_digest parts) (bp_child_hashes parts)))
      end
  end
with compute_root_hash_as_storage_trie_root (fuel : nat) (node : Node) (account_prefix : Path)
  (branch_nibble : PathComponent) : store_op St HashType :=
  match fuel with
  | O => lift (Err Diverges)
  | S fuel =>
      match node with
      | Leaf _ => lift (hash_node_as_storage_trie_root_for_node alg account_prefix branch_nibble node)
      | Branch branch =>
          parts ← build_branch_parts (compute_root_hash_with_proofs fuel)
                    (compute_root_hash_as_storage_trie_root fuel) branch (account_prefix ++ [branch_nibble]);
          mret (hash_node_as_storage_trie_root_parts alg account_prefix branch_nibble
                  (bp_partial_path parts) (bp_value_digest parts) (bp_child_hashes parts))
      end
  end.

End Compute.
End RangeProof.

Section VerifyRange.
Context `{Digests} `{VarInt}.
Variable alg : NodeHashAlgorithm.

(** ** Equality of proof nodes *)

(** The derived [PartialEq] of [ProofNode], with that of [HashType]. *)
Definition ValueDigest_eq (a b : ValueDigest) : bool :=
  match a, b with
  | DigestValue v, DigestValue w => bool_decide (v = w)
  | DigestHash h, DigestHash g => HashType_eq h g
  | _, _ => false
  end.

Definition option_eqb {A} (eqb : A -> A -> bool) (a b : option A) : bool :=
  match a, b with
  | Some x, Some y => eqb x y
  | None, None => true
  | _, _ => false
  end.

Definition ProofNode_eq (a b : ProofNode) : bool :=
  bool_decide (pn_key a = pn_key b) && Nat.eqb (pn_partial_len a) (pn_partial_len b)
  && option_eqb ValueDigest_eq (pn_value_digest a) (pn_value_digest b)
  && forallb (fun i => option_eqb HashType_eq (Children_get (pn_child_hashes a) i) (Children_get (pn_child_hashes b) i))
       PathComponent_ALL.

(** ** Verification *)

(** [verify_edge]. *)
Definition verify_edge (requested_bound : option bytes) (edge_kv : option (bytes * Value))
  (edge_proof : list ProofNode) (root_hash : TrieHash) (edge : ProofEdge) : result ProofError unit :=
  match edge_proof with
  | [] => Ok tt
  | _ =>
      let bound_is_lower := match edge with LeftEdge => true | RightEdge => false end in
      let out_of_order :=
        match requested_bound, edge_kv with
        | Some bound, Some (edge_key, _) =>
            if bound_is_lower then slice_ltb edge_key bound else slice_ltb bound edge_key
        | _, _ => false
        end in
      if out_of_order
      then Err (if bound_is_lower then RangeProofStartBeyondFirstKey else RangeProofEndBeforeLastKey)
      else
        match requested_bound, edge_kv with
        | Some bound, _ =>
            let expected_value :=
              match edge_kv with
              | Some (key, value) => if bool_decide (bound = key) then Some value else None
              | None => None
              end in
            annotate edge (verify alg edge_proof bound expected_value root_hash)
        | None, Some (edge_key, edge_value) => annotate edge (verify alg edge_proof edge_key (Some edge_value) root_hash)
        | None, None => Ok tt
        end
  end.

(** The callback of [verify_range_proof_root_hash]. *)
Definition range_on_conflict (pn : ProofNode) (branch_value : option Value) : result ProofError (option Value) :=
  match pn_value_digest pn, branch_value with
  | Some (DigestValue v), _ => Ok (Some v)
  | _, None => Ok None
  | _, Some _ => Err UnexpectedValue
  end.

(** The proving trie: an empty proposal in memory, the pairs, then the proof nodes. *)
Definition empty_proposal : NodeStore MemStore := mkNodeStore None (Propose []) (mkMemStore []) true.

Fixpoint insert_all (key_values : list (bytes * Value)) (ns : NodeStore MemStore)
  : result ProofError unit * NodeStore MemStore :=
  match key_values with
  | [] => (Ok tt, ns)
  | (key, value) :: key_values =>
      match insert alg key value ns with
      | (Ok _, ns) => insert_all key_values ns
      | (Err e, ns) => (Err (ProofIO e), ns)
      end
  end.

Fixpoint reconcile_all (all_proof_nodes : list ProofNode) (proof_node_map : gmap Path ProofNode) (ns : NodeStore MemStore)
  : result ProofError (gmap Path ProofNode) * NodeStore MemStore :=
  match all_proof_nodes with
  | [] => (Ok proof_node_map, ns)
  | proof_node :: rest =>
      match reconcile_branch_proof_node alg proof_node range_on_conflict ns with
      | (Err e, ns) => (Err e, ns)
      | (Ok _, ns) =>
          match proof_node_map !! pn_key proof_node with
          | Some existing =>
              if negb (ProofNode_eq existing proof_node) then (Err ConflictingProofNodes, ns)
              else reconcile_all rest proof_node_map ns
          | None => reconcile_all rest (<[pn_key proof_node := proof_node]> proof_node_map) ns
          end
      end
  end.

(** The height of the part of a trie that is in memory. *)
Fixpoint node_height (n : Node) : nat :=
  match n with
  | Leaf _ => 1
  | Branch (mkBranch _ _ c) =>
      S ((fix go (c : list (option Child)) : nat :=
            match c with
            | [] => O
            | Some (ChildNode m) :: c => Nat.max (node_height m) (go c)
            | _ :: c => go c
            end) c)
  end.

(** [verify_range_proof_root_hash]. *)
Definition verify_range_proof_root_hash (proof : FrozenRangeProof) (first_key : option bytes)
  (right_boundary : RightBoundary) (root_hash : TrieHash) : result ProofError unit :=
  match insert_all (contents_of proof) empty_proposal with
  | (Err e, _) => Err e
  | (Ok _, ns) =>
      match reconcile_all (start_proof proof ++ end_proof proof) ∅ ns with
      | (Err e, _) => Err e
      | (Ok proof_node_map, ns) =>
          '(start_children, _) ← compute_outside_children (start_proof proof) (BoundaryLeft first_key);
          '(end_children, _) ← compute_outside_children (end_proof proof) (BoundaryRight right_boundary);
          let outside_children := merge_marks start_children end_children in
          match ns_root ns with
          | None => Err EmptyProof
          | Some root_node =>
              match compute_root_hash_with_proofs alg proof_node_map outside_children (node_height root_node) root_node [] ns with
              | (Err e, _) => Err (ProofIO e)
              | (Ok computed, _) =>
                  let expected := Hash root_hash in
                  if HashType_eq computed expected then Ok tt else Err (UnexpectedHash expected computed)
              end
          end
      end
  end.

(** [is_sorted_by(|a, b| a < b)] on the keys. *)
Fixpoint keys_ascend (key_values : list (bytes * Value)) : bool :=
  match key_values with
  | (a, _) :: ((b, _) :: _) as rest => slice_ltb a b && keys_ascend rest
  | _ => true
  end.

(** [verify_range_proof]; [alg] is the caller's hash mode. *)
Definition verify_range_proof (first_key last_key : option bytes) (root_hash : TrieHash) (proof : FrozenRangeProof)
  : result ProofError ProvenRange :=
  let key_values := contents_of proof in
  let outside k :=
    match first_key with Some start => slice_ltb k start | None => false end
    || match last_key with Some e => slice_ltb e k | None => false end in
  if negb (bool_decide (hash_mode proof = alg)) then Err (HashModeMismatch alg (hash_mode proof))
  else if match first_key, last_key with Some start, Some e => slice_ltb e start | _, _ => false end then Err StartAfterEnd
  else if negb (keys_ascend key_values) then Err NonMonotonicIncreaseRange
  else if existsb (fun p => outside p.1) key_values then Err KeyOutsideRange
  else if bool_decide (key_values = []) && bool_decide (first_key = None) && bool_decide (last_key = None) then Err EmptyProof
  else if bool_decide (first_key = None) && negb (Nat.eqb (length (start_proof proof)) 0) then Err UnexpectedStartProof
  else if Nat.eqb (length (end_proof proof)) 0 && bool_decide (is_Some last_key) then Err NoEndProof
  else
    _ ← reject_odd_nibble_value_digests (end_proof proof);
    let left_edge_kv := head key_values in
    let right_edge_kv := last key_values in
    _ ← verify_edge first_key left_edge_kv (start_proof proof) root_hash LeftEdge;
    let last_kv := fst <$> right_edge_kv in
    let right_boundary := right_edge (end_proof proof) last_kv last_key in
    _ ← match right_boundary with
        | InRange bound => verify_edge bound right_edge_kv (end_proof proof) root_hash RightEdge
        | OutOfRange bound =>
            if match right_edge_kv with Some (edge_key, _) => slice_ltb bound edge_key | None => false end
            then Err RangeProofEndBeforeLastKey
            else _ ← annotate RightEdge (proof_value_digest alg (end_proof proof) bound root_hash); mret tt
        end;
    _ ← verify_proof_node_values (start_proof proof ++ end_proof proof) first_key right_boundary key_values;
    _ ← verify_range_proof_root_hash proof first_key right_boundary root_hash;
    mret (mkProvenRange first_key (proven_right_edge right_boundary last_kv last_key)).

(** [RangeProofVerificationContext]. *)
Record RangeProofVerificationContext : Type := mkRangeContext {
  rc_root : TrieHash;
  rc_start_key : option bytes;
  rc_end_key : option bytes;
  rc_max_length : option Z;
  rc_right_edge_key : option bytes;
}.

(** [verify_range_proof_structure]. *)
Definition verify_range_proof_structure (proof : FrozenRangeProof) (root : TrieHash) (start_key end_key : option bytes)
  (max_length : option Z) : result ProofError RangeProofVerificationContext :=
  if match max_length with Some max => max <? len (contents_of proof) | None => false end
  then Err ProofIsLargerThanMaxLength
  else
    proven ← verify_range_proof start_key end_key root proof;
    mret (mkRangeContext root start_key end_key max_length (proven_end proven)).

(** [lex_successor]. *)
Definition lex_successor (key : bytes) : bytes := key ++ [0].

(** [find_next_key_after_range_proof]. *)
Definition find_next_key_after_range_proof (proof : FrozenRangeProof) (verification : RangeProofVerificationContext)
  : option (bytes * option bytes) :=
  match last (contents_of proof) with
  | None => None
  | Some (last_key, _) =>
      if Nat.eqb (length (end_proof proof)) 0 then None
      else if match rc_end_key verification with Some e => slice_le e last_key | None => false end then None
      else Some (lex_successor last_key, rc_end_key verification)
  end.

End VerifyRange.
