(* ===== verification/RangeMarks.v ===== *)
(** * What a range proof marks as outside

    [compute_outside_children]: a child slot that is marked lies before the lower
    bound, or after the upper bound, of the proven range. *)

From S2P Require Import Prelude Primitives NodePath Node Codec NodeCodec Trie NodeStore Linear Header ChildMask.
From S2P Require Import Merkle MerkleSpec MerkleInsert TrieCanonical MerkleCorrect Rlp Hashing Iter IterSpec.
From S2P Require Import ProofTypes KeyProof KeyProofSound ProofWire RangeProof.

(** ** Order *)

Lemma slice_lt_fork f i j r s : i < j -> slice_lt (f ++ i :: r) (f ++ j :: s).
Proof. intros Hij. unfold slice_lt. rewrite slice_le_app. simpl. destruct (Z.compare_spec j i); lia || done. Qed.

Lemma slice_lt_extend f i r : slice_lt f (f ++ i :: r).
Proof. unfold slice_lt. rewrite <- (app_nil_r f) at 2. by rewrite slice_le_app. Qed.

Lemma slice_le_lt_trans a b c : slice_le a b = true -> slice_lt b c -> slice_lt a c.
Proof.
  unfold slice_lt. intros Hab Hbc. destruct (slice_le c a) eqn:Hca; [|done].
  by rewrite (slice_le_trans c a b Hca Hab) in Hbc.
Qed.

Lemma slice_ltb_lt a b : slice_ltb a b = true <-> slice_lt a b.
Proof. unfold slice_ltb, slice_lt. by destruct (slice_le b a). Qed.

Lemma divergence_Some a b x y :
  divergence a b = Some (x, y) -> exists c a' b', a = c ++ x :: a' /\ b = c ++ y :: b' /\ x <> y.
Proof.
  revert b. induction a as [|p a IH]; intros [|q b]; simpl; try done.
  destruct (Z.eqb_spec p q) as [->|Hne].
  - intros (c & a' & b' & -> & -> & Hxy)%IH. by exists (q :: c), a', b'.
  - intros [= <- <-]. by exists [], a, b.
Qed.

Lemma divergence_None a b : divergence a b = None -> (exists s, b = a ++ s) \/ (exists s, a = b ++ s).
Proof.
  revert b. induction a as [|p a IH]; intros [|q b]; simpl; try (by eauto).
  destruct (Z.eqb_spec p q) as [->|Hne]; [|done]. intros [[s ->]|[s ->]]%IH; [left | right]; by exists s.
Qed.

(** ** The chain of an edge *)

(** Every node but the last is on the way to the key, and to the next node. *)
Fixpoint linked (key : Path) (nodes : list ProofNode) : Prop :=
  match nodes with
  | n :: (n' :: _) as rest =>
      (exists j s s', key = pn_key n ++ j :: s /\ pn_key n' = pn_key n ++ j :: s') /\ linked key rest
  | _ => True
  end.

Lemma verify_loop_linked `{Digests} `{VarInt} alg key nodes e b :
  verify_loop alg key nodes e b = Ok tt -> linked key nodes.
Proof.
  revert e b. induction nodes as [|n nodes IH]; intros e b Hv; [done|]. cbn [verify_loop] in Hv.
  destruct (if _ && _ then _ else _) as [h|]; [|done]. destruct (negb _); [done|]. destruct (_ && _); [done|].
  destruct (_ && _); [done|]. destruct nodes as [|n' nodes]; [done|].
  destruct (next_nibble (full_path n) key) as [j|] eqn:Ej; [|done].
  case_bool_decide as Ej'; [|done]. simpl negb in Hv. cbv iota in Hv.
  destruct (Children_get (h_children n) j); [|done]. split; [|by eapply IH].
  apply next_nibble_Some in Ej as [s Hs], Ej' as [s' Hs']. by exists j, s, s'.
Qed.

(** ** Marks *)

(** Every marked slot satisfies [P]. *)
Definition marks_ok (P : Path -> PathComponent -> Prop) (marks : gmap Path ChildMask) : Prop :=
  forall f m i, marks !! f = Some m -> is_nibble i -> is_set m i = true -> P f i.

Lemma marks_ok_empty P : marks_ok P ∅.
Proof. intros f m i Hf. by rewrite lookup_empty in Hf. Qed.

Lemma marks_ok_far P b key n marks :
  is_nibble n -> marks_ok P marks ->
  (forall i, is_nibble i -> (if is_left b then i < n else n < i) -> P key i) ->
  marks_ok P (mark_far_side b key n marks).
Proof.
  intros Hn Hm Hp f m i Hf Hi Hs. unfold mark_far_side in Hf.
  destruct (decide (f = key)) as [->|Hne]; [|rewrite lookup_insert_ne in Hf by done; by eapply Hm].
  rewrite lookup_insert_eq in Hf. injection Hf as <-.
  assert (Hold : is_set (default 0 (marks !! key)) i = true -> P key i).
  { destruct (marks !! key) as [m|] eqn:E; simpl; [by eapply Hm|]. done. }
  destruct (child_mask_is_a_set (default 0 (marks !! key)) 0 n i Hn Hi) as (Hb & Ha & _).
  destruct (is_left b).
  - rewrite Hb in Hs. apply orb_true_iff in Hs as [Hs|Hs%Z.ltb_lt]; auto.
  - rewrite Ha in Hs. apply orb_true_iff in Hs as [Hs|Hs%Z.ltb_lt]; auto.
Qed.

(** On the far side of the boundary [key]. *)
Definition far_side (b : EdgeBoundary) (key : Path) (f : Path) (i : PathComponent) : Prop :=
  forall r, if is_left b then slice_lt (f ++ i :: r) key else slice_lt key (f ++ i :: r).

Lemma far_side_fork b f i j s : (if is_left b then i < j else j < i) -> far_side b (f ++ j :: s) f i.
Proof. unfold far_side. destruct (is_left b); intros Hij r; by apply slice_lt_fork. Qed.

Lemma mark_inner_cons b n n' nodes marks :
  mark_inner b (n :: n' :: nodes) marks =
  (on_path_nibble ← ok_or (pn_key n' !! length (pn_key n)) ShouldBePrefixOfNextKey;
   mark_inner b (n' :: nodes) (mark_far_side b (pn_key n) on_path_nibble marks)).
Proof. reflexivity. Qed.

Lemma mark_inner_ok b key nodes marks marks' :
  is_path key -> linked key nodes -> marks_ok (far_side b key) marks -> mark_inner b nodes marks = Ok marks' ->
  marks_ok (far_side b key) marks'.
Proof.
  intros Hk. revert marks. induction nodes as [|n nodes IH]; intros marks Hl Hm Hr; [by injection Hr as <-|].
  destruct nodes as [|n' nodes]; [by injection Hr as <-|]. destruct Hl as [(j & s & s' & Hkey & Hn') Hl].
  rewrite mark_inner_cons, Hn', list_lookup_middle in Hr by done. cbn [ok_or mbind result_bind] in Hr.
  apply (IH _ Hl) in Hr; [done|]. rewrite Hkey in Hk. apply is_path_app in Hk as [_ [Hj _]%is_path_cons].
  apply marks_ok_far; [done | done |]. intros i Hi Hij. rewrite Hkey. by apply far_side_fork.
Qed.

(** The marks of an edge that leads to the boundary lie beyond the boundary. *)
Lemma outside_marks_ok b nodes key marks c :
  is_bytes key -> boundary_key b = Some key -> linked (nibbles_of key) nodes ->
  compute_outside_children nodes b = Ok (marks, c) -> marks_ok (far_side b (nibbles_of key)) marks.
Proof.
  intros Hkey Hb Hl. unfold compute_outside_children.
  destruct (mark_inner b nodes ∅) as [m|] eqn:Hm; [|done]. cbn [mbind result_bind].
  apply mark_inner_ok with (key := nibbles_of key) in Hm; [|by apply is_path_nibbles_of | done | apply marks_ok_empty].
  unfold classify_terminal. destruct (last nodes) as [t|]; simpl; [|by intros [= <- _]].
  rewrite Hb. simpl. rewrite from_nibbles_iterator_new by done.
  pose proof (is_path_nibbles_of key Hkey) as Hpath.
  destruct (divergence (pn_key t) (nibbles_of key)) as [[x y]|] eqn:Hd.
  - apply divergence_Some in Hd as (c' & a' & b' & Ht & Hk & Hxy).
    destruct (if is_left b then x <? y else y <? x) eqn:Hside; intros [= <- _]; [|done].
    intros f mm i Hf Hi Hs. destruct (decide (f = pn_key t)) as [->|Hne]; [|rewrite lookup_insert_ne in Hf by done; by eapply Hm].
    intros r. rewrite Hk, Ht, <- app_assoc. simpl. destruct (is_left b); apply slice_lt_fork; lia.
  - apply divergence_None in Hd. destruct (nibbles_of key !! length (pn_key t)) as [j|] eqn:Hj.
    + destruct Hd as [[s Hs]|[s Hs]].
      2: { rewrite Hs, lookup_ge_None_2 in Hj; [done | rewrite length_app; lia]. }
      rewrite Hs in Hj, Hpath |- *. destruct s as [|j' s]; [rewrite app_nil_r, lookup_ge_None_2 in Hj; done|].
      rewrite list_lookup_middle in Hj by done. injection Hj as <-.
      apply is_path_app in Hpath as [_ [Hjn _]%is_path_cons]. intros [= <- _].
      apply marks_ok_far; [done | by rewrite <- Hs |]. intros i Hi Hij. by apply far_side_fork.
    + destruct (is_left b) eqn:Hleft; intros [= <- _]; [done|].
      intros f mm i Hf Hi Hset. destruct (decide (f = pn_key t)) as [->|Hne]; [|rewrite lookup_insert_ne in Hf by done; by eapply Hm].
      intros r. rewrite Hleft. destruct Hd as [[s Hs]|[s Hs]].
      * rewrite Hs in Hj. destruct s as [|j' s]; [|by rewrite list_lookup_middle in Hj].
        rewrite Hs, app_nil_r. apply slice_lt_extend.
      * rewrite Hs, <- app_assoc. destruct s as [|z s]; simpl; apply slice_lt_extend.
Qed.

(** Without a boundary key, nothing but the inner nodes is marked; without nodes,
    nothing at all. *)
Lemma outside_marks_nil b marks c : compute_outside_children [] b = Ok (marks, c) -> marks = ∅.
Proof. by intros [= <- _]. Qed.
