(* ===== verification/RangeAccept.v ===== *)
(** * When a range proof is accepted

    The checks of [verify_range_proof] and of [verify_range_proof_root_hash], as
    conjunctions. *)

From S2P Require Import Prelude Primitives NodePath Node Codec NodeCodec Trie NodeStore Linear Header ChildMask.
From S2P Require Import Merkle Rlp Hashing HashSpec Iter ProofTypes KeyProof ProofWire RangeProof.

Section Accept.
Context `{Digests} `{VarInt}.
Variable alg : NodeHashAlgorithm.

Lemma ProofNode_eq_refl n : ProofNode_eq n n = true.
Proof.
  unfold ProofNode_eq. rewrite bool_decide_true, Nat.eqb_refl by done.
  assert (Hd : option_eqb ValueDigest_eq (pn_value_digest n) (pn_value_digest n) = true).
  { destruct (pn_value_digest n) as [[v|h]|]; simpl; [by apply bool_decide_eq_true_2 | apply HashType_eq_refl | done]. }
  rewrite Hd. apply forallb_forall. intros i _. destruct (Children_get _ i); [apply HashType_eq_refl | done].
Qed.

Lemma bind_Ok {E A B} (m : result E A) (f : A -> result E B) b :
  m ≫= f = Ok b <-> exists a, m = Ok a /\ f a = Ok b.
Proof. destruct m as [a|e]; simpl; [|split; [done | intros (? & ? & _); done]]. split; [eauto | by intros (? & [= ->] & ?)]. Qed.

Lemma annotate_Ok {A} edge (r : result ProofError A) a : annotate edge r = Ok a <-> r = Ok a.
Proof. by destruct r. Qed.

Lemma guard_Ok {E A} (b : bool) (e : E) (r : result E A) a :
  (if b then Err e else r) = Ok a <-> b = false /\ r = Ok a.
Proof. destruct b; split; [done | by intros [] | done | by intros []]. Qed.

(** The key is below the start or above the end of what was asked for. *)
Definition out_of_request (first_key last_key : option bytes) (k : bytes) : bool :=
  match first_key with Some start => slice_ltb k start | None => false end
  || match last_key with Some e => slice_ltb e k | None => false end.

(** The checks that do not hash. *)
Definition request_ok (first_key last_key : option bytes) (proof : FrozenRangeProof) : Prop :=
  hash_mode proof = alg /\
  (forall start e, first_key = Some start -> last_key = Some e -> slice_ltb e start = false) /\
  keys_ascend (contents_of proof) = true /\
  existsb (fun p => out_of_request first_key last_key p.1) (contents_of proof) = false /\
  (contents_of proof <> [] \/ first_key <> None \/ last_key <> None) /\
  (first_key = None -> start_proof proof = []) /\
  (end_proof proof = [] -> last_key = None) /\
  reject_odd_nibble_value_digests (end_proof proof) = Ok tt.

(** The check of the right edge. *)
Definition right_edge_ok (proof : FrozenRangeProof) (root_hash : TrieHash) (b : RightBoundary) : Prop :=
  match b with
  | InRange bound => verify_edge alg bound (last (contents_of proof)) (end_proof proof) root_hash RightEdge = Ok tt
  | OutOfRange bound =>
      (forall k v, last (contents_of proof) = Some (k, v) -> slice_ltb bound k = false) /\
      exists d, proof_value_digest alg (end_proof proof) bound root_hash = Ok d
  end.

(** The guards of [verify_range_proof], in its order. *)
Lemma request_ok_guards first_key last_key proof :
  request_ok first_key last_key proof <->
  negb (bool_decide (hash_mode proof = alg)) = false /\
  (match first_key, last_key with Some start, Some e => slice_ltb e start | _, _ => false end) = false /\
  negb (keys_ascend (contents_of proof)) = false /\
  existsb (fun p => out_of_request first_key last_key p.1) (contents_of proof) = false /\
  bool_decide (contents_of proof = []) && bool_decide (first_key = None) && bool_decide (last_key = None) = false /\
  bool_decide (first_key = None) && negb (Nat.eqb (length (start_proof proof)) 0) = false /\
  Nat.eqb (length (end_proof proof)) 0 && bool_decide (is_Some last_key) = false /\
  reject_odd_nibble_value_digests (end_proof proof) = Ok tt.
Proof.
  unfold request_ok. rewrite !negb_false_iff, bool_decide_eq_true, !andb_false_iff, !bool_decide_eq_false, negb_false_iff.
  rewrite Nat.eqb_eq, Nat.eqb_neq, !length_zero_iff_nil, <- eq_None_not_Some.
  split; intros (? & H2 & ? & ? & ? & H6 & H7 & ?); split_and!; try done.
  - destruct first_key, last_key; eauto.
  - tauto.
  - destruct first_key; [by left | right; auto].
  - destruct (end_proof proof); [right; auto | by left].
  - intros start e -> ->. done.
  - tauto.
  - by destruct H6.
  - by destruct H7.
Qed.

Lemma verify_range_proof_Ok first_key last_key root_hash proof proven :
  let b := right_edge (end_proof proof) (fst <$> last (contents_of proof)) last_key in
  verify_range_proof alg first_key last_key root_hash proof = Ok proven <->
  request_ok first_key last_key proof /\
  verify_edge alg first_key (head (contents_of proof)) (start_proof proof) root_hash LeftEdge = Ok tt /\
  right_edge_ok proof root_hash b /\
  verify_proof_node_values (start_proof proof ++ end_proof proof) first_key b (contents_of proof) = Ok tt /\
  verify_range_proof_root_hash alg proof first_key b root_hash = Ok tt /\
  proven = mkProvenRange first_key (proven_right_edge b (fst <$> last (contents_of proof)) last_key).
Proof.
  intros b. rewrite request_ok_guards. unfold verify_range_proof, right_edge_ok. rewrite !guard_Ok, bind_Ok.
  fold b. split.
  - intros (? & ? & ? & ? & ? & ? & ? & [] & Hodd & Hl). apply bind_Ok in Hl as ([] & Hl & Hr).
    apply bind_Ok in Hr as ([] & Hr & Hv). apply bind_Ok in Hv as ([] & Hv & Hh). apply bind_Ok in Hh as ([] & Hh & [= <-]).
    split_and!; try done. destruct b as [bound|bound]; [done|]. apply guard_Ok in Hr as [Hr (d & Hd & _)%bind_Ok].
    apply annotate_Ok in Hd. split; [|by exists d]. intros k v Hkv. by rewrite Hkv in Hr.
  - intros ((? & ? & ? & ? & ? & ? & ? & Hodd) & Hl & Hr & Hv & Hh & ->). split_and!; try done.
    exists tt. split; [done|]. rewrite Hl. cbn [mbind result_bind].
    enough (He : match b with
      | InRange bound => verify_edge alg bound (last (contents_of proof)) (end_proof proof) root_hash RightEdge
      | OutOfRange bound =>
          if match last (contents_of proof) with Some (edge_key, _) => slice_ltb bound edge_key | None => false end
          then Err RangeProofEndBeforeLastKey
          else _ ← annotate RightEdge (proof_value_digest alg (end_proof proof) bound root_hash); mret tt
      end = Ok tt) by (rewrite He; cbn [mbind result_bind]; rewrite Hv; cbn [mbind result_bind]; by rewrite Hh).
    destruct b as [bound|bound]; [done|]. destruct Hr as [Hr (d & Hd)]. rewrite Hd.
    destruct (last (contents_of proof)) as [[k v]|]; [by rewrite (Hr k v)|done].
Qed.

End Accept.
