(* ===== verification/RangeGaps.v ===== *)
(** * Two range proofs that should be rejected

    [verify_range_proof] accepts two proofs whose pairs are not the contents of the
    range.  Neither depends on a collision: the root hash is that of the trie, for
    every digest function. *)

From S2P Require Import Prelude Primitives NodePath Node Codec NodeCodec Trie NodeStore Linear Header ChildMask.
From S2P Require Import Merkle MerkleSpec Rlp Hashing HashSpec Iter ProofTypes KeyProof ProofWire RangeProof RangeAccept.

Section Gaps.
Context `{Digests} `{VarInt}.

(** ** Running the verifier step by step *)

Definition value_at_even (n : ProofNode) : Prop :=
  (negb (Nat.even (length (full_path n))) && bool_decide (is_Some (value_digest n))) = false.

Lemma verify_loop_last key n e b :
  to_hash MerkleDB n = e -> value_at_even n -> verify_loop MerkleDB key [n] e b = Ok tt.
Proof. intros <- Hv. cbn [verify_loop is_ethereum andb]. rewrite HashType_eq_refl. change (negb true) with false. cbv iota. by rewrite Hv. Qed.

Lemma verify_loop_next key n n' nodes j e e' b :
  to_hash MerkleDB n = e -> value_at_even n ->
  next_nibble (full_path n) key = Some j -> next_nibble (full_path n) (full_path n') = Some j ->
  Children_get (h_children n) j = Some e' -> (forall b, verify_loop MerkleDB key (n' :: nodes) e' b = Ok tt) ->
  verify_loop MerkleDB key (n :: n' :: nodes) e b = Ok tt.
Proof.
  intros <- Hv Hj Hj' Hc Hl. set (rest := n' :: nodes) in *. cbn [verify_loop is_ethereum andb]. rewrite HashType_eq_refl.
  change (negb true) with false. cbv iota. rewrite Hv. unfold rest at 1. cbv iota. rewrite Hj, Hj', bool_decide_true by done.
  change (negb true) with false. cbv iota. rewrite Hc. apply Hl.
Qed.

Lemma verify_intro (nodes : list ProofNode) key v root l d :
  last nodes = Some l -> full_path l = from_nibbles_iterator (NibblesIterator_new key) -> value_digest l = Some d ->
  ValueDigest_verify d v = true ->
  verify_loop MerkleDB (from_nibbles_iterator (NibblesIterator_new key)) nodes (Hash root) false = Ok tt ->
  verify MerkleDB nodes key (Some v) root = Ok tt.
Proof.
  intros Hl Hf Hd Hv Hloop. unfold verify, proof_value_digest. rewrite Hl, Hloop. cbn [mbind result_bind].
  rewrite Hf, bool_decide_true by done. rewrite Hd. simpl. by rewrite Hv.
Qed.

Lemma verify_absent_intro (nodes : list ProofNode) key root l :
  let k := from_nibbles_iterator (NibblesIterator_new key) in
  last nodes = Some l -> bool_decide (full_path l = k) = false -> next_nibble (full_path l) k = None ->
  verify_loop MerkleDB k nodes (Hash root) false = Ok tt -> verify MerkleDB nodes key None root = Ok tt.
Proof. intros k Hl Hf Hn Hloop. unfold verify, proof_value_digest. fold k. by rewrite Hl, Hloop; cbn [mbind result_bind]; rewrite Hf, Hn. Qed.

(** A node that was met before. *)
Lemma reconcile_all_again n nodes m ns ns' r :
  reconcile_branch_proof_node MerkleDB n range_on_conflict ns = (Ok tt, ns') -> m !! pn_key n = Some n ->
  reconcile_all MerkleDB nodes m ns' = r -> reconcile_all MerkleDB (n :: nodes) m ns = r.
Proof. intros He Hm Hr. cbn [reconcile_all]. by rewrite He, Hm, ProofNode_eq_refl. Qed.

Lemma reconcile_all_first n nodes m ns ns' r :
  reconcile_branch_proof_node MerkleDB n range_on_conflict ns = (Ok tt, ns') -> m !! pn_key n = None ->
  reconcile_all MerkleDB nodes (<[pn_key n := n]> m) ns' = r -> reconcile_all MerkleDB (n :: nodes) m ns = r.
Proof. intros He Hm Hr. cbn [reconcile_all]. by rewrite He, Hm. Qed.

(** The rebuilt trie hashes to the root hash. *)
Lemma root_hash_intro proof first b root m ns s e r :
  reconcile_all MerkleDB (start_proof proof ++ end_proof proof) ∅
    (insert_all MerkleDB (contents_of proof) empty_proposal).2 = (Ok m, ns) ->
  (insert_all MerkleDB (contents_of proof) empty_proposal).1 = Ok tt ->
  compute_outside_children (start_proof proof) (BoundaryLeft first) = Ok s ->
  compute_outside_children (end_proof proof) (BoundaryRight b) = Ok e ->
  ns_root ns = Some r ->
  (compute_root_hash_with_proofs MerkleDB m (merge_marks s.1 e.1) (node_height r) r [] ns).1 = Ok (Hash root) ->
  verify_range_proof_root_hash MerkleDB proof first b root = Ok tt.
Proof.
  unfold verify_range_proof_root_hash. destruct (insert_all _ _ _) as [i ns']. simpl fst. simpl snd.
  intros Hr -> Hs He Hroot Hc. rewrite Hr, Hs, He. destruct s as [s ?], e as [e ?]. cbn [mbind result_bind]. rewrite Hroot.
  simpl fst in Hc. destruct (compute_root_hash_with_proofs _ _ _ _ _ _ _) as [? ?]. simpl in Hc. subst.
  by rewrite HashType_eq_refl.
Qed.

(** ** The value of a proof node is given by its hash *)

Definition long_value : Value := replicate 32 9.

(** The keys ["a"] and ["ab"]; the value of the first is long. *)
Definition hidden_trie : trie :=
  T [6; 1] (Some long_value) (Children_set Children_new 6 (Some (None, T [2] (Some [7]) Children_new))).

(** The second pair only. *)
Definition hidden_proof : FrozenRangeProof :=
  mkEdgeProofs []
    [mkProofNode [6; 1] 0 (Some (DigestHash (Hash (sha256 long_value)))) (kid_hashes MerkleDB [6; 1] (tkids hidden_trie));
     mkProofNode [6; 1; 6; 2] 3 (Some (DigestValue [7])) Children_new]
    [([97; 98], [7])] MerkleDB.

(** C32: a pair with a long value can be withheld.  Under MerkleDB a node of an edge
    may carry the hash of its value instead of the value; the check that the pairs of
    the range include the values of the edge's nodes passes over such a node, and the
    hash of the rebuilt trie takes the digest from it.  The proof that omits the key
    "a" of a trie with the keys "a" and "ab" is accepted for the range up to "ab",
    whatever the digest functions are. *)
Theorem range_proof_hides_long_value :
  verify_range_proof MerkleDB None (Some [97; 98]) (into_triehash (troot_hash MerkleDB hidden_trie)) hidden_proof
    = Ok (mkProvenRange None (Some [97; 98])) /\
  tget hidden_trie (nibbles_of [97]) = Some long_value /\ kv_find (contents_of hidden_proof) [97] = None.
Proof.
  split_and!; [|reflexivity..]. apply verify_range_proof_Ok. split_and!; [..|reflexivity].
  - split_and!; try done. by right; right.
  - reflexivity.
  - apply annotate_Ok. eapply verify_intro; [reflexivity.. | |].
    + by vm_compute.
    + eapply verify_loop_next; [vm_compute; reflexivity | reflexivity.. |]. intros b.
      apply verify_loop_last; vm_compute; reflexivity.
  - reflexivity.
  - eapply root_hash_intro; [vm_compute; reflexivity..| vm_compute; reflexivity].
Qed.

(** ** The end proof of an empty open range *)

(** The keys [[16; 0]] and [[32; 0]], forking at the root. *)
Definition open_trie : trie :=
  T [] None (Children_set (Children_set Children_new 1 (Some (None, T [0; 0; 0] (Some [7]) Children_new)))
               2 (Some (None, T [0; 0; 0] (Some [8]) Children_new))).

(** The path to the first of them, as both edges, and no pair: the lower bound is
    past the first key. *)
Definition open_proof : FrozenRangeProof :=
  let nodes := [mkProofNode [] 0 None (kid_hashes MerkleDB [] (tkids open_trie));
                mkProofNode [1; 0; 0; 0] 1 (Some (DigestValue [7])) Children_new] in
  mkEdgeProofs nodes nodes [] MerkleDB.

(** C33: the end proof of an empty range without an upper bound is not verified.  There
    is then neither a bound nor a pair to verify the end proof against, and
    [verify_edge] returns at once; but the path of the end proof still decides which
    children count as outside of the range, and their hashes are taken from the proof.
    The proof that there is nothing at or after the key [16; 1] is accepted for a trie
    that holds the key [32; 0], whatever the digest functions are. *)
Theorem range_proof_unverified_end :
  verify_range_proof MerkleDB (Some [16; 1]) None (into_triehash (troot_hash MerkleDB open_trie)) open_proof
    = Ok (mkProvenRange (Some [16; 1]) None) /\
  tget open_trie (nibbles_of [32; 0]) = Some [8] /\ kv_find (contents_of open_proof) [32; 0] = None.
Proof.
  split_and!; [|reflexivity..]. apply verify_range_proof_Ok. split_and!; [..|reflexivity].
  - split_and!; try done. by right; left.
  - apply annotate_Ok. eapply verify_absent_intro; [reflexivity.. |].
    eapply verify_loop_next; [vm_compute; reflexivity | reflexivity.. |]. intros b.
    apply verify_loop_last; vm_compute; reflexivity.
  - reflexivity.
  - reflexivity.
  - eapply root_hash_intro;
      [do 2 (eapply reconcile_all_first; [vm_compute; reflexivity | vm_compute; reflexivity |]);
       do 2 (eapply reconcile_all_again; [vm_compute; reflexivity | vm_compute; reflexivity |]); reflexivity
      |vm_compute; reflexivity..].
Qed.

End Gaps.
