(* ===== verification/RangeHash.v ===== *)
(** * The hash of a rebuilt trie

    What [compute_root_hash_with_proofs] computes under MerkleDB: the hash of a tree whose
    slots outside of the range are filled from the proof nodes, and whose stored children
    give the hashes they carry.  If it is the root hash of a trie, the two hold the same
    under every key that leads through no marked slot, or SHA-256 collides. *)

From S2P Require Import Prelude Primitives NodePath Node Codec NodeCodec Trie NodeStore Linear Header ChildMask.
From S2P Require Import Merkle MerkleSpec MerkleInsert MerkleCorrect Rlp Hashing HashSpec HashHelper HashBinding Placed Iter.
From S2P Require Import ProofTypes KeyProof KeyProofSound ProofWire RangeProof.

(** ** Filling slots from a filtered list *)

Lemma omap_fst_NoDup {A B} (g : Z * A -> option (Z * B)) (l : list (Z * A)) :
  (forall p q, g p = Some q -> q.1 = p.1) -> NoDup l.*1 -> NoDup (omap g l).*1.
Proof.
  intros Hg. induction l as [|p l IH]; [done|]. csimpl. rewrite NoDup_cons. intros [Hn Hd].
  destruct (g p) as [q|] eqn:Ep; [|by apply IH]. csimpl. rewrite NoDup_cons. split; [|by apply IH].
  rewrite (Hg _ _ Ep). contradict Hn. apply list_elem_of_fmap in Hn as (r & -> & Hr).
  apply list_elem_of_omap in Hr as (s & Hs & Hgs). rewrite (Hg _ _ Hgs). by apply list_elem_of_fmap_2.
Qed.

(** Filling the slots that [g] picks among the present ones. *)
Lemma fill_omap_get {A} (c : Children (option A)) (g : Z * A -> option (Z * HashType)) acc i :
  Children_wf c -> Children_wf acc -> is_nibble i -> (forall p q, g p = Some q -> q.1 = p.1) ->
  Children_get (Children_fill id acc (omap g (Children_iter_present c))) i =
  match Children_get c i ≫= fun x => g (i, x) with Some q => Some q.2 | None => Children_get acc i end.
Proof.
  intros Hc Ha Hi Hg. set (l := omap g (Children_iter_present c)).
  assert (Hin : forall q, q ∈ l <-> is_nibble q.1 /\ (Children_get c q.1 ≫= fun x => g (q.1, x)) = Some q).
  { intros q. unfold l. rewrite list_elem_of_omap. split.
    - intros ([j x] & Hjx & Hq). apply Children_iter_present_elem in Hjx as [Hj Hx]; [|done].
      rewrite (Hg _ _ Hq). simpl. by rewrite Hx.
    - intros [Hq Hb]. apply bind_Some in Hb as (x & Hx & Hb). exists (q.1, x). split; [|done].
      by apply Children_iter_present_elem. }
  destruct (Children_fill_get id acc l i Ha Hi) as [H1 H2].
  { apply Forall_forall. intros q Hq. by apply Hin. }
  { apply omap_fst_NoDup; [done | apply Children_iter_present_NoDup]. }
  destruct (Children_get c i ≫= fun x => g (i, x)) as [[j h]|] eqn:E.
  - assert (j = i) as -> by (apply bind_Some in E as (x & _ & E); by apply Hg in E). apply H1. by apply Hin.
  - apply H2. intros ([j h] & -> & Hq%Hin)%list_elem_of_fmap. simpl in *. destruct Hq. congruence.
Qed.

Lemma Children_map_slot {A B} (f : Z -> option A -> option B) (c : Children (option A)) i :
  Children_wf c -> is_nibble i -> Children_get (Children_map f c) i = f i (Children_get c i).
Proof.
  unfold Children_wf, is_nibble, MAX_CHILDREN, PathComponent_LEN. intros Hc Hi. unfold Children_get, Children_map.
  rewrite list_lookup_imap. destruct (lookup_lt_is_Some_2 c (Z.to_nat i)) as [x Hx]; [lia|]. rewrite Hx. simpl.
  by rewrite Z2Nat.id by lia.
Qed.

Section Hybrid.
Context `{Digests} `{VarInt}.
Variable proof_nodes : gmap Path ProofNode.
Variable outside_children : gmap Path ChildMask.

(** ** The hash, without the store *)

(** The slot is outside of the range. *)
Definition outside_at (full : Path) (i : PathComponent) : bool :=
  match outside_children !! full with Some m => is_set m i | None => false end.

(** The hash that goes into a slot. *)
Definition slot_hash (hash : Node -> Path -> HashType) (full : Path) (i : PathComponent) (c : option Child)
  : option HashType :=
  if outside_at full i then proof_nodes !! full ≫= fun pn => Children_get (pn_child_hashes pn) i
  else match c with Some (ChildNode n) => Some (hash n (full ++ [i])) | Some c => Child_hash c | None => None end.

(** What is hashed for a node. *)
Definition hybrid_shunt (hash : Node -> Path -> HashType) (n : Node) (pfx : Path) : HashableShunt :=
  match n with
  | Leaf l => mkShunt pfx (leaf_partial_path l) (Some (DigestValue (leaf_value l))) Children_new
  | Branch (mkBranch pp v c) =>
      mkShunt pfx pp
        (match v with Some v => Some (DigestValue v) | None => proof_nodes !! (pfx ++ pp) ≫= pn_value_digest end)
        (Children_map (slot_hash hash (pfx ++ pp)) c)
  end.

Fixpoint hybrid_hash (fuel : nat) (n : Node) (pfx : Path) : HashType :=
  match fuel with
  | O => merkledb_to_hash (mkShunt pfx (partial_path n) None Children_new)
  | S fuel => merkledb_to_hash (hybrid_shunt (hybrid_hash fuel) n pfx)
  end.

(** The preimages of the nodes that the verifier hashes. *)
Fixpoint hybrid_strings (fuel : nat) (n : Node) (pfx : Path) : list bytes :=
  match fuel with
  | O => []
  | S fuel =>
      merkledb_write_preimage (hybrid_shunt (hybrid_hash fuel) n pfx)
      :: match n with
         | Leaf _ => []
         | Branch (mkBranch pp _ c) =>
             flat_map (fun p =>
               match p with
               | (i, ChildNode m) => if outside_at (pfx ++ pp) i then [] else hybrid_strings fuel m ((pfx ++ pp) ++ [i])
               | _ => []
               end) (Children_iter_present c)
         end
  end.

(** ** The program computes it *)

Context {St : Type} `{ReadableStorage St}.

Lemma hash_in_range_ok mask hash_child (h : Node -> PathComponent -> HashType) l acc (ns : NodeStore St) :
  let outside i := match mask with Some m => is_set m i | None => false end in
  let pick p := match p with
                | (i, ChildNode n) => if outside i then None else Some (i, h n i)
                | (i, c) => if outside i then None else (fun x => (i, x)) <$> Child_hash c
                end in
  (forall i n, (i, Some (ChildNode n)) ∈ l -> outside i = false -> hash_child n i ns = (Ok (h n i), ns)) ->
  hash_in_range MerkleDB mask false hash_child l acc ns =
  (Ok (Children_fill id acc (omap pick (omap (fun p => match p with (i, Some x) => Some (i, x) | _ => None end) l))), ns).
Proof.
  intros outside pick. revert acc. induction l as [|[i [c|]] l IH]; intros acc Hl; [done| |].
  - assert (Hrest : forall acc, hash_in_range MerkleDB mask false hash_child l acc ns = _) by
      (intros acc'; apply IH; intros j d Hd; apply Hl; by right). clear IH.
    cbn [hash_in_range]. fold (outside i). csimpl. destruct c as [n|a hh|x hh]; cbn [pick]; destruct (outside i) eqn:Ho;
      cbn [Child_hash negb fmap option_fmap option_map]; rewrite ?Hrest; try done.
    cbn [read_child_node]. erewrite store_bind_Ok by reflexivity.
    erewrite store_bind_Ok by (apply Hl; [by left | done]). by rewrite Hrest.
  - cbn [hash_in_range]. csimpl. apply IH. intros j d Hd. apply Hl. by right.
Qed.

Lemma overlay_outside_fill pn mask acc :
  overlay_outside (Some pn) (Some mask) acc =
  Children_fill id acc (omap (fun p => if is_set mask p.1 then Some p else None) (Children_iter_present (pn_child_hashes pn))).
Proof.
  unfold overlay_outside, Children_fill. generalize (Children_iter_present (pn_child_hashes pn)). intros l.
  revert acc. induction l as [|p l IH]; intros acc; [done|]. csimpl. destruct (is_set mask p.1); csimpl; apply IH.
Qed.

Lemma node_height_child pp v c i n :
  Children_get c i = Some (ChildNode n) -> (node_height n < node_height (Branch (mkBranch pp v c)))%nat.
Proof.
  intros Hg%Children_get_Some. cbn [node_height]. apply Nat.lt_succ_r. revert Hg. generalize (Z.to_nat i). clear.
  induction c as [|x c IH]; intros [|j] Hj; try done; simpl in *.
  - injection Hj as ->. lia.
  - specialize (IH j Hj). destruct x as [[]|]; lia.
Qed.

Hypothesis nodes_wf : forall f pn, proof_nodes !! f = Some pn -> Children_wf (pn_child_hashes pn).

Lemma overlay_get full acc i :
  Children_wf acc -> is_nibble i ->
  Children_wf (overlay_outside (proof_nodes !! full) (outside_children !! full) acc) /\
  Children_get (overlay_outside (proof_nodes !! full) (outside_children !! full) acc) i =
  match proof_nodes !! full ≫= fun pn => if outside_at full i then Children_get (pn_child_hashes pn) i else None with
  | Some h => Some h
  | None => Children_get acc i
  end.
Proof.
  intros Ha Hi. unfold outside_at. destruct (proof_nodes !! full) as [pn|] eqn:Hpn; [|done].
  destruct (outside_children !! full) as [mask|]; [|done]. rewrite overlay_outside_fill.
  split; [by apply Children_fill_wf|]. rewrite fill_omap_get; [|by eapply nodes_wf | done | done |].
  - simpl. destruct (Children_get (pn_child_hashes pn) i); simpl; destruct (is_set mask i); done.
  - intros p q Hp. destruct (is_set mask p.1); [by injection Hp as <- | done].
Qed.

Lemma build_branch_parts_ok hash hash' (h : Node -> Path -> HashType) pp v c pfx (ns : NodeStore St) :
  is_path pp -> Children_wf c ->
  (forall i n, is_nibble i -> Children_get c i = Some (ChildNode n) ->
     hash n ((pfx ++ pp) ++ [i]) ns = (Ok (h n ((pfx ++ pp) ++ [i])), ns)) ->
  exists parts, build_branch_parts MerkleDB proof_nodes outside_children hash hash' (mkBranch pp v c) pfx ns = (Ok parts, ns) /\
    mkShunt pfx (bp_partial_path parts) (bp_value_digest parts) (bp_child_hashes parts) = hybrid_shunt h (Branch (mkBranch pp v c)) pfx.
Proof.
  intros Hpp Hcw Hhash. set (full := pfx ++ pp) in *. unfold build_branch_parts.
  cbn [branch_partial_path]. rewrite as_components_path by done. erewrite store_bind_Ok by reflexivity. cbn [branch_partial_path branch_children branch_value is_ethereum andb single_effective_account_child negb orb].
  fold full. erewrite store_bind_Ok; [|apply (hash_in_range_ok _ _ (fun n i => h n (full ++ [i])))].
  2: { intros i n Hin _. assert (Hg : (i, ChildNode n) ∈ Children_iter_present c).
       { unfold Children_iter_present. apply list_elem_of_omap. by exists (i, Some (ChildNode n)). }
       apply Children_iter_present_elem in Hg as [Hi Hg]; [|done]. rewrite bool_decide_false by done. by apply Hhash. }
  eexists. split; [done|]. cbn [bp_partial_path bp_value_digest bp_child_hashes hybrid_shunt]. fold full. f_equal.
  fold (Children_iter_present c). set (g := fun p : Z * Child => _).
  assert (Hg : forall p q, g p = Some q -> q.1 = p.1).
  { intros [j [n|a x|m x]] q Hq; simpl in Hq; by destruct (match outside_children !! full with Some _ => _ | None => _ end); simplify_eq/=. }
  assert (Hw : Children_wf (Children_fill id (Children_new (T:=HashType)) (omap g (Children_iter_present c)))) by
    apply Children_fill_wf, Children_new_wf.
  apply Children_ext; [by apply (overlay_get full _ 0) | by apply Children_map_wf |].
  intros i Hi. destruct (overlay_get full _ i Hw Hi) as [_ ->]. rewrite Children_map_slot by done.
  rewrite fill_omap_get, Children_get_new by (done || apply Children_new_wf).
  unfold slot_hash, g. fold (outside_at full i). destruct (outside_at full i) eqn:Ho; simpl.
  - destruct (proof_nodes !! full) as [pn|]; simpl; [destruct (Children_get (pn_child_hashes pn) i); [done|]|];
      destruct (Children_get c i) as [[]|]; simpl; by rewrite ?Ho.
  - assert (Hn : (proof_nodes !! full ≫= fun _ : ProofNode => None) = (None : option HashType)) by (by destruct (proof_nodes !! full)).
    rewrite Hn. destruct (Children_get c i) as [[]|]; simpl; by rewrite ?Ho.
Qed.

Lemma compute_root_hash_ok rd fuel n pfx (ns : NodeStore St) :
  placed MerkleDB rd pfx n -> (node_height n <= fuel)%nat ->
  compute_root_hash_with_proofs MerkleDB proof_nodes outside_children fuel n pfx ns = (Ok (hybrid_hash fuel n pfx), ns).
Proof.
  revert n pfx. induction fuel as [|fuel IH]; intros n pfx Hp Hf; [destruct n as [[]|]; simpl in Hf; lia|].
  cbn [compute_root_hash_with_proofs hybrid_hash]. destruct Hp as [pfx l Hl|pfx pp v c Hpp Hcw Hs]; [cbn; by rewrite as_components_path|].
  destruct (build_branch_parts_ok (compute_root_hash_with_proofs MerkleDB proof_nodes outside_children fuel)
    (compute_root_hash_as_storage_trie_root MerkleDB proof_nodes outside_children fuel) (hybrid_hash fuel) pp v c pfx ns Hpp Hcw)
    as (parts & Hp & Hsh).
  - intros i n Hi Hn. specialize (Hs i _ Hi Hn). inversion Hs as [? ? ? ? Hpn|? ? ? ? ? ? ? Hno]; subst; [|done]. apply IH; [done|].
    pose proof (node_height_child pp v c i n Hn). lia.
  - erewrite store_bind_Ok by exact Hp. cbn [branch_partial_path]. unfold mret, store_ret. rewrite Hsh. done.
Qed.

End Hybrid.

(** ** Binding *)

Section HybridBinding.
Context `{DigestsLaws} `{VarIntLaws} {St : Type} `{ReadableStorage St}.
Variable proof_nodes : gmap Path ProofNode.
Variable outside_children : gmap Path ChildMask.
Variable rd : LinearAddress -> option Node.
Variable L : nat.
Hypothesis nodes_ok : forall f pn, proof_nodes !! f = Some pn -> hashable_ok pn.
Hypothesis L_fits : BITS_PER_NIBBLE * Z.of_nat L <= U64_MAX.

Abbreviation hash := (hybrid_hash proof_nodes outside_children).
Abbreviation strings := (hybrid_strings proof_nodes outside_children).
Abbreviation shunt := (hybrid_shunt proof_nodes outside_children).

(** A node of the proving trie, below [pfx]. *)
Record rebuilt (n : Node) (u : trie) (pfx : Path) : Prop := mkRebuilt {
  rebuilt_node : rnode rd n u;
  rebuilt_placed : placed MerkleDB rd pfx n;
  rebuilt_wf : trie_wf u;
  rebuilt_prefix : is_path pfx;
  rebuilt_paths : paths_le L pfx u;
}.

Lemma paths_le_fit pfx u : is_path pfx -> trie_wf u -> paths_le L pfx u -> paths_fit (pfx ++ tpath u) u.
Proof.
  revert pfx. induction u as [pp v ks IH] using trie_ind'. intros pfx Hp Hw Hl.
  pose proof (trie_wf_inv _ _ _ Hw) as (Hpp & _ & Hkids). inversion Hl as [? ? ? ? Hlen Hlk]; subst.
  assert (Hf : is_path (pfx ++ pp)) by (by apply is_path_app). constructor; [cbn [tpath]; unfold BITS_PER_NIBBLE in *; lia | done |].
  intros i o t Hi Hk. replace (_ ++ i :: tpath t) with (((pfx ++ pp) ++ [i]) ++ tpath t) by (by rewrite <- app_assoc).
  eapply (IH (Z.to_nat i)); [by apply Children_get_Some | | by eapply Hkids | by eapply Hlk].
  apply is_path_app; split; [done | apply is_path_cons; split; [done | constructor]].
Qed.

(** A slot of a node of the proving trie: empty, in memory, or stored with its hash. *)
Lemma rebuilt_slot pp v c ks pfx i :
  rebuilt (Branch (mkBranch pp v c)) (T pp v ks) pfx -> is_nibble i ->
  (Children_get c i = None /\ Children_get ks i = None) \/
  (exists n w, Children_get c i = Some (ChildNode n) /\ Children_get ks i = Some (None, w) /\ rebuilt n w ((pfx ++ pp) ++ [i])) \/
  (exists x a w, Children_get c i = Some x /\ (forall n, x <> ChildNode n) /\ Children_get ks i = Some (Some a, w) /\ trie_wf w /\
     Child_hash x = Some (thash MerkleDB [] ((pfx ++ pp) ++ i :: tpath w) w) /\ paths_fit ((pfx ++ pp) ++ i :: tpath w) w).
Proof.
  intros [Hr Hpl Hw Hp Hl] Hi. inversion Hr as [|? ? ? ? Hcw Hkw Hs]; subst. inversion Hpl as [|? ? ? ? Hpp _ Hc]; subst.
  pose proof (trie_wf_inv _ _ _ Hw) as (_ & _ & Hkids). inversion Hl as [? ? ? ? _ Hlk]; subst.
  assert (Hfull : is_path ((pfx ++ pp) ++ [i])) by (apply is_path_app; split; [by apply is_path_app | by repeat constructor; apply Hi]).
  specialize (Hs i Hi). destruct (Children_get c i) as [x|] eqn:Hx; inversion Hs as [Hk|x0 n w Hn Hnw Hx0 Hk]; subst; [right | by left].
  symmetry in Hk. specialize (Hc i x Hi Hx). inversion Hc as [? ? ? m Hm|? ? ? ? h m t Hh Hm Hcom Hwt Hst]; subst.
  - left. cbn in Hn, Hk. injection Hn as ->. exists n, w. split_and!; [done | done |]. split; [done | done | by eapply Hkids | done | by eapply Hlk].
  - right. rewrite Hn in Hm. injection Hm as <-. rewrite (rnode_unique rd _ _ _ (committed_rnode MerkleDB rd _ _ _ Hcom) Hnw) in *.
    assert (Ha : exists a, child_handle x = Some a) by (destruct x; simpl in *; by eauto). destruct Ha as [a Ha]. rewrite Ha in *.
    exists x, a, w. split_and!; [done | by intros ? -> | done | done | |].
    + rewrite Hh, Hst by done. f_equal. unfold kid_hash. rewrite !thash_merkledb. by rewrite <- !app_assoc.
    + replace (_ ++ i :: tpath w) with (((pfx ++ pp) ++ [i]) ++ tpath w) by (by rewrite <- app_assoc). apply paths_le_fit; [done | done | by eapply Hlk].
Qed.

Lemma hybrid_hash_32 fuel n pfx : hash32 (hash fuel n pfx).
Proof. destruct fuel; eexists; (split; [reflexivity | apply sha256_wf]). Qed.

Lemma rebuilt_hashable_ok fuel n u pfx : rebuilt n u pfx -> hashable_ok (shunt (hash fuel) n pfx).
Proof.
  intros Hb. pose proof Hb as [Hr _ Hw Hp Hl]. destruct Hr as [l|pp v c ks Hcw Hkw Hs]; pose proof (trie_wf_inv _ _ _ Hw) as (Hpp & _);
    inversion Hl as [? ? ? ? Hlen _]; subst.
  - split_and!; simpl; [apply Children_new_wf | | by intros d [= <-] | by apply is_path_app | ].
    + intros i h _. by rewrite Children_get_new.
    + unfold BITS_PER_NIBBLE in *. lia.
  - split_and!; simpl; [by apply Children_map_wf | | | by apply is_path_app | ].
    + intros i h Hi. rewrite Children_map_slot by done. unfold slot_hash. destruct (outside_at _ _ i).
      * intros (pn & Hpn & Hg)%bind_Some. destruct (nodes_ok _ _ Hpn) as (_ & Hok & _). by eapply Hok.
      * destruct (rebuilt_slot _ _ _ _ _ i Hb Hi) as [[-> _]|[(n & w & -> & _)|(x & a & w & -> & Hx & _ & _ & Hh & _)]]; [done | |].
        -- intros [= <-]. apply hybrid_hash_32.
        -- rewrite thash_merkledb in Hh. destruct x as [n| |]; [by destruct (Hx n)|..]; rewrite Hh; intros [= <-]; eexists; (split; [reflexivity | apply sha256_wf]).
    + intros d. destruct v; [by intros [= <-]|]. intros (pn & Hpn & Hd)%bind_Some.
      destruct (nodes_ok _ _ Hpn) as (_ & _ & Hok & _). by apply Hok.
    + unfold BITS_PER_NIBBLE in *. lia.
Qed.

Lemma hybrid_strings_child fuel pp v c i n pfx :
  Children_wf c -> is_nibble i -> Children_get c i = Some (ChildNode n) -> outside_at outside_children (pfx ++ pp) i = false ->
  strings fuel n ((pfx ++ pp) ++ [i]) ⊆ strings (S fuel) (Branch (mkBranch pp v c)) pfx.
Proof.
  intros Hcw Hi Hc Ho x Hx. cbn [hybrid_strings]. apply elem_of_cons. right. apply list_elem_of_In, in_flat_map. exists (i, ChildNode n). split.
  - by apply list_elem_of_In, Children_iter_present_elem.
  - rewrite Ho. by apply list_elem_of_In.
Qed.

(** A stored kid is among the handles. *)
Lemma stored_kid_handles pp v (ks : Children (option kid)) i a w : Children_get ks i = Some (Some a, w) -> handles (T pp v ks) <> [].
Proof.
  rewrite Children_get_Some, handles_T. generalize (Z.to_nat i). intros j. revert j.
  induction ks as [|k ks IH]; intros [|j] Hj; try done; simpl in *; [by injection Hj as -> | intros [_ Hn]%app_eq_nil; by eapply IH].
Qed.

Lemma kid_handles_ne pp v (ks : Children (option kid)) i o w : Children_get ks i = Some (o, w) -> handles w <> [] -> handles (T pp v ks) <> [].
Proof.
  rewrite Children_get_Some, handles_T. generalize (Z.to_nat i). intros j. revert j.
  induction ks as [|k ks IH]; intros [|j] Hj Hw; try done; simpl in *.
  - injection Hj as ->. simpl. intros [[_ ?]%app_eq_nil _]%app_eq_nil. done.
  - intros [_ Hn]%app_eq_nil. by eapply IH.
Qed.

(** Where a collision is found: in what the verifier hashes, or in what was hashed to
    store the children. *)
Definition hybrid_collision (fuel : nat) (n : Node) (u : trie) (pfx : Path) (t : trie) : Prop :=
  collision (strings fuel n pfx) (preimages (pfx ++ tpath t) t) \/
  (handles u <> [] /\ collision (preimages (pfx ++ tpath u) u) (preimages (pfx ++ tpath t) t)).

Lemma hybrid_collision_child fuel pp v c ks i m w pfx qq x ts o t :
  is_nibble i -> Children_wf c -> Children_get c i = Some (ChildNode m) -> Children_get ks i = Some (None, w) ->
  outside_at outside_children (pfx ++ pp) i = false -> Children_get ts i = Some (o, t) -> qq = pp ->
  hybrid_collision fuel m w ((pfx ++ pp) ++ [i]) t ->
  hybrid_collision (S fuel) (Branch (mkBranch pp v c)) (T pp v ks) pfx (T qq x ts).
Proof.
  intros Hi Hcw Hc Hk Ho Ht -> Hcol. unfold hybrid_collision in *. cbn [tpath].
  assert (Hp : forall y, ((pfx ++ pp) ++ [i]) ++ tpath y = (pfx ++ pp) ++ i :: tpath y) by (intros y; by rewrite <- app_assoc).
  rewrite !Hp in Hcol. pose proof (preimages_kid (pfx ++ pp) pp x ts i o t Hi Ht) as Hsub. destruct Hcol as [Hcol|[Hh Hcol]]; [left | right].
  - eapply collision_mono; [exact Hcol | by apply hybrid_strings_child | done].
  - split; [by eapply kid_handles_ne|]. eapply collision_mono; [exact Hcol | by eapply preimages_kid | done].
Qed.

(** The proving trie and a trie with the same hash hold the same under a key, if the key
    leads through no slot outside of the range, or through one that is empty in the proof
    and the proving trie, and if the proof does not fill in a value under it. *)
Lemma hybrid_binding fuel n u pfx t r :
  rebuilt n u pfx -> (node_height n <= fuel)%nat ->
  trie_wf t -> paths_fit (pfx ++ tpath t) t -> is_path r ->
  (forall f i s, pfx ++ r = f ++ i :: s ->
     outside_at outside_children f i = false \/ (tget u r = None /\ proof_nodes !! f ≫= (fun pn => Children_get (pn_child_hashes pn) i) = None)) ->
  (tget u r = None -> proof_nodes !! (pfx ++ r) ≫= pn_value_digest = None) ->
  hash fuel n pfx = thash MerkleDB [] (pfx ++ tpath t) t ->
  digest_bytes (DigestValue <$> tget u r) = digest_bytes (DigestValue <$> tget t r) \/ hybrid_collision fuel n u pfx t.
Proof.
  revert n u pfx t r. induction fuel as [|fuel IH]; intros n u pfx t r Hn Hf Hwf Hfit Hr Hin Hdig He.
  { destruct n as [[]|]; simpl in Hf; lia. }
  cbn [hybrid_hash] in He. unfold merkledb_to_hash in He.
  destruct (node_binding (shunt (hash fuel) n pfx) t (pfx ++ tpath t)) as [(Hch & Hval & Hfull)|Hcol];
    [by eapply rebuilt_hashable_ok | done | done | by rewrite <- He | |].
  2: { right. left. eapply collision_mono; [exact Hcol | | done]. intros x [->|Hx]%elem_of_cons; [by constructor | by apply elem_of_nil in Hx]. }
  destruct t as [pp v ks]. cbn [tpath tkids tval] in *.
  assert (Hpp : partial_path n = pp) by (destruct n as [[]|]; cbn in Hfull; by apply app_inv_head in Hfull).
  pose proof (rebuilt_node _ _ _ Hn) as Hrn. destruct u as [qq w us]. pose proof (rnode_path _ _ _ Hrn) as Hqq. rewrite Hpp in Hqq. cbn in Hqq. subst qq.
  rewrite !tget_T in *. destruct (strip_prefix pp r) as [[|i s]|] eqn:Es; [| |by left]; apply strip_prefix_Some in Es; subst r.
  { left. rewrite <- Hval. rewrite app_nil_r in Hdig. inversion Hrn as [l|? ? c ? Hcw Hkw Hs]; subst; [done|]. cbn.
    destruct w; [done|]. cbn in Hdig. by rewrite Hdig. }
  apply is_path_app in Hr as [_ [Hi Hs]%is_path_cons].
  assert (Hslot : Children_get (h_children (shunt (hash fuel) n pfx)) i = Children_get (kid_hashes MerkleDB (pfx ++ pp) ks) i) by (by rewrite Hch).
  rewrite kid_hashes_get in Hslot by done.
  specialize (Hin (pfx ++ pp) i s) as Hout. rewrite <- app_assoc in Hout. specialize (Hout eq_refl).
  destruct n as [[qq w' c]|l].
  2: { left. inversion Hrn; subst. cbn [hybrid_shunt h_children HashableShunt_Hashable sh_child_hashes] in Hslot.
       rewrite Children_get_new in Hslot. rewrite Children_get_new. by destruct (Children_get ks i). }
  cbn [partial_path branch_partial_path] in Hpp. subst qq. inversion Hrn as [|? ? ? ? Hcw Hkw Hsl]; subst.
  cbn [hybrid_shunt h_children HashableShunt_Hashable sh_child_hashes] in Hslot.
  rewrite Children_map_slot in Hslot by done. unfold slot_hash in Hslot.
  destruct (outside_at outside_children (pfx ++ pp) i) eqn:Ho.
  { left. destruct Hout as [?|[-> Hempty]]; [done|]. rewrite Hempty in Hslot. by destruct (Children_get ks i). }
  destruct (rebuilt_slot _ _ _ _ _ i Hn Hi) as [[Hc Hk]|[(m & x & Hc & Hk & Hm)|(x & a & y & Hc & Hx & Hk & Hwy & Hh & Hfy)]]; rewrite Hc in Hslot; rewrite Hk in *.
  { left. by destruct (Children_get ks i). }
  - destruct (Children_get ks i) as [[g t]|] eqn:Ht; [|done]. cbn [fmap option_fmap option_map snd] in Hslot.
    apply (inj Some) in Hslot. rewrite kid_hash_merkledb in Hslot.
    pose proof (trie_wf_inv _ _ _ Hwf) as (_ & _ & Hkids). inversion Hfit as [? ? ? ? _ _ Hfk]; subst.
    specialize (Hfk i g t Hi Ht). replace ((pfx ++ pp) ++ i :: tpath t) with (((pfx ++ pp) ++ [i]) ++ tpath t) in Hfk, Hslot by (by rewrite <- app_assoc).
    cbn [kid_get mbind option_bind snd] in *.
    destruct (IH m x ((pfx ++ pp) ++ [i]) t s) as [Hd|Hcol]; [done | | by eapply Hkids | done | done | | | done | by left | right].
    + pose proof (node_height_child pp w c i m Hc). lia.
    + intros f j q Hfj. apply (Hin f j q). by rewrite <- Hfj, <- !app_assoc.
    + intros Hno. rewrite <- !app_assoc. by apply Hdig.
    + by eapply hybrid_collision_child.
  - destruct (Children_get ks i) as [[g t]|] eqn:Ht; [|by destruct x as [z| |]; [destruct (Hx z)|..]]. cbn [fmap option_fmap option_map snd] in Hslot.
    assert (Hth : thash MerkleDB [] ((pfx ++ pp) ++ i :: tpath y) y = thash MerkleDB [] ((pfx ++ pp) ++ i :: tpath t) t).
    { rewrite kid_hash_merkledb in Hslot. destruct x as [z| |]; [by destruct (Hx z)|..]; rewrite Hh in Hslot; by apply (inj Some) in Hslot. }
    pose proof (trie_wf_inv _ _ _ Hwf) as (_ & _ & Hkids). inversion Hfit as [? ? ? ? _ _ Hfk]; subst.
    destruct (thash_binding y t _ _ Hwy ltac:(by eapply Hkids) Hfy (Hfk i g t Hi Ht) Hth) as [[Hpath Hsim]|Hcol]; [left | right; right].
    + cbn [kid_get mbind option_bind snd]. rewrite (tsim_tget y t s); [done | | done]. apply Hsim. apply app_inv_head in Hpath. by injection Hpath.
    + split; [by eapply stored_kid_handles|]. eapply collision_mono; [exact Hcol | by eapply preimages_kid | by eapply preimages_kid].
Qed.

End HybridBinding.
