(* ===== verification/RangeTrie.v ===== *)
(** * The trie that a verifier of range proofs rebuilds

    Inserting the pairs of a proof and reconciling its nodes
    ([verify_range_proof_root_hash], [reconcile_branch_proof_node]): the trie stays in
    memory and well formed, and under the keys whose values the proof nodes do not
    contradict it holds the pairs. *)

From S2P Require Import Prelude Primitives NodePath Node Codec NodeCodec Trie NodeStore Linear Header ChildMask.
From S2P Require Import Merkle MerkleSpec MerkleInsert MerkleCorrect Rlp Hashing HashSpec HashHelper HashBinding Placed Iter IterSpec.
From S2P Require Import ProofTypes KeyProof KeyProofSound ProofWire RangeProof RangeMarks RangeHash.

(** ** Tries in memory *)

Lemma kids_handles_nil (ks : list (option kid)) i o t :
  kids_handles ks = [] -> ks !! i = Some (Some (o, t)) -> o = None /\ handles t = [].
Proof.
  revert i. induction ks as [|k ks IH]; intros [|i] Hn Hi; try done; simpl in *; apply app_eq_nil in Hn as [Hk Hn].
  - injection Hi as ->. simpl in Hk. apply app_eq_nil in Hk as [Ho ->]. by destruct o.
  - by eapply IH.
Qed.

(** A trie in memory has no stored hashes that could be wrong. *)
Lemma memory_placed `{Digests} `{VarInt} alg rd pfx n u : rnode rd n u -> trie_wf u -> handles u = [] -> placed alg rd pfx n.
Proof.
  revert pfx n. induction u as [pp v ks IH] using trie_ind'. intros pfx n Hr Hw Hh. pose proof (trie_wf_inv _ _ _ Hw) as (Hp & _ & Hkids).
  rewrite handles_T in Hh. inversion Hr as [|? ? c ? Hcw Hkw Hs]; subst; [by constructor|]. constructor; [done | done|].
  intros i x Hi Hx. specialize (Hs i Hi). rewrite Hx in Hs. apply rslot_Some_inv in Hs as (m & t & Hk & Hm & Hmt).
  pose proof Hk as Hk'. apply Children_get_Some in Hk'. destruct (kids_handles_nil _ _ _ _ Hh Hk') as [Hnone Ht].
  destruct x as [y| |]; simpl in *; try done. injection Hm as ->. constructor. eapply (IH (Z.to_nat i)); [done | done | by eapply Hkids | done].
Qed.

(** ** Branches in memory *)

(** There is a branch at [q], and all nodes above it are in memory. *)
Inductive branch_at : Node -> Path -> Prop :=
| branch_here pp v c : branch_at (Branch (mkBranch pp v c)) pp
| branch_below pp v c i m q :
    is_nibble i -> Children_get c i = Some (ChildNode m) -> branch_at m q -> branch_at (Branch (mkBranch pp v c)) (pp ++ i :: q).

Lemma branch_at_child pp v c i m q : branch_at (Branch (mkBranch pp v c)) (pp ++ i :: q) -> Children_get c i = Some (ChildNode m) -> branch_at m q.
Proof.
  intros Hb. remember (Branch (mkBranch pp v c)) as n eqn:Hn. remember (pp ++ i :: q) as k eqn:Hk.
  destruct Hb as [pp' v' c'|pp' v' c' j m' r Hj Hg Hm]; injection Hn as -> -> ->.
  - rewrite <- (app_nil_r pp) in Hk at 1. by apply app_inv_head in Hk.
  - apply app_inv_head in Hk. injection Hk as -> ->. congruence.
Qed.

Lemma branch_at_node rd n u q : branch_at n q -> rnode rd n u -> exists w, node_at u q w.
Proof.
  intros Hb. revert u. induction Hb as [pp v c|pp v c i m q Hi Hc Hm IH]; intros u Hr; inversion Hr as [|? ? ? ks Hcw Hkw Hs]; subst.
  - eexists. exact (at_here (T pp v ks)).
  - specialize (Hs i Hi). rewrite Hc in Hs. apply rslot_Some_inv in Hs as (m' & t & Hg & [= <-] & Hmt). destruct (IH t Hmt) as [w Hw]. exists w. by eapply at_below.
Qed.

Lemma branch_at_set pp v w c i m q :
  is_nibble i -> Children_wf c -> branch_at (Branch (mkBranch pp v c)) q ->
  (forall n r, Children_get c i = Some (ChildNode n) -> branch_at n r -> branch_at m r) ->
  branch_at (Branch (mkBranch pp w (Children_set c i (Some (ChildNode m))))) q.
Proof.
  intros Hi Hc Hb Hm. inversion Hb as [|? ? ? j n r Hj Hg Hn]; subst; [constructor|]. destruct (decide (i = j)) as [<-|Hne].
  - apply branch_below with m; [done | by rewrite Children_get_set | by eapply Hm].
  - apply branch_below with n; [done | by rewrite Children_get_set_ne | done].
Qed.

Lemma branch_at_slot pp v c i m q :
  is_nibble i -> Children_wf c -> branch_at m q -> branch_at (Branch (mkBranch pp v (Children_set c i (Some (ChildNode m))))) (pp ++ i :: q).
Proof. intros Hi Hc Hm. apply branch_below with m; [done | by rewrite Children_get_set | done]. Qed.

Lemma branch_at_cut p i r n q : branch_at n q -> partial_path n = p ++ i :: r -> exists s, q = p ++ i :: s /\ branch_at (update_partial_path n r) s.
Proof.
  destruct 1 as [pp v c|pp v c j m s Hj Hg Hm]; intros Hp; cbn in Hp; subst pp.
  - exists r. split; [done | constructor].
  - exists (r ++ j :: s). split; [by rewrite <- app_assoc | by eapply branch_below].
Qed.

Lemma get_branch_found fuel n q : branch_at n q -> (length q < fuel)%nat -> is_Some (get_branch_from_nibbles_mut_helper fuel n q).
Proof.
  assert (Hsp : forall p r, split_index (p ++ r) p = length p) by (intros p r; induction p; simpl; [by destruct r | rewrite Z.eqb_refl; by f_equal]).
  intros Hb. revert fuel. induction Hb as [pp v c|pp v c i m q Hi Hc Hm IH]; intros [|fuel] Hf; [lia | | lia|];
    cbn [get_branch_from_nibbles_mut_helper branch_partial_path branch_children].
  - specialize (Hsp pp []). rewrite app_nil_r in Hsp. rewrite Hsp, Nat.eqb_refl. cbn [negb]. rewrite drop_all. by eexists.
  - rewrite Hsp, Nat.eqb_refl, drop_app_length, Hc. apply IH. rewrite length_app in Hf. simpl in Hf. lia.
Qed.

(** [insert_branch_helper] leaves a branch at the key and keeps the others. *)
Lemma insert_branch_keeps {St : Type} `{ReadableStorageLaws St} `{VarInt} alg rd fuel node t key (ns : NodeStore St) n' ns' :
  (length key < fuel)%nat -> is_path key -> holds alg rd ns -> rnode rd node t -> trie_wf t ->
  insert_branch_helper alg fuel node key ns = (Ok n', ns') -> branch_at n' key /\ forall q, branch_at node q -> branch_at n' q.
Proof.
  revert node t key ns n' ns'. induction fuel as [|fuel IH]; intros node t key ns n' ns' Hf Hkey Hh Hr Hwf; [lia|].
  cbn [insert_branch_helper]. rewrite (rnode_path _ _ _ Hr). destruct t as [pp v ks]. pose proof (trie_wf_inv _ _ _ Hwf) as (Hpp & Hkwf & Hkids).
  pose proof (Children_new_wf (T:=Child)) as Hnew. cbn [tpath] in *. overlap_cases key pp; subst key pp.
  - destruct (rnode_split _ _ _ Hr) as [(l & -> & [= -> -> ->])|(? & ? & c & ? & -> & [= <- <- <-] & Hs)]; intros [= <- <-]; (split; [constructor | done || by inversion 1]).
  - apply is_path_app in Hpp as [Hsh [Hi Hq]%is_path_cons]. rewrite store_expect_nibble by done. intros [= <- <-]. split; [constructor|].
    intros q Hb. destruct (branch_at_cut _ _ _ _ _ Hb (rnode_path _ _ _ Hr)) as (s & -> & Hs). by apply branch_at_slot.
  - apply is_path_app in Hkey as [Hsh [Hi Hq]%is_path_cons]. rewrite store_expect_nibble by done. rewrite length_app in Hf. simpl in Hf.
    destruct (rnode_split _ _ _ Hr) as [(l & -> & [= -> -> ->])|(? & ? & c & ? & -> & [= <- <- <-] & Hs)].
    + intros [= <- <-]. split; [apply branch_at_slot; [done | done | constructor] | by inversion 1].
    + pose proof (rnode_kids_wf _ _ _ _ _ Hr) as [Hcw _]. cbn [Children_take Children_replace]. specialize (Hs ki Hi). destruct (Children_get c ki) as [child|] eqn:Hc.
      * apply rslot_Some_inv in Hs as (n & t & Hg & Hcn & Hn). destruct (merkle_read_for_update_ok alg rd ns child n Hh Hcn) as (ns1 & Hrd & Hrec1).
        erewrite store_bind_Ok by exact Hrd. pose proof (recorded_holds _ _ _ _ _ Hrec1) as Hh1.
        destruct (insert_branch_helper_ok alg rd fuel n t kr ns1) as (m & ns2 & _ & _ & Hrun & _); [lia | done | done | done | by eapply Hkids|].
        erewrite store_bind_Ok by exact Hrun. intros [= <- <-]. rewrite Children_set_set.
        destruct (IH n t kr ns1 m ns2) as [Hm Hkeep]; [lia | done | done | done | by eapply Hkids | done |].
        split; [by apply branch_at_slot|]. intros q Hb. eapply branch_at_set; [done | done | exact Hb|]. rewrite Hc. intros x r [= ->]. cbn in Hcn. injection Hcn as ->. apply Hkeep.
      * intros [= <- <-]. rewrite Children_set_set. split; [apply branch_at_slot; [done | done | constructor]|].
        intros q Hb. eapply branch_at_set; [done | done | exact Hb|]. by rewrite Hc.
  - apply is_path_app in Hpp as [Hsh [Hi Hq]%is_path_cons]. apply is_path_app in Hkey as [_ [Hj Hs]%is_path_cons].
    rewrite !store_expect_nibble by done. intros [= <- <-]. split; [apply branch_at_slot; [done | by apply Children_set_wf | constructor]|].
    intros q Hb. destruct (branch_at_cut _ _ _ _ _ Hb (rnode_path _ _ _ Hr)) as (s & -> & Hb').
    eapply branch_below; [done | | exact Hb']. by rewrite Children_get_set_ne, Children_get_set.
Qed.

Section RangeTrie.
Context `{Digests} `{VarIntLaws}.
Variable L : nat.

(** What is on disk: nothing. *)
Definition blank : LinearAddress -> option Node := disk MerkleDB (mkMemStore []).

(** The store of the verifier holds the trie [u], in memory. *)
Record building (ns : NodeStore MemStore) (u : option trie) : Prop := mkBuilding {
  building_holds : holds MerkleDB blank ns;
  building_root : rroot blank (ns_root ns) u;
  building_wf : owf u;
  building_memory : ohandles u = [];
  building_paths : forall w, u = Some w -> paths_le L [] w;
}.

Lemma building_empty : building empty_proposal None.
Proof. by split. Qed.

(** The root has a branch at [q]. *)
Definition rooted (ns : NodeStore MemStore) (q : Path) : Prop := exists n, ns_root ns = Some n /\ branch_at n q.

Definition branches_kept (ns : NodeStore MemStore) (key : Path) (ns' : NodeStore MemStore) : Prop :=
  rooted ns' key /\ forall q, rooted ns q -> rooted ns' q.

(** An edit of the root. *)
Lemma building_edited (ns : NodeStore MemStore) u f key r :
  holds MerkleDB blank ns -> handles u = [] -> paths_le L [] u -> (length key <= L)%nat ->
  inserts MerkleDB blank f key u ns r ->
  exists n' ns' u', r = (Ok n', ns') /\ building (set_root (Some n') ns') (Some u') /\
    (forall k, is_path k -> tget u' k = if decide (k = key) then f (tget u k) else tget u k) /\ ogrown f key (Some u) u'.
Proof.
  intros Hh Hm Hp Hl (n' & ns' & u' & hs & -> & Hrec & Hn & [Hw Hg Hhs Hpl] & _ & Hgr).
  exists n', ns', u'. split; [done|]. split; [|split; [done | by apply ogrown_Some]]. apply recorded_holds in Hrec as Hh'.
  rewrite Hm in Hhs. symmetry in Hhs. apply Permutation_nil_r in Hhs. apply app_eq_nil in Hhs as [Hhs _].
  split; [done | done | done | done |]. intros w [= <-]. by eapply Hpl.
Qed.

Lemma building_insert ns u key value :
  building ns u -> is_bytes key -> (2 * length key <= L)%nat ->
  exists ns' u', insert MerkleDB key value ns = (Ok tt, ns') /\ building ns' (Some u') /\
    (forall k, is_path k -> tget u' k = if decide (k = nibbles_of key) then Some value else otget u k) /\
    ogrown (const (Some value)) (nibbles_of key) u u'.
Proof.
  intros [Hh Hr Hw Hm Hp] Hk Hl. pose proof (is_path_nibbles_of key Hk) as Hkp. pose proof (length_nibbles_of key) as Hkl.
  unfold insert, insert_from_iter. rewrite from_nibbles_iterator_new by done.
  destruct (ns_root ns) as [root|] eqn:Hroot, u as [u|]; try done; simpl in Hr.
  - destruct (building_edited (set_root None ns) u (const (Some value)) (nibbles_of key)
      (insert_helper MerkleDB (S (length (nibbles_of key))) root (nibbles_of key) value (set_root None ns)))
      as (n' & ns' & u' & Hrun & Hb & Hg & Hgr); [done | done | by apply Hp | lia | |].
    { apply insert_helper_ok; [lia | done | done | done | by apply Hw]. }
    rewrite Hrun. by exists (set_root (Some n') ns'), u'.
  - eexists _, (T (nibbles_of key) (Some value) Children_new). split; [done|]. split.
    + split; [done | apply (rnode_leaf _ (mkLeaf _ _)) | by apply owf_Some, trie_wf_leaf | done |].
      intros w [= <-]. apply paths_le_leaf. simpl. lia.
    + split; [|apply (ogrown_None (const (Some value)))]. intros k Hkk. simpl. by rewrite tget_leaf.
Qed.

Lemma building_branch ns u key :
  building ns u -> is_path key -> (length key <= L)%nat ->
  exists ns' u', insert_branch_from_nibbles MerkleDB key ns = (Ok tt, ns') /\ building ns' (Some u') /\
    (forall k, is_path k -> tget u' k = otget u k) /\ ogrown id key u u' /\ branches_kept ns key ns'.
Proof.
  intros [Hh Hr Hw Hm Hp] Hk Hl. unfold insert_branch_from_nibbles.
  destruct (ns_root ns) as [root|] eqn:Hroot, u as [u|]; try done; simpl in Hr.
  - destruct (building_edited (set_root None ns) u id key
      (insert_branch_helper MerkleDB (S (length key)) root key (set_root None ns)))
      as (n' & ns' & u' & Hrun & Hb & Hg & Hgr); [done | done | by apply Hp | lia | |].
    { apply insert_branch_helper_ok; [lia | done | done | done | by apply Hw]. }
    rewrite Hrun. exists (set_root (Some n') ns'), u'. split_and!; [done | done | | done |].
    + intros k Hkk. rewrite Hg by done. by case_decide.
    + destruct (insert_branch_keeps MerkleDB blank (S (length key)) root u key (set_root None ns) n' ns') as [Ha Hkeep]; [lia | done | done | done | by apply Hw | done|].
      split; [by exists n'|]. intros q (m & Hmr & Hq). rewrite Hroot in Hmr. injection Hmr as <-. exists n'. auto.
  - eexists _, (T key None Children_new). split; [done|]. split.
    + split; [done | apply rnode_childless | by apply owf_Some, trie_wf_leaf | done |].
      intros w [= <-]. by apply paths_le_leaf.
    + split_and!; [intros k Hkk; simpl; apply tget_empty | apply (ogrown_None id) |].
      split; [eexists; split; [done | constructor]|]. intros q (m & Hmr & _). congruence.
Qed.

(** ** The branch at the key of a proof node *)

Lemma split_index_full a b : split_index a b = length b -> a = b ++ drop (length b) a.
Proof.
  revert a. induction b as [|y b IH]; intros a Hs; [by rewrite drop_0|].
  destruct a as [|x a]; simpl in Hs; [done|]. destruct (Z.eqb_spec x y) as [->|]; [|done].
  injection Hs as Hs. simpl. f_equal. by apply IH.
Qed.

(** Where [get_branch_from_nibbles_mut_helper] finds a branch, it holds the value under
    the key, and assigning to it changes that value only. *)
Lemma set_branch_value_ok rd fuel n u key b value :
  rnode rd n u -> trie_wf u -> is_path key -> get_branch_from_nibbles_mut_helper fuel n key = Some b ->
  branch_value b = tget u key /\
  exists n' u', set_branch_value_helper fuel n key value = Some n' /\ rnode rd n' u' /\
    edited (const value) key u (Some u') [] /\ grown (const value) key u u' /\ forall q, branch_at n q -> branch_at n' q.
Proof.
  revert n u key. induction fuel as [|fuel IH]; intros n u key Hr Hwf Hk Hb; [done|].
  destruct Hr as [l|pp v c ks Hcw Hkw Hs]; [done|]. cbn [get_branch_from_nibbles_mut_helper set_branch_value_helper branch_partial_path branch_children] in *.
  destruct (Nat.eqb_spec (split_index key pp) (length pp)) as [Hsp|]; [|done]. cbn [negb] in *. rewrite Hsp in *.
  pose proof (split_index_full _ _ Hsp) as Hkey. destruct (drop (length pp) key) as [|i s] eqn:Hd.
  - rewrite app_nil_r in Hkey. subst key. injection Hb as <-. split; [by rewrite tget_value, decide_True by done|].
    eexists _, _. split_and!; [done | | by apply (edited_here (const value)) | apply (grown_here (const value)) |]; [by constructor|].
    intros q. inversion 1; subst; [constructor | by eapply branch_below].
  - subst key. apply is_path_app in Hk as [_ [Hi Hsn]%is_path_cons].
    destruct (Children_get c i) as [[m| |]|] eqn:Hc; try done.
    pose proof (Hs i Hi) as Hsi. rewrite Hc in Hsi. apply rslot_Some_inv in Hsi as (m' & t & Hk & [= <-] & Hm).
    pose proof (trie_wf_inv _ _ _ Hwf) as (_ & _ & Hkids).
    destruct (IH m t s Hm ltac:(by eapply Hkids) Hsn Hb) as (Hv & n' & u' & Hset & Hn' & He & Hgr & Hkeep).
    rewrite Hset. rewrite (tget_T pp), strip_prefix_app_self, Hk. split; [done|].
    eexists _, _. split_and!; [done | | | |].
    + apply rnode_set; [done | by constructor | by apply rslot_node].
    + apply (edited_slot (const value) pp v ks i s None t (Some u') []); [done | done | by rewrite Hk | done].
    + eapply (grown_slot (const value)); [done | done | by rewrite Hk | done].
    + intros q Hq. eapply branch_at_set; [done | done | exact Hq|]. rewrite Hc. intros x r [= <-]. apply Hkeep.
Qed.

Lemma building_set ns u b key value :
  building ns (Some u) -> is_path key -> (length key <= L)%nat -> get_branch_from_nibbles_mut (ns_root ns) key = Some b ->
  branch_value b = tget u key /\
  exists u',
    building (set_root (ns_root ns ≫= fun root => set_branch_value_helper (S (length key)) root key value) ns) (Some u') /\
    (forall k, is_path k -> tget u' k = if decide (k = key) then value else tget u k) /\ ogrown (const value) key (Some u) u' /\
    forall q, rooted ns q -> rooted (set_root (ns_root ns ≫= fun root => set_branch_value_helper (S (length key)) root key value) ns) q.
Proof.
  intros [Hh Hr Hw Hm Hp] Hk Hl. unfold rooted. destruct (ns_root ns) as [root|]; [|done].
  cbn [get_branch_from_nibbles_mut mbind option_bind rroot ohandles from_option] in *. intros Hb.
  destruct (set_branch_value_ok blank _ root u key b value Hr ltac:(by apply Hw) Hk Hb) as (Hv & n' & u' & Hset & Hn & [Hwf Hg Hhs Hpl] & Hgr & Hkeep).
  split; [done|]. exists u'. rewrite Hset. split; [|split; [done | split; [by apply ogrown_Some|]]].
  2: { intros q (m & [= <-] & Hq). exists n'. split; [done | by apply Hkeep]. }
  rewrite Hm, app_nil_r in Hhs. symmetry in Hhs. apply Permutation_nil_r in Hhs.
  split; [done | done | done | done |]. intros w [= <-]. by eapply Hpl; [apply Hp|..].
Qed.

(** ** Reconciling *)

Lemma reconcile_value_assigns alg pn bv v :
  reconcile_value alg pn bv range_on_conflict = Ok (Some v) ->
  (exists w, pn_value_digest pn = Some (DigestValue w) /\ v = Some w) \/ (bv = None /\ v = None).
Proof.
  assert (Hc : range_on_conflict pn bv = Ok v ->
    (exists w, pn_value_digest pn = Some (DigestValue w) /\ v = Some w) \/ (bv = None /\ v = None)).
  { unfold range_on_conflict. destruct (pn_value_digest pn) as [[w|h]|], bv as [x|]; intros [= <-]; eauto. }
  assert (Hb : (range_on_conflict pn bv ≫= fun v => mret (Some v)) = Ok (Some v) -> range_on_conflict pn bv = Ok v).
  { destruct (range_on_conflict pn bv); simpl; [by intros [= ->] | done]. }
  intros Hr. apply Hc, Hb. revert Hr. unfold reconcile_value.
  destruct (pn_value_digest pn) as [[w|h]|]; [| destruct bv; [destruct (ValueDigest_verify _ _)|] |];
    try case_bool_decide; try destruct (_ && _); done.
Qed.

(** Under [k] the trie holds what it held, or the value of the proof node. *)
Lemma building_reconcile ns u pn ns' :
  building ns u -> is_path (pn_key pn) -> (length (pn_key pn) <= L)%nat ->
  reconcile_branch_proof_node MerkleDB pn range_on_conflict ns = (Ok tt, ns') ->
  exists u', building ns' (Some u') /\ forall k, is_path k ->
    tget u' k = otget u k \/
    (k = pn_key pn /\ Nat.even (length k) = true /\ exists v, pn_value_digest pn = Some (DigestValue v) /\ tget u' k = Some v).
Proof.
  intros Hb Hk Hl. unfold reconcile_branch_proof_node. cbn [is_ethereum andb].
  destruct (negb _ && _) eqn:Hodd; [done|].
  destruct (building_branch ns u (pn_key pn) Hb Hk Hl) as (ns1 & u1 & -> & Hb1 & Hg1 & _).
  destruct (get_branch_from_nibbles_mut (ns_root ns1) (pn_key pn)) as [b|] eqn:Hget; [|done].
  destruct (reconcile_value _ _ _ _) as [[v|]|e] eqn:Hrv; [| |done]; intros [= <-].
  - destruct (building_set ns1 u1 b (pn_key pn) v Hb1 Hk Hl Hget) as (Hv & u' & Hb' & Hg' & _). exists u'. split; [done|].
    intros k Hkk. rewrite Hg', Hg1 by done. case_decide as Hd; [subst k | by left].
    apply reconcile_value_assigns in Hrv as [(w & Hw & ->)|[Hn ->]].
    + right. split_and!; [done | | by exists w]. rewrite Hw, andb_true_r in Hodd. by apply negb_false_iff in Hodd.
    + left. rewrite <- Hg1 by done. congruence.
  - exists u1. split; [done|]. intros k Hkk. left. by apply Hg1.
Qed.

(** [W] is what the trie holds under the keys [P], if the proof nodes agree. *)
Lemma building_reconcile_all nodes m ns u m' ns' (P : Path -> Prop) (W : Path -> option Value) :
  building ns u -> Forall (fun pn => is_path (pn_key pn) /\ (length (pn_key pn) <= L)%nat) nodes ->
  (forall k, P k -> is_path k /\ otget u k = W k) ->
  (forall pn v, pn ∈ nodes -> pn_value_digest pn = Some (DigestValue v) -> Nat.even (length (pn_key pn)) = true ->
     P (pn_key pn) -> W (pn_key pn) = Some v) ->
  reconcile_all MerkleDB nodes m ns = (Ok m', ns') ->
  exists u', building ns' u' /\ (forall k, P k -> otget u' k = W k) /\ (u <> None \/ nodes <> [] -> u' <> None) /\
    forall f pn, m' !! f = Some pn -> m !! f = Some pn \/ (pn ∈ nodes /\ pn_key pn = f).
Proof.
  intros Hb Hn. revert m ns u Hb. induction Hn as [|pn nodes [Hp Hl] Hn IH]; intros m ns u Hb HW Hv Hr.
  - injection Hr as <- <-. exists u. split_and!; [done | by intros k [_ ?]%HW | by intros [] | by left].
  - cbn [reconcile_all] in Hr. destruct (reconcile_branch_proof_node _ _ _ _) as [[[]|] ns1] eqn:Hrec; [|done].
    destruct (building_reconcile ns u pn ns1 Hb Hp Hl Hrec) as (u1 & Hb1 & Hg1).
    assert (HW1 : forall k, P k -> is_path k /\ otget (Some u1) k = W k).
    { intros k Hk. destruct (HW k Hk) as [Hkp Hw]. split; [done|]. simpl.
      destruct (Hg1 k Hkp) as [->|(-> & He & v & Hd & ->)]; [done|]. symmetry. apply (Hv pn); [by left | done..]. }
    assert (Hv1 : forall qn v, qn ∈ nodes -> pn_value_digest qn = Some (DigestValue v) ->
      Nat.even (length (pn_key qn)) = true -> P (pn_key qn) -> W (pn_key qn) = Some v) by (intros qn v Hq; apply Hv; by right).
    assert (Hrest : exists m1, reconcile_all MerkleDB nodes m1 ns1 = (Ok m', ns') /\
      forall f qn, m1 !! f = Some qn -> m !! f = Some qn \/ (qn = pn /\ pn_key pn = f)).
    { destruct (m !! pn_key pn) as [e|]; [destruct (negb _); [done|]; exists m; auto|]. eexists. split; [exact Hr|].
      intros f qn. destruct (decide (pn_key pn = f)) as [<-|Hne]; [rewrite lookup_insert_eq; intros [= <-]; by right|].
      rewrite lookup_insert_ne by done. by left. }
    destruct Hrest as (m1 & Hr1 & Hm1). destruct (IH m1 ns1 (Some u1) Hb1 HW1 Hv1 Hr1) as (u' & Hb' & Hg' & Hne & Hm').
    exists u'. split_and!; [done | done | intros _; apply Hne; by left |].
    intros f qn Hf. destruct (Hm' f qn Hf) as [[?|[-> ?]]%Hm1|[? ?]]; [by left | right; split; [by left | done] | right; split; [by right | done]].
Qed.

End RangeTrie.

(** ** The pairs *)

Lemma kv_find_cons a x kvs k : kv_find ((a, x) :: kvs) k = if decide (a = k) then Some x else kv_find kvs k.
Proof. unfold kv_find. simpl. destruct (decide (a = k)) as [->|Hne]; [by rewrite bool_decide_true | by rewrite bool_decide_false]. Qed.

(** The first key of an ascending list does not come again. *)
Lemma kv_find_above a x kvs k : keys_ascend ((a, x) :: kvs) = true -> slice_le k a = true -> kv_find kvs k = None.
Proof.
  revert a x. induction kvs as [|[b y] kvs IH]; intros a x Ha Hk; [done|].
  cbn [keys_ascend] in Ha. apply andb_true_iff in Ha as [Hab Hrest]. apply slice_ltb_lt in Hab.
  rewrite kv_find_cons, decide_False.
  - apply (IH b y Hrest). eapply slice_le_trans; [exact Hk|]. by apply slice_le_total.
  - intros ->. unfold slice_lt in Hab. congruence.
Qed.

Lemma building_insert_all `{Digests} `{VarIntLaws} L kvs (ns : NodeStore MemStore) u :
  building L ns u -> Forall (fun p => is_bytes p.1 /\ (2 * length p.1 <= L)%nat) kvs -> keys_ascend kvs = true ->
  exists ns' u', insert_all MerkleDB kvs ns = (Ok tt, ns') /\ building L ns' u' /\
    (kvs <> [] -> u' <> None) /\
    forall k, is_bytes k -> otget u' (nibbles_of k) = match kv_find kvs k with Some v => Some v | None => otget u (nibbles_of k) end.
Proof.
  intros Hb Hk. revert ns u Hb. induction Hk as [|[a x] kvs [Ha Hl] Hk IH]; intros ns u Hb Hasc; [by exists ns, u|].
  cbn [insert_all fst] in *. destruct (building_insert L ns u a x Hb Ha Hl) as (ns1 & u1 & -> & Hb1 & Hg1 & _).
  destruct (IH ns1 (Some u1) Hb1) as (ns' & u' & Hr & Hb' & Hne & Hg').
  { destruct kvs as [|[b y] kvs]; [done|]. by apply andb_true_iff in Hasc as [_ ?]. }
  assert (Hsome : u' <> None).
  { pose proof (Hg' a Ha) as Hga. intros ->. simpl in Hga. rewrite (kv_find_above a x kvs a Hasc (slice_le_refl a)) in Hga.
    rewrite Hg1, decide_True in Hga by (done || by apply is_path_nibbles_of). done. }
  exists ns', u'. split_and!; [done | done | done |]. intros k Hkb. rewrite Hg', kv_find_cons by done.
  simpl. rewrite Hg1 by (by apply is_path_nibbles_of). destruct (decide (a = k)) as [->|Hne'].
  - rewrite (kv_find_above k x kvs k Hasc (slice_le_refl k)). by rewrite decide_True.
  - destruct (kv_find kvs k); [done|]. rewrite decide_False; [done|]. intros He. apply Hne'.
    rewrite <- (bytes_iter_nibbles_of a), <- (bytes_iter_nibbles_of k) by done. by rewrite He.
Qed.
