(* ===== verification/RangeRebuild.v ===== *)
(** * Rebuilding a trie from a true range proof

    If the pairs of a proof and the nodes of its edges are those of a trie, the verifier
    inserts and reconciles them without a conflict ([insert_all], [reconcile_all]), and the
    rebuilt trie holds their values and no others, with a branch at every proof node
    (Section [Rebuild]).  The marks of the edges cover what lies outside of the range
    (Section [Cover], the converse of [RangeMarks]), and the rebuilt trie has the hash of
    the trie (Section [Match], the converse of [RangeHash]). *)

From S2P Require Import Prelude Primitives NodePath Node Codec NodeCodec Trie NodeStore Linear Header ChildMask.
From S2P Require Import Merkle MerkleSpec MerkleInsert TrieCanonical MerkleCorrect Rlp Hashing HashSpec HashHelper HashBinding Placed Iter IterSpec.
From S2P Require Import ProofTypes KeyProof KeyProofSound KeyProofComplete ProofWire RangeProof RangeMarks RangeAccept RangeHash RangeTrie.

Lemma decide_elem_cons {A B} `{EqDecision A} (k a : A) l (x y : B) :
  (if decide (k ∈ a :: l) then x else y) = if decide (k ∈ l) then x else if decide (k = a) then x else y.
Proof.
  destruct (decide (k ∈ l)) as [Hl|Hl]; [by rewrite decide_True by (by right)|].
  destruct (decide (k = a)) as [->|Ha]; [by rewrite decide_True by (by left)|]. by rewrite decide_False by (by intros [?|?]%elem_of_cons).
Qed.

(** Values are under whole bytes. *)
Lemma byte_trie_even pfx t k x : trie_wf t -> byte_trie pfx t -> is_path k -> tget t k = Some x -> Nat.even (length (pfx ++ k)) = true.
Proof.
  revert pfx k. induction t as [pp v ks IH] using trie_ind'. intros pfx k Hwf Hb Hk. pose proof (trie_wf_inv _ _ _ Hwf) as (_ & _ & Hkids).
  inversion Hb as [? ? ? ? _ Hv Hbk]; subst. rewrite tget_T. destruct (strip_prefix pp k) as [[|i r]|] eqn:Es; [| |done]; apply strip_prefix_Some in Es; subst k.
  - intros ->. rewrite app_nil_r. by apply (Hv x).
  - destruct (Children_get ks i) as [[o u]|] eqn:Hg; [|done]. intros Hx. apply is_path_app in Hk as [_ [Hi Hr]%is_path_cons].
    replace (pfx ++ pp ++ i :: r) with (((pfx ++ pp) ++ [i]) ++ r) by (by rewrite <- !app_assoc).
    eapply (IH (Z.to_nat i)); [by apply Children_get_Some | by eapply Hkids | by eapply Hbk | done | done].
Qed.

Section Rebuild.
Context `{DigestsLaws} `{VarIntLaws}.
Variables (must_recompute : bool) (L : nat) (t : trie).
Hypothesis t_wf : trie_wf t.
Hypothesis t_bytes : byte_trie [] t.

(** A node of a proof as it is in the trie. *)
Definition true_node (pn : ProofNode) : Prop :=
  exists p u, pn = proof_node MerkleDB must_recompute p u /\ p ++ tpath u = pn_key pn /\ node_at t (pn_key pn) u.

Lemma true_node_unique pn pn' : true_node pn -> true_node pn' -> pn_key pn = pn_key pn' -> pn = pn'.
Proof.
  intros (p & u & -> & Hp & Hn) (p' & u' & -> & Hp' & Hn') Hk. rewrite Hk in Hn, Hp. rewrite (node_at_unique _ _ _ _ Hn Hn') in *.
  rewrite <- Hp' in Hp. by apply app_inv_tail in Hp as ->.
Qed.

Lemma true_node_digest pn : true_node pn -> is_path (pn_key pn) /\ pn_value_digest pn = DigestValue <$> tget t (pn_key pn).
Proof.
  intros (p & u & Hpn & _ & Hn). destruct (node_at_get _ _ _ t_wf Hn) as (Hp & Hget & _). split; [done|]. rewrite Hget, Hpn.
  cbn. unfold proof_value, settled_value. cbn. by destruct must_recompute.
Qed.

Lemma tget_even k x : is_path k -> tget t k = Some x -> Nat.even (length k) = true.
Proof. apply (byte_trie_even [] t k x t_wf t_bytes). Qed.

(** [u] holds nothing that [t] does not hold. *)
Definition below_truth (u : option trie) : Prop := forall k x, is_path k -> otget u k = Some x -> tget t k = Some x.

Lemma rebuild_one ns u pn :
  building L ns u -> true_node pn -> (length (pn_key pn) <= L)%nat -> below_truth u ->
  exists ns' u', reconcile_branch_proof_node MerkleDB pn range_on_conflict ns = (Ok tt, ns') /\ building L ns' (Some u') /\
    (forall k, is_path k -> tget u' k = if decide (k = pn_key pn) then tget t k else otget u k) /\
    (forall F, oshaped F u -> F (pn_key pn) -> oshaped F (Some u')) /\ branches_kept ns (pn_key pn) ns'.
Proof.
  intros Hb Ht Hl Hsub. destruct (true_node_digest pn Ht) as [Hk Hd]. unfold reconcile_branch_proof_node. cbn [is_ethereum andb].
  replace (negb (Nat.even (length (pn_key pn))) && _) with false.
  2: { symmetry. apply andb_false_iff. rewrite Hd. destruct (tget t (pn_key pn)) as [x|] eqn:Hx; [|by right]. left.
       by rewrite (tget_even _ _ Hk Hx). }
  destruct (building_branch L ns u (pn_key pn) Hb Hk Hl) as (ns1 & u1 & -> & Hb1 & Hg1 & Hgr1 & Hk1).
  pose proof Hk1 as [(n & Hn & Hbr) _]. destruct (get_branch_found (S (length (pn_key pn))) n _ Hbr ltac:(lia)) as [b Hget].
  assert (Hget' : get_branch_from_nibbles_mut (ns_root ns1) (pn_key pn) = Some b) by (by rewrite Hn). rewrite Hget'.
  destruct (building_set L ns1 u1 b (pn_key pn) (tget t (pn_key pn)) Hb1 Hk Hl Hget') as (Hv & u' & Hb' & Hg' & Hgr' & Hk').
  assert (Hshape : forall F, oshaped F u -> F (pn_key pn) -> oshaped F (Some u1)) by (intros F Hu HF; apply Hgr1; [done | by right]).
  assert (Hrv : reconcile_value MerkleDB pn (branch_value b) range_on_conflict =
    if bool_decide (tget t (pn_key pn) = branch_value b) then Ok None else Ok (Some (tget t (pn_key pn)))).
  { unfold reconcile_value, range_on_conflict. rewrite Hd. assert (Hs : forall x, branch_value b = Some x -> tget t (pn_key pn) = Some x).
    { intros x Hx. apply Hsub; [done|]. rewrite <- Hg1 by done. congruence. }
    destruct (tget t (pn_key pn)) as [y|] eqn:Hy; cbn [fmap option_fmap option_map mbind option_bind ValueDigest_value is_ethereum andb].
    - by case_bool_decide.
    - destruct (branch_value b) as [x|] eqn:Hx; [by specialize (Hs x eq_refl)|]. done. }
  rewrite Hrv. case_bool_decide as Heq.
  - exists ns1, u1. split_and!; [done | done | | done | done]. intros k Hkk. rewrite Hg1 by done. case_decide as Hd'; [|done]. subst k.
    by rewrite <- Hg1, <- Hv, Heq.
  - eexists _, u'. split_and!; [done | done | | | split].
    + intros k Hkk. rewrite Hg', Hg1 by done. case_decide as Hd'; [by subst k | done].
    + intros F Hu HF. apply Hgr'; [by apply Hshape | by right].
    + apply Hk', (proj1 Hk1).
    + intros q Hq. by apply Hk', (proj2 Hk1).
Qed.

Lemma rebuild_all nodes m ns u :
  building L ns u -> Forall (fun pn => true_node pn /\ (length (pn_key pn) <= L)%nat) nodes -> below_truth u ->
  (forall f pn, m !! f = Some pn -> true_node pn /\ pn_key pn = f) ->
  exists m' ns' u', reconcile_all MerkleDB nodes m ns = (Ok m', ns') /\ building L ns' u' /\
    (forall k, is_path k -> otget u' k = if decide (k ∈ pn_key <$> nodes) then tget t k else otget u k) /\
    (forall F, oshaped F u -> (forall pn, pn ∈ nodes -> F (pn_key pn)) -> oshaped F u') /\
    (forall q, rooted ns q \/ q ∈ pn_key <$> nodes -> rooted ns' q) /\
    (forall f pn, m' !! f = Some pn -> true_node pn /\ pn_key pn = f) /\
    forall f, is_Some (m' !! f) <-> is_Some (m !! f) \/ f ∈ pn_key <$> nodes.
Proof.
  intros Hb Hn. revert m ns u Hb. induction Hn as [|pn nodes [Ht Hl] Hn IH]; intros m ns u Hb Hsub Hm.
  { exists m, ns, u. cbn. split_and!; [done | done | done | done | | done |].
    - intros q [?|Hq]; [done | by apply elem_of_nil in Hq].
    - intros f. split; [by left | by intros [?|Hq%elem_of_nil]]. }
  cbn [reconcile_all]. destruct (rebuild_one ns u pn Hb Ht Hl Hsub) as (ns1 & u1 & -> & Hb1 & Hg1 & Hs1 & Hk1 & Hk1').
  assert (Hsub1 : below_truth (Some u1)). { intros k x Hk. cbn. rewrite Hg1 by done. case_decide; [done | by apply Hsub]. }
  assert (Hm1 : exists m1, (forall f qn, m1 !! f = Some qn -> true_node qn /\ pn_key qn = f) /\ (forall f, is_Some (m1 !! f) <-> is_Some (m !! f) \/ f = pn_key pn) /\
    match m !! pn_key pn with
    | Some existing => if negb (ProofNode_eq existing pn) then (Err ConflictingProofNodes, ns1) else reconcile_all MerkleDB nodes m ns1
    | None => reconcile_all MerkleDB nodes (<[pn_key pn:=pn]> m) ns1
    end = reconcile_all MerkleDB nodes m1 ns1).
  { destruct (m !! pn_key pn) as [e|] eqn:Hme.
    - destruct (Hm _ _ Hme) as [He Hke]. rewrite (true_node_unique e pn He Ht Hke), ProofNode_eq_refl. exists m. split_and!; [done | | done].
      intros f. split; [by left|]. intros [?| ->]; [done | by rewrite Hme].
    - exists (<[pn_key pn := pn]> m). split_and!; [| |done].
      + intros f qn. destruct (decide (pn_key pn = f)) as [<-|Hne]; [rewrite lookup_insert_eq; by intros [= <-] | rewrite lookup_insert_ne by done; apply Hm].
      + intros f. destruct (decide (pn_key pn = f)) as [<-|Hne]; [rewrite lookup_insert_eq; split; [by right | by eexists]|].
        rewrite lookup_insert_ne by done. split; [by left | by intros [?|?]]. }
  destruct Hm1 as (m1 & Hm1 & Hdom1 & ->). destruct (IH m1 ns1 (Some u1) Hb1 Hsub1 Hm1) as (m' & ns' & u' & -> & Hb' & Hg' & Hs' & Hk' & Hm' & Hdom').
  exists m', ns', u'. split_and!; [done | done | | | | done |].
  - intros k Hk. rewrite Hg' by done. cbn [otget mbind option_bind]. rewrite Hg1 by done.
    by rewrite fmap_cons, decide_elem_cons.
  - intros F Hu HF. apply Hs'; [|intros qn Hq; apply HF; by right]. apply Hs1; [done | apply HF; by left].
  - intros q. rewrite fmap_cons, elem_of_cons. intros [Hq|[->|Hq]]; apply Hk'; auto.
  - intros f. rewrite Hdom', Hdom1, fmap_cons, elem_of_cons. tauto.
Qed.

Lemma rebuild_pairs kvs ns u :
  building L ns u -> Forall (fun p => is_bytes p.1 /\ (2 * length p.1 <= L)%nat /\ tget t (nibbles_of p.1) = Some p.2) kvs ->
  exists ns' u', insert_all MerkleDB kvs ns = (Ok tt, ns') /\ building L ns' u' /\ (u <> None \/ kvs <> [] -> u' <> None) /\
    (forall k, is_path k -> otget u' k = if decide (k ∈ nibbles_of <$> kvs.*1) then tget t k else otget u k) /\
    forall F, oshaped F u -> oshaped F u'.
Proof.
  intros Hb Hk. revert ns u Hb. induction Hk as [|[a x] kvs (Ha & Hl & Hx) Hk IH]; intros ns u Hb.
  { exists ns, u. split_and!; [done | done | by intros [] | done | done]. }
  cbn [insert_all fst snd] in *. destruct (building_insert L ns u a x Hb Ha Hl) as (ns1 & u1 & -> & Hb1 & Hg1 & Hgr).
  destruct (IH ns1 (Some u1) Hb1) as (ns' & u' & -> & Hb' & Hne & Hg' & Hs'). exists ns', u'. split_and!; [done | done | intros _; apply Hne; by left | |].
  - intros k Hkk. rewrite Hg' by done. cbn [otget mbind option_bind]. rewrite Hg1 by done. rewrite !fmap_cons, decide_elem_cons. cbn [fst].
    destruct (decide (k = nibbles_of a)) as [->|]; [by rewrite Hx | done].
  - intros F Hu. apply Hs', Hgr; [done | by left].
Qed.

End Rebuild.

(** * The hash of the rebuilt trie *)

Section Match.
Context `{DigestsLaws} `{VarIntLaws}.
Variable proof_nodes : gmap Path ProofNode.
Variable outside_children : gmap Path ChildMask.
Hypothesis outside_dom : forall f, is_Some (outside_children !! f) -> is_Some (proof_nodes !! f).

Abbreviation outside := (outside_at outside_children).

(** [matches pfx u s]: the rebuilt trie [u] has the nodes of [s], except behind the slots
    outside of the range, where the proof nodes give the hashes of [s]. *)
Inductive matches : Path -> trie -> trie -> Prop :=
| matches_T pfx pp v us ss :
    (v = None -> proof_nodes !! (pfx ++ pp) ≫= pn_value_digest = None) ->
    (forall i, is_nibble i -> outside (pfx ++ pp) i = true ->
       proof_nodes !! (pfx ++ pp) ≫= (fun pn => Children_get (pn_child_hashes pn) i) = Children_get (kid_hashes MerkleDB (pfx ++ pp) ss) i) ->
    (forall i, is_nibble i -> outside (pfx ++ pp) i = false -> is_Some (Children_get us i) <-> is_Some (Children_get ss i)) ->
    (forall i o u o' s, is_nibble i -> outside (pfx ++ pp) i = false -> Children_get us i = Some (o, u) -> Children_get ss i = Some (o', s) ->
       matches ((pfx ++ pp) ++ [i]) u s) ->
    matches pfx (T pp v us) (T pp v ss).

Lemma outside_none f i : proof_nodes !! f = None -> outside f i = false.
Proof. intros Hf. unfold outside_at. destruct (outside_children !! f) eqn:Ho; [|done]. destruct (outside_dom f) as [? Hx]; [by eexists | congruence]. Qed.

Lemma matches_hash rd fuel n u pfx s :
  matches pfx u s -> rnode rd n u -> handles u = [] -> trie_wf u -> trie_wf s ->
  (forall q, is_Some (proof_nodes !! (pfx ++ q)) -> branch_at n q) -> (node_height n <= fuel)%nat ->
  hybrid_hash proof_nodes outside_children fuel n pfx = thash MerkleDB [] (pfx ++ tpath s) s.
Proof.
  revert n u pfx s. induction fuel as [|fuel IH]; intros n u pfx s Hm Hr Hh Hwu Hws Hbr Hf; [destruct n as [[]|]; simpl in Hf; lia|].
  rewrite thash_merkledb. cbn [hybrid_hash]. unfold merkledb_to_hash. destruct Hm as [pfx pp v us ss Hv Hout Hin Hrec].
  pose proof (trie_wf_inv _ _ _ Hwu) as (_ & Huw & Huk). pose proof (trie_wf_inv _ _ _ Hws) as (_ & Hsw & Hsk). cbn [tpath tval tkids] in *.
  do 2 f_equal. inversion Hr as [l|? ? c ? Hcw Hkw Hsl]; subst; cbn [hybrid_shunt].
  - assert (Hnone : proof_nodes !! (pfx ++ leaf_partial_path l) = None).
    { apply eq_None_not_Some. intros Hs. specialize (Hbr _ Hs). by inversion Hbr. }
    assert (Hks : kid_hashes MerkleDB (pfx ++ leaf_partial_path l) ss = Children_new).
    { apply Children_ext; [by apply kid_hashes_wf | apply Children_new_wf |]. intros i Hi. rewrite kid_hashes_get, Children_get_new by done.
      specialize (Hin i Hi (outside_none _ _ Hnone)). rewrite Children_get_new in Hin. destruct (Children_get ss i); [|done].
      by destruct (proj2 Hin ltac:(by eexists)). }
    cbn [app]. by rewrite Hks.
  - unfold merkledb_write_preimage. cbn [full_path value_digest h_children HashableShunt_Hashable sh_parent_prefix sh_partial_path sh_value sh_child_hashes app].
    assert (Hd : (match v with Some v => Some (DigestValue v) | None => proof_nodes !! (pfx ++ pp) ≫= pn_value_digest end) = DigestValue <$> v).
    { destruct v; [done|]. by apply Hv. }
    assert (Hc : Children_map (slot_hash proof_nodes outside_children (hybrid_hash proof_nodes outside_children fuel) (pfx ++ pp)) c = kid_hashes MerkleDB (pfx ++ pp) ss).
    { apply Children_ext; [by apply Children_map_wf | by apply kid_hashes_wf |]. intros i Hi. rewrite Children_map_slot by done. unfold slot_hash.
      destruct (outside (pfx ++ pp) i) eqn:Ho; [by apply Hout|]. specialize (Hin i Hi Ho). rewrite kid_hashes_get by done.
      pose proof (Hsl i Hi) as Hs. destruct (Children_get c i) as [x|] eqn:Hx.
      2: { assert (Hu : Children_get us i = None) by (by inversion Hs). rewrite Hu in Hin. destruct (Children_get ss i); [|done]. by destruct (proj2 Hin ltac:(by eexists)). }
      apply rslot_Some_inv in Hs as (m & w & Hu & Hmx & Hmw). rewrite Hu in Hin. destruct (proj1 Hin ltac:(by eexists)) as [[o' s] Hss].
      rewrite handles_T in Hh. pose proof Hu as Hu'. apply Children_get_Some in Hu'. destruct (kids_handles_nil _ _ _ _ Hh Hu') as [Hno Hhw].
      destruct x as [y| |]; try done. cbn in Hmx. injection Hmx as ->. rewrite Hss. cbn [fmap option_fmap option_map snd]. f_equal. rewrite kid_hash_merkledb.
      replace ((pfx ++ pp) ++ i :: tpath s) with (((pfx ++ pp) ++ [i]) ++ tpath s) by (by rewrite <- app_assoc).
      apply (IH m w); [by eapply Hrec | done | done | by eapply Huk | by eapply Hsk | | pose proof (node_height_child pp v c i m Hx); lia].
      intros q Hq. rewrite <- !app_assoc in Hq. specialize (Hbr (pp ++ i :: q)). cbn [app] in Hq. specialize (Hbr Hq).
      by eapply branch_at_child. }
    by rewrite Hd, Hc.
Qed.

(** ** What makes the rebuilt trie match *)

Definition shown (f : Path) : Prop := is_Some (proof_nodes !! f).

(** A trie without needless nodes has a node with a value, or a proof node. *)
Lemma shaped_nonempty pfx u :
  trie_wf u -> shaped shown pfx u -> exists q w, node_at u q w /\ is_path q /\ (is_Some (tget u q) \/ shown (pfx ++ q)).
Proof.
  revert pfx. induction u as [pp v ks IH] using trie_ind'. intros pfx Hwf Hs. pose proof (trie_wf_inv _ _ _ Hwf) as (Hpp & _ & Hkids).
  inversion Hs as [? ? ? ? Hv Hk]; subst. assert (Hhere : is_Some v \/ shown (pfx ++ pp) -> exists q w, node_at (T pp v ks) q w /\ is_path q /\ (is_Some (tget (T pp v ks) q) \/ shown (pfx ++ q))).
  { intros Hor. exists pp, (T pp v ks). split; [exact (at_here (T pp v ks))|]. split; [done|]. by rewrite tget_value, decide_True. }
  destruct v as [x|]; [apply Hhere; left; by eexists|]. destruct (Hv eq_refl) as [?|(i & _ & Hi & _ & _ & [[o t] Hg] & _)]; [auto|].
  destruct (IH (Z.to_nat i) o t ltac:(by apply Children_get_Some) ((pfx ++ pp) ++ [i]) ltac:(by eapply Hkids) ltac:(by eapply Hk)) as (q & w & Hn & Hq & Hor).
  exists (pp ++ i :: q), w. split; [by eapply at_below|]. split; [apply is_path_app; split; [done | by apply is_path_cons]|].
  rewrite tget_app, Hg. by rewrite <- !app_assoc in Hor.
Qed.

Lemma shaped_canonical pfx u : trie_wf u -> shaped shown pfx u -> (forall q, ~ shown (pfx ++ q)) -> canonical u.
Proof.
  revert pfx. induction u as [pp v ks IH] using trie_ind'. intros pfx Hwf Hs Hno. pose proof (trie_wf_inv _ _ _ Hwf) as (_ & Hkw & Hkids).
  inversion Hs as [? ? ? ? Hv Hk]; subst. apply canonical_iff; [done|]. split.
  - intros Hn. destruct (Hv Hn) as [Hsh|?]; [by destruct (Hno pp) | done].
  - intros i o t Hi Hg. eapply (IH (Z.to_nat i)); [by apply Children_get_Some | by eapply Hkids | by eapply Hk|].
    intros q. rewrite <- !app_assoc. apply Hno.
Qed.

(** [related pfx u s]: the rebuilt trie [u] and the trie [s] below [pfx]. *)
Record related (pfx : Path) (u s : trie) : Prop := mkRelated {
  rel_wf : trie_wf u /\ trie_wf s;
  rel_canonical : canonical s;
  rel_shaped : shaped shown pfx u;
  rel_sub k x : is_path k -> tget u k = Some x -> tget s k = Some x;
  rel_node q pn : proof_nodes !! (pfx ++ q) = Some pn ->
    exists w, node_at s q w /\ pn_child_hashes pn = kid_hashes MerkleDB (pfx ++ q) (tkids w) /\ pn_value_digest pn = DigestValue <$> tval w;
  rel_has q : shown (pfx ++ q) -> exists w, node_at u q w;
  rel_value q : is_path q -> shown (pfx ++ q) -> tget u q = tget s q;
  rel_closed q r w : shown (pfx ++ q ++ r) -> node_at s q w -> shown (pfx ++ q);
  rel_cover k x : is_path k -> tget s k = Some x ->
    tget u k = Some x \/ exists q i r, k = q ++ i :: r /\ shown (pfx ++ q) /\ outside (pfx ++ q) i = true;
}.

Lemma related_shown pfx u s q : related pfx u s -> shown (pfx ++ q) -> exists r w, q = tpath s ++ r /\ node_at s q w.
Proof.
  intros Hr [pn Hpn]. destruct (rel_node _ _ _ Hr q pn Hpn) as (w & Hw & _). destruct (node_at_prefix _ _ _ Hw) as [r ->]. by exists r, w.
Qed.

(** What the rebuilt trie has, the trie has. *)
Lemma related_below pfx u s q : related pfx u s -> is_path q -> is_Some (tget u q) \/ shown (pfx ++ q) -> exists r, q = tpath s ++ r.
Proof.
  intros Hr Hq [[x Hx]|Hs]; [|by destruct (related_shown _ _ _ _ Hr Hs) as (r & _ & -> & _); exists r].
  apply (rel_sub _ _ _ Hr) in Hx; [|done]. by eapply tget_prefix.
Qed.

Lemma related_slot pfx pp v us s i o u :
  related pfx (T pp v us) s -> is_nibble i -> Children_get us i = Some (o, u) -> exists q r, pp ++ i :: q = tpath s ++ r /\ is_path q /\
    (is_Some (tget (T pp v us) (pp ++ i :: q)) \/ shown (pfx ++ pp ++ i :: q)).
Proof.
  intros Hr Hi Hg. pose proof (rel_wf _ _ _ Hr) as [Hwu _]. pose proof (trie_wf_inv _ _ _ Hwu) as (Hpp & _ & Hkids).
  pose proof (rel_shaped _ _ _ Hr) as Hs. inversion Hs as [? ? ? ? _ Hk]; subst.
  destruct (shaped_nonempty _ u ltac:(by eapply Hkids) (Hk i o u Hi Hg)) as (q & w & Hn & Hq & Hor).
  assert (Hor' : is_Some (tget (T pp v us) (pp ++ i :: q)) \/ shown (pfx ++ pp ++ i :: q)) by (rewrite tget_app, Hg; by rewrite <- !app_assoc in Hor).
  destruct (related_below _ _ _ (pp ++ i :: q) Hr) as [r Hx]; [apply is_path_app; split; [done | by apply is_path_cons] | done|]. by exists q, r.
Qed.

(** At a proof node the two have the same path. *)
Lemma related_path pfx u s : related pfx u s -> shown (pfx ++ tpath s) -> tpath u = tpath s.
Proof.
  intros Hr Hs. destruct (rel_has _ _ _ Hr _ Hs) as [w0 Hw0]. destruct (node_at_prefix _ _ _ Hw0) as [[|i r] Hpre]; [by rewrite app_nil_r in Hpre|].
  destruct u as [pp v us]. cbn [tpath] in *. pose proof (rel_wf _ _ _ Hr) as [Hwu _]. pose proof (trie_wf_inv _ _ _ Hwu) as (Hpp & _ & Hkids).
  assert (Hno : is_Some v \/ shown (pfx ++ pp) -> False).
  { intros Hor. destruct (related_below _ _ _ pp Hr Hpp) as [x Hx]; [rewrite tget_value, decide_True by done; done|].
    rewrite Hpre, <- app_assoc in Hx. rewrite <- (app_nil_r pp) in Hx at 1. by apply app_inv_head in Hx. }
  pose proof (rel_shaped _ _ _ Hr) as Hsh. inversion Hsh as [? ? ? ? Hv _]; subst.
  destruct v as [x|]; [exfalso; apply Hno; left; by eexists|]. destruct (Hv eq_refl) as [Hx|(a & b & Ha & Hb & Hab & [[oa ua] Hua] & [[ob ub] Hub])]; [exfalso; auto|].
  assert (Hj : forall j o u, is_nibble j -> Children_get us j = Some (o, u) -> j = i).
  { intros j o u Hj Hg. destruct (related_slot _ _ _ _ _ j o u Hr Hj Hg) as (q & x & Hq & _). rewrite Hpre, <- app_assoc in Hq.
    apply app_inv_head in Hq. by injection Hq. }
  destruct Hab. by rewrite (Hj a _ _ Ha Hua), (Hj b _ _ Hb Hub).
Qed.

(** Behind a slot inside of the range they are related again. *)
Lemma related_kid pfx pp v w us ss i o u o' s :
  related pfx (T pp v us) (T pp w ss) -> is_nibble i -> outside (pfx ++ pp) i = false ->
  Children_get us i = Some (o, u) -> Children_get ss i = Some (o', s) -> related ((pfx ++ pp) ++ [i]) u s.
Proof.
  intros Hr Hi Ho Hu Hs. pose proof (rel_wf _ _ _ Hr) as [Hwu Hws]. pose proof (trie_wf_inv _ _ _ Hwu) as (Hpp & _ & Huk). pose proof (trie_wf_inv _ _ _ Hws) as (_ & _ & Hsk).
  assert (Hf : forall q, ((pfx ++ pp) ++ [i]) ++ q = pfx ++ pp ++ i :: q) by (intros q; by rewrite <- !app_assoc).
  assert (Hgu : forall q, tget (T pp v us) (pp ++ i :: q) = tget u q) by (intros q; by rewrite tget_app, Hu).
  assert (Hgs : forall q, tget (T pp w ss) (pp ++ i :: q) = tget s q) by (intros q; by rewrite tget_app, Hs).
  assert (Hp : forall q, is_path q -> is_path (pp ++ i :: q)) by (intros q Hq; apply is_path_app; split; [done | by apply is_path_cons]).
  assert (Hinv : forall (ks : Children (option kid)) z h k q x, Children_get ks i = Some (h, k) -> node_at (T pp z ks) (pp ++ i :: q) x -> node_at k q x).
  { intros ks z h k q x Hk [[He _]|(j & o2 & k2 & r & _ & Hk2 & He & Hn)]%node_at_inv.
    - rewrite <- (app_nil_r pp) in He at 2. by apply app_inv_head in He.
    - apply app_inv_head in He. injection He as <- <-. congruence. }
  split.
  - split; [by eapply Huk | by eapply Hsk].
  - eapply canonical_inv; [apply (rel_canonical _ _ _ Hr) | exact Hs].
  - pose proof (rel_shaped _ _ _ Hr) as Hsh. inversion Hsh as [? ? ? ? _ Hk]; subst. by eapply Hk.
  - intros k x Hk Hx. rewrite <- Hgs. apply (rel_sub _ _ _ Hr); [by apply Hp | by rewrite Hgu].
  - intros q pn. rewrite Hf. intros Hpn. destruct (rel_node _ _ _ Hr _ _ Hpn) as (x & Hx & Hc & Hd). exists x. split; [by eapply Hinv | done].
  - intros q. rewrite Hf. intros Hq. destruct (rel_has _ _ _ Hr _ Hq) as [x Hx]. exists x. by eapply Hinv.
  - intros q Hq. rewrite Hf. intros Hsh. rewrite <- Hgu, <- Hgs. apply (rel_value _ _ _ Hr); [by apply Hp | done].
  - intros q r x. rewrite !Hf. intros Hsh Hn. apply (rel_closed _ _ _ Hr (pp ++ i :: q) r x); [by rewrite <- app_assoc | by eapply at_below].
  - intros k x Hk Hx. rewrite <- Hgs in Hx. destruct (rel_cover _ _ _ Hr _ _ (Hp k Hk) Hx) as [Hc|(q & j & r & Hkq & Hsh & Hout)]; [left; by rewrite Hgu in Hc|].
    destruct (related_shown _ _ _ _ Hr Hsh) as (y & _ & -> & _). cbn [tpath] in *. rewrite <- app_assoc in Hkq. apply app_inv_head in Hkq.
    destruct y as [|z y]; [injection Hkq as <- <-; rewrite app_nil_r in Hout; congruence|]. injection Hkq as <- ->.
    right. exists y, j, r. rewrite Hf. by split_and!.
Qed.

(** Without proof nodes, equal tries match. *)
Lemma tsim_matches u : forall pfx s, tsim u s -> (forall q, ~ shown (pfx ++ q)) -> matches pfx u s.
Proof.
  induction u as [pp v us IH] using trie_ind'. intros pfx s Ht Hno. inversion Ht as [? ? ? ss Huw Hsw Hk]; subst.
  assert (Hnone : proof_nodes !! (pfx ++ pp) = None) by (apply eq_None_not_Some, Hno).
  constructor.
  - intros _. by rewrite Hnone.
  - intros i _. by rewrite outside_none.
  - intros i Hi _. specialize (Hk i Hi). by inversion Hk.
  - intros i o u o' s Hi _ Hu Hs. specialize (Hk i Hi). rewrite Hu, Hs in Hk. inversion Hk; subst.
    eapply (IH (Z.to_nat i)); [by apply Children_get_Some | done |]. intros q. rewrite <- !app_assoc. apply Hno.
Qed.

(** Related tries match. *)
Lemma related_matches s : forall pfx u, related pfx u s -> matches pfx u s.
Proof.
  induction s as [pp w ss IH] using trie_ind'. intros pfx u Hr. destruct (decide (shown (pfx ++ pp))) as [Hsh|Hno].
  - pose proof (related_path _ _ _ Hr Hsh) as Hpath. destruct u as [qq v us]. cbn in Hpath. subst qq.
    pose proof (rel_wf _ _ _ Hr) as [Hwu Hws]. pose proof (trie_wf_inv _ _ _ Hwu) as (Hpp & _ & Huk). pose proof (trie_wf_inv _ _ _ Hws) as (_ & Hsw & Hsk).
    assert (v = w) as ->. { pose proof (rel_value _ _ _ Hr pp Hpp Hsh) as Hv. by rewrite (tget_value pp v), (tget_value pp w), !decide_True in Hv. }
    pose proof Hsh as [pn Hpn]. destruct (rel_node _ _ _ Hr pp pn Hpn) as (x & Hx & Hc & Hd).
    rewrite (node_at_unique _ _ _ _ Hx (at_here (T pp w ss))) in *. cbn [tkids tval] in *. constructor.
    + intros ->. rewrite Hpn. exact Hd.
    + intros i Hi _. rewrite Hpn. cbn. by rewrite Hc.
    + intros i Hi Ho. split.
      * intros [[o u] Hu]. destruct (related_slot _ _ _ _ _ i o u Hr Hi Hu) as (q & r & _ & Hq & [[y Hy]|Hy]).
        -- apply (rel_sub _ _ _ Hr) in Hy; [|apply is_path_app; split; [done | by apply is_path_cons]]. rewrite tget_app in Hy. by destruct (Children_get ss i).
        -- destruct (related_shown _ _ _ _ Hr Hy) as (_ & z & _ & [[He _]|(j & o2 & k2 & r2 & _ & Hk2 & He & _)]%node_at_inv).
           ++ rewrite <- (app_nil_r pp) in He at 2. by apply app_inv_head in He.
           ++ apply app_inv_head in He. injection He as <- _. by eexists.
      * intros Hs. destruct (canonical_slot_nonempty pp w ss i Hws (rel_canonical _ _ _ Hr) Hi Hs) as (k & y & Hk & Hy).
        destruct (rel_cover _ _ _ Hr (pp ++ i :: k) y ltac:(apply is_path_app; split; [done | by apply is_path_cons]) Hy) as [Hu|(q & j & r & Hkq & Hq & Hout)].
        -- rewrite tget_app in Hu. by destruct (Children_get us i).
        -- destruct (related_shown _ _ _ _ Hr Hq) as (z & _ & -> & _). cbn [tpath] in *. rewrite <- app_assoc in Hkq. apply app_inv_head in Hkq.
           destruct z as [|z0 z]; [injection Hkq as <- <-; rewrite app_nil_r in Hout; congruence|]. injection Hkq as <- ->.
           destruct (rel_has _ _ _ Hr _ Hq) as (z' & [[He _]|(j2 & o2 & k2 & r2 & _ & Hk2 & He & _)]%node_at_inv).
           ++ rewrite <- (app_nil_r pp) in He at 2. by apply app_inv_head in He.
           ++ apply app_inv_head in He. injection He as <- _. by eexists.
    + intros i o u o' s Hi Ho Hu Hs. eapply (IH (Z.to_nat i)); [by apply Children_get_Some | by eapply related_kid].
  - pose proof (rel_wf _ _ _ Hr) as [Hwu Hws].
    assert (Hnone : forall q, ~ shown (pfx ++ q)).
    { intros q Hq. destruct (related_shown _ _ _ _ Hr Hq) as (r & _ & -> & _). apply Hno. by apply (rel_closed _ _ _ Hr pp r (T pp w ss)); [|exact (at_here (T pp w ss))]. }
    apply tsim_matches; [|done]. apply canonical_unique; [done | done | | apply (rel_canonical _ _ _ Hr) |].
    { eapply shaped_canonical; [done | apply (rel_shaped _ _ _ Hr) | done]. }
    intros k Hk. destruct (tget (T pp w ss) k) as [x|] eqn:Hx.
    + destruct (rel_cover _ _ _ Hr k x Hk Hx) as [?|(q & i & r & _ & Hq & _)]; [done | by destruct (Hnone q)].
    + destruct (tget u k) as [y|] eqn:Hy; [|done]. apply (rel_sub _ _ _ Hr) in Hy; [congruence | done].
Qed.

End Match.

(** * What the marks of a true edge cover *)

(** ** Marks *)

Lemma outside_far_keep b key n marks f i :
  is_nibble n -> is_nibble i -> outside_at marks f i = true -> outside_at (mark_far_side b key n marks) f i = true.
Proof.
  intros Hn Hi. unfold outside_at, mark_far_side. destruct (decide (key = f)) as [<-|Hne]; [|by rewrite lookup_insert_ne].
  rewrite lookup_insert_eq. destruct (marks !! key) as [m|]; [|done]. cbn [default id]. intros Hm.
  destruct (child_mask_is_a_set m 0 n i Hn Hi) as (Hb & Ha & _). destruct (is_left b); [rewrite Hb | rewrite Ha]; by rewrite Hm.
Qed.

Lemma outside_far b key n marks i :
  is_nibble n -> is_nibble i -> (if is_left b then i < n else n < i) -> outside_at (mark_far_side b key n marks) key i = true.
Proof.
  intros Hn Hi Hf. unfold outside_at, mark_far_side. rewrite lookup_insert_eq.
  destruct (child_mask_is_a_set (default 0 (marks !! key)) 0 n i Hn Hi) as (Hb & Ha & _).
  destruct (is_left b); [rewrite Hb | rewrite Ha]; apply orb_true_iff; right; by apply Z.ltb_lt.
Qed.

Lemma mask_all_set i : is_nibble i -> is_set ChildMask_ALL i = true.
Proof. intros Hi. by destruct (child_mask_is_a_set 0 0 i i Hi Hi) as (_ & _ & _ & _ & ? & _). Qed.

Lemma outside_merge a b f i : is_nibble i -> outside_at (merge_marks a b) f i = outside_at a f i || outside_at b f i.
Proof.
  intros Hi. unfold outside_at, merge_marks. rewrite lookup_union_with.
  destruct (a !! f) as [x|], (b !! f) as [y|]; cbn; rewrite ?orb_false_r; try done. by destruct (child_mask_is_a_set x y i i Hi Hi) as (_ & _ & _ & Hor & _).
Qed.

Lemma far_dom b key n marks f : is_Some (mark_far_side b key n marks !! f) -> is_Some (marks !! f) \/ f = key.
Proof. unfold mark_far_side. destruct (decide (key = f)) as [<-|Hne]; [by right | rewrite lookup_insert_ne by done; by left]. Qed.

(** ** The last node *)

(** [classify_terminal], for the key of the node and the boundary. *)
Definition terminal_mask (left : bool) (tk boundary : Path) : option TerminalMarking :=
  match divergence tk boundary with
  | Some (x, y) => if (if left then x <? y else y <? x) then Some AllOutside else None
  | None => match boundary !! length tk with Some j => Some (OnPath j) | None => if left then None else Some AllOutside end
  end.

Definition mask_covers (left : bool) (m : option TerminalMarking) (i : PathComponent) : Prop :=
  match m with Some AllOutside => True | Some (OnPath j) => if left then i < j else j < i | None => False end.

Lemma divergence_app c a b : divergence (c ++ a) (c ++ b) = divergence a b.
Proof. induction c as [|x c IH]; [done|]. cbn. by rewrite Z.eqb_refl. Qed.

Lemma slice_lt_fork_inv c i j r s : slice_lt (c ++ i :: r) (c ++ j :: s) -> i <= j.
Proof. unfold slice_lt. rewrite slice_le_app. cbn. destruct (Z.compare_spec j i); [lia | done | lia]. Qed.

Lemma slice_lt_prefix a s : ~ slice_lt (a ++ s) a.
Proof. unfold slice_lt. by rewrite slice_le_prefix. Qed.

Section Cover.
Context `{Digests} `{VarInt}.
Variables (alg : NodeHashAlgorithm) (must_recompute : bool).

Abbreviation chain := (proof_chain alg must_recompute).

(** [beyond left k r]: [k] is on the far side of [r]. *)
Definition beyond (left : bool) (k r : Path) : Prop := if left then slice_lt k r else slice_lt r k.

(** A key behind a slot of the last node. *)
Lemma terminal_cover left pfx t r i s nodes found :
  chain pfx t r nodes found -> nodes = [proof_node alg must_recompute pfx t] -> is_path r ->
  is_Some (tget t (tpath t ++ i :: s)) -> beyond left (tpath t ++ i :: s) r ->
  mask_covers left (terminal_mask left (pfx ++ tpath t) (pfx ++ r)) i.
Proof.
  intros Hch Hn Hr [x Hx] Hb. unfold terminal_mask. rewrite divergence_app.
  assert (Hlook : forall l, (pfx ++ l) !! length (pfx ++ tpath t) = l !! length (tpath t)).
  { intros l. rewrite lookup_app_r by (rewrite length_app; lia). f_equal. rewrite length_app. lia. }
  destruct Hch as [pfx pp v ks | pfx t r Hs | pfx pp v ks j r Hj Hg | pfx pp v ks j g t r nodes found Hj Hg Hch]; cbn [tpath] in *.
  - replace (divergence pp pp) with (@None (PathComponent * PathComponent)) by (clear; induction pp; cbn; [done | by rewrite Z.eqb_refl]).
    rewrite Hlook, lookup_ge_None_2 by done. destruct left; [by destruct (slice_lt_prefix pp (i :: s)) | done].
  - destruct (divergence (tpath t) r) as [[a b]|] eqn:Hd.
    + apply divergence_Some in Hd as (c & a' & b' & Ht & Hrr & Hab). rewrite Ht, Hrr, <- app_assoc in Hb. cbn in Hb.
      destruct left; cbn in Hb; apply slice_lt_fork_inv in Hb; [destruct (Z.ltb_spec a b) | destruct (Z.ltb_spec b a)]; done || lia.
    + apply divergence_None in Hd as [[s' ->]|[s' Ht]]; [by rewrite strip_prefix_app_self in Hs|]. rewrite Hlook, lookup_ge_None_2 by (rewrite Ht, length_app; lia).
      destruct left; [|done]. cbn in Hb. rewrite Ht, <- app_assoc in Hb. by destruct (slice_lt_prefix r (s' ++ i :: s)).
  - assert (Hne : i <> j) by (intros ->; by rewrite tget_app, Hg in Hx).
    replace (divergence pp (pp ++ j :: r)) with (@None (PathComponent * PathComponent)) by (clear; induction pp; cbn; [done | by rewrite Z.eqb_refl]).
    rewrite Hlook, list_lookup_middle by done. destruct left; cbn in *; apply slice_lt_fork_inv in Hb; lia.
  - injection Hn as ->. by destruct (chain_head _ _ _ _ _ _ _ Hch).
Qed.

(** Marking the nodes that are not the last never fails on a chain. *)
Lemma mark_inner_chain b pfx t r nodes found marks :
  chain pfx t r nodes found -> exists marks', mark_inner b nodes marks = Ok marks' /\
    (forall f i, is_nibble i -> outside_at marks f i = true -> outside_at marks' f i = true) /\
    forall f, is_Some (marks' !! f) -> is_Some (marks !! f) \/ f ∈ pn_key <$> nodes.
Proof.
  intros Hch. revert marks. induction Hch as [pfx pp v ks | pfx t r Hs | pfx pp v ks j r Hj Hg | pfx pp v ks j g t r nodes found Hj Hg Hch IH]; intros marks;
    try (exists marks; split_and!; [done | done | by left]).
  destruct (chain_head _ _ _ _ _ _ _ Hch) as [rest ->]. rewrite mark_inner_cons. cbn [pn_key proof_node tpath].
  replace (((pfx ++ pp) ++ [j]) ++ tpath t) with ((pfx ++ pp) ++ j :: tpath t) by (by rewrite <- (app_assoc (pfx ++ pp))). rewrite list_lookup_middle by done. cbn [ok_or mbind result_bind].
  destruct (IH (mark_far_side b (pfx ++ pp) j marks)) as (marks' & -> & Hk & Hd). exists marks'. split_and!; [done | |].
  - intros f i Hi Hm. apply Hk; [done|]. by apply outside_far_keep.
  - intros f [Hf|Hf]%Hd; [|right; rewrite fmap_cons; by right]. apply far_dom in Hf as [?| ->]; [by left | right; by left].
Qed.

(** Every key beyond the boundary is a node, or is behind a marked slot, or is behind a slot of the last node that is to be marked. *)
Lemma chain_cover b pfx t r nodes found marks marks' k x :
  chain pfx t r nodes found -> mark_inner b nodes marks = Ok marks' -> is_path r -> is_path k -> tget t k = Some x -> beyond (is_left b) k r ->
  pfx ++ k ∈ pn_key <$> nodes \/
  exists q i s, pfx ++ k = q ++ i :: s /\ is_nibble i /\ q ∈ pn_key <$> nodes /\
    (outside_at marks' q i = true \/
     exists l, last nodes = Some l /\ pn_key l = q /\ mask_covers (is_left b) (terminal_mask (is_left b) q (pfx ++ r)) i).
Proof.
  intros Hch. revert marks k. induction Hch as [pfx pp v ks | pfx t r Hs | pfx pp v ks j r Hj Hg | pfx pp v ks j g t r nodes found Hj Hg Hch IH];
    intros marks k Hm Hr Hk Hx Hb.
  1-3: destruct (tget_prefix _ _ _ Hx) as [[|i s] ->]; [left; rewrite app_nil_r; by left|]; right; apply is_path_app in Hk as [Hpp [Hi _]%is_path_cons];
    (eexists _, i, s; split; [by rewrite app_assoc|]; split; [done|]; split; [by left|]); right; (eexists; split; [done|]); (split; [done|]).
  1: eapply terminal_cover; [apply chain_found | done | done | by eexists | done].
  1: eapply terminal_cover; [by apply chain_diverges | done | done | by eexists | done].
  1: eapply (terminal_cover _ pfx (T pp v ks)); [by apply chain_no_child | done | done | by eexists | done].
  apply is_path_app in Hr as [Hpp [_ Hr]%is_path_cons]. destruct (chain_head _ _ _ _ _ _ _ Hch) as [rest Hrest]. rewrite Hrest in Hm.
  rewrite mark_inner_cons in Hm. cbn [pn_key proof_node tpath] in Hm.
  replace (((pfx ++ pp) ++ [j]) ++ tpath t) with ((pfx ++ pp) ++ j :: tpath t) in Hm by (by rewrite <- (app_assoc (pfx ++ pp))).
  rewrite list_lookup_middle in Hm by done. cbn [ok_or mbind result_bind] in Hm. rewrite <- Hrest in Hm.
  destruct (tget_prefix _ _ _ Hx) as [[|i s] ->]; cbn [tpath] in *; [left; rewrite app_nil_r; by left|]. apply is_path_app in Hk as [_ [Hi Hks]%is_path_cons].
  destruct (decide (i = j)) as [->|Hne].
  - rewrite tget_app, Hg in Hx. assert (Hb' : beyond (is_left b) s r).
    { clear -Hb. unfold beyond, slice_lt in *. rewrite !slice_le_app in Hb. cbn in Hb. by rewrite !Z.compare_refl in Hb. }
    replace (pfx ++ pp ++ j :: s) with (((pfx ++ pp) ++ [j]) ++ s) by (by rewrite <- !app_assoc).
    replace (pfx ++ pp ++ j :: r) with (((pfx ++ pp) ++ [j]) ++ r) by (by rewrite <- !app_assoc).
    destruct (IH _ s Hm Hr Hks Hx Hb') as [Hin|(q & i & s' & Hq & Hin & Hqn & Hor)]; [left; rewrite fmap_cons; by right|].
    right. exists q, i, s'. split_and!; [done | done | rewrite fmap_cons; by right |]. destruct Hor as [?|(l & Hl & Hc)]; [by left|]. right. exists l. split; [|done].
    rewrite Hrest in Hl |- *. done.
  - right. exists (pfx ++ pp), i, s. split_and!; [by rewrite app_assoc | done | by left|]. left.
    destruct (mark_inner_chain b _ _ _ _ _ (mark_far_side b (pfx ++ pp) j marks) Hch) as (m2 & Hm2 & Hkeep & _). rewrite Hm in Hm2. injection Hm2 as <-.
    apply Hkeep; [done|]. apply outside_far; [done | done|]. unfold beyond in Hb. destruct (is_left b); apply slice_lt_fork_inv in Hb; lia.
Qed.

(** [compute_outside_children] on the chain of a boundary. *)
Lemma outside_cover b t key nodes found :
  chain [] t (nibbles_of key) nodes found -> boundary_key b = Some key -> is_bytes key ->
  exists marks c, compute_outside_children nodes b = Ok (marks, c) /\
    (forall f, is_Some (marks !! f) -> f ∈ pn_key <$> nodes) /\
    forall k x, is_path k -> tget t k = Some x -> beyond (is_left b) k (nibbles_of key) ->
      k ∈ pn_key <$> nodes \/ exists q i s, k = q ++ i :: s /\ is_nibble i /\ q ∈ pn_key <$> nodes /\ outside_at marks q i = true.
Proof.
  intros Hch Hbk Hkey. pose proof (is_path_nibbles_of key Hkey) as Hp. unfold compute_outside_children.
  destruct (mark_inner_chain b [] t _ _ _ ∅ Hch) as (marks & Hm & _ & Hdom). rewrite Hm. cbn [mbind result_bind].
  pose proof (fun k x => chain_cover b [] t _ _ _ ∅ marks k x Hch Hm Hp) as Hcov. cbn [app] in Hcov.
  destruct (chain_conclusion _ _ _ _ _ _ _ Hch) as (l & Hl & _).
  assert (Hln : pn_key l ∈ pn_key <$> nodes) by (by apply list_elem_of_fmap_2, last_Some_elem_of).
  assert (Hdom' : forall f, is_Some (marks !! f) -> f ∈ pn_key <$> nodes) by (intros f [Hf|?]%Hdom; [by rewrite lookup_empty in Hf; destruct Hf | done]).
  assert (Hcl : classify_terminal nodes b = pair l <$> terminal_mask (is_left b) (pn_key l) (nibbles_of key)).
  { unfold classify_terminal, terminal_mask. rewrite Hl, Hbk. cbn [mbind option_bind]. rewrite from_nibbles_iterator_new by done.
    destruct (divergence _ _) as [[x y]|]; [by destruct (if is_left b then _ else _)|]. destruct (_ !! _); [done|]. by destruct (is_left b). }
  rewrite Hcl. set (mask := terminal_mask (is_left b) (pn_key l) (nibbles_of key)) in *.
  set (final := match pair l <$> mask with Some (node, AllOutside) => <[pn_key node := ChildMask_ALL]> marks
                | Some (node, OnPath on_path) => mark_far_side b (pn_key node) on_path marks | None => marks end).
  assert (Hj : forall j, mask = Some (OnPath j) -> is_nibble j).
  { intros j. unfold mask, terminal_mask. destruct (divergence _ _) as [[x y]|]; [by destruct (if is_left b then _ else _)|].
    destruct (_ !! _) as [z|] eqn:Hz; [|by destruct (is_left b)]. intros [= <-]. eapply Forall_lookup_1; [exact Hp | exact Hz]. }
  assert (Hfin : (forall f i, is_nibble i -> outside_at marks f i = true -> outside_at final f i = true) /\
    (forall i, is_nibble i -> mask_covers (is_left b) mask i -> outside_at final (pn_key l) i = true) /\
    forall f, is_Some (final !! f) -> f ∈ pn_key <$> nodes).
  { unfold final. destruct mask as [[|j]|]; cbn [fmap option_fmap option_map mask_covers]; [| |by split_and!].
    - split_and!.
      + intros f i Hi. unfold outside_at. destruct (decide (pn_key l = f)) as [<-|Hne]; [rewrite lookup_insert_eq; intros _; by apply mask_all_set | by rewrite lookup_insert_ne].
      + intros i Hi _. unfold outside_at. rewrite lookup_insert_eq. by apply mask_all_set.
      + intros f. destruct (decide (pn_key l = f)) as [<-|Hne]; [done | rewrite lookup_insert_ne by done; apply Hdom'].
    - specialize (Hj j eq_refl). split_and!.
      + intros f i Hi. by apply outside_far_keep.
      + intros i Hi Hf. by apply outside_far.
      + intros f [?| ->]%far_dom; [by apply Hdom' | done]. }
  destruct Hfin as (Hkeep & Hterm & Hfdom). eexists _, _. split; [reflexivity|]. fold final. split; [done|].
  intros k x Hk Hx Hb. destruct (Hcov k x Hk Hx Hb) as [?|(q & i & s & -> & Hi & Hq & Hor)]; [by left|]. right. exists q, i, s. split_and!; try done.
  destruct Hor as [Hm1|(l' & Hl' & <- & Hc)]; [by apply Hkeep|]. rewrite Hl in Hl'. injection Hl' as <-. by apply Hterm.
Qed.

(** ** Nodes of a chain *)

(** The nodes of the trie above a node of the chain are in the chain. *)
Lemma chain_closed pfx t r nodes found :
  chain pfx t r nodes found -> forall q q' w, node_at t q w -> pfx ++ q ++ q' ∈ pn_key <$> nodes -> pfx ++ q ∈ pn_key <$> nodes.
Proof.
  assert (Hone : forall t q q' w, node_at t q w -> tpath t = q ++ q' -> q = tpath t).
  { intros t0 q q' w Hn Hq. destruct (node_at_prefix _ _ _ Hn) as [z Hz]. rewrite Hz in Hq |- *. rewrite <- app_assoc in Hq.
    rewrite <- (app_nil_r (tpath t0)) in Hq at 1. apply app_inv_head in Hq. symmetry in Hq. apply app_nil in Hq as [-> _]. by rewrite app_nil_r. }
  induction 1 as [pfx pp v ks | pfx t r Hs | pfx pp v ks j r Hj Hg | pfx pp v ks j g t r nodes found Hj Hg Hch IH]; intros q q' w Hn Hin.
  1-3: apply list_elem_of_singleton in Hin; cbn [pn_key proof_node] in Hin; apply app_inv_head in Hin; rewrite (Hone _ q q' w Hn) by (by rewrite Hin); by left.
  rewrite fmap_cons in *. apply elem_of_cons in Hin as [Hin|Hin].
  - cbn [pn_key proof_node] in Hin. apply app_inv_head in Hin. rewrite (Hone _ q q' w Hn) by (by rewrite Hin). by left.
  - apply node_at_inv in Hn as [[-> _]|(i & o & t' & z & Hi & Hg' & -> & Hn)]; [by left|]. right.
    assert (Heq : i = j). { apply list_elem_of_fmap in Hin as (pn & Hpn & Hin). destruct (chain_node _ _ _ _ _ _ _ Hch pn Hin) as (y & p & u & -> & Hp & _).
      cbn [pn_key proof_node] in Hpn. rewrite Hp, <- !app_assoc in Hpn. apply app_inv_head, app_inv_head in Hpn. by injection Hpn. }
    subst j. rewrite Hg in Hg'. injection Hg' as <- <-. replace (pfx ++ pp ++ i :: z) with (((pfx ++ pp) ++ [i]) ++ z) by (by rewrite <- !app_assoc).
    apply (IH z q' w Hn). rewrite <- !app_assoc. rewrite <- !app_assoc in Hin. exact Hin.
Qed.

(** A chain also leads to its last node. *)
Lemma chain_to_last pfx t r nodes found l :
  chain pfx t r nodes found -> last nodes = Some l -> exists q found', pn_key l = pfx ++ q /\ chain pfx t q nodes found'.
Proof.
  intros Hch. revert l. induction Hch as [pfx pp v ks | pfx t r Hs | pfx pp v ks j r Hj Hg | pfx pp v ks j g t r nodes found Hj Hg Hch IH]; intros l.
  - intros [= <-]. exists pp. eexists. split; [done | constructor].
  - intros [= <-]. destruct t as [pp v ks]. exists pp. eexists. split; [done | constructor].
  - intros [= <-]. exists pp. eexists. split; [done | constructor].
  - intros Hl. assert (Hl' : last nodes = Some l) by (destruct (chain_head _ _ _ _ _ _ _ Hch) as [rest Hrest]; by rewrite Hrest in Hl |- *).
    destruct (IH l Hl') as (q & found' & Hq & Hc). exists (pp ++ j :: q), found'. split; [by rewrite Hq, <- !app_assoc | by eapply chain_step].
Qed.

(** If the last node is beyond the key, there is nothing between them. *)
Lemma chain_gap pfx t r nodes found l q k x :
  chain pfx t r nodes found -> last nodes = Some l -> pn_key l = pfx ++ q -> slice_lt r q -> tget t k = Some x -> slice_lt r k -> slice_le q k = true.
Proof.
  intros Hch. revert l q k. induction Hch as [pfx pp v ks | pfx t r Hs | pfx pp v ks j r Hj Hg | pfx pp v ks j g t r nodes found Hj Hg Hch IH]; intros l q k Hl Hq Hrq Hx Hrk.
  1-3: injection Hl as <-; cbn [pn_key proof_node] in Hq; apply app_inv_head in Hq; subst q; cbn [tpath] in *; destruct (tget_prefix _ _ _ Hx) as [s ->]; apply slice_le_prefix.
  destruct (chain_head _ _ _ _ _ _ _ Hch) as [rest Hrest]. rewrite Hrest in Hl. cbn [last] in Hl. rewrite <- Hrest in Hl.
  destruct (chain_node _ _ _ _ _ _ _ Hch l ltac:(by apply last_Some_elem_of)) as (y & p & u & Hpn & Hp & _).
  assert (Hqq : q = pp ++ j :: y). { rewrite Hpn in Hq. cbn [pn_key proof_node] in Hq. rewrite Hp, <- !app_assoc in Hq. by apply app_inv_head in Hq. }
  subst q. destruct (tget_prefix _ _ _ Hx) as [[|i s] ->]; cbn [tpath] in *.
  { rewrite app_nil_r in Hrk. unfold slice_lt in Hrk. by rewrite slice_le_prefix in Hrk. }
  pose proof (slice_lt_fork_inv _ _ _ _ _ Hrk) as Hji. rewrite slice_le_app. cbn. destruct (Z.compare_spec j i) as [->|Hlt|Hgt]; [|done|lia].
  rewrite tget_app, Hg in Hx. unfold slice_lt in Hrq, Hrk. rewrite slice_le_app in Hrq, Hrk. cbn in Hrq, Hrk. rewrite Z.compare_refl in Hrq, Hrk.
  apply (IH l y s Hl); [|exact Hrq | exact Hx | exact Hrk]. rewrite Hpn. cbn [pn_key proof_node]. done.
Qed.

End Cover.
