(* ===== verification/RangeSound.v ===== *)
(** * Soundness of range proofs

    What [verify_range_proof] accepts under MerkleDB is true of the trie, but for the
    two gaps of [RangeGaps]. *)

From S2P Require Import Prelude Primitives NodePath Node Codec NodeCodec Trie NodeStore Linear Header ChildMask.
From S2P Require Import Merkle MerkleSpec MerkleInsert MerkleCorrect Rlp Hashing HashSpec HashBinding Placed Iter IterSpec.
From S2P Require Import ProofTypes KeyProof KeyProofSound ProofWire ProofWireSpec ProofWireCorrect.
From S2P Require Import RangeProof RangeMarks RangeAccept RangeHash RangeTrie.

(** The key is in the range that verification returns. *)
Definition below_end (e : option bytes) (k : bytes) : Prop := forall x, e = Some x -> slice_le k x = true.
Definition above_start (s : option bytes) (k : bytes) : Prop := forall x, s = Some x -> slice_le x k = true.
Definition in_proven (r : ProvenRange) (k : bytes) : Prop := above_start (proven_start r) k /\ below_end (proven_end r) k.

Definition is_key (k : option bytes) : Prop := forall x, k = Some x -> is_bytes x.

Lemma bytes_iter_bytes p : is_path p -> is_bytes (bytes_iter p).
Proof.
  remember (length p) as n eqn:Hn. revert p Hn. induction n as [n IH] using lt_wf_ind. intros [|a [|b p]] Hn Hp; [constructor..|].
  apply is_path_cons in Hp as [Ha [Hb Hp]%is_path_cons]. simpl in *. constructor; [unfold is_nibble in *; ulia|].
  by apply (IH (length p)); [lia|..].
Qed.

Lemma kv_find_value kvs k x : kv_find kvs k = Some x -> x ∈ kvs.*2.
Proof.
  induction kvs as [|[a y] kvs IH]; [done|]. rewrite kv_find_cons. case_decide; [intros [= ->]; by left | right; by apply IH].
Qed.

(** ** The values of the proof nodes *)

(** The right side of the check of [verify_proof_node_values]. *)
Definition within_right (b : RightBoundary) (k : bytes) : bool :=
  match b with
  | InRange None => true
  | InRange (Some e) => slice_le k e
  | OutOfRange e => slice_ltb k e
  end.

Lemma proof_node_values_ok nodes first b kvs pn v :
  verify_proof_node_values nodes first b kvs = Ok tt -> pn ∈ nodes ->
  pn_value_digest pn = Some (DigestValue v) -> Nat.even (length (pn_key pn)) = true ->
  within_right b (bytes_iter (pn_key pn)) = true -> above_start first (bytes_iter (pn_key pn)) ->
  kv_find kvs (bytes_iter (pn_key pn)) = Some v.
Proof.
  induction nodes as [|n nodes IH]; intros Hv Hin Hd He Hr Hl; [by apply elem_of_nil in Hin|]. cbn [verify_proof_node_values] in Hv.
  apply elem_of_cons in Hin as [<-|Hin].
  - rewrite He, Hd in Hv. cbn [negb] in Hv. fold (within_right b (bytes_iter (pn_key pn))) in Hv. rewrite Hr in Hv.
    assert (Hs : (match first with None => true | Some start => slice_le start (bytes_iter (pn_key pn)) end) = true).
    { destruct first; [by apply Hl | done]. }
    rewrite Hs in Hv. cbn [andb] in Hv. destruct (kv_find _ _) as [x|]; [|done]. by case_bool_decide; [subst|].
  - apply IH; try done. destruct (negb _); [done|]. destruct (pn_value_digest n) as [[x|]|]; [|done..].
    destruct (_ && _); [|done]. destruct (kv_find kvs (bytes_iter (pn_key n))); [|done]. by destruct (negb _).
Qed.

Section RangeSound.
Context `{DigestsLaws} `{VarIntLaws}.

(** ** The marked slots *)

Lemma marks_merge a b f i :
  is_nibble i -> outside_at (merge_marks a b) f i = true -> outside_at a f i = true \/ outside_at b f i = true.
Proof.
  intros Hi. unfold outside_at, merge_marks. rewrite lookup_union_with.
  destruct (a !! f) as [x|], (b !! f) as [y|]; simpl; auto.
  destruct (child_mask_is_a_set x y i i Hi Hi) as (_ & _ & _ & Hor & _). rewrite Hor. by intros [?|?]%orb_true_iff; [left | right].
Qed.

(** A marked slot is not on the way to a key on the near side of the boundary. *)
Lemma near_side_unmarked b bound marks k f i s :
  is_bytes bound -> is_bytes k -> marks_ok (far_side b (nibbles_of bound)) marks ->
  (if is_left b then slice_le bound k else slice_le k bound) = true ->
  nibbles_of k = f ++ i :: s -> outside_at marks f i = false.
Proof.
  intros Hb Hk Hm Hnear Hp. destruct (outside_at marks f i) eqn:Ho; [exfalso | done].
  pose proof (is_path_nibbles_of k Hk) as Hkp. rewrite Hp in Hkp. apply is_path_app in Hkp as [_ [Hi _]%is_path_cons].
  unfold outside_at in Ho. destruct (marks !! f) as [m|] eqn:Hf; [|done].
  specialize (Hm f m i Hf Hi Ho s). rewrite <- Hp in Hm. unfold slice_lt in Hm.
  destruct (is_left b); rewrite slice_le_nibbles in Hm by done; congruence.
Qed.

Lemma verify_linked nodes key e root :
  is_bytes key -> verify MerkleDB nodes key e root = Ok tt -> linked (nibbles_of key) nodes.
Proof.
  intros Hk. unfold verify. intros (d & Hd & _)%bind_Ok. apply proof_value_digest_Ok in Hd as (l & _ & Hv & _); [|done].
  by eapply verify_loop_linked.
Qed.

Lemma verify_edge_verifies bound kv nodes root edge :
  nodes <> [] -> verify_edge MerkleDB bound kv nodes root edge = Ok tt ->
  match bound, kv with
  | Some k, _ => exists e, verify MerkleDB nodes k e root = Ok tt
  | None, Some (k, v) => verify MerkleDB nodes k (Some v) root = Ok tt
  | None, None => True
  end.
Proof.
  intros Hn. unfold verify_edge. destruct nodes as [|n nodes]; [done|]. intros [_ Hv]%guard_Ok.
  destruct bound as [k|]; [eexists; by eapply annotate_Ok|]. destruct kv as [[k v]|]; [by eapply annotate_Ok | done].
Qed.

(** *** The left edge *)

Lemma left_unmarked first kv nodes root marks c k f i s :
  is_key first -> is_bytes k -> (first = None -> nodes = []) ->
  verify_edge MerkleDB first kv nodes root LeftEdge = Ok tt ->
  compute_outside_children nodes (BoundaryLeft first) = Ok (marks, c) ->
  above_start first k -> nibbles_of k = f ++ i :: s -> outside_at marks f i = false.
Proof.
  intros Hf Hk Hnone Hv Hc Hab Hp. destruct nodes as [|n nodes]; [by apply outside_marks_nil in Hc as ->|].
  destruct first as [first|]; [|by specialize (Hnone eq_refl)].
  apply verify_edge_verifies in Hv as [e Hv]; [|done]. pose proof (Hf first eq_refl) as Hfb.
  apply (near_side_unmarked (BoundaryLeft (Some first)) first marks k f i s); [done | done | | by apply Hab | done].
  eapply outside_marks_ok; [done | done | by eapply verify_linked | done].
Qed.

(** *** The right edge *)

Lemma right_edge_cases nodes lkv fallback :
  let b := right_edge nodes lkv fallback in
  b = InRange fallback \/ (exists l, lkv = Some l /\ b = InRange (Some l)) \/
  exists l t, lkv = Some l /\ last nodes = Some t /\ b = OutOfRange (bytes_iter (pn_key t)) /\ slice_lt l (bytes_iter (pn_key t)).
Proof.
  unfold right_edge. destruct (last nodes) as [t|]; [|by left]. destruct lkv as [l|]; [|by left].
  destruct (pn_value_digest t); [|by left]. destruct (slice_ltb _ _) eqn:Hlt.
  - right. right. exists l, t. split_and!; [done..|]. by apply slice_ltb_lt.
  - case_bool_decide; [|by left]. right. left. eauto.
Qed.

(** A proof of the last pair ends at its key. *)
Lemma right_edge_anchored nodes k v root fallback :
  is_bytes k -> verify MerkleDB nodes k (Some v) root = Ok tt -> right_edge nodes (Some k) fallback = InRange (Some k).
Proof.
  intros Hk. unfold verify. intros (d & Hd & Hv)%bind_Ok. apply proof_value_digest_Ok in Hd as (l & Hl & _ & Hc); [|done].
  destruct d as [d|]; [|done]. unfold conclusion in Hc. case_bool_decide as Hf.
  - injection Hc as Hc. simpl in Hf, Hc. unfold right_edge. rewrite Hl, Hc, Hf, bytes_iter_nibbles_of by done.
    rewrite bool_decide_true by done. destruct (slice_ltb k k) eqn:Hlt; [|done]. apply slice_ltb_lt in Hlt. by apply slice_lt_irrefl in Hlt.
  - destruct (next_nibble _ _); [by case_bool_decide | done].
Qed.

Lemma below_end_within nodes lkv last_key k :
  let b := right_edge nodes lkv last_key in
  below_end (proven_right_edge b lkv last_key) k -> within_right b k = true.
Proof.
  intros b. destruct (right_edge_cases nodes lkv last_key) as [Hb|[(l & -> & Hb)|(l & t & -> & _ & Hb & Hlt)]]; fold b in Hb; rewrite Hb; simpl.
  - destruct last_key as [e|]; [|done]. intros Hk. by apply Hk.
  - intros Hk. by apply Hk.
  - intros Hk. apply slice_ltb_lt. destruct last_key as [e|].
    + destruct (slice_ltb e _) eqn:He.
      * apply slice_ltb_lt in He. eapply slice_le_lt_trans; [by apply Hk | done].
      * eapply slice_le_lt_trans; [by apply Hk | done].
    + eapply slice_le_lt_trans; [by apply Hk | done].
Qed.

Lemma right_unmarked proof last_key root marks c k f i s :
  let lkv := fst <$> last (contents_of proof) in
  let b := right_edge (end_proof proof) lkv last_key in
  is_key last_key -> is_bytes k -> Forall (fun p => is_bytes p.1) (contents_of proof) ->
  Forall (fun n => is_path (pn_key n)) (end_proof proof) ->
  (contents_of proof <> [] \/ last_key <> None \/ end_proof proof = []) ->
  right_edge_ok MerkleDB proof root b ->
  compute_outside_children (end_proof proof) (BoundaryRight b) = Ok (marks, c) ->
  below_end (proven_right_edge b lkv last_key) k -> nibbles_of k = f ++ i :: s -> outside_at marks f i = false.
Proof.
  intros lkv b Hlast Hk Hkvs Hnodes Hgap Hv Hc Hbelow Hp.
  destruct (decide (end_proof proof = [])) as [Hnil|Hne]; [rewrite Hnil in Hc; by apply outside_marks_nil in Hc as ->|].
  pose proof (below_end_within _ _ _ _ Hbelow) as Hwithin. fold b in Hwithin.
  assert (Hlkv : is_key lkv).
  { intros x Hx. unfold lkv in Hx. apply fmap_Some in Hx as ([y v] & Hy & ->). rewrite last_lookup in Hy.
    by apply (proj1 (Forall_lookup _ _) Hkvs _ _ Hy). }
  assert (Hbound : exists bound, right_boundary_key b = Some bound /\ is_bytes bound /\ slice_le k bound = true /\
    linked (nibbles_of bound) (end_proof proof)).
  { destruct b as [[bound|]|bound] eqn:Eb; cbn [right_edge_ok within_right right_boundary_key] in *.
    - exists bound. apply verify_edge_verifies in Hv as [e Hv]; [|done].
      assert (is_bytes bound).
      { destruct (right_edge_cases (end_proof proof) lkv last_key) as [Hb|[(l & Hl & Hb)|(l & t & _ & _ & Hb & _)]];
          fold b in Hb; rewrite Eb in Hb; [apply Hlast; by injection Hb | apply Hlkv; by injection Hb as -> | done]. }
      split_and!; [done.. | by eapply verify_linked].
    - exfalso. apply verify_edge_verifies in Hv; [|done].
      assert (Hno : last_key = None).
      { destruct (right_edge_cases (end_proof proof) lkv last_key) as [Hb|[(l & Hl & Hb)|(l & t & _ & _ & Hb & _)]];
          fold b in Hb; rewrite Eb in Hb; [by injection Hb | done | done]. }
      destruct (last (contents_of proof)) as [[ek ev]|] eqn:El.
      + assert (Hek : is_bytes ek) by (by apply Hlkv).
        pose proof (right_edge_anchored _ _ _ _ last_key Hek Hv) as Hb. unfold b, lkv in Eb. simpl in Eb. congruence.
      + apply last_None in El. by destruct Hgap as [?|[?|?]].
    - exists bound. destruct Hv as [_ [d Hd]].
      assert (is_bytes bound).
      { destruct (right_edge_cases (end_proof proof) lkv last_key) as [Hb|[(l & Hl & Hb)|(l & t & _ & Ht & Hb & _)]];
          fold b in Hb; rewrite Eb in Hb; [done..|]. injection Hb as ->. rewrite last_lookup in Ht.
        apply bytes_iter_bytes. by apply (proj1 (Forall_lookup _ _) Hnodes _ _ Ht). }
      apply slice_ltb_lt in Hwithin. apply proof_value_digest_Ok in Hd as (l & _ & Hloop & _); [|done].
      split_and!; [done | done | by apply slice_le_total | by eapply verify_loop_linked]. }
  destruct Hbound as (bound & Hbk & Hbb & Hle & Hlinked).
  apply (near_side_unmarked (BoundaryRight b) bound marks k f i s); [done | done | | done | done].
  eapply outside_marks_ok; done.
Qed.

(** No slot on the way to a key of the proven range is marked. *)
Lemma in_range_unmarked proof first_key last_key root s sc e ec k f i q :
  let lkv := fst <$> last (contents_of proof) in
  let b := right_edge (end_proof proof) lkv last_key in
  Forall (proof_node_wf MerkleDB) (start_proof proof ++ end_proof proof) -> Forall pair_wf (contents_of proof) ->
  is_key first_key -> is_key last_key -> (contents_of proof <> [] \/ last_key <> None \/ end_proof proof = []) ->
  (first_key = None -> start_proof proof = []) ->
  verify_edge MerkleDB first_key (head (contents_of proof)) (start_proof proof) root LeftEdge = Ok tt ->
  right_edge_ok MerkleDB proof root b ->
  compute_outside_children (start_proof proof) (BoundaryLeft first_key) = Ok (s, sc) ->
  compute_outside_children (end_proof proof) (BoundaryRight b) = Ok (e, ec) ->
  is_bytes k -> in_proven (mkProvenRange first_key (proven_right_edge b lkv last_key)) k ->
  nibbles_of k = f ++ i :: q -> outside_at (merge_marks s e) f i = false.
Proof.
  intros lkv b Hnodes Hpairs Hfirst Hlast Hgap Hnone Hleft Hright Hs He Hk [Hab Hbe] Hq.
  destruct (outside_at (merge_marks s e) f i) eqn:Ho; [|done].
  pose proof (is_path_nibbles_of k Hk) as Hip. rewrite Hq in Hip. apply is_path_app in Hip as [_ [Hi _]%is_path_cons].
  apply marks_merge in Ho as [Ho|Ho]; [| |done].
  - by rewrite (left_unmarked first_key _ _ _ s sc k f i q Hfirst Hk Hnone Hleft Hs Hab Hq) in Ho.
  - rewrite (right_unmarked proof last_key root e ec k f i q Hlast Hk) in Ho; try done.
    + eapply Forall_impl; [exact Hpairs|]. by intros [x v] [[? _] _].
    + apply Forall_app in Hnodes as [_ Hend]. eapply Forall_impl; [exact Hend|]. by intros pn [? _].
Qed.

(** ** Acceptance *)

(** The strings that the verifier hashes: the preimages of the nodes of the rebuilt trie,
    and the long values of the pairs. *)
Definition range_strings (proof : FrozenRangeProof) (first_key : option bytes) (b : RightBoundary) : list bytes :=
  (match insert_all MerkleDB (contents_of proof) empty_proposal with
   | (Ok _, ns) =>
       match reconcile_all MerkleDB (start_proof proof ++ end_proof proof) ∅ ns,
             compute_outside_children (start_proof proof) (BoundaryLeft first_key),
             compute_outside_children (end_proof proof) (BoundaryRight b) with
       | (Ok m, ns), Ok (s, _), Ok (e, _) =>
           match ns_root ns with
           | Some r => hybrid_strings m (merge_marks s e) (node_height r) r []
           | None => []
           end
       | _, _, _ => []
       end
   | _ => []
   end) ++ filter (fun v => 32 <= len v) (contents_of proof).*2.

(** The limits of the wire format, under MerkleDB. *)
Definition range_proof_wf (proof : FrozenRangeProof) : Prop :=
  Forall (proof_node_wf MerkleDB) (start_proof proof ++ end_proof proof) /\ Forall pair_wf (contents_of proof).

(** What an accepted root hash means: a rebuilt trie with that hash, which holds the
    pairs under the keys of the range. *)
Lemma root_hash_accepted proof first b root (R : bytes -> Prop) :
  range_proof_wf proof -> keys_ascend (contents_of proof) = true ->
  (forall k, R k -> is_bytes k) ->
  (forall pn v, pn ∈ start_proof proof ++ end_proof proof -> pn_value_digest pn = Some (DigestValue v) ->
     Nat.even (length (pn_key pn)) = true -> R (bytes_iter (pn_key pn)) ->
     kv_find (contents_of proof) (bytes_iter (pn_key pn)) = Some v) ->
  verify_range_proof_root_hash MerkleDB proof first b root = Ok tt ->
  exists m s sc e ec n u,
    compute_outside_children (start_proof proof) (BoundaryLeft first) = Ok (s, sc) /\
    compute_outside_children (end_proof proof) (BoundaryRight b) = Ok (e, ec) /\
    (forall f pn, m !! f = Some pn -> pn ∈ start_proof proof ++ end_proof proof /\ pn_key pn = f) /\
    rebuilt blank (Z.to_nat MAX_KEY_NIBBLES) n u [] /\ handles u = [] /\
    (forall k, R k -> tget u (nibbles_of k) = kv_find (contents_of proof) k) /\
    hybrid_hash m (merge_marks s e) (node_height n) n [] = Hash root /\
    hybrid_strings m (merge_marks s e) (node_height n) n [] ⊆ range_strings proof first b.
Proof.
  intros [Hnodes Hpairs] Hasc HR Hvals Hv. set (L := Z.to_nat MAX_KEY_NIBBLES).
  assert (Hn : Forall (fun pn => is_path (pn_key pn) /\ (length (pn_key pn) <= L)%nat) (start_proof proof ++ end_proof proof)).
  { eapply Forall_impl; [exact Hnodes|]. intros pn (Hp & Hl & _). split; [done|]. unfold L. lia. }
  destruct (building_insert_all L (contents_of proof) empty_proposal None (building_empty L)) as (ns & u0 & Hins & Hb0 & _ & Hg0); [|done|].
  { eapply Forall_impl; [exact Hpairs|]. intros [k v] [[Hk Hl] _]. simpl in *. split; [done|].
    unfold L, MAX_KEY_NIBBLES, MAX_KEY_BYTES in *. lia. }
  unfold verify_range_proof_root_hash in Hv. unfold range_strings. rewrite Hins in Hv |- *.
  destruct (reconcile_all _ _ _ _) as [[m|] ns'] eqn:Hrec; [|done].
  apply bind_Ok in Hv as ([s sc] & Hs & Hv). apply bind_Ok in Hv as ([e ec] & He & Hv). rewrite Hs, He.
  destruct (building_reconcile_all L (start_proof proof ++ end_proof proof) ∅ ns u0 m ns' (fun k => exists b, R b /\ k = nibbles_of b)
    (fun k => kv_find (contents_of proof) (bytes_iter k)) Hb0 Hn) as (u & Hb & Hg & _ & Hm); [| |done|].
  { intros k (x & Hx & ->). split; [by apply is_path_nibbles_of, HR|]. rewrite Hg0 by auto. rewrite bytes_iter_nibbles_of. by destruct (kv_find _ _). }
  { intros pn v Hin Hd Hev (x & Hx & Hk). apply Hvals; [done.. |]. by rewrite Hk, bytes_iter_nibbles_of. }
  destruct (ns_root ns') as [n|] eqn:Hroot; [|done]. destruct Hb as [Hh Hr Hw Hmem Hp]. rewrite Hroot in Hr.
  destruct u as [u|]; [|done].
  assert (Hmem' : forall f pn, m !! f = Some pn -> pn ∈ start_proof proof ++ end_proof proof /\ pn_key pn = f).
  { intros f pn Hf. destruct (Hm f pn Hf) as [Hempty|]; [by rewrite lookup_empty in Hempty | done]. }
  assert (Hwfn : forall f pn, m !! f = Some pn -> Children_wf (pn_child_hashes pn)).
  { intros f pn Hf. destruct (Hmem' f pn Hf) as [Hin _]. by apply (proj1 (Forall_forall _ _) Hnodes). }
  assert (Hpl : placed MerkleDB blank [] n) by (eapply memory_placed; [exact Hr | by apply Hw | done]).
  rewrite (compute_root_hash_ok m (merge_marks s e) Hwfn blank _ n [] ns' Hpl (le_n _)) in Hv.
  destruct (HashType_eq _ _) eqn:Heq; [|done].
  exists m, s, sc, e, ec, n, u. split_and!; [done | done | done | | done | | |].
  - split; [done | done | by apply Hw | constructor | by apply Hp].
  - intros k Hk. specialize (Hg (nibbles_of k) ltac:(by exists k)). simpl in Hg. by rewrite Hg, bytes_iter_nibbles_of.
  - destruct (node_height n); simpl in *; unfold merkledb_to_hash in *; cbn [HashType_eq] in Heq; apply bool_decide_eq_true in Heq; by rewrite Heq.
  - intros x Hx. apply elem_of_app. by left.
Qed.

(** C6: an accepted range proof is true of the trie.  If a proof within the limits of the
    wire format verifies under MerkleDB against the root hash of a trie, then under
    every key of the returned range the trie holds exactly what the pairs of the proof
    say, a value or nothing; otherwise SHA-256 collides on two different strings, one
    hashed by the verifier and one hashed for the trie.  Two cases are excepted, and
    [RangeGaps] shows that they have to be: a key without a pair where a node of the
    proof carries the hash of a value, and an end proof for a range without an upper
    bound and without pairs. *)
Theorem range_proof_sound t first_key last_key proof proven k :
  trie_wf t -> paths_fit (tpath t) t -> range_proof_wf proof -> is_key first_key -> is_key last_key ->
  (contents_of proof <> [] \/ last_key <> None \/ end_proof proof = []) ->
  verify_range_proof MerkleDB first_key last_key (into_triehash (troot_hash MerkleDB t)) proof = Ok proven ->
  is_bytes k -> in_proven proven k ->
  tget t (nibbles_of k) = kv_find (contents_of proof) k \/
  (kv_find (contents_of proof) k = None /\
   exists pn h, pn ∈ start_proof proof ++ end_proof proof /\ pn_key pn = nibbles_of k /\ pn_value_digest pn = Some (DigestHash h)) \/
  collision (range_strings proof first_key (right_edge (end_proof proof) (fst <$> last (contents_of proof)) last_key))
    (preimages (tpath t) t).
Proof.
  intros Hwf Hfit Hpwf Hfirst Hlast Hgap Hv Hk Hin. set (lkv := fst <$> last (contents_of proof)).
  set (b := right_edge (end_proof proof) lkv last_key).
  apply verify_range_proof_Ok in Hv as ((_ & _ & Hasc & _ & _ & Hnone & _) & Hleft & Hright & Hvals & Hroot & ->).
  fold lkv b in Hright, Hvals, Hroot, Hin. pose proof Hpwf as [Hnodes Hpairs].
  set (R := fun x => is_bytes x /\ in_proven (mkProvenRange first_key (proven_right_edge b lkv last_key)) x).
  destruct (root_hash_accepted proof first_key b (into_triehash (troot_hash MerkleDB t)) R Hpwf Hasc) as (m & s & sc & e & ec & n & u & Hs & He & Hm & Hu & Hmem & HR & Hhash & Hstr);
    [by intros x [? _] | | done |].
  { intros pn v Hpn Hd Hev [Hx [Hab Hbe]]. eapply proof_node_values_ok; try done. by eapply below_end_within. }
  pose proof (is_path_nibbles_of k Hk) as Hkp.
  assert (Huk : tget u (nibbles_of k) = kv_find (contents_of proof) k) by (by apply HR).
  destruct (decide (tget u (nibbles_of k) = None /\ m !! nibbles_of k ≫= pn_value_digest <> None)) as [[Hno Hfill]|Hfill].
  { destruct (m !! nibbles_of k) as [pn|] eqn:Hpn; [|done]. destruct (Hm _ _ Hpn) as [Hpin Hpk]. cbn [mbind option_bind] in Hfill.
    destruct (pn_value_digest pn) as [[v|h]|] eqn:Hdig; [exfalso | | done].
    - destruct Hin as [Hab Hbe]. pose proof (proof_node_values_ok _ _ _ _ pn v Hvals Hpin Hdig) as Hfound.
      rewrite Hpk, bytes_iter_nibbles_of, length_nibbles_of in Hfound. rewrite Huk, Hfound in Hno;
        [done | apply Nat.even_spec; by exists (length k) | by apply below_end_within | done].
    - right. left. split; [congruence|]. by exists pn, h. }
  destruct (hybrid_binding m (merge_marks s e) blank (Z.to_nat MAX_KEY_NIBBLES)) with (fuel := node_height n) (n := n) (u := u)
    (pfx := [] : Path) (t := t) (r := nibbles_of k) as [Hd|Hcol]; try done.
  { intros f pn Hf. destruct (Hm f pn Hf) as [Hpn _]. by apply accepted_hashable_ok, (proj1 (Forall_forall _ _) Hnodes). }
  { intros f i q Hq. left. by eapply (in_range_unmarked proof first_key last_key). }
  { intros Hno. simpl. destruct (m !! nibbles_of k ≫= pn_value_digest) eqn:E; [|done]. by destruct Hfill. }
  { rewrite Hhash. unfold troot_hash. by rewrite !thash_merkledb. }
  - rewrite Huk in Hd. destruct (digest_bytes_inj _ _ Hd) as [->|(x & y & Hx & Hy & Hlx & Hly & Hne & Hsh)]; [by left|].
    right. right. exists x, y. split_and!; [|by eapply tget_preimages | done | done]. apply elem_of_app. right.
    apply list_elem_of_filter. split; [done|]. by eapply kv_find_value.
  - destruct Hcol as [Hcol|[Hcol _]]; [|done]. right. right. by eapply collision_mono.
Qed.

End RangeSound.

(** ** Witness: one key of a trie with two *)
Section RangeWitness.
Import Leb128 FirstBytes.

Definition w_range_one : FrozenRangeProof := mkEdgeProofs w_proof w_proof [([97], [7])] MerkleDB.

Lemma w_range_sound_wf : range_proof_wf w_range_one.
Proof.
  assert (Hb : small_bytes [9] /\ small_bytes [7]) by (split; (split; [repeat constructor; ulia | by vm_compute])).
  assert (Hroot : proof_node_wf MerkleDB (mkProofNode [] 0 (Some (DigestValue [9])) (kid_hashes MerkleDB [] (tkids (w_bound None))))).
  { split_and!; try done; [by apply Forall_nil | intros d [= <-]; apply Hb |]. intros i h Hi. cbn [pn_child_hashes].
    destruct (decide (i = 6)) as [->|Hne].
    - intros [= <-]. vm_compute. split; [done | repeat constructor; done].
    - rewrite kid_hashes_get by done. cbn [w_bound tkids].
      rewrite Children_get_set_ne by (done || split; lia). by rewrite Children_get_new. }
  assert (Hleaf : proof_node_wf MerkleDB (mkProofNode [6; 1] 1 (Some (DigestValue [7])) Children_new)).
  { split_and!; try done; [cbn; repeat constructor; lia | cbn; lia | intros d [= <-]; apply Hb |]. intros i h _. cbn [pn_child_hashes]. by rewrite Children_get_new. }
  split; [repeat (apply Forall_cons; split; [done|]); by apply Forall_nil|]. constructor; [|constructor].
  split; [|apply Hb]. split; [repeat constructor; ulia | by vm_compute].
Qed.

Lemma range_proof_sound_witness :
  tget (w_bound None) (nibbles_of [97]) = kv_find (contents_of w_range_one) [97] \/
  (kv_find (contents_of w_range_one) [97] = None /\
   exists pn h, pn ∈ start_proof w_range_one ++ end_proof w_range_one /\ pn_key pn = nibbles_of [97] /\ pn_value_digest pn = Some (DigestHash h)) \/
  collision (range_strings w_range_one (Some [97]) (right_edge (end_proof w_range_one) (fst <$> last (contents_of w_range_one)) (Some [97])))
    (preimages (tpath (w_bound None)) (w_bound None)).
Proof.
  apply (range_proof_sound (w_bound None) (Some [97]) (Some [97]) w_range_one (mkProvenRange (Some [97]) (Some [97])) [97]
    (proj1 (w_bound_wf None)) (proj2 (w_bound_wf None)) w_range_sound_wf).
  - intros x [= <-]. repeat constructor; ulia.
  - intros x [= <-]. repeat constructor; ulia.
  - by left.
  - vm_compute. reflexivity.
  - repeat constructor; ulia.
  - by split; intros x [= <-].
Defined.

End RangeWitness.
