(* ===== verification/RevManager.v ===== *)
(** * The revision manager

    [firewood/src/manager.rs], with the parents of proposals of
    [storage/src/nodestore/mod.rs] and the proposals of [firewood/src/db.rs]: the
    queue of committed revisions, the index by root hash, the open proposals, and the
    rule that decides which proposal may be committed. *)

From S2P Require Import Prelude Primitives NodePath Node Codec NodeCodec Rlp Hashing PersistWorker.

(** ** Revisions and proposals *)

Definition CommittedId : Type := Z.

(** [Committed]. *)
Record Committed : Type := mkCommitted {
  c_deleted : list MaybePersisted;
  c_root : option Child;
  c_id : CommittedId;
}.

(** An [Arc<ImmutableProposal>], up to [Arc::ptr_eq]. *)
Definition proposal_ref : Type := positive.

Inductive NodeStoreParent : Type :=
| Proposed (p : proposal_ref)
| CommittedParent (hash : option TrieHash) (id : CommittedId).

(** [ImmutableProposal]; the parent is behind a mutex and changes. *)
Record ImmutableProposal : Type := mkProposal {
  p_deleted : list MaybePersisted;
  p_parent : NodeStoreParent;
  p_root : option Child;
}.

(** [CommittedParentHash]. *)
Inductive CommittedParentHash : Type :=
| ParentHash (hash : option TrieHash)
| NotCommitted.

(** [ImmutableProposal::parent_id_is]. *)
Definition parent_id_is (p : ImmutableProposal) (id : CommittedId) : bool :=
  match p_parent p with
  | CommittedParent _ parent_id => parent_id =? id
  | Proposed _ => false
  end.

(** [ImmutableProposal::committed_parent_hash]. *)
Definition committed_parent_hash (p : ImmutableProposal) : CommittedParentHash :=
  match p_parent p with
  | CommittedParent hash _ => ParentHash hash
  | Proposed _ => NotCommitted
  end.

(** [RevisionManagerError]; [PersistFailed], [RootStoreFailed] and [ManagerIo] are its variants for
    the errors of the worker, of the root store, and of files and directories. *)
Inductive RevisionManagerError : Type :=
| RevisionNotFound (provided : TrieHash)
| RevisionWithoutAddress (provided : TrieHash)
| ManagerIo (e : io_error)
| NotLatest (provided expected : option TrieHash)
| RootStoreFailed
| PersistFailed (e : PersistError)
| InsufficientRevisions (max_revisions max_persistence_gap : Z).

(** The errors that applying a batch returns ([CreateProposalError]). *)
Inductive batch_error : Type :=
| BatchFileIo (e : io_error)
| BatchSendError
| BatchInvalidComponent
| BatchKeyTooLong (len max : Z)
| BatchEmptyValue.

(** An error that is returned ([api::Error]), or a panic; [BatchRefused] is its variants for what can be wrong
    with a batch itself. *)
Inductive stop : Type :=
| Raise (e : RevisionManagerError)
| ParentNotCommitted
| FileIoFailed (e : io_error)
| BatchRefused (e : batch_error)
| ManagerPanic.

(** [From<CreateProposalError> for Error]. *)
Definition Error_from_batch (e : batch_error) : stop :=
  match e with BatchFileIo e => FileIoFailed e | e => BatchRefused e end.

(** ** The state *)

Record RevisionManager : Type := mkManager {
  max_revisions : Z;
  in_memory_revisions : list Committed;
  by_hash : gmap TrieHash Committed;
  proposals : list proposal_ref;
  (** What the [Arc]s of proposals point to. *)
  arena : gmap proposal_ref ImmutableProposal;
  (** The counter of [CommittedId::next]. *)
  next_raw : Z;
  (** Whether there is a [RootStore]. *)
  root_store : bool;
}.

Definition set_revisions (r : list Committed) (m : RevisionManager) : RevisionManager :=
  mkManager (max_revisions m) r (by_hash m) (proposals m) (arena m) (next_raw m) (root_store m).
Definition set_by_hash (b : gmap TrieHash Committed) (m : RevisionManager) : RevisionManager :=
  mkManager (max_revisions m) (in_memory_revisions m) b (proposals m) (arena m) (next_raw m) (root_store m).
Definition set_proposals (l : list proposal_ref) (m : RevisionManager) : RevisionManager :=
  mkManager (max_revisions m) (in_memory_revisions m) (by_hash m) l (arena m) (next_raw m) (root_store m).
Definition set_arena (a : gmap proposal_ref ImmutableProposal) (m : RevisionManager) : RevisionManager :=
  mkManager (max_revisions m) (in_memory_revisions m) (by_hash m) (proposals m) a (next_raw m) (root_store m).
Definition set_next_raw (n : Z) (m : RevisionManager) : RevisionManager :=
  mkManager (max_revisions m) (in_memory_revisions m) (by_hash m) (proposals m) (arena m) n (root_store m).

(** What an operation meets: the answers of the persist worker, which revisions and proposals are
    referenced from outside of the manager, and what the root store and the file hold. *)
Record surroundings : Type := mkSurroundings {
  worker_error : option PersistError;
  worker_reap : Committed -> result PersistError unit;
  worker_submit : Committed -> result PersistError unit;
  still_referenced : Committed -> bool;
  handle_held : proposal_ref -> bool;
  (** The key-value store of the root store, its cache of revisions that are still alive, and the
      file it reads roots from. *)
  store_items : TrieHash -> result unit (option bytes);
  store_cached : TrieHash -> option Committed;
  file_header : result io_error unit;
  file_node : LinearAddress -> result io_error Node;
}.

Section Manager.
Context `{Digests} `{VarInt}.
Variable alg : NodeHashAlgorithm.

(** [Parentable::root_hash]. *)
Definition root_hash_of (root : option Child) : option TrieHash := into_triehash <$> (root ≫= Child_hash).

Definition committed_hash (c : Committed) : option TrieHash := root_hash_of (c_root c).
Definition proposal_hash (p : ImmutableProposal) : option TrieHash := root_hash_of (p_root p).

(** [root_hash().or_else(H::default_root_hash)]: the key of a revision in the index. *)
Definition index_key (c : Committed) : option TrieHash :=
  match committed_hash c with Some h => Some h | None => default_root_hash alg end.

(** [DbView::root_hash] of a proposal: that of the scheme's empty trie if it has no root. *)
Definition view_root_hash (p : ImmutableProposal) : option TrieHash :=
  match proposal_hash p with Some h => Some h | None => default_root_hash alg end.

(** [CommittedId::next]. *)
Definition CommittedId_next (m : RevisionManager) : result stop CommittedId * RevisionManager :=
  let raw := next_raw m in
  ((if raw =? 0 then Err ManagerPanic else Ok raw), set_next_raw ((raw + 1) mod (U64_MAX + 1)) m).

(** [RevisionManager::new]: [opening] is what creating the directory, locking the file, reading its
    header, [NodeStore::open] and [RootStore::new] came to, [add_root] writes to the root store. *)
Definition RevisionManager_new (max_revisions max_persistence_gap : Z) (opening : result stop Committed) (next : Z)
  (store : bool) (add_root : TrieHash -> LinearAddress -> result unit unit) : result stop RevisionManager :=
  if max_revisions <=? max_persistence_gap
  then Err (Raise (InsufficientRevisions max_revisions max_persistence_gap))
  else
    match opening with
    | Err e => Err e
    | Ok nodestore =>
        let by_hash := match index_key nodestore with Some hash => {[ hash := nodestore ]} | None => ∅ end in
        let manager := mkManager max_revisions [nodestore] by_hash [] ∅ next store in
        match committed_hash nodestore with
        | None => Ok manager
        | Some root_hash =>
            match c_root nodestore ≫= Child_persisted_address with
            | None => Err (Raise (RevisionWithoutAddress root_hash))
            | Some root_address =>
                if store
                then match add_root root_hash root_address with
                     | Ok _ => Ok manager
                     | Err _ => Err (Raise RootStoreFailed)
                     end
                else Ok manager
            end
        end
    end.

(** [current_revision]. *)
Definition current_revision (m : RevisionManager) : result stop Committed :=
  ok_or (last (in_memory_revisions m)) ManagerPanic.

(** ** Proposals *)

(** [Parentable::as_nodestore_parent]. *)
Definition committed_as_parent (c : Committed) : NodeStoreParent := CommittedParent (committed_hash c) (c_id c).

(** [NodeStore::new] and the conversion to an immutable proposal: the root of the parent
    heads the delete list ([tracked] says whether deletions are tracked), the batch adds
    [deleted] and gives the new root. *)
Definition new_proposal (tracked : bool) (parent : NodeStoreParent) (parent_root : option Child)
  (deleted : list MaybePersisted) (root : option Child) : ImmutableProposal :=
  mkProposal ((if tracked then option_list (as_maybe_persisted_node <$> parent_root) else []) ++ deleted) parent root.

(** [add_proposal]; the new [Arc] differs from every earlier one. *)
Definition add_proposal (p : ImmutableProposal) (m : RevisionManager) : proposal_ref * RevisionManager :=
  let r := fresh (dom (arena m) : gset proposal_ref) in
  (r, set_proposals (proposals m ++ [r]) (set_arena (<[r := p]> (arena m)) m)).

(** [remove_proposal]. *)
Definition remove_proposal (p : proposal_ref) (m : RevisionManager) : RevisionManager :=
  set_proposals (filter (fun q => q <> p) (proposals m)) m.

(** ** Committing *)

(** The loop that removes the oldest revisions: the state after it, with the revisions that
    were handed to the worker.  The queue is the argument of the recursion. *)
Fixpoint reap_oldest (s : surroundings) (limit : Z) (revisions : list Committed) (index : gmap TrieHash Committed)
  : result stop unit * list Committed * gmap TrieHash Committed :=
  if Z.of_nat (length revisions) <? limit then (Ok tt, revisions, index)
  else
    match revisions with
    | [] => (Err ManagerPanic, [], index)
    | oldest :: rest =>
        let index := match index_key oldest with Some hash => delete hash index | None => index end in
        if still_referenced s oldest then (Ok tt, oldest :: rest, index)
        else
          match worker_reap s oldest with
          | Err e => (Err (Raise (PersistFailed e)), rest, index)
          | Ok _ => reap_oldest s limit rest index
          end
    end.

(** [commit_critical_section]. *)
Definition commit_critical_section (s : surroundings) (proposal : ImmutableProposal) (m : RevisionManager)
  : result stop CommittedId * RevisionManager :=
  match worker_error s with
  | Some e => (Err (Raise (PersistFailed e)), m)
  | None =>
      match current_revision m with
      | Err e => (Err e, m)
      | Ok current =>
          if negb (parent_id_is proposal (c_id current))
          then (Err (Raise (NotLatest (proposal_hash proposal) (committed_hash current))), m)
          else if bool_decide (proposal_hash proposal = committed_hash current) then (Ok (c_id current), m)
          else
            match CommittedId_next m with
            | (Err e, m) => (Err e, m)
            | (Ok new_id, m) =>
                (* [as_committed] *)
                let committed := mkCommitted (p_deleted proposal) (p_root proposal) new_id in
                match reap_oldest s (max_revisions m) (in_memory_revisions m) (by_hash m) with
                | (Err e, revisions, index) => (Err e, set_by_hash index (set_revisions revisions m))
                | (Ok _, revisions, index) =>
                    match worker_submit s committed with
                    | Err e => (Err (Raise (PersistFailed e)), set_by_hash index (set_revisions revisions m))
                    | Ok _ =>
                        let index := match index_key committed with Some hash => <[hash := committed]> index | None => index end in
                        (Ok new_id, set_by_hash index (set_revisions (revisions ++ [committed]) m))
                    end
                end
            end
      end
  end.

(** [ImmutableProposal::commit_reparent]. *)
Definition commit_reparent (committing : proposal_ref) (hash : option TrieHash) (new_id : CommittedId)
  (p : ImmutableProposal) : ImmutableProposal :=
  match p_parent p with
  | Proposed parent =>
      if bool_decide (parent = committing) then mkProposal (p_deleted p) (CommittedParent hash new_id) (p_root p) else p
  | CommittedParent _ _ => p
  end.

(** [commit_cleanup]. *)
Definition commit_cleanup (s : surroundings) (proposal : proposal_ref) (new_id : CommittedId) (m : RevisionManager)
  : RevisionManager :=
  let survivors := filter (fun p => p <> proposal /\ handle_held s p = true) (proposals m) in
  let hash := arena m !! proposal ≫= proposal_hash in
  let arena' := map_imap (fun q p => Some (if bool_decide (q ∈ survivors) then commit_reparent proposal hash new_id p else p)) (arena m) in
  set_arena arena' (set_proposals survivors m).

(** [RevisionManager::commit], and [Proposal::commit]. *)
Definition commit (s : surroundings) (proposal : proposal_ref) (m : RevisionManager) : result stop CommittedId * RevisionManager :=
  match arena m !! proposal with
  | None => (Err ManagerPanic, m)
  | Some p =>
      match commit_critical_section s p m with
      | (Ok new_id, m) => (Ok new_id, commit_cleanup s proposal new_id m)
      | (Err e, m) => (Err e, m)
      end
  end.

(** ** Looking up *)

(** [NodeStore::new_empty_committed]. *)
Definition new_empty_committed (m : RevisionManager) : result stop Committed * RevisionManager :=
  match CommittedId_next m with
  | (Ok id, m) => (Ok (mkCommitted [] None id), m)
  | (Err e, m) => (Err e, m)
  end.

(** [NodeStore::with_root]. *)
Definition with_root (s : surroundings) (root_hash : HashType) (root_address : LinearAddress) (m : RevisionManager)
  : result stop Committed * RevisionManager :=
  match file_header s with
  | Err e => (Err (FileIoFailed e), m)
  | Ok _ =>
      match CommittedId_next m with
      | (Err e, m) => (Err e, m)
      | (Ok id, m) =>
          match file_node s root_address with
          | Err e => (Err (FileIoFailed e), m)
          | Ok node =>
              match hash_node alg node [] with
              | Err _ => (Err ManagerPanic, m)
              | Ok hash =>
                  if HashType_eq hash root_hash
                  then (Ok (mkCommitted [] (Some (AddressWithHash root_address root_hash)) id), m)
                  else (Err (FileIoFailed OtherError), m)
              end
          end
      end
  end.

(** [RootStore::get]; its error carries the error of what failed, which its caller does not look at. *)
Definition RootStore_get (s : surroundings) (hash : TrieHash) (m : RevisionManager)
  : result stop (option Committed) * RevisionManager :=
  match store_cached s hash with
  | Some v => (Ok (Some v), m)
  | None =>
      match store_items s hash with
      | Err _ => (Err (Raise RootStoreFailed), m)
      | Ok None => (Ok None, m)
      | Ok (Some v) =>
          if negb (Nat.eqb (length v) 8) then (Err (Raise RootStoreFailed), m)
          else
            match LinearAddress_new (from_le_bytes (rev v)) with
            | None => (Err (Raise RootStoreFailed), m)
            | Some addr =>
                match with_root s (Hash hash) addr m with
                | (Ok nodestore, m) => (Ok (Some nodestore), m)
                | (Err ManagerPanic, m) => (Err ManagerPanic, m)
                | (Err _, m) => (Err (Raise RootStoreFailed), m)
                end
            end
      end
  end.

(** [RevisionManager::revision]. *)
Definition revision (s : surroundings) (hash : TrieHash) (m : RevisionManager) : result stop Committed * RevisionManager :=
  match by_hash m !! hash with
  | Some r => (Ok r, m)
  | None =>
      if bool_decide (default_root_hash alg = Some hash) then new_empty_committed m
      else if negb (root_store m) then (Err (Raise (RevisionNotFound hash)), m)
      else
        match RootStore_get s hash m with
        | (Err e, m) => (Err e, m)
        | (Ok None, m) => (Err (Raise (RevisionNotFound hash)), m)
        | (Ok (Some revision), m) => (Ok revision, m)
        end
  end.

(** [RevisionManager::view]: an open proposal, or a revision. *)
Definition view (s : surroundings) (hash : TrieHash) (m : RevisionManager) : result stop (proposal_ref + Committed) * RevisionManager :=
  match List.find (fun p => bool_decide (arena m !! p ≫= proposal_hash = Some hash)) (proposals m) with
  | Some p => (Ok (inl p), m)
  | None =>
      match revision s hash m with
      | (Ok r, m) => (Ok (inr r), m)
      | (Err e, m) => (Err e, m)
      end
  end.

(** ** Proposing and rebasing *)

(** [propose_with_parent]: [batch] is what applying the batch to the parent's trie and hashing
    the result gives, the delete list and the root. *)
Definition propose_with_parent (s : surroundings) (tracked : bool) (parent : NodeStoreParent) (parent_root : option Child)
  (batch : result batch_error (list MaybePersisted * option Child)) (m : RevisionManager)
  : result stop proposal_ref * RevisionManager :=
  match worker_error s with
  | Some e => (Err (Raise (PersistFailed e)), m)
  | None =>
      match batch with
      | Err e => (Err (Error_from_batch e), m)
      | Ok (deleted, root) =>
          let (r, m) := add_proposal (new_proposal tracked parent parent_root deleted root) m in (Ok r, m)
      end
  end.

(** [Db::propose]. *)
Definition Db_propose (s : surroundings) (tracked : bool) (batch : result batch_error (list MaybePersisted * option Child))
  (m : RevisionManager) : result stop proposal_ref * RevisionManager :=
  match current_revision m with
  | Err e => (Err e, m)
  | Ok current => propose_with_parent s tracked (committed_as_parent current) (c_root current) batch m
  end.

(** [Proposal::propose]. *)
Definition Proposal_propose (s : surroundings) (tracked : bool) (parent : proposal_ref)
  (batch : result batch_error (list MaybePersisted * option Child)) (m : RevisionManager) : result stop proposal_ref * RevisionManager :=
  match arena m !! parent with
  | None => (Err ManagerPanic, m)
  | Some p => propose_with_parent s tracked (Proposed parent) (p_root p) batch m
  end.

(** The end of [commit_with_rebase]: committing under the lock that is already held. *)
Definition commit_locked (s : surroundings) (target : proposal_ref) (m : RevisionManager)
  : result stop (option TrieHash) * RevisionManager :=
  match arena m !! target with
  | None => (Err ManagerPanic, m)
  | Some q =>
      match commit_critical_section s q m with
      | (Ok new_id, m) => (Ok (view_root_hash q), commit_cleanup s target new_id m)
      | (Err e, m) => (Err e, m)
      end
  end.

(** The parent that a stale proposal was made from. *)
Definition find_old_parent (s : surroundings) (parent_hash : option TrieHash) (m : RevisionManager)
  : result stop (option Committed) * RevisionManager :=
  match parent_hash with
  | None => (Ok None, m)
  | Some hash =>
      match revision s hash m with
      | (Ok r, m) => (Ok (Some r), m)
      | (Err e, m) => (Err e, m)
      end
  end.

(** That parent, or an empty revision ([empty_committed_sibling]). *)
Definition old_parent_or_empty (found : option Committed) (m : RevisionManager) : result stop Committed * RevisionManager :=
  match found with Some r => (Ok r, m) | None => new_empty_committed m end.

(** The part of [commit_with_rebase] for a stale proposal: [diff] is the difference of the old parent
    and the proposal, [apply] what applying it to a revision gives. *)
Definition rebase {batch : Type} (s : surroundings) (tracked : bool)
  (diff : Committed -> ImmutableProposal -> result io_error batch)
  (apply : batch -> Committed -> result batch_error (list MaybePersisted * option Child))
  (proposal : proposal_ref) (p : ImmutableProposal) (current : Committed) (m : RevisionManager)
  : result stop proposal_ref * RevisionManager :=
  match committed_parent_hash p with
  | NotCommitted => (Err ParentNotCommitted, m)
  | ParentHash parent_hash =>
      match find_old_parent s parent_hash m with
      | (Err e, m) => (Err e, m)
      | (Ok found, m) =>
          match old_parent_or_empty found (remove_proposal proposal m) with
          | (Err e, m) => (Err e, m)
          | (Ok old_parent, m) =>
              match diff old_parent p with
              | Err e => (Err (FileIoFailed e), m)
              | Ok ops => propose_with_parent s tracked (committed_as_parent current) (c_root current) (apply ops current) m
              end
          end
      end
  end.

(** [Proposal::commit_with_rebase]. *)
Definition commit_with_rebase {batch : Type} (s : surroundings) (tracked : bool)
  (diff : Committed -> ImmutableProposal -> result io_error batch)
  (apply : batch -> Committed -> result batch_error (list MaybePersisted * option Child))
  (proposal : proposal_ref) (m : RevisionManager) : result stop (option TrieHash) * RevisionManager :=
  match arena m !! proposal, current_revision m with
  | None, _ => (Err ManagerPanic, m)
  | _, Err e => (Err e, m)
  | Some p, Ok current =>
      if parent_id_is p (c_id current) then commit_locked s proposal m
      else
        match rebase s tracked diff apply proposal p current m with
        | (Err e, m) => (Err e, m)
        | (Ok target, m) => commit_locked s target m
        end
  end.

End Manager.
