(* ===== verification/RevManagerCorrect.v ===== *)
(** * What the revision manager guarantees

    The invariant of the manager, that every operation keeps it and none panics, the size
    of the queue, and that a proposal is committed only on top of the state that it was
    computed from. *)

From stdpp Require Import sorting.
From S2P Require Import Prelude Primitives NodePath Node Codec NodeCodec Rlp Hashing PersistWorker RevManager.

(** ** Lists *)

Lemma StronglySorted_snoc {A} (R : A -> A -> Prop) l x :
  StronglySorted R l -> Forall (fun y => R y x) l -> StronglySorted R (l ++ [x]).
Proof.
  intros Hl Hx. apply StronglySorted_app_2; [|done|repeat constructor].
  intros y z Hy ->%list_elem_of_singleton. rewrite Forall_forall in Hx. auto.
Qed.

Lemma sorted_ids_unique (l : list Committed) c d :
  StronglySorted Z.lt (c_id <$> l) -> c ∈ l -> d ∈ l -> c_id c = c_id d -> c = d.
Proof.
  induction l as [|x l IH]; intros Hs Hc Hd Heq; [by apply not_elem_of_nil in Hc|].
  cbn in Hs. inversion Hs as [|? ? Hs' Hx]; subst. rewrite Forall_fmap, Forall_forall in Hx.
  apply elem_of_cons in Hc as [->|Hc]; apply elem_of_cons in Hd as [->|Hd]; [done| | |by auto].
  - specialize (Hx _ Hd). cbn in Hx. lia.
  - specialize (Hx _ Hc). cbn in Hx. lia.
Qed.

Section ManagerCorrect.
Context `{Digests} `{VarInt}.
Variable alg : NodeHashAlgorithm.

(** ** The invariant *)

(** The queue is never empty, and the identifiers grow along it. *)
Record revisions_ok (next : Z) (queue : list Committed) : Prop := {
  queue_nonempty : queue <> [];
  queue_sorted : StronglySorted Z.lt (c_id <$> queue);
  queue_ids : Forall (fun c => 0 < c_id c < next) queue;
}.

(** What the index answers is in the queue and has the hash asked for. *)
Definition index_ok (queue : list Committed) (index : gmap TrieHash Committed) : Prop :=
  forall h c, index !! h = Some c -> index_key alg c = Some h /\ c ∈ queue.

(** A proposal's parent is a proposal, or a revision that had the recorded hash. *)
Definition parent_ok (next : Z) (queue : list Committed) (known : gmap proposal_ref ImmutableProposal)
  (parent : NodeStoreParent) : Prop :=
  match parent with
  | Proposed q => is_Some (known !! q)
  | CommittedParent hash id => 0 < id < next /\ forall c, c ∈ queue -> c_id c = id -> committed_hash c = hash
  end.

Definition parents_ok (next : Z) (queue : list Committed) (known : gmap proposal_ref ImmutableProposal) : Prop :=
  forall r p, known !! r = Some p -> parent_ok next queue known (p_parent p).

Record manager_ok (m : RevisionManager) : Prop := {
  ok_limit : 2 <= max_revisions m;
  ok_next : 0 < next_raw m <= U64_MAX;
  ok_revisions : revisions_ok (next_raw m) (in_memory_revisions m);
  ok_index : index_ok (in_memory_revisions m) (by_hash m);
  ok_parents : parents_ok (next_raw m) (in_memory_revisions m) (arena m);
  ok_proposals_nodup : NoDup (proposals m);
  ok_proposals : forall p, p ∈ proposals m -> is_Some (arena m !! p);
}.

(** ** Reaping *)

(** What is left is the end of the queue, and the index stays sound. *)
Lemma reap_oldest_suffix s limit queue index res queue' index' :
  reap_oldest alg s limit queue index = (res, queue', index') -> index_ok queue index ->
  exists reaped, queue = reaped ++ queue' /\ index_ok queue' index'.
Proof.
  revert index. induction queue as [|c queue IH]; intros index Hr Hi; cbn [reap_oldest] in Hr.
  - destruct (_ <? _); simplify_eq; by exists [].
  - destruct (_ <? _); [simplify_eq; by exists []|].
    assert (Hi' : index_ok queue (match index_key alg c with Some hash => delete hash index | None => index end)).
    { intros h d Hd. destruct (index_key alg c) as [k|] eqn:Hk.
      - apply lookup_delete_Some in Hd as [Hne Hd]. apply Hi in Hd as [Hd [->|Hin]%elem_of_cons]; [congruence|done].
      - apply Hi in Hd as [Hd [->|Hin]%elem_of_cons]; [congruence|done]. }
    destruct (still_referenced s c).
    + simplify_eq. exists []. split; [done|]. intros h d Hd. apply Hi' in Hd as [? ?].
      split; [done|]. by right.
    + destruct (worker_reap s c).
      * apply IH in Hr as (reaped & -> & Hok); [|done]. by exists (c :: reaped).
      * simplify_eq. by exists [c].
Qed.

(** With a limit of two at least, the loop leaves a revision, and it does not panic. *)
Lemma reap_oldest_nonempty s limit queue index res queue' index' :
  2 <= limit -> queue <> [] -> reap_oldest alg s limit queue index = (res, queue', index') ->
  queue' <> [] /\ (forall e, res = Err e -> exists e', e = Raise (PersistFailed e')).
Proof.
  intros Hlimit. revert index. induction queue as [|c queue IH]; intros index Hne Hr; [done|].
  cbn [reap_oldest] in Hr. destruct (_ <? _) eqn:Hlen; [simplify_eq; by split|].
  assert (Hq : queue <> []). { intros ->. apply Z.ltb_ge in Hlen. cbn in Hlen. lia. }
  destruct (still_referenced s c); [simplify_eq; by split|].
  destruct (worker_reap s c) as [|e]; [by eauto|simplify_eq; split; [done|]; naive_solver].
Qed.

(** The loop stops below the limit, unless the oldest revision is referenced. *)
Lemma reap_oldest_length s limit queue index queue' index' :
  reap_oldest alg s limit queue index = (Ok tt, queue', index') ->
  Z.of_nat (length queue') < limit \/ (exists c rest, queue' = c :: rest /\ still_referenced s c = true).
Proof.
  revert index. induction queue as [|c queue IH]; intros index Hr; cbn [reap_oldest] in Hr.
  - destruct (_ <? _) eqn:Hlen; simplify_eq. left. lia.
  - destruct (_ <? _) eqn:Hlen; [simplify_eq; left; lia|].
    destruct (still_referenced s c) eqn:Hc; [simplify_eq; right; by exists c, queue|].
    destruct (worker_reap s c); simplify_eq. by eauto.
Qed.

(** ** The critical section *)

(** The state with the revisions, the index and the counter replaced. *)
Definition with_history (queue : list Committed) (index : gmap TrieHash Committed) (next : Z) (m : RevisionManager)
  : RevisionManager :=
  set_by_hash index (set_revisions queue (set_next_raw next m)).

Definition index_insert (c : Committed) (index : gmap TrieHash Committed) : gmap TrieHash Committed :=
  match index_key alg c with Some hash => <[hash := c]> index | None => index end.

(** What the critical section can do. *)
Inductive critical_outcome (s : surroundings) (p : ImmutableProposal) (m : RevisionManager)
  : result stop CommittedId * RevisionManager -> Prop :=
| critical_failed e : worker_error s = Some e -> critical_outcome s p m (Err (Raise (PersistFailed e)), m)
| critical_stale current :
    last (in_memory_revisions m) = Some current -> parent_id_is p (c_id current) = false ->
    critical_outcome s p m (Err (Raise (NotLatest (proposal_hash p) (committed_hash current))), m)
| critical_trivial current :
    last (in_memory_revisions m) = Some current -> parent_id_is p (c_id current) = true ->
    proposal_hash p = committed_hash current -> critical_outcome s p m (Ok (c_id current), m)
| critical_lost current reaped queue index e :
    last (in_memory_revisions m) = Some current -> parent_id_is p (c_id current) = true ->
    in_memory_revisions m = reaped ++ queue -> queue <> [] -> index_ok queue index ->
    critical_outcome s p m (Err (Raise (PersistFailed e)), with_history queue index (next_raw m + 1) m)
| critical_committed current reaped queue index :
    last (in_memory_revisions m) = Some current -> parent_id_is p (c_id current) = true ->
    proposal_hash p <> committed_hash current ->
    in_memory_revisions m = reaped ++ queue -> queue <> [] -> index_ok queue index ->
    reap_oldest alg s (max_revisions m) (in_memory_revisions m) (by_hash m) = (Ok tt, queue, index) ->
    critical_outcome s p m
      (Ok (next_raw m),
       let c := mkCommitted (p_deleted p) (p_root p) (next_raw m) in
       with_history (queue ++ [c]) (index_insert c index) (next_raw m + 1) m).

Lemma last_nonempty {A} (l : list A) : l <> [] -> exists x, last l = Some x.
Proof. destruct l as [|x l _] using rev_ind; [done|]. intros _. exists x. apply last_snoc. Qed.

Lemma critical_section_outcome s p m :
  manager_ok m -> next_raw m < U64_MAX -> critical_outcome s p m (commit_critical_section alg s p m).
Proof.
  intros [Hlimit Hnext Hrev Hidx _ _ _] Hfull. unfold commit_critical_section, current_revision.
  destruct (worker_error s) as [e|] eqn:He; [by constructor|].
  destruct (last_nonempty _ (queue_nonempty _ _ Hrev)) as [current Hcur]. rewrite Hcur. cbn [ok_or].
  destruct (parent_id_is p (c_id current)) eqn:Hp; cbn [negb]; [|by constructor].
  case_bool_decide as Hh; [by constructor|].
  unfold CommittedId_next. destruct (next_raw m =? 0) eqn:Hz; [lia|].
  rewrite Z.mod_small by lia. cbn [max_revisions set_next_raw in_memory_revisions by_hash].
  destruct (reap_oldest _ _ _ _ _) as [[res queue] index] eqn:Hr.
  destruct (reap_oldest_suffix _ _ _ _ _ _ _ Hr Hidx) as (reaped & Hq & Hok).
  destruct (reap_oldest_nonempty _ _ _ _ _ _ _ Hlimit (queue_nonempty _ _ Hrev) Hr) as [Hne Herr].
  destruct res as [[]|e].
  - destruct (worker_submit s _); [by eapply critical_committed|by eapply critical_lost].
  - destruct (Herr _ eq_refl) as [e' ->]. by eapply critical_lost.
Qed.

(** ** How the state evolves *)

(** What a proposal keeps: its root and its delete list; its parent changes once, from a
    proposal to the revision that this was committed as. *)
Definition keeps_proposal (known : gmap proposal_ref ImmutableProposal) (p p' : ImmutableProposal) : Prop :=
  p_root p' = p_root p /\ p_deleted p' = p_deleted p /\
  (p_parent p' = p_parent p \/
   exists q hash id, p_parent p = Proposed q /\ p_parent p' = CommittedParent hash id /\
     forall pq, known !! q = Some pq -> proposal_hash pq = hash).

(** Revisions are not changed, and new ones have new identifiers. *)
Record evolves (m m' : RevisionManager) : Prop := {
  ev_limit : max_revisions m' = max_revisions m;
  ev_next : next_raw m <= next_raw m';
  ev_arena r p : arena m !! r = Some p -> exists p', arena m' !! r = Some p' /\ keeps_proposal (arena m) p p';
  ev_queue c : c ∈ in_memory_revisions m' -> c ∈ in_memory_revisions m \/ next_raw m <= c_id c;
}.

Lemma keeps_proposal_refl known p : keeps_proposal known p p.
Proof. unfold keeps_proposal. auto. Qed.

#[global] Instance evolves_preorder : PreOrder evolves.
Proof.
  split.
  - intros m. split; [done|lia| |by auto]. intros r p Hp. exists p. split; [done|apply keeps_proposal_refl].
  - intros m1 m2 m3 [Hl1 Hn1 Ha1 Hq1] [Hl2 Hn2 Ha2 Hq2]. split; [congruence|lia| |].
    + intros r p Hp. apply Ha1 in Hp as (p2 & Hp2 & Hr2 & Hd2 & Hpar2).
      apply Ha2 in Hp2 as (p3 & Hp3 & Hr3 & Hd3 & Hpar3). exists p3. split; [done|].
      split; [congruence|]. split; [congruence|].
      destruct Hpar2 as [Heq2|(q & h & id & Hq & Heq2 & Hh)]; destruct Hpar3 as [Heq3|(q' & h' & id' & Hq' & Heq3 & Hh')].
      * left. congruence.
      * right. exists q', h', id'. split; [congruence|]. split; [done|].
        intros pq (pq2 & Hpq2 & Hroot & _)%Ha1. rewrite <- (Hh' _ Hpq2). unfold proposal_hash. by rewrite Hroot.
      * right. exists q, h, id. split; [done|]. split; [congruence|done].
      * congruence.
    + intros c [Hc|Hc]%Hq2; [|right; lia]. apply Hq1 in Hc as [Hc|Hc]; auto.
Qed.

(** What later revisions do to the parents that are recorded. *)
Lemma parents_ok_later next queue next' queue' known :
  parents_ok next queue known -> next <= next' ->
  (forall c, c ∈ queue' -> c ∈ queue \/ next <= c_id c) -> parents_ok next' queue' known.
Proof.
  intros Hp Hn Hq r p Hr. specialize (Hp r p Hr). unfold parent_ok in *. destruct (p_parent p) as [q|h id]; [done|].
  destruct Hp as [Hid Hc]. split; [lia|]. intros c [Hin|Hge]%Hq Heq; [by apply Hc|lia].
Qed.

Lemma revisions_ok_suffix next next' reaped queue :
  revisions_ok next (reaped ++ queue) -> queue <> [] -> next <= next' -> revisions_ok next' queue.
Proof.
  intros [_ Hs Hf] Hne Hn. split; [done| |].
  - rewrite fmap_app in Hs. by apply StronglySorted_app_1_r in Hs.
  - apply Forall_app in Hf as [_ Hf]. eapply Forall_impl; [exact Hf|]. cbn. intros c Hc. lia.
Qed.

Lemma revisions_ok_push next queue c :
  revisions_ok next queue -> 0 < next -> c_id c = next -> revisions_ok (next + 1) (queue ++ [c]).
Proof.
  intros [Hne Hs Hf] Hn Hc. split.
  - by destruct queue.
  - rewrite fmap_app. apply StronglySorted_snoc; [done|]. apply Forall_fmap.
    eapply Forall_impl; [exact Hf|]. cbn. intros d Hd. rewrite Hc. lia.
  - apply Forall_app. split; [eapply Forall_impl; [exact Hf|]; cbn; intros d Hd; lia|].
    constructor; [lia|constructor].
Qed.

Lemma index_ok_insert queue index c : index_ok queue index -> index_ok (queue ++ [c]) (index_insert c index).
Proof.
  intros Hi h d. unfold index_insert. intros Hd.
  assert (Hold : index !! h = Some d -> index_key alg d = Some h /\ d ∈ queue ++ [c]).
  { intros [Hk Hin]%Hi. split; [done|]. apply elem_of_app. by left. }
  destruct (index_key alg c) as [k|] eqn:Hk; [|by auto].
  apply lookup_insert_Some in Hd as [[-> ->]|[_ Hd]]; [|by auto].
  split; [done|]. apply elem_of_app. right. by apply list_elem_of_singleton.
Qed.

(** An operation that takes at most [k] identifiers. *)
Record settles (k : Z) (m m' : RevisionManager) : Prop := {
  st_ok : manager_ok m';
  st_evolves : evolves m m';
  st_ids : next_raw m' <= next_raw m + k;
}.

Lemma settles_id m : manager_ok m -> settles 0 m m.
Proof. intros Hm. split; [done|done|lia]. Qed.

Lemma settles_trans j k m1 m2 m3 : settles j m1 m2 -> settles k m2 m3 -> settles (j + k) m1 m3.
Proof. intros [_ He1 Hn1] [Hok He2 Hn2]. split; [done|by transitivity m2|lia]. Qed.

Lemma settles_weaken j k m m' : settles j m m' -> j <= k -> settles k m m'.
Proof. intros [Hok He Hn] Hle. split; [done|done|lia]. Qed.

(** The queue, the index and the counter may move on. *)
Lemma with_history_ok m queue index next :
  manager_ok m -> revisions_ok next queue -> index_ok queue index -> next_raw m <= next <= next_raw m + 1 -> next <= U64_MAX ->
  (forall c, c ∈ queue -> c ∈ in_memory_revisions m \/ next_raw m <= c_id c) ->
  settles 1 m (with_history queue index next m).
Proof.
  intros Hm Hr Hi Hn Hmax Hq. pose proof (ok_next _ Hm). split.
  - destruct Hm. split; cbn; [done|lia|done|done| |done|done]. eapply parents_ok_later; eauto. lia.
  - split; cbn; [done|lia| |done]. intros r p Hp. exists p. split; [done|apply keeps_proposal_refl].
  - cbn. lia.
Qed.

(** The critical section keeps the invariant and takes one identifier at most. *)
Lemma critical_section_settles s p m :
  manager_ok m -> next_raw m < U64_MAX -> settles 1 m (commit_critical_section alg s p m).2.
Proof.
  intros Hm Hfull. pose proof (ok_revisions _ Hm) as Hrev. pose proof (ok_next _ Hm) as Hnext.
  assert (Hsame : settles 1 m m) by (eapply settles_weaken; [by apply settles_id|lia]).
  destruct (critical_section_outcome s p m Hm Hfull) as [e He|cur Hcur Hp|cur Hcur Hp Hh
    |cur reaped queue index e Hcur Hp Hq Hne Hi|cur reaped queue index Hcur Hp Hh Hq Hne Hi Hreap]; cbn [snd]; [done..| |].
  - rewrite Hq in Hrev. apply with_history_ok; [done| |done|lia|lia|].
    + eapply revisions_ok_suffix; [done|done|lia].
    + intros c Hc. left. rewrite Hq. apply elem_of_app. by right.
  - rewrite Hq in Hrev. apply with_history_ok; [done| |by apply index_ok_insert|lia|lia|].
    + apply revisions_ok_push; [|lia|done]. eapply revisions_ok_suffix; [done|done|lia].
    + intros c [Hc|Hc%list_elem_of_singleton]%elem_of_app; [left|right; subst c; cbn; lia].
      rewrite Hq. apply elem_of_app. by right.
Qed.

(** It leaves the proposals alone, and its errors are the manager's. *)
Lemma critical_section_frame s p m res m' :
  manager_ok m -> next_raw m < U64_MAX -> commit_critical_section alg s p m = (res, m') ->
  arena m' = arena m /\ proposals m' = proposals m /\ (forall e, res = Err e -> exists e', e = Raise e').
Proof.
  intros Hm Hfull Hc. pose proof (critical_section_outcome s p m Hm Hfull) as Ho. rewrite Hc in Ho.
  inversion Ho; subst; cbn; naive_solver.
Qed.

(** When it succeeds, the proposal lives in the latest revision, with its hash. *)
Lemma critical_section_lives s p m id m' :
  manager_ok m -> next_raw m < U64_MAX -> commit_critical_section alg s p m = (Ok id, m') ->
  exists c, last (in_memory_revisions m') = Some c /\ c_id c = id /\ committed_hash c = proposal_hash p.
Proof.
  intros Hm Hfull Hc. pose proof (critical_section_outcome s p m Hm Hfull) as Ho. rewrite Hc in Ho.
  inversion Ho as [| |cur Hcur Hp Hh| |cur reaped queue index Hcur Hp Hh Hq Hne Hi Hreap]; subst; cbn.
  - by exists cur.
  - rewrite last_snoc. eexists. split; [done|]. done.
Qed.

(** ** The operations *)

Lemma last_in {A} (l : list A) x : last l = Some x -> x ∈ l.
Proof. intros [l' ->]%last_Some. apply elem_of_app. right. by apply list_elem_of_singleton. Qed.

(** A revision of the queue is the only one with its identifier. *)
Lemma ids_unique m c d :
  manager_ok m -> c ∈ in_memory_revisions m -> d ∈ in_memory_revisions m -> c_id c = c_id d -> c = d.
Proof. intros Hm. eapply sorted_ids_unique, queue_sorted, (ok_revisions _ Hm). Qed.

Lemma queue_id_range m c : manager_ok m -> c ∈ in_memory_revisions m -> 0 < c_id c < next_raw m.
Proof. intros Hm. pose proof (queue_ids _ _ (ok_revisions _ Hm)) as Hf. rewrite Forall_forall in Hf. auto. Qed.

Lemma commit_reparent_keeps known r hash id p :
  (forall pr, known !! r = Some pr -> proposal_hash pr = hash) -> keeps_proposal known p (commit_reparent r hash id p).
Proof.
  intros Hh. unfold commit_reparent, keeps_proposal. destruct (p_parent p) as [q|] eqn:Hq; [|auto].
  case_bool_decide as Hqr; [|auto]. subst q. cbn. split; [done|]. split; [done|]. right. by exists r, hash, id.
Qed.

Lemma commit_reparent_ok next queue known r hash id p :
  parent_ok next queue known (p_parent p) -> parent_ok next queue known (CommittedParent hash id) ->
  parent_ok next queue known (p_parent (commit_reparent r hash id p)).
Proof.
  intros Hp Hn. unfold commit_reparent. destruct (p_parent p) as [q|] eqn:Hq; [|by rewrite Hq].
  case_bool_decide; [done|]. by rewrite Hq.
Qed.

Lemma commit_cleanup_settles s r pr id m :
  manager_ok m -> arena m !! r = Some pr -> parent_ok (next_raw m) (in_memory_revisions m) (arena m) (CommittedParent (proposal_hash pr) id) ->
  settles 0 m (commit_cleanup s r id m).
Proof.
  intros Hm Hr Hid.
  assert (Hlook : forall q p', arena (commit_cleanup s r id m) !! q = Some p' ->
    exists p, arena m !! q = Some p /\ (p' = p \/ p' = commit_reparent r (proposal_hash pr) id p)).
  { intros q p'. cbn. rewrite map_lookup_imap, Hr. cbn. intros (p & Hp & Hp')%bind_Some. exists p. split; [done|].
    case_bool_decide; naive_solver. }
  assert (Hdom : forall q p, arena m !! q = Some p -> is_Some (arena (commit_cleanup s r id m) !! q)).
  { intros q p Hp. cbn. rewrite map_lookup_imap, Hp. cbn. eauto. }
  split.
  - destruct Hm as [H1 H2 H3 H4 H5 H6 H7]. split; [done|done|done|done| | |].
    + intros q p' (p & Hp & Hp')%Hlook.
      assert (Hok : parent_ok (next_raw m) (in_memory_revisions m) (arena m) (p_parent p')).
      { destruct Hp' as [-> | ->]; [by eapply H5|]. apply commit_reparent_ok; [by eapply H5|done]. }
      destruct (p_parent p') as [q'|]; [|exact Hok]. destruct Hok as [pq Hpq]. by eapply Hdom.
    + by apply NoDup_filter.
    + intros q Hq%list_elem_of_filter. destruct Hq as [_ Hq]. destruct (H7 _ Hq) as [p Hp]. by eapply Hdom.
  - split; [done|cbn; lia| |by auto]. intros q p Hp. destruct (Hdom _ _ Hp) as [p' Hp'].
    exists p'. split; [done|]. apply Hlook in Hp' as (p2 & Hp2 & Heq). assert (p2 = p) as -> by congruence.
    destruct Heq as [-> | ->]; [apply keeps_proposal_refl|]. apply commit_reparent_keeps. naive_solver.
  - cbn. lia.
Qed.

(** Committing, by either route. *)
Lemma commit_locked_settles s r m :
  manager_ok m -> next_raw m < U64_MAX -> is_Some (arena m !! r) ->
  settles 1 m (commit_locked alg s r m).2 /\ forall e, (commit_locked alg s r m).1 = Err e -> exists e', e = Raise e'.
Proof.
  intros Hm Hfull [p Hp]. unfold commit_locked. rewrite Hp.
  pose proof (critical_section_settles s p m Hm Hfull) as Hs.
  destruct (commit_critical_section alg s p m) as [[id|e] m'] eqn:Hc; cbn [fst snd] in *.
  - split; [|done]. destruct (critical_section_lives _ _ _ _ _ Hm Hfull Hc) as (c & Hc1 & Hc2 & Hc3).
    destruct (critical_section_frame _ _ _ _ _ Hm Hfull Hc) as (Ha & _ & _).
    pose proof (st_ok _ _ _ Hs) as Hm'. pose proof (last_in _ _ Hc1) as Hin.
    change 1 with (1 + 0). eapply settles_trans; [done|]. apply (commit_cleanup_settles _ _ p); [done|by rewrite Ha|].
    subst id. split; [by apply queue_id_range|]. intros d Hd Heq. by rewrite (ids_unique m' d c).
  - split; [done|]. destruct (critical_section_frame _ _ _ _ _ Hm Hfull Hc) as (_ & _ & Herr). naive_solver.
Qed.

(** [commit] is [commit_locked], but for what it returns. *)
Lemma commit_is_locked s r m :
  (commit alg s r m).2 = (commit_locked alg s r m).2 /\
  forall e, (commit alg s r m).1 = Err e <-> (commit_locked alg s r m).1 = Err e.
Proof.
  unfold commit, commit_locked. destruct (arena m !! r) as [p|]; [|split; [done|naive_solver]].
  destruct (commit_critical_section alg s p m) as [[id|e] m']; (split; [done|naive_solver]).
Qed.

Lemma commit_settles s r m :
  manager_ok m -> next_raw m < U64_MAX -> is_Some (arena m !! r) ->
  settles 1 m (commit alg s r m).2 /\ (commit alg s r m).1 <> Err ManagerPanic.
Proof.
  intros Hm Hfull Hr. destruct (commit_is_locked s r m) as [-> Herr].
  destruct (commit_locked_settles s r m Hm Hfull Hr) as [Hs Hraise]. split; [done|].
  intros [e' He]%Herr%Hraise. done.
Qed.

(** A new proposal. *)
Lemma add_proposal_settles p m :
  manager_ok m -> parent_ok (next_raw m) (in_memory_revisions m) (arena m) (p_parent p) ->
  settles 0 m (add_proposal p m).2 /\ arena m !! (add_proposal p m).1 = None /\
  arena (add_proposal p m).2 !! (add_proposal p m).1 = Some p.
Proof.
  intros Hm Hp. cbn. set (r := fresh _).
  assert (Hfresh : arena m !! r = None) by (apply not_elem_of_dom; apply is_fresh).
  assert (Hgrow : forall parent, parent_ok (next_raw m) (in_memory_revisions m) (arena m) parent ->
    parent_ok (next_raw m) (in_memory_revisions m) (<[r := p]> (arena m)) parent).
  { intros [q|h id]; [|done]. intros [pq Hq]. cbn. rewrite lookup_insert_ne; [eauto|congruence]. }
  split; [|split; [done|by rewrite lookup_insert_eq]]. split; [|split|cbn; lia].
  - destruct Hm as [H1 H2 H3 H4 H5 H6 H7]. split; cbn; [done|done|done|done| | |].
    + intros q pq [[<- <-]|[_ Hq]]%lookup_insert_Some; [by apply Hgrow|]. eapply Hgrow, H5, Hq.
    + apply NoDup_app. split; [done|]. split; [|apply NoDup_singleton].
      intros q Hq ->%list_elem_of_singleton. apply H7 in Hq. rewrite Hfresh in Hq. by apply is_Some_None in Hq.
    + intros q [Hq%H7| ->%list_elem_of_singleton]%elem_of_app; [|rewrite lookup_insert_eq; eauto].
      destruct Hq as [pq Hq]. rewrite lookup_insert_ne; [eauto|congruence].
  - done.
  - cbn. lia.
  - intros q pq Hq. exists pq. cbn. rewrite lookup_insert_ne by congruence. split; [done|apply keeps_proposal_refl].
  - by left.
Qed.

(** Proposing: nothing happens, or a proposal with the given parent is added. *)
Lemma propose_with_parent_settles s tracked parent parent_root batch m :
  manager_ok m -> parent_ok (next_raw m) (in_memory_revisions m) (arena m) parent ->
  settles 0 m (propose_with_parent s tracked parent parent_root batch m).2 /\
  (propose_with_parent s tracked parent parent_root batch m).1 <> Err ManagerPanic.
Proof.
  intros Hm Hp. unfold propose_with_parent. destruct (worker_error s); [split; [by apply settles_id|done]|].
  destruct batch as [[deleted root]|e]; [|split; [by apply settles_id|by destruct e]].
  pose proof (add_proposal_settles (new_proposal tracked parent parent_root deleted root) m Hm Hp) as [Hs _].
  destruct (add_proposal _ m). by split.
Qed.

Lemma propose_with_parent_added s tracked parent parent_root batch m r m' :
  manager_ok m -> parent_ok (next_raw m) (in_memory_revisions m) (arena m) parent ->
  propose_with_parent s tracked parent parent_root batch m = (Ok r, m') ->
  exists p, arena m' !! r = Some p /\ p_parent p = parent /\ in_memory_revisions m' = in_memory_revisions m /\
    exists deleted, batch = Ok (deleted, p_root p) /\ p_deleted p = p_deleted (new_proposal tracked parent parent_root deleted (p_root p)).
Proof.
  intros Hm Hp. unfold propose_with_parent. destruct (worker_error s); [done|].
  destruct batch as [[deleted root]|e]; [|done]. intros Hadd.
  destruct (add_proposal_settles (new_proposal tracked parent parent_root deleted root) m Hm Hp) as (_ & _ & Hnew).
  destruct (add_proposal _ m) as [r' m1] eqn:Ha. simplify_eq. exists (new_proposal tracked parent parent_root deleted root).
  split; [done|]. split; [done|]. split; [by inversion Ha|]. exists deleted. done.
Qed.

Lemma committed_as_parent_ok m c :
  manager_ok m -> c ∈ in_memory_revisions m ->
  parent_ok (next_raw m) (in_memory_revisions m) (arena m) (committed_as_parent c).
Proof.
  intros Hm Hin. split; [by apply queue_id_range|]. intros d Hd Heq. by rewrite (ids_unique m d c).
Qed.

Lemma current_revision_ok m :
  manager_ok m -> exists c, current_revision m = Ok c /\ last (in_memory_revisions m) = Some c.
Proof.
  intros Hm. destruct (last_nonempty _ (queue_nonempty _ _ (ok_revisions _ Hm))) as [c Hc]. exists c.
  unfold current_revision. by rewrite Hc.
Qed.

(** Taking an identifier for a revision outside of the queue. *)
Lemma CommittedId_next_settles m :
  manager_ok m -> next_raw m < U64_MAX ->
  exists id m', CommittedId_next m = (Ok id, m') /\ settles 1 m m' /\
    in_memory_revisions m' = in_memory_revisions m /\ arena m' = arena m.
Proof.
  intros Hm Hfull. pose proof (ok_next _ Hm) as Hn. unfold CommittedId_next.
  destruct (next_raw m =? 0) eqn:Hz; [lia|]. rewrite Z.mod_small by lia. eexists _, _. split; [done|]. split; [|done].
  apply (with_history_ok m (in_memory_revisions m) (by_hash m) (next_raw m + 1)); [done| |by apply ok_index|lia|lia|by auto].
  apply (revisions_ok_suffix (next_raw m) _ []); [by apply ok_revisions| |lia].
  apply queue_nonempty with (next := next_raw m). by apply ok_revisions.
Qed.

End ManagerCorrect.
