(* ===== verification/RevManagerRun.v ===== *)
(** * Runs of the revision manager

    Every operation of the manager and of proposals as a step, the invariant along every
    run, and what a commit and a lookup promise. *)

From stdpp Require Import sorting.
From S2P Require Import Prelude Primitives NodePath Node Codec NodeCodec Rlp Hashing PersistWorker RevManager RevManagerCorrect.

Section Runs.
Context `{Digests} `{VarInt}.
Variable alg : NodeHashAlgorithm.
(** The operations of a batch, the difference of two tries, and applying a batch. *)
Context {batch : Type}.
Variable diff : Committed -> ImmutableProposal -> result io_error batch.
Variable apply_batch : batch -> Committed -> result batch_error (list MaybePersisted * option Child).

#[local] Abbreviation manager_ok := (manager_ok alg).
#[local] Abbreviation settles := (settles alg).

(** ** Lookups *)

(** An operation that leaves the revisions and the proposals as they are, takes one identifier at
    most, and meets [P]. *)
Definition reads_only {A} (m : RevisionManager) (out : result stop A * RevisionManager) (P : A -> Prop) (Q : stop -> Prop) : Prop :=
  settles 1 m out.2 /\ in_memory_revisions out.2 = in_memory_revisions m /\ arena out.2 = arena m /\
  match out.1 with Ok a => P a | Err e => Q e end.

Lemma reads_only_same {A} m (res : result stop A) P Q :
  manager_ok m -> match res with Ok a => P a | Err e => Q e end -> reads_only m (res, m) P Q.
Proof.
  intros Hm Hres. split; [|done]. eapply (settles_weaken alg); [by apply settles_id|lia].
Qed.

Lemma new_empty_committed_reads m :
  manager_ok m -> next_raw m < U64_MAX -> reads_only m (new_empty_committed m) (fun c => c_root c = None) (fun _ => False).
Proof.
  intros Hm Hfull. unfold new_empty_committed.
  destruct (CommittedId_next_settles alg m Hm Hfull) as (id & m' & -> & Hs & Hq & Ha). done.
Qed.

(** What the cache of the root store holds is filed under its hash, as [RootStore::get] does it, and the
    nodes in the file have paths of nibbles (hashing another one panics). *)
Definition store_sound (s : surroundings) : Prop :=
  (forall hash c, store_cached s hash = Some c -> committed_hash c = Some hash) /\
  (forall a n, file_node s a = Ok n -> is_path (partial_path n)).

Lemma hash_node_nibbles n : is_path (partial_path n) -> exists h, hash_node alg n [] = Ok h.
Proof. intros Hn. unfold hash_node. destruct n; cbn in *; rewrite as_components_path by done; by eexists. Qed.

Lemma with_root_reads s root_hash root_address m :
  store_sound s -> manager_ok m -> next_raw m < U64_MAX ->
  reads_only m (with_root alg s root_hash root_address m) (fun c => c_root c = Some (AddressWithHash root_address root_hash))
    (fun e => exists io, e = FileIoFailed io).
Proof.
  intros [_ Hnodes] Hm Hfull. unfold with_root. destruct (file_header s) as [|e]; [|apply reads_only_same; eauto].
  destruct (CommittedId_next_settles alg m Hm Hfull) as (id & m' & -> & Hs & Hq & Ha).
  destruct (file_node s root_address) as [node|e] eqn:Hn; [destruct (hash_node_nibbles node (Hnodes _ _ Hn)) as [h ->]; destruct (HashType_eq _ _)|]; (do 3 (split; [done|])); cbn; eauto.
Qed.

Lemma RootStore_get_reads s hash m :
  store_sound s -> manager_ok m -> next_raw m < U64_MAX ->
  reads_only m (RootStore_get alg s hash m) (fun found => forall c, found = Some c -> committed_hash c = Some hash)
    (fun e => e = Raise RootStoreFailed).
Proof.
  intros Hstore Hm Hfull. unfold RootStore_get. destruct (store_cached s hash) as [c|] eqn:Hc.
  { apply reads_only_same; [done|]. intros ? [= <-]. by apply Hstore. }
  destruct (store_items s hash) as [[v|]|]; [|by apply reads_only_same..].
  destruct (negb _); [by apply reads_only_same|]. destruct (LinearAddress_new _) as [addr|]; [|by apply reads_only_same].
  destruct (with_root_reads s (Hash hash) addr m Hstore Hm Hfull) as (Hs & Hq & Ha & Hres).
  destruct (with_root alg s (Hash hash) addr m) as [[c|e] m']; cbn [fst snd] in *.
  - split; [done|]. split; [done|]. split; [done|]. cbn. intros ? [= <-]. unfold committed_hash. by rewrite Hres.
  - destruct Hres as [io ->]. done.
Qed.

(** What a lookup returns has the hash asked for, and it fails only in two ways. *)
Lemma revision_reads s hash m :
  store_sound s -> manager_ok m -> next_raw m < U64_MAX ->
  reads_only m (revision alg s hash m) (fun c => index_key alg c = Some hash)
    (fun e => by_hash m !! hash = None /\ (e = Raise (RevisionNotFound hash) \/ e = Raise RootStoreFailed)).
Proof.
  intros Hstore Hm Hfull. unfold revision. destruct (by_hash m !! hash) as [c|] eqn:Hc.
  { apply reads_only_same; [done|]. by apply (ok_index _ _ Hm). }
  case_bool_decide as Hdef.
  { destruct (new_empty_committed_reads m Hm Hfull) as (Hs & Hq & Ha & Hres). do 3 (split; [done|]).
    destruct (new_empty_committed m).1 as [c'|]; [|done]. unfold index_key, committed_hash. by rewrite Hres. }
  destruct (negb _); [apply reads_only_same; auto|].
  destruct (RootStore_get_reads s hash m Hstore Hm Hfull) as (Hs & Hq & Ha & Hres).
  destruct (RootStore_get alg s hash m) as [[[c'|]|e] m']; cbn [fst snd] in *; do 3 (split; [done|]); [|by split; [|left]|by split; [|right]].
  cbn [fst]. unfold index_key. by rewrite (Hres c').
Qed.

(** ** Rebasing *)

Lemma remove_proposal_settles r m : manager_ok m -> settles 0 m (remove_proposal r m).
Proof.
  intros Hm. split.
  - destruct Hm as [H1 H2 H3 H4 H5 H6 H7]. split; cbn; [done..| |]; [by apply NoDup_filter|].
    intros q [_ Hq]%list_elem_of_filter. by apply H7.
  - split; cbn; [done|lia| |by auto]. intros q p Hp. exists p. split; [done|apply keeps_proposal_refl].
  - cbn. lia.
Qed.

(** What the parent of a stale proposal may be taken to be. *)
Definition is_parent (parent_hash : option TrieHash) (c : Committed) : Prop :=
  match parent_hash with Some hash => index_key alg c = Some hash | None => c_root c = None end.

Lemma find_old_parent_reads s parent_hash m :
  store_sound s -> manager_ok m -> next_raw m < U64_MAX ->
  reads_only m (find_old_parent alg s parent_hash m)
    (fun found => match found with Some c => is_parent parent_hash c | None => parent_hash = None end)
    (fun e => exists hash, parent_hash = Some hash /\ by_hash m !! hash = None /\ (e = Raise (RevisionNotFound hash) \/ e = Raise RootStoreFailed)).
Proof.
  intros Hstore Hm Hfull. unfold find_old_parent. destruct parent_hash as [hash|]; [|by apply reads_only_same].
  destruct (revision_reads s hash m Hstore Hm Hfull) as (Hs & Hq & Ha & Hres).
  destruct (revision alg s hash m) as [[c|e] m']; (do 3 (split; [done|])); cbn in *; eauto.
Qed.

(** The errors that end a rebase: the parent is a proposal; the index has no revision with the hash of the
    parent, and the root store does not have it or fails; a file cannot be read; the batch is refused; the
    worker has failed. *)
Definition rebase_error (s : surroundings) (m : RevisionManager) (p : ImmutableProposal) (e : stop) : Prop :=
  (e = ParentNotCommitted /\ committed_parent_hash p = NotCommitted) \/
  (exists hash, committed_parent_hash p = ParentHash (Some hash) /\ by_hash m !! hash = None /\ (e = Raise (RevisionNotFound hash) \/ e = Raise RootStoreFailed)) \/
  (exists io, e = FileIoFailed io) \/ (exists b, e = BatchRefused b) \/ (exists w, worker_error s = Some w /\ e = Raise (PersistFailed w)).

(** What a rebase leaves: a proposal on top of the current revision, with what applying the
    difference of the old parent and the proposal to that revision gives. *)
Definition rebased (tracked : bool) (p : ImmutableProposal) (current : Committed) (q : ImmutableProposal) : Prop :=
  p_parent q = committed_as_parent current /\
  exists parent_hash old_parent ops deleted,
    committed_parent_hash p = ParentHash parent_hash /\ is_parent parent_hash old_parent /\
    diff old_parent p = Ok ops /\ apply_batch ops current = Ok (deleted, p_root q) /\
    q = new_proposal tracked (committed_as_parent current) (c_root current) deleted (p_root q).

Lemma propose_rebased s tracked p current ops old_parent parent_hash m m0 :
  manager_ok m -> current ∈ in_memory_revisions m -> settles 2 m0 m ->
  committed_parent_hash p = ParentHash parent_hash -> is_parent parent_hash old_parent -> diff old_parent p = Ok ops ->
  let out := propose_with_parent s tracked (committed_as_parent current) (c_root current) (apply_batch ops current) m in
  settles 2 m0 out.2 /\ in_memory_revisions out.2 = in_memory_revisions m /\
  match out.1 with
  | Ok target => exists q, arena out.2 !! target = Some q /\ rebased tracked p current q
  | Err e => rebase_error s m0 p e
  end.
Proof.
  intros Hm Hin Hs Hp Hold Hops. cbn zeta.
  assert (Hsame : settles 2 m0 m) by done. unfold propose_with_parent.
  destruct (worker_error s) as [w|] eqn:Hw; cbn [fst snd]; [unfold rebase_error; rewrite Hw; naive_solver|].
  destruct (apply_batch ops current) as [[deleted root]|e] eqn:Happ; cbn [fst snd]; [|unfold rebase_error; destruct e; naive_solver].
  destruct (add_proposal_settles alg (new_proposal tracked (committed_as_parent current) (c_root current) deleted root) m Hm)
    as (Hadd & _ & Hnew); [by eapply committed_as_parent_ok|].
  destruct (add_proposal _ m) as [r m'] eqn:Ha. cbn [fst snd] in *.
  split; [change 2 with (2 + 0); by eapply (settles_trans alg)|]. split; [by inversion Ha|].
  eexists. split; [done|]. split; [done|]. exists parent_hash, old_parent, ops, deleted. done.
Qed.

Lemma rebase_outcome s tracked r p current m :
  store_sound s -> manager_ok m -> next_raw m + 2 <= U64_MAX -> arena m !! r = Some p -> current ∈ in_memory_revisions m ->
  let out := rebase alg s tracked diff apply_batch r p current m in
  settles 2 m out.2 /\ in_memory_revisions out.2 = in_memory_revisions m /\
  match out.1 with
  | Ok target => exists q, arena out.2 !! target = Some q /\ rebased tracked p current q
  | Err e => rebase_error s m p e
  end.
Proof.
  intros Hstore Hm Hfull Hp Hin. cbn zeta. unfold rebase. destruct (committed_parent_hash p) as [parent_hash|] eqn:Hpar.
  2:{ split; [eapply (settles_weaken alg); [by apply settles_id|lia]|]. split; [done|]. left. done. }
  destruct (find_old_parent_reads s parent_hash m Hstore Hm ltac:(lia)) as (Hs1 & Hq1 & Ha1 & Hres1).
  destruct (find_old_parent alg s parent_hash m) as [[found|e] m1]; cbn [fst snd] in *.
  2:{ split; [eapply (settles_weaken alg); [done|lia]|]. split; [done|]. right. left. destruct Hres1 as (hash & -> & Hno & He). eauto. }
  pose proof (remove_proposal_settles r m1 (st_ok _ _ _ _ Hs1)) as Hs2.
  pose proof (settles_trans alg _ _ _ _ _ Hs1 Hs2) as Hs12. pose proof (st_ids _ _ _ _ Hs12) as Hn.
  assert (Hold : reads_only (remove_proposal r m1) (old_parent_or_empty found (remove_proposal r m1)) (is_parent parent_hash) (fun _ => False)).
  { destruct found as [c|]; cbn [old_parent_or_empty]; [apply reads_only_same; [apply Hs2|done]|].
    subst parent_hash. apply new_empty_committed_reads; [apply Hs2|lia]. }
  destruct Hold as (Hs3 & Hq3 & Ha3 & Hres3).
  destruct (old_parent_or_empty found (remove_proposal r m1)) as [[old|e] m2]; cbn [fst snd] in *; [|done].
  assert (Hs : settles 2 m m2) by (change 2 with (1 + 0 + 1); by eapply (settles_trans alg)).
  assert (Hq : in_memory_revisions m2 = in_memory_revisions m) by (rewrite Hq3; exact Hq1).
  destruct (diff old p) as [ops|e] eqn:Hops; cbn [fst snd].
  2:{ split; [done|]. split; [done|]. right. right. left. eauto. }
  rewrite <- Hq. eapply propose_rebased; [apply Hs|by rewrite Hq|done|done|done|done].
Qed.

(** ** Runs *)

Inductive operation : Type :=
| OpPropose (tracked : bool) (changes : result batch_error (list MaybePersisted * option Child))
| OpProposeOn (tracked : bool) (parent : proposal_ref) (changes : result batch_error (list MaybePersisted * option Child))
| OpCommit (proposal : proposal_ref)
| OpRebase (tracked : bool) (proposal : proposal_ref)
| OpRevision (hash : TrieHash)
| OpView (hash : TrieHash).

Definition error_of {A} (out : result stop A * RevisionManager) : option stop * RevisionManager :=
  (match out.1 with Ok _ => None | Err e => Some e end, out.2).

(** The error of an operation, if any, and the state after it. *)
Definition manager_exec (s : surroundings) (op : operation) (m : RevisionManager) : option stop * RevisionManager :=
  match op with
  | OpPropose tracked changes => error_of (Db_propose s tracked changes m)
  | OpProposeOn tracked parent changes => error_of (Proposal_propose s tracked parent changes m)
  | OpCommit proposal => error_of (commit alg s proposal m)
  | OpRebase tracked proposal => error_of (commit_with_rebase alg s tracked diff apply_batch proposal m)
  | OpRevision hash => error_of (revision alg s hash m)
  | OpView hash => error_of (view alg s hash m)
  end.

(** A handle is of a proposal that was made. *)
Definition handles_known (op : operation) (m : RevisionManager) : Prop :=
  match op with
  | OpProposeOn _ r _ | OpCommit r | OpRebase _ r => is_Some (arena m !! r)
  | OpPropose _ _ | OpRevision _ | OpView _ => True
  end.

(** The identifiers do not run out, and what the root store and the file hold is sound. *)
Definition allowed (s : surroundings) (op : operation) (m : RevisionManager) : Prop :=
  store_sound s /\ next_raw m + 3 <= U64_MAX /\ handles_known op m.

Definition manager_step (m m' : RevisionManager) : Prop := exists s op, allowed s op m /\ (manager_exec s op m).2 = m'.

Lemma view_settles s hash m :
  store_sound s -> manager_ok m -> next_raw m < U64_MAX ->
  settles 1 m (view alg s hash m).2 /\ (view alg s hash m).1 <> Err ManagerPanic.
Proof.
  intros Hstore Hm Hfull. unfold view. destruct (List.find _ _).
  - split; [|done]. eapply (settles_weaken alg); [by apply settles_id|lia].
  - destruct (revision_reads s hash m Hstore Hm Hfull) as (Hs & _ & _ & He).
    destruct (revision alg s hash m) as [[c|e] m']; (split; [done|]); [done|]. cbn in He. by destruct He as [_ [-> | ->]].
Qed.

Lemma propose_settles s tracked changes m :
  manager_ok m -> settles 0 m (Db_propose s tracked changes m).2 /\ (Db_propose s tracked changes m).1 <> Err ManagerPanic.
Proof.
  intros Hm. unfold Db_propose. destruct (current_revision_ok alg m Hm) as (c & -> & Hc).
  apply propose_with_parent_settles; [done|]. eapply committed_as_parent_ok; [done|by apply last_in].
Qed.

Lemma propose_on_settles s tracked parent changes m :
  manager_ok m -> is_Some (arena m !! parent) ->
  settles 0 m (Proposal_propose s tracked parent changes m).2 /\ (Proposal_propose s tracked parent changes m).1 <> Err ManagerPanic.
Proof.
  intros Hm [p Hp]. unfold Proposal_propose. rewrite Hp. apply propose_with_parent_settles; [done|]. cbn. eauto.
Qed.

Lemma rebase_commit_settles s tracked r m :
  store_sound s -> manager_ok m -> next_raw m + 3 <= U64_MAX -> is_Some (arena m !! r) ->
  settles 3 m (commit_with_rebase alg s tracked diff apply_batch r m).2 /\
  (commit_with_rebase alg s tracked diff apply_batch r m).1 <> Err ManagerPanic.
Proof.
  intros Hstore Hm Hfull [p Hp]. unfold commit_with_rebase. rewrite Hp.
  destruct (current_revision_ok alg m Hm) as (c & -> & Hc).
  destruct (parent_id_is p (c_id c)).
  - destruct (commit_locked_settles alg s r m Hm ltac:(lia)) as [Hs He]; [eauto|].
    split; [eapply (settles_weaken alg); [done|lia]|]. by intros [e' ?]%He.
  - destruct (rebase_outcome s tracked r p c m Hstore Hm ltac:(lia) Hp (last_in _ _ Hc)) as (Hs & _ & Hres).
    destruct (rebase _ _ _ _ _ _ _ _ _) as [[target|e] m1]; cbn [fst snd] in *.
    + destruct Hres as (q & Hq & _). pose proof (st_ids _ _ _ _ Hs).
      destruct (commit_locked_settles alg s target m1 (st_ok _ _ _ _ Hs) ltac:(lia)) as [Hs' He]; [eauto|].
      split; [change 3 with (2 + 1); by eapply (settles_trans alg)|]. by intros [e' ?]%He.
    + split; [eapply (settles_weaken alg); [done|lia]|]. intros [= ->]. unfold rebase_error in Hres. naive_solver.
Qed.

(** Every operation keeps the invariant, and none panics. *)
Lemma exec_settles s op m :
  manager_ok m -> allowed s op m -> settles 3 m (manager_exec s op m).2 /\ (manager_exec s op m).1 <> Some ManagerPanic.
Proof.
  intros Hm (Hstore & Hfull & Hknown).
  assert (Hgo : forall {A} (out : result stop A * RevisionManager) k, k <= 3 -> settles k m out.2 -> out.1 <> Err ManagerPanic ->
    settles 3 m (error_of out).2 /\ (error_of out).1 <> Some ManagerPanic).
  { intros A [[a|e] m'] k Hk Hs He; (split; [by eapply (settles_weaken alg)|]); cbn in *; congruence. }
  destruct op as [tracked changes|tracked r changes|r|tracked r|hash|hash]; cbn [manager_exec handles_known] in *.
  - destruct (propose_settles s tracked changes m Hm). by apply (Hgo _ _ 0).
  - destruct (propose_on_settles s tracked r changes m Hm Hknown). by apply (Hgo _ _ 0).
  - destruct (commit_settles alg s r m Hm ltac:(lia) Hknown). by apply (Hgo _ _ 1).
  - destruct (rebase_commit_settles s tracked r m Hstore Hm Hfull Hknown). by apply (Hgo _ _ 3).
  - destruct (revision_reads s hash m Hstore Hm ltac:(lia)) as (Hs & _ & _ & He). apply (Hgo _ _ 1); [lia|done|].
    intros Heq. rewrite Heq in He. cbn in He. by destruct He as [_ [?|?]].
  - destruct (view_settles s hash m Hstore Hm ltac:(lia)). by apply (Hgo _ _ 1).
Qed.

Lemma steps_evolve m m' : manager_ok m -> rtc manager_step m m' -> manager_ok m' /\ evolves m m'.
Proof.
  intros Hm. induction 1 as [m|m1 m2 m3 (s & op & Hal & Hex) _ IH]; [by split|]. subst m2.
  destruct (exec_settles s op m1 Hm Hal) as [[Hok Hev _] _]. destruct (IH Hok) as [Hok3 Hev3].
  split; [done|]. by transitivity (manager_exec s op m1).2.
Qed.

(** A manager that was opened, and what it became. *)
Definition opened (m : RevisionManager) : Prop :=
  exists limit gap latest next store add_root,
    1 <= gap /\ 0 < c_id latest < next /\ next <= U64_MAX /\
    RevisionManager_new alg limit gap (Ok latest) next store add_root = Ok m.

(** What opening gives, and that the limit leaves room for what is not persisted. *)
Lemma RevisionManager_new_Ok limit gap latest next store add_root m :
  RevisionManager_new alg limit gap (Ok latest) next store add_root = Ok m ->
  gap < limit /\
  m = mkManager limit [latest] (match index_key alg latest with Some hash => {[ hash := latest ]} | None => ∅ end) [] ∅ next store.
Proof.
  unfold RevisionManager_new. destruct (limit <=? gap) eqn:Hl; [done|]. intros Hnew. split; [lia|].
  destruct (committed_hash latest); [|by injection Hnew].
  destruct (c_root latest ≫= Child_persisted_address); [|done].
  destruct store; [|by injection Hnew]. destruct (add_root _ _); [by injection Hnew|done].
Qed.

Lemma opened_ok m : opened m -> manager_ok m.
Proof.
  intros (limit & gap & latest & next & store & add_root & Hgap & Hid & Hmax & Hnew).
  apply RevisionManager_new_Ok in Hnew as [Hl ->]. split; cbn; [lia|lia| | | | |].
  - split; [done|repeat constructor|repeat constructor; cbn; lia].
  - intros h c. destruct (index_key alg latest) as [k|] eqn:Hk; [|by rewrite lookup_empty].
    intros [-> <-]%lookup_singleton_Some. split; [done|]. by apply list_elem_of_singleton.
  - intros r p. by rewrite lookup_empty.
  - constructor.
  - intros p Hp. by apply not_elem_of_nil in Hp.
Qed.

End Runs.
