(* ===== verification/RevManagerProps.v ===== *)
(** * Promises of the revision manager

    Along every run from a manager that was opened: the invariant, that a commit applies to the
    state its proposal was made from, the bound on the queue, rebasing, and lookups; then two
    runs in which something is lost. *)

From stdpp Require Import sorting.
From S2P Require Import Prelude Primitives NodePath Node Codec NodeCodec Rlp Hashing PersistWorker RevManager RevManagerCorrect RevManagerRun.

Section Promises.
Context `{Digests} `{VarInt}.
Variable alg : NodeHashAlgorithm.
Context {batch : Type}.
Variable diff : Committed -> ImmutableProposal -> result io_error batch.
Variable apply_batch : batch -> Committed -> result batch_error (list MaybePersisted * option Child).

#[local] Abbreviation mstep := (manager_step alg diff apply_batch).
#[local] Abbreviation mexec := (manager_exec alg diff apply_batch).
#[local] Abbreviation opened := (opened alg).

Lemma run_ok m0 m : opened m0 -> rtc mstep m0 m -> manager_ok alg m.
Proof. intros Ho%opened_ok Hr. by eapply steps_evolve in Hr as [? _]. Qed.

(** C18: Along every run of proposals, commits, rebases and lookups, the queue holds a revision and
    its identifiers grow, the index answers with revisions of the queue that have the hash asked for,
    and the parents of proposals are known; no operation panics while identifiers are left (and the nodes that
    the file holds have paths of nibbles). *)
Theorem manager_invariant m0 m s op :
  opened m0 -> rtc mstep m0 m -> allowed s op m ->
  manager_ok alg m /\ manager_ok alg (mexec s op m).2 /\ (mexec s op m).1 <> Some ManagerPanic.
Proof.
  intros Ho Hr Hal. pose proof (run_ok _ _ Ho Hr) as Hm. split; [done|].
  destruct (exec_settles alg diff apply_batch s op m Hm Hal) as [Hs He]. split; [apply Hs|done].
Qed.

(** Making a proposal on the latest revision, or on another proposal. *)
Definition propose_on (s : surroundings) (tracked : bool) (parent : option proposal_ref)
  (changes : result batch_error (list MaybePersisted * option Child)) (m : RevisionManager) : result stop proposal_ref * RevisionManager :=
  match parent with
  | None => Db_propose s tracked changes m
  | Some q => Proposal_propose s tracked q changes m
  end.

(** What the parent of a new proposal is. *)
Definition based_on (parent : option proposal_ref) (m : RevisionManager) (p : ImmutableProposal) : Prop :=
  match parent with
  | None => exists c, current_revision m = Ok c /\ last (in_memory_revisions m) = Some c /\ p_parent p = committed_as_parent c
  | Some q => exists pq, arena m !! q = Some pq /\ p_parent p = Proposed q
  end.

Lemma propose_on_added s tracked parent changes m r m' :
  manager_ok alg m -> propose_on s tracked parent changes m = (Ok r, m') ->
  manager_ok alg m' /\ evolves m m' /\ in_memory_revisions m' = in_memory_revisions m /\
  exists p deleted, arena m' !! r = Some p /\ based_on parent m p /\ changes = Ok (deleted, p_root p).
Proof.
  intros Hm Hp. destruct parent as [q|]; cbn [propose_on] in Hp.
  - unfold Proposal_propose in Hp. destruct (arena m !! q) as [pq|] eqn:Hq; [|done].
    assert (Hpar : parent_ok (next_raw m) (in_memory_revisions m) (arena m) (Proposed q)) by (cbn; eauto).
    destruct (propose_with_parent_settles alg s tracked _ (p_root pq) changes m Hm Hpar) as [Hs _]. rewrite Hp in Hs.
    destruct (propose_with_parent_added alg _ _ _ _ _ _ _ _ Hm Hpar Hp) as (p & Hr & Hpp & Hq' & deleted & Hc & _).
    split; [apply Hs|]. split; [apply Hs|]. split; [done|]. exists p, deleted. split; [done|]. split; [|done]. exists pq. done.
  - unfold Db_propose in Hp. destruct (current_revision_ok alg m Hm) as (c & Hc & Hl). rewrite Hc in Hp.
    pose proof (committed_as_parent_ok alg m c Hm (last_in _ _ Hl)) as Hpar.
    destruct (propose_with_parent_settles alg s tracked _ (c_root c) changes m Hm Hpar) as [Hs _]. rewrite Hp in Hs.
    destruct (propose_with_parent_added alg _ _ _ _ _ _ _ _ Hm Hpar Hp) as (p & Hr & Hpp & Hq' & deleted & Hch & _).
    split; [apply Hs|]. split; [apply Hs|]. split; [done|]. exists p, deleted. split; [done|]. split; [|done]. exists c. done.
Qed.

(** A commit that succeeds: the latest revision is the recorded parent, and the proposal is in the
    latest revision after it. *)
Lemma commit_succeeds s r p m id m' :
  manager_ok alg m -> next_raw m < U64_MAX -> arena m !! r = Some p -> commit alg s r m = (Ok id, m') ->
  exists latest c, last (in_memory_revisions m) = Some latest /\ p_parent p = CommittedParent (committed_hash latest) (c_id latest) /\
    last (in_memory_revisions m') = Some c /\ c_id c = id /\ committed_hash c = proposal_hash p.
Proof.
  intros Hm Hfull Hr Hc. unfold commit in Hc. rewrite Hr in Hc.
  destruct (commit_critical_section alg s p m) as [[id'|e] m1] eqn:Hcs; [|done]. injection Hc as <- <-.
  destruct (critical_section_lives alg _ _ _ _ _ Hm Hfull Hcs) as (c & Hc & Hid & Hh).
  assert (Hpar : exists latest, last (in_memory_revisions m) = Some latest /\ parent_id_is p (c_id latest) = true).
  { pose proof (critical_section_outcome alg s p m Hm Hfull) as Ho. rewrite Hcs in Ho. inversion Ho; eauto. }
  destruct Hpar as (latest & Hl & Hp). exists latest, c. split; [done|]. split; [|done].
  pose proof (ok_parents _ _ Hm _ _ Hr) as Hok. unfold parent_id_is in Hp. destruct (p_parent p) as [|h i]; [done|].
  apply Z.eqb_eq in Hp. subst i. destruct Hok as [_ Hok]. by rewrite (Hok _ (last_in _ _ Hl) eq_refl).
Qed.

(** C12: No update is lost: a proposal made on the latest revision is committed only while that very
    revision is the latest one, and a proposal made on another proposal only when the latest revision has
    that proposal's root hash, whatever happens in between; the latest revision then has the root
    hash of the proposal. *)
Theorem commit_serializable mi m0 s0 tracked parent changes r m1 m2 s id m3 :
  opened mi -> rtc mstep mi m0 -> propose_on s0 tracked parent changes m0 = (Ok r, m1) ->
  rtc mstep m1 m2 -> next_raw m2 < U64_MAX -> commit alg s r m2 = (Ok id, m3) ->
  exists latest deleted root c, current_revision m2 = Ok latest /\ changes = Ok (deleted, root) /\
    match parent with
    | None => current_revision m0 = Ok latest
    | Some q => exists pq, arena m0 !! q = Some pq /\ proposal_hash pq = committed_hash latest
    end /\
    current_revision m3 = Ok c /\ c_id c = id /\ committed_hash c = root_hash_of root.
Proof.
  intros Ho Hrun0 Hprop H12 Hfull Hc. pose proof (run_ok _ _ Ho Hrun0) as Hm0.
  destruct (propose_on_added _ _ _ _ _ _ _ Hm0 Hprop) as (Hm1 & Hev & Hq & p & deleted & Hr & Hbase & Hch).
  destruct (steps_evolve _ _ _ _ _ Hm1 H12) as [Hm2 Hev2]. destruct (ev_arena _ _ Hev2 _ _ Hr) as (p2 & Hr2 & Hroot & _ & Hpar).
  destruct (commit_succeeds _ _ _ _ _ _ Hm2 Hfull Hr2 Hc) as (latest & c & Hl & Hp2 & Hlc & Hid & Hh).
  exists latest, deleted, (p_root p), c. unfold current_revision. rewrite Hl, Hlc. split; [done|]. split; [done|].
  split; [|split; [done|]; split; [done|]; rewrite Hh; unfold proposal_hash; by rewrite Hroot].
  destruct parent as [q|]; destruct Hbase as (b & Hb & Hpp).
  - exists b. split; [done|]. destruct (ev_arena _ _ Hev _ _ Hb) as (b1 & Hb1 & Hroot1 & _).
    destruct Hpar as [Hpar|(q' & h & i & Hq' & Hpar & Hh')]; [congruence|]. assert (q' = q) as -> by congruence.
    specialize (Hh' _ Hb1). unfold proposal_hash in *. congruence.
  - destruct Hpp as [Hb' Hpp]. rewrite Hb'. cbn. f_equal.
    destruct Hpar as [Hpar|(q' & h & i & Hq' & _)]; [|by rewrite Hpp in Hq'].
    assert (Hidb : c_id b = c_id latest) by (rewrite Hpp in Hpar; rewrite Hpar in Hp2; by injection Hp2).
    destruct (ev_queue _ _ Hev2 _ (last_in _ _ Hl)) as [Hin|Hge].
    + rewrite Hq in Hin. eapply (ids_unique alg m0); [done|by apply last_in|done|done].
    + pose proof (ev_next _ _ Hev). pose proof (queue_id_range alg m0 b Hm0 (last_in _ _ Hb')). lia.
Qed.

(** ** The size of the queue *)

(** Nothing outside of the manager refers to a revision. *)
Definition unreferenced (s : surroundings) : Prop := forall c, still_referenced s c = false.

Definition within_limit (m : RevisionManager) : Prop := Z.of_nat (length (in_memory_revisions m)) <= max_revisions m.

Lemma critical_section_limit s p m :
  manager_ok alg m -> next_raw m < U64_MAX -> unreferenced s -> within_limit m ->
  within_limit (commit_critical_section alg s p m).2.
Proof.
  intros Hm Hfull Hs Hw. unfold within_limit in *.
  destruct (critical_section_outcome alg s p m Hm Hfull) as [e He|cur Hcur Hp|cur Hcur Hp Hh
    |cur reaped queue index e Hcur Hp Hq Hne Hi|cur reaped queue index Hcur Hp Hh Hq Hne Hi Hreap]; cbn [snd]; [done..| |].
  - rewrite Hq, length_app in Hw. cbn. lia.
  - destruct (reap_oldest_length alg _ _ _ _ _ _ Hreap) as [Hlen|(c & rest & _ & Hc)]; [|by rewrite Hs in Hc].
    cbn. rewrite length_app. cbn. lia.
Qed.

Lemma commit_locked_limit s r m :
  manager_ok alg m -> next_raw m < U64_MAX -> unreferenced s -> within_limit m -> within_limit (commit_locked alg s r m).2.
Proof.
  intros Hm Hfull Hs Hw. unfold commit_locked. destruct (arena m !! r) as [p|]; [|done].
  pose proof (critical_section_limit s p m Hm Hfull Hs Hw) as Hl.
  destruct (commit_critical_section alg s p m) as [[id|e] m']; done.
Qed.

(** An operation with the same revisions and the same limit. *)
Lemma within_limit_same m m' : evolves m m' -> in_memory_revisions m' = in_memory_revisions m -> within_limit m -> within_limit m'.
Proof. intros Hev Hq. unfold within_limit. by rewrite Hq, (ev_limit _ _ Hev). Qed.

Lemma propose_with_parent_revisions s tracked parent parent_root changes m :
  in_memory_revisions (propose_with_parent s tracked parent parent_root changes m).2 = in_memory_revisions m.
Proof. unfold propose_with_parent. destruct (worker_error s); [done|]. by destruct changes as [[deleted root]|]. Qed.

Lemma rebase_limit s tracked r m :
  store_sound s -> manager_ok alg m -> next_raw m + 3 <= U64_MAX -> is_Some (arena m !! r) -> unreferenced s -> within_limit m ->
  within_limit (commit_with_rebase alg s tracked diff apply_batch r m).2.
Proof.
  intros Hstore Hm Hfull [p Hp] Hs Hw. unfold commit_with_rebase. rewrite Hp.
  destruct (current_revision_ok alg m Hm) as (c & -> & Hc).
  destruct (parent_id_is p (c_id c)); [apply commit_locked_limit; [done|lia|done..]|].
  destruct (rebase_outcome alg diff apply_batch s tracked r p c m Hstore Hm ltac:(lia) Hp (last_in _ _ Hc)) as (Hst & Hq & Hres).
  destruct (rebase _ _ _ _ _ _ _ _ _) as [[target|e] m1]; cbn [fst snd] in *.
  - pose proof (st_ids _ _ _ _ Hst). apply commit_locked_limit; [apply Hst|lia|done|].
    eapply within_limit_same; [apply Hst|done..].
  - eapply within_limit_same; [apply Hst|done..].
Qed.

Lemma exec_limit s op m :
  manager_ok alg m -> allowed s op m -> unreferenced s -> within_limit m -> within_limit (mexec s op m).2.
Proof.
  intros Hm Hal Hs Hw. destruct (exec_settles alg diff apply_batch s op m Hm Hal) as [[_ Hev _] _].
  destruct Hal as (Hstore & Hfull & Hknown).
  destruct op as [tracked changes|tracked r changes|r|tracked r|hash|hash]; cbn [manager_exec error_of snd handles_known] in *.
  - eapply within_limit_same; [done| |done]. unfold Db_propose. destruct (current_revision m); [|done].
    apply propose_with_parent_revisions.
  - eapply within_limit_same; [done| |done]. unfold Proposal_propose. destruct (arena m !! r); [|done].
    apply propose_with_parent_revisions.
  - destruct (commit_is_locked alg s r m) as [-> _]. apply commit_locked_limit; [done|lia|done..].
  - by apply rebase_limit.
  - eapply within_limit_same; [done| |done]. by destruct (revision_reads alg s hash m Hstore Hm ltac:(lia)) as (_ & ? & _).
  - eapply within_limit_same; [done| |done]. unfold view. destruct (List.find _ _); [done|].
    destruct (revision_reads alg s hash m Hstore Hm ltac:(lia)) as (_ & Hq & _).
    by destruct (revision alg s hash m) as [[c|e] m'].
Qed.

(** A step in which no revision is referenced from outside. *)
Definition free_step (m m' : RevisionManager) : Prop := exists s op, unreferenced s /\ allowed s op m /\ (mexec s op m).2 = m'.

(** C28: While no revision is referenced from outside, the queue holds between one and
    [max_revisions] revisions along every run. *)
Theorem queue_bounded m0 m :
  opened m0 -> rtc free_step m0 m -> 1 <= Z.of_nat (length (in_memory_revisions m)) <= max_revisions m.
Proof.
  intros Ho Hr. assert (Hinv : manager_ok alg m /\ within_limit m).
  { pose proof (opened_ok _ _ Ho) as Hm0.
    assert (Hw0 : within_limit m0).
    { destruct Ho as (limit & gap & latest & next & store & add_root & ? & ? & ? & [Hl ->]%RevisionManager_new_Ok).
      unfold within_limit. cbn. lia. }
    clear Ho. induction Hr as [m|m1 m2 m3 (s & op & Hs & Hal & Hex) _ IH]; [done|]. subst m2.
    apply IH; [|by apply exec_limit]. destruct (exec_settles alg diff apply_batch s op m1 Hm0 Hal) as [Hst _]. apply Hst. }
  destruct Hinv as [Hm Hw]. split; [|done]. pose proof (queue_nonempty _ _ (ok_revisions _ _ Hm)).
  destruct (in_memory_revisions m); [done|]. cbn. lia.
Qed.

(** ** Rebasing *)

(** A proposal on the latest revision is committed, or the worker fails. *)
Lemma commit_locked_current s r p m latest :
  manager_ok alg m -> next_raw m < U64_MAX -> arena m !! r = Some p ->
  last (in_memory_revisions m) = Some latest -> parent_id_is p (c_id latest) = true ->
  match commit_locked alg s r m with
  | (Ok hash, m') => hash = view_root_hash alg p /\ exists c, current_revision m' = Ok c /\ committed_hash c = proposal_hash p
  | (Err e, _) => exists w, e = Raise (PersistFailed w)
  end.
Proof.
  intros Hm Hfull Hp Hl Hpid. unfold commit_locked. rewrite Hp.
  pose proof (critical_section_outcome alg s p m Hm Hfull) as Ho.
  destruct (commit_critical_section alg s p m) as [[id|e] m'] eqn:Hcs.
  - split; [done|]. destruct (critical_section_lives alg _ _ _ _ _ Hm Hfull Hcs) as (c & Hc & _ & Hh). exists c.
    split; [|done]. unfold current_revision. cbn. by rewrite Hc.
  - inversion Ho; subst; eauto. congruence.
Qed.


(** ** Lookups *)

(** A view is of the hash asked for: an open proposal with that root hash, or a revision
    with it (for the hash of the empty trie, an empty one); it fails only when the
    hash is not found or the root store fails, and it changes neither the revisions nor the
    proposals. *)
Theorem view_sound m0 m s hash :
  opened m0 -> rtc mstep m0 m -> allowed s (OpView hash) m ->
  in_memory_revisions (view alg s hash m).2 = in_memory_revisions m /\ arena (view alg s hash m).2 = arena m /\
  match (view alg s hash m).1 with
  | Ok (inl r) => r ∈ proposals m /\ exists p, arena m !! r = Some p /\ proposal_hash p = Some hash
  | Ok (inr c) => index_key alg c = Some hash
  | Err e => e = Raise (RevisionNotFound hash) \/ e = Raise RootStoreFailed
  end.
Proof.
  intros Ho Hr (Hstore & Hfull & _). pose proof (run_ok _ _ Ho Hr) as Hm. unfold view.
  destruct (List.find _ _) as [r|] eqn:Hf.
  - split; [done|]. split; [done|]. apply List.find_some in Hf as [Hin Hh]. apply bool_decide_eq_true in Hh.
    split; [by apply list_elem_of_In|]. cbn. by apply bind_Some in Hh.
  - destruct (revision_reads alg s hash m Hstore Hm ltac:(lia)) as (_ & Hq & Ha & Hres).
    destruct (revision alg s hash m) as [[c|e] m']; cbn in *; naive_solver.
Qed.

End Promises.

(** ** Concrete runs *)

Import Leb128 FirstBytes.

(** Roots at two addresses, with two hashes. *)
Definition hash_a : TrieHash := replicate 32 1.
Definition hash_b : TrieHash := replicate 32 2.
Definition root_at (addr : Z) (hash : TrieHash) : option Child := Some (AddressWithHash addr (Hash hash)).

(** A worker that accepts everything, no references but those held, and an empty root store. *)
Definition calm (held : list CommittedId) : surroundings :=
  mkSurroundings None (fun _ => Ok tt) (fun _ => Ok tt) (fun c => bool_decide (c_id c ∈ held)) (fun _ => true)
    (fun _ => Ok None) (fun _ => None) (Ok tt) (fun _ => Err OtherError).

Definition sample_latest : Committed := mkCommitted [] (root_at 4096 hash_a) 1.

(** Limit 3, one revision with hash [a]. *)
Definition sample_manager : RevisionManager :=
  mkManager 3 [sample_latest] {[ hash_a := sample_latest ]} [] ∅ 2 false.

Definition sample_diff (c : Committed) (p : ImmutableProposal) : result io_error (option Child) := Ok (p_root p).
Definition sample_apply (b : option Child) (c : Committed) : result batch_error (list MaybePersisted * option Child) := Ok ([], b).

Definition sample_exec (held : list CommittedId) (op : operation) (m : RevisionManager) : RevisionManager :=
  (manager_exec MerkleDB sample_diff sample_apply (calm held) op m).2.

(** Proposing a root and committing the proposal, which is the [n]-th one. *)
Definition commit_root (held : list CommittedId) (n : positive) (root : option Child) (m : RevisionManager) : RevisionManager :=
  sample_exec held (OpCommit n) (sample_exec held (OpPropose true (Ok ([], root))) m).

Definition sample_history (held : list CommittedId) : RevisionManager :=
  commit_root held 3 (root_at 16384 (replicate 32 3)) (commit_root held 2 (root_at 12288 hash_a)
    (commit_root held 1 (root_at 8192 hash_b) sample_manager)).

#[local] Abbreviation sample_steps := (rtc (manager_step MerkleDB sample_diff sample_apply)).

Lemma calm_allowed held op m :
  next_raw m + 3 <= U64_MAX -> handles_known op m -> allowed (calm held) op m.
Proof. intros Hn Hk. by split. Qed.

Lemma sample_step held op m m' :
  next_raw m + 3 <= U64_MAX -> handles_known op m -> sample_exec held op m = m' -> manager_step MerkleDB sample_diff sample_apply m m'.
Proof. intros Hn Hk <-. exists (calm held), op. split; [by apply calm_allowed|done]. Qed.

Lemma sample_opened : opened MerkleDB sample_manager.
Proof. exists 3, 1, sample_latest, 2, false, (fun _ _ => Ok tt). vm_compute. intuition congruence. Qed.

(** Committing one root after another is a run. *)
Lemma commit_root_steps held n root m :
  next_raw m + 3 <= U64_MAX -> next_raw (sample_exec held (OpPropose true (Ok ([], root))) m) = next_raw m ->
  is_Some (arena (sample_exec held (OpPropose true (Ok ([], root))) m) !! n) -> sample_steps m (commit_root held n root m).
Proof.
  intros Hn Hsame Hr. eapply rtc_l; [apply (sample_step held (OpPropose true (Ok ([], root)))); [done|done|reflexivity]|].
  apply rtc_once. apply (sample_step held (OpCommit n)); [by rewrite Hsame|exact Hr|reflexivity].
Qed.

Lemma sample_history_run held : held = [] \/ held = [1] -> sample_steps sample_manager (sample_history held).
Proof.
  intros Hheld. unfold sample_history.
  etransitivity; [apply (commit_root_steps held 1%positive (root_at 8192 hash_b))|etransitivity;
    [apply (commit_root_steps held 2%positive (root_at 12288 hash_a))|apply (commit_root_steps held 3%positive)]];
    destruct Hheld as [-> | ->]; vm_compute; solve [done|eauto|congruence].
Qed.

Lemma manager_invariant_witness :
  manager_ok MerkleDB (sample_history []) /\ (manager_exec MerkleDB sample_diff sample_apply (calm []) (OpRebase true 3%positive) (sample_history [])).1 <> Some ManagerPanic.
Proof.
  destruct (manager_invariant MerkleDB sample_diff sample_apply sample_manager (sample_history []) (calm []) (OpRebase true 3%positive))
    as (Hm & _ & He); [apply sample_opened|apply sample_history_run; by left| |by split].
  apply calm_allowed; [by vm_compute|]. eexists. by vm_compute.
Defined.

(** A proposal [p] on the revision [a] and a proposal [q] on [p]. *)
Definition nested_start : RevisionManager := sample_exec [] (OpPropose true (Ok ([], root_at 8192 hash_b))) sample_manager.
Definition nested_made : RevisionManager := (propose_on (calm []) true (Some 1%positive) (Ok ([], root_at 12288 hash_a)) nested_start).2.
Definition nested_between : RevisionManager := sample_exec [] (OpCommit 1%positive) nested_made.

Lemma commit_serializable_witness :
  exists latest, current_revision nested_between = Ok latest /\ committed_hash latest = Some hash_b.
Proof.
  destruct (commit_serializable MerkleDB sample_diff sample_apply sample_manager nested_start (calm []) true (Some 1%positive)
    (Ok ([], root_at 12288 hash_a)) 2%positive nested_made nested_between (calm []) 3
    (commit MerkleDB (calm []) 2%positive nested_between).2)
    as (latest & deleted & root & c & Hl & _ & (pq & Hpq & Hh) & _).
  - apply sample_opened.
  - apply rtc_once. by apply (sample_step [] (OpPropose true (Ok ([], root_at 8192 hash_b)))).
  - by vm_compute.
  - apply rtc_once. apply (sample_step [] (OpCommit 1%positive)); [by vm_compute| |done]. eexists. by vm_compute.
  - by vm_compute.
  - by vm_compute.
  - exists latest. split; [done|]. rewrite <- Hh. vm_compute in Hpq. injection Hpq as <-. done.
Defined.

Lemma queue_bounded_witness :
  1 <= Z.of_nat (length (in_memory_revisions nested_start)) <= 3.
Proof.
  apply (queue_bounded MerkleDB sample_diff sample_apply sample_manager nested_start); [apply sample_opened|].
  apply rtc_once. exists (calm []), (OpPropose true (Ok ([], root_at 8192 hash_b))).
  split; [intros c; by vm_compute|]. split; [by apply calm_allowed|done].
Defined.

(** A proposal that another commit has overtaken. *)
Definition overtaken : RevisionManager := commit_root [] 2 (root_at 12288 (replicate 32 3)) nested_start.

Lemma overtaken_run : sample_steps sample_manager overtaken.
Proof.
  eapply rtc_l; [apply (sample_step [] (OpPropose true (Ok ([], root_at 8192 hash_b)))); [done|done|reflexivity]|].
  apply commit_root_steps; [by vm_compute|by vm_compute|]. eexists. by vm_compute.
Qed.


Lemma view_sound_witness :
  match (view MerkleDB (calm []) hash_b nested_start).1 with Ok (inl r) => r ∈ proposals nested_start | _ => False end.
Proof.
  destruct (view_sound MerkleDB sample_diff sample_apply sample_manager nested_start (calm []) hash_b) as (_ & _ & Hv).
  - apply sample_opened.
  - apply rtc_once. by apply (sample_step [] (OpPropose true (Ok ([], root_at 8192 hash_b)))).
  - by apply calm_allowed.
  - destruct (view MerkleDB (calm []) hash_b nested_start) as [[[r|c]|e] m'] eqn:He; vm_compute in He; [|done..].
    by destruct Hv.
Defined.

(** ** What is lost *)

(** C30: The index can forget a revision that is in memory: with the hashes a, b, a, c committed
    one after the other and room for three revisions, reaping the first one removes the index entry of
    the third, which is in the queue and can no longer be looked up by its hash. *)
Theorem index_forgets_live_revision :
  exists m c, rtc (manager_step MerkleDB sample_diff sample_apply) sample_manager m /\ opened MerkleDB sample_manager /\
    c ∈ in_memory_revisions m /\ committed_hash c = Some hash_a /\
    (revision MerkleDB (calm []) hash_a m).1 = Err (Raise (RevisionNotFound hash_a)).
Proof.
  exists (sample_history []), (mkCommitted [Persisted 8192] (root_at 12288 hash_a) 3).
  split; [apply sample_history_run; by left|]. split; [apply sample_opened|]. split; [|by vm_compute].
  vm_compute. right. left.
Qed.

(** A proposal with the root hash of the latest revision and other nodes, and one on top of it. *)
Definition trivial_history : RevisionManager :=
  let m := sample_exec [] (OpPropose true (Ok ([], root_at 8192 hash_a))) sample_manager in
  let m := sample_exec [] (OpProposeOn true 1%positive (Ok ([], root_at 12288 hash_b))) m in
  sample_exec [] (OpCommit 2%positive) (sample_exec [] (OpCommit 1%positive) m).

(** C31: A commit that the fast path absorbs loses its delete list: after it and the commit of a
    proposal on top of it, the root that both replaced is in no delete list, so that its area
    is never reused. *)
Theorem trivial_commit_loses_deletions :
  rtc (manager_step MerkleDB sample_diff sample_apply) sample_manager trivial_history /\
  (exists c, current_revision trivial_history = Ok c /\ c_root c = root_at 12288 hash_b) /\
  c_root sample_latest = root_at 4096 hash_a /\ proposals trivial_history = [] /\
  forall c, c ∈ in_memory_revisions trivial_history -> Persisted 4096 ∉ c_deleted c.
Proof.
  split; [|split; [eexists; by vm_compute|split; [done|split; [by vm_compute|]]]].
  - eapply rtc_l; [apply (sample_step [] (OpPropose true (Ok ([], root_at 8192 hash_a)))); [done|done|reflexivity]|].
    eapply rtc_l; [apply (sample_step [] (OpProposeOn true 1%positive (Ok ([], root_at 12288 hash_b)))); [by vm_compute|eexists; by vm_compute|reflexivity]|].
    eapply rtc_l; [apply (sample_step [] (OpCommit 1%positive)); [by vm_compute|eexists; by vm_compute|reflexivity]|].
    apply rtc_once. apply (sample_step [] (OpCommit 2%positive)); [by vm_compute|eexists; by vm_compute|reflexivity].
  - assert (Hq : in_memory_revisions trivial_history = [sample_latest; mkCommitted [Persisted 8192] (root_at 12288 hash_b) 2]) by by vm_compute.
    rewrite Hq. intros c [-> | [-> | []%not_elem_of_nil]%elem_of_cons]%elem_of_cons; set_solver.
Qed.
