(* ===== verification/Batch.v ===== *)
(** * Applying batches

    The batch operations of a proposal: the checks of [firewood/src/api.rs], and the serial
    application of [firewood/src/manager.rs] to the trie of a mutable store. *)

From S2P Require Import Prelude Primitives NodePath Node Codec NodeCodec Trie NodeStore Linear.
From S2P Require Import Merkle MerkleSpec MerkleInsert MerkleRemove TrieCanonical MerkleCorrect Rlp Hashing ProofTypes ProofWire.

(** [CreateProposalError]. *)
Inductive CreateProposalError : Type :=
| ProposalFileIo (e : failure)
| SendError
| InvalidConversionToPathComponent
| KeyTooLong (len max : Z)
| EmptyValue.

(** [BatchOp::key]. *)
Definition op_key (op : BatchOp) : bytes :=
  match op with Put key _ => key | Delete key => key | DeleteRange prefix => prefix end.

(** [check_batch_op]. *)
Definition check_batch_op (alg : NodeHashAlgorithm) (op : BatchOp) : result CreateProposalError unit :=
  let l := len (op_key op) in
  if MAX_KEY_BYTES <? l then Err (KeyTooLong l MAX_KEY_BYTES)
  else
    match is_ethereum alg, op with
    | true, Put _ [] => Err EmptyValue
    | _, _ => Ok tt
    end.

(** The recursion of a prefix removal is as deep as the trie, and keys have at most
    [MAX_KEY_BYTES] bytes. *)
Definition TRIE_FUEL : nat := S (2 * Z.to_nat MAX_KEY_BYTES).

Section Batch.
Context {St : Type} `{ReadableStorage St} `{VarInt}.
Variable alg : NodeHashAlgorithm.

(** One operation of the loop. *)
Definition apply_batch_op (op : BatchOp) : store_op St unit :=
  match op with
  | Put key value => _ ← insert alg key value; mret tt
  | Delete key => _ ← remove alg key; mret tt
  | DeleteRange prefix => _ ← remove_prefix alg TRIE_FUEL prefix; mret tt
  end.

(** [RevisionManager::apply_batch_serial]: the store is consumed, so that an error drops the
    changes made before it. *)
Fixpoint apply_batch_serial (batch : list BatchOp) (ns : NodeStore St) : result CreateProposalError (NodeStore St) :=
  match batch with
  | [] => Ok ns
  | op :: batch =>
      match check_batch_op alg op with
      | Err e => Err e
      | Ok _ =>
          match apply_batch_op op ns with
          | (Err e, _) => Err (ProposalFileIo e)
          | (Ok _, ns) => apply_batch_serial batch ns
          end
      end
  end.

End Batch.

(** ** The same on a map *)

Definition batch_op_map (m : gmap bytes Value) (op : BatchOp) : gmap bytes Value :=
  match op with
  | Put key value => <[key := value]> m
  | Delete key => delete key m
  | DeleteRange prefix => filter (fun kv => ~ prefix `prefix_of` kv.1) m
  end.

Definition batch_map (batch : list BatchOp) (m : gmap bytes Value) : gmap bytes Value := foldl batch_op_map m batch.

(** The first operation that is refused. *)
Fixpoint check_batch (alg : NodeHashAlgorithm) (batch : list BatchOp) : result CreateProposalError unit :=
  match batch with
  | [] => Ok tt
  | op :: batch => _ ← check_batch_op alg op; check_batch alg batch
  end.

Lemma check_batch_op_len alg op : check_batch_op alg op = Ok tt -> (2 * length (op_key op) < TRIE_FUEL)%nat.
Proof.
  unfold check_batch_op. destruct (Z.ltb_spec MAX_KEY_BYTES (len (op_key op))) as [|Hle]; [done|]. intros _.
  unfold TRIE_FUEL. unfold MAX_KEY_BYTES in *. lia.
Qed.

Section BatchCorrect.
Context {St : Type} `{ReadableStorageLaws St} `{VarInt}.
Variable alg : NodeHashAlgorithm.
Variable rd : LinearAddress -> option Node.

(** The state after an operation does not depend on what is made of its result. *)
Lemma store_bind_forget {A B C} (op : store_op St A) (f : A -> B) (c : C) ns b ns' :
  (x ← op; mret (f x)) ns = (Ok b, ns') -> (_ ← op; mret c) ns = (Ok c, ns').
Proof.
  unfold mbind, store_bind. destruct (op ns) as [[a|e] ns1]; [|done]. unfold mret, store_ret. congruence.
Qed.

(** The store holds a map. *)
Definition holds_map (ns : NodeStore St) (m : gmap bytes Value) : Prop :=
  exists t, represents alg rd ns t /\ ocanonical t /\ contents TRIE_FUEL t m.

(** An operation that passes its check. *)
Lemma apply_batch_op_ok op ns m :
  is_bytes (op_key op) -> check_batch_op alg op = Ok tt -> holds_map ns m ->
  exists ns', apply_batch_op alg op ns = (Ok tt, ns') /\ holds_map ns' (batch_op_map m op).
Proof.
  intros Hb Hc%check_batch_op_len (t & Hr & Hcan & Hm).
  pose (o := match op with Put k v => OpInsert k v | Delete k => OpRemove k | DeleteRange p => OpRemovePrefix p end).
  assert (Ho : op_ok TRIE_FUEL o) by (by destruct op).
  destruct (run_op_refines alg rd TRIE_FUEL o ns t m Ho Hr Hcan Hm) as (ns' & t' & hs & Hrun & (Hr' & _ & _ & _ & Hc') & Hm').
  exists ns'. split; [|exists t'; split; [done|]; split; [by auto|]; by destruct op].
  subst o. destruct op as [k v|k|p]; cbn [run_op apply_batch_op] in *.
  - exact (store_bind_forget (insert alg k v) (fun _ => RUnit) tt ns _ ns' Hrun).
  - exact (store_bind_forget (remove alg k) RValue tt ns _ ns' Hrun).
  - exact (store_bind_forget (remove_prefix alg TRIE_FUEL p) RCount tt ns _ ns' Hrun).
Qed.

Lemma apply_batch_serial_ok batch ns m :
  Forall (fun op => is_bytes (op_key op)) batch -> holds_map ns m ->
  match check_batch alg batch with
  | Ok _ => exists ns', apply_batch_serial alg batch ns = Ok ns' /\ holds_map ns' (batch_map batch m)
  | Err e => apply_batch_serial alg batch ns = Err e
  end.
Proof.
  intros Hb. revert ns m. induction Hb as [|op batch Hop _ IH]; intros ns m Hm; cbn [check_batch apply_batch_serial]; [eauto|].
  destruct (check_batch_op alg op) as [[]|e] eqn:Hc; [|done].
  destruct (apply_batch_op_ok op ns m Hop Hc Hm) as (ns1 & -> & Hm1). cbn [mbind result_bind]. by apply IH.
Qed.

(** C27: A batch is applied as a whole or refused.  From a store whose trie holds the map [m], if every
    operation passes its check (keys of at most 1024 bytes, and no empty value under Ethereum), the batch
    succeeds and the trie holds the map that the puts, deletions and range deletions make of [m], in
    order; otherwise the error is that of the first operation that does not pass. *)
Theorem apply_batch_correct batch ns m :
  Forall (fun op => is_bytes (op_key op)) batch -> holds_map ns m ->
  match check_batch alg batch with
  | Ok _ => exists ns', apply_batch_serial alg batch ns = Ok ns' /\ holds_map ns' (batch_map batch m)
  | Err e => apply_batch_serial alg batch ns = Err e
  end.
Proof. apply apply_batch_serial_ok. Qed.

End BatchCorrect.

Lemma contents_weaken f g t m : contents f t m -> (f <= g)%nat -> contents g t m.
Proof. intros [Hg Hk Hb] Hle. split; [done|done|]. intros b x Hx. destruct (Hb b x Hx). split; [done|lia]. Qed.

(** *** Witness: a batch on a trie that is partly on disk *)
Section BatchWitness.
Import Leb128.

Definition w_batch : list BatchOp := [Put [98] [8]; DeleteRange [97]; Delete []].

Lemma w_holds_map : holds_map MerkleDB w_rd w_store w_map.
Proof.
  exists (Some w_trie). split; [apply w_represents|]. split; [apply w_canonical|].
  apply (contents_weaken 9); [apply w_contents|]. apply (bool_decide_unpack (9 <= TRIE_FUEL)%nat). vm_compute. exact I.
Qed.

Lemma apply_batch_correct_witness :
  exists ns', apply_batch_serial MerkleDB w_batch w_store = Ok ns' /\ holds_map MerkleDB w_rd ns' {[ [98] := [8] ]}.
Proof.
  pose proof (apply_batch_correct MerkleDB w_rd w_batch w_store w_map) as Hc.
  change (check_batch MerkleDB w_batch) with (@Ok CreateProposalError unit tt) in Hc.
  assert (Hm : batch_map w_batch w_map = {[ [98] := [8] ]}) by (by vm_compute).
  rewrite Hm in Hc. apply Hc; [|apply w_holds_map]. repeat constructor; unfold u8, U8_MAX; lia.
Defined.

End BatchWitness.
