(* ===== verification/Diff.v ===== *)
(** * The difference of two tries

    [firewood/src/merkle/changes.rs]: the iterator that walks two hashed tries in step,
    skips subtries whose hashes agree, and yields the operations that turn the first into
    the second. *)

From S2P Require Import Prelude Primitives NodePath Node Codec NodeCodec Trie NodeStore Merkle Rlp Hashing Iter ProofTypes ProofWire.

(** ** Readers *)

(** [HashedNodeReader], with the traits it extends. *)
Class HashedNodeReader (T : Type) : Type := {
  hr_read_node : T -> LinearAddress -> result failure Node;
  hr_root_node : T -> option Node;
  hr_root_hash : T -> option TrieHash;
}.

(** [Path]'s [Ord]. *)
Fixpoint slice_cmp (a b : Path) : comparison :=
  match a, b with
  | [], [] => Eq
  | [], _ :: _ => Lt
  | _ :: _, [] => Gt
  | x :: a, y :: b => match x ?= y with Eq => slice_cmp a b | c => c end
  end.

(** ** States *)

(** [ComparableNodeInfo]. *)
Record ComparableNodeInfo : Type := mkInfo {
  ci_path : Path;
  ci_node : Node;
  ci_hash : option TrieHash;
}.

Inductive DiffIterationNodeState : Type :=
| TraverseBoth
| TraverseLeft (right_state : ComparableNodeInfo)
| TraverseRight (left_state : ComparableNodeInfo)
| AddRestRight
| DeleteRestLeft
| SkipChildren.

(** [PreOrderIterator]; the top of the stack is the head of the list. *)
Record PreOrderIterator (T : Type) : Type := mkPreOrder {
  node_info : option ComparableNodeInfo;
  po_trie : T;
  traversal_stack : list ComparableNodeInfo;
}.
Arguments mkPreOrder {T}.
Arguments node_info {T}.
Arguments po_trie {T}.
Arguments traversal_stack {T}.

Record DiffMerkleNodeStream (L R : Type) : Type := mkDiff {
  diff_state : option DiffIterationNodeState;
  left_tree : PreOrderIterator L;
  right_tree : PreOrderIterator R;
}.
Arguments mkDiff {L R}.
Arguments diff_state {L R}.
Arguments left_tree {L R}.
Arguments right_tree {L R}.

Section Diff.
Context `{Digests}.

Section PreOrder.
Context {T : Type} `{HashedNodeReader T}.

(** [Child::as_shared_node]. *)
Definition Child_as_shared_node (trie : T) (child : Child) : result failure Node :=
  match child with
  | ChildNode node => Ok node
  | AddressWithHash addr _ => hr_read_node trie addr
  | ChildMaybePersisted (Unpersisted node) _ | ChildMaybePersisted (Allocated _ node) _ => Ok node
  | ChildMaybePersisted (Persisted addr) _ => hr_read_node trie addr
  end.

(** [ComparableNodeInfo::new]. *)
Definition ComparableNodeInfo_new (pre_path : Path) (child : Child) (trie : T) : result failure ComparableNodeInfo :=
  node ← Child_as_shared_node trie child;
  mret (mkInfo (pre_path ++ partial_path node) node (into_triehash <$> Child_hash child)).

(** Pushing children, the last one first; an error leaves what was pushed before it. *)
Fixpoint push_children (trie : T) (children : list (Child * Path)) (stack : list ComparableNodeInfo)
  : result failure unit * list ComparableNodeInfo :=
  match children with
  | [] => (Ok tt, stack)
  | (child, child_pre_path) :: children =>
      match ComparableNodeInfo_new child_pre_path child trie with
      | Err e => (Err e, stack)
      | Ok info => push_children trie children (info :: stack)
      end
  end.

(** The children of a branch in reverse, with their paths. *)
Definition reversed_children (path : Path) (branch : BranchNode) : list (Child * Path) :=
  map (fun p => (p.2, path ++ [p.1])) (rev (Children_iter_present (branch_children branch))).

(** [PreOrderIterator::next_node_info]. *)
Definition next_node_info (it : PreOrderIterator T) : result failure (option ComparableNodeInfo) * PreOrderIterator T :=
  let '(pushed, stack) :=
    match node_info it with
    | Some (mkInfo path (Branch branch) _) => push_children (po_trie it) (reversed_children path branch) (traversal_stack it)
    | _ => (Ok tt, traversal_stack it)
    end in
  match pushed with
  | Err e => (Err e, mkPreOrder None (po_trie it) stack)
  | Ok _ =>
      match stack with
      | [] => (Ok None, mkPreOrder None (po_trie it) [])
      | info :: stack => (Ok (Some info), mkPreOrder (Some info) (po_trie it) stack)
      end
  end.

(** [PreOrderIterator::skip_children]. *)
Definition skip_children (it : PreOrderIterator T) : PreOrderIterator T :=
  mkPreOrder None (po_trie it) (traversal_stack it).

(** The two loops of [iterate_to_key] over the children: skip up to the first that may reach the key,
    then push that one and all the others. *)
Fixpoint push_reaching (trie : T) (key_path : Path) (children : list (Child * Path)) (stack : list ComparableNodeInfo)
  : result failure unit * list ComparableNodeInfo :=
  match children with
  | [] => (Ok tt, stack)
  | (child, child_pre_path) :: rest =>
      let path_overlap := PrefixOverlap_from key_path child_pre_path in
      if match po_unique_b path_overlap with [] => true | _ => false end
         || match slice_cmp child_pre_path key_path with Gt => true | _ => false end
      then push_children trie children stack
      else push_reaching trie key_path rest stack
  end.

(** The loop of [PreOrderIterator::iterate_to_key]. *)
Fixpoint iterate_loop (fuel : nat) (key_path : Path) (it : PreOrderIterator T) : result failure (PreOrderIterator T) :=
  match fuel with
  | O => Err Diverges
  | S fuel =>
      let '(pushed, stack) :=
        match node_info it with
        | Some (mkInfo path (Branch branch) _) =>
            push_reaching (po_trie it) key_path (reversed_children path branch) (traversal_stack it)
        | _ => (Ok tt, traversal_stack it)
        end in
      match pushed with
      | Err e => Err e
      | Ok _ =>
          match stack with
          | [] => Ok (mkPreOrder None (po_trie it) [])
          | info :: stack =>
              match slice_cmp (ci_path info) key_path with
              | Lt =>
                  let node_info :=
                    match ci_node info, po_unique_b (PrefixOverlap_from key_path (ci_path info)) with
                    | Branch _, [] => Some info
                    | _, _ => None
                    end in
                  iterate_loop fuel key_path (mkPreOrder node_info (po_trie it) stack)
              | _ => Ok (mkPreOrder None (po_trie it) (info :: stack))
              end
          end
      end
  end.

(** [PreOrderIterator::iterate_to_key]; [fuel] bounds the nodes that are passed. *)
Definition iterate_to_key (fuel : nat) (key : bytes) (it : PreOrderIterator T) : result failure (PreOrderIterator T) :=
  match key with
  | [] => Ok it
  | _ => iterate_loop fuel (from_nibbles_iterator (NibblesIterator_new key)) it
  end.

(** [PreOrderIterator::new]. *)
Definition PreOrderIterator_new (fuel : nat) (trie : T) (start_key : bytes) : result failure (PreOrderIterator T) :=
  let traversal_stack :=
    option_list ((fun root => mkInfo (partial_path root) root (hr_root_hash trie)) <$> hr_root_node trie) in
  iterate_to_key fuel start_key (mkPreOrder None trie traversal_stack).

End PreOrder.

(** ** Comparing *)

(** [deleted_values]. *)
Definition deleted_values (left_value : option Value) (left_path : Path) : result failure (option BatchOp) :=
  match left_value with
  | None => mret None
  | Some _ => key ← key_from_nibble_iter left_path; mret (Some (Delete key))
  end.

(** [added_values]. *)
Definition added_values (right_value : option Value) (right_path : Path) : result failure (option BatchOp) :=
  match right_value with
  | None => mret None
  | Some val => key ← key_from_nibble_iter right_path; mret (Some (Put key val))
  end.

(** [hash_match]. *)
Definition hash_match (left_hash right_hash : option TrieHash) : DiffIterationNodeState :=
  match left_hash, right_hash with
  | Some left_hash, Some right_hash => if bool_decide (left_hash = right_hash) then SkipChildren else TraverseBoth
  | _, _ => TraverseBoth
  end.

(** [one_step_compare]. *)
Definition one_step_compare (left_state right_state : ComparableNodeInfo) : result failure (DiffIterationNodeState * option BatchOp) :=
  match slice_cmp (ci_path left_state) (ci_path right_state) with
  | Lt => op ← deleted_values (node_value (ci_node left_state)) (ci_path left_state); mret (TraverseLeft right_state, op)
  | Gt => op ← added_values (node_value (ci_node right_state)) (ci_path right_state); mret (TraverseRight left_state, op)
  | Eq =>
      match node_value (ci_node left_state), node_value (ci_node right_state) with
      | None, None => mret (hash_match (ci_hash left_state) (ci_hash right_state), None)
      | Some val, None => op ← deleted_values (Some val) (ci_path left_state); mret (TraverseBoth, op)
      | None, Some val => op ← added_values (Some val) (ci_path right_state); mret (TraverseBoth, op)
      | Some left_val, Some right_val =>
          if bool_decide (left_val = right_val)
          then mret (hash_match (ci_hash left_state) (ci_hash right_state), None)
          else op ← added_values (Some right_val) (ci_path right_state); mret (TraverseBoth, op)
      end
  end.

(** ** The stream *)
Context {L R : Type} `{HashedNodeReader L} `{HashedNodeReader R}.

(** [DiffMerkleNodeStream::new]. *)
Definition DiffMerkleNodeStream_new (fuel : nat) (left_tree : L) (right_tree : R) (start_key : bytes)
  : result failure (DiffMerkleNodeStream L R) :=
  left_tree ← PreOrderIterator_new fuel left_tree start_key;
  right_tree ← PreOrderIterator_new fuel right_tree start_key;
  mret (mkDiff (Some TraverseBoth) left_tree right_tree).

(** [next_node_from_both]. *)
Definition next_node_from_both (ltree : PreOrderIterator L) (rtree : PreOrderIterator R)
  : result failure (DiffIterationNodeState * option BatchOp) * PreOrderIterator L * PreOrderIterator R :=
  match next_node_info ltree with
  | (Err e, ltree) => (Err e, ltree, rtree)
  | (Ok None, ltree) => (Ok (AddRestRight, None), ltree, rtree)
  | (Ok (Some left_state), ltree) =>
      match next_node_info rtree with
      | (Err e, rtree) => (Err e, ltree, rtree)
      | (Ok None, rtree) =>
          (op ← deleted_values (node_value (ci_node left_state)) (ci_path left_state); mret (DeleteRestLeft, op), ltree, rtree)
      | (Ok (Some right_state), rtree) => (one_step_compare left_state right_state, ltree, rtree)
      end
  end.

(** The body of the loop of [next_internal]: the next state with the operation, nothing at the end of the
    iteration, or an error. *)
Definition diff_step (state : DiffIterationNodeState) (ltree : PreOrderIterator L) (rtree : PreOrderIterator R)
  : result failure (option (DiffIterationNodeState * option BatchOp)) * PreOrderIterator L * PreOrderIterator R :=
  match state with
  | SkipChildren =>
      let '(res, ltree, rtree) := next_node_from_both (skip_children ltree) (skip_children rtree) in (Some <$> res, ltree, rtree)
  | TraverseBoth => let '(res, ltree, rtree) := next_node_from_both ltree rtree in (Some <$> res, ltree, rtree)
  | TraverseLeft right_state =>
      match next_node_info ltree with
      | (Err e, ltree) => (Err e, ltree, rtree)
      | (Ok (Some left_state), ltree) => (Some <$> one_step_compare left_state right_state, ltree, rtree)
      | (Ok None, ltree) =>
          (op ← added_values (node_value (ci_node right_state)) (ci_path right_state); mret (Some (AddRestRight, op)), ltree, rtree)
      end
  | TraverseRight left_state =>
      match next_node_info rtree with
      | (Err e, rtree) => (Err e, ltree, rtree)
      | (Ok (Some right_state), rtree) => (Some <$> one_step_compare left_state right_state, ltree, rtree)
      | (Ok None, rtree) =>
          (op ← deleted_values (node_value (ci_node left_state)) (ci_path left_state); mret (Some (DeleteRestLeft, op)), ltree, rtree)
      end
  | AddRestRight =>
      match next_node_info rtree with
      | (Err e, rtree) => (Err e, ltree, rtree)
      | (Ok None, rtree) => (Ok None, ltree, rtree)
      | (Ok (Some right_state), rtree) =>
          (op ← added_values (node_value (ci_node right_state)) (ci_path right_state); mret (Some (AddRestRight, op)), ltree, rtree)
      end
  | DeleteRestLeft =>
      match next_node_info ltree with
      | (Err e, ltree) => (Err e, ltree, rtree)
      | (Ok None, ltree) => (Ok None, ltree, rtree)
      | (Ok (Some left_state), ltree) =>
          (op ← deleted_values (node_value (ci_node left_state)) (ci_path left_state); mret (Some (DeleteRestLeft, op)), ltree, rtree)
      end
  end.

(** [next_internal]; [fuel] bounds the rounds of its loop.  After an error or at the end the state is
    taken, and every later call returns nothing. *)
Fixpoint next_internal (fuel : nat) (stream : DiffMerkleNodeStream L R) : result failure (option BatchOp) * DiffMerkleNodeStream L R :=
  match fuel with
  | O => (Err Diverges, stream)
  | S fuel =>
      match diff_state stream with
      | None => (Ok None, stream)
      | Some state =>
          match diff_step state (left_tree stream) (right_tree stream) with
          | (Err e, ltree, rtree) => (Err e, mkDiff None ltree rtree)
          | (Ok None, ltree, rtree) => (Ok None, mkDiff None ltree rtree)
          | (Ok (Some (next_state, op)), ltree, rtree) =>
              let stream := mkDiff (Some next_state) ltree rtree in
              match op with
              | Some op => (Ok (Some op), stream)
              | None => next_internal fuel stream
              end
          end
      end
  end.

(** Collecting the stream into a vector, which stops at the first error. *)
Fixpoint diff_collect (fuel : nat) (stream : DiffMerkleNodeStream L R) : result failure (list BatchOp) :=
  match fuel with
  | O => Err Diverges
  | S fuel' =>
      match next_internal fuel stream with
      | (Err e, _) => Err e
      | (Ok None, _) => Ok []
      | (Ok (Some op), stream) => ops ← diff_collect fuel' stream; mret (op :: ops)
      end
  end.

End Diff.
