(* ===== verification/DiffRef.v ===== *)
(** * The difference of two sorted lists

    The reference for [Diff]: two lists of pairs in ascending order of their keys, and the
    changes that lead from one to the other. *)

From stdpp Require Import sorting.
From S2P Require Import Prelude Primitives NodePath Node Codec NodeCodec Trie NodeStore Linear.
From S2P Require Import Merkle MerkleSpec MerkleInsert MerkleRemove TrieCanonical MerkleCorrect Rlp Hashing HashSpec Iter IterSpec.
From S2P Require Import ProofTypes ProofWire Diff.

(** ** The order of paths *)

Lemma slice_cmp_spec a b :
  match slice_cmp a b with Eq => a = b | Lt => slice_lt a b | Gt => slice_lt b a end.
Proof.
  unfold slice_lt. revert b. induction a as [|x a IH]; intros [|y b]; cbn; try done.
  rewrite (Z.compare_antisym y x). destruct (Z.compare_spec y x) as [->|Hlt|Hgt]; cbn; [|done..].
  specialize (IH b). destruct (slice_cmp a b); [by f_equal|done..].
Qed.

Lemma slice_cmp_Lt a b : slice_lt a b -> slice_cmp a b = Lt.
Proof.
  intros Hab. pose proof (slice_cmp_spec a b) as Hs. destruct (slice_cmp a b); [|done|].
  - subst. by apply slice_lt_irrefl in Hab.
  - destruct (slice_lt_irrefl a). by eapply slice_lt_trans.
Qed.

Lemma slice_cmp_Gt a b : slice_lt b a -> slice_cmp a b = Gt.
Proof.
  intros Hab. pose proof (slice_cmp_spec a b) as Hs. destruct (slice_cmp a b); [| |done].
  - subst. by apply slice_lt_irrefl in Hab.
  - destruct (slice_lt_irrefl a). by eapply slice_lt_trans.
Qed.

Lemma slice_cmp_refl a : slice_cmp a a = Eq.
Proof. induction a as [|x a IH]; cbn; [done|]. by rewrite Z.compare_refl. Qed.

(** ** Changes *)

(** A key with its new value, or without one when it is deleted. *)
Definition change : Type := Path * option Value.

Definition deletions (l : list (Path * Value)) : list change := (fun p => (p.1, None)) <$> l.
Definition additions (l : list (Path * Value)) : list change := (fun p => (p.1, Some p.2)) <$> l.

Fixpoint merge_diff (l : list (Path * Value)) : list (Path * Value) -> list change :=
  match l with
  | [] => additions
  | (p, v) :: l' =>
      fix go (r : list (Path * Value)) : list change :=
        match r with
        | [] => deletions ((p, v) :: l')
        | (q, w) :: r' =>
            match slice_cmp p q with
            | Lt => (p, None) :: merge_diff l' r
            | Gt => (q, Some w) :: go r'
            | Eq => if bool_decide (v = w) then merge_diff l' r' else (q, Some w) :: merge_diff l' r'
            end
        end
  end.

Lemma merge_diff_nil_r l : merge_diff l [] = deletions l.
Proof. by destruct l as [|[p v] l]. Qed.

Lemma merge_diff_cons p v l q w r :
  merge_diff ((p, v) :: l) ((q, w) :: r) =
  match slice_cmp p q with
  | Lt => (p, None) :: merge_diff l ((q, w) :: r)
  | Gt => (q, Some w) :: merge_diff ((p, v) :: l) r
  | Eq => if bool_decide (v = w) then merge_diff l r else (q, Some w) :: merge_diff l r
  end.
Proof. reflexivity. Qed.

(** A key below all of the other side. *)
Lemma merge_diff_Lt p v l r : Forall (fun x => slice_lt p x.1) r -> merge_diff ((p, v) :: l) r = (p, None) :: merge_diff l r.
Proof.
  intros Hr. destruct r as [|[q w] r]; [by rewrite !merge_diff_nil_r|].
  apply Forall_cons in Hr as [Hq _]. by rewrite merge_diff_cons, slice_cmp_Lt.
Qed.

Lemma merge_diff_Gt q w l r : Forall (fun x => slice_lt q x.1) l -> merge_diff l ((q, w) :: r) = (q, Some w) :: merge_diff l r.
Proof.
  intros Hl. destruct l as [|[p v] l]; [done|].
  apply Forall_cons in Hl as [Hp _]. by rewrite merge_diff_cons, slice_cmp_Gt.
Qed.

(** A part that both sides share changes nothing. *)
Lemma merge_diff_app a l r : merge_diff (a ++ l) (a ++ r) = merge_diff l r.
Proof.
  induction a as [|[p v] a IH]; [done|]. cbn [app]. by rewrite merge_diff_cons, slice_cmp_refl, bool_decide_eq_true_2.
Qed.

(** ** What the changes are *)

Abbreviation ascending l := (StronglySorted (fun x y => slice_lt x.1 y.1) l).

Lemma ascending_head {A} (x : Path * A) l : ascending (x :: l) -> Forall (fun y => slice_lt x.1 y.1) l.
Proof. by inversion 1. Qed.

Lemma ascending_tail {A} (x : Path * A) l : ascending (x :: l) -> ascending l.
Proof. by inversion 1. Qed.

Lemma above_not_in {A} p (l : list (Path * A)) : Forall (fun y => slice_lt p y.1) l -> p ∉ l.*1.
Proof.
  intros Hl (x & -> & Hx)%list_elem_of_fmap. rewrite Forall_forall in Hl. by destruct (slice_lt_irrefl _ (Hl _ Hx)).
Qed.

Lemma above_trans {A} p q (l : list (Path * A)) :
  slice_lt p q -> Forall (fun y => slice_lt q y.1) l -> Forall (fun y => slice_lt p y.1) l.
Proof. intros Hpq Hl. eapply Forall_impl; [exact Hl|]. cbn. intros y Hy. by eapply slice_lt_trans. Qed.

(** Induction over two sorted lists, one step of the comparison at a time. *)
Lemma merge_ind (P : list (Path * Value) -> list (Path * Value) -> Prop) :
  (forall r, ascending r -> P [] r) -> (forall l, ascending l -> P l []) ->
  (forall p v l r, Forall (fun y => slice_lt p y.1) l -> Forall (fun y => slice_lt p y.1) r -> r <> [] -> P l r -> P ((p, v) :: l) r) ->
  (forall q w l r, Forall (fun y => slice_lt q y.1) r -> Forall (fun y => slice_lt q y.1) l -> l <> [] -> P l r -> P l ((q, w) :: r)) ->
  (forall p v w l r, Forall (fun y => slice_lt p y.1) l -> Forall (fun y => slice_lt p y.1) r -> P l r -> P ((p, v) :: l) ((p, w) :: r)) ->
  forall l r, ascending l -> ascending r -> P l r.
Proof.
  intros Hnl Hnr Hlt Hgt Heq l. induction l as [|[p v] l IHl]; intros r Hl Hr; [by apply Hnl|].
  induction r as [|[q w] r IHr]; [by apply Hnr|].
  pose proof (ascending_head _ _ Hl) as Hp. pose proof (ascending_tail _ _ Hl) as Hl'.
  pose proof (ascending_head _ _ Hr) as Hq. pose proof (ascending_tail _ _ Hr) as Hr'. cbn in Hp, Hq.
  pose proof (slice_cmp_spec p q) as Hc. destruct (slice_cmp p q).
  - subst q. apply Heq; auto.
  - apply Hlt; [done| |done|auto]. constructor; [done|]. by eapply above_trans.
  - apply Hgt; [done| |done|auto]. constructor; [done|]. by eapply above_trans.
Qed.

(** What a change says of the two lists. *)
Definition change_spec (l r : list (Path * Value)) (c : change) : Prop :=
  match c with
  | (p, None) => p ∈ l.*1 /\ p ∉ r.*1
  | (p, Some w) => (p, w) ∈ r /\ (p, w) ∉ l
  end.

Lemma elem_of_deletions p o l : (p, o) ∈ deletions l <-> o = None /\ p ∈ l.*1.
Proof.
  unfold deletions. rewrite !list_elem_of_fmap. split.
  - intros (x & [= -> ->] & Hx). eauto.
  - intros (-> & x & -> & Hx). eauto.
Qed.

Lemma elem_of_additions p o l : (p, o) ∈ additions l <-> exists w, o = Some w /\ (p, w) ∈ l.
Proof.
  unfold additions. rewrite list_elem_of_fmap. split.
  - intros ([q w] & [= -> ->] & Hx). eauto.
  - intros (w & -> & Hx). by exists (p, w).
Qed.

Lemma above_pair_not_in {A} p (w : A) l : Forall (fun y => slice_lt p y.1) l -> (p, w) ∉ l.
Proof. intros Hl%above_not_in Hin. apply Hl, list_elem_of_fmap. by exists (p, w). Qed.

Lemma merge_diff_spec l r c : ascending l -> ascending r -> c ∈ merge_diff l r <-> change_spec l r c.
Proof.
  intros Hl Hr. revert c. revert l r Hl Hr. refine (merge_ind (fun l r => forall c, c ∈ merge_diff l r <-> change_spec l r c) _ _ _ _ _).
  - intros r _ [p o]. cbn [merge_diff]. rewrite elem_of_additions. unfold change_spec.
    destruct o as [w|]; [|set_solver]. split; [|set_solver]. intros (w' & [= <-] & Hin). set_solver.
  - intros l _ [p o]. rewrite merge_diff_nil_r, elem_of_deletions. unfold change_spec. destruct o; set_solver.
  - intros p v l r Hpl Hpr _ IH [q o]. rewrite merge_diff_Lt, elem_of_cons, IH by done.
    pose proof (above_not_in _ _ Hpr) as Hnp. unfold change_spec. cbn. destruct o as [w|].
    + pose proof (above_pair_not_in p w r Hpr). set_solver.
    + rewrite elem_of_cons. split; [intros [[= ->]|[? ?]]; auto|]. intros [[->|?] ?]; auto.
  - intros q w l r Hqr Hql _ IH [p o]. rewrite merge_diff_Gt, elem_of_cons, IH by done.
    pose proof (above_not_in _ _ Hql) as Hnq. unfold change_spec. cbn. destruct o as [w'|].
    + rewrite elem_of_cons. pose proof (above_pair_not_in q w l Hql).
      split; [intros [[= -> ->]|[? ?]]; auto|]. intros [[[= -> ->]|?] ?]; auto.
    + rewrite not_elem_of_cons. split; [intros [?|[? ?]]; [done|]; split; [done|]; split; [|done]; intros ->; done|]. tauto.
  - intros p v w l r Hpl Hpr IH [q o]. rewrite merge_diff_cons, slice_cmp_refl.
    pose proof (above_not_in _ _ Hpl) as Hnl. pose proof (above_not_in _ _ Hpr) as Hnr.
    assert (Hrest : (q, o) ∈ merge_diff l r \/ (o = Some w /\ q = p /\ v <> w) <-> change_spec ((p, v) :: l) ((p, w) :: r) (q, o)).
    { rewrite IH. unfold change_spec. cbn. destruct o as [w'|].
      - pose proof (above_pair_not_in p w r Hpr). pose proof (above_pair_not_in p w l Hpl).
        pose proof (above_pair_not_in p v r Hpr) as Hvr. rewrite elem_of_cons, not_elem_of_cons. split.
        + intros [[Hin Hni]|([= ->] & -> & Hne)]; [|split; [by left|]; split; [congruence|done]].
          split; [by right|]. split; [|done]. intros [= -> ->]. done.
        + intros [[[= -> ->]|Hin] [Hne Hni]]; [right|left; done]. split; [done|]. split; [done|]. congruence.
      - rewrite elem_of_cons, not_elem_of_cons. split.
        + intros [[Hin Hni]|[? _]]; [|done]. split; [by right|]. split; [|done]. intros ->. done.
        + intros [[->|Hin] [Hne Hni]]; [done|]. by left. }
    rewrite <- Hrest. case_bool_decide as Hvw.
    + split; [by left|]. intros [?|(_ & _ & ?)]; [done|congruence].
    + rewrite elem_of_cons. split; [intros [[= -> ->]|?]; auto|]. intros [?|(-> & -> & _)]; auto.
Qed.

(** The changes ascend as well. *)
Lemma merge_diff_above l r p :
  Forall (fun y => slice_lt p y.1) l -> Forall (fun y => slice_lt p y.1) r -> ascending l -> ascending r ->
  Forall (fun c : change => slice_lt p c.1) (merge_diff l r).
Proof.
  intros Hpl Hpr Hl Hr. apply Forall_forall. intros [q o] Hq%merge_diff_spec; [|done..]. cbn.
  rewrite Forall_forall in Hpl, Hpr. destruct o as [w|]; destruct Hq as [Hq _].
  - by apply Hpr in Hq.
  - apply list_elem_of_fmap in Hq as (x & -> & Hx). by apply Hpl.
Qed.

Lemma merge_diff_ascending l r : ascending l -> ascending r -> ascending (merge_diff l r).
Proof.
  intros Hl Hr. induction Hl as [|[p v] l Hl IHl Hp] in r, Hr |- *.
  { cbn [merge_diff]. induction Hr as [|x r Hr IH Hx]; cbn; constructor; [done|]. by apply Forall_fmap. }
  induction Hr as [|[q w] r Hr IHr Hq].
  { rewrite merge_diff_nil_r. cbn. constructor; [|by apply Forall_fmap]. specialize (IHl [] (SSorted_nil _)).
    by rewrite merge_diff_nil_r in IHl. }
  cbn in Hp, Hq. rewrite merge_diff_cons. pose proof (slice_cmp_spec p q) as Hc. destruct (slice_cmp p q).
  - subst q. pose proof (merge_diff_above l r p Hp Hq Hl Hr). case_bool_decide; [by auto|]. constructor; [by auto|done].
  - constructor; [apply IHl; by constructor|]. apply merge_diff_above; [done| |done|by constructor].
    constructor; [done|]. by eapply above_trans.
  - constructor; [done|]. apply merge_diff_above; [|done|by constructor|done].
    constructor; [done|]. by eapply above_trans.
Qed.
