(* ===== verification/DiffSpec.v ===== *)
(** * The difference of two tries, against their contents

    The pre-order iterator yields the nodes of a trie in key order, from a start key on; the
    stream over two of them yields the difference of the two sorted lists of pairs. *)

From stdpp Require Import sorting.
From S2P Require Import Prelude Primitives NodePath Node Codec NodeCodec Trie NodeStore Linear.
From S2P Require Import Merkle MerkleSpec MerkleInsert MerkleRemove TrieCanonical MerkleCorrect Rlp Hashing HashSpec HashHelper HashBinding Iter IterSpec.
From S2P Require Import ProofTypes ProofWire Diff DiffRef.

(** ** Prefixes and the order *)

Lemma overlap_prefix key q : po_unique_b (PrefixOverlap_from key q) = [] <-> exists r, key = q ++ r.
Proof.
  unfold PrefixOverlap_from. cbn. revert q. induction key as [|x key IH]; intros [|y q]; cbn.
  - split; [by exists []|done].
  - split; [done|by intros [r ?]].
  - split; [by exists (x :: key)|done].
  - destruct (Z.eqb_spec x y) as [->|Hne]; cbn.
    + rewrite IH. split; [intros [r ->]; by exists r|intros [r [= ->]]; by exists r].
    + split; [done|]. intros [r [= ? ?]]. done.
Qed.

Lemma below_not_prefix q key s : slice_lt q key -> ~ (exists r, key = q ++ r) -> slice_lt (q ++ s) key.
Proof.
  unfold slice_lt. revert key. induction q as [|y q IH]; intros key Hlt Hnp; [destruct Hnp; by exists key|].
  destruct key as [|x key]; [done|]. cbn in *. destruct (x ?= y) eqn:Hc; [|done..]. apply Z.compare_eq in Hc. subst.
  apply IH; [done|]. intros [r ->]. apply Hnp. by exists r.
Qed.

(** ** Pairs of a list of nodes *)

Definition node_pair_of (x : Path * trie) : option (Path * Value) := (fun v => (x.1, v)) <$> tval x.2.

Definition pairs_of (l : list (Path * trie)) : list (Path * Value) := omap node_pair_of l.

Lemma pairs_of_cons p t l : pairs_of ((p, t) :: l) = option_list ((fun v => (p, v)) <$> tval t) ++ pairs_of l.
Proof. unfold pairs_of. csimpl. unfold node_pair_of at 1. cbn. by destruct (tval t). Qed.

Lemma pairs_of_app a b : pairs_of (a ++ b) = pairs_of a ++ pairs_of b.
Proof. apply omap_app. Qed.

Abbreviation sorted_nodes l := (StronglySorted (fun x y : Path * trie => slice_lt x.1 y.1) l).

Lemma pairs_of_ascending l : sorted_nodes l -> StronglySorted (fun x y : Path * Value => slice_lt x.1 y.1) (pairs_of l).
Proof.
  intros Hl. eapply StronglySorted_omap; [exact Hl|]. cbn. intros x y a b _ _ Hxy Ha Hb.
  unfold node_pair_of in *. apply fmap_Some in Ha as (v & _ & ->), Hb as (w & _ & ->). done.
Qed.

Lemma pairs_of_above p l : Forall (fun x : Path * trie => slice_lt p x.1) l -> Forall (fun x : Path * Value => slice_lt p x.1) (pairs_of l).
Proof.
  intros Hl. apply Forall_forall. intros x (y & Hy & Hx)%list_elem_of_omap. rewrite Forall_forall in Hl.
  unfold node_pair_of in Hx. apply fmap_Some in Hx as (v & _ & ->). by apply Hl.
Qed.

Lemma kids_preorder_cons full i (k : kid) l :
  kids_preorder full ((i, k) :: l) = preorder (full ++ i :: tpath k.2) k.2 ++ kids_preorder full l.
Proof. reflexivity. Qed.

(** Subtries that agree hold the same pairs. *)
Lemma tsim_kids_pairs ks us full :
  Children_wf ks -> Children_wf us ->
  (forall i, is_nibble i -> ksim (Children_get ks i) (Children_get us i)) ->
  (forall i g t h u, Children_get ks i = Some (g, t) -> Children_get us i = Some (h, u) ->
     tsim t u -> pairs_of (preorder (full ++ i :: tpath t) t) = pairs_of (preorder (full ++ i :: tpath u) u)) ->
  pairs_of (kids_preorder full (Children_iter_present ks)) = pairs_of (kids_preorder full (Children_iter_present us)).
Proof.
  intros Hk Hu Hsim Hpairs.
  assert (Hf : Forall2 (fun p q : PathComponent * kid => p.1 = q.1 /\
      pairs_of (preorder (full ++ p.1 :: tpath p.2.2) p.2.2) = pairs_of (preorder (full ++ p.1 :: tpath q.2.2) q.2.2))
    (Children_iter_present ks) (Children_iter_present us)).
  { assert (Hs : Forall2 (fun p q : PathComponent * kid => p.1 = q.1 /\ tsim p.2.2 q.2.2) (Children_iter_present ks) (Children_iter_present us)).
    { apply (present_Forall2_gen ksim (fun x y => tsim x.2 y.2)); [|by apply slots_Forall2].
      intros a b Hab. by destruct Hab. }
    apply Forall2_same_length_lookup_2; [by eapply Forall2_length|]. intros idx [i [g t]] [j [h u]] Hp Hq.
    destruct (Forall2_lookup_lr _ _ _ _ _ _ Hs Hp Hq) as [Hij Htu]. cbn in *. subst j. split; [done|].
    apply list_elem_of_lookup_2 in Hp, Hq. apply Children_iter_present_elem in Hp as [_ Hp], Hq as [_ Hq]; [|done..].
    by eapply Hpairs. }
  induction Hf as [|[i [g t]] [j [h u]] l m [Hij Heq] _ IH]; [done|]. cbn [fst snd] in *. subst j.
  rewrite !kids_preorder_cons, !pairs_of_app. cbn [snd]. by rewrite Heq, IH.
Qed.

Lemma tsim_pairs t u full : tsim t u -> pairs_of (preorder full t) = pairs_of (preorder full u).
Proof.
  revert u full. induction t as [pp v ks IH] using trie_ind'. intros u full Hs.
  inversion Hs as [? ? ? us Hk Hu Hsim]; subst. rewrite !preorder_T by done. rewrite !pairs_of_cons. cbn [tval]. f_equal.
  apply tsim_kids_pairs; [done..|]. intros i g t h u Hg _ Htu. apply Children_get_Some in Hg.
  rewrite (tsim_tpath t u Htu). by eapply IH.
Qed.

Lemma StronglySorted_sublist {A} (R : A -> A -> Prop) l k : sublist l k -> StronglySorted R k -> StronglySorted R l.
Proof.
  induction 1 as [|x l k Hs IH|x l k Hs IH]; intros Hk; [constructor| |]; inversion Hk as [|? ? Hk' Hx]; subst; [|by auto].
  constructor; [auto|]. rewrite Forall_forall in *. intros y Hy. apply Hx. by eapply elem_of_sublist.
Qed.

(** The nodes from a key on. *)
Definition from_path (key : Path) (l : list (Path * trie)) : list (Path * trie) := filter (at_or_after key) l.

Lemma from_path_nil key l : Forall (fun x : Path * trie => slice_lt x.1 key) l -> from_path key l = [].
Proof.
  induction 1 as [|x l Hx _ IH]; [done|]. unfold from_path, slice_lt in *. rewrite filter_cons_False; [done|]. unfold at_or_after. congruence.
Qed.

Lemma from_path_all key l : Forall (fun x : Path * trie => slice_le key x.1 = true) l -> from_path key l = l.
Proof. induction 1 as [|x l Hx _ IH]; [done|]. unfold from_path in *. by rewrite filter_cons_True, IH. Qed.

Lemma from_path_app key a b : from_path key (a ++ b) = from_path key a ++ from_path key b.
Proof. apply filter_app. Qed.

Section DiffSpec.
Context `{DigestsLaws} `{VarIntLaws}.

(** ** Nodes of the iterator *)

(** What is known of a subtrie at a path; [known] has every string that was hashed for the trie. *)
Record subtrie (known : list bytes) (p : Path) (t : trie) : Prop := {
  sub_wf : trie_wf t;
  sub_path : is_path p;
  sub_fit : paths_fit p t;
  sub_known : preimages p t ⊆ known;
}.

Lemma subtrie_kid known p pp v ks i g t :
  subtrie known p (T pp v ks) -> is_nibble i -> Children_get ks i = Some (g, t) -> subtrie known (p ++ i :: tpath t) t.
Proof.
  intros [Hwf Hp Hfit Hkn] Hi Hg. pose proof (trie_wf_inv _ _ _ Hwf) as (_ & _ & Hkids).
  inversion Hfit as [? ? ? ? _ _ Hfk]; subst. pose proof (Hkids _ _ _ Hg) as Hwt. split; [done| |by eapply Hfk|].
  - apply is_path_app. split; [done|]. apply is_path_cons. split; [done|]. destruct t. by apply trie_wf_inv in Hwt as [? _].
  - etransitivity; [by eapply preimages_kid|done].
Qed.

(** Nodes with equal hashes below equal paths hold the same pairs below them. *)
Lemma equal_hash_pairs known known' p t u :
  subtrie known p t -> subtrie known' p u -> ~ collision known known' ->
  thash MerkleDB [] p t = thash MerkleDB [] p u ->
  pairs_of (kids_preorder p (Children_iter_present (tkids t))) = pairs_of (kids_preorder p (Children_iter_present (tkids u))).
Proof.
  intros Ht Hu Hcol Hh. destruct t as [pp v ks], u as [qq w us].
  assert (Hwf : trie_wf (T qq v ks)).
  { pose proof (sub_wf _ _ _ Ht) as Hw. pose proof (sub_wf _ _ _ Hu) as Hw'. inversion Hw; subst. inversion Hw'; subst. by constructor. }
  assert (Hfit : paths_fit p (T qq v ks)).
  { pose proof (sub_fit _ _ _ Ht) as Hf. inversion Hf; subst. by constructor. }
  destruct (thash_binding (T qq v ks) (T qq w us) p p Hwf (sub_wf _ _ _ Hu) Hfit (sub_fit _ _ _ Hu)) as [[_ Hsim]|Hc].
  - rewrite !thash_T in *. exact Hh.
  - specialize (Hsim eq_refl). inversion Hsim as [? ? ? ? Hk Hk' Hks]; subst. cbn [tkids].
    apply tsim_kids_pairs; [done..|]. intros i g t h u _ _ Htu. rewrite (tsim_tpath t u Htu). by apply tsim_pairs.
  - destruct Hcol. eapply collision_mono; [exact Hc| |by apply sub_known].
    change (preimages p (T qq v ks)) with (preimages p (T pp v ks)). by apply sub_known.
Qed.

Section Iterator.
Context {T : Type} `{HashedNodeReader T}.
Variable rd : LinearAddress -> option Node.
Variable known : list bytes.

(** The reader answers with what the storage holds. *)
Definition reads (trie : T) : Prop := forall a n, rd a = Some n -> hr_read_node trie a = Ok n.

(** An entry of the stack: a node of the trie with its path and its hash. *)
Definition rinfo (info : ComparableNodeInfo) (p : Path) (t : Trie.trie) : Prop :=
  ci_path info = p /\ subtrie known p t /\ (exists pfx, p = pfx ++ tpath t /\ committed MerkleDB rd pfx (ci_node info) t) /\
  ci_hash info = Some (into_triehash (thash MerkleDB [] p t)).

Lemma rinfo_value info p t : rinfo info p t -> node_value (ci_node info) = tval t.
Proof. intros (_ & _ & (pfx & _ & Hc) & _). by destruct Hc. Qed.

Lemma rinfo_child trie p pp v ks i c g t lone :
  reads trie -> subtrie known p (Trie.T pp v ks) -> is_nibble i -> Children_get ks i = Some (g, t) ->
  lone = HashSpec.lone MerkleDB p ks -> committed_slot MerkleDB rd p lone i (Some c) (Some (g, t)) ->
  exists info, ComparableNodeInfo_new (p ++ [i]) c trie = Ok info /\ rinfo info (p ++ i :: tpath t) t.
Proof.
  intros Hr Hsub Hi Hg -> Hc. inversion Hc as [|? ? ? ? n ? Hh Hn Hcom]; subst.
  unfold ComparableNodeInfo_new.
  assert (Hread : Child_as_shared_node trie c = Ok n).
  { destruct c as [n'|a h|[n'|a n'|a] h]; cbn in *; simplify_eq; auto. }
  rewrite Hread. eexists. split; [reflexivity|]. unfold rinfo. cbn [ci_path ci_node ci_hash].
  rewrite (committed_path _ _ _ _ _ Hcom), <- app_assoc. split; [done|]. split; [by eapply subtrie_kid|].
  split; [exists (p ++ [i]); by rewrite <- app_assoc|]. rewrite Hh. cbn [fmap option_fmap option_map]. by rewrite kid_hash_merkledb.
Qed.

(** What a stack will yield. *)
Inductive rstack_of : list ComparableNodeInfo -> list (Path * Trie.trie) -> Prop :=
| rstack_of_nil : rstack_of [] []
| rstack_of_cons info p t st l : rinfo info p t -> rstack_of st l -> rstack_of (info :: st) (preorder p t ++ l).

(** Children of the iterator against children of the trie. *)
Definition rkid (trie : T) (p : Path) (x : PathComponent * Child) (y : PathComponent * kid) : Prop :=
  x.1 = y.1 /\ exists info, ComparableNodeInfo_new (p ++ [x.1]) x.2 trie = Ok info /\ rinfo info (p ++ y.1 :: tpath y.2.2) y.2.2.

Lemma rkids trie p pfx pp v c ks :
  reads trie -> subtrie known p (Trie.T pp v ks) -> p = pfx ++ pp -> committed MerkleDB rd pfx (Branch (mkBranch pp v c)) (Trie.T pp v ks) ->
  Forall2 (rkid trie p) (Children_iter_present c) (Children_iter_present ks).
Proof.
  intros Hr Hsub -> Hc. inversion Hc as [|? ? ? ? ? Hcw Hkw Hslots]; subst.
  assert (Hs : Forall2 (fun x y : PathComponent * _ => x.1 = y.1 /\ True) (Children_iter_present c) (Children_iter_present ks)).
  { apply (present_Forall2_gen (fun a b => is_Some a <-> is_Some b) (fun _ _ => True)).
    - intros [x|] [y|]; [done|naive_solver..].
    - apply slots_Forall2; [done..|]. intros i Hi. eapply committed_slot_iff. by apply Hslots. }
  apply Forall2_same_length_lookup_2; [by eapply Forall2_length|]. intros idx [i x] [j [g t]] Hp Hq.
  destruct (Forall2_lookup_lr _ _ _ _ _ _ Hs Hp Hq) as [Hij _]. cbn [fst snd] in *. subst j.
  apply list_elem_of_lookup_2 in Hp, Hq. apply Children_iter_present_elem in Hp as [Hi Hp], Hq as [_ Hq]; [|done..].
  split; [done|]. cbn [fst snd]. eapply rinfo_child; [done|done|done|done|reflexivity|].
  specialize (Hslots i Hi). by rewrite Hp, Hq in Hslots.
Qed.

Lemma kids_preorder_app full l m : kids_preorder full (l ++ m) = kids_preorder full l ++ kids_preorder full m.
Proof. apply flat_map_app. Qed.

(** Pushing the children in reverse puts their nodes before the rest, in order. *)
Lemma push_children_ok trie p cs ks st l :
  Forall2 (rkid trie p) cs ks -> rstack_of st l ->
  exists st', push_children trie (map (fun x => (x.2, p ++ [x.1])) (rev cs)) st = (Ok tt, st') /\
    rstack_of st' (kids_preorder p ks ++ l).
Proof.
  intros Hck. revert st l. induction cs as [|[i c] cs IH] using rev_ind in ks, Hck |- *; intros st l Hst.
  - apply Forall2_nil_inv_l in Hck as ->. eauto.
  - apply Forall2_app_inv_l in Hck as (ks1 & ks2 & Hck & Hlast & ->).
    apply Forall2_cons_inv_l in Hlast as ([j [g t]] & ks3 & (Hij & info & Hinfo & Hri) & Hnil & ->).
    apply Forall2_nil_inv_l in Hnil as ->. cbn [fst snd] in *. subst j.
    rewrite rev_app_distr. cbn [rev app map fst snd push_children]. rewrite Hinfo.
    destruct (IH ks1 Hck (info :: st) (preorder (p ++ i :: tpath t) t ++ l)) as (st' & Hp & Hst'); [by constructor|].
    exists st'. split; [done|]. rewrite kids_preorder_app, kids_preorder_cons. cbn [snd]. unfold kids_preorder at 2. cbn [flat_map].
    by rewrite app_nil_r, <- app_assoc.
Qed.

(** The children of the current node, which the next call pushes. *)
Definition below (x : Path * Trie.trie) : list (Path * Trie.trie) := kids_preorder x.1 (Children_iter_present (tkids x.2)).

Lemma preorder_below p t : trie_wf t -> preorder p t = (p, t) :: below (p, t).
Proof. destruct t as [pp v ks]. intros (_ & Hk & _)%trie_wf_inv. by rewrite preorder_T. Qed.

(** The state of the iterator: the nodes below the current node, and the others. *)
Definition riter (it : PreOrderIterator T) (kids rest : list (Path * Trie.trie)) : Prop :=
  reads (po_trie it) /\ rstack_of (traversal_stack it) rest /\
  match node_info it with
  | None => kids = []
  | Some info => exists p t, rinfo info p t /\ kids = below (p, t)
  end.

Lemma skip_children_ok it kids rest : riter it kids rest -> riter (skip_children it) [] rest.
Proof. by intros (Hr & Hst & _). Qed.

(** The children of an entry, in both forms. *)
Lemma rinfo_branch trie info p t :
  reads trie -> rinfo info p t ->
  match ci_node info with
  | Leaf _ => below (p, t) = []
  | Branch b => Forall2 (rkid trie p) (Children_iter_present (branch_children b)) (Children_iter_present (tkids t))
  end.
Proof.
  intros Hr (_ & Hsub & (pfx & Hp & Hc) & _). destruct (ci_node info) as [b|l].
  - inversion Hc as [|? pp v c ks Hcw Hkw Hs]; subst. cbn [branch_children tkids]. by eapply rkids.
  - by inversion Hc.
Qed.

Lemma push_info_ok it kids rest :
  riter it kids rest ->
  exists st, rstack_of st (kids ++ rest) /\
    match node_info it with
    | Some (mkInfo path (Branch branch) _) => push_children (po_trie it) (reversed_children path branch) (traversal_stack it)
    | _ => (Ok tt, traversal_stack it)
    end = (Ok tt, st).
Proof.
  intros (Hr & Hst & Hcur). destruct (node_info it) as [[path node hash]|]; [|subst kids; eauto].
  destruct Hcur as (p & t & Hi & ->). pose proof (rinfo_branch _ _ _ _ Hr Hi) as Hb. cbn [ci_node] in Hb.
  assert (Hpath : path = p) by (destruct Hi as [Hi _]; exact Hi). subst path.
  destruct node as [b|l]; [|rewrite Hb; eauto].
  destruct (push_children_ok _ _ _ _ _ _ Hb Hst) as (st & Hpush & Hst'). exists st. split; [exact Hst'|exact Hpush].
Qed.

(** [next_node_info] yields the next node. *)
Lemma next_node_info_ok it kids rest :
  riter it kids rest ->
  match kids ++ rest with
  | [] => exists it', next_node_info it = (Ok None, it') /\ riter it' [] []
  | (p, t) :: l => exists info it' rest', next_node_info it = (Ok (Some info), it') /\ rinfo info p t /\
      riter it' (below (p, t)) rest' /\ below (p, t) ++ rest' = l
  end.
Proof.
  intros Hit. destruct (push_info_ok _ _ _ Hit) as (st & Hst & Hpush). unfold next_node_info. rewrite Hpush.
  destruct Hit as (Hr & _ & _). destruct Hst as [|info p t st l Hi Hst].
  - eexists. split; [done|]. split; [done|]. by split; [constructor|].
  - rewrite preorder_below by apply Hi. cbn [app]. exists info. eexists _, l. split; [done|]. split; [done|]. split; [|done].
    split; [done|]. split; [done|]. cbn. eauto.
Qed.

(** ** Going to the start key *)

(** A child that is passed over has no node from the key on. *)
Lemma passed_child key p i info t :
  rinfo info (p ++ i :: tpath t) t -> ~ (exists r, key = (p ++ [i]) ++ r) -> slice_cmp (p ++ [i]) key <> Gt ->
  from_path key (preorder (p ++ i :: tpath t) t) = [].
Proof.
  intros (_ & Hsub & _) Hnp Hcmp. apply from_path_nil, Forall_forall. intros [q u] Hq.
  apply preorder_prefix in Hq as (s & -> & _); [|by apply Hsub]. cbn.
  replace ((p ++ i :: tpath t) ++ s) with ((p ++ [i]) ++ (tpath t ++ s)) by (by rewrite <- !app_assoc).
  apply below_not_prefix; [|done]. pose proof (slice_cmp_spec (p ++ [i]) key) as Hs.
  destruct (slice_cmp (p ++ [i]) key); [|done|done]. destruct Hnp. exists []. by rewrite app_nil_r.
Qed.

Lemma push_reaching_ok trie key p cs ks st l :
  Forall2 (rkid trie p) cs ks -> rstack_of st l ->
  exists st' l', push_reaching trie key (map (fun x => (x.2, p ++ [x.1])) (rev cs)) st = (Ok tt, st') /\
    rstack_of st' l' /\ from_path key l' = from_path key (kids_preorder p ks ++ l) /\ sublist l' (kids_preorder p ks ++ l).
Proof.
  intros Hck Hst. induction cs as [|[i c] cs IH] using rev_ind in ks, Hck |- *.
  - apply Forall2_nil_inv_l in Hck as ->. exists st, l. done.
  - pose proof Hck as Hall. apply Forall2_app_inv_l in Hck as (ks1 & ks2 & Hck & Hlast & ->).
    apply Forall2_cons_inv_l in Hlast as ([j [g t]] & ks3 & (Hij & info & Hinfo & Hri) & Hnil & ->).
    apply Forall2_nil_inv_l in Hnil as ->. cbn [fst snd] in *. subst j.
    destruct (push_children_ok _ _ _ _ _ _ Hall Hst) as (st1 & Hpush & Hst1).
    rewrite rev_app_distr in *. cbn [rev app map fst snd push_reaching] in *.
    destruct (_ || _) eqn:Htest; [exists st1; eexists; split; [exact Hpush|done]|].
    apply orb_false_iff in Htest as [Hov Hgt].
    destruct (IH ks1 Hck) as (st' & l' & Hp & Hst' & Hfrom & Hsub). exists st', l'. split; [done|]. split; [done|].
    assert (Hdrop : from_path key (preorder (p ++ i :: tpath t) t) = []).
    { eapply passed_child; [done| |by destruct (slice_cmp _ _)]. intros Hex%overlap_prefix. by rewrite Hex in Hov. }
    rewrite kids_preorder_app, kids_preorder_cons. cbn [snd]. unfold kids_preorder at 2 4. cbn [flat_map]. rewrite app_nil_r.
    split; [rewrite Hfrom, !from_path_app, Hdrop; by rewrite app_nil_r|].
    etransitivity; [exact Hsub|]. rewrite <- app_assoc. apply sublist_app; [done|]. by apply sublist_inserts_l.
Qed.

Lemma reach_info_ok key it kids rest :
  riter it kids rest ->
  exists st l, rstack_of st l /\ from_path key l = from_path key (kids ++ rest) /\ sublist l (kids ++ rest) /\
    match node_info it with
    | Some (mkInfo path (Branch branch) _) => push_reaching (po_trie it) key (reversed_children path branch) (traversal_stack it)
    | _ => (Ok tt, traversal_stack it)
    end = (Ok tt, st).
Proof.
  intros (Hr & Hst & Hcur). destruct (node_info it) as [[path node hash]|]; [|subst kids; exists (traversal_stack it), rest; done].
  destruct Hcur as (p & t & Hi & ->). pose proof (rinfo_branch _ _ _ _ Hr Hi) as Hb. cbn [ci_node] in Hb.
  assert (Hpath : path = p) by (destruct Hi as [Hi _]; exact Hi). subst path.
  destruct node as [b|l]; [|rewrite Hb; exists (traversal_stack it), rest; done].
  destruct (push_reaching_ok (po_trie it) key _ _ _ _ _ Hb Hst) as (st & l & Hpush & Hst' & Hf & Hs). exists st, l. done.
Qed.

(** A node below the key that is not a prefix of it, or has no children. *)
Lemma below_dropped key info p t :
  rinfo info p t -> slice_lt p key ->
  match ci_node info, po_unique_b (PrefixOverlap_from key p) with
  | Branch _, [] => True
  | _, _ => from_path key (below (p, t)) = []
  end.
Proof.
  intros (_ & Hsub & (pfx & Hp & Hc) & _) Hlt. destruct (ci_node info) as [b|l]; [|by inversion Hc].
  destruct (po_unique_b _) eqn:Hov; [done|]. apply from_path_nil, Forall_forall. intros [q u] Hq.
  assert (Hin : (q, u) ∈ preorder p t) by (rewrite preorder_below by apply Hsub; by right).
  apply preorder_prefix in Hin as (s & -> & _); [|by apply Hsub]. cbn. apply below_not_prefix; [done|].
  intros Hex%overlap_prefix. congruence.
Qed.

Lemma iterate_loop_ok fuel key it kids rest :
  riter it kids rest -> sorted_nodes (kids ++ rest) -> (length (kids ++ rest) < fuel)%nat ->
  exists it', iterate_loop fuel key it = Ok it' /\ riter it' [] (from_path key (kids ++ rest)).
Proof.
  revert it kids rest. induction fuel as [|fuel IH]; intros it kids rest Hit Hsort Hfuel; [lia|].
  cbn [iterate_loop]. destruct (reach_info_ok key _ _ _ Hit) as (st & l & Hst & Hfrom & Hsub & Hpush). rewrite Hpush.
  destruct Hit as (Hr & _ & _). pose proof (StronglySorted_sublist _ _ _ Hsub Hsort) as Hsl.
  pose proof (sublist_length _ _ Hsub) as Hlen. rewrite <- Hfrom. clear Hfrom Hpush Hsub.
  destruct Hst as [|info p t st l Hi Hst]; [eexists; split; [done|]; split; [done|]; split; [constructor|done]|].
  assert (Hpath : ci_path info = p) by apply Hi. rewrite Hpath.
  rewrite preorder_below in * by apply Hi. cbn [app] in *. inversion Hsl as [|? ? Hsl' Habove]; subst p.
  pose proof (slice_cmp_spec (ci_path info) key) as Hcmp. destruct (slice_cmp (ci_path info) key) eqn:Hc.
  2:{ assert (Hhead : from_path key ((ci_path info, t) :: below (ci_path info, t) ++ l) = from_path key (below (ci_path info, t) ++ l)).
      { unfold from_path. rewrite filter_cons_False; [done|]. unfold slice_lt, at_or_after in *. cbn. congruence. }
      rewrite Hhead. pose proof (below_dropped key info _ t Hi Hcmp) as Hb. cbn [length] in Hlen.
      destruct (ci_node info) eqn:Hn; [destruct (po_unique_b _) eqn:Hov|].
      1:{ apply IH; [|done|lia]. split; [done|]. split; [done|]. cbn. eauto. }
      all: rewrite from_path_app, Hb; cbn [app]; rewrite length_app in Hlen; apply (IH _ [] l);
        [by split|by eapply StronglySorted_app_1_r|cbn; lia]. }
  all: eexists; split; [done|]; split; [done|]; split; [|done]; cbn [traversal_stack].
  all: rewrite from_path_all; [rewrite app_comm_cons, <- preorder_below by apply Hi; by constructor|].
  all: assert (Hle : slice_le key (ci_path info) = true) by (try (rewrite Hcmp; apply slice_le_refl); by apply slice_le_total).
  all: constructor; [done|]; eapply Forall_impl; [exact Habove|]; cbn; intros x Hx; unfold slice_lt in Hx.
  all: apply slice_le_total in Hx; by eapply slice_le_trans.
Qed.

(** The root of a hashed trie. *)
Definition rtrie (trie : T) (ot : option Trie.trie) : Prop :=
  reads trie /\
  match hr_root_node trie, ot with
  | None, None => True
  | Some n, Some t => committed MerkleDB rd [] n t /\ subtrie known (tpath t) t /\
      hr_root_hash trie = Some (into_triehash (troot_hash MerkleDB t))
  | _, _ => False
  end.

Lemma nodes_of_sorted trie ot : rtrie trie ot -> sorted_nodes (nodes_of ot).
Proof.
  intros [_ Hroot]. destruct ot as [t|]; [|constructor]. destruct (hr_root_node trie); [|done].
  destruct Hroot as (_ & Hsub & _). apply StronglySorted_fst, preorder_sorted, Hsub.
Qed.

Lemma PreOrderIterator_new_ok fuel trie ot key :
  rtrie trie ot -> is_bytes key -> (length (nodes_of ot) < fuel)%nat ->
  exists it, PreOrderIterator_new fuel trie key = Ok it /\ riter it [] (from_path (nibbles_of key) (nodes_of ot)).
Proof.
  intros Hrt Hkey Hfuel. pose proof (nodes_of_sorted _ _ Hrt) as Hsort. unfold PreOrderIterator_new. set (st := option_list _).
  assert (Hit : riter (mkPreOrder None trie st) [] (nodes_of ot)).
  { destruct Hrt as [Hr Hroot]. split; [done|]. split; [|done]. subst st. cbn [traversal_stack].
    destruct (hr_root_node trie) as [n|], ot as [t|]; try done; [|constructor].
    destruct Hroot as (Hc & Hsub & Hh). cbn. rewrite <- (app_nil_r (preorder _ _)). constructor; [|constructor].
    split; [by apply committed_path in Hc|]. split; [done|]. split; [by exists []|]. exact Hh. }
  unfold iterate_to_key. destruct key as [|x key].
  - exists (mkPreOrder None trie st). split; [done|]. by rewrite from_path_all by (by apply Forall_forall).
  - rewrite from_nibbles_iterator_new by done. by apply (iterate_loop_ok fuel _ _ [] (nodes_of ot)).
Qed.

End Iterator.

(** ** The stream *)
Section Stream.
Context {L R : Type} `{HashedNodeReader L} `{HashedNodeReader R}.
Variables lrd rrd : LinearAddress -> option Node.
Variables lknown rknown : list bytes.
Hypothesis no_collision : ~ collision lknown rknown.

Abbreviation linfo := (rinfo lrd lknown).
Abbreviation rrinfo := (rinfo rrd rknown).

(** A change as an operation. *)
Definition op_of (c : change) : BatchOp :=
  match c with (p, Some v) => Put (bytes_iter p) v | (p, None) => Delete (bytes_iter p) end.

Lemma deleted_values_ok v p : is_path p -> deleted_values v p = Ok (op_of <$> ((fun _ => (p, None)) <$> v)).
Proof. intros Hp. destruct v; cbn; [|done]. by rewrite key_from_nibble_iter_ok. Qed.

Lemma added_values_ok v p : is_path p -> added_values v p = Ok (op_of <$> ((fun w => (p, Some w)) <$> v)).
Proof. intros Hp. destruct v; cbn; [|done]. by rewrite key_from_nibble_iter_ok. Qed.

(** The changes that are still to come in a state, with the nodes left on both sides (below the current
    nodes, and the others). *)
Definition pending (state : DiffIterationNodeState) (lk lr rk rr : list (Path * trie)) : list change -> Prop := fun cs =>
  match state with
  | TraverseBoth => cs = merge_diff (pairs_of (lk ++ lr)) (pairs_of (rk ++ rr))
  | TraverseLeft info => exists q u, rrinfo info q u /\ rk = below (q, u) /\
      Forall (fun x => slice_lt q x.1) (rk ++ rr) /\ cs = merge_diff (pairs_of (lk ++ lr)) (pairs_of ((q, u) :: rk ++ rr))
  | TraverseRight info => exists p t, linfo info p t /\ lk = below (p, t) /\
      Forall (fun x => slice_lt p x.1) (lk ++ lr) /\ cs = merge_diff (pairs_of ((p, t) :: lk ++ lr)) (pairs_of (rk ++ rr))
  | AddRestRight => lk ++ lr = [] /\ cs = additions (pairs_of (rk ++ rr))
  | DeleteRestLeft => rk ++ rr = [] /\ cs = deletions (pairs_of (lk ++ lr))
  | SkipChildren => cs = merge_diff (pairs_of lr) (pairs_of rr)
  end.

Lemma merge_left p v l r :
  Forall (fun x => slice_lt p x.1) r ->
  merge_diff (option_list ((fun v => (p, v)) <$> v) ++ l) r = option_list ((fun _ => (p, None)) <$> v) ++ merge_diff l r.
Proof. intros Hr. destruct v; [|done]. cbn [fmap option_fmap option_map option_list app]. by apply merge_diff_Lt. Qed.

Lemma merge_right q w l r :
  Forall (fun x => slice_lt q x.1) l ->
  merge_diff l (option_list ((fun v => (q, v)) <$> w) ++ r) = option_list ((fun w => (q, Some w)) <$> w) ++ merge_diff l r.
Proof. intros Hl. destruct w; [|done]. cbn [fmap option_fmap option_map option_list app]. by apply merge_diff_Gt. Qed.

Lemma above_node p v l :
  Forall (fun x : Path * trie => slice_lt p x.1) l -> forall q, slice_lt q p ->
  Forall (fun x : Path * Value => slice_lt q x.1) (option_list ((fun v => (p, v)) <$> v) ++ pairs_of l).
Proof.
  intros Hl q Hq. apply Forall_app. split; [destruct v; by repeat constructor|].
  apply pairs_of_above. by eapply above_trans.
Qed.

(** Equal nodes: nothing below them differs, or both are traversed. *)
Lemma hash_match_ok li ri p t u lr rr :
  linfo li p t -> rrinfo ri p u ->
  pending (hash_match (ci_hash li) (ci_hash ri)) (below (p, t)) lr (below (p, u)) rr
    (merge_diff (pairs_of (below (p, t) ++ lr)) (pairs_of (below (p, u) ++ rr))).
Proof.
  intros (_ & Hsl & _ & Hhl) (_ & Hsr & _ & Hhr). rewrite Hhl, Hhr. cbn [hash_match].
  case_bool_decide as Heq; [|done]. cbn [pending]. rewrite !pairs_of_app.
  assert (Hpairs : pairs_of (below (p, t)) = pairs_of (below (p, u))).
  { eapply equal_hash_pairs; [done|done|done|]. rewrite !thash_merkledb in *. cbn [into_triehash] in Heq. exact (f_equal Hash Heq). }
  rewrite Hpairs. apply merge_diff_app.
Qed.

Lemma compare_equal_ok li ri p t u lr rr :
  linfo li p t -> rrinfo ri p u -> is_path p ->
  Forall (fun x => slice_lt p x.1) (below (p, t) ++ lr) -> Forall (fun x => slice_lt p x.1) (below (p, u) ++ rr) ->
  exists state c cs,
    match tval t, tval u with
    | None, None => mret (hash_match (ci_hash li) (ci_hash ri), None)
    | Some val, None => op ← deleted_values (Some val) p; mret (TraverseBoth, op)
    | None, Some val => op ← added_values (Some val) p; mret (TraverseBoth, op)
    | Some left_val, Some right_val =>
        if bool_decide (left_val = right_val)
        then mret (hash_match (ci_hash li) (ci_hash ri), None)
        else op ← added_values (Some right_val) p; mret (TraverseBoth, op)
    end = Ok (state, op_of <$> c) /\
    merge_diff (option_list ((fun v => (p, v)) <$> tval t) ++ pairs_of (below (p, t) ++ lr))
      (option_list ((fun v => (p, v)) <$> tval u) ++ pairs_of (below (p, u) ++ rr)) = option_list c ++ cs /\
    pending state (below (p, t)) lr (below (p, u)) rr cs.
Proof.
  intros Hl Hr Hp Hpl Hpr. pose proof (hash_match_ok li ri p t u lr rr Hl Hr) as Hmatch.
  destruct (tval t) as [v|], (tval u) as [w|]; cbn [fmap option_fmap option_map];
    repeat change (option_list (Some ?x) ++ ?l) with (x :: l); repeat change (option_list None ++ ?l) with l.
  - rewrite merge_diff_cons, slice_cmp_refl. case_bool_decide.
    + exists (hash_match (ci_hash li) (ci_hash ri)), None. eexists. done.
    + rewrite added_values_ok by done. exists TraverseBoth, (Some (p, Some w)). eexists. done.
  - rewrite deleted_values_ok by done. exists TraverseBoth, (Some (p, None)). eexists. split; [done|].
    rewrite merge_diff_Lt by (by apply pairs_of_above). done.
  - rewrite added_values_ok by done. exists TraverseBoth, (Some (p, Some w)). eexists. split; [done|].
    rewrite merge_diff_Gt by (by apply pairs_of_above). done.
  - exists (hash_match (ci_hash li) (ci_hash ri)), None. eexists. done.
Qed.

(** One comparison. *)
Lemma one_step_compare_ok li ri p t q u lr rr :
  linfo li p t -> rrinfo ri q u ->
  Forall (fun x => slice_lt p x.1) (below (p, t) ++ lr) -> Forall (fun x => slice_lt q x.1) (below (q, u) ++ rr) ->
  exists state c cs, one_step_compare li ri = Ok (state, op_of <$> c) /\
    merge_diff (pairs_of ((p, t) :: below (p, t) ++ lr)) (pairs_of ((q, u) :: below (q, u) ++ rr)) = option_list c ++ cs /\
    pending state (below (p, t)) lr (below (q, u)) rr cs.
Proof.
  intros Hl Hr Hpl Hqr.
  assert (Hpp : ci_path li = p) by apply Hl. assert (Hqp : ci_path ri = q) by apply Hr.
  assert (Hisp : is_path p) by (apply (sub_path lknown p t), Hl). assert (Hisq : is_path q) by (apply (sub_path rknown q u), Hr).
  unfold one_step_compare. rewrite Hpp, Hqp, (rinfo_value _ _ _ _ _ Hl), (rinfo_value _ _ _ _ _ Hr).
  rewrite !pairs_of_cons. pose proof (slice_cmp_spec p q) as Hcmp. destruct (slice_cmp p q).
  - clear Hpp Hqp. subst q. by apply compare_equal_ok.
  - rewrite deleted_values_ok by done. eexists (TraverseLeft ri), _, _. split; [reflexivity|].
    split; [apply merge_left; by apply above_node|]. cbn [pending]. exists q, u. by rewrite pairs_of_cons.
  - rewrite added_values_ok by done. eexists (TraverseRight li), _, _. split; [reflexivity|].
    split; [apply merge_right; by apply above_node|]. cbn [pending]. exists p, t. by rewrite pairs_of_cons.
Qed.

(** ** Rounds of the loop *)

(** Both iterators, with the nodes they still have. *)
Record sides (ltree : PreOrderIterator L) (rtree : PreOrderIterator R) (lk lr rk rr : list (Path * trie)) : Prop := {
  side_left : riter lrd lknown ltree lk lr;
  side_right : riter rrd rknown rtree rk rr;
  side_lsorted : sorted_nodes (lk ++ lr);
  side_rsorted : sorted_nodes (rk ++ rr);
}.

Definition weight (state : DiffIterationNodeState) : nat :=
  match state with AddRestRight | DeleteRestLeft => 0 | _ => 1 end.

(** How many rounds are left, at most. *)
Definition rounds (state : DiffIterationNodeState) (lk lr rk rr : list (Path * trie)) : nat :=
  S (weight state + 2 * (length (lk ++ lr) + length (rk ++ rr))).

(** The stream has the changes [cs] left, and at most [n] rounds. *)
Definition has_pending (state : DiffIterationNodeState) (ltree : PreOrderIterator L) (rtree : PreOrderIterator R)
  (cs : list change) (n : nat) : Prop :=
  exists lk lr rk rr, sides ltree rtree lk lr rk rr /\ pending state lk lr rk rr cs /\ (rounds state lk lr rk rr <= n)%nat.

(** What a round does: it ends the iteration, or yields the first change or nothing. *)
Definition round_ok (cs : list change) (n : nat)
  (out : result failure (option (DiffIterationNodeState * option BatchOp)) * PreOrderIterator L * PreOrderIterator R) : Prop :=
  match out with
  | (Ok None, _, _) => cs = []
  | (Ok (Some (state, op)), ltree, rtree) =>
      exists c cs', op = op_of <$> c /\ cs = option_list c ++ cs' /\ has_pending state ltree rtree cs' n
  | (Err _, _, _) => False
  end.

Lemma sorted_cons_inv (x : Path * trie) l : sorted_nodes (x :: l) -> sorted_nodes l /\ Forall (fun y => slice_lt x.1 y.1) l.
Proof. by inversion 1. Qed.

Lemma node_below_sorted p t rest l :
  below (p, t) ++ rest = l -> sorted_nodes ((p, t) :: l) ->
  sorted_nodes (below (p, t) ++ rest) /\ Forall (fun x => slice_lt p x.1) (below (p, t) ++ rest).
Proof. intros ->. apply sorted_cons_inv. Qed.

(** [next_node_from_both]. *)
Lemma next_node_from_both_ok ltree rtree lk lr rk rr n :
  sides ltree rtree lk lr rk rr -> (1 + 2 * (length (lk ++ lr) + length (rk ++ rr)) <= n)%nat ->
  let '(res, ltree, rtree) := next_node_from_both ltree rtree in
  round_ok (merge_diff (pairs_of (lk ++ lr)) (pairs_of (rk ++ rr))) n (Some <$> res, ltree, rtree).
Proof.
  intros [Hl Hr Hsl Hsr] Hn. unfold next_node_from_both.
  pose proof (next_node_info_ok _ _ _ _ _ Hl) as Hnl. destruct (lk ++ lr) as [|[p t] l] eqn:El.
  { destruct Hnl as (ltree' & -> & Hl'). exists None. eexists. split; [done|]. split; [done|].
    exists [], [], rk, rr. split; [by split|]. split; [done|]. unfold rounds. cbn in *. lia. }
  destruct Hnl as (li & ltree' & lr' & -> & Hli & Hl' & Hel). destruct (node_below_sorted _ _ _ _ Hel Hsl) as [Hsl' Hal].
  pose proof (next_node_info_ok _ _ _ _ _ Hr) as Hnr. destruct (rk ++ rr) as [|[q u] r] eqn:Er.
  { destruct Hnr as (rtree' & -> & Hr'). assert (Hpp : ci_path li = p) by apply Hli.
    rewrite (rinfo_value _ _ _ _ _ Hli), Hpp, deleted_values_ok by apply Hli.
    exists ((fun _ => (p, None)) <$> tval t). exists (deletions (pairs_of (below (p, t) ++ lr'))). split; [done|]. split.
    - rewrite merge_diff_nil_r, pairs_of_cons, Hel. by destruct (tval t).
    - exists (below (p, t)), lr', [], []. split; [by split; [done|done|done|constructor]|]. split; [done|].
      unfold rounds. rewrite Hel. cbn in *. lia. }
  destruct Hnr as (ri & rtree' & rr' & -> & Hri & Hr' & Her). destruct (node_below_sorted _ _ _ _ Her Hsr) as [Hsr' Har].
  destruct (one_step_compare_ok li ri p t q u lr' rr' Hli Hri Hal Har) as (state & c & cs & Hcmp & Hdiff & Hpend).
  rewrite Hcmp. exists c, cs. split; [done|]. split; [by rewrite <- Hdiff, Hel, Her|].
  exists (below (p, t)), lr', (below (q, u)), rr'. split; [by split|]. split; [done|].
  unfold rounds. rewrite Hel, Her. cbn in *. destruct state; cbn; lia.
Qed.

Lemma traverse_left_ok info ltree rtree lk lr rk rr cs n :
  sides ltree rtree lk lr rk rr -> pending (TraverseLeft info) lk lr rk rr cs -> (1 + 2 * (length (lk ++ lr) + length (rk ++ rr)) <= n)%nat ->
  round_ok cs n (diff_step (TraverseLeft info) ltree rtree).
Proof.
  intros [Hl Hr Hsl Hsr] (q & u & Hi & -> & Hab & ->) Hn. cbn [diff_step].
  pose proof (next_node_info_ok _ _ _ _ _ Hl) as Hnl. destruct (lk ++ lr) as [|[p t] l] eqn:El.
  - destruct Hnl as (ltree' & -> & Hl'). assert (Hqp : ci_path info = q) by apply Hi.
    rewrite (rinfo_value _ _ _ _ _ Hi), Hqp, added_values_ok by apply Hi.
    exists ((fun w => (q, Some w)) <$> tval u). exists (additions (pairs_of (below (q, u) ++ rr))). split; [done|]. split.
    + rewrite pairs_of_cons. cbn. by destruct (tval u).
    + exists [], [], (below (q, u)), rr. split; [by split|]. split; [done|]. unfold rounds. cbn in *. lia.
  - destruct Hnl as (li & ltree' & lr' & -> & Hli & Hl' & Hel). destruct (node_below_sorted _ _ _ _ Hel Hsl) as [Hsl' Hal].
    destruct (one_step_compare_ok li info p t q u lr' rr Hli Hi Hal Hab) as (state & c & cs & Hcmp & Hdiff & Hpend).
    rewrite Hcmp. exists c, cs. split; [done|]. split; [by rewrite <- Hdiff, Hel|].
    exists (below (p, t)), lr', (below (q, u)), rr. split; [by split|]. split; [done|].
    unfold rounds. rewrite Hel. cbn in *. destruct state; cbn; lia.
Qed.

Lemma traverse_right_ok info ltree rtree lk lr rk rr cs n :
  sides ltree rtree lk lr rk rr -> pending (TraverseRight info) lk lr rk rr cs -> (1 + 2 * (length (lk ++ lr) + length (rk ++ rr)) <= n)%nat ->
  round_ok cs n (diff_step (TraverseRight info) ltree rtree).
Proof.
  intros [Hl Hr Hsl Hsr] (p & t & Hi & -> & Hab & ->) Hn. cbn [diff_step].
  pose proof (next_node_info_ok _ _ _ _ _ Hr) as Hnr. destruct (rk ++ rr) as [|[q u] r] eqn:Er.
  - destruct Hnr as (rtree' & -> & Hr'). assert (Hpp : ci_path info = p) by apply Hi.
    rewrite (rinfo_value _ _ _ _ _ Hi), Hpp, deleted_values_ok by apply Hi.
    exists ((fun _ => (p, None)) <$> tval t). exists (deletions (pairs_of (below (p, t) ++ lr))). split; [done|]. split.
    + rewrite merge_diff_nil_r, pairs_of_cons. by destruct (tval t).
    + exists (below (p, t)), lr, [], []. split; [by split; [done|done|done|constructor]|]. split; [done|]. unfold rounds. cbn in *. lia.
  - destruct Hnr as (ri & rtree' & rr' & -> & Hri & Hr' & Her). destruct (node_below_sorted _ _ _ _ Her Hsr) as [Hsr' Har].
    destruct (one_step_compare_ok info ri p t q u lr rr' Hi Hri Hab Har) as (state & c & cs & Hcmp & Hdiff & Hpend).
    rewrite Hcmp. exists c, cs. split; [done|]. split; [by rewrite <- Hdiff, Her|].
    exists (below (p, t)), lr, (below (q, u)), rr'. split; [by split|]. split; [done|].
    unfold rounds. rewrite Her. cbn in *. destruct state; cbn; lia.
Qed.

Lemma add_rest_ok ltree rtree lk lr rk rr cs n :
  sides ltree rtree lk lr rk rr -> pending AddRestRight lk lr rk rr cs -> (2 * (length (lk ++ lr) + length (rk ++ rr)) <= n)%nat ->
  round_ok cs n (diff_step AddRestRight ltree rtree).
Proof.
  intros [Hl Hr Hsl Hsr] (Hnil & ->) Hn. cbn [diff_step].
  pose proof (next_node_info_ok _ _ _ _ _ Hr) as Hnr. destruct (rk ++ rr) as [|[q u] r] eqn:Er.
  - destruct Hnr as (rtree' & -> & Hr'). done.
  - destruct Hnr as (ri & rtree' & rr' & -> & Hri & Hr' & Her). destruct (node_below_sorted _ _ _ _ Her Hsr) as [Hsr' Har].
    assert (Hqp : ci_path ri = q) by apply Hri. rewrite (rinfo_value _ _ _ _ _ Hri), Hqp, added_values_ok by apply Hri.
    exists ((fun w => (q, Some w)) <$> tval u). exists (additions (pairs_of (below (q, u) ++ rr'))). split; [done|]. split.
    + rewrite pairs_of_cons, Her. cbn. by destruct (tval u).
    + exists lk, lr, (below (q, u)), rr'. split; [by split|]. split; [done|]. unfold rounds. rewrite Her. cbn in *. lia.
Qed.

Lemma delete_rest_ok ltree rtree lk lr rk rr cs n :
  sides ltree rtree lk lr rk rr -> pending DeleteRestLeft lk lr rk rr cs -> (2 * (length (lk ++ lr) + length (rk ++ rr)) <= n)%nat ->
  round_ok cs n (diff_step DeleteRestLeft ltree rtree).
Proof.
  intros [Hl Hr Hsl Hsr] (Hnil & ->) Hn. cbn [diff_step].
  pose proof (next_node_info_ok _ _ _ _ _ Hl) as Hnl. destruct (lk ++ lr) as [|[p t] l] eqn:El.
  - destruct Hnl as (ltree' & -> & Hl'). done.
  - destruct Hnl as (li & ltree' & lr' & -> & Hli & Hl' & Hel). destruct (node_below_sorted _ _ _ _ Hel Hsl) as [Hsl' Hal].
    assert (Hpp : ci_path li = p) by apply Hli. rewrite (rinfo_value _ _ _ _ _ Hli), Hpp, deleted_values_ok by apply Hli.
    exists ((fun _ => (p, None)) <$> tval t). exists (deletions (pairs_of (below (p, t) ++ lr'))). split; [done|]. split.
    + rewrite pairs_of_cons, Hel. by destruct (tval t).
    + exists (below (p, t)), lr', rk, rr. split; [by split|]. split; [done|]. unfold rounds. rewrite Hel. cbn in *. lia.
Qed.

(** Every round yields the next change or nothing, and the rounds left decrease. *)
Lemma diff_step_ok state ltree rtree cs n :
  has_pending state ltree rtree cs (S n) -> round_ok cs n (diff_step state ltree rtree).
Proof.
  intros (lk & lr & rk & rr & Hs & Hp & Hn). unfold rounds in Hn. destruct state; cbn [weight] in Hn.
  - cbn [diff_step]. rewrite Hp. pose proof (next_node_from_both_ok _ _ _ _ _ _ n Hs ltac:(lia)) as Hb.
    by destruct (next_node_from_both ltree rtree) as [[res ltree'] rtree'].
  - eapply traverse_left_ok; [done|done|lia].
  - eapply traverse_right_ok; [done|done|lia].
  - eapply add_rest_ok; [done|done|lia].
  - eapply delete_rest_ok; [done|done|lia].
  - cbn [diff_step]. rewrite Hp. destruct Hs as [Hl Hr Hsl Hsr]. rewrite !length_app in Hn.
    assert (Hs : sides (skip_children ltree) (skip_children rtree) [] lr [] rr).
    { split; [by eapply skip_children_ok|by eapply skip_children_ok|by eapply StronglySorted_app_1_r..]. }
    pose proof (next_node_from_both_ok _ _ _ _ _ _ n Hs ltac:(cbn; lia)) as Hb.
    by destruct (next_node_from_both (skip_children ltree) (skip_children rtree)) as [[res ltree'] rtree'].
Qed.

(** [next_internal] returns the next change. *)
Lemma next_internal_ok fuel state ltree rtree cs n :
  has_pending state ltree rtree cs n -> (n <= fuel)%nat ->
  match cs with
  | [] => exists stream, next_internal fuel (mkDiff (Some state) ltree rtree) = (Ok None, stream) /\ diff_state stream = None
  | c :: cs' => exists state' ltree' rtree' n', next_internal fuel (mkDiff (Some state) ltree rtree) =
      (Ok (Some (op_of c)), mkDiff (Some state') ltree' rtree') /\ has_pending state' ltree' rtree' cs' n' /\ (n' < n)%nat
  end.
Proof.
  revert state ltree rtree n. induction fuel as [|fuel IH]; intros state ltree rtree n Hp Hn.
  { destruct Hp as (lk & lr & rk & rr & _ & _ & Hr). unfold rounds in Hr. lia. }
  cbn [next_internal diff_state left_tree right_tree].
  destruct n as [|n]; [destruct Hp as (lk & lr & rk & rr & _ & _ & Hr); unfold rounds in Hr; lia|].
  pose proof (diff_step_ok state ltree rtree cs n Hp) as Hround.
  destruct (diff_step state ltree rtree) as [[[[[state' op]|]|e] ltree'] rtree']; [|rewrite Hround; eauto|done].
  destruct Hround as (c & cs' & -> & -> & Hp'). destruct c as [c|]; cbn [fmap option_fmap option_map].
  - change (option_list (Some c) ++ cs') with (c :: cs'). exists state', ltree', rtree', n. split; [done|]. split; [done|lia].
  - change (option_list None ++ cs') with cs'. specialize (IH state' ltree' rtree' n Hp' ltac:(lia)).
    destruct cs' as [|c cs']; [done|]. destruct IH as (state2 & ltree2 & rtree2 & n2 & Heq & Hp2 & Hlt).
    exists state2, ltree2, rtree2, n2. split; [done|]. split; [done|lia].
Qed.

Lemma diff_collect_ok fuel state ltree rtree cs n :
  has_pending state ltree rtree cs n -> (n <= fuel)%nat ->
  diff_collect fuel (mkDiff (Some state) ltree rtree) = Ok (op_of <$> cs).
Proof.
  revert state ltree rtree cs n. induction fuel as [|fuel IH]; intros state ltree rtree cs n Hp Hn.
  { destruct Hp as (lk & lr & rk & rr & _ & _ & Hr). unfold rounds in Hr. lia. }
  cbn [diff_collect]. pose proof (next_internal_ok (S fuel) state ltree rtree cs n Hp Hn) as Hnext.
  destruct cs as [|c cs]; [by destruct Hnext as (stream & -> & _)|].
  destruct Hnext as (state' & ltree' & rtree' & n' & -> & Hp' & Hlt). by rewrite (IH _ _ _ _ _ Hp' ltac:(lia)).
Qed.

(** ** The whole difference *)

(** The operations that repeated calls return; then the stream ends. *)
Fixpoint yields (fuel : nat) (stream : DiffMerkleNodeStream L R) (ops : list BatchOp) : Prop :=
  match ops with
  | [] => exists stream', next_internal fuel stream = (Ok None, stream') /\ diff_state stream' = None
  | op :: ops => exists stream', next_internal fuel stream = (Ok (Some op), stream') /\ yields fuel stream' ops
  end.

Lemma has_pending_yields fuel state ltree rtree cs n :
  has_pending state ltree rtree cs n -> (n <= fuel)%nat -> yields fuel (mkDiff (Some state) ltree rtree) (op_of <$> cs).
Proof.
  revert state ltree rtree n. induction cs as [|c cs IH]; intros state ltree rtree n Hp Hn; pose proof (next_internal_ok fuel _ _ _ _ n Hp Hn) as Hnext; [done|].
  destruct Hnext as (state' & ltree' & rtree' & n' & Hrun & Hp' & Hlt). eexists. split; [exact Hrun|]. eapply IH; [done | lia].
Qed.

(** Opening the stream: the changes from the start key on are to come. *)
Lemma diff_new_ok fuel (ltrie : L) (rtrie' : R) lt rt key :
  rtrie lrd lknown ltrie lt -> rtrie rrd rknown rtrie' rt -> is_bytes key ->
  (2 * (length (nodes_of lt) + length (nodes_of rt)) + 2 <= fuel)%nat ->
  exists state ltree rtree n, DiffMerkleNodeStream_new fuel ltrie rtrie' key = Ok (mkDiff (Some state) ltree rtree) /\ (n <= fuel)%nat /\
    has_pending state ltree rtree
      (merge_diff (pairs_of (from_path (nibbles_of key) (nodes_of lt))) (pairs_of (from_path (nibbles_of key) (nodes_of rt)))) n.
Proof.
  intros Hl Hr Hkey Hfuel. unfold DiffMerkleNodeStream_new.
  destruct (PreOrderIterator_new_ok lrd lknown fuel ltrie lt key Hl Hkey ltac:(lia)) as (ltree & -> & Hlt).
  destruct (PreOrderIterator_new_ok rrd rknown fuel rtrie' rt key Hr Hkey ltac:(lia)) as (rtree & -> & Hrt).
  eexists _, ltree, rtree, _. split; [reflexivity|]. split; [exact Hfuel|].
  exists [], (from_path (nibbles_of key) (nodes_of lt)), [], (from_path (nibbles_of key) (nodes_of rt)).
  split; [split; [done|done| |]|split; [done|]].
  - by apply StronglySorted_filter, (nodes_of_sorted lrd lknown ltrie).
  - by apply StronglySorted_filter, (nodes_of_sorted rrd rknown rtrie').
  - unfold rounds. cbn [weight app]. pose proof (length_filter (at_or_after (nibbles_of key)) (nodes_of lt)).
    pose proof (length_filter (at_or_after (nibbles_of key)) (nodes_of rt)). unfold from_path. lia.
Qed.

End Stream.

End DiffSpec.
