(* ===== verification/DiffCorrect.v ===== *)
(** * Correctness of the difference

    What the stream of [Diff] yields, in terms of the maps that the two tries hold, and that
    applying it to the first trie gives the second. *)

From stdpp Require Import sorting.
From S2P Require Import Prelude Primitives NodePath Node Codec NodeCodec Trie NodeStore Linear.
From S2P Require Import Merkle MerkleSpec MerkleInsert MerkleRemove TrieCanonical MerkleCorrect Rlp Hashing HashSpec HashHelper HashBinding Iter IterSpec.
From S2P Require Import ProofTypes ProofWire Batch Diff DiffRef DiffSpec.

(** ** Node stores as readers *)

(** A store with the hash of its root. *)
Record hashed_store (St : Type) : Type := mkHashedStore {
  hs_store : NodeStore St;
  hs_root_hash : option TrieHash;
}.
Arguments mkHashedStore {St}.
Arguments hs_store {St}.
Arguments hs_root_hash {St}.

#[export] Instance hashed_store_reader {St : Type} `{ReadableStorage St} `{VarInt} : HashedNodeReader (hashed_store St) := {|
  hr_read_node s a := (read_node MerkleDB a (hs_store s)).1;
  hr_root_node s := ns_root (hs_store s);
  hr_root_hash s := hs_root_hash s;
|}.

Lemma hashed_store_reads {St : Type} `{ReadableStorageLaws St} `{VarInt} rd (s : hashed_store St) :
  holds MerkleDB rd (hs_store s) -> reads rd s.
Proof.
  intros Hh a n Ha. destruct (read_node_ok MerkleDB rd (hs_store s) a n Hh Ha) as (ns' & Hr & _). cbn. by rewrite Hr.
Qed.

(** ** Pairs of the tries and pairs of the maps *)

Section Maps.
Context (ot : option trie) (m : gmap bytes Value) (fuel : nat).
Hypothesis Hwf : forall u, ot = Some u -> trie_wf u.
Hypothesis Hm : contents fuel ot m.

Lemma pairs_from_elem key p v :
  is_bytes key ->
  (p, v) ∈ pairs_of (from_path (nibbles_of key) (nodes_of ot)) <->
  exists k, p = nibbles_of k /\ is_bytes k /\ m !! k = Some v /\ slice_le key k = true.
Proof.
  intros Hkey. unfold pairs_of. rewrite list_elem_of_omap. split.
  - intros ([q u] & [Haf Hin]%list_elem_of_filter & Hp). unfold node_pair_of in Hp. apply fmap_Some in Hp as (x & Hx & [= -> ->]).
    destruct (node_of_map ot m fuel Hwf Hm q u x Hin Hx) as (b & Hb & -> & Hmb). exists b. split; [done|]. split; [done|]. split; [done|].
    unfold at_or_after in Haf. cbn in Haf. by rewrite slice_le_nibbles in Haf.
  - intros (k & -> & Hk & Hmk & Hle). pose proof (contents_get _ _ _ Hm k Hk) as Hget. rewrite Hmk in Hget.
    destruct ot as [t|]; [|done]. cbn in Hget.
    destruct (tget_preorder t [] (nibbles_of k) v ltac:(by apply Hwf) (is_path_nibbles_of k Hk) Hget) as (w & Hin & Hw).
    exists (nibbles_of k, w). split; [|unfold node_pair_of; cbn; by rewrite Hw].
    apply list_elem_of_filter. split; [|exact Hin]. unfold at_or_after. cbn. by rewrite slice_le_nibbles.
Qed.

Lemma keys_from_elem key p :
  is_bytes key ->
  p ∈ (pairs_of (from_path (nibbles_of key) (nodes_of ot))).*1 <->
  exists k, p = nibbles_of k /\ is_bytes k /\ is_Some (m !! k) /\ slice_le key k = true.
Proof.
  intros Hkey. rewrite list_elem_of_fmap. split.
  - intros ([q v] & -> & Hin). apply pairs_from_elem in Hin as (k & -> & Hk & Hmk & Hle); [|done]. exists k. eauto.
  - intros (k & -> & Hk & [v Hmk] & Hle). exists (nibbles_of k, v). split; [done|]. apply pairs_from_elem; eauto 6.
Qed.

End Maps.

(** ** Operations on keys *)

(** What an operation of the difference says of the two maps. *)
Definition op_spec (key : bytes) (lm rm : gmap bytes Value) (op : BatchOp) : Prop :=
  match op with
  | Put k v => rm !! k = Some v /\ lm !! k <> Some v /\ slice_le key k = true
  | Delete k => is_Some (lm !! k) /\ rm !! k = None /\ slice_le key k = true
  | DeleteRange _ => False
  end.

(** Two maps from the pairs of two tries: a change is an operation. *)
Lemma change_op_spec fuel lt rt lm rm key op :
  (forall u, lt = Some u -> trie_wf u) -> (forall u, rt = Some u -> trie_wf u) ->
  contents fuel lt lm -> contents fuel rt rm -> is_bytes key ->
  (exists c, op = op_of c /\ change_spec (pairs_of (from_path (nibbles_of key) (nodes_of lt)))
    (pairs_of (from_path (nibbles_of key) (nodes_of rt))) c) <-> op_spec key lm rm op.
Proof.
  intros Hwl Hwr Hl Hr Hkey. split.
  - intros ([p [v|]] & -> & Hc); cbn [op_of change_spec op_spec] in *; destruct Hc as [Hin Hni].
    + apply (pairs_from_elem rt rm fuel Hwr Hr) in Hin as (k & -> & Hk & Hm & Hle); [|done].
      rewrite bytes_iter_nibbles_of. split; [done|]. split; [|done]. intros Hlm. apply Hni.
      apply (pairs_from_elem lt lm fuel Hwl Hl); eauto 6.
    + apply (keys_from_elem lt lm fuel Hwl Hl) in Hin as (k & -> & Hk & Hm & Hle); [|done].
      rewrite bytes_iter_nibbles_of. split; [done|]. split; [|done]. apply eq_None_not_Some. intros Hrm. apply Hni.
      apply (keys_from_elem rt rm fuel Hwr Hr); eauto 6.
  - destruct op as [k v|k|]; cbn [op_spec]; [| |done].
    + intros (Hm & Hne & Hle). destruct (contents_bytes _ _ _ Hr k v Hm) as [Hk _]. exists (nibbles_of k, Some v).
      cbn [op_of change_spec]. rewrite bytes_iter_nibbles_of. split; [done|]. split.
      * apply (pairs_from_elem rt rm fuel Hwr Hr); eauto 6.
      * intros (k' & Heq & _ & Hm' & _)%(pairs_from_elem lt lm fuel Hwl Hl); [|done]. apply nibbles_of_inj in Heq. congruence.
    + intros ([v Hm] & Hne & Hle). destruct (contents_bytes _ _ _ Hl k v Hm) as [Hk _]. exists (nibbles_of k, None).
      cbn [op_of change_spec]. rewrite bytes_iter_nibbles_of. split; [done|]. split.
      * apply (keys_from_elem lt lm fuel Hwl Hl); eauto 8.
      * intros (k' & Heq & _ & [v' Hm'] & _)%(keys_from_elem rt rm fuel Hwr Hr); [|done]. apply nibbles_of_inj in Heq. congruence.
Qed.

(** ** Applying the operations to a map *)

(** No range deletions, as in every difference. *)
Definition single_key (op : BatchOp) : Prop := match op with DeleteRange _ => False | _ => True end.

Lemma batch_op_map_ne op m k : single_key op -> op_key op <> k -> batch_op_map m op !! k = m !! k.
Proof. destruct op; cbn; intros Hs Hne; [by rewrite lookup_insert_ne|by rewrite lookup_delete_ne|done]. Qed.

Lemma batch_map_other ops m k : Forall single_key ops -> k ∉ op_key <$> ops -> batch_map ops m !! k = m !! k.
Proof.
  intros Hs. revert m. induction Hs as [|op ops Ho _ IH]; intros m Hk; [done|]. cbn in Hk.
  apply not_elem_of_cons in Hk as [Hne Hk]. unfold batch_map in *. cbn [foldl]. rewrite IH by done. by apply batch_op_map_ne.
Qed.

Lemma batch_map_at ops m op :
  Forall single_key ops -> NoDup (op_key <$> ops) -> op ∈ ops ->
  batch_map ops m !! op_key op = match op with Put _ v => Some v | _ => None end.
Proof.
  intros Hs. revert m. induction Hs as [|o ops Ho Hs IH]; intros m Hnd Hin; [by apply not_elem_of_nil in Hin|].
  cbn in Hnd. apply NoDup_cons in Hnd as [Hni Hnd]. unfold batch_map in *. cbn [foldl].
  apply elem_of_cons in Hin as [->|Hin]; [|by apply IH]. fold (batch_map ops (batch_op_map m o)).
  rewrite batch_map_other by done. destruct o; cbn; [by rewrite lookup_insert_eq|by rewrite lookup_delete_eq|done].
Qed.

Lemma sorted_NoDup (l : list bytes) : StronglySorted slice_lt l -> NoDup l.
Proof.
  induction 1 as [|x l Hs IH Hx]; constructor; [|done]. intros Hin. rewrite Forall_forall in Hx.
  by destruct (slice_lt_irrefl _ (Hx _ Hin)).
Qed.

(** The operations of the difference turn the first map into the second, from the key on. *)
Lemma batch_map_diff key lm rm ops :
  StronglySorted slice_lt (op_key <$> ops) -> (forall op, op ∈ ops <-> op_spec key lm rm op) ->
  forall k, batch_map ops lm !! k = if slice_le key k then rm !! k else lm !! k.
Proof.
  intros Hsort Hspec k. pose proof (sorted_NoDup _ Hsort) as Hnd.
  assert (Hs : Forall single_key ops). { apply Forall_forall. intros op Hop%Hspec. by destruct op. }
  destruct (decide (k ∈ op_key <$> ops)) as [Hin|Hni].
  - apply list_elem_of_fmap in Hin as (op & -> & Hin). rewrite batch_map_at by done. apply Hspec in Hin.
    destruct op; cbn in *; [| |done]; destruct Hin as (H1 & H2 & ->); done.
  - rewrite batch_map_other by done. destruct (slice_le key k) eqn:Hle; [|done].
    assert (Hno : forall op, op_spec key lm rm op -> op_key op <> k).
    { intros op Hop%Hspec <-. apply Hni, list_elem_of_fmap. eauto. }
    destruct (rm !! k) as [v|] eqn:Hr.
    + destruct (decide (lm !! k = Some v)) as [?|Hne]; [done|]. by destruct (Hno (Put k v)).
    + destruct (lm !! k) as [v|] eqn:Hl; [|done]. destruct (Hno (Delete k)); [|done]. cbn. rewrite Hl. eauto.
Qed.

Section DiffCorrect.
Context `{DigestsLaws} `{VarIntLaws}.
Context {L R : Type} `{HashedNodeReader L} `{HashedNodeReader R}.
Variables lrd rrd : LinearAddress -> option Node.
Variables (ltrie : L) (rtrie' : R) (lt rt : option trie) (lm rm : gmap bytes Value) (fuel : nat).

(** The strings that were hashed for a trie. *)
Definition hashed_for (ot : option trie) : list bytes := from_option (fun t => preimages (tpath t) t) [] ot.

(** Two hashed tries that hold the maps [lm] and [rm], without a collision between what was hashed for
    the one and for the other. *)
Record diffable : Prop := {
  df_left : rtrie lrd (hashed_for lt) ltrie lt;
  df_right : rtrie rrd (hashed_for rt) rtrie' rt;
  df_lmap : contents fuel lt lm;
  df_rmap : contents fuel rt rm;
  df_collision : ~ collision (hashed_for lt) (hashed_for rt);
}.

Lemma rtrie_wf {T} `{HashedNodeReader T} rd known (trie : T) ot : rtrie rd known trie ot -> forall u, ot = Some u -> trie_wf u.
Proof. intros [_ Hr] u ->. destruct (hr_root_node trie); [|done]. apply Hr. Qed.

(** The difference as a list of operations. *)
Definition diff_ops (n : nat) (key : bytes) : result failure (list BatchOp) :=
  stream ← DiffMerkleNodeStream_new n ltrie rtrie' key; diff_collect n stream.

(** The keys of sorted changes are sorted. *)
Lemma op_of_sorted (cs : list change) :
  StronglySorted (fun x y : change => slice_lt x.1 y.1) cs ->
  (forall c, c ∈ cs -> exists k, is_bytes k /\ c.1 = nibbles_of k) -> StronglySorted slice_lt (op_key <$> (op_of <$> cs)).
Proof.
  assert (Hkey : forall c : change, op_key (op_of c) = bytes_iter c.1) by (by intros [p [v|]]).
  induction 1 as [|c cs Hs IH Hc]; intros Hb; [constructor|]. rewrite !fmap_cons. constructor; [apply IH; set_solver|].
  rewrite Forall_fmap, Forall_fmap. apply Forall_forall. intros d Hd. rewrite Forall_forall in Hc. specialize (Hc d Hd). cbn.
  rewrite !Hkey. destruct (Hb c ltac:(by left)) as (k & Hk & Hck). destruct (Hb d ltac:(by right)) as (k' & Hk' & Hdk).
  rewrite Hck, Hdk, !bytes_iter_nibbles_of in *. unfold slice_lt in *. by rewrite slice_le_nibbles in Hc.
Qed.

(** The operations of the difference from a key on. *)
Definition diff_list (key : bytes) : list BatchOp :=
  op_of <$> merge_diff (pairs_of (from_path (nibbles_of key) (nodes_of lt))) (pairs_of (from_path (nibbles_of key) (nodes_of rt))).

Lemma diff_list_ok key :
  diffable -> is_bytes key -> StronglySorted slice_lt (op_key <$> diff_list key) /\ forall op, op ∈ diff_list key <-> op_spec key lm rm op.
Proof.
  intros [Hl Hr Hlm Hrm Hcol] Hkey. unfold diff_list.
  set (lp := pairs_of (from_path (nibbles_of key) (nodes_of lt))). set (rp := pairs_of (from_path (nibbles_of key) (nodes_of rt))).
  assert (Hsl : StronglySorted (fun x y : Path * Value => slice_lt x.1 y.1) lp).
  { apply pairs_of_ascending. by apply StronglySorted_filter, (nodes_of_sorted lrd (hashed_for lt) ltrie). }
  assert (Hsr : StronglySorted (fun x y : Path * Value => slice_lt x.1 y.1) rp).
  { apply pairs_of_ascending. by apply StronglySorted_filter, (nodes_of_sorted rrd (hashed_for rt) rtrie'). }
  split.
  - apply op_of_sorted; [by apply merge_diff_ascending|]. intros [p o] Hc%merge_diff_spec; [|done..].
    destruct o as [v|]; destruct Hc as [Hin _].
    + apply (pairs_from_elem rt rm fuel (rtrie_wf _ _ _ _ Hr) Hrm) in Hin as (k & -> & Hk & _); eauto.
    + apply (keys_from_elem lt lm fuel (rtrie_wf _ _ _ _ Hl) Hlm) in Hin as (k & -> & Hk & _); eauto.
  - intros op. rewrite list_elem_of_fmap, <- (change_op_spec fuel lt rt lm rm key op (rtrie_wf _ _ _ _ Hl) (rtrie_wf _ _ _ _ Hr) Hlm Hrm Hkey).
    split; intros (c & -> & Hc); exists c; (split; [done|]); by apply merge_diff_spec in Hc || by apply merge_diff_spec.
Qed.

(** The stream yields them. *)
Lemma diff_opens n key :
  diffable -> is_bytes key -> (2 * (length (nodes_of lt) + length (nodes_of rt)) + 2 <= n)%nat ->
  exists stream, DiffMerkleNodeStream_new n ltrie rtrie' key = Ok stream /\ yields n stream (diff_list key).
Proof.
  intros [Hl Hr _ _ Hcol] Hkey Hn. destruct (diff_new_ok lrd rrd _ _ n _ _ _ _ key Hl Hr Hkey Hn) as (state & ltree & rtree & k & -> & Hk & Hp).
  eexists. split; [done|]. by apply (has_pending_yields lrd rrd _ _ Hcol n _ _ _ _ k).
Qed.

Lemma diff_ops_ok n key :
  diffable -> is_bytes key -> (2 * (length (nodes_of lt) + length (nodes_of rt)) + 2 <= n)%nat ->
  exists ops, diff_ops n key = Ok ops /\ StronglySorted slice_lt (op_key <$> ops) /\ forall op, op ∈ ops <-> op_spec key lm rm op.
Proof.
  intros Hd Hkey Hn. exists (diff_list key). split; [|by apply diff_list_ok]. pose proof Hd as [Hl Hr _ _ Hcol]. unfold diff_ops.
  destruct (diff_new_ok lrd rrd _ _ n _ _ _ _ key Hl Hr Hkey Hn) as (state & ltree & rtree & k & -> & Hk & Hp).
  by apply (diff_collect_ok lrd rrd _ _ Hcol n _ _ _ _ k).
Qed.

(** C15: The difference of two hashed tries is exact: from a start key on, the iterator yields in strictly
    ascending order of the keys a put of each pair of the second map that the first does not have, a
    deletion of each key that only the first map has, and nothing else; subtries with equal hashes are skipped,
    which is right unless SHA-256 collides on the strings hashed for the two tries. *)
Theorem diff_exact n key :
  diffable -> is_bytes key -> (2 * (length (nodes_of lt) + length (nodes_of rt)) + 2 <= n)%nat ->
  exists ops, diff_ops n key = Ok ops /\ StronglySorted slice_lt (op_key <$> ops) /\ forall op, op ∈ ops <-> op_spec key lm rm op.
Proof. apply diff_ops_ok. Qed.

(** C14: The difference transforms, under MerkleDB.  For two hashed tries with keys of at most
    [MAX_KEY_BYTES] bytes, provided that SHA-256 does not collide on the strings that were hashed for the two, the
    difference from any start key on ends, and applying it as a batch to a store that holds the
    first map succeeds; the store then holds what the second map holds from the start key on, and below it what
    the first map holds.  From the empty key on, it holds the second map. *)
Theorem diff_transforms {St : Type} `{ReadableStorageLaws St} rd (ns : NodeStore St) n key :
  diffable -> (fuel <= TRIE_FUEL)%nat -> is_bytes key -> (2 * (length (nodes_of lt) + length (nodes_of rt)) + 2 <= n)%nat ->
  holds_map MerkleDB rd ns lm ->
  exists ops ns' m, diff_ops n key = Ok ops /\ apply_batch_serial MerkleDB ops ns = Ok ns' /\ holds_map MerkleDB rd ns' m /\
    (forall k, m !! k = if slice_le key k then rm !! k else lm !! k) /\ (key = [] -> m = rm).
Proof.
  intros Hd Hfuel Hkey Hn Hns. pose proof Hd as [_ _ Hlm Hrm _].
  destruct (diff_ops_ok n key Hd Hkey Hn) as (ops & Hops & Hsort & Hspec). exists ops.
  assert (Hkeys : forall op, op ∈ ops -> is_bytes (op_key op) /\ (2 * length (op_key op) < TRIE_FUEL)%nat).
  { intros op Hop%Hspec. destruct op as [k v|k|]; cbn in Hop; [| |done].
    - destruct Hop as (Hm & _). destruct (contents_bytes _ _ _ Hrm k v Hm). split; [done | cbn; lia].
    - destruct Hop as ([v Hm] & _). destruct (contents_bytes _ _ _ Hlm k v Hm). split; [done | cbn; lia]. }
  assert (Hcheck : check_batch MerkleDB ops = Ok tt).
  { clear -Hkeys. induction ops as [|op ops IH]; [done|]. cbn [check_batch].
    destruct (Hkeys op ltac:(by left)) as [_ Hl]. unfold check_batch_op.
    destruct (Z.ltb_spec MAX_KEY_BYTES (len (op_key op))); [unfold TRIE_FUEL, MAX_KEY_BYTES in *; lia|].
    cbn. apply IH. intros o Ho. apply Hkeys. by right. }
  pose proof (apply_batch_serial_ok MerkleDB rd ops ns lm) as Happ. rewrite Hcheck in Happ.
  destruct Happ as (ns' & Happ & Hm); [apply Forall_forall; intros op Hop; by apply Hkeys|done|].
  pose proof (batch_map_diff key lm rm ops Hsort Hspec) as Hb.
  exists ns', (batch_map ops lm). split_and!; [done | done | done | done |]. intros ->. apply map_eq. intros k. by rewrite Hb.
Qed.

End DiffCorrect.

(** *** Witness: two tries that differ in a leaf *)
Section DiffWitness.
Import Leb128 FirstBytes.

Definition collision_free (xs ys : list bytes) : bool :=
  forallb (fun x => forallb (fun y => bool_decide (x = y) || negb (bool_decide (sha256 x = sha256 y))) ys) xs.

Lemma collision_free_sound xs ys : collision_free xs ys = true -> ~ collision xs ys.
Proof.
  intros Hf (x & y & Hx & Hy & Hne & Heq). unfold collision_free in Hf. rewrite forallb_forall in Hf.
  apply list_elem_of_In in Hx. specialize (Hf x Hx). rewrite forallb_forall in Hf. apply list_elem_of_In in Hy.
  specialize (Hf y Hy). apply orb_true_iff in Hf as [Hf|Hf].
  - by apply bool_decide_eq_true in Hf.
  - apply negb_true_iff, bool_decide_eq_false in Hf. done.
Qed.

Definition w_dleaf (v : Z) : trie := T [1] (Some [v]) Children_new.
Definition w_dchild (v : Z) : Child :=
  ChildMaybePersisted (Unpersisted (Leaf (mkLeaf [1] [v]))) (thash MerkleDB [] [6; 1] (w_dleaf v)).
Definition w_dtrie (v : Z) : trie :=
  T [] (Some [9]) (Children_set Children_new 6 (Some (Some (Unpersisted (Leaf (mkLeaf [1] [v]))), w_dleaf v))).
Definition w_dstore (v : Z) : hashed_store MemStore :=
  mkHashedStore
    (mkNodeStore (Some (Branch (mkBranch [] (Some [9]) (Children_set Children_new 6 (Some (w_dchild v)))))) (Propose []) w_storage true)
    (Some (into_triehash (troot_hash MerkleDB (w_dtrie v)))).
Definition w_dmap (v : Z) : gmap bytes Value := <[[97] := [v]]> (<[[] := [9]]> ∅).

Lemma w_dtrie_wf v : trie_wf (w_dtrie v).
Proof.
  apply trie_wf_set; [split; lia | apply trie_wf_leaf; constructor |].
  intros h' t [= _ <-]. apply trie_wf_leaf. repeat constructor; lia.
Qed.

Lemma w_dtrie_fit v : paths_fit [] (w_dtrie v).
Proof.
  constructor; [done | constructor |]. intros i o t Hi. destruct (decide (i = 6)) as [->|Hne].
  - rewrite Children_get_set by (done || split; lia). intros [= _ <-]. constructor; [done | repeat constructor; lia |].
    intros j o' t' _. by rewrite Children_get_new.
  - rewrite Children_get_set_ne by (done || split; lia). by rewrite Children_get_new.
Qed.

Lemma w_dstore_rtrie v : rtrie w_rd (hashed_for (Some (w_dtrie v))) (w_dstore v) (Some (w_dtrie v)).
Proof.
  split; [apply hashed_store_reads; by split; [intros a n|]|]. cbn [hr_root_node hashed_store_reader hs_store w_dstore ns_root]. split; [|split; [|done]].
  - constructor; [apply Children_set_wf, Children_new_wf|apply Children_set_wf, Children_new_wf|]. intros i Hi.
    destruct (decide (i = 6)) as [->|Hne].
    + rewrite !Children_get_set by (apply Children_new_wf || done).
      apply (committed_some _ _ _ _ _ (w_dchild v) (Leaf (mkLeaf [1] [v])) (w_dleaf v)); [|done|apply (committed_leaf _ _ _ (mkLeaf [1] [v]))].
      cbn [Child_hash w_dchild]. by rewrite kid_hash_merkledb.
    + rewrite !Children_get_set_ne by (done || split; lia). rewrite !Children_get_new. constructor.
  - split; [apply w_dtrie_wf|constructor|apply w_dtrie_fit|done].
Qed.

Lemma w_dcontents v : contents TRIE_FUEL (Some (w_dtrie v)) (w_dmap v).
Proof.
  apply (contents_weaken 9); [|apply (bool_decide_unpack (9 <= TRIE_FUEL)%nat); vm_compute; exact I].
  apply (contents_insert 9 (Some (T [] (Some [9]) Children_new))); [| repeat constructor; done | simpl; lia |].
  - apply (contents_insert 9 None); [split; by intros | constructor | simpl; lia |].
    intros k Hk. simpl. by rewrite tget_leaf.
  - intros k Hk. change (nibbles_of [97]) with [6; 1]. cbn [otget mbind option_bind]. unfold w_dtrie, w_dleaf.
    rewrite tget_set; [|apply Children_new_wf | split; lia | done].
    destruct k as [|a k]; [done|]. cbn [strip_prefix app kid_get mbind option_bind snd]. destruct (Z.eqb_spec 6 a) as [<-|Hne].
    + simpl. rewrite tget_leaf, (tget_leaf [] [9]). repeat case_decide; congruence.
    + by rewrite decide_False by congruence.
Qed.

Lemma w_diffable : diffable w_rd w_rd (w_dstore 7) (w_dstore 8) (Some (w_dtrie 7)) (Some (w_dtrie 8)) (w_dmap 7) (w_dmap 8) TRIE_FUEL.
Proof.
  split; [apply w_dstore_rtrie..|apply w_dcontents|apply w_dcontents|]. apply collision_free_sound. by vm_compute.
Qed.

Lemma w_dcanonical v : ocanonical (Some (w_dtrie v)).
Proof. apply ocanonical_Some, canonical_set; [split; lia | apply Children_new_wf | apply canonical_leaf..]. Qed.

Lemma w_dnodes : (2 * (length (nodes_of (Some (w_dtrie 7))) + length (nodes_of (Some (w_dtrie 8)))) + 2 <= 10)%nat.
Proof. apply (bool_decide_unpack (2 * (length (nodes_of (Some (w_dtrie 7))) + length (nodes_of (Some (w_dtrie 8)))) + 2 <= 10)%nat). by vm_compute. Qed.

Lemma diff_exact_witness :
  diff_ops (w_dstore 7) (w_dstore 8) 10 [5] = Ok [Put [97] [8]] /\
  exists ops, diff_ops (w_dstore 7) (w_dstore 8) 10 [5] = Ok ops /\ forall op, op ∈ ops <-> op_spec [5] (w_dmap 7) (w_dmap 8) op.
Proof.
  split; [by vm_compute|].
  destruct (diff_exact w_rd w_rd (w_dstore 7) (w_dstore 8) (Some (w_dtrie 7)) (Some (w_dtrie 8)) (w_dmap 7) (w_dmap 8) TRIE_FUEL 10 [5]
    w_diffable) as (ops & Hops & _ & Hspec); [repeat constructor; unfold u8, U8_MAX; lia|apply w_dnodes|]. exists ops. done.
Defined.

Lemma diff_transforms_witness :
  exists ops ns', diff_ops (w_dstore 7) (w_dstore 8) 10 [] = Ok ops /\
    apply_batch_serial MerkleDB ops (hs_store (w_dstore 7)) = Ok ns' /\ holds_map MerkleDB w_rd ns' (w_dmap 8).
Proof.
  destruct (diff_transforms w_rd w_rd (w_dstore 7) (w_dstore 8) (Some (w_dtrie 7)) (Some (w_dtrie 8)) (w_dmap 7) (w_dmap 8) TRIE_FUEL
    w_rd (hs_store (w_dstore 7)) 10 [] w_diffable ltac:(lia) ltac:(constructor) w_dnodes) as (ops & ns' & m & Hops & Happ & Hm & _ & Heq).
  - exists (Some (w_dtrie 7)). split; [|split; [apply w_dcanonical|apply w_dcontents]]. split_and!.
    + split; [by intros a n | done].
    + simpl. apply rnode_set; [split; lia | apply rnode_childless|].
      apply (rslot_some w_rd (w_dchild 7) (Leaf (mkLeaf [1] [7]))); [done | apply (rnode_leaf _ (mkLeaf [1] [7]))].
    + intros u [= <-]. apply w_dtrie_wf.
  - exists ops, ns'. rewrite (Heq eq_refl) in Hm. done.
Defined.

End DiffWitness.
