(* ===== verification/Merge.v ===== *)
(** * Merging a range of pairs into a trie

    [firewood/src/merkle/merge.rs]: the iterator that turns a sorted sequence of pairs, meant to
    replace a key range of a trie, into batch operations. *)

From stdpp Require Import sorting.
From S2P Require Import Prelude Primitives NodePath Node Codec NodeCodec Trie NodeStore Linear.
From S2P Require Import Merkle MerkleSpec MerkleInsert MerkleRemove TrieCanonical MerkleCorrect Rlp Hashing HashSpec Iter IterSpec.
From S2P Require Import ProofTypes ProofWire Batch Diff DiffRef DiffSpec DiffCorrect.

(** ** The iterator *)

Abbreviation item := (result failure (bytes * Value)).

(** [MergeKeyValueIter]: each of its two iterators is a [ReturnableIterator], which holds an item that
    was put back.  The second one runs over the given pairs, reading any of which may fail. *)
Record MergeKeyValueIter : Type := mkMerge {
  mg_trie : FilteredKeyRangeIter;
  mg_trie_next : option item;
  mg_kvp : list item;
  mg_kvp_next : option item;
}.

Section Merge.
Context {St : Type} `{ReadableStorage St} `{VarInt} `{Digests}.
Variable alg : NodeHashAlgorithm.
Variable must_recompute : bool.

(** [MergeKeyValueIter::new]. *)
Definition MergeKeyValueIter_new (first_key last_key : option bytes) (kvp_iter : list item) : MergeKeyValueIter :=
  mkMerge (stop_after_key (from_key (default [] first_key)) last_key) None kvp_iter None.

(** [ReturnableIterator::next], on both sides. *)
Definition trie_next (fuel : nat) (self : MergeKeyValueIter) (ns : NodeStore St) : option item * MergeKeyValueIter * NodeStore St :=
  match mg_trie_next self with
  | Some x => (Some x, mkMerge (mg_trie self) None (mg_kvp self) (mg_kvp_next self), ns)
  | None =>
      let '(x, trie, ns) := FilteredKeyRangeIter_next alg must_recompute fuel (mg_trie self) ns in
      (x, mkMerge trie None (mg_kvp self) (mg_kvp_next self), ns)
  end.

Definition kvp_next (self : MergeKeyValueIter) : option item * MergeKeyValueIter :=
  match mg_kvp_next self with
  | Some x => (Some x, mkMerge (mg_trie self) (mg_trie_next self) (mg_kvp self) None)
  | None =>
      match mg_kvp self with
      | [] => (None, self)
      | x :: kvp => (Some x, mkMerge (mg_trie self) (mg_trie_next self) kvp None)
      end
  end.

(** [ReturnableIterator::set_next]. *)
Definition trie_set_next (x : item) (self : MergeKeyValueIter) : MergeKeyValueIter :=
  mkMerge (mg_trie self) (Some x) (mg_kvp self) (mg_kvp_next self).
Definition kvp_set_next (x : item) (self : MergeKeyValueIter) : MergeKeyValueIter :=
  mkMerge (mg_trie self) (mg_trie_next self) (mg_kvp self) (Some x).

(** [MergeKeyValueIter::next]; [rounds] bounds its loop, which goes on past unchanged pairs. *)
Fixpoint MergeKeyValueIter_next (rounds fuel : nat) (self : MergeKeyValueIter) (ns : NodeStore St)
  : option (result failure BatchOp) * MergeKeyValueIter * NodeStore St :=
  match rounds with
  | O => (Some (Err Diverges), self, ns)
  | S rounds =>
      let '(trie, self, ns) := trie_next fuel self ns in
      let '(kvp, self) := kvp_next self in
      match trie, kvp with
      | None, None => (None, self, ns)
      | Some (Err err), kvp => (Some (Err err), match kvp with Some kvp => kvp_set_next kvp self | None => self end, ns)
      | trie, Some (Err err) => (Some (Err err), match trie with Some trie => trie_set_next trie self | None => self end, ns)
      | Some (Ok (key, _)), None => (Some (Ok (Delete key)), self, ns)
      | None, Some (Ok (key, value)) => (Some (Ok (Put key value)), self, ns)
      | Some (Ok (base_key, node_value)), Some (Ok (kvp_key, kvp_value)) =>
          match slice_cmp base_key kvp_key with
          | Lt => (Some (Ok (Delete base_key)), kvp_set_next (Ok (kvp_key, kvp_value)) self, ns)
          | Eq =>
              if bool_decide (node_value = kvp_value) then MergeKeyValueIter_next rounds fuel self ns
              else (Some (Ok (Put kvp_key kvp_value)), self, ns)
          | Gt => (Some (Ok (Put kvp_key kvp_value)), trie_set_next (Ok (base_key, node_value)) self, ns)
          end
      end
  end.

(** The operations up to the end, or the first error. *)
Fixpoint merge_collect (n fuel : nat) (self : MergeKeyValueIter) (ns : NodeStore St) : result failure (list BatchOp) :=
  match n with
  | O => Err Diverges
  | S n' =>
      match MergeKeyValueIter_next n fuel self ns with
      | (None, _, _) => Ok []
      | (Some (Err e), _, _) => Err e
      | (Some (Ok op), self, ns) => ops ← merge_collect n' fuel self ns; mret (op :: ops)
      end
  end.

(** [Merkle::merge_key_value_range]. *)
Definition merge_key_value_range (n fuel : nat) (first_key last_key : option bytes) (key_values : list item) (ns : NodeStore St)
  : result failure (list BatchOp) :=
  merge_collect n fuel (MergeKeyValueIter_new first_key last_key key_values) ns.

End Merge.

(** ** What the iterator over the trie yields *)

Section MergeSpec.
Context {St : Type} `{ReadableStorageLaws St} `{VarInt} `{Digests}.
Variable alg : NodeHashAlgorithm.
Variable rd : LinearAddress -> option Node.
Variable must_recompute : bool.
Variable fuel : nat.

Abbreviation range_next := (FilteredKeyRangeIter_next alg must_recompute fuel).

(** An iterator at its end. *)
Definition stuck (self : FilteredKeyRangeIter) : Prop := self = FilterExhausted \/ self = Unfiltered (Iterating []).

Inductive yields : FilteredKeyRangeIter -> NodeStore St -> list (bytes * Value) -> Prop :=
| yields_nil self ns self' ns' : range_next self ns = (None, self', ns') -> stuck self' -> yields self ns []
| yields_cons self ns kv self' ns' l : range_next self ns = (Some (Ok kv), self', ns') -> yields self' ns' l -> yields self ns (kv :: l).

Lemma kv_next_nil f (ns : NodeStore St) :
  (0 < f)%nat -> MerkleKeyValueIter_next alg must_recompute f (Iterating []) ns = (None, Iterating [], ns).
Proof. destruct f; [lia|done]. Qed.

Lemma stuck_yields self ns : (0 < fuel)%nat -> stuck self -> yields self ns [].
Proof.
  intros Hf [-> | ->].
  - eapply yields_nil; [reflexivity|by left].
  - eapply yields_nil; [|by right]. cbn. by rewrite kv_next_nil.
Qed.

(** The node iterator ends with an empty stack. *)
Lemma kv_next_end f st ns st' ns' :
  MerkleKeyValueIter_next alg must_recompute f (Iterating st) ns = (None, st', ns') -> st' = Iterating [].
Proof.
  assert (Hstack : forall st (ns : NodeStore St), match stack_loop alg st ns with (None, st', _) => st' = Iterating [] | (Some _, st', _) => exists s, st' = Iterating s end).
  { clear. intros st. induction st as [|[key n|key [|[pos c] cs]] st IH]; intros ns; cbn [stack_loop].
    - done.
    - unfold visit. by destruct n; eauto.
    - apply IH.
    - destruct (read_child_node alg c ns) as [[n|e] ns']; [|eauto]. unfold visit. destruct n; eauto. }
  revert st ns. induction f as [|f IH]; intros st ns; cbn [MerkleKeyValueIter_next]; [done|]. cbn [MerkleNodeIter_next].
  specialize (Hstack st ns). destruct (stack_loop alg st ns) as [[[[[key n]|e]|] st1] ns1]; [|done|].
  - destruct Hstack as [s ->]. destruct (node_pair alg must_recompute key n); [done|]. apply IH.
  - intros [= <- <-]. done.
Qed.

Lemma yields_stack st l last ns :
  is_ethereum alg && must_recompute = false -> rstack rd st l -> holds alg rd ns -> (length l < fuel)%nat ->
  yields (FilteredKeyRangeIter_new (Iterating st) last) ns (take_while (below_last last) (omap kv_pair l)).
Proof.
  intros Hm Hst Hh Hf. remember (omap kv_pair l) as kvs eqn:Hkvs. revert st l ns Hst Hh Hf Hkvs.
  induction kvs as [|kv kvs IH]; intros st l ns Hst Hh Hf Hkvs; pose proof (kv_next_ok alg rd must_recompute fuel st l ns Hm Hst Hh Hf) as Hnext;
    rewrite <- Hkvs in Hnext.
  - destruct Hnext as (st' & ns' & Hrun & _). pose proof (kv_next_end _ _ _ _ _ Hrun) as ->.
    destruct last as [e|]; cbn; eapply yields_nil; cbn; try (rewrite Hrun; reflexivity); [by left|by right].
  - destruct Hnext as (st' & l' & ns' & Hrun & Hrec & Hst' & Hl' & Hlen).
    specialize (IH st' l' ns' Hst' (recorded_holds _ _ _ _ _ Hrec) ltac:(lia) ltac:(done)). destruct kv as [k v].
    destruct last as [e|]; cbn [take_while below_last fst]; [destruct (slice_le k e) eqn:He|].
    + eapply yields_cons; [|exact IH]. cbn. by rewrite Hrun, He.
    + eapply yields_nil; [|by left]. cbn. rewrite Hrun, He. reflexivity.
    + eapply yields_cons; [|exact IH]. cbn. by rewrite Hrun.
Qed.

(** Starting at a key. *)
Lemma yields_start first last ns st ns1 l :
  (0 < fuel)%nat -> get_iterator_intial_state alg first ns = (Ok (Iterating st), ns1) ->
  yields (FilteredKeyRangeIter_new (Iterating st) last) ns1 l -> yields (stop_after_key (from_key first) last) ns l.
Proof.
  intros Hf Hi Hy.
  assert (Hsame : range_next (stop_after_key (from_key first) last) ns = range_next (FilteredKeyRangeIter_new (Iterating st) last) ns1).
  { clear Hy. destruct fuel as [|f]; [lia|]. unfold stop_after_key, from_key, FilteredKeyRangeIter_new, FilteredKeyRangeIter_next.
    destruct last; by rewrite (kv_next_start alg must_recompute _ _ _ _ _ Hi). }
  inversion Hy as [? ? self' ns' Hr Hs|? ? kv self' ns' l' Hr Hl]; subst; rewrite <- Hsame in Hr.
  - by eapply yields_nil.
  - by eapply yields_cons.
Qed.

(** ** The merge *)

(** The pairs that each side still has. *)
Definition left_items (self : MergeKeyValueIter) (ns : NodeStore St) (l : list (bytes * Value)) : Prop :=
  match mg_trie_next self with
  | None => yields (mg_trie self) ns l
  | Some (Ok kv) => exists l', l = kv :: l' /\ yields (mg_trie self) ns l'
  | Some (Err _) => False
  end.

Definition right_items (self : MergeKeyValueIter) (r : list (bytes * Value)) : Prop :=
  match mg_kvp_next self with
  | None => mg_kvp self = Ok <$> r
  | Some (Ok kv) => exists r', r = kv :: r' /\ mg_kvp self = Ok <$> r'
  | Some (Err _) => False
  end.

Lemma trie_next_ok self ns l :
  (0 < fuel)%nat -> left_items self ns l ->
  exists self' ns', trie_next alg must_recompute fuel self ns = (Ok <$> head l, self', ns') /\
    left_items self' ns' (tail l) /\ mg_trie_next self' = None /\ mg_kvp self' = mg_kvp self /\ mg_kvp_next self' = mg_kvp_next self.
Proof.
  intros Hf Hl. unfold trie_next, left_items in *. destruct (mg_trie_next self) as [[kv|e]|]; [| done |].
  - destruct Hl as (l' & -> & Hy). eexists _, ns. split; [reflexivity|]. done.
  - destruct Hl as [? ? self' ns' Hr Hs|? ? kv self' ns' l Hr Hy]; rewrite Hr; eexists _, ns'; (split; [reflexivity|]); cbn.
    + split; [by apply stuck_yields|done].
    + done.
Qed.

Lemma kvp_next_ok self r :
  right_items self r ->
  exists self', kvp_next self = (Ok <$> head r, self') /\ right_items self' (tail r) /\ mg_kvp_next self' = None /\
    mg_trie self' = mg_trie self /\ mg_trie_next self' = mg_trie_next self.
Proof.
  intros Hr. unfold kvp_next, right_items in *. destruct (mg_kvp_next self) as [[kv|e]|] eqn:Hn; [|done|].
  - destruct Hr as (r' & -> & Hk). eexists. split; [reflexivity|]. done.
  - rewrite Hr. destruct r as [|kv r]; cbn; eexists; (split; [reflexivity|]); [by rewrite Hn|done].
Qed.

(** A change of a byte key as an operation. *)
Definition byte_op (c : change) : BatchOp := match c with (k, Some v) => Put k v | (k, None) => Delete k end.

(** [next] yields the first change between what the trie has and what is given. *)
Lemma merge_next_ok rounds self ns l r :
  (0 < fuel)%nat -> left_items self ns l -> right_items self r -> (length l < rounds)%nat ->
  match merge_diff l r with
  | [] => exists self' ns', MergeKeyValueIter_next alg must_recompute rounds fuel self ns = (None, self', ns')
  | c :: cs => exists self' ns' l' r',
      MergeKeyValueIter_next alg must_recompute rounds fuel self ns = (Some (Ok (byte_op c)), self', ns') /\
      left_items self' ns' l' /\ right_items self' r' /\ merge_diff l' r' = cs /\ (length l' <= length l)%nat /\
      (length l' + length r' < length l + length r)%nat
  end.
Proof.
  intros Hf. revert self ns l r. induction rounds as [|rounds IH]; intros self ns l r Hl Hr Hn; [lia|].
  cbn [MergeKeyValueIter_next].
  destruct (trie_next_ok self ns l Hf Hl) as (s1 & ns1 & -> & Hl1 & Ht1 & Hk1 & Hkn1).
  assert (Hr1 : right_items s1 r) by (unfold right_items in *; by rewrite Hkn1, Hk1).
  destruct (kvp_next_ok s1 r Hr1) as (s2 & -> & Hr2 & Hkn2 & Ht2 & Htn2).
  assert (Hl2 : left_items s2 ns1 (tail l)) by (unfold left_items in *; by rewrite Htn2, Ht2).
  destruct l as [|[k v] l], r as [|[q w] r]; cbn [head tail fmap option_fmap option_map] in *.
  - by exists s2, ns1.
  - change (merge_diff [] ((q, w) :: r)) with ((q, Some w) :: merge_diff [] r). exists s2, ns1, [], r. split; [reflexivity|].
    split; [done|]. split; [done|]. split; [done|]. cbn. lia.
  - change (merge_diff ((k, v) :: l) []) with ((k, @None Value) :: deletions l). exists s2, ns1, l, []. split; [reflexivity|].
    split; [done|]. split; [done|]. split; [by rewrite merge_diff_nil_r|]. cbn. lia.
  - rewrite merge_diff_cons. destruct (slice_cmp k q).
    + case_bool_decide.
      * cbn [length] in Hn. specialize (IH s2 ns1 l r Hl2 Hr2 ltac:(lia)). destruct (merge_diff l r) as [|c cs]; [done|].
        destruct IH as (s3 & ns3 & l' & r' & Hrun & Hl3 & Hr3 & Hd & Hle & Hlt). exists s3, ns3, l', r'.
        split; [done|]. split; [done|]. split; [done|]. split; [done|]. cbn. lia.
      * eexists s2, ns1, l, r. split; [reflexivity|]. split; [done|]. split; [done|]. split; [done|]. cbn. lia.
    + eexists _, ns1, l, ((q, w) :: r). split; [reflexivity|]. split; [done|]. split; [|split; [done|cbn; lia]].
      unfold right_items in *. rewrite Hkn2 in Hr2. cbn. eauto.
    + eexists _, ns1, ((k, v) :: l), r. split; [reflexivity|]. split; [|split; [done|split; [done|cbn; lia]]].
      unfold left_items in *. rewrite Htn2, Ht1 in Hl2. cbn. eauto.
Qed.

Lemma merge_collect_ok n self ns l r :
  (0 < fuel)%nat -> left_items self ns l -> right_items self r -> (length l + length r < n)%nat ->
  merge_collect alg must_recompute n fuel self ns = Ok (byte_op <$> merge_diff l r).
Proof.
  intros Hf. revert self ns l r. induction n as [|n IH]; intros self ns l r Hl Hr Hn; [lia|]. cbn [merge_collect].
  pose proof (merge_next_ok (S n) self ns l r Hf Hl Hr ltac:(lia)) as Hnext. destruct (merge_diff l r) as [|c cs] eqn:Hd.
  - destruct Hnext as (self' & ns' & ->). done.
  - destruct Hnext as (self' & ns' & l' & r' & -> & Hl' & Hr' & <- & _ & Hlt). by rewrite (IH self' ns' l' r' Hl' Hr' ltac:(lia)).
Qed.

End MergeSpec.

(** ** Replacing a range *)

(** The keys of a range. *)
Definition in_range (first last : option bytes) (k : bytes) : bool :=
  slice_le (default [] first) k && match last with Some e => slice_le k e | None => true end.

(** The map after the pairs of the range were replaced. *)
Definition replace_range (first last : option bytes) (kvs : list (bytes * Value)) (m : gmap bytes Value) : gmap bytes Value :=
  list_to_map kvs ∪ filter (fun kv => in_range first last kv.1 = false) m.

Lemma ascending_NoDup {A} (l : list (bytes * A)) : StronglySorted (fun x y => slice_lt x.1 y.1) l -> NoDup l.*1.
Proof.
  induction 1 as [|x l Hs IH Hx]; cbn; constructor; [|done]. by apply above_not_in.
Qed.

Lemma replace_range_lookup first last kvs m k :
  StronglySorted (fun x y : bytes * Value => slice_lt x.1 y.1) kvs -> Forall (fun kv => in_range first last kv.1 = true) kvs ->
  forall v, replace_range first last kvs m !! k = Some v <-> (k, v) ∈ kvs \/ (in_range first last k = false /\ m !! k = Some v).
Proof.
  intros Hs Hin v. pose proof (ascending_NoDup _ Hs) as Hnd. unfold replace_range. rewrite lookup_union_Some_raw.
  rewrite <- (elem_of_list_to_map kvs k v) by done. rewrite map_lookup_filter_Some. cbn. split.
  - intros [Hk|(Hn & Hm & Hf)]; [by left|by right].
  - intros [Hk|(Hf & Hm)]; [by left|]. right. split; [|done]. apply not_elem_of_list_to_map. intros (kv & -> & Hkv)%list_elem_of_fmap.
    rewrite Forall_forall in Hin. rewrite (Hin _ Hkv) in Hf. done.
Qed.

(** The operations of the merge lead from the map to the map with the range replaced. *)
Lemma merge_ops_spec first last kvs m (l : list (bytes * Value)) op :
  StronglySorted (fun x y : bytes * Value => slice_lt x.1 y.1) l -> StronglySorted (fun x y : bytes * Value => slice_lt x.1 y.1) kvs ->
  Forall (fun kv => in_range first last kv.1 = true) kvs ->
  (forall k v, (k, v) ∈ l <-> m !! k = Some v /\ in_range first last k = true) ->
  op ∈ byte_op <$> merge_diff l kvs <-> op_spec [] m (replace_range first last kvs m) op.
Proof.
  intros Hl Hk Hin Hlm. pose proof (fun k v => replace_range_lookup first last kvs m k Hk Hin v) as Hrep.
  assert (Hkey : forall k, k ∈ l.*1 <-> is_Some (m !! k) /\ in_range first last k = true).
  { intros k. rewrite list_elem_of_fmap. split.
    - intros ([k' v] & -> & Hkv%Hlm). cbn. destruct Hkv. eauto.
    - intros ([v Hm] & Hr). exists (k, v). split; [done|]. by apply Hlm. }
  rewrite list_elem_of_fmap. split.
  - intros ([k o] & -> & Hc). apply merge_diff_spec in Hc; [|done..]. destruct o as [v|]; cbn in *; destruct Hc as [H1 H2].
    + split; [apply Hrep; by auto|]. split; [|done]. intros Hm. apply H2, Hlm. split; [done|].
      rewrite Forall_forall in Hin. by apply (Hin (k, v)).
    + apply Hkey in H1 as [Hm Hr]. split; [done|]. split; [|done]. apply eq_None_not_Some. intros [v Hv].
      apply Hrep in Hv as [Hv|[Hf _]]; [|congruence]. apply H2, list_elem_of_fmap. by exists (k, v).
  - destruct op as [k v|k|]; cbn; [| |done].
    + intros (Hv & Hne & _). exists (k, Some v). split; [done|]. apply merge_diff_spec; [done..|]. cbn.
      apply Hrep in Hv as [Hv|[Hf Hm]]; [|done]. split; [done|]. intros [Hm _]%Hlm. done.
    + intros ([v Hm] & Hnone & _). exists (k, None). split; [done|]. apply merge_diff_spec; [done..|]. cbn. split.
      * apply Hkey. split; [by eauto|]. destruct (in_range first last k) eqn:Hr; [done|].
        assert (Hs : replace_range first last kvs m !! k = Some v) by (apply Hrep; auto). congruence.
      * intros ([k' w] & -> & Hkv)%list_elem_of_fmap. cbn in *.
        assert (Hs : replace_range first last kvs m !! k' = Some w) by (apply Hrep; auto). congruence.
Qed.

Section MergeCorrect.
Context {St : Type} `{ReadableStorageLaws St} `{VarInt} `{Digests}.
Variable alg : NodeHashAlgorithm.
Variable must_recompute : bool.

Lemma byte_op_sorted (cs : list change) :
  StronglySorted (fun x y : change => slice_lt x.1 y.1) cs -> StronglySorted slice_lt (op_key <$> (byte_op <$> cs)).
Proof.
  assert (Hkey : forall c, op_key (byte_op c) = c.1) by (by intros [k [v|]]).
  induction 1 as [|c cs Hs IH Hc]; [constructor|]. rewrite !fmap_cons. constructor; [done|].
  rewrite !Forall_fmap. eapply Forall_impl; [exact Hc|]. cbn. intros d Hd. by rewrite !Hkey.
Qed.

(** Every operation of the merge passes the checks of a batch. *)
Lemma merge_ops_checked m rm ops :
  (forall op, op ∈ ops <-> op_spec [] m rm op) ->
  (forall k v, m !! k = Some v -> is_bytes k /\ (2 * length k < TRIE_FUEL)%nat) ->
  (forall k v, rm !! k = Some v -> is_bytes k) ->
  (forall k v, rm !! k = Some v -> m !! k <> Some v -> check_batch_op alg (Put k v) = Ok tt) ->
  Forall (fun op => is_bytes (op_key op)) ops /\ check_batch alg ops = Ok tt.
Proof.
  intros Hspec Hm Hb Hput.
  assert (Hall : Forall (fun op => is_bytes (op_key op) /\ check_batch_op alg op = Ok tt) ops).
  { apply Forall_forall. intros op Hop%Hspec. destruct op as [k v|k|]; cbn [op_spec op_key] in *; [| |done].
    - destruct Hop as (Hr & Hne & _). split; [by eapply Hb|by apply Hput].
    - destruct Hop as ([v Hmk] & _). destruct (Hm k v Hmk) as [Hk Hl]. split; [done|]. unfold check_batch_op. cbn [op_key].
      destruct (Z.ltb_spec MAX_KEY_BYTES (len k)); [unfold TRIE_FUEL, MAX_KEY_BYTES in *; lia|]. by destruct (is_ethereum alg). }
  split; [by eapply Forall_impl; [exact Hall|]; intros ? []|]. clear -Hall.
  induction Hall as [|op ops [_ Hc] _ IH]; [done|]. cbn [check_batch]. by rewrite Hc.
Qed.

(** The iterator over the trie yields the pairs of the range, in order. *)
Lemma range_pairs rd (ns : NodeStore St) t m first last fuel :
  represents alg rd ns t -> ocanonical t -> contents TRIE_FUEL t m -> is_bytes (default [] first) ->
  is_ethereum alg && must_recompute = false -> (2 * size m < fuel)%nat ->
  exists l, yields alg must_recompute fuel (stop_after_key (from_key (default [] first)) last) ns l /\
    StronglySorted (fun x y : bytes * Value => slice_lt x.1 y.1) l /\
    (forall k v, (k, v) ∈ l <-> m !! k = Some v /\ in_range first last k = true) /\ (length l <= 2 * size m)%nat.
Proof.
  intros Hrep Hcan Hm Hb Heth Hf. pose proof Hrep as (_ & _ & Hwf).
  destruct (initial_state_ok alg rd ns t (default [] first) Hrep Hb) as (st & ns1 & Hi & Hrec & Hst).
  fold (nodes_of t) in Hst. fold (nodes_from (default [] first) t) in Hst.
  pose proof (nodes_from_length t m TRIE_FUEL (default [] first) Hwf Hcan Hm) as Hlen.
  pose proof (pairs_sorted t m TRIE_FUEL Hwf Hm (default [] first)) as Hsp.
  exists (take_while (below_last last) (omap kv_pair (nodes_from (default [] first) t))). split_and!.
  - eapply yields_start; [lia|exact Hi|]. apply (yields_stack alg rd); [done|done|by eapply recorded_holds|lia].
  - by apply StronglySorted_take_while.
  - intros k v. rewrite (elem_of_take_while_sorted (fun a b => slice_lt a.1 b.1)); [|done|].
    + rewrite (pairs_elem t m TRIE_FUEL Hwf Hm) by done. unfold in_range, below_last. rewrite andb_true_iff. cbn. tauto.
    + intros [a x] [b y] Hab Hlast. unfold below_last in *. destruct last as [e|]; [|done]. cbn in *.
      by eapply slice_le_trans; [apply slice_le_total | done].
  - etransitivity; [|exact Hlen]. etransitivity; [|apply (omap_length_le kv_pair)].
    generalize (omap kv_pair (nodes_from (default [] first) t)). intros k.
    induction k as [|x k IH]; cbn; [lia|]. destruct (below_last last x); cbn; lia.
Qed.

(** C21: Merging replaces a range: with strictly ascending pairs that lie in the range from [first] to [last] and pass
    the checks of a batch, the merge iterator over a trie that holds the map [m] ends, and applying its
    operations to a store that holds [m] gives the map whose pairs in the range are the given ones and whose
    other pairs are those of [m].  This is for MerkleDB and for Ethereum databases of versions that store the
    storage roots of accounts; where they are recomputed on reading ([must_recompute_storage_hash]), the merge
    compares the given values with accounts that have that root spliced in, which is not covered. *)
Theorem merge_replaces_range rd (ns : NodeStore St) t m first last kvs rd' (ns' : NodeStore St) n fuel :
  represents alg rd ns t -> ocanonical t -> contents TRIE_FUEL t m -> is_bytes (default [] first) ->
  is_ethereum alg && must_recompute = false ->
  StronglySorted (fun x y : bytes * Value => slice_lt x.1 y.1) kvs ->
  Forall (fun kv => in_range first last kv.1 = true /\ is_bytes kv.1 /\ check_batch_op alg (Put kv.1 kv.2) = Ok tt) kvs ->
  (2 * size m + length kvs < n)%nat -> (2 * size m < fuel)%nat -> holds_map alg rd' ns' m ->
  exists ops ns2, merge_key_value_range alg must_recompute n fuel first last (Ok <$> kvs) ns = Ok ops /\
    apply_batch_serial alg ops ns' = Ok ns2 /\ holds_map alg rd' ns2 (replace_range first last kvs m).
Proof.
  intros Hrep Hcan Hm Hb Heth Hsk Hkv Hn Hf Hns'.
  destruct (range_pairs rd ns t m first last fuel Hrep Hcan Hm Hb Heth Hf) as (l & Hy & Hsl & Hlm & Hll).
  assert (Hin : Forall (fun kv => in_range first last kv.1 = true) kvs) by (by eapply Forall_impl; [exact Hkv|]; intros ? (? & ? & ?)).
  pose proof (fun op => merge_ops_spec first last kvs m l op Hsl Hsk Hin Hlm) as Hspec.
  exists (byte_op <$> merge_diff l kvs).
  destruct (merge_ops_checked m (replace_range first last kvs m) (byte_op <$> merge_diff l kvs) Hspec) as [Hbytes Hcheck].
  { apply Hm. }
  { intros k v Hk. apply replace_range_lookup in Hk as [Hk|[_ Hk]]; [|by apply (contents_bytes _ _ _ Hm k v)|done..].
    rewrite Forall_forall in Hkv. by apply (Hkv (k, v)). }
  { intros k v Hk Hne. apply replace_range_lookup in Hk as [Hk|[_ Hk]]; [|done..]. rewrite Forall_forall in Hkv. by apply (Hkv (k, v)). }
  pose proof (apply_batch_serial_ok alg rd' (byte_op <$> merge_diff l kvs) ns' m Hbytes Hns') as Happ. rewrite Hcheck in Happ.
  destruct Happ as (ns2 & Happ & Hmap). exists ns2. split; [|split; [done|]].
  - apply (merge_collect_ok alg must_recompute); [lia|exact Hy|done|lia].
  - replace (replace_range first last kvs m) with (batch_map (byte_op <$> merge_diff l kvs) m); [done|].
    apply map_eq. intros k. rewrite (batch_map_diff [] m _ _ (byte_op_sorted _ (merge_diff_ascending _ _ Hsl Hsk)) Hspec). done.
Qed.

End MergeCorrect.

(** *** Witness: replacing the keys from [a] to [c] *)
Section MergeWitness.
Import Leb128 FirstBytes.

Definition w_pairs : list (bytes * Value) := [([97; 1], [5]); ([98], [8])].

Lemma merge_replaces_range_witness :
  merge_key_value_range MerkleDB false 9 9 (Some [97]) (Some [99]) (Ok <$> w_pairs) w_store =
    Ok [Delete [97]; Put [97; 1] [5]; Put [98] [8]] /\
  exists ops ns2, merge_key_value_range MerkleDB false 9 9 (Some [97]) (Some [99]) (Ok <$> w_pairs) w_store = Ok ops /\
    apply_batch_serial MerkleDB ops w_store = Ok ns2 /\ holds_map MerkleDB w_rd ns2 (replace_range (Some [97]) (Some [99]) w_pairs w_map).
Proof.
  split; [by vm_compute|].
  apply (merge_replaces_range MerkleDB false w_rd w_store (Some w_trie) w_map (Some [97]) (Some [99]) w_pairs w_rd w_store 9 9).
  - apply w_represents.
  - apply w_canonical.
  - apply (contents_weaken 9); [apply w_contents|]. apply (bool_decide_unpack (9 <= TRIE_FUEL)%nat). vm_compute. exact I.
  - repeat constructor; unfold u8, U8_MAX; lia.
  - reflexivity.
  - repeat constructor.
  - repeat constructor; unfold u8, U8_MAX; lia.
  - apply (bool_decide_unpack (2 * size w_map + length w_pairs < 9)%nat). vm_compute. exact I.
  - apply (bool_decide_unpack (2 * size w_map < 9)%nat). vm_compute. exact I.
  - apply w_holds_map.
Defined.

End MergeWitness.
