(* ===== verification/ChangeProof.v ===== *)
(** * Change proofs

    [firewood/src/proofs/change.rs], [firewood/src/merkle/collapse.rs] and the verification
    of root hashes of change proofs in [firewood/src/merkle/mod.rs].  A change proof says
    how to get from one revision to another within a range of keys.  The verifier applies
    the operations to its own trie, forks the result, bends the fork to the shape of the
    other revision with the nodes of the two edge proofs, and compares the hash. *)

From S2P Require Import Prelude Primitives NodePath Node Codec NodeCodec Trie NodeStore Linear Header ChildMask.
From S2P Require Import Merkle Rlp Hashing Iter ProofTypes KeyProof ProofWire Batch RangeProof Diff.

(** ** Errors *)

(** The cases of [api::Error] that occur here. *)
Inductive ApiError : Type :=
| ApiProof (e : ProofError)
| ApiIO (e : failure)
| ApiInvalidRange (start_key end_key : bytes)
| ApiRangeProofOnEmptyTrie.

(** Operations on a store that can fail with an [api::Error]. *)
Definition api_op (St A : Type) : Type := NodeStore St -> result ApiError A * NodeStore St.

#[export] Instance api_ret {St} : MRet (api_op St) := fun _ a ns => (Ok a, ns).
#[export] Instance api_bind {St} : MBind (api_op St) :=
  fun _ _ f m ns => match m ns with
                    | (Ok a, ns') => f a ns'
                    | (Err e, ns') => (Err e, ns')
                    end.

Definition api_lift {St A} (r : result ApiError A) : api_op St A := fun ns => (r, ns).

(** [?] on a result of the store. *)
Definition io_op {St A} (m : store_op St A) : api_op St A := fun ns =>
  match m ns with
  | (Ok a, ns) => (Ok a, ns)
  | (Err e, ns) => (Err (ApiIO e), ns)
  end.

(** A proof error in a function that returns an [api::Error]. *)
Definition reject {St A} (e : ProofError) : api_op St A := api_lift (Err (ApiProof e)).

(** ** The proven range *)

(** [CollapseRange]. *)
Record CollapseRange : Type := mkCollapseRange {
  cr_start : Path;
  cr_end : option Path;
}.

(** [CollapseRange::contains]. *)
Definition range_contains (range : CollapseRange) (node : Path) : bool :=
  slice_le (cr_start range) node && match cr_end range with None => true | Some end_ => slice_le node end_ end.

(** [nibble_in_range]. *)
Definition nibble_in_range (acc_prefix : Path) (child_nib : PathComponent) (range : CollapseRange) : bool :=
  let depth := length acc_prefix in
  let start := cr_start range in
  let split := Nat.min depth (length start) in
  let above_start :=
    match slice_cmp (take split acc_prefix) (take split start) with
    | Gt => true
    | Lt => false
    | Eq => match start !! split with None => true | Some boundary => boundary <=? child_nib end
    end in
  let below_end :=
    match cr_end range with
    | None => true
    | Some end_ =>
        let split := Nat.min depth (length end_) in
        match slice_cmp (take split acc_prefix) (take split end_) with
        | Lt => true
        | Gt => false
        | Eq => match end_ !! split with None => false | Some boundary => child_nib <=? boundary end
        end
    end in
  above_start && below_end.

(** [build_child_prefix]. *)
Definition build_child_prefix (prefix : Path) (nibble : PathComponent) (node : Node) : Path :=
  prefix ++ nibble :: partial_path node.

(** [consume_partial_path]. *)
Definition consume_partial_path (remaining : Path) (node : Node) : result ApiError Path :=
  let pp := partial_path node in
  if Nat.ltb (length remaining) (length pp) then Err (ApiProof ProofNodeUnreachable)
  else if negb (bool_decide (take (length pp) remaining = pp)) then Err (ApiProof ProofNodeUnreachable)
  else Ok (drop (length pp) remaining).

(** [BoundaryChildSource]. *)
Inductive BoundaryChildSource : Type := Recompute | FromProof.

(** ** Collapsing the proving trie *)

Section Collapse.
Context {St : Type} `{ReadableStorage St} `{VarInt}.
Variable alg : NodeHashAlgorithm.

(** The bound on the height of the stored trie. *)
Variable height : nat.

(** [child_in_range]. *)
Fixpoint child_in_range (fuel : nat) (child : Child) (acc_prefix : Path) (nibble : PathComponent) (range : CollapseRange) : store_op St bool :=
  match fuel with
  | O => lift (Err Diverges)
  | S fuel =>
      if negb (nibble_in_range acc_prefix nibble range) then mret false
      else
        child_node ← read_child_node alg child;
        let pfx := build_child_prefix acc_prefix nibble child_node in
        let key_in_range := range_contains range pfx in
        match child_node with
        | Leaf _ => mret key_in_range
        | Branch branch =>
            if key_in_range && bool_decide (is_Some (branch_value branch)) then mret true
            else
              (fix loop (children : list (PathComponent * Child)) : store_op St bool :=
                 match children with
                 | [] => mret false
                 | (child_nibble, inner_child) :: children =>
                     found ← child_in_range fuel inner_child pfx child_nibble range;
                     if (found : bool) then mret true else loop children
                 end) (Children_iter_present (branch_children branch))
        end
  end.

(** [boundary_child_source]. *)
Definition boundary_child_source (node_key : Path) (on_path : PathComponent) (range : CollapseRange) : store_op St BoundaryChildSource := fun ns =>
  match ns_root ns with
  | None => (Ok Recompute, ns)
  | Some root =>
      (node ← get_helper alg (S (length node_key)) root node_key;
       match node with
       | Some (Branch branch) =>
           match Children_get (branch_children branch) on_path with
           | None => mret Recompute
           | Some child =>
               in_range ← child_in_range height child node_key on_path range;
               mret (if (in_range : bool) then Recompute else FromProof)
           end
       | _ => mret Recompute
       end) ns
  end.

(** The loop of [collapse_strip]: the children that are not on the path are taken out. *)
Fixpoint strip_off_path (on_path : PathComponent) (acc_prefix : Path) (range : option CollapseRange) (children : list (PathComponent * option Child))
  (slots : Children (option Child)) : api_op St (Children (option Child)) :=
  match children with
  | [] => mret slots
  | (nibble, slot) :: children =>
      if nibble =? on_path then strip_off_path on_path acc_prefix range children slots
      else
        in_range ← match range, slot with
                   | Some range, Some child => io_op (child_in_range height child acc_prefix nibble range)
                   | _, _ => mret false
                   end;
        if (in_range : bool) then reject EndRootMismatch
        else strip_off_path on_path acc_prefix range children (Children_set slots nibble None)
  end.

(** [collapse_strip]; [fuel] bounds the length of the path. *)
Fixpoint collapse_strip (fuel : nat) (node : Node) (path acc_prefix : Path) (range : option CollapseRange) : api_op St Node :=
  match fuel with
  | O => api_lift (Err (ApiIO Diverges))
  | S fuel =>
      match path with
      | [] => mret node
      | on_path :: remaining =>
          match node with
          | Leaf _ => reject ProofNodeUnreachable
          | Branch (mkBranch bp bv bc) =>
              bc ← strip_off_path on_path acc_prefix range (Children_iter bc) bc;
              let out_of_range := match range with None => true | Some range => negb (range_contains range acc_prefix) end in
              let bv := if out_of_range then None else bv in
              match Children_take bc on_path with
              | (None, _) => reject ProofNodeUnreachable
              | (Some child, bc) =>
                  child_node ← io_op (merkle_read_for_update alg child);
                  deeper ← api_lift (consume_partial_path remaining child_node);
                  child_node ← (if negb (Nat.eqb (length deeper) 0)
                                then collapse_strip fuel child_node deeper (build_child_prefix acc_prefix on_path child_node) range
                                else mret child_node);
                  let bc := Children_set bc on_path (Some (ChildNode child_node)) in
                  match bv with
                  | Some _ => mret (Branch (mkBranch bp bv bc))
                  | None =>
                      match take_only_child bc with
                      | (None, bc) => mret (Branch (mkBranch bp bv bc))
                      | (Some (child_idx, only_child), _) =>
                          merged ← io_op (merkle_read_for_update alg only_child);
                          mret (update_partial_path merged (bp ++ child_idx :: partial_path merged))
                      end
                  end
              end
          end
      end
  end.

(** [collapse_descend]. *)
Definition collapse_descend (node : Node) (path acc_prefix : Path) (range : option CollapseRange) : api_op St Node :=
  match path with
  | [] => mret node
  | first :: remaining =>
      match node with
      | Leaf _ => reject ProofNodeUnreachable
      | Branch (mkBranch bp bv bc) =>
          match Children_take bc first with
          | (None, _) => reject ProofNodeUnreachable
          | (Some child, bc) =>
              child_node ← io_op (merkle_read_for_update alg child);
              let child_prefix := build_child_prefix acc_prefix first child_node in
              after_child ← api_lift (consume_partial_path remaining child_node);
              child_node ← collapse_strip (S (length after_child)) child_node after_child child_prefix range;
              mret (Branch (mkBranch bp bv (Children_set bc first (Some (ChildNode child_node)))))
          end
      end
  end.

(** [collapse_navigate]. *)
Fixpoint collapse_navigate (fuel : nat) (node : Node) (key suffix parent_prefix : Path) (range : option CollapseRange) : api_op St Node :=
  match fuel with
  | O => api_lift (Err (ApiIO Diverges))
  | S fuel =>
      let pp := partial_path node in
      let diverge := split_index key pp in
      if negb (Nat.eqb diverge (length pp)) then reject ProofNodeUnreachable
      else
        match drop diverge key with
        | [] => collapse_descend node suffix parent_prefix range
        | child_component :: deeper =>
            match node with
            | Leaf _ => reject ProofNodeUnreachable
            | Branch (mkBranch bp bv bc) =>
                match Children_take bc child_component with
                | (None, _) => reject ProofNodeUnreachable
                | (Some child, bc) =>
                    child_node ← io_op (merkle_read_for_update alg child);
                    child_node ← collapse_navigate fuel child_node deeper suffix parent_prefix range;
                    mret (Branch (mkBranch bp bv (Children_set bc child_component (Some (ChildNode child_node)))))
                end
            end
        end
  end.

(** [collapse_branch_to_path]: the root is put back only on success. *)
Definition collapse_branch_to_path (from to : Path) (range : option CollapseRange) : api_op St unit := fun ns =>
  match strip_prefix from to with
  | None => (Err (ApiProof ProofNodeUnreachable), ns)
  | Some suffix =>
      match ns_root ns with
      | None => (Ok tt, ns)
      | Some root_node =>
          match collapse_navigate (S (length from)) root_node from suffix from range (set_root None ns) with
          | (Ok root_node, ns) => (Ok tt, set_root (Some root_node) ns)
          | (Err e, ns) => (Err e, ns)
          end
      end
  end.

(** [collapse_root_to_path]. *)
Definition collapse_root_to_path (target : Path) (range : option CollapseRange) : api_op St unit := fun ns =>
  match ns_root ns with
  | None => (Err (ApiIO Panic), ns)
  | Some root_node =>
      let pp := partial_path root_node in
      if Nat.leb (length pp) (length target) && negb (Nat.eqb (length (drop (length pp) target)) 0)
         && bool_decide (take (length pp) target = pp)
      then
        match collapse_strip (S (length target)) root_node (drop (length pp) target) pp range (set_root None ns) with
        | (Ok root_node, ns) => (Ok tt, set_root (Some root_node) ns)
        | (Err e, ns) => (Err e, ns)
        end
      else (Ok tt, ns)
  end.

End Collapse.

(** ** The structure of a change proof *)

(** [ChangeProofVerificationContext]. *)
Record ChangeProofVerificationContext : Type := mkChangeContext {
  cc_end_root : TrieHash;
  cc_start_key : option bytes;
  cc_end_key : option bytes;
  cc_right_edge_key : option bytes;
}.

(** The operation is a [Put], a [Delete]. *)
Definition is_put (op : BatchOp) : bool := match op with Put _ _ => true | _ => false end.
Definition is_delete (op : BatchOp) : bool := match op with Delete _ => true | _ => false end.
Definition is_delete_range (op : BatchOp) : bool := match op with DeleteRange _ => true | _ => false end.

(** [find_next_key_after_change_proof]. *)
Definition find_next_key_after_change_proof (proof : FrozenChangeProof) (end_key : option bytes)
  : result ApiError (option (bytes * option bytes)) :=
  match last (contents_of proof) with
  | None => Ok None
  | Some last_op =>
      if Nat.eqb (length (end_proof proof)) 0 then Ok None
      else
        match end_key with
        | Some e =>
            if slice_ltb e (op_key last_op) then Err (ApiProof EndKeyLessThanLastKey)
            else if bool_decide (op_key last_op = e) then Ok None
            else Ok (Some (lex_successor (op_key last_op), end_key))
        | None => Ok (Some (lex_successor (op_key last_op), end_key))
        end
  end.

Section ChangeStructure.
Context `{Digests} `{VarInt}.
Variable alg : NodeHashAlgorithm.

(** [verify_boundary_proof]. *)
Definition verify_boundary_proof (proof : list ProofNode) (key : bytes) (end_root : TrieHash) (boundary_op : option BatchOp)
  (mismatch_error : ProofError) (edge : ProofEdge) : result ApiError unit :=
  result ← match proof_value_digest alg proof key end_root with
           | Ok result => Ok result
           | Err EmptyProof => Ok None
           | Err (UnexpectedHash expected actual) => Err (ApiProof (EdgeProofHashMismatch edge expected actual))
           | Err e => Err (ApiProof e)
           end;
  match boundary_op, result with
  | Some (Put _ _), None => Err (ApiProof mismatch_error)
  | Some (Delete _), Some _ => Err (ApiProof mismatch_error)
  | _, _ => Ok tt
  end.

(** [compute_right_edge_key]. *)
Definition compute_right_edge_key (proof : FrozenChangeProof) (end_root : TrieHash) (last_op_key end_key : option bytes) : option bytes :=
  match last_op_key with
  | None => end_key
  | Some anchor =>
      match proof_value_digest alg (end_proof proof) anchor end_root with
      | Ok (Some _) => Some anchor
      | Ok None =>
          if match last (contents_of proof) with Some op => is_delete op | None => false end then Some anchor
          else match end_key with Some e => Some e | None => Some anchor end
      | Err _ => match end_key with Some e => Some e | None => Some anchor end
      end
  end.

(** The scan of the operations. *)
Fixpoint scan_ops (batch_ops : list BatchOp) (last_op : option BatchOp) : result ApiError (option BatchOp) :=
  match batch_ops with
  | [] => Ok last_op
  | op :: batch_ops =>
      if is_delete_range op then Err (ApiProof DeleteRangeFoundInChangeProof)
      else if match last_op with Some prev => slice_le (op_key op) (op_key prev) | None => false end
      then Err (ApiProof ChangeProofKeysNotSorted)
      else scan_ops batch_ops (Some op)
  end.

(** [verify_change_proof_structure]. *)
Definition verify_change_proof_structure (proof : FrozenChangeProof) (end_root : TrieHash) (start_key end_key : option bytes)
  (max_length : option Z) : result ApiError ChangeProofVerificationContext :=
  let batch_ops := contents_of proof in
  let no_ops := Nat.eqb (length batch_ops) 0 in
  let no_start := Nat.eqb (length (start_proof proof)) 0 in
  let no_end := Nat.eqb (length (end_proof proof)) 0 in
  if negb (bool_decide (hash_mode proof = alg)) then Err (ApiProof (HashModeMismatch alg (hash_mode proof)))
  else if match max_length with Some max => max <? len batch_ops | None => false end then Err (ApiProof ProofIsLargerThanMaxLength)
  else
    _ ← match start_key, end_key with
        | Some start, Some e => if slice_ltb e start then Err (ApiInvalidRange start e) else Ok tt
        | _, _ => Ok tt
        end;
    if negb no_start && bool_decide (start_key = None) then Err (ApiProof UnexpectedStartProof)
    else
      _ ← match no_ops, no_end with
          | false, true =>
              if no_start && (bool_decide (is_Some start_key) || bool_decide (is_Some end_key)) then Err (ApiProof MissingBoundaryProof)
              else Err (ApiProof MissingEndProof)
          | true, false => if bool_decide (end_key = None) then Err (ApiProof UnexpectedEndProof) else Ok tt
          | true, true => if bool_decide (is_Some end_key) then Err (ApiProof MissingEndProof) else Ok tt
          | false, false => Ok tt
          end;
      if match start_key, head batch_ops with Some start, Some first => slice_ltb (op_key first) start | _, _ => false end
      then Err (ApiProof StartKeyLargerThanFirstKey)
      else if match end_key, last batch_ops with Some e, Some last => slice_ltb e (op_key last) | _, _ => false end
      then Err (ApiProof EndKeyLessThanLastKey)
      else
        _ ← match start_key with
            | Some start =>
                let boundary_op := match head batch_ops with Some op => if bool_decide (op_key op = start) then Some op else None | None => None end in
                verify_boundary_proof (start_proof proof) start end_root boundary_op StartProofOperationMismatch LeftEdge
            | None => Ok tt
            end;
        last_op ← scan_ops batch_ops None;
        let last_op_key := op_key <$> last_op in
        let right_edge_key := compute_right_edge_key proof end_root last_op_key end_key in
        _ ← match right_edge_key with
            | Some key =>
                let end_boundary_op := match last_op with Some op => if bool_decide (op_key op = key) then Some op else None | None => None end in
                verify_boundary_proof (end_proof proof) key end_root end_boundary_op EndProofOperationMismatch RightEdge
            | None => Ok tt
            end;
        mret (mkChangeContext end_root start_key end_key right_edge_key).

End ChangeStructure.

(** ** The root hash of a change proof *)

Section ChangeRootHash.
Context `{Digests} `{VarInt} {St : Type} `{ReadableStorage St}.
Variable alg : NodeHashAlgorithm.
Variable height : nat.

(** A boundary terminal's on-path child, decided against the proving trie. *)
Fixpoint mark_terminals (terminals : list (ProofNode * TerminalMarking)) (range : CollapseRange) (marks : gmap Path ChildMask)
  : api_op St (gmap Path ChildMask) :=
  match terminals with
  | [] => mret marks
  | (_, AllOutside) :: terminals => mark_terminals terminals range marks
  | (node, OnPath on_path) :: terminals =>
      if existsb (fun p : PathComponent * HashType => p.1 =? on_path) (Children_iter_present (pn_child_hashes node))
      then reject ExclusionProofMissingChild
      else
        source ← io_op (boundary_child_source alg height (pn_key node) on_path range);
        mark_terminals terminals range
          (match source with
           | FromProof => <[pn_key node := mask_set (default 0 (marks !! pn_key node)) on_path]> marks
           | Recompute => marks
           end)
  end.

(** [change_outside_children]. *)
Definition change_outside_children (proof : FrozenChangeProof) (verification : ChangeProofVerificationContext) (range : CollapseRange)
  : api_op St (gmap Path ChildMask) := fun ns =>
  match compute_outside_children (start_proof proof) (BoundaryLeft (cc_start_key verification)) with
  | Err e => (Err (ApiProof e), ns)
  | Ok (start_children, start_terminal) =>
      match compute_outside_children (end_proof proof) (BoundaryRight (InRange (cc_right_edge_key verification))) with
      | Err e => (Err (ApiProof e), ns)
      | Ok (end_children, end_terminal) =>
          mark_terminals (option_list start_terminal ++ option_list end_terminal) range (merge_marks start_children end_children) ns
      end
  end.

(** The callback of both loops. *)
Definition change_on_conflict (range : CollapseRange) (pn : ProofNode) (branch_value : option Value) : result ProofError (option Value) :=
  if range_contains range (pn_key pn) then Err UnexpectedValue
  else match pn_value_digest pn with Some (DigestValue v) => Ok (Some v) | _ => Ok None end.

(** The loop over the nodes of the start proof. *)
Fixpoint reconcile_start (range : CollapseRange) (nodes : list ProofNode) (proof_node_map : gmap Path ProofNode) : api_op St (gmap Path ProofNode) :=
  match nodes with
  | [] => mret proof_node_map
  | proof_node :: nodes => fun ns =>
      match reconcile_branch_proof_node alg proof_node (change_on_conflict range) ns with
      | (Err e, ns) => (Err (ApiProof e), ns)
      | (Ok _, ns) => reconcile_start range nodes (<[pn_key proof_node := proof_node]> proof_node_map) ns
      end
  end.

(** The loop over the nodes of the end proof. *)
Fixpoint reconcile_end (range : CollapseRange) (nodes : list ProofNode) (proof_node_map : gmap Path ProofNode) : api_op St (gmap Path ProofNode) :=
  match nodes with
  | [] => mret proof_node_map
  | proof_node :: nodes => fun ns =>
      match reconcile_branch_proof_node alg proof_node (change_on_conflict range) ns with
      | (Err e, ns) => (Err (ApiProof e), ns)
      | (Ok _, ns) =>
          match proof_node_map !! pn_key proof_node with
          | Some existing =>
              if negb (ProofNode_eq existing proof_node) then (Err (ApiProof ConflictingProofNodes), ns)
              else reconcile_end range nodes proof_node_map ns
          | None => reconcile_end range nodes (<[pn_key proof_node := proof_node]> proof_node_map) ns
          end
      end
  end.

(** [array_windows]: the consecutive pairs of proof nodes. *)
Fixpoint collapse_windows (range : CollapseRange) (nodes : list ProofNode) : api_op St unit :=
  match nodes with
  | parent :: (child :: _) as rest =>
      _ ← collapse_branch_to_path alg height (pn_key parent) (pn_key child) (Some range);
      collapse_windows range rest
  | _ => mret tt
  end.

(** The proven range in nibbles. *)
Definition change_range (verification : ChangeProofVerificationContext) : CollapseRange :=
  mkCollapseRange
    match cc_start_key verification with Some k => from_nibbles_iterator (NibblesIterator_new k) | None => [] end
    match cc_right_edge_key verification with Some k => Some (from_nibbles_iterator (NibblesIterator_new k)) | None => None end.

(** The hybrid hash of the root. *)
Definition hash_root (proof_node_map : gmap Path ProofNode) (outside_children : gmap Path ChildMask) : api_op St HashType := fun ns =>
  match ns_root ns with
  | None => (Err (ApiIO Panic), ns)
  | Some root_node => io_op (compute_root_hash_with_proofs alg proof_node_map outside_children height root_node []) ns
  end.

(** What [verify_change_proof_root_hash] makes of the fork: the proving trie, with the nodes
    of the proof and the slots outside of the range. *)
Definition proving_trie (proof : FrozenChangeProof) (verification : ChangeProofVerificationContext)
  : api_op St (gmap Path ProofNode * gmap Path ChildMask) :=
  let start_nodes := start_proof proof in
  let end_nodes := end_proof proof in
  let range := change_range verification in
  proof_node_map ← reconcile_start range start_nodes ∅;
  proof_node_map ← reconcile_end range end_nodes proof_node_map;
  _ ← collapse_windows range start_nodes;
  _ ← collapse_windows range end_nodes;
  _ ← match head (start_nodes ++ end_nodes) with
      | Some first => collapse_root_to_path alg height (pn_key first) (Some range)
      | None => mret tt
      end;
  outside_children ← change_outside_children proof verification range;
  mret (proof_node_map, outside_children).

(** The hash of the proving trie. *)
Definition proving_root_hash (proof : FrozenChangeProof) (verification : ChangeProofVerificationContext) : api_op St HashType :=
  p ← proving_trie proof verification;
  hash_root p.1 p.2.

(** [NodeStore::new]: a mutable store on top of a hashed one, whose root is [parent_root]. *)
Definition fork (parent_root : option MaybePersisted) (tracking : bool) (s : St) : result failure unit * NodeStore St :=
  match parent_root with
  | None => (Ok tt, mkNodeStore None (Propose []) s tracking)
  | Some root =>
      let ns := mkNodeStore None (Propose (if tracking then [root] else [])) s tracking in
      match as_shared_node alg root ns with
      | (Err e, ns) => (Err e, ns)
      | (Ok node, ns) => (Ok tt, set_root (Some node) ns)
      end
  end.

(** [verify_change_proof_root_hash]; the proposal is its root, its root hash and its storage. *)
Definition verify_change_proof_root_hash (proof : FrozenChangeProof) (verification : ChangeProofVerificationContext)
  (proposal_root : option MaybePersisted) (proposal_hash : option TrieHash) (tracking : bool) (s : St) : result ApiError unit * St :=
  let no_proofs := Nat.eqb (length (start_proof proof)) 0 && Nat.eqb (length (end_proof proof)) 0 in
  if no_proofs then
    let computed := default (replicate 32 0) proposal_hash in
    (if negb (bool_decide (computed = cc_end_root verification)) then Err (ApiProof EndRootMismatch) else Ok tt, s)
  else
    match fork proposal_root tracking s with
    | (Err e, ns) => (Err (ApiIO e), ns_storage ns)
    | (Ok _, ns) =>
        match proving_root_hash proof verification ns with
        | (Err e, ns) => (Err e, ns_storage ns)
        | (Ok computed, ns) =>
            (if negb (HashType_eq_TrieHash computed (cc_end_root verification)) then Err (ApiProof EndRootMismatch) else Ok tt, ns_storage ns)
        end
    end.

End ChangeRootHash.
