(* ===== verification/ChangeStructure.v ===== *)
(** * The structure of a change proof

    [verify_change_proof_structure] ([firewood/src/proofs/change.rs]): which proofs it
    accepts, and the range that it establishes. *)

From Stdlib Require Import Sorting.Sorted.
From S2P Require Import Prelude Primitives NodePath Node Codec NodeCodec Trie NodeStore Linear Header ChildMask.
From S2P Require Import Merkle Rlp Hashing Iter IterSpec ProofTypes KeyProof KeyProofSound ProofWire ProofWireSpec Batch.
From S2P Require Import RangeProof RangeMarks RangeAccept RangeSound ChangeProof.

(** ** The scan *)

Lemma scan_ops_some ops prev l :
  scan_ops ops (Some prev) = Ok l <->
  Forall (fun op => is_delete_range op = false) ops /\ Sorted slice_lt (op_key <$> prev :: ops) /\ l = last (prev :: ops).
Proof.
  revert prev. induction ops as [|op ops IH]; intros prev; cbn [scan_ops].
  - split; [intros [= <-]; split_and!; [done | by repeat constructor | done] | by intros (_ & _ & ->)].
  - rewrite !guard_Ok, IH, Forall_cons. csimpl. fold (slice_lt (op_key prev) (op_key op)). split.
    + intros (Hd & Hlt & Hall & Hs & ->). split_and!; [done | done | |done]. constructor; [done|]. by constructor.
    + intros ((Hd & Hall) & Hs & ->). apply Sorted_inv in Hs as [Hs Hh]. inversion Hh; subst. done.
Qed.

Lemma scan_ops_ok ops l :
  scan_ops ops None = Ok l <->
  Forall (fun op => is_delete_range op = false) ops /\ StronglySorted slice_lt (op_key <$> ops) /\ l = last ops.
Proof.
  assert (Hss : StronglySorted slice_lt (op_key <$> ops) <-> Sorted slice_lt (op_key <$> ops)).
  { split; [apply StronglySorted_Sorted | apply Sorted_StronglySorted; intros a b c; apply slice_lt_trans]. }
  rewrite Hss. destruct ops as [|op ops]; cbn [scan_ops].
  - split; [intros [= <-]; split_and!; [done | constructor | done] | by intros (_ & _ & ->)].
  - rewrite !guard_Ok, scan_ops_some, Forall_cons. tauto.
Qed.

(** ** Keys in order *)

(** In ascending keys the first is the least and the last is the greatest. *)
Lemma ops_ascending_head ops op first :
  StronglySorted slice_lt (op_key <$> ops) -> head ops = Some first -> op ∈ ops -> slice_le (op_key first) (op_key op) = true.
Proof.
  destruct ops as [|p ops]; [done|]. csimpl. intros [_ Hall]%StronglySorted_inv [= ->] [->|Hin]%elem_of_cons; [apply slice_le_refl|].
  apply slice_le_total. apply (proj1 (Forall_forall _ _) Hall). by apply list_elem_of_fmap_2.
Qed.

Lemma ops_ascending_last ops op final :
  StronglySorted slice_lt (op_key <$> ops) -> last ops = Some final -> op ∈ ops -> slice_le (op_key op) (op_key final) = true.
Proof.
  induction ops as [|p ops IH]; [done|]. csimpl. intros [Hs Hall]%StronglySorted_inv Hl Hin. destruct ops as [|q ops].
  - injection Hl as ->. apply elem_of_cons in Hin as [->|Hin%elem_of_nil]; [apply slice_le_refl | done].
  - apply elem_of_cons in Hin as [->|Hin]; [|by apply IH]. apply slice_le_total, (proj1 (Forall_forall _ _) Hall). apply (list_elem_of_fmap_2 op_key (q :: ops)).
    by apply last_Some_elem_of.
Qed.

(** An operation of a key is the only one. *)
Lemma ops_ascending_unique ops a b :
  StronglySorted slice_lt (op_key <$> ops) -> a ∈ ops -> b ∈ ops -> op_key a = op_key b -> a = b.
Proof.
  induction ops as [|p ops IH]; [by intros _ ?%elem_of_nil|]. csimpl. intros [Hs Hall]%StronglySorted_inv.
  assert (Hp : forall q, q ∈ ops -> op_key p <> op_key q).
  { intros q Hq He. apply (slice_lt_irrefl (op_key p)). rewrite He at 2. apply (proj1 (Forall_forall _ _) Hall). by apply list_elem_of_fmap_2. }
  intros [->|Ha]%elem_of_cons [->|Hb]%elem_of_cons He; [done | by destruct (Hp b) | by destruct (Hp a) | by apply IH].
Qed.

Section Structure.
Context `{Digests} `{VarInt}.
Variable alg : NodeHashAlgorithm.

(** ** The edges *)

Lemma verify_loop_not_empty key (nodes : list ProofNode) e b : verify_loop alg key nodes e b <> Err EmptyProof.
Proof.
  revert e b. induction nodes as [|n nodes IH]; intros e b; [done|]. cbn [verify_loop].
  destruct (if _ && _ then _ else _) as [h|]; [|done].
  repeat first [done | apply IH | match goal with |- context [match ?x with _ => _ end] => destruct x end].
Qed.

Lemma proof_value_digest_empty (nodes : list ProofNode) key root : proof_value_digest alg nodes key root = Err EmptyProof <-> nodes = [].
Proof.
  unfold proof_value_digest. destruct (last nodes) as [l|] eqn:Hl; [|apply last_None in Hl; by split].
  assert (Hne : nodes <> []) by (by intros ->). split; [|done].
  pose proof (verify_loop_not_empty (from_nibbles_iterator (NibblesIterator_new key)) nodes (Hash root) false) as Hno.
  destruct (verify_loop _ _ _ _) as [u|x]; cbn; [|congruence]. case_bool_decide; [done|]. destruct (next_nibble _ _); [by case_bool_decide | done].
Qed.

(** An edge proof is empty or leads to its key, and says of the key what the operation
    on it says: present after a [Put], absent after a [Delete]. *)
Definition edge_ok (nodes : list ProofNode) (key : bytes) (root : TrieHash) (ops : list BatchOp) : Prop :=
  exists d, ((nodes = [] /\ d = None) \/ proof_value_digest alg nodes key root = Ok d) /\
    forall op, op ∈ ops -> op_key op = key -> (is_put op = true -> is_Some d) /\ (is_delete op = true -> d = None).

Lemma verify_boundary_proof_ok nodes key root ops bop err edge :
  (forall op, bop = Some op <-> op ∈ ops /\ op_key op = key) ->
  verify_boundary_proof alg nodes key root bop err edge = Ok tt <-> edge_ok nodes key root ops.
Proof.
  intros Hbop. unfold verify_boundary_proof, edge_ok. rewrite bind_Ok.
  assert (Hd : forall d, match proof_value_digest alg nodes key root with
           | Ok result => Ok result
           | Err EmptyProof => Ok None
           | Err (UnexpectedHash expected actual) => Err (ApiProof (EdgeProofHashMismatch edge expected actual))
           | Err e => Err (ApiProof e)
           end = Ok d <-> (nodes = [] /\ d = None) \/ proof_value_digest alg nodes key root = Ok d).
  { intros d. pose proof (proof_value_digest_empty nodes key root) as He. destruct (proof_value_digest _ _ _ _) as [x|e] eqn:Ep.
    - assert (nodes <> []) by (intros Hn; by apply He in Hn). split; [intros [= ->]; by right | intros [[? _]|[= ->]]; done].
    - split.
      + destruct e; try done. intros [= <-]. left. split; [by apply He | done].
      + intros [[Hn ->]|?]; [|done]. apply He in Hn. by injection Hn as ->. }
  setoid_rewrite Hd. apply exist_proper. intros d. apply and_iff_compat_l. split.
  - intros Hm op Hin Hk. rewrite (proj2 (Hbop op) (conj Hin Hk)) in Hm. destruct op, d; try done; split; by try eexists.
  - intros Hop. destruct bop as [op|]; [|done]. destruct (proj1 (Hbop op) eq_refl) as [Hin Hk]. destruct (Hop op Hin Hk) as [Hput Hdel].
    destruct op, d; try done; [by destruct (Hput eq_refl) | by specialize (Hdel eq_refl)].
Qed.

(** ** Acceptance *)

(** The operations ascend from the start key to the end key, and none deletes a range. *)
Definition ops_ok (ops : list BatchOp) (start_key end_key : option bytes) : Prop :=
  Forall (fun op => is_delete_range op = false) ops /\ StronglySorted slice_lt (op_key <$> ops) /\
  Forall (fun op => above_start start_key (op_key op) /\ below_end end_key (op_key op)) ops.

Definition structure_ok (proof : FrozenChangeProof) (end_root : TrieHash) (start_key end_key : option bytes) (max_length : option Z) : Prop :=
  hash_mode proof = alg /\
  (forall max, max_length = Some max -> len (contents_of proof) <= max) /\
  (forall s e, start_key = Some s -> end_key = Some e -> slice_le s e = true) /\
  (start_key = None -> start_proof proof = []) /\
  (end_proof proof = [] <-> contents_of proof = [] /\ end_key = None) /\
  ops_ok (contents_of proof) start_key end_key /\
  (forall s, start_key = Some s -> edge_ok (start_proof proof) s end_root (contents_of proof)) /\
  (forall e, compute_right_edge_key alg proof end_root (op_key <$> last (contents_of proof)) end_key = Some e ->
     edge_ok (end_proof proof) e end_root (contents_of proof)).

(** The operation on the start key is the first one. *)
Lemma first_op_is ops start_key s :
  ops_ok ops (Some start_key) s -> forall op,
  match head ops with Some op => if bool_decide (op_key op = start_key) then Some op else None | None => None end = Some op <->
  op ∈ ops /\ op_key op = start_key.
Proof.
  intros (_ & Hs & Hin) op. destruct (head ops) as [first|] eqn:Hh.
  2: { destruct ops; [|done]. split; [done | by intros [?%elem_of_nil _]]. }
  assert (Hf : first ∈ ops) by (destruct ops; [done|]; injection Hh as ->; by left). case_bool_decide as Hk.
  - split; [intros [= <-]; done|]. intros [Hop Hkop]. f_equal. eapply ops_ascending_unique; [done | done | done | congruence].
  - split; [done|]. intros [Hop <-]. destruct Hk. apply slice_le_antisym; [by eapply ops_ascending_head|].
    apply (proj1 (Forall_forall _ _) Hin) in Hf as [Ha _]. by apply Ha.
Qed.

Lemma change_edge_cases proof root end_key e :
  compute_right_edge_key alg proof root (op_key <$> last (contents_of proof)) end_key = Some e ->
  (op_key <$> last (contents_of proof)) = Some e \/ end_key = Some e.
Proof.
  unfold compute_right_edge_key. destruct (last (contents_of proof)) as [l|]; cbn; [|by right].
  destruct (proof_value_digest _ _ _ _) as [[d|]|x]; [by left | destruct (is_delete l); [by left|] |]; destruct end_key; auto.
Qed.

(** The operation on the right edge is the last one. *)
Lemma last_op_is proof root start_key end_key e :
  ops_ok (contents_of proof) start_key end_key ->
  compute_right_edge_key alg proof root (op_key <$> last (contents_of proof)) end_key = Some e -> forall op,
  match last (contents_of proof) with Some op => if bool_decide (op_key op = e) then Some op else None | None => None end = Some op <->
  op ∈ contents_of proof /\ op_key op = e.
Proof.
  intros (_ & Hs & Hin) He op. apply change_edge_cases in He. destruct (last (contents_of proof)) as [l|] eqn:Hl.
  2: { apply last_None in Hl. rewrite Hl. split; [done | by intros [?%elem_of_nil _]]. }
  assert (Hf : l ∈ contents_of proof) by (by apply last_Some_elem_of). case_bool_decide as Hk.
  - split; [intros [= <-]; done|]. intros [Hop Hkop]. f_equal. eapply ops_ascending_unique; [done | done | done | congruence].
  - split; [done|]. intros [Hop Hkop]. destruct Hk. destruct He as [He|He]; [by injection He|]. subst e.
    apply slice_le_antisym; [|by eapply ops_ascending_last]. apply (proj1 (Forall_forall _ _) Hin) in Hf as [_ Hb]. by apply Hb.
Qed.

(** The guards of the two bounds and the scan, in the order of the code. *)
Lemma ops_ok_guards ops start_key end_key :
  match start_key, head ops with Some start, Some first => slice_ltb (op_key first) start | _, _ => false end = false /\
  match end_key, last ops with Some e, Some last => slice_ltb e (op_key last) | _, _ => false end = false /\
  Forall (fun op => is_delete_range op = false) ops /\ StronglySorted slice_lt (op_key <$> ops) <->
  ops_ok ops start_key end_key.
Proof.
  assert (Hltb : forall a b, slice_ltb a b = false <-> slice_le b a = true) by (intros a b; unfold slice_ltb; by rewrite negb_false_iff).
  split.
  - intros (Hf & Hl & Hd & Hs). split_and!; [done | done|]. apply Forall_forall. intros op Hop. split; intros x ->.
    + destruct (head ops) as [first|] eqn:Hh; [|by destruct ops; [apply elem_of_nil in Hop|]]. apply Hltb in Hf.
      eapply slice_le_trans; [exact Hf | by eapply ops_ascending_head].
    + destruct (last ops) as [final|] eqn:Hh; [|apply last_None in Hh; subst; by apply elem_of_nil in Hop]. apply Hltb in Hl.
      eapply slice_le_trans; [by eapply ops_ascending_last | exact Hl].
  - intros (Hd & Hs & Hin). split_and!; [| | done | done].
    + destruct start_key as [s|], (head ops) as [first|] eqn:Hh; try done. apply Hltb. destruct ops; [done|]. injection Hh as ->.
      apply Forall_cons in Hin as [[Ha _] _]. by apply Ha.
    + destruct end_key as [e|], (last ops) as [final|] eqn:Hh; try done. apply Hltb. apply last_Some_elem_of in Hh.
      apply (proj1 (Forall_forall _ _) Hin) in Hh as [_ Hb]. by apply Hb.
Qed.

(** The guards on the presence of the end proof. *)
Lemma presence_ok (proof : FrozenChangeProof) (start_key end_key : option bytes) :
  match Nat.eqb (length (contents_of proof)) 0, Nat.eqb (length (end_proof proof)) 0 with
  | false, true =>
      if Nat.eqb (length (start_proof proof)) 0 && (bool_decide (is_Some start_key) || bool_decide (is_Some end_key)) then Err (ApiProof MissingBoundaryProof)
      else Err (ApiProof MissingEndProof)
  | true, false => if bool_decide (end_key = None) then Err (ApiProof UnexpectedEndProof) else Ok tt
  | true, true => if bool_decide (is_Some end_key) then Err (ApiProof MissingEndProof) else Ok tt
  | false, false => Ok tt
  end = Ok tt <-> (end_proof proof = [] <-> contents_of proof = [] /\ end_key = None).
Proof.
  destruct (contents_of proof), (end_proof proof), end_key; cbn; try destruct (_ && _); split; try done; try (by intros [? ?]); try (by intuition).
Qed.

Lemma structure_accepts proof end_root start_key end_key max_length ctx :
  verify_change_proof_structure alg proof end_root start_key end_key max_length = Ok ctx <->
  structure_ok proof end_root start_key end_key max_length /\
  ctx = mkChangeContext end_root start_key end_key
          (compute_right_edge_key alg proof end_root (op_key <$> last (contents_of proof)) end_key).
Proof.
  set (r := compute_right_edge_key alg proof end_root (op_key <$> last (contents_of proof)) end_key).
  assert (Hleft : forall e, ops_ok (contents_of proof) start_key e ->
    match start_key with
    | Some start => verify_boundary_proof alg (start_proof proof) start end_root
        match head (contents_of proof) with Some op => if bool_decide (op_key op = start) then Some op else None | None => None end StartProofOperationMismatch LeftEdge
    | None => Ok tt
    end = Ok tt <-> forall s, start_key = Some s -> edge_ok (start_proof proof) s end_root (contents_of proof)).
  { intros e Hops. destruct start_key as [s|]; [|split; [done | done]].
    rewrite (verify_boundary_proof_ok _ _ _ (contents_of proof)) by (by apply first_op_is with e). split; [by intros ? ? [= <-] | by intros Hs; apply Hs]. }
  assert (Hright : ops_ok (contents_of proof) start_key end_key ->
    match r with
    | Some key => verify_boundary_proof alg (end_proof proof) key end_root
        match last (contents_of proof) with Some op => if bool_decide (op_key op = key) then Some op else None | None => None end EndProofOperationMismatch RightEdge
    | None => Ok tt
    end = Ok tt <-> forall e, r = Some e -> edge_ok (end_proof proof) e end_root (contents_of proof)).
  { intros Hops. destruct r as [e|] eqn:Er; [|split; [done | done]].
    rewrite (verify_boundary_proof_ok _ _ _ (contents_of proof)) by (by eapply last_op_is). split; [by intros ? ? [= <-] | by intros Hs; apply Hs]. }
  assert (Hinv : match start_key, end_key with Some start, Some e => if slice_ltb e start then Err (ApiInvalidRange start e) else Ok tt | _, _ => Ok tt end = Ok tt <->
    forall s e, start_key = Some s -> end_key = Some e -> slice_le s e = true).
  { unfold slice_ltb. destruct start_key as [s|], end_key as [e|]; try (split; [by intros | done]).
    destruct (slice_le s e) eqn:Hse; cbn; split; [by intros _ ? ? [= <-] [= <-] | done | done | intros Hx; by rewrite (Hx s e) in Hse]. }
  assert (Hmax : match max_length with Some max => max <? len (contents_of proof) | None => false end = false <->
    forall max, max_length = Some max -> len (contents_of proof) <= max).
  { destruct max_length as [m|]; [|split; [done | done]]. rewrite Z.ltb_ge. split; [by intros ? ? [= <-] | by intros Hm; apply Hm]. }
  assert (Hstart : negb (Nat.eqb (length (start_proof proof)) 0) && bool_decide (start_key = None) = false <-> (start_key = None -> start_proof proof = [])).
  { destruct (start_proof proof); cbn; [split; done|]. rewrite bool_decide_eq_false. split; [done | intros Hn Hk; by specialize (Hn Hk)]. }
  assert (Hmode : negb (bool_decide (hash_mode proof = alg)) = false <-> hash_mode proof = alg) by (by rewrite negb_false_iff, bool_decide_eq_true).
  assert (Hscan := scan_ops_ok (contents_of proof)). assert (Hops := ops_ok_guards (contents_of proof) start_key end_key).
  unfold verify_change_proof_structure, structure_ok. cbv zeta. split.
  - intros [H1 [H2 ([] & H3 & [H4 ([] & H5 & [Hf [Hl ([] & Hs & (l & H6 & ([] & He & [= <-])%bind_Ok)%bind_Ok)%bind_Ok]%guard_Ok]%guard_Ok)%bind_Ok]%guard_Ok)%bind_Ok]%guard_Ok]%guard_Ok.
    destruct (proj1 (Hscan l) H6) as (Hd & Hss & ->). pose proof (proj1 Hops (conj Hf (conj Hl (conj Hd Hss)))) as Ho.
    split; [|done]. split_and!; [by apply Hmode | by apply Hmax | by apply Hinv | by apply Hstart | by eapply presence_ok | done | by eapply Hleft | by apply Hright].
  - intros [(H1 & H2 & H3 & H4 & H5 & Ho & Hs & He) ->]. destruct (proj2 Hops Ho) as (Hf & Hl & Hd & Hss).
    apply guard_Ok. split; [by apply Hmode|]. apply guard_Ok. split; [by apply Hmax|]. apply bind_Ok. exists tt. split; [by apply Hinv|].
    apply guard_Ok. split; [by apply Hstart|]. apply bind_Ok. exists tt. split; [by apply presence_ok|]. apply guard_Ok. split; [done|]. apply guard_Ok. split; [done|].
    apply bind_Ok. exists tt. split; [by eapply Hleft|]. apply bind_Ok. exists (last (contents_of proof)). split; [by apply Hscan|].
    apply bind_Ok. exists tt. split; [by apply Hright | done].
Qed.


End Structure.
