(* ===== verification/ChangeCollapse.v ===== *)
(** * Collapsing the proving trie

    [firewood/src/merkle/collapse.rs]: [child_in_range] says exactly whether a subtrie
    holds a key of the range, and the collapse of a path keeps every value of the range. *)

From S2P Require Import Prelude Primitives NodePath Node Codec NodeCodec Trie NodeStore Linear Header ChildMask.
From S2P Require Import Merkle MerkleSpec MerkleInsert MerkleRemove MerkleCorrect Rlp Hashing HashSpec HashHelper HashBinding Placed Iter IterSpec.
From S2P Require Import ProofTypes KeyProof KeyProofSound ProofWire Batch RangeProof RangeMarks RangeHash RangeTrie Diff ChangeProof.

(** ** The range *)

(** What comparing two slices says. *)
Lemma slice_cmp_cases a b :
  length a = length b ->
  match slice_cmp a b with
  | Lt => exists c x y a' b', a = c ++ x :: a' /\ b = c ++ y :: b' /\ x < y
  | Gt => exists c x y a' b', a = c ++ x :: a' /\ b = c ++ y :: b' /\ y < x
  | Eq => a = b
  end.
Proof.
  revert b. induction a as [|x a IH]; intros [|y b] Hl; try done. injection Hl as Hl. cbn [slice_cmp].
  destruct (Z.compare_spec x y) as [->|Hxy|Hxy]; [|by exists [], x, y, a, b..].
  specialize (IH b Hl). destruct (slice_cmp a b); [by subst | |]; destruct IH as (c & p & q & a' & b' & -> & -> & Hpq);
    by exists (y :: c), p, q, a', b'.
Qed.

(** The common part of a prefix and a bound. *)
Lemma slice_cmp_split acc bound :
  let split := Nat.min (length acc) (length bound) in
  match slice_cmp (take split acc) (take split bound) with
  | Lt => exists c x y a' b', acc = c ++ x :: a' /\ bound = c ++ y :: b' /\ x < y
  | Gt => exists c x y a' b', acc = c ++ x :: a' /\ bound = c ++ y :: b' /\ y < x
  | Eq => match bound !! split with
          | Some n => exists s, bound = acc ++ n :: s
          | None => exists s, acc = bound ++ s
          end
  end.
Proof.
  intros split. assert (Hl : length (take split acc) = length (take split bound)) by (rewrite !length_take; lia).
  pose proof (slice_cmp_cases _ _ Hl) as Hc. destruct (slice_cmp _ _).
  - destruct (bound !! split) as [n|] eqn:Hn.
    + assert (split = length acc) as Hs by (apply lookup_lt_Some in Hn; lia). exists (drop (S split) bound).
      rewrite <- (take_drop split bound) at 1. rewrite (drop_S _ _ _ Hn), <- Hc. by rewrite take_ge by lia.
    + assert (split = length bound) as Hs by (apply lookup_ge_None in Hn; lia). exists (drop split acc).
      rewrite <- (take_drop split acc) at 1. rewrite Hc. by rewrite (take_ge bound) by lia.
  - destruct Hc as (c & x & y & a' & b' & Ha & Hb & Hxy). exists c, x, y, (a' ++ drop split acc), (b' ++ drop split bound).
    split_and!; [| |done]; [rewrite <- (take_drop split acc) at 1; by rewrite Ha, <- app_assoc | rewrite <- (take_drop split bound) at 1; by rewrite Hb, <- app_assoc].
  - destruct Hc as (c & x & y & a' & b' & Ha & Hb & Hxy). exists c, x, y, (a' ++ drop split acc), (b' ++ drop split bound).
    split_and!; [| |done]; [rewrite <- (take_drop split acc) at 1; by rewrite Ha, <- app_assoc | rewrite <- (take_drop split bound) at 1; by rewrite Hb, <- app_assoc].
Qed.

(** A nibble that is out of range has no key of the range below it. *)
Lemma nibble_in_range_sound acc i range s :
  nibble_in_range acc i range = false -> range_contains range (acc ++ i :: s) = false.
Proof.
  unfold nibble_in_range, range_contains. intros [Hn|Hn]%andb_false_iff; apply andb_false_iff; [left | right].
  - pose proof (slice_cmp_split acc (cr_start range)) as Hc. cbv zeta in Hc. destruct (slice_cmp _ _); [| |done].
    + destruct (cr_start range !! _) as [n|]; [|done]. apply Z.leb_gt in Hn. destruct Hc as [r ->]. by apply slice_lt_fork.
    + destruct Hc as (c & x & y & a' & b' & -> & -> & Hxy). rewrite <- app_assoc. by apply slice_lt_fork.
  - destruct (cr_end range) as [e|]; [|done]. pose proof (slice_cmp_split acc e) as Hc. cbv zeta in Hc, Hn.
    destruct (slice_cmp (take (Nat.min (length acc) (length e)) acc) _); [|done|].
    + destruct (e !! _) as [n|]; destruct Hc as [r ->].
      * apply Z.leb_gt in Hn. by apply slice_lt_fork.
      * rewrite <- app_assoc. destruct r; apply slice_lt_extend.
    + destruct Hc as (c & x & y & a' & b' & -> & -> & Hxy). rewrite <- app_assoc. by apply slice_lt_fork.
Qed.

(** ** Subtries and the range *)

(** Below [full] and the nibble [i], [t] holds a value under a key of the range. *)
Definition holds_in_range (range : CollapseRange) (full : Path) (i : PathComponent) (t : trie) : Prop :=
  exists k x, is_path k /\ tget t k = Some x /\ range_contains range (full ++ i :: k) = true.

Section ChildInRange.
Context {St : Type} `{ReadableStorage St} `{VarInt} `{!ReadableStorageLaws St}.
Variables (alg : NodeHashAlgorithm) (rd : LinearAddress -> option Node) (range : CollapseRange).

(** [child_in_range] is exact, and fuel for the height of the subtrie is enough. *)
Lemma child_in_range_exact fuel c n t acc i ns :
  holds alg rd ns -> child_node rd c = Some n -> rnode rd n t -> trie_wf t -> (theight t <= fuel)%nat ->
  exists b ns', child_in_range alg fuel c acc i range ns = (Ok b, ns') /\ recorded alg rd ns [] ns' /\
    (b = true <-> holds_in_range range acc i t).
Proof.
  revert c n t acc i ns. induction fuel as [|fuel IH]; intros c n t acc i ns Hh Hc Hr Hw Hf; [destruct t; simpl in Hf; lia|].
  cbn [child_in_range]. destruct (nibble_in_range acc i range) eqn:Hnib; cbn [negb].
  2: { exists false, ns. split_and!; [done | by apply recorded_refl |]. split; [done|]. intros (k & x & _ & _ & Hk).
       by rewrite nibble_in_range_sound in Hk. }
  destruct (read_child_node_spec alg rd ns c n Hh Hc) as (ns1 & Hrd & Hrec). erewrite store_bind_Ok by exact Hrd.
  unfold build_child_prefix. destruct Hr as [l|pp v bc ks Hcw Hkw Hs]; cbn [partial_path leaf_partial_path branch_partial_path branch_value branch_children].
  { eexists _, ns1. split_and!; [done | done|]. split.
    - intros Hk. exists (leaf_partial_path l), (leaf_value l). split_and!; [by apply trie_wf_inv in Hw as (? & _) | | done]. by rewrite tget_leaf, decide_True.
    - intros (k & x & _ & Hk & Hin). rewrite tget_leaf in Hk. by case_decide; subst. }
  set (full := acc ++ i :: pp). pose proof (trie_wf_inv _ _ _ Hw) as (Hpp & _ & Hkids).
  destruct (range_contains range full && _) eqn:Hval.
  { apply andb_true_iff in Hval as [Hin [x ->]%bool_decide_eq_true]. exists true, ns1. split_and!; [done | done|]. split; [intros _|done].
    exists pp, x. split_and!; [done | | done]. by rewrite tget_value, decide_True. }
  assert (Hloop : forall l ns, holds alg rd ns -> (forall j d, (j, d) ∈ l -> is_nibble j /\ Children_get bc j = Some d) ->
    exists b ns', (fix loop (children : list (PathComponent * Child)) : store_op St bool :=
                 match children with
                 | [] => mret false
                 | (child_nibble, inner_child) :: children =>
                     found ← child_in_range alg fuel inner_child full child_nibble range;
                     if (found : bool) then mret true else loop children
                 end) l ns = (Ok b, ns') /\ recorded alg rd ns [] ns' /\
      (b = true <-> exists j d w, (j, d) ∈ l /\ Children_get ks j = Some (child_handle d, w) /\ holds_in_range range full j w)).
  { clear Hh Hrd Hrec ns1 ns. intros l. induction l as [|[j d] l IHl]; intros ns Hh Hl.
    - exists false, ns. split_and!; [done | by apply recorded_refl|]. split; [done|]. by intros (? & ? & ? & ?%elem_of_nil & _).
    - destruct (Hl j d) as [Hj Hd]; [by left|]. pose proof (Hs j Hj) as Hsj. rewrite Hd in Hsj. apply rslot_Some_inv in Hsj as (m & w & Hk & Hm & Hmw).
      assert (Hwf : trie_wf w) by (by eapply Hkids).
      destruct (IH d m w full j ns Hh Hm Hmw Hwf) as (b & ns1 & Hrun & Hrec & Hb).
      { pose proof Hk as Hk'%Children_get_Some. pose proof (theight_kid pp v ks _ _ _ Hk'). lia. }
      erewrite store_bind_Ok by exact Hrun. destruct b.
      + exists true, ns1. split_and!; [done | done|]. split; [intros _|done]. exists j, d, w. split_and!; [by left | done | by apply Hb].
      + destruct (IHl ns1) as (b & ns2 & Hrun2 & Hrec2 & Hb2); [by eapply recorded_holds | intros j' d' Hin; apply Hl; by right|].
        exists b, ns2. split_and!; [done | by eapply (recorded_trans _ _ _ _ _ [] [])|]. rewrite Hb2. split.
        * intros (j' & d' & w' & Hin & Hk' & Hr'). exists j', d', w'. split_and!; [by right | done | done].
        * intros (j' & d' & w' & [[= -> ->]|Hin]%elem_of_cons & Hk' & Hr'); [|by exists j', d', w'].
          rewrite Hk in Hk'. injection Hk' as <-. apply Hb in Hr'. done. }
  destruct (Hloop (Children_iter_present bc) ns1) as (b & ns2 & Hrun & Hrec2 & Hb); [by eapply recorded_holds | |].
  { intros j d Hin. by apply Children_iter_present_elem in Hin. }
  exists b, ns2. split_and!; [done | by eapply (recorded_trans _ _ _ _ _ [] [])|]. rewrite Hb. split.
  - intros (j & d & w & Hin & Hk & k & x & Hkp & Hx & Hc'). apply Children_iter_present_elem in Hin as [Hj _]; [|done].
    exists (pp ++ j :: k), x. split_and!.
    + apply is_path_app. split; [done|]. by apply is_path_cons.
    + by rewrite tget_app, Hk.
    + unfold full in Hc'. by rewrite <- app_assoc in Hc'.
  - intros (k & x & Hkp & Hx & Hin). rewrite tget_T in Hx. destruct (strip_prefix pp k) as [[|j s]|] eqn:Es; [| |done]; apply strip_prefix_Some in Es; subst k.
    + exfalso. rewrite app_nil_r in Hin. fold full in Hin. by rewrite Hin, Hx in Hval.
    + apply is_path_app in Hkp as [_ [Hj Hsp]%is_path_cons]. apply bind_Some in Hx as ([h w] & Hk & Hx).
      pose proof (Hs j Hj) as Hsj. rewrite Hk in Hsj. inversion Hsj as [|d m w' Hm Hmw Hd Hkk]. subst.
      exists j, d, w. split_and!; [by apply Children_iter_present_elem | done |]. exists s, x. split_and!; [done | done|].
      unfold full. by rewrite <- app_assoc.
Qed.

End ChildInRange.

(** ** The collapse *)

Lemma api_bind_inv {St A B} (m : api_op St A) (f : A -> api_op St B) ns b ns' :
  (m ≫= f) ns = (Ok b, ns') -> exists a ns1, m ns = (Ok a, ns1) /\ f a ns1 = (Ok b, ns').
Proof. unfold mbind, api_bind. destruct (m ns) as [[a|e] ns1]; [|done]. intros Hf. by exists a, ns1. Qed.

Lemma io_op_inv {St A} (m : store_op St A) ns a ns' : io_op m ns = (Ok a, ns') -> m ns = (Ok a, ns').
Proof. unfold io_op. destruct (m ns) as [[x|e] ns1]; [by intros [= -> ->] | done]. Qed.

Lemma consume_partial_path_Ok remaining n deeper :
  consume_partial_path remaining n = Ok deeper -> remaining = partial_path n ++ deeper.
Proof.
  unfold consume_partial_path. destruct (Nat.ltb _ _); [done|]. case_bool_decide as Ht; [|done]. intros [= <-].
  rewrite <- (take_drop (length (partial_path n)) remaining) at 1. by rewrite Ht.
Qed.

Lemma theight_bound pp v ks m :
  (forall i o t, ks !! i = Some (Some (o, t)) -> (theight t <= m)%nat) -> (theight (T pp v ks) <= S m)%nat.
Proof.
  intros Hk. cbn [theight]. apply le_n_S. induction ks as [|k ks IH]; [lia|].
  assert (Hrest : forall i o t, ks !! i = Some (Some (o, t)) -> (theight t <= m)%nat) by (intros i; apply (Hk (S i))).
  specialize (IH Hrest). destruct k as [[h t]|]; [|done]. specialize (Hk 0%nat h t eq_refl). lia.
Qed.

(** Every level of a trie takes a nibble. *)
Lemma paths_le_height L pfx u : trie_wf u -> paths_le L pfx u -> (theight u + length pfx <= S L)%nat.
Proof.
  revert pfx. induction u as [pp v ks IH] using trie_ind'. intros pfx Hw Hl. inversion Hl as [? ? ? ? Hlen Hk]; subst.
  inversion Hw as [? ? ? _ Hkw Hkids]; subst. rewrite length_app in Hlen.
  enough (theight (T pp v ks) <= S (L - length pfx))%nat by lia. apply theight_bound. intros i o t Hi.
  assert (Hn : is_nibble (Z.of_nat i)).
  { apply lookup_lt_Some in Hi. unfold Children_wf, MAX_CHILDREN, PathComponent_LEN, is_nibble in *. lia. }
  assert (Ht : paths_le L ((pfx ++ pp) ++ [Z.of_nat i]) t) by (apply (Hk _ o); [done|]; apply Children_get_Some; by rewrite Nat2Z.id).
  apply (IH i o t Hi) in Ht; [|by eapply Hkids]. rewrite !length_app in Ht. simpl in Ht. lia.
Qed.

Section Collapse.
Context `{Digests} `{VarInt} {St : Type} `{ReadableStorage St} `{!ReadableStorageLaws St}.
Variables (rd : LinearAddress -> option Node) (range : CollapseRange) (L height : nat).
Hypothesis height_ok : (L < height)%nat.

Abbreviation rebuilt := (rebuilt rd L).

(** Under the keys of the range the two tries hold the same. *)
Definition keeps (pfx : Path) (u u' : trie) : Prop :=
  forall k, is_path k -> range_contains range (pfx ++ k) = true -> tget u' k = tget u k.

Lemma keeps_refl pfx u : keeps pfx u u.
Proof. by intros k. Qed.

Lemma keeps_trans pfx u v w : keeps pfx u v -> keeps pfx v w -> keeps pfx u w.
Proof. intros Huv Hvw k Hk Hr. by rewrite Hvw, Huv. Qed.

(** *** Children that leave *)

Lemma Children_iter_elem {A} (c : Children A) j x :
  Children_wf c -> (j, x) ∈ Children_iter c <-> is_nibble j /\ c !! Z.to_nat j = Some x.
Proof.
  intros Hc. assert (Hall : forall k, (k < 16)%nat -> PathComponent_ALL !! k = Some (Z.of_nat k)).
  { intros k Hk. do 16 (destruct k as [|k]; [done|]). lia. }
  unfold Children_iter. rewrite list_elem_of_lookup. setoid_rewrite lookup_zip_with_Some. split.
  - intros (k & a & b & [= -> ->] & Ha & Hb). assert (Hlt : (k < 16)%nat) by (by apply lookup_lt_Some in Ha).
    rewrite Hall in Ha by done. injection Ha as <-. split; [unfold is_nibble; lia | by rewrite Nat2Z.id].
  - intros [Hj Hx]. exists (Z.to_nat j), j, x. unfold is_nibble in Hj. split_and!; [done | | done]. rewrite Hall by lia. by rewrite Z2Nat.id by lia.
Qed.

(** The loop empties every slot but the one on the path, and lets no key of the range go. *)
Lemma strip_off_path_Ok on acc l slots ns slots' ns' ks :
  holds MerkleDB rd ns -> Children_wf slots ->
  (forall j d, (j, Some d) ∈ l -> exists n t, child_node rd d = Some n /\ rnode rd n t /\ trie_wf t /\ (theight t <= height)%nat /\
     Children_get ks j = Some (child_handle d, t)) ->
  (forall j o, (j, o) ∈ l -> is_nibble j) ->
  strip_off_path MerkleDB height on acc (Some range) l slots ns = (Ok slots', ns') ->
  holds MerkleDB rd ns' /\ Children_wf slots' /\
  (forall j, is_nibble j -> (j = on \/ j ∉ l.*1) -> Children_get slots' j = Children_get slots j) /\
  (forall j, is_nibble j -> j <> on -> j ∈ l.*1 -> Children_get slots' j = None) /\
  (forall j d t, (j, Some d) ∈ l -> j <> on -> Children_get ks j = Some (child_handle d, t) -> ~ holds_in_range range acc j t).
Proof.
  revert slots ns. induction l as [|[j o] l IH]; intros slots ns Hh Hw Hl Hj; cbn [strip_off_path].
  { intros [= <- <-]. split_and!; [done | done | done | by intros ? ? ? ?%elem_of_nil | by intros ? ? ? ?%elem_of_nil]. }
  assert (Hl' : forall i d, (i, Some d) ∈ l -> exists n t, child_node rd d = Some n /\ rnode rd n t /\ trie_wf t /\ (theight t <= height)%nat /\
     Children_get ks i = Some (child_handle d, t)) by (intros i d Hin; apply Hl; by right).
  assert (Hj' : forall i o, (i, o) ∈ l -> is_nibble i) by (intros i d Hin; apply (Hj i d); by right).
  destruct (Z.eqb_spec j on) as [->|Hne].
  { intros Hrun. destruct (IH slots ns Hh Hw Hl' Hj' Hrun) as (Hh' & Hw' & Hsame & Hgone & Hout). csimpl. split_and!; [done | done | | |].
    - intros i Hi Hor. apply Hsame; [done|]. destruct Hor as [?|Hn]; [by left|]. right. contradict Hn. by right.
    - intros i Hi Hio [->|Hin]%elem_of_cons; [done | by apply Hgone].
    - intros i d t [[= -> _]|Hin]%elem_of_cons Hio; [done | by eapply Hout]. }
  intros (b & ns1 & Hb & Hrun)%api_bind_inv. destruct b; [done|].
  assert (Hchild : holds MerkleDB rd ns1 /\ forall d t, o = Some d -> Children_get ks j = Some (child_handle d, t) -> ~ holds_in_range range acc j t).
  { destruct o as [d|]; [|injection Hb as <-; split; [done | by intros]]. apply io_op_inv in Hb.
    destruct (Hl j d ltac:(by left)) as (n & t & Hn & Hr & Hwt & Hht & Hk).
    destruct (child_in_range_exact MerkleDB rd range height d n t acc j ns Hh Hn Hr Hwt Hht) as (b & ns2 & Hrun' & Hrec & Hex).
    rewrite Hb in Hrun'. injection Hrun' as <- <-. split; [by eapply recorded_holds|]. intros d' t' [= <-] Hk'. rewrite Hk in Hk'. injection Hk' as <-.
    intros Hin%Hex. done. }
  destruct Hchild as [Hh1 Hnot]. assert (Hjn : is_nibble j) by (apply (Hj j o); by left).
  destruct (IH _ ns1 Hh1 (Children_set_wf slots j None Hw) Hl' Hj' Hrun) as (Hh' & Hw' & Hsame & Hgone & Hout). csimpl. split_and!; [done | done | | |].
  - intros i Hi Hor. rewrite Hsame; [| done | destruct Hor as [?|Hn]; [by left | right; contradict Hn; by right]].
    rewrite Children_get_set_ne; [done | done | done |]. intros ->. destruct Hor as [->|Hn]; [done | apply Hn; by left].
  - intros i Hi Hio Hin. destruct (decide (i ∈ l.*1)) as [Hil|Hil]; [by apply Hgone|]. apply elem_of_cons in Hin as [->|?]; [|done].
    rewrite Hsame by auto. by rewrite Children_get_set.
  - intros i d t [[= -> <-]|Hin]%elem_of_cons Hio Hk; [by eapply Hnot | by eapply Hout].
Qed.

(** *** A node with one child *)

Lemma rebuilt_kid pp v c ks pfx i d ns n ns' :
  rebuilt (Branch (mkBranch pp v c)) (T pp v ks) pfx -> is_nibble i -> Children_get c i = Some d -> holds MerkleDB rd ns ->
  merkle_read_for_update MerkleDB d ns = (Ok n, ns') ->
  exists w, Children_get ks i = Some (child_handle d, w) /\ rebuilt n w ((pfx ++ pp) ++ [i]) /\ holds MerkleDB rd ns'.
Proof.
  intros [Hr Hpl Hw Hp Hl] Hi Hd Hh Hrun. destruct (placed_descend MerkleDB rd _ _ _ _ _ _ _ _ _ Hh Hpl Hi Hd Hrun) as [Hn Hh'].
  inversion Hr as [|? ? ? ? Hcw Hkw Hs]; subst. specialize (Hs i Hi). rewrite Hd in Hs. apply rslot_Some_inv in Hs as (m & w & Hk & Hm & Hmw).
  destruct (merkle_read_for_update_ok MerkleDB rd ns d m Hh Hm) as (ns1 & Hrun1 & _). rewrite Hrun in Hrun1. injection Hrun1 as <- <-.
  pose proof (trie_wf_inv _ _ _ Hw) as (Hpp & _ & Hkids). inversion Hl as [? ? ? ? _ Hlk]; subst.
  exists w. split_and!; [done | | done]. split; [done | done | by eapply Hkids | | by eapply Hlk].
  apply is_path_app. split; [by apply is_path_app | by repeat constructor; apply Hi].
Qed.

(** A child that comes back in the place of the old one. *)
Lemma rebuilt_set pp v c ks pfx i n w :
  rebuilt (Branch (mkBranch pp v c)) (T pp v ks) pfx -> is_nibble i -> rebuilt n w ((pfx ++ pp) ++ [i]) ->
  rebuilt (Branch (mkBranch pp v (Children_set c i (Some (ChildNode n))))) (T pp v (Children_set ks i (Some (None, w)))) pfx.
Proof.
  intros [Hr Hpl Hw Hp Hl] Hi [Hnr Hnp Hnw Hnpp Hnl]. pose proof (trie_wf_inv _ _ _ Hw) as (Hpp & Hkw & Hkids). split; [| | | done |].
  - apply rnode_set; [done | done | by apply rslot_node].
  - apply (placed_set _ _ _ _ v v _ i (Some n)); [done | done|]. by intros m [= <-].
  - apply trie_wf_set; [done | done|]. by intros h t [= _ <-].
  - apply paths_le_set; [done | done | done|]. by intros h t [= _ <-].
Qed.

Lemma rebuilt_single pp v c pfx i n w :
  is_path pp -> is_path pfx -> (length (pfx ++ pp) <= L)%nat -> is_nibble i -> Children_wf c -> Children_get c i = Some (ChildNode n) ->
  (forall j, is_nibble j -> j <> i -> Children_get c j = None) -> rebuilt n w ((pfx ++ pp) ++ [i]) ->
  rebuilt (Branch (mkBranch pp v c)) (T pp v (Children_set Children_new i (Some (None, w)))) pfx.
Proof.
  intros Hpp Hp Hlen Hi Hcw Hc Hother Hn.
  assert (Hb : rebuilt (Branch (mkBranch pp v Children_new)) (T pp v Children_new) pfx).
  { split; [apply rnode_childless | by apply placed_new | by apply trie_wf_leaf | done | by apply paths_le_leaf]. }
  replace c with (Children_set Children_new i (Some (ChildNode n))); [by apply rebuilt_set|].
  apply Children_ext; [apply Children_set_wf, Children_new_wf | done|]. intros j Hj. destruct (decide (i = j)) as [<-|Hne].
  - rewrite Children_get_set by (done || apply Children_new_wf). done.
  - rewrite Children_get_set_ne, Children_get_new by done. symmetry. apply Hother; congruence.
Qed.

(** A node without a value gives its path to its only child. *)
Lemma rebuilt_merge pp pfx i n w :
  is_path pp -> is_path pfx -> is_nibble i -> rebuilt n w ((pfx ++ pp) ++ [i]) ->
  rebuilt (update_partial_path n (pp ++ i :: partial_path n)) (T (pp ++ i :: tpath w) (tval w) (tkids w)) pfx.
Proof.
  intros Hpp Hp Hi [Hnr Hnp Hnw Hnpp Hnl]. rewrite (rnode_path _ _ _ Hnr). destruct w as [q v ks]. cbn [tpath tval tkids] in *.
  assert (Hq : is_path q) by (by apply trie_wf_inv in Hnw as (? & _)).
  assert (Hpath : is_path (pp ++ i :: q)) by (apply is_path_app; split; [done | by apply is_path_cons]). split; [| | | done |].
  - by apply (rnode_update_path rd _ (T q v ks)).
  - eapply placed_move; [exact Hnp | done|]. rewrite (rnode_path _ _ _ Hnr). cbn [tpath]. by rewrite <- !app_assoc.
  - by apply (trie_wf_path _ (T q v ks)).
  - inversion Hnl as [? ? ? ? Hlen Hk]; subst. replace (((pfx ++ pp) ++ [i]) ++ q) with (pfx ++ pp ++ i :: q) in * by (by rewrite <- !app_assoc).
    by constructor.
Qed.

(** *** What the collapse keeps *)

Lemma kid_height pp v c ks pfx i d t :
  rebuilt (Branch (mkBranch pp v c)) (T pp v ks) pfx -> is_nibble i -> Children_get ks i = Some (d, t) -> (theight t <= height)%nat.
Proof.
  intros [_ _ Hw _ Hl] Hi Hk. apply (paths_le_height _ _ _ Hw) in Hl. pose proof Hk as Hk'%Children_get_Some.
  pose proof (theight_kid pp v ks _ _ _ Hk'). lia.
Qed.

(** A node that keeps one child, and its value if its key is in the range. *)
Lemma keeps_single pfx pp v v' ks i h w w' :
  Children_get ks i = Some (h, w) -> is_nibble i -> keeps ((pfx ++ pp) ++ [i]) w w' ->
  (range_contains range (pfx ++ pp) = true -> v' = v) ->
  (forall j o t, is_nibble j -> j <> i -> Children_get ks j = Some (o, t) -> ~ holds_in_range range (pfx ++ pp) j t) ->
  keeps pfx (T pp v ks) (T pp v' (Children_set Children_new i (Some (None, w')))).
Proof.
  intros Hk Hi Hw Hv Hout k Hkp Hin. rewrite !tget_T. destruct (strip_prefix pp k) as [[|j s]|] eqn:Es; [| |done]; apply strip_prefix_Some in Es; subst k.
  - apply Hv. by rewrite app_nil_r in Hin.
  - apply is_path_app in Hkp as [_ [Hj Hs]%is_path_cons]. destruct (decide (i = j)) as [<-|Hne].
    + rewrite Children_get_set, Hk by (done || apply Children_new_wf). cbn. apply Hw; [done|]. by rewrite <- !app_assoc.
    + rewrite Children_get_set_ne, Children_get_new by done. destruct (Children_get ks j) as [[o t]|] eqn:Ej; [|done]. cbn.
      destruct (tget t s) as [x|] eqn:Ex; [|done]. destruct (Hout j o t Hj (not_eq_sym Hne) Ej). exists s, x. split_and!; [done | done|]. by rewrite <- app_assoc.
Qed.

(** Giving the path to the child changes no value. *)
Lemma tget_merge pp i w k :
  is_nibble i -> is_path k ->
  tget (T (pp ++ i :: tpath w) (tval w) (tkids w)) k = tget (T pp None (Children_set Children_new i (Some (None, w)))) k.
Proof.
  intros Hi Hk. rewrite tget_cut, tget_set by (done || apply Children_new_wf). destruct w as [q v ks]. cbn [tpath tval tkids].
  destruct (strip_prefix (pp ++ [i]) k); [done|]. by rewrite tget_empty.
Qed.

(** A lone child is taken. *)
Lemma take_lone_child {A} (c : Children (option A)) i x :
  Children_wf c -> is_nibble i -> Children_get c i = Some x -> (forall j, is_nibble j -> j <> i -> Children_get c j = None) ->
  (take_only_child c).1 = Some (i, x).
Proof.
  intros Hc Hi Hx Hother. pose proof (take_only_child_spec c Hc) as Hs. pose proof (Children_iter_present_NoDup c) as Hd.
  assert (Hall : forall p, p ∈ Children_iter_present c -> p = (i, x)).
  { intros [j y] [Hj Hy]%Children_iter_present_elem; [|done]. destruct (decide (j = i)) as [->|Hne]; [congruence | by rewrite Hother in Hy]. }
  assert (Hin : (i, x) ∈ Children_iter_present c) by (by apply Children_iter_present_elem).
  destruct (Children_iter_present c) as [|p [|q l]]; [by apply elem_of_nil in Hin | |].
  - rewrite (Hall p ltac:(by left)) in Hs. done.
  - rewrite (Hall p ltac:(by left)), (Hall q ltac:(right; by left)) in Hd. csimpl in Hd. apply NoDup_cons in Hd as [Hn _]. destruct Hn. by left.
Qed.

(** The end of [collapse_strip]: the node has its child on the path only. *)
Lemma collapse_finish pp v c pfx i n w ns n' ns' :
  is_path pp -> is_path pfx -> (length (pfx ++ pp) <= L)%nat -> is_nibble i -> Children_wf c -> Children_get c i = Some (ChildNode n) ->
  (forall j, is_nibble j -> j <> i -> Children_get c j = None) -> rebuilt n w ((pfx ++ pp) ++ [i]) ->
  match v with
  | Some _ => mret (Branch (mkBranch pp v c))
  | None =>
      match take_only_child c with
      | (None, bc) => mret (Branch (mkBranch pp v bc))
      | (Some (child_idx, only_child), _) =>
          merged ← io_op (merkle_read_for_update MerkleDB only_child);
          mret (update_partial_path merged (pp ++ child_idx :: partial_path merged))
      end
  end ns = (Ok n', ns') ->
  ns' = ns /\ exists u', rebuilt n' u' pfx /\
    forall k, is_path k -> tget u' k = tget (T pp v (Children_set Children_new i (Some (None, w)))) k.
Proof.
  intros Hpp Hpfx Hlen Hi Hc Hx Hother Hn. destruct v as [x|].
  - intros [= <- <-]. split; [done|]. eexists. split; [by eapply rebuilt_single | done].
  - pose proof (take_lone_child c i _ Hc Hi Hx Hother) as Ht. destruct (take_only_child c) as [o c']. cbn in Ht. subst o.
    intros (m & ns1 & [= <- <-]%io_op_inv & [= <- <-])%api_bind_inv. split; [done|]. eexists. split; [by apply rebuilt_merge|].
    intros k Hk. by apply tget_merge.
Qed.

Lemma collapse_strip_Ok fuel n u path pfx ns n' ns' :
  rebuilt n u pfx -> holds MerkleDB rd ns -> is_path path ->
  collapse_strip MerkleDB height fuel n path (pfx ++ partial_path n) (Some range) ns = (Ok n', ns') ->
  holds MerkleDB rd ns' /\ exists u', rebuilt n' u' pfx /\ keeps pfx u u'.
Proof.
  revert n u path pfx ns n' ns'. induction fuel as [|fuel IH]; intros n u path pfx ns n' ns' Hb Hh Hpath; [done|]. cbn [collapse_strip].
  destruct path as [|on remaining]; [intros [= <- <-]; split; [done|]; exists u; split; [done | apply keeps_refl]|].
  apply is_path_cons in Hpath as [Hon Hrem]. pose proof (rebuilt_node _ _ _ _ _ Hb) as Hr. destruct Hr as [l|pp v c ks Hcw Hkw Hs]; [done|].
  cbn [partial_path branch_partial_path]. set (full := pfx ++ pp).
  intros (c1 & ns1 & Hstrip & Hrun)%api_bind_inv.
  destruct (strip_off_path_Ok on full (Children_iter c) c ns c1 ns1 ks Hh Hcw) as (Hh1 & Hw1 & Hsame & Hgone & Hout); [| | done|].
  { intros j d [Hj Hd]%Children_iter_elem; [|done]. pose proof (Hs j Hj) as Hsj. unfold Children_get at 1 in Hsj. rewrite Hd in Hsj.
    apply rslot_Some_inv in Hsj as (m & t & Hk & Hm & Hmt). exists m, t. pose proof (rebuilt_wf _ _ _ _ _ Hb) as Hwf.
    pose proof (trie_wf_inv _ _ _ Hwf) as (_ & _ & Hkids). split_and!; [done | done | by eapply Hkids | by eapply kid_height | done]. }
  { intros j o Hj. by apply Children_iter_elem in Hj as [? _]. }
  assert (Hone : forall j, is_nibble j -> j <> on -> Children_get c1 j = None).
  { intros j Hj Hne. apply Hgone; [done | done|]. apply list_elem_of_fmap. exists (j, Children_get c j). split; [done|].
    apply Children_iter_elem; [done|]. split; [done|]. by apply Children_slot. }
  assert (Hkids_out : forall j o t, is_nibble j -> j <> on -> Children_get ks j = Some (o, t) -> ~ holds_in_range range full j t).
  { intros j o t Hj Hne Hk. pose proof (Hs j Hj) as Hsj. rewrite Hk in Hsj. inversion Hsj as [|d m t' Hm Hmt Hd Hkk]; subst.
    eapply Hout; [|done|exact Hk]. apply Children_iter_elem; [done|]. split; [done|]. rewrite Hd. by apply Children_slot. }
  clear Hgone Hout. pose proof (Hsame on Hon (or_introl eq_refl)) as Hon1. clear Hsame.
  unfold Children_take in Hrun. rewrite Hon1 in Hrun. destruct (Children_get c on) as [d|] eqn:Hd; [|done].
  apply api_bind_inv in Hrun as (n1 & ns2 & Hread%io_op_inv & Hrun).
  destruct (rebuilt_kid _ _ _ _ _ _ _ _ _ _ Hb Hon Hd Hh1 Hread) as (w & Hkon & Hbw & Hh2).
  apply api_bind_inv in Hrun as (deeper & ns3 & [= Hdeep <-] & Hrun). apply consume_partial_path_Ok in Hdeep.
  apply api_bind_inv in Hrun as (n2 & ns4 & Hrec & Hrun).
  assert (Hn2 : holds MerkleDB rd ns4 /\ exists w', rebuilt n2 w' (full ++ [on]) /\ keeps (full ++ [on]) w w').
  { destruct (negb _); [|injection Hrec as <- <-; split; [done|]; exists w; split; [done | apply keeps_refl]].
    eapply IH; [exact Hbw | exact Hh2 | |]; [rewrite Hdeep in Hrem; by apply is_path_app in Hrem as [_ ?]|].
    unfold build_child_prefix in Hrec. by rewrite <- app_assoc. }
  destruct Hn2 as (Hh4 & w' & Hbw' & Hkw').
  set (c2 := Children_set (Children_set c1 on None) on (Some (ChildNode n2))) in Hrun.
  assert (Hc2on : Children_get c2 on = Some (ChildNode n2)) by (unfold c2; rewrite Children_set_set, Children_get_set by done; done).
  assert (Hc2 : forall j, is_nibble j -> j <> on -> Children_get c2 j = None).
  { intros j Hj Hne. unfold c2. rewrite Children_set_set, Children_get_set_ne by congruence. by apply Hone. }
  assert (Hw2 : Children_wf c2) by (by repeat apply Children_set_wf).
  pose proof Hb as [_ _ Hwf Hpfx Hlen]. pose proof (trie_wf_inv _ _ _ Hwf) as (Hpp & _). inversion Hlen as [? ? ? ? Hfull _]; subst.
  apply (collapse_finish _ _ _ pfx on n2 w') in Hrun as [-> (u' & Hbu & Hu)]; try done. split; [done|]. exists u'. split; [done|].
  intros k Hk Hin. rewrite Hu by done. eapply keeps_single; try done. cbn. fold full. by intros ->.
Qed.

Lemma keeps_slot pfx pp v ks i h w w' :
  Children_wf ks -> Children_get ks i = Some (h, w) -> is_nibble i -> keeps ((pfx ++ pp) ++ [i]) w w' ->
  keeps pfx (T pp v ks) (T pp v (Children_set ks i (Some (None, w')))).
Proof.
  intros Hkw Hk Hi Hw k Hkp Hin. rewrite tget_set by done. destruct (strip_prefix (pp ++ [i]) k) as [r|] eqn:Er; [|done].
  rewrite (tget_slot _ _ _ _ _ _ Er), Hk. cbn. pose proof (is_path_strip _ _ _ Er Hkp) as Hr. apply strip_prefix_Some in Er. subst k.
  apply Hw; [done|]. by rewrite <- !app_assoc in *.
Qed.

(** A node whose child on the path was read and changed. *)
Lemma rebuilt_back pp v c ks pfx i d w n w' :
  rebuilt (Branch (mkBranch pp v c)) (T pp v ks) pfx -> is_nibble i -> Children_get ks i = Some (d, w) ->
  rebuilt n w' ((pfx ++ pp) ++ [i]) -> keeps ((pfx ++ pp) ++ [i]) w w' ->
  exists u', rebuilt (Branch (mkBranch pp v (Children_set (Children_set c i None) i (Some (ChildNode n))))) u' pfx /\ keeps pfx (T pp v ks) u'.
Proof.
  intros Hb Hi Hk Hn Hkeep. rewrite Children_set_set. eexists. split; [by apply rebuilt_set|]. eapply keeps_slot; [| done..].
  pose proof (rebuilt_wf _ _ _ _ _ Hb) as Hwf. by apply trie_wf_inv in Hwf as (_ & ? & _).
Qed.

Lemma collapse_descend_Ok n u path pfx ns n' ns' :
  rebuilt n u pfx -> holds MerkleDB rd ns -> is_path path ->
  collapse_descend MerkleDB height n path (pfx ++ partial_path n) (Some range) ns = (Ok n', ns') ->
  holds MerkleDB rd ns' /\ exists u', rebuilt n' u' pfx /\ keeps pfx u u'.
Proof.
  intros Hb Hh Hpath. unfold collapse_descend. destruct path as [|first remaining].
  { intros [= <- <-]. split; [done|]. exists u. split; [done | apply keeps_refl]. }
  apply is_path_cons in Hpath as [Hi Hrem]. pose proof (rebuilt_node _ _ _ _ _ Hb) as Hr. destruct Hr as [l|pp v c ks Hcw Hkw Hs]; [done|].
  unfold Children_take. destruct (Children_get c first) as [d|] eqn:Hd; [|done]. cbn [partial_path branch_partial_path].
  intros (n1 & ns1 & Hread%io_op_inv & (after & ns2 & [= Hafter <-] & (n2 & ns3 & Hrun & [= <- <-])%api_bind_inv)%api_bind_inv)%api_bind_inv.
  destruct (rebuilt_kid _ _ _ _ _ _ _ _ _ _ Hb Hi Hd Hh Hread) as (w & Hk & Hbw & Hh1). apply consume_partial_path_Ok in Hafter.
  assert (Hpre : build_child_prefix (pfx ++ pp) first n1 = ((pfx ++ pp) ++ [first]) ++ partial_path n1) by (unfold build_child_prefix; by rewrite <- !app_assoc).
  rewrite Hafter in Hrem. apply is_path_app in Hrem as [_ Hrem]. rewrite Hpre in Hrun.
  destruct (collapse_strip_Ok _ _ _ _ _ _ _ _ Hbw Hh1 Hrem Hrun) as (Hh3 & w' & Hbw' & Hkeep).
  split; [done|]. by eapply rebuilt_back.
Qed.

Lemma collapse_navigate_Ok fuel n u key suffix pfx ns n' ns' :
  rebuilt n u pfx -> holds MerkleDB rd ns -> is_path key -> is_path suffix ->
  collapse_navigate MerkleDB height fuel n key suffix (pfx ++ key) (Some range) ns = (Ok n', ns') ->
  holds MerkleDB rd ns' /\ exists u', rebuilt n' u' pfx /\ keeps pfx u u'.
Proof.
  revert n u key pfx ns n' ns'. induction fuel as [|fuel IH]; intros n u key pfx ns n' ns' Hb Hh Hkey Hsuf; [done|]. cbn [collapse_navigate].
  destruct (Nat.eqb_spec (split_index key (partial_path n)) (length (partial_path n))) as [Hsp|]; [|done]. cbn [negb].
  pose proof (split_index_full _ _ Hsp) as Hsplit. rewrite Hsp. destruct (drop (length (partial_path n)) key) as [|i deeper].
  { rewrite app_nil_r in Hsplit. subst key. by apply collapse_descend_Ok. }
  pose proof (rebuilt_node _ _ _ _ _ Hb) as Hr. destruct Hr as [l|pp v c ks Hcw Hkw Hs]; [done|]. cbn [partial_path branch_partial_path] in Hsplit.
  subst key. apply is_path_app in Hkey as [_ [Hi Hdeep]%is_path_cons].
  unfold Children_take. destruct (Children_get c i) as [d|] eqn:Hd; [|done].
  intros (n1 & ns1 & Hread%io_op_inv & (n2 & ns2 & Hrun & [= <- <-])%api_bind_inv)%api_bind_inv.
  destruct (rebuilt_kid _ _ _ _ _ _ _ _ _ _ Hb Hi Hd Hh Hread) as (w & Hk & Hbw & Hh1).
  replace (pfx ++ pp ++ i :: deeper) with (((pfx ++ pp) ++ [i]) ++ deeper) in Hrun by (by rewrite <- !app_assoc).
  destruct (IH _ _ _ _ _ _ _ Hbw Hh1 Hdeep Hsuf Hrun) as (Hh2 & w' & Hbw' & Hkeep). split; [done|]. by eapply rebuilt_back.
Qed.

(** *** The proving trie *)

(** The store of the verifier holds the trie [u]. *)
Definition proving (ns : NodeStore St) (u : option trie) : Prop :=
  holds MerkleDB rd ns /\ match ns_root ns, u with None, None => True | Some n, Some u => rebuilt n u [] | _, _ => False end.

(** Under the keys of the range, the two hold the same. *)
Definition okeeps (u u' : option trie) : Prop :=
  forall k, is_path k -> range_contains range k = true -> otget u' k = otget u k.

Lemma okeeps_refl u : okeeps u u.
Proof. by intros k. Qed.

Lemma okeeps_trans u v w : okeeps u v -> okeeps v w -> okeeps u w.
Proof. intros Huv Hvw k Hk Hr. by rewrite Hvw, Huv. Qed.

Lemma collapse_branch_to_path_Ok ns u from to ns' :
  proving ns u -> is_path from -> is_path to ->
  collapse_branch_to_path MerkleDB height from to (Some range) ns = (Ok tt, ns') ->
  exists u', proving ns' u' /\ okeeps u u' /\ (u <> None -> u' <> None).
Proof.
  intros [Hh Hroot] Hf Ht. unfold collapse_branch_to_path. destruct (strip_prefix from to) as [suffix|] eqn:Es; [|done].
  apply (is_path_strip _ _ _ Es) in Ht as Hsuf. destruct (ns_root ns) as [n|] eqn:Hn, u as [u|]; try done.
  - destruct (collapse_navigate _ _ _ _ _ _ _ _ _) as [[n'|] ns1] eqn:Hrun; [|done]. intros [= <-].
    destruct (collapse_navigate_Ok _ _ _ _ _ [] (set_root None ns) _ _ Hroot Hh Hf Hsuf Hrun) as (Hh1 & u' & Hb & Hk).
    exists (Some u'). split_and!; [by split | exact Hk | done].
  - intros [= <-]. exists None. split_and!; [split; [done | by rewrite Hn] | apply okeeps_refl | done].
Qed.

Lemma collapse_root_to_path_Ok ns u target ns' :
  proving ns u -> is_path target -> collapse_root_to_path MerkleDB height target (Some range) ns = (Ok tt, ns') ->
  exists u', proving ns' u' /\ okeeps u u' /\ u' <> None.
Proof.
  intros [Hh Hroot] Ht. unfold collapse_root_to_path. destruct (ns_root ns) as [n|] eqn:Hn; [|done]. destruct u as [u|]; [|done].
  destruct (_ && _).
  - destruct (collapse_strip _ _ _ _ _ _ _ _) as [[n'|] ns1] eqn:Hrun; [|done]. intros [= <-].
    apply (Forall_drop _ (length (partial_path n))) in Ht. destruct (collapse_strip_Ok _ _ _ _ [] (set_root None ns) _ _ Hroot Hh Ht Hrun) as (Hh1 & u' & Hb & Hk).
    exists (Some u'). split_and!; [by split | exact Hk | done].
  - intros [= <-]. exists (Some u). split_and!; [split; [done | by rewrite Hn] | apply okeeps_refl | done].
Qed.

End Collapse.
