(* ===== verification/ChangeSound.v ===== *)
(** * Soundness of change proofs

    What the two steps of verification accept under MerkleDB: within the range that the
    structure of a change proof establishes, the proposal that the root hash was checked
    for holds exactly what the trie of the end root holds. *)

From S2P Require Import Prelude Primitives NodePath Node Codec NodeCodec Trie NodeStore Linear Header ChildMask.
From S2P Require Import Merkle MerkleSpec MerkleInsert MerkleRemove MerkleCorrect Rlp Hashing HashSpec HashHelper HashBinding Placed Iter IterSpec.
From S2P Require Import ProofTypes KeyProof KeyProofSound ProofWire ProofWireSpec ProofWireCorrect Batch.
From S2P Require Import RangeProof RangeMarks RangeAccept RangeHash RangeTrie RangeSound ChangeProof ChangeStructure ChangeCollapse.

(** ** Reconciling the nodes of the edges *)

Section Reconcile.
Context `{Digests} `{VarInt} {St : Type} `{ReadableStorage St} `{!ReadableStorageLaws St}.
Variables (rd : LinearAddress -> option Node) (range : CollapseRange) (L height : nat).
Hypothesis height_ok : (L < height)%nat.

Abbreviation proving := (proving rd L).
Abbreviation okeeps := (okeeps range).

Lemma proving_branch (ns : NodeStore St) u key :
  proving ns u -> is_path key -> (length key <= L)%nat ->
  exists ns' u', insert_branch_from_nibbles MerkleDB key ns = (Ok tt, ns') /\ proving ns' (Some u') /\
    forall k, is_path k -> tget u' k = otget u k.
Proof.
  intros [Hh Hr] Hk Hl. unfold insert_branch_from_nibbles. destruct (ns_root ns) as [root|] eqn:Hroot, u as [u|]; try done.
  - pose proof Hr as [Hn Hpl Hw Hp Hlen].
    destruct (insert_branch_helper_ok MerkleDB rd (S (length key)) root u key (set_root None ns)) as (n' & ns' & u' & hs & Hrun & Hrec & Hn' & [Hw' Hg Hhs Hpaths] & _);
      [lia | done | done | done | done|].
    destruct (insert_branch_helper_placed MerkleDB rd _ _ _ (set_root None ns) _ _ _ Hh Hpl Hk Hrun) as [Hpl' Hh'].
    rewrite Hrun. exists (set_root (Some n') ns'), u'. split_and!; [done | |].
    + split; [done|]. split; [done | done | by apply Hw' | done | by eapply Hpaths].
    + intros k Hkp. cbn in Hg. rewrite Hg by done. by case_decide.
  - eexists _, (T key None Children_new). split_and!; [done | |].
    + split; [done|]. split; [apply rnode_childless | by apply placed_new | by apply trie_wf_leaf | constructor | by apply paths_le_leaf].
    + intros k Hkp. apply tget_empty.
Qed.

Lemma set_branch_value_placed fuel n key value n' pfx :
  placed MerkleDB rd pfx n -> is_path key -> set_branch_value_helper fuel n key value = Some n' -> placed MerkleDB rd pfx n'.
Proof.
  revert n key n' pfx. induction fuel as [|fuel IH]; intros n key n' pfx Hp Hk; [done|]. cbn [set_branch_value_helper].
  destruct n as [[pp v c]|l]; [|done]. destruct (negb _); [done|]. destruct (drop _ key) as [|i deeper] eqn:Hd.
  - intros [= <-]. eapply placed_children; [exact Hp | by inversion Hp | by left].
  - assert (Hpd : is_path (i :: deeper)) by (rewrite <- Hd; by apply Forall_drop). apply is_path_cons in Hpd as [Hi Hdeep].
    destruct (Children_get c i) as [[m| |]|] eqn:Hc; try done. intros (m' & Hm & [= <-])%bind_Some.
    apply (placed_set _ _ _ _ v v c i (Some m')); [done | done|]. intros x [= <-].
    inversion Hp as [|? ? ? ? _ _ Hs]; subst. specialize (Hs i _ Hi Hc). inversion Hs; subst; [by eapply IH | done].
Qed.

Lemma proving_set (ns : NodeStore St) u b key value :
  proving ns (Some u) -> is_path key -> (length key <= L)%nat -> get_branch_from_nibbles_mut (ns_root ns) key = Some b ->
  branch_value b = tget u key /\
  exists u',
    proving (set_root (ns_root ns ≫= fun root => set_branch_value_helper (S (length key)) root key value) ns) (Some u') /\
    forall k, is_path k -> tget u' k = if decide (k = key) then value else tget u k.
Proof.
  intros [Hh Hr] Hk Hl. destruct (ns_root ns) as [root|]; [|done]. pose proof Hr as [Hn Hpl Hw Hp Hlen].
  cbn [get_branch_from_nibbles_mut mbind option_bind] in *. intros Hb.
  destruct (set_branch_value_ok rd _ root u key b value Hn Hw Hk Hb) as (Hv & n' & u' & Hset & Hn' & [Hwf Hg _ Hpl'] & _).
  split; [done|]. exists u'. rewrite Hset. split; [|done]. split; [done|].
  split; [done | exact (set_branch_value_placed _ _ _ _ _ _ Hpl Hk Hset) | by apply Hwf | done | by apply (Hpl' L [] Hlen)].
Qed.

(** A node in the range is accepted only if it agrees with the value of the branch. *)
Lemma reconcile_value_in_range pn bv o :
  range_contains range (pn_key pn) = true -> reconcile_value MerkleDB pn bv (change_on_conflict range) = Ok o ->
  o = None /\ (bv = None -> pn_value_digest pn = None).
Proof.
  intros Hin. unfold reconcile_value, change_on_conflict. rewrite Hin. cbn [is_ethereum andb].
  destruct (pn_value_digest pn) as [[v|h]|]; cbn [mbind option_bind ValueDigest_value].
  - case_bool_decide as Hv; intros [= <-]. by rewrite <- Hv.
  - destruct bv as [v|]; [destruct (ValueDigest_verify _ _); by intros [= <-] | done].
  - case_bool_decide as Hv; intros [= <-]. done.
Qed.

Lemma proving_reconcile (ns : NodeStore St) u pn ns' :
  proving ns u -> is_path (pn_key pn) -> (length (pn_key pn) <= L)%nat ->
  reconcile_branch_proof_node MerkleDB pn (change_on_conflict range) ns = (Ok tt, ns') ->
  exists u', proving ns' (Some u') /\ okeeps u (Some u') /\
    (range_contains range (pn_key pn) = true -> otget u (pn_key pn) = None -> pn_value_digest pn = None).
Proof.
  intros Hb Hk Hl. unfold reconcile_branch_proof_node. cbn [is_ethereum andb]. destruct (negb _ && _); [done|].
  destruct (proving_branch ns u (pn_key pn) Hb Hk Hl) as (ns1 & u1 & -> & Hb1 & Hg1).
  destruct (get_branch_from_nibbles_mut (ns_root ns1) (pn_key pn)) as [b|] eqn:Hget; [|done].
  assert (Hval : forall value, branch_value b = tget u1 (pn_key pn)) by (intros value; by apply (proving_set ns1 u1 b (pn_key pn) value Hb1 Hk Hl Hget)).
  specialize (Hval None). rewrite Hg1 in Hval by done.
  destruct (reconcile_value _ _ _ _) as [[v|]|e] eqn:Hrv; [| |done]; intros [= <-].
  - assert (Hout : range_contains range (pn_key pn) = false).
    { destruct (range_contains _ _) eqn:Hin; [|done]. by destruct (reconcile_value_in_range _ _ _ Hin Hrv). }
    destruct (proving_set ns1 u1 b (pn_key pn) v Hb1 Hk Hl Hget) as (_ & u' & Hb' & Hg'). exists u'. split_and!; [done | | by rewrite Hout].
    intros k Hkp Hin. cbn. rewrite Hg', decide_False by (done || congruence). by apply Hg1.
  - exists u1. split_and!; [done | intros k Hkp _; by apply Hg1 |]. intros Hin Hno.
    destruct (reconcile_value_in_range _ _ _ Hin Hrv) as [_ Hd]. apply Hd. congruence.
Qed.

(** What the proof nodes in the range say where the trie holds nothing: nothing. *)
Definition agrees (u : option trie) (pn : ProofNode) : Prop :=
  range_contains range (pn_key pn) = true -> otget u (pn_key pn) = None -> pn_value_digest pn = None.

Definition node_ok (pn : ProofNode) : Prop := is_path (pn_key pn) /\ (length (pn_key pn) <= L)%nat.

Lemma agrees_keeps u u' pn : node_ok pn -> okeeps u u' -> agrees u' pn -> agrees u pn.
Proof. intros [Hp _] Hk Ha Hin Hno. apply Ha; [done|]. by rewrite Hk. Qed.

Lemma reconcile_start_Ok nodes m (ns : NodeStore St) u m' ns' :
  proving ns u -> Forall node_ok nodes -> reconcile_start MerkleDB range nodes m ns = (Ok m', ns') ->
  exists u', proving ns' u' /\ okeeps u u' /\ (u <> None \/ nodes <> [] -> u' <> None) /\ Forall (agrees u) nodes /\
    (forall f pn, m' !! f = Some pn -> m !! f = Some pn \/ (pn ∈ nodes /\ pn_key pn = f)) /\
    (forall pn, last nodes = Some pn -> m' !! pn_key pn = Some pn).
Proof.
  intros Hb Hn. revert m ns u Hb. induction Hn as [|pn nodes Hpn Hn IH]; intros m ns u Hb.
  - intros [= <- <-]. exists u. split_and!; [done | apply okeeps_refl | by intros [] | done | by left | done].
  - cbn [reconcile_start]. destruct (reconcile_branch_proof_node _ _ _ _) as [[[]|e] ns1] eqn:Hrec; [|done]. intros Hrun. pose proof Hpn as [Hp Hl].
    destruct (proving_reconcile ns u pn ns1 Hb Hp Hl Hrec) as (u1 & Hb1 & Hk1 & Ha).
    destruct (IH _ ns1 (Some u1) Hb1 Hrun) as (u' & Hb' & Hk' & Hne & Hall & Hm & Hlast).
    exists u'. split_and!; [done | by eapply okeeps_trans | intros _; apply Hne; by left | | |].
    + constructor; [done|]. apply Forall_forall. intros q Hq. eapply agrees_keeps; [by apply (proj1 (Forall_forall _ _) Hn) | exact Hk1 | by apply (proj1 (Forall_forall _ _) Hall)].
    + intros f q Hf. destruct (Hm f q Hf) as [Hins|[Hin Hq]]; [|right; split; [by right | done]].
      destruct (decide (pn_key pn = f)) as [<-|Hne']; [rewrite lookup_insert_eq in Hins; injection Hins as <-; right; split; [by left | done]|].
      rewrite lookup_insert_ne in Hins by done. by left.
    + intros q Hq. destruct nodes as [|n nodes]; [|by apply Hlast]. cbn in Hq, Hrun. injection Hq as <-. injection Hrun as <- _. by rewrite lookup_insert_eq.
Qed.

(** The same node, up to what [PartialEq] tells apart. *)
Definition same_node (q pn : ProofNode) : Prop := q = pn \/ ProofNode_eq q pn = true.

Lemma reconcile_end_Ok nodes m (ns : NodeStore St) u m' ns' :
  proving ns u -> Forall node_ok nodes -> reconcile_end MerkleDB range nodes m ns = (Ok m', ns') ->
  exists u', proving ns' u' /\ okeeps u u' /\ (u <> None \/ nodes <> [] -> u' <> None) /\ Forall (agrees u) nodes /\
    (forall f pn, m' !! f = Some pn -> m !! f = Some pn \/ (pn ∈ nodes /\ pn_key pn = f)) /\
    (forall f pn, m !! f = Some pn -> m' !! f = Some pn) /\
    (forall pn, pn ∈ nodes -> exists q, m' !! pn_key pn = Some q /\ same_node q pn).
Proof.
  intros Hb Hn. revert m ns u Hb. induction Hn as [|pn nodes Hpn Hn IH]; intros m ns u Hb.
  - intros [= <- <-]. exists u. split_and!; [done | apply okeeps_refl | by intros [] | done | by left | done | by intros ? ?%elem_of_nil].
  - cbn [reconcile_end]. destruct (reconcile_branch_proof_node _ _ _ _) as [[[]|e] ns1] eqn:Hrec; [|done]. intros Hrun. pose proof Hpn as [Hp Hl].
    destruct (proving_reconcile ns u pn ns1 Hb Hp Hl Hrec) as (u1 & Hb1 & Hk1 & Ha).
    assert (Hrest : exists m1, reconcile_end MerkleDB range nodes m1 ns1 = (Ok m', ns') /\ (exists q, m1 !! pn_key pn = Some q /\ same_node q pn) /\
      (forall f q, m !! f = Some q -> m1 !! f = Some q) /\ (forall f q, m1 !! f = Some q -> m !! f = Some q \/ (q = pn /\ pn_key pn = f))).
    { destruct (m !! pn_key pn) as [e|] eqn:Em.
      - destruct (ProofNode_eq e pn) eqn:Heq; [|done]. exists m. split_and!; [done | by exists e; split; [|right] | done | by left].
      - eexists. split_and!; [exact Hrun | exists pn; split; [by rewrite lookup_insert_eq | by left] | |].
        + intros f q Hf. rewrite lookup_insert_ne; [done | congruence].
        + intros f q. destruct (decide (pn_key pn = f)) as [<-|Hne]; [rewrite lookup_insert_eq; intros [= <-]; by right|].
          rewrite lookup_insert_ne by done. by left. }
    destruct Hrest as (m1 & Hrun1 & (q & Hq & Hsame) & Hmono & Hfrom).
    destruct (IH m1 ns1 (Some u1) Hb1 Hrun1) as (u' & Hb' & Hk' & Hne & Hall & Hm & Hmono' & Hin').
    exists u'. split_and!; [done | by eapply okeeps_trans | intros _; apply Hne; by left | | | by auto |].
    + constructor; [done|]. apply Forall_forall. intros x Hx. eapply agrees_keeps; [by apply (proj1 (Forall_forall _ _) Hn) | exact Hk1 | by apply (proj1 (Forall_forall _ _) Hall)].
    + intros f x Hf. destruct (Hm f x Hf) as [[?|[-> ?]]%Hfrom|[? ?]]; [by left | right; split; [by left | done] | right; split; [by right | done]].
    + intros x [->|Hx]%elem_of_cons; [exists q; auto | by apply Hin'].
Qed.

Lemma collapse_windows_Ok nodes (ns : NodeStore St) u ns' :
  proving ns u -> Forall node_ok nodes -> collapse_windows MerkleDB height range nodes ns = (Ok tt, ns') ->
  exists u', proving ns' u' /\ okeeps u u' /\ (u <> None -> u' <> None).
Proof.
  intros Hb Hn. revert ns u Hb. induction Hn as [|pn nodes [Hp _] Hn IH]; intros ns u Hb.
  { intros [= <-]. exists u. split_and!; [done | apply okeeps_refl | done]. }
  destruct nodes as [|qn nodes]; [intros [= <-]; exists u; split_and!; [done | apply okeeps_refl | done]|].
  intros ([] & ns1 & Hc & Hrun)%api_bind_inv. pose proof Hn as [[Hq _] _]%Forall_cons.
  destruct (collapse_branch_to_path_Ok rd range L height height_ok ns u _ _ ns1 Hb Hp Hq Hc) as (u1 & Hb1 & Hk1 & Hne1).
  destruct (IH ns1 u1 Hb1 Hrun) as (u' & Hb' & Hk' & Hne'). exists u'. split_and!; [done | by eapply okeeps_trans | auto].
Qed.

End Reconcile.

(** ** The marked slots *)

Section Marks.
Context `{Digests} `{VarInt} {St : Type} `{ReadableStorage St} `{!ReadableStorageLaws St}.
Variables (rd : LinearAddress -> option Node) (range : CollapseRange) (L height : nat).
Hypothesis height_ok : (L < height)%nat.

Abbreviation proving := (proving rd L).

(** Below the slot the trie holds no value under a key of the range. *)
Definition slot_free (u : trie) (f : Path) (i : PathComponent) : Prop :=
  forall s, is_path s -> range_contains range (f ++ i :: s) = true -> tget u (f ++ i :: s) = None.

Lemma proving_recorded (ns ns' : NodeStore St) u : proving ns u -> recorded MerkleDB rd ns [] ns' -> proving ns' u.
Proof. intros [_ Hr] Hrec. split; [by eapply recorded_holds|]. destruct Hrec as (_ & -> & _). done. Qed.

Lemma boundary_child_source_Ok (ns : NodeStore St) u key on source ns' :
  proving ns (Some u) -> is_path key -> is_nibble on -> boundary_child_source MerkleDB height key on range ns = (Ok source, ns') ->
  proving ns' (Some u) /\ (source = FromProof -> slot_free u key on).
Proof.
  intros Hb Hk Hon. pose proof Hb as [Hh Hr]. unfold boundary_child_source. destruct (ns_root ns) as [root|]; [|done]. destruct Hr as [Hn Hpl Hw Hp Hlen].
  destruct (get_helper_reads MerkleDB rd (S (length key)) root u key ns ltac:(lia) Hk Hh Hn Hw) as (o & ns1 & Hrun & Hrec & _ & Hat).
  erewrite store_bind_Ok by exact Hrun. pose proof (proving_recorded _ _ _ Hb Hrec) as Hb1.
  destruct o as [[b|l]|]; [|by intros [= <- <-]..]. destruct (Children_get (branch_children b) on) as [c|] eqn:Hc; [|by intros [= <- <-]].
  destruct (Hat _ eq_refl) as (w & Hbw & Hww & Hht & Hget). inversion Hbw as [|pp v bc ks Hcw Hkw Hs]; subst. cbn [branch_children tkids] in *.
  pose proof (Hs on Hon) as Hso. rewrite Hc in Hso. apply rslot_Some_inv in Hso as (m & t & Hkid & Hm & Hmt).
  pose proof (trie_wf_inv _ _ _ Hww) as (_ & _ & Hkids). pose proof Hkid as Hkid'%Children_get_Some.
  pose proof (theight_kid pp v ks _ _ _ Hkid'). pose proof (paths_le_height _ _ _ Hw Hlen).
  destruct (child_in_range_exact MerkleDB rd range height c m t key on ns1 (proj1 Hb1) Hm Hmt ltac:(by eapply Hkids) ltac:(lia)) as (r & ns2 & Hrun2 & Hrec2 & Hex).
  erewrite store_bind_Ok by exact Hrun2. intros [= <- <-]. split; [by eapply proving_recorded|]. destruct r; [done|]. intros _ s Hsp Hin.
  rewrite Hget, Hkid. cbn. destruct (tget t s) as [x|] eqn:Ex; [|done]. enough (false = true) by done. apply Hex. by exists s, x.
Qed.

(** A slot that is marked from a terminal is empty in its node and free of keys of the range. *)
Lemma mark_terminals_Ok terminals marks (ns : NodeStore St) u marks' ns' :
  proving ns (Some u) ->
  Forall (fun p : ProofNode * TerminalMarking => is_path (pn_key p.1) /\ Children_wf (pn_child_hashes p.1) /\ forall on, p.2 = OnPath on -> is_nibble on) terminals ->
  mark_terminals MerkleDB height terminals range marks ns = (Ok marks', ns') ->
  proving ns' (Some u) /\
  forall f i, is_nibble i -> outside_at marks' f i = true -> outside_at marks f i = true \/
    exists n, (n, OnPath i) ∈ terminals /\ pn_key n = f /\ Children_get (pn_child_hashes n) i = None /\ slot_free u f i.
Proof.
  intros Hb Hall. revert marks ns Hb. induction Hall as [|[n mk] terminals (Hp & Hw & Hmk) Hall IH]; intros marks ns Hb; [intros [= <- <-]; auto|].
  cbn [mark_terminals]. destruct mk as [|on].
  { intros Hrun. destruct (IH marks ns Hb Hrun) as (Hb' & Hm). split; [done|]. intros f i Hi Ho.
    destruct (Hm f i Hi Ho) as [?|(x & Hx & Hrest)]; [by left | right]. exists x. split; [by right | done]. }
  cbn [fst snd] in *. destruct (existsb _ _) eqn:Hex; [done|]. intros (source & ns1 & Hsrc%io_op_inv & Hrun)%api_bind_inv.
  pose proof (Hmk on eq_refl) as Hon. destruct (boundary_child_source_Ok ns u _ _ _ _ Hb Hp Hon Hsrc) as [Hb1 Hfree].
  assert (Hempty : Children_get (pn_child_hashes n) on = None).
  { destruct (Children_get (pn_child_hashes n) on) as [h|] eqn:Eh; [|done].
    assert (Hin : (on, h) ∈ Children_iter_present (pn_child_hashes n)) by (by apply Children_iter_present_elem).
    assert (existsb (fun p : PathComponent * HashType => p.1 =? on) (Children_iter_present (pn_child_hashes n)) = true); [|congruence].
    apply existsb_exists. exists (on, h). split; [by apply list_elem_of_In | apply Z.eqb_refl]. }
  destruct (IH _ ns1 Hb1 Hrun) as (Hb' & Hm). split; [done|]. intros f i Hi Ho.
  destruct (Hm f i Hi Ho) as [Hold|(x & Hx & Hrest)]; [|right; exists x; split; [by right | done]].
  destruct source; [by left|]. unfold outside_at in Hold. destruct (decide (pn_key n = f)) as [<-|Hne].
  - rewrite lookup_insert_eq in Hold. destruct (child_mask_is_a_set (default 0 (marks !! pn_key n)) 0 on i Hon Hi) as (_ & _ & Hset & _).
    rewrite Hset in Hold. apply orb_true_iff in Hold as [Hold|Heq%Z.eqb_eq]; [|subst i].
    + left. unfold outside_at. destruct (marks !! pn_key n) as [m|]; [done|]. cbn in Hold. unfold is_set in Hold. by rewrite Z.land_0_l in Hold.
    + right. exists n. split_and!; [by left | done | done | by apply Hfree].
  - rewrite lookup_insert_ne in Hold by done. by left.
Qed.

End Marks.

(** ** The proving trie *)

Lemma classify_terminal_OnPath nodes b n on :
  (forall k, boundary_key b = Some k -> is_bytes k) -> classify_terminal nodes b = Some (n, OnPath on) -> last nodes = Some n /\ is_nibble on.
Proof.
  intros Hk. unfold classify_terminal. intros (t & Ht & (k & Hb & Hc)%bind_Some)%bind_Some. specialize (Hk k Hb).
  rewrite from_nibbles_iterator_new in Hc by done. destruct (divergence _ _) as [[x y]|]; [by destruct (if is_left b then _ else _)|].
  destruct (nibbles_of k !! length (pn_key t)) as [j|] eqn:Hj; [|by destruct (is_left b)]. injection Hc as -> ->. split; [done|].
  exact (proj1 (Forall_lookup _ _) (is_path_nibbles_of k Hk) _ _ Hj).
Qed.

(** Two nodes that [PartialEq] does not tell apart have the same empty slots. *)
Lemma same_node_slot `{Digests} q n i : same_node q n -> is_nibble i -> Children_get (pn_child_hashes n) i = None -> Children_get (pn_child_hashes q) i = None.
Proof.
  intros [->|He] Hi Hn; [done|]. unfold ProofNode_eq in He. apply andb_true_iff in He as [_ Hall]. rewrite forallb_forall in Hall.
  assert (Hin : In i PathComponent_ALL).
  { assert (Hc : forall j, (j < 16)%nat -> In (Z.of_nat j) PathComponent_ALL) by (intros j Hj; do 16 (destruct j as [|j]; [cbn; tauto|]); lia).
    unfold is_nibble in Hi. specialize (Hc (Z.to_nat i) ltac:(lia)). by rewrite Z2Nat.id in Hc by lia. }
  specialize (Hall i Hin). rewrite Hn in Hall. by destruct (Children_get (pn_child_hashes q) i).
Qed.

(** The key is in the range of the proof. *)
Definition in_change_range (ctx : ChangeProofVerificationContext) (k : bytes) : Prop :=
  above_start (cc_start_key ctx) k /\ below_end (cc_right_edge_key ctx) k.

Lemma change_range_contains ctx k :
  is_key (cc_start_key ctx) -> is_key (cc_right_edge_key ctx) -> is_bytes k -> in_change_range ctx k ->
  range_contains (change_range ctx) (nibbles_of k) = true.
Proof.
  intros Hs He Hk [Ha Hb]. unfold range_contains, change_range. cbn [cr_start cr_end]. apply andb_true_iff. split.
  - destruct (cc_start_key ctx) as [s|]; [|by destruct (nibbles_of k)]. rewrite from_nibbles_iterator_new, slice_le_nibbles by auto. by apply Ha.
  - destruct (cc_right_edge_key ctx) as [e|]; [|done]. rewrite from_nibbles_iterator_new, slice_le_nibbles by auto. by apply Hb.
Qed.

Section ProvingTrie.
Context `{Digests} `{VarInt} {St : Type} `{ReadableStorage St} `{!ReadableStorageLaws St}.
Variables (rd : LinearAddress -> option Node) (L height : nat).
Hypothesis height_ok : (L < height)%nat.
Variables (proof : FrozenChangeProof) (ctx : ChangeProofVerificationContext).
Hypothesis start_key_ok : is_key (cc_start_key ctx).
Hypothesis right_edge_ok : is_key (cc_right_edge_key ctx).
Hypothesis nodes_ok : Forall (fun pn => node_ok L pn /\ Children_wf (pn_child_hashes pn)) (start_proof proof ++ end_proof proof).
Hypothesis start_linked : forall s, cc_start_key ctx = Some s -> linked (nibbles_of s) (start_proof proof).
Hypothesis end_linked : forall e, cc_right_edge_key ctx = Some e -> linked (nibbles_of e) (end_proof proof).
Hypothesis start_present : cc_start_key ctx = None -> start_proof proof = [].
Hypothesis end_present : cc_right_edge_key ctx = None -> end_proof proof = [].

Abbreviation range := (change_range ctx).

(** No slot on the way to a key of the range is marked by the two sides. *)
Lemma change_unmarked s sc e ec k f i q :
  compute_outside_children (start_proof proof) (BoundaryLeft (cc_start_key ctx)) = Ok (s, sc) ->
  compute_outside_children (end_proof proof) (BoundaryRight (InRange (cc_right_edge_key ctx))) = Ok (e, ec) ->
  is_bytes k -> in_change_range ctx k -> nibbles_of k = f ++ i :: q -> outside_at (merge_marks s e) f i = false.
Proof.
  intros Hs He Hk [Hab Hbe] Hq. destruct (outside_at (merge_marks s e) f i) eqn:Ho; [|done].
  pose proof (is_path_nibbles_of k Hk) as Hip. rewrite Hq in Hip. apply is_path_app in Hip as [_ [Hi _]%is_path_cons].
  apply marks_merge in Ho as [Ho|Ho]; [| |done].
  - destruct (cc_start_key ctx) as [sk|] eqn:Esk; [|rewrite start_present in Hs by done; apply outside_marks_nil in Hs as ->; done].
    assert (Hskb : is_bytes sk) by (by apply start_key_ok).
    rewrite (near_side_unmarked (BoundaryLeft (Some sk)) sk s k f i q) in Ho; [done | done | done | | by apply Hab | done].
    eapply outside_marks_ok; [done | done | by apply start_linked | done].
  - destruct (cc_right_edge_key ctx) as [ek|] eqn:Eek; [|rewrite end_present in He by done; apply outside_marks_nil in He as ->; done].
    assert (Hekb : is_bytes ek) by (by apply right_edge_ok).
    rewrite (near_side_unmarked (BoundaryRight (InRange (Some ek))) ek e k f i q) in Ho; [done | done | done | | by apply Hbe | done].
    eapply outside_marks_ok; [done | done | by apply end_linked | done].
Qed.

(** The terminals that are marked, and their entries in the map of the proof nodes. *)
Lemma change_terminals (s e : gmap Path ChildMask) (sc ec : option (ProofNode * TerminalMarking)) (m : gmap Path ProofNode) :
  compute_outside_children (start_proof proof) (BoundaryLeft (cc_start_key ctx)) = Ok (s, sc) ->
  compute_outside_children (end_proof proof) (BoundaryRight (InRange (cc_right_edge_key ctx))) = Ok (e, ec) ->
  (forall pn, last (start_proof proof) = Some pn -> m !! pn_key pn = Some pn) ->
  (forall pn, pn ∈ end_proof proof -> exists q, m !! pn_key pn = Some q /\ same_node q pn) ->
  Forall (fun p : ProofNode * TerminalMarking => is_path (pn_key p.1) /\ Children_wf (pn_child_hashes p.1) /\ forall on, p.2 = OnPath on -> is_nibble on)
    (option_list sc ++ option_list ec) /\
  forall n on, (n, OnPath on) ∈ option_list sc ++ option_list ec -> exists q, m !! pn_key n = Some q /\ same_node q n.
Proof.
  intros Hs He Hms Hme.
  assert (Hcs : sc = classify_terminal (start_proof proof) (BoundaryLeft (cc_start_key ctx))).
  { unfold compute_outside_children in Hs. by apply bind_Ok in Hs as (x & _ & [= _ <-]). }
  assert (Hce : ec = classify_terminal (end_proof proof) (BoundaryRight (InRange (cc_right_edge_key ctx)))).
  { unfold compute_outside_children in He. by apply bind_Ok in He as (x & _ & [= _ <-]). }
  assert (Hlast : forall nodes b p, classify_terminal nodes b = Some p -> last nodes = Some p.1).
  { intros nodes b p. unfold classify_terminal. intros (t & Ht & (k & _ & Hc)%bind_Some)%bind_Some. rewrite Ht. f_equal.
    destruct (divergence _ _) as [[x y]|]; [destruct (if is_left b then _ else _); by simplify_eq|].
    destruct (_ !! _); [by simplify_eq|]. destruct (is_left b); by simplify_eq. }
  assert (Hin : forall p, p ∈ option_list sc ++ option_list ec ->
    (classify_terminal (start_proof proof) (BoundaryLeft (cc_start_key ctx)) = Some p \/
     classify_terminal (end_proof proof) (BoundaryRight (InRange (cc_right_edge_key ctx))) = Some p)).
  { intros p [Hp|Hp]%elem_of_app; [left; rewrite <- Hcs; destruct sc | right; rewrite <- Hce; destruct ec]; cbn in Hp;
      solve [by apply list_elem_of_singleton in Hp as -> | by apply elem_of_nil in Hp]. }
  split.
  - apply Forall_forall. intros [n mk] Hp. assert (Hnode : n ∈ start_proof proof ++ end_proof proof).
    { apply elem_of_app. destruct (Hin _ Hp) as [Hc|Hc]; apply Hlast, last_Some_elem_of in Hc; auto. }
    apply (proj1 (Forall_forall _ _) nodes_ok) in Hnode as [[? _] ?]. split_and!; [done | done|]. intros on Hon. cbn in Hon. subst mk.
    destruct (Hin _ Hp) as [Hc|Hc]; by apply classify_terminal_OnPath in Hc as [_ ?].
  - intros n on Hp. destruct (Hin _ Hp) as [Hc|Hc]; apply Hlast in Hc; cbn in Hc.
    + exists n. split; [by apply Hms | by left].
    + apply Hme. by apply last_Some_elem_of.
Qed.

(** What the proving trie holds, and which slots are marked. *)
Lemma proving_trie_Ok (ns : NodeStore St) u m marks ns' :
  proving rd L ns u -> start_proof proof ++ end_proof proof <> [] ->
  proving_trie MerkleDB height proof ctx ns = (Ok (m, marks), ns') ->
  exists n u', ns_root ns' = Some n /\ rebuilt rd L n u' [] /\ okeeps range u (Some u') /\
    (forall f pn, m !! f = Some pn -> pn ∈ start_proof proof ++ end_proof proof /\ pn_key pn = f /\ agrees range u pn) /\
    (forall k f i s, is_bytes k -> in_change_range ctx k -> nibbles_of k = f ++ i :: s ->
       outside_at marks f i = false \/ (tget u' (nibbles_of k) = None /\ m !! f ≫= (fun pn => Children_get (pn_child_hashes pn) i) = None)).
Proof.
  intros Hb Hne. assert (Hnodes : Forall (node_ok L) (start_proof proof ++ end_proof proof)) by (eapply Forall_impl; [exact nodes_ok|]; by intros pn [? _]).
  apply Forall_app in Hnodes as Hse. destruct Hse as [Hsn Hen]. unfold proving_trie.
  intros (m1 & ns1 & Hr1 & (m2 & ns2 & Hr2 & ([] & ns3 & Hw1 & ([] & ns4 & Hw2 & ([] & ns5 & Hroot & (mk & ns6 & Hmarks & [= <- <- <-])%api_bind_inv)%api_bind_inv)%api_bind_inv)%api_bind_inv)%api_bind_inv)%api_bind_inv.
  destruct (reconcile_start_Ok rd range L height height_ok _ ∅ ns u m1 ns1 Hb Hsn Hr1) as (u1 & Hb1 & Hk1 & Hne1 & Ha1 & Hm1 & Hl1).
  destruct (reconcile_end_Ok rd range L height height_ok _ m1 ns1 u1 m2 ns2 Hb1 Hen Hr2) as (u2 & Hb2 & Hk2 & Hne2 & Ha2 & Hm2 & Hmono & Hl2).
  destruct (collapse_windows_Ok rd range L height height_ok _ ns2 u2 ns3 Hb2 Hsn Hw1) as (u3 & Hb3 & Hk3 & _).
  destruct (collapse_windows_Ok rd range L height height_ok _ ns3 u3 ns4 Hb3 Hen Hw2) as (u4 & Hb4 & Hk4 & _).
  destruct (head (start_proof proof ++ end_proof proof)) as [first|] eqn:Hhead; [|by destruct (start_proof proof ++ end_proof proof)].
  assert (Hfirst : is_path (pn_key first)).
  { apply (proj1 (Forall_forall _ _) Hnodes first). destruct (start_proof proof ++ end_proof proof); [done|]. injection Hhead as ->. by left. }
  destruct (collapse_root_to_path_Ok rd range L height height_ok ns4 u4 _ ns5 Hb4 Hfirst Hroot) as (u5 & Hb5 & Hk5 & Hne5).
  destruct u5 as [u'|]; [|done]. unfold change_outside_children in Hmarks.
  destruct (compute_outside_children (start_proof proof) _) as [[s sc]|] eqn:Hs; [|done].
  destruct (compute_outside_children (end_proof proof) _) as [[e ec]|] eqn:He; [|done].
  destruct (change_terminals s e sc ec m2 Hs He) as [Hterm Hentry]; [intros pn Hpn; by apply Hmono, Hl1 | done |].
  destruct (mark_terminals_Ok rd range L height height_ok _ _ ns5 u' mk ns6 Hb5 Hterm Hmarks) as [[Hh6 Hr6] Hmk].
  destruct (ns_root ns6) as [n|]; [|done]. exists n, u'. split_and!; [done | done | | |].
  - by repeat (eapply okeeps_trans; [eassumption|]).
  - intros f pn Hf. destruct (Hm2 f pn Hf) as [[Hempty|[Hin Hk]]%Hm1|[Hin Hk]]; [by rewrite lookup_empty in Hempty| |].
    + split_and!; [apply elem_of_app; by left | done | by apply (proj1 (Forall_forall _ _) Ha1)].
    + split_and!; [apply elem_of_app; by right | done |]. eapply agrees_keeps; [by apply (proj1 (Forall_forall _ _) Hen) | exact Hk1 | by apply (proj1 (Forall_forall _ _) Ha2)].
  - intros k f i q Hk Hin Hq. pose proof (is_path_nibbles_of k Hk) as Hip. pose proof Hip as Hip'. rewrite Hq in Hip'. apply is_path_app in Hip' as [_ [Hi Hqp]%is_path_cons].
    destruct (outside_at mk f i) eqn:Ho; [right | by left]. destruct (Hmk f i Hi Ho) as [Hold|(t & Ht & Htf & Hslot & Hfree)].
    + by rewrite (change_unmarked s sc e ec k f i q Hs He Hk Hin Hq) in Hold.
    + split.
      * rewrite Hq. apply Hfree; [done|]. rewrite <- Hq. by apply change_range_contains.
      * destruct (Hentry t i Ht) as (x & Hx & Hsame). rewrite Htf in Hx. rewrite Hx. cbn. by eapply same_node_slot.
Qed.

End ProvingTrie.

(** ** Soundness *)

Lemma node_height_le rd n u : rnode rd n u -> (node_height n <= theight u)%nat.
Proof.
  revert n. induction u as [pp v ks IH] using trie_ind'. intros n Hr. inversion Hr as [l|? ? c ? Hcw Hkw Hs]; subst; [cbn; lia|].
  assert (Hc : forall j m, c !! j = Some (Some (ChildNode m)) -> (node_height m < theight (T pp v ks))%nat).
  { intros j m Hj. assert (Hn : is_nibble (Z.of_nat j)) by (apply lookup_lt_Some in Hj; unfold Children_wf, MAX_CHILDREN, PathComponent_LEN, is_nibble in *; lia).
    assert (Hg : Children_get c (Z.of_nat j) = Some (ChildNode m)) by (apply Children_get_Some; by rewrite Nat2Z.id).
    specialize (Hs _ Hn). rewrite Hg in Hs. apply rslot_Some_inv in Hs as (m' & t & Hk & [= <-] & Hm). apply Children_get_Some in Hk. rewrite Nat2Z.id in Hk.
    pose proof (theight_kid pp v ks _ _ _ Hk). pose proof (IH _ _ _ Hk m Hm). lia. }
  cbn [node_height]. destruct (theight (T pp v ks)) as [|h] eqn:Eh; [by destruct ks|]. apply le_n_S. clear -Hc.
  induction c as [|x c IHc]; [lia|]. assert (Hrest : forall j m, c !! j = Some (Some (ChildNode m)) -> (node_height m < S h)%nat) by (intros j; apply (Hc (S j))).
  specialize (IHc Hrest). destruct x as [[m| |]|]; try done. specialize (Hc 0%nat m eq_refl). lia.
Qed.

(** The hash of a revision that may be empty ([HashKey::empty]). *)
Definition oroot_hash `{Digests} `{VarInt} (t : option trie) : TrieHash :=
  match t with Some t => into_triehash (troot_hash MerkleDB t) | None => replicate 32 0 end.

Definition opreimages `{Digests} `{VarInt} (t : option trie) : list bytes :=
  match t with Some t => preimages (tpath t) t | None => [] end.

(** SHA-256 maps two different strings to the same digest, or one of the strings to zero. *)
Definition sha256_broken `{Digests} (xs ys : list bytes) : Prop :=
  collision xs ys \/ exists x, x ∈ xs ++ ys /\ sha256 x = replicate 32 0.

(** The limits of the wire format, under MerkleDB. *)
Definition change_proof_wf (proof : FrozenChangeProof) : Prop :=
  Forall (proof_node_wf MerkleDB) (start_proof proof ++ end_proof proof) /\ Forall op_wf (contents_of proof).

Section Sound.
Context `{DigestsLaws} `{VarIntLaws} {St : Type} `{ReadableStorage St} `{!ReadableStorageLaws St}.
Variables (rd : LinearAddress -> option Node) (L height : nat).

(** The root of a hashed proposal whose trie is [u]. *)
Definition proposal_root_is (root : option MaybePersisted) (u : option trie) : Prop :=
  match root, u with
  | None, None => True
  | Some r, Some u => exists n, handle_node rd r = Some n /\ committed MerkleDB rd [] n u
  | _, _ => False
  end.

(** A proposal on the store [s]. *)
Record hashed_proposal (s : St) (root : option MaybePersisted) (hash : option TrieHash) (u : option trie) : Prop := mkHashedProposal {
  hp_storage tracking : holds MerkleDB rd (mkNodeStore None (Propose []) s tracking);
  hp_root : proposal_root_is root u;
  hp_hash : hash = (fun u => into_triehash (troot_hash MerkleDB u)) <$> u;
  hp_wf : owf u;
  hp_paths w : u = Some w -> paths_le L [] w;
}.

Lemma fork_Ok s root hash u tracking :
  hashed_proposal s root hash u -> exists ns, fork MerkleDB root tracking s = (Ok tt, ns) /\ proving rd L ns u.
Proof.
  intros [Hs Hr _ Hw Hp]. unfold fork. destruct root as [r|], u as [u|]; try done.
  - destruct Hr as (n & Hn & Hc). set (ns := mkNodeStore None (Propose (if tracking then [r] else [])) s tracking).
    destruct (as_shared_node_ok MerkleDB rd ns r n (Hs tracking) Hn) as (ns1 & Hrun & Hrec). rewrite Hrun. eexists. split; [done|].
    split; [by apply recorded_holds in Hrec|]. cbn. specialize (Hw u eq_refl).
    split; [by eapply committed_rnode | by eapply committed_placed | done | constructor | by apply Hp].
  - eexists. split; [done|]. split; [apply Hs | done].
Qed.

Hypothesis L_fits : BITS_PER_NIBBLE * Z.of_nat L <= U64_MAX.
Hypothesis height_ok : (L < height)%nat.

(** Where SHA-256 breaks if the verifier is deceived: between the proposal and the trie of
    the end root, or between the proving trie, with what the proof fills in, and that trie. *)
Definition change_broken (s : St) (root : option MaybePersisted) (tracking : bool) (proof : FrozenChangeProof)
  (ctx : ChangeProofVerificationContext) (u t : option trie) : Prop :=
  sha256_broken (opreimages u) (opreimages t) \/
  exists ns m marks ns' n u',
    fork MerkleDB root tracking s = (Ok tt, ns) /\ proving_trie MerkleDB height proof ctx ns = (Ok (m, marks), ns') /\
    ns_root ns' = Some n /\ rnode rd n u' /\
    sha256_broken (hybrid_strings m marks height n [] ++ preimages (tpath u') u') (opreimages t).

(** Two revisions with the same hash. *)
Lemma same_root_hash u t :
  owf u -> owf t -> (forall w, u = Some w -> paths_fit (tpath w) w) -> (forall w, t = Some w -> paths_fit (tpath w) w) ->
  oroot_hash u = oroot_hash t -> (forall k, is_path k -> otget u k = otget t k) \/ sha256_broken (opreimages u) (opreimages t).
Proof.
  intros Hu Ht Hfu Hft. destruct u as [u|], t as [t|]; cbn [oroot_hash opreimages otget]; unfold troot_hash; rewrite ?thash_merkledb; cbn [into_triehash app]; intros He.
  - assert (Hh : thash MerkleDB [] (tpath u) u = thash MerkleDB [] (tpath t) t) by (rewrite !thash_merkledb; cbn [app]; by rewrite He).
    destruct (thash_binding u t _ _ (Hu u eq_refl) (Ht t eq_refl) (Hfu u eq_refl) (Hft t eq_refl) Hh) as [[Hp Hsim]|Hcol]; [left | by right; left].
    intros k Hk. cbn. apply tsim_tget; [by apply Hsim | done].
  - right. right. eexists. split; [|exact He]. apply elem_of_app. left. destruct u. by left.
  - right. right. eexists. split; [|symmetry; exact He]. cbn. destruct t. by left.
  - by left.
Qed.

Lemma edge_ok_linked nodes key root ops : is_bytes key -> edge_ok MerkleDB nodes key root ops -> linked (nibbles_of key) nodes.
Proof.
  intros Hk (d & [[-> _]|Hd] & _); [done|]. apply proof_value_digest_Ok in Hd as (l & _ & Hv & _); [|done]. by eapply verify_loop_linked.
Qed.

(** What the structure gives the verification of the root hash. *)
Lemma structure_edges proof root start_key end_key max ctx :
  change_proof_wf proof -> is_key start_key -> is_key end_key ->
  verify_change_proof_structure MerkleDB proof root start_key end_key max = Ok ctx ->
  cc_end_root ctx = root /\ cc_start_key ctx = start_key /\ is_key (cc_right_edge_key ctx) /\
  (forall s, cc_start_key ctx = Some s -> linked (nibbles_of s) (start_proof proof)) /\
  (forall e, cc_right_edge_key ctx = Some e -> linked (nibbles_of e) (end_proof proof)) /\
  (cc_start_key ctx = None -> start_proof proof = []) /\ (cc_right_edge_key ctx = None -> end_proof proof = []).
Proof.
  intros [_ Hops] Hs He Hv. apply structure_accepts in Hv as [(_ & _ & _ & Hstart & Hend & _ & Hle & Hre) ->]. cbn [cc_end_root cc_start_key cc_right_edge_key].
  assert (Hr : is_key (compute_right_edge_key MerkleDB proof root (op_key <$> last (contents_of proof)) end_key)).
  { intros e Hr. apply change_edge_cases in Hr as [Hl|Hl]; [|by apply He]. apply fmap_Some in Hl as (op & Hl%last_Some_elem_of & ->).
    apply (proj1 (Forall_forall _ _) Hops) in Hl. destruct op; apply Hl. }
  split_and!; try done.
  - intros s Hk. eapply edge_ok_linked; [by apply Hs | by apply Hle].
  - intros e Hk. eapply edge_ok_linked; [by apply Hr | by apply Hre].
  - unfold compute_right_edge_key. intros Hn. apply Hend. destruct (last (contents_of proof)) as [l|] eqn:El; cbn in Hn.
    + exfalso. destruct (proof_value_digest _ _ _ _) as [[d|]|x]; [done | destruct (is_delete l); [done|] |]; by destruct end_key.
    + by apply last_None in El.
Qed.

(** The root hash of a proving trie says what the trie of the end root holds in the range. *)
Lemma proving_root_hash_sound proof ctx (ns : NodeStore St) u m marks ns' n u' h t k :
  change_proof_wf proof -> Forall (fun pn => (length (pn_key pn) <= L)%nat) (start_proof proof ++ end_proof proof) ->
  is_key (cc_start_key ctx) -> is_key (cc_right_edge_key ctx) ->
  (forall f pn, m !! f = Some pn -> pn ∈ start_proof proof ++ end_proof proof /\ pn_key pn = f /\ agrees (change_range ctx) u pn) ->
  (forall f i s, nibbles_of k = f ++ i :: s ->
     outside_at marks f i = false \/ (tget u' (nibbles_of k) = None /\ m !! f ≫= (fun pn => Children_get (pn_child_hashes pn) i) = None)) ->
  rebuilt rd L n u' [] -> okeeps (change_range ctx) u (Some u') -> owf t -> (forall w, t = Some w -> paths_fit (tpath w) w) ->
  ns_root ns' = Some n -> (hash_root MerkleDB height m marks ns').1 = Ok h -> HashType_eq_TrieHash h (oroot_hash t) = true ->
  is_bytes k -> in_change_range ctx k ->
  otget u (nibbles_of k) = otget t (nibbles_of k) \/ sha256_broken (hybrid_strings m marks height n [] ++ preimages (tpath u') u') (opreimages t).
Proof.
  intros [Hnodes _] Hlen Hsk Hek Hm Hmarks Hu Hkeep Ht Hfit Hroot Hrun Heq Hk Hin. pose proof (is_path_nibbles_of k Hk) as Hkp.
  pose proof (change_range_contains ctx k Hsk Hek Hk Hin) as Hrange.
  assert (Hheight : (node_height n <= height)%nat).
  { pose proof (node_height_le _ _ _ (rebuilt_node _ _ _ _ _ Hu)). pose proof (paths_le_height _ _ _ (rebuilt_wf _ _ _ _ _ Hu) (rebuilt_paths _ _ _ _ _ Hu)). cbn in *. lia. }
  assert (Hok : forall f pn, m !! f = Some pn -> hashable_ok pn).
  { intros f pn Hf. destruct (Hm f pn Hf) as [Hpn _]. by apply accepted_hashable_ok, (proj1 (Forall_forall _ _) Hnodes). }
  unfold hash_root, io_op in Hrun. rewrite Hroot in Hrun.
  rewrite (compute_root_hash_ok m marks (fun f pn Hf => proj1 (Hok f pn Hf)) rd height n [] ns' (rebuilt_placed _ _ _ _ _ Hu) Hheight) in Hrun. injection Hrun as <-.
  assert (Hhash : hybrid_hash m marks height n [] = Hash (oroot_hash t)).
  { destruct (hybrid_hash_32 m marks height n []) as (b & Hb & _). rewrite Hb in Heq |- *. cbn in Heq. apply bool_decide_eq_true in Heq. by rewrite Heq. }
  destruct t as [t|].
  2: { right. right. destruct height as [|h]; [lia|]. cbn [hybrid_hash oroot_hash] in Hhash. injection Hhash as Hhash. eexists. split; [|exact Hhash].
       apply elem_of_app. left. apply elem_of_app. left. by left. }
  destruct (hybrid_binding m marks rd L Hok L_fits height n u' [] t (nibbles_of k) Hu Hheight (Ht t eq_refl) (Hfit t eq_refl) Hkp) as [Hd|Hcol].
  - intros f i s Hq. by apply (Hmarks f i s).
  - intros Hno. cbn [app]. destruct (m !! nibbles_of k) as [pn|] eqn:Hpn; [|done]. destruct (Hm _ _ Hpn) as (_ & Hpk & Ha). cbn. apply Ha; rewrite Hpk; [done|].
    by rewrite <- (Hkeep _ Hkp Hrange).
  - rewrite Hhash. cbn [oroot_hash]. unfold troot_hash. by rewrite !thash_merkledb.
  - rewrite <- (Hkeep _ Hkp Hrange). cbn [otget mbind option_bind]. destruct (digest_bytes_inj _ _ Hd) as [->|(x & y & Hx & Hy & Hlx & Hly & Hne & Hsh)]; [by left | right; left].
    exists x, y. split_and!; [apply elem_of_app; right; by eapply tget_preimages | by eapply tget_preimages | done | done].
  - right. left. destruct Hcol as [Hcol|[_ Hcol]]; (eapply collision_mono; [exact Hcol | | done]); intros x Hx; apply elem_of_app; auto.
Qed.

(** C7: an accepted change proof is true.  Let a change proof within the limits of the wire
    format pass [verify_change_proof_structure] under MerkleDB against the root hash of a
    trie [t], and let [verify_change_proof_root_hash] accept it for a hashed proposal that
    holds the trie [u].  Then for every key from the start key to the right edge that the
    first step established, the proposal holds exactly what [t] holds, a value or
    nothing; otherwise SHA-256 is broken on strings that come from the two tries and the
    nodes of the proof.  The proposal may be any trie: nothing is assumed of the
    operations of the proof or of how they were applied. *)
Theorem change_proof_sound s root hash u t proof start_key end_key max ctx tracking k :
  hashed_proposal s root hash u -> owf t -> (forall w, t = Some w -> paths_fit (tpath w) w) ->
  change_proof_wf proof -> Forall (fun pn => (length (pn_key pn) <= L)%nat) (start_proof proof ++ end_proof proof) ->
  is_key start_key -> is_key end_key ->
  verify_change_proof_structure MerkleDB proof (oroot_hash t) start_key end_key max = Ok ctx ->
  (verify_change_proof_root_hash MerkleDB height proof ctx root hash tracking s).1 = Ok tt ->
  is_bytes k -> in_change_range ctx k ->
  otget u (nibbles_of k) = otget t (nibbles_of k) \/ change_broken s root tracking proof ctx u t.
Proof.
  intros Hprop Ht Hfit Hwf Hlen Hsk Hek Hstr Hver Hk Hin.
  destruct (structure_edges _ _ _ _ _ _ Hwf Hsk Hek Hstr) as (Hroot & Hcs & Hre & Hls & Hle & Hps & Hpe).
  unfold verify_change_proof_root_hash in Hver. destruct (_ && _) eqn:Hempty.
  - case_bool_decide as He; [|done]. destruct Hprop as [_ _ -> Hw Hp].
    destruct (same_root_hash u t Hw Ht) as [Hsame|Hbad]; [| done | | left; by apply Hsame, is_path_nibbles_of | right; by left].
    + intros w ->. apply (paths_le_fit L L_fits []); [constructor | by apply Hw | by apply Hp].
    + rewrite <- Hroot, <- He. by destruct u.
  - destruct (fork_Ok s root hash u tracking Hprop) as (ns & Hfork & Hb). rewrite Hfork in Hver.
    destruct (proving_root_hash MerkleDB height proof ctx ns) as [[h|] ns'] eqn:Hrun; [|done]. cbn in Hver.
    destruct (HashType_eq_TrieHash h (cc_end_root ctx)) eqn:Heq; [|done]. unfold proving_root_hash in Hrun.
    apply api_bind_inv in Hrun as ([m marks] & ns1 & Htrie & Hhash). cbn [fst snd] in Hhash.
    destruct (proving_trie_Ok rd L height height_ok proof ctx ltac:(by rewrite Hcs) Hre) with (ns := ns) (u := u) (m := m) (marks := marks) (ns' := ns1)
      as (n & u' & Hn & Hu & Hkeep & Hm & Hmarks); try done.
    { destruct Hwf as [Hnodes _]. apply Forall_forall. intros pn Hpn. pose proof (proj1 (Forall_forall _ _) Hnodes pn Hpn) as (? & _ & _ & _ & ? & _).
      split; [|done]. split; [done|]. exact (proj1 (Forall_forall _ _) Hlen pn Hpn). }
    { intros [Hsn Hen]%app_eq_nil. by rewrite Hsn, Hen in Hempty. }
    destruct (proving_root_hash_sound proof ctx ns u m marks ns1 n u' h t k) as [?|Hbad]; try done; [by rewrite Hcs | | by rewrite Hhash | by rewrite <- Hroot | by left |].
    { intros f i q. by apply Hmarks. }
    right. right. exists ns, m, marks, ns1, n, u'. split_and!; try done. by destruct Hu.
Qed.

End Sound.

(** ** Witness: one key of a proposal that differs from the end trie outside of the range *)
Section ChangeWitness.
Import Leb128 FirstBytes.

Definition w_change_leaf : Node := Leaf (mkLeaf [1] [7]).
Definition w_change_kid : trie := T [1] (Some [7]) Children_new.

(** The proposal: another value under the empty key. *)
Definition w_change_trie : trie := T [] (Some [8]) (Children_set Children_new 6 (Some (Some (Unpersisted w_change_leaf), w_change_kid))).
Definition w_change_root : Node :=
  Branch (mkBranch [] (Some [8]) (Children_set Children_new 6 (Some (ChildMaybePersisted (Unpersisted w_change_leaf) (thash MerkleDB [6] [1] w_change_kid))))).
Definition w_change_proof : FrozenChangeProof := mkEdgeProofs w_proof w_proof [Put [97] [7]] MerkleDB.
Definition w_change_context : ChangeProofVerificationContext :=
  mkChangeContext (oroot_hash (Some (w_bound None))) (Some [97]) (Some [97]) (Some [97]).

Example w_change_structure :
  verify_change_proof_structure MerkleDB w_change_proof (oroot_hash (Some (w_bound None))) (Some [97]) (Some [97]) None = Ok w_change_context.
Proof. vm_compute. reflexivity. Qed.

Example w_change_verifies :
  (verify_change_proof_root_hash MerkleDB 3 w_change_proof w_change_context (Some (Unpersisted w_change_root))
     (Some (into_triehash (troot_hash MerkleDB w_change_trie))) true (mkMemStore [])).1 = Ok tt.
Proof. vm_compute. reflexivity. Qed.

Lemma w_change_proposal : hashed_proposal blank 2 (mkMemStore []) (Some (Unpersisted w_change_root)) (Some (into_triehash (troot_hash MerkleDB w_change_trie))) (Some w_change_trie).
Proof.
  assert (H6 : is_nibble 6) by (split; lia). assert (Hp : is_path [1]) by (repeat constructor; lia). split.
  - intros tracking. by split.
  - exists w_change_root. split; [done|]. constructor; [apply Children_set_wf, Children_new_wf | apply Children_set_wf, Children_new_wf|].
    intros i Hi. destruct (decide (6 = i)) as [<-|Hne].
    + rewrite !Children_get_set by (done || apply Children_new_wf). eapply committed_some; [reflexivity | reflexivity | apply (committed_leaf _ _ _ (mkLeaf [1] [7]))].
    + rewrite !Children_get_set_ne, !Children_get_new by done. constructor.
  - done.
  - apply owf_Some. apply trie_wf_set; [done | apply trie_wf_leaf; constructor|]. intros h t [= _ <-]. by apply trie_wf_leaf.
  - intros w [= <-]. apply paths_le_set; [done | apply Children_new_wf | apply paths_le_leaf; cbn; lia|]. intros h t [= _ <-]. apply paths_le_leaf. cbn. lia.
Qed.

Lemma w_change_wf : change_proof_wf w_change_proof.
Proof.
  destruct w_range_sound_wf as [Hnodes Hpairs]. split; [exact Hnodes|]. constructor; [|constructor].
  by apply Forall_cons in Hpairs as [Hpair _].
Qed.

Lemma change_proof_sound_witness :
  otget (Some w_change_trie) (nibbles_of [97]) = otget (Some (w_bound None)) (nibbles_of [97]) \/
  change_broken blank 3 (mkMemStore []) (Some (Unpersisted w_change_root)) true w_change_proof w_change_context (Some w_change_trie) (Some (w_bound None)).
Proof.
  apply (change_proof_sound blank 2 3 ltac:(by vm_compute) ltac:(lia) (mkMemStore []) (Some (Unpersisted w_change_root))
    (Some (into_triehash (troot_hash MerkleDB w_change_trie))) (Some w_change_trie) (Some (w_bound None)) w_change_proof (Some [97]) (Some [97]) None
    w_change_context true [97] w_change_proposal).
  - apply owf_Some, w_bound_wf.
  - intros w [= <-]. apply w_bound_wf.
  - exact w_change_wf.
  - repeat constructor; cbn; lia.
  - intros x [= <-]. repeat constructor; ulia.
  - intros x [= <-]. repeat constructor; ulia.
  - exact w_change_structure.
  - exact w_change_verifies.
  - repeat constructor; ulia.
  - by split; intros x [= <-].
Defined.

End ChangeWitness.
