(* ===== verification/ProofGen.v ===== *)
(** * Making range proofs and change proofs

    [Merkle::range_proof] and [Merkle::change_proof] ([firewood/src/merkle/mod.rs]): the
    pairs, or the changes, of a range of keys up to a limit, with the proofs of the two
    edges. *)

From S2P Require Import Prelude Primitives NodePath Node Codec NodeCodec Trie NodeStore Linear Header ChildMask.
From S2P Require Import Merkle Rlp Hashing Iter ProofTypes KeyProof ProofWire Batch RangeProof Diff ChangeProof.

Section RangeGeneration.
Context `{Digests} `{VarInt} {St : Type} `{ReadableStorage St}.
Variables (alg : NodeHashAlgorithm) (must_recompute : bool).

(** The bounds on the number of items and of nodes visited for an item. *)
Variables (n fuel : nat).

(** [Iterator::take] by reference and [collect] into a [Result]: at most [limit] items;
    the iterator is left where it stands. *)
Fixpoint take_range (n : nat) (limit : Z) (self : FilteredKeyRangeIter) (ns : NodeStore St)
  : result failure (list (bytes * Value)) * FilteredKeyRangeIter * NodeStore St :=
  match n with
  | O => (Err Diverges, self, ns)
  | S n =>
      if limit =? 0 then (Ok [], self, ns)
      else
        match FilteredKeyRangeIter_next alg must_recompute fuel self ns with
        | (None, self, ns) => (Ok [], self, ns)
        | (Some (Err e), self, ns) => (Err e, self, ns)
        | (Some (Ok kv), self, ns) =>
            match take_range n (limit - 1) self ns with
            | (Ok l, self, ns) => (Ok (kv :: l), self, ns)
            | (Err e, self, ns) => (Err e, self, ns)
            end
        end
  end.

(** [prove] in a function that returns an [api::Error]; a key that is not given has the
    empty proof. *)
Definition prove_opt (key : option bytes) : api_op St (list ProofNode) := fun ns =>
  match key with
  | None => (Ok [], ns)
  | Some key =>
      match prove alg must_recompute key ns with
      | (Ok proof, ns) => (Ok proof, ns)
      | (Err e, ns) => (Err (ApiProof e), ns)
      end
  end.

(** The rejection of inverted ranges. *)
Definition check_range (start_key end_key : option bytes) : api_op St unit :=
  match start_key, end_key with
  | Some k1, Some k2 => if slice_ltb k2 k1 then api_lift (Err (ApiInvalidRange k1 k2)) else mret tt
  | _, _ => mret tt
  end.

(** Whether the limit was hit and there is at least one more pair. *)
Definition more_pairs (limit : option Z) (key_values : list (bytes * Value)) (iter : FilteredKeyRangeIter) (ns : NodeStore St) : bool * NodeStore St :=
  match limit with
  | Some limit =>
      if limit <=? len key_values then
        match FilteredKeyRangeIter_next alg must_recompute fuel iter ns with
        | (Some _, _, ns) => (true, ns)
        | (None, _, ns) => (false, ns)
        end
      else (false, ns)
  | None => (false, ns)
  end.

(** [Merkle::range_proof]. *)
Definition range_proof (start_key end_key : option bytes) (limit : option Z) : api_op St FrozenRangeProof :=
  _ ← check_range start_key end_key;
  start_proof ← prove_opt start_key;
  (fun ns =>
    match take_range n (default U64_MAX limit) (stop_after_key (from_key (default [] start_key)) end_key) ns with
    | (Err e, _, ns) => (Err (ApiIO e), ns)
    | (Ok key_values, iter, ns) =>
        if Nat.eqb (length key_values) 0 && bool_decide (start_key = None) && bool_decide (end_key = None)
        then (Err ApiRangeProofOnEmptyTrie, ns)
        else
          let '(more, ns) := more_pairs limit key_values iter ns in
          let end_proof_key := if more then fst <$> last key_values else end_key in
          (end_proof ← prove_opt end_proof_key;
           mret (mkEdgeProofs start_proof end_proof key_values alg)) ns
    end) : api_op St FrozenRangeProof.

End RangeGeneration.

(** ** Changes *)

Section ChangeGeneration.
Context `{Digests} `{VarInt} {L : Type} `{HashedNodeReader L} {R : Type} `{HashedNodeReader R}.
Context {St : Type} `{ReadableStorage St}.
Variables (alg : NodeHashAlgorithm) (must_recompute : bool) (n fuel : nat).

(** The stream of the differences, cut at the first key above the end key; an empty end key
    stands for no end key. *)
Definition next_change (iter_stop_key : bytes) (self : DiffMerkleNodeStream L R)
  : option (result failure BatchOp) * DiffMerkleNodeStream L R :=
  match next_internal fuel self with
  | (Ok (Some op), self) =>
      if Nat.eqb (length iter_stop_key) 0 || slice_le (op_key op) iter_stop_key then (Some (Ok op), self) else (None, self)
  | (Err e, self) => (Some (Err e), self)
  | (Ok None, self) => (None, self)
  end.

(** At most [limit] changes. *)
Fixpoint take_changes (n : nat) (limit : Z) (iter_stop_key : bytes) (self : DiffMerkleNodeStream L R)
  : result failure (list BatchOp) * DiffMerkleNodeStream L R :=
  match n with
  | O => (Err Diverges, self)
  | S n =>
      if limit =? 0 then (Ok [], self)
      else
        match next_change iter_stop_key self with
        | (None, self) => (Ok [], self)
        | (Some (Err e), self) => (Err e, self)
        | (Some (Ok op), self) =>
            match take_changes n (limit - 1) iter_stop_key self with
            | (Ok l, self) => (Ok (op :: l), self)
            | (Err e, self) => (Err e, self)
            end
        end
  end.

(** [Merkle::change_proof]; [self] is the store that the proofs are read from, as a reader of
    hashed nodes. *)
Definition change_proof (self : R) (start_key end_key : option bytes) (source_trie : L) (limit : option Z) : api_op St FrozenChangeProof :=
  _ ← check_range start_key end_key;
  start_proof ← prove_opt alg must_recompute start_key;
  let iter_stop_key := default [] end_key in
  iter ← api_lift (match DiffMerkleNodeStream_new fuel source_trie self (default [] start_key) with Ok iter => Ok iter | Err e => Err (ApiIO e) end);
  let (r, iter) := take_changes n (default U64_MAX limit) iter_stop_key iter in
  batch_ops ← api_lift (match r with Ok l => Ok l | Err e => Err (ApiIO e) end);
  hit_limit ← api_lift (match (next_change iter_stop_key iter).1 with
                        | Some (Err e) => Err (ApiIO e)
                        | Some (Ok _) => Ok true
                        | None => Ok false
                        end);
  let last_key := op_key <$> last batch_ops in
  let end_proof_key :=
    if (hit_limit : bool) then match last_key with Some k => Some k | None => end_key end
    else match end_key with Some k => Some k | None => last_key end in
  end_proof ← prove_opt alg must_recompute end_proof_key;
  mret (mkEdgeProofs start_proof end_proof batch_ops alg).

End ChangeGeneration.
