(* ===== verification/ProofGenSpec.v ===== *)
(** * What generated proofs hold

    The range proofs and the change proofs that a store makes ([ProofGen]): the pairs, or the
    changes, of the requested range up to the limit, and edge proofs that show what the trie
    holds under their keys. *)

From stdpp Require Import sorting.
From S2P Require Import Prelude Primitives NodePath Node Codec NodeCodec Trie NodeStore Linear Header ChildMask.
From S2P Require Import Merkle MerkleSpec MerkleInsert MerkleRemove TrieCanonical MerkleCorrect Rlp Hashing HashSpec HashHelper HashBinding Placed Iter IterSpec.
From S2P Require Import ProofTypes KeyProof KeyProofSound KeyProofComplete ProofWire Batch RangeProof RangeMarks RangeAccept RangeSound Diff DiffRef DiffSpec DiffCorrect ChangeProof ChangeStructure ProofGen.

(** A limit is a [NonZeroUsize]. *)
Definition limit_ok (limit : option Z) : Prop := forall l, limit = Some l -> 1 <= l <= U64_MAX.

Definition key_ok (key : option bytes) : Prop := forall k, key = Some k -> is_bytes k.

(** ** Cutting a sorted list *)

Section Cut.
Context {A : Type} (key : A -> bytes).

Abbreviation ascending := (StronglySorted (fun a b => slice_lt (key a) (key b))).

Lemma ascending_iff (l : list A) : ascending l <-> StronglySorted slice_lt (key <$> l).
Proof.
  split; [by apply StronglySorted_fmap|]. induction l as [|x l IH]; [constructor|]. rewrite fmap_cons.
  intros [Hl Hx]%StronglySorted_inv. constructor; [by apply IH | by rewrite Forall_fmap in Hx].
Qed.

(** The first [n] items are those up to the last of them. *)
Lemma take_ascending (l : list A) n y x :
  ascending l -> last (take n l) = Some y -> x ∈ take n l <-> x ∈ l /\ slice_le (key x) (key y) = true.
Proof.
  intros Hs Hy. rewrite <- (take_drop n l) in Hs. pose proof (StronglySorted_app_1_l _ _ _ Hs) as Hs1.
  assert (Hyin : y ∈ take n l). { apply last_Some in Hy as [l' ->]. set_solver. }
  split.
  - intros Hx. split; [by apply elem_of_take in Hx as (i & Hi & _); eapply list_elem_of_lookup_2|].
    apply last_Some in Hy as [l' Hl']. rewrite Hl' in Hx, Hs1. apply elem_of_app in Hx as [Hx|Hx%list_elem_of_singleton].
    + apply slice_le_total. by apply (StronglySorted_app_1_elem_of _ _ _ x y Hs1); [|left].
    + subst. apply slice_le_refl.
  - intros [Hx Hle]. rewrite <- (take_drop n l) in Hx. apply elem_of_app in Hx as [Hx|Hx]; [done|].
    pose proof (StronglySorted_app_1_elem_of _ _ _ y x Hs Hyin Hx) as Hc. unfold slice_lt in Hc. cbn in Hc. congruence.
Qed.

(** [covered all items whole limit edge]: [items] are all of what was requested, which ends
    at [whole], or the first ones, up to [edge], if the limit left others out. *)
Definition covered (all items : list A) (whole : option bytes) (limit : option Z) (edge : option bytes) : Prop :=
  (forall l, limit = Some l -> len items <= l) /\
  (items = all /\ edge = whole \/
   exists l z rest, limit = Some l /\ items = take (Z.to_nat l) all /\ drop (Z.to_nat l) all = z :: rest /\ edge = key <$> last items).

Lemma covered_key_ok all items whole limit edge :
  covered all items whole limit edge -> key_ok whole -> (forall x, x ∈ all -> is_bytes (key x)) -> key_ok edge.
Proof.
  intros [_ [[_ ->]|(l & z & rest & _ & -> & _ & ->)]] Hk Hall; [done|]. intros k (x & Hl & ->)%fmap_Some. apply Hall.
  apply last_Some_elem_of, elem_of_take in Hl as (i & Hi & _). by eapply list_elem_of_lookup_2.
Qed.

(** The items are those of the covered range. *)
Lemma covered_exact all items whole limit edge :
  ascending all -> limit_ok limit -> (forall x, x ∈ all -> below_end whole (key x)) -> covered all items whole limit edge ->
  ascending items /\ (forall x, x ∈ items <-> x ∈ all /\ below_end edge (key x)) /\
  (items = all /\ edge = whole \/
   exists y z, last items = Some y /\ edge = Some (key y) /\ limit = Some (len items) /\ z ∈ all /\ slice_lt (key y) (key z)).
Proof.
  intros Hs Hlim Hall [_ [[-> ->]|(l & z & rest & -> & -> & Hd & ->)]].
  { split; [done|]. split; [|by left]. intros x. split; [|tauto]. intros Hx. split; [done | by apply Hall]. }
  specialize (Hlim l eq_refl).
  assert (Hlen : (Z.to_nat l < length all)%nat). { pose proof (length_drop all (Z.to_nat l)) as Hl. rewrite Hd in Hl. cbn [length] in Hl. lia. }
  destruct (last (take (Z.to_nat l) all)) as [y|] eqn:Hy.
  2: { apply last_None, (f_equal length) in Hy. rewrite length_take in Hy. cbn in Hy. lia. }
  pose proof Hs as Hs'. rewrite <- (take_drop (Z.to_nat l) all) in Hs'. split; [by eapply StronglySorted_app_1_l|]. split.
  - intros x. rewrite (take_ascending _ _ _ _ Hs Hy). unfold below_end. cbn. split; (intros [? Hle]; split; [done|]); [by intros ? [= <-] | by apply Hle].
  - right. exists y, z. split_and!; [done | done | rewrite length_take; f_equal; lia | |].
    + rewrite <- (take_drop (Z.to_nat l) all), Hd. apply elem_of_app. right. left.
    + apply (StronglySorted_app_1_elem_of _ _ _ y z Hs'); [by apply last_Some_elem_of | rewrite Hd; left].
Qed.

End Cut.

(** ** Range proofs *)

Section RangeGenerated.
Context {St : Type} `{ReadableStorageLaws St} `{VarIntLaws} `{DigestsLaws}.
Variable alg : NodeHashAlgorithm.
Variable rd : LinearAddress -> option Node.
Variable must_recompute : bool.
Hypothesis plain : is_ethereum alg && must_recompute = false.

(** [take] leaves the iterator before the pairs that it did not return. *)
Lemma take_range_ok n fuel limit st l last ns :
  rstack rd st l -> holds alg rd ns -> (length (take_while (below_last last) (omap kv_pair l)) < n)%nat -> (length l < fuel)%nat -> 0 <= limit ->
  exists it' ns', take_range alg must_recompute fuel n limit (FilteredKeyRangeIter_new (Iterating st) last) ns =
      (Ok (take (Z.to_nat limit) (take_while (below_last last) (omap kv_pair l))), it', ns') /\ recorded alg rd ns [] ns' /\
    ((Z.to_nat limit <= length (take_while (below_last last) (omap kv_pair l)))%nat ->
     exists st' l', it' = FilteredKeyRangeIter_new (Iterating st') last /\ rstack rd st' l' /\ (length l' <= length l)%nat /\
       take_while (below_last last) (omap kv_pair l') = drop (Z.to_nat limit) (take_while (below_last last) (omap kv_pair l))).
Proof.
  revert limit st l ns. induction n as [|n IH]; intros limit st l ns Hst Hh Hn Hf Hl; [lia|].
  cbn [take_range]. destruct (Z.eqb_spec limit 0) as [->|Hne].
  { eexists _, ns. split; [done|]. split; [by apply recorded_refl|]. intros _. by exists st, l. }
  pose proof (filtered_next_ok alg rd must_recompute fuel st l last ns plain Hst Hh Hf) as Hnext.
  destruct (take_while _ (omap kv_pair l)) as [|kv kvs].
  - destruct Hnext as (it' & ns' & -> & Hrec). exists it', ns'. rewrite take_nil. split; [done|]. split; [done|]. cbn. lia.
  - destruct Hnext as (st' & l' & ns' & -> & Hrec & Hst' & <- & Hlen). cbn in Hn.
    destruct (IH (limit - 1) st' l' ns' Hst' (recorded_holds _ _ _ _ _ Hrec)) as (it2 & ns2 & -> & Hrec2 & Hrest); [lia..|].
    replace (Z.to_nat limit) with (S (Z.to_nat (limit - 1))) by lia. exists it2, ns2. split; [done|].
    split; [exact (recorded_trans alg rd ns ns' ns2 [] [] Hrec Hrec2)|]. cbn. intros Hle.
    destruct (Hrest ltac:(lia)) as (st2 & l2 & ? & ? & ? & ?). exists st2, l2. split_and!; [done | done | lia | done].
Qed.

Lemma take_start n fuel limit first last (ns : NodeStore St) st ns' :
  get_iterator_intial_state alg first ns = (Ok (Iterating st), ns') -> limit <> 0 ->
  take_range alg must_recompute (S fuel) (S n) limit (stop_after_key (from_key first) last) ns =
  take_range alg must_recompute (S fuel) (S n) limit (FilteredKeyRangeIter_new (Iterating st) last) ns'.
Proof.
  intros Hi Hl. cbn [take_range]. rewrite (proj2 (Z.eqb_neq _ _) Hl).
  by rewrite (filtered_next_start _ _ _ _ _ _ _ _ Hi).
Qed.

(** What a request is answered from: a hashed trie, in memory or on disk, that holds the map [m]. *)
Record serves (ns : NodeStore St) (t : trie) (m : gmap bytes Value) : Prop := {
  sv_root : exists n, ns_root ns = Some n /\ committed alg rd [] n t;
  sv_holds : holds alg rd ns;
  sv_wf : trie_wf t;
  sv_bytes : byte_trie [] t;
  sv_canonical : canonical t;
  sv_contents : exists L, contents L (Some t) m;
}.

Lemma serves_recorded ns t m ns' : serves ns t m -> recorded alg rd ns [] ns' -> serves ns' t m.
Proof. intros [] (Hh & Hr & _). split; try done. by rewrite Hr. Qed.

Lemma serves_represents ns t m : serves ns t m -> represents alg rd ns (Some t).
Proof.
  intros [(n & Hr & Hc) Hh Hwf _ _ _]. split; [done|]. split; [|by intros u [= <-]]. rewrite Hr. by eapply committed_rnode.
Qed.

(** The nodes that a proof of an edge consists of; without a key there are none. *)
Definition edge_chain (t : trie) (proof : list ProofNode) (key : option bytes) : Prop :=
  match key with
  | None => proof = []
  | Some k => exists found, proof_chain alg must_recompute [] t (nibbles_of k) proof found
  end.

Lemma prove_opt_ok ns t m key :
  serves ns t m -> key_ok key ->
  exists proof ns', prove_opt alg must_recompute key ns = (Ok proof, ns') /\ recorded alg rd ns [] ns' /\ edge_chain t proof key.
Proof.
  intros [(n & Hr & Hc) Hh Hwf _ _ _] Hk. unfold prove_opt, edge_chain. destruct key as [k|].
  - destruct (prove_chain alg rd must_recompute ns n t k Hr Hc Hwf Hh (Hk k eq_refl)) as (proof & ns' & found & -> & Hrec & Hch).
    exists proof, ns'. eauto.
  - exists [], ns. split; [done|]. split; [by apply recorded_refl | done].
Qed.

(** What an edge proof shows under the root hash. *)
Definition edge_shows (t : trie) (m : gmap bytes Value) (proof : list ProofNode) (key : option bytes) : Prop :=
  match key with
  | None => proof = []
  | Some k => proof_value_digest alg proof k (into_triehash (troot_hash alg t)) = Ok (DigestValue <$> m !! k)
  end.

Lemma edge_chain_shows ns t m proof key :
  serves ns t m -> key_ok key -> edge_chain t proof key -> edge_shows t m proof key.
Proof.
  intros [_ _ Hwf Hb _ (L & Hm)] Hk. unfold edge_chain, edge_shows. destruct key as [k|]; [|done]. specialize (Hk k eq_refl).
  intros [found Hch]. rewrite (chain_value_digest _ _ _ _ _ _ Hch Hwf Hb Hk). f_equal.
  destruct (chain_tget _ _ _ _ _ _ _ Hch) as [Hget _]. pose proof (contents_get _ _ _ Hm k Hk) as Hmk. cbn in Hmk.
  rewrite <- Hmk, Hget. destruct found as [[p u]|]; [|done]. cbn. unfold proof_value, settled_value.
  destruct must_recompute; [|done]. by destruct (is_ethereum alg).
Qed.

Lemma above_start_iff start_key k : above_start start_key k <-> slice_le (default [] start_key) k = true.
Proof. unfold above_start. destruct start_key as [s|]; cbn; [split; [by intros Hx; apply Hx | by intros ? ? [= <-]] | by split]. Qed.

Lemma below_end_iff end_key k (v : Value) : below_end end_key k <-> below_last end_key (k, v) = true.
Proof. unfold below_end. destruct end_key as [e|]; cbn; [split; [by intros Hx; apply Hx | by intros ? ? [= <-]] | by split]. Qed.

(** The pairs of the map in the range, in order. *)
Definition in_range_pairs (t : trie) (start_key end_key : option bytes) : list (bytes * Value) :=
  take_while (below_last end_key) (omap kv_pair (nodes_from (default [] start_key) (Some t))).

Lemma in_range_pairs_ok ns t m start_key end_key :
  serves ns t m -> key_ok start_key ->
  StronglySorted (fun a b => slice_lt a.1 b.1) (in_range_pairs t start_key end_key) /\
  (length (nodes_from (default [] start_key) (Some t)) <= 2 * size m)%nat /\
  (length (in_range_pairs t start_key end_key) <= size m)%nat /\
  forall k v, (k, v) ∈ in_range_pairs t start_key end_key <->
    m !! k = Some v /\ above_start start_key k /\ below_end end_key k.
Proof.
  intros [_ _ Hwf _ Hcan (L & Hm)] Hk. assert (Hwf' : forall u, Some t = Some u -> trie_wf u) by (by intros u [= <-]).
  assert (Hb : is_bytes (default [] start_key)) by (destruct start_key; [by apply Hk | constructor]).
  destruct (range_pairs_ok (Some t) m L Hwf' Hm (default [] start_key) end_key Hb) as [Hs Hel].
  split; [done|]. split; [apply (nodes_from_length (Some t) m L); [done | by intros u [= <-] | done]|]. split; [|intros k v; rewrite Hel, above_start_iff, below_end_iff; done].
  rewrite <- length_map_to_list. apply submseteq_length, NoDup_submseteq.
  - by apply (NoDup_fmap_1 fst), sorted_NoDup, (proj1 (ascending_iff fst _)).
  - intros [k v] Hin. apply elem_of_map_to_list. by apply Hel in Hin as [? _].
Qed.

Lemma serves_nonempty ns t m : serves ns t m -> exists k v, m !! k = Some v.
Proof.
  intros [_ _ Hwf _ Hcan (L & Hm)]. destruct (canonical_nonempty t Hwf Hcan) as (k & x & Hk & Hx).
  assert (Hp : is_path (tpath t ++ k)). { apply is_path_app. split; [|done]. destruct t. by apply trie_wf_inv in Hwf as [? _]. }
  destruct (contents_keys _ _ _ Hm _ _ Hp Hx) as (b & Hb & Heq). exists b, x. rewrite <- (contents_get _ _ _ Hm b Hb). by rewrite <- Heq.
Qed.

Lemma more_pairs_ok fuel limit all end_key it ns :
  let lim := Z.to_nat (default U64_MAX limit) in
  limit_ok limit -> len all <= U64_MAX -> holds alg rd ns ->
  ((lim <= length all)%nat -> exists st l, it = FilteredKeyRangeIter_new (Iterating st) end_key /\ rstack rd st l /\ (length l < fuel)%nat /\
     take_while (below_last end_key) (omap kv_pair l) = drop lim all) ->
  exists more ns', more_pairs alg must_recompute fuel limit (take lim all) it ns = (more, ns') /\ recorded alg rd ns [] ns' /\
    covered fst all (take lim all) end_key limit (if more then fst <$> last (take lim all) else end_key).
Proof.
  intros lim Hlim Hlen Hh Hrest. unfold more_pairs, covered.
  assert (Hmax : forall l, limit = Some l -> len (take lim all) <= l).
  { intros l ->. specialize (Hlim l eq_refl). rewrite length_take. subst lim. cbn. lia. }
  destruct limit as [l|]; cbn [default id] in lim.
  2: { exists false, ns. split; [done|]. split; [by apply recorded_refl|]. split; [done|]. left. split; [|done]. apply take_ge. lia. }
  specialize (Hlim l eq_refl). rewrite length_take in Hmax |- *. destruct (Z.leb_spec l (Z.of_nat (Nat.min lim (length all)))) as [Hle|Hgt].
  2: { exists false, ns. split; [done|]. split; [by apply recorded_refl|]. split; [done|]. left. split; [|done]. apply take_ge. lia. }
  destruct (Hrest ltac:(lia)) as (st & r & -> & Hst & Hf & Hr).
  pose proof (filtered_next_ok alg rd must_recompute fuel st r end_key ns plain Hst Hh Hf) as Hnext. rewrite Hr in Hnext.
  destruct (drop lim all) as [|z rest] eqn:Hd.
  - destruct Hnext as (it' & ns' & -> & Hrec). exists false, ns'. split; [done|]. split; [done|]. split; [done|]. left. split; [|done].
    rewrite <- (take_drop lim all) at 2. by rewrite Hd, app_nil_r.
  - destruct Hnext as (st' & r' & ns' & -> & Hrec & _). exists true, ns'. split; [done|]. split; [done|]. split; [done|]. right. by exists l, z, rest.
Qed.

Lemma range_proof_run ns t m start_key end_key limit n fuel :
  serves ns t m -> key_ok start_key -> key_ok end_key -> limit_ok limit ->
  (forall s e, start_key = Some s -> end_key = Some e -> slice_le s e = true) ->
  Z.of_nat (size m) <= U64_MAX -> (2 * size m < n)%nat -> (2 * size m < fuel)%nat ->
  exists proof ns' edge,
    range_proof alg must_recompute n fuel start_key end_key limit ns = (Ok proof, ns') /\ recorded alg rd ns [] ns' /\
    hash_mode proof = alg /\ covered fst (in_range_pairs t start_key end_key) (contents_of proof) end_key limit edge /\
    edge_chain t (start_proof proof) start_key /\ edge_chain t (end_proof proof) edge.
Proof.
  intros Hs Hks Hke Hlim Hse Hsize Hn Hf.
  destruct (in_range_pairs_ok ns t m start_key end_key Hs Hks) as (Hsort & Hnodes & Hlen & Hel).
  set (first := default [] start_key) in *. set (all := in_range_pairs t start_key end_key) in *.
  assert (Hfirst : is_bytes first) by (unfold first; destruct start_key; [by apply Hks | constructor]).
  assert (Hcheck : forall ns' : NodeStore St, check_range start_key end_key ns' = (Ok tt, ns')).
  { intros ns'. unfold check_range, slice_ltb. destruct start_key as [s|], end_key as [e|]; try done. by rewrite (Hse s e). }
  destruct (prove_opt_ok ns t m start_key Hs Hks) as (sp & ns1 & Hsp & Hrec1 & Hsch).
  pose proof (serves_recorded _ _ _ _ Hs Hrec1) as Hs1.
  destruct (initial_state_ok alg rd ns1 (Some t) first (serves_represents _ _ _ Hs1) Hfirst) as (st & ns2 & Hi & Hrec2 & Hst).
  set (lim := default U64_MAX limit). assert (Hlim' : 1 <= lim <= U64_MAX).
  { unfold lim. destruct limit as [l|]; [by apply Hlim | cbn; unfold U64_MAX; lia]. }
  assert (Htk := fun H1 H2 => take_range_ok n fuel lim st (nodes_from first (Some t)) end_key ns2 Hst (recorded_holds _ _ _ _ _ Hrec2) H1 H2 ltac:(lia)).
  change (take_while (below_last end_key) (omap kv_pair (nodes_from first (Some t)))) with all in Htk.
  destruct (Htk ltac:(lia) ltac:(lia)) as (it & ns3 & Htake & Hrec3 & Hrest). clear Htk.
  assert (Hstart : take_range alg must_recompute fuel n lim (stop_after_key (from_key first) end_key) ns1 =
    take_range alg must_recompute fuel n lim (FilteredKeyRangeIter_new (Iterating st) end_key) ns2).
  { destruct n as [|n], fuel as [|fuel]; [lia..|]. apply take_start; [done | lia]. }
  assert (Hsome : Nat.eqb (length (take (Z.to_nat lim) all)) 0 && bool_decide (start_key = None) && bool_decide (end_key = None) = false).
  { apply andb_false_iff. destruct (decide (start_key = None)) as [Es|]; [|left; rewrite andb_comm, bool_decide_false; done].
    destruct (decide (end_key = None)) as [Ee|]; [|right; by rewrite bool_decide_false]. left. apply andb_false_iff. left.
    destruct (serves_nonempty _ _ _ Hs) as (k & v & Hkv). apply Nat.eqb_neq. rewrite length_take.
    assert (Hin : (k, v) ∈ all) by (apply Hel; by rewrite Es, Ee).
    destruct all; [by apply not_elem_of_nil in Hin | cbn; lia]. }
  destruct (more_pairs_ok fuel limit all end_key it ns3 Hlim ltac:(lia) (recorded_holds _ _ _ _ _ Hrec3)) as (more & ns4 & Hnext & Hrec4 & Hcov).
  { intros Hle. destruct (Hrest Hle) as (st' & l' & ? & ? & ? & ?). exists st', l'. split_and!; [done | done | lia | done]. }
  fold lim in Hnext, Hcov. set (pairs := take (Z.to_nat lim) all) in *. set (edge := if more then _ else _) in Hcov.
  assert (Hs4 : serves ns4 t m). { eapply serves_recorded; [|exact Hrec4]. eapply serves_recorded; [|exact Hrec3]. by eapply serves_recorded. }
  destruct (prove_opt_ok ns4 t m edge Hs4) as (ep & ns5 & Hep & Hrec5 & Hech).
  { eapply (covered_key_ok fst); [done | done|]. intros [k v] [Hkv _]%Hel. destruct Hs as [_ _ _ _ _ (L & Hm)]. by apply (contents_bytes _ _ _ Hm k v). }
  exists (mkEdgeProofs sp ep pairs alg), ns5, edge.
  unfold range_proof. unfold mbind, api_bind. rewrite Hcheck, Hsp. fold first lim. rewrite Hstart, Htake, Hsome, Hnext. fold edge. rewrite Hep.
  split_and!; try done. apply (recorded_trans alg rd ns ns1 ns5 [] []); [done|]. apply (recorded_trans alg rd ns1 ns2 ns5 [] []); [done|].
  apply (recorded_trans alg rd ns2 ns3 ns5 [] []); [done|]. by apply (recorded_trans alg rd ns3 ns4 ns5 [] []).
Qed.

(** The pairs of the covered range are those of the map. *)
Lemma covered_pairs ns t m start_key end_key limit pairs edge :
  serves ns t m -> key_ok start_key -> limit_ok limit -> covered fst (in_range_pairs t start_key end_key) pairs end_key limit edge ->
  StronglySorted (fun a b => slice_lt a.1 b.1) pairs /\
  (forall k v, (k, v) ∈ pairs <-> m !! k = Some v /\ above_start start_key k /\ below_end edge k) /\
  (edge = end_key \/ exists y z, last pairs = Some y /\ edge = Some y.1 /\ limit = Some (len pairs) /\
     m !! z.1 = Some z.2 /\ below_end end_key z.1 /\ slice_lt y.1 z.1).
Proof.
  intros Hs Hk Hlim Hcov. destruct (in_range_pairs_ok ns t m start_key end_key Hs Hk) as (Hsort & _ & _ & Hel).
  destruct (covered_exact fst _ _ _ _ _ Hsort Hlim ltac:(intros [k v] (_ & _ & ?)%Hel; done) Hcov) as (Hp & Hin & Hcut). split; [done|]. split.
  - intros k v. rewrite Hin, Hel. cbn. split; [tauto|]. intros (Hm & Hst & He). split_and!; [done | done | | done].
    destruct Hcut as [[_ <-]|(y & [zk zv] & Hy & -> & _ & (_ & _ & Hz)%Hel & Hlt)]; [done|]. intros e ->. cbn in *.
    eapply slice_le_trans; [by apply He|]. eapply slice_le_trans; [apply slice_le_total, Hlt | by apply Hz].
  - destruct Hcut as [[_ ->]|(y & [zk zv] & Hy & -> & -> & (Hz & _ & Hb)%Hel & Hlt)]; [by left|]. right. by exists y, (zk, zv).
Qed.

End RangeGenerated.

(** ** Changes *)

Section ChangeStream.
Context `{Digests} `{VarInt} {LT RT : Type} `{HashedNodeReader LT} `{HashedNodeReader RT}.

(** The test of the stop key. *)
Definition within_stop (stop : bytes) (op : BatchOp) : bool := Nat.eqb (length stop) 0 || slice_le (op_key op) stop.

Lemma within_stop_down stop a b : slice_lt (op_key a) (op_key b) -> within_stop stop b = true -> within_stop stop a = true.
Proof.
  unfold within_stop. intros Hab. rewrite !orb_true_iff. intros [?|Hb]; [by left|]. right.
  eapply slice_le_trans; [by apply slice_le_total | done].
Qed.

Lemma next_change_ok fuel stop (stream : DiffMerkleNodeStream LT RT) ops :
  yields (S fuel) stream ops -> StronglySorted slice_lt (op_key <$> ops) ->
  match take_while (within_stop stop) ops with
  | [] => exists stream', next_change (S fuel) stop stream = (None, stream') /\ (next_change (S fuel) stop stream').1 = None
  | op :: _ => exists stream' ops', next_change (S fuel) stop stream = (Some (Ok op), stream') /\ ops = op :: ops' /\ yields (S fuel) stream' ops'
  end.
Proof.
  intros Hy Hs. unfold next_change. destruct ops as [|op ops]; cbn [take_while yields] in *.
  - destruct Hy as (stream' & -> & Hend). exists stream'. split; [done|]. cbn [next_internal]. by rewrite Hend.
  - destruct Hy as (stream' & -> & Hy). fold (within_stop stop op). destruct (within_stop stop op) eqn:Hw; [by exists stream', ops|].
    exists stream'. split; [done|]. destruct ops as [|op2 ops]; [by destruct Hy as (? & -> & _)|]. destruct Hy as (? & -> & _).
    fold (within_stop stop op2). destruct (within_stop stop op2) eqn:Hw2; [|done]. rewrite !fmap_cons in Hs. apply StronglySorted_inv in Hs as [_ Hs].
    apply Forall_cons in Hs as [Hs _]. by rewrite (within_stop_down stop op op2 Hs Hw2) in Hw.
Qed.

Lemma take_changes_ok n fuel limit stop (stream : DiffMerkleNodeStream LT RT) ops :
  yields (S fuel) stream ops -> StronglySorted slice_lt (op_key <$> ops) -> (length ops < n)%nat -> 0 <= limit ->
  exists stream', take_changes (S fuel) n limit stop stream = (Ok (take (Z.to_nat limit) (take_while (within_stop stop) ops)), stream') /\
    (next_change (S fuel) stop stream').1 = Ok <$> head (drop (Z.to_nat limit) (take_while (within_stop stop) ops)).
Proof.
  revert limit stream ops. induction n as [|n IH]; intros limit stream ops Hy Hs Hn Hl; [lia|]. cbn [take_changes].
  pose proof (next_change_ok fuel stop stream ops Hy Hs) as Hnext. destruct (Z.eqb_spec limit 0) as [->|Hne].
  { exists stream. split; [done|]. cbn [Z.to_nat drop]. destruct (take_while _ ops) as [|op l]; [by destruct Hnext as (? & -> & _) | by destruct Hnext as (? & ? & -> & _)]. }
  destruct (take_while _ ops) as [|op l] eqn:Ht.
  - destruct Hnext as (stream' & -> & Hend). exists stream'. by rewrite take_nil, drop_nil.
  - destruct Hnext as (stream' & ops' & -> & -> & Hy'). cbn [take_while] in Ht. destruct (within_stop stop op); [|done]. injection Ht as <-.
    rewrite fmap_cons in Hs. apply StronglySorted_inv in Hs as [Hs _].
    destruct (IH (limit - 1) stream' ops' Hy' Hs) as (stream2 & -> & Hmore); [cbn in Hn; lia | lia|].
    exists stream2. replace (Z.to_nat limit) with (S (Z.to_nat (limit - 1))) by lia. split; [done | exact Hmore].
Qed.

End ChangeStream.

Section ChangeGenerated.
Context {St : Type} `{ReadableStorageLaws St} `{VarIntLaws} `{DigestsLaws} {LT : Type} `{HashedNodeReader LT}.
Variables (lrd rd : LinearAddress -> option Node) (must_recompute : bool).
Variables (source : LT) (lt : option trie) (lm : gmap bytes Value) (L : nat).

(** The changes of the requested range, and where they end. *)
Definition in_range_ops (t : trie) (start_key end_key : option bytes) : list BatchOp :=
  take_while (within_stop (default [] end_key)) (diff_list lt (Some t) (default [] start_key)).

Definition ops_end (ops : list BatchOp) (end_key : option bytes) : option bytes :=
  match end_key with Some k => Some k | None => op_key <$> last ops end.

(** A store that serves the changes from the source. *)
Definition serves_changes (ns : NodeStore St) (h : option TrieHash) (t : trie) (m : gmap bytes Value) : Prop :=
  serves MerkleDB rd ns t m /\ diffable lrd rd source (mkHashedStore ns h) lt (Some t) lm m L.

Lemma in_range_ops_ok ns h t m start_key end_key :
  serves_changes ns h t m -> key_ok start_key -> end_key <> Some [] ->
  StronglySorted slice_lt (op_key <$> in_range_ops t start_key end_key) /\
  (forall op, op ∈ in_range_ops t start_key end_key <-> op_spec (default [] start_key) lm m op /\ below_end end_key (op_key op)) /\
  forall op, op ∈ in_range_ops t start_key end_key -> is_bytes (op_key op).
Proof.
  intros [Hs Hd] Hk Hne. assert (Hb : is_bytes (default [] start_key)) by (destruct start_key; [by apply Hk | constructor]).
  destruct (diff_list_ok lrd rd source _ lt (Some t) lm m L (default [] start_key) Hd Hb) as [Hsort Hspec]. unfold in_range_ops.
  assert (Hsort' : StronglySorted (fun a b => slice_lt (op_key a) (op_key b)) (diff_list lt (Some t) (default [] start_key))).
  { by apply (ascending_iff op_key). }
  assert (Hel : forall op, op ∈ take_while (within_stop (default [] end_key)) (diff_list lt (Some t) (default [] start_key)) <->
    op_spec (default [] start_key) lm m op /\ below_end end_key (op_key op)).
  { intros op. rewrite (elem_of_take_while_sorted (fun a b => slice_lt (op_key a) (op_key b))), Hspec; [|done | intros a b; apply within_stop_down].
    apply and_iff_compat_l. rewrite (below_end_iff _ _ []). unfold within_stop. destruct end_key as [[|x e]|]; [done | by cbn | by cbn]. }
  split; [|split; [done|]].
  - by apply (proj1 (ascending_iff op_key _)), (StronglySorted_take_while (fun a b => slice_lt (op_key a) (op_key b))).
  - intros op [Ho _]%Hel. destruct Hd as [_ _ Hlm Hrm _]. destruct op as [k v|k|]; cbn in *; [| |done].
    + destruct Ho as (Hm & _). by apply (contents_bytes _ _ _ Hrm k v).
    + destruct Ho as ([v Hm] & _). by apply (contents_bytes _ _ _ Hlm k v).
Qed.

Lemma change_proof_run ns h t m start_key end_key limit n fuel :
  serves_changes ns h t m -> key_ok start_key -> key_ok end_key -> end_key <> Some [] -> limit_ok limit ->
  (forall s e, start_key = Some s -> end_key = Some e -> slice_le s e = true) ->
  len (diff_list lt (Some t) (default [] start_key)) <= U64_MAX ->
  (length (diff_list lt (Some t) (default [] start_key)) < n)%nat ->
  (2 * (length (nodes_of lt) + length (nodes_of (Some t))) + 2 <= fuel)%nat ->
  exists proof ns' edge,
    change_proof MerkleDB must_recompute n fuel (mkHashedStore ns h) start_key end_key source limit ns = (Ok proof, ns') /\ recorded MerkleDB rd ns [] ns' /\
    hash_mode proof = MerkleDB /\
    covered op_key (in_range_ops t start_key end_key) (contents_of proof) (ops_end (in_range_ops t start_key end_key) end_key) limit edge /\
    edge_chain MerkleDB must_recompute t (start_proof proof) start_key /\ edge_chain MerkleDB must_recompute t (end_proof proof) edge.
Proof.
  intros Hsc Hks Hke Hne Hlim Hse Hmax Hn Hf. pose proof Hsc as [Hs Hd].
  assert (Hb : is_bytes (default [] start_key)) by (destruct start_key; [by apply Hks | constructor]).
  destruct (in_range_ops_ok _ _ _ _ start_key end_key Hsc Hks Hne) as (Hsort & Hel & Hkeys).
  destruct (diff_list_ok lrd rd source _ lt (Some t) lm m L (default [] start_key) Hd Hb) as [Hsort' _].
  destruct (prove_opt_ok MerkleDB rd must_recompute ns t m start_key Hs Hks) as (sp & ns1 & Hsp & Hrec1 & Hsch).
  destruct (diff_opens lrd rd source _ lt (Some t) lm m L fuel (default [] start_key) Hd Hb Hf) as (stream & Hopen & Hy).
  destruct fuel as [|fuel]; [lia|]. set (lim := default U64_MAX limit). assert (Hlim' : 1 <= lim <= U64_MAX).
  { unfold lim. destruct limit as [l|]; [by apply Hlim | cbn; unfold U64_MAX; lia]. }
  destruct (take_changes_ok n fuel lim (default [] end_key) stream _ Hy Hsort' Hn ltac:(lia)) as (stream' & Htake & Hmore).
  fold (in_range_ops t start_key end_key) in Htake, Hmore. set (all := in_range_ops t start_key end_key) in *.
  assert (Hcheck : forall ns' : NodeStore St, check_range start_key end_key ns' = (Ok tt, ns')).
  { intros ns'. unfold check_range, slice_ltb. destruct start_key as [s|], end_key as [e|]; try done. by rewrite (Hse s e). }
  unfold change_proof. unfold mbind, api_bind. rewrite Hcheck, Hsp. cbn. rewrite Hopen. fold lim. rewrite Htake.
  set (ops := take (Z.to_nat lim) all) in *. pose proof (serves_recorded _ _ _ _ _ _ Hs Hrec1) as Hs1.
  assert (Hlast : key_ok (op_key <$> last ops)).
  { intros k (op & Hl & ->)%fmap_Some. apply Hkeys. apply last_Some_elem_of, elem_of_take in Hl as (i & Hi & _). by eapply list_elem_of_lookup_2. }
  assert (Hall : (length all <= length (diff_list lt (Some t) (default [] start_key)))%nat) by apply take_while_length.
  assert (Hmaxlen : forall l, limit = Some l -> len ops <= l).
  { intros l ->. unfold ops, lim. cbn [default id]. specialize (Hlim l eq_refl). rewrite length_take. lia. }
  destruct (drop (Z.to_nat lim) all) as [|z rest] eqn:Hdrop; cbn [head fmap option_fmap option_map] in Hmore; rewrite Hmore.
  - assert (Hops : ops = all) by (unfold ops; rewrite <- (take_drop (Z.to_nat lim) all) at 2; by rewrite Hdrop, app_nil_r).
    destruct (prove_opt_ok MerkleDB rd must_recompute ns1 t m (ops_end ops end_key) Hs1) as (ep & ns2 & Hep & Hrec2 & Hech).
    { unfold ops_end. by destruct end_key. }
    unfold ops_end in Hep. rewrite Hep. exists (mkEdgeProofs sp ep ops MerkleDB), ns2, (ops_end ops end_key).
    split_and!; try done; [by apply (recorded_trans _ _ ns ns1 ns2 [] [])|]. split; [done|]. left. by rewrite <- Hops.
  - destruct limit as [l|]; [|apply (f_equal length) in Hdrop; rewrite length_drop in Hdrop; cbn [length] in Hdrop; unfold lim in *; cbn [default id] in *; lia].
    destruct (last ops) as [op|] eqn:Hl.
    2: { apply last_None, (f_equal length) in Hl. unfold ops in Hl. rewrite length_take in Hl. apply (f_equal length) in Hdrop.
         rewrite length_drop in Hdrop. cbn [length] in *. lia. }
    destruct (prove_opt_ok MerkleDB rd must_recompute ns1 t m (Some (op_key op)) Hs1 ltac:(exact Hlast)) as (ep & ns2 & Hep & Hrec2 & Hech).
    cbn [fmap option_fmap option_map]. rewrite Hep. exists (mkEdgeProofs sp ep ops MerkleDB), ns2, (Some (op_key op)).
    split_and!; try done; [by apply (recorded_trans _ _ ns ns1 ns2 [] [])|]. split; [done|]. right. exists l, z, rest.
    split_and!; [done | done | done | cbn [contents_of]; by rewrite Hl].
Qed.

(** A chain shows no value that the trie does not hold. *)
Lemma edge_chain_present ns t m nodes k key root d :
  serves MerkleDB rd ns t m -> edge_chain MerkleDB must_recompute t nodes (Some k) -> is_bytes key ->
  proof_value_digest MerkleDB nodes key root = Ok (Some d) -> is_Some (m !! key).
Proof.
  intros [_ _ Hwf _ _ (L' & Hm)] [found Hch] Hkey (l & Hl & _ & Hc)%proof_value_digest_Ok; [|done].
  destruct (chain_node _ _ _ _ _ _ _ Hch l ltac:(by apply last_Some_elem_of)) as (q & p & u & -> & Hq & Hn).
  destruct (node_at_get _ _ _ Hwf Hn) as (_ & Hget & _).
  unfold conclusion in Hc. case_bool_decide as Hfull; [|destruct (next_nibble _ _); [by case_bool_decide | done]].
  rewrite <- (contents_get _ _ _ Hm key Hkey), <- Hfull. cbn [full_path ProofNode_Hashable pn_key proof_node otget mbind option_bind]. rewrite Hq. cbn. rewrite Hget.
  cbn in Hc. unfold proof_value, settled_value in Hc. cbn [is_ethereum andb] in Hc. destruct (tval u); [done|]. by destruct must_recompute.
Qed.

(** An edge proof agrees with the operations. *)
Lemma edge_shows_ok ops key0 t m nodes key :
  (forall op, op ∈ ops -> op_spec key0 lm m op) -> edge_shows MerkleDB t m nodes (Some key) ->
  edge_ok MerkleDB nodes key (into_triehash (troot_hash MerkleDB t)) ops.
Proof.
  intros Hops Hsh. eexists. split; [right; exact Hsh|]. intros op Hop%Hops <-. destruct op as [k v|k|]; cbn in *; [| |done].
  - destruct Hop as (-> & _). split; [by eexists | done].
  - destruct Hop as (_ & -> & _). by split.
Qed.

(** The operations of the covered range are those of the difference. *)
Lemma covered_ops ns h t m start_key end_key limit ops edge :
  serves_changes ns h t m -> key_ok start_key -> end_key <> Some [] -> key_ok end_key -> limit_ok limit ->
  covered op_key (in_range_ops t start_key end_key) ops (ops_end (in_range_ops t start_key end_key) end_key) limit edge ->
  StronglySorted slice_lt (op_key <$> ops) /\ key_ok edge /\ (forall op, op ∈ ops -> is_bytes (op_key op)) /\
  (forall op, op ∈ ops <-> op_spec (default [] start_key) lm m op /\ below_end end_key (op_key op) /\ below_end edge (op_key op)) /\
  ((edge = op_key <$> last ops /\ (end_key = None \/ is_Some (last ops))) \/ exists k, end_key = Some k /\ edge = Some k).
Proof.
  intros Hsc Hks Hne Hke Hlim Hcov. destruct (in_range_ops_ok _ _ _ _ start_key end_key Hsc Hks Hne) as (Hsort & Hel & Hkeys).
  set (all := in_range_ops t start_key end_key) in *.
  assert (Hwhole : forall op, op ∈ all -> below_end (ops_end all end_key) (op_key op)).
  { intros op Hop. unfold ops_end. destruct end_key as [k|]; [by apply Hel|]. intros k (y & Hy & ->)%fmap_Some. by eapply ops_ascending_last. }
  destruct (covered_exact op_key _ _ _ _ _ (proj2 (ascending_iff op_key _) Hsort) Hlim Hwhole Hcov) as (Hsorted & Hin & Hcut).
  split_and!; [by apply (proj1 (ascending_iff op_key _)) | | intros op [Hop _]%Hin; by apply Hkeys | |].
  - eapply (covered_key_ok op_key); [exact Hcov | | exact Hkeys]. unfold ops_end. destruct end_key; [done|].
    intros k (y & Hy & ->)%fmap_Some. apply Hkeys. by apply last_Some_elem_of.
  - intros op. rewrite Hin, Hel. tauto.
  - destruct Hcut as [[-> ->]|(y & z & -> & -> & _)]; [|left; by split; [|right; eexists]]. unfold ops_end. destruct end_key; [right; eauto | left; auto].
Qed.

(** The edge is where the request ends, unless the limit left differences out. *)
Lemma covered_cut ns h t m start_key end_key limit ops edge :
  serves_changes ns h t m -> key_ok start_key -> end_key <> Some [] -> limit_ok limit ->
  covered op_key (in_range_ops t start_key end_key) ops (ops_end (in_range_ops t start_key end_key) end_key) limit edge ->
  (forall op, op_spec (default [] start_key) lm m op -> below_end end_key (op_key op) -> op ∈ ops) /\
    edge = match end_key with Some k => Some k | None => op_key <$> last ops end \/
  limit = Some (len ops) /\ edge = op_key <$> last ops /\ is_Some edge /\
    exists op, op_spec (default [] start_key) lm m op /\ below_end end_key (op_key op) /\ op ∉ ops.
Proof.
  intros Hsc Hks Hne Hlim Hcov. destruct (in_range_ops_ok _ _ _ _ start_key end_key Hsc Hks Hne) as (Hsort & Hel & _).
  set (all := in_range_ops t start_key end_key) in *.
  assert (Hwhole : forall op, op ∈ all -> below_end (ops_end all end_key) (op_key op)).
  { intros op Hop. unfold ops_end. destruct end_key as [k|]; [by apply Hel|]. intros k (y & Hy & ->)%fmap_Some. by eapply ops_ascending_last. }
  destruct (covered_exact op_key _ _ _ _ _ (proj2 (ascending_iff op_key _) Hsort) Hlim Hwhole Hcov) as (_ & Hin & [[-> ->]|(y & z & Hy & -> & Hl & Hz & Hlt)]).
  - left. split; [|done]. intros op Hop Hb. by apply Hel.
  - right. rewrite Hy. split_and!; [done | done | by eexists|]. exists z. split_and!; [by apply Hel in Hz as [? _] | by apply Hel in Hz as [_ ?]|].
    intros [_ Hb]%Hin. specialize (Hb _ eq_refl). unfold slice_lt in Hlt. congruence.
Qed.

(** The right edge that the verifier computes is proven by the end proof. *)
Lemma right_edge_shown ns h t m start_key end_key limit proof edge e :
  serves_changes ns h t m -> key_ok start_key -> end_key <> Some [] -> key_ok end_key -> limit_ok limit ->
  covered op_key (in_range_ops t start_key end_key) (contents_of proof) (ops_end (in_range_ops t start_key end_key) end_key) limit edge ->
  edge_chain MerkleDB must_recompute t (end_proof proof) edge ->
  compute_right_edge_key MerkleDB proof (into_triehash (troot_hash MerkleDB t)) (op_key <$> last (contents_of proof)) end_key = Some e ->
  edge_ok MerkleDB (end_proof proof) e (into_triehash (troot_hash MerkleDB t)) (contents_of proof).
Proof.
  intros Hsc Hks Hne Hke Hlim Hcov Hch. pose proof Hsc as [Hs _].
  destruct (covered_ops _ _ _ _ _ _ _ _ _ Hsc Hks Hne Hke Hlim Hcov) as (_ & Hkok & Hkeys & Hin & Hedge). set (ops := contents_of proof) in *.
  assert (Hspec : forall op, op ∈ ops -> op_spec (default [] start_key) lm m op) by (by intros op [Hop _]%Hin).
  assert (Hshow : forall k, edge = Some k -> edge_ok MerkleDB (end_proof proof) k (into_triehash (troot_hash MerkleDB t)) ops).
  { intros k ->. eapply edge_shows_ok; [exact Hspec|]. by eapply (edge_chain_shows MerkleDB rd must_recompute ltac:(done)). }
  unfold compute_right_edge_key. fold ops. destruct (last ops) as [l|] eqn:Hl; cbn [fmap option_fmap option_map] in *.
  2: { intros ->. apply Hshow. destruct Hedge as [[_ [?|[? ?]]]|(k & [= <-] & ->)]; done. }
  assert (Hlin : l ∈ ops) by (by apply last_Some_elem_of). pose proof (Hspec l Hlin) as Hsl.
  destruct Hedge as [[-> _]|(k & -> & ->)].
  - pose proof (edge_chain_shows MerkleDB rd must_recompute ltac:(done) ns t m _ _ Hs Hkok Hch) as Hsh. cbn in Hsh. rewrite Hsh.
    destruct l as [x v|x|]; cbn in Hsl |- *; [| |done]; [destruct Hsl as (-> & _) | destruct Hsl as (_ & -> & _)]; intros [= <-]; by apply Hshow.
  - destruct (proof_value_digest _ _ (op_key l) _) as [[d|]|x] eqn:Hd; [| |intros [= <-]; by apply Hshow].
    + intros [= <-]. destruct (edge_chain_present ns t m _ k _ _ d Hs Hch ltac:(by apply Hkeys) Hd) as [v Hv].
      exists (Some d). split; [by right|]. intros op Hop%Hspec Hk. split; [by eexists|]. destruct op; cbn in *; try done. destruct Hop as (_ & Hno & _). congruence.
    + destruct (is_delete l) eqn:Hdel; intros [= <-]; [|by apply Hshow]. exists None. split; [by right|]. intros op Hop%Hspec Hk. split; [|done].
      destruct l as [|x|]; try done. destruct op; cbn in *; try done. destruct Hsl as (_ & Hno & _), Hop as (Hyes & _). congruence.
Qed.

Lemma edge_chain_empty t nodes key : edge_chain MerkleDB must_recompute t nodes key -> nodes = [] <-> key = None.
Proof. destruct key as [k|]; cbn; [|by split]. intros [found Hch]. destruct (chain_head _ _ _ _ _ _ _ Hch) as [rest ->]. by split. Qed.

(** C9: change proofs are made right, under MerkleDB.  From two hashed tries, provided that SHA-256 does not collide on
    the strings that were hashed for them, [change_proof] makes a proof that holds exactly the differences of the two maps
    from the start key to the right edge, in ascending order and at most as many as the limit allows.  If
    these are all differences up to the end key, the right edge is the end key, or without one the key of the last difference.
    Otherwise there are as many as the limit allows, and the right edge is the key of the last one.
    The edge proofs show what the new map holds under the start key and the right edge;
    and the structure of the proof is accepted under the root hash of the new trie.  The end key must not be before the start key nor
    be the empty key, which the code takes for no end key. *)
Theorem change_proof_exact ns h t m start_key end_key limit n fuel :
  serves_changes ns h t m -> key_ok start_key -> key_ok end_key -> end_key <> Some [] -> limit_ok limit ->
  (forall s e, start_key = Some s -> end_key = Some e -> slice_le s e = true) ->
  len (diff_list lt (Some t) (default [] start_key)) <= U64_MAX ->
  (length (diff_list lt (Some t) (default [] start_key)) < n)%nat ->
  (2 * (length (nodes_of lt) + length (nodes_of (Some t))) + 2 <= fuel)%nat ->
  exists proof ns' edge ctx,
    change_proof MerkleDB must_recompute n fuel (mkHashedStore ns h) start_key end_key source limit ns = (Ok proof, ns') /\
    recorded MerkleDB rd ns [] ns' /\ StronglySorted slice_lt (op_key <$> contents_of proof) /\
    (forall op, op ∈ contents_of proof <-> op_spec (default [] start_key) lm m op /\ below_end end_key (op_key op) /\ below_end edge (op_key op)) /\
    ((forall op, op_spec (default [] start_key) lm m op -> below_end end_key (op_key op) -> op ∈ contents_of proof) /\
       edge = match end_key with Some k => Some k | None => op_key <$> last (contents_of proof) end \/
     limit = Some (len (contents_of proof)) /\ edge = op_key <$> last (contents_of proof) /\ is_Some edge /\
       exists op, op_spec (default [] start_key) lm m op /\ below_end end_key (op_key op) /\ op ∉ contents_of proof) /\
    edge_shows MerkleDB t m (start_proof proof) start_key /\ edge_shows MerkleDB t m (end_proof proof) edge /\
    verify_change_proof_structure MerkleDB proof (into_triehash (troot_hash MerkleDB t)) start_key end_key limit = Ok ctx.
Proof.
  intros Hsc Hks Hke Hne Hlim Hse Hmax Hn Hf. pose proof Hsc as [Hs _].
  destruct (change_proof_run ns h t m start_key end_key limit n fuel Hsc Hks Hke Hne Hlim Hse Hmax Hn Hf)
    as (proof & ns' & edge & Hrun & Hrec & Hmode & Hcov & Hsp & Hep).
  destruct (covered_ops _ _ _ _ _ _ _ _ _ Hsc Hks Hne Hke Hlim Hcov) as (Hsort & Hkok & Hkeys & Hin & Hedge).
  assert (Hspec : forall op, op ∈ contents_of proof -> op_spec (default [] start_key) lm m op) by (by intros op [Hop _]%Hin).
  eexists proof, ns', edge, _. split_and!; try done; [by apply (covered_cut ns h t)
    | by eapply (edge_chain_shows MerkleDB rd must_recompute ltac:(done)) | by eapply (edge_chain_shows MerkleDB rd must_recompute ltac:(done)) |].
  apply structure_accepts. split; [|reflexivity]. split_and!; [done | apply Hcov | done | | | | |].
  - apply (edge_chain_empty _ _ _ Hsp).
  - rewrite (edge_chain_empty _ _ _ Hep). destruct Hedge as [[-> Hor]|(k & -> & ->)]; [|by split; [|intros [_ ?]]].
    rewrite fmap_None, last_None. split; [|tauto]. intros Hnil. split; [done|]. destruct Hor as [?|[? Hx]]; [done|]. by rewrite Hnil in Hx.
  - split_and!; [|done|]; apply Forall_forall; intros op Hop.
    + apply Hspec in Hop. by destruct op.
    + split; [|by apply Hin]. apply above_start_iff. apply Hspec in Hop. destruct op; cbn in *; [| |done]; by destruct Hop as (_ & _ & ?).
  - intros s ->. eapply edge_shows_ok; [exact Hspec|]. by eapply (edge_chain_shows MerkleDB rd must_recompute ltac:(done)).
  - intros e He. eapply right_edge_shown; [exact Hsc | exact Hks | exact Hne | exact Hke | exact Hlim | exact Hcov | exact Hep | exact He].
Qed.

End ChangeGenerated.

(** *** Witness: the change of one leaf *)
Section ChangeGeneratedWitness.
Import Leb128 FirstBytes.

Lemma w_dserves v : 0 <= v <= U8_MAX -> serves MerkleDB w_rd (hs_store (w_dstore v)) (w_dtrie v) (w_dmap v).
Proof.
  intros Hv. destruct (w_dstore_rtrie v) as [_ Hr]. cbn in Hr. split.
  - eexists. split; [reflexivity | apply Hr].
  - by split; [intros a n|].
  - apply w_dtrie_wf.
  - apply byte_trie_set; [split; lia | apply Children_new_wf | apply byte_trie_new; [done|] | apply byte_trie_new; [done|]];
      intros x [= <-]; (split; [|done]); (split; [|done]); repeat constructor; unfold u8, U8_MAX in *; lia.
  - by apply (w_dcanonical v).
  - exists TRIE_FUEL. apply w_dcontents.
Qed.

Lemma change_proof_exact_witness :
  exists proof ns' ctx,
    change_proof MerkleDB true 9 10 (w_dstore 8) (Some [5]) None (w_dstore 7) (Some 1) (hs_store (w_dstore 8)) = (Ok proof, ns') /\
    Put [97] [8] ∈ contents_of proof /\
    verify_change_proof_structure MerkleDB proof (into_triehash (troot_hash MerkleDB (w_dtrie 8))) (Some [5]) None (Some 1) = Ok ctx.
Proof.
  destruct (change_proof_exact w_rd w_rd true (w_dstore 7) (Some (w_dtrie 7)) (w_dmap 7) TRIE_FUEL (hs_store (w_dstore 8)) (hs_root_hash (w_dstore 8))
    (w_dtrie 8) (w_dmap 8) (Some [5]) None (Some 1) 9 10) as (proof & ns' & edge & ctx & Hrun & _ & _ & Hops & Hedge & _ & _ & Hv).
  - split; [apply w_dserves; unfold U8_MAX; lia | exact w_diffable].
  - intros k [= <-]. repeat constructor; unfold u8, U8_MAX; lia.
  - by intros k.
  - discriminate.
  - intros l [= <-]. unfold U64_MAX. lia.
  - done.
  - apply (bool_decide_unpack (len (diff_list (Some (w_dtrie 7)) (Some (w_dtrie 8)) [5]) <= U64_MAX)). vm_compute. exact I.
  - apply (bool_decide_unpack (length (diff_list (Some (w_dtrie 7%Z)) (Some (w_dtrie 8%Z)) [5%Z]) < 9)%nat). vm_compute. exact I.
  - apply w_dnodes.
  - exists proof, ns', ctx. split; [exact Hrun|]. split; [|exact Hv]. apply Hops. split; [|split].
    + cbn. split; [reflexivity|]. split; [discriminate | reflexivity].
    + by intros x.
    + assert (Hp : contents_of proof = [Put [97] [8]]).
      { change (mkHashedStore (hs_store (w_dstore 8)) (hs_root_hash (w_dstore 8))) with (w_dstore 8) in Hrun.
        apply (f_equal (fun r => match r.1 with Ok p => contents_of p | Err _ => [] end)) in Hrun. cbn [fst] in Hrun. rewrite <- Hrun. by vm_compute. }
      rewrite Hp in Hedge. destruct Hedge as [[_ ->]|(_ & -> & _)]; by intros x [= <-].
Defined.

(** An empty end key is treated as no end key: the proof holds a difference beyond it, and
    the verifier rejects the proof. *)
Example change_proof_empty_end_key :
  exists proof,
    (change_proof MerkleDB true 9 10 (w_dstore 8) (Some []) (Some []) (w_dstore 7) None (hs_store (w_dstore 8))).1 = Ok proof /\
    contents_of proof = [Put [97] [8]] /\
    verify_change_proof_structure MerkleDB proof (into_triehash (troot_hash MerkleDB (w_dtrie 8))) (Some []) (Some []) None
      = Err (ApiProof EndKeyLessThanLastKey).
Proof. eexists. split; [vm_compute; reflexivity|]. split; [reflexivity | vm_compute; reflexivity]. Qed.

End ChangeGeneratedWitness.
