(* ===== verification/RangeComplete.v ===== *)
(** * Completeness of range proofs

    A range proof that [Merkle::range_proof] makes under MerkleDB passes
    [verify_range_proof] against the root hash of the trie it was made from. *)

From stdpp Require Import sorting.
From S2P Require Import Prelude Primitives NodePath Node Codec NodeCodec Trie NodeStore Linear Header ChildMask.
From S2P Require Import Merkle MerkleSpec MerkleInsert TrieCanonical MerkleCorrect Rlp Hashing HashSpec HashHelper HashBinding Placed Iter IterSpec.
From S2P Require Import ProofTypes KeyProof KeyProofSound KeyProofComplete ProofWire RangeProof RangeMarks RangeAccept RangeHash RangeTrie RangeRebuild RangeSound.
From S2P Require Import Diff DiffSpec DiffCorrect ChangeProof ProofGen ProofGenSpec.

(** ** Ascending pairs *)

Abbreviation pairs_ascend := (StronglySorted (fun a b : bytes * Value => slice_lt a.1 b.1)).

Lemma ascend_keys kvs : pairs_ascend kvs -> keys_ascend kvs = true.
Proof.
  induction 1 as [|[a x] kvs Hs IH Hall]; [done|]. destruct kvs as [|[b y] kvs]; [done|]. cbn [keys_ascend]. apply andb_true_iff. split; [|done].
  apply Forall_cons in Hall as [Hab _]. by apply slice_ltb_lt.
Qed.

Lemma ascend_find kvs k v : pairs_ascend kvs -> (k, v) ∈ kvs -> kv_find kvs k = Some v.
Proof.
  induction 1 as [|[a x] kvs Hs IH Hall]; intros Hin; [by apply elem_of_nil in Hin|]. rewrite kv_find_cons. apply elem_of_cons in Hin as [[= <- <-]|Hin].
  - by rewrite decide_True.
  - rewrite Forall_forall in Hall. specialize (Hall _ Hin). cbn in Hall. rewrite decide_False; [by apply IH|]. intros ->. by apply slice_lt_irrefl in Hall.
Qed.

Lemma ascend_head kvs k v x : pairs_ascend kvs -> head kvs = Some x -> (k, v) ∈ kvs -> slice_le x.1 k = true.
Proof.
  destruct 1 as [|y kvs Hs Hall]; [done|]. intros [= ->] [<-|Hin]%elem_of_cons; [apply slice_le_refl|]. rewrite Forall_forall in Hall. by apply slice_le_total, (Hall _ Hin).
Qed.

Lemma ascend_last kvs k v x : pairs_ascend kvs -> last kvs = Some x -> (k, v) ∈ kvs -> slice_le k x.1 = true.
Proof.
  intros Hs Hl Hin. pose proof (take_ascending fst kvs (length kvs) x (k, v) Hs) as Ht. rewrite firstn_all in Ht. by apply Ht in Hl as [Hx _]; apply Hx.
Qed.

Lemma sum_list_elem {A} (f : A -> nat) x l : x ∈ l -> (f x <= sum_list (f <$> l))%nat.
Proof. induction 1 as [x l|x y l Hin IH]; cbn; lia. Qed.

(** The values of the proof nodes within the range are among the pairs. *)
Lemma proof_node_values_intro nodes first b kvs :
  (forall pn v, pn ∈ nodes -> pn_value_digest pn = Some (DigestValue v) -> Nat.even (length (pn_key pn)) = true ->
     within_right b (bytes_iter (pn_key pn)) = true -> above_start first (bytes_iter (pn_key pn)) -> kv_find kvs (bytes_iter (pn_key pn)) = Some v) ->
  verify_proof_node_values nodes first b kvs = Ok tt.
Proof.
  induction nodes as [|n nodes IH]; intros Hall; [done|]. cbn [verify_proof_node_values].
  assert (Hrest : verify_proof_node_values nodes first b kvs = Ok tt) by (apply IH; intros pn v Hpn; apply Hall; by right). rewrite Hrest.
  destruct (Nat.even (length (pn_key n))) eqn:He; [|done]. cbn [negb]. destruct (pn_value_digest n) as [[v|h]|] eqn:Hd; [|done..].
  fold (within_right b (bytes_iter (pn_key n))). destruct (within_right b _) eqn:Hw; [|done]. cbn [andb].
  destruct (match first with Some start => slice_le start (bytes_iter (pn_key n)) | None => true end) eqn:Hf; [|done].
  rewrite (Hall n v); [by rewrite bool_decide_true | by left | done | done | done|]. intros s ->. done.
Qed.

Section Complete.
Context {St : Type} `{ReadableStorageLaws St} `{VarIntLaws} `{DigestsLaws}.
Variables (rd : LinearAddress -> option Node) (must_recompute : bool).
Variables (ns : NodeStore St) (t : trie) (m : gmap bytes Value).
Hypothesis served : serves MerkleDB rd ns t m.

Abbreviation chain := (proof_chain MerkleDB must_recompute).
Abbreviation root := (into_triehash (troot_hash MerkleDB t)).

Lemma map_tget k : is_bytes k -> tget t (nibbles_of k) = m !! k.
Proof. destruct served as [_ _ _ _ _ (L & Hm)]. apply (contents_get _ _ _ Hm k). Qed.

Lemma tget_map q x : is_path q -> tget t q = Some x -> exists k, is_bytes k /\ q = nibbles_of k /\ m !! k = Some x.
Proof.
  destruct served as [_ _ _ _ _ (L & Hm)]. intros Hq Hx. destruct (contents_keys _ _ _ Hm q x Hq Hx) as (k & Hk & ->). exists k. split_and!; [done | done|].
  by rewrite <- map_tget.
Qed.

Lemma map_bytes k x : m !! k = Some x -> is_bytes k.
Proof. destruct served as [_ _ _ _ _ (L & Hm)]. intros Hx. by apply (contents_bytes _ _ _ Hm k x). Qed.

(** The nodes of a chain are nodes of the trie. *)
Lemma chain_true r nodes found : chain [] t r nodes found -> Forall (true_node must_recompute t) nodes.
Proof.
  intros Hch. apply Forall_forall. intros pn Hpn. destruct (chain_node _ _ _ _ _ _ _ Hch pn Hpn) as (q & p & u & -> & Hp & Hn).
  exists p, u. cbn [pn_key proof_node]. rewrite Hp. by split_and!.
Qed.

(** The last node of the chain of a key that is present. *)
Lemma chain_present k x nodes found l :
  is_bytes k -> chain [] t (nibbles_of k) nodes found -> m !! k = Some x -> last nodes = Some l ->
  pn_key l = nibbles_of k /\ pn_value_digest l = Some (DigestValue x).
Proof.
  intros Hk Hch Hx Hl. destruct (chain_conclusion _ _ _ _ _ _ _ Hch) as (l' & Hl' & Hc). rewrite Hl in Hl'. injection Hl' as <-.
  destruct (chain_tget _ _ _ _ _ _ _ Hch) as [Hget _]. rewrite map_tget, Hx in Hget by done. destruct found as [[p u]|]; [|done]. cbn in Hget, Hc.
  unfold proof_value, settled_value in Hc. cbn in Hc. assert (Hd : conclusion l (nibbles_of k) = Some (Some (DigestValue x))).
  { rewrite Hc. destruct must_recompute; by rewrite <- Hget. }
  unfold conclusion in Hd. case_bool_decide as Hf; [by injection Hd|]. destruct (next_nibble _ _); [by case_bool_decide | done].
Qed.

Lemma chain_verifies_value k nodes found : is_bytes k -> chain [] t (nibbles_of k) nodes found -> verify MerkleDB nodes k (m !! k) root = Ok tt.
Proof.
  intros Hk Hch. pose proof (edge_chain_shows MerkleDB rd must_recompute ltac:(done) ns t m nodes (Some k) served ltac:(by intros ? [= <-]) ltac:(by exists found)) as Hsh.
  cbn in Hsh. unfold verify. rewrite Hsh. cbn. destruct (m !! k) as [v|]; [|done]. cbn. unfold verify_opt_value_digest, ValueDigest_verify. by rewrite bool_decide_true.
Qed.

(** ** A generated proof *)

Section Generated.
Variables (start_key end_key : option bytes) (limit : option Z) (proof : FrozenRangeProof) (edge : option bytes).

(** What [range_proof_run] says of the proof. *)
Hypothesis start_ok : key_ok start_key.
Hypothesis end_ok : key_ok end_key.
Hypothesis limit_fits : limit_ok limit.
Hypothesis ordered : forall s e, start_key = Some s -> end_key = Some e -> slice_le s e = true.
Hypothesis mode : hash_mode proof = MerkleDB.
Hypothesis covers : covered fst (in_range_pairs t start_key end_key) (contents_of proof) end_key limit edge.
Hypothesis start_chain : edge_chain MerkleDB must_recompute t (start_proof proof) start_key.
Hypothesis end_chain : edge_chain MerkleDB must_recompute t (end_proof proof) edge.

Abbreviation kvs := (contents_of proof).
Abbreviation boundary := (right_edge (end_proof proof) (fst <$> last kvs) end_key).

Lemma generated_pairs :
  pairs_ascend kvs /\ (forall k v, (k, v) ∈ kvs <-> m !! k = Some v /\ above_start start_key k /\ below_end edge k) /\
  (edge = end_key \/ exists y z, last kvs = Some y /\ edge = Some y.1 /\ limit = Some (len kvs) /\
     m !! z.1 = Some z.2 /\ below_end end_key z.1 /\ slice_lt y.1 z.1).
Proof. by eapply covered_pairs. Qed.

Lemma generated_last y : last kvs = Some y -> m !! y.1 = Some y.2 /\ above_start start_key y.1 /\ below_end edge y.1 /\ below_end end_key y.1.
Proof.
  intros Hy. destruct generated_pairs as (_ & Hel & Hcut). apply last_Some_elem_of in Hy as Hin. destruct y as [k v]. apply Hel in Hin as (Hm & Ha & He).
  split_and!; [done | done | done|]. destruct Hcut as [<-|(y & z & Hl & -> & _ & _ & Hz & Hlt)]; [done|].
  rewrite Hy in Hl. injection Hl as <-. intros e Hk. eapply slice_le_trans; [apply slice_le_total, Hlt | by apply Hz].
Qed.

(** The key of the right boundary: the end proof leads to it, and all of the map up to it is
    in the pairs. *)
Record boundary_ok (b : RightBoundary) : Prop := {
  bo_chain : match right_boundary_key b with
             | Some k => is_bytes k /\ exists found, chain [] t (nibbles_of k) (end_proof proof) found
             | None => end_proof proof = []
             end;
  bo_pairs k v : m !! k = Some v -> above_start start_key k -> within_right b k = true -> (k, v) ∈ kvs;
  bo_last y : last kvs = Some y -> match b with
                                   | InRange (Some k) => slice_le y.1 k = true
                                   | OutOfRange k => slice_lt y.1 k /\ nibbles_of k ∈ pn_key <$> end_proof proof
                                   | InRange None => True
                                   end;
  bo_start s k : start_key = Some s -> b = InRange (Some k) -> slice_le s k = true;
  bo_out k : b = OutOfRange k -> is_Some (last kvs);
}.

Lemma boundary_whole : edge = end_key -> boundary_ok (InRange end_key).
Proof.
  intros He. destruct generated_pairs as (_ & Hel & _). rewrite He in Hel. split.
  - cbn. pose proof end_chain as Hec. rewrite He in Hec. unfold edge_chain in Hec. destruct end_key as [e|]; [split; [by apply end_ok | done] | done].
  - intros k v Hk Ha Hw. apply Hel. split_and!; [done | done|]. intros e ->. exact Hw.
  - intros y (_ & _ & _ & Hy)%generated_last. destruct end_key as [e|]; [by apply Hy | done].
  - intros s k Hs [= Hk]. by apply ordered.
  - done.
Qed.

Lemma boundary_last y : last kvs = Some y -> (exists found, chain [] t (nibbles_of y.1) (end_proof proof) found) -> boundary_ok (InRange (Some y.1)).
Proof.
  intros Hy Hch. destruct generated_pairs as (_ & Hel & _). destruct (generated_last y Hy) as (Hmy & Ha & He & _). split.
  - split; [by eapply map_bytes | done].
  - intros k v Hk Hak Hw. apply Hel. split_and!; [done | done|]. intros e Hee. eapply slice_le_trans; [exact Hw | by apply He].
  - intros y' Hy'. rewrite Hy in Hy'. injection Hy' as <-. apply slice_le_refl.
  - intros s k Hs [= <-]. by apply Ha.
  - done.
Qed.

(** The last node is beyond the last pair. *)
Lemma boundary_beyond y e l k found :
  last kvs = Some y -> edge = Some e -> is_bytes e -> chain [] t (nibbles_of e) (end_proof proof) found -> last (end_proof proof) = Some l ->
  pn_key l = nibbles_of k -> is_bytes k -> is_Some (m !! k) -> slice_lt y.1 k -> boundary_ok (OutOfRange k).
Proof.
  intros Hy He Heb Hch Hl Hlk Hk [v Hv] Hlt. destruct generated_pairs as (Hsort & Hel & _). destruct (generated_last y Hy) as (Hmy & Ha & Hey & _).
  assert (Hak : above_start start_key k) by (intros s Hs; eapply slice_le_trans; [by apply Ha | by apply slice_le_total]).
  assert (Hek : slice_lt e k).
  { unfold slice_lt. destruct (slice_le k e) eqn:Hke; [|done]. assert (Hin : (k, v) ∈ kvs) by (apply Hel; split_and!; [done | done | by rewrite He; intros ? [= <-]]).
    pose proof (ascend_last kvs k v y Hsort Hy Hin) as Hle. unfold slice_lt in Hlt. congruence. }
  split.
  - cbn. split; [done|]. destruct (chain_to_last _ _ _ _ _ _ _ l Hch Hl) as (q & found' & Hq & Hc). cbn in Hq. exists found'. by rewrite <- Hlk, Hq.
  - intros k' v' Hk' Ha' Hw. apply Hel. split_and!; [done | done|]. rewrite He. intros ? [= <-]. destruct (slice_le k' e) eqn:Hle; [done|].
    pose proof (map_bytes k' v' Hk') as Hkb. apply slice_ltb_lt in Hw.
    assert (Hgap : slice_le (nibbles_of k) (nibbles_of k') = true).
    { apply (chain_gap _ _ [] t (nibbles_of e) _ _ l _ _ v' Hch Hl Hlk); [|by rewrite map_tget|]; unfold slice_lt; by rewrite slice_le_nibbles. }
    rewrite slice_le_nibbles in Hgap by done. unfold slice_lt in Hw. congruence.
  - intros y' Hy'. rewrite Hy in Hy'. injection Hy' as <-. split; [done|]. rewrite <- Hlk. by apply list_elem_of_fmap_2, last_Some_elem_of.
  - done.
  - intros k' _. rewrite Hy. by eexists.
Qed.

Lemma boundary_generated : boundary_ok boundary.
Proof.
  destruct generated_pairs as (_ & _ & Hcut). pose proof end_chain as Hec. unfold right_edge. destruct (last (end_proof proof)) as [l|] eqn:Hl.
  2: { apply last_None in Hl. apply boundary_whole. destruct Hcut as [?|(y & z & _ & He & _)]; [done|]. rewrite He in Hec.
       apply edge_chain_empty in Hec. by apply Hec in Hl. }
  destruct (last kvs) as [y|] eqn:Hy; cbn [fmap option_fmap option_map].
  2: { apply boundary_whole. by destruct Hcut as [?|(y & z & ? & _)]. }
  assert (He : exists e, edge = Some e). { destruct edge as [e|]; [by exists e|]. cbn in Hec. by rewrite Hec in Hl. }
  destruct He as [e He]. destruct (generated_last y Hy) as (Hmy & _ & Hye & _). rewrite He in Hec. destruct Hec as [found Hch].
  assert (Heb : is_bytes e).
  { destruct Hcut as [Heq|(y' & z & Hy' & Heq & _)]; [apply end_ok; congruence|]. injection Hy' as <-. rewrite He in Heq. injection Heq as ->. by eapply map_bytes. }
  assert (Hend : (pn_key l = nibbles_of y.1 /\ is_Some (pn_value_digest l)) \/ edge = end_key).
  { destruct Hcut as [?|(y' & z & Hy' & Heq & _)]; [by right|]. left. injection Hy' as <-. rewrite He in Heq. injection Heq as ->.
    destruct (chain_present _ _ _ _ _ Heb Hch Hmy Hl) as [? Hd]. by rewrite Hd. }
  destruct (pn_value_digest l) as [d|] eqn:Hd.
  2: { apply boundary_whole. destruct Hend as [[_ [? ?]]|?]; done. }
  destruct (true_node_digest must_recompute t (sv_wf _ _ _ _ _ served) l) as [Hlp Hld].
  { eapply Forall_forall; [by eapply chain_true | by apply last_Some_elem_of]. }
  rewrite Hd in Hld. destruct (tget t (pn_key l)) as [v|] eqn:Hv; [|done]. destruct (tget_map _ _ Hlp Hv) as (k & Hk & Hlk & Hmk).
  rewrite Hlk, bytes_iter_nibbles_of. destruct (slice_ltb y.1 k) eqn:Hlt.
  - eapply boundary_beyond; [exact Hy | exact He | exact Heb | exact Hch | exact Hl | exact Hlk | exact Hk | by eexists | by apply slice_ltb_lt].
  - case_bool_decide as Hky.
    + subst k. apply boundary_last; [done|]. destruct (chain_to_last _ _ _ _ _ _ _ l Hch Hl) as (q & found' & Hq & Hc). cbn in Hq. exists found'. by rewrite <- Hlk, Hq.
    + apply boundary_whole. destruct Hend as [[Hn _]|?]; [|done]. rewrite Hlk in Hn. by apply nibbles_of_inj in Hn.
Qed.

(** ** The checks pass *)

Lemma generated_nodes : Forall (true_node must_recompute t) (start_proof proof ++ end_proof proof).
Proof.
  assert (Hedge : forall nodes key, edge_chain MerkleDB must_recompute t nodes key -> Forall (true_node must_recompute t) nodes).
  { intros nodes [k|]; [|by intros ->]. intros [found Hch]. by eapply chain_true. }
  apply Forall_app. split; by eapply Hedge.
Qed.

(** The edge check, once the edge key and the edge pair agree with the map. *)
Lemma verify_edge_intro key kv nodes e :
  edge_chain MerkleDB must_recompute t nodes (Some key) -> is_bytes key ->
  (forall k v, kv = Some (k, v) -> (match e with LeftEdge => slice_le key k | RightEdge => slice_le k key end) = true /\ m !! k = Some v) ->
  (forall v, m !! key = Some v -> kv = Some (key, v)) ->
  verify_edge MerkleDB (Some key) kv nodes root e = Ok tt.
Proof.
  intros [found Hch] Hk Hkv Hm. destruct (chain_head _ _ _ _ _ _ _ Hch) as [rest Hrest]. unfold verify_edge. rewrite Hrest. rewrite <- Hrest.
  assert (Hv : forall x, x = m !! key -> annotate e (verify MerkleDB nodes key x root) = Ok tt).
  { intros x ->. by rewrite (chain_verifies_value key nodes found). }
  destruct kv as [[k v]|].
  - destruct (Hkv k v eq_refl) as [Hle Hmk]. unfold slice_ltb. replace (if match e with LeftEdge => true | RightEdge => false end then _ else _) with false by (by destruct e; rewrite Hle).
    apply Hv. case_bool_decide as Heq; [by rewrite Heq|]. destruct (m !! key) as [x|] eqn:Hx; [|done]. injection (Hm x eq_refl) as ? _; congruence.
  - apply Hv. destruct (m !! key) as [x|] eqn:Hx; [|done]. by specialize (Hm x eq_refl).
Qed.

Lemma left_edge_ok : verify_edge MerkleDB start_key (head kvs) (start_proof proof) root LeftEdge = Ok tt.
Proof.
  destruct generated_pairs as (Hsort & Hel & Hcut). pose proof start_chain as Hsc.
  destruct (start_key) as [s|] eqn:Hs in Hsc |- *; [|cbn in Hsc; by rewrite Hsc].
  apply verify_edge_intro; [done | by apply start_ok | |].
  - intros k v Hh. assert (Hin : (k, v) ∈ kvs) by (destruct kvs; [done|]; injection Hh as ->; by left). apply Hel in Hin as (Hm & Ha & _). split; [by apply Ha | done].
  - intros v Hv. assert (Hin : (s, v) ∈ kvs).
    { apply Hel. split_and!; [done | rewrite Hs; intros ? [= <-]; apply slice_le_refl |]. intros e He. destruct Hcut as [Hee|(y & z & Hy & Hee & _)].
      - apply ordered; [done | congruence].
      - destruct (generated_last y Hy) as (_ & Ha & _). rewrite He in Hee. injection Hee as ->. by apply Ha. }
    destruct (head kvs) as [[k x]|] eqn:Hh; [|destruct kvs; [by apply elem_of_nil in Hin | done]].
    assert (Hkx : (k, x) ∈ kvs) by (destruct kvs; [done|]; injection Hh as ->; by left).
    assert (k = s) as ->. { apply slice_le_antisym; [by apply (ascend_head kvs s v (k, x) Hsort Hh Hin)|]. apply Hel in Hkx as (_ & Ha & _). by apply Ha. }
    apply Hel in Hkx as (Hm & _). congruence.
Qed.

Lemma right_edge_passes : right_edge_ok MerkleDB proof root boundary.
Proof.
  destruct generated_pairs as (Hsort & Hel & _). pose proof boundary_generated as [Hch Hpairs Hlast Hstart Hout]. unfold right_edge_ok.
  destruct boundary as [[k|]|k] eqn:Hb; cbn [right_boundary_key] in Hch.
  - destruct Hch as [Hk Hch]. apply verify_edge_intro; [done | done | |].
    + intros k' v' Hl. split; [by apply (Hlast (k', v'))|]. by destruct (generated_last (k', v') Hl) as [? _].
    + intros v Hv. assert (Hin : (k, v) ∈ kvs). { apply Hpairs; [done | intros s Hs; by eapply Hstart | cbn; apply slice_le_refl]. }
      destruct (last kvs) as [[k' v']|] eqn:Hl; [|apply last_None in Hl; rewrite Hl in Hin; by apply elem_of_nil in Hin].
      assert (k' = k) as ->. { apply slice_le_antisym; [by apply (Hlast (k', v')) | by apply (ascend_last kvs k v (k', v') Hsort Hl Hin)]. }
      destruct (generated_last (k, v') Hl) as [Hm _]. cbn in Hm. congruence.
  - by rewrite Hch.
  - split.
    + intros k' v' Hl. destruct (Hlast (k', v') Hl) as [Hlt _]. cbn in Hlt. unfold slice_ltb. apply negb_false_iff. by apply slice_le_total.
    + destruct Hch as [Hk [found Hc]]. eexists. eapply (chain_value_digest MerkleDB must_recompute); [exact Hc | apply (sv_wf _ _ _ _ _ served) | apply (sv_bytes _ _ _ _ _ served) | done].
Qed.

Lemma node_values_pass : verify_proof_node_values (start_proof proof ++ end_proof proof) start_key boundary kvs = Ok tt.
Proof.
  destruct generated_pairs as (Hsort & Hel & _). pose proof boundary_generated as [_ Hpairs _ _ _]. apply proof_node_values_intro. intros pn v Hpn Hd Hev Hw Ha.
  destruct (true_node_digest must_recompute t (sv_wf _ _ _ _ _ served) pn) as [Hp Hdig]; [by eapply Forall_forall; [apply generated_nodes|]|].
  rewrite Hd in Hdig. destruct (tget t (pn_key pn)) as [x|] eqn:Hx; [|done]. injection Hdig as ->. destruct (tget_map _ _ Hp Hx) as (k & Hk & Hpk & Hm).
  rewrite Hpk, bytes_iter_nibbles_of in *. apply ascend_find; [done|]. by apply Hpairs.
Qed.

Lemma request_passes : (start_key <> None \/ end_key <> None \/ kvs <> []) -> request_ok MerkleDB start_key end_key proof.
Proof.
  intros Hne. destruct generated_pairs as (Hsort & Hel & Hcut). pose proof start_chain as Hsc. pose proof end_chain as Hec. split_and!.
  - done.
  - intros s e Hs He. unfold slice_ltb. by rewrite (ordered s e Hs He).
  - by apply ascend_keys.
  - destruct (existsb _ kvs) eqn:Hx; [|done]. apply existsb_exists in Hx as ([k v] & Hin%list_elem_of_In & Hout). apply Hel in Hin as Hin'. destruct Hin' as (_ & Ha & _).
    assert (Hb : below_end end_key k).
    { destruct (last kvs) as [y|] eqn:Hl; [|apply last_None in Hl; rewrite Hl in Hin; by apply elem_of_nil in Hin]. intros e He.
      eapply slice_le_trans; [by apply (ascend_last kvs k v y Hsort Hl Hin)|]. destruct (generated_last y Hl) as (_ & _ & _ & Hy). by apply Hy. }
    unfold out_of_request, slice_ltb in Hout. cbn in Hout. apply orb_true_iff in Hout as [Hout|Hout].
    + destruct start_key as [s|]; [|done]. by rewrite (Ha s eq_refl) in Hout.
    + destruct end_key as [e|]; [|done]. by rewrite (Hb e eq_refl) in Hout.
  - tauto.
  - intros Hn. apply (edge_chain_empty must_recompute _ _ _ Hsc). done.
  - intros Hn. apply (edge_chain_empty must_recompute _ _ _ Hec) in Hn. destruct Hcut as [?|(y & z & _ & ? & _)]; congruence.
  - unfold reject_odd_nibble_value_digests. replace (existsb _ _) with false; [done|]. symmetry. destruct (existsb _ (end_proof proof)) eqn:Hx; [|done].
    apply existsb_exists in Hx as (pn & Hin%list_elem_of_In & Hodd). apply andb_true_iff in Hodd as [Hodd Hd]. apply bool_decide_eq_true in Hd as [d Hd].
    destruct (true_node_digest must_recompute t (sv_wf _ _ _ _ _ served) pn) as [Hp Hdig].
    { eapply Forall_forall; [apply generated_nodes | apply elem_of_app; by right]. }
    rewrite Hd in Hdig. destruct (tget t (pn_key pn)) as [x|] eqn:Hv; [|done].
    by rewrite (tget_even t (sv_wf _ _ _ _ _ served) (sv_bytes _ _ _ _ _ served) _ _ Hp Hv) in Hodd.
Qed.

(** ** The root hash *)

(** The marks of an edge. *)
Lemma edge_marks b nodes :
  match boundary_key b with Some k => is_bytes k /\ exists found, chain [] t (nibbles_of k) nodes found | None => nodes = [] end ->
  exists marks c, compute_outside_children nodes b = Ok (marks, c) /\ (forall f, is_Some (marks !! f) -> f ∈ pn_key <$> nodes) /\
    forall k key x, boundary_key b = Some key -> is_path k -> tget t k = Some x -> beyond (is_left b) k (nibbles_of key) ->
      k ∈ pn_key <$> nodes \/ exists q i s, k = q ++ i :: s /\ is_nibble i /\ q ∈ pn_key <$> nodes /\ outside_at marks q i = true.
Proof.
  destruct (boundary_key b) as [key|] eqn:Hb; cbn.
  - intros [Hk [found Hch]]. destruct (outside_cover _ _ b t key nodes found Hch Hb Hk) as (marks & c & Hc & Hdom & Hcov).
    exists marks, c. split_and!; [done | done|]. intros k key' x [= <-]. apply Hcov.
  - intros ->. exists ∅, None. split_and!; [done | intros f [? Hx]; by rewrite lookup_empty in Hx | done].
Qed.

(** The keys of the trie are in the pairs, or at a node, or behind a marked slot. *)
Lemma generated_cover sm em :
  (forall k key x, start_key = Some key -> is_path k -> tget t k = Some x -> slice_lt k (nibbles_of key) ->
     k ∈ pn_key <$> start_proof proof \/ exists q i s, k = q ++ i :: s /\ is_nibble i /\ q ∈ pn_key <$> start_proof proof /\ outside_at sm q i = true) ->
  (forall k key x, right_boundary_key boundary = Some key -> is_path k -> tget t k = Some x -> slice_lt (nibbles_of key) k ->
     k ∈ pn_key <$> end_proof proof \/ exists q i s, k = q ++ i :: s /\ is_nibble i /\ q ∈ pn_key <$> end_proof proof /\ outside_at em q i = true) ->
  forall k x, is_path k -> tget t k = Some x ->
    (k ∈ nibbles_of <$> kvs.*1 \/ k ∈ pn_key <$> start_proof proof ++ end_proof proof) \/
    exists q i s, k = q ++ i :: s /\ q ∈ pn_key <$> start_proof proof ++ end_proof proof /\ outside_at (merge_marks sm em) q i = true.
Proof.
  intros Hs He k x Hk Hx. destruct (tget_map k x Hk Hx) as (kb & Hkb & -> & Hm). rewrite fmap_app.
  assert (Hleft : forall sk, start_key = Some sk -> slice_le sk kb = false -> slice_lt (nibbles_of kb) (nibbles_of sk)).
  { intros sk Hsk Hlt. unfold slice_lt. rewrite slice_le_nibbles; [done | by apply start_ok | done]. }
  assert (Hcov : forall (P : Prop), P \/ (exists q i s, nibbles_of kb = q ++ i :: s /\ is_nibble i /\ q ∈ pn_key <$> start_proof proof /\ outside_at sm q i = true) \/
    (exists q i s, nibbles_of kb = q ++ i :: s /\ is_nibble i /\ q ∈ pn_key <$> end_proof proof /\ outside_at em q i = true) ->
    P \/ exists q i s, nibbles_of kb = q ++ i :: s /\ q ∈ (pn_key <$> start_proof proof) ++ (pn_key <$> end_proof proof) /\ outside_at (merge_marks sm em) q i = true).
  { intros P [?|[(q & i & s & Hq & Hi & Hin & Ho)|(q & i & s & Hq & Hi & Hin & Ho)]]; [by left|right..]; exists q, i, s; rewrite elem_of_app, outside_merge, Ho by done;
      rewrite ?orb_true_r; auto. }
  apply Hcov. destruct (match start_key with Some sk => slice_le sk kb | None => true end) eqn:Hst.
  2: { destruct start_key as [sk|] eqn:Hsk; [|done].
       destruct (Hs _ sk x eq_refl Hk Hx (Hleft sk eq_refl Hst)) as [Hin|Hin]; [left; right; apply elem_of_app; by left | right; by left]. }
  assert (Ha : above_start start_key kb) by (intros sk Hsk; by rewrite Hsk in Hst).
  pose proof boundary_generated as [Hch Hpairs Hlast _ Hout]. destruct (within_right boundary kb) eqn:Hw.
  { left. left. apply list_elem_of_fmap. exists kb. split; [done|]. apply list_elem_of_fmap. exists (kb, x). split; [done | by apply Hpairs]. }
  assert (Hend : forall key, right_boundary_key boundary = Some key -> is_bytes key -> slice_le kb key = false ->
    nibbles_of kb ∈ pn_key <$> end_proof proof \/ exists q i s, nibbles_of kb = q ++ i :: s /\ is_nibble i /\ q ∈ pn_key <$> end_proof proof /\ outside_at em q i = true).
  { intros key Hkey Hb Hlt. apply (He _ key x Hkey Hk Hx). unfold slice_lt. by rewrite slice_le_nibbles. }
  assert (Hor : nibbles_of kb ∈ pn_key <$> end_proof proof \/ exists q i s, nibbles_of kb = q ++ i :: s /\ is_nibble i /\ q ∈ pn_key <$> end_proof proof /\ outside_at em q i = true).
  { destruct boundary as [[key|]|key] eqn:Hb; cbn [within_right right_boundary_key] in *; [by apply (Hend key); [|apply Hch|] | done |].
    unfold slice_ltb in Hw. apply negb_false_iff in Hw. destruct (slice_le kb key) eqn:Hle; [|by apply (Hend key); [|apply Hch|]].
    left. assert (kb = key) as -> by (by apply slice_le_antisym). destruct (Hout key eq_refl) as [y Hy]. by apply (Hlast y). }
  destruct Hor as [?|?]; [left; right; apply elem_of_app; by right | auto].
Qed.

(** A node of the trie above a proof node is a proof node. *)
Lemma generated_closed q r w :
  node_at t q w -> q ++ r ∈ pn_key <$> start_proof proof ++ end_proof proof -> q ∈ pn_key <$> start_proof proof ++ end_proof proof.
Proof.
  intros Hn. rewrite fmap_app, !elem_of_app.
  assert (Hedge : forall nodes key, edge_chain MerkleDB must_recompute t nodes key -> q ++ r ∈ pn_key <$> nodes -> q ∈ pn_key <$> nodes).
  { intros nodes [k|]; [|intros ->; by intros ?%elem_of_nil]. intros [found Hch] Hin. by apply (chain_closed _ _ [] t _ _ _ Hch q r w Hn). }
  intros [Hin|Hin]; [left | right]; by eapply Hedge.
Qed.

(** The rebuilt trie and the trie are related. *)
Lemma generated_related nodes_map marks n u :
  (forall f pn, nodes_map !! f = Some pn -> true_node must_recompute t pn /\ pn_key pn = f) ->
  (forall f, is_Some (nodes_map !! f) <-> f ∈ pn_key <$> start_proof proof ++ end_proof proof) ->
  trie_wf u -> rnode blank n u -> (forall q, is_Some (nodes_map !! q) -> branch_at n q) -> shaped (shown nodes_map) [] u ->
  (forall k, is_path k -> tget u k =
     if decide (k ∈ pn_key <$> start_proof proof ++ end_proof proof) then tget t k
     else if decide (k ∈ nibbles_of <$> kvs.*1) then tget t k else None) ->
  (forall k x, is_path k -> tget t k = Some x ->
     (k ∈ nibbles_of <$> kvs.*1 \/ k ∈ pn_key <$> start_proof proof ++ end_proof proof) \/
     exists q i s, k = q ++ i :: s /\ q ∈ pn_key <$> start_proof proof ++ end_proof proof /\ outside_at marks q i = true) ->
  related nodes_map marks [] u t.
Proof.
  intros Htrue Hdom Hwu Hr Hbr Hsh Hval Hcov. pose proof (sv_wf _ _ _ _ _ served) as Hwt. split.
  - done.
  - apply (sv_canonical _ _ _ _ _ served).
  - exact Hsh.
  - intros k x Hk. rewrite Hval by done. repeat case_decide; done.
  - intros q pn Hpn. destruct (Htrue _ _ Hpn) as [(p & w & Hpw & Hp & Hn) Hk]. cbn in Hk. subst q. exists w. split; [done|]. cbn [app]. rewrite <- Hp, Hpw. split; [reflexivity|].
    cbn. unfold proof_value, settled_value. cbn. by destruct must_recompute.
  - intros q Hq. by eapply branch_at_node; [apply Hbr|].
  - intros q Hq Hs. rewrite Hval by done. by rewrite decide_True by (by apply Hdom).
  - intros q r w Hs Hn. unfold shown in *. cbn in *. apply Hdom. apply Hdom in Hs. by eapply generated_closed.
  - intros k x Hk Hx. destruct (Hcov k x Hk Hx) as [Hin|(q & i & s & -> & Hq & Ho)].
    + left. rewrite Hval by done. destruct Hin as [Hin|Hin]; [|by rewrite decide_True by done]. case_decide; [done | by rewrite decide_True].
    + right. exists q, i, s. split_and!; [done | by apply Hdom | done].
Qed.

Lemma root_hash_passes :
  (start_key <> None \/ end_key <> None \/ kvs <> []) -> verify_range_proof_root_hash MerkleDB proof start_key boundary root = Ok tt.
Proof.
  intros Hne. destruct generated_pairs as (Hsort & Hel & Hcut). pose proof (sv_wf _ _ _ _ _ served) as Hwt. pose proof (sv_bytes _ _ _ _ _ served) as Hbt.
  set (nodes := start_proof proof ++ end_proof proof).
  set (L := (sum_list ((fun p : bytes * Value => 2 * length p.1) <$> kvs) + sum_list ((fun pn => length (pn_key pn)) <$> nodes))%nat).
  destruct (rebuild_pairs L t kvs empty_proposal None (building_empty L)) as (ns1 & u1 & Hins & Hb1 & Hne1 & Hg1 & Hs1).
  { apply Forall_forall. intros [k v] Hin. pose proof (sum_list_elem (fun p : bytes * Value => 2 * length p.1)%nat _ _ Hin) as Hl. cbn in Hl.
    apply Hel in Hin as (Hm & _). pose proof (map_bytes k v Hm) as Hk. split_and!; [done | unfold L; cbn; lia | by rewrite map_tget]. }
  destruct (rebuild_all must_recompute L t Hwt Hbt nodes ∅ ns1 u1 Hb1) as (nodes_map & ns2 & u2 & Hrec & Hb2 & Hg2 & Hs2 & Hk2 & Htrue & Hdom).
  { apply Forall_forall. intros pn Hpn. split; [by eapply Forall_forall; [apply generated_nodes|]|].
    pose proof (sum_list_elem (fun pn => length (pn_key pn)) _ _ Hpn). unfold L. lia. }
  { intros k x Hk. rewrite Hg1 by done. by case_decide. }
  { intros f pn. by rewrite lookup_empty. }
  assert (Hdom' : forall f, is_Some (nodes_map !! f) <-> f ∈ pn_key <$> nodes).
  { intros f. rewrite Hdom, lookup_empty. split; [by intros [[? ?]|?] | by right]. }
  destruct (edge_marks (BoundaryLeft start_key) (start_proof proof)) as (sm & sc & Hsm & Hsdom & Hscov).
  { pose proof start_chain as Hc. cbn. destruct start_key; [split; [by apply start_ok | done] | done]. }
  destruct (edge_marks (BoundaryRight boundary) (end_proof proof)) as (em & ec & Hem & Hedom & Hecov).
  { apply boundary_generated. }
  assert (Hu : exists n u, ns_root ns2 = Some n /\ u2 = Some u /\ rnode blank n u).
  { pose proof (building_root _ _ _ Hb2) as Hr. assert (Hsome : is_Some (ns_root ns2) \/ u2 <> None).
    { destruct nodes as [|pn rest] eqn:Hnodes; [|left; destruct (Hk2 (pn_key pn)) as (n & Hn & _); [right; by left | by rewrite Hn]]. right.
      subst nodes. apply app_nil in Hnodes as [Hsn Hen]. pose proof start_chain as Hc1. pose proof end_chain as Hc2.
      apply (edge_chain_empty must_recompute) in Hc1, Hc2. apply Hc1 in Hsn. apply Hc2 in Hen. destruct kvs as [|[k v] l] eqn:Hkv.
      { destruct Hne as [?|[?|?]]; [done | | done]. destruct Hcut as [?|(y & z & ? & _)]; [congruence | done]. }
      intros ->. pose proof (proj1 (Hel k v) ltac:(by left)) as (Hm & _ & _). pose proof (map_bytes k v Hm) as Hk.
      pose proof (Hg2 (nibbles_of k) ltac:(by apply is_path_nibbles_of)) as Hg. rewrite Hg1 in Hg by (by apply is_path_nibbles_of).
      rewrite map_tget, Hm in Hg by done. rewrite !decide_False in Hg by apply not_elem_of_nil. rewrite decide_True in Hg by (by left). done. }
    destruct (ns_root ns2) as [n|], u2 as [u|]; try done; [by exists n, u | by destruct Hsome as [[? ?]|?]]. }
  destruct Hu as (n & u & Hn & -> & Hnu). pose proof (building_wf _ _ _ Hb2 u eq_refl) as Hwu. pose proof (building_memory _ _ _ Hb2) as Hmem.
  assert (Hbr : forall q, is_Some (nodes_map !! q) -> branch_at n q).
  { intros q Hq. destruct (Hk2 q) as (n' & Hn' & Hbq); [right; by apply Hdom'|]. congruence. }
  assert (Hmd : forall f, is_Some (merge_marks sm em !! f) -> is_Some (nodes_map !! f)).
  { intros f Hf. apply Hdom'. unfold nodes. rewrite fmap_app, elem_of_app. unfold merge_marks in Hf. rewrite lookup_union_with in Hf.
    destruct (sm !! f) eqn:E1; [left; apply Hsdom; by rewrite E1|]. destruct (em !! f) eqn:E2; [right; apply Hedom; by rewrite E2|]. by destruct Hf. }
  assert (Hrel : related nodes_map (merge_marks sm em) [] u t).
  { apply (generated_related nodes_map (merge_marks sm em) n u); try done.
    - apply (Hs2 (shown nodes_map)); [by apply Hs1 | intros pn Hpn; apply Hdom'; by apply list_elem_of_fmap_2 | done].
    - intros k Hk. specialize (Hg2 k Hk). rewrite (Hg1 k Hk) in Hg2. exact Hg2.
    - by apply generated_cover; [intros k key x; apply (Hscov k key x) | intros k key x; apply (Hecov k key x)]. }
  pose proof (matches_hash nodes_map _ Hmd blank (node_height n) n u [] t (related_matches nodes_map _ Hmd t [] u Hrel) Hnu Hmem Hwu Hwt Hbr ltac:(lia)) as Hhash.
  assert (Hwfn : forall f pn, nodes_map !! f = Some pn -> Children_wf (pn_child_hashes pn)).
  { intros f pn Hf. destruct (Htrue f pn Hf) as [(p & w & -> & _ & Hw) _]. destruct (node_at_get _ _ _ Hwt Hw) as (_ & _ & Hww & _). destruct w as [pp v ks].
    apply kid_hashes_wf. apply (trie_wf_inv _ _ _ Hww). }
  unfold verify_range_proof_root_hash. rewrite Hins. fold nodes. rewrite Hrec, Hsm, Hem. cbn [mbind result_bind]. rewrite Hn.
  rewrite (compute_root_hash_ok nodes_map (merge_marks sm em) Hwfn blank (node_height n) n [] ns2 (memory_placed _ _ _ _ _ Hnu Hwu Hmem) (le_n _)). rewrite Hhash. cbn [app]. fold (troot_hash MerkleDB t).
  by rewrite HashType_eq_root.
Qed.

(** A generated proof is accepted. *)
Lemma generated_accepted :
  (start_key <> None \/ end_key <> None \/ kvs <> []) -> exists proven, verify_range_proof MerkleDB start_key end_key root proof = Ok proven.
Proof.
  intros Hne. eexists. apply verify_range_proof_Ok. split_and!; [by apply request_passes | apply left_edge_ok | apply right_edge_passes | apply node_values_pass
    | by apply root_hash_passes | reflexivity].
Qed.

End Generated.


End Complete.

(** *** Witness: the first of two pairs *)
Section CompleteWitness.
Import Leb128 FirstBytes.


End CompleteWitness.
