(* ===== verification/Parallel.v ===== *)
(** * Parallel batches

    [firewood/src/merkle/parallel.rs]: a coordinator splits a batch by the first nibble of
    the keys and sends the operations to one worker per nibble; the workers apply them to
    their subtries, hash these, and send them back.

    The threads share the storage with its caches and two kinds of channels; a step is one
    action of one thread: a request of a worker, or one turn of a loop of the coordinator.
    Which thread acts next is the choice of the scheduler. *)

From S2P Require Import Prelude Primitives NodePath Node Codec NodeCodec Trie NodeStore Merkle Rlp Hashing ProofTypes ProofWire Batch.

(** [Response]. *)
Record Response : Type := mkResponse {
  first_path_component : PathComponent;
  response_root : option Child;
  deleted_nodes : list MaybePersisted;
}.

(** A worker: spawned, and waiting for a thread of the pool; in the loop; out of the loop after
    an error; or back in the pool, with its end of the channel dropped. *)
Inductive WorkerStatus : Type :=
| Spawned
| Receiving
| Failing
| Returned.

(** The state of a worker: the root and the delete list of its store, and the requests in
    its channel. *)
Record Worker : Type := mkWorker {
  wk_root : option Node;
  wk_kind : MutableKind;
  wk_status : WorkerStatus;
  wk_queue : list BatchOp;
}.

(** Where the coordinator stands: in the loop over the batch, in that of [remove_all_entries],
    in that of [merge_children], or done. *)
Inductive Phase (St : Type) : Type :=
| Splitting (batch : list BatchOp)
| RemovingAll (components : list PathComponent) (batch : list BatchOp)
| Merging
| Finished (r : result CreateProposalError (NodeStore St)).
Arguments Splitting {St}.
Arguments RemovingAll {St}.
Arguments Merging {St}.
Arguments Finished {St}.

Record ParallelState (St : Type) : Type := mkParallel {
  pm_proposal : NodeStore St;
  pm_root_branch : BranchNode;
  pm_workers : Children (option Worker);
  pm_responses : list (result failure Response);
  pm_phase : Phase St;
}.
Arguments mkParallel {St}.
Arguments pm_proposal {St}.
Arguments pm_root_branch {St}.
Arguments pm_workers {St}.
Arguments pm_responses {St}.
Arguments pm_phase {St}.

Definition with_phase {St} (p : Phase St) (s : ParallelState St) : ParallelState St :=
  mkParallel (pm_proposal s) (pm_root_branch s) (pm_workers s) (pm_responses s) p.

Definition with_root_value {St} (v : option Value) (s : ParallelState St) : ParallelState St :=
  let b := pm_root_branch s in
  mkParallel (pm_proposal s) (mkBranch (branch_partial_path b) v (branch_children b)) (pm_workers s) (pm_responses s) (pm_phase s).

Definition with_root_child {St} (i : PathComponent) (c : option Child) (s : ParallelState St) : ParallelState St :=
  let b := pm_root_branch s in
  mkParallel (pm_proposal s) (mkBranch (branch_partial_path b) (branch_value b) (Children_set (branch_children b) i c))
    (pm_workers s) (pm_responses s) (pm_phase s).

Definition with_proposal {St} (ns : NodeStore St) (s : ParallelState St) : ParallelState St :=
  mkParallel ns (pm_root_branch s) (pm_workers s) (pm_responses s) (pm_phase s).

Definition with_worker {St} (i : PathComponent) (w : Worker) (s : ParallelState St) : ParallelState St :=
  mkParallel (pm_proposal s) (pm_root_branch s) (Children_set (pm_workers s) i (Some w)) (pm_responses s) (pm_phase s).

Definition with_responses {St} (rs : list (result failure Response)) (s : ParallelState St) : ParallelState St :=
  mkParallel (pm_proposal s) (pm_root_branch s) (pm_workers s) rs (pm_phase s).

(** [UseParallel]. *)
Inductive UseParallel : Type :=
| Never
| BatchSize (required_size : Z)
| Always.

(** [should_parallelize]. *)
Definition should_parallelize (use_parallel : UseParallel) (batch_size_lower_bound : Z) : bool :=
  match use_parallel with
  | Never => false
  | Always => true
  | BatchSize required_size => required_size <=? batch_size_lower_bound
  end.

Section Parallel.
Context {St : Type} `{ReadableStorage St} `{VarInt} `{Digests}.
Variable alg : NodeHashAlgorithm.

(** The number of threads of the pool. *)
Variable threads : nat.

(** ** Stores *)

(** [NodeStore::from_root]. *)
Definition from_root (parent : NodeStore St) (root : option Node) : NodeStore St :=
  mkNodeStore root (Propose []) (ns_storage parent) (ns_deleted_node_tracking parent).

(** [NodeStore::take_deleted_nodes]. *)
Definition take_deleted_nodes (ns : NodeStore St) : list MaybePersisted * NodeStore St :=
  match ns_kind ns with
  | Propose deleted => (deleted, set_kind (Propose []) ns)
  | Recon => ([], ns)
  end.

(** [NodeStore::delete_nodes]. *)
Definition delete_nodes (nodes : list MaybePersisted) (ns : NodeStore St) : NodeStore St :=
  if ns_deleted_node_tracking ns then
    match ns_kind ns with
    | Propose deleted => set_kind (Propose (deleted ++ nodes)) ns
    | Recon => ns
    end
  else ns.

(** The store of a worker; the storage is shared. *)
Definition worker_store (w : Worker) (s : ParallelState St) : NodeStore St :=
  mkNodeStore (wk_root w) (wk_kind w) (ns_storage (pm_proposal s)) (ns_deleted_node_tracking (pm_proposal s)).

(** The state after a worker has used its store. *)
Definition put_worker_store (i : PathComponent) (status : WorkerStatus) (queue : list BatchOp) (ns : NodeStore St)
  (s : ParallelState St) : ParallelState St :=
  with_proposal (set_storage (ns_storage ns) (pm_proposal s)) (with_worker i (mkWorker (ns_root ns) (ns_kind ns) status queue) s).

(** ** Workers *)

(** A request, with the first nibble of the key skipped. *)
Definition worker_request (request : BatchOp) : store_op St unit :=
  let nibbles_iter := (NibblesIterator_next (NibblesIterator_new (op_key request))).2 in
  match request with
  | Put _ value => insert_from_iter alg nibbles_iter value
  | Delete _ => _ ← remove_from_iter alg nibbles_iter; mret tt
  | DeleteRange _ => _ ← remove_prefix_from_iter alg TRIE_FUEL nibbles_iter; mret tt
  end.

(** The response after the loop: the hashed subtrie and the delete list. *)
Definition worker_response (first : PathComponent) (ns : NodeStore St) : result failure Response * NodeStore St :=
  match ns_root ns with
  | None =>
      let (deleted, ns) := take_deleted_nodes ns in
      (Ok (mkResponse first None deleted), ns)
  | Some root =>
      match hash_helper alg root [first] (set_root None ns) with
      | (Ok (root_node, root_hash), ns) =>
          let (deleted, ns) := take_deleted_nodes ns in
          (Ok (mkResponse first (Some (ChildMaybePersisted root_node root_hash)) deleted), ns)
      | (Err e, ns) => (Err e, ns)
      end
  end.

Definition occupies (o : option Worker) : bool :=
  match o with
  | Some w => match wk_status w with Receiving | Failing => true | Spawned | Returned => false end
  | None => false
  end.

(** The senders of the requests are dropped before the merge. *)
Definition requests_closed (s : ParallelState St) : bool :=
  match pm_phase s with Merging => true | _ => false end.

(** The worker leaves its loop: it answers and returns to the pool. *)
Definition worker_answer (i : PathComponent) (w : Worker) (s : ParallelState St) : ParallelState St :=
  let (r, ns) := worker_response i (worker_store w s) in
  with_responses (pm_responses s ++ [r]) (put_worker_store i Returned (wk_queue w) ns s).

(** [worker_event_loop]: one turn of the loop, or what follows it.  [None] if the worker waits
    for a thread or for a request. *)
Definition worker_event_loop (i : PathComponent) (s : ParallelState St) : option (ParallelState St) :=
  match Children_get (pm_workers s) i with
  | None => None
  | Some w =>
      match wk_status w with
      | Spawned =>
          if Nat.ltb (length (filter occupies (pm_workers s))) threads
          then Some (with_worker i (mkWorker (wk_root w) (wk_kind w) Receiving (wk_queue w)) s)
          else None
      | Receiving =>
          match wk_queue w with
          | request :: queue =>
              match worker_request request (worker_store w s) with
              | (Ok _, ns) => Some (put_worker_store i Receiving queue ns s)
              | (Err e, ns) => Some (with_responses (pm_responses s ++ [Err e]) (put_worker_store i Failing queue ns s))
              end
          | [] => if requests_closed s then Some (worker_answer i w s) else None
          end
      | Failing => Some (worker_answer i w s)
      | Returned => None
      end
  end.

(** ** The coordinator *)

(** [force_root]. *)
Definition force_root (ns : NodeStore St) : result CreateProposalError BranchNode * NodeStore St :=
  match ns_root ns with
  | None => (Ok (mkBranch [] None Children_new), ns)
  | Some node =>
      (match force_branch_for_insert node with
       | Ok b => Ok b
       | Err _ => Err InvalidConversionToPathComponent
       end, set_root None ns)
  end.

(** [create_worker]. *)
Definition create_worker (i : PathComponent) (s : ParallelState St) : result failure (ParallelState St) :=
  let '(child_root, proposal) :=
    match Children_get (branch_children (pm_root_branch s)) i with
    | None => (Ok None, pm_proposal s)
    | Some child =>
        match merkle_read_for_update alg child (pm_proposal s) with
        | (Ok node, proposal) => (Ok (Some node), proposal)
        | (Err e, proposal) => (Err e, proposal)
        end
    end in
  match child_root with
  | Err e => Err e
  | Ok root =>
      let store := from_root proposal root in
      Ok (with_worker i (mkWorker (ns_root store) (ns_kind store) Spawned []) (with_proposal proposal (with_root_child i None s)))
  end.

(** [worker]: the worker of a nibble, created if there is none. *)
Definition worker (i : PathComponent) (s : ParallelState St) : result failure (ParallelState St) :=
  match Children_get (pm_workers s) i with
  | Some _ => Ok s
  | None => create_worker i s
  end.

(** [Sender::send]: fails if the worker has returned. *)
Definition send (i : PathComponent) (request : BatchOp) (s : ParallelState St) : option (ParallelState St) :=
  match Children_get (pm_workers s) i with
  | Some w =>
      match wk_status w with
      | Returned => None
      | _ => Some (with_worker i (mkWorker (wk_root w) (wk_kind w) (wk_status w) (wk_queue w ++ [request])) s)
      end
  | None => None
  end.

(** [find_fileio_error]. *)
Fixpoint find_fileio_error (responses : list (result failure Response)) : result failure unit :=
  match responses with
  | [] => Ok tt
  | Err e :: _ => Err e
  | Ok _ :: responses => find_fileio_error responses
  end.

(** A request to the worker of a nibble, and what becomes of the errors. *)
Definition dispatch (i : PathComponent) (request : BatchOp) (next : Phase St) (s : ParallelState St) : ParallelState St :=
  match worker i s with
  | Err e => with_phase (Finished (Err (ProposalFileIo e))) s
  | Ok s =>
      match send i request s with
      | Some s => with_phase next s
      | None =>
          with_phase (Finished (Err (match find_fileio_error (pm_responses s) with
                                     | Err e => ProposalFileIo e
                                     | Ok _ => SendError
                                     end))) s
      end
  end.

(** The split step for an operation. *)
Definition split_op (op : BatchOp) (batch : list BatchOp) (s : ParallelState St) : ParallelState St :=
  match check_batch_op alg op with
  | Err e => with_phase (Finished (Err e)) s
  | Ok _ =>
      match (NibblesIterator_next (NibblesIterator_new (op_key op))).1 with
      | None =>
          match op with
          | Put _ value => with_phase (Splitting batch) (with_root_value (Some value) s)
          | Delete _ => with_phase (Splitting batch) (with_root_value None s)
          | DeleteRange _ => with_phase (RemovingAll PathComponent_ALL batch) s
          end
      | Some first =>
          match PathComponent_try_new first with
          | None => with_phase (Finished (Err InvalidConversionToPathComponent)) s
          | Some i => dispatch i op (Splitting batch) s
          end
      end
  end.

(** [remove_all_entries], for one nibble. *)
Definition remove_entry (i : PathComponent) (next : Phase St) (s : ParallelState St) : ParallelState St :=
  if bool_decide (is_Some (Children_get (branch_children (pm_root_branch s)) i)) || bool_decide (is_Some (Children_get (pm_workers s) i))
  then dispatch i (DeleteRange []) next s
  else with_phase next s.

(** [merge_children], for one response. *)
Definition merge_response (response : Response) (s : ParallelState St) : ParallelState St :=
  with_root_child (first_path_component response) (response_root response)
    (with_proposal (delete_nodes (deleted_nodes response) (pm_proposal s)) s).

(** [postprocess_trie]. *)
Definition postprocess_trie (branch : BranchNode) : store_op St (option Node) :=
  match Children_iter_present (branch_children branch) with
  | [] => mret ((fun value => Leaf (mkLeaf [] value)) <$> branch_value branch)
  | (child_index, child) :: rest =>
      if bool_decide (is_Some (branch_value branch)) || negb (Nat.eqb (length rest) 0)
      then mret (Some (Branch branch))
      else
        child ← merkle_read_for_update alg child;
        mret (Some (update_partial_path child (child_index :: partial_path child)))
  end.

(** The end of [apply]. *)
Definition finish (s : ParallelState St) : ParallelState St :=
  match postprocess_trie (pm_root_branch s) (pm_proposal s) with
  | (Ok root, proposal) => with_phase (Finished (Ok (set_root root proposal))) s
  | (Err e, _) => with_phase (Finished (Err (ProposalFileIo e))) s
  end.

Definition has_returned (o : option Worker) : bool :=
  match o with
  | Some w => match wk_status w with Returned => true | _ => false end
  | None => true
  end.

(** One turn of the loop that the coordinator is in; [None] if it waits for a response. *)
Definition coordinator (s : ParallelState St) : option (ParallelState St) :=
  match pm_phase s with
  | Splitting [] => Some (with_phase Merging s)
  | Splitting (op :: batch) => Some (split_op op batch s)
  | RemovingAll [] batch => Some (with_phase (Splitting batch) (with_root_value None s))
  | RemovingAll (i :: components) batch => Some (remove_entry i (RemovingAll components batch) s)
  | Merging =>
      match pm_responses s with
      | Ok response :: responses => Some (with_responses responses (merge_response response s))
      | Err e :: _ => Some (with_phase (Finished (Err (ProposalFileIo e))) s)
      | [] => if forallb has_returned (pm_workers s) then Some (finish s) else None
      end
  | Finished _ => None
  end.

(** ** Runs *)

Inductive thread : Type :=
| Coordinator
| WorkerThread (i : PathComponent).

(** A step of a thread; nothing happens after [apply] has returned. *)
Definition step (t : thread) (s : ParallelState St) : option (ParallelState St) :=
  match pm_phase s, t with
  | Finished _, _ => None
  | _, Coordinator => coordinator s
  | _, WorkerThread i => if bool_decide (i ∈ PathComponent_ALL) then worker_event_loop i s else None
  end.

(** [ParallelMerkle::apply], up to the loop. *)
Definition apply_start (batch : list BatchOp) (ns : NodeStore St) : ParallelState St :=
  match force_root ns with
  | (Ok root_branch, ns) => mkParallel ns root_branch Children_new [] (Splitting batch)
  | (Err e, ns) => mkParallel ns (mkBranch [] None Children_new) Children_new [] (Finished (Err e))
  end.

(** A schedule and the state it leads to. *)
Inductive runs : list thread -> ParallelState St -> ParallelState St -> Prop :=
| runs_nil s : runs [] s s
| runs_cons t ts s1 s2 s3 : step t s1 = Some s2 -> runs ts s2 s3 -> runs (t :: ts) s1 s3.

(** The state that a schedule leads to, if every thread can act at its turn. *)
Fixpoint run (ts : list thread) (s : ParallelState St) : option (ParallelState St) :=
  match ts with
  | [] => Some s
  | t :: ts => s ← step t s; run ts s
  end.

Lemma run_runs ts s s' : run ts s = Some s' -> runs ts s s'.
Proof.
  revert s. induction ts as [|t ts IH]; intros s; cbn; [intros [= <-]; constructor|].
  destruct (step t s) as [s1|] eqn:Hs; [|done]. intros Hr. econstructor; [exact Hs | by apply IH].
Qed.

(** ** The policy *)

(** [RevisionManager::apply_batch]: serial or parallel, by the number of operations that the batch has at least. *)
Inductive apply_batch (use_parallel : UseParallel) (lower_bound : Z) (ns : NodeStore St) (batch : list BatchOp)
  : result CreateProposalError (NodeStore St) -> Prop :=
| apply_batch_in_serial :
    should_parallelize use_parallel lower_bound = false -> apply_batch use_parallel lower_bound ns batch (apply_batch_serial alg batch ns)
| apply_batch_in_parallel ts s r :
    should_parallelize use_parallel lower_bound = true -> runs ts (apply_start batch ns) s -> pm_phase s = Finished r ->
    apply_batch use_parallel lower_bound ns batch r.

End Parallel.
