(* ===== verification/ParallelSpec.v ===== *)
(** * What the workers of a parallel batch do

    The slots of the root: what each holds while its worker has requests, when the worker has
    answered, and when the answer has been merged, in terms of the map that the batch makes. *)

From S2P Require Import Prelude Primitives NodePath Node Codec NodeCodec Trie NodeStore Linear Merkle MerkleSpec MerkleInsert MerkleRemove TrieCanonical MerkleCorrect.
From S2P Require Import Rlp RlpSplice Hashing HashSpec HashHelper Placed ProofTypes ProofWire Batch Parallel.

(** ** Sums over the slots *)

Lemma ALL_seq : PathComponent_ALL = Z.of_nat <$> seq 0 MAX_CHILDREN.
Proof. reflexivity. Qed.

Lemma elem_of_ALL i : i ∈ PathComponent_ALL <-> is_nibble i.
Proof.
  rewrite ALL_seq, list_elem_of_fmap. unfold is_nibble. setoid_rewrite elem_of_seq. unfold MAX_CHILDREN, PathComponent_LEN. split.
  - intros (n & -> & Hn). lia.
  - intros Hi. exists (Z.to_nat i). lia.
Qed.

Lemma NoDup_ALL : NoDup PathComponent_ALL.
Proof. rewrite ALL_seq. apply NoDup_fmap_2; [intros a b; apply Nat2Z.inj | apply NoDup_seq]. Qed.

(** Slot by slot, up to what is allowed to be new. *)
Lemma slots_account {A} (P : A -> Prop) (l : list PathComponent) (f h : PathComponent -> list A) :
  (forall i, i ∈ l -> exists x, Forall P x /\ f i ++ x ≡ₚ h i) -> exists x, Forall P x /\ flat_map f l ++ x ≡ₚ flat_map h l.
Proof.
  induction l as [|i l IH]; intros Hall; [by exists []|].
  destruct (Hall i ltac:(by left)) as (x & Hx & Hix). destruct IH as (y & Hy & Hly); [intros j Hj; apply Hall; by right|].
  exists (x ++ y). split; [by apply Forall_app|]. cbn [flat_map]. rewrite <- Hix, <- Hly.
  rewrite <- !(assoc_L (++)). f_equiv. rewrite !(assoc_L (++)). f_equiv. apply Permutation_app_comm.
Qed.

Lemma slots_sum {A} (l : list PathComponent) (f g : PathComponent -> list A) :
  flat_map (fun i => f i ++ g i) l ≡ₚ flat_map f l ++ flat_map g l.
Proof.
  induction l as [|i l IH]; [done|]. cbn [flat_map]. rewrite IH, <- !(assoc_L (++)). f_equiv. rewrite !(assoc_L (++)). f_equiv. apply Permutation_app_comm.
Qed.

Lemma flat_map_ext_in {A} (l : list PathComponent) (f g : PathComponent -> list A) : (forall i, i ∈ l -> f i = g i) -> flat_map f l = flat_map g l.
Proof. induction l as [|i l IH]; intros Hall; [done|]. cbn. rewrite (Hall i) by (by left). f_equal. apply IH. intros j Hj. apply Hall. by right. Qed.

(** Replacing the entry of a slot. *)
Definition slot_set {A} (f : PathComponent -> A) (i : PathComponent) (x : A) : PathComponent -> A := fun j => if j =? i then x else f j.

Lemma slot_set_eq {A} (f : PathComponent -> A) i x : slot_set f i x i = x.
Proof. unfold slot_set. by rewrite Z.eqb_refl. Qed.

Lemma slot_set_ne {A} (f : PathComponent -> A) i x j : j <> i -> slot_set f i x j = f j.
Proof. intros Hne. unfold slot_set. by rewrite (proj2 (Z.eqb_neq _ _) Hne). Qed.

Lemma slots_append {A} (f : PathComponent -> list A) i x :
  is_nibble i -> flat_map (slot_set f i (f i ++ x)) PathComponent_ALL ≡ₚ flat_map f PathComponent_ALL ++ x.
Proof.
  intros Hi%elem_of_ALL. pose proof NoDup_ALL as Hn. revert Hi Hn. generalize PathComponent_ALL as l. intros l.
  induction l as [|j l IH]; [by intros ?%not_elem_of_nil|]. intros Hi [Hj Hl]%NoDup_cons. cbn [flat_map].
  destruct (decide (j = i)) as [->|Hne].
  - rewrite slot_set_eq, (flat_map_ext_in l _ f); [|intros k Hk; apply slot_set_ne; by intros ->].
    rewrite <- !(assoc_L (++)). f_equiv. apply Permutation_app_comm.
  - rewrite slot_set_ne by done. apply elem_of_cons in Hi as [->|Hi]; [done|]. by rewrite (IH Hi Hl), (assoc_L (++)).
Qed.

Lemma kids_handles_slots ks : Children_wf ks -> kids_handles ks = flat_map (fun i => kid_handles (Children_get ks i)) PathComponent_ALL.
Proof.
  intros Hk. unfold kids_handles. rewrite ALL_seq, <- Hk. clear Hk.
  assert (Hgen : forall b, flat_map kid_handles ks = flat_map (fun i => kid_handles (mjoin (ks !! (Z.to_nat i - b)%nat))) (Z.of_nat <$> seq b (length ks))).
  { induction ks as [|o ks IH]; intros b; [done|]. cbn [flat_map length seq fmap list_fmap]. f_equal; [by rewrite Nat2Z.id, Nat.sub_diag|].
    rewrite (IH (S b)). apply flat_map_ext_in. intros i (n & -> & [Hn _]%elem_of_seq)%list_elem_of_fmap. rewrite Nat2Z.id.
    by replace (n - b)%nat with (S (n - S b)) by lia. }
  rewrite (Hgen 0%nat). apply flat_map_ext_in. intros i _. by rewrite Nat.sub_0_r.
Qed.

(** ** Hashing and handles *)

Definition in_memory (m : MaybePersisted) : Prop := exists n, m = Unpersisted n.

Lemma same_or_fresh_handles g h : same_or_fresh g h -> exists x, Forall in_memory x /\ option_list g ++ x ≡ₚ option_list h.
Proof. intros [->|[-> [n ->]]]; [by exists []; rewrite app_nil_r | exists [Unpersisted n]; split; [repeat constructor; by exists n | done]]. Qed.

Section Settled.
Context `{Digests} `{VarInt}.
Variable alg : NodeHashAlgorithm.

Lemma settles_handles full t u : settles alg full t u -> exists x, Forall in_memory x /\ handles t ++ x ≡ₚ handles u.
Proof.
  revert full u. induction t as [pp v ks IH] using trie_ind'. intros full u Hs. inversion Hs as [? ? ? w ? us Hk Hu _ Hslots]; subst.
  rewrite !handles_T, !kids_handles_slots by done. apply slots_account. intros i Hi%elem_of_ALL. specialize (Hslots i Hi).
  inversion Hslots as [|? ? g h t u Hgh Htu Ha Hb]; [by exists []|]. cbn [kid_handles].
  destruct (same_or_fresh_handles g h Hgh) as (x & Hx & Hgx).
  destruct (IH (Z.to_nat i) g t ltac:(by apply Children_get_Some) _ _ Htu) as (y & Hy & Hty).
  exists (x ++ y). split; [by apply Forall_app|]. rewrite <- Hgx, <- Hty, <- !(assoc_L (++)). f_equiv. rewrite !(assoc_L (++)). f_equiv. apply Permutation_app_comm.
Qed.

Lemma settled_value_Some full v hs : is_Some (settled_value alg full v hs) <-> is_Some v.
Proof. unfold settled_value. destruct (_ && _); [|done]. rewrite fmap_is_Some. done. Qed.

Lemma settles_wf full t u : settles alg full t u -> trie_wf t -> trie_wf u.
Proof.
  revert full u. induction t as [pp v ks IH] using trie_ind'. intros full u Hs (Hp & Hk & Hkids)%trie_wf_inv. inversion Hs as [? ? ? w ? us _ Hu _ Hslots]; subst.
  apply trie_wf_intro; [done | done|]. intros i h u Hi Hui. specialize (Hslots i Hi). rewrite Hui in Hslots.
  inversion Hslots as [|? ? g ? t ? _ Htu Ha]; subst. eapply (IH (Z.to_nat i) g t); [by apply Children_get_Some | exact Htu | by eapply Hkids].
Qed.

Lemma settles_canonical full t u : settles alg full t u -> canonical t -> canonical u.
Proof.
  revert full u. induction t as [pp v ks IH] using trie_ind'. intros full u Hs Hc. inversion Hs as [? ? ? w ? us Hk Hu Hw Hslots]; subst.
  apply canonical_iff in Hc as [Htwo Hcan]; [|done]. apply canonical_iff; [done|]. split.
  - intros ->. assert (v = None) as ->. { destruct Hw as [->|Hw]; [done|]. apply eq_None_not_Some. rewrite <- (settled_value_Some full v (kid_hashes alg full ks)), <- Hw. by intros [? ?]. }
    destruct (Htwo eq_refl) as (i & j & Hi & Hj & Hij & Hsi & Hsj). exists i, j.
    split_and!; [done | done | done | by apply (settles_slot_iff _ _ _ _ _ (Hslots i Hi)) | by apply (settles_slot_iff _ _ _ _ _ (Hslots j Hj))].
  - intros i h u Hi Hui. specialize (Hslots i Hi). rewrite Hui in Hslots. inversion Hslots as [|? ? g ? t ? _ Htu Ha]; subst.
    eapply (IH (Z.to_nat i) g t); [by apply Children_get_Some | exact Htu | by eapply Hcan].
Qed.

End Settled.

(** ** Maps of paths *)

(** The map of byte keys as a function of nibble paths. *)
Definition path_get (m : gmap bytes Value) (k : Path) : option Value :=
  if decide (k = nibbles_of (bytes_iter k)) then m !! bytes_iter k else None.

Lemma path_get_nibbles m b : path_get m (nibbles_of b) = m !! b.
Proof. unfold path_get. by rewrite bytes_iter_nibbles_of, decide_True. Qed.

Lemma path_get_Some m k x : path_get m k = Some x <-> exists b, k = nibbles_of b /\ m !! b = Some x.
Proof.
  split; [|intros (b & -> & ?); by rewrite path_get_nibbles]. unfold path_get. case_decide as Hk; [|done]. intros Hx. by exists (bytes_iter k).
Qed.

(** The keys of a map are byte strings short enough for the recursion. *)
Definition map_ok (m : gmap bytes Value) : Prop := forall b x, m !! b = Some x -> is_bytes b /\ (2 * length b < TRIE_FUEL)%nat.

Lemma contents_paths t m : contents TRIE_FUEL t m <-> map_ok m /\ forall k, is_path k -> otget t k = path_get m k.
Proof.
  split.
  - intros [Hget Hkeys Hb]. split; [done|]. intros k Hk. destruct (otget t k) as [x|] eqn:Hx.
    + destruct (Hkeys k x Hk Hx) as (b & Hbb & ->). by rewrite path_get_nibbles, <- Hget.
    + destruct (path_get m k) as [x|] eqn:Hp; [|done]. apply path_get_Some in Hp as (b & -> & Hmb). rewrite Hget in Hx by (by eapply Hb). congruence.
  - intros [Hm Hget]. split; [|intros k x Hk | exact Hm].
    + intros b Hb. by rewrite Hget, path_get_nibbles by (by apply is_path_nibbles_of).
    + rewrite Hget by done. intros (b & -> & Hmb)%path_get_Some. exists b. split; [by eapply Hm | done].
Qed.

(** What an operation on the path [p] makes of a function of paths. *)
Definition op_at (op : BatchOp) (p : Path) (f : Path -> option Value) (k : Path) : option Value :=
  match op with
  | Put _ value => if decide (k = p) then Some value else f k
  | Delete _ => if decide (k = p) then None else f k
  | DeleteRange _ => if below p k then None else f k
  end.

Lemma op_at_ext op p f g k : f k = g k -> op_at op p f k = op_at op p g k.
Proof. intros Hfg. destruct op; cbn; by rewrite Hfg. Qed.

Lemma path_get_op op m k : path_get (batch_op_map m op) k = op_at op (nibbles_of (op_key op)) (path_get m) k.
Proof.
  destruct (decide (k = nibbles_of (bytes_iter k))) as [->|Hno].
  - rewrite path_get_nibbles. generalize (bytes_iter k) as b. intros b. destruct op as [key v|key|p]; cbn [batch_op_map op_at op_key]; rewrite path_get_nibbles.
    + case_decide as Hb; [apply nibbles_of_inj in Hb as ->; apply lookup_insert_eq|]. apply lookup_insert_ne. congruence.
    + case_decide as Hb; [apply nibbles_of_inj in Hb as ->; apply lookup_delete_eq|]. apply lookup_delete_ne. congruence.
    + apply filter_prefix_lookup.
  - assert (Hk : forall b, k <> nibbles_of b) by (intros b ->; by rewrite bytes_iter_nibbles_of in Hno).
    transitivity (@None Value); [unfold path_get; by rewrite decide_False|]. unfold op_at.
    assert (Hn : path_get m k = None) by (unfold path_get; by rewrite decide_False). rewrite Hn.
    destruct op; [by rewrite decide_False by apply Hk.. | by destruct (below _ _)].
Qed.

Lemma map_ok_op op m : is_bytes (op_key op) -> (2 * length (op_key op) < TRIE_FUEL)%nat -> map_ok m -> map_ok (batch_op_map m op).
Proof.
  intros Hb Hl Hm b x. destruct op as [key v|key|p]; cbn in *.
  - rewrite lookup_insert_Some. intros [[<- _]|[_ Hx]]; [done | by eapply Hm].
  - rewrite lookup_delete_Some. intros [_ Hx]. by eapply Hm.
  - rewrite map_lookup_filter_Some. intros [Hx _]. by eapply Hm.
Qed.

(** The part of a map below a nibble. *)
Definition slice (m : gmap bytes Value) (i : PathComponent) (k : Path) : option Value := path_get m (i :: k).

Lemma below_cons i j p k : below (i :: p) (j :: k) = (i =? j) && below p k.
Proof. unfold below. cbn [strip_prefix]. destruct (i =? j); [done | by apply bool_decide_false; intros [? ?]]. Qed.

Lemma below_nil k : below [] k = true.
Proof. unfold below. apply bool_decide_true. by eexists. Qed.

Lemma slice_op op m j p i k :
  nibbles_of (op_key op) = j :: p -> slice (batch_op_map m op) i k = if i =? j then op_at op p (slice m i) k else slice m i k.
Proof.
  intros Hp. unfold slice. rewrite path_get_op, Hp. destruct op; cbn [op_at]; [| |rewrite below_cons, (Z.eqb_sym j i); by destruct (i =? j)].
  all: destruct (Z.eqb_spec i j) as [->|Hne]; [|by rewrite decide_False by congruence].
  all: destruct (decide (k = p)) as [->|Hk]; [by rewrite !decide_True | by rewrite !decide_False by congruence].
Qed.

(** An operation on the empty key. *)
Lemma slice_op_nil op m i k :
  op_key op = [] -> slice (batch_op_map m op) i k = match op with DeleteRange _ => None | _ => slice m i k end.
Proof. intros Hk. unfold slice. rewrite path_get_op, Hk. destruct op; cbn [op_at nibbles_of]; [by rewrite decide_False.. | by rewrite below_nil]. Qed.

(** The requests in a channel, in order. *)
Definition requests_get (requests : list BatchOp) (f : Path -> option Value) : Path -> option Value :=
  foldl (fun f op => op_at op (tail (nibbles_of (op_key op))) f) f requests.

Lemma requests_get_ext requests f g k : (forall k, is_path k -> f k = g k) -> is_path k -> requests_get requests f k = requests_get requests g k.
Proof.
  revert f g. induction requests as [|op requests IH]; intros f g Hfg Hk; [by apply Hfg|]. cbn. apply IH; [|done]. intros k' Hk'. apply op_at_ext. by apply Hfg.
Qed.

(** An operation that a worker is sent. *)
Definition request_ok (op : BatchOp) : Prop := is_bytes (op_key op) /\ (2 * length (op_key op) < TRIE_FUEL)%nat.

(** ** Workers *)

Section Workers.
Context {St : Type} `{ReadableStorageLaws St} `{VarInt} `{DigestsLaws}.
Variables (alg : NodeHashAlgorithm) (rd : LinearAddress -> option Node).

Lemma length_tail {A} (l : list A) : length (tail l) = (length l - 1)%nat.
Proof. destruct l; cbn; lia. Qed.

Lemma skip_first key :
  is_bytes key -> from_nibbles_iterator (NibblesIterator_next (NibblesIterator_new key)).2 = tail (nibbles_of key) /\
  (NibblesIterator_next (NibblesIterator_new key)).1 = head (nibbles_of key).
Proof.
  intros Hk. pose proof (next_remaining _ (NibblesIterator_new_wf key Hk)) as Hn. rewrite remaining_new in Hn.
  destruct (NibblesIterator_next _) as [o it] eqn:He. destruct Hn as (Hwf & -> & Hr). split; [|done]. cbn [snd]. unfold from_nibbles_iterator.
  rewrite collect_remaining; [done | done|]. rewrite Hr. unfold NibblesIterator_next in He. case_match; injection He as _ <-; cbn [ni_tail NibblesIterator_new];
    rewrite length_tail, length_nibbles_of; unfold BYTES_PER_NIBBLE; lia.
Qed.

Lemma tail_path key : is_bytes key -> is_path (tail (nibbles_of key)).
Proof. intros Hk%is_path_nibbles_of. destruct (nibbles_of key); [done | by apply Forall_cons in Hk as [_ ?]]. Qed.

(** The keys of the trie of a worker are short enough. *)
Definition short (t : option trie) : Prop := forall k x, is_path k -> otget t k = Some x -> (S (length k) < TRIE_FUEL)%nat.

Lemma short_height t : owf t -> ocanonical t -> short t -> (from_option theight 0 t <= TRIE_FUEL)%nat.
Proof.
  intros Hwf Hc Hs. destruct t as [t|]; cbn; [|lia]. assert (Hh : (theight t <= S (TRIE_FUEL - 1))%nat); [|unfold TRIE_FUEL in *; lia].
  apply canonical_height; [by apply Hwf | by apply Hc|]. intros k x Hk Hx. specialize (Hs k x Hk Hx). lia.
Qed.

(** A request, on the store of a worker. *)
Lemma worker_request_ok op ns t pfx :
  request_ok op -> represents alg rd ns t -> ocanonical t -> short t -> oplaced alg rd pfx (ns_root ns) ->
  exists ns' t' hs, worker_request alg op ns = (Ok tt, ns') /\ transition alg rd ns t ns' t' hs /\ short t' /\ oplaced alg rd pfx (ns_root ns') /\
    forall k, is_path k -> otget t' k = op_at op (tail (nibbles_of (op_key op))) (otget t) k.
Proof.
  intros [Hb Hl] Hr Hc Hs Hp. destruct (skip_first (op_key op) Hb) as [Hit _]. pose proof (tail_path _ Hb) as Hpath.
  unfold worker_request. set (it := (NibblesIterator_next _).2) in *. rewrite <- Hit in Hpath |- *. pose proof Hr as (Hh & _ & Hwf).
  assert (Hshort : forall t', (forall k, is_path k -> otget t' k = op_at op (from_nibbles_iterator it) (otget t) k) -> short t').
  { intros t' He k x Hk. rewrite He by done. destruct op; cbn [op_at op_key] in *; [| |destruct (below _ _); [done | by apply Hs]].
    - case_decide as Hkp; [|by apply Hs]. intros _. rewrite Hkp, Hit, length_tail, length_nibbles_of. unfold TRIE_FUEL, MAX_KEY_BYTES in *. lia.
    - case_decide; [done | by apply Hs]. }
  destruct op as [key v|key|p]; cbn [op_key op_at] in *.
  - destruct (insert_from_iter_ok alg rd it v ns t Hpath Hr) as (ns' & t' & hs & Hrun & Htr & He). exists ns', (Some t'), hs.
    split_and!; [done | done | by apply Hshort | by eapply insert_from_iter_placed | done].
  - destruct (remove_from_iter_ok alg rd it ns t Hpath Hr) as (ns' & t' & hs & Hrun & Htr & He). exists ns', t', hs.
    split_and!; [by erewrite store_bind_Ok | done | by apply Hshort | by eapply remove_from_iter_placed | done].
  - destruct (remove_prefix_from_iter_ok alg rd TRIE_FUEL it ns t Hpath Hr (short_height _ Hwf Hc Hs)) as (ns' & t' & hs & Hrun & Htr & He).
    exists ns', t', hs. split_and!; [by erewrite store_bind_Ok | done | by apply Hshort | by eapply remove_prefix_from_iter_placed | done].
Qed.

(** [child_ok i f exact c hs]: the slot [i] of the root holds what [f] says, hashed or not, with the
    handles [hs]; storage roots may have been spliced into accounts unless it is [exact]. *)
Definition child_ok (i : PathComponent) (f : Path -> option Value) (exact : bool) (c : option Child) (hs : list MaybePersisted) : Prop :=
  match c with
  | None => (forall k, is_path k -> f k = None) /\ hs = []
  | Some c => exists n u w,
      child_node rd c = Some n /\ rnode rd n u /\ placed_child alg rd [] false i c /\ trie_wf w /\ canonical w /\
      settles alg (i :: tpath w) w u /\ (exact = true -> w = u) /\ (forall k, is_path k -> tget w k = f k) /\
      hs = option_list (child_handle c) ++ handles u
  end.

Lemma child_ok_ext i f g exact c hs : (forall k, is_path k -> f k = g k) -> child_ok i f exact c hs -> child_ok i g exact c hs.
Proof.
  intros Hfg. destruct c as [c|]; cbn.
  - intros (n & u & w & ? & ? & ? & ? & ? & ? & ? & Hw & ?). exists n, u, w. split_and!; try done. intros k Hk. by rewrite <- Hfg, Hw.
  - intros [Hf ->]. split; [|done]. intros k Hk. by rewrite <- Hfg, Hf.
Qed.

Lemma child_ok_weaken i f c hs : child_ok i f true c hs -> child_ok i f false c hs.
Proof. destruct c as [c|]; [|done]. intros (n & u & w & ? & ? & ? & ? & ? & ? & _ & ?). by exists n, u, w. Qed.

(** Values that can be hashed below the nibble [i]. *)
Definition hashable (f : Path -> option Value) : Prop :=
  forall k x, is_path k -> f k = Some x -> value_ok x /\ Nat.even (S (length k)) = true /\ Z.of_nat (S (length k)) <= ISIZE_MAX.

(** The answer of a worker: its subtrie, hashed, and its delete list. *)
Lemma worker_response_ok i ns t d f :
  is_nibble i -> represents alg rd ns t -> ocanonical t -> oplaced alg rd [i] (ns_root ns) -> ns_kind ns = Propose d ->
  (forall k, is_path k -> otget t k = f k) -> hashable f ->
  exists c ns' x hs, worker_response alg i ns = (Ok (mkResponse i c d), ns') /\ holds alg rd ns' /\ child_ok i f false c hs /\
    Forall in_memory x /\ ohandles t ++ x ≡ₚ hs.
Proof.
  intros Hi (Hh & Hr & Hwf) Hc Hp Hkind Hf Hv. unfold worker_response. destruct (ns_root ns) as [root|] eqn:Hroot, t as [t|]; try done; cbn in Hr.
  - assert (Hbt : byte_trie [i] t).
    { apply canonical_byte_trie; [by apply Hwf | by apply Hc|]. intros k x Hk Hx. apply (Hv k x Hk). by rewrite <- Hf. }
    assert (Hh' : holds alg rd (set_root None ns)) by done.
    destruct (hash_helper_inner_ok alg rd t root [i] [i] None (set_root None ns) (mode_same _ _ _ eq_refl) ltac:(by repeat constructor; apply Hi) (placed_dirty _ _ _ _ _ Hr (Hp root eq_refl))
      (Hwf t eq_refl) (Hc t eq_refl) Hbt Hh') as (n & u & ns' & Hrun & (Hh2 & _ & Ht2 & Hk2) & Hcom & Hset & _).
    assert (Hkd : ns_kind ns' = Propose d) by (rewrite Hk2; cbn; by rewrite Hkind; destruct (ns_deleted_node_tracking ns)).
    unfold hash_helper. rewrite Hrun. unfold take_deleted_nodes. rewrite Hkd. destruct (settles_handles alg _ _ _ Hset) as (x & Hx & Hhs).
    eexists _, _, (Unpersisted n :: x), _. split; [reflexivity|]. split; [exact Hh2|]. split; [|split].
    + exists n, u, t. split_and!; [done | by eapply committed_rnode | | by apply Hwf | by apply Hc | exact Hset | done | exact Hf | reflexivity].
      eapply placed_hashed; [reflexivity | reflexivity | exact Hcom | eapply settles_wf; [exact Hset | by apply Hwf] |].
      intros _. unfold kid_hash. cbn [app]. rewrite (settles_tpath _ _ _ _ Hset). symmetry. by eapply settles_thash.
    + constructor; [by exists n | done].
    + cbn. rewrite <- Hhs. by rewrite Permutation_middle.
  - unfold take_deleted_nodes. rewrite Hkind. eexists None, _, [], []. split; [reflexivity|]. split; [done|]. split; [|done]. split; [|done]. intros k Hk. by rewrite <- Hf.
Qed.

(** A worker is given the subtrie of an untouched slot. *)
Lemma child_read_ok i f c hs ns :
  is_nibble i -> holds alg rd ns -> child_ok i f true (Some c) hs ->
  exists n t ns', merkle_read_for_update alg c ns = (Ok n, ns') /\ recorded alg rd ns (option_list (child_handle c)) ns' /\
    rnode rd n t /\ trie_wf t /\ canonical t /\ placed alg rd [i] n /\ (forall k, is_path k -> tget t k = f k) /\
    hs = option_list (child_handle c) ++ handles t.
Proof.
  intros Hi Hh (n & u & w & Hn & Hr & Hp & Hwf & Hc & _ & Hwu & Hf & Hhs). rewrite <- (Hwu eq_refl) in *. clear Hwu.
  destruct (merkle_read_for_update_ok alg rd ns c n Hh Hn) as (ns' & Hrun & Hrec). exists n, w, ns'. split_and!; try done.
  by destruct (read_placed alg rd [] false i c ns n ns' Hh Hp Hrun).
Qed.

End Workers.
