(* ===== verification/ParallelCorrect.v ===== *)
(** * Parallel batches are serial batches

    Whatever the order in which the threads act, a parallel batch ends with the trie of the map
    that the operations make one after the other, with the right hashes in it and every node
    that left it in the delete list. *)

From S2P Require Import Prelude Primitives NodePath Node Codec NodeCodec Trie NodeStore Linear Merkle MerkleSpec MerkleInsert MerkleRemove TrieCanonical MerkleCorrect.
From S2P Require Import Rlp RlpSplice Hashing HashSpec HashHelper Placed ProofTypes ProofWire Batch Parallel ParallelSpec.

Section Correct.
Context {St : Type} `{ReadableStorageLaws St} `{VarInt} `{DigestsLaws}.
Variables (alg : NodeHashAlgorithm) (rd : LinearAddress -> option Node) (threads : nat).

(** Whether deletions are tracked, the delete list at the start, and the handles that the slots of the root have at the start. *)
Variables (tracking : bool) (deleted0 : list MaybePersisted) (handles0 : PathComponent -> list MaybePersisted).

(** What is recorded of a list of handles. *)
Definition kept (hs : list MaybePersisted) : list MaybePersisted := if tracking then hs else [].

Lemma kept_app a b : kept (a ++ b) = kept a ++ kept b.
Proof. unfold kept. by destruct tracking. Qed.

Lemma track_all (hs d : list MaybePersisted) : foldl track_deleted (Propose d) hs = Propose (d ++ hs).
Proof. revert d. induction hs as [|h hs IH]; intros d; cbn; [by rewrite app_nil_r | by rewrite IH, <- app_assoc]. Qed.

Lemma track_kept (hs d : list MaybePersisted) : (if tracking then foldl track_deleted (Propose d) hs else Propose d) = Propose (d ++ kept hs).
Proof. unfold kept. destruct tracking; [apply track_all | by rewrite app_nil_r]. Qed.

(** ** A slot of the root

    The slot [i], with what its worker has been sent taken into account, holds what [f] says:
    nothing has been sent; the worker is at work; it has answered; or the answer has been merged.
    [dl] is what the coordinator has recorded of the slot. *)
Inductive slot_state (i : PathComponent) (f : Path -> option Value) : option Child -> option Worker -> list Response -> list MaybePersisted -> Prop :=
| slot_idle c hs :
    child_ok alg rd i f true c hs -> handles0 i ≡ₚ hs -> slot_state i f c None [] []
| slot_working w t hs dl :
    wk_status w = Spawned \/ wk_status w = Receiving ->
    wk_kind w = Propose (kept hs) -> rroot rd (wk_root w) t -> owf t -> ocanonical t -> short t -> oplaced alg rd [i] (wk_root w) ->
    Forall request_ok (wk_queue w) -> (forall k, is_path k -> requests_get (wk_queue w) (otget t) k = f k) ->
    handles0 i ≡ₚ dl ++ hs ++ ohandles t -> slot_state i f None (Some w) [] dl
| slot_answered w r hs ch x dl :
    wk_status w = Returned -> child_ok alg rd i f false (response_root r) ch -> deleted_nodes r = kept hs ->
    Forall in_memory x -> handles0 i ++ x ≡ₚ dl ++ hs ++ ch -> slot_state i f None (Some w) [r] dl
| slot_merged w c ch x dl :
    wk_status w = Returned -> child_ok alg rd i f false c ch -> Forall in_memory x -> handles0 i ++ x ≡ₚ dl ++ ch ->
    slot_state i f c (Some w) [] dl.

Lemma slot_state_ext i f g c w rs dl : (forall k, is_path k -> f k = g k) -> slot_state i f c w rs dl -> slot_state i g c w rs dl.
Proof.
  intros Hfg Hs. destruct Hs.
  - eapply slot_idle; [by eapply child_ok_ext | done].
  - eapply slot_working; try done. intros k Hk. rewrite <- Hfg by done. auto.
  - eapply slot_answered; try done. by eapply child_ok_ext.
  - eapply slot_merged; try done. by eapply child_ok_ext.
Qed.

(** ** The state of the threads *)

Abbreviation answers_of i := (filter (fun r => first_path_component r = i)).

(** The slots hold what [f] says, and the root has the value [v]. *)
Record slots_hold (f : PathComponent -> Path -> option Value) (v : option Value) (s : ParallelState St) : Prop := {
  sh_holds : holds alg rd (pm_proposal s);
  sh_tracking : ns_deleted_node_tracking (pm_proposal s) = tracking;
  sh_path : branch_partial_path (pm_root_branch s) = [];
  sh_value : branch_value (pm_root_branch s) = v;
  sh_children : Children_wf (branch_children (pm_root_branch s));
  sh_workers : Children_wf (pm_workers s);
  sh_slots : exists rs hs dl,
    pm_responses s = Ok <$> rs /\ Forall (fun r => is_nibble (first_path_component r)) rs /\
    ns_kind (pm_proposal s) = Propose (deleted0 ++ kept hs) /\ hs ≡ₚ flat_map dl PathComponent_ALL /\
    forall i, is_nibble i -> slot_state i (f i) (Children_get (branch_children (pm_root_branch s)) i) (Children_get (pm_workers s) i) (answers_of i rs) (dl i);
}.

Lemma slots_hold_ext f g v s : (forall i k, is_nibble i -> is_path k -> f i k = g i k) -> slots_hold f v s -> slots_hold g v s.
Proof.
  intros Hfg [? ? ? ? ? ? (rs & hs & dl & ? & ? & ? & ? & Hs)]. split; try done. exists rs, hs, dl. split_and!; try done.
  intros i Hi. eapply slot_state_ext; [|by apply Hs]. intros k. by apply Hfg.
Qed.

Lemma slots_hold_phase f v s p : slots_hold f v s -> slots_hold f v (with_phase p s).
Proof. by intros []. Qed.

Lemma slots_hold_value f v w s : slots_hold f v s -> slots_hold f w (with_root_value w s).
Proof. by intros []. Qed.

(** A step that concerns the slot [i] only, and records the handles [x]. *)
Lemma slots_hold_local f v s i g s' :
  slots_hold f v s -> is_nibble i -> holds alg rd (pm_proposal s') -> ns_deleted_node_tracking (pm_proposal s') = tracking ->
  (exists c, pm_root_branch s' = mkBranch (branch_partial_path (pm_root_branch s)) (branch_value (pm_root_branch s)) c /\ Children_wf c /\
     forall j, is_nibble j -> j <> i -> Children_get c j = Children_get (branch_children (pm_root_branch s)) j) ->
  Children_wf (pm_workers s') -> (forall j, is_nibble j -> j <> i -> Children_get (pm_workers s') j = Children_get (pm_workers s) j) ->
  (forall rs, pm_responses s = Ok <$> rs -> exists rs', pm_responses s' = Ok <$> rs' /\ (Forall (fun r => is_nibble (first_path_component r)) rs ->
     Forall (fun r => is_nibble (first_path_component r)) rs') /\ (forall j, j <> i -> answers_of j rs' = answers_of j rs) /\
     forall dl, slot_state i (f i) (Children_get (branch_children (pm_root_branch s)) i) (Children_get (pm_workers s) i) (answers_of i rs) dl ->
       exists x, (forall d, ns_kind (pm_proposal s) = Propose d -> ns_kind (pm_proposal s') = Propose (d ++ kept x)) /\
         slot_state i g (Children_get (branch_children (pm_root_branch s')) i) (Children_get (pm_workers s') i) (answers_of i rs') (dl ++ x)) ->
  slots_hold (slot_set f i g) v s'.
Proof.
  intros [Hh Ht Hp Hv Hc Hw (rs & hs & dl & Hrs & Hnib & Hk & Hperm & Hs)] Hi Hh' Ht' (c & Hb & Hcw & Hcj) Hw' Hwj Hresp.
  destruct (Hresp rs Hrs) as (rs' & Hrs' & Hnib' & Hans & Hslot). destruct (Hslot _ (Hs i Hi)) as (x & Hk' & Hslot'). specialize (Hk' _ Hk).
  split; try done; try (by rewrite Hb).
  exists rs', (hs ++ x), (slot_set dl i (dl i ++ x)). split_and!; [done | by apply Hnib' | | |].
  - by rewrite Hk', kept_app, app_assoc.
  - by rewrite slots_append, Hperm.
  - intros j Hj. destruct (decide (j = i)) as [->|Hne]; [by rewrite !slot_set_eq|].
    rewrite !slot_set_ne, Hans, Hwj, Hb by done. cbn [branch_children]. rewrite Hcj by done. by apply Hs.
Qed.

Lemma slots_hold_step f v s i g s' x :
  slots_hold f v s -> is_nibble i -> holds alg rd (pm_proposal s') -> ns_deleted_node_tracking (pm_proposal s') = tracking ->
  (forall d, ns_kind (pm_proposal s) = Propose d -> ns_kind (pm_proposal s') = Propose (d ++ kept x)) ->
  (exists c, pm_root_branch s' = mkBranch (branch_partial_path (pm_root_branch s)) (branch_value (pm_root_branch s)) c /\ Children_wf c /\
     forall j, is_nibble j -> j <> i -> Children_get c j = Children_get (branch_children (pm_root_branch s)) j) ->
  Children_wf (pm_workers s') -> (forall j, is_nibble j -> j <> i -> Children_get (pm_workers s') j = Children_get (pm_workers s) j) ->
  (forall rs, pm_responses s = Ok <$> rs -> exists rs', pm_responses s' = Ok <$> rs' /\ (Forall (fun r => is_nibble (first_path_component r)) rs ->
     Forall (fun r => is_nibble (first_path_component r)) rs') /\ (forall j, j <> i -> answers_of j rs' = answers_of j rs) /\
     forall dl, slot_state i (f i) (Children_get (branch_children (pm_root_branch s)) i) (Children_get (pm_workers s) i) (answers_of i rs) dl ->
       slot_state i g (Children_get (branch_children (pm_root_branch s')) i) (Children_get (pm_workers s') i) (answers_of i rs') (dl ++ x)) ->
  slots_hold (slot_set f i g) v s'.
Proof.
  intros Hs Hi Hh' Ht' Hk' Hb Hw' Hwj Hresp. apply (slots_hold_local f v s i g s' Hs Hi Hh' Ht' Hb Hw' Hwj). intros rs Hrs.
  destruct (Hresp rs Hrs) as (rs' & ? & ? & ? & Hslot). exists rs'. split_and!; try done. intros dl Hdl. exists x. split; [exact Hk' | by apply Hslot].
Qed.

Lemma slots_hold_same f v s i : slots_hold (slot_set f i (f i)) v s -> slots_hold f v s.
Proof. apply slots_hold_ext. intros j k _ _. unfold slot_set. by destruct (Z.eqb_spec j i) as [->|]. Qed.

(** A step of a worker: its store and the answers change. *)
Lemma slots_hold_worker f v s i w' ns rs1 :
  slots_hold f v s -> is_nibble i -> holds alg rd ns -> Forall (fun r => first_path_component r = i) rs1 ->
  (forall rs dl, slot_state i (f i) (Children_get (branch_children (pm_root_branch s)) i) (Children_get (pm_workers s) i) rs dl ->
     slot_state i (f i) (Children_get (branch_children (pm_root_branch s)) i) (Some w') (rs ++ rs1) dl) ->
  slots_hold f v (with_responses (pm_responses s ++ (Ok <$> rs1)) (with_proposal (set_storage (ns_storage ns) (pm_proposal s)) (with_worker i w' s))).
Proof.
  intros Hs Hi Hh Hrs1 Hslot. apply (slots_hold_same _ _ _ i). pose proof Hs as [_ Ht _ _ Hc Hw _]. apply (slots_hold_step f v s i (f i) _ []); try done.
  - intros d Hd. cbn. rewrite Hd. unfold kept. by destruct tracking; rewrite app_nil_r.
  - exists (branch_children (pm_root_branch s)). split_and!; [cbn; by destruct (pm_root_branch s) | done | done].
  - by apply Children_set_wf.
  - intros j Hj Hne. cbn. by rewrite Children_get_set_ne.
  - intros rs Hrs. exists (rs ++ rs1). cbn [pm_responses with_responses with_proposal with_worker pm_workers pm_root_branch]. rewrite Hrs, <- fmap_app. split_and!; [done | | |].
    + intros Hn. apply Forall_app. split; [done|]. eapply Forall_impl; [exact Hrs1|]. by intros r ->.
    + intros j Hne. rewrite filter_app. assert (He : filter (fun r => first_path_component r = j) rs1 = []); [|by rewrite He, app_nil_r].
      clear -Hrs1 Hne. induction Hrs1 as [|r rs1 Hr _ IH]; [done|]. rewrite filter_cons_False by congruence. done.
    + intros dl Hsl. rewrite Children_get_set by done. rewrite app_nil_r, filter_app.
      assert (He : filter (fun r => first_path_component r = i) rs1 = rs1); [|rewrite He; by apply Hslot].
      clear -Hrs1. induction Hrs1 as [|r rs1 Hr _ IH]; [done|]. rewrite filter_cons_True by done. by rewrite IH.
Qed.

(** A worker is at work or has returned; none fails. *)
Lemma slot_worker i f c w rs dl :
  slot_state i f c (Some w) rs dl ->
  wk_status w = Returned \/
  exists t hs, (wk_status w = Spawned \/ wk_status w = Receiving) /\ c = None /\ rs = [] /\
    wk_kind w = Propose (kept hs) /\ rroot rd (wk_root w) t /\ owf t /\ ocanonical t /\ short t /\ oplaced alg rd [i] (wk_root w) /\
    Forall request_ok (wk_queue w) /\ (forall k, is_path k -> requests_get (wk_queue w) (otget t) k = f k) /\ handles0 i ≡ₚ dl ++ hs ++ ohandles t.
Proof. intros Hs. inversion Hs as [|? t hs ? Hst| |]; subst; [right; exists t, hs; by split_and! | by left..]. Qed.

Lemma worker_start_ok f v s i w :
  slots_hold f v s -> is_nibble i -> Children_get (pm_workers s) i = Some w -> wk_status w = Spawned ->
  slots_hold f v (with_worker i (mkWorker (wk_root w) (wk_kind w) Receiving (wk_queue w)) s).
Proof.
  intros Hs Hi Hw Hst. pose proof (slots_hold_worker f v s i (mkWorker (wk_root w) (wk_kind w) Receiving (wk_queue w)) (pm_proposal s) [] Hs Hi (sh_holds _ _ _ Hs)) as Hstep.
  destruct s as [[] b ws rs p]. cbn in *. rewrite app_nil_r in Hstep. apply Hstep; [done|]. intros rs' dl. rewrite Hw, app_nil_r.
  intros [Hr|(t & hs & _ & -> & -> & ?)]%slot_worker; [congruence|]. destruct_and?. eapply slot_working; try done. by right.
Qed.

(** A request, on a slot. *)
Lemma worker_request_slot (s : ParallelState St) i f c w rs dl request queue :
  holds alg rd (pm_proposal s) -> ns_deleted_node_tracking (pm_proposal s) = tracking -> slot_state i f c (Some w) rs dl ->
  wk_status w = Receiving -> wk_queue w = request :: queue ->
  exists ns, worker_request alg request (worker_store w s) = (Ok tt, ns) /\ holds alg rd ns /\
    slot_state i f c (Some (mkWorker (ns_root ns) (ns_kind ns) Receiving queue)) rs dl.
Proof.
  intros Hh Htr Hslot Hst Hq. apply slot_worker in Hslot as [Hr|(t & hs & _ & -> & -> & Hk & Hroot & Hwf & Hcan & Hsh & Hp & Hreq & Hget & Hhs)]; [congruence|].
  rewrite Hq in Hreq, Hget. apply Forall_cons in Hreq as [Hro Hreq].
  destruct (worker_request_ok alg rd request (worker_store w s) t [i] Hro) as (ns & t' & hs' & Hrun & ((Hh' & Hroot' & Hwf') & Ht' & Hk' & Hhs' & Hcan') & Hsh' & Hp' & Hget'); try done.
  exists ns. split; [exact Hrun|]. split; [done|]. cbn [worker_store ns_deleted_node_tracking ns_kind] in Ht', Hk'. rewrite Htr, Hk, track_kept, <- kept_app in Hk'.
  eapply (slot_working i f _ t' (hs ++ hs')); cbn; try done; [by right | by apply Hcan' | |].
  - intros k Hk0. rewrite <- (Hget k Hk0). cbn. apply requests_get_ext; [|done]. intros k' Hk1. by apply Hget'.
  - rewrite Hhs, Hhs', <- !(assoc_L (++)). do 2 f_equiv. apply Permutation_app_comm.
Qed.

Lemma worker_request_step f v s i w request queue :
  slots_hold f v s -> is_nibble i -> Children_get (pm_workers s) i = Some w -> wk_status w = Receiving -> wk_queue w = request :: queue ->
  exists ns, worker_request alg request (worker_store w s) = (Ok tt, ns) /\ slots_hold f v (put_worker_store i Receiving queue ns s).
Proof.
  intros Hs Hi Hw Hst Hq. pose proof Hs as [Hh Htr _ _ _ _ (rs & _ & dl & _ & _ & _ & _ & Hslots)]. specialize (Hslots i Hi). rewrite Hw in Hslots.
  destruct (worker_request_slot s i (f i) _ w _ _ request queue Hh Htr Hslots Hst Hq) as (ns & Hrun & Hh' & _). exists ns. split; [exact Hrun|].
  pose proof (slots_hold_worker f v s i (mkWorker (ns_root ns) (ns_kind ns) Receiving queue) ns [] Hs Hi Hh') as Hstep.
  rewrite app_nil_r in Hstep. apply Hstep; [done|]. clear Hstep. intros rs' dl' Hsl. rewrite Hw in Hsl. rewrite app_nil_r.
  destruct (worker_request_slot s i (f i) _ w _ _ request queue Hh Htr Hsl Hst Hq) as (ns' & Hrun' & _ & Hsl'). rewrite Hrun in Hrun'. by injection Hrun' as <-.
Qed.

(** The answer, on a slot. *)
Lemma worker_answer_slot (s : ParallelState St) i f c w rs dl :
  is_nibble i -> holds alg rd (pm_proposal s) -> slot_state i f c (Some w) rs dl -> wk_status w = Receiving -> wk_queue w = [] -> hashable f ->
  exists r ns, worker_response alg i (worker_store w s) = (Ok r, ns) /\ holds alg rd ns /\ first_path_component r = i /\
    slot_state i f c (Some (mkWorker (ns_root ns) (ns_kind ns) Returned [])) (rs ++ [r]) dl.
Proof.
  intros Hi Hh Hslot Hst Hq Hv. apply slot_worker in Hslot as [Hr|(t & hs & _ & -> & -> & Hk & Hroot & Hwf & Hcan & Hsh & Hp & Hreq & Hget & Hhs)]; [congruence|].
  rewrite Hq in Hget. destruct (worker_response_ok alg rd i (worker_store w s) t (kept hs) f Hi) as (c & ns & x & ch & Hrun & Hh' & Hch & Hx & Hperm); try done.
  exists (mkResponse i c (kept hs)), ns. split_and!; [exact Hrun | done | done|]. eapply slot_answered; [done | exact Hch | done | exact Hx|].
  by rewrite Hhs, <- Hperm, <- !(assoc_L (++)).
Qed.

Lemma worker_answer_step f v s i w :
  slots_hold f v s -> is_nibble i -> Children_get (pm_workers s) i = Some w -> wk_status w = Receiving -> wk_queue w = [] -> hashable (f i) ->
  slots_hold f v (worker_answer alg i w s).
Proof.
  intros Hs Hi Hw Hst Hq Hv. pose proof Hs as [Hh Htr _ _ _ _ (rs & _ & dl & _ & _ & _ & _ & Hslots)]. specialize (Hslots i Hi). rewrite Hw in Hslots.
  destruct (worker_answer_slot s i (f i) _ w _ _ Hi Hh Hslots Hst Hq Hv) as (r & ns & Hrun & Hh' & Hr & _). unfold worker_answer. rewrite Hrun, Hq.
  apply (slots_hold_worker f v s i (mkWorker (ns_root ns) (ns_kind ns) Returned []) ns [r] Hs Hi Hh'); [by constructor|]. intros rs' dl' Hsl. rewrite Hw in Hsl.
  destruct (worker_answer_slot s i (f i) _ w _ _ Hi Hh Hsl Hst Hq Hv) as (r' & ns' & Hrun' & _ & _ & Hsl'). rewrite Hrun in Hrun'. by injection Hrun' as <- <-.
Qed.

(** ** The coordinator *)

(** No worker returns before the requests are closed. *)
Definition none_returned (s : ParallelState St) : Prop :=
  forall i w, is_nibble i -> Children_get (pm_workers s) i = Some w -> wk_status w <> Returned.

Lemma none_returned_set s i w s' :
  none_returned s -> is_nibble i -> Children_wf (pm_workers s) -> wk_status w <> Returned -> pm_workers s' = Children_set (pm_workers s) i (Some w) ->
  none_returned s'.
Proof.
  intros Hn Hi Hw Hst Hs j w' Hj. rewrite Hs. destruct (decide (i = j)) as [<-|Hne]; [rewrite Children_get_set by done; by intros [= <-] | rewrite Children_get_set_ne by done; by apply Hn].
Qed.

(** The worker of a nibble. *)
Lemma worker_ok f v s i :
  slots_hold f v s -> is_nibble i -> none_returned s -> (forall k x, is_path k -> f i k = Some x -> (S (length k) < TRIE_FUEL)%nat) ->
  exists s', worker alg i s = Ok s' /\ slots_hold f v s' /\ none_returned s' /\ is_Some (Children_get (pm_workers s') i) /\ pm_phase s' = pm_phase s.
Proof.
  intros Hs Hi Hn Hshort. unfold worker. destruct (Children_get (pm_workers s) i) as [w|] eqn:Hw; [exists s; split_and!; [done.. | rewrite Hw; by eexists | done]|].
  pose proof Hs as [Hh Htr _ _ Hcw Hww (rs & _ & dl & _ & _ & _ & _ & Hslots)]. specialize (Hslots i Hi). rewrite Hw in Hslots.
  unfold create_worker. destruct (Children_get (branch_children (pm_root_branch s)) i) as [c|] eqn:Hc.
  - inversion Hslots as [? hs Hch _| | |]; subst. destruct (child_read_ok alg rd i (f i) c hs (pm_proposal s) Hi Hh Hch) as (n & t & ns & Hrun & Hrec & Hr & Hwf & Hcan & Hp & Hget & Hhs).
    rewrite Hrun. pose proof Hrec as (Hh' & _ & Ht' & Hk'). eexists. split; [reflexivity|]. split; [|split; [|split]].
    + apply (slots_hold_same _ _ _ i). apply (slots_hold_step f v s i (f i) _ (option_list (child_handle c)) Hs Hi); cbn; [done | congruence | | | by apply Children_set_wf | |].
      * intros d Hd. by rewrite Hk', Htr, Hd, track_kept.
      * eexists. split_and!; [reflexivity | by apply Children_set_wf|]. intros j Hj Hne. by rewrite Children_get_set_ne.
      * intros j Hj Hne. by rewrite Children_get_set_ne.
      * intros rs' Hrs'. exists rs'. split_and!; try done. intros dl' Hsl. rewrite Hc, Hw in Hsl. inversion Hsl as [? hs' Hch' Hp0| | |]; subst.
        rewrite !Children_get_set by done. destruct (child_read_ok alg rd i (f i) c hs' (pm_proposal s) Hi Hh Hch') as (n' & t' & ns' & Hrun' & _ & Hr' & Hwf' & Hcan' & _ & Hget' & Hhs').
        rewrite Hrun in Hrun'. injection Hrun' as <- <-. eapply (slot_working i (f i) _ (Some t') []); cbn; try done; [by left | by unfold kept; destruct tracking | | | | |].
        -- by intros ? [= <-].
        -- by intros ? [= <-].
        -- intros k x Hk Hx. apply (Hshort k x Hk). by rewrite <- Hget'.
        -- by intros ? [= <-].
        -- by rewrite Hp0, Hhs'.
    + eapply none_returned_set; [exact Hn | exact Hi | exact Hww | | reflexivity]. done.
    + cbn. rewrite Children_get_set by done. by eexists.
    + done.
  - inversion Hslots as [? hs Hch _| | |]; subst. destruct Hch as [Hno ->]. eexists. split; [reflexivity|]. split; [|split; [|split]].
    + apply (slots_hold_same _ _ _ i). apply (slots_hold_step f v s i (f i) _ [] Hs Hi); cbn; [done | done | | | by apply Children_set_wf | |].
      * intros d ->. unfold kept. destruct tracking; by rewrite app_nil_r.
      * eexists. split_and!; [reflexivity | by apply Children_set_wf|]. intros j Hj Hne. by rewrite Children_get_set_ne.
      * intros j Hj Hne. by rewrite Children_get_set_ne.
      * intros rs' Hrs'. exists rs'. split_and!; try done. intros dl' Hsl. rewrite Hc, Hw in Hsl. inversion Hsl as [? hs' Hch' Hp0| | |]; subst. destruct Hch' as [Hno' ->].
        rewrite !Children_get_set by done. eapply (slot_working i (f i) _ None []); cbn; try done; [by left | by unfold kept; destruct tracking |].
        intros k Hk. by rewrite Hno.
    + eapply none_returned_set; [exact Hn | exact Hi | exact Hww | | reflexivity]. done.
    + cbn. rewrite Children_get_set by done. by eexists.
    + done.
Qed.

Lemma send_ok f v s i w request :
  slots_hold f v s -> is_nibble i -> none_returned s -> Children_get (pm_workers s) i = Some w -> request_ok request ->
  exists s', send i request s = Some s' /\ slots_hold (slot_set f i (op_at request (tail (nibbles_of (op_key request))) (f i))) v s' /\ none_returned s'.
Proof.
  intros Hs Hi Hn Hw Hreq. pose proof (Hn i w Hi Hw) as Hst. pose proof Hs as [Hh Htr _ _ Hcw Hww _]. unfold send. rewrite Hw.
  set (s' := with_worker i (mkWorker (wk_root w) (wk_kind w) (wk_status w) (wk_queue w ++ [request])) s).
  exists s'. split; [by destruct (wk_status w)|]. split; [|eapply (none_returned_set s i); [exact Hn | exact Hi | exact Hww | | reflexivity]; done].
  apply (slots_hold_step f v s i _ _ [] Hs Hi); cbn; [done | done | | | by apply Children_set_wf | |].
  - intros d ->. unfold kept. destruct tracking; by rewrite app_nil_r.
  - exists (branch_children (pm_root_branch s)). split_and!; [by destruct (pm_root_branch s) | done | done].
  - intros j Hj Hne. by rewrite Children_get_set_ne.
  - intros rs' Hrs'. exists rs'. split_and!; try done. intros dl' Hsl. rewrite Hw in Hsl. rewrite Children_get_set, app_nil_r by done.
    apply slot_worker in Hsl as [Hr|(t & hs & Hst' & -> & Hans & Hk & Hroot & Hwf & Hcan & Hsh & Hp & Hq & Hget & Hhs)]; [congruence|]. rewrite Hans.
    eapply (slot_working i _ _ t hs); cbn; try done; [by apply Forall_app; split; [|constructor]|].
    intros k Hk0. unfold requests_get. rewrite foldl_app. cbn. apply op_at_ext. by apply Hget.
Qed.

(** A request to the worker of a nibble. *)
Lemma dispatch_ok f v s i request next :
  slots_hold f v s -> is_nibble i -> none_returned s -> (forall k x, is_path k -> f i k = Some x -> (S (length k) < TRIE_FUEL)%nat) -> request_ok request ->
  exists s', dispatch alg i request next s = with_phase next s' /\
    slots_hold (slot_set f i (op_at request (tail (nibbles_of (op_key request))) (f i))) v s' /\ none_returned s'.
Proof.
  intros Hs Hi Hn Hshort Hreq. unfold dispatch. destruct (worker_ok f v s i Hs Hi Hn Hshort) as (s1 & -> & Hs1 & Hn1 & [w Hw] & _).
  destruct (send_ok f v s1 i w request Hs1 Hi Hn1 Hw Hreq) as (s2 & -> & Hs2 & Hn2). by exists s2.
Qed.

Lemma delete_nodes_keeps x (ns : NodeStore St) :
  ns_storage (delete_nodes x ns) = ns_storage ns /\ ns_deleted_node_tracking (delete_nodes x ns) = ns_deleted_node_tracking ns.
Proof. destruct ns as [r k st tr]. unfold delete_nodes. cbn. by destruct tr, k. Qed.

(** A response is merged. *)
Lemma merge_ok f v s r rs :
  slots_hold f v s -> pm_responses s = Ok r :: rs -> slots_hold f v (with_responses rs (merge_response r s)).
Proof.
  intros Hs Hrs0. pose proof Hs as [Hh Htr _ _ Hcw Hww (rs1 & _ & _ & Hrs1 & Hnib & _ & _ & _)].
  destruct rs1 as [|r1 rs1]; rewrite Hrs0 in Hrs1; [done|]. injection Hrs1 as <- ->. apply Forall_cons in Hnib as [Hi Hnib].
  set (i := first_path_component r) in *. apply (slots_hold_same _ _ _ i). apply (slots_hold_local f v s i _ _ Hs Hi); cbn.
  - unfold holds. by rewrite (proj1 (delete_nodes_keeps _ _)).
  - by rewrite (proj2 (delete_nodes_keeps _ _)).
  - eexists. split_and!; [reflexivity | by apply Children_set_wf|]. intros j Hj Hne. by rewrite Children_get_set_ne.
  - done.
  - done.
  - intros rs Hrs. rewrite Hrs0 in Hrs. destruct rs as [|r' rs]; [done|]. injection Hrs as <- Hrs. apply list_fmap_eq_inj in Hrs as <-; [|by intros ? ? [=]].
    exists rs1. split_and!; [done | by intros [_ ?]%Forall_cons | intros j Hne; by rewrite filter_cons_False by (subst i; congruence)|].
    intros dl Hsl. rewrite filter_cons_True in Hsl by done. rewrite Children_get_set by done.
    inversion Hsl as [| |w r' hs ch x ? Hst Hch Hdel Hx Hperm Hc0 Hw0 Hr0|]; subst. exists hs. split.
    + intros d Hd. unfold delete_nodes. rewrite Htr, Hd, Hdel. unfold kept. by destruct tracking; cbn; rewrite ?app_nil_r.
    + fold i. replace (answers_of i rs1) with (@nil Response) by done. eapply slot_merged; [exact Hst | exact Hch | exact Hx|]. by rewrite Hperm, <- (assoc_L (++)).
Qed.

(** ** The end of the batch *)

(** A trie and the trie that its hashing may have left. *)
Definition osettles (w u : option trie) : Prop :=
  match w, u with
  | None, None => True
  | Some w, Some u => trie_wf w /\ canonical w /\ settles alg (tpath w) w u
  | _, _ => False
  end.

(** The slots of the root once all of them are merged. *)
Definition slot_joined (m : gmap bytes Value) (i : PathComponent) (c : option Child) (ku kw : option kid) : Prop :=
  match c with
  | None => ku = None /\ kw = None /\ forall k, is_path k -> slice m i k = None
  | Some c => exists n u w, ku = Some (child_handle c, u) /\ kw = Some (child_handle c, w) /\ child_node rd c = Some n /\ rnode rd n u /\
      placed_child alg rd [] false i c /\ trie_wf w /\ canonical w /\ settles alg (i :: tpath w) w u /\ forall k, is_path k -> tget w k = slice m i k
  end.

Lemma slots_join f v s m rs dl :
  slots_hold f v s -> (forall i k, is_nibble i -> is_path k -> f i k = slice m i k) -> forallb has_returned (pm_workers s) = true -> rs = [] ->
  (forall i, is_nibble i -> slot_state i (f i) (Children_get (branch_children (pm_root_branch s)) i) (Children_get (pm_workers s) i) (answers_of i rs) (dl i)) ->
  exists us ws x, Children_wf us /\ Children_wf ws /\
    (forall i, is_nibble i -> slot_joined m i (Children_get (branch_children (pm_root_branch s)) i) (Children_get us i) (Children_get ws i)) /\
    Forall in_memory x /\ flat_map handles0 PathComponent_ALL ++ x ≡ₚ flat_map dl PathComponent_ALL ++ kids_handles us.
Proof.
  intros Hs Hf Hret -> Hslots. set (c := branch_children (pm_root_branch s)) in *. pose proof (sh_workers _ _ _ Hs) as Hww.
  assert (Hdone : forall i, is_nibble i -> exists ch, child_ok alg rd i (slice m i) false (Children_get c i) ch /\
    exists x, Forall in_memory x /\ handles0 i ++ x ≡ₚ dl i ++ ch).
  { intros i Hi. specialize (Hslots i Hi). cbn [filter list_filter] in Hslots. rewrite forallb_forall in Hret.
    assert (Hr : forall w, Children_get (pm_workers s) i = Some w -> wk_status w = Returned).
    { intros w Hw. apply Children_get_Some in Hw. specialize (Hret (Some w) ltac:(by apply list_elem_of_In, (list_elem_of_lookup_2 _ (Z.to_nat i)))). cbn in Hret.
      by destruct (wk_status w). }
    inversion Hslots as [c0 hs Hch Hp Hc0 Hw0|w t hs ? Hst _ _ _ _ _ _ _ _ _ Hc0 Hw0| |w c0 ch x ? Hst Hch Hx Hp Hc0 Hw0].
    - exists hs. split; [by eapply child_ok_ext; [intros k; by apply Hf | apply child_ok_weaken] |]. exists []. split; [done|]. by rewrite app_nil_r, Hp.
    - specialize (Hr w ltac:(done)). destruct Hst; congruence.
    - exists ch. split; [by eapply child_ok_ext; [intros k; by apply Hf|] |]. by exists x. }
  destruct (slots_choice (fun i (o : option (kid * kid)) => slot_joined m i (Children_get c i) (fst <$> o) (snd <$> o) /\
    exists x, Forall in_memory x /\ handles0 i ++ x ≡ₚ dl i ++ kid_handles (fst <$> o))) as (os & Hos & Hjoin).
  { intros i Hi. destruct (Hdone i Hi) as (ch & Hch & Hx). unfold slot_joined. destruct (Children_get c i) as [x|].
    - destruct Hch as (n & u & w & ? & ? & ? & ? & ? & ? & _ & ? & ->). exists (Some ((child_handle x, u), (child_handle x, w))). split; [|done]. exists n, u, w. by split_and!.
    - destruct Hch as [Hno ->]. by exists None. }
  destruct (slots_account in_memory PathComponent_ALL handles0 (fun i => dl i ++ kid_handles (fst <$> Children_get os i))) as (x & Hx & Hperm).
  { intros i Hi%elem_of_ALL. by apply Hjoin. }
  exists (Children_map (fun _ o => fst <$> o) os), (Children_map (fun _ o => snd <$> o) os), x. split_and!; [by apply Children_map_wf | by apply Children_map_wf | | done |].
  - intros i Hi. rewrite !Children_map_get by done. by apply Hjoin.
  - rewrite Hperm, slots_sum, kids_handles_slots by (by apply Children_map_wf). f_equiv. erewrite flat_map_ext_in; [reflexivity|].
    intros i Hi%elem_of_ALL. cbn. by rewrite Children_map_get.
Qed.

Section Joined.
Variables (m : gmap bytes Value) (c : Children (option Child)) (us ws : Children (option kid)).
Hypothesis map_fine : map_ok m.
Hypothesis c_wf : Children_wf c.
Hypothesis us_wf : Children_wf us.
Hypothesis ws_wf : Children_wf ws.
Hypothesis joined : forall i, is_nibble i -> slot_joined m i (Children_get c i) (Children_get us i) (Children_get ws i).

Abbreviation v := (m !! []).

Lemma joined_root : rnode rd (Branch (mkBranch [] v c)) (T [] v us).
Proof using c_wf us_wf joined.
  constructor; [done | done|]. intros i Hi. pose proof (joined i Hi) as Hj. unfold slot_joined in Hj. destruct (Children_get c i) as [x|].
  - destruct Hj as (n & u & w & -> & _ & Hn & Hr & _). by eapply rslot_some.
  - destruct Hj as (-> & _ & _). constructor.
Qed.

Lemma joined_settles : settles alg [] (T [] v ws) (T [] v us).
Proof using us_wf ws_wf joined.
  constructor; [done | done | by left|]. intros i Hi. pose proof (joined i Hi) as Hj. unfold slot_joined in Hj. destruct (Children_get c i) as [x|].
  - destruct Hj as (n & u & w & -> & -> & _ & _ & _ & _ & _ & Hset & _). constructor; [by left | exact Hset].
  - destruct Hj as (-> & -> & _). constructor.
Qed.

Lemma joined_wf : trie_wf (T [] v ws).
Proof using ws_wf joined.
  apply trie_wf_intro; [constructor | done|]. intros i o t Hi Ht. pose proof (joined i Hi) as Hj. unfold slot_joined in Hj. rewrite Ht in Hj.
  destruct (Children_get c i) as [x|]; [|by destruct Hj as (_ & ? & _)]. destruct Hj as (n & u & w & _ & [= -> ->] & _ & _ & _ & Hw & _). exact Hw.
Qed.

Lemma joined_get k : is_path k -> tget (T [] v ws) k = path_get m k.
Proof using joined.
  intros Hk. destruct k as [|i k]; [rewrite tget_value, decide_True by done; by rewrite <- (path_get_nibbles m [])|].
  apply is_path_cons in Hk as [Hi Hk]. change (tget (T [] v ws) (i :: k)) with (tget (T [] v ws) ([] ++ i :: k)). rewrite tget_app. cbn.
  pose proof (joined i Hi) as Hj. unfold slot_joined in Hj. destruct (Children_get c i) as [x|].
  - destruct Hj as (n & u & w & _ & -> & _ & _ & _ & _ & _ & _ & Hget). by apply Hget.
  - destruct Hj as (_ & -> & Hget). symmetry. by apply Hget.
Qed.

Lemma joined_placed : placed alg rd [] (Branch (mkBranch [] v c)).
Proof using c_wf joined.
  constructor; [constructor | done|]. intros i x Hi Hx. pose proof (joined i Hi) as Hj. unfold slot_joined in Hj. rewrite Hx in Hj.
  destruct Hj as (n & u & w & _ & _ & _ & _ & Hp & _). eapply placed_child_mono; [exact Hp | done].
Qed.

Lemma joined_canonical :
  (v = None -> exists i j, is_nibble i /\ is_nibble j /\ i <> j /\ is_Some (Children_get c i) /\ is_Some (Children_get c j)) -> canonical (T [] v ws).
Proof using ws_wf joined.
  intros Htwo. apply canonical_iff; [done|]. split.
  - intros Hv. destruct (Htwo Hv) as (i & j & Hi & Hj & Hij & [x Hx] & [y Hy]). exists i, j. pose proof (joined i Hi) as Hji. pose proof (joined j Hj) as Hjj.
    unfold slot_joined in Hji, Hjj. rewrite Hx in Hji. rewrite Hy in Hjj. destruct Hji as (? & ? & ? & _ & -> & _). destruct Hjj as (? & ? & ? & _ & -> & _).
    split_and!; [done | done | done | by eexists | by eexists].
  - intros i h t Hi Ht. pose proof (joined i Hi) as Hj. unfold slot_joined in Hj. rewrite Ht in Hj.
    destruct (Children_get c i) as [x|]; [|by destruct Hj as (_ & ? & _)]. destruct Hj as (n & u & w & _ & [= -> ->] & _ & _ & _ & _ & Hcan & _). exact Hcan.
Qed.

(** What [postprocess_trie] leaves. *)
Definition postprocessed (ns : NodeStore St) : Prop :=
  exists root ns' w u hs, postprocess_trie alg (mkBranch [] v c) ns = (Ok root, ns') /\ recorded alg rd ns hs ns' /\ rroot rd root u /\
    oplaced alg rd [] root /\ contents TRIE_FUEL w m /\ osettles w u /\ kids_handles us ≡ₚ ohandles u ++ hs.

(** Without children: a leaf with the value of the empty key, or nothing. *)
Lemma postprocess_none ns : holds alg rd ns -> Children_iter_present c = [] -> postprocessed ns.
Proof using map_fine c_wf us_wf ws_wf joined.
  intros Hh Hnil. assert (Hno : forall i, is_nibble i -> Children_get c i = None).
  { intros i Hi. destruct (Children_get c i) as [x|] eqn:Hx; [|done]. assert (Hin : (i, x) ∈ Children_iter_present c) by (by apply Children_iter_present_elem).
    rewrite Hnil in Hin. by apply not_elem_of_nil in Hin. }
  assert (Hus : us = Children_new).
  { apply Children_ext; [done | apply Children_new_wf|]. intros i Hi. rewrite Children_get_new. pose proof (joined i Hi) as Hj. rewrite (Hno i Hi) in Hj. by destruct Hj. }
  assert (Hws : ws = Children_new).
  { apply Children_ext; [done | apply Children_new_wf|]. intros i Hi. rewrite Children_get_new. pose proof (joined i Hi) as Hj. rewrite (Hno i Hi) in Hj. by destruct Hj as (_ & ? & _). }
  pose proof joined_get as Hget. rewrite Hws in Hget. unfold postprocessed, postprocess_trie. cbn [branch_children branch_value]. rewrite Hnil.
  exists ((fun value => Leaf (mkLeaf [] value)) <$> v), ns. set (t := (fun x => T [] (Some x) Children_new) <$> v). exists t, t, [].
  rewrite Hus. subst t. split; [done|]. split; [by apply recorded_refl|].
  assert (Hc : contents TRIE_FUEL ((fun x => T [] (Some x) Children_new) <$> v) m).
  { apply contents_paths. split; [done|]. intros k Hk. rewrite <- Hget by done. destruct v; [done|]. cbn. by rewrite tget_empty. }
  destruct v as [x|]; cbn; split_and!; try done.
  - apply (rnode_leaf rd (mkLeaf [] x)).
  - intros n [= <-]. apply placed_leaf. constructor.
  - apply trie_wf_leaf. constructor.
  - apply canonical_leaf.
  - apply settles_refl, trie_wf_leaf. constructor.
Qed.

(** With a value or two children: the branch itself. *)
Lemma postprocess_branch ns i x rest :
  holds alg rd ns -> Children_iter_present c = (i, x) :: rest -> is_Some v \/ rest <> [] -> postprocessed ns.
Proof using map_fine c_wf us_wf ws_wf joined.
  intros Hh Hpres Hor. unfold postprocessed, postprocess_trie. cbn [branch_children branch_value]. rewrite Hpres.
  assert (Hb : bool_decide (is_Some v) || negb (Nat.eqb (length rest) 0) = true).
  { destruct Hor as [Hv|Hr]; [by rewrite bool_decide_true | destruct rest; [done | by rewrite orb_comm]]. }
  rewrite Hb. exists (Some (Branch (mkBranch [] v c))), ns, (Some (T [] v ws)), (Some (T [] v us)), [].
  split_and!; [done | by apply recorded_refl | apply joined_root | intros n [= <-]; apply joined_placed | | | cbn; by rewrite handles_T, app_nil_r].
  - apply contents_paths. split; [done|]. apply joined_get.
  - split; [apply joined_wf|]. split; [|apply joined_settles]. apply joined_canonical. intros Hv. destruct Hor as [[? ?]|Hr]; [congruence|].
    destruct rest as [|[j y] rest]; [done|]. exists i, j. pose proof (Children_iter_present_NoDup c) as Hnd. rewrite Hpres in Hnd.
    assert (Hel : forall k z, (k, z) ∈ (i, x) :: (j, y) :: rest -> is_nibble k /\ Children_get c k = Some z).
    { intros k z Hin. rewrite <- Hpres in Hin. by apply Children_iter_present_elem in Hin. }
    destruct (Hel i x ltac:(by left)) as [Hi Hx]. destruct (Hel j y ltac:(by right; left)) as [Hj Hy].
    split_and!; [done | done | | by eexists | by eexists]. cbn in Hnd. apply NoDup_cons in Hnd as [Hnot _]. intros ->. apply Hnot. by left.
Qed.

(** With one child and no value: the child, with its path extended. *)
Lemma postprocess_single ns i x :
  holds alg rd ns -> Children_iter_present c = [(i, x)] -> v = None -> postprocessed ns.
Proof using map_fine c_wf us_wf ws_wf joined.
  intros Hh Hpres Hv. assert (Hel : forall k z, (k, z) ∈ [(i, x)] <-> is_nibble k /\ Children_get c k = Some z).
  { intros k z. rewrite <- Hpres. by apply Children_iter_present_elem. }
  destruct (proj1 (Hel i x) ltac:(by left)) as [Hi Hx].
  assert (Hne : forall j, is_nibble j -> j <> i -> Children_get c j = None).
  { intros j Hj Hji. destruct (Children_get c j) as [y|] eqn:Hy; [|done]. pose proof (proj2 (Hel j y) (conj Hj Hy)) as Hin. apply list_elem_of_singleton in Hin. congruence. }
  pose proof (joined i Hi) as Hj. rewrite Hx in Hj. destruct Hj as (n & u & w & Hu & Hw & Hn & Hr & Hp & Hwf & Hcan & Hset & Hget).
  destruct (merkle_read_for_update_ok alg rd ns x n Hh Hn) as (ns' & Hrun & Hrec).
  destruct (read_placed alg rd [] false i x ns n ns' Hh Hp Hrun) as [Hpn _].
  assert (Htp : tpath u = tpath w) by (by eapply settles_tpath).
  assert (Hpath : is_path (i :: tpath w)). { apply is_path_cons. split; [done|]. destruct w. by apply trie_wf_inv in Hwf as [? _]. }
  unfold postprocessed, postprocess_trie. cbn [branch_children branch_value]. rewrite Hpres, Hv, bool_decide_false by (by intros [? ?]). cbn [length orb negb Nat.eqb].
  eexists _, ns', (Some (T (i :: tpath w) (tval w) (tkids w))), (Some (T (i :: tpath u) (tval u) (tkids u))), (option_list (child_handle x)).
  split; [erewrite store_bind_Ok by exact Hrun; rewrite (rnode_path _ _ _ Hr); reflexivity|]. split_and!; [exact Hrec | | | | |].
  - by apply rnode_update_path.
  - intros n' [= <-]. eapply placed_move; [exact Hpn | by rewrite Htp | by rewrite (rnode_path _ _ _ Hr)].
  - apply contents_paths. split; [done|]. intros k Hk. cbn [otget mbind option_bind]. change (i :: tpath w) with ([] ++ i :: tpath w). rewrite tget_cut.
    destruct w as [pp wv wks]. cbn [app tpath tval tkids strip_prefix]. destruct k as [|j k]; [change (path_get m []) with (path_get m (nibbles_of [])); by rewrite path_get_nibbles, Hv|].
    apply is_path_cons in Hk as [Hj Hk]. destruct (Z.eqb_spec i j) as [<-|Hij]; [by apply Hget|]. cbn. symmetry.
    pose proof (joined j Hj) as Hjj. rewrite (Hne j Hj) in Hjj by congruence. destruct Hjj as (_ & _ & Hnone). by apply Hnone.
  - split; [by apply trie_wf_path|]. split; [by apply canonical_path|]. cbn [tpath]. destruct w as [pp wv wks], u as [pp' uv uks]. cbn in *. subst pp'.
    inversion Hset; subst. by constructor.
  - assert (Hus : us = Children_set Children_new i (Some (child_handle x, u))).
    { apply Children_ext; [done | apply Children_set_wf, Children_new_wf|]. intros j Hj. destruct (decide (j = i)) as [->|Hij]; [by rewrite Children_get_set|].
      rewrite Children_get_set_ne, Children_get_new by done. pose proof (joined j Hj) as Hjj. rewrite (Hne j Hj Hij) in Hjj. by destruct Hjj. }
    pose proof (kids_handles_set Children_new (Z.to_nat i) _ (Some (child_handle x, u)) (Children_slot Children_new i Children_new_wf Hi)) as Hset'. rewrite Children_get_new in Hset'.
    fold (Children_set (@Children_new kid) i (Some (child_handle x, u))) in Hset'. rewrite <- Hus, kids_handles_new, app_nil_r in Hset'. cbn in Hset'. rewrite Hset'.
    destruct u. cbn. rewrite !handles_T. apply Permutation_app_comm.
Qed.

Lemma postprocess_ok ns : holds alg rd ns -> postprocessed ns.
Proof using map_fine c_wf us_wf ws_wf joined.
  intros Hh. destruct (Children_iter_present c) as [|[i x] rest] eqn:Hpres; [by apply postprocess_none|].
  destruct v eqn:Hv; [eapply postprocess_branch; [done | exact Hpres | left; rewrite Hv; by eexists]|].
  destruct rest; [by eapply postprocess_single | by eapply postprocess_branch; [done | exact Hpres | right]].
Qed.

End Joined.

(** What a batch that makes the map [m] of a trie with the handles [before] leaves: a canonical trie
    that holds [m], up to storage roots that were spliced into accounts, with the right hash in every
    slot that has one; and a delete list that accounts for every handle that left the trie. *)
Definition applied (before : list MaybePersisted) (m : gmap bytes Value) (ns : NodeStore St) : Prop :=
  exists w u hs x, represents alg rd ns u /\ oplaced alg rd [] (ns_root ns) /\ contents TRIE_FUEL w m /\ osettles w u /\
    ns_deleted_node_tracking ns = tracking /\ ns_kind ns = Propose (deleted0 ++ kept hs) /\
    Forall in_memory x /\ before ++ x ≡ₚ ohandles u ++ hs.

Lemma osettles_wf w u : osettles w u -> owf u /\ ocanonical u.
Proof.
  destruct w as [w|], u as [u|]; try done. intros (Hw & Hc & Hs). split; intros ? [= <-]; [by eapply settles_wf | by eapply settles_canonical].
Qed.

Lemma finish_ok f s m :
  slots_hold f (m !! []) s -> (forall i k, is_nibble i -> is_path k -> f i k = slice m i k) -> map_ok m ->
  forallb has_returned (pm_workers s) = true -> pm_responses s = [] ->
  exists ns, finish alg s = with_phase (Finished (Ok ns)) s /\ applied (flat_map handles0 PathComponent_ALL) m ns.
Proof.
  intros Hs Hf Hm Hret Hresp. pose proof Hs as [Hh Ht Hp Hv Hc _ (rs & hs & dl & Hrs & _ & Hk & Hperm & Hslots)].
  rewrite Hresp in Hrs. symmetry in Hrs. apply fmap_nil_inv in Hrs.
  destruct (slots_join f _ s m rs dl Hs Hf Hret Hrs Hslots) as (us & ws & x & Hus & Hws & Hj & Hx & Hacc).
  destruct (postprocess_ok m _ us ws Hm Hc Hus Hws Hj (pm_proposal s) Hh) as (root & ns & w & u & hs' & Hrun & (Hh' & _ & Ht' & Hk') & Hr & Hpl & Hw & Hset & Hhs).
  unfold finish. destruct (pm_root_branch s) as [bp bv bc]. cbn in Hp, Hv, Hrun. subst bp bv. rewrite Hrun. eexists. split; [reflexivity|].
  destruct (osettles_wf _ _ Hset) as [Hwf _]. rewrite Ht, Hk, track_kept in Hk'. exists w, u, (hs ++ hs'), x. split_and!; try done.
  - cbn. congruence.
  - cbn. by rewrite Hk', kept_app, app_assoc.
  - rewrite Hacc, Hhs, <- Hperm. rewrite (assoc_L (++)), (Permutation_app_comm hs), <- (assoc_L (++)). done.
Qed.

End Correct.
