(* ===== verification/ParallelRun.v ===== *)
(** * Runs of a parallel batch

    The invariant of the threads over a whole batch, that some thread can always act until
    the batch is done, the number of steps that a run can have, and the result. *)

From S2P Require Import Prelude Primitives NodePath Node Codec NodeCodec Trie NodeStore Linear Merkle MerkleSpec MerkleInsert MerkleRemove TrieCanonical MerkleCorrect.
From S2P Require Import Rlp RlpSplice Hashing HashSpec HashHelper HashBinding Placed ProofTypes ProofWire KeyProof Batch Parallel ParallelSpec ParallelCorrect.

Lemma slice_short m i k x : map_ok m -> slice m i k = Some x -> (S (length k) < TRIE_FUEL)%nat.
Proof. intros Hm (b & Hb & Hx)%path_get_Some. apply Hm in Hx as [_ Hl]. apply (f_equal length) in Hb. rewrite length_nibbles_of in Hb. cbn in Hb. lia. Qed.

Lemma slice_hashable m i : map_ok m -> (forall k x, m !! k = Some x -> value_ok x) -> hashable (slice m i).
Proof.
  intros Hm Hv k x _ Hx. pose proof (slice_short m i k x Hm Hx) as Hl. apply path_get_Some in Hx as (b & Hb & Hx). split; [by eapply Hv|].
  apply (f_equal length) in Hb. rewrite length_nibbles_of in Hb. cbn [length] in Hb. rewrite Hb. split; [by rewrite Nat.even_mul|].
  unfold TRIE_FUEL, MAX_KEY_BYTES in Hl. unfold ISIZE_MAX. lia.
Qed.

Section Run.
Context {St : Type} `{ReadableStorageLaws St} `{VarInt} `{DigestsLaws}.
Variables (alg : NodeHashAlgorithm) (rd : LinearAddress -> option Node) (threads : nat).
Variables (tracking : bool) (deleted0 : list MaybePersisted) (handles0 : PathComponent -> list MaybePersisted).

Abbreviation slots_hold := (slots_hold alg rd tracking deleted0 handles0).

(** ** Workers *)

Lemma worker_step_ok f v s i s' :
  slots_hold f v s -> is_nibble i -> (requests_closed s = true -> hashable (f i)) -> worker_event_loop alg threads i s = Some s' ->
  slots_hold f v s' /\ pm_phase s' = pm_phase s /\ (requests_closed s = false -> none_returned s -> none_returned s').
Proof.
  intros Hs Hi Hhash. unfold worker_event_loop. destruct (Children_get (pm_workers s) i) as [w|] eqn:Hw; [|done].
  pose proof (sh_workers _ _ _ _ _ _ _ _ Hs) as Hww. pose proof (sh_slots _ _ _ _ _ _ _ _ Hs) as (rs & _ & dl & _ & _ & _ & _ & Hslots).
  specialize (Hslots i Hi). rewrite Hw in Hslots. apply slot_worker in Hslots as Hst. destruct (wk_status w) eqn:Hstatus; [| | |done].
  - destruct (Nat.ltb _ _); [|done]. intros [= <-]. split_and!; [by apply worker_start_ok | done|]. intros _ Hn.
    eapply none_returned_set; [exact Hn | exact Hi | exact Hww | | reflexivity]. done.
  - destruct (wk_queue w) as [|request queue] eqn:Hq.
    + destruct (requests_closed s) eqn:Hcl; [|done]. intros [= <-]. pose proof (worker_answer_step alg rd tracking deleted0 handles0 f v s i w Hs Hi Hw Hstatus Hq (Hhash eq_refl)) as Ha.
      split_and!; [done | | done]. unfold worker_answer. by destruct (worker_response _ _ _).
    + destruct (worker_request_step alg rd tracking deleted0 handles0 f v s i w request queue Hs Hi Hw Hstatus Hq) as (ns & -> & Hs'). intros [= <-].
      split_and!; [done | done|]. intros _ Hn. eapply none_returned_set; [exact Hn | exact Hi | exact Hww | | reflexivity]. done.
  - by destruct Hst as [?|(t & hs & [?|?] & _)].
Qed.

(** ** The coordinator *)

Section Batch.
Variables (batch : list BatchOp) (final : gmap bytes Value).
Hypothesis values_ok : forall k x, final !! k = Some x -> value_ok x.

(** What is left of the batch makes [final] of what the slots hold. *)
Definition phase_ok (s : ParallelState St) : Prop :=
  match pm_phase s with
  | Splitting b => exists m, batch_map b m = final /\ check_batch alg b = check_batch alg batch /\ Forall (fun op => is_bytes (op_key op)) b /\
      map_ok m /\ slots_hold (slice m) (m !! []) s /\ none_returned s
  | RemovingAll pcs b => exists m, batch_map b ∅ = final /\ check_batch alg b = check_batch alg batch /\ Forall (fun op => is_bytes (op_key op)) b /\
      map_ok m /\ NoDup pcs /\ Forall is_nibble pcs /\
      slots_hold (fun i => if decide (i ∈ pcs) then slice m i else fun _ => None) (m !! []) s /\ none_returned s
  | Merging => check_batch alg batch = Ok tt /\ map_ok final /\ slots_hold (slice final) (final !! []) s
  | Finished r => match check_batch alg batch with
                  | Ok _ => exists ns, r = Ok ns /\ applied alg rd tracking deleted0 (flat_map handles0 PathComponent_ALL) final ns
                  | Err e => r = Err e
                  end
  end.

Lemma split_op_ok s m op b :
  batch_map (op :: b) m = final -> check_batch alg (op :: b) = check_batch alg batch -> is_bytes (op_key op) -> Forall (fun op => is_bytes (op_key op)) b ->
  map_ok m -> slots_hold (slice m) (m !! []) s -> none_returned s -> phase_ok (split_op alg op b s).
Proof.
  intros Hb Hc Hop Hbs Hm Hs Hn. unfold split_op. cbn [check_batch] in Hc. destruct (check_batch_op alg op) as [[]|e] eqn:Hck; [|unfold phase_ok; cbn; by rewrite <- Hc].
  cbn [mbind result_bind] in Hc. pose proof (check_batch_op_len _ _ Hck) as Hlen. cbn [batch_map foldl] in Hb.
  pose proof (map_ok_op op m Hop Hlen Hm) as Hm'. rewrite (proj2 (skip_first (op_key op) Hop)).
  destruct (nibbles_of (op_key op)) as [|j p] eqn:Hnib; cbn [head].
  - assert (Hnil : op_key op = []) by (destruct (op_key op); done). assert (Hsl : forall i k, slice (batch_op_map m op) i k = match op with DeleteRange _ => None | _ => slice m i k end).
    { intros i k. by apply slice_op_nil. }
    destruct op as [key v|key|pre]; cbn [op_key] in Hnil; subst; unfold phase_ok; cbn [with_phase pm_phase].
    + exists (batch_op_map m (Put [] v)). split_and!; try done. apply slots_hold_phase. cbn [batch_op_map]. rewrite lookup_insert_eq. eapply slots_hold_value.
      eapply slots_hold_ext; [|exact Hs]. intros i k _ _. by rewrite <- Hsl.
    + exists (batch_op_map m (Delete [])). split_and!; try done. apply slots_hold_phase. cbn [batch_op_map]. rewrite lookup_delete_eq. eapply slots_hold_value.
      eapply slots_hold_ext; [|exact Hs]. intros i k _ _. by rewrite <- Hsl.
    + assert (Hempty : batch_op_map m (DeleteRange []) = ∅).
      { cbn. apply map_eq. intros b'. by rewrite filter_prefix_lookup, below_nil, lookup_empty. }
      rewrite Hempty in Hb. exists m. split_and!; try done; [apply NoDup_ALL | apply Forall_forall; intros i; by apply elem_of_ALL|].
      apply slots_hold_phase. eapply slots_hold_ext; [|exact Hs]. intros i k Hi _. cbn beta. by rewrite decide_True by (by apply elem_of_ALL).
  - pose proof (is_path_nibbles_of _ Hop) as Hpath. rewrite Hnib in Hpath. apply is_path_cons in Hpath as [Hj _]. rewrite (PathComponent_try_new_nibble j Hj).
    destruct (dispatch_ok alg rd tracking deleted0 handles0 (slice m) (m !! []) s j op (Splitting b) Hs Hj Hn) as (s' & -> & Hs' & Hn').
    { intros k x _. by apply slice_short. }
    { done. }
    unfold phase_ok. cbn [with_phase pm_phase]. exists (batch_op_map m op). split_and!; try done. apply slots_hold_phase.
    assert (Hv : batch_op_map m op !! [] = m !! []). { pose proof (path_get_op op m []) as Hg. rewrite Hnib in Hg. unfold path_get in Hg. cbn in Hg. by destruct op. }
    rewrite Hv. eapply slots_hold_ext; [|exact Hs']. intros i k Hi Hk. cbn beta. rewrite Hnib, (slice_op op m j p i k Hnib). unfold slot_set. cbn [tail].
    destruct (Z.eqb_spec i j) as [->|]; done.
Qed.

Lemma remove_entry_ok s m i pcs b :
  batch_map b ∅ = final -> check_batch alg b = check_batch alg batch -> Forall (fun op => is_bytes (op_key op)) b -> map_ok m ->
  NoDup (i :: pcs) -> Forall is_nibble (i :: pcs) ->
  slots_hold (fun j => if decide (j ∈ i :: pcs) then slice m j else fun _ => None) (m !! []) s -> none_returned s ->
  phase_ok (remove_entry alg i (RemovingAll pcs b) s).
Proof.
  intros Hb Hc Hbs Hm [Hni Hnd]%NoDup_cons [Hi Hpcs]%Forall_cons Hs Hn. unfold remove_entry.
  set (f := fun j => if decide (j ∈ i :: pcs) then slice m j else fun _ => None) in *.
  assert (Hother : forall j k, j <> i -> f j k = (if decide (j ∈ pcs) then slice m j else fun _ => None) k).
  { intros j k Hji. unfold f. destruct (decide (j ∈ pcs)) as [Hj|Hj]; [by rewrite decide_True by (by right) | by rewrite decide_False by (by intros [?|?]%elem_of_cons)]. }
  assert (Hfi : forall k, f i k = slice m i k) by (intros k; unfold f; by rewrite decide_True by (by left)).
  destruct (bool_decide _ || bool_decide _) eqn:Hb'.
  - destruct (dispatch_ok alg rd tracking deleted0 handles0 f (m !! []) s i (DeleteRange []) (RemovingAll pcs b) Hs Hi Hn) as (s' & -> & Hs' & Hn').
    { intros k x _. rewrite Hfi. by apply slice_short. }
    { split; [constructor | cbn; unfold TRIE_FUEL; lia]. }
    exists m. split_and!; try done. apply slots_hold_phase. eapply slots_hold_ext; [|exact Hs']. intros j k Hj Hk. cbn beta. unfold slot_set.
    destruct (Z.eqb_spec j i) as [->|Hji]; [|by apply Hother]. rewrite decide_False by done. cbn [op_at op_key nibbles_of tail]. by rewrite below_nil.
  - apply orb_false_iff in Hb' as [Hc0%bool_decide_eq_false Hw0%bool_decide_eq_false]. apply eq_None_not_Some in Hc0. apply eq_None_not_Some in Hw0.
    exists m. split_and!; try done. apply slots_hold_phase. eapply slots_hold_ext; [|exact Hs]. intros j k Hj Hk. cbn beta.
    destruct (decide (j = i)) as [->|Hji]; [|by apply Hother]. rewrite decide_False by done.
    pose proof (sh_slots _ _ _ _ _ _ _ _ Hs) as (rs & _ & dl & _ & _ & _ & _ & Hslots). specialize (Hslots i Hi). rewrite Hc0, Hw0 in Hslots.
    inversion Hslots as [? hs Hch _| | |]; subst. destruct Hch as [Hno _]. by apply Hno.
Qed.

(** ** Every step keeps the invariant *)
Lemma step_ok th s s' : phase_ok s -> step alg threads th s = Some s' -> phase_ok s'.
Proof.
  intros Hp. assert (Hworker : forall i f v, slots_hold f v s -> (requests_closed s = true -> forall i, is_nibble i -> hashable (f i)) ->
    (if bool_decide (i ∈ PathComponent_ALL) then worker_event_loop alg threads i s else None) = Some s' ->
    slots_hold f v s' /\ pm_phase s' = pm_phase s /\ (requests_closed s = false -> none_returned s -> none_returned s')).
  { intros i f v Hs Hh. case_bool_decide as Hi; [|done]. apply elem_of_ALL in Hi.
    apply worker_step_ok; [done | done|]. intros Hcl. by apply Hh. }
  unfold step. unfold phase_ok in Hp. destruct (pm_phase s) as [b|pcs b| |r] eqn:Hph; [| | |done].
  - destruct Hp as (m & Hb & Hc & Hbs & Hm & Hs & Hn). destruct th as [|i].
    + unfold coordinator. rewrite Hph. destruct b as [|op b]; intros [= <-].
      * cbn in Hb, Hc. subst m. unfold phase_ok. cbn. split_and!; [done | done | by apply slots_hold_phase].
      * apply Forall_cons in Hbs as [Hop Hbs]. by eapply split_op_ok.
    + intros Hstep. destruct (Hworker i _ _ Hs) as (Hs' & Hp' & Hn'); [unfold requests_closed; by rewrite Hph | exact Hstep|].
      unfold phase_ok. rewrite Hp'. exists m. split_and!; try done. apply Hn'; [unfold requests_closed; by rewrite Hph | done].
  - destruct Hp as (m & Hb & Hc & Hbs & Hm & Hnd & Hnib & Hs & Hn). destruct th as [|i].
    + unfold coordinator. rewrite Hph. destruct pcs as [|i pcs]; intros [= <-]; [|by eapply remove_entry_ok].
      unfold phase_ok. cbn. exists ∅. split_and!; try done. apply slots_hold_phase. rewrite lookup_empty. eapply slots_hold_value. eapply slots_hold_ext; [|exact Hs].
      intros i k _ _. cbn beta. rewrite decide_False by apply not_elem_of_nil. unfold slice, path_get. by case_decide.
    + intros Hstep. destruct (Hworker i _ _ Hs) as (Hs' & Hp' & Hn'); [unfold requests_closed; by rewrite Hph | exact Hstep|].
      unfold phase_ok. rewrite Hp'. exists m. split_and!; try done. apply Hn'; [unfold requests_closed; by rewrite Hph | done].
  - destruct Hp as (Hc & Hm & Hs). destruct th as [|i].
    + unfold coordinator. rewrite Hph. destruct (pm_responses s) as [|[r|e] rs] eqn:Hr.
      * destruct (forallb has_returned (pm_workers s)) eqn:Hret; [|done]. intros [= <-].
        destruct (finish_ok alg rd tracking deleted0 handles0 _ s final Hs ltac:(done) Hm Hret Hr) as (ns & -> & Happ). unfold phase_ok. cbn. rewrite Hc. by exists ns.
      * intros [= <-]. unfold phase_ok. cbn. rewrite Hph. split_and!; [done | done | by apply merge_ok].
      * destruct (sh_slots _ _ _ _ _ _ _ _ Hs) as (rs' & _ & _ & Hrs' & _). rewrite Hr in Hrs'. by destruct rs'.
    + intros Hstep. destruct (Hworker i _ _ Hs) as (Hs' & Hp' & _); [intros _ j Hj; by apply slice_hashable | exact Hstep|].
      unfold phase_ok. rewrite Hp'. by split_and!.
Qed.

(** ** Some thread can act *)

Lemma forallb_false {A} (p : A -> bool) l : forallb p l = false -> exists x, x ∈ l /\ p x = false.
Proof.
  induction l as [|x l IH]; [done|]. cbn. destruct (p x) eqn:Hx; [|intros _; exists x; split; [by left | done]]. intros (y & Hy & Hp)%IH. exists y. split; [by right | done].
Qed.

Lemma worker_elem (ws : Children (option Worker)) w : Children_wf ws -> Some w ∈ ws -> exists i, is_nibble i /\ Children_get ws i = Some w.
Proof.
  intros Hw (n & Hn)%list_elem_of_lookup. exists (Z.of_nat n). pose proof (lookup_lt_Some _ _ _ Hn) as Hl. split.
  - rewrite Hw in Hl. unfold is_nibble, MAX_CHILDREN, PathComponent_LEN in *. lia.
  - apply Children_get_Some. by rewrite Nat2Z.id.
Qed.

Lemma occupied_acts (s : ParallelState St) i w :
  is_nibble i -> Children_get (pm_workers s) i = Some w -> occupies (Some w) = true -> pm_phase s = Merging ->
  exists s', step alg threads (WorkerThread i) s = Some s'.
Proof.
  intros Hi Hw Ho Hph. unfold step. rewrite Hph, bool_decide_true by (by apply elem_of_ALL). unfold worker_event_loop, requests_closed. rewrite Hw, Hph.
  cbn in Ho. destruct (wk_status w); try done; [|by eexists]. destruct (wk_queue w); [by eexists|]. destruct (worker_request _ _ _) as [[]]; by eexists.
Qed.

Lemma progress s : (0 < threads)%nat -> phase_ok s -> (exists r, pm_phase s = Finished r) \/ exists th s', step alg threads th s = Some s'.
Proof.
  intros Hth Hp. unfold phase_ok in Hp. destruct (pm_phase s) as [b|pcs b| |r] eqn:Hph; [right; exists Coordinator.. | | left; by eexists].
  - unfold step, coordinator. rewrite Hph. destruct b; by eexists.
  - unfold step, coordinator. rewrite Hph. destruct pcs; by eexists.
  - right. destruct Hp as (_ & _ & Hs). pose proof (sh_workers _ _ _ _ _ _ _ _ Hs) as Hww.
    destruct (pm_responses s) as [|[r|e] rs] eqn:Hr; [|exists Coordinator; unfold step, coordinator; rewrite Hph, Hr; by eexists..].
    destruct (forallb has_returned (pm_workers s)) eqn:Hret; [exists Coordinator; unfold step, coordinator; rewrite Hph, Hr, Hret; by eexists|].
    apply forallb_false in Hret as ([w|] & Hin & Hnr); [|done]. destruct (worker_elem _ w Hww Hin) as (i & Hi & Hw). cbn in Hnr.
    destruct (wk_status w) eqn:Hst; [|exists (WorkerThread i); eapply occupied_acts; [done | exact Hw | cbn; by rewrite Hst | done].. | done].
    destruct (Nat.ltb (length (filter occupies (pm_workers s))) threads) eqn:Hfree.
    + exists (WorkerThread i). unfold step. rewrite Hph, bool_decide_true by (by apply elem_of_ALL). unfold worker_event_loop. rewrite Hw, Hst, Hfree. by eexists.
    + apply Nat.ltb_ge in Hfree. destruct (filter occupies (pm_workers s)) as [|o os] eqn:Hf; [cbn in Hfree; lia|].
      assert (Ho : o ∈ filter occupies (pm_workers s)) by (rewrite Hf; by left). apply list_elem_of_filter in Ho as [Ho%Is_true_true Hin'].
      destruct o as [w'|]; [|done]. destruct (worker_elem _ w' Hww Hin') as (j & Hj & Hw'). exists (WorkerThread j). by eapply occupied_acts.
Qed.

End Batch.

(** ** The number of steps *)

Definition worker_weight (o : option Worker) : nat :=
  match o with
  | None => 0
  | Some w => match wk_status w with
              | Spawned => 5 + length (wk_queue w)
              | Receiving => 4 + length (wk_queue w)
              | Failing => 2
              | Returned => 0
              end
  end.

Definition phase_weight (p : Phase St) : nat :=
  match p with
  | Splitting b => 120 * length b + 2
  | RemovingAll pcs b => 7 * length pcs + 120 * length b + 3
  | Merging => 1
  | Finished _ => 0
  end.

Definition workers_weight (s : ParallelState St) : nat := sum_list (worker_weight <$> pm_workers s).

Definition weight (s : ParallelState St) : nat := (phase_weight (pm_phase s) + workers_weight s + length (pm_responses s))%nat.

Lemma sum_list_insert {A} (f : A -> nat) (l : list A) n x y :
  l !! n = Some x -> (sum_list (f <$> <[n := y]> l) + f x = sum_list (f <$> l) + f y)%nat.
Proof.
  revert n. induction l as [|z l IH]; intros [|n] Hn; try done.
  - injection Hn as ->. cbn. lia.
  - specialize (IH n Hn). change (sum_list (f <$> <[S n := y]> (z :: l))) with (f z + sum_list (f <$> <[n := y]> l))%nat.
    change (sum_list (f <$> z :: l)) with (f z + sum_list (f <$> l))%nat. lia.
Qed.

Lemma sum_list_set (ws : Children (option Worker)) i o :
  Children_wf ws -> is_nibble i ->
  (sum_list (worker_weight <$> Children_set ws i o) + worker_weight (Children_get ws i) = sum_list (worker_weight <$> ws) + worker_weight o)%nat.
Proof. intros Hw Hi. apply (sum_list_insert worker_weight). by apply Children_slot. Qed.

(** A request costs a new worker and a message. *)
Lemma dispatch_weight i request next s :
  Children_wf (pm_workers s) -> is_nibble i ->
  (weight (dispatch alg i request next s) <= phase_weight next + workers_weight s + length (pm_responses s) + 6)%nat.
Proof.
  intros Hw Hi. assert (Hworker : forall s1, worker alg i s = Ok s1 -> Children_wf (pm_workers s1) /\ pm_responses s1 = pm_responses s /\ (workers_weight s1 <= workers_weight s + 5)%nat).
  { intros s1. unfold worker. destruct (Children_get (pm_workers s) i) eqn:Hg; [intros [= <-]; split_and!; [done | done | lia]|].
    unfold create_worker. assert (Hset : forall w, worker_weight (Some w) = 5%nat -> (sum_list (worker_weight <$> Children_set (pm_workers s) i (Some w)) <= workers_weight s + 5)%nat).
    { intros w Hwt. pose proof (sum_list_set (pm_workers s) i (Some w) Hw Hi) as Hsum. rewrite Hg, Hwt in Hsum. cbn [worker_weight] in Hsum. unfold workers_weight. lia. }
    destruct (Children_get (branch_children _) i) as [c|]; [destruct (merkle_read_for_update alg c (pm_proposal s)) as [[n|e] p]; [|done]|];
      intros [= <-]; (split_and!; [by apply Children_set_wf | done | by apply Hset]). }
  unfold dispatch. destruct (worker alg i s) as [s1|e] eqn:He; [|unfold weight, workers_weight; cbn; lia].
  destruct (Hworker s1 eq_refl) as (Hw1 & Hr1 & Hwt). unfold send. destruct (Children_get (pm_workers s1) i) as [w|] eqn:Hg; [|unfold weight, workers_weight in *; cbn; rewrite Hr1; lia].
  assert (Hsend : forall w', (worker_weight (Some w') <= worker_weight (Some w) + 1)%nat -> (weight (with_phase next (with_worker i w' s1)) <= phase_weight next + workers_weight s + length (pm_responses s) + 6)%nat).
  { intros w' Hle. pose proof (sum_list_set (pm_workers s1) i (Some w') Hw1 Hi) as Hsum. rewrite Hg in Hsum. unfold weight, workers_weight in *. cbn [with_phase with_worker pm_phase pm_workers pm_responses] in *. rewrite Hr1. lia. }
  destruct (wk_status w) eqn:Hst; [apply Hsend; cbn; rewrite Hst, ?length_app; cbn; lia.. |]. unfold weight, workers_weight in *. cbn. rewrite Hr1. lia.
Qed.

Lemma worker_step_weight s i s' :
  Children_wf (pm_workers s) -> is_nibble i -> worker_event_loop alg threads i s = Some s' -> (weight s' < weight s)%nat.
Proof.
  intros Hww Hi. unfold worker_event_loop. destruct (Children_get (pm_workers s) i) as [w|] eqn:Hw; [|done].
  assert (Hset : forall w' rs p, (worker_weight (Some w') + length rs < worker_weight (Some w))%nat ->
    (weight (with_responses (pm_responses s ++ rs) (with_proposal p (with_worker i w' s))) < weight s)%nat).
  { intros w' rs p Hlt. pose proof (sum_list_set (pm_workers s) i (Some w') Hww Hi) as Hsum. rewrite Hw in Hsum. unfold weight, workers_weight. cbn. rewrite length_app.
    cbn [with_worker pm_workers] in *. lia. }
  assert (Hanswer : (1 < worker_weight (Some w))%nat -> (weight (worker_answer alg i w s) < weight s)%nat).
  { intros Hgt. unfold worker_answer, put_worker_store. destruct (worker_response _ _ _) as [r ns]. apply Hset. exact Hgt. }
  destruct (wk_status w) eqn:Hst; [| | |done].
  - destruct (Nat.ltb _ _); [|done]. intros [= <-]. pose proof (Hset (mkWorker (wk_root w) (wk_kind w) Receiving (wk_queue w)) [] (pm_proposal s)) as Hlt.
    unfold weight, workers_weight in *. cbn in Hlt |- *. rewrite Hst, app_nil_r in Hlt. lia.
  - destruct (wk_queue w) as [|request queue] eqn:Hq.
    + destruct (requests_closed s); [|done]. intros [= <-]. apply Hanswer. cbn. rewrite Hst. lia.
    + destruct (worker_request _ _ _) as [[|e] ns]; intros [= <-].
      * pose proof (Hset (mkWorker (ns_root ns) (ns_kind ns) Receiving queue) [] (set_storage (ns_storage ns) (pm_proposal s))) as Hlt.
        unfold weight, workers_weight in *. cbn in Hlt |- *. rewrite Hst, Hq, app_nil_r in Hlt. cbn in Hlt. lia.
      * unfold put_worker_store. apply Hset. cbn. rewrite Hst, Hq. cbn. lia.
  - intros [= <-]. apply Hanswer. cbn. rewrite Hst. lia.
Qed.

Lemma step_weight th s s' :
  Children_wf (pm_workers s) -> (forall pcs b, pm_phase s = RemovingAll pcs b -> Forall is_nibble pcs) ->
  (forall op b, pm_phase s = Splitting (op :: b) -> is_bytes (op_key op)) -> step alg threads th s = Some s' -> (weight s' < weight s)%nat.
Proof.
  intros Hww Hpcs Hbs. unfold step. destruct th as [|i].
  2: { assert (Hw : (if bool_decide (i ∈ PathComponent_ALL) then worker_event_loop alg threads i s else None) = Some s' -> (weight s' < weight s)%nat).
       { case_bool_decide as Hi; [|done]. apply worker_step_weight; [done | by apply elem_of_ALL]. } by destruct (pm_phase s). }
  unfold coordinator. unfold weight at 2. destruct (pm_phase s) as [[|op b]|[|i pcs] b| |r] eqn:Hph; cbn [phase_weight length]; [intros [= <-].. | |done].
  - unfold weight, workers_weight. cbn. lia.
  - unfold split_op. destruct (check_batch_op alg op) as [|e]; [|unfold weight, workers_weight; cbn; lia]. rewrite (proj2 (skip_first (op_key op) (Hbs op b eq_refl))).
    pose proof (is_path_nibbles_of _ (Hbs op b eq_refl)) as Hpath. destruct (nibbles_of (op_key op)) as [|j p]; cbn [head].
    + destruct op; unfold weight, workers_weight; cbn; lia.
    + apply is_path_cons in Hpath as [Hj _]. rewrite (PathComponent_try_new_nibble j Hj). pose proof (dispatch_weight j op (Splitting b) s Hww Hj) as Hd. cbn [phase_weight] in Hd. lia.
  - unfold weight, workers_weight. cbn. lia.
  - specialize (Hpcs _ _ eq_refl). apply Forall_cons in Hpcs as [Hi _]. unfold remove_entry. destruct (_ || _); [|unfold weight, workers_weight; cbn; lia].
    pose proof (dispatch_weight i (DeleteRange []) (RemovingAll pcs b) s Hww Hi) as Hd. cbn [phase_weight] in Hd. lia.
  - destruct (pm_responses s) as [|[r|e] rs] eqn:Hr.
    + destruct (forallb _ _); [|done]. intros [= <-]. unfold finish. destruct (postprocess_trie _ _ _) as [[]]; unfold weight, workers_weight; cbn; rewrite Hr; cbn; lia.
    + intros [= <-]. unfold weight, workers_weight. cbn. rewrite Hph. cbn. lia.
    + intros [= <-]. unfold weight, workers_weight. cbn. rewrite Hr. cbn. lia.
Qed.

End Run.

(** ** The start *)

Section Start.
Context {St : Type} `{ReadableStorageLaws St} `{VarInt} `{DigestsLaws}.
Variables (alg : NodeHashAlgorithm) (rd : LinearAddress -> option Node) (threads : nat).

(** The forced root: the same keys below a root without a path. *)
Record forced (t : option trie) (b : BranchNode) (ks : Children (option kid)) : Prop := {
  fo_path : branch_partial_path b = [];
  fo_root : rnode rd (Branch b) (T [] (branch_value b) ks);
  fo_placed : placed alg rd [] (Branch b);
  fo_wf : trie_wf (T [] (branch_value b) ks);
  fo_canonical i h u : is_nibble i -> Children_get ks i = Some (h, u) -> canonical u;
  fo_get k : is_path k -> tget (T [] (branch_value b) ks) k = otget t k;
  fo_handles : kids_handles ks ≡ₚ ohandles t;
}.

Lemma forced_childless t v : (forall k, is_path k -> otget t k = tget (T [] v Children_new) k) -> ohandles t = [] -> forced t (mkBranch [] v Children_new) Children_new.
Proof.
  intros Hget Hhs. split; cbn [branch_partial_path branch_value]; [done | apply rnode_childless | apply placed_new, Forall_nil_2 | apply trie_wf_leaf, Forall_nil_2
    | intros i h u _; by rewrite Children_get_new | |].
  - intros k Hk. by rewrite Hget.
  - by rewrite kids_handles_new, Hhs.
Qed.

Lemma forced_pushed n t i p :
  rnode rd n t -> trie_wf t -> canonical t -> placed alg rd [] n -> tpath t = i :: p ->
  forced (Some t) (mkBranch [] None (Children_set Children_new i (Some (ChildNode (update_partial_path n p)))))
    (Children_set Children_new i (Some (None, T p (tval t) (tkids t)))).
Proof.
  intros Hr Hwf Hc Hp Hpath. destruct t as [pp v ks]. cbn in Hpath. subst pp. pose proof (trie_wf_inv _ _ _ Hwf) as ([Hi Hpp]%is_path_cons & Hks & _).
  assert (Hwt : trie_wf (T p v ks)) by (by apply (trie_wf_path p (T (i :: p) v ks))).
  split; cbn [branch_partial_path branch_value].
  - done.
  - apply rnode_set; [done | apply rnode_childless|]. apply rslot_node. by apply (rnode_update_path rd n (T (i :: p) v ks)).
  - change (Some (ChildNode (update_partial_path n p))) with (ChildNode <$> Some (update_partial_path n p)). apply (placed_set alg rd [] [] None None);
      [apply placed_new, Forall_nil_2 | done|]. intros n' [= <-]. eapply placed_move; [exact Hp | done | by rewrite (rnode_path _ _ _ Hr)].
  - apply trie_wf_set; [done | apply trie_wf_leaf, Forall_nil_2|]. by intros h u [= _ <-].
  - intros j h u Hj. destruct (decide (i = j)) as [<-|Hne]; [|by rewrite Children_get_set_ne, Children_get_new]. rewrite Children_get_set by (apply Children_new_wf || done).
    intros [= _ <-]. by apply (canonical_path p (T (i :: p) v ks)).
  - intros k Hk. rewrite tget_set by (apply Children_new_wf || done). cbn [otget mbind option_bind]. change (i :: p) with ([] ++ i :: p). rewrite tget_cut.
    destruct (strip_prefix _ k); [done | apply tget_empty].
  - rewrite kids_handles_fill by (apply Children_new_wf || done || apply Children_get_new). rewrite kids_handles_new, app_nil_r. cbn. by rewrite !handles_T.
Qed.

Lemma force_root_ok ns t :
  represents alg rd ns t -> ocanonical t -> oplaced alg rd [] (ns_root ns) ->
  exists b ks ns', force_root ns = (Ok b, ns') /\ forced t b ks /\ ns_storage ns' = ns_storage ns /\ ns_kind ns' = ns_kind ns /\
    ns_deleted_node_tracking ns' = ns_deleted_node_tracking ns.
Proof.
  intros (Hh & Hr & Hwf) Hc Hp. unfold force_root. destruct (ns_root ns) as [n|] eqn:Hroot, t as [t|]; try done; cbn in Hr.
  - specialize (Hwf t eq_refl). specialize (Hc t eq_refl). specialize (Hp n eq_refl). unfold force_branch_for_insert. rewrite (rnode_path _ _ _ Hr).
    destruct (tpath t) as [|i p] eqn:Hpath.
    + destruct t as [pp v ks]. cbn in Hpath. subst pp. pose proof (trie_wf_inv _ _ _ Hwf) as (_ & Hks & _).
      destruct (rnode_split _ _ _ Hr) as [(l & -> & [= Hl -> ->])|(? & ? & c & ? & -> & [= <- <- <-] & Hs)].
      * eexists _, Children_new, _. split; [reflexivity|]. split; [|done]. by apply forced_childless.
      * eexists _, ks, _. split; [reflexivity|]. split; [|done]. split; cbn; [done | done | done | done | | done | by rewrite handles_T].
        intros i h u Hi Hu. apply canonical_iff in Hc as [_ Hcan]; [|done]. by eapply Hcan.
    + assert (Hi : is_nibble i). { destruct t as [pp v ks]. cbn in Hpath. subst pp. by apply trie_wf_inv in Hwf as [[? _]%is_path_cons _]. }
      rewrite (PathComponent_try_new_nibble i Hi). cbn. eexists _, _, _. split; [reflexivity|]. split; [by apply forced_pushed | done].
  - eexists _, Children_new, _. split; [reflexivity|]. split; [|done]. apply forced_childless; [|done]. intros k _. by rewrite tget_empty.
Qed.

(** The first state. *)
Lemma start_ok batch ns t m deleted :
  represents alg rd ns t -> ocanonical t -> contents TRIE_FUEL t m -> oplaced alg rd [] (ns_root ns) -> ns_kind ns = Propose deleted ->
  Forall (fun op => is_bytes (op_key op)) batch ->
  exists handles0, flat_map handles0 PathComponent_ALL ≡ₚ ohandles t /\
    phase_ok alg rd (ns_deleted_node_tracking ns) deleted handles0 batch (batch_map batch m) (apply_start batch ns) /\
    weight (apply_start batch ns) = (120 * length batch + 2)%nat.
Proof.
  intros Hr Hc [Hm Hget]%contents_paths Hp Hkind Hb. pose proof Hr as (Hh & _ & _).
  destruct (force_root_ok ns t Hr Hc Hp) as (b & ks & ns' & Hrun & [Hbp Hroot Hpl Hwf Hcan Hfget Hhs] & Hst & Hk & Htr).
  unfold apply_start. rewrite Hrun. pose proof (trie_wf_inv _ _ _ Hwf) as (_ & Hks & Hkids).
  assert (Hpg : forall k, is_path k -> tget (T [] (branch_value b) ks) k = path_get m k) by (intros k Hk0; by rewrite Hfget, Hget).
  exists (fun i => kid_handles (Children_get ks i)). split; [by rewrite <- kids_handles_slots|].
  split; [|unfold weight; change (workers_weight _) with 0%nat; cbn [pm_phase phase_weight pm_responses length]; lia].
  unfold phase_ok. cbn [pm_phase]. exists m. split_and!; try done; [|intros i w _; cbn [pm_workers]; by rewrite Children_get_new].
  destruct b as [bp bv bc]. cbn in Hbp. subst bp. inversion Hroot as [|? ? ? ? Hcw _ Hslots]; subst. inversion Hpl as [|? ? ? ? _ _ Hpc]; subst.
  split; cbn [pm_proposal pm_root_branch pm_workers pm_responses branch_partial_path branch_value branch_children]; [unfold holds; by rewrite Hst | exact Htr | done | | done | apply Children_new_wf |].
  - specialize (Hpg [] ltac:(constructor)). rewrite tget_value, decide_True in Hpg by done. change (path_get m []) with (path_get m (nibbles_of [])) in Hpg. by rewrite path_get_nibbles in Hpg.
  - exists [], [], (fun _ => []). split_and!; [done | done | unfold kept; rewrite Hk, Hkind; destruct (ns_deleted_node_tracking ns); by rewrite app_nil_r | |].
    + clear. generalize PathComponent_ALL as l. induction l; [done | by cbn].
    + intros i Hi. rewrite Children_get_new. cbn [filter list_filter]. eapply slot_idle; [|reflexivity].
      assert (Hsl : forall k, is_path k -> kid_get (Children_get ks i) k = slice m i k).
      { intros k Hk0. unfold slice. rewrite <- Hpg by (by apply is_path_cons). change (i :: k) with ([] ++ i :: k). by rewrite tget_app. }
      specialize (Hslots i Hi). destruct (Children_get bc i) as [c|] eqn:Hbc.
      * apply rslot_Some_inv in Hslots as (n & u & Hu & Hn & Hnu). rewrite Hu in Hsl |- *. exists n, u, u.
        split_and!; [done | done | | by eapply Hkids | by eapply Hcan | apply settles_refl; by eapply Hkids | done | exact Hsl | done].
        eapply placed_child_mono; [by apply Hpc|]. intros _. unfold may_be_stale. cbn. by rewrite andb_false_r.
      * assert (Hno : Children_get ks i = None) by (by inversion Hslots). rewrite Hno in Hsl. split; [|by rewrite Hno]. intros k Hk0. by rewrite <- Hsl.
Qed.

(** ** The result *)

Lemma runs_ok tracking deleted handles0 batch final ts s s' :
  (forall k x, final !! k = Some x -> value_ok x) -> phase_ok alg rd tracking deleted handles0 batch final s -> runs alg threads ts s s' ->
  phase_ok alg rd tracking deleted handles0 batch final s' /\ (length ts + weight s' <= weight s)%nat.
Proof.
  intros Hv Hp Hrun. induction Hrun as [s|th ts s1 s2 s3 Hstep Hrun IH]; [split; [done | cbn; lia]|].
  pose proof (step_ok _ _ _ _ _ _ _ _ Hv _ _ _ Hp Hstep) as Hp2. destruct (IH Hp2) as [Hp3 Hle]. split; [done|].
  assert (Hlt : (weight s2 < weight s1)%nat); [|cbn; lia]. unfold phase_ok in Hp. eapply step_weight; [| | |exact Hstep].
  - destruct (pm_phase s1) eqn:Hph; [destruct Hp as (? & ? & ? & ? & ? & Hs & _); apply Hs | destruct Hp as (? & ? & ? & ? & ? & ? & ? & Hs & _); apply Hs
      | destruct Hp as (_ & _ & Hs); apply Hs | unfold step in Hstep; by rewrite Hph in Hstep].
  - intros pcs b Hph. rewrite Hph in Hp. by destruct Hp as (? & ? & ? & ? & ? & ? & ? & _).
  - intros op b Hph. rewrite Hph in Hp. destruct Hp as (? & ? & ? & Hb & _). by apply Forall_cons in Hb as [? _].
Qed.

Lemma parallel_run_ok batch ns t m deleted ts s :
  (0 < threads)%nat -> Forall (fun op => is_bytes (op_key op)) batch -> represents alg rd ns t -> ocanonical t -> contents TRIE_FUEL t m ->
  oplaced alg rd [] (ns_root ns) -> ns_kind ns = Propose deleted -> (forall k x, batch_map batch m !! k = Some x -> value_ok x) ->
  runs alg threads ts (apply_start batch ns) s ->
  (length ts <= 120 * length batch + 2)%nat /\
  match pm_phase s with
  | Finished r =>
      match check_batch alg batch with
      | Err e => r = Err e
      | Ok _ => exists ns', r = Ok ns' /\ applied alg rd (ns_deleted_node_tracking ns) deleted (ohandles t) (batch_map batch m) ns'
      end
  | _ => exists th s', step alg threads th s = Some s'
  end.
Proof.
  intros Hth Hb Hr Hc Hm Hp Hk Hv Hrun. destruct (start_ok batch ns t m deleted Hr Hc Hm Hp Hk Hb) as (handles0 & Hperm & Hstart & Hw).
  destruct (runs_ok _ _ _ _ _ _ _ _ Hv Hstart Hrun) as [Hend Hle]. split; [lia|].
  pose proof (progress alg rd threads _ _ _ _ _ s Hth Hend) as Hpro. unfold phase_ok in Hend.
  destruct (pm_phase s) as [| | |r]; [by destruct Hpro as [[? ?]|?].. |]. destruct (check_batch alg batch); [|done].
  destruct Hend as (ns' & -> & w & u & hs & x & ? & ? & ? & ? & ? & ? & ? & Hacc). exists ns'. split; [done|]. exists w, u, hs, x. split_and!; try done. by rewrite <- Hperm.
Qed.

(** C13: a parallel batch does what the serial one does, however the threads are scheduled.  From a store
    whose trie holds the map [m], with any number of threads in the pool, every run has at most 120 steps
    for each operation and 2 more, and as long as it is not done some thread can act: there is no deadlock,
    and every run can only end by being done.  When it is done, the result is the error of the first
    operation that does not pass its check, if there is one.  Otherwise the batch has succeeded: the trie
    is canonical and holds the map that the operations make of [m] one after the other (up to storage
    roots that hashing has spliced into Ethereum accounts), every stored hash in it is right, and the
    delete list has grown by exactly the handles that left the trie, apart from nodes that were only
    ever in memory. *)
Theorem parallel_batch_correct batch ns t m deleted ts s :
  (0 < threads)%nat -> Forall (fun op => is_bytes (op_key op)) batch -> represents alg rd ns t -> ocanonical t -> contents TRIE_FUEL t m ->
  oplaced alg rd [] (ns_root ns) -> ns_kind ns = Propose deleted -> (forall k x, batch_map batch m !! k = Some x -> value_ok x) ->
  runs alg threads ts (apply_start batch ns) s ->
  (length ts <= 120 * length batch + 2)%nat /\
  match pm_phase s with
  | Finished r =>
      match check_batch alg batch with
      | Err e => r = Err e
      | Ok _ => exists ns', r = Ok ns' /\ applied alg rd (ns_deleted_node_tracking ns) deleted (ohandles t) (batch_map batch m) ns'
      end
  | _ => exists th s', step alg threads th s = Some s'
  end.
Proof. apply parallel_run_ok. Qed.

(** A store that holds the contents of a trie holds them after hashing under MerkleDB. *)
Lemma applied_holds_map tracking deleted before m ns : is_ethereum alg = false -> applied alg rd tracking deleted before m ns -> holds_map alg rd ns m.
Proof.
  intros He (w & u & hs & x & Hr & _ & [Hm Hget]%contents_paths & Hset & _). exists u. split; [done|]. split; [by eapply osettles_wf|]. apply contents_paths. split; [done|].
  intros k Hk. rewrite <- Hget by done. destruct w as [w|], u as [u|]; try done. destruct Hset as (_ & _ & Hset). cbn.
  by apply (settles_tget alg w (tpath w) u k 0 Hset Hk eq_refl); left.
Qed.

(** Whatever the policy, a batch under MerkleDB makes the same map. *)
Lemma apply_batch_ok use_parallel lower_bound batch ns t m deleted r :
  (0 < threads)%nat -> is_ethereum alg = false -> Forall (fun op => is_bytes (op_key op)) batch -> represents alg rd ns t -> ocanonical t -> contents TRIE_FUEL t m ->
  oplaced alg rd [] (ns_root ns) -> ns_kind ns = Propose deleted -> (forall k x, batch_map batch m !! k = Some x -> value_ok x) ->
  apply_batch alg threads use_parallel lower_bound ns batch r ->
  match check_batch alg batch with
  | Ok _ => exists ns', r = Ok ns' /\ holds_map alg rd ns' (batch_map batch m)
  | Err e => r = Err e
  end.
Proof.
  intros Hth He Hb Hr Hc Hm Hp Hk Hv Happ. destruct Happ as [_|ts s r _ Hrun Hph].
  - pose proof (apply_batch_serial_ok alg rd batch ns m Hb ltac:(by exists t)) as Hs. by destruct (check_batch alg batch).
  - destruct (parallel_run_ok batch ns t m deleted ts s Hth Hb Hr Hc Hm Hp Hk Hv Hrun) as [_ Hend]. rewrite Hph in Hend.
    destruct (check_batch alg batch); [|done]. destruct Hend as (ns' & -> & Ha). exists ns'. split; [done | by eapply applied_holds_map].
Qed.

End Start.

(** *** Witness: a batch on a branch in memory with a leaf on disk, with one thread in the pool *)
Section ParallelWitness.
Import Leb128 FirstBytes.

Definition w_schedule : list thread :=
  [Coordinator; WorkerThread 6; WorkerThread 6; Coordinator; WorkerThread 6; Coordinator; Coordinator; WorkerThread 6; Coordinator; Coordinator].

Lemma parallel_batch_correct_witness :
  exists s ns', run MerkleDB 1 w_schedule (apply_start w_batch w_right_store) = Some s /\ pm_phase s = Finished (Ok ns') /\
    applied MerkleDB w_rd true [] (ohandles (Some w_trie)) {[ [98] := [8] ]} ns'.
Proof.
  destruct (run MerkleDB 1 w_schedule (apply_start w_batch w_right_store)) as [s|] eqn:Hrun.
  2: { apply (f_equal (fun o => match o with Some _ => true | None => false end)) in Hrun. vm_compute in Hrun. discriminate. }
  assert (Hm : batch_map w_batch w_map = {[ [98] := [8] ]}) by (by vm_compute).
  assert (Hph : match pm_phase s with Finished (Ok _) => true | _ => false end = true).
  { apply (f_equal (fun o => match o with Some s => match pm_phase s with Finished (Ok _) => true | _ => false end | None => false end)) in Hrun.
    rewrite <- Hrun. vm_compute. reflexivity. }
  pose proof (parallel_batch_correct MerkleDB w_rd 1 w_batch w_right_store (Some w_trie) w_map [] w_schedule s) as [_ Hend].
  - lia.
  - repeat constructor; unfold u8, U8_MAX; lia.
  - exact w_right_represents.
  - exact w_canonical.
  - apply (contents_weaken 9); [exact w_contents|]. apply (bool_decide_unpack (9 <= TRIE_FUEL)%nat). vm_compute. exact I.
  - intros n [= <-]. eapply committed_placed; [exact w_right_committed|]. by destruct w_represents as (_ & _ & Hwf); apply Hwf.
  - reflexivity.
  - rewrite Hm. intros k x [_ <-]%lookup_singleton_Some. split; [repeat constructor; unfold u8, U8_MAX; lia | vm_compute; discriminate].
  - by apply run_runs.
  - destruct (pm_phase s) as [| | |[ns'|e]] eqn:Hp; [discriminate Hph.. | | discriminate Hph]. change (check_batch MerkleDB w_batch) with (@Ok CreateProposalError unit tt) in Hend.
    destruct Hend as (ns2 & [= <-] & Ha). rewrite Hm in Ha. exists s, ns'. split; [reflexivity|]. split; [exact Hp | exact Ha].
Defined.

End ParallelWitness.
