(* ===== verification/Persist.v ===== *)
(** * Persisting a revision

    [storage/src/nodestore/persist.rs]: a committed revision is written to disk in
    batches.  Each node that is not on disk is serialised, given an area and a place in
    the batch; before the nodes of a batch are written the free lists are, so that what
    is on disk never offers an area in use.  The root goes into the header at the end. *)

From S2P Require Import Prelude Primitives NodePath Node Codec NodeCodec Trie NodeStore Linear Header Alloc Rlp Hashing Cells PersistIter.

(** The size of a batch. *)
Definition INITIAL_BUMP_SIZE : Z := MAX_AREA_SIZE.

Section Persist.
Context {St : Type} `{ReadableStorage St} `{WritableStorage St} `{VarInt} `{Digests}.
Variable alg : NodeHashAlgorithm.
(** [NodeReader::read_node] of the store. *)
Variable read_node : LinearAddress -> result failure SharedNode.

(** A serialised node with its address and its cell. *)
Record allocated_object : Type := mkObject {
  ao_slice : bytes;
  ao_addr : LinearAddress;
  ao_cell : cell;
}.

(** [serialize_node_to_bump]. *)
Definition serialize_node_to_bump (shared_node : Node) (node_allocator : NodeAllocator St)
  : result failure (bytes * LinearAddress * Z) * NodeAllocator St :=
  match as_bytes alg shared_node [] with
  | Err e => (Err e, node_allocator)
  | Ok (area_size_index, slice) =>
      match allocate_node node_allocator slice with
      | (Err e, node_allocator) => (Err e, node_allocator)
      | (Ok (persisted_address, _), node_allocator) =>
          (Ok (slice, persisted_address, AreaIndex_size area_size_index), node_allocator)
      end
  end.

(** The cells after [write_cached_nodes], which may have marked each of the nodes as persisted. *)
Fixpoint update_cells (cs : cells) (objects : list allocated_object) (nodes : list MaybePersisted) : cells :=
  match objects, nodes with
  | o :: objects, Persisted addr :: nodes => update_cells (cell_persist_at cs (ao_cell o) addr) objects nodes
  | _ :: objects, _ :: nodes => update_cells cs objects nodes
  | _, _ => cs
  end.

(** The handle of an object, as the storage sees it. *)
Definition object_handle (cs : cells) (o : allocated_object) : MaybePersisted :=
  match cs !! ao_cell o with
  | Some (CAllocated addr n) => Allocated addr (view_node cs n)
  | Some (CUnpersisted n) => Unpersisted (view_node cs n)
  | Some (CPersisted addr) => Persisted addr
  | None => Unpersisted blank
  end.

(** [NodeStore::write_batch]. *)
Definition NodeStore_write_batch (cs : cells) (s : St) (allocated_objects : list allocated_object)
  : result failure unit * cells * St :=
  match write_batch write s (map (fun o => (ao_addr o, ao_slice o)) allocated_objects) 0 with
  | (Err e, s) => (Err e, cs, s)
  | (Ok _, s) =>
      match write_cached_nodes s (map (object_handle cs) allocated_objects) with
      | Err e => (Err e, cs, s)
      | Ok (nodes, s) => (Ok tt, update_cells cs allocated_objects nodes, s)
      end
  end.

(** The end of a batch: the free lists, then the nodes. *)
Definition flush_batch (cs : cells) (al : NodeAllocator St) (allocated_objects : list allocated_object)
  : result failure unit * cells * NodeAllocator St :=
  match flush_freelist al with
  | (Err e, al) => (Err e, cs, al)
  | (Ok _, al) =>
      let '(r, cs, s) := NodeStore_write_batch cs (al_storage al) allocated_objects in
      (r, cs, mkAllocator s (al_header al))
  end.

(** The loop of [process_unpersisted_nodes]; [n] bounds the number of nodes, [fuel] each step of the iterator. *)
Fixpoint process_loop (n fuel : nat) (bump_size_limit : Z) (it : UnPersistedNodeIterator)
  (allocated_objects : list allocated_object) (allocated_len : Z) (cs : cells) (al : NodeAllocator St)
  : result failure unit * cells * NodeAllocator St :=
  match n with
  | O => (Err Diverges, cs, al)
  | S n =>
      match UnPersistedNodeIterator_next read_node fuel cs it with
      | Err e => (Err e, cs, al)
      | Ok (None, _) =>
          match allocated_objects with
          | [] => (Ok tt, cs, al)
          | _ => flush_batch cs al allocated_objects
          end
      | Ok (Some node, it) =>
          match shared_in_memory read_node cs node with
          | Err e => (Err e, cs, al)
          | Ok shared_node =>
              match serialize_node_to_bump (view_node cs shared_node) al with
              | (Err e, al) => (Err e, cs, al)
              | (Ok (slice, persisted_address, idx_size), al) =>
                  match cell_allocate_at cs node persisted_address with
                  | None => (Err Panic, cs, al)
                  | Some cs =>
                      let allocated_len := saturating_add_u64 allocated_len idx_size in
                      let allocated_objects := allocated_objects ++ [mkObject slice persisted_address node] in
                      if saturating_sub_u64 bump_size_limit idx_size <? allocated_len then
                        match flush_batch cs al allocated_objects with
                        | (Err e, cs, al) => (Err e, cs, al)
                        | (Ok _, cs, al) => process_loop n fuel bump_size_limit it [] 0 cs al
                        end
                      else process_loop n fuel bump_size_limit it allocated_objects allocated_len cs al
                  end
              end
          end
      end
  end.

(** [process_unpersisted_nodes]; [root] is the root of the revision. *)
Definition process_unpersisted_nodes (n fuel : nat) (bump_size_limit : Z) (root : option SharedChild) (cs : cells) (al : NodeAllocator St)
  : result failure unit * cells * NodeAllocator St :=
  let '(root, cs) :=
    match root with
    | Some root => let '(c, cs) := as_cell cs root in (Some c, cs)
    | None => (None, cs)
    end in
  match UnPersistedNodeIterator_new read_node cs root with
  | Err e => (Err e, cs, al)
  | Ok it => process_loop n fuel bump_size_limit it [] 0 cs al
  end.

(** [flush_nodes]. *)
Definition flush_nodes (n fuel : nat) (root : option SharedChild) (cs : cells) (s : St) (header : NodeStoreHeader)
  : result failure unit * cells * NodeAllocator St :=
  process_unpersisted_nodes n fuel INITIAL_BUMP_SIZE root cs (mkAllocator s header).

(** [NodeStore::persist]: the result, the cells, the storage and the header afterwards. *)
Definition persist (n fuel : nat) (root : option SharedChild) (cs : cells) (s : St) (header : NodeStoreHeader)
  : result failure unit * cells * St * NodeStoreHeader :=
  match flush_nodes n fuel root cs s header with
  | (Err e, cs, al) => (Err e, cs, al_storage al, al_header al)
  | (Ok _, cs, al) =>
      let root_location := '(addr, hash) ← (root ≫= SharedChild_persist_info cs); Some (addr, into_triehash hash) in
      let header := set_root_location root_location (al_header al) in
      match flush_to header (al_storage al) with
      | Err e => (Err e, cs, al_storage al, header)
      | Ok s => (Ok tt, cs, s, header)
      end
  end.

End Persist.
