(* ===== verification/PersistCorrect.v ===== *)
(** * Persisting a revision: correctness

    What is on disk after [persist], and what is on disk when a write fails on the
    way: an invariant of the loop of [process_unpersisted_nodes] that speaks of the
    allocator in memory and of the header and the free lists on disk at once. *)

From S2P Require Import Prelude Primitives NodePath Node Codec NodeCodec Trie NodeStore Linear Header Alloc AllocCorrect Reap.
From S2P Require Import MerkleSpec HashSpec Rlp Hashing Cells PersistIter Persist.

(** ** Nodes on disk *)

Section Stored.
Context `{VarIntLaws}.
Variable alg : NodeHashAlgorithm.

(** The bytes of a node of class [i], which read as [n] whatever follows them. *)
Definition encodes (slice : bytes) (i : AreaIndex) (n : Node) : Prop :=
  exists body, slice = i :: body /\ AreaIndex_wf i /\ Z.of_nat (length slice) <= AreaIndex_size i /\
    forall rest, from_reader alg (body ++ rest) = Ok (n, rest).

(** The node [n] is stored in the area [x]. *)
Definition stored_node (data : bytes) (x : area) (n : Node) : Prop :=
  exists slice rest, drop (Z.to_nat x.1) data = slice ++ rest /\ encodes slice x.2 n.

Lemma stored_node_outside data o obj x n :
  0 <= o -> 0 <= x.1 -> outside o obj x -> stored_node data x n -> stored_node (overwrite data (Z.to_nat o) obj) x n.
Proof.
  intros Ho Hx Hout (slice & rest & Hd & Henc). pose proof Henc as (body & Hs & Hi & Hlen & _).
  unfold outside, area_end in Hout.
  destruct (prefix_overwrite data (Z.to_nat o) obj (Z.to_nat x.1) slice rest Hd) as [rest' Hd']; [lia|].
  by exists slice, rest'.
Qed.

Lemma stored_node_written data x slice n :
  encodes slice x.2 n -> stored_node (overwrite data (Z.to_nat x.1) slice) x n.
Proof. intros He. exists slice. eexists. split; [apply drop_overwrite | done]. Qed.

(** Reading the store at the address gives the node. *)
Lemma stored_node_disk {St} `{WritableStorageLaws St} (s : St) x n :
  0 <= x.1 < U64_MAX -> stored_node (store_bytes s) x n -> disk alg s x.1 = Some n.
Proof.
  intros Hx (slice & rest & Hd & body & -> & _ & _ & Hdec). unfold disk, read_node_with_num_bytes_from_disk.
  unfold saturating_add_u64. rewrite Z.min_l by lia. rewrite stream_from_law. unfold mbind, result_bind.
  assert (Hd1 : drop (Z.to_nat (x.1 + 1)) (store_bytes s) = body ++ rest).
  { replace (Z.to_nat (x.1 + 1)) with (Z.to_nat x.1 + 1)%nat by lia. by rewrite <- drop_drop, Hd. }
  by rewrite Hd1, Hdec.
Qed.

End Stored.

(** ** What is written for a node *)

Lemma present_fmap {A B} (f : A -> B) (ch : Children (option A)) :
  Children_iter_present ((fun o : option A => f <$> o) <$> ch) = (fun p => (p.1, f p.2)) <$> Children_iter_present ch.
Proof.
  unfold Children_iter_present, Children_iter. generalize PathComponent_ALL. intros l.
  revert ch. induction l as [|i l IH]; intros [|o ch]; [done..|]. csimpl. destruct o as [x|]; csimpl; by rewrite <- IH.
Qed.

Section Forms.
Variable alg : NodeHashAlgorithm.

(** The children of a node have addresses and hashes that can be stored. *)
Definition ready (cs : cells) (n : SharedNode) : Prop :=
  match n with
  | SLeaf _ => True
  | SBranch _ _ ch =>
      Children_wf ch /\ (0 < length (Children_iter_present ch))%nat /\
      forall p, p ∈ Children_iter_present ch ->
        exists a h, SharedChild_persist_info cs p.2 = Some (a, h) /\ LinearAddress_wf a /\ hash_wf alg h
  end.

Lemma ready_storable cs n : ready cs n -> storable alg (view_node cs n).
Proof.
  destruct n as [l|p v ch]; [done|]. intros (Hwf & Hlen & Hch). cbn [view_node storable branch_children].
  rewrite present_fmap. split_and!; [unfold Children_wf in *; by rewrite length_fmap | by rewrite length_fmap|].
  intros q ([i x] & -> & Hx)%list_elem_of_fmap. destruct (Hch _ Hx) as (a & h & Hi & Ha & Hh).
  exists a, h. cbn [fst snd] in *. by rewrite view_child_persist_info.
Qed.

(** The node that reading back yields. *)
Definition disk_form (cs : cells) (n : SharedNode) : Node := stored_form (view_node cs n).

(** A cell that a node refers to. *)
Definition refers (n : SharedNode) (c : cell) : Prop :=
  match n with
  | SLeaf _ => False
  | SBranch _ _ ch => exists i h, (i, SCell c h) ∈ Children_iter_present ch
  end.

(** Only the addresses of the children matter. *)
Lemma disk_form_ext cs cs' n :
  ready cs n -> (forall c, refers n c -> cell_as_linear_address cs' c = cell_as_linear_address cs c) ->
  disk_form cs' n = disk_form cs n /\ ready cs' n.
Proof.
  destruct n as [l|p v ch]; [done|]. intros (Hwf & Hlen & Hr) Hsame.
  assert (Hinfo : forall q, q ∈ Children_iter_present ch -> SharedChild_persist_info cs' q.2 = SharedChild_persist_info cs q.2).
  { intros [i x] Hq. destruct x as [m|a h|c h]; [done..|]. cbn [snd SharedChild_persist_info].
    rewrite Hsame; [done|]. by exists i, h. }
  split.
  - unfold disk_form, view_node, stored_form. do 2 f_equal. rewrite <- !list_fmap_compose. apply list_fmap_ext.
    intros k o Hk. destruct o as [x|]; [|done]. cbn. unfold stored_child. rewrite !view_child_persist_info.
    assert (Hin : (Z.of_nat k, x) ∈ Children_iter_present ch).
    { apply Children_iter_present_elem; [done|]. pose proof (lookup_lt_Some _ _ _ Hk) as Hlt.
      unfold Children_wf, MAX_CHILDREN, PathComponent_LEN in Hwf.
      unfold Children_get. rewrite Nat2Z.id, Hk. split; [unfold is_nibble; lia | done]. }
    pose proof (Hinfo _ Hin) as He. cbn [snd] in He. rewrite He. destruct (Hr _ Hin) as (a & h & Hs & _). cbn [snd] in Hs. by rewrite Hs.
  - split_and!; [done..|]. intros q Hq. rewrite Hinfo by done. by apply Hr.
Qed.

(** Serialising such a node: its bytes fit the area they name, or it is too large for every area. *)
Lemma as_bytes_ready `{VarIntLaws} cs n :
  ready cs n ->
  as_bytes alg (view_node cs n) [] = Err (IoFailure OutOfMemory) \/
  exists i slice, as_bytes alg (view_node cs n) [] = Ok (i, slice) /\ encodes alg slice i (disk_form cs n) /\
    from_size (Z.of_nat (length slice)) = Ok i.
Proof.
  intros Hs%ready_storable. destruct (node_encoding_total alg (view_node cs n) [] Hs) as (body & Hb & [(Hle & i & Ha)|[_ Ha]]); [|by left].
  right. exists i, (i :: body). split; [done|]. destruct (as_bytes_Ok alg _ _ _ _ Ha) as (body' & Hb' & [= <-] & Hi).
  destruct (from_size_Ok _ _ Hi) as (Hwf & Hle' & _). split; [|done].
  exists body. split_and!; [done..|]. intros rest. apply from_reader_encode_body; [done..|].
  pose proof (AreaIndex_size_range _ Hwf) as Hr. change MAX_AREA_SIZE with 16777216 in Hr. cbn [length] in Hle'. ulia.
Qed.

End Forms.

(** ** Writes *)

Section Writes.
Context `{VarIntLaws} {St : Type} `{WritableStorageLaws St}.

(** A write that stays out of the free areas keeps the invariant of the allocator. *)
Lemma alloc_inv_overwrite (al : NodeAllocator St) free live o obj (s' : St) :
  alloc_inv al free live -> 0 <= o -> (forall x, x ∈ free_areas free -> outside o obj x) ->
  store_bytes s' = overwrite (store_bytes (al_storage al)) (Z.to_nat o) obj ->
  (forall a, free_next s' a = free_next (al_storage al) a) ->
  alloc_inv (mkAllocator s' (al_header al)) free live.
Proof.
  intros Hinv Ho Hout Hb Hf. pose proof Hinv as [Hlen Hsz Ht Hch Hca].
  assert (Hfree : forall i b, AreaIndex_wf i -> b ∈ free i -> 0 <= b /\ outside o obj (b, i)).
  { intros i b Hi Hbi. destruct (inv_area al free live b i Hinv Hi Hbi) as (_ & _ & Hlo & _). unfold HEADER_SIZE in Hlo. cbn [fst] in Hlo.
    split; [lia|]. apply Hout. by apply elem_of_free_areas. }
  split; cbn [al_storage al_header]; [done..| |].
  - intros i Hi. rewrite Hb. apply chain_outside; [done | | by apply Hch]. intros b Hbi. by apply Hfree.
  - intros a next. rewrite Hf. intros (i & Hi & Ha & Hfa)%Hca. exists i. split_and!; [done..|]. rewrite Hb.
    destruct (Hfree i a Hi Ha). by apply is_free_area_outside.
Qed.

Lemma same_on_overwrite live data0 data o obj :
  0 <= o -> (forall x, x ∈ live -> 0 <= x.1 /\ outside o obj x) ->
  same_on live data0 data -> same_on live data0 (overwrite data (Z.to_nat o) obj).
Proof.
  intros Ho Hout Hs x Hx k Hk Hl. pose proof (Hs x Hx k Hk Hl) as He. destruct (Hout x Hx) as [Hx0 Hox]. unfold outside in Hox.
  destruct (lookup_lt_is_Some_2 data0 k Hl) as [b Hb]. rewrite Hb in He. pose proof (lookup_lt_Some _ _ _ He).
  rewrite Hb, <- He. apply overwrite_other; [done|]. lia.
Qed.

End Writes.

Section OnDisk.
Context `{VarIntLaws} {St : Type} `{WritableStorageLaws St}.

(** ** What is on disk

    [data0] and [hd0] are the bytes and the header that were on disk at first.  The header is still there but for
    the free lists; with these lists the file is a consistent store in which the areas of [live] are in use,
    and their bytes are the old ones.  A program that starts from these bytes finds the old revision. *)
Definition on_disk (hd0 : NodeStoreHeader) (live : list area) (data0 data : bytes) (fd : free_map) : Prop :=
  exists fl rest, data = header_bytes (set_free_lists fl hd0) ++ rest /\ header_wf (set_free_lists fl hd0) /\
    alloc_inv (mkAllocator (mkMemStore data) (set_free_lists fl hd0)) fd live /\ same_on live data0 data.

Lemma overwrite_middle (a b c obj : bytes) :
  length obj = length b -> overwrite (a ++ b ++ c) (length a) obj = a ++ obj ++ c.
Proof.
  intros Hl. unfold overwrite, grow. rewrite !length_app.
  replace (length a + length obj - (length a + (length b + length c)))%nat with 0%nat by lia. cbn [replicate]. rewrite app_nil_r.
  rewrite take_app_length. do 2 f_equal. rewrite Hl, <- drop_drop, drop_app_length. by rewrite drop_app_length.
Qed.

Lemma overwrite_free_lists hd fl rest :
  header_wf hd -> length fl = Z.to_nat NUM_AREA_SIZES ->
  overwrite (header_bytes hd ++ rest) (Z.to_nat free_lists_offset) (free_lists_bytes fl) = header_bytes (set_free_lists fl hd) ++ rest.
Proof.
  intros [] Hfl. unfold header_bytes. cbn [set_free_lists h_version h_endian_test h_size h_free_lists h_root_address h_area_size_hash
    h_node_hash_algorithm h_root_hash h_cargo_version h_git_describe].
  set (pre := h_version hd ++ to_le_bytes 8 (h_endian_test hd) ++ to_le_bytes 8 (h_size hd)).
  set (post := address_bytes (h_root_address hd) ++ h_area_size_hash hd ++ to_le_bytes 8 (h_node_hash_algorithm hd) ++ h_root_hash hd ++
    h_cargo_version hd ++ h_git_describe hd ++ rest).
  assert (Hpre : Z.to_nat free_lists_offset = length pre) by (subst pre; by rewrite !length_app, !length_to_le_bytes, hw_version).
  rewrite Hpre. pose proof (overwrite_middle pre (free_lists_bytes (h_free_lists hd)) post (free_lists_bytes fl)) as Ho.
  subst pre post. rewrite <- !app_assoc in Ho. rewrite <- !app_assoc. apply Ho. rewrite !length_free_lists_bytes. congruence.
Qed.

Lemma heads_wf (al : NodeAllocator St) free live : alloc_inv al free live -> Forall address_wf (h_free_lists (al_header al)).
Proof.
  intros Hinv. apply Forall_lookup. intros k a Hk. pose proof (lookup_lt_Some _ _ _ Hk) as Hlt.
  rewrite (inv_lists _ _ _ Hinv) in Hlt.
  pose proof (inv_head_wf al free live (Z.of_nat k) Hinv) as Hw. unfold FreeLists_get in Hw. rewrite Nat2Z.id, Hk in Hw. apply Hw.
  unfold AreaIndex_wf. lia.
Qed.

Lemma area_not_in_header x size o obj :
  area_ok size x -> o + Z.of_nat (length obj) <= HEADER_SIZE -> 0 <= o -> 0 <= x.1 /\ outside o obj x.
Proof. intros (_ & _ & Hlo & _) Ho Hpos. unfold outside, HEADER_SIZE in *. lia. Qed.

(** The areas of an allocator. *)
Lemma inv_area_any (al : NodeAllocator St) free live x :
  alloc_inv al free live -> x ∈ free_areas free \/ x ∈ live -> area_ok (h_size (al_header al)) x.
Proof. intros [_ _ [Hok _ _] _ _] Hx. rewrite Forall_forall in Hok. apply Hok, elem_of_app. tauto. Qed.

Lemma free_lists_fit (al : NodeAllocator St) free live :
  alloc_inv al free live -> free_lists_offset + Z.of_nat (length (free_lists_bytes (h_free_lists (al_header al)))) <= HEADER_SIZE.
Proof. intros Hinv. rewrite length_free_lists_bytes, (inv_lists _ _ _ Hinv). vm_compute. discriminate. Qed.

(** Writing the free lists of the allocator: from then on the disk offers the same areas as the allocator. *)
Lemma on_disk_flush hd0 live data0 fd (al : NodeAllocator St) free new :
  on_disk hd0 live data0 (store_bytes (al_storage al)) fd -> alloc_inv al free (new ++ live) -> free_areas free ⊆ free_areas fd ->
  on_disk hd0 live data0 (overwrite (store_bytes (al_storage al)) (Z.to_nat free_lists_offset) (free_lists_bytes (h_free_lists (al_header al)))) free.
Proof.
  intros (fl & rest & Hd & Hwf & Hinv & Hs) Hal Hsub. pose proof Hal as [Hlen _ [_ Hnd Hap] Hch _].
  pose proof (free_lists_fit al free _ Hal) as Hfit. assert (0 <= free_lists_offset) by (vm_compute; discriminate).
  set (fl' := h_free_lists (al_header al)) in *. exists fl', rest.
  assert (Hbytes : overwrite (store_bytes (al_storage al)) (Z.to_nat free_lists_offset) (free_lists_bytes fl') = header_bytes (set_free_lists fl' hd0) ++ rest)
    by (by rewrite Hd, overwrite_free_lists).
  split_and!; [done| | |].
  - destruct Hwf. constructor; try done. exact (heads_wf al free _ Hal).
  - pose proof Hinv as [_ Hsz [Hok _ _] _ _]. split; cbn [al_storage al_header store_bytes MemStore_writable_laws mem_bytes]; [done | done | | | done].
    + split.
      * apply Forall_forall. rewrite Forall_forall in Hok. intros x Hx. apply Hok. apply elem_of_app in Hx. apply elem_of_app. destruct Hx; [left; by apply Hsub | by right].
      * clear -Hnd. apply NoDup_app in Hnd as (Hf & Hd & Hl). apply NoDup_app in Hl as (_ & _ & Hl). apply NoDup_app. split_and!; [done | | done].
        intros x Hx Hlx. apply (Hd x Hx). apply elem_of_app. by right.
      * intros x y Hx Hy. apply Hap; rewrite !elem_of_app in *; tauto.
    + intros i Hi. apply chain_outside; [done | | by apply Hch]. intros b Hb.
      apply (area_not_in_header (b, i) (h_size (al_header al))); [|done|done]. by eapply inv_area.
  - apply same_on_overwrite; [done | | done]. intros x Hx.
    apply (area_not_in_header x (h_size (al_header al))); [|done|done]. eapply inv_area_any; [done|]. right. apply elem_of_app. by right.
Qed.

(** A write outside of the areas in use and the free ones. *)
Lemma on_disk_write hd0 live data0 data fd o obj :
  on_disk hd0 live data0 data fd -> HEADER_SIZE <= o -> (forall x, x ∈ free_areas fd \/ x ∈ live -> outside o obj x) ->
  on_disk hd0 live data0 (overwrite data (Z.to_nat o) obj) fd.
Proof.
  intros (fl & rest & Hd & Hwf & Hinv & Hs) Ho Hout. assert (Hpos : 0 <= o) by (unfold HEADER_SIZE in Ho; lia).
  destruct (prefix_overwrite data (Z.to_nat o) obj 0 (header_bytes (set_free_lists fl hd0)) rest) as [rest' Hr].
  { by rewrite drop_0. }
  { rewrite length_header_bytes by done. unfold HEADER_SIZE in Ho. lia. }
  rewrite drop_0 in Hr. exists fl, rest'. split_and!; [done | done | |].
  - apply (alloc_inv_overwrite (mkAllocator (mkMemStore data) (set_free_lists fl hd0)) fd live o obj
      (mkMemStore (overwrite data (Z.to_nat o) obj))); try done. intros x Hx. apply Hout. by left.
  - apply same_on_overwrite; [done | | done]. intros x Hx. split; [|by apply Hout; right].
    destruct (inv_area_live _ _ _ x Hinv Hx). done.
Qed.

End OnDisk.

(** ** A batch *)

Section Batches.
Context `{VarIntLaws} {St : Type} `{WritableStorageLaws St} `{Digests}.
Variable alg : NodeHashAlgorithm.

(** The storage refuses a write with the error [e]. *)
Definition write_fails (e : failure) : Prop := exists (s : St) o obj, write s o obj = Err e.

Lemma apart_outside x y obj : apart x y -> Z.of_nat (length obj) <= AreaIndex_size y.2 -> outside y.1 obj x.
Proof. unfold apart, outside, area_end. lia. Qed.

(** The nodes of a batch do not overlap one another, and nothing else that is in use or free. *)
Lemma write_objects_ok hd0 live data0 h free es objs K (s : St) acc :
  Forall2 (fun (e : area * Node) o => ao_addr o = e.1.1 /\ encodes alg (ao_slice o) e.1.2 e.2) es objs ->
  alloc_inv (mkAllocator s h) free (es.*1 ++ K.*1 ++ live) -> on_disk hd0 live data0 (store_bytes s) free ->
  Forall (fun e => stored_node alg (store_bytes s) e.1 e.2) K ->
  0 <= acc -> acc + Z.of_nat (length es) * MAX_AREA_SIZE <= U64_MAX ->
  match write_batch write s (map (fun o => (ao_addr o, ao_slice o)) objs) acc with
  | (Ok _, s') => alloc_inv (mkAllocator s' h) free (es.*1 ++ K.*1 ++ live) /\ on_disk hd0 live data0 (store_bytes s') free /\
      Forall (fun e => stored_node alg (store_bytes s') e.1 e.2) (es ++ K)
  | (Err e, s') => write_fails e /\ on_disk hd0 live data0 (store_bytes s') free
  end.
Proof.
  intros Hobj. revert K s acc. induction Hobj as [|[x n] o es objs [Ho Henc] Hobj IH]; intros K s acc Hinv Hdisk HK Hacc Hroom; [done|].
  cbn [map write_batch fst snd] in *. rewrite Ho. destruct (write s x.1 (ao_slice o)) as [[m s']|e] eqn:Hw.
  2: { split; [by exists s, x.1, (ao_slice o) | done]. }
  destruct (write_law _ _ _ _ _ Hw) as (Hm & Hb & Hf). pose proof Henc as (body & _ & Hi & Hlen & _). pose proof (AreaIndex_size_range _ Hi) as Hr.
  change MAX_AREA_SIZE with 16777216 in *. cbn [length] in Hroom. unfold checked_add_u64. zcase; [|lia].
  pose proof Hinv as [_ _ [Hok Hnd Hap] _ _]. cbn [al_header fmap list_fmap app] in *.
  assert (Hx : x ∈ free_areas free ++ x :: es.*1 ++ K.*1 ++ live) by (apply elem_of_app; right; left).
  assert (Hother : forall y, y ∈ free_areas free ++ es.*1 ++ K.*1 ++ live -> 0 <= y.1 /\ outside x.1 (ao_slice o) y).
  { intros y Hy. assert (Hy' : y ∈ free_areas free ++ x :: es.*1 ++ K.*1 ++ live) by set_solver.
    destruct (proj1 (Forall_forall _ _) Hok y Hy') as (_ & _ & Hlo & _). unfold HEADER_SIZE in Hlo. split; [lia|].
    apply apart_outside; [|done]. apply Hap; [done..|]. intros ->.
    rewrite <- Permutation_middle in Hnd. apply NoDup_cons in Hnd as [Hn _]. done. }
  destruct (proj1 (Forall_forall _ _) Hok x Hx) as (_ & _ & Hlo & _).
  assert (Hperm : es.*1 ++ ((x, n) :: K).*1 ++ live ≡ₚ x :: es.*1 ++ K.*1 ++ live) by (symmetry; apply Permutation_middle).
  assert (Hinv' : alloc_inv (mkAllocator s' h) free (es.*1 ++ ((x, n) :: K).*1 ++ live)).
  { eapply alloc_inv_perm; [symmetry; exact Hperm|].
    apply (alloc_inv_overwrite (mkAllocator s h) free _ x.1 (ao_slice o)); [done | unfold HEADER_SIZE in Hlo; lia | | done | done].
    intros y Hy. apply Hother. rewrite !elem_of_app. clear -Hy. tauto. }
  specialize (IH ((x, n) :: K) s' (acc + m) Hinv'). rewrite Hb in IH.
  assert (HK' : Forall (fun e => stored_node alg (overwrite (store_bytes s) (Z.to_nat x.1) (ao_slice o)) e.1 e.2) ((x, n) :: K)).
  { constructor; [by apply stored_node_written|]. rewrite Forall_forall in HK |- *. intros [y k] Hy.
    destruct (Hother y) as [Hy0 Hout]; [apply list_elem_of_fmap_2 with (f := fst) in Hy; rewrite !elem_of_app; clear -Hy; tauto|].
    apply stored_node_outside; [unfold HEADER_SIZE in Hlo; lia | done | done | by apply (HK (y, k))]. }
  assert (Hdisk' : on_disk hd0 live data0 (overwrite (store_bytes s) (Z.to_nat x.1) (ao_slice o)) free).
  { apply on_disk_write; [done..|]. intros y Hy. apply Hother. rewrite !elem_of_app. clear -Hy. tauto. }
  specialize (IH Hdisk' HK' ltac:(lia) ltac:(lia)).
  destruct (write_batch write s' _ (acc + m)) as [[u|e] s2]; [|done]. destruct IH as (Hinv2 & Hdisk2 & HK2).
  split_and!; [by eapply alloc_inv_perm | done|]. rewrite <- Permutation_middle in HK2. exact HK2.
Qed.

End Batches.
