(* ===== verification/PersistLoop.v ===== *)
(** * Persisting a revision: the loop

    The invariant of the loop of [process_unpersisted_nodes]: which nodes are written,
    which are in the batch, which are still to come, and what is on disk meanwhile. *)

From S2P Require Import Prelude Primitives NodePath Node Codec NodeCodec Trie NodeStore Linear Header Alloc AllocCorrect Reap.
From S2P Require Import MerkleSpec HashSpec Rlp Hashing Cells PersistIter Persist PersistCorrect.

(** ** The loop *)

(** A child that can be stored once it has an address. *)
Definition child_ok (alg : NodeHashAlgorithm) (cs : cells) (x : SharedChild) : Prop :=
  match x with
  | SNode _ => False
  | SAddress a h => LinearAddress_wf a /\ hash_wf alg h
  | SCell c h => hash_wf alg h /\ is_Some (cs !! c) /\ forall a, cs !! c = Some (CPersisted a) -> LinearAddress_wf a
  end.

Definition node_ok (alg : NodeHashAlgorithm) (cs : cells) (n : SharedNode) : Prop :=
  match n with
  | SLeaf _ => True
  | SBranch _ _ ch =>
      Children_wf ch /\ (0 < length (Children_iter_present ch))%nat /\ forall p, p ∈ Children_iter_present ch -> child_ok alg cs p.2
  end.

(** What persisting starts from: a tree of cells in memory without sharing whose nodes can be stored. *)
Record persistable (alg : NodeHashAlgorithm) (cs : cells) (t : ctree) : Prop := mkPersistable {
  pt_tree : ctree_ok cs t;
  pt_nodup : NoDup (flat t).*1;
  pt_nodes : forall p, p ∈ flat t -> node_ok alg cs p.2;
}.

Section Order.
Variables (alg : NodeHashAlgorithm) (cs0 : cells) (t : ctree).
Hypothesis Hpt : persistable alg cs0 t.

Lemma order_elem p : p ∈ write_order t <-> p ∈ flat t.
Proof. unfold write_order. by rewrite leaves_branches_perm. Qed.

Lemma order_nodup : NoDup (write_order t).*1.
Proof. unfold write_order. rewrite leaves_branches_perm. apply Hpt. Qed.

Lemma order_in_memory c n : (c, n) ∈ write_order t -> cell_node cs0 c = Some n.
Proof.
  intros (pre & post & Ho)%list_elem_of_split.
  by destruct (children_first cs0 t pre c n post (pt_tree _ _ _ Hpt) Ho).
Qed.

(** A node refers to cells that come before it, or that are on disk already. *)
Lemma order_refers pre c n post x :
  write_order t = pre ++ (c, n) :: post -> refers n x -> (x ∈ pre.*1) \/ ((x ∉ (write_order t).*1) /\ exists a, cs0 !! x = Some (CPersisted a)).
Proof.
  intros Ho Hx. destruct (children_first cs0 t pre c n post (pt_tree _ _ _ Hpt) Ho) as [_ Hsub].
  assert (Hn : node_ok alg cs0 n) by (apply (pt_nodes _ _ _ Hpt (c, n)), order_elem; rewrite Ho; apply elem_of_app; right; left).
  destruct n as [l|p v ch]; [done|]. destruct Hn as (_ & _ & Hch). destruct Hx as (i & h & Hin).
  destruct (Hch _ Hin) as (_ & [st Hst] & _). destruct (cell_node cs0 x) as [m|] eqn:Hm.
  - left. apply Hsub. cbn [unpersisted_children]. apply list_elem_of_omap. exists (i, SCell x h). split; [done|].
    cbn. by rewrite cell_unpersisted_node, Hm.
  - right. split; [|unfold cell_node in Hm; rewrite Hst in Hm; destruct st; [done..|by eexists]].
    intros ([c' n'] & -> & Hp)%list_elem_of_fmap. apply order_in_memory in Hp. cbn [fst] in Hm. congruence.
Qed.

Lemma order_refers_done pre c n mid post x :
  write_order t = pre ++ (c, n) :: mid ++ post -> refers n x -> x ∉ post.*1.
Proof.
  intros Ho Hx Hp. pose proof order_nodup as Hnd. destruct (order_refers pre c n (mid ++ post) x Ho Hx) as [Hin|[Hout _]].
  - rewrite Ho, !fmap_app, fmap_cons, fmap_app in Hnd. apply NoDup_app in Hnd as (_ & Hd & _). apply (Hd x Hin).
    right. apply elem_of_app. by right.
  - apply Hout. rewrite Ho, !fmap_app, fmap_cons, fmap_app, elem_of_app. right. right. apply elem_of_app. by right.
Qed.

End Order.

(** ** Progress *)

(** A cell with its node, and the area it was given. *)
Abbreviation entry := (cell * SharedNode * area)%type.

Section Loop.
Context `{VarIntLaws} {St : Type} `{WritableStorageLaws St} `{Digests}.
Variable alg : NodeHashAlgorithm.
Variable read_node : LinearAddress -> result failure SharedNode.
(** The revision, and the header and the bytes at the start. *)
Variables (cs0 : cells) (t : ctree) (h0 hd0 : NodeStoreHeader) (live : list area) (data0 : bytes).
Hypothesis Hpt : persistable alg cs0 t.
Hypothesis Hroom : 0 <= h_size h0 /\ h_size h0 + Z.of_nat (length (flat t)) * MAX_AREA_SIZE <= U64_MAX.

Record progress (cs : cells) (al : NodeAllocator St) (free fd : free_map) (written batch : list entry)
  (objs : list allocated_object) (todo : list (cell * SharedNode)) : Prop := mkProgress {
  pg_order : write_order t = (written ++ batch).*1 ++ todo;
  pg_todo : Forall (fun p => cell_node cs p.1 = Some p.2) todo;
  pg_frame c : c ∉ (write_order t).*1 -> cs !! c = cs0 !! c;
  pg_alloc : alloc_inv al free (batch.*2 ++ written.*2 ++ live);
  pg_disk : on_disk hd0 live data0 (store_bytes (al_storage al)) fd;
  pg_sub : free_areas free ⊆ free_areas fd;
  pg_written : Forall (fun e : entry => cell_as_linear_address cs e.1.1 = Some e.2.1 /\ ready alg cs e.1.2 /\
    stored_node alg (store_bytes (al_storage al)) e.2 (disk_form cs e.1.2)) written;
  pg_batch : Forall2 (fun (e : entry) o => cs !! e.1.1 = Some (CAllocated e.2.1 e.1.2) /\ ready alg cs e.1.2 /\ ao_cell o = e.1.1 /\
    ao_addr o = e.2.1 /\ encodes alg (ao_slice o) e.2.2 (disk_form cs e.1.2)) batch objs;
  pg_header : exists fl size, al_header al = set_size size (set_free_lists fl h0);
  pg_size : h_size (al_header al) <= h_size h0 + Z.of_nat (length written + length batch) * MAX_AREA_SIZE;
}.

(** A change that leaves the addresses of the nodes done and of the cells outside of the revision alone. *)
Definition agree (cs cs' : cells) (todo : list (cell * SharedNode)) : Prop :=
  forall x, x ∉ todo.*1 -> cell_as_linear_address cs' x = cell_as_linear_address cs x.

Lemma done_ext (es : list entry) todo cs cs' e :
  write_order t = es.*1 ++ todo -> e ∈ es -> agree cs cs' todo -> ready alg cs e.1.2 ->
  disk_form cs' e.1.2 = disk_form cs e.1.2 /\ ready alg cs' e.1.2.
Proof.
  intros Ho He Hag Hr. apply disk_form_ext; [done|]. intros x Hx. apply Hag.
  apply list_elem_of_split in He as (l1 & l2 & ->). destruct e as [[c n] a]. cbn [fst snd] in *.
  apply (order_refers_done alg cs0 t Hpt l1.*1 c n l2.*1 todo x); [|done]. rewrite Ho, fmap_app, fmap_cons, <- app_assoc. done.
Qed.

(** The address of a node done: that of its area. *)
Lemma done_address cs al free fd written batch objs todo e :
  progress cs al free fd written batch objs todo -> e ∈ written ++ batch ->
  cell_as_linear_address cs e.1.1 = Some e.2.1 /\ LinearAddress_wf e.2.1.
Proof.
  intros Hp He. split.
  - apply elem_of_app in He as [He|He].
    + pose proof (proj1 (Forall_forall _ _) (pg_written _ _ _ _ _ _ _ _ Hp) e He) as (Ha & _). done.
    + apply list_elem_of_lookup in He as [k Hk]. destruct (Forall2_lookup_l _ _ _ _ _ (pg_batch _ _ _ _ _ _ _ _ Hp) Hk) as (o & _ & Hc & _).
      unfold cell_as_linear_address. by rewrite Hc.
  - destruct (inv_area_any al free (batch.*2 ++ written.*2 ++ live) e.2 (pg_alloc _ _ _ _ _ _ _ _ Hp)) as (Hi & _ & Hlo & Hhi).
    { right. rewrite !elem_of_app. apply elem_of_app in He as [He|He]; [right; left | left]; by apply list_elem_of_fmap_2. }
    pose proof (AreaIndex_size_range _ Hi) as Hr. change MIN_AREA_SIZE with 16 in Hr.
    destruct (inv_size _ _ _ (pg_alloc _ _ _ _ _ _ _ _ Hp)) as [_ Hs]. unfold area_end, HEADER_SIZE, LinearAddress_wf in *. ulia.
Qed.

(** The next node can be stored: its children have addresses. *)
Lemma next_ready cs al free fd written batch objs c n todo :
  progress cs al free fd written batch objs ((c, n) :: todo) -> ready alg cs n.
Proof.
  intros Hp. pose proof (pg_order _ _ _ _ _ _ _ _ Hp) as Ho.
  assert (Hn : node_ok alg cs0 n) by (apply (pt_nodes _ _ _ Hpt (c, n)), order_elem; rewrite Ho; apply elem_of_app; right; left).
  destruct n as [l|p v ch]; [done|]. destruct Hn as (Hwf & Hlen & Hch). split_and!; [done..|].
  intros [i x] Hx. specialize (Hch _ Hx). cbn [snd] in *. destruct x as [m|a h|x h]; [done | by exists a, h|].
  destruct Hch as (Hh & _ & Hpers). cbn [SharedChild_persist_info].
  destruct (order_refers alg cs0 t Hpt (written ++ batch).*1 c (SBranch p v ch) todo x) as [Hin|[Hout [a Ha]]]; [done | by exists i, h | |].
  - apply list_elem_of_fmap in Hin as ([y m] & -> & (e & He & Hin)%list_elem_of_fmap). 
    destruct (done_address _ _ _ _ _ _ _ _ e Hp Hin) as [Ha Hw]. exists e.2.1, h. rewrite <- He in Ha. cbn [fst] in *. by rewrite Ha.
  - exists a, h. unfold cell_as_linear_address. rewrite (pg_frame _ _ _ _ _ _ _ _ Hp x Hout), Ha. cbn. split_and!; [done | by apply Hpers | done].
Qed.

(** ** One node *)

(** Allocation takes areas off the free lists, and changes the sizes and the lists of the header only. *)
Lemma allocate_node_progress (al : NodeAllocator St) free L slice i :
  alloc_inv al free L -> from_size (Z.of_nat (length slice)) = Ok i -> h_size (al_header al) + MAX_AREA_SIZE <= U64_MAX ->
  exists a al' free', allocate_node al slice = (Ok (a, i), al') /\ alloc_inv al' free' ((a, i) :: L) /\
    store_bytes (al_storage al') = store_bytes (al_storage al) /\ free_areas free' ⊆ free_areas free /\
    (exists fl size, al_header al' = set_size size (set_free_lists fl (al_header al))) /\
    h_size (al_header al') <= h_size (al_header al) + MAX_AREA_SIZE.
Proof.
  intros Hinv Hsz Hr. destruct (from_size_Ok _ _ Hsz) as (Hi & _). pose proof (AreaIndex_size_range i Hi) as Hmax.
  unfold allocate_node. rewrite Hsz. pose proof (allocate_from_freed_ok al free L i Hinv Hi) as Hfr. destruct (free i) as [|b l] eqn:Hf.
  - rewrite Hfr. destruct (allocate_from_end_ok al free L i Hinv Hi) as (al' & He & Hinv' & Hb); [lia|].
    rewrite He. exists (h_size (al_header al)), al', free. split_and!; [done | done | done | done | |].
    all: unfold allocate_from_end in He; destruct (LinearAddress_new _); [|done]; injection He as _ <-; cbn [al_header].
    + by eexists (h_free_lists (al_header al)), _.
    + cbn [h_size set_size]. unfold saturating_add_u64. lia.
  - destruct Hfr as (al' & -> & Hinv' & Hb & next & _ & Hh). exists b, al', (upd free i l).
    split_and!; [done | done | done | | |].
    + intros [a j]. rewrite !elem_of_free_areas. unfold upd. case_decide as Hj; [|done]. subst j. rewrite Hf. intros [? ?]. split; [done | by right].
    + rewrite Hh. unfold with_free_list. by eexists _, (h_size (al_header al)).
    + rewrite Hh. change (h_size (with_free_list i next (al_header al))) with (h_size (al_header al)). change MAX_AREA_SIZE with 16777216 in *. lia.
Qed.

Lemma set_header_twice fl size fl' size' : set_size size' (set_free_lists fl' (set_size size (set_free_lists fl h0))) = set_size size' (set_free_lists fl' h0).
Proof. done. Qed.

(** A node is serialised and given an area, and joins the batch; or it is too large. *)
Lemma node_step cs al free fd written batch objs c n todo :
  progress cs al free fd written batch objs ((c, n) :: todo) ->
  match serialize_node_to_bump alg (view_node cs n) al with
  | (Err e, al') => e = IoFailure OutOfMemory /\ al' = al
  | (Ok (slice, a, _), al') => exists i cs' free', cell_allocate_at cs c a = Some cs' /\
      progress cs' al' free' fd written (batch ++ [((c, n), (a, i))]) (objs ++ [mkObject slice a c]) todo /\
      (forall p, p ∈ todo -> cs' !! p.1 = cs !! p.1) /\ (forall x, cell_node cs x = None -> cell_node cs' x = None)
  end.
Proof.
  intros Hp. pose proof (next_ready _ _ _ _ _ _ _ _ _ _ Hp) as Hr. unfold serialize_node_to_bump.
  destruct (as_bytes_ready alg cs n Hr) as [->|(i & slice & -> & Henc & Hsz)]; [done|].
  pose proof Hp as [Ho Htodo Hfr Hal Hd Hsub Hw Hb (fl & size & Hh) Hs].
  assert (Hlen : length (flat t) = (length written + length batch + S (length todo))%nat).
  { rewrite <- (Permutation_length (leaves_branches_perm (flat t))). fold (write_order t). rewrite Ho, length_app, length_fmap, length_app. done. }
  destruct (allocate_node_progress al free _ slice i Hal Hsz) as (a & al' & free' & -> & Hal' & Hbytes & Hsub' & (fl' & size' & Hh') & Hs').
  { change MAX_AREA_SIZE with 16777216 in *. lia. }
  apply Forall_cons in Htodo as [Hc Htodo]. cbn [fst snd] in Hc.
  exists i, (<[c := CAllocated a n]> cs), free'. split; [by apply cell_allocate_at_Some|].
  pose proof (order_nodup alg cs0 t Hpt) as Hnd. rewrite Ho, fmap_app, fmap_cons in Hnd. apply NoDup_app in Hnd as (_ & Hdis & Hnd).
  apply NoDup_cons in Hnd as [Hct _]. cbn [fst] in Hct.
  assert (Hag : agree cs (<[c := CAllocated a n]> cs) ((c, n) :: todo)).
  { intros x Hx. unfold cell_as_linear_address. rewrite lookup_insert_ne; [done|]. intros <-. apply Hx. left. }
  assert (Hne : forall e : entry, e ∈ written ++ batch -> e.1.1 <> c).
  { intros e He Hce. apply (Hdis e.1.1); [by apply list_elem_of_fmap_2, list_elem_of_fmap_2|]. rewrite Hce. left. }
  assert (Hself : disk_form (<[c := CAllocated a n]> cs) n = disk_form cs n /\ ready alg (<[c := CAllocated a n]> cs) n).
  { apply disk_form_ext; [done|]. intros x Hx. unfold cell_as_linear_address. rewrite lookup_insert_ne; [done|]. intros <-.
    apply (order_refers_done alg cs0 t Hpt (written ++ batch).*1 c n [] todo c) in Hx as Hx'; [|by rewrite Ho].
    destruct (order_refers alg cs0 t Hpt (written ++ batch).*1 c n todo c Ho Hx) as [Hin|[Hout _]].
    - apply (Hdis c Hin). left.
    - apply Hout. rewrite Ho, fmap_app, elem_of_app. right. left. }
  split_and!.
  - split.
    + rewrite Ho, !fmap_app, <- !app_assoc. done.
    + rewrite Forall_forall in Htodo |- *. intros p Hpt'. unfold cell_node. rewrite lookup_insert_ne; [by apply Htodo|].
      intros ->. apply Hct. by apply list_elem_of_fmap_2.
    + intros x Hx. rewrite lookup_insert_ne; [by apply Hfr|]. intros <-. apply Hx. rewrite Ho, fmap_app, elem_of_app. right. left.
    + eapply alloc_inv_perm; [|exact Hal']. rewrite fmap_app, <- app_assoc. apply Permutation_middle.
    + by rewrite Hbytes.
    + by etransitivity.
    + rewrite Hbytes. rewrite Forall_forall in Hw |- *. intros e He. destruct (Hw e He) as (Ha & Hre & Hst).
      assert (Hine : e ∈ written ++ batch) by (apply elem_of_app; by left).
      destruct (done_ext _ _ _ _ e Ho Hine Hag Hre) as [-> Hre']. split_and!; [|done|done].
      rewrite <- Ha. unfold cell_as_linear_address. by rewrite lookup_insert_ne by (intros Hq; by apply (Hne e Hine)).
    + apply Forall2_app.
      * eapply Forall2_impl_elem; [exact Hb|]. intros e o He (Hce & Hre & ? & ? & Henc').
        assert (Hine : e ∈ written ++ batch) by (apply elem_of_app; by right).
        destruct (done_ext _ _ _ _ e Ho Hine Hag Hre) as [-> Hre']. split_and!; [|done..].
        rewrite lookup_insert_ne; [done|]. intros Hq. by apply (Hne e Hine).
      * repeat constructor; cbn [fst snd ao_cell ao_addr ao_slice]; [by rewrite lookup_insert_eq | apply Hself | by rewrite (proj1 Hself)].
    + rewrite Hh', Hh, set_header_twice. by eexists _, _.
    + rewrite length_app. cbn [length]. change MAX_AREA_SIZE with 16777216 in *. lia.
  - intros p Hin. rewrite lookup_insert_ne; [done|]. intros ->. apply Hct. by apply list_elem_of_fmap_2.
  - intros x Hx. unfold cell_node. rewrite lookup_insert_ne; [exact Hx|]. intros <-. congruence.
Qed.

(** ** The end of a batch *)

(** Caching changes only the cells of the batch, from allocated to persisted at the same address. *)
Lemma update_cells_lookup objs nodes cs cs1 c :
  Forall2 (fun o m => m = object_handle cs1 o \/ m = Persisted (ao_addr o)) objs nodes ->
  (forall o, o ∈ objs -> exists n, cs1 !! ao_cell o = Some (CAllocated (ao_addr o) n)) ->
  update_cells cs objs nodes !! c = cs !! c \/
  exists o, o ∈ objs /\ ao_cell o = c /\ update_cells cs objs nodes !! c = Some (CPersisted (ao_addr o)).
Proof.
  intros Hf. revert cs. induction Hf as [|o m objs nodes Hm Hf IH]; intros cs Hall; [by left|].
  assert (Hall' : forall o, o ∈ objs -> exists n, cs1 !! ao_cell o = Some (CAllocated (ao_addr o) n)) by (intros o' Ho'; apply Hall; by right).
  destruct (Hall o) as [n Hn]; [left|]. unfold object_handle in Hm. rewrite Hn in Hm.
  destruct Hm as [->| ->]; cbn [update_cells].
  - destruct (IH cs Hall') as [He|(o' & Ho' & Hc & He)]; [by left|]. right. exists o'. split_and!; [by right | done..].
  - unfold cell_persist_at. destruct (IH (<[ao_cell o := CPersisted (ao_addr o)]> cs) Hall') as [He|(o' & Ho' & Hc & He)].
    + rewrite He. destruct (decide (ao_cell o = c)) as [<-|Hne]; [|left; by rewrite lookup_insert_ne].
      right. exists o. split_and!; [left | done | by rewrite lookup_insert_eq].
    + right. exists o'. split_and!; [by right | done..].
Qed.

(** What a batch leaves behind when it is written: its nodes are on disk, and the disk offers the areas the allocator does. *)
Lemma batch_cells cs al free fd written batch objs todo nodes :
  progress cs al free fd written batch objs todo ->
  Forall2 (fun m m' => m' = m \/ exists a, as_linear_address m = Some a /\ m' = persist_at m a) (map (object_handle cs) objs) nodes ->
  let cs' := update_cells cs objs nodes in
  (forall x, cell_as_linear_address cs' x = cell_as_linear_address cs x) /\
  (forall x, x ∉ (batch.*1).*1 -> cs' !! x = cs !! x) /\ (forall x, cell_node cs x = None -> cell_node cs' x = None).
Proof.
  intros Hp Hnodes cs'. pose proof (pg_batch _ _ _ _ _ _ _ _ Hp) as Hb.
  assert (Hobj : forall o, o ∈ objs -> exists e, e ∈ batch /\ ao_cell o = e.1.1 /\ cs !! ao_cell o = Some (CAllocated (ao_addr o) e.1.2)).
  { intros o Ho. apply list_elem_of_lookup in Ho as [k Hk]. destruct (Forall2_lookup_r _ _ _ _ _ Hb Hk) as (e & He & Hc & _ & Hce & Ha & _).
    exists e. rewrite Hce, Ha. split_and!; [by eapply list_elem_of_lookup_2 | done..]. }
  assert (Hf : Forall2 (fun o m => m = object_handle cs o \/ m = Persisted (ao_addr o)) objs nodes).
  { rewrite Forall2_fmap_l in Hnodes. eapply Forall2_impl_elem; [exact Hnodes|]. intros o m Ho [->|(a & Ha & ->)]; [by left|]. right.
    destruct (Hobj o Ho) as (e & _ & _ & Hc). unfold object_handle in Ha. rewrite Hc in Ha. cbn in Ha. by simplify_eq. }
  assert (Hcase : forall x, cs' !! x = cs !! x \/ exists o, o ∈ objs /\ ao_cell o = x /\ cs' !! x = Some (CPersisted (ao_addr o))).
  { intros x. apply (update_cells_lookup objs nodes cs cs x Hf). intros o Ho. destruct (Hobj o Ho) as (e & _ & _ & Hc). by eexists. }
  split_and!.
  - intros x. unfold cell_as_linear_address. destruct (Hcase x) as [->|(o & Ho & <- & ->)]; [done|].
    destruct (Hobj o Ho) as (e & _ & _ & ->). done.
  - intros x Hx. destruct (Hcase x) as [?|(o & Ho & <- & _)]; [done|]. destruct (Hobj o Ho) as (e & He & Hc & _).
    destruct Hx. rewrite Hc. by apply list_elem_of_fmap_2, list_elem_of_fmap_2.
  - intros x. unfold cell_node. destruct (Hcase x) as [->|(o & Ho & <- & ->)]; done.
Qed.

(** Writing the free lists: from then on the disk offers the areas that the allocator does. *)
Lemma flush_lists_ok cs al free fd written batch objs todo m s1 :
  progress cs al free fd written batch objs todo ->
  write (al_storage al) free_lists_offset (free_lists_bytes (h_free_lists (al_header al))) = Ok (m, s1) ->
  progress cs (mkAllocator s1 (al_header al)) free free written batch objs todo.
Proof.
  intros [Ho Htodo Hfr Hal Hd Hsub Hw Hb Hh Hs] Hw1. destruct (write_law _ _ _ _ _ Hw1) as (_ & Hb1 & Hf1).
  assert (Hoff : 0 <= free_lists_offset) by (vm_compute; discriminate). pose proof (free_lists_fit al free _ Hal) as Hfit.
  assert (Hhdr : forall x, x ∈ free_areas free \/ x ∈ batch.*2 ++ written.*2 ++ live ->
    0 <= x.1 /\ outside free_lists_offset (free_lists_bytes (h_free_lists (al_header al))) x).
  { intros x Hx. apply (area_not_in_header x (h_size (al_header al))); [by eapply inv_area_any | done..]. }
  split; cbn [al_storage al_header]; try done.
  - apply (alloc_inv_overwrite al free _ free_lists_offset (free_lists_bytes (h_free_lists (al_header al)))); [done | done | | done | done].
    intros x Hx. apply Hhdr. by left.
  - rewrite Hb1. apply (on_disk_flush hd0 live data0 fd al free (batch.*2 ++ written.*2)); [done | by rewrite <- app_assoc | done].
  - rewrite Forall_forall in Hw |- *. intros e He. destruct (Hw e He) as (Ha & Hr & Hst). split_and!; [done..|]. rewrite Hb1.
    destruct (Hhdr e.2) as [Hx0 Hxo]; [right; rewrite !elem_of_app; right; left; by apply list_elem_of_fmap_2|]. by apply stored_node_outside.
Qed.

(** The nodes of the batch, as the lemma on batches takes them. *)
Definition entry_form (cs : cells) (e : entry) : area * Node := (e.2, disk_form cs e.1.2).

Lemma entry_areas cs (l : list entry) : (entry_form cs <$> l).*1 = l.*2.
Proof. by rewrite <- list_fmap_compose. Qed.

(** Writing the nodes. *)
Lemma write_nodes_ok cs al free written batch objs todo :
  progress cs al free free written batch objs todo ->
  match write_batch write (al_storage al) (map (fun o => (ao_addr o, ao_slice o)) objs) 0 with
  | (Ok _, s') => alloc_inv (mkAllocator s' (al_header al)) free (batch.*2 ++ written.*2 ++ live) /\
      on_disk hd0 live data0 (store_bytes s') free /\
      Forall (fun e : entry => stored_node alg (store_bytes s') e.2 (disk_form cs e.1.2)) (batch ++ written)
  | (Err e, s') => write_fails (St := St) e /\ on_disk hd0 live data0 (store_bytes s') free
  end.
Proof.
  intros [Ho _ _ Hal Hd _ Hw Hb _ _].
  pose proof (write_objects_ok alg hd0 live data0 (al_header al) free (entry_form cs <$> batch) objs (entry_form cs <$> written) (al_storage al) 0) as Hwo.
  rewrite !entry_areas, length_fmap in Hwo.
  assert (Hlen : (length batch <= length (flat t))%nat).
  { rewrite <- (Permutation_length (leaves_branches_perm (flat t))). fold (write_order t). rewrite Ho, length_app, length_fmap, length_app. lia. }
  assert (Hal' : alloc_inv (mkAllocator (al_storage al) (al_header al)) free (batch.*2 ++ written.*2 ++ live)) by (by destruct al).
  assert (Hobjs : Forall2 (fun (e : area * Node) o => ao_addr o = e.1.1 /\ encodes alg (ao_slice o) e.1.2 e.2) (entry_form cs <$> batch) objs).
  { apply Forall2_fmap_l. eapply Forall2_impl; [exact Hb|]. intros e o (_ & _ & _ & Ha & He). done. }
  assert (HK : Forall (fun e => stored_node alg (store_bytes (al_storage al)) e.1 e.2) (entry_form cs <$> written)).
  { apply Forall_fmap. eapply Forall_impl; [exact Hw|]. by intros e (_ & _ & Hst). }
  specialize (Hwo Hobjs Hal' Hd HK ltac:(lia)). change MAX_AREA_SIZE with 16777216 in *. specialize (Hwo ltac:(lia)).
  destruct (write_batch write _ _ 0) as [[u|e] s']; [|done]. destruct Hwo as (? & ? & HF). split_and!; [done..|].
  rewrite <- fmap_app, Forall_fmap in HF. exact HF.
Qed.

Lemma flush_ok cs al free fd written batch objs todo :
  progress cs al free fd written batch objs todo ->
  match flush_batch cs al objs with
  | (Ok _, cs', al') => progress cs' al' free free (written ++ batch) [] [] todo /\
      (forall p, p ∈ todo -> cs' !! p.1 = cs !! p.1) /\ (forall x, cell_node cs x = None -> cell_node cs' x = None)
  | (Err e, _, al') => write_fails (St := St) e /\ exists fd', on_disk hd0 live data0 (store_bytes (al_storage al')) fd'
  end.
Proof.
  intros Hp0. unfold flush_batch, flush_freelist.
  destruct (write (al_storage al) free_lists_offset (free_lists_bytes (h_free_lists (al_header al)))) as [[m s1]|e] eqn:Hw1.
  2: { split; [by eexists _, _, _ | exists fd; apply Hp0]. }
  pose proof (flush_lists_ok _ _ _ _ _ _ _ _ _ _ Hp0 Hw1) as Hp. cbn [al_storage al_header]. unfold NodeStore_write_batch.
  pose proof (write_nodes_ok _ _ _ _ _ _ _ Hp) as Hwn. cbn [al_storage al_header] in Hwn.
  destruct (write_batch write s1 _ 0) as [[u|e] s2]; [|destruct Hwn; split; [done | by exists free]].
  destruct Hwn as (Hal & Hd & Hst). pose proof Hp as [Ho Htodo Hfr _ _ _ Hw Hb Hh Hs].
  destruct (write_cached_nodes_law s2 (map (object_handle cs) objs)) as (nodes & s3 & -> & Hb3 & Hf3 & Hn3).
  { apply Forall_fmap, Forall_forall. intros o Hin. apply list_elem_of_lookup in Hin as [k Hk].
    destruct (Forall2_lookup_r _ _ _ _ _ Hb Hk) as (e & _ & Hc & _ & Hce & _). cbn. unfold object_handle. rewrite Hce, Hc. by eexists. }
  destruct (batch_cells _ _ _ _ _ _ _ _ _ Hp Hn3) as (Hag & Hsame & Hnone). set (cs' := update_cells cs objs nodes) in *.
  assert (Htd : forall p, p ∈ todo -> cs' !! p.1 = cs !! p.1).
  { intros p Hin. apply Hsame. pose proof (order_nodup alg cs0 t Hpt) as Hnd. rewrite Ho, !fmap_app in Hnd. apply NoDup_app in Hnd as (_ & Hdis & _).
    intros Hx. apply (Hdis p.1); [apply elem_of_app; by right | by apply list_elem_of_fmap_2]. }
  assert (Hext : forall e : entry, e ∈ written ++ batch -> ready alg cs e.1.2 -> disk_form cs' e.1.2 = disk_form cs e.1.2 /\ ready alg cs' e.1.2).
  { intros e He Hr. by apply (done_ext _ _ _ _ e Ho He (fun x _ => Hag x)). }
  split_and!; [|done|done]. split; cbn [al_storage al_header]; rewrite ?app_nil_r; try done.
  - rewrite Forall_forall in Htodo |- *. intros p Hin. unfold cell_node. rewrite Htd by done. by apply Htodo.
  - intros x Hx. rewrite Hsame; [by apply Hfr|]. intros Hin. apply Hx. rewrite Ho, !fmap_app, !elem_of_app. left. by right.
  - destruct Hal as [? ? Ht Hch Hca]. cbn [al_storage al_header fmap list_fmap app] in *. split; cbn [al_storage al_header]; try done.
    + by rewrite fmap_app, <- app_assoc, (app_assoc written.*2), (Permutation_app_comm written.*2), <- app_assoc.
    + by rewrite Hb3.
    + intros a nx. rewrite Hf3, Hb3. apply Hca.
  - by rewrite Hb3.
  - rewrite Hb3. apply Forall_forall. intros e He. rewrite Forall_forall in Hst.
    assert (Hr : ready alg cs e.1.2).
    { apply elem_of_app in He as [He|He]; [by apply (proj1 (Forall_forall _ _) Hw)|].
      apply list_elem_of_lookup in He as [k Hk]. by destruct (Forall2_lookup_l _ _ _ _ _ Hb Hk) as (o & _ & _ & Hr & _). }
    destruct (Hext e He Hr) as [-> Hr']. destruct (done_address _ _ _ _ _ _ _ _ e Hp He) as [Ha _]. split_and!; [by rewrite Hag | done|].
    apply Hst. rewrite elem_of_app in He |- *. tauto.
  - rewrite length_app. cbn [length al_header] in *. lia.
Qed.

(** ** The whole loop *)

(** Every node is written, or a node is too large for an area or a write fails, and the disk still holds the old revision. *)
Definition loop_outcome (r : result failure unit * cells * NodeAllocator St) : Prop :=
  match r with
  | (Ok _, cs', al') => exists free' fd' written', progress cs' al' free' fd' written' [] [] []
  | (Err e, _, al') => (e = IoFailure OutOfMemory \/ write_fails (St := St) e) /\
      exists fd', on_disk hd0 live data0 (store_bytes (al_storage al')) fd'
  end.

Lemma loop_ok n fuel limit it iters stack cs al free fd written batch objs len todo :
  progress cs al free fd written batch objs todo ->
  iterating cs it iters stack -> expected iters stack = todo -> (iter_measure iters < fuel)%nat -> (length todo < n)%nat ->
  loop_outcome (process_loop alg read_node n fuel limit it objs len cs al).
Proof.
  revert it iters stack cs al free fd written batch objs len todo.
  induction n as [|n IH]; intros it iters stack cs al free fd written batch objs len todo Hp Hit Hex Hf Hn; [lia|].
  cbn [process_loop]. destruct (next_ok read_node fuel cs it iters stack Hit Hf) as (it' & iters' & stack' & -> & Hex' & Hit' & Hms).
  rewrite Hex in *. destruct todo as [|[c m] todo]; cbn [head tail fmap option_fmap option_map fst] in *.
  - pose proof (flush_ok _ _ _ _ _ _ _ _ Hp) as Hfl. destruct objs as [|o objs].
    + exists free, fd, written. pose proof (pg_batch _ _ _ _ _ _ _ _ Hp) as Hb. inversion Hb; by subst.
    + destruct (flush_batch cs al (o :: objs)) as [[[u|e] cs'] al'].
      * destruct Hfl as [Hp' _]. by exists free, free, (written ++ batch).
      * destruct Hfl as [? ?]. split; [by right | done].
  - pose proof (pg_todo _ _ _ _ _ _ _ _ Hp) as Htd. apply Forall_cons in Htd as [Hc _]. cbn [fst snd] in Hc.
    rewrite (shared_node_of read_node cs c m Hc). pose proof (node_step _ _ _ _ _ _ _ _ _ _ Hp) as Hst.
    destruct (serialize_node_to_bump alg (view_node cs m) al) as [[[[slice a] sz]|e] al'].
    2: { destruct Hst as [-> ->]. split; [by left | exists fd; apply Hp]. }
    destruct Hst as (i & cs' & free' & -> & Hp' & Hsame & Hnone).
    assert (Hit2 : iterating cs' it' iters' stack') by (apply (iterating_change cs); [done | rewrite Hex'; done | done]).
    destruct (saturating_sub_u64 limit sz <? saturating_add_u64 len sz).
    + pose proof (flush_ok _ _ _ _ _ _ _ _ Hp') as Hfl.
      destruct (flush_batch cs' al' (objs ++ [mkObject slice a c])) as [[[u|e] cs2] al2].
      * destruct Hfl as (Hp2 & Hsame2 & Hnone2). eapply IH; [exact Hp2 | | exact Hex' | lia | cbn in Hn; lia].
        apply (iterating_change cs'); [done | rewrite Hex'; done | done].
      * destruct Hfl as [? ?]. split; [by right | done].
    + eapply IH; [exact Hp' | exact Hit2 | exact Hex' | lia | cbn in Hn; lia].
Qed.

(** The start: nothing is done yet. *)
Lemma progress_start s free fd :
  alloc_inv (mkAllocator s h0) free live -> on_disk hd0 live data0 (store_bytes s) fd -> free_areas free ⊆ free_areas fd ->
  progress cs0 (mkAllocator s h0) free fd [] [] [] (write_order t).
Proof.
  intros Hal Hd Hsub. split; cbn; try done.
  - apply Forall_forall. intros [c n] Hin. by apply (order_in_memory alg cs0 t Hpt).
  - exists (h_free_lists h0), (h_size h0). by destruct h0.
  - lia.
Qed.

Lemma process_ok n fuel limit s free fd hash :
  alloc_inv (mkAllocator s h0) free live -> on_disk hd0 live data0 (store_bytes s) fd -> free_areas free ⊆ free_areas fd ->
  (length (flat t) < n)%nat -> (2 * length (flat t) + 1 < fuel)%nat ->
  loop_outcome (process_unpersisted_nodes alg read_node n fuel limit (Some (SCell (ct_cell t) hash)) cs0 (mkAllocator s h0)).
Proof.
  intros Hal Hd Hsub Hn Hf. unfold process_unpersisted_nodes. cbn [as_cell].
  destruct (new_ok read_node cs0 t (pt_tree _ _ _ Hpt)) as (it & iters & stack & -> & Hit & Hex & Hms).
  eapply loop_ok; [by apply (progress_start s free fd) | exact Hit | exact Hex | lia |].
  unfold write_order. by rewrite (Permutation_length (leaves_branches_perm (flat t))).
Qed.

End Loop.
