(* ===== verification/PersistDurable.v ===== *)
(** * A persisted revision is durable

    A revision before and after [persist]: the trie that its cells and the disk hold
    together before, and the trie that the disk alone holds after.  When [persist]
    returns an error the disk still holds the revision that it held at first. *)

From S2P Require Import Prelude Primitives NodePath Node Codec NodeCodec Trie NodeStore Linear Header Alloc AllocCorrect Reap.
From S2P Require Import MerkleSpec HashSpec Rlp Hashing Cells PersistIter Persist PersistCorrect PersistLoop.

(** ** The trie of a revision *)

(** A trie with the hashes that the nodes keep of their children. *)
#[warnings="-register-all"]
Inductive htree : Type :=
| HT (pp : Path) (v : option Value) (kids : list (option (HashType * htree))).

Section Trees.
Context `{VarInt}.
Variable alg : NodeHashAlgorithm.
Variables (data : bytes) (live : list area).

(** [durable a T]: the bytes hold the trie [T] below the address [a], in areas that are in use. *)
Inductive durable : LinearAddress -> htree -> Prop :=
| durable_area x n T : x ∈ live -> stored_node alg data x n -> dnode n T -> durable x.1 T
with dnode : Node -> htree -> Prop :=
| dnode_leaf l : dnode (Leaf l) (HT (leaf_partial_path l) (Some (leaf_value l)) Children_new)
| dnode_branch p v c ks :
    Children_wf c -> Children_wf ks -> (forall i, is_nibble i -> dslot (Children_get c i) (Children_get ks i)) ->
    dnode (Branch (mkBranch p v c)) (HT p v ks)
with dslot : option Child -> option (HashType * htree) -> Prop :=
| dslot_none : dslot None None
| dslot_some a h T : durable a T -> dslot (Some (AddressWithHash a h)) (Some (h, T)).

(** [hcell c T]: the cell holds the trie [T], part of which may be on disk. *)
Variable cs : cells.

Inductive hcell : cell -> htree -> Prop :=
| hcell_memory c n T : cell_node cs c = Some n -> hnode n T -> hcell c T
| hcell_disk c a T : cs !! c = Some (CPersisted a) -> durable a T -> hcell c T
with hnode : SharedNode -> htree -> Prop :=
| hnode_leaf l : hnode (SLeaf l) (HT (leaf_partial_path l) (Some (leaf_value l)) Children_new)
| hnode_branch p v c ks :
    Children_wf c -> Children_wf ks -> (forall i, is_nibble i -> hslot (Children_get c i) (Children_get ks i)) ->
    hnode (SBranch p v c) (HT p v ks)
with hslot : option SharedChild -> option (HashType * htree) -> Prop :=
| hslot_none : hslot None None
| hslot_address a h T : durable a T -> hslot (Some (SAddress a h)) (Some (h, T))
| hslot_cell c h T : hcell c T -> hslot (Some (SCell c h)) (Some (h, T)).

End Trees.

Scheme durable_mut := Induction for durable Sort Prop
  with dnode_mut := Induction for dnode Sort Prop
  with dslot_mut := Induction for dslot Sort Prop.
Combined Scheme durable_ind' from durable_mut, dnode_mut, dslot_mut.

Scheme hcell_mut := Induction for hcell Sort Prop
  with hnode_mut := Induction for hnode Sort Prop
  with hslot_mut := Induction for hslot Sort Prop.
Combined Scheme hcell_ind' from hcell_mut, hnode_mut, hslot_mut.

(** ** Moving to other bytes *)

Section Moving.
Context `{VarIntLaws}.
Variable alg : NodeHashAlgorithm.

Lemma stored_same live data data' x n :
  0 <= x.1 -> x ∈ live -> same_on live data data' -> stored_node alg data x n -> stored_node alg data' x n.
Proof.
  intros Hx Hin Hs (slice & rest & Hd & Henc). pose proof Henc as (body & Hsl & _ & Hlen & _).
  exists slice, (drop (length slice) (drop (Z.to_nat x.1) data')). split; [|done].
  rewrite <- (take_drop (length slice) (drop (Z.to_nat x.1) data')) at 1. f_equal. apply list_eq. intros k.
  destruct (decide (k < length slice)%nat) as [Hk|Hk].
  2: { rewrite lookup_take_ge by lia. symmetry. apply lookup_ge_None. lia. }
  rewrite lookup_take_lt, lookup_drop by done.
  assert (Hdk : data !! (Z.to_nat x.1 + k)%nat = slice !! k) by (rewrite <- lookup_drop, Hd; by apply lookup_app_l).
  rewrite <- Hdk. apply (Hs x Hin).
  - unfold area_end. lia.
  - apply lookup_lt_is_Some. rewrite Hdk. by apply lookup_lt_is_Some.
Qed.

Lemma durable_move live data data' live' :
  (forall x n, x ∈ live -> stored_node alg data x n -> stored_node alg data' x n) -> live ⊆ live' ->
  (forall a T, durable alg data live a T -> durable alg data' live' a T) /\
  (forall n T, dnode alg data live n T -> dnode alg data' live' n T) /\
  (forall o k, dslot alg data live o k -> dslot alg data' live' o k).
Proof.
  intros Hst Hsub. apply durable_ind'; try by econstructor; eauto.
  all: intros; econstructor; eauto.
Qed.

End Moving.

(** ** After the loop *)

Section Final.
Context `{VarIntLaws} {St : Type} `{WritableStorageLaws St} `{Digests}.
Variable alg : NodeHashAlgorithm.
Variables (cs0 : cells) (t : ctree) (h0 hd0 : NodeStoreHeader) (live : list area) (data0 : bytes).
Hypothesis Hpt : persistable alg cs0 t.

(** A cell of the revision, or one that is on disk already. *)
Definition known (c : cell) : Prop := c ∈ (write_order t).*1 \/ exists a, cs0 !! c = Some (CPersisted a).

Lemma known_refers c n x : (c, n) ∈ write_order t -> refers n x -> known x.
Proof.
  intros (pre & post & Ho)%list_elem_of_split Hx. destruct (order_refers alg cs0 t Hpt pre c n post x Ho Hx) as [Hin|[_ Ha]]; [|by right].
  left. rewrite Ho, fmap_app. apply elem_of_app. by left.
Qed.

Lemma disk_form_branch cs p v ch i :
  Children_get (branch_children (match disk_form cs (SBranch p v ch) with Branch b => b | Leaf l => BranchNode_from_leaf l end)) i =
  (fun x => stored_child (view_child cs x)) <$> Children_get ch i.
Proof.
  unfold disk_form, Children_get. cbn. rewrite <- list_fmap_compose, list_lookup_fmap. destruct (ch !! Z.to_nat i) as [[x|]|]; done.
Qed.

Lemma tree_durable cs' (al : NodeAllocator St) free fd written :
  progress alg cs0 t h0 hd0 live data0 cs' al free fd written [] [] [] ->
  let data := store_bytes (al_storage al) in let live' := written.*2 ++ live in
  (forall c T, hcell alg data0 live cs0 c T -> known c -> exists a, cell_as_linear_address cs' c = Some a /\ durable alg data live' a T) /\
  (forall n T, hnode alg data0 live cs0 n T -> (forall x, refers n x -> known x) -> ready alg cs' n -> dnode alg data live' (disk_form cs' n) T) /\
  (forall o k, hslot alg data0 live cs0 o k -> (forall x h, o = Some (SCell x h) -> known x) ->
    dslot alg data live' ((fun x => stored_child (view_child cs' x)) <$> o) k).
Proof.
  intros Hp data live'. pose proof Hp as [Ho _ Hfr Hal (fl & rest & _ & _ & _ & Hsame) _ Hw _ _ _]. rewrite !app_nil_r in Ho. cbn in Hal.
  assert (Hmove : forall a T, durable alg data0 live a T -> durable alg data live' a T).
  { eapply durable_move; [|by intros ?; unfold live'; rewrite elem_of_app; right]. intros x n Hx.
    apply (stored_same alg live); [|done|done]. destruct (inv_area_live _ _ _ x Hal); [apply elem_of_app; by right | done]. }
  assert (Hout : forall c, cell_node cs0 c = None -> c ∉ (write_order t).*1).
  { intros c Hc ([c' n] & -> & Hin)%list_elem_of_fmap. apply (order_in_memory alg cs0 t Hpt) in Hin. cbn in *. congruence. }
  apply hcell_ind'.
  - intros c n T Hc _ IH [Hin|[a Ha]]; [|unfold cell_node in Hc; by rewrite Ha in Hc].
    apply list_elem_of_fmap in Hin as ([c' n'] & -> & Hin). cbn [fst] in *. pose proof (order_in_memory alg cs0 t Hpt _ _ Hin) as Hc'.
    assert (n' = n) as -> by congruence. pose proof Hin as Hin'. rewrite Ho in Hin'. apply list_elem_of_fmap in Hin' as ([[c n0] x] & Heq & He).
    cbn [fst] in Heq. injection Heq as <- <-. pose proof (proj1 (Forall_forall _ _) Hw _ He) as (Ha & Hr & Hst). cbn [fst snd] in *.
    exists x.1. split; [done|]. apply durable_area with (disk_form cs' n); [apply elem_of_app; left; by apply list_elem_of_fmap_2 with (f := snd) in He | done|].
    apply IH; [|done]. intros y Hy. by eapply known_refers.
  - intros c a T Hc Hd _. exists a. split; [|by apply Hmove]. unfold cell_as_linear_address. rewrite Hfr; [by rewrite Hc|].
    apply Hout. unfold cell_node. by rewrite Hc.
  - intros l _ _. constructor.
  - intros p v c ks Hc Hk _ IH Hkn (_ & _ & Hch). pose proof (disk_form_branch cs' p v c) as Hdf.
    unfold disk_form in Hdf |- *. cbn [view_node stored_form branch_children] in Hdf |- *. constructor; [unfold Children_wf in *; by rewrite !length_fmap | done|].
    intros i Hi. rewrite Hdf. apply IH; [done|]. intros x h Hx. apply Hkn. exists i, h. by apply Children_iter_present_elem.
  - intros _. constructor.
  - intros a h T Hd _. cbn. constructor. by apply Hmove.
  - intros c h T _ IH Hkn. destruct (IH (Hkn c h eq_refl)) as (a & Ha & Hd).
    cbn [fmap option_fmap option_map]. unfold stored_child. rewrite view_child_persist_info. cbn [SharedChild_persist_info]. rewrite Ha. cbn. by constructor.
Qed.

(** ** The header *)

(** Writing the whole header. *)
Lemma header_write_ok free L h' (s s' : St) m fdata fl0 :
  alloc_inv (mkAllocator s h') free L -> header_wf h' -> write s 0 (header_bytes h') = Ok (m, s') ->
  on_disk fl0 live data0 (store_bytes s) fdata -> live ⊆ L ->
  alloc_inv (mkAllocator s' h') free L /\ on_disk h' L (store_bytes s') (store_bytes s') free /\
  same_on live data0 (store_bytes s') /\
  forall x n, x ∈ L -> stored_node alg (store_bytes s) x n -> stored_node alg (store_bytes s') x n.
Proof.
  intros Hal Hwf Hw (fl & rest & _ & _ & _ & Hsame) HL. destruct (write_law _ _ _ _ _ Hw) as (_ & Hb & Hf). change (Z.to_nat 0) with 0%nat in Hb.
  assert (Hlen : Z.of_nat (length (header_bytes h')) <= HEADER_SIZE) by (rewrite length_header_bytes by done; vm_compute; discriminate).
  assert (Hhdr : forall x, x ∈ free_areas free \/ x ∈ L -> 0 <= x.1 /\ outside 0 (header_bytes h') x).
  { intros x Hx. apply (area_not_in_header x (h_size h')); [by eapply (inv_area_any (mkAllocator s h')) | lia | lia]. }
  assert (Hal' : alloc_inv (mkAllocator s' h') free L).
  { apply (alloc_inv_overwrite (mkAllocator s h') free L 0 (header_bytes h')); [done | lia | | done | done]. intros x Hx. apply Hhdr. by left. }
  split_and!; [done | | |].
  - exists (h_free_lists h'), (drop (length (header_bytes h')) (store_bytes s')).
    assert (Hset : set_free_lists (h_free_lists h') h' = h') by (by destruct h'). rewrite Hset. split_and!; [|done| |done].
    + pose proof (drop_overwrite (store_bytes s) 0 (header_bytes h')) as Hd. rewrite drop_0, <- Hb in Hd. rewrite Hd at 1 2. by rewrite drop_app_length.
    + destruct Hal' as [? ? ? Hch _]. split; cbn in *; try done.
  - rewrite Hb. apply (same_on_overwrite live data0 (store_bytes s) 0); [lia | | done]. intros x Hx. apply Hhdr. right. by apply HL.
  - intros x n Hx Hst. rewrite Hb. destruct (Hhdr x (or_intror Hx)). by apply (stored_node_outside alg _ 0).
Qed.

End Final.

(** ** Reading it back *)

(** The trie without the hashes. *)
Fixpoint plain (t : htree) : trie :=
  let '(HT p v ks) := t in
  T p v (map (fun o : option (HashType * htree) => match o with Some (_, t) => Some (None, plain t) | None => None end) ks).

Definition plain_slot (o : option (HashType * htree)) : option kid :=
  match o with Some (_, t) => Some (None, plain t) | None => None end.

Lemma plain_get p v ks k :
  tget (plain (HT p v ks)) k =
  match strip_prefix p k with
  | None => None
  | Some [] => v
  | Some (i :: k) => kid_get (plain_slot (Children_get ks i)) k
  end.
Proof.
  cbn [plain]. rewrite tget_T. destruct (strip_prefix p k) as [[|i r]|]; [done| |done]. f_equal.
  unfold Children_get. rewrite list_lookup_fmap. by destruct (ks !! Z.to_nat i) as [[[h t]|]|].
Qed.

(** What is durable is what a store over these bytes reads. *)
Lemma durable_reads `{VarIntLaws} {St : Type} `{WritableStorageLaws St} alg (s : St) live :
  (forall x, x ∈ live -> 0 <= x.1 < U64_MAX) ->
  (forall a t, durable alg (store_bytes s) live a t ->
    exists n u, disk alg s a = Some n /\ rnode (disk alg s) n u /\ forall k, tget u k = tget (plain t) k) /\
  (forall n t, dnode alg (store_bytes s) live n t -> exists u, rnode (disk alg s) n u /\ forall k, tget u k = tget (plain t) k) /\
  (forall o k, dslot alg (store_bytes s) live o k ->
    exists u, rslot (disk alg s) o u /\ forall key, kid_get u key = kid_get (plain_slot k) key).
Proof.
  intros Hlive. apply durable_ind'.
  - intros x n t Hx Hst _ (u & Hu & Hk). exists n, u. split_and!; [|done|done]. by apply (stored_node_disk alg s x n); [apply Hlive|].
  - intros l. eexists. split; [apply rnode_leaf|]. done.
  - intros p v c ks Hc Hks _ IH.
    destruct (slots_choice (fun i u => rslot (disk alg s) (Children_get c i) u /\ forall key, kid_get u key = kid_get (plain_slot (Children_get ks i)) key) IH)
      as (us & Hus & Hu).
    exists (T p v us). split; [constructor; [done..|]; intros i Hi; by apply Hu|]. intros k. rewrite tget_T, plain_get.
    destruct (strip_prefix p k) as [[|i r]|]; [done| |done]. destruct (decide (is_nibble i)) as [Hi|Hi]; [by apply Hu|].
    destruct (decide (Z.to_nat i < 16)%nat) as [Hlt|Hge].
    + assert (Hi0 : i <= 0) by (unfold is_nibble in Hi; lia). replace (Children_get us i) with (Children_get us 0) by (unfold Children_get; by replace (Z.to_nat i) with 0%nat by lia).
      replace (Children_get ks i) with (Children_get ks 0) by (unfold Children_get; by replace (Z.to_nat i) with 0%nat by lia). by apply Hu.
    + unfold Children_get. unfold Children_wf, MAX_CHILDREN, PathComponent_LEN in *. rewrite !lookup_ge_None_2 by lia. done.
  - exists None. split; [constructor | done].
  - intros a h t _ (n & u & Hn & Hu & Hk). exists (Some (Some (Persisted a), u)). split; [by apply (rslot_some _ (AddressWithHash a h) n)|]. exact Hk.
Qed.

(** ** Persisting *)

Section Persisting.
Context `{VarIntLaws} {St : Type} `{WritableStorageLaws St} `{DigestsLaws}.
Variable alg : NodeHashAlgorithm.
Variable read_node : LinearAddress -> result failure SharedNode.

Lemma into_triehash_length hash : hash_wf alg hash -> length (into_triehash hash) = 32%nat.
Proof. destruct alg, hash as [h|r]; cbn; try done. intros _. apply keccak256_wf. Qed.

(** The header with the root in it. *)
Lemma final_header_wf h0 (al : NodeAllocator St) free L a h :
  header_wf h0 -> alloc_inv al free L -> (exists fl size, al_header al = set_size size (set_free_lists fl h0)) ->
  LinearAddress_wf a -> length h = 32%nat -> header_wf (set_root_location (Some (a, h)) (al_header al)).
Proof.
  intros [] Hal (fl & size & Hh) Ha Hl. pose proof (heads_wf al free L Hal) as Hheads.
  destruct (inv_size _ _ _ Hal) as [_ Hsz]. pose proof (inv_lists _ _ _ Hal) as Hlen. rewrite Hh in *. cbn in Hheads, Hsz, Hlen.
  constructor; cbn; try done. unfold HEADER_SIZE in Hsz. ulia.
Qed.

Lemma alloc_inv_root (al : NodeAllocator St) free L r :
  alloc_inv al free L -> alloc_inv (mkAllocator (al_storage al) (set_root_location r (al_header al))) free L.
Proof. by intros [? ? ? ? ?]. Qed.

(** C10: A persisted revision is durable.  Let the cells of a revision and the disk hold the trie [ht] together, and let the
    allocator and the disk be consistent.  If [persist] returns without an error, the header names the root and its
    hash, the disk alone holds [ht] below it in areas that do not overlap what was in use, a store over these bytes
    reads back the same keys and values, the areas in use before are as they were, and the allocator and the disk are consistent
    for the next revision.  If it returns an error, that is because a node is too large for an area or because the
    storage refused a write, and what is on disk is then a consistent store with the old root and the old revision. *)
Theorem persist_durable n fuel t hash cs (s : St) h hd ht live free fd :
  persistable alg cs t -> hcell alg (store_bytes s) live cs (ct_cell t) ht -> hash_wf alg hash -> header_wf h ->
  alloc_inv (mkAllocator s h) free live -> on_disk hd live (store_bytes s) (store_bytes s) fd -> free_areas free ⊆ free_areas fd ->
  h_size h + Z.of_nat (length (flat t)) * MAX_AREA_SIZE <= U64_MAX ->
  (length (flat t) < n)%nat -> (2 * length (flat t) + 1 < fuel)%nat ->
  match persist alg read_node n fuel (Some (SCell (ct_cell t) hash)) cs s h with
  | (Ok _, cs', s', h') => exists a new free',
      h_root_address h' = Some a /\ h_root_hash h' = into_triehash hash /\ cell_as_linear_address cs' (ct_cell t) = Some a /\
      durable alg (store_bytes s') (new ++ live) a ht /\
      (exists root u, disk alg s' a = Some root /\ rnode (disk alg s') root u /\ forall k, tget u k = tget (plain ht) k) /\
      same_on live (store_bytes s) (store_bytes s') /\
      alloc_inv (mkAllocator s' h') free' (new ++ live) /\ on_disk h' (new ++ live) (store_bytes s') (store_bytes s') free'
  | (Err e, _, s', _) => (e = IoFailure OutOfMemory \/ write_fails (St := St) e) /\
      exists fd', on_disk hd live (store_bytes s) (store_bytes s') fd'
  end.
Proof.
  intros Hpt HT Hhash Hwf Hal Hd Hsub Hroom Hn Hf. unfold persist, flush_nodes.
  assert (Hroom' : 0 <= h_size h /\ h_size h + Z.of_nat (length (flat t)) * MAX_AREA_SIZE <= U64_MAX).
  { split; [|done]. destruct (inv_size _ _ _ Hal) as [_ Hsz]. cbn in Hsz. unfold HEADER_SIZE in Hsz. lia. }
  pose proof (process_ok alg read_node cs t h hd live (store_bytes s) Hpt Hroom' n fuel INITIAL_BUMP_SIZE s free fd hash Hal Hd Hsub Hn Hf) as Hout.
  destruct (process_unpersisted_nodes _ _ _ _ _ _ _ _) as [[[u|e] cs'] al']; [|exact Hout].
  destruct Hout as (free' & fd' & written & Hp).
  destruct (tree_durable alg cs t h hd live (store_bytes s) Hpt cs' al' free' fd' written Hp) as (Hcell & _ & _).
  assert (Hroot : (ct_cell t, ct_node t) ∈ write_order t) by (apply order_elem; destruct t; left).
  destruct (Hcell (ct_cell t) ht HT) as (a & Ha & Hdur); [left; by apply list_elem_of_fmap_2 with (f := fst) in Hroot|].
  assert (Haw : LinearAddress_wf a).
  { pose proof (pg_order _ _ _ _ _ _ _ _ _ _ _ _ _ _ _ Hp) as Ho. rewrite !app_nil_r in Ho. rewrite Ho in Hroot.
    apply list_elem_of_fmap in Hroot as (e & He & Hin).
    destruct (done_address alg cs t h hd live (store_bytes s) _ _ _ _ _ _ _ _ e Hp) as [Hae Hw]; [by rewrite app_nil_r|].
    rewrite <- He in Hae. cbn [fst] in Hae. congruence. }
  cbn [mbind option_bind SharedChild_persist_info]. rewrite Ha. cbn [fmap option_fmap option_map mbind option_bind].
  set (h' := set_root_location (Some (a, into_triehash hash)) (al_header al')).
  pose proof (pg_alloc _ _ _ _ _ _ _ _ _ _ _ _ _ _ _ Hp) as Hal'. cbn in Hal'.
  assert (Hwf' : header_wf h').
  { apply (final_header_wf h al' free' (written.*2 ++ live)); [done | done | by apply Hp | done | by apply into_triehash_length]. }
  unfold flush_to. destruct (write (al_storage al') 0 (header_bytes h')) as [[m s']|e] eqn:Hw; cbn [mbind result_bind].
  2: { split; [right; by eexists _, _, _ | exists fd'; apply Hp]. }
  destruct (header_write_ok alg live (store_bytes s) free' (written.*2 ++ live) h' (al_storage al') s' m fd' hd) as (Hal2 & Hd2 & Hs2 & Hmv);
    [by apply alloc_inv_root | done | done | by apply Hp | by intros x Hx; apply elem_of_app; right |].
  assert (Hdur' : durable alg (store_bytes s') (written.*2 ++ live) a ht) by (eapply durable_move; [exact Hmv | done | exact Hdur]).
  exists a, written.*2, free'. split_and!; try done. eapply durable_reads; [|exact Hdur']. intros x Hx.
  destruct (inv_area_any _ _ _ x Hal2 (or_intror Hx)) as (Hi & _ & Hlo & Hhi). destruct (inv_size _ _ _ Hal2) as [_ Hsz].
  pose proof (AreaIndex_size_range _ Hi) as Hr. change MIN_AREA_SIZE with 16 in Hr. unfold area_end, HEADER_SIZE in *. lia.
Qed.

End Persisting.

(** ** Witness: the first revision of a new database *)
Section Witness.
Import Leb128 FirstBytes.

Definition w_new_header : NodeStoreHeader := NodeStoreHeader_new (replicate 32 7) [] [] MerkleDB.
Definition w_new_store : MemStore := mkMemStore (header_bytes w_new_header).

Definition w_leaf_tree : htree := HT [1] (Some [7]) Children_new.
Definition w_inner_tree : htree := HT [2] None (Children_set Children_new 4 (Some (w_hash, w_leaf_tree))).
Definition w_tree : htree :=
  HT [] None (Children_set (Children_set Children_new 3 (Some (w_hash, w_inner_tree))) 9 (Some (w_hash, w_leaf_tree))).

Lemma w_new_inv {St} `{WritableStorageLaws St} (s : St) :
  (forall a, free_next s a = None) -> alloc_inv (mkAllocator s w_new_header) (fun _ => []) [].
Proof.
  intros Hf. split; cbn [al_header al_storage].
  - reflexivity.
  - vm_compute. split; [done | split; discriminate].
  - split; [constructor | constructor | intros x y Hx; by apply not_elem_of_nil in Hx].
  - intros i Hi. unfold FreeLists_get, w_new_header. cbn [h_free_lists NodeStoreHeader_new].
    unfold FreeLists_new. destruct (replicate _ _ !! _) as [o|] eqn:E; [|done]. by apply lookup_replicate in E as [-> _].
  - intros a next. by rewrite Hf.
Qed.

Lemma w_on_disk : on_disk w_new_header [] (store_bytes w_new_store) (store_bytes w_new_store) (fun _ => []).
Proof.
  exists FreeLists_new, []. rewrite app_nil_r. split_and!; [done | | | done].
  - exact (NodeStoreHeader_new_wf (replicate 32 7) [] [] MerkleDB eq_refl).
  - by apply w_new_inv.
Qed.

Ltac slots := intros i Hi; (destruct (decide (i = 3)) as [->|]; [|destruct (decide (i = 4)) as [->|]; [|destruct (decide (i = 9)) as [->|]]]);
  rewrite ?Children_get_set_ne by (done || (unfold is_nibble; lia)); rewrite ?Children_get_set by (done || (unfold is_nibble; lia)); rewrite ?Children_get_new.

Lemma w_persistable : persistable MerkleDB w_cells w_ctree.
Proof.
  split; [exact w_ctree_ok | | ].
  - apply (bool_decide_unpack _). vm_compute. exact I.
  - assert (Hcell : forall c n, w_cells !! c = Some (CUnpersisted n) -> child_ok MerkleDB w_cells (SCell c w_hash)).
    { intros c n Hc. split; [reflexivity|]. rewrite Hc. split; [by eexists | by intros a]. }
    assert (Hinner : node_ok MerkleDB w_cells w_inner).
    { split; [reflexivity|].
      change (Children_iter_present _) with [(4, SCell 3%positive w_hash)]. split; [cbn; lia|].
      intros q ->%list_elem_of_singleton. by eapply Hcell. }
    assert (Hroot : node_ok MerkleDB w_cells w_sroot).
    { split; [reflexivity|].
      change (Children_iter_present _) with [(3, SCell 2%positive w_hash); (9, SCell 4%positive w_hash)]. split; [cbn; lia|].
      intros q [->| ->%list_elem_of_singleton]%elem_of_cons; by eapply Hcell. }
    apply Forall_forall. cbn [w_ctree flat flat_map app]. repeat (apply Forall_cons; split; [done|]). by apply Forall_nil.
Qed.

Lemma w_hcell : hcell MerkleDB (store_bytes w_new_store) [] w_cells 1%positive w_tree.
Proof.
  assert (Hleaf : forall c, w_cells !! c = Some (CUnpersisted w_sleaf) -> hcell MerkleDB (store_bytes w_new_store) [] w_cells c w_leaf_tree).
  { intros c Hc. apply hcell_memory with w_sleaf; [unfold cell_node; by rewrite Hc | exact (hnode_leaf _ _ _ _ (mkLeaf [1] [7]))]. }
  assert (Hin : hcell MerkleDB (store_bytes w_new_store) [] w_cells 2%positive w_inner_tree).
  { apply hcell_memory with w_inner; [reflexivity|]. constructor; [reflexivity..|]. slots; constructor. by apply Hleaf. }
  apply hcell_memory with w_sroot; [reflexivity|]. constructor; [reflexivity..|]. slots; constructor; [done | by apply Hleaf].
Qed.

Lemma persist_durable_witness :
  exists cs' s' h', persist MerkleDB (fun _ => Err Panic) 5 10 (Some (SCell 1%positive w_hash)) w_cells w_new_store w_new_header = (Ok tt, cs', s', h') /\
    exists a new, h_root_address h' = Some a /\ durable MerkleDB (store_bytes s') (new ++ []) a w_tree.
Proof.
  assert (Hf : h_size w_new_header + Z.of_nat (length (flat w_ctree)) * MAX_AREA_SIZE <= U64_MAX) by (vm_compute; discriminate).
  pose proof (persist_durable MerkleDB (fun _ => Err Panic) 5 10 w_ctree w_hash w_cells w_new_store w_new_header w_new_header w_tree [] (fun _ => []) (fun _ => [])
    w_persistable w_hcell eq_refl (NodeStoreHeader_new_wf (replicate 32 7) [] [] MerkleDB eq_refl) (w_new_inv w_new_store (fun _ => eq_refl)) w_on_disk
    ltac:(done) Hf ltac:(vm_compute; lia) ltac:(vm_compute; lia)) as Hp.
  cbn [ct_cell w_ctree] in Hp. destruct (persist _ _ _ _ _ _ _ _) as [[[r cs'] s'] h'] eqn:E.
  assert (Hr : r = Ok tt) by (apply (f_equal (fun p => p.1.1.1)) in E; vm_compute in E; by symmetry).
  rewrite Hr in Hp. destruct Hp as (a & new & free' & Ha & _ & _ & Hd & _). exists cs', s', h'. split; [by rewrite <- Hr|]. by exists a, new.
Defined.

End Witness.
