(* ===== verification/Checker.v ===== *)
(** * The checker

    [storage/src/checker/mod.rs]: the traversal of the stored trie and of the free lists
    that finds misaligned, overlapping, out-of-bounds and leaked areas, nodes that do not
    fit their area, values under impossible keys, and wrong hashes; and the repair of the
    free lists.  The progress bar is left out. *)

From S2P Require Import Prelude Primitives NodePath Node Codec NodeCodec Trie NodeStore Linear Header Alloc RangeSet Rlp Hashing.

(** ** Pages *)

Definition OS_PAGE_SIZE : Z := 4096.

Definition page_number (addr : LinearAddress) : Z := addr / OS_PAGE_SIZE.

Definition extra_read_pages (addr : LinearAddress) (nbytes : Z) : option Z :=
  let start_page := page_number addr in
  last_byte ← advance addr (saturating_sub_u64 nbytes 1);
  let end_page := page_number last_byte in
  let pages_read := saturating_add_u64 (saturating_sub_u64 end_page start_page) 1 in
  let min_pages := saturating_add_u64 nbytes (OS_PAGE_SIZE - 1) / OS_PAGE_SIZE in
  Some (saturating_sub_u64 pages_read min_pages).

Definition check_area_aligned (address : LinearAddress) (parent : StoredAreaParent) : result CheckerError unit :=
  if negb (is_aligned address) then Err (AreaMisaligned address parent) else Ok tt.

(** ** Statistics *)

Record TrieStats : Type := mkTrieStats {
  branch_bytes : Z;
  leaf_bytes : Z;
  kv_count : Z;
  kv_bytes : Z;
  branching_factors : gmap nat Z;
  depths : gmap Z Z;
  branch_area_counts : gmap Z Z;
  leaf_area_counts : gmap Z Z;
  low_occupancy_branch_area_count : Z;
  low_occupancy_leaf_area_count : Z;
  ts_area_extra_unaligned_page : Z;
  node_extra_unaligned_page : Z;
}.

(** One entry per area size, at zero. *)
Definition zero_counts : gmap Z Z := list_to_map (map (fun p : AreaIndex * Z => (p.2, 0)) area_size_iter).

(** [TrieStats::default]. *)
Definition TrieStats_default : TrieStats := mkTrieStats 0 0 0 0 ∅ ∅ zero_counts zero_counts 0 0 0 0.

Record FreeListsStats : Type := mkFreeListsStats {
  area_counts : gmap Z Z;
  fl_area_extra_unaligned_page : Z;
}.

(** [FreeListsStats::default]. *)
Definition FreeListsStats_default : FreeListsStats := mkFreeListsStats zero_counts 0.

Record DBStats : Type := mkDBStats {
  high_watermark : Z;
  db_trie_stats : TrieStats;
  db_free_list_stats : FreeListsStats;
}.

(** [DBStats::default]. *)
Definition DBStats_default : DBStats := mkDBStats 0 TrieStats_default FreeListsStats_default.

(** [get_mut(&key).expect(..)] and one more. *)
Definition bump_count (key : Z) (counts : gmap Z Z) : result failure (gmap Z Z) :=
  count ← expect (counts !! key); mret (<[key := saturating_add_u64 count 1]> counts).

(** [entry(key).or_insert(0)] and one more. *)
Definition bump_entry {K} `{Countable K} (key : K) (counts : gmap K Z) : gmap K Z :=
  <[key := saturating_add_u64 (default 0 (counts !! key)) 1]> counts.

(** A counter that goes up when an area or a node reaches over a page more than its size needs. *)
Definition bump_pages (addr : LinearAddress) (nbytes count : Z) : result failure Z :=
  pages ← expect (extra_read_pages addr nbytes);
  mret (if 0 <? pages then saturating_add_u64 count 1 else count).

(** The statistics that every node adds to. *)
Definition collect_node_stats (addr : LinearAddress) (area_size node_bytes : Z) (value : option Value) (path : Path) (st : TrieStats)
  : result failure TrieStats :=
  let '(count, nbytes) :=
    match value with
    | Some value =>
        (saturating_add_u64 (kv_count st) 1,
         saturating_add_u64 (saturating_add_u64 (kv_bytes st) ((len path + 1) / 2)) (len value))
    | None => (kv_count st, kv_bytes st)
    end in
  area_pages ← bump_pages addr area_size (ts_area_extra_unaligned_page st);
  node_pages ← bump_pages addr node_bytes (node_extra_unaligned_page st);
  mret (mkTrieStats (branch_bytes st) (leaf_bytes st) count nbytes (branching_factors st) (depths st) (branch_area_counts st)
    (leaf_area_counts st) (low_occupancy_branch_area_count st) (low_occupancy_leaf_area_count st) area_pages node_pages).

(** One more when the node would fit a smaller area. *)
Definition bump_low_occupancy (area_index : AreaIndex) (node_bytes count : Z) : result failure Z :=
  smallest_area_index ← (match from_size node_bytes with Ok i => Ok i | Err _ => Err Panic end);
  mret (if smallest_area_index <? area_index then saturating_add_u64 count 1 else count).

Definition collect_branch_stats (area_index : AreaIndex) (area_size node_bytes : Z) (num_children : nat) (st : TrieStats)
  : result failure TrieStats :=
  counts ← bump_count area_size (branch_area_counts st);
  low ← bump_low_occupancy area_index node_bytes (low_occupancy_branch_area_count st);
  mret (mkTrieStats (saturating_add_u64 (branch_bytes st) node_bytes) (leaf_bytes st) (kv_count st) (kv_bytes st)
    (bump_entry num_children (branching_factors st)) (depths st) counts (leaf_area_counts st) low (low_occupancy_leaf_area_count st)
    (ts_area_extra_unaligned_page st) (node_extra_unaligned_page st)).

Definition collect_leaf_stats (area_index : AreaIndex) (area_size node_bytes depth : Z) (st : TrieStats) : result failure TrieStats :=
  counts ← bump_count area_size (leaf_area_counts st);
  low ← bump_low_occupancy area_index node_bytes (low_occupancy_leaf_area_count st);
  mret (mkTrieStats (branch_bytes st) (saturating_add_u64 (leaf_bytes st) node_bytes) (kv_count st) (kv_bytes st)
    (branching_factors st) (bump_entry depth (depths st)) (branch_area_counts st) counts (low_occupancy_branch_area_count st) low
    (ts_area_extra_unaligned_page st) (node_extra_unaligned_page st)).

(** ** The trie *)

Record SubTrieMetadata : Type := mkSubTrie {
  st_root_address : LinearAddress;
  st_root_hash : HashType;
  st_parent : TrieNodeParent;
  st_depth : Z;
  st_path_prefix : Path;
  st_has_peers : bool;
}.

Section Checker.
Context {St : Type} `{ReadableStorage St} `{VarInt} `{Digests}.
Variable alg : NodeHashAlgorithm.
Variable hash_check : bool.

(** What a visit returns: the errors it found, the areas visited and the statistics.  A panic ends everything. *)
Abbreviation visit_result := (result failure (list CheckerError * LinearAddressRangeSet * TrieStats)).

(** An error of the disk is reported for the pointer that led to it; a panic stays a panic. *)
Definition report_io {A B} (r : result failure A) (report : io_error -> B) (k : A -> result failure B) : result failure B :=
  match r with
  | Ok a => k a
  | Err (IoFailure e) => Ok (report e)
  | Err e => Err e
  end.

(** The loop over the children of a branch. *)
Fixpoint visit_children (rec : SubTrieMetadata -> LinearAddressRangeSet -> TrieStats -> visit_result) (parent_address : LinearAddress)
  (depth : Z) (path_prefix : Path) (has_peers : bool) (children : list (PathComponent * (LinearAddress * HashType)))
  (errors : list CheckerError) (visited : LinearAddressRangeSet) (st : TrieStats) : visit_result :=
  match children with
  | [] => Ok (errors, visited, st)
  | (nibble, (address, hash)) :: children =>
      let child_subtrie :=
        mkSubTrie address hash (Parent parent_address nibble) (saturating_add_u64 depth 1) (path_prefix ++ [nibble]) has_peers in
      '(es, visited, st) ← rec child_subtrie visited st;
      visit_children rec parent_address depth path_prefix has_peers children (errors ++ es) visited st
  end.

(** [visit_trie_helper] on a store [s]; [fuel] bounds the depth. *)
Fixpoint visit_trie_helper (s : St) (fuel : nat) (subtrie : SubTrieMetadata) (visited : LinearAddressRangeSet) (st : TrieStats)
  : visit_result :=
  match fuel with
  | O => Err Diverges
  | S fuel =>
      let address := st_root_address subtrie in
      let parent := st_parent subtrie in
      let path_prefix := st_path_prefix subtrie in
      let fail e : visit_result := Ok ([e], visited, st) in
      match check_area_aligned address (TrieNode parent) with
      | Err e => fail e
      | Ok _ =>
      report_io (area_index_and_size s address) (fun e => ([CheckerIO e (TrieNode parent)], visited, st)) (fun '(area_index, area_size) =>
      report_io (read_node_with_num_bytes_from_disk alg s address) (fun e => ([CheckerIO e (TrieNode parent)], visited, st)) (fun '(node, node_bytes) =>
      if area_size <? node_bytes then fail (NodeLargerThanArea address area_size node_bytes parent)
      else
        let current_path_prefix := path_prefix ++ partial_path node in
        if bool_decide (is_Some (node_value node)) && negb (is_valid_key alg current_path_prefix)
        then fail (InvalidKey current_path_prefix address parent)
        else
          mismatch ←
            (if hash_check
             then hash ← compute_node_ethhash alg node path_prefix (st_has_peers subtrie);
                  Ok (if HashType_eq hash (st_root_hash subtrie) then None else Some hash)
             else Ok None);
          match mismatch with
          | Some hash => fail (HashMismatch current_path_prefix address parent (st_root_hash subtrie) hash)
          | None =>
            match insert_area visited address area_size (TrieNode parent) with
            | Err CheckerPanic => Err Panic
            | Err e => fail e
            | Ok visited =>
                st ← collect_node_stats address area_size node_bytes (node_value node) current_path_prefix st;
                match node with
                | Branch branch =>
                    let persist_info := BranchNode_persist_info branch in
                    let num_children := Children_count persist_info in
                    st ← collect_branch_stats area_index area_size node_bytes num_children st;
                    visit_children (visit_trie_helper s fuel) address (st_depth subtrie) current_path_prefix (negb (Nat.eqb num_children 1))
                      (Children_iter_present persist_info) [] visited st
                | Leaf _ =>
                    st ← collect_leaf_stats area_index area_size node_bytes (st_depth subtrie) st;
                    Ok ([], visited, st)
                end
            end
          end))
      end
  end.

(** [visit_trie]. *)
Definition visit_trie (s : St) (fuel : nat) (root_address : LinearAddress) (root_hash : HashType) (visited : LinearAddressRangeSet)
  : visit_result :=
  visit_trie_helper s fuel (mkSubTrie root_address root_hash Root 0 [] false) visited TrieStats_default.

(** ** The free lists *)

(** [FreeListsIterator::next_with_metadata]; [fuel] bounds the lists passed. *)
Fixpoint FreeListsIterator_next_with_metadata (fuel : nat) (free_lists : FreeLists) (s : St) (it : FreeListsIterator)
  : result failure (option (result failure FreeAreaWithMetadata * FreeListParent) * FreeListsIterator) :=
  match fuel with
  | O => Err Diverges
  | S fuel =>
      match fl_current_free_list it with
      | None => Ok (None, it)
      | Some free_list_iter =>
          match FreeListIterator_next_with_metadata s free_list_iter with
          | (Some next, free_list_iter) => Ok (Some next, mkFreeListsIterator (fl_next_free_list_id it) (Some free_list_iter))
          | (None, free_list_iter) =>
              FreeListsIterator_next_with_metadata fuel free_lists s
                (move_to_next_free_list free_lists (mkFreeListsIterator (fl_next_free_list_id it) (Some free_list_iter)))
          end
      end
  end.

(** The checks on one free area: the area becomes visited. *)
Definition check_free_area (area : FreeAreaWithMetadata) (parent : FreeListParent) (visited : LinearAddressRangeSet)
  : result CheckerError LinearAddressRangeSet :=
  let addr := fm_addr area in
  let area_size := AreaIndex_size (fm_area_index area) in
  _ ← check_area_aligned addr (FreeList parent);
  if negb (fm_free_list_id area =? fm_area_index area)
  then Err (FreelistAreaSizeMismatch addr area_size (fm_free_list_id area) (fm_area_index area) parent)
  else insert_area visited addr area_size (FreeList parent).

(** The loop of [visit_freelist]; after an error the rest of the list is left alone. *)
Fixpoint visit_freelist_loop (n fuel : nat) (free_lists : FreeLists) (s : St) (it : FreeListsIterator) (errors : list CheckerError)
  (visited : LinearAddressRangeSet) (st : FreeListsStats) : result failure (list CheckerError * LinearAddressRangeSet * FreeListsStats) :=
  match n with
  | O => Err Diverges
  | S n =>
      '(next, it) ← FreeListsIterator_next_with_metadata fuel free_lists s it;
      match next with
      | None => Ok (errors, visited, st)
      | Some (Err (IoFailure e), parent) =>
          visit_freelist_loop n fuel free_lists s (move_to_next_free_list free_lists it) (errors ++ [CheckerIO e (FreeList parent)]) visited st
      | Some (Err e, _) => Err e
      | Some (Ok area, parent) =>
          match check_free_area area parent visited with
          | Err CheckerPanic => Err Panic
          | Err e => visit_freelist_loop n fuel free_lists s (move_to_next_free_list free_lists it) (errors ++ [e]) visited st
          | Ok visited =>
              let area_size := AreaIndex_size (fm_area_index area) in
              counts ← bump_count area_size (area_counts st);
              pages ← bump_pages (fm_addr area) area_size (fl_area_extra_unaligned_page st);
              visit_freelist_loop n fuel free_lists s it errors visited (mkFreeListsStats counts pages)
          end
      end
  end.

(** [visit_freelist]. *)
Definition visit_freelist (n : nat) (s : St) (free_lists : FreeLists) (visited : LinearAddressRangeSet)
  : result failure (list CheckerError * LinearAddressRangeSet * FreeListsStats) :=
  visit_freelist_loop n (S (Z.to_nat NUM_AREA_SIZES)) free_lists s (FreeListsIterator_new free_lists AreaIndex_MIN) [] visited FreeListsStats_default.

(** ** The whole check *)

Record CheckerReport : Type := mkReport {
  rp_errors : list CheckerError;
  rp_db_stats : DBStats;
}.

(** The trie part of [check]. *)
Definition check_trie (s : St) (fuel : nat) (root : option MaybePersisted) (root_hash : option TrieHash) (visited : LinearAddressRangeSet)
  : visit_result :=
  match root, root_hash with
  | Some root, Some root_hash =>
      match as_linear_address root with
      | Some root_address => visit_trie s fuel root_address (Hash root_hash) visited
      | None => Ok ([UnpersistedRoot], visited, TrieStats_default)
      end
  | _, _ => Ok ([], visited, TrieStats_default)
  end.

(** [NodeStore::check]; [fuel] bounds the depth of the trie and the number of free areas. *)
Definition check (s : St) (fuel : nat) (root : option MaybePersisted) (root_hash : option TrieHash) (header : NodeStoreHeader)
  : result failure CheckerReport :=
  match LinearAddressRangeSet_new (h_size header) with
  | Err CheckerPanic => Err Panic
  | Err e => Ok (mkReport [e] DBStats_default)
  | Ok visited =>
      '(trie_errors, visited, trie_stats) ← check_trie s fuel root root_hash visited;
      '(free_list_errors, visited, free_list_stats) ← visit_freelist fuel s (h_free_lists header) visited;
      leaked_ranges ← (match area_complement visited with Ok leaked => Ok leaked | Err _ => Err Panic end);
      let leaks := if bool_decide (range_set leaked_ranges = []) then [] else [AreaLeaks leaked_ranges] in
      Ok (mkReport (trie_errors ++ free_list_errors ++ leaks) (mkDBStats (h_size header) trie_stats free_list_stats))
  end.

End Checker.

(** ** Repair *)

(** [CheckerError::parent]. *)
Definition CheckerError_parent (e : CheckerError) : option StoredAreaParent :=
  match e with
  | InvalidDBSize _ | AreaLeaks _ | UnpersistedRoot | CheckerPanic => None
  | AreaOutOfBounds _ _ _ parent | AreaIntersects _ _ _ parent | AreaMisaligned _ parent | CheckerIO _ parent => Some parent
  | HashMismatch _ _ parent _ _ | NodeLargerThanArea _ _ _ parent | InvalidKey _ _ parent => Some (TrieNode parent)
  | FreelistAreaSizeMismatch _ _ _ _ parent => Some (FreeList parent)
  end.

Record FixReport : Type := mkFixReport {
  fixed : list CheckerError;
  unfixable : list (CheckerError * option io_error);
  fx_db_stats : DBStats;
}.

Section Fix.
Context {St : Type} `{ReadableStorage St} `{WritableStorage St} `{VarInt}.
Variable alg : NodeHashAlgorithm.

(** The loop of [fix]: a list whose area is bad is cut off before it.  The iterator over the leaked areas is
    never advanced, so it has no effect. *)
Fixpoint fix_loop (errors : list CheckerError) (s : St) (header : NodeStoreHeader) (done : list CheckerError)
  (unfixed : list (CheckerError * option io_error))
  : result failure (list CheckerError * list (CheckerError * option io_error) * St * NodeStoreHeader) :=
  match errors with
  | [] => Ok (done, unfixed, s, header)
  | error :: errors =>
      match CheckerError_parent error with
      | Some (TrieNode _) | None => fix_loop errors s header done (unfixed ++ [(error, None)])
      | Some (FreeList free_list_parent) =>
          match truncate_free_list s (h_free_lists header) free_list_parent with
          | Err (IoFailure e) => fix_loop errors s header done (unfixed ++ [(error, Some e)])
          | Err e => Err e
          | Ok (s, free_lists) => fix_loop errors s (set_free_lists free_lists header) (done ++ [error]) unfixed
          end
      end
  end.

(** [NodeStore<Mutable<Propose>>::fix]. *)
Definition fix_store (s : St) (header : NodeStoreHeader) (report : CheckerReport) : result failure (FixReport * St * NodeStoreHeader) :=
  '(done, unfixed, s, header) ← fix_loop (rp_errors report) s header [] [];
  Ok (mkFixReport done unfixed (rp_db_stats report), s, header).

(** ** Splitting leaked ranges *)

(** [read_leaked_area]. *)
Definition read_leaked_area (s : St) (address : LinearAddress) : result failure (AreaIndex * Z) * St :=
  match read_stored_area_info s address with
  | Err e => (Err e, s)
  | Ok info =>
      match sai_kind info with
      | AreaNode =>
          match read_node_from_disk alg s address with
          | (Err e, s) => (Err e, s)
          | (Ok _, s) => (Ok (sai_index info, sai_size info), s)
          end
      | AreaFree => (Ok (sai_index info, sai_size info), s)
      end
  end.

(** The first loop of [split_range_into_leaked_areas]: the areas that can be read.  The flag says that they fill the range. *)
Fixpoint split_stored (n : nat) (s : St) (current_addr range_end : LinearAddress) (leaked : list (LinearAddress * AreaIndex))
  : result failure (list (LinearAddress * AreaIndex) * LinearAddress * bool) * St :=
  match n with
  | O => (Err Diverges, s)
  | S n =>
      match read_leaked_area s current_addr with
      | (Err (IoFailure _), s) => (Ok (leaked, current_addr, false), s)
      | (Err e, s) => (Err e, s)
      | (Ok (area_index, area_size), s) =>
          match advance current_addr area_size with
          | None => (Err Panic, s)
          | Some next_addr =>
              match next_addr ?= range_end with
              | Eq => (Ok (leaked ++ [(current_addr, area_index)], next_addr, true), s)
              | Gt => (Ok (leaked, current_addr, false), s)
              | Lt => split_stored n s next_addr range_end (leaked ++ [(current_addr, area_index)])
              end
          end
      end
  end.

(** The inner loop of the second part: areas of one size while they fit. *)
Fixpoint split_size (n : nat) (current_addr range_end : LinearAddress) (area_index : AreaIndex) (area_size : Z)
  (leaked : list (LinearAddress * AreaIndex)) : result failure (list (LinearAddress * AreaIndex) * LinearAddress) :=
  match n with
  | O => Err Diverges
  | S n =>
      match advance current_addr area_size with
      | None => Err Panic
      | Some next_addr =>
          if next_addr <=? range_end then split_size n next_addr range_end area_index area_size (leaked ++ [(current_addr, area_index)])
          else Ok (leaked, current_addr)
      end
  end.

(** The second part: the sizes from the largest to the smallest. *)
Fixpoint split_sizes (n : nat) (sizes : list (AreaIndex * Z)) (current_addr range_end : LinearAddress) (leaked : list (LinearAddress * AreaIndex))
  : result failure (list (LinearAddress * AreaIndex) * LinearAddress) :=
  match sizes with
  | [] => Ok (leaked, current_addr)
  | (area_index, area_size) :: sizes =>
      '(leaked, current_addr) ← split_size n current_addr range_end area_index area_size leaked;
      split_sizes n sizes current_addr range_end leaked
  end.

(** [split_range_into_leaked_areas]; [n] bounds the areas found. *)
Definition split_range_into_leaked_areas (n : nat) (s : St) (leaked_range : LinearAddress * LinearAddress)
  : result failure (list (LinearAddress * AreaIndex)) * St :=
  match split_stored n s leaked_range.1 leaked_range.2 [] with
  | (Err e, s) => (Err e, s)
  | (Ok (leaked, _, true), s) => (Ok leaked, s)
  | (Ok (leaked, current_addr, false), s) => (fst <$> split_sizes n (rev area_size_iter) current_addr leaked_range.2 leaked, s)
  end.

(** [split_all_leaked_ranges]. *)
Fixpoint split_all_leaked_ranges (n : nat) (s : St) (leaked_ranges : list (LinearAddress * LinearAddress))
  : result failure (list (LinearAddress * AreaIndex)) * St :=
  match leaked_ranges with
  | [] => (Ok [], s)
  | r :: rs =>
      match split_range_into_leaked_areas n s r with
      | (Err e, s) => (Err e, s)
      | (Ok l, s) => let '(res, s) := split_all_leaked_ranges n s rs in (app l <$> res, s)
      end
  end.

End Fix.
