(* ===== verification/CheckerRead.v ===== *)
(** * What the readers return

    Facts about reading arbitrary bytes, as the checker does: whatever the readers
    return comes from the front of the bytes, a node that is read has sixteen slots with
    addresses in them, and a free area has a class and an address in range. *)

From S2P Require Import Prelude Primitives NodePath Node Codec NodeCodec Trie NodeStore Linear Header Alloc AllocCorrect.

(** Whatever [r] returns satisfies [P] and was read from the front. *)
Definition fronts {A} (r : reader A) (P : A -> Prop) : Prop :=
  forall bs x rest, is_bytes bs -> r bs = Ok (x, rest) -> P x /\ exists pre, bs = pre ++ rest.

Lemma fronts_bind {A B} (m : reader A) (f : A -> reader B) P Q :
  fronts m P -> (forall a, P a -> fronts (f a) Q) -> fronts (m ≫= f) Q.
Proof.
  intros Hm Hf bs x rest Hb Hr. unfold mbind, reader_bind in Hr. destruct (m bs) as [[a bs']|] eqn:E; [|done].
  destruct (Hm _ _ _ Hb E) as (Ha & pre & ->). apply Forall_app in Hb as [_ Hb'].
  destruct (Hf a Ha _ _ _ Hb' Hr) as (Hx & pre' & ->). split; [done|]. exists (pre ++ pre'). by rewrite app_assoc.
Qed.

Lemma fronts_ret {A} (a : A) (P : A -> Prop) : P a -> fronts (mret a) P.
Proof. intros Ha bs x rest _ [= <- <-]. split; [done | by exists []]. Qed.

Lemma fronts_fail {A} e (P : A -> Prop) : fronts (reader_fail e) P.
Proof. by intros bs x rest _ Hr. Qed.

Lemma fronts_lift {A} (r : result io_error A) (P : A -> Prop) : (forall a, r = Ok a -> P a) -> fronts (reader_lift r) P.
Proof. intros Hr bs x rest _ He. unfold reader_lift in He. destruct r as [a|]; [|done]. injection He as <- <-. split; [by apply Hr | by exists []]. Qed.

Lemma fronts_weaken {A} (r : reader A) (P Q : A -> Prop) : fronts r P -> (forall a, P a -> Q a) -> fronts r Q.
Proof. intros Hr HPQ bs x rest Hb He. destruct (Hr _ _ _ Hb He) as (Hx & Hp). split; [by apply HPQ | done]. Qed.

Lemma fronts_byte : fronts read_byte u8.
Proof.
  intros [|b bs] x rest Hb Hr; [done|]. injection Hr as <- <-. apply Forall_cons in Hb as [Hb _].
  split; [done | by exists [b]].
Qed.

Lemma fronts_exact n : fronts (read_exact n) (fun b => length b = n /\ is_bytes b).
Proof.
  intros bs x rest Hb Hr. unfold read_exact in Hr. case_decide; [done|]. injection Hr as <- <-.
  split; [split; [rewrite length_take; lia | by apply Forall_take]|]. exists (take n bs). by rewrite take_drop.
Qed.

Section Readers.
Context `{VarIntLaws}.
Variable alg : NodeHashAlgorithm.

Lemma fronts_varint : fronts read_varint u64.
Proof. intros bs x rest Hb Hr. by apply read_varint_front. Qed.

Lemma fronts_fixed_len n : fronts (read_fixed_len n) is_bytes.
Proof.
  intros bs x rest Hb Hr. unfold read_fixed_len in Hr. repeat case_match; simplify_eq. split; [by apply Forall_take|].
  eexists. symmetry. apply take_drop.
Qed.

(** *** Nodes *)

(** Under MerkleDB a child hash is a digest. *)
Definition hash_shape (h : HashType) : Prop := alg = MerkleDB -> exists x, h = Hash x.

Definition child_shape (c : Child) : Prop := exists a h, c = AddressWithHash a h /\ LinearAddress_wf a /\ hash_shape h.

Definition slots_shape (c : Children (option Child)) : Prop :=
  Children_wf c /\ forall i x, is_nibble i -> Children_get c i = Some x -> child_shape x.

Definition node_shape (n : Node) : Prop :=
  is_bytes (partial_path n) /\ match n with Leaf _ => True | Branch b => slots_shape (branch_children b) end.

Lemma LinearAddress_new_wf x a : u64 x -> LinearAddress_new x = Some a -> LinearAddress_wf a.
Proof. unfold LinearAddress_new, LinearAddress_wf. intros Hx. zcase; [done|]. intros [= <-]. ulia. Qed.

Lemma from_le_bytes_u64 b : is_bytes b -> (length b <= 8)%nat -> u64 (from_le_bytes b).
Proof.
  intros Hb Hl. pose proof (from_le_bytes_bound b Hb) as Hr.
  assert (256 ^ Z.of_nat (length b) <= 256 ^ 8) by (apply Z.pow_le_mono_r; lia). change (256 ^ 8) with 18446744073709551616 in *. ulia.
Qed.

Lemma fronts_child_hash : fronts (read_child_hash alg) hash_shape.
Proof.
  unfold hash_shape. destruct alg; cbn [read_child_hash].
  - eapply fronts_bind; [apply fronts_exact|]. intros h _. apply fronts_ret. by exists h.
  - eapply fronts_bind; [apply fronts_exact|]. intros f _. cbv zeta. case_match; [|case_match; [apply fronts_fail|]].
    all: eapply fronts_bind; [apply fronts_exact|]; intros h _; by apply fronts_ret.
Qed.

Lemma fronts_child : fronts (read_child alg) child_shape.
Proof.
  eapply fronts_bind; [apply fronts_exact|]. intros b [Hl Hb]. eapply fronts_bind; [apply fronts_child_hash|]. intros h Hh.
  destruct (LinearAddress_new (from_le_bytes b)) as [a|] eqn:E; [|apply fronts_fail]. apply fronts_ret. exists a, h. split_and!; [done | | done].
  eapply LinearAddress_new_wf; [|exact E]. apply from_le_bytes_u64; [done | lia].
Qed.

Lemma fronts_children_full n :
  fronts (read_children_full alg n) (fun l => length l = n /\ Forall (fun o => exists c, o = Some c /\ child_shape c) l).
Proof.
  induction n as [|n IH]; cbn [read_children_full]; [by apply fronts_ret|].
  eapply fronts_bind; [apply fronts_child|]. intros c Hc. eapply fronts_bind; [apply IH|]. intros l [Hl Hf].
  apply fronts_ret. split; [cbn; lia|]. constructor; [by exists c | done].
Qed.

Lemma fronts_children_sparse n acc : slots_shape acc -> fronts (read_children_sparse alg n acc) slots_shape.
Proof.
  revert acc. induction n as [|n IH]; intros acc Hacc; cbn [read_children_sparse]; [by apply fronts_ret|].
  eapply fronts_bind; [apply fronts_exact|]. intros b [Hlen Hbytes]. destruct (PathComponent_try_new (nth 0 b 0)) as [p|] eqn:E; [|apply fronts_fail].
  eapply fronts_bind; [apply fronts_child|]. intros c Hc. apply IH. destruct Hacc as [Hw Hs]. split; [by apply Children_set_wf|].
  intros i x Hi Hx. destruct (decide (p = i)) as [->|Hne].
  - rewrite Children_get_set in Hx by done. by simplify_eq.
  - assert (Hp : is_nibble p).
    { destruct b as [|y b]; [done|]. apply Forall_cons in Hbytes as [Hy _]. unfold PathComponent_try_new in E. cbn in E.
      destruct (Z.ltb_spec y 16); simplify_eq. unfold u8 in Hy. unfold is_nibble. lia. }
    rewrite Children_get_set_ne in Hx by done. exact (Hs i x Hi Hx).
Qed.

Lemma fronts_node : fronts (from_reader alg) node_shape.
Proof.
  assert (Hpath : forall v o, fronts (read_path_with_overflow_length v o) is_bytes).
  { intros v o. unfold read_path_with_overflow_length. case_match; [apply fronts_fixed_len|].
    eapply fronts_bind; [apply fronts_varint|]. intros n _. apply fronts_fixed_len. }
  assert (Hval : fronts read_value (fun _ => True)).
  { eapply fronts_bind; [apply fronts_varint|]. intros n _. by eapply fronts_weaken; [apply fronts_fixed_len|]. }
  eapply fronts_bind; [apply fronts_byte|]. intros b _. case_match; [apply fronts_fail|]. case_match.
  - eapply fronts_bind; [apply Hpath|]. intros p Hp. eapply fronts_bind; [apply Hval|]. intros v _. by apply fronts_ret.
  - cbv zeta. eapply fronts_bind; [apply Hpath|]. intros p Hp.
    eapply (fronts_bind _ _ (fun _ => True)); [case_match; [|by apply fronts_ret]; eapply fronts_bind; [apply Hval|]; intros v _; by apply fronts_ret|].
    intros v _. eapply (fronts_bind _ _ slots_shape); [|intros c Hc; apply fronts_ret; by split].
    case_match; [|apply fronts_children_sparse; split; [apply Children_new_wf | intros i x _; by rewrite Children_get_new]].
    eapply fronts_weaken; [apply fronts_children_full|]. intros l [Hl Hf]. split; [exact Hl|]. intros i x Hi Hx. unfold Children_get in Hx.
    destruct (l !! Z.to_nat i) as [o|] eqn:E; [|done]. cbn in Hx. subst o. apply (Forall_lookup_1 _ _ _ _ Hf) in E as (c & [= ->] & Hc). done.
Qed.

(** *** Free areas *)

Lemma fronts_class b : u8 b -> fronts (reader_lift (AreaIndex_try_from b)) AreaIndex_wf.
Proof.
  intros Hb. apply fronts_lift. intros i Hi. unfold AreaIndex_try_from, ok_or, AreaIndex_new, AreaIndex_wf in *. unfold u8, U8_MAX in Hb.
  repeat case_match; simplify_eq; lia.
Qed.

Lemma fronts_free_area : fronts from_storage_reader (fun p => AreaIndex_wf p.2 /\ address_wf (next_free_block p.1)).
Proof.
  assert (Hnew : forall x, u64 x -> address_wf (LinearAddress_new x)).
  { intros x Hx. destruct (LinearAddress_new x) as [a|] eqn:E; [|done]. by eapply LinearAddress_new_wf. }
  assert (Hfa : fronts FreeArea_from_reader (fun fa => address_wf (next_free_block fa))).
  { eapply fronts_bind; [apply fronts_byte|]. intros b _. case_match.
    - eapply fronts_bind; [apply fronts_byte|]. intros d _. case_match; [by apply fronts_ret|]. case_match; [|apply fronts_fail].
      eapply (fronts_bind _ _ u64).
      + eapply fronts_bind; [apply fronts_byte|]. intros y Hy. case_match; [apply fronts_ret; unfold u8, U8_MAX in Hy; ulia|].
        repeat (case_match; [eapply fronts_bind; [apply fronts_exact|]; intros z [Hz Hzb]; apply fronts_ret; apply from_le_bytes_u64; [done | lia]|]). apply fronts_fail.
      + intros x Hx. eapply (fronts_bind _ _ LinearAddress_wf); [|intros a Ha; by apply fronts_ret]. apply fronts_lift. intros a Ha.
        eapply LinearAddress_new_wf; [exact Hx|]. by destruct (LinearAddress_new x); simplify_eq/=.
    - case_match; [|apply fronts_fail]. eapply fronts_bind; [apply fronts_varint|]. intros x Hx. apply fronts_ret. by apply Hnew. }
  eapply fronts_bind; [apply fronts_byte|]. intros b Hb. eapply (fronts_bind _ _ AreaIndex_wf); [by apply fronts_class|].
  intros i Hi. eapply fronts_bind; [apply Hfa|]. intros fa Hfa'. by apply fronts_ret.
Qed.

End Readers.

(** ** How reading fails *)

(** Every failure of [r] satisfies [P]. *)
Definition fails_with {A} (P : failure -> Prop) (r : reader A) : Prop := forall bs e, r bs = Err e -> P e.

Section Failures.
Context `{VarIntLaws}.
Variable P : failure -> Prop.
Hypothesis HP : forall x, P (IoFailure x).

Lemma fails_bind {A B} (m : reader A) (f : A -> reader B) : fails_with P m -> (forall a, fails_with P (f a)) -> fails_with P (m ≫= f).
Proof.
  intros Hm Hf bs e He. unfold mbind, reader_bind in He. destruct (m bs) as [[a bs']|e'] eqn:E; [by apply Hf in He|].
  injection He as <-. by apply Hm in E.
Qed.

Lemma fails_ret {A} (a : A) : fails_with P (mret a).
Proof. by intros bs e He. Qed.

Lemma fails_fail {A} x : fails_with P (@reader_fail A x).
Proof. intros bs e He. by injection He as <-. Qed.

Lemma fails_lift {A} (r : result io_error A) : fails_with P (reader_lift r).
Proof. intros bs e He. unfold reader_lift in He. destruct r; [done|]. by injection He as <-. Qed.

Lemma fails_byte : fails_with P read_byte.
Proof. intros [|b bs] e He; [|done]. by injection He as <-. Qed.

Lemma fails_exact n : fails_with P (read_exact n).
Proof. intros bs e He. unfold read_exact in He. case_decide; [|done]. by injection He as <-. Qed.

Lemma fails_varint : fails_with P read_varint.
Proof. intros bs e He. by apply read_varint_err in He as [x ->]. Qed.

Create HintDb fails.
#[local] Hint Resolve fails_ret fails_fail fails_lift fails_byte fails_exact fails_varint : fails.

Ltac fails := repeat first [ solve [eauto with fails] | apply fails_bind; [|intros ?] | case_match | progress cbv zeta ].

Lemma fails_free_area : fails_with P from_storage_reader.
Proof. unfold from_storage_reader, FreeArea_from_reader, read_bincode_varint_u64_le. fails. Qed.

Lemma fails_area_info : fails_with P read_stored_area_info_from_reader.
Proof. unfold read_stored_area_info_from_reader. fails. Qed.

Hypothesis HPanic : P Panic.

Lemma fails_fixed_len n : fails_with P (read_fixed_len n).
Proof. intros bs e He. unfold read_fixed_len in He. repeat case_match; simplify_eq; auto. Qed.
#[local] Hint Resolve fails_fixed_len : fails.

Lemma fails_children_sparse alg n acc : fails_with P (read_children_sparse alg n acc).
Proof. revert acc. induction n as [|n IH]; intros acc; cbn [read_children_sparse]; unfold read_child, read_child_hash; fails. Qed.

Lemma fails_children_full alg n : fails_with P (read_children_full alg n).
Proof. induction n as [|n IH]; cbn [read_children_full]; unfold read_child, read_child_hash; fails. Qed.
#[local] Hint Resolve fails_children_sparse fails_children_full : fails.

(** Reading a node never goes on forever; it can panic. *)
Lemma fails_node alg : fails_with P (from_reader alg).
Proof. unfold from_reader, read_path_with_overflow_length, read_value. fails. Qed.

End Failures.
