(* ===== verification/CheckerTrie.v ===== *)
(** * The checker: the trie

    What a visit of a subtrie establishes, on a file with arbitrary bytes: it ends, it
    marks areas that do not overlap, and if it reports nothing then the subtrie can be
    read and its hashes are right. *)

From S2P Require Import Prelude Primitives NodePath Node Codec NodeCodec Trie NodeStore Linear Header Alloc AllocCorrect Reap RangeSet.
From S2P Require Import MerkleSpec Merkle MerkleInsert TrieCanonical Rlp RlpSplice Hashing HashSpec HashHelper Checker CheckerRead.

(** ** Areas that were added *)

Definition covers (areas : list area) (x : Z) : Prop := exists y, y ∈ areas /\ y.1 <= x < area_end y.

Definition sum_sizes (areas : list area) : Z := foldr (fun (x : area) acc => AreaIndex_size x.2 + acc) 0 areas.

Lemma covers_app l1 l2 x : covers (l1 ++ l2) x <-> covers l1 x \/ covers l2 x.
Proof.
  unfold covers. split.
  - intros (y & Hy & Hx). apply elem_of_app in Hy as [?|?]; [left | right]; by exists y.
  - intros [(y & Hy & Hx)|(y & Hy & Hx)]; exists y; (split; [apply elem_of_app; tauto | done]).
Qed.

Lemma sum_sizes_app l1 l2 : sum_sizes (l1 ++ l2) = sum_sizes l1 + sum_sizes l2.
Proof. induction l1 as [|x l1 IH]; [done|]. cbn [app]. unfold sum_sizes in *. cbn [foldr]. rewrite IH. lia. Qed.

Lemma sum_sizes_nonneg size l : Forall (area_ok size) l -> 16 * Z.of_nat (length l) <= sum_sizes l.
Proof.
  induction 1 as [|x l (Hi & _) _ IH]; [done|]. pose proof (AreaIndex_size_range _ Hi) as Hr. change MIN_AREA_SIZE with 16 in Hr.
  cbn [length sum_sizes foldr]. fold (sum_sizes l). lia.
Qed.

Lemma tiling_app size l1 l2 :
  tiling size l1 -> tiling size l2 -> (forall x, covers l1 x -> ~ covers l2 x) -> tiling size (l1 ++ l2).
Proof.
  intros [Ho1 Hn1 Ha1] [Ho2 Hn2 Ha2] Hd.
  assert (Hap : forall x y, x ∈ l1 -> y ∈ l2 -> apart x y).
  { intros x y Hx Hy. pose proof (proj1 (Forall_forall _ _) Ho1 x Hx) as (Hxi & _). pose proof (proj1 (Forall_forall _ _) Ho2 y Hy) as (Hyi & _).
    pose proof (area_nonempty x Hxi). pose proof (area_nonempty y Hyi). unfold apart.
    destruct (decide (area_end x <= y.1)); [by left|]. destruct (decide (area_end y <= x.1)); [by right|]. exfalso.
    apply (Hd (Z.max x.1 y.1)); [exists x | exists y]; (split; [done | lia]). }
  split.
  - by apply Forall_app.
  - apply NoDup_app. split_and!; [done | | done]. intros x Hx Hy. pose proof (Hap x x Hx Hy) as Hxx.
    pose proof (proj1 (Forall_forall _ _) Ho1 x Hx) as (Hxi & _). pose proof (area_nonempty x Hxi). unfold apart in Hxx. lia.
  - intros x y Hx Hy Hne. apply elem_of_app in Hx, Hy. destruct Hx as [Hx|Hx], Hy as [Hy|Hy]; [by apply Ha1 | by apply Hap | | by apply Ha2].
    destruct (Hap y x Hy Hx); [by right | by left].
Qed.

(** From [v] to [v'] exactly the areas of the list were added. *)
Record added (v v' : LinearAddressRangeSet) (areas : list area) : Prop := mkAdded {
  added_wf : areas_wf v';
  added_max : max_addr v' = max_addr v;
  added_tiling : tiling (max_addr v) areas;
  added_mem x : mem x (range_set v') <-> mem x (range_set v) \/ covers areas x;
  added_new x : mem x (range_set v) -> ~ covers areas x;
  added_bytes : bytes_in_set v' = bytes_in_set v + sum_sizes areas;
}.

Lemma added_nil v : areas_wf v -> added v v [].
Proof.
  intros Hv. split; [done | done | split; [constructor | constructor | by intros x y Hx; apply not_elem_of_nil in Hx] | | | cbn; lia].
  - intros x. split; [by left|]. intros [?|(y & Hy & _)]; [done | by apply not_elem_of_nil in Hy].
  - intros x _ (y & Hy & _). by apply not_elem_of_nil in Hy.
Qed.

Lemma added_trans v1 v2 v3 l1 l2 : added v1 v2 l1 -> added v2 v3 l2 -> added v1 v3 (l1 ++ l2).
Proof.
  intros [Hw1 Hm1 Ht1 Hx1 Hn1 Hb1] [Hw2 Hm2 Ht2 Hx2 Hn2 Hb2]. rewrite Hm1 in *. split; [done | done | | | |].
  - apply tiling_app; [done..|]. intros x Hx. apply Hn2, Hx1. by right.
  - intros x. rewrite Hx2, Hx1, covers_app. tauto.
  - intros x Hx. rewrite covers_app. intros [Hc|Hc]; [by apply (Hn1 x)|]. apply (Hn2 x); [|done]. apply Hx1. by left.
  - rewrite sum_sizes_app. lia.
Qed.

(** One area. *)
Lemma added_one v v' a i parent :
  areas_wf v -> LinearAddress_wf a -> AreaIndex_wf i -> a mod MIN_AREA_SIZE = 0 -> insert_area v a (AreaIndex_size i) parent = Ok v' -> added v v' [(a, i)].
Proof.
  intros Hv Ha Hi Hal Hins. pose proof (AreaIndex_size_range i Hi) as Hr. change MIN_AREA_SIZE with 16 in Hr. change MAX_AREA_SIZE with 16777216 in Hr.
  pose proof (insert_area_spec v a (AreaIndex_size i) parent Hv Ha) as Hs. rewrite Hins in Hs.
  destruct Hs as (Hw & Hlo & Hhi & Hm & Hn & Hb); [ulia|]. unfold NODE_STORE_START_ADDR in Hlo.
  assert (Hc : forall x, covers [(a, i)] x <-> a <= x < a + AreaIndex_size i).
  { intros x. unfold covers, area_end. split; [by intros (y & ->%list_elem_of_singleton & ?)|]. intros ?. exists (a, i). split; [left | done]. }
  assert (Hmax : max_addr v' = max_addr v).
  { unfold insert_area in Hins. destruct (advance _ _); [|done]. cbn in Hins. case_match; [done|]. case_match; [|done].
    destruct (checked_add_u64 _ _); [|done]. by injection Hins as <-. }
  split; [done | done | | | | unfold sum_sizes; cbn [foldr snd]; lia].
  - split; [apply Forall_singleton; unfold area_ok, area_end; by cbn [fst snd] | apply NoDup_singleton | by intros x y ->%list_elem_of_singleton ->%list_elem_of_singleton].
  - intros x. by rewrite Hm, Hc.
  - intros x Hx. rewrite Hc. by apply Hn.
Qed.

Lemma added_fits v v' a i : added v v' [(a, i)] -> NODE_STORE_START_ADDR <= a /\ a + AreaIndex_size i <= U64_MAX.
Proof.
  intros [Hw Hm [Hok _ _] _ _ _]. apply Forall_singleton in Hok as (_ & _ & Hlo & Hhi). pose proof (areas_max _ Hw) as Hx. rewrite Hm in Hx.
  unfold area_end in Hhi. cbn [fst snd] in *. unfold NODE_STORE_START_ADDR in *. lia.
Qed.

(** The number of areas there is still room for. *)
Definition room (v : LinearAddressRangeSet) : nat := Z.to_nat ((max_addr v - NODE_STORE_START_ADDR - bytes_in_set v) / 16).

Lemma added_room v v' areas : added v v' areas -> (room v' + length areas <= room v)%nat.
Proof.
  intros [Hw Hm [Hok _ _] _ _ Hb]. pose proof (areas_total _ Hw) as Ht. rewrite <- (areas_bytes _ Hw) in Ht.
  pose proof (sum_sizes_nonneg _ _ Hok) as Hs. unfold room. rewrite Hm in *. apply Nat2Z.inj_le.
  rewrite Nat2Z.inj_add, !Z2Nat.id by (apply Z.div_pos; lia).
  pose proof (Z.div_mod (max_addr v - NODE_STORE_START_ADDR - bytes_in_set v) 16 ltac:(lia)).
  pose proof (Z.mod_pos_bound (max_addr v - NODE_STORE_START_ADDR - bytes_in_set v) 16 ltac:(lia)).
  pose proof (Z.div_mod (max_addr v - NODE_STORE_START_ADDR - bytes_in_set v') 16 ltac:(lia)).
  pose proof (Z.mod_pos_bound (max_addr v - NODE_STORE_START_ADDR - bytes_in_set v') 16 ltac:(lia)). lia.
Qed.

(** ** Statistics never fail *)

Definition stats_wf (st : TrieStats) : Prop :=
  forall i, AreaIndex_wf i -> is_Some (branch_area_counts st !! AreaIndex_size i) /\ is_Some (leaf_area_counts st !! AreaIndex_size i).

Lemma zero_counts_all i : AreaIndex_wf i -> is_Some (zero_counts !! AreaIndex_size i).
Proof.
  intros Hi. apply (bool_decide_unpack (is_Some (zero_counts !! AreaIndex_size i))), Is_true_true.
  revert i Hi. apply (forallb_range (fun i => bool_decide (is_Some (zero_counts !! AreaIndex_size i))) NUM_AREA_SIZES). vm_compute. reflexivity.
Qed.

Lemma stats_default_wf : stats_wf TrieStats_default.
Proof. intros i Hi. split; by apply zero_counts_all. Qed.

Lemma bump_pages_ok a n c : 0 <= a -> a + Z.max 0 (n - 1) <= U64_MAX -> exists c', bump_pages a n c = Ok c'.
Proof.
  intros Ha Hn. unfold bump_pages, extra_read_pages, advance, saturating_sub_u64.
  rewrite (proj2 (checked_add_u64_Some a (Z.max 0 (n - 1)) _) (conj Hn eq_refl)). cbn. by eexists.
Qed.

Lemma bump_count_ok key counts : is_Some (counts !! key) -> exists counts', bump_count key counts = Ok counts' /\ forall k, is_Some (counts !! k) -> is_Some (counts' !! k).
Proof.
  intros [c Hc]. unfold bump_count. rewrite Hc. cbn. eexists. split; [done|]. intros k Hk.
  destruct (decide (k = key)) as [->|Hne]; [rewrite lookup_insert_eq; by eexists | by rewrite lookup_insert_ne].
Qed.

Lemma bump_low_ok i n c : n <= MAX_AREA_SIZE -> exists c', bump_low_occupancy i n c = Ok c'.
Proof. intros Hn. unfold bump_low_occupancy, from_size. destruct (Z.ltb_spec MAX_AREA_SIZE n); [lia|]. cbn. by eexists. Qed.

Lemma node_stats_ok a size n v p st :
  0 <= a -> 0 <= n <= size -> 1 <= size -> a + size <= U64_MAX + 1 -> stats_wf st -> exists st', collect_node_stats a size n v p st = Ok st' /\ stats_wf st'.
Proof.
  intros Ha Hn Hs Hu Hw. unfold collect_node_stats. destruct (match v with Some _ => _ | None => _ end) as [c b].
  destruct (bump_pages_ok a size (ts_area_extra_unaligned_page st)) as [c1 ->]; [done | lia|].
  destruct (bump_pages_ok a n (node_extra_unaligned_page st)) as [c2 ->]; [done | lia|]. cbn. by eexists.
Qed.

Lemma branch_stats_ok i n k st :
  AreaIndex_wf i -> n <= AreaIndex_size i -> stats_wf st -> exists st', collect_branch_stats i (AreaIndex_size i) n k st = Ok st' /\ stats_wf st'.
Proof.
  intros Hi Hn Hw. pose proof (AreaIndex_size_range i Hi) as Hr. unfold collect_branch_stats.
  destruct (bump_count_ok (AreaIndex_size i) (branch_area_counts st)) as (counts & -> & Hc); [by apply Hw|].
  destruct (bump_low_ok i n (low_occupancy_branch_area_count st)) as [low ->]; [lia|]. cbn. eexists. split; [done|].
  intros j Hj. destruct (Hw j Hj). split; [by apply Hc | done].
Qed.

Lemma leaf_stats_ok i n d st :
  AreaIndex_wf i -> n <= AreaIndex_size i -> stats_wf st -> exists st', collect_leaf_stats i (AreaIndex_size i) n d st = Ok st' /\ stats_wf st'.
Proof.
  intros Hi Hn Hw. pose proof (AreaIndex_size_range i Hi) as Hr. unfold collect_leaf_stats.
  destruct (bump_count_ok (AreaIndex_size i) (leaf_area_counts st)) as (counts & -> & Hc); [by apply Hw|].
  destruct (bump_low_ok i n (low_occupancy_leaf_area_count st)) as [low ->]; [lia|]. cbn. eexists. split; [done|].
  intros j Hj. destruct (Hw j Hj). split; [done | by apply Hc].
Qed.

(** ** Slots *)

(** Results for the present slots, put back into the slots. *)
Lemma slots_of_present {A B} (R : Z * A -> B -> Prop) (c : Children (option A)) (rs : list B) :
  Children_wf c -> Forall2 R (Children_iter_present c) rs ->
  exists ks : Children (option B), Children_wf ks /\ omap (fun o => o) ks = rs /\
    forall i, is_nibble i -> match Children_get c i with
                             | Some x => exists r, Children_get ks i = Some r /\ R (i, x) r
                             | None => Children_get ks i = None
                             end.
Proof.
  intros Hc. unfold Children_iter_present, Children_iter.
  enough (Hgen : forall b (l : list (option A)) rs, Forall2 R (omap (fun p : Z * option A => match p with (i, Some x) => Some (i, x) | _ => None end)
      (zip (seqZ b (Z.of_nat (length l))) l)) rs ->
    exists ks : list (option B), length ks = length l /\ omap (fun o => o) ks = rs /\
      forall k, match default None (l !! k) with
                | Some x => exists r, default None (ks !! k) = Some r /\ R (b + Z.of_nat k, x) r
                | None => default None (ks !! k) = None
                end).
  { unfold Children_wf, MAX_CHILDREN, PathComponent_LEN in Hc. change PathComponent_ALL with (seqZ 0 (Z.of_nat 16)). rewrite <- Hc. intros Hf.
    destruct (Hgen 0 c rs Hf) as (ks & Hl & Hk & Hs). exists ks. split_and!; [unfold Children_wf, MAX_CHILDREN, PathComponent_LEN; lia | done|].
    intros i Hi. specialize (Hs (Z.to_nat i)). unfold is_nibble in Hi. rewrite Z2Nat.id, Z.add_0_l in Hs by lia. exact Hs. }
  intros b l. revert b. induction l as [|o l IH]; intros b rs' Hf.
  - inversion Hf; subst. exists []. split_and!; [done..|]. intros k. by rewrite !lookup_nil.
  - cbn [length] in Hf. rewrite Nat2Z.inj_succ, seqZ_cons, Z.pred_succ in Hf by lia. destruct o as [x|]; csimpl in Hf.
    + inversion Hf as [|? r ? rs2 Hx Hf']; subst. destruct (IH _ _ Hf') as (ks & Hl & Hk & Hs). exists (Some r :: ks).
      split_and!; [cbn; lia | csimpl; by rewrite Hk|]. intros [|k]; cbn; [exists r; by rewrite Z.add_0_r|]. specialize (Hs k).
      by replace (Z.succ b + Z.of_nat k) with (b + Z.pos (Pos.of_succ_nat k)) in Hs by lia.
    + destruct (IH _ _ Hf) as (ks & Hl & Hk & Hs). exists (None :: ks).
      split_and!; [cbn; lia | csimpl; done|]. intros [|k]; cbn; [done|]. specialize (Hs k).
      by replace (Z.succ b + Z.of_nat k) with (b + Z.pos (Pos.of_succ_nat k)) in Hs by lia.
Qed.

Lemma kids_handles_present (ks : list (option kid)) : kids_handles ks = concat ((fun k : kid => kid_handles (Some k)) <$> omap (fun o => o) ks).
Proof. unfold kids_handles. induction ks as [|[k|] ks IH]; [done| |]; csimpl; by rewrite IH. Qed.

(** ** Visiting *)

Section Visit.
Context `{VarIntLaws} {St : Type} `{WritableStorageLaws St} `{Digests}.
Variables (alg : NodeHashAlgorithm) (hash_check : bool) (s : St).
Hypothesis Hbytes : is_bytes (store_bytes s).

(** Reading a node panics somewhere in the file. *)
Definition read_panics (e : failure) : Prop := e = Panic /\ exists a, read_node_with_num_bytes_from_disk alg s a = Err Panic.

(** So does a visit, and, if hashes are checked, hashing a node with a byte that is not a nibble in its path. *)
Definition visit_panics (e : failure) : Prop :=
  read_panics e \/
  e = Panic /\ hash_check = true /\ exists a n nb, read_node_with_num_bytes_from_disk alg s a = Ok (n, nb) /\ ~ is_path (partial_path n).

Lemma read_node_fails a e : read_node_with_num_bytes_from_disk alg s a = Err e -> (exists x, e = IoFailure x) \/ read_panics e.
Proof.
  intros Hr. assert (He : e <> Diverges).
  { unfold read_node_with_num_bytes_from_disk in Hr. rewrite stream_from_law in Hr. unfold mbind, result_bind in Hr.
    destruct (from_reader alg _) as [[m rest]|e'] eqn:E; [done|]. injection Hr as <-. by apply (fails_node (fun e => e <> Diverges)) in E. }
  destruct e; [left; by eexists | right; split; [done | by exists a] | done].
Qed.

Lemma area_index_fails a e : area_index_and_size s a = Err e -> exists x, e = IoFailure x.
Proof.
  unfold area_index_and_size. rewrite stream_from_law. unfold mbind, result_bind. destruct (read_byte _) as [[b rest]|]; [|intros [= <-]; by eexists].
  destruct (AreaIndex_new b); [done | intros [= <-]; by eexists].
Qed.

Lemma free_area_fails a e : FreeArea_from_storage s a = Err e -> exists x, e = IoFailure x.
Proof.
  unfold FreeArea_from_storage. rewrite stream_from_law. cbn [mbind result_bind]. destruct (from_storage_reader _) as [[p rest]|e'] eqn:E; [done|].
  intros [= <-]. by apply (fails_free_area (fun e => exists x, e = IoFailure x)) in E; [|by eexists].
Qed.

(** The area starts with its class and holds all bytes of its node. *)
Definition marked (x : area) : Prop :=
  area_index_and_size s x.1 = Ok (x.2, AreaIndex_size x.2) /\
  exists n nb, read_node_with_num_bytes_from_disk alg s x.1 = Ok (n, nb) /\ nb <= AreaIndex_size x.2.

(** The subtrie below [a] can be read, in the areas of the list; its keys are possible; if hashes are checked,
    its paths are nibbles and under MerkleDB its hash is [h]. *)
Definition subtrie_ok (a : LinearAddress) (h : HashType) (prefix : Path) (t : trie) (areas : list area) : Prop :=
  (exists n, disk alg s a = Some n /\ rnode (disk alg s) n t) /\ area_nodes areas = Persisted a :: handles t /\ Forall marked areas /\
  (forall k v, Forall is_nibble k -> tget t k = Some v -> is_valid_key alg (prefix ++ k) = true) /\
  (hash_check = true -> trie_wf t /\ (alg = MerkleDB -> h = thash alg prefix (tpath t) t)).

Definition visit_outcome (sub : SubTrieMetadata) (v : LinearAddressRangeSet)
  (r : result failure (list CheckerError * LinearAddressRangeSet * TrieStats)) : Prop :=
  match r with
  | Err e => visit_panics e
  | Ok (errs, v', st') => stats_wf st' /\ exists areas, added v v' areas /\
      (errs = [] -> exists t, subtrie_ok (st_root_address sub) (st_root_hash sub) (st_path_prefix sub) t areas)
  end.

Lemma read_node_shape a n nb : read_node_with_num_bytes_from_disk alg s a = Ok (n, nb) -> node_shape alg n /\ 0 <= nb /\ disk alg s a = Some n.
Proof.
  intros Hr. split_and!; [| |unfold disk; by rewrite Hr].
  all: unfold read_node_with_num_bytes_from_disk in Hr; rewrite stream_from_law in Hr; unfold mbind, result_bind in Hr;
    destruct (from_reader alg (drop (Z.to_nat (saturating_add_u64 a 1)) (store_bytes s))) as [[m rest]|] eqn:E; [|done]; injection Hr as <- <-.
  - eapply (fronts_node alg); [|exact E]. by apply Forall_drop.
  - unfold saturating_add_u64. ulia.
Qed.

Lemma area_index_shape a i sz : area_index_and_size s a = Ok (i, sz) -> AreaIndex_wf i /\ sz = AreaIndex_size i.
Proof.
  unfold area_index_and_size. rewrite stream_from_law. unfold mbind, result_bind. destruct (read_byte _) as [[b rest]|] eqn:E; [|done].
  destruct (AreaIndex_new b) as [j|] eqn:Ej; [|done]. intros [= <- <-]. split; [|done].
  destruct (fronts_byte _ _ _ (Forall_drop _ _ _ Hbytes) E) as [Hb _]. unfold AreaIndex_new in Ej. unfold AreaIndex_wf, u8 in *.
  destruct (Z.ltb_spec b NUM_AREA_SIZES); simplify_eq. lia.
Qed.

(** *** The children *)

Definition visits_well (fuel : nat) (rec : SubTrieMetadata -> LinearAddressRangeSet -> TrieStats -> result failure (list CheckerError * LinearAddressRangeSet * TrieStats)) : Prop :=
  forall sub v st, areas_wf v -> stats_wf st -> LinearAddress_wf (st_root_address sub) -> hash_shape alg (st_root_hash sub) ->
    (hash_check = true -> is_path (st_path_prefix sub)) -> (room v < fuel)%nat -> visit_outcome sub v (rec sub v st).

Definition kid_ok (prefix : Path) (p : PathComponent * (LinearAddress * HashType)) (r : kid * list area) : Prop :=
  exists t, r.1 = (Some (Persisted p.2.1), t) /\ subtrie_ok p.2.1 p.2.2 (prefix ++ [p.1]) t r.2.

Lemma visit_children_ok rec fuel pa depth prefix peers l errors v st :
  visits_well fuel rec -> Forall (fun p : PathComponent * (LinearAddress * HashType) => is_nibble p.1 /\ LinearAddress_wf p.2.1 /\ hash_shape alg p.2.2) l ->
  (hash_check = true -> is_path prefix) -> areas_wf v -> stats_wf st -> (room v < fuel)%nat ->
  match visit_children rec pa depth prefix peers l errors v st with
  | Err e => visit_panics e
  | Ok (es, v', st') => stats_wf st' /\ exists areas new, es = errors ++ new /\ added v v' areas /\
      (new = [] -> exists rs, Forall2 (kid_ok prefix) l rs /\ areas = concat rs.*2)
  end.
Proof.
  intros Hrec Hl. revert errors v st. induction Hl as [|[i [a h]] l (Hi & Ha & Hh) Hl IH]; intros errors v st Hpre Hv Hst Hroom; cbn [visit_children].
  - split; [done|]. exists [], []. split_and!; [by rewrite app_nil_r | by apply added_nil|]. intros _. by exists [].
  - pose proof (Hrec (mkSubTrie a h (Parent pa i) (saturating_add_u64 depth 1) (prefix ++ [i]) peers) v st Hv Hst Ha Hh
      (fun Hc => is_path_snoc _ _ (Hpre Hc) Hi) Hroom) as Hr.
    unfold mbind, result_bind. destruct (rec _ v st) as [[[es v1] st1]|e]; [|exact Hr].
    destruct Hr as (Hst1 & areas1 & Hadd1 & Hok1). cbn [st_root_address st_root_hash st_path_prefix] in Hok1.
    pose proof (added_room _ _ _ Hadd1) as Hrm. specialize (IH (errors ++ es) v1 st1 Hpre (added_wf _ _ _ Hadd1) Hst1 ltac:(lia)).
    destruct (visit_children rec pa depth prefix peers l (errors ++ es) v1 st1) as [[[es2 v2] st2]|e]; [|exact IH].
    destruct IH as (Hst2 & areas2 & new & -> & Hadd2 & Hok2). split; [done|]. exists (areas1 ++ areas2), (es ++ new).
    split_and!; [by rewrite app_assoc | by eapply added_trans|]. intros [-> ->]%app_eq_nil.
    destruct (Hok1 eq_refl) as (t & Ht). destruct (Hok2 eq_refl) as (rs & Hrs & ->). exists (((Some (Persisted a), t), areas1) :: rs).
    split; [|done]. constructor; [|done]. by exists t.
Qed.

(** *** A node *)

Lemma persist_info_get p v c i : is_nibble i -> Children_get (BranchNode_persist_info (mkBranch p v c)) i = Children_get c i ≫= Child_persist_info.
Proof. intros Hi. unfold BranchNode_persist_info. by rewrite Children_map_get. Qed.

Lemma persist_info_shapes p v c :
  slots_shape alg c ->
  Forall (fun q : PathComponent * (LinearAddress * HashType) => is_nibble q.1 /\ LinearAddress_wf q.2.1 /\ hash_shape alg q.2.2)
    (Children_iter_present (BranchNode_persist_info (mkBranch p v c))).
Proof.
  intros [Hc Hs]. apply Forall_forall. intros [i [a h]] Hin. apply Children_iter_present_elem in Hin as [Hi Hget]; [|by apply Children_map_wf].
  rewrite persist_info_get in Hget by done. destruct (Children_get c i) as [x|] eqn:Ex; [|done].
  destruct (Hs i x Hi Ex) as (b & g & -> & Hb & Hg). cbn in Hget. by injection Hget as <- <-.
Qed.

(** Hashing a node below nibbles: a hash, or a panic because of its own path. *)
Lemma node_ethhash_ok n prefix peers :
  is_bytes (partial_path n) -> is_path prefix ->
  match compute_node_ethhash alg n prefix peers with
  | Ok h => is_path (partial_path n) /\ (alg = MerkleDB -> h = merkledb_to_hash (mkShunt prefix (partial_path n) (DigestValue <$> node_value n) (node_hashes n)))
  | Err e => e = Panic /\ ~ is_path (partial_path n)
  end.
Proof.
  intros Hb Hp. unfold compute_node_ethhash. rewrite as_components_path by done. cbn [mbind result_bind].
  destruct (as_components (partial_path n)) as [q|e] eqn:Eq.
  - apply as_components_Ok in Eq as [-> Hlt].
    assert (Hn : is_path (partial_path n)) by (apply Forall_forall; intros x Hx; unfold is_bytes in Hb; rewrite Forall_forall in Hb, Hlt; specialize (Hb x Hx); specialize (Hlt x Hx); unfold u8, is_nibble in *; lia).
    pose proof (hash_node_parts alg n prefix Hp Hn) as Hh.
    destruct alg; cbn [is_ethereum andb]; [rewrite Hh; done|]. destruct (Nat.eqb (length prefix) 65 && negb peers), (last prefix) as [i|];
      rewrite ?(hash_root_parts Ethereum n _ i Hn), ?Hh; done.
  - pose proof (as_components_Err _ _ Eq) as [-> Hno].
    assert (Hbad : hash_node alg n prefix = Err Panic) by (unfold hash_node; rewrite as_components_path by done; destruct n; cbn in *; by rewrite Eq).
    assert (Hbad' : forall q i, hash_node_as_storage_trie_root_for_node alg q i n = Err Panic) by (intros q i; destruct n; cbn in *; by rewrite Eq).
    destruct (_ && _), (last prefix); by rewrite ?Hbad, ?Hbad'.
Qed.

(** A branch whose children were visited. *)
Lemma branch_subtrie a i h p v c prefix rs :
  slots_shape alg c -> marked (a, i) -> disk alg s a = Some (Branch (mkBranch p v c)) ->
  (is_Some v -> is_valid_key alg (prefix ++ p) = true) ->
  (hash_check = true -> is_path p /\ (alg = MerkleDB ->
     HashType_eq (merkledb_to_hash (mkShunt prefix p (DigestValue <$> v) (children_hashes (mkBranch p v c)))) h = true)) -> hash_shape alg h ->
  Forall2 (kid_ok (prefix ++ p)) (Children_iter_present (BranchNode_persist_info (mkBranch p v c))) rs ->
  exists t, subtrie_ok a h prefix t ((a, i) :: concat rs.*2).
Proof.
  intros [Hc Hsh] Hma Hd Hv Hhash Hh Hrs.
  assert (Hpi : Children_wf (BranchNode_persist_info (mkBranch p v c))) by (by apply Children_map_wf).
  destruct (slots_of_present _ _ _ Hpi Hrs) as (ks0 & Hw & Hom & Hks). set (ks := (fmap fst : option (kid * list area) -> option kid) <$> ks0).
  assert (Hget : forall i, Children_get ks i = fst <$> Children_get ks0 i).
  { intros j. unfold Children_get, ks. rewrite list_lookup_fmap. by destruct (ks0 !! Z.to_nat j). }
  assert (Hwk : Children_wf ks) by (unfold Children_wf, ks in *; by rewrite length_fmap).
  assert (Hslot : forall j, is_nibble j -> match Children_get c j with
      | None => Children_get ks j = None
      | Some x => exists b g t l, x = AddressWithHash b g /\ Children_get ks j = Some (Some (Persisted b), t) /\ subtrie_ok b g ((prefix ++ p) ++ [j]) t l
      end).
  { intros j Hj. specialize (Hks j Hj). rewrite persist_info_get in Hks by done. destruct (Children_get c j) as [x|] eqn:Ex.
    - destruct (Hsh j x Hj Ex) as (b & g & -> & _ & _). cbn in Hks. destruct Hks as ([kd l] & Hk & t & Hkd & Hok). cbn [fst snd] in *.
      exists b, g, t, l. rewrite Hget, Hk. cbn. by rewrite Hkd.
    - cbn in Hks. by rewrite Hget, Hks. }
  exists (T p v ks). split_and!.
  - eexists. split; [exact Hd|]. constructor; [done..|]. intros j Hj. specialize (Hslot j Hj). destruct (Children_get c j) as [x|]; [|rewrite Hslot; constructor].
    destruct Hslot as (b & g & t & l & -> & -> & (n & Hn & Hr) & _). by apply (rslot_some _ (AddressWithHash b g) n).
  - rewrite handles_T, kids_handles_present. cbn [area_nodes map fst]. f_equal. unfold ks.
    assert (Hf : omap (fun o => o) ((fmap fst : option (kid * list area) -> option kid) <$> ks0) = rs.*1).
    { rewrite <- Hom. clear. induction ks0 as [|[r|] l IH]; [done| |]; csimpl; by rewrite IH. }
    rewrite Hf. clear -Hrs. induction Hrs as [|q r l rs (t & Hr & _ & Ha & _) _ IH]; [done|]. csimpl. unfold area_nodes in *. rewrite map_app, IH, Ha, Hr. done.
  - constructor; [done|]. clear -Hrs. induction Hrs as [|q r l rs (t & _ & _ & _ & Hm & _) _ IH]; [constructor|]. csimpl. by apply Forall_app.
  - intros k w Hnk Hk. rewrite tget_T in Hk. destruct (strip_prefix p k) as [[|j r]|] eqn:Ep; [| |done].
    + apply strip_prefix_Some in Ep as ->. rewrite app_nil_r. apply Hv. by eexists.
    + apply strip_prefix_Some in Ep as ->. apply Forall_app in Hnk as [_ [Hj Hr]%Forall_cons].
      specialize (Hslot j Hj). destruct (Children_get c j) as [x|]; [|by rewrite Hslot in Hk].
      destruct Hslot as (b & g & t & l & _ & Hkk & _ & _ & _ & Hkey & _). rewrite Hkk in Hk. cbn in Hk. apply (Hkey _ _ Hr) in Hk. by rewrite <- !app_assoc in Hk.
  - intros Hhc. destruct (Hhash Hhc) as [Hpp Heq]. split.
    { apply trie_wf_intro; [done..|]. intros j o t Hj Hk. specialize (Hslot j Hj). destruct (Children_get c j) as [x|]; [|by rewrite Hslot in Hk].
      destruct Hslot as (b & g & t' & l & _ & Hk' & _ & _ & _ & _ & Hwf). rewrite Hk' in Hk. injection Hk as <- <-. by apply Hwf. }
    intros Halg. specialize (Heq Halg). destruct (Hh Halg) as [y ->]. cbn [tpath]. rewrite thash_T.
    assert (Hkh : children_hashes (mkBranch p v c) = kid_hashes alg (prefix ++ p) ks).
    { apply Children_ext; [by apply Children_map_wf | by apply Children_map_wf|]. intros j Hj. unfold children_hashes, kid_hashes.
      rewrite !Children_map_get by done. cbn [branch_children]. specialize (Hslot j Hj). destruct (Children_get c j) as [x|]; [|by rewrite Hslot].
      destruct Hslot as (b & g & t & l & -> & -> & _ & _ & _ & _ & Hg). cbn. f_equal. rewrite (proj2 (Hg Hhc) Halg). unfold kid_hash, lone. by rewrite Halg. }
    rewrite Hkh in Heq. revert Heq. rewrite Halg. cbn [to_hash]. unfold merkledb_to_hash. cbn [HashType_eq]. intros Heq. apply bool_decide_eq_true in Heq. by rewrite Heq.
Qed.

Lemma leaf_subtrie a i h l prefix :
  marked (a, i) -> disk alg s a = Some (Leaf l) -> is_valid_key alg (prefix ++ leaf_partial_path l) = true ->
  (hash_check = true -> is_path (leaf_partial_path l) /\ (alg = MerkleDB ->
     HashType_eq (merkledb_to_hash (mkShunt prefix (leaf_partial_path l) (Some (DigestValue (leaf_value l))) Children_new)) h = true)) -> hash_shape alg h ->
  exists t, subtrie_ok a h prefix t [(a, i)].
Proof.
  intros Hm Hd Hv Hhash Hh. exists (T (leaf_partial_path l) (Some (leaf_value l)) Children_new). split_and!.
  - eexists. split; [exact Hd|]. constructor.
  - done.
  - by apply Forall_singleton.
  - intros k w Hnk Hk. rewrite tget_T in Hk. destruct (strip_prefix (leaf_partial_path l) k) as [[|j r]|] eqn:Ep; [| |done].
    + apply strip_prefix_Some in Ep as ->. by rewrite app_nil_r.
    + by rewrite Children_get_new in Hk.
  - intros Hhc. destruct (Hhash Hhc) as [Hpp Heq]. split; [by apply trie_wf_leaf|]. intros Halg. specialize (Heq Halg).
    destruct (Hh Halg) as [y ->]. cbn [tpath]. rewrite thash_T, kid_hashes_new. change (DigestValue <$> Some (leaf_value l)) with (Some (DigestValue (leaf_value l))).
    revert Heq. rewrite Halg. cbn [to_hash]. unfold merkledb_to_hash. cbn [HashType_eq]. intros Heq. apply bool_decide_eq_true in Heq. by rewrite Heq.
Qed.

(** A visit that stops at the node adds nothing. *)
Lemma visit_stops sub v st e : areas_wf v -> stats_wf st -> visit_outcome sub v (Ok ([e], v, st)).
Proof. intros Hv Hst. split; [done|]. exists []. split; [by apply added_nil | done]. Qed.

Lemma visit_trie_helper_ok fuel : visits_well fuel (visit_trie_helper alg hash_check s fuel).
Proof.
  induction fuel as [|fuel IH]; intros sub v st Hv Hst Ha Hh Hpre Hroom; [lia|]. cbn [visit_trie_helper].
  unfold check_area_aligned. destruct (is_aligned _) eqn:Hal; [|by apply visit_stops]. cbn [negb].
  destruct (area_index_and_size s (st_root_address sub)) as [[i sz]|e] eqn:Ei; cbn [report_io].
  2: { apply area_index_fails in Ei as [x ->]. by apply visit_stops. }
  destruct (area_index_shape _ _ _ Ei) as [Hi ->].
  destruct (read_node_with_num_bytes_from_disk alg s (st_root_address sub)) as [[n nb]|e] eqn:En; cbn [report_io].
  2: { apply read_node_fails in En as [[x ->]|Hp]; [by apply visit_stops | destruct Hp as [-> Hp]; by left]. }
  destruct (read_node_shape _ _ _ En) as ([Hnp Hn] & Hnb & Hd).
  destruct (Z.ltb_spec (AreaIndex_size i) nb) as [|Hfit]; [by apply visit_stops|].
  destruct (bool_decide _ && _) eqn:Hkey; [by apply visit_stops|].
  assert (Hhash : match (if hash_check then hash ← compute_node_ethhash alg n (st_path_prefix sub) (st_has_peers sub);
                            Ok (if HashType_eq hash (st_root_hash sub) then None else Some hash) else Ok None) : result failure (option HashType) with
    | Err e => visit_panics e
    | Ok None => hash_check = true -> is_path (partial_path n) /\ (alg = MerkleDB ->
        HashType_eq (merkledb_to_hash (mkShunt (st_path_prefix sub) (partial_path n) (DigestValue <$> node_value n) (node_hashes n))) (st_root_hash sub) = true)
    | Ok (Some _) => True
    end).
  { destruct hash_check eqn:Hc; [|done]. pose proof (node_ethhash_ok n (st_path_prefix sub) (st_has_peers sub) Hnp (Hpre eq_refl)) as Hok.
    destruct (compute_node_ethhash alg n _ _) as [g|e]; cbn [mbind result_bind].
    - destruct (HashType_eq g _) eqn:Hg; [|done]. intros _. split; [apply Hok|]. intros Halg. by rewrite <- (proj2 Hok Halg).
    - destruct Hok as [-> Hno]. right. split; [done|]. split; [exact Hc|]. by exists (st_root_address sub), n, nb. }
  match goal with |- context [mbind _ ?m] => destruct m as [[g|]|e] end; cbn [mbind result_bind]; [by apply visit_stops | | exact Hhash].
  destruct (insert_area v _ _ _) as [v1|e] eqn:Hins.
  2: { pose proof (insert_area_spec v (st_root_address sub) (AreaIndex_size i) (TrieNode (st_parent sub)) Hv Ha) as Hs. rewrite Hins in Hs.
       pose proof (AreaIndex_size_range i Hi). destruct e; try (by apply visit_stops). destruct Hs. change MAX_AREA_SIZE with 16777216 in *. change MIN_AREA_SIZE with 16 in *. ulia. }
  pose proof (added_one _ _ _ _ _ Hv Ha Hi (proj1 (Z.eqb_eq _ _) Hal) Hins) as Hadd. pose proof (added_room _ _ _ Hadd) as Hr1. cbn [length] in Hr1.
  destruct (added_fits _ _ _ _ Hadd) as [Hlo Hhi]. pose proof (AreaIndex_size_range i Hi) as Hsz. change MIN_AREA_SIZE with 16 in Hsz. unfold NODE_STORE_START_ADDR, HEADER_SIZE in Hlo.
  destruct (node_stats_ok (st_root_address sub) (AreaIndex_size i) nb (node_value n) (st_path_prefix sub ++ partial_path n) st) as (st1 & -> & Hst1); [lia | lia | lia | lia | done |].
  cbn [mbind result_bind].
  assert (Hval : is_Some (node_value n) -> is_valid_key alg (st_path_prefix sub ++ partial_path n) = true).
  { intros Hsome. rewrite bool_decide_true in Hkey by done. by apply negb_false_iff in Hkey. }
  assert (Hma : marked (st_root_address sub, i)) by (split; [exact Ei | by exists n, nb]). destruct n as [[p w c]|l].
  - cbv zeta. match goal with |- context [collect_branch_stats _ _ _ ?k _] => destruct (branch_stats_ok i nb k st1) as (st2 & -> & Hst2) end; [done..|].
    cbn [mbind result_bind].
    match goal with |- context [visit_children ?rec ?pa ?d ?pr ?pe ?l ?e _ _] =>
      pose proof (visit_children_ok rec fuel pa d pr pe l e v1 st2 IH (persist_info_shapes p w c Hn)
        (fun Hc => proj2 (is_path_app _ _) (conj (Hpre Hc) (proj1 (Hhash Hc)))) (added_wf _ _ _ Hadd) Hst2 ltac:(lia)) as Hk end.
    destruct (visit_children _ _ _ _ _ _ _ _ _) as [[[es v2] st3]|e]; [|exact Hk].
    destruct Hk as (Hst3 & areas & new & -> & Hadd2 & Hnew). split; [done|]. exists ((st_root_address sub, i) :: areas).
    split; [exact (added_trans _ _ _ _ _ Hadd Hadd2)|]. intros Hnil. destruct (Hnew Hnil) as (rs & Hrs & ->). by eapply branch_subtrie.
  - destruct (leaf_stats_ok i nb (st_depth sub) st1) as (st2 & -> & Hst2); [done..|]. cbn [mbind result_bind].
    split; [done|]. eexists. split; [exact Hadd|]. intros _. eapply leaf_subtrie; [exact Hma | exact Hd | | exact Hhash | done]. apply Hval. by eexists.
Qed.

End Visit.
