(* ===== verification/CheckerFree.v ===== *)
(** * The checker: the free lists

    What walking the free lists establishes, on a file with arbitrary bytes: it ends, it
    marks areas that overlap neither each other nor the areas already visited, and if it
    reports nothing then every list is a chain of areas of its class. *)

From S2P Require Import Prelude Primitives NodePath Node Codec NodeCodec Trie NodeStore Linear Header Alloc AllocCorrect Reap RangeSet.
From S2P Require Import MerkleSpec Rlp Hashing Checker CheckerRead CheckerTrie.

(** ** Classes *)

Lemma bind_ext_elem {A B} (f g : A -> list B) l : (forall x, x ∈ l -> f x = g x) -> l ≫= f = l ≫= g.
Proof.
  induction l as [|x l IH]; intros Hl; [done|]. rewrite !bind_cons, IH by (intros y Hy; apply Hl; by right). by rewrite Hl by left.
Qed.

Lemma next_area_index_cases i :
  AreaIndex_wf i -> (next_area_index i = Some (i + 1) /\ AreaIndex_wf (i + 1)) \/ (next_area_index i = None /\ i = NUM_AREA_SIZES - 1).
Proof.
  intros Hi. unfold next_area_index, AreaIndex_new, AreaIndex_wf, U8_MAX in *. change NUM_AREA_SIZES with 23 in *.
  destruct (Z.leb_spec (i + 1) 255); [|lia]. destruct (Z.ltb_spec (i + 1) 23); [left | right]; (split; [done | lia]).
Qed.

Lemma areas_from_ext f g i :
  AreaIndex_wf i -> (forall j, AreaIndex_wf j -> i <= j -> f j = g j) -> areas_from f i = areas_from g i.
Proof.
  intros Hi Hfg. unfold areas_from. apply bind_ext_elem. intros j Hj%elem_of_seqZ.
  unfold class_areas. rewrite Hfg; [done | unfold AreaIndex_wf in *; lia | lia].
Qed.

(** Empty lists in front are passed over. *)
Lemma areas_from_skip f i j :
  AreaIndex_wf j -> 0 <= i <= j -> (forall k, i <= k < j -> f k = []) -> areas_from f i = areas_from f j.
Proof.
  intros Hj Hij Hnil. unfold areas_from.
  replace (NUM_AREA_SIZES - i) with ((j - i) + (NUM_AREA_SIZES - j)) by lia. unfold AreaIndex_wf in Hj.
  rewrite seqZ_app, bind_app by lia. replace (i + (j - i)) with j by lia.
  rewrite (bind_ext_elem (class_areas f) (fun _ => [])) by (intros k Hk%elem_of_seqZ; unfold class_areas; by rewrite Hnil by lia).
  by replace (seqZ i (j - i) ≫= (fun _ => [])) with (@nil area) by (by induction (seqZ i (j - i))).
Qed.

Section Free.
Context `{VarIntLaws} {St : Type} `{WritableStorageLaws St} `{Digests}.
Variables (alg : NodeHashAlgorithm) (s : St).
Hypothesis Hbytes : is_bytes (store_bytes s).

(** From [head] the areas of the list are linked, all of class [i]. *)
Fixpoint read_chain (i : AreaIndex) (head : option LinearAddress) (l : list LinearAddress) : Prop :=
  match l with
  | [] => head = None
  | a :: l => head = Some a /\ exists next, FreeArea_from_storage s a = Ok (mkFreeArea next, i) /\ read_chain i next l
  end.

(** The iterator is in list [i]; [heads] says what each list from here on starts with. *)
Definition standing (lists : FreeLists) (it : FreeListsIterator) (i : AreaIndex) (heads : AreaIndex -> option LinearAddress) : Prop :=
  AreaIndex_wf i /\ fl_next_free_list_id it = next_area_index i /\
  (exists cur, fl_current_free_list it = Some cur /\ fi_id cur = i /\ fi_next_addr cur = heads i) /\
  forall j, AreaIndex_wf j -> i < j -> FreeLists_get lists j = heads j.

Lemma standing_new lists : standing lists (FreeListsIterator_new lists AreaIndex_MIN) AreaIndex_MIN (FreeLists_get lists).
Proof. split_and!; [done | done | by eexists | done]. Qed.

Lemma standing_move lists it i heads :
  standing lists it i heads ->
  (standing lists (move_to_next_free_list lists it) (i + 1) heads) \/
  (i = NUM_AREA_SIZES - 1 /\ move_to_next_free_list lists it = mkFreeListsIterator None None).
Proof.
  intros (Hi & Hn & _ & Hh). unfold move_to_next_free_list. rewrite Hn.
  destruct (next_area_index_cases i Hi) as [[-> Hi']|[-> ->]]; [left | by right].
  split_and!; [done | done | | intros j Hj Hlt; apply Hh; [done | lia]].
  eexists. split_and!; [done | done|]. cbn. apply Hh; [done | lia].
Qed.

(** One step of the iterator over all lists. *)
Lemma next_with_metadata_ok lists fuel it i heads :
  standing lists it i heads -> (Z.to_nat (NUM_AREA_SIZES - i) < fuel)%nat ->
  (exists it', FreeListsIterator_next_with_metadata fuel lists s it = Ok (None, it') /\ forall k, AreaIndex_wf k -> i <= k -> heads k = None) \/
  (exists j a parent it', AreaIndex_wf j /\ i <= j /\ (forall k, i <= k < j -> heads k = None) /\ heads j = Some a /\
    match FreeArea_from_storage s a with
    | Err e => FreeListsIterator_next_with_metadata fuel lists s it = Ok (Some (Err e, parent), it') /\ exists heads', standing lists it' j heads' /\ forall k, k <> j -> heads' k = heads k
    | Ok (fa, c) => FreeListsIterator_next_with_metadata fuel lists s it = Ok (Some (Ok (mkFreeAreaWithMetadata a c j), parent), it') /\
        exists heads', standing lists it' j heads' /\ heads' j = next_free_block fa /\ forall k, k <> j -> heads' k = heads k
    end).
Proof.
  revert it i heads. induction fuel as [|fuel IH]; intros it i heads Hst Hf; [lia|]. pose proof Hst as (Hi & Hn & (cur & Hcur & Hid & Hnext) & Hh).
  cbn [FreeListsIterator_next_with_metadata]. rewrite Hcur. unfold FreeListIterator_next_with_metadata, FreeListIterator_next. rewrite Hnext.
  destruct (heads i) as [a|] eqn:Ha.
  - right. exists i, a, (fi_parent cur). destruct (FreeArea_from_storage s a) as [[fa c]|e].
    + eexists. split_and!; [done | lia | lia | done | cbn; by rewrite Hid|].
      exists (fun k => if decide (k = i) then next_free_block fa else heads k). split_and!; [|by rewrite decide_True | intros k Hk; by rewrite decide_False].
      split_and!; [done | done | | intros j Hj Hlt; rewrite decide_False by lia; by apply Hh].
      eexists. split_and!; [done | done | cbn; by rewrite decide_True].
    + eexists. split_and!; [done | lia | lia | done | cbn; done|].
      exists (fun k => if decide (k = i) then None else heads k). split; [|intros k Hk; by rewrite decide_False].
      split_and!; [done | done | | intros j Hj Hlt; rewrite decide_False by lia; by apply Hh].
      eexists. split_and!; [done | done | cbn; by rewrite decide_True].
  - assert (Hst' : standing lists (mkFreeListsIterator (fl_next_free_list_id it) (Some cur)) i heads).
    { split_and!; [done | done | | done]. eexists. split_and!; [done | done | by rewrite Hnext, Ha]. }
    destruct (standing_move _ _ _ _ Hst') as [Hmv|[-> ->]].
    + pose proof Hmv as (Hi1 & _). unfold AreaIndex_wf in Hi1.
      destruct (IH _ _ _ Hmv ltac:(lia)) as [(it' & He & Hall)|(j & a & parent & it' & Hj & Hij & Hsk & Hja & Hm)].
      * left. exists it'. split; [done|]. intros k Hk Hik. destruct (decide (k = i)) as [->|]; [done | apply Hall; [done | lia]].
      * right. exists j, a, parent, it'. split_and!; [done | lia | | done | done].
        intros k Hk. destruct (decide (k = i)) as [->|]; [done | apply Hsk; lia].
    + left. destruct fuel; [change NUM_AREA_SIZES with 23 in Hf; lia|]. eexists. split; [done|]. intros k Hk Hik. unfold AreaIndex_wf in Hk.
      by replace k with (NUM_AREA_SIZES - 1) by lia.
Qed.

(** *** One area *)

Definition counts_wf (st : FreeListsStats) : Prop := forall i, AreaIndex_wf i -> is_Some (area_counts st !! AreaIndex_size i).

Lemma free_area_shape a fa c : FreeArea_from_storage s a = Ok (fa, c) -> AreaIndex_wf c /\ address_wf (next_free_block fa).
Proof.
  unfold FreeArea_from_storage. rewrite stream_from_law. cbn [mbind result_bind].
  destruct (from_storage_reader _) as [[[fa' c'] rest]|] eqn:E; [|done]. intros [= <- <-].
  exact (proj1 (fronts_free_area _ _ _ (Forall_drop _ _ _ Hbytes) E)).
Qed.

Lemma check_free_area_ok a c j parent v :
  areas_wf v -> LinearAddress_wf a -> AreaIndex_wf c ->
  match check_free_area (mkFreeAreaWithMetadata a c j) parent v with
  | Ok v' => c = j /\ added v v' [(a, c)]
  | Err e => e <> CheckerPanic
  end.
Proof.
  intros Hv Ha Hc. unfold check_free_area, check_area_aligned. cbn [fm_addr fm_area_index fm_free_list_id].
  destruct (is_aligned a) eqn:Hal; [|done]. cbn [negb mbind result_bind]. destruct (Z.eqb_spec j c) as [<-|]; [|done]. cbn [negb].
  pose proof (insert_area_spec v a (AreaIndex_size j) (FreeList parent) Hv Ha) as Hs. pose proof (AreaIndex_size_range j Hc) as Hr.
  change MAX_AREA_SIZE with 16777216 in Hr. change MIN_AREA_SIZE with 16 in Hr.
  destruct (insert_area _ _ _ _) as [v'|e] eqn:E; [|intros ->; apply Hs; ulia]. split; [done|].
  eapply added_one; [done | done | done | by apply Z.eqb_eq | exact E].
Qed.

(** *** The loop *)

Definition chains_from (i : AreaIndex) (heads : AreaIndex -> option LinearAddress) (areas : list area) : Prop :=
  exists free, (forall j, AreaIndex_wf j -> i <= j -> read_chain j (heads j) (free j)) /\ areas = areas_from free i.

Lemma chains_from_nil i heads : AreaIndex_wf i -> (forall k, AreaIndex_wf k -> i <= k -> heads k = None) -> chains_from i heads [].
Proof.
  intros Hi Hn. exists (fun _ => []). split; [done|]. symmetry. unfold areas_from.
  replace (seqZ i (NUM_AREA_SIZES - i) ≫= class_areas (fun _ => [])) with (@nil area); [done|]. by induction (seqZ i (NUM_AREA_SIZES - i)).
Qed.

(** The first area found is that of list [j]; the lists before it are empty. *)
Lemma chains_from_cons i j a fa heads heads' areas :
  AreaIndex_wf i -> AreaIndex_wf j -> i <= j -> (forall k, i <= k < j -> heads k = None) -> heads j = Some a -> FreeArea_from_storage s a = Ok (fa, j) ->
  heads' j = next_free_block fa -> (forall k, k <> j -> heads' k = heads k) -> chains_from j heads' areas -> chains_from i heads ((a, j) :: areas).
Proof.
  intros Hi Hj Hij Hsk Hhj Hfa Hnj Hne (free & Hch & ->).
  set (free' := fun k => if decide (k < j) then [] else if decide (k = j) then a :: free j else free k). exists free'.
  assert (Hlt : forall k, k < j -> free' k = []) by (intros k Hk; unfold free'; by rewrite decide_True).
  assert (Heq : free' j = a :: free j) by (unfold free'; rewrite decide_False by lia; by rewrite decide_True).
  assert (Hgt : forall k, j < k -> free' k = free k) by (intros k Hk; unfold free'; rewrite !decide_False by lia; done).
  split.
  - intros k Hk Hik. destruct (Z.lt_trichotomy k j) as [Hlo|[->|Hhi]].
    + rewrite Hlt by done. cbn. apply Hsk. lia.
    + rewrite Heq. cbn [read_chain]. split; [done|]. exists (next_free_block fa). split; [by destruct fa|]. rewrite <- Hnj. apply Hch; [done | lia].
    + rewrite Hgt, <- (Hne k) by lia. apply Hch; [done | lia].
  - unfold AreaIndex_wf in Hi. rewrite (areas_from_skip free' i j) by (done || lia || (intros k Hk; apply Hlt; lia)).
    rewrite !areas_from_next by done. unfold class_areas. rewrite Heq. cbn. f_equal. f_equal.
    destruct (next_area_index_cases j Hj) as [[-> Hj']|[-> _]]; [|done]. cbn. apply areas_from_ext; [done|]. intros k Hk Hjk. symmetry. apply Hgt. lia.
Qed.

Lemma visit_freelist_ended n lists errors v st fuel :
  visit_freelist_loop (S n) (S fuel) lists s (mkFreeListsIterator None None) errors v st = Ok (errors, v, st).
Proof. done. Qed.

(** What the loop establishes from list [i] on. *)
Definition loop_outcome (i : AreaIndex) (heads : AreaIndex -> option LinearAddress) (errors : list CheckerError) (v : LinearAddressRangeSet)
  (r : result failure (list CheckerError * LinearAddressRangeSet * FreeListsStats)) : Prop :=
  match r with
  | Err e => read_panics alg s e
  | Ok (es, v', st') => counts_wf st' /\ exists areas new, es = errors ++ new /\ added v v' areas /\ (new = [] -> chains_from i heads areas)
  end.

Lemma loop_outcome_error i heads i' heads' errors e v r : loop_outcome i' heads' (errors ++ [e]) v r -> loop_outcome i heads errors v r.
Proof.
  destruct r as [[[es v'] st']|]; [|done]. intros (Hc & areas & new & -> & Hadd & _). split; [done|]. exists areas, (e :: new).
  split_and!; [by rewrite <- app_assoc | done | done].
Qed.

Definition loop_ok (n : nat) : Prop := forall lists it i heads errors v st,
  standing lists it i heads -> (forall j, AreaIndex_wf j -> i <= j -> address_wf (heads j)) -> areas_wf v -> counts_wf st ->
  (room v + Z.to_nat (NUM_AREA_SIZES - i) < n)%nat ->
  loop_outcome i heads errors v (visit_freelist_loop n (S (Z.to_nat NUM_AREA_SIZES)) lists s it errors v st).

(** After an error the loop goes on with the next list. *)
Lemma loop_next_list n lists it i heads i0 heads0 errors e v st :
  loop_ok n -> standing lists it i heads -> (forall j, AreaIndex_wf j -> i < j -> address_wf (heads j)) -> areas_wf v -> counts_wf st ->
  (room v + Z.to_nat (NUM_AREA_SIZES - i) <= n)%nat ->
  loop_outcome i0 heads0 errors v (visit_freelist_loop n (S (Z.to_nat NUM_AREA_SIZES)) lists s (move_to_next_free_list lists it) (errors ++ [e]) v st).
Proof.
  intros IH Hst Haddr Hv Hc Hn. pose proof Hst as (Hi & _). unfold AreaIndex_wf in Hi.
  destruct (standing_move _ _ _ _ Hst) as [Hmv|[-> ->]].
  - apply (loop_outcome_error i0 heads0 (i + 1) heads errors e). apply IH; [done | | done | done | lia]. intros j Hj Hij. apply Haddr; [done | lia].
  - destruct n; [lia|]. rewrite visit_freelist_ended. split; [done|]. exists [], [e]. split_and!; [done | by apply added_nil | done].
Qed.

Lemma visit_freelist_loop_ok n : loop_ok n.
Proof.
  induction n as [|n IH]; intros lists it i heads errors v st Hst Haddr Hv Hc Hn; [lia|].
  pose proof Hst as (Hi & _). assert (Hi' := Hi). unfold AreaIndex_wf in Hi'. cbn [visit_freelist_loop].
  destruct (next_with_metadata_ok lists (S (Z.to_nat NUM_AREA_SIZES)) it i heads Hst ltac:(lia)) as [(it' & -> & Hnone)|(j & a & parent & it' & Hj & Hij & Hsk & Hja & Hm)].
  { cbn [mbind result_bind]. split; [done|]. exists [], []. split_and!; [by rewrite app_nil_r | by apply added_nil|]. intros _. by apply chains_from_nil. }
  pose proof (Haddr j Hj Hij) as Ha. rewrite Hja in Ha. assert (Hj' := Hj). unfold AreaIndex_wf in Hj'.
  assert (Hskip : forall e heads', standing lists it' j heads' -> (forall k, k <> j -> heads' k = heads k) ->
    loop_outcome i heads errors v (visit_freelist_loop n (S (Z.to_nat NUM_AREA_SIZES)) lists s (move_to_next_free_list lists it') (errors ++ [e]) v st)).
  { intros e heads' Hst' Hne. apply (loop_next_list n lists it' j heads'); [done | done | | done | done | lia].
    intros k Hk Hjk. rewrite Hne by lia. apply Haddr; [done | lia]. }
  destruct (FreeArea_from_storage s a) as [[fa c]|e] eqn:Efa.
  2: { destruct Hm as (-> & heads' & Hst' & Hne). cbn [mbind result_bind].
       apply free_area_fails in Efa as [x ->]. by apply (Hskip _ heads'). }
  destruct Hm as (-> & heads' & Hst' & Hnx & Hne). cbn [mbind result_bind]. destruct (free_area_shape _ _ _ Efa) as [Hcw Hnw].
  pose proof (check_free_area_ok a c j parent v Hv Ha Hcw) as Hck.
  destruct (check_free_area _ _ _) as [v1|e]; [|destruct e; try done; by apply (Hskip _ heads')]. destruct Hck as [-> Hadd].
  cbn [fm_area_index fm_addr]. destruct (bump_count_ok (AreaIndex_size j) (area_counts st) (Hc j Hj)) as (counts & -> & Hc'). cbn [mbind result_bind].
  destruct (added_fits _ _ _ _ Hadd) as [Hlo Hhi]. unfold NODE_STORE_START_ADDR, HEADER_SIZE in Hlo. pose proof (AreaIndex_size_range j Hj) as Hr. change MIN_AREA_SIZE with 16 in Hr.
  destruct (bump_pages_ok a (AreaIndex_size j) (fl_area_extra_unaligned_page st)) as [pages ->]; [lia | lia|]. cbn [mbind result_bind].
  pose proof (added_room _ _ _ Hadd) as Hroom. cbn [length] in Hroom.
  assert (Haddr' : forall k, AreaIndex_wf k -> j <= k -> address_wf (heads' k)).
  { intros k Hk Hjk. destruct (decide (k = j)) as [->|Hkj]; [by rewrite Hnx | rewrite Hne by done; apply Haddr; [done | lia]]. }
  specialize (IH lists it' j heads' errors v1 (mkFreeListsStats counts pages) Hst' Haddr' (added_wf _ _ _ Hadd) ltac:(intros k Hk; apply Hc', Hc, Hk) ltac:(lia)).
  destruct (visit_freelist_loop _ _ _ _ _ _ _ _) as [[[es v'] st']|e]; [|exact IH].
  destruct IH as (Hst1 & areas & new & -> & Hadd2 & Hch). split; [done|]. exists ((a, j) :: areas), new.
  split_and!; [done | exact (added_trans _ _ _ _ _ Hadd Hadd2)|]. intros Hnil. by apply (chains_from_cons i j a fa heads heads' areas); auto.
Qed.

End Free.
