(* ===== verification/CheckerSound.v ===== *)
(** * The checker: what a clean report means

    On a file with arbitrary bytes the check ends; and a report without errors means that
    the areas of the trie and of the free lists are a partition of the file, that the trie
    can be read, and that its root hash is right. *)

From S2P Require Import Prelude Primitives NodePath Node Codec NodeCodec Trie NodeStore Linear Header Alloc AllocCorrect Reap RangeSet.
From S2P Require Import MerkleSpec Rlp Hashing HashSpec Checker CheckerRead CheckerTrie CheckerFree.

#[export] Instance mem_dec x m : Decision (mem x m).
Proof.
  refine (cast_if (decide (Exists (fun y : Z * Z => y.2 <= x < y.1) m))).
  - abstract (apply Exists_exists in e as ([e s] & Hin & Hx); by exists e, s).
  - abstract (intros (e & s & Hin & Hx); apply n, Exists_exists; by exists (e, s)).
Defined.

Section Sound.
Context `{VarIntLaws} {St : Type} `{WritableStorageLaws St} `{Digests}.
Variables (alg : NodeHashAlgorithm) (hash_check : bool) (s : St).
Hypothesis Hbytes : is_bytes (store_bytes s).

(** Nothing is visited yet. *)
Lemma new_areas_ok size v : u64 size -> LinearAddressRangeSet_new size = Ok v -> areas_wf v /\ max_addr v = size /\ range_set v = [] /\ HEADER_SIZE <= size.
Proof.
  intros Hs. unfold LinearAddressRangeSet_new, LinearAddress_new. destruct (Z.ltb_spec size HEADER_SIZE) as [|Hlo]; [done|].
  destruct (Z.eqb_spec size 0) as [|Hnz]; cbn; [done|]. intros [= <-].
  split_and!; [|done | done | lia]. split; cbn; [by split; constructor | | unfold NODE_STORE_START_ADDR, HEADER_SIZE in *; ulia | done].
  intros y Hy. by apply not_elem_of_nil in Hy.
Qed.

(** No leaked range is left: the areas cover the store. *)
Lemma no_leaks v c : areas_wf v -> area_complement v = Ok c -> range_set c = [] -> forall x, NODE_STORE_START_ADDR <= x < max_addr v -> mem x (range_set v).
Proof.
  intros Hv Hc Hnil x Hx. destruct (area_complement_spec v Hv) as (c' & Hc' & _ & Hm & _). rewrite Hc in Hc'. injection Hc' as <-.
  destruct (decide (mem x (range_set v))) as [|Hn]; [done|]. exfalso. pose proof (proj2 (Hm x) (conj Hx Hn)) as Hin. rewrite Hnil in Hin.
  by apply mem_nil in Hin.
Qed.

(** The trie of a revision, in the areas of the list. *)
Definition revision_ok (root : option MaybePersisted) (root_hash : option TrieHash) (areas : list area) : Prop :=
  match root, root_hash with
  | Some root, Some h => exists a t, as_linear_address root = Some a /\ subtrie_ok alg hash_check s a (Hash h) [] t areas
  | _, _ => areas = []
  end.

Lemma check_trie_ok fuel root root_hash v :
  areas_wf v -> (forall r a, root = Some r -> as_linear_address r = Some a -> LinearAddress_wf a) -> (room v < fuel)%nat ->
  match check_trie alg hash_check s fuel root root_hash v with
  | Err e => visit_panics alg hash_check s e
  | Ok (errs, v', _) => exists areas, added v v' areas /\ (errs = [] -> revision_ok root root_hash areas)
  end.
Proof.
  intros Hv Hroot Hfuel. unfold check_trie, revision_ok.
  destruct root as [r|]; [|by exists []; split; [apply added_nil|]]. destruct root_hash as [h|]; [|by exists []; split; [apply added_nil|]].
  destruct (as_linear_address r) as [a|] eqn:Ea; [|by exists []; split; [apply added_nil|]].
  pose proof (visit_trie_helper_ok alg hash_check s Hbytes fuel (mkSubTrie a (Hash h) Root 0 [] false) v TrieStats_default Hv stats_default_wf
    (Hroot r a eq_refl Ea) ltac:(intros _; by eexists) ltac:(intros _; constructor) Hfuel) as Ho. unfold visit_trie.
  destruct (visit_trie_helper _ _ _ _ _ _ _) as [[[errs v'] st]|e]; [|exact Ho]. destruct Ho as (_ & areas & Hadd & Hok).
  exists areas. split; [done|]. intros Hnil. destruct (Hok Hnil) as (t & Ht). by exists a, t.
Qed.

Lemma visit_freelist_ok n lists v :
  areas_wf v -> (forall j, AreaIndex_wf j -> address_wf (FreeLists_get lists j)) -> (room v + Z.to_nat NUM_AREA_SIZES < n)%nat ->
  match visit_freelist n s lists v with
  | Err e => read_panics alg s e
  | Ok (errs, v', _) => exists areas, added v v' areas /\
      (errs = [] -> exists free, (forall j, AreaIndex_wf j -> read_chain s j (FreeLists_get lists j) (free j)) /\ areas = free_areas free)
  end.
Proof.
  intros Hv Hl Hn. unfold visit_freelist.
  pose proof (visit_freelist_loop_ok alg s Hbytes n lists _ _ _ [] v FreeListsStats_default (standing_new lists) ltac:(by intros j Hj _; apply Hl) Hv
    ltac:(intros i Hi; by apply zero_counts_all) Hn) as Ho.
  destruct (visit_freelist_loop _ _ _ _ _ _ _ _) as [[[errs v'] st]|e]; [|exact Ho]. destruct Ho as (_ & areas & new & -> & Hadd & Hok).
  exists areas. split; [done|]. intros Hnil. destruct (Hok Hnil) as (free & Hch & ->). exists free. split; [|done].
  intros j Hj. apply Hch; [done | by destruct Hj].
Qed.

(** C11: the check of a file ends, whatever bytes the file has, within a recursion depth and
    a number of free areas bounded by its size: it returns a report, or it panics because reading some
    node panics or, if hashes are checked, because some node has a byte that is not a nibble in its path.
    If the report has no errors, the trie below the root can be read in full,
    each node within its area, every list of free areas is a chain of areas of its class, and the areas of the nodes
    and of the free lists do not overlap and leave no byte after the header out; no value
    has an impossible key; and if hashes are checked, all paths are nibbles and under MerkleDB the root hash is the hash
    of the trie. *)
Theorem check_sound fuel root root_hash header :
  u64 (h_size header) -> (forall j, AreaIndex_wf j -> address_wf (FreeLists_get (h_free_lists header) j)) ->
  (forall r a, root = Some r -> as_linear_address r = Some a -> LinearAddress_wf a) -> h_size header / 16 + NUM_AREA_SIZES < Z.of_nat fuel ->
  match check alg hash_check s fuel root root_hash header with
  | Err e => visit_panics alg hash_check s e
  | Ok report => rp_errors report = [] -> exists nodes free,
      revision_ok root root_hash nodes /\ (forall j, AreaIndex_wf j -> read_chain s j (FreeLists_get (h_free_lists header) j) (free j)) /\
      tiling (h_size header) (nodes ++ free_areas free) /\
      forall x, NODE_STORE_START_ADDR <= x < h_size header -> covers (nodes ++ free_areas free) x
  end.
Proof.
  intros Hsize Hlists Hroot Hfuel. unfold check. destruct (LinearAddressRangeSet_new _) as [v|e] eqn:Ev.
  2: { unfold LinearAddressRangeSet_new, LinearAddress_new in Ev. destruct (Z.ltb_spec (h_size header) HEADER_SIZE); [by injection Ev as <-|].
       destruct (Z.eqb_spec (h_size header) 0) as [E0|]; [|done]. rewrite E0 in *. unfold HEADER_SIZE in *. lia. }
  destruct (new_areas_ok _ _ Hsize Ev) as (Hv & Hmax & Hemp & Hlo).
  assert (Hroom : (room v + Z.to_nat NUM_AREA_SIZES < fuel)%nat).
  { unfold room. rewrite Hmax, (areas_bytes _ Hv), Hemp. cbn [total foldr]. unfold NODE_STORE_START_ADDR.
    assert ((h_size header - HEADER_SIZE - 0) / 16 <= h_size header / 16) by (apply Z.div_le_mono; unfold HEADER_SIZE; lia).
    assert (0 <= h_size header / 16) by (apply Z.div_pos; unfold HEADER_SIZE in *; lia). change NUM_AREA_SIZES with 23 in *. lia. }
  pose proof (check_trie_ok fuel root root_hash v Hv Hroot ltac:(lia)) as Ht.
  destruct (check_trie _ _ _ _ _ _ _) as [[[es1 v1] st1]|e]; [|exact Ht]. destruct Ht as (nodes & Hadd1 & Hok1). cbn [mbind result_bind].
  pose proof (added_room _ _ _ Hadd1) as Hr1.
  pose proof (visit_freelist_ok fuel (h_free_lists header) v1 (added_wf _ _ _ Hadd1) Hlists ltac:(lia)) as Hf.
  destruct (visit_freelist _ _ _ _) as [[[es2 v2] st2]|e]; [|by left]. destruct Hf as (areas & Hadd2 & Hok2). cbn [mbind result_bind].
  destruct (area_complement_spec v2 (added_wf _ _ _ Hadd2)) as (c & Hc & _). rewrite Hc. cbn [mbind result_bind rp_errors].
  intros [-> [-> Hleak]%app_eq_nil]%app_eq_nil. destruct (Hok2 eq_refl) as (free & Hch & ->).
  pose proof (added_trans _ _ _ _ _ Hadd1 Hadd2) as Hadd. exists nodes, free. split_and!; [by apply Hok1 | done | rewrite <- Hmax; apply Hadd|].
  intros x Hx. rewrite <- Hmax, <- (added_max _ _ _ Hadd) in Hx. case_bool_decide as Hcn; [|done].
  apply (no_leaks v2 c (added_wf _ _ _ Hadd2) Hc Hcn) in Hx. apply (added_mem _ _ _ Hadd) in Hx as [Hx|Hx]; [|done].
  rewrite Hemp in Hx. by apply mem_nil in Hx.
Qed.

(** C29: a corrupt path stops the checker.  With hash checking, a visit of a stored node panics, instead of
    reporting the node, if the node passes the checks before (its area is aligned and holds it, and its value
    has a possible key) and its path has a byte that is not a nibble: no reader of nodes refuses such a byte, and hashing
    the node does not expect it. *)
Theorem corrupt_path_panics fuel sub v st i n nb :
  is_path (st_path_prefix sub) -> is_aligned (st_root_address sub) = true ->
  area_index_and_size s (st_root_address sub) = Ok (i, AreaIndex_size i) ->
  read_node_with_num_bytes_from_disk alg s (st_root_address sub) = Ok (n, nb) -> nb <= AreaIndex_size i ->
  (is_Some (node_value n) -> is_valid_key alg (st_path_prefix sub ++ partial_path n) = true) ->
  Exists (fun x => 16 <= x) (partial_path n) ->
  visit_trie_helper alg true s (S fuel) sub v st = Err Panic.
Proof.
  intros Hp Hal Hi Hn Hfit Hkey Hbad. cbn [visit_trie_helper]. unfold check_area_aligned. rewrite Hal. cbn [negb].
  rewrite Hi. cbn [report_io]. rewrite Hn. cbn [report_io]. destruct (Z.ltb_spec (AreaIndex_size i) nb); [lia|].
  assert (Hk : bool_decide (is_Some (node_value n)) && negb (is_valid_key alg (st_path_prefix sub ++ partial_path n)) = false).
  { case_bool_decide as Hs; [|done]. by rewrite (Hkey Hs). }
  rewrite Hk. destruct (read_node_shape alg s Hbytes _ _ _ Hn) as ([Hb _] & _).
  pose proof (node_ethhash_ok alg n (st_path_prefix sub) (st_has_peers sub) Hb Hp) as Hh.
  destruct (compute_node_ethhash _ _ _ _) as [h|e]; cbn [mbind result_bind]; [|by destruct Hh as [-> _]].
  apply Exists_exists in Hbad as (x & Hx & Hge). destruct Hh as [Hn' _]. unfold is_path in Hn'. rewrite Forall_forall in Hn'.
  specialize (Hn' x Hx). unfold is_nibble in Hn'. lia.
Qed.

End Sound.

(** ** A file *)

Section Witness.
Import Leb128 FirstBytes.

Definition w_node : Node := Leaf (mkLeaf [1; 2] [7]).

Definition padded (b : bytes) : bytes := take 16 (b ++ replicate 16 0).

(** After the header: the root in an area of 16 bytes, then a free area of 16 bytes. *)
Definition w_file : MemStore :=
  mkMemStore (replicate 2048 0 ++ padded (match as_bytes MerkleDB w_node [] with Ok (_, b) => b | Err _ => [] end) ++
    padded (FreeArea_as_bytes (mkFreeArea None) 0)).

Definition w_header : NodeStoreHeader :=
  set_size 2080 (set_free_lists (FreeLists_set FreeLists_new 0 (Some 2064)) (NodeStoreHeader_new (replicate 32 7) [] [] MerkleDB)).

Definition w_root_hash : TrieHash := match hash_node MerkleDB w_node [] with Ok (Hash h) => h | _ => [] end.

Lemma check_sound_witness :
  (exists report, check MerkleDB true w_file 160 (Some (Persisted 2048)) (Some w_root_hash) w_header = Ok report /\ rp_errors report = []) /\
  exists nodes free, revision_ok MerkleDB true w_file (Some (Persisted 2048)) (Some w_root_hash) nodes /\ tiling 2080 (nodes ++ free_areas free).
Proof.
  assert (Hr : exists report, check MerkleDB true w_file 160 (Some (Persisted 2048)) (Some w_root_hash) w_header = Ok report /\ rp_errors report = []).
  { destruct (check MerkleDB true w_file 160 (Some (Persisted 2048)) (Some w_root_hash) w_header) as [r|e] eqn:E.
    - exists r. split; [done|]. apply (f_equal (fun x => match x with Ok r => rp_errors r | Err _ => [UnpersistedRoot] end)) in E.
      rewrite <- E. vm_compute. reflexivity.
    - apply (f_equal (fun x => match x with Ok r => true | Err _ => false end)) in E. vm_compute in E. discriminate. }
  split; [exact Hr|].
  assert (Hb : is_bytes (store_bytes w_file)) by (apply (bool_decide_unpack _); vm_compute; exact I).
  assert (Hl : forall j, AreaIndex_wf j -> address_wf (FreeLists_get (h_free_lists w_header) j)).
  { intros j Hj. unfold w_header. cbn [h_free_lists set_size set_free_lists]. destruct (decide (j = 0)) as [->|Hne].
    - vm_compute. done.
    - unfold FreeLists_get, FreeLists_set, FreeLists_new. rewrite list_lookup_insert_ne by (unfold AreaIndex_wf in Hj; lia).
      destruct (replicate _ None !! Z.to_nat j) as [o|] eqn:Eo; [|done]. by apply lookup_replicate in Eo as [-> _]. }
  pose proof (check_sound MerkleDB true w_file Hb 160 (Some (Persisted 2048)) (Some w_root_hash) w_header ltac:(done) Hl
    ltac:(intros r a [= <-] [= <-]; done) ltac:(vm_compute; reflexivity)) as Hs.
  destruct Hr as (r & Hc & He). rewrite Hc in Hs. destruct (Hs He) as (nodes & free & Hrev & _ & Ht & _). by exists nodes, free.
Defined.

(** The same file with a byte of the path of the root changed. *)
Definition w_bad_file : MemStore :=
  mkMemStore (replicate 2048 0 ++ padded (match as_bytes MerkleDB (Leaf (mkLeaf [1; 18] [7])) [] with Ok (_, b) => b | Err _ => [] end) ++
    padded (FreeArea_as_bytes (mkFreeArea None) 0)).

Lemma corrupt_path_panics_witness :
  check MerkleDB true w_bad_file 160 (Some (Persisted 2048)) (Some w_root_hash) w_header = Err Panic /\
  visit_trie_helper MerkleDB true w_bad_file 160 (mkSubTrie 2048 (Hash w_root_hash) Root 0 [] false)
    (mkRangeSet [] 2080 0) TrieStats_default = Err Panic.
Proof.
  split; [vm_compute; reflexivity|].
  assert (Hb : is_bytes (store_bytes w_bad_file)) by (apply (bool_decide_unpack _); vm_compute; exact I).
  apply (corrupt_path_panics MerkleDB w_bad_file Hb 159 _ _ _ 0 (Leaf (mkLeaf [1; 18] [7])) 6).
  - constructor.
  - vm_compute; reflexivity.
  - vm_compute; reflexivity.
  - vm_compute; reflexivity.
  - vm_compute; discriminate.
  - intros _. vm_compute; reflexivity.
  - right. left. lia.
Defined.

End Witness.
