(* ===== verification/CheckerSplit.v ===== *)
(** * The checker: splitting leaked ranges

    The areas that a leaked range is split into lie end to end and fill it. *)

From S2P Require Import Prelude Primitives NodePath Node Codec NodeCodec Trie NodeStore Linear Header Alloc AllocCorrect Reap RangeSet.
From S2P Require Import Rlp Hashing Checker CheckerRead CheckerTrie CheckerFree.

(** Areas end to end from [a] to [b]. *)
Fixpoint end_to_end (a b : LinearAddress) (l : list area) : Prop :=
  match l with
  | [] => a = b
  | x :: l => x.1 = a /\ AreaIndex_wf x.2 /\ end_to_end (area_end x) b l
  end.

Lemma end_to_end_snoc a b l i : end_to_end a b l -> AreaIndex_wf i -> end_to_end a (b + AreaIndex_size i) (l ++ [(b, i)]).
Proof.
  revert a. induction l as [|x l IH]; intros a Hl Hi; cbn in *; [by subst | ]. destruct Hl as (Hx & Hxi & Hl). split_and!; [done | done | by apply IH].
Qed.

Lemma end_to_end_app a b c l1 l2 : end_to_end a b l1 -> end_to_end b c l2 -> end_to_end a c (l1 ++ l2).
Proof.
  revert a. induction l1 as [|x l1 IH]; intros a Hl Hr; cbn in *; [by subst|]. destruct Hl as (Hx & Hxi & Hl). split_and!; [done | done | by apply IH].
Qed.

Lemma AreaIndex_size_bounds i : AreaIndex_wf i -> 16 <= AreaIndex_size i <= 16777216 /\ AreaIndex_size i mod 16 = 0.
Proof.
  intros Hi. pose proof (AreaIndex_size_range i Hi) as Hr. pose proof (AreaIndex_size_mult i Hi) as Hm.
  change MAX_AREA_SIZE with 16777216 in Hr. change MIN_AREA_SIZE with 16 in *. done.
Qed.

Lemma advance_fits a n : a + n <= U64_MAX -> advance a n = Some (a + n).
Proof. intros Ha. by apply checked_add_u64_Some. Qed.

Lemma area_size_iter_spec i size : (i, size) ∈ area_size_iter -> AreaIndex_wf i /\ size = AreaIndex_size i.
Proof.
  assert (Hall : Forall (fun p : AreaIndex * Z => (0 <=? p.1) && (p.1 <? NUM_AREA_SIZES) && (p.2 =? AreaIndex_size p.1) = true) area_size_iter).
  { apply (bool_decide_unpack _). vm_compute. exact I. }
  intros Hin. apply (proj1 (Forall_forall _ _) Hall) in Hin. cbn [fst snd] in Hin.
  apply andb_true_iff in Hin as [[H1%Z.leb_le H2%Z.ltb_lt]%andb_true_iff H3%Z.eqb_eq]. by split.
Qed.

Section Split.
Context `{VarIntLaws} {St : Type} `{!ReadableStorage St} `{!WritableStorage St} `{!ReadableStorageLaws St} `{!WritableStorageLaws St}.
Variable alg : NodeHashAlgorithm.

(** *** Reading *)

Lemma same_stream_bytes (s s' : St) : stream_from s' = stream_from s -> store_bytes s' = store_bytes s.
Proof.
  intros Hs. pose proof (stream_from_law s 0) as Hz. rewrite <- Hs, stream_from_law in Hz. cbn [Z.to_nat] in Hz. rewrite !drop_0 in Hz. congruence.
Qed.

Lemma read_node_from_disk_bytes (s s' : St) a r : read_node_from_disk alg s a = (r, s') -> store_bytes s' = store_bytes s.
Proof.
  unfold read_node_from_disk. destruct (read_cached_node s a) as [[n|] s1] eqn:E; apply read_cached_node_law in E as (_ & _ & Hs).
  - intros [= _ <-]. by apply same_stream_bytes.
  - destruct (read_node_with_num_bytes_from_disk alg s1 a) as [[n nb]|e]; intros [= _ <-]; [|by apply same_stream_bytes].
    apply same_stream_bytes. rewrite <- Hs. destruct (cache_read_strategy s1); [done | destruct (is_leaf n); [done|] |]; apply cache_node_law.
Qed.

Lemma read_panics_bytes (s s' : St) e : store_bytes s' = store_bytes s -> read_panics alg s' e -> read_panics alg s e.
Proof.
  intros Hs [-> [a Ha]]. split; [done|]. exists a. rewrite <- Ha. unfold read_node_with_num_bytes_from_disk. by rewrite !stream_from_law, Hs.
Qed.

Lemma read_node_from_disk_fails (s s' : St) a e : read_node_from_disk alg s a = (Err e, s') -> (exists x, e = IoFailure x) \/ read_panics alg s e.
Proof.
  unfold read_node_from_disk. destruct (read_cached_node s a) as [[n|] s1] eqn:E; apply read_cached_node_law in E as (_ & _ & Hs); [done|].
  destruct (read_node_with_num_bytes_from_disk alg s1 a) as [[n nb]|e'] eqn:Er; [done|]. intros [= <- <-].
  apply read_node_fails in Er as [Hx|Hp]; [by left | right]. eapply read_panics_bytes; [|exact Hp]. by apply same_stream_bytes.
Qed.

Lemma stored_area_info_ok (s : St) a :
  is_bytes (store_bytes s) ->
  match read_stored_area_info s a with
  | Ok info => AreaIndex_wf (sai_index info) /\ sai_size info = AreaIndex_size (sai_index info)
  | Err e => exists x, e = IoFailure x
  end.
Proof.
  intros Hb. unfold read_stored_area_info. rewrite stream_from_law. cbn [mbind result_bind].
  assert (Hf : fronts read_stored_area_info_from_reader (fun x => AreaIndex_wf (sai_index x) /\ sai_size x = AreaIndex_size (sai_index x))).
  { eapply fronts_bind; [apply fronts_byte|]. intros b Hu. eapply (fronts_bind _ _ AreaIndex_wf); [by apply fronts_class|].
    intros j Hj. eapply fronts_bind; [apply fronts_byte|]. intros m _. eapply (fronts_bind _ _ (fun _ => True)); [|intros k _; by apply fronts_ret].
    case_match; [|by apply fronts_ret]. eapply fronts_bind; [apply fronts_varint|]. intros ? _. by apply fronts_ret. }
  destruct (read_stored_area_info_from_reader _) as [[x rest]|e] eqn:E; cbn; [exact (proj1 (Hf _ _ _ (Forall_drop _ _ _ Hb) E))|].
  by apply (fails_area_info (fun e => exists x, e = IoFailure x)) in E; [|by eexists].
Qed.

Lemma read_leaked_area_ok (s : St) a r s' :
  is_bytes (store_bytes s) -> read_leaked_area alg s a = (r, s') ->
  store_bytes s' = store_bytes s /\
  match r with
  | Ok (i, size) => AreaIndex_wf i /\ size = AreaIndex_size i
  | Err e => (exists x, e = IoFailure x) \/ read_panics alg s e
  end.
Proof.
  intros Hb. unfold read_leaked_area. pose proof (stored_area_info_ok s a Hb) as Hinfo.
  destruct (read_stored_area_info s a) as [info|e]; [|intros [= <- <-]; by split; [|left]]. destruct (sai_kind info); [by intros [= <- <-]|].
  destruct (read_node_from_disk alg s a) as [r1 s1] eqn:E. pose proof (read_node_from_disk_bytes _ _ _ _ E).
  destruct r1 as [n|e]; intros [= <- <-]; (split; [done|]); [done | by eapply read_node_from_disk_fails].
Qed.

(** *** The loops *)

Lemma mod16_step x y : y mod 16 = 0 -> (x - y) mod 16 = x mod 16.
Proof. intros Hy. rewrite Zminus_mod, Hy, Z.sub_0_r. by apply Z.mod_mod. Qed.

(** What the first loop leaves: areas up to some address. *)
Lemma split_stored_ok n (s : St) start cur stop l :
  is_bytes (store_bytes s) -> 0 < cur <= stop -> stop + 16777216 <= U64_MAX -> stop - cur < 16 * Z.of_nat n -> end_to_end start cur l ->
  match (split_stored alg n s cur stop l).1 with
  | Err e => read_panics alg s e
  | Ok (l', cur', full) => end_to_end start cur' l' /\ (stop - cur') mod 16 = (stop - cur) mod 16 /\ cur <= cur' <= stop /\ (full = true -> cur' = stop)
  end.
Proof.
  revert s cur l. induction n as [|n IH]; intros s cur l Hb Hcur Hmax Hn Hl; cbn [split_stored]; [lia|].
  destruct (read_leaked_area alg s cur) as [r s1] eqn:Er. destruct (read_leaked_area_ok s cur r s1 Hb Er) as [Hb1 Hok].
  destruct r as [[i size]|e].
  2: { destruct Hok as [[x ->]|[-> Hp]]; cbn [fst]; [split_and!; try done; lia | done]. }
  destruct Hok as [Hi ->]. destruct (AreaIndex_size_bounds i Hi) as [Hsz Hm].
  rewrite advance_fits by lia.
  destruct (Z.compare_spec (cur + AreaIndex_size i) stop) as [He|Hlt|Hgt]; cbn [fst].
  - split_and!; [by apply end_to_end_snoc | | lia | lia | done]. rewrite He, <- (mod16_step (stop - cur) (AreaIndex_size i)) by done. f_equal. lia.
  - specialize (IH s1 (cur + AreaIndex_size i) (l ++ [(cur, i)]) ltac:(by rewrite Hb1) ltac:(lia) Hmax ltac:(lia) ltac:(by apply end_to_end_snoc)).
    destruct (split_stored _ _ _ _ _ _) as [[[[l' cur'] full]|e] s2]; cbn [fst] in *; [|by eapply read_panics_bytes].
    destruct IH as (Hl' & Hmod & Hc' & Hfull). split_and!; [done | | lia | lia | done].
    rewrite Hmod, <- (mod16_step (stop - cur) (AreaIndex_size i)) by done. f_equal. lia.
  - split_and!; [done | done | lia | lia | done].
Qed.

(** What is left after one size is less than that size. *)
Lemma split_size_ok n start cur stop i l :
  AreaIndex_wf i -> 0 < cur <= stop -> stop + 16777216 <= U64_MAX -> stop - cur < 16 * Z.of_nat n -> end_to_end start cur l ->
  exists l' cur', split_size n cur stop i (AreaIndex_size i) l = Ok (l', cur') /\ end_to_end start cur' l' /\ (stop - cur') mod 16 = (stop - cur) mod 16 /\
    cur <= cur' <= stop /\ stop - cur' < AreaIndex_size i.
Proof.
  intros Hi. destruct (AreaIndex_size_bounds i Hi) as [Hsz Hm]. revert cur l. induction n as [|n IH]; intros cur l Hcur Hmax Hn Hl; cbn [split_size]; [lia|].
  rewrite advance_fits by lia.
  destruct (Z.leb_spec (cur + AreaIndex_size i) stop) as [Hle|Hgt]; [|exists l, cur; split_and!; done || lia].
  destruct (IH (cur + AreaIndex_size i) (l ++ [(cur, i)]) ltac:(lia) Hmax ltac:(lia) ltac:(by apply end_to_end_snoc)) as (l' & cur' & -> & Hl' & Hmod & Hc' & Hlast).
  exists l', cur'. split_and!; [done | done | | lia | lia | lia]. rewrite Hmod, <- (mod16_step (stop - cur) (AreaIndex_size i)) by done. f_equal. lia.
Qed.

Lemma split_sizes_ok n sizes start cur stop l :
  Forall (fun p : AreaIndex * Z => AreaIndex_wf p.1 /\ p.2 = AreaIndex_size p.1) sizes ->
  0 < cur <= stop -> stop + 16777216 <= U64_MAX -> stop - cur < 16 * Z.of_nat n -> end_to_end start cur l ->
  exists l' cur', split_sizes n sizes cur stop l = Ok (l', cur') /\ end_to_end start cur' l' /\ (stop - cur') mod 16 = (stop - cur) mod 16 /\
    cur <= cur' <= stop /\ forall p, p ∈ sizes -> stop - cur' < p.2.
Proof.
  intros Hs. revert cur l. induction Hs as [|[i size] sizes [Hi Hsz] Hs IH]; intros cur l Hcur Hmax Hn Hl; cbn [split_sizes].
  { exists l, cur. split_and!; [done | done | done | lia | lia|]. intros p Hp. by apply not_elem_of_nil in Hp. }
  cbn [fst snd] in *. subst size.
  destruct (split_size_ok n start cur stop i l Hi Hcur Hmax Hn Hl) as (l1 & cur1 & -> & Hl1 & Hm1 & Hc1 & Hr1). cbn [mbind result_bind].
  destruct (IH cur1 l1 ltac:(lia) Hmax ltac:(lia) Hl1) as (l2 & cur2 & -> & Hl2 & Hm2 & Hc2 & Hr2). exists l2, cur2.
  split_and!; [done | done | by rewrite Hm2 | lia | lia|]. intros p [->|Hp]%elem_of_cons; [cbn [snd]; lia | by apply Hr2].
Qed.

(** A leaked range of aligned length is split into areas that lie end to end and fill it, whatever bytes it has;
    only reading a node can panic. *)
Theorem split_range_exact n (s : St) start stop :
  is_bytes (store_bytes s) -> 0 < start <= stop -> stop + MAX_AREA_SIZE <= U64_MAX -> (stop - start) mod MIN_AREA_SIZE = 0 ->
  stop - start < MIN_AREA_SIZE * Z.of_nat n ->
  match (split_range_into_leaked_areas alg n s (start, stop)).1 with
  | Ok leaked => end_to_end start stop leaked
  | Err e => read_panics alg s e
  end.
Proof.
  change MAX_AREA_SIZE with 16777216. change MIN_AREA_SIZE with 16. intros Hb Hr Hmax Hmod Hn. unfold split_range_into_leaked_areas. cbn [fst snd].
  pose proof (split_stored_ok n s start start stop [] Hb Hr Hmax Hn eq_refl) as Hs.
  destruct (split_stored alg n s start stop []) as [[[[l cur] full]|e] s1]; cbn [fst] in *; [|exact Hs].
  destruct Hs as (Hl & Hm & Hc & Hfull). destruct full; cbn [fst]; [by rewrite <- (Hfull eq_refl)|].
  assert (Hall : Forall (fun p : AreaIndex * Z => AreaIndex_wf p.1 /\ p.2 = AreaIndex_size p.1) (rev area_size_iter)).
  { apply Forall_rev, Forall_forall. intros [i size] Hin. by apply area_size_iter_spec. }
  destruct (split_sizes_ok n (rev area_size_iter) start cur stop l Hall ltac:(lia) Hmax ltac:(lia) Hl) as (l' & cur' & -> & Hl' & Hm' & Hc' & Hlt). cbn.
  specialize (Hlt (0, 16) ltac:(apply (bool_decide_unpack _); vm_compute; exact I)). cbn [snd] in Hlt.
  replace stop with cur'; [done|]. rewrite Hm, Hmod in Hm'. rewrite Z.mod_small in Hm' by lia. lia.
Qed.

End Split.
